(* ===== verification/_CoqProject ===== *)
-Q . S2P
Prelude.v
Types.v
SmallFloat.v
Dll.v
OffsetAllocator.v
OffsetInv.v
Blocks.v
OffsetCorrect.v
OffsetFree.v
OffsetSpec.v
OffsetHandles.v
OffsetTyped.v
Serializer.v
OffsetSerial.v
Eviction.v
Float64.v
CacheSlab.v
CacheClass.v
CachePool.v
CacheAllocator.v
CacheInv.v
CacheChunks.v
CacheRelease.v
CachePools.v
CacheCorrect.v
CacheClients.v
StorePath.v
BufferAllocator.v
CachelibAllocator.v
Replica.v
ReplicaHeap.v
AllocationStrategy.v
SegmentManager.v
SegmentInv.v
MasterService.v
BatchEvict.v
MasterInv.v
MasterOps.v
MasterPut.v
MasterEvict.v
MasterSegments.v
MasterSteps.v
MasterRuns.v
MasterCorrect.v
MasterResults.v
PosixFiles.v
PosixSpec.v
StorageBackend.v
StorageCorrect.v
BucketStorage.v
BucketLayout.v
BucketInv.v
BucketLoad.v
BucketInit.v
BucketCorrect.v
BucketExamples.v
ClientProg.v
TransferTask.v
StoreClient.v
ClientSegments.v
MasterQuiet.v
ClientSystem.v
ClientHeld.v
ClientGhost.v
ClientInv.v
ClientMaster.v
ClientActs.v
ClientSpecs.v
ClientOps.v
ClientBatchPut.v
ClientCorrect.v
ClientExamples.v
ClientPing.v
HighAvailability.v
HaCorrect.v
Topology.v
TransferEngine.v
EngineInv.v
EngineWork.v
