(* ===== verification/Prelude.v ===== *)
(** * Mooncake: a verification development for the store

    Mooncake is a distributed key-value store for the caches of language models.
    Clients lend memory (segments) to the store; a master keeps the table of
    objects, decides where the copies of an object live, and hands out
    descriptors of buffers that clients read and write by remote memory access.
    The master never touches the data: its correctness is that a descriptor it
    hands out stays meaningful while the client may use it.  This library models
    the master of [src/mooncake-store] (all paths below are relative to that
    directory) with everything it is built from, and proves it correct.

    ** The parts and the files that model them

    - Prelude: machine integers ([u32], [u64]), the state monad with faults [ST]
      and its total-correctness triple [runs], tactics and shared list lemmas.
      Types: error codes, segments and status values (include/types.h,
      src/types.cpp).
    - The offset allocator (include/offset_allocator/offset_allocator.hpp,
      src/offset_allocator.cpp).  SmallFloat models the size bins,
      OffsetAllocator the class [__Allocator] with its node arrays, bin lists and
      bit masks.  Blocks is the specification: a storage tiled by free and used
      blocks.  Dll, OffsetInv, OffsetCorrect and OffsetFree hold the
      representation invariant and the proof that [allocate] and [free]
      implement the specification; OffsetSpec states it for clients; OffsetTyped
      shows that every field keeps its machine type.  OffsetWrapper and
      OffsetHandles model the public class [OffsetAllocator] with its scaling,
      counters and handles that free on destruction.  Serializer and OffsetSerial
      model include/serializer.h and the save and restore of the allocator.
    - Eviction: the LRU and FIFO strategies (include/eviction_strategy.h), with
      list iterators as identities of cells.
    - BufferAllocator: the interface [BufferAllocatorBase] (include/allocator.h) as
      the class [BufferAllocator] with the laws [BufferAllocatorLaws], and
      [OffsetBufferAllocator] (src/allocator.cpp), discharged by OffsetHandles.
    - CacheLib's allocator (src/cachelib_memory_allocator): CacheSlab models
      [SlabAllocator] and the slab headers, CacheClass [AllocationClass] with its
      free lists and slab releases, CachePool [MemoryPool], CacheAllocator
      [MemoryPoolManager], [MemoryAllocator] and the generation of the size classes.
      CacheInv, CacheChunks, CacheRelease, CachePools and CacheCorrect carry the
      invariant from slabs to chunks, classes, pools and the whole allocator;
      CacheClients states the guarantees for its clients.  CachelibAllocator models
      [CachelibBufferAllocator] and [SimpleAllocator] on top of it and discharges
      the laws of the interface, so that the theorems on the master hold for both
      kinds of allocator.
    - Replica: [AllocatedBuffer], [Replica], the gauges of
      src/master_metric_manager.cpp and [ObjectMetadata] (include/replica.h,
      include/master_service.h).  A [World] is the heap of allocators that shared
      pointers keep alive, with the gauges; destructors are explicit calls.
      ReplicaHeap is the account of who owns which buffer.
    - AllocationStrategy: [RandomAllocationStrategy] (include/allocation_strategy.h).
    - SegmentManager, SegmentInv: mounting and the two phases of unmounting
      (src/segment.cpp, include/segment.h).
    - StorePath: the path of the disk copy of a key; Float64: the double
      arithmetic of the eviction thread.
    - MasterService: the handlers of src/master_service.cpp, one definition per
      method or, where a method takes locks one after the other, per critical
      section; BatchEvict: the eviction thread.  Master is the state: the 1024
      shards of the table, the segment manager, the world, the client set and the
      ping queue.
    - MasterInv is the invariant and what the building blocks of the handlers do to
      it; MasterOps, MasterPut, MasterEvict and MasterSegments say what each
      handler does; MasterSteps interleaves critical sections, the phases of
      unmounts and the client monitor; MasterRuns shows that the handlers are runs
      of these steps; MasterCorrect and MasterResults state the guarantees.

    ** How the parts interact

    A mounted segment has one buffer allocator, owned by shared pointers of the
    segment manager; buffers refer to it weakly.  [PutStart] picks allocators
    through the allocation strategy, and the object it enters owns the buffers.
    Objects are destroyed by removal, revocation, eviction and cleaning, and give
    their buffers back.  Unmounting a segment first destroys the allocator, so
    that the buffers on it become stale, then cleans the table shard by shard, then
    forgets the segment.  Leases keep readers safe against removal and eviction.

    ** What the theorems show

    - The node allocator refines the block specification, is memory safe, keeps
      held allocations disjoint, serves a request exactly when its report says so,
      picks the best bin, and coalesces completely; handles are safe to move,
      assign and destroy in any order, and the counters are exact; a saved
      allocator is restored, and an image of another length is refused.
    - CacheLib's allocator is memory safe for every sequence of calls of its clients,
      keeps held allocations disjoint, refuses and fails only where it must, accounts
      for every byte, and a slab release waits for exactly the chunks still held.
    - The LRU strategy evicts the least recently used key and never follows a
      dangling iterator.
    - In every state the master can reach, under every interleaving of handlers,
      eviction, unmounts and client expiry: no handler faults; buffers handed out
      are disjoint and inside mounted segments; a replica under a lease survives
      until the lease ends unless its segment is unmounted; a stale handle occurs
      only in a shard an unmount under way has yet to clean; all gauges are exact.
    - The outcome of each handler on every branch, the round trip of writing and
      reading an object, the exact effect of eviction, and the unmounting of the
      segments of a client that stopped pinging.
    - Where the code does not do what it means to, a theorem says what it does:
      the write that is lost on a stale key, the oversized request, the image that
      is written past the arrays, colliding paths, the FIFO strategy that evicts
      removed keys, the pool that exceeds its limit after a release, the truncated
      request of [SimpleAllocator], the table of 128 classes that no free survives.

    ** Modelling choices and bounds

    A fault ([None] of [ST]) is an access outside an array, to a cell never
    written, through a dead allocator, or to an entry that is not there; a theorem
    with [runs] says that the code returns and does not fault.  Loops are structural
    on the data they visit; the walk of a bin list in [storageReportFull] has the
    node capacity as fuel, which the invariant shows to be enough, and the retry
    loop of the allocation strategy has the limit of the source.  Integers have
    their C++ width wherever they can wrap; times are nanoseconds in Z, request
    sizes reach the allocators below 2^63, and with CacheLib up to the slice limit
    that [PutStart] enforces ([max_request]); gauges are Z, whose 64-bit range the
    sum of mounted memory does not reach.  CacheLib's region is below 2^56 bytes and has
    at most 127 classes, as the generated table does; exceptions are values of the
    monad [EX], whose missing result is an access outside a vector.  What the code takes
    from outside is an argument: the clock, the hash of a key, the arrangement
    [std::shuffle] produces, the order in which an [unordered_map] is listed, the
    matcher of [std::regex], whether the bounded queue of pings has room.  A method
    is atomic where the source holds a lock for its whole body.

    ** Not modelled

    - Of CacheLib's allocator: statistics, memory locking and the failing try_lock of
      [forEachAllocation].
    - The RPC layer and the process start-up (src/rpc_service.cpp, src/master.cpp)
      log, count and forward; their behaviour is that of the RPC library.
    - The store client, the storage backend, the transfer engine, the peer-to-peer
      store, high availability through etcd, the conductor, the GPU kernels and the
      language bindings are outside this library: they move data over devices,
      files and sockets, or wrap the code modelled here.
    - Logging, histograms and the rendering of metrics. *)

From stdpp Require Export functions.
From stdpp Require Export base list gmap strings sorting.
From Stdlib Require Export ZArith Lia.

#[export] Set Default Goal Selector "!".
#[export] Set Warnings "-clear-no-such-hyp,-level-tolerance".

Open Scope Z_scope.

(** ** Machine integers

    A [w]-bit unsigned integer is a [Z]; every operation that can leave the
    range is followed by the reduction the hardware performs. *)

Definition u8 (z : Z) : Z := z mod 2 ^ 8.
Definition u32 (z : Z) : Z := z mod 2 ^ 32.
Definition u64 (z : Z) : Z := z mod 2 ^ 64.

Declare Scope u32_scope.
Delimit Scope u32_scope with u32.
Notation "a ⊞ b" := (u32 (a + b)) (at level 50, left associativity) : u32_scope.
Notation "a ⊟ b" := (u32 (a - b)) (at level 50, left associativity) : u32_scope.
Notation "a <<< n" := (u32 (Z.shiftl a n)) (at level 35) : u32_scope.
Notation "a >>> n" := (Z.shiftr a n) (at level 35) : u32_scope.
Notation "a & b" := (Z.land a b) (at level 40, left associativity) : u32_scope.
Notation "a ∥ b" := (Z.lor a b) (at level 45, left associativity) : u32_scope.

(** Bitwise complement of a 32-bit word. *)
Definition lnot32 (z : Z) : Z := 2 ^ 32 - 1 - z.

Definition is_u32 (z : Z) : Prop := 0 <= z < 2 ^ 32.
Definition is_u64 (z : Z) : Prop := 0 <= z < 2 ^ 64.

Lemma u32_small z : is_u32 z → u32 z = z.
Proof. intros H. by apply Z.mod_small. Qed.

Lemma u64_small z : is_u64 z → u64 z = z.
Proof. intros H. by apply Z.mod_small. Qed.

Lemma u32_range z : is_u32 (u32 z).
Proof. by apply Z.mod_pos_bound. Qed.

Lemma u64_range z : is_u64 (u64 z).
Proof. by apply Z.mod_pos_bound. Qed.

(** Disjoint-bit [or] is addition. *)
Lemma lor_shiftl_low e m k :
  0 <= k → 0 <= m < 2 ^ k → Z.lor (Z.shiftl e k) m = e * 2 ^ k + m.
Proof.
  intros Hk Hm. rewrite <-Z.shiftl_mul_pow2 by done.
  assert (Z.land (Z.shiftl e k) m = 0) as E.
  { apply Z.bits_inj'. intros i Hi. rewrite Z.land_spec, Z.bits_0.
    destruct (decide (i < k)).
    - by rewrite Z.shiftl_spec_low.
    - rewrite <-(Z.mod_small m (2 ^ k)), Z.mod_pow2_bits_high by lia. apply andb_false_r. }
  rewrite <-Z.lxor_lor by done. symmetry. by apply Z.add_nocarry_lxor.
Qed.

(** The identity table on [0 .. n). *)
Lemma seqZ_stack n k : 0 <= k < n →
  (list_to_map ((λ i, (i, i)) <$> seqZ 0 n) : gmap Z Z) !! k = Some k.
Proof.
  intros Hk. apply elem_of_list_to_map_1.
  - rewrite <-list_fmap_compose. rewrite (list_fmap_ext _ id), list_fmap_id; [apply NoDup_seqZ|done].
  - apply list_elem_of_fmap. exists k. by rewrite elem_of_seqZ.
Qed.

(** ** Lists *)

Lemma filter_ext_elem {A} (P Q : A → Prop) `{∀ x, Decision (P x), ∀ x, Decision (Q x)} (l : list A) :
  (∀ x, x ∈ l → P x ↔ Q x) → filter P l = filter Q l.
Proof.
  induction l as [|x l IH]; intros HPQ; [done|]. rewrite !filter_cons, IH by (intros; apply HPQ; by right).
  destruct (HPQ x) as [H1 H2]; [left|]. repeat case_decide; naive_solver.
Qed.

Lemma filter_all {A} (P : A → Prop) `{∀ x, Decision (P x)} (l : list A) :
  (∀ x, x ∈ l → P x) → filter P l = l.
Proof.
  induction l as [|x l IH]; intros HP; [done|].
  rewrite filter_cons, decide_True, IH; [done| |apply HP; left]. intros; apply HP; by right.
Qed.

Lemma filter_none {A} (P : A → Prop) `{∀ x, Decision (P x)} (l : list A) :
  (∀ x, x ∈ l → ¬ P x) → filter P l = [].
Proof.
  induction l as [|x l IH]; intros HP; [done|].
  rewrite filter_cons, decide_False by (apply HP; left). apply IH. intros; apply HP; by right.
Qed.

Lemma Forall_filter_keep {A} (Q P : A → Prop) `{∀ x, Decision (P x)} (l : list A) :
  Forall Q l → Forall Q (filter P l).
Proof. rewrite !Forall_forall. intros HQ x [_ Hx]%list_elem_of_filter. by apply HQ. Qed.

Lemma NoDup_fmap_filter {A B} (f : A → B) (P : A → Prop) `{∀ x, Decision (P x)} (l : list A) :
  NoDup (f <$> l) → NoDup (f <$> filter P l).
Proof. intros Hn. eapply sublist_NoDup; [exact Hn|]. apply fmap_sublist, sublist_filter. Qed.

Lemma NoDup_fmap_inj {A B} (f : A → B) (l : list A) x y :
  NoDup (f <$> l) → x ∈ l → y ∈ l → f x = f y → x = y.
Proof.
  intros Hn [i Hi]%list_elem_of_lookup [j Hj]%list_elem_of_lookup E.
  assert (i = j) as ->; [|congruence].
  apply (NoDup_lookup _ _ _ (f x) Hn); rewrite list_lookup_fmap, ?Hi, ?Hj; simpl; congruence.
Qed.

Lemma StronglySorted_filter {A} (R : relation A) (P : A → Prop) `{∀ x, Decision (P x)} l :
  StronglySorted R l → StronglySorted R (filter P l).
Proof.
  induction 1 as [|x l _ IH HF]; [constructor|]. rewrite filter_cons. case_decide; [|done].
  constructor; [done|]. apply Forall_forall. intros y Hy. apply list_elem_of_filter in Hy as [_ Hy].
  by eapply Forall_forall in HF.
Qed.

Lemma StronglySorted_mono {A} (R R' : relation A) l :
  (∀ x y, x ∈ l → y ∈ l → R x y → R' x y) → StronglySorted R l → StronglySorted R' l.
Proof.
  intros HR. induction 1 as [|x l _ IH HF]; [constructor|]. constructor.
  - apply IH. intros y z Hy Hz. apply HR; by right.
  - apply Forall_forall. intros y Hy. eapply Forall_forall in HF; [|done]. apply HR; [left|by right|done].
Qed.

Lemma sum_Permutation (l1 l2 : list Z) : l1 ≡ₚ l2 → foldr Z.add 0 l1 = foldr Z.add 0 l2.
Proof. induction 1; simpl; lia. Qed.

Definition zsum (l : list Z) : Z := foldr Z.add 0 l.

Lemma zsum_cons x l : zsum (x :: l) = x + zsum l.
Proof. done. Qed.

Lemma zsum_app l1 l2 : zsum (l1 ++ l2) = zsum l1 + zsum l2.
Proof. unfold zsum. induction l1; simpl; lia. Qed.

#[export] Instance zsum_perm : Proper ((≡ₚ) ==> eq) zsum.
Proof. intros l1 l2 Hp. by apply sum_Permutation. Qed.

(** Changing one summand. *)
Lemma zsum_imap_update (f g : nat → Z → Z) (l : list Z) i n :
  l !! i = Some n → (∀ j m, j ≠ i → g j m = f j m) → zsum (imap g l) = zsum (imap f l) + (g i n - f i n).
Proof.
  revert f g i. induction l as [|m l IH]; intros f g i Hi Hfg; [done|]. rewrite !imap_cons, !zsum_cons.
  destruct i as [|i]; simpl in Hi.
  - injection Hi as ->. assert (imap (g ∘ S) l = imap (f ∘ S) l) as ->; [|lia].
    apply imap_ext. intros j m' _. by apply Hfg.
  - rewrite (IH (f ∘ S) (g ∘ S) i Hi) by (intros j m' Hj; apply Hfg; lia). rewrite (Hfg 0%nat m) by done. simpl. lia.
Qed.

Lemma u64_add_l x y : u64 (u64 x + y) = u64 (x + y).
Proof. unfold u64. by rewrite Zplus_mod_idemp_l. Qed.

Lemma u64_sub_l x y : u64 (u64 x - y) = u64 (x - y).
Proof. unfold u64. by rewrite Zminus_mod_idemp_l. Qed.

Create HintDb mooncake.
#[export] Hint Resolve u32_range u64_range : mooncake.

(** ** State with faults

    Code that reads and writes arrays is modelled in a state monad whose
    failure ([None]) is an access outside an array or to memory that was never
    written: proving that an operation returns [Some] proves it memory safe. *)

Definition ST (S A : Type) : Type := S → option (A * S).

#[export] Instance st_ret S : MRet (ST S) := λ A x s, Some (x, s).
#[export] Instance st_bind S : MBind (ST S) := λ A B k m s,
  match m s with
  | Some (x, s') => k x s'
  | None => None
  end.

Definition gets {S A} (f : S → A) : ST S A := λ s, Some (f s, s).
Definition modify {S} (f : S → S) : ST S unit := λ s, Some (tt, f s).
Definition fault {S A} : ST S A := λ _, None.
Definition when {S} (b : bool) (m : ST S unit) : ST S unit := if b then m else mret tt.

(** [runs m s Q]: started in [s], [m] does not fault and ends in [Q]. *)
Definition runs {S A} (m : ST S A) (s : S) (Q : A → S → Prop) : Prop :=
  ∃ x s', m s = Some (x, s') ∧ Q x s'.

Section runs.
Context {S : Type}.

Lemma runs_ret {A} (x : A) (s : S) Q : Q x s → runs (mret x) s Q.
Proof. intros H. by exists x, s. Qed.

Lemma runs_bind {A B} (m : ST S A) (k : A → ST S B) s Q :
  runs m s (λ x s', runs (k x) s' Q) → runs (m ≫= k) s Q.
Proof.
  intros (x & s' & E & y & s'' & E' & H). exists y, s''. split; [|done].
  unfold mbind, st_bind. by rewrite E.
Qed.

Lemma runs_assoc {A B C} (m : ST S A) (n : A → ST S B) (k : B → ST S C) s Q :
  runs ((m ≫= n) ≫= k) s Q → runs (m ≫= λ x, n x ≫= k) s Q.
Proof. unfold runs, mbind, st_bind. by destruct (m s) as [[x s']|]. Qed.

Lemma runs_gets {A} (f : S → A) (s : S) Q : Q (f s) s → runs (gets f) s Q.
Proof. intros H. by exists (f s), s. Qed.

Lemma runs_modify (f : S → S) (s : S) Q : Q tt (f s) → runs (modify f) s Q.
Proof. intros H. by exists tt, (f s). Qed.

Lemma runs_when (b : bool) (m : ST S unit) s Q :
  (b = true → runs m s Q) → (b = false → Q tt s) → runs (when b m) s Q.
Proof. destruct b; intros H1 H2; [by apply H1|]. by apply runs_ret, H2. Qed.

Lemma runs_mono {A} (m : ST S A) s (P Q : A → S → Prop) :
  runs m s P → (∀ x s', P x s' → Q x s') → runs m s Q.
Proof. intros (x & s' & E & H) HPQ. exists x, s'. eauto. Qed.

Lemma runs_det {A} (m : ST S A) s Q x s' : runs m s Q → m s = Some (x, s') → Q x s'.
Proof. intros (y & t & E & H) E'. by simplify_eq. Qed.
End runs.

(** One symbolic-execution step through the monad's plumbing. *)
Ltac runs_step :=
  lazymatch goal with
  | |- runs (mret _) _ _ => apply runs_ret
  | |- runs (_ ≫= _) _ _ => apply runs_bind
  | |- runs (gets _) _ _ => apply runs_gets
  | |- runs (modify _) _ _ => apply runs_modify
  | |- runs (when _ _) _ _ => apply runs_when; intros
  | |- runs (if ?b then _ else _) _ _ => destruct b eqn:?
  | |- runs (let _ := _ in _) _ _ => cbv zeta
  end.
Ltac runs_steps := repeat runs_step.

(** Resolve the [decide]s of the goal that the context settles. *)
Ltac dec_simp :=
  repeat match goal with
  | |- context [decide ?P] =>
      first [ rewrite (decide_True (P := P)) by (repeat split; congruence)
            | rewrite (decide_False (P := P)) by (intros ?; destruct_and?; congruence) ]
  end.
