(* ===== verification/Types.v ===== *)
(** * Types: the vocabulary shared by the store

    Error codes with their wire values and names (types.h, types.cpp), the
    segment record, client and segment status, and the allocator kinds. *)

From S2P Require Import Prelude.
Open Scope Z_scope.

Module EC.

Inductive ErrorCode :=
| OK
| INTERNAL_ERROR
| BUFFER_OVERFLOW
| SHARD_INDEX_OUT_OF_RANGE
| SEGMENT_NOT_FOUND
| SEGMENT_ALREADY_EXISTS
| NO_AVAILABLE_HANDLE
| INVALID_VERSION
| INVALID_KEY
| WRITE_FAIL
| INVALID_PARAMS
| INVALID_WRITE
| INVALID_READ
| INVALID_REPLICA
| REPLICA_IS_NOT_READY
| OBJECT_NOT_FOUND
| OBJECT_ALREADY_EXISTS
| OBJECT_HAS_LEASE
| LEASE_EXPIRED
| TRANSFER_FAIL
| RPC_FAIL
| ETCD_OPERATION_ERROR
| ETCD_KEY_NOT_EXIST
| ETCD_TRANSACTION_FAIL
| ETCD_CTX_CANCELLED
| UNAVAILABLE_IN_CURRENT_STATUS
| UNAVAILABLE_IN_CURRENT_MODE
| FILE_NOT_FOUND
| FILE_OPEN_FAIL
| FILE_READ_FAIL
| FILE_WRITE_FAIL
| FILE_INVALID_BUFFER
| FILE_LOCK_FAIL
| FILE_INVALID_HANDLE
| BUCKET_NOT_FOUND
| BUCKET_ALREADY_EXISTS
| KEYS_ULTRA_BUCKET_LIMIT
| UNABLE_OFFLOAD.

#[global] Instance ErrorCode_eq_dec : EqDecision ErrorCode.
Proof. solve_decision. Defined.

(** The value of the enumerator, which is what an RPC reply carries. *)
Definition toInt (e : ErrorCode) : Z :=
  match e with
  | OK => 0
  | INTERNAL_ERROR => -1
  | BUFFER_OVERFLOW => -10
  | SHARD_INDEX_OUT_OF_RANGE => -100
  | SEGMENT_NOT_FOUND => -101
  | SEGMENT_ALREADY_EXISTS => -102
  | NO_AVAILABLE_HANDLE => -200
  | INVALID_VERSION => -300
  | INVALID_KEY => -400
  | WRITE_FAIL => -500
  | INVALID_PARAMS => -600
  | INVALID_WRITE => -700
  | INVALID_READ => -701
  | INVALID_REPLICA => -702
  | REPLICA_IS_NOT_READY => -703
  | OBJECT_NOT_FOUND => -704
  | OBJECT_ALREADY_EXISTS => -705
  | OBJECT_HAS_LEASE => -706
  | LEASE_EXPIRED => -707
  | TRANSFER_FAIL => -800
  | RPC_FAIL => -900
  | ETCD_OPERATION_ERROR => -1000
  | ETCD_KEY_NOT_EXIST => -1001
  | ETCD_TRANSACTION_FAIL => -1002
  | ETCD_CTX_CANCELLED => -1003
  | UNAVAILABLE_IN_CURRENT_STATUS => -1010
  | UNAVAILABLE_IN_CURRENT_MODE => -1011
  | FILE_NOT_FOUND => -1100
  | FILE_OPEN_FAIL => -1101
  | FILE_READ_FAIL => -1102
  | FILE_WRITE_FAIL => -1103
  | FILE_INVALID_BUFFER => -1104
  | FILE_LOCK_FAIL => -1105
  | FILE_INVALID_HANDLE => -1106
  | BUCKET_NOT_FOUND => -1200
  | BUCKET_ALREADY_EXISTS => -1201
  | KEYS_ULTRA_BUCKET_LIMIT => -1202
  | UNABLE_OFFLOAD => -1300
  end.

Definition all_codes : list ErrorCode :=
  [OK; INTERNAL_ERROR; BUFFER_OVERFLOW; SHARD_INDEX_OUT_OF_RANGE; SEGMENT_NOT_FOUND;
   SEGMENT_ALREADY_EXISTS; NO_AVAILABLE_HANDLE; INVALID_VERSION; INVALID_KEY; WRITE_FAIL;
   INVALID_PARAMS; INVALID_WRITE; INVALID_READ; INVALID_REPLICA; REPLICA_IS_NOT_READY;
   OBJECT_NOT_FOUND; OBJECT_ALREADY_EXISTS; OBJECT_HAS_LEASE; LEASE_EXPIRED; TRANSFER_FAIL;
   RPC_FAIL; ETCD_OPERATION_ERROR; ETCD_KEY_NOT_EXIST; ETCD_TRANSACTION_FAIL;
   ETCD_CTX_CANCELLED; UNAVAILABLE_IN_CURRENT_STATUS; UNAVAILABLE_IN_CURRENT_MODE;
   FILE_NOT_FOUND; FILE_OPEN_FAIL; FILE_READ_FAIL; FILE_WRITE_FAIL; FILE_INVALID_BUFFER;
   FILE_LOCK_FAIL; FILE_INVALID_HANDLE; BUCKET_NOT_FOUND; BUCKET_ALREADY_EXISTS;
   KEYS_ULTRA_BUCKET_LIMIT; UNABLE_OFFLOAD].

(** The cast back from an integer: [None] for a value without a name. *)
Definition fromInt (z : Z) : option ErrorCode := find (λ e, toInt e =? z) all_codes.

(** The names used in logs; codes that the table does not list are unknown. *)
Definition toString (e : ErrorCode) : string :=
  match e with
  | OK => "OK"
  | INTERNAL_ERROR => "INTERNAL_ERROR"
  | BUFFER_OVERFLOW => "BUFFER_OVERFLOW"
  | SHARD_INDEX_OUT_OF_RANGE => "SHARD_INDEX_OUT_OF_RANGE"
  | SEGMENT_NOT_FOUND => "SEGMENT_NOT_FOUND"
  | SEGMENT_ALREADY_EXISTS => "SEGMENT_ALREADY_EXISTS"
  | NO_AVAILABLE_HANDLE => "NO_AVAILABLE_HANDLE"
  | INVALID_VERSION => "INVALID_VERSION"
  | INVALID_KEY => "INVALID_KEY"
  | WRITE_FAIL => "WRITE_FAIL"
  | INVALID_PARAMS => "INVALID_PARAMS"
  | INVALID_WRITE => "INVALID_WRITE"
  | INVALID_READ => "INVALID_READ"
  | INVALID_REPLICA => "INVALID_REPLICA"
  | REPLICA_IS_NOT_READY => "REPLICA_IS_NOT_READY"
  | OBJECT_NOT_FOUND => "OBJECT_NOT_FOUND"
  | OBJECT_ALREADY_EXISTS => "OBJECT_ALREADY_EXISTS"
  | OBJECT_HAS_LEASE => "OBJECT_HAS_LEASE"
  | LEASE_EXPIRED => "LEASE_EXPIRED"
  | TRANSFER_FAIL => "TRANSFER_FAIL"
  | RPC_FAIL => "RPC_FAIL"
  | ETCD_OPERATION_ERROR => "ETCD_OPERATION_ERROR"
  | ETCD_KEY_NOT_EXIST => "ETCD_KEY_NOT_EXIST"
  | ETCD_TRANSACTION_FAIL => "ETCD_TRANSACTION_FAIL"
  | ETCD_CTX_CANCELLED => "ETCD_CTX_CANCELLED"
  | UNAVAILABLE_IN_CURRENT_STATUS => "UNAVAILABLE_IN_CURRENT_STATUS"
  | UNAVAILABLE_IN_CURRENT_MODE => "UNAVAILABLE_IN_CURRENT_MODE"
  | FILE_NOT_FOUND => "FILE_NOT_FOUND"
  | FILE_OPEN_FAIL => "FILE_OPEN_FAIL"
  | FILE_READ_FAIL => "FILE_READ_FAIL"
  | FILE_WRITE_FAIL => "FILE_WRITE_FAIL"
  | FILE_INVALID_BUFFER => "FILE_INVALID_BUFFER"
  | FILE_LOCK_FAIL => "FILE_LOCK_FAIL"
  | FILE_INVALID_HANDLE => "FILE_INVALID_HANDLE"
  | _ => "UNKNOWN_ERROR"
  end.

(** Codes survive the trip over the wire. *)
Lemma fromInt_toInt e : fromInt (toInt e) = Some e.
Proof. by destruct e. Qed.

Lemma toInt_inj e1 e2 : toInt e1 = toInt e2 → e1 = e2.
Proof. intros E. apply (inj Some). by rewrite <-!fromInt_toInt, E. Qed.

End EC.

Abbreviation ErrorCode := EC.ErrorCode.

(** ** Segments, clients and allocator kinds *)

Definition UUID : Type := Z * Z.

Record Segment := mkSegment {
  seg_id : UUID;
  seg_name : string;
  seg_base : Z;
  seg_size : Z;
  te_endpoint : string;
}.

Inductive ClientStatus := CS_UNDEFINED | CS_OK | CS_NEED_REMOUNT.

Inductive BufferAllocatorType := CACHELIB | OFFSET.

#[export] Instance Segment_eq_dec : EqDecision Segment.
Proof. solve_decision. Defined.
#[export] Instance ClientStatus_eq_dec : EqDecision ClientStatus.
Proof. solve_decision. Defined.
#[export] Instance BufferAllocatorType_eq_dec : EqDecision BufferAllocatorType.
Proof. solve_decision. Defined.

(** ** Constants *)

Definition DEFAULT_DEFAULT_KV_LEASE_TTL : Z := 5000.
Definition DEFAULT_KV_SOFT_PIN_TTL_MS : Z := 30 * 60 * 1000.
Definition DEFAULT_ALLOW_EVICT_SOFT_PINNED_OBJECTS : bool := true.
Definition DEFAULT_CLIENT_LIVE_TTL_SEC : Z := 10.

(** Slab.h: [Slab::kSize] and [Slab::kMinAllocSize], and the slice bounds
    derived from them. *)
Definition kSlabSize : Z := 2 ^ 24.
Definition kMinSliceSize : Z := 2 ^ 6.
Definition kMaxSliceSize : Z := kSlabSize - 16.
