(* ===== verification/SmallFloat.v ===== *)
(** * SmallFloat: the bin-size code of the offset allocator

    Models the bit-scan helpers and the [SmallFloat] namespace of
    [mooncake-store/src/offset_allocator.cpp].  A bin index is a small
    floating-point number (5-bit exponent, 3-bit mantissa, hidden bit); the
    allocator rounds request sizes up and free-node sizes down to a bin.

    The reference definition [bin_size] is the size a bin index denotes on
    unbounded integers.  The main facts are the two Galois connections
    ([roundDown_galois], [roundUp_galois]): rounding down gives the greatest
    bin that fits in the size, rounding up the least bin the size fits in. *)

From S2P Require Import Prelude.
Open Scope Z_scope.
Open Scope u32_scope.

(** ** Bit scans *)

(** [__builtin_clz] on a non-zero 32-bit word. *)
Definition lzcnt_nonzero (v : Z) : Z := 31 - Z.log2 v.

Fixpoint pos_ctz (p : positive) : Z :=
  match p with
  | xO q => 1 + pos_ctz q
  | _ => 0
  end.

(** [__builtin_ctz] on a non-zero word (its value at 0 is undefined in C). *)
Definition tzcnt_nonzero (v : Z) : Z :=
  match v with
  | Zpos p => pos_ctz p
  | _ => 0
  end.

Definition NO_SPACE : Z := 4294967295.

Definition findLowestSetBitAfter (bitMask startBitIndex : Z) : Z :=
  let maskBeforeStartIndex := (1 <<< startBitIndex) ⊟ 1 in
  let maskAfterStartIndex := lnot32 maskBeforeStartIndex in
  let bitsAfter := bitMask & maskAfterStartIndex in
  if bitsAfter =? 0 then NO_SPACE else tzcnt_nonzero bitsAfter.

(** ** The small-float code *)

Definition MANTISSA_BITS : Z := 3.
Definition MANTISSA_VALUE : Z := Z.shiftl 1 MANTISSA_BITS.
Definition MANTISSA_MASK : Z := MANTISSA_VALUE - 1.
Definition MAX_BIN_SIZE : Z := 4026531840.

Definition uintToFloatRoundUp (size : Z) : Z :=
  let '(exp, mantissa) :=
    if size <? MANTISSA_VALUE then (0, size)
    else
      let leadingZeros := lzcnt_nonzero size in
      let highestSetBit := 31 ⊟ leadingZeros in
      let mantissaStartBit := highestSetBit ⊟ MANTISSA_BITS in
      let exp := mantissaStartBit ⊞ 1 in
      let mantissa := (size >>> mantissaStartBit) & MANTISSA_MASK in
      let lowBitsMask := (1 <<< mantissaStartBit) ⊟ 1 in
      if negb ((size & lowBitsMask) =? 0) then (exp, mantissa ⊞ 1)
      else (exp, mantissa) in
  (exp <<< MANTISSA_BITS) ⊞ mantissa.

Definition uintToFloatRoundDown (size : Z) : Z :=
  let '(exp, mantissa) :=
    if size <? MANTISSA_VALUE then (0, size)
    else
      let leadingZeros := lzcnt_nonzero size in
      let highestSetBit := 31 ⊟ leadingZeros in
      let mantissaStartBit := highestSetBit ⊟ MANTISSA_BITS in
      (mantissaStartBit ⊞ 1, (size >>> mantissaStartBit) & MANTISSA_MASK) in
  (exp <<< MANTISSA_BITS) ∥ mantissa.

Definition floatToUint (floatValue : Z) : Z :=
  let exponent := floatValue >>> MANTISSA_BITS in
  let mantissa := floatValue & MANTISSA_MASK in
  if exponent =? 0 then mantissa
  else (mantissa ∥ MANTISSA_VALUE) <<< (exponent - 1).

(** ** Reference definition and normal forms *)

(** The size denoted by a bin index, on unbounded integers. *)
Definition bin_size (b : Z) : Z :=
  if b <? 8 then b else (b mod 8 + 8) * 2 ^ (b / 8 - 1).

(** Every size of at least 8 is [q * 2^n + r] with a 4-bit leading part [q]. *)
Definition nform (s n q r : Z) : Prop :=
  s = q * 2 ^ n + r ∧ 0 <= n ∧ 8 <= q < 16 ∧ 0 <= r < 2 ^ n.

Lemma nform_exists s : 8 <= s → ∃ n q r, nform s n q r ∧ n = Z.log2 s - 3.
Proof.
  intros Hs. set (n := Z.log2 s - 3).
  assert (3 <= Z.log2 s) as Hl by (change 3 with (Z.log2 8); by apply Z.log2_le_mono).
  destruct (Z.log2_spec s ltac:(lia)) as [Hlo Hhi].
  assert (0 < 2 ^ n) by (apply Z.pow_pos_nonneg; lia).
  assert (2 ^ Z.log2 s = 8 * 2 ^ n) as E.
  { change 8 with (2 ^ 3). rewrite <-Z.pow_add_r by lia. f_equal; lia. }
  rewrite Z.pow_succ_r, E in Hhi by lia. rewrite E in Hlo.
  exists n, (s / 2 ^ n), (s mod 2 ^ n). split; [|done].
  pose proof (Z.div_mod s (2 ^ n) ltac:(lia)).
  pose proof (Z.mod_pos_bound s (2 ^ n) ltac:(lia)).
  repeat split; try lia; nia.
Qed.

Lemma nform_log2 s n q r : nform s n q r → Z.log2 s = n + 3.
Proof.
  intros (-> & Hn & Hq & Hr).
  assert (0 < 2 ^ n) by (apply Z.pow_pos_nonneg; lia).
  apply Z.log2_unique; [lia|].
  replace (Z.succ (n + 3)) with (n + 4) by lia.
  rewrite !Z.pow_add_r by lia. nia.
Qed.

Lemma nform_div s n q r : nform s n q r → s / 2 ^ n = q ∧ s mod 2 ^ n = r.
Proof.
  intros (-> & Hn & Hq & Hr).
  split; symmetry.
  - apply (Z.div_unique_pos _ _ q r); lia.
  - apply (Z.mod_unique_pos _ _ q r); lia.
Qed.

Lemma nform_bound s n q r : nform s n q r → s < 2 ^ 32 → 0 <= n <= 28.
Proof.
  intros H Hs.
  pose proof (nform_log2 _ _ _ _ H) as E.
  pose proof (Z.log2_le_mono s (2 ^ 32 - 1) ltac:(lia)) as Hl.
  change (Z.log2 (2 ^ 32 - 1)) with 31 in Hl. destruct H as (_ & ? & _). lia.
Qed.

Lemma bin_size_nform n q : 0 <= n → 8 <= q <= 16 → bin_size (8 * n + q) = q * 2 ^ n.
Proof.
  intros Hn Hq. unfold bin_size. destruct (Z.ltb_spec (8 * n + q) 8); [lia|].
  destruct (decide (q = 16)) as [->|H16].
  - replace (8 * n + 16) with (0 + (n + 2) * 8) by lia.
    rewrite Z.mod_add, Z.div_add by lia. change (0 mod 8) with 0. change (0 / 8) with 0.
    replace (0 + (n + 2) - 1) with (n + 1) by lia. rewrite Z.pow_add_r by lia. lia.
  - replace (8 * n + q) with (q - 8 + (n + 1) * 8) by lia.
    rewrite Z.mod_add, Z.div_add, Z.mod_small, Z.div_small by lia.
    replace (0 + (n + 1) - 1) with n by lia. f_equal; lia.
Qed.

Lemma bin_size_small b : 0 <= b < 8 → bin_size b = b.
Proof. intros. unfold bin_size. by destruct (Z.ltb_spec b 8); [|lia]. Qed.

(** Every bin index of at least 8 is [8 * n + q] for a unique shape. *)
Lemma bin_form b : 8 <= b → ∃ n q, b = 8 * n + q ∧ 0 <= n ∧ 8 <= q < 16.
Proof.
  intros. exists (b / 8 - 1), (b mod 8 + 8).
  pose proof (Z.div_mod b 8 ltac:(lia)). pose proof (Z.mod_pos_bound b 8 ltac:(lia)).
  pose proof (Z.div_le_lower_bound b 8 1 ltac:(lia) ltac:(lia)). lia.
Qed.

(** [bin_size] is strictly increasing. *)
Lemma bin_size_step b : 0 <= b → bin_size b < bin_size (b + 1).
Proof.
  intros Hb. destruct (decide (b < 7)) as [H7|H7].
  { rewrite !bin_size_small by lia. lia. }
  destruct (decide (b = 7)) as [->|H7']; [done|].
  destruct (bin_form b ltac:(lia)) as (n & q & -> & Hn & Hq).
  rewrite <-Z.add_assoc, !bin_size_nform by lia.
  pose proof (Z.pow_pos_nonneg 2 n ltac:(lia) Hn). nia.
Qed.

Lemma bin_size_lt a b : 0 <= a → a < b → bin_size a < bin_size b.
Proof.
  intros Ha Hab. replace b with (a + 1 + (b - a - 1)) by lia.
  assert (0 <= b - a - 1) as Hd by lia. revert Hd. generalize (b - a - 1).
  apply natlike_ind.
  - rewrite Z.add_0_r. by apply bin_size_step.
  - intros d Hd IH. rewrite Z.add_succ_r. etrans; [done|]. apply bin_size_step. lia.
Qed.

Lemma bin_size_le_iff a b : 0 <= a → 0 <= b → bin_size a <= bin_size b ↔ a <= b.
Proof.
  intros Ha Hb. destruct (Z.lt_trichotomy a b) as [H|[->|H]].
  - pose proof (bin_size_lt a b Ha H). lia.
  - lia.
  - pose proof (bin_size_lt b a Hb H). lia.
Qed.

(** ** The machine code computes the reference *)

Lemma mantissa_start s n q r :
  nform s n q r → s < 2 ^ 32 →
  (31 ⊟ lzcnt_nonzero s) ⊟ MANTISSA_BITS = n.
Proof.
  intros H Hs. pose proof (nform_bound _ _ _ _ H Hs).
  unfold lzcnt_nonzero, MANTISSA_BITS. rewrite (nform_log2 _ _ _ _ H).
  rewrite !u32_small; unfold is_u32; rewrite ?u32_small; unfold is_u32; lia.
Qed.

Lemma mantissa_bits s n q r :
  nform s n q r → (s >>> n) & MANTISSA_MASK = q - 8.
Proof.
  intros H. destruct (nform_div _ _ _ _ H) as [Hq _]. destruct H as (_ & Hn & Hq' & _).
  change MANTISSA_MASK with (Z.ones 3).
  rewrite Z.land_ones, Z.shiftr_div_pow2, Hq by lia.
  change (2 ^ 3) with 8. symmetry. apply (Z.mod_unique_pos _ _ 1); lia.
Qed.

Lemma low_bits s n q r :
  nform s n q r → s < 2 ^ 32 → s & ((1 <<< n) ⊟ 1) = r.
Proof.
  intros H Hs. pose proof (nform_bound _ _ _ _ H Hs).
  destruct (nform_div _ _ _ _ H) as [_ Hr].
  assert (2 ^ n <= 2 ^ 28) by (apply Z.pow_le_mono_r; lia).
  pose proof (Z.pow_pos_nonneg 2 n ltac:(lia) ltac:(lia)).
  rewrite Z.shiftl_1_l, (u32_small (2 ^ n)), u32_small by (unfold is_u32; lia).
  replace (2 ^ n - 1) with (Z.ones n) by (rewrite Z.ones_equiv; lia).
  by rewrite Z.land_ones by lia.
Qed.

Lemma roundDown_nform s n q r :
  nform s n q r → s < 2 ^ 32 → uintToFloatRoundDown s = 8 * n + q.
Proof.
  intros H Hs. pose proof (nform_bound _ _ _ _ H Hs) as Hn.
  unfold uintToFloatRoundDown. rewrite (mantissa_start _ _ _ _ H Hs), (mantissa_bits _ _ _ _ H).
  assert (8 <= s) by (destruct H as (-> & ? & ? & ?); pose proof (Z.pow_pos_nonneg 2 n); nia).
  change MANTISSA_VALUE with 8. destruct (Z.ltb_spec s 8); [lia|].
  destruct H as (_ & _ & Hq & _). change MANTISSA_BITS with 3.
  rewrite (u32_small (n + 1)), u32_small, lor_shiftl_low by
    (unfold is_u32; rewrite ?Z.shiftl_mul_pow2 by lia; change (2 ^ 3) with 8; lia). lia.
Qed.

Lemma roundUp_nform s n q r :
  nform s n q r → s < 2 ^ 32 →
  uintToFloatRoundUp s = 8 * n + q + (if r =? 0 then 0 else 1).
Proof.
  intros H Hs. pose proof (nform_bound _ _ _ _ H Hs) as Hn.
  unfold uintToFloatRoundUp.
  rewrite (mantissa_start _ _ _ _ H Hs), (mantissa_bits _ _ _ _ H), (low_bits _ _ _ _ H Hs).
  assert (8 <= s) by (destruct H as (-> & ? & ? & ?); pose proof (Z.pow_pos_nonneg 2 n); nia).
  change MANTISSA_VALUE with 8. destruct (Z.ltb_spec s 8); [lia|].
  destruct H as (_ & _ & Hq & _). change MANTISSA_BITS with 3.
  rewrite (u32_small (n + 1)), (u32_small (q - 8 + 1)) by (unfold is_u32; lia).
  destruct (r =? 0); cbn [negb];
    rewrite (u32_small (Z.shiftl _ _)), Z.shiftl_mul_pow2, u32_small
      by (unfold is_u32; rewrite ?Z.shiftl_mul_pow2 by lia; change (2 ^ 3) with 8; lia); lia.
Qed.

Lemma rounds_small s : 0 <= s < 8 → uintToFloatRoundDown s = s ∧ uintToFloatRoundUp s = s.
Proof.
  intros Hs. unfold uintToFloatRoundDown, uintToFloatRoundUp. change MANTISSA_VALUE with 8.
  destruct (Z.ltb_spec s 8); [|lia]. change (u32 (Z.shiftl 0 MANTISSA_BITS)) with 0.
  rewrite u32_small by (unfold is_u32; lia). done.
Qed.

(** The decoder agrees with the reference on every bin the allocator can use. *)
Lemma floatToUint_bin_size b : 0 <= b < 240 → floatToUint b = bin_size b.
Proof.
  intros Hb. unfold floatToUint, bin_size. change MANTISSA_MASK with (Z.ones 3).
  change MANTISSA_BITS with 3. rewrite Z.land_ones, Z.shiftr_div_pow2 by lia.
  change (2 ^ 3) with 8. pose proof (Z.mod_pos_bound b 8 ltac:(lia)).
  destruct (Z.ltb_spec b 8).
  { rewrite Z.div_small, Z.mod_small by lia. done. }
  assert (1 <= b / 8 <= 29).
  { split; [apply Z.div_le_lower_bound|apply Z.lt_succ_r, Z.div_lt_upper_bound]; lia. }
  destruct (Z.eqb_spec (b / 8) 0); [lia|].
  rewrite Z.lor_comm. change MANTISSA_VALUE with (Z.shiftl 1 3).
  rewrite lor_shiftl_low, Z.shiftl_mul_pow2 by (change (2 ^ 3) with 8; lia).
  change (1 * 2 ^ 3) with 8. rewrite (Z.add_comm 8).
  apply u32_small. split; [pose proof (Z.pow_pos_nonneg 2 (b / 8 - 1)); nia|].
  assert (2 ^ (b / 8 - 1) <= 2 ^ 28) by (apply Z.pow_le_mono_r; lia).
  change (2 ^ 32) with (16 * 2 ^ 28). nia.
Qed.

(** Rounding down: the bin whose half-open size interval contains [s]. *)
Lemma roundDown_spec s :
  is_u32 s →
  let b := uintToFloatRoundDown s in
  0 <= b < 240 ∧ bin_size b <= s < bin_size (b + 1).
Proof.
  intros [Hlo Hhi]. simpl. destruct (decide (s < 8)) as [H8|H8].
  { destruct (rounds_small s ltac:(lia)) as [-> _]. rewrite bin_size_small by lia.
    pose proof (bin_size_step s Hlo). rewrite (bin_size_small s) in * by lia. lia. }
  destruct (nform_exists s ltac:(lia)) as (n & q & r & H & _).
  rewrite (roundDown_nform _ _ _ _ H Hhi). pose proof (nform_bound _ _ _ _ H Hhi).
  destruct H as (-> & ? & ? & ?).
  rewrite <-Z.add_assoc, !bin_size_nform by lia. split; [lia|nia].
Qed.

(** Rounding up: the bin whose left-open size interval contains [s]. *)
Lemma roundUp_spec s :
  is_u32 s →
  let b := uintToFloatRoundUp s in
  0 <= b <= 240 ∧ s <= bin_size b ∧ (0 < b → bin_size (b - 1) < s).
Proof.
  intros [Hlo Hhi]. simpl. destruct (decide (s < 8)) as [H8|H8].
  { destruct (rounds_small s ltac:(lia)) as [_ ->]. rewrite bin_size_small by lia.
    split; [lia|]. split; [lia|]. intros. rewrite bin_size_small by lia. lia. }
  destruct (nform_exists s ltac:(lia)) as (n & q & r & H & _).
  rewrite (roundUp_nform _ _ _ _ H Hhi). pose proof (nform_bound _ _ _ _ H Hhi).
  destruct H as (-> & ? & Hq & ?).
  destruct (Z.eqb_spec r 0) as [->|Hr].
  - rewrite Z.add_0_r, bin_size_nform by lia. split; [lia|]. split; [lia|]. intros _.
    pose proof (bin_size_lt (8 * n + q - 1) (8 * n + q)) as Hlt.
    rewrite (bin_size_nform n q) in Hlt by lia. lia.
  - replace (8 * n + q + 1 - 1) with (8 * n + q) by lia.
    rewrite <-Z.add_assoc, !bin_size_nform by lia. split; [lia|]. split; nia.
Qed.

(** [uintToFloatRoundDown s] is the greatest bin that fits in [s]. *)
Lemma roundDown_galois s b :
  is_u32 s → 0 <= b → b <= uintToFloatRoundDown s ↔ bin_size b <= s.
Proof.
  intros Hs Hb. destruct (roundDown_spec s Hs) as (Hr & Hlo & Hhi). split.
  - intros Hle. etrans; [|exact Hlo]. apply bin_size_le_iff; lia.
  - intros Hle. destruct (decide (b <= uintToFloatRoundDown s)); [done|].
    pose proof (bin_size_le_iff (uintToFloatRoundDown s + 1) b). lia.
Qed.

(** [uintToFloatRoundUp s] is the least bin that [s] fits in. *)
Lemma roundUp_galois s b :
  is_u32 s → 0 <= b → uintToFloatRoundUp s <= b ↔ s <= bin_size b.
Proof.
  intros Hs Hb. destruct (roundUp_spec s Hs) as (Hr & Hle & Hlt). split.
  - intros H. etrans; [exact Hle|]. apply bin_size_le_iff; lia.
  - intros H. destruct (decide (uintToFloatRoundUp s <= b)); [done|].
    pose proof (bin_size_le_iff b (uintToFloatRoundUp s - 1)). lia.
Qed.

(** ** What the bit scans return *)

Lemma pos_ctz_spec p :
  0 <= pos_ctz p ∧ Z.testbit (Zpos p) (pos_ctz p) = true ∧
  ∀ i, 0 <= i < pos_ctz p → Z.testbit (Zpos p) i = false.
Proof.
  induction p as [p _|p (Hn & Hb & Hl)|]; cbn [pos_ctz].
  1,3: split; [done|]; split; [done|]; intros; lia.
  split; [lia|]. rewrite Pos2Z.inj_xO. split.
  - rewrite Z.add_1_l, Z.double_bits_succ. done.
  - intros i Hi. destruct (decide (i = 0)) as [->|H0]; [by rewrite Z.testbit_even_0|].
    replace i with (Z.succ (i - 1)) by lia. rewrite Z.double_bits_succ. apply Hl. lia.
Qed.

Lemma tzcnt_spec v :
  0 < v →
  0 <= tzcnt_nonzero v ∧ Z.testbit v (tzcnt_nonzero v) = true ∧
  ∀ i, 0 <= i < tzcnt_nonzero v → Z.testbit v i = false.
Proof. destruct v as [|p|p]; try lia. intros _. apply pos_ctz_spec. Qed.

(** A set bit of a bounded word is below the bound. *)
Lemma testbit_bound v k i : 0 <= v < 2 ^ k → 0 <= k → Z.testbit v i = true → 0 <= i < k.
Proof.
  intros Hv Hk Hb. destruct (decide (0 <= i)) as [Hi|Hi].
  - split; [done|]. destruct (decide (i < k)) as [|Hge]; [done|].
    rewrite <-(Z.mod_small v (2 ^ k)), Z.mod_pow2_bits_high in Hb by lia. done.
  - by rewrite Z.testbit_neg_r in Hb by lia.
Qed.

Lemma testbit_zero_iff v : 0 <= v → v = 0 ↔ ∀ i, 0 <= i → Z.testbit v i = false.
Proof.
  intros Hv. split; [intros -> i _; apply Z.bits_0|].
  intros H. apply Z.bits_inj'. intros i Hi. rewrite Z.bits_0. by apply H.
Qed.

(** The mask test of [findLowestSetBitAfter] selects the bits from the start on. *)
Lemma mask_after_testbit mask start i :
  0 <= mask < 2 ^ 32 → 0 <= start < 32 → 0 <= i →
  Z.testbit (mask & lnot32 ((1 <<< start) ⊟ 1)) i = bool_decide (start <= i) && Z.testbit mask i.
Proof.
  intros Hm Hs Hi.
  assert (2 ^ start <= 2 ^ 31) by (apply Z.pow_le_mono_r; lia).
  pose proof (Z.pow_pos_nonneg 2 start ltac:(lia) ltac:(lia)).
  rewrite Z.shiftl_1_l, (u32_small (2 ^ start)), u32_small by (unfold is_u32; lia).
  replace (2 ^ start - 1) with (Z.ones start) by (rewrite Z.ones_equiv; lia).
  unfold lnot32. replace (2 ^ 32 - 1) with (Z.ones 32) by done.
  rewrite Z.sub_nocarry_ldiff.
  2: { apply Z.bits_inj'. intros j Hj. rewrite Z.ldiff_spec, !Z.testbit_ones, Z.bits_0 by lia.
       destruct (Z.ltb_spec j start), (Z.ltb_spec j 32); simpl; rewrite ?andb_false_r; done || lia. }
  rewrite Z.land_spec, Z.ldiff_spec, (Z.testbit_ones start i), (Z.testbit_ones 32 i) by lia.
  destruct (Z.leb_spec 0 i); [|lia]. simpl.
  destruct (Z.testbit mask i) eqn:Hb; [|by rewrite andb_false_r].
  pose proof (testbit_bound mask 32 i Hm ltac:(lia) Hb).
  destruct (Z.ltb_spec i 32); [|lia].
  destruct (Z.ltb_spec i start), (decide (start <= i)) as [?|?];
    rewrite ?bool_decide_eq_true_2, ?bool_decide_eq_false_2 by lia; done || lia.
Qed.

Lemma findLowestSetBitAfter_spec mask start :
  0 <= mask < 2 ^ 32 → 0 <= start < 32 →
  let r := findLowestSetBitAfter mask start in
  (r = NO_SPACE ∧ ∀ i, start <= i → Z.testbit mask i = false) ∨
  (start <= r < 32 ∧ Z.testbit mask r = true ∧
   ∀ i, start <= i < r → Z.testbit mask i = false).
Proof.
  intros Hm Hs. simpl. unfold findLowestSetBitAfter.
  set (bits := _ & _).
  assert (∀ i, 0 <= i → Z.testbit bits i = bool_decide (start <= i) && Z.testbit mask i) as Hbits
    by (intros; by apply mask_after_testbit).
  assert (0 <= bits) as Hnn by (apply Z.land_nonneg; lia).
  destruct (Z.eqb_spec bits 0) as [E|E].
  - left. split; [done|]. intros i Hi.
    pose proof (proj1 (testbit_zero_iff bits Hnn) E i ltac:(lia)) as H.
    rewrite Hbits, bool_decide_eq_true_2 in H by lia. done.
  - right. destruct (tzcnt_spec bits ltac:(lia)) as (H0 & H1 & H2).
    rewrite Hbits in H1 by done. apply andb_prop in H1 as [Hge Hb].
    apply bool_decide_eq_true in Hge.
    pose proof (testbit_bound mask 32 _ Hm ltac:(lia) Hb).
    split; [lia|]. split; [done|]. intros i Hi.
    pose proof (H2 i ltac:(lia)) as H3. by rewrite Hbits, bool_decide_eq_true_2 in H3 by lia.
Qed.

(** [31 - lzcnt] is the index of the highest set bit. *)
Lemma lzcnt_spec v :
  0 < v < 2 ^ 32 →
  let h := 31 - lzcnt_nonzero v in
  0 <= h < 32 ∧ Z.testbit v h = true ∧ ∀ i, h < i → Z.testbit v i = false.
Proof.
  intros Hv. simpl. unfold lzcnt_nonzero. replace (31 - (31 - Z.log2 v)) with (Z.log2 v) by lia.
  split.
  - split; [apply Z.log2_nonneg|]. apply Z.log2_lt_pow2; lia.
  - split; [apply Z.bit_log2; lia|]. intros i Hi. apply Z.bits_above_log2; lia.
Qed.

(** Rounding a size up adds at most one eighth of it. *)
Lemma roundUp_waste s :
  is_u32 s → 8 * (bin_size (uintToFloatRoundUp s) - s) <= s.
Proof.
  intros Hs. destruct (roundUp_spec s Hs) as (Hr & Hle & Hlt). set (b := uintToFloatRoundUp s) in *.
  destruct (decide (b <= 8)) as [Hb|Hb].
  - assert (∀ k, 0 <= k <= 8 → bin_size k = k) as E.
    { intros k Hk. destruct (decide (k = 8)) as [->|]; [done|]. apply bin_size_small. lia. }
    rewrite E in * by lia. destruct (decide (b = 0)) as [E0|]; [unfold is_u32 in *; lia|].
    rewrite E in Hlt by lia. lia.
  - destruct (bin_form (b - 1) ltac:(lia)) as (n & q & Eb & Hn & Hq).
    specialize (Hlt ltac:(lia)). rewrite Eb, bin_size_nform in Hlt by lia.
    replace b with (8 * n + (q + 1)) by lia. rewrite bin_size_nform by lia. nia.
Qed.
