(* ===== verification/Dll.v ===== *)
(** * Doubly linked segments

    The neighbour list and the bin lists of the offset allocator are doubly
    linked through two index fields of the nodes.  [dseg prv nxt p l n] says
    that the nodes of [l] are linked in that order, that the first one points
    back to [p] and the last one forward to [n]. *)

From S2P Require Import Prelude.

Definition first (d : Z) (l : list Z) : Z :=
  match l with [] => d | x :: _ => x end.

Fixpoint final (d : Z) (l : list Z) : Z :=
  match l with [] => d | x :: l => final x l end.

Lemma first_app d l1 l2 : first d (l1 ++ l2) = first (first d l2) l1.
Proof. by destruct l1. Qed.

Lemma final_app d l1 l2 : final d (l1 ++ l2) = final (final d l1) l2.
Proof. revert d. by induction l1 as [|x l1 IH]; intros d; simpl. Qed.

Lemma final_elem d l : l ≠ [] → final d l ∈ l.
Proof.
  destruct l as [|x l]; [done|]. intros _. simpl. revert x.
  induction l as [|y l IH]; intros x; simpl; [by apply list_elem_of_singleton|].
  apply elem_of_cons. right. apply IH.
Qed.

Lemma first_elem d l : l ≠ [] → first d l ∈ l.
Proof. destruct l; [done|]. simpl. set_solver. Qed.

(** The last element is split off as [l ++ [z]]. *)
Lemma final_split d l : l ≠ [] → ∃ l', l = l' ++ [final d l].
Proof.
  intros Hl. destruct (exists_last Hl) as (l' & z & ->). exists l'.
  by rewrite final_app.
Qed.

Fixpoint dseg (prv nxt : Z → Z) (p : Z) (l : list Z) (n : Z) : Prop :=
  match l with
  | [] => True
  | x :: l => prv x = p ∧ nxt x = first n l ∧ dseg prv nxt x l n
  end.

Section dseg.
Context {prv nxt : Z → Z}.

Lemma dseg_app p l1 l2 n :
  dseg prv nxt p (l1 ++ l2) n ↔
  dseg prv nxt p l1 (first n l2) ∧ dseg prv nxt (final p l1) l2 n.
Proof.
  revert p. induction l1 as [|x l1 IH]; intros p; simpl; [tauto|].
  rewrite IH, first_app. tauto.
Qed.

Lemma dseg_ext prv' nxt' p l n :
  (∀ x, x ∈ l → prv' x = prv x ∧ nxt' x = nxt x) →
  dseg prv nxt p l n → dseg prv' nxt' p l n.
Proof.
  revert p. induction l as [|x l IH]; intros p Hext; simpl; [done|].
  intros (Hp & Hn & Hd). destruct (Hext x) as [Ep En]; [by apply elem_of_cons; left|].
  rewrite Ep, En. split; [done|]. split; [done|]. apply IH; [|done].
  intros y Hy. apply Hext. by apply elem_of_cons; right.
Qed.

(** The successor and predecessor of a member. *)
Lemma dseg_mid p l1 x l2 n :
  dseg prv nxt p (l1 ++ x :: l2) n → prv x = final p l1 ∧ nxt x = first n l2.
Proof. rewrite dseg_app. simpl. tauto. Qed.

End dseg.

(** Joining two segments around a middle [m'] by relinking both sides; the
    outer ends [e1] and [e2] of the segments may dangle. *)
Lemma dseg_relink prv nxt prv' nxt' p l1 e1 e2 m' l2 n :
  dseg prv nxt p l1 e1 → dseg prv nxt e2 l2 n →
  NoDup l1 → NoDup l2 →
  (∀ y, y ∈ l1 → prv' y = prv y ∧ (y ≠ final p l1 → nxt' y = nxt y)) →
  (∀ y, y ∈ l2 → nxt' y = nxt y ∧ (y ≠ first n l2 → prv' y = prv y)) →
  (l1 ≠ [] → nxt' (final p l1) = first (first n l2) m') →
  (l2 ≠ [] → prv' (first n l2) = final (final p l1) m') →
  dseg prv' nxt' (final p l1) m' (first n l2) →
  dseg prv' nxt' p (l1 ++ m' ++ l2) n.
Proof.
  intros Hd1 Hd2 Hnd1 Hnd2 Hf1 Hf2 Hl Hr Hm. rewrite !dseg_app, !first_app. split; [|split].
  - destruct l1 as [|z l1 _] using rev_ind; [done|].
    rewrite final_app in *. simpl in *. rewrite dseg_app. rewrite dseg_app in Hd1. simpl in Hd1 |- *.
    destruct Hd1 as (Hd1 & Hz & _). split.
    + eapply dseg_ext; [|exact Hd1]. intros y Hy. destruct (Hf1 y) as [H1 H2]; [set_solver|].
      split; [done|]. apply H2. intros ->.
      apply NoDup_app in Hnd1 as (_ & Hnd & _). apply (Hnd z Hy). set_solver.
    + destruct (Hf1 z) as [H1 _]; [set_solver|]. split; [congruence|].
      split; [|done]. apply Hl. by destruct l1.
  - done.
  - destruct l2 as [|z l2]; [done|]. simpl in *. destruct Hd2 as (Hz & Hn & Hd2).
    destruct (Hf2 z) as [H1 _]; [set_solver|]. split; [by apply Hr|]. split; [congruence|].
    eapply dseg_ext; [|exact Hd2]. intros y Hy. destruct (Hf2 y) as [H2 H3]; [set_solver|].
    split; [|done]. apply H3. intros ->. by apply NoDup_cons in Hnd2 as [? _].
Qed.

(** Replacing the middle [m] of a segment by [m'] and relinking both sides. *)
Lemma dseg_replace prv nxt prv' nxt' p l1 m m' l2 n :
  dseg prv nxt p (l1 ++ m ++ l2) n →
  NoDup l1 → NoDup l2 →
  (∀ y, y ∈ l1 → prv' y = prv y ∧ (y ≠ final p l1 → nxt' y = nxt y)) →
  (∀ y, y ∈ l2 → nxt' y = nxt y ∧ (y ≠ first n l2 → prv' y = prv y)) →
  (l1 ≠ [] → nxt' (final p l1) = first (first n l2) m') →
  (l2 ≠ [] → prv' (first n l2) = final (final p l1) m') →
  dseg prv' nxt' (final p l1) m' (first n l2) →
  dseg prv' nxt' p (l1 ++ m' ++ l2) n.
Proof. intros Hd. rewrite !dseg_app in Hd. destruct Hd as (Hd1 & _ & Hd2). by eapply dseg_relink. Qed.
