(* ===== verification/OffsetAllocator.v ===== *)
(** * OffsetAllocator: the [__Allocator] node store

    Models class [__Allocator] of [mooncake-store/src/offset_allocator.cpp] and
    [include/offset_allocator/offset_allocator.hpp].  The two heap arrays
    [m_nodes] and [m_freeNodes] are finite maps indexed by position with the
    bounds of the C++ allocation ([m_max_capacity]); [m_nodes] is
    default-initialised by [new Node[n]], [m_freeNodes] is not initialised, so
    reading an entry of it that was never written faults.  Every operation is a
    computation of the fault monad [ST Allocator]. *)

From S2P Require Import Prelude SmallFloat.
Open Scope Z_scope.
Open Scope u32_scope.

Definition NUM_TOP_BINS : Z := 32.
Definition BINS_PER_LEAF : Z := 8.
Definition TOP_BINS_INDEX_SHIFT : Z := 3.
Definition LEAF_BINS_INDEX_MASK : Z := 7.
Definition NUM_LEAF_BINS : Z := NUM_TOP_BINS * BINS_PER_LEAF.

(** [Node::unused]. *)
Definition unused : Z := 4294967295.

Record OffsetAllocation := mkOffsetAllocation { offset : Z; metadata : Z }.

#[export] Instance OffsetAllocation_eq_dec : EqDecision OffsetAllocation.
Proof. solve_decision. Defined.

Definition noSpace : OffsetAllocation := mkOffsetAllocation NO_SPACE NO_SPACE.
Definition isNoSpace (r : OffsetAllocation) : bool := offset r =? NO_SPACE.
Definition getOffset (r : OffsetAllocation) : Z := offset r.

Record Node := mkNode {
  dataOffset : Z;
  dataSize : Z;
  binListPrev : Z;
  binListNext : Z;
  neighborPrev : Z;
  neighborNext : Z;
  used : bool;
}.

(** The member initialisers of [Node]. *)
Definition defaultNode : Node := mkNode 0 0 unused unused unused unused false.

Definition set_dataSize (v : Z) (n : Node) : Node :=
  mkNode (dataOffset n) v (binListPrev n) (binListNext n) (neighborPrev n) (neighborNext n) (used n).
Definition set_binListPrev (v : Z) (n : Node) : Node :=
  mkNode (dataOffset n) (dataSize n) v (binListNext n) (neighborPrev n) (neighborNext n) (used n).
Definition set_binListNext (v : Z) (n : Node) : Node :=
  mkNode (dataOffset n) (dataSize n) (binListPrev n) v (neighborPrev n) (neighborNext n) (used n).
Definition set_neighborPrev (v : Z) (n : Node) : Node :=
  mkNode (dataOffset n) (dataSize n) (binListPrev n) (binListNext n) v (neighborNext n) (used n).
Definition set_neighborNext (v : Z) (n : Node) : Node :=
  mkNode (dataOffset n) (dataSize n) (binListPrev n) (binListNext n) (neighborPrev n) v (used n).
Definition set_used (v : bool) (n : Node) : Node :=
  mkNode (dataOffset n) (dataSize n) (binListPrev n) (binListNext n) (neighborPrev n) (neighborNext n) v.

Record Allocator := mkAllocator {
  m_size : Z;
  m_current_capacity : Z;
  m_max_capacity : Z;
  m_freeStorage : Z;
  m_usedBinsTop : Z;
  m_usedBins : list Z;
  m_binIndices : list Z;
  m_nodes : gmap Z Node;
  m_freeNodes : gmap Z Z;
  m_freeOffset : Z;
}.

Definition set_current_capacity (v : Z) (a : Allocator) : Allocator :=
  mkAllocator (m_size a) v (m_max_capacity a) (m_freeStorage a) (m_usedBinsTop a)
    (m_usedBins a) (m_binIndices a) (m_nodes a) (m_freeNodes a) (m_freeOffset a).
Definition set_freeStorage (v : Z) (a : Allocator) : Allocator :=
  mkAllocator (m_size a) (m_current_capacity a) (m_max_capacity a) v (m_usedBinsTop a)
    (m_usedBins a) (m_binIndices a) (m_nodes a) (m_freeNodes a) (m_freeOffset a).
Definition set_usedBinsTop (v : Z) (a : Allocator) : Allocator :=
  mkAllocator (m_size a) (m_current_capacity a) (m_max_capacity a) (m_freeStorage a) v
    (m_usedBins a) (m_binIndices a) (m_nodes a) (m_freeNodes a) (m_freeOffset a).
Definition set_usedBins (v : list Z) (a : Allocator) : Allocator :=
  mkAllocator (m_size a) (m_current_capacity a) (m_max_capacity a) (m_freeStorage a)
    (m_usedBinsTop a) v (m_binIndices a) (m_nodes a) (m_freeNodes a) (m_freeOffset a).
Definition set_binIndices (v : list Z) (a : Allocator) : Allocator :=
  mkAllocator (m_size a) (m_current_capacity a) (m_max_capacity a) (m_freeStorage a)
    (m_usedBinsTop a) (m_usedBins a) v (m_nodes a) (m_freeNodes a) (m_freeOffset a).
Definition set_nodes (v : gmap Z Node) (a : Allocator) : Allocator :=
  mkAllocator (m_size a) (m_current_capacity a) (m_max_capacity a) (m_freeStorage a)
    (m_usedBinsTop a) (m_usedBins a) (m_binIndices a) v (m_freeNodes a) (m_freeOffset a).
Definition set_freeNodes (v : gmap Z Z) (a : Allocator) : Allocator :=
  mkAllocator (m_size a) (m_current_capacity a) (m_max_capacity a) (m_freeStorage a)
    (m_usedBinsTop a) (m_usedBins a) (m_binIndices a) (m_nodes a) v (m_freeOffset a).
Definition set_freeOffset (v : Z) (a : Allocator) : Allocator :=
  mkAllocator (m_size a) (m_current_capacity a) (m_max_capacity a) (m_freeStorage a)
    (m_usedBinsTop a) (m_usedBins a) (m_binIndices a) (m_nodes a) (m_freeNodes a) v.

(** ** Array accesses *)

Definition node_at (a : Allocator) (i : Z) : Node := default defaultNode (m_nodes a !! i).

Definition in_array (a : Allocator) (i : Z) : bool := (0 <=? i) && (i <? m_max_capacity a).

Definition getNode (i : Z) : ST Allocator Node := λ a,
  if in_array a i then Some (node_at a i, a) else None.

Definition modNode (i : Z) (f : Node → Node) : ST Allocator unit := λ a,
  if in_array a i then Some (tt, set_nodes (<[i := f (node_at a i)]> (m_nodes a)) a) else None.

Definition getFree (k : Z) : ST Allocator Z := λ a,
  if in_array a k then v ← m_freeNodes a !! k; Some (v, a) else None.

Definition setFree (k v : Z) : ST Allocator unit := λ a,
  if in_array a k then Some (tt, set_freeNodes (<[k := v]> (m_freeNodes a)) a) else None.

Definition getBin (b : Z) : ST Allocator Z := λ a,
  if 0 <=? b then v ← m_binIndices a !! Z.to_nat b; Some (v, a) else None.

Definition setBin (b v : Z) : ST Allocator unit := λ a,
  if (0 <=? b) && (b <? NUM_LEAF_BINS)
  then Some (tt, set_binIndices (<[Z.to_nat b := v]> (m_binIndices a)) a) else None.

Definition getUsed (t : Z) : ST Allocator Z := λ a,
  if 0 <=? t then v ← m_usedBins a !! Z.to_nat t; Some (v, a) else None.

Definition setUsed (t v : Z) : ST Allocator unit := λ a,
  if (0 <=? t) && (t <? NUM_TOP_BINS)
  then Some (tt, set_usedBins (<[Z.to_nat t := u8 v]> (m_usedBins a)) a) else None.

(** ** Operations *)

Definition insertNodeIntoBin (size dataOffset : Z) : ST Allocator Z :=
  let binIndex := uintToFloatRoundDown size in
  let topBinIndex := binIndex >>> TOP_BINS_INDEX_SHIFT in
  let leafBinIndex := binIndex & LEAF_BINS_INDEX_MASK in
  head ← getBin binIndex;
  when (head =? unused)
    (v ← getUsed topBinIndex;
     setUsed topBinIndex (v ∥ Z.shiftl 1 leafBinIndex);;
     modify (λ a, set_usedBinsTop (m_usedBinsTop a ∥ (1 <<< topBinIndex)) a));;
  topNodeIndex ← getBin binIndex;
  freeOffset ← gets m_freeOffset;
  nodeIndex ← getFree freeOffset;
  modify (set_freeOffset (freeOffset ⊞ 1));;
  modNode nodeIndex (λ _, mkNode dataOffset size unused topNodeIndex unused unused false);;
  when (negb (topNodeIndex =? unused)) (modNode topNodeIndex (set_binListPrev nodeIndex));;
  setBin binIndex nodeIndex;;
  modify (λ a, set_freeStorage (m_freeStorage a ⊞ size) a);;
  mret nodeIndex.

(** The "Bin empty?" block shared by [allocate] and [removeNodeFromBin]. *)
Definition clearBinMask (binIndex topBinIndex leafBinIndex : Z) : ST Allocator unit :=
  head ← getBin binIndex;
  when (head =? unused)
    (v ← getUsed topBinIndex;
     setUsed topBinIndex (v & Z.lnot (Z.shiftl 1 leafBinIndex));;
     v' ← getUsed topBinIndex;
     when (v' =? 0)
       (modify (λ a, set_usedBinsTop (m_usedBinsTop a & Z.lnot (Z.shiftl 1 topBinIndex)) a))).

Definition removeNodeFromBin (nodeIndex : Z) : ST Allocator unit :=
  node ← getNode nodeIndex;
  (if negb (binListPrev node =? unused) then
     modNode (binListPrev node) (set_binListNext (binListNext node));;
     when (negb (binListNext node =? unused))
       (modNode (binListNext node) (set_binListPrev (binListPrev node)))
   else
     let binIndex := uintToFloatRoundDown (dataSize node) in
     let topBinIndex := binIndex >>> TOP_BINS_INDEX_SHIFT in
     let leafBinIndex := binIndex & LEAF_BINS_INDEX_MASK in
     setBin binIndex (binListNext node);;
     when (negb (binListNext node =? unused))
       (modNode (binListNext node) (set_binListPrev unused));;
     clearBinMask binIndex topBinIndex leafBinIndex);;
  freeOffset ← gets m_freeOffset;
  modify (set_freeOffset (freeOffset ⊟ 1));;
  setFree (freeOffset ⊟ 1) nodeIndex;;
  node' ← getNode nodeIndex;
  modify (λ a, set_freeStorage (m_freeStorage a ⊟ dataSize node') a).

(** The constructor's initial values and [reset]. *)
Definition initAllocator (size init_capacity max_capacity : Z) : Allocator :=
  mkAllocator size init_capacity (Z.max init_capacity max_capacity) 0 0 [] [] ∅ ∅ 0.

Definition reset : ST Allocator unit :=
  modify (set_freeStorage 0);;
  modify (set_usedBinsTop 0);;
  modify (set_freeOffset 0);;
  modify (set_usedBins (replicate (Z.to_nat NUM_TOP_BINS) 0));;
  modify (set_binIndices (replicate (Z.to_nat NUM_LEAF_BINS) unused));;
  modify (set_nodes ∅);;
  modify (λ a, set_freeNodes
    (list_to_map ((λ i, (i, i)) <$> seqZ 0 (m_current_capacity a))) a);;
  size ← gets m_size;
  insertNodeIntoBin size 0;;
  mret tt.

Definition newAllocator (size init_capacity max_capacity : Z) : option Allocator :=
  snd <$> reset (initAllocator size init_capacity max_capacity).

(** [allocate], first part: make room on the free-node stack. *)
Definition growFreeNodes : ST Allocator unit :=
  freeOffset ← gets m_freeOffset;
  capacity ← gets m_current_capacity;
  when (freeOffset =? capacity)
    (setFree capacity capacity;;
     modify (set_current_capacity (capacity ⊞ 1))).

(** [allocate], second part: the top and leaf index of the smallest non-empty
    bin at or above the request's bin, or [None] when out of space. *)
Definition selectBin (minBinIndex : Z) : ST Allocator (option (Z * Z)) :=
  let minTopBinIndex := minBinIndex >>> TOP_BINS_INDEX_SHIFT in
  let minLeafBinIndex := minBinIndex & LEAF_BINS_INDEX_MASK in
  usedBinsTop ← gets m_usedBinsTop;
  leafBinIndex ←
    (if negb ((usedBinsTop & Z.shiftl 1 minTopBinIndex) =? 0) then
       v ← getUsed minTopBinIndex;
       mret (findLowestSetBitAfter v minLeafBinIndex)
     else mret NO_SPACE);
  if leafBinIndex =? NO_SPACE then
    let topBinIndex := findLowestSetBitAfter usedBinsTop (minTopBinIndex ⊞ 1) in
    if topBinIndex =? NO_SPACE then mret None
    else
      v ← getUsed topBinIndex;
      mret (Some (topBinIndex, tzcnt_nonzero v))
  else mret (Some (minTopBinIndex, leafBinIndex)).

(** [allocate], third part: pop the head of the bin and mark it used; returns
    the node index and the size it had. *)
Definition popNode (topBinIndex leafBinIndex roundupSize : Z) : ST Allocator (Z * Z) :=
  let binIndex := (topBinIndex <<< TOP_BINS_INDEX_SHIFT) ∥ leafBinIndex in
  nodeIndex ← getBin binIndex;
  node ← getNode nodeIndex;
  let nodeTotalSize := dataSize node in
  modNode nodeIndex (set_dataSize roundupSize);;
  modNode nodeIndex (set_used true);;
  setBin binIndex (binListNext node);;
  when (negb (binListNext node =? unused)) (modNode (binListNext node) (set_binListPrev unused));;
  modify (λ a, set_freeStorage (m_freeStorage a ⊟ nodeTotalSize) a);;
  clearBinMask binIndex topBinIndex leafBinIndex;;
  mret (nodeIndex, nodeTotalSize).

(** [allocate], fourth part: push the remainder back and link it as a neighbour. *)
Definition splitNode (nodeIndex nodeTotalSize roundupSize : Z) : ST Allocator unit :=
  let reminderSize := nodeTotalSize ⊟ roundupSize in
  when (0 <? reminderSize)
    (node ← getNode nodeIndex;
     newNodeIndex ← insertNodeIntoBin reminderSize (dataOffset node ⊞ roundupSize);
     node1 ← getNode nodeIndex;
     when (negb (neighborNext node1 =? unused))
       (modNode (neighborNext node1) (set_neighborPrev newNodeIndex));;
     modNode newNodeIndex (set_neighborPrev nodeIndex);;
     node2 ← getNode nodeIndex;
     modNode newNodeIndex (set_neighborNext (neighborNext node2));;
     modNode nodeIndex (set_neighborNext newNodeIndex)).

Definition allocate (size : Z) : ST Allocator OffsetAllocation :=
  freeOffset ← gets m_freeOffset;
  max_capacity ← gets m_max_capacity;
  if freeOffset =? max_capacity then mret noSpace
  else
    growFreeNodes;;
    let minBinIndex := uintToFloatRoundUp size in
    bin ← selectBin minBinIndex;
    match bin with
    | None => mret noSpace
    | Some (topBinIndex, leafBinIndex) =>
        let roundupSize := floatToUint minBinIndex in
        '(nodeIndex, nodeTotalSize) ← popNode topBinIndex leafBinIndex roundupSize;
        splitNode nodeIndex nodeTotalSize roundupSize;;
        node ← getNode nodeIndex;
        mret (mkOffsetAllocation (dataOffset node) nodeIndex)
    end.

(** [free], the two merge blocks: absorb a free neighbour, returning the new
    offset and size of the combined region. *)
Definition mergePrev (nodeIndex offset size : Z) : ST Allocator (Z * Z) :=
  node ← getNode nodeIndex;
  if negb (neighborPrev node =? unused) then
    prevNode ← getNode (neighborPrev node);
    if negb (used prevNode) then
      removeNodeFromBin (neighborPrev node);;
      prevNode' ← getNode (neighborPrev node);
      modNode nodeIndex (set_neighborPrev (neighborPrev prevNode'));;
      mret (dataOffset prevNode, size ⊞ dataSize prevNode)
    else mret (offset, size)
  else mret (offset, size).

Definition mergeNext (nodeIndex size : Z) : ST Allocator Z :=
  node ← getNode nodeIndex;
  if negb (neighborNext node =? unused) then
    nextNode ← getNode (neighborNext node);
    if negb (used nextNode) then
      removeNodeFromBin (neighborNext node);;
      nextNode' ← getNode (neighborNext node);
      modNode nodeIndex (set_neighborNext (neighborNext nextNode'));;
      mret (size ⊞ dataSize nextNode)
    else mret size
  else mret size.

Definition free (allocation : OffsetAllocation) : ST Allocator unit :=
  let nodeIndex := metadata allocation in
  node ← getNode nodeIndex;
  merged ← mergePrev nodeIndex (dataOffset node) (dataSize node);
  size ← mergeNext nodeIndex (snd merged);
  node' ← getNode nodeIndex;
  freeOffset ← gets m_freeOffset;
  modify (set_freeOffset (freeOffset ⊟ 1));;
  setFree (freeOffset ⊟ 1) nodeIndex;;
  combinedNodeIndex ← insertNodeIntoBin size (fst merged);
  when (negb (neighborNext node' =? unused))
    (modNode combinedNodeIndex (set_neighborNext (neighborNext node'));;
     modNode (neighborNext node') (set_neighborPrev combinedNodeIndex));;
  when (negb (neighborPrev node' =? unused))
    (modNode combinedNodeIndex (set_neighborPrev (neighborPrev node'));;
     modNode (neighborPrev node') (set_neighborNext combinedNodeIndex)).

Definition allocationSize (a : Allocator) (allocation : OffsetAllocation) : Z :=
  if metadata allocation =? NO_SPACE then 0 else dataSize (node_at a (metadata allocation)).

Record StorageReport := mkStorageReport { totalFreeSpace : Z; largestFreeRegion : Z }.

Definition storageReport (a : Allocator) : StorageReport :=
  if m_freeOffset a <? m_max_capacity a then
    mkStorageReport (m_freeStorage a)
      (if negb (m_usedBinsTop a =? 0) then
         let topBinIndex := 31 ⊟ lzcnt_nonzero (m_usedBinsTop a) in
         let leafBinIndex := 31 ⊟ lzcnt_nonzero (m_usedBins a !!! Z.to_nat topBinIndex) in
         floatToUint ((topBinIndex <<< TOP_BINS_INDEX_SHIFT) ∥ leafBinIndex)
       else 0)
  else mkStorageReport 0 0.

(** The [while] loop of [storageReportFull]: [None] when the fuel runs out. *)
Fixpoint countBin (fuel : nat) (a : Allocator) (nodeIndex count : Z) : option Z :=
  if nodeIndex =? unused then Some count
  else
    match fuel with
    | O => None
    | S fuel => countBin fuel a (binListNext (node_at a nodeIndex)) (count ⊞ 1)
    end.

Definition storageReportFull (fuel : nat) (a : Allocator) : option (list (Z * Z)) :=
  mapM (λ i, count ← countBin fuel a (m_binIndices a !!! Z.to_nat i) 0;
             Some (floatToUint i, count))
    (seqZ 0 NUM_LEAF_BINS).
