(* ===== verification/OffsetInv.v ===== *)
(** * OffsetInv: the representation invariant of the node store *)

From S2P Require Import Prelude SmallFloat Dll OffsetAllocator.
Open Scope Z_scope.
Open Scope u32_scope.

(** ** Running the array accesses *)

Definition valid (a : Allocator) (i : Z) : Prop := 0 <= i < m_max_capacity a.

Lemma in_array_true a i : valid a i → in_array a i = true.
Proof. unfold valid, in_array. intros. apply andb_true_intro. lia. Qed.

Lemma runs_getNode i a Q : valid a i → Q (node_at a i) a → runs (getNode i) a Q.
Proof. intros Hi HQ. unfold runs, getNode. rewrite in_array_true by done. eauto. Qed.

(** The state after the write [m_nodes[i] = f(m_nodes[i])]. *)
Definition upd (a : Allocator) (i : Z) (f : Node → Node) : Allocator :=
  set_nodes (<[i := f (node_at a i)]> (m_nodes a)) a.
#[global] Arguments upd : simpl never.

Lemma runs_modNode i f a Q : valid a i → Q tt (upd a i f) → runs (modNode i f) a Q.
Proof. intros Hi HQ. unfold runs, modNode. rewrite in_array_true by done. eauto. Qed.

Lemma runs_getFree k v a Q :
  valid a k → m_freeNodes a !! k = Some v → Q v a → runs (getFree k) a Q.
Proof. intros Hi Hk HQ. unfold runs, getFree. rewrite in_array_true, Hk by done. simpl. eauto. Qed.

Lemma runs_setFree k v a Q :
  valid a k → Q tt (set_freeNodes (<[k := v]> (m_freeNodes a)) a) → runs (setFree k v) a Q.
Proof. intros Hi HQ. unfold runs, setFree. rewrite in_array_true by done. eauto. Qed.

Lemma runs_getBin b v a Q :
  0 <= b → m_binIndices a !! Z.to_nat b = Some v → Q v a → runs (getBin b) a Q.
Proof.
  intros Hb Hv HQ. unfold runs, getBin. destruct (Z.leb_spec 0 b); [|lia]. rewrite Hv. simpl. eauto.
Qed.

Lemma runs_setBin b v a Q :
  0 <= b < 256 → Q tt (set_binIndices (<[Z.to_nat b := v]> (m_binIndices a)) a) →
  runs (setBin b v) a Q.
Proof.
  intros Hb HQ. unfold runs, setBin. change NUM_LEAF_BINS with 256.
  destruct (Z.leb_spec 0 b), (Z.ltb_spec b 256); try lia. simpl. eauto.
Qed.

Lemma runs_getUsed t v a Q :
  0 <= t → m_usedBins a !! Z.to_nat t = Some v → Q v a → runs (getUsed t) a Q.
Proof.
  intros Hb Hv HQ. unfold runs, getUsed. destruct (Z.leb_spec 0 t); [|lia]. rewrite Hv. simpl. eauto.
Qed.

Lemma runs_setUsed t v a Q :
  0 <= t < 32 → Q tt (set_usedBins (<[Z.to_nat t := u8 v]> (m_usedBins a)) a) →
  runs (setUsed t v) a Q.
Proof.
  intros Hb HQ. unfold runs, setUsed. change NUM_TOP_BINS with 32.
  destruct (Z.leb_spec 0 t), (Z.ltb_spec t 32); try lia. simpl. eauto.
Qed.

(** A conditional write through a link, as in [if (x != unused) m_nodes[x].f = v]. *)
Definition upd_opt (a : Allocator) (i : Z) (f : Node → Node) : Allocator :=
  set_nodes (if decide (i = unused) then m_nodes a else <[i := f (node_at a i)]> (m_nodes a)) a.
#[global] Arguments upd_opt : simpl never.

Lemma runs_modNode_opt i f a Q :
  (i ≠ unused → valid a i) → Q tt (upd_opt a i f) →
  runs (when (negb (i =? unused)) (modNode i f)) a Q.
Proof.
  intros Hi HQ. unfold upd_opt in HQ. destruct (Z.eqb_spec i unused) as [E|E]; simpl.
  - rewrite decide_True in HQ by done. apply runs_ret. by destruct a.
  - rewrite decide_False in HQ by done. by apply runs_modNode; [apply Hi|].
Qed.

Lemma node_at_upd_opt a i f j :
  node_at (upd_opt a i f) j =
    if decide (i ≠ unused ∧ i = j) then f (node_at a j) else node_at a j.
Proof.
  unfold upd_opt, node_at. simpl. destruct (decide (i = unused)) as [E|E].
  - by rewrite decide_False by tauto.
  - rewrite lookup_insert. destruct (decide (i = j)) as [->|].
    + by rewrite decide_True.
    + by rewrite decide_False by tauto.
Qed.

Lemma node_at_upd a i f j :
  node_at (upd a i f) j = if decide (i = j) then f (node_at a j) else node_at a j.
Proof.
  unfold upd, node_at. simpl. rewrite lookup_insert. by destruct (decide (i = j)) as [->|].
Qed.

Lemma node_at_ext a a' j : m_nodes a' = m_nodes a → node_at a' j = node_at a j.
Proof. unfold node_at. by intros ->. Qed.

(** ** The bin masks

    [masks a B]: the two-level bit set says which of the 256 bin lists [B] are
    non-empty. *)

Record masks (a : Allocator) (B : Z → list Z) : Prop := {
  masks_len : length (m_usedBins a) = 32%nat;
  masks_leaf t : 0 <= t < 32 →
    ∃ v, m_usedBins a !! Z.to_nat t = Some v ∧ 0 <= v < 2 ^ 8 ∧
      ∀ l, 0 <= l < 8 → Z.testbit v l = true ↔ B (8 * t + l) ≠ [];
  masks_top_range : 0 <= m_usedBinsTop a < 2 ^ 32;
  masks_top t : 0 <= t < 32 →
    Z.testbit (m_usedBinsTop a) t = true ↔ ∃ l, 0 <= l < 8 ∧ B (8 * t + l) ≠ [];
}.

Lemma masks_ext a B B' :
  (∀ b, 0 <= b < 256 → B b = [] ↔ B' b = []) → masks a B → masks a B'.
Proof.
  intros H [H1 H2 H3 H4]. split; [done| |done|].
  - intros t Ht. destruct (H2 t Ht) as (v & Hv & Hr & Hb). exists v. split; [done|].
    split; [done|]. intros l Hl. rewrite Hb, H by lia. done.
  - intros t Ht. rewrite H4 by done. split; intros (l & Hl & Hne); exists l; (split; [done|]);
      [rewrite <-H|rewrite H]; lia || done.
Qed.

Lemma masks_same a a' B :
  m_usedBins a' = m_usedBins a → m_usedBinsTop a' = m_usedBinsTop a → masks a B → masks a' B.
Proof. intros E1 E2 [H1 H2 H3 H4]. split; rewrite ?E1, ?E2; done. Qed.

(** The top and leaf index of a bin. *)
Lemma bin_split b : 0 <= b < 256 →
  ∃ t l, b >>> TOP_BINS_INDEX_SHIFT = t ∧ b & LEAF_BINS_INDEX_MASK = l ∧
    0 <= t < 32 ∧ 0 <= l < 8 ∧ b = 8 * t + l.
Proof.
  intros Hb. exists (b / 8), (b mod 8). unfold TOP_BINS_INDEX_SHIFT.
  change LEAF_BINS_INDEX_MASK with (Z.ones 3).
  rewrite Z.shiftr_div_pow2, Z.land_ones by lia. change (2 ^ 3) with 8.
  pose proof (Z.div_mod b 8 ltac:(lia)). pose proof (Z.mod_pos_bound b 8 ltac:(lia)).
  repeat split; try lia.
Qed.

Lemma bin_join t l : 0 <= t < 32 → 0 <= l < 8 → (t <<< TOP_BINS_INDEX_SHIFT) ∥ l = 8 * t + l.
Proof.
  intros Ht Hl. change TOP_BINS_INDEX_SHIFT with 3.
  rewrite u32_small, lor_shiftl_low
    by (unfold is_u32; rewrite ?Z.shiftl_mul_pow2 by lia; change (2 ^ 3) with 8; lia). lia.
Qed.

(** Setting and clearing one bit. *)
Lemma testbit_setbit v i j : 0 <= i → 0 <= j →
  Z.testbit (Z.lor v (Z.shiftl 1 i)) j = Z.testbit v j || bool_decide (i = j).
Proof.
  intros Hi Hj. rewrite Z.lor_spec, Z.shiftl_1_l, Z.pow2_bits_eqb by done.
  f_equal. destruct (Z.eqb_spec i j) as [->|]; symmetry.
  - by apply bool_decide_eq_true_2.
  - by apply bool_decide_eq_false_2.
Qed.

Lemma testbit_clearbit v i j : 0 <= i → 0 <= j →
  Z.testbit (Z.land v (Z.lnot (Z.shiftl 1 i))) j = Z.testbit v j && bool_decide (i ≠ j).
Proof.
  intros Hi Hj. rewrite Z.land_spec, Z.lnot_spec, Z.shiftl_1_l, Z.pow2_bits_eqb by done.
  f_equal. destruct (Z.eqb_spec i j) as [->|]; symmetry.
  - by apply bool_decide_eq_false_2; intros [].
  - by apply bool_decide_eq_true_2.
Qed.

Lemma setbit_range v i k : 0 <= v < 2 ^ k → 0 <= i < k → 0 <= Z.lor v (Z.shiftl 1 i) < 2 ^ k.
Proof.
  intros Hv Hi. assert (0 <= Z.lor v (Z.shiftl 1 i)) as Hn.
  { apply Z.lor_nonneg. split; [lia|]. rewrite Z.shiftl_1_l. lia. }
  split; [done|]. rewrite <-(Z.mod_small v (2 ^ k)) by lia.
  rewrite Z.shiftl_1_l, <-Z.land_ones by lia.
  assert (2 ^ i = Z.land (2 ^ i) (Z.ones k)) as E.
  { rewrite Z.land_ones, Z.mod_small; [done| |lia]. split; [lia|]. apply Z.pow_lt_mono_r; lia. }
  rewrite E, <-Z.land_lor_distr_l, Z.land_ones by lia. apply Z.mod_pos_bound. lia.
Qed.

Lemma clearbit_range v m k : 0 <= v < 2 ^ k → 0 <= k → 0 <= Z.land v m < 2 ^ k.
Proof.
  intros Hv Hk. assert (0 <= Z.land v m) as Hn by (apply Z.land_nonneg; lia).
  split; [done|]. rewrite <-(Z.mod_small v (2 ^ k)) by lia. rewrite <-Z.land_ones by lia.
  rewrite <-Z.land_assoc, (Z.land_comm (Z.ones k)), Z.land_assoc, Z.land_ones by lia.
  apply Z.mod_pos_bound. lia.
Qed.

(** Changing one leaf word and its top bit. *)
Lemma masks_update a B t l ys v' top' :
  masks a B → 0 <= t < 32 → 0 <= l < 8 → 0 <= v' < 2 ^ 8 → 0 <= top' < 2 ^ 32 →
  let B' := <[8 * t + l := ys]> B in
  (∀ l', 0 <= l' < 8 → Z.testbit v' l' = true ↔ B' (8 * t + l') ≠ []) →
  (∀ t', 0 <= t' < 32 → t' ≠ t → Z.testbit top' t' = Z.testbit (m_usedBinsTop a) t') →
  (Z.testbit top' t = true ↔ v' ≠ 0) →
  masks (set_usedBinsTop top' (set_usedBins (<[Z.to_nat t := v']> (m_usedBins a)) a)) B'.
Proof.
  intros [Hlen Hleaf Htr Htop] Ht Hl Hv' Htr' B' Hv Hother Htt.
  assert (∀ t' l', 0 <= l' < 8 → t' ≠ t → B' (8 * t' + l') = B (8 * t' + l')) as HB.
  { intros t' l' Hl' Hne. unfold B'. rewrite fn_lookup_insert_ne by lia. done. }
  split; simpl; [by rewrite length_insert| |done|].
  - intros t' Ht'. destruct (decide (t' = t)) as [->|Hne].
    + exists v'. rewrite list_lookup_insert_eq by lia. done.
    + destruct (Hleaf t' Ht') as (w & Hw & Hr & Hb). exists w.
      rewrite list_lookup_insert_ne by lia. split; [done|]. split; [done|].
      intros l' Hl'. rewrite HB by done. by apply Hb.
  - intros t' Ht'. destruct (decide (t' = t)) as [->|Hne].
    + rewrite Htt, testbit_zero_iff by lia. split.
      * intros Hn. destruct (decide (Exists (λ l', Z.testbit v' l' = true) (seqZ 0 8))) as [He|He].
        { apply Exists_exists in He as (l' & Hin & Hb). apply elem_of_seqZ in Hin.
          exists l'. split; [lia|]. apply Hv; [lia|done]. }
        { exfalso. apply Hn. intros i Hi. destruct (Z.testbit v' i) eqn:Eb; [|done].
          exfalso. apply He, Exists_exists. exists i. split; [|done].
          apply elem_of_seqZ. pose proof (testbit_bound v' 8 i Hv' ltac:(lia) Eb). lia. }
      * intros (l' & Hl' & Hne) Hz. apply Hv in Hne; [|done]. rewrite Hz in Hne by lia. done.
    + rewrite Hother, Htop by done. split; intros (l' & Hl' & Hne'); exists l'; (split; [done|]);
        [rewrite HB|rewrite <-HB]; done.
Qed.

Lemma masks_set a B t l v y ys :
  masks a B → 0 <= t < 32 → 0 <= l < 8 → m_usedBins a !! Z.to_nat t = Some v →
  masks (set_usedBinsTop (m_usedBinsTop a ∥ (1 <<< t))
          (set_usedBins (<[Z.to_nat t := u8 (v ∥ Z.shiftl 1 l)]> (m_usedBins a)) a))
    (<[8 * t + l := y :: ys]> B).
Proof.
  intros HM Ht Hl Hv. destruct (masks_leaf _ _ HM t Ht) as (w & Hw & Hr & Hb). simplify_eq.
  pose proof (masks_top_range _ _ HM) as Htr.
  assert (2 ^ t <= 2 ^ 31) by (apply Z.pow_le_mono_r; lia).
  pose proof (Z.pow_pos_nonneg 2 t ltac:(lia) ltac:(lia)).
  rewrite (u32_small (Z.shiftl 1 t)) by (unfold is_u32; rewrite Z.shiftl_1_l; lia).
  pose proof (setbit_range v l 8 Hr Hl) as Hr'.
  unfold u8. rewrite Z.mod_small by done.
  apply masks_update; try done.
  - by apply setbit_range.
  - intros l' Hl'. rewrite testbit_setbit by lia. destruct (decide (l = l')) as [->|Hne].
    + rewrite fn_lookup_insert, bool_decide_eq_true_2, orb_true_r by done. done.
    + rewrite fn_lookup_insert_ne, bool_decide_eq_false_2, orb_false_r by (done || lia). by apply Hb.
  - intros t' Ht' Hne. rewrite testbit_setbit, bool_decide_eq_false_2, orb_false_r by (lia || congruence).
    done.
  - rewrite testbit_setbit, bool_decide_eq_true_2, orb_true_r by (lia || done). split; [|done].
    intros _ E. pose proof (testbit_setbit v l l ltac:(lia) ltac:(lia)) as Hbit.
    rewrite E, Z.bits_0, bool_decide_eq_true_2, orb_true_r in Hbit by done. done.
Qed.

(** [clearBinMask] after a removal leaves the masks describing the new bins and
    changes nothing but the masks. *)
Lemma clearBinMask_ok a B t l ys :
  masks a B → 0 <= t < 32 → 0 <= l < 8 →
  m_binIndices a !! Z.to_nat (8 * t + l) = Some (first unused ys) →
  unused ∉ ys → B (8 * t + l) ≠ [] →
  runs (clearBinMask (8 * t + l) t l) a (λ _ a',
    ∃ top ub, a' = set_usedBinsTop top (set_usedBins ub a) ∧ masks a' (<[8 * t + l := ys]> B)).
Proof.
  intros HM Ht Hl Hbin Hnu Hne. unfold clearBinMask.
  apply runs_bind, (runs_getBin _ (first unused ys)); [lia|done|].
  destruct (masks_leaf _ _ HM t Ht) as (v & Hv & Hr & Hb).
  pose proof (masks_top_range _ _ HM) as Htr.
  apply runs_when; intros Hf.
  2: { exists (m_usedBinsTop a), (m_usedBins a). split; [by destruct a|].
       eapply masks_ext; [|exact HM]. intros b Hbr. destruct (decide (b = 8 * t + l)) as [->|Hd].
       - rewrite fn_lookup_insert. destruct ys; [|done]. simpl in Hf. done.
       - by rewrite fn_lookup_insert_ne by done. }
  assert (ys = []) as ->.
  { destruct ys as [|y ys]; [done|]. simpl in Hf. apply Z.eqb_eq in Hf as ->. set_solver. }
  set (v' := Z.land v (Z.lnot (Z.shiftl 1 l))).
  pose proof (clearbit_range v (Z.lnot (Z.shiftl 1 l)) 8 Hr ltac:(lia)) as Hr'. fold v' in Hr'.
  apply runs_bind, (runs_getUsed _ v); [lia|done|]. apply runs_bind, runs_setUsed; [lia|].
  replace (u8 (v & Z.lnot (Z.shiftl 1 l))) with v' by (unfold u8; by rewrite Z.mod_small).
  pose proof (masks_len _ _ HM) as Hlen.
  apply runs_bind, (runs_getUsed _ v'); [lia|simpl; apply list_lookup_insert_eq; lia|].
  assert (∀ l', 0 <= l' < 8 → Z.testbit v' l' = true ↔ <[8 * t + l := []]> B (8 * t + l') ≠ []) as Hbits.
  { intros l' Hl'. unfold v'. rewrite testbit_clearbit by lia. destruct (decide (l = l')) as [->|Hd].
    - rewrite fn_lookup_insert, bool_decide_eq_false_2, andb_false_r by tauto. naive_solver.
    - rewrite fn_lookup_insert_ne, bool_decide_eq_true_2, andb_true_r by (done || lia). by apply Hb. }
  apply runs_when; intros Hz.
  - apply runs_modify. eexists _, _. split; [by destruct a|].
    apply Z.eqb_eq in Hz. apply masks_update; try done.
    + apply clearbit_range; [done|lia].
    + intros t' Ht' Hd. simpl. rewrite testbit_clearbit, bool_decide_eq_true_2, andb_true_r by (lia || congruence).
      done.
    + simpl. rewrite testbit_clearbit, bool_decide_eq_false_2, andb_false_r by (lia || tauto).
      split; [done|]. congruence.
  - exists (m_usedBinsTop a), (<[Z.to_nat t := v']> (m_usedBins a)). split; [by destruct a|].
    apply Z.eqb_neq in Hz.
    replace (set_usedBins _ a) with
      (set_usedBinsTop (m_usedBinsTop a) (set_usedBins (<[Z.to_nat t := v']> (m_usedBins a)) a))
      by by destruct a.
    apply masks_update; try done.
    rewrite (masks_top _ _ HM) by done. split; [done|]. intros _. eauto.
Qed.

(** ** The bin lists

    [bins a F B]: the nodes satisfying [F] (the free nodes) are exactly the
    members of the 256 doubly linked lists [B], each in the bin of its size. *)

Definition bp (a : Allocator) (i : Z) : Z := binListPrev (node_at a i).
Definition bn (a : Allocator) (i : Z) : Z := binListNext (node_at a i).
Definition sz (a : Allocator) (i : Z) : Z := dataSize (node_at a i).
Definition off (a : Allocator) (i : Z) : Z := dataOffset (node_at a i).
Definition np (a : Allocator) (i : Z) : Z := neighborPrev (node_at a i).
Definition nn (a : Allocator) (i : Z) : Z := neighborNext (node_at a i).
Definition us (a : Allocator) (i : Z) : bool := used (node_at a i).

Record bins (a : Allocator) (F : Z → Prop) (B : Z → list Z) : Prop := {
  bins_cap : m_max_capacity a <= unused;
  bins_len : length (m_binIndices a) = 256%nat;
  bins_dll b : 0 <= b < 256 → dseg (bp a) (bn a) unused (B b) unused;
  bins_head b : 0 <= b < 256 → m_binIndices a !! Z.to_nat b = Some (first unused (B b));
  bins_nodup b : 0 <= b < 256 → NoDup (B b);
  bins_mem b i : 0 <= b < 256 → i ∈ B b ↔ F i ∧ uintToFloatRoundDown (sz a i) = b;
  bins_valid i : F i → valid a i ∧ is_u32 (sz a i);
  bins_masks : masks a B;
}.

Lemma valid_not_unused a i : m_max_capacity a <= unused → valid a i → i ≠ unused.
Proof. unfold valid. lia. Qed.

Section bins.
Context {a : Allocator} {F : Z → Prop} {B : Z → list Z} (HB : bins a F B).

Lemma bins_bin_range i : F i → 0 <= uintToFloatRoundDown (sz a i) < 240.
Proof. intros Hi. apply roundDown_spec, (bins_valid _ _ _ HB i Hi). Qed.

Lemma bins_split i : F i → ∃ l1 l2, B (uintToFloatRoundDown (sz a i)) = l1 ++ i :: l2.
Proof.
  intros Hi. apply list_elem_of_split, (bins_mem _ _ _ HB); [|done].
  pose proof (bins_bin_range i Hi). lia.
Qed.

Lemma bins_elem b i : 0 <= b < 256 → i ∈ B b → F i ∧ valid a i ∧ i ≠ unused.
Proof.
  intros Hb Hi. apply (bins_mem _ _ _ HB) in Hi as [Hi _]; [|done].
  destruct (bins_valid _ _ _ HB i Hi) as [Hv _].
  pose proof (valid_not_unused a i (bins_cap _ _ _ HB) Hv). done.
Qed.

Lemma bins_no_unused b : 0 <= b < 256 → unused ∉ B b.
Proof. intros Hb Hi. by apply bins_elem in Hi as (_ & _ & ?). Qed.

Lemma bins_disjoint b b' i : 0 <= b < 256 → 0 <= b' < 256 → i ∈ B b → i ∈ B b' → b = b'.
Proof. intros Hb Hb' Hi Hi'. apply (bins_mem _ _ _ HB) in Hi, Hi'; [|done..]. naive_solver. Qed.

(** Removing [x] from its bin list. *)
Section unlink.
Context (a' : Allocator) (b x : Z) (l1 l2 : list Z) (Hb : 0 <= b < 256) (EB : B b = l1 ++ x :: l2).
Context (Hf : ∀ i, F i → i ≠ x →
    sz a' i = sz a i ∧
    (bp a' i = if decide (l2 ≠ [] ∧ i = first unused l2) then final unused l1 else bp a i) ∧
    (bn a' i = if decide (l1 ≠ [] ∧ i = final unused l1) then first unused l2 else bn a i)).

Lemma unlink_nodup : x ∉ l1 ++ l2 ∧ NoDup (l1 ++ l2).
Proof.
  pose proof (bins_nodup _ _ _ HB b Hb) as Hnd. rewrite EB in Hnd. apply NoDup_app in Hnd as (Hn1 & Hd & Hnd).
  apply NoDup_cons in Hnd as [Hx2 Hn2]. split; [|apply NoDup_app; set_solver].
  intros [Hx|Hx]%elem_of_app; [|done]. apply (Hd x Hx). left.
Qed.

Lemma unlink_rest i : i ∈ l1 ++ l2 → F i ∧ i ≠ x.
Proof.
  intros Hi. destruct unlink_nodup as [Hx _]. split; [|by intros ->]. apply (bins_elem b i Hb). rewrite EB. set_solver.
Qed.

Lemma unlink_dll : dseg (bp a') (bn a') unused (l1 ++ l2) unused.
Proof.
  destruct unlink_nodup as [_ Hnd]. apply NoDup_app in Hnd as (Hn1 & Hd & Hn2).
  apply (dseg_replace (bp a) (bn a) _ _ _ l1 [x] [] l2).
  - simpl. rewrite <-EB. by apply HB.
  - done.
  - done.
  - intros y Hy. destruct (Hf y) as (_ & Ep & En); [apply unlink_rest; set_solver..|]. rewrite Ep, En. rewrite decide_False.
    2: { intros [Hl2 ->]. by apply (Hd _ Hy), first_elem, Hl2. }
    split; [done|]. intros Hne. by rewrite decide_False by tauto.
  - intros y Hy. destruct (Hf y) as (_ & Ep & En); [apply unlink_rest; set_solver..|]. rewrite Ep, En.
    rewrite (decide_False (P := l1 ≠ [] ∧ _)).
    2: { intros [Hl1 ->]. apply (Hd (final unused l1)); [by apply final_elem|done]. }
    split; [done|]. intros Hne. by rewrite decide_False by tauto.
  - intros Hl1. destruct (Hf (final unused l1)) as (_ & _ & ->);
      [apply unlink_rest; apply elem_of_app; left; by apply final_elem..|]. by rewrite decide_True.
  - intros Hl2. destruct (Hf (first unused l2)) as (_ & -> & _);
      [apply unlink_rest; apply elem_of_app; right; by apply first_elem..|]. by rewrite decide_True.
  - done.
Qed.

Lemma unlink_other_dll b' : 0 <= b' < 256 → b' ≠ b → dseg (bp a') (bn a') unused (B b') unused.
Proof.
  intros Hb' Hne. eapply dseg_ext; [|by apply HB].
  intros y Hy. assert (y ∉ B b) as Hyb by (intros Hy'; by apply Hne, (bins_disjoint b' b y)).
  rewrite EB in Hyb. destruct (bins_elem b' y Hb' Hy) as [HFy _]. destruct (Hf y) as (_ & -> & ->); [done|set_solver|].
  rewrite !decide_False; [done|..]; intros [Hl ->]; apply Hyb.
  - apply elem_of_app. left. by apply final_elem.
  - apply elem_of_app. right. right. by apply first_elem.
Qed.

Lemma unlink_mem b' i : 0 <= b' < 256 →
  i ∈ <[b := l1 ++ l2]> B b' ↔ (i ≠ x ∧ F i) ∧ uintToFloatRoundDown (sz a' i) = b'.
Proof.
  intros Hb'. destruct (decide (b' = b)) as [->|Hne].
  - rewrite fn_lookup_insert. split.
    + intros Hi. destruct (unlink_rest i Hi) as [HFi Hix]. destruct (Hf i HFi Hix) as [-> _].
      split; [done|]. apply (bins_mem _ _ _ HB b i Hb). rewrite EB. set_solver.
    + intros [[Hix HFi] Hbin]. destruct (Hf i HFi Hix) as [E _]. rewrite E in Hbin.
      assert (i ∈ B b) as Hi by (by apply (bins_mem _ _ _ HB)). rewrite EB in Hi. set_solver.
  - rewrite fn_lookup_insert_ne by done. rewrite (bins_mem _ _ _ HB) by done. split.
    + intros [HFi Hbin]. destruct (decide (i = x)) as [->|Hix].
      { exfalso. apply Hne. subst b'. assert (x ∈ B b) as [_ <-]%(bins_mem _ _ _ HB); [rewrite EB; set_solver|done..]. }
      destruct (Hf i HFi Hix) as [-> _]. done.
    + intros [[Hix HFi] Hbin]. destruct (Hf i HFi Hix) as [E _]. by rewrite E in Hbin.
Qed.

Lemma bins_unlink :
  m_max_capacity a' = m_max_capacity a →
  m_binIndices a' = <[Z.to_nat b := first unused (l1 ++ l2)]> (m_binIndices a) →
  masks a' (<[b := l1 ++ l2]> B) →
  bins a' (λ i, i ≠ x ∧ F i) (<[b := l1 ++ l2]> B).
Proof.
  intros Hmax Hbi HM. destruct unlink_nodup as [_ Hnd]. split; [rewrite Hmax; apply HB|rewrite Hbi, length_insert; apply HB|..|done].
  - intros b' Hb'. destruct (decide (b' = b)) as [->|Hne]; [rewrite fn_lookup_insert; apply unlink_dll|].
    rewrite fn_lookup_insert_ne by done. by apply unlink_other_dll.
  - intros b' Hb'. rewrite Hbi. pose proof (bins_len _ _ _ HB). destruct (decide (b' = b)) as [->|Hne].
    + rewrite fn_lookup_insert, list_lookup_insert_eq by lia. done.
    + rewrite fn_lookup_insert_ne, list_lookup_insert_ne by lia. by apply HB.
  - intros b' Hb'. destruct (decide (b' = b)) as [->|Hne]; [by rewrite fn_lookup_insert|].
    rewrite fn_lookup_insert_ne by done. by apply HB.
  - intros b' i Hb'. by apply unlink_mem.
  - intros i [Hix HFi]. destruct (Hf i HFi Hix) as [-> _]. unfold valid. rewrite Hmax. by apply HB.
Qed.
End unlink.

(** Pushing a new node [y] on the front of the bin of its size. *)
Section push.
Context (a' : Allocator) (b y : Z) (Hb : 0 <= b < 256) (HFy : ¬ F y).
Context (Hf : ∀ i, F i →
    sz a' i = sz a i ∧ bn a' i = bn a i ∧
    (bp a' i = if decide (B b ≠ [] ∧ i = first unused (B b)) then y else bp a i)).

Lemma push_old b' i : 0 <= b' < 256 → i ∈ B b' → F i ∧ i ≠ y.
Proof. intros Hb' Hi. apply bins_elem in Hi as [Hi _]; [|done]. split; [done|]. by intros ->. Qed.

Lemma push_dll : bp a' y = unused → bn a' y = first unused (B b) → dseg (bp a') (bn a') unused (y :: B b) unused.
Proof.
  intros Hpy Hny. pose proof (bins_dll _ _ _ HB b Hb) as Hd. simpl. split; [done|]. split; [done|].
  pose proof (bins_nodup _ _ _ HB b Hb) as Hnd. pose proof (push_old b) as HFb. clear Hny.
  destruct (B b) as [|z l] eqn:EB; [done|]. simpl in *. destruct Hd as (Hpz & Hnz & Hd).
  destruct (Hf z) as (_ & -> & ->); [apply HFb; [done|left]|]. rewrite decide_True by done.
  split; [done|]. split; [done|]. eapply dseg_ext; [|exact Hd]. intros x Hx.
  destruct (Hf x) as (_ & -> & ->); [apply HFb; [done|by right]|].
  apply NoDup_cons in Hnd as [Hz _]. rewrite decide_False; [done|]. intros [_ ->]. done.
Qed.

Lemma push_other_dll b' : 0 <= b' < 256 → b' ≠ b → dseg (bp a') (bn a') unused (B b') unused.
Proof.
  intros Hb' Hne. eapply dseg_ext; [|by apply HB]. intros x Hx.
  destruct (Hf x) as (_ & -> & ->); [by eapply push_old|].
  rewrite decide_False; [done|]. intros [Hl ->]. apply Hne.
  eapply bins_disjoint; [done|done|exact Hx|by apply first_elem].
Qed.

Lemma push_mem b' i : uintToFloatRoundDown (sz a' y) = b → 0 <= b' < 256 →
  i ∈ <[b := y :: B b]> B b' ↔ (i = y ∨ F i) ∧ uintToFloatRoundDown (sz a' i) = b'.
Proof.
  intros Hby Hb'. destruct (decide (i = y)) as [->|Hiy].
  - rewrite Hby. destruct (decide (b' = b)) as [->|Hne].
    + rewrite fn_lookup_insert. set_solver.
    + rewrite fn_lookup_insert_ne by done. split; [|naive_solver].
      intros Hy. by apply push_old in Hy as [_ ?].
  - transitivity (i ∈ B b').
    { destruct (decide (b' = b)) as [->|Hne]; [rewrite fn_lookup_insert; set_solver|].
      by rewrite fn_lookup_insert_ne. }
    rewrite (bins_mem _ _ _ HB) by done. split.
    + intros [HFi <-]. destruct (Hf i HFi) as [-> _]. auto.
    + intros [[->|HFi] <-]; [done|]. destruct (Hf i HFi) as [-> _]. auto.
Qed.

Lemma bins_push :
  valid a y → is_u32 (sz a' y) → uintToFloatRoundDown (sz a' y) = b →
  m_max_capacity a' = m_max_capacity a →
  m_binIndices a' = <[Z.to_nat b := y]> (m_binIndices a) →
  bp a' y = unused → bn a' y = first unused (B b) →
  masks a' (<[b := y :: B b]> B) →
  bins a' (λ i, i = y ∨ F i) (<[b := y :: B b]> B).
Proof.
  intros Hvy Hsy Hby Hmax Hbi Hpy Hny HM. split; [rewrite Hmax; apply HB|rewrite Hbi, length_insert; apply HB|..|done].
  - intros b' Hb'. destruct (decide (b' = b)) as [->|Hne]; [rewrite fn_lookup_insert; by apply push_dll|].
    rewrite fn_lookup_insert_ne by done. by apply push_other_dll.
  - intros b' Hb'. rewrite Hbi. pose proof (bins_len _ _ _ HB). destruct (decide (b' = b)) as [->|Hne].
    + rewrite fn_lookup_insert, list_lookup_insert_eq by lia. done.
    + rewrite fn_lookup_insert_ne, list_lookup_insert_ne by lia. by apply HB.
  - intros b' Hb'. destruct (decide (b' = b)) as [->|Hne].
    + rewrite fn_lookup_insert. apply NoDup_cons. split; [|by apply HB].
      intros Hy. by apply push_old in Hy as [_ ?].
    + rewrite fn_lookup_insert_ne by done. by apply HB.
  - intros b' i Hb'. by apply push_mem.
  - intros i [->|HFi]; unfold valid; rewrite Hmax; [done|].
    destruct (Hf i HFi) as [-> _]. by apply HB.
Qed.
End push.
End bins.

(** The fields of a node that the bin operations leave alone. *)
Definition nb (a : Allocator) (i : Z) : Z * Z * Z * Z * bool :=
  (off a i, sz a i, np a i, nn a i, us a i).

(** Two states with the same sizes and capacities. *)
Definition same_config (a a' : Allocator) : Prop :=
  m_size a' = m_size a ∧ m_current_capacity a' = m_current_capacity a ∧
  m_max_capacity a' = m_max_capacity a.

(** Decide the reads of a node after writes. *)
Ltac node_simp :=
  unfold nb, off, sz, np, nn, us, bp, bn in *;
  repeat first
    [ rewrite node_at_upd_opt | rewrite node_at_upd
    | match goal with |- context [node_at (?f ?v ?a) ?i] =>
        lazymatch f with
        | set_nodes => fail
        | upd => fail
        | upd_opt => fail
        | _ => rewrite (node_at_ext a (f v a) i) by reflexivity
        end
      end ].
Ltac node_cases := node_simp; repeat case_decide; simplify_eq/=; try done; try tauto.

(** The mask part of an insertion. *)
Lemma insert_mask_ok a B b t l y :
  masks a B → 0 <= t < 32 → 0 <= l < 8 → b = 8 * t + l → unused ∉ B b →
  runs (when (first unused (B b) =? unused)
     (v ← getUsed t; setUsed t (v ∥ Z.shiftl 1 l);;
      modify (λ a, set_usedBinsTop (m_usedBinsTop a ∥ (1 <<< t)) a))) a (λ _ a1,
      ∃ top ub, a1 = set_usedBinsTop top (set_usedBins ub a) ∧ masks a1 (<[b := y :: B b]> B)).
Proof.
  intros HM Ht Hl Eb Hu. apply runs_when; intros Hf.
  - destruct (masks_leaf _ _ HM t Ht) as (v & Hv & _ & _).
    apply runs_bind, (runs_getUsed _ v); [lia|done|]. apply runs_bind, runs_setUsed; [lia|].
    apply runs_modify. eexists _, _. split; [by destruct a|].
    subst b. by apply (masks_set a).
  - exists (m_usedBinsTop a), (m_usedBins a). split; [by destruct a|].
    eapply masks_ext; [|exact HM]. intros b' Hb'. destruct (decide (b' = b)) as [->|Hd].
    + rewrite fn_lookup_insert. destruct (B b); [|done]. simpl in Hf. done.
    + by rewrite fn_lookup_insert_ne by done.
Qed.

Lemma first_unused l : unused ∉ l → first unused l ≠ unused ↔ l ≠ [].
Proof. destruct l as [|x l]; simpl; [done|]. intros Hu. split; [done|]. intros _ ->. set_solver. Qed.

Lemma insertNodeIntoBin_ok a F B size o y :
  bins a F B → is_u32 size → valid a (m_freeOffset a) →
  m_freeNodes a !! m_freeOffset a = Some y → ¬ F y → valid a y →
  is_u32 (m_freeStorage a + size) →
  runs (insertNodeIntoBin size o) a (λ r a',
    r = y ∧ (∃ B', bins a' (λ i, i = y ∨ F i) B') ∧ same_config a a' ∧
    m_freeOffset a' = m_freeOffset a + 1 ∧ m_freeNodes a' = m_freeNodes a ∧
    m_freeStorage a' = m_freeStorage a + size ∧
    nb a' y = (o, size, unused, unused, false) ∧ ∀ i, i ≠ y → nb a' i = nb a i).
Proof.
  intros HB Hsz Hfo Hy HFy Hvy Hfs. unfold insertNodeIntoBin. cbv zeta.
  pose proof (roundDown_spec size Hsz) as [Hbr _].
  set (b := uintToFloatRoundDown size) in *.
  destruct (bin_split b ltac:(lia)) as (t & l & -> & -> & Ht & Hl & Eb).
  assert (0 <= b < 256) as Hb by lia.
  pose proof (bins_head _ _ _ HB b Hb) as Hhead.
  pose proof (bins_no_unused HB b Hb) as Hnu.
  pose proof (bins_cap _ _ _ HB) as Hcap. unfold unused in Hcap.
  assert (u32 (m_freeOffset a + 1) = m_freeOffset a + 1) as Efo.
  { apply u32_small. unfold valid in *. unfold is_u32. lia. }
  apply runs_bind. eapply runs_getBin; [lia|exact Hhead|]. apply runs_bind.
  eapply runs_mono; [by apply (insert_mask_ok a B b t l y); [apply HB|..]|].
  intros _ a1 (top & ub & -> & HM1).
  apply runs_bind. eapply runs_getBin; [lia|exact Hhead|].
  apply runs_bind, runs_gets. simpl m_freeOffset.
  apply runs_bind, (runs_getFree _ y); [done|done|].
  apply runs_bind, runs_modify, runs_bind, runs_modNode; [done|].
  rewrite Efo. apply runs_bind.
  assert (∀ i, i ∈ B b → valid a i ∧ i ≠ y) as Hney.
  { intros i Hi. apply (bins_elem HB b) in Hi as (? & ? & _); [|done]. split; [done|by intros ->]. }
  assert (first unused (B b) ≠ unused → valid a (first unused (B b)) ∧ first unused (B b) ≠ y) as Hh.
  { intros ?%first_unused; [|done]. by apply Hney, first_elem. }
  apply runs_modNode_opt; [intros Hne; by apply Hh|].
  runs_steps. apply runs_setBin; [lia|]. runs_steps. cbn [m_freeStorage].
  split; [done|]. split.
  { exists (<[b := y :: B b]> B). apply (bins_push HB _ b y); try done.
    - intros i HFi. assert (i ≠ y) by (by intros ->). split; [by node_cases|]. split; [by node_cases|].
      node_simp. pose proof (first_unused (B b) Hnu). repeat case_decide; naive_solver.
    - by node_cases.
    - by node_cases.
    - by node_cases.
    - by node_cases.
    - eapply masks_same; [..|exact HM1]; done. }
  split; [done|]. split; [done|]. split; [done|]. split; [simpl; by rewrite u32_small|].
  split; [by node_cases|]. intros i Hi. by node_cases.
Qed.

(** The bins depend on the bin links and sizes of the nodes only. *)
Lemma bins_same a a' F B :
  (∀ i, bp a' i = bp a i ∧ bn a' i = bn a i ∧ sz a' i = sz a i) →
  m_binIndices a' = m_binIndices a → m_max_capacity a' = m_max_capacity a →
  m_usedBins a' = m_usedBins a → m_usedBinsTop a' = m_usedBinsTop a → bins a F B → bins a' F B.
Proof.
  intros Ea Eb Em Eu Et [H1 H2 H3 H4 H5 H6 H7 H8].
  split; unfold valid in *; rewrite ?Eb, ?Em; try done.
  - intros b Hb. eapply dseg_ext; [|by apply H3]. intros i _. by destruct (Ea i) as (-> & -> & _).
  - intros b i Hb. destruct (Ea i) as (_ & _ & ->). by apply H6.
  - intros i Hi. destruct (Ea i) as (_ & _ & ->). by apply H7.
  - by apply (masks_same a).
Qed.

Lemma bins_F_ext a F F' B : (∀ i, F i ↔ F' i) → bins a F B → bins a F' B.
Proof.
  intros E [H1 H2 H3 H4 H5 H6 H7 H8]. split; try done.
  - intros b i Hb. rewrite <-E. by apply H6.
  - intros i Hi. apply H7. by apply E.
Qed.

Section unlinkNode.
Context {a : Allocator} {F : Z → Prop} {B : Z → list Z} (HB : bins a F B).
Context (x b : Z) (l1 l2 : list Z) (Hb : 0 <= b < 256) (EB : B b = l1 ++ x :: l2).

Lemma unlink_valid i : i ∈ l1 ++ l2 → valid a i.
Proof. intros Hi. apply (bins_elem HB b); [done|]. rewrite EB. set_solver. Qed.

Lemma unlink_unused : unused ∉ l1 ++ l2.
Proof. pose proof (bins_no_unused HB b Hb) as Hnu. rewrite EB in Hnu. set_solver. Qed.

Lemma unlink_next : first unused l2 ≠ unused → l2 ≠ [] ∧ valid a (first unused l2).
Proof.
  intros Hne. assert (l2 ≠ []) as Hl2 by (by destruct l2). split; [done|].
  apply unlink_valid, elem_of_app. right. by apply first_elem.
Qed.

(** [x] heads its bin list: the bin is given a new head and, when it is left empty, its mask bits are cleared. *)
Lemma unlinkHead_ok : l1 = [] →
  runs (setBin b (first unused l2);;
     when (negb (first unused l2 =? unused)) (modNode (first unused l2) (set_binListPrev unused));;
     clearBinMask b (b >>> TOP_BINS_INDEX_SHIFT) (b & LEAF_BINS_INDEX_MASK)) a (λ _ a',
    (∃ B', bins a' (λ i, i ≠ x ∧ F i) B') ∧ same_config a a' ∧
    m_freeOffset a' = m_freeOffset a ∧ m_freeNodes a' = m_freeNodes a ∧
    m_freeStorage a' = m_freeStorage a ∧ ∀ i, nb a' i = nb a i).
Proof.
  intros El1. pose proof unlink_next as Hv2. pose proof unlink_unused as Hnu. pose proof EB as EB'.
  rewrite El1 in Hnu, EB'. simpl app in Hnu, EB'.
  pose proof (first_unused l2 Hnu) as Hf2.
  destruct (bin_split b Hb) as (t & l & -> & -> & Ht & Hl & Eb).
  apply runs_bind, runs_setBin; [lia|]. apply runs_bind, runs_modNode_opt; [intros Hne; by apply Hv2|].
  rewrite Eb. eapply runs_mono.
  { eapply (clearBinMask_ok _ B t l l2); try done.
    - eapply masks_same; [..|exact (bins_masks _ _ _ HB)]; done.
    - rewrite <-Eb. simpl. apply list_lookup_insert_eq. rewrite (bins_len _ _ _ HB). lia.
    - rewrite <-Eb, EB'. by destruct l2. }
  intros _ a' (top & ub & -> & HM'). rewrite <-Eb in HM' |- *. split.
  { exists (<[b := l2]> B). apply (bins_unlink HB _ b x [] l2); try done.
    intros i HFi Hix. split; [by node_cases|]. simpl final.
      node_simp. repeat case_decide; naive_solver. }
  split; [done|]. repeat (split; [done|]). intros i. by node_cases.
Qed.

(** [x] is inside its bin list: its two neighbours in the list are linked to each other. *)
Lemma unlinkInner_ok : l1 ≠ [] →
  runs (modNode (final unused l1) (set_binListNext (first unused l2));;
     when (negb (first unused l2 =? unused)) (modNode (first unused l2) (set_binListPrev (final unused l1)))) a (λ _ a',
    (∃ B', bins a' (λ i, i ≠ x ∧ F i) B') ∧ same_config a a' ∧
    m_freeOffset a' = m_freeOffset a ∧ m_freeNodes a' = m_freeNodes a ∧
    m_freeStorage a' = m_freeStorage a ∧ ∀ i, nb a' i = nb a i).
Proof.
  intros Hl1. pose proof unlink_unused as Hnu. pose proof (first_unused l2 ltac:(set_solver)) as Hf2.
  apply runs_bind, runs_modNode; [apply unlink_valid, elem_of_app; left; by apply final_elem|].
  apply runs_modNode_opt; [intros Hne; by apply unlink_next|]. split.
  { exists (<[b := l1 ++ l2]> B). apply (bins_unlink HB _ b x l1 l2); try done.
    - intros i HFi Hix. split; [by node_cases|].
      node_simp. split; repeat case_decide; naive_solver.
    - simpl. symmetry. apply list_insert_id. rewrite (bins_head _ _ _ HB), EB by done.
      by destruct l1.
    - eapply masks_ext; [|eapply masks_same; [..|exact (bins_masks _ _ _ HB)]; done].
      intros b' Hb'. destruct (decide (b' = b)) as [->|Hne].
      + rewrite fn_lookup_insert, EB. by destruct l1.
      + by rewrite fn_lookup_insert_ne by done. }
  split; [done|]. repeat (split; [done|]). intros i. by node_cases.
Qed.
End unlinkNode.

(** The list part of [removeNodeFromBin]. *)
Lemma unlinkNode_ok a F B x :
  bins a F B → F x →
  let node := node_at a x in
  runs (if negb (binListPrev node =? unused) then
     modNode (binListPrev node) (set_binListNext (binListNext node));;
     when (negb (binListNext node =? unused))
       (modNode (binListNext node) (set_binListPrev (binListPrev node)))
   else
     let binIndex := uintToFloatRoundDown (dataSize node) in
     let topBinIndex := binIndex >>> TOP_BINS_INDEX_SHIFT in
     let leafBinIndex := binIndex & LEAF_BINS_INDEX_MASK in
     setBin binIndex (binListNext node);;
     when (negb (binListNext node =? unused))
       (modNode (binListNext node) (set_binListPrev unused));;
     clearBinMask binIndex topBinIndex leafBinIndex) a (λ _ a',
    (∃ B', bins a' (λ i, i ≠ x ∧ F i) B') ∧ same_config a a' ∧
    m_freeOffset a' = m_freeOffset a ∧ m_freeNodes a' = m_freeNodes a ∧
    m_freeStorage a' = m_freeStorage a ∧ ∀ i, nb a' i = nb a i).
Proof.
  intros HB HFx. destruct (bins_split HB x HFx) as (l1 & l2 & EB).
  pose proof (bins_bin_range HB x HFx) as Hbr. unfold sz in Hbr, EB. cbv zeta.
  set (b := uintToFloatRoundDown (dataSize (node_at a x))) in *.
  assert (0 <= b < 256) as Hb by lia.
  pose proof (bins_dll _ _ _ HB b Hb) as Hd. rewrite EB in Hd.
  apply dseg_mid in Hd as [Ep En]. unfold bp, bn in Ep, En. rewrite Ep, En.
  destruct (decide (l1 = [])) as [El1|Hl1].
  - rewrite El1. simpl final. rewrite Z.eqb_refl. by apply (unlinkHead_ok HB x b l1 l2).
  - destruct (Z.eqb_spec (final unused l1) unused) as [Eu|Hfu].
    { exfalso. apply (unlink_unused HB x b l1 l2 Hb EB). rewrite <-Eu at 1. apply elem_of_app. left. by apply final_elem. }
    by apply (unlinkInner_ok HB x b l1 l2).
Qed.

Lemma removeNodeFromBin_ok a F B x :
  bins a F B → F x → 1 <= m_freeOffset a <= m_max_capacity a →
  is_u32 (m_freeStorage a - sz a x) →
  runs (removeNodeFromBin x) a (λ _ a',
    (∃ B', bins a' (λ i, i ≠ x ∧ F i) B') ∧ same_config a a' ∧
    m_freeOffset a' = m_freeOffset a - 1 ∧
    m_freeNodes a' = <[m_freeOffset a - 1 := x]> (m_freeNodes a) ∧
    m_freeStorage a' = m_freeStorage a - sz a x ∧ ∀ i, nb a' i = nb a i).
Proof.
  intros HB HFx Hfo Hfs. unfold removeNodeFromBin.
  destruct (bins_valid _ _ _ HB x HFx) as [Hvx _].
  apply runs_bind, runs_getNode; [done|]. apply runs_bind.
  eapply runs_mono; [by apply (unlinkNode_ok a F B x)|].
  intros _ a1 ((B1 & HB1) & (Es & Ec & Em) & Efo & Efn & Efs & Hnb).
  pose proof (bins_cap _ _ _ HB) as Hcap. unfold unused in Hcap.
  assert (u32 (m_freeOffset a1 - 1) = m_freeOffset a - 1) as E1.
  { rewrite Efo. apply u32_small. unfold is_u32. lia. }
  apply runs_bind, runs_gets, runs_bind, runs_modify, runs_bind. rewrite E1.
  apply runs_setFree; [unfold valid; simpl; lia|].
  apply runs_bind, runs_getNode; [unfold valid; simpl; by rewrite Em|]. apply runs_modify.
  assert (dataSize (node_at a1 x) = sz a x) as Esz.
  { pose proof (Hnb x) as H. unfold nb in H. unfold sz in *. congruence. }
  split; [exists B1; eapply bins_same; [..|exact HB1]; done|].
  split; [done|]. simpl. rewrite Efn, Efs. split; [done|]. split; [done|]. split; [|done].
  change (node_at _ x) with (node_at a1 x). by rewrite Esz, u32_small.
Qed.
