(* ===== verification/Blocks.v ===== *)
(** * Blocks: the abstract specification of a region allocator

    A storage of size [e] is a list of contiguous blocks in address order, each
    free or used, in which no two free blocks are adjacent.  Allocating carves
    the request off the front of a free block; freeing turns a used block into
    a free one and coalesces it with its free neighbours.  [OffsetCorrect]
    proves that the node store of [offset_allocator.cpp] implements these two
    operations. *)

From S2P Require Import Prelude.

Record Block := mkBlock { b_off : Z; b_size : Z; b_used : bool }.

#[export] Instance Block_eq_dec : EqDecision Block.
Proof. solve_decision. Defined.

(** [tiles o bs e]: the blocks cover [[o, e)] without gaps or overlaps. *)
Fixpoint tiles (o : Z) (bs : list Block) (e : Z) : Prop :=
  match bs with
  | [] => o = e
  | b :: bs => b_off b = o ∧ 0 <= b_size b ∧ tiles (o + b_size b) bs e
  end.

(** No two adjacent free blocks. *)
Fixpoint coalesced (bs : list Block) : Prop :=
  match bs with
  | b :: ((b' :: _) as r) => (b_used b = true ∨ b_used b' = true) ∧ coalesced r
  | _ => True
  end.

Fixpoint free_sum (bs : list Block) : Z :=
  match bs with
  | [] => 0
  | b :: bs => (if b_used b then 0 else b_size b) + free_sum bs
  end.

Fixpoint used_sum (bs : list Block) : Z :=
  match bs with
  | [] => 0
  | b :: bs => (if b_used b then b_size b else 0) + used_sum bs
  end.

Record wf_blocks (e : Z) (bs : list Block) : Prop := {
  wf_tiles : tiles 0 bs e;
  wf_coalesced : coalesced bs;
}.

(** ** The two operations *)

(** Allocate [r] bytes at the front of the free block [blk]. *)
Definition alloc_at (r : Z) (pre : list Block) (blk : Block) (post : list Block) : list Block :=
  pre ++ mkBlock (b_off blk) r true ::
    (if r <? b_size blk then [mkBlock (b_off blk + r) (b_size blk - r) false] else []) ++ post.

Definition merge_left (pre : list Block) (o s : Z) : list Block * Z * Z :=
  match last pre with
  | Some p => if b_used p then (pre, o, s) else (removelast pre, b_off p, s + b_size p)
  | None => (pre, o, s)
  end.

Definition merge_right (s : Z) (post : list Block) : Z * list Block :=
  match post with
  | q :: post' => if b_used q then (s, post) else (s + b_size q, post')
  | [] => (s, post)
  end.

(** Free the used block [blk] and coalesce. *)
Definition free_at (pre : list Block) (blk : Block) (post : list Block) : list Block :=
  let '(pre', o, s) := merge_left pre (b_off blk) (b_size blk) in
  let '(s', post') := merge_right s post in
  pre' ++ mkBlock o s' false :: post'.

(** ** The specification as a transition system

    What a client observes: the offset an allocation of [size] bytes returned,
    a failed allocation, or the release of the allocation at an offset. *)

Inductive event :=
| EvAlloc (size off : Z)
| EvNoSpace (size : Z)
| EvFree (off : Z).

Inductive bstep : list Block → event → list Block → Prop :=
| bstep_alloc pre blk post size r :
    b_used blk = false → size <= r <= b_size blk →
    bstep (pre ++ blk :: post) (EvAlloc size (b_off blk)) (alloc_at r pre blk post)
| bstep_no_space bs size :
    bstep bs (EvNoSpace size) bs
| bstep_free pre blk post :
    b_used blk = true →
    bstep (pre ++ blk :: post) (EvFree (b_off blk)) (free_at pre blk post).

(** The traces of the specification, latest event first. *)
Inductive btrace (size : Z) : list event → list Block → Prop :=
| btrace_nil : btrace size [] [mkBlock 0 size false]
| btrace_cons tr ev bs bs' : btrace size tr bs → bstep bs ev bs' → btrace size (ev :: tr) bs'.

(** ** Facts about block lists *)

Lemma tiles_app o bs1 bs2 e : tiles o (bs1 ++ bs2) e ↔ ∃ m, tiles o bs1 m ∧ tiles m bs2 e.
Proof.
  revert o. induction bs1 as [|b bs1 IH]; intros o; simpl; [naive_solver|].
  rewrite IH. naive_solver.
Qed.

Lemma tiles_le o bs e : tiles o bs e → o <= e.
Proof.
  revert o. induction bs as [|b bs IH]; intros o; simpl; [lia|].
  intros (_ & Hs & H). apply IH in H. lia.
Qed.

(** Every block of a tiling lies within its bounds. *)
Lemma tiles_elem o bs e b :
  tiles o bs e → b ∈ bs → o <= b_off b ∧ 0 <= b_size b ∧ b_off b + b_size b <= e.
Proof.
  intros H (l1 & l2 & ->)%list_elem_of_split. apply tiles_app in H as (m & H1 & H2).
  simpl in H2. destruct H2 as (<- & Hs & H2). apply tiles_le in H1, H2. lia.
Qed.

(** Blocks at different positions do not overlap. *)
Lemma tiles_disjoint o bs e i j b1 b2 :
  tiles o bs e → bs !! i = Some b1 → bs !! j = Some b2 → (i < j)%nat →
  b_off b1 + b_size b1 <= b_off b2.
Proof.
  intros H Hi Hj Hij. pose proof (take_drop_middle bs i b1 Hi) as E. rewrite <-E in H.
  apply tiles_app in H as (m & _ & H). simpl in H. destruct H as (E1 & Hs & H).
  rewrite E1. apply (tiles_elem _ _ _ b2) in H; [lia|].
  apply list_elem_of_lookup. exists (j - S i)%nat. rewrite lookup_drop. by replace (S i + (j - S i))%nat with j by lia.
Qed.

Lemma coalesced_app bs1 b bs2 :
  coalesced (bs1 ++ b :: bs2) ↔
  coalesced bs1 ∧ coalesced (b :: bs2) ∧
  (∀ p, last bs1 = Some p → b_used p = true ∨ b_used b = true).
Proof.
  induction bs1 as [|c bs1 IH]; [simpl; naive_solver|].
  destruct bs1 as [|d bs1].
  - simpl. naive_solver.
  - change ((c :: d :: bs1) ++ b :: bs2) with (c :: d :: (bs1 ++ b :: bs2)).
    change (coalesced (c :: d :: (bs1 ++ b :: bs2))) with
      ((b_used c = true ∨ b_used d = true) ∧ coalesced ((d :: bs1) ++ b :: bs2)).
    rewrite IH. change (last (c :: d :: bs1)) with (last (d :: bs1)).
    change (coalesced (c :: d :: bs1)) with
      ((b_used c = true ∨ b_used d = true) ∧ coalesced (d :: bs1)). tauto.
Qed.

Lemma coalesced_cons b bs :
  coalesced (b :: bs) ↔
  coalesced bs ∧ (∀ q, head bs = Some q → b_used b = true ∨ b_used q = true).
Proof. destruct bs as [|q bs]; simpl; naive_solver. Qed.

Lemma free_sum_app bs1 bs2 : free_sum (bs1 ++ bs2) = free_sum bs1 + free_sum bs2.
Proof. induction bs1; simpl; lia. Qed.

Lemma used_sum_app bs1 bs2 : used_sum (bs1 ++ bs2) = used_sum bs1 + used_sum bs2.
Proof. induction bs1; simpl; lia. Qed.

(** Free and used space add up to the storage. *)
Lemma tiles_sum o bs e : tiles o bs e → free_sum bs + used_sum bs = e - o.
Proof.
  revert o. induction bs as [|b bs IH]; intros o; simpl; [lia|].
  intros (_ & _ & H). apply IH in H. destruct (b_used b); lia.
Qed.

Lemma sums_nonneg o bs e : tiles o bs e → 0 <= free_sum bs ∧ 0 <= used_sum bs.
Proof.
  revert o. induction bs as [|b bs IH]; intros o; simpl; [lia|].
  intros (_ & ? & H). apply IH in H. destruct (b_used b); lia.
Qed.

(** A free block is accounted for in the free space. *)
Lemma free_sum_elem o bs e b :
  tiles o bs e → b ∈ bs → b_used b = false → 0 <= b_size b <= free_sum bs.
Proof.
  intros Ht Hb Hu. apply list_elem_of_split in Hb as (l1 & l2 & ->).
  apply tiles_app in Ht as (m & Ht1 & _ & Hs & Ht2). rewrite free_sum_app. simpl. rewrite Hu.
  apply sums_nonneg in Ht1, Ht2. lia.
Qed.

(** ** The operations preserve well-formedness *)

Lemma alloc_at_wf e r pre blk post :
  wf_blocks e (pre ++ blk :: post) → b_used blk = false → 0 <= r <= b_size blk →
  wf_blocks e (alloc_at r pre blk post).
Proof.
  intros [Ht Hc] Hu Hr. unfold alloc_at. split.
  - apply tiles_app in Ht as (m & H1 & E & H2 & H3). apply tiles_app. exists m. split; [done|].
    simpl. split; [done|]. split; [lia|].
    destruct (Z.ltb_spec r (b_size blk)); simpl.
    + split; [lia|]. split; [lia|]. by replace (m + r + (b_size blk - r)) with (m + b_size blk) by lia.
    + by replace r with (b_size blk) by lia.
  - apply coalesced_app in Hc as (H1 & H2 & H3). apply coalesced_cons in H2 as [H2 H4].
    apply coalesced_app. split; [done|]. split; [|simpl; auto].
    apply coalesced_cons. split; [|simpl; auto].
    destruct (Z.ltb_spec r (b_size blk)); [|done]. apply coalesced_cons. split; [done|].
    intros q Hq. right. specialize (H4 q Hq). rewrite Hu in H4. naive_solver.
Qed.

Lemma alloc_at_free_sum r pre blk post :
  b_used blk = false → r <= b_size blk →
  free_sum (alloc_at r pre blk post) = free_sum (pre ++ blk :: post) - r.
Proof.
  intros Hu Hr. unfold alloc_at. rewrite !free_sum_app. simpl. rewrite free_sum_app, Hu.
  destruct (Z.ltb_spec r (b_size blk)); simpl; lia.
Qed.

Lemma merge_left_spec pre o s pre' o' s' :
  merge_left pre o s = (pre', o', s') → ∀ x e, tiles x pre o → coalesced pre → e = o + s → 0 <= s →
  tiles x pre' o' ∧ coalesced pre' ∧ o' + s' = e ∧ 0 <= s' ∧
  (∀ p, last pre' = Some p → b_used p = true) ∧
  free_sum pre + s = free_sum pre' + s'.
Proof.
  unfold merge_left. intros H x e Ht Hc -> Hs. destruct pre as [|p pre _] using rev_ind.
  - simpl in H. simplify_eq. naive_solver.
  - rewrite last_snoc in H. apply coalesced_app in Hc as (Hc & _ & Hl).
    apply tiles_app in Ht as (m & Ht & E & Hp & Ho). simpl in Ho.
    destruct (b_used p) eqn:Hu; simplify_eq.
    + rewrite last_snoc. split; [apply tiles_app; eexists; split; [exact Ht|simpl; auto]|].
      split; [apply coalesced_app; simpl; auto|]. split; [done|]. split; [done|].
      split; [naive_solver|done].
    + rewrite removelast_last. split; [done|]. split; [done|].
      split; [lia|]. split; [lia|]. rewrite free_sum_app. simpl. rewrite Hu.
      split; [|lia]. intros p' Hp'. destruct (Hl p' Hp'); congruence.
Qed.

Lemma merge_right_spec s post s' post' :
  merge_right s post = (s', post') → ∀ o e, tiles (o + s) post e → coalesced post → 0 <= s →
  tiles (o + s') post' e ∧ coalesced post' ∧ 0 <= s' ∧
  (∀ q, head post' = Some q → b_used q = true) ∧
  s + free_sum post = s' + free_sum post'.
Proof.
  unfold merge_right. intros H o e Ht Hc Hs. destruct post as [|q post]; simpl in *.
  - simplify_eq. naive_solver.
  - apply (coalesced_cons q post) in Hc as [Hc Hh]. destruct Ht as (E & Hq & Ht).
    destruct (b_used q) eqn:Hu; simplify_eq.
    + simpl. split; [auto|]. split; [by apply (coalesced_cons q); split; [|intros; left]|].
      split; [done|]. split; [naive_solver|]. by rewrite Hu.
    + split; [by replace (o + (s + b_size q)) with (o + s + b_size q) by lia|].
      split; [done|]. split; [lia|]. split; [|lia]. intros q' Hq'. destruct (Hh q' Hq'); congruence.
Qed.

(** After merging, the region has no free neighbour. *)
Lemma merge_left_last pre o s pre' o' s' :
  merge_left pre o s = (pre', o', s') → coalesced pre →
  ∀ p, last pre' = Some p → b_used p = true.
Proof.
  unfold merge_left. intros H Hc. destruct pre as [|p pre _] using rev_ind; [by simplify_eq/=|].
  rewrite last_snoc in H. apply coalesced_app in Hc as (_ & _ & Hl). destruct (b_used p) eqn:Hu; simplify_eq.
  - rewrite last_snoc. naive_solver.
  - rewrite removelast_last. intros p' Hp'. destruct (Hl p' Hp'); congruence.
Qed.

Lemma merge_right_head s post s' post' :
  merge_right s post = (s', post') → coalesced post →
  ∀ q, head post' = Some q → b_used q = true.
Proof.
  unfold merge_right. intros H Hc. destruct post as [|q post]; [by simplify_eq/=|].
  apply (coalesced_cons q post) in Hc as [_ Hh]. destruct (b_used q) eqn:Hu; simplify_eq.
  - naive_solver.
  - intros q' Hq'. destruct (Hh q' Hq'); congruence.
Qed.

Lemma free_at_spec e pre blk post :
  wf_blocks e (pre ++ blk :: post) →
  wf_blocks e (free_at pre blk post) ∧
  free_sum (free_at pre blk post) = free_sum pre + b_size blk + free_sum post.
Proof.
  intros [Ht Hc]. unfold free_at.
  apply coalesced_app in Hc as (Hc1 & Hc2 & _). apply coalesced_cons in Hc2 as [Hc2 _].
  apply tiles_app in Ht as (m & Ht1 & E & Hs & Ht2).
  destruct (merge_left _ _ _) as [[pre' o'] s1] eqn:E1.
  eapply merge_left_spec in E1 as (Ht1' & Hc1' & Eo & Hs1 & Hl & Hsum1);
    [|by rewrite E|done|by rewrite E|done].
  destruct (merge_right _ _) as [s2 post'] eqn:E2.
  eapply (merge_right_spec s1 post s2 post' E2 o') in Hc2 as (Ht2' & Hc2' & Hs2 & Hh & Hsum2);
    [|rewrite Eo; done|done].
  split.
  - split.
    + apply tiles_app. exists o'. naive_solver.
    + apply coalesced_app. split; [done|]. split; [|naive_solver].
      apply coalesced_cons. naive_solver.
  - rewrite free_sum_app. simpl. lia.
Qed.

(** A coalesced tiling without used blocks is one block. *)
Lemma wf_all_free e bs :
  wf_blocks e bs → (∀ b, b ∈ bs → b_used b = false) →
  (bs = [] ∧ e = 0) ∨ bs = [mkBlock 0 e false].
Proof.
  intros [Ht Hc] Hf. destruct bs as [|[o s u] [|b2 bs]].
  - left. simpl in Ht. auto.
  - right. destruct Ht as (Eo & Hs & E). simpl in Eo, Hs, E. subst o.
    rewrite <-E, Z.add_0_l, <-(Hf (mkBlock 0 s u)); [done|set_solver].
  - destruct Hc as [[Hu|Hu] _]; rewrite Hf in Hu; set_solver.
Qed.
