(* ===== verification/OffsetCorrect.v ===== *)
(** * OffsetCorrect: the node store implements the block specification *)

From S2P Require Import Prelude SmallFloat Dll OffsetAllocator OffsetInv Blocks.
Open Scope Z_scope.
Open Scope u32_scope.

(** ** The invariant

    [L] lists the live nodes in address order, [S] the stack of unused node
    indices (top first), [B] the bin lists. *)

Definition blk (a : Allocator) (i : Z) : Block := mkBlock (off a i) (sz a i) (us a i).

Definition isfree (a : Allocator) (L : list Z) (i : Z) : Prop := i ∈ L ∧ us a i = false.

Record inv (a : Allocator) (L S : list Z) (B : Z → list Z) : Prop := {
  inv_bins : bins a (isfree a L) B;
  inv_cap : 0 <= m_current_capacity a <= m_max_capacity a;
  inv_perm : L ++ S ≡ₚ seqZ 0 (m_current_capacity a);
  inv_fo : m_freeOffset a = Z.of_nat (length L);
  inv_stack k i : S !! k = Some i → m_freeNodes a !! (m_freeOffset a + Z.of_nat k) = Some i;
  inv_nbr : dseg (np a) (nn a) unused L unused;
  inv_size : is_u32 (m_size a);
  inv_blocks : wf_blocks (m_size a) (blk a <$> L);
  inv_storage : m_freeStorage a = free_sum (blk a <$> L);
}.

(** [repr a bs]: the allocator represents the block list [bs]. *)
Definition repr (a : Allocator) (L : list Z) : Prop := ∃ S B, inv a L S B.

Section inv.
Context {a : Allocator} {L S : list Z} {B : Z → list Z} (HI : inv a L S B).

Lemma inv_nodup : NoDup (L ++ S).
Proof. rewrite (inv_perm _ _ _ _ HI). apply NoDup_seqZ. Qed.

Lemma inv_range i : i ∈ L ++ S → 0 <= i < m_current_capacity a.
Proof. rewrite (inv_perm _ _ _ _ HI). rewrite elem_of_seqZ. lia. Qed.

Lemma inv_valid i : i ∈ L ++ S → valid a i.
Proof. intros Hi%inv_range. pose proof (inv_cap _ _ _ _ HI). unfold valid. lia. Qed.

Lemma inv_max : m_max_capacity a <= unused.
Proof. apply (inv_bins _ _ _ _ HI). Qed.

Lemma inv_not_unused i : i ∈ L ++ S → i ≠ unused.
Proof. intros Hi. eapply valid_not_unused; [apply inv_max|by apply inv_valid]. Qed.

Lemma inv_length : Z.of_nat (length L) + Z.of_nat (length S) = m_current_capacity a.
Proof.
  pose proof (inv_cap _ _ _ _ HI). pose proof (Permutation_length (inv_perm _ _ _ _ HI)) as H'.
  rewrite length_app, length_seqZ in H'. lia.
Qed.

(** The block of a live node lies inside the storage. *)
Lemma inv_block i : i ∈ L → 0 <= off a i ∧ 0 <= sz a i ∧ off a i + sz a i <= m_size a.
Proof.
  intros Hi. apply (tiles_elem 0 (blk a <$> L) (m_size a) (blk a i)).
  - apply (inv_blocks _ _ _ _ HI).
  - by apply list_elem_of_fmap_2.
Qed.

Lemma inv_storage_bound i : isfree a L i → 0 <= sz a i <= m_freeStorage a ∧ m_freeStorage a <= m_size a.
Proof.
  intros [Hi Hu]. rewrite (inv_storage _ _ _ _ HI).
  destruct (inv_blocks _ _ _ _ HI) as [Ht _]. pose proof (tiles_sum _ _ _ Ht).
  pose proof (sums_nonneg _ _ _ Ht).
  apply list_elem_of_split in Hi as (l1 & l2 & ->). rewrite fmap_app, fmap_cons in *.
  rewrite free_sum_app in *. simpl in *. rewrite Hu in *.
  apply tiles_app in Ht as (m & Ht1 & _ & Hs & Ht2). simpl in *.
  apply sums_nonneg in Ht1, Ht2. lia.
Qed.

Lemma inv_storage_range : 0 <= m_freeStorage a <= m_size a.
Proof.
  rewrite (inv_storage _ _ _ _ HI). destruct (inv_blocks _ _ _ _ HI) as [Ht _].
  pose proof (tiles_sum _ _ _ Ht). pose proof (sums_nonneg _ _ _ Ht). lia.
Qed.

End inv.

(** The top of the free-node stack. *)
Lemma inv_top a L y S B :
  inv a L (y :: S) B → m_freeNodes a !! m_freeOffset a = Some y ∧ valid a (m_freeOffset a).
Proof.
  intros HI. split.
  - pose proof (inv_stack _ _ _ _ HI 0%nat y eq_refl) as H. by rewrite Z.add_0_r in H.
  - pose proof (inv_length HI) as H. pose proof (inv_cap _ _ _ _ HI).
    rewrite (inv_fo _ _ _ _ HI). unfold valid. simpl in H. lia.
Qed.


(** ** Selecting a bin *)

Section select.
Context {a : Allocator} {F : Z → Prop} {B : Z → list Z} (HB : bins a F B).

(** A clear bit of the top mask says that all eight bins below it are empty. *)
Lemma top_clear t l : 0 <= t < 32 → 0 <= l < 8 → Z.testbit (m_usedBinsTop a) t = false → B (8 * t + l) = [].
Proof.
  intros Ht Hl Hbit. destruct (decide (B (8 * t + l) = [])) as [|Hne]; [done|]. exfalso.
  destruct (bins_masks _ _ _ HB) as [_ _ _ Htop].
  assert (Z.testbit (m_usedBinsTop a) t = true) as Hbt by (apply Htop; eauto). congruence.
Qed.

Lemma leaf_mask t : 0 <= t < 32 → ∃ v, m_usedBins a !! Z.to_nat t = Some v ∧ 0 <= v < 2 ^ 8 ∧
  (∀ l, 0 <= l < 8 → Z.testbit v l = true → B (8 * t + l) ≠ []) ∧
  (∀ l, 0 <= l < 8 → Z.testbit v l = false → B (8 * t + l) = []).
Proof.
  intros Ht. destruct (bins_masks _ _ _ HB) as [_ Hleaf _ _]. destruct (Hleaf t Ht) as (v & Hv & Hr & Hb).
  exists v. split; [done|]. split; [done|]. split; intros l Hl Hbit; [by apply Hb|].
  destruct (decide (B (8 * t + l) = [])) as [|Hne]; [done|]. apply Hb in Hne; [congruence|done].
Qed.

(** The search of the leaf mask below the smallest top bin. *)
Lemma selectLeaf_ok t0 l0 : 0 <= t0 < 32 → 0 <= l0 < 8 →
  runs (if negb ((m_usedBinsTop a & Z.shiftl 1 t0) =? 0) then
          v ← getUsed t0; mret (findLowestSetBitAfter v l0)
        else mret NO_SPACE) a (λ r a', a' = a ∧
    ((r = NO_SPACE ∧ ∀ l, l0 <= l < 8 → B (8 * t0 + l) = []) ∨
     (l0 <= r < 8 ∧ B (8 * t0 + r) ≠ [] ∧ ∀ l, l0 <= l < r → B (8 * t0 + l) = []))).
Proof.
  intros Ht0 Hl0. destruct (leaf_mask t0 Ht0) as (v & Hv & Hr & Hset & Hclear). destruct (negb _) eqn:Hbit.
  - apply runs_bind. eapply runs_getUsed; [lia|exact Hv|]. apply runs_ret. split; [done|].
    destruct (findLowestSetBitAfter_spec v l0) as [[-> Hn]|(Hrr & Hbr & Hn)]; [lia..| |].
    + left. split; [done|]. intros l Hl. apply Hclear; [lia|]. apply Hn. lia.
    + right. pose proof (testbit_bound v 8 _ Hr ltac:(lia) Hbr).
      split; [lia|]. split; [apply Hset; [lia|done]|]. intros l Hl. apply Hclear; [lia|]. apply Hn. lia.
  - apply runs_ret. split; [done|]. left. split; [done|]. intros l Hl. apply top_clear; [lia..|].
    apply negb_false_iff, Z.eqb_eq in Hbit. pose proof (f_equal (λ z, Z.testbit z t0) Hbit) as E. simpl in E.
    rewrite Z.land_spec, Z.shiftl_1_l, Z.pow2_bits_eqb, Z.eqb_refl, Z.bits_0, andb_true_r in E by lia. done.
Qed.

(** The search of the top mask above the smallest top bin. *)
Lemma selectTop_ok t0 l0 : 0 <= t0 <= 30 → 0 <= l0 < 8 →
  (∀ l, l0 <= l < 8 → B (8 * t0 + l) = []) →
  runs (let topBinIndex := findLowestSetBitAfter (m_usedBinsTop a) (t0 ⊞ 1) in
        if topBinIndex =? NO_SPACE then mret None
        else v ← getUsed topBinIndex; mret (Some (topBinIndex, tzcnt_nonzero v))) a (λ r a', a' = a ∧
    match r with
    | None => ∀ b, 8 * t0 + l0 <= b < 256 → B b = []
    | Some (t, l) => 0 <= t < 32 ∧ 0 <= l < 8 ∧ 8 * t0 + l0 <= 8 * t + l ∧ B (8 * t + l) ≠ [] ∧
        ∀ b, 8 * t0 + l0 <= b < 8 * t + l → B b = []
    end).
Proof.
  intros Ht0 Hl0 Hn. cbv zeta. rewrite (u32_small (t0 + 1)) by (unfold is_u32; lia).
  destruct (bins_masks _ _ _ HB) as [_ _ Htr Htop].
  destruct (findLowestSetBitAfter_spec (m_usedBinsTop a) (t0 + 1)) as [[-> Hn2]|(Hrr & Hbr & Hn2)];
    [lia..| |].
  - rewrite Z.eqb_refl. apply runs_ret. split; [done|]. intros b Hb.
    destruct (bin_split b ltac:(lia)) as (t & l & _ & _ & Ht & Hl & ->).
    destruct (decide (t = t0)) as [->|Htt]; [apply Hn; lia|]. apply top_clear; [done..|]. apply Hn2. lia.
  - set (t := findLowestSetBitAfter _ _) in *.
    destruct (Z.eqb_spec t NO_SPACE) as [E|_]; [unfold NO_SPACE in E; lia|].
    destruct (leaf_mask t ltac:(lia)) as (v & Hv & Hr & Hset & Hclear).
    apply runs_bind. eapply runs_getUsed; [lia|exact Hv|]. apply runs_ret. split; [done|].
    assert (0 < v) as Hv0.
    { apply Htop in Hbr as (l & Hl & Hne); [|lia]. destruct (decide (v = 0)) as [->|]; [|lia].
      destruct Hne. apply Hclear; [done|apply Z.bits_0]. }
    destruct (tzcnt_spec v Hv0) as (H0 & H1 & H2).
    pose proof (testbit_bound v 8 _ Hr ltac:(lia) H1) as H3.
    split; [lia|]. split; [lia|]. split; [lia|]. split; [by apply Hset|]. intros b Hbb.
    destruct (bin_split b ltac:(lia)) as (t' & l & _ & _ & Ht & Hl & ->).
    destruct (decide (t' = t0)) as [->|Htt]; [apply Hn; lia|].
    destruct (decide (t' = t)) as [->|Htt']; [apply Hclear; [done|]; apply H2; lia|].
    apply top_clear; [done..|]. apply Hn2. lia.
Qed.
End select.

(** [selectBin] finds the smallest non-empty bin at or above the request. *)
Lemma selectBin_ok a F B mb :
  bins a F B → 0 <= mb <= 240 →
  runs (selectBin mb) a (λ r a', a' = a ∧
    match r with
    | None => ∀ b, mb <= b < 256 → B b = []
    | Some (t, l) => 0 <= t < 32 ∧ 0 <= l < 8 ∧ mb <= 8 * t + l ∧ B (8 * t + l) ≠ [] ∧
        ∀ b, mb <= b < 8 * t + l → B b = []
    end).
Proof.
  intros HB Hmb. unfold selectBin. cbv zeta.
  destruct (bin_split mb ltac:(lia)) as (t0 & l0 & -> & -> & Ht0 & Hl0 & Emb).
  apply runs_bind, runs_gets, runs_bind. eapply runs_mono; [by apply (selectLeaf_ok HB)|].
  intros r a' [-> [[-> Hn]|(Hr & Hne & Hn)]].
  - rewrite Z.eqb_refl, Emb. apply (selectTop_ok HB); [lia|done..].
  - destruct (Z.eqb_spec r NO_SPACE) as [->|_]; [unfold NO_SPACE in Hr; lia|].
    apply runs_ret. split; [done|]. repeat (split; [lia || done|]).
    intros b Hb. replace b with (8 * t0 + (b - 8 * t0)) by lia. apply Hn. lia.
Qed.

(** ** Popping and splitting a node *)

Lemma popNode_ok a F B t l x l' r :
  bins a F B → 0 <= t < 32 → 0 <= l < 8 → B (8 * t + l) = x :: l' →
  is_u32 (m_freeStorage a - sz a x) →
  runs (popNode t l r) a (λ res a',
    res = (x, sz a x) ∧ (∃ B', bins a' (λ i, i ≠ x ∧ F i) B') ∧ same_config a a' ∧
    m_freeOffset a' = m_freeOffset a ∧ m_freeNodes a' = m_freeNodes a ∧
    m_freeStorage a' = m_freeStorage a - sz a x ∧
    nb a' x = (off a x, r, np a x, nn a x, true) ∧ ∀ i, i ≠ x → nb a' i = nb a i).
Proof.
  intros HB Ht Hl EB Hfs. unfold popNode. rewrite bin_join by done. set (b := 8 * t + l) in *.
  assert (0 <= b < 256) as Hb by lia. cbv zeta.
  pose proof (bins_head _ _ _ HB b Hb) as Hh. rewrite EB in Hh. simpl in Hh.
  assert (∀ i, i ∈ x :: l' → valid a i) as Hval.
  { intros i Hi. apply (bins_elem HB b); [done|]. by rewrite EB. }
  pose proof (bins_no_unused HB b Hb) as Hnu. rewrite EB in Hnu.
  pose proof (bins_dll _ _ _ HB b Hb) as Hd. rewrite EB in Hd. destruct Hd as (_ & En & _).
  unfold bn in En.
  pose proof (first_unused l' ltac:(set_solver)) as Hf2.
  assert (first unused l' ≠ unused → valid a (first unused l')) as Hv2.
  { intros ?%Hf2. apply Hval. right. by apply first_elem. }
  assert (x ∉ l') as Hxl.
  { pose proof (bins_nodup _ _ _ HB b Hb) as Hnd. rewrite EB in Hnd. by apply NoDup_cons in Hnd as [? _]. }
  assert (first unused l' ≠ unused → first unused l' ≠ x) as Hfx.
  { intros ?%Hf2 E. apply Hxl. rewrite <-E. by apply first_elem. }
  apply runs_bind. eapply runs_getBin; [lia|exact Hh|].
  apply runs_bind, runs_getNode; [apply Hval; left|]. rewrite En.
  apply runs_bind, runs_modNode; [apply Hval; left|].
  apply runs_bind, runs_modNode; [apply Hval; left|].
  apply runs_bind, runs_setBin; [done|].
  apply runs_bind, runs_modNode_opt; [done|].
  apply runs_bind, runs_modify, runs_bind.
  eapply runs_mono.
  { eapply (clearBinMask_ok _ B t l l'); try done.
    - eapply masks_same; [..|exact (bins_masks _ _ _ HB)]; done.
    - simpl. fold b. apply list_lookup_insert_eq. rewrite (bins_len _ _ _ HB). lia.
    - set_solver.
    - fold b. by rewrite EB. }
  intros _ a' (top & ub & -> & HM'). fold b in HM'. apply runs_ret.
  split; [done|]. split.
  { exists (<[b := l']> B). apply (bins_unlink HB _ b x [] l'); try done.
    intros i HFi Hix. split; [by node_cases|]. simpl final.
    node_simp. repeat case_decide; naive_solver. }
  split; [done|]. split; [done|]. split; [done|]. split; [simpl; by rewrite u32_small|].
  split; [|by intros i Hi; node_cases]. node_simp. repeat case_decide; naive_solver.
Qed.

Lemma splitNode_ok a F B x y total r :
  bins a F B → 0 <= r < total → is_u32 total → valid a x → valid a y → x ≠ y → ¬ F y →
  valid a (m_freeOffset a) → m_freeNodes a !! m_freeOffset a = Some y →
  is_u32 (off a x + r) → is_u32 (m_freeStorage a + (total - r)) →
  (nn a x ≠ unused → valid a (nn a x) ∧ nn a x ≠ x ∧ nn a x ≠ y) →
  runs (splitNode x total r) a (λ _ a',
    (∃ B', bins a' (λ i, i = y ∨ F i) B') ∧ same_config a a' ∧
    m_freeOffset a' = m_freeOffset a + 1 ∧ m_freeNodes a' = m_freeNodes a ∧
    m_freeStorage a' = m_freeStorage a + (total - r) ∧
    nb a' y = (off a x + r, total - r, x, nn a x, false) ∧
    nb a' x = (off a x, sz a x, np a x, y, us a x) ∧
    ∀ i, i ≠ x → i ≠ y →
      nb a' i = (off a i, sz a i, if decide (nn a x ≠ unused ∧ i = nn a x) then y else np a i,
                 nn a i, us a i)).
Proof.
  intros HB Hr Htot Hvx Hvy Hxy HFy Hvf Hy Ho Hfs Hnn. unfold splitNode.
  rewrite (u32_small (total - r)) by (unfold is_u32 in *; lia).
  apply runs_when; intros Hlt; [|lia].
  apply runs_bind, runs_getNode; [done|].
  rewrite u32_small by done. apply runs_bind.
  eapply runs_mono;
    [by apply (insertNodeIntoBin_ok a F B (total - r) _ y); unfold is_u32 in *; try lia; try done|].
  intros ? a1 (-> & (B1 & HB1) & (Es & Ec & Em) & Efo & Efn & Efs & Hnby & Hnb).
  assert (nb a1 x = nb a x) as Enbx by (by apply Hnb).
  assert (∀ i, valid a1 i ↔ valid a i) as Hval by (intros i; unfold valid; by rewrite Em).
  apply runs_bind, runs_getNode; [by apply Hval|].
  assert (neighborNext (node_at a1 x) = nn a x) as E1 by (unfold nb in Enbx; unfold nn in *; congruence).
  rewrite E1. apply runs_bind, runs_modNode_opt; [intros H; by apply Hval, Hnn|].
  apply runs_bind, runs_modNode; [by apply (Hval y)|].
  apply runs_bind, runs_getNode; [by apply (Hval x)|].
  apply runs_bind, runs_modNode; [by apply (Hval y)|].
  apply runs_modNode; [by apply (Hval x)|].
  split.
  { exists B1. eapply bins_same; [..|exact HB1]; try done.
    intros i. unfold bp, bn, sz. repeat split; by node_cases. }
  split; [by unfold same_config; simpl; rewrite Es, Ec, Em|]. simpl.
  split; [done|]. split; [done|]. split; [done|].
  assert (∀ i, nb a1 i = (off a1 i, sz a1 i, np a1 i, nn a1 i, us a1 i)) as Hu by done.
  assert (nn a x ≠ x ∨ nn a x = unused) as Hnx by (destruct (decide (nn a x = unused)); naive_solver).
  assert (nn a x ≠ y ∨ nn a x = unused) as Hny by (destruct (decide (nn a x = unused)); naive_solver).
  assert (x ≠ unused) as Hxu by (eapply valid_not_unused; [apply HB|done]).
  assert (y ≠ unused) as Hyu by (eapply valid_not_unused; [apply HB|done]).
  split; [|split].
  - rewrite Hu in Hnby. injection Hnby as Ey1 Ey2 Ey3 Ey4 Ey5.
    destruct Hnx, Hny; node_simp; dec_simp; simpl; congruence.
  - rewrite Hu in Enbx. injection Enbx as Ex1 Ex2 Ex3 Ex4 Ex5.
    destruct Hnx, Hny; node_simp; dec_simp; simpl; congruence.
  - intros i Hix Hiy. pose proof (Hnb i Hiy) as Enb. rewrite Hu in Enb.
    injection Enb as Ei1 Ei2 Ei3 Ei4 Ei5.
    clear Hnx Hny. node_simp. destruct (decide (neighborNext (node_at a x) ≠ unused ∧ i = neighborNext (node_at a x)))
      as [[Hu1 Hu2]|Hu1]; [|rewrite (decide_False (P := _ ∧ neighborNext (node_at a x) = i)) by (intros [? ?]; by apply Hu1)];
      dec_simp; simpl; congruence.
Qed.

(** ** [allocate] *)

Lemma nb_inv a i o s p n u :
  nb a i = (o, s, p, n, u) → off a i = o ∧ sz a i = s ∧ np a i = p ∧ nn a i = n ∧ us a i = u.
Proof. unfold nb. intros [= -> -> -> -> ->]. done. Qed.

Lemma nb_eq a a' i :
  nb a' i = nb a i → blk a' i = blk a i ∧ np a' i = np a i ∧ nn a' i = nn a i ∧ us a' i = us a i.
Proof. unfold nb, blk. intros [= -> -> -> -> ->]. done. Qed.

Lemma blk_fmap_ext a a' (l : list Z) :
  (∀ i, i ∈ l → blk a' i = blk a i) → blk a' <$> l = blk a <$> l.
Proof. intros H. apply list_fmap_ext. intros k i Hk. apply H. by apply list_elem_of_lookup_2 in Hk. Qed.

Lemma growFreeNodes_ok a L S B :
  inv a L S B → m_freeOffset a ≠ m_max_capacity a →
  runs growFreeNodes a (λ _ a',
    m_nodes a' = m_nodes a ∧ m_size a' = m_size a ∧ m_max_capacity a' = m_max_capacity a ∧
    m_freeOffset a' = m_freeOffset a ∧ m_current_capacity a <= m_current_capacity a' ∧
    ∃ y S', inv a' L (y :: S') B).
Proof.
  intros HI Hne. pose proof (inv_length HI) as Hlen. pose proof (inv_cap _ _ _ _ HI) as Hc.
  pose proof (inv_fo _ _ _ _ HI) as Hfo. pose proof (inv_max HI) as Hm. unfold unused in Hm.
  unfold growFreeNodes. apply runs_bind, runs_gets, runs_bind, runs_gets. apply runs_when; intros E.
  - apply Z.eqb_eq in E. apply runs_bind, runs_setFree; [unfold valid; lia|]. apply runs_modify.
    rewrite u32_small by (unfold is_u32; lia). simpl. repeat (split; [done || lia|]).
    assert (S = []) as ->.
    { assert (length S = 0%nat) as H0 by lia. by apply nil_length_inv in H0. }
    exists (m_current_capacity a), []. destruct HI as [H1 H2 H3 H4 H5 H6 H7 H8 H9].
    split; try done; simpl.
    + eapply bins_same; [..|exact H1]; done.
    + lia.
    + rewrite seqZ_app, Z.add_0_l by lia. change (seqZ (m_current_capacity a) 1) with [m_current_capacity a]. apply Permutation_app_tail. by rewrite app_nil_r in H3.
    + intros [|k] i Hk; [|done]. simplify_eq/=. rewrite Z.add_0_r, E. apply lookup_insert_eq.
  - apply Z.eqb_neq in E. repeat (split; [done|]). destruct S as [|y S].
    + simpl in Hlen. lia.
    + by exists y, S.
Qed.

(** What [allocate] does to the abstract blocks: it fails without touching
    them, or carves the rounded-up request off a free block. *)
Definition alloc_post (a : Allocator) (L : list Z) (size : Z)
    (res : OffsetAllocation) (a' : Allocator) (L' : list Z) : Prop :=
  (res = noSpace ∧ L' = L ∧ (∀ i, blk a' i = blk a i) ∧
   (m_freeOffset a = m_max_capacity a ∨
    ∀ i, isfree a L i → uintToFloatRoundDown (sz a i) < uintToFloatRoundUp size)) ∨
  (∃ L1 x L2 rest, let r := bin_size (uintToFloatRoundUp size) in
    L = L1 ++ x :: L2 ∧ L' = L1 ++ x :: rest ++ L2 ∧ isfree a L x ∧ 0 <= size <= r ∧ r <= sz a x ∧
    (∀ i, i ∈ rest → (i ∉ L) ∧ us a' i = false) ∧
    (∀ i, isfree a L i → uintToFloatRoundUp size <= uintToFloatRoundDown (sz a i) →
       uintToFloatRoundDown (sz a x) <= uintToFloatRoundDown (sz a i)) ∧
    res = mkOffsetAllocation (off a x) x ∧ blk a' x = mkBlock (off a x) r true ∧
    (∀ i, i ∈ L → i ≠ x → blk a' i = blk a i) ∧
    blk a' <$> L' = alloc_at r (blk a <$> L1) (blk a x) (blk a <$> L2)).

(** The whole node fits the request: nothing to split. *)
Lemma inv_take_whole a a' L1 x L2 S B B' :
  inv a (L1 ++ x :: L2) S B → us a x = false →
  bins a' (λ i, i ≠ x ∧ isfree a (L1 ++ x :: L2) i) B' → same_config a a' →
  m_freeOffset a' = m_freeOffset a → m_freeNodes a' = m_freeNodes a →
  m_freeStorage a' = m_freeStorage a - sz a x →
  nb a' x = (off a x, sz a x, np a x, nn a x, true) → (∀ i, i ≠ x → nb a' i = nb a i) →
  inv a' (L1 ++ x :: L2) S B' ∧
  blk a' <$> (L1 ++ x :: L2) = alloc_at (sz a x) (blk a <$> L1) (blk a x) (blk a <$> L2).
Proof.
  intros HI Hu HB' (Es & Ec & Em) Efo Efn Efs Hx Hnb.
  pose proof (inv_nodup HI) as Hnd. rewrite <-app_assoc in Hnd. apply NoDup_app in Hnd as (Hnd1 & Hd & Hnd2).
  apply NoDup_cons in Hnd2 as [Hxn _]. apply nb_inv in Hx as (Ho & Hs & Hp & Hn & Hus).
  assert (∀ i, i ∈ L1 ∨ i ∈ L2 → i ≠ x) as Hix by set_solver.
  assert (blk a' <$> (L1 ++ x :: L2) = alloc_at (sz a x) (blk a <$> L1) (blk a x) (blk a <$> L2)) as Hblk.
  { unfold alloc_at. rewrite fmap_app, fmap_cons. simpl. rewrite Z.ltb_irrefl. simpl.
    unfold blk at 2. rewrite Ho, Hs, Hus. f_equal; [|f_equal];
      apply blk_fmap_ext; intros i Hi; apply nb_eq; apply Hnb; auto. }
  split; [|done].
  pose proof (inv_block HI x ltac:(set_solver)) as Hbx.
  destruct HI as [H1 H2 H3 H4 H5 H6 H7 H8 H9].
  rewrite fmap_app, fmap_cons in H8, H9. split; rewrite ?Es, ?Ec, ?Em, ?Efo, ?Efn; try done.
  - eapply bins_F_ext; [|exact HB']. intros i. unfold isfree. destruct (decide (i = x)) as [->|Hne].
    + rewrite Hus. naive_solver.
    + destruct (nb_eq _ _ _ (Hnb i Hne)) as (_ & _ & _ & ->). tauto.
  - eapply dseg_ext; [|exact H6]. intros i _. destruct (decide (i = x)) as [->|Hne]; [done|].
    by destruct (nb_eq _ _ _ (Hnb i Hne)) as (_ & -> & -> & _).
  - rewrite Hblk. apply alloc_at_wf; simpl; [done|done|lia].
  - rewrite Hblk, alloc_at_free_sum by (simpl; done || lia). by rewrite Efs, H9.
Qed.

(** The node is larger than the request: the remainder becomes the node [y]. *)
Section take_split.
Context (a a' : Allocator) (L1 : list Z) (x : Z) (L2 : list Z) (y : Z) (S : list Z) (B : Z → list Z) (r : Z).
Context (HI : inv a (L1 ++ x :: L2) (y :: S) B) (Hr : 0 <= r < sz a x).
Context (Hy : nb a' y = (off a x + r, sz a x - r, x, nn a x, false))
  (Hx : nb a' x = (off a x, r, np a x, y, true)).
Context (Hnb : ∀ i, i ≠ x → i ≠ y →
    nb a' i = (off a i, sz a i, if decide (nn a x ≠ unused ∧ i = nn a x) then y else np a i,
               nn a i, us a i)).

Lemma take_split_distinct :
  NoDup L1 ∧ NoDup L2 ∧ (∀ i, i ∈ L1 → i ∉ L2) ∧ (∀ i, i ∈ L1 ∨ i ∈ L2 → i ≠ x ∧ i ≠ y) ∧ x ≠ y.
Proof using HI.
  clear -HI. pose proof (inv_nodup HI) as Hnd.
  rewrite <-app_assoc in Hnd. apply NoDup_app in Hnd as (Hn1 & Hd & Hn2).
  apply NoDup_cons in Hn2 as [Hxn Hn2]. apply NoDup_app in Hn2 as (Hn2 & Hd2 & Hn3). set_solver.
Qed.

Lemma take_split_blocks :
  blk a' <$> (L1 ++ x :: y :: L2) = alloc_at r (blk a <$> L1) (blk a x) (blk a <$> L2).
Proof.
  destruct take_split_distinct as (_ & _ & _ & Hix & _).
  destruct (nb_inv _ _ _ _ _ _ _ Hx) as (Hxo & Hxs & _ & _ & Hxu).
  destruct (nb_inv _ _ _ _ _ _ _ Hy) as (Hyo & Hys & _ & _ & Hyu).
  unfold alloc_at. rewrite fmap_app, !fmap_cons. cbn [b_size b_off blk].
  destruct (Z.ltb_spec r (sz a x)); [|lia]. cbn [app].
  assert (blk a' x = mkBlock (off a x) r true) as -> by (unfold blk; congruence).
  assert (blk a' y = mkBlock (off a x + r) (sz a x - r) false) as -> by (unfold blk; congruence).
  f_equal; [|f_equal; f_equal]; apply blk_fmap_ext; intros i Hi;
    (destruct (Hix i) as [Hi1 Hi2]; [tauto|]);
    destruct (nb_inv _ _ _ _ _ _ _ (Hnb i Hi1 Hi2)) as (? & ? & _ & _ & ?); unfold blk; congruence.
Qed.

Lemma take_split_dll : dseg (np a') (nn a') unused (L1 ++ x :: y :: L2) unused.
Proof.
  destruct take_split_distinct as (Hnd1 & Hnd2 & Hd & Hix & _). pose proof (inv_not_unused HI) as Hnu.
  destruct (nb_inv _ _ _ _ _ _ _ Hx) as (_ & _ & Hxp & Hxn & _).
  destruct (nb_inv _ _ _ _ _ _ _ Hy) as (_ & _ & Hyp & Hyn & _).
  pose proof (inv_nbr _ _ _ _ HI) as Hdll. destruct (dseg_mid _ _ _ _ _ Hdll) as [Epx Enx].
  apply (dseg_replace (np a) (nn a) _ _ _ L1 [x] [x; y] L2); try done.
  - intros i Hi. destruct (Hix i) as [Hi1 Hi2]; [tauto|].
    destruct (nb_inv _ _ _ _ _ _ _ (Hnb i Hi1 Hi2)) as (_ & _ & Ep & En & _).
    rewrite Ep, En. split; [|done]. rewrite decide_False; [done|]. intros [Hn ->].
    apply (Hd _ Hi). rewrite Enx in *. apply first_elem. by destruct L2.
  - intros i Hi. destruct (Hix i) as [Hi1 Hi2]; [tauto|].
    destruct (nb_inv _ _ _ _ _ _ _ (Hnb i Hi1 Hi2)) as (_ & _ & Ep & En & _).
    rewrite Ep, En. split; [done|]. intros Hne. rewrite decide_False; [done|].
    intros [_ ->]. by apply Hne.
  - intros Hl1. pose proof (final_elem unused L1 Hl1) as Hi. destruct (Hix (final unused L1)) as [Hi1 Hi2]; [tauto|].
    destruct (nb_inv _ _ _ _ _ _ _ (Hnb _ Hi1 Hi2)) as (_ & _ & _ & -> & _). simpl.
    destruct (final_split unused L1 Hl1) as (l' & E). rewrite E in Hdll at 1.
    rewrite <-app_assoc in Hdll. by destruct (dseg_mid _ _ _ _ _ Hdll) as [_ ->].
  - intros Hl2. pose proof (first_elem unused L2 Hl2) as Hi. destruct (Hix (first unused L2)) as [Hi1 Hi2]; [tauto|].
    destruct (nb_inv _ _ _ _ _ _ _ (Hnb _ Hi1 Hi2)) as (_ & _ & -> & _ & _).
    rewrite Enx, decide_True; [done|]. split; [|done]. apply Hnu. set_solver.
  - simpl. rewrite Hxp, Hxn, Hyp, Hyn. done.
Qed.

Lemma inv_take_split B' :
  us a x = false → bins a' (λ i, i = y ∨ i ≠ x ∧ isfree a (L1 ++ x :: L2) i) B' → same_config a a' →
  m_freeOffset a' = m_freeOffset a + 1 → m_freeNodes a' = m_freeNodes a →
  m_freeStorage a' = m_freeStorage a - r →
  inv a' (L1 ++ x :: y :: L2) S B'.
Proof.
  intros Hu HB' (Es & Ec & Em) Efo Efn Efs. pose proof take_split_dll as Hdll. pose proof take_split_blocks as Hblk.
  destruct take_split_distinct as (_ & _ & _ & _ & Hxy).
  pose proof (inv_block HI x ltac:(set_solver)) as Hbx. pose proof (inv_storage_bound HI x) as Hsb.
  destruct (nb_inv _ _ _ _ _ _ _ Hx) as (_ & _ & _ & _ & Hxu). destruct (nb_inv _ _ _ _ _ _ _ Hy) as (_ & _ & _ & _ & Hyu).
  destruct HI as [H1 H2 H3 H4 H5 H6 H7 H8 H9].
  rewrite fmap_app, fmap_cons in H8, H9. split; rewrite ?Es, ?Ec, ?Em, ?Efo, ?Efn; try done.
  - eapply bins_F_ext; [|exact HB']. intros i. unfold isfree.
    destruct (decide (i = x)) as [->|Hne]; [rewrite Hxu; naive_solver|].
    destruct (decide (i = y)) as [->|Hne']; [rewrite Hyu; set_solver|].
    destruct (nb_inv _ _ _ _ _ _ _ (Hnb i Hne Hne')) as (_ & _ & _ & _ & ->). set_solver.
  - rewrite <-H3, <-!app_assoc. apply Permutation_app_head. simpl. apply perm_skip.
    by rewrite Permutation_middle.
  - rewrite H4, !length_app. simpl. lia.
  - intros k i Hk. specialize (H5 (Datatypes.S k) i Hk). rewrite <-H5. f_equal. lia.
  - rewrite Hblk. apply alloc_at_wf; simpl; [done|done|lia].
  - rewrite Hblk, alloc_at_free_sum by (simpl; done || lia). rewrite Efs, H9. done.
Qed.
End take_split.

Lemma alloc_post_grow a a1 L size res a' L' :
  m_nodes a1 = m_nodes a → m_freeOffset a1 = m_freeOffset a → m_max_capacity a1 = m_max_capacity a →
  alloc_post a1 L size res a' L' → alloc_post a L size res a' L'.
Proof.
  intros En Efo Em. assert (∀ i, node_at a1 i = node_at a i) as E by (intros; by apply node_at_ext).
  unfold alloc_post, isfree, blk, off, sz, us. rewrite Efo, Em.
  intros [H|(L1 & x & L2 & rest & H)]; [left|right; exists L1, x, L2, rest]; revert H; cbv zeta.
  - intros (H1 & H2 & H3 & H4). split; [done|]. split; [done|]. split; [intros; by rewrite H3, E|].
    destruct H4 as [H4|H4]; [by left|right]. intros i. rewrite <-E. apply H4.
  - assert (∀ l : list Z, (λ i, mkBlock (dataOffset (node_at a i)) (dataSize (node_at a i)) (used (node_at a i))) <$> l
      = (λ i, mkBlock (dataOffset (node_at a1 i)) (dataSize (node_at a1 i)) (used (node_at a1 i))) <$> l) as El
      by (intros l; apply list_fmap_ext; intros; by rewrite E).
    rewrite !El, <-!E. intros (? & ? & ? & ? & ? & ? & Hbest & ? & ? & Hf & ?). repeat (split; [done|]).
    split; [intros i; rewrite <-E; apply Hbest|]. split; [done|]. split; [done|].
    split; [intros; rewrite <-E; by apply Hf|done].
Qed.

(** The bin that is taken is a best fit among the free nodes the search may serve. *)
Lemma best_fit a L S B b size : inv a L S B → 0 <= b < 256 →
  (∀ b', uintToFloatRoundUp size <= b' < b → B b' = []) →
  ∀ i, isfree a L i → uintToFloatRoundUp size <= uintToFloatRoundDown (sz a i) →
    b <= uintToFloatRoundDown (sz a i).
Proof.
  intros HI Hb Hbest i Hi Hge. destruct (decide (b <= uintToFloatRoundDown (sz a i))); [done|]. exfalso.
  pose proof (inv_bins _ _ _ _ HI) as HB. pose proof (bins_bin_range HB i Hi).
  assert (i ∈ B (uintToFloatRoundDown (sz a i))) as Hin by (apply (bins_mem _ _ _ HB); [lia|done]).
  rewrite Hbest in Hin by lia. set_solver.
Qed.

(** What is left to do once the node [x] has been popped from its bin, in state [a1]. *)
Section popped.
Context (a a1 : Allocator) (L1 : list Z) (x : Z) (L2 : list Z) (y : Z) (S : list Z) (B B1 : Z → list Z) (size r : Z).
Context (Er : r = bin_size (uintToFloatRoundUp size)) (HI : inv a (L1 ++ x :: L2) (y :: S) B) (Hu : us a x = false) (Hsr : 0 <= size <= r) (Hrs : r <= sz a x).
Context (Hbf : ∀ i, isfree a (L1 ++ x :: L2) i → uintToFloatRoundUp size <= uintToFloatRoundDown (sz a i) →
    uintToFloatRoundDown (sz a x) <= uintToFloatRoundDown (sz a i)).
Context (HB1 : bins a1 (λ i, i ≠ x ∧ isfree a (L1 ++ x :: L2) i) B1) (Hcfg : same_config a a1)
  (Efo : m_freeOffset a1 = m_freeOffset a) (Efn : m_freeNodes a1 = m_freeNodes a)
  (Efs : m_freeStorage a1 = m_freeStorage a - sz a x)
  (Hx : nb a1 x = (off a x, r, np a x, nn a x, true)) (Hnb : ∀ i, i ≠ x → nb a1 i = nb a i).

Lemma popped_valid i : i ∈ L1 ++ x :: L2 ∨ valid a i → valid a1 i.
Proof.
  destruct Hcfg as (_ & _ & Em). intros [Hi|Hi]; unfold valid; rewrite Em; [|done].
  apply (inv_valid HI). set_solver.
Qed.

Lemma take_whole_ok : r = sz a x →
  runs (splitNode x (sz a x) r;; node ← getNode x; mret (mkOffsetAllocation (dataOffset node) x)) a1 (λ res a',
    same_config a a' ∧ ∃ L' S' B', inv a' L' S' B' ∧ alloc_post a (L1 ++ x :: L2) size res a' L').
Proof.
  intros Eeq. destruct (nb_inv _ _ _ _ _ _ _ Hx) as (Hxo & Hxs & Hxp & Hxn & Hxu).
  pose proof Hx as Hx'. rewrite Eeq in Hx'. apply runs_bind. unfold splitNode. rewrite Eeq, Z.sub_diag.
  apply runs_when; intros Hlt; [done|].
  apply runs_bind, runs_getNode; [apply popped_valid; set_solver|]. apply runs_ret. split; [done|].
  destruct (inv_take_whole a a1 L1 x L2 (y :: S) B B1) as [HI' Hblk]; try done.
  eexists _, _, _. split; [exact HI'|]. right. exists L1, x, L2, []. cbv zeta. rewrite <-Er.
  repeat (split; [done || (split; [set_solver|done])|]). split; [set_solver|]. split; [exact Hbf|].
  change (dataOffset (node_at a1 x)) with (off a1 x). rewrite Hxo. split; [done|].
  split; [unfold blk; congruence|].
  split; [intros i _ Hi; by apply nb_eq, Hnb|]. by rewrite Eeq.
Qed.

(** The node after the one taken is another node of the list. *)
Lemma popped_next : nn a x ≠ unused → valid a1 (nn a x) ∧ nn a x ≠ x ∧ nn a x ≠ y.
Proof.
  destruct (dseg_mid _ _ _ _ _ (inv_nbr _ _ _ _ HI)) as [_ Enx]. intros Hne.
  assert (nn a x ∈ L2) as Hin by (rewrite Enx in *; apply first_elem; by destruct L2).
  destruct (take_split_distinct a L1 x L2 y S B HI) as (_ & _ & _ & Hix & _).
  split; [apply popped_valid; set_solver|]. apply Hix. by right.
Qed.

Lemma split_popped : r ≠ sz a x →
  runs (splitNode x (sz a x) r) a1 (λ _ a2, ∃ B2,
    bins a2 (λ i, i = y ∨ i ≠ x ∧ isfree a (L1 ++ x :: L2) i) B2 ∧ same_config a a2 ∧
    m_freeOffset a2 = m_freeOffset a + 1 ∧ m_freeNodes a2 = m_freeNodes a ∧
    m_freeStorage a2 = m_freeStorage a - r ∧
    nb a2 y = (off a x + r, sz a x - r, x, nn a x, false) ∧ nb a2 x = (off a x, r, np a x, y, true) ∧
    ∀ i, i ≠ x → i ≠ y → nb a2 i =
      (off a i, sz a i, if decide (nn a x ≠ unused ∧ i = nn a x) then y else np a i, nn a i, us a i)).
Proof.
  intros Hneq. destruct (nb_inv _ _ _ _ _ _ _ Hx) as (Hxo & Hxs & Hxp & Hxn & Hxu). destruct Hcfg as (Es & Ec & Em).
  destruct (inv_top _ _ _ _ _ HI) as [Hy Hvf]. destruct (take_split_distinct a L1 x L2 y S B HI) as (_ & _ & _ & Hix & Hxy).
  pose proof (inv_storage_bound HI x ltac:(split; [set_solver|done])) as Hsb. pose proof (inv_size _ _ _ _ HI) as Hms.
  pose proof (inv_block HI x ltac:(set_solver)) as Hblkx. pose proof (inv_valid HI y ltac:(set_solver)) as Hvy.
  eapply runs_mono.
  { apply (splitNode_ok a1 (λ i, i ≠ x ∧ isfree a (L1 ++ x :: L2) i) B1 x y (sz a x) r); try done; try lia.
    - unfold is_u32 in *. lia.
    - apply popped_valid. set_solver.
    - apply popped_valid. by right.
    - intros [_ [Hin _]]. set_solver.
    - rewrite Efo. apply popped_valid. by right.
    - by rewrite Efn, Efo.
    - rewrite Hxo. unfold is_u32 in *. lia.
    - rewrite Efs. unfold is_u32 in *. lia.
    - rewrite Hxn. apply popped_next. }
  intros _ a2 ((B2 & HB2) & (Es2 & Ec2 & Em2) & Efo2 & Efn2 & Efs2 & Hy2 & Hx2 & Hnb2). exists B2.
  rewrite Hxo, Hxn in Hy2. rewrite Hxo, Hxs, Hxp, Hxu in Hx2. rewrite Hxn in Hnb2.
  split; [done|]. split; [unfold same_config; by rewrite Es2, Ec2, Em2|].
  split; [lia|]. split; [congruence|]. split; [lia|]. split; [done|]. split; [done|].
  intros i Hi1 Hi2. rewrite Hnb2 by done. pose proof (Hnb i Hi1) as E. unfold nb in E. by injection E as -> -> -> -> ->.
Qed.

Lemma take_split_ok : r ≠ sz a x →
  runs (splitNode x (sz a x) r;; node ← getNode x; mret (mkOffsetAllocation (dataOffset node) x)) a1 (λ res a',
    same_config a a' ∧ ∃ L' S' B', inv a' L' S' B' ∧ alloc_post a (L1 ++ x :: L2) size res a' L').
Proof.
  intros Hneq. apply runs_bind. eapply runs_mono; [by apply split_popped|].
  intros _ a2 (B2 & HB2 & Hcfg2 & Efo2 & Efn2 & Efs2 & Hy2 & Hx2 & Hnb2).
  assert (valid a x) as Hvx by (apply (inv_valid HI); set_solver).
  apply runs_bind, runs_getNode; [destruct Hcfg2 as (_ & _ & E); unfold valid in *; by rewrite E|].
  apply runs_ret. split; [done|].
  assert (0 <= r < sz a x) as Hr by lia.
  pose proof (inv_take_split a a2 L1 x L2 y S B r HI Hr Hy2 Hx2 Hnb2 B2 Hu HB2 Hcfg2 Efo2 Efn2 Efs2) as HI'.
  pose proof (take_split_blocks a a2 L1 x L2 y S B r HI Hr Hy2 Hx2 Hnb2) as Hblk.
  destruct (take_split_distinct a L1 x L2 y S B HI) as (_ & _ & _ & Hix & Hxy).
  eexists _, _, _. split; [exact HI'|]. right. exists L1, x, L2, [y]. cbv zeta. rewrite <-Er.
  apply nb_inv in Hx2 as (Hxo2 & Hxs2 & _ & _ & Hxu2). apply nb_inv in Hy2 as (_ & _ & _ & _ & Hyu2).
  split; [done|]. split; [done|]. split; [split; [set_solver|done]|]. split; [done|]. split; [done|].
  split; [intros i ->%list_elem_of_singleton; set_solver|]. split; [exact Hbf|].
  change (dataOffset (node_at a2 x)) with (off a2 x). rewrite Hxo2. split; [done|].
  split; [unfold blk; congruence|]. split; [|done].
  intros i Hi Hine. assert (i ≠ y) as Hiy by set_solver.
  destruct (nb_inv _ _ _ _ _ _ _ (Hnb2 i Hine Hiy)) as (? & ? & _ & _ & ?). unfold blk; congruence.
Qed.
End popped.

(** Taking a node out of the selected bin. *)
Lemma take_ok a L y S B t l x l' size :
  inv a L (y :: S) B → is_u32 size → 0 <= t < 32 → 0 <= l < 8 → B (8 * t + l) = x :: l' →
  uintToFloatRoundUp size <= 8 * t + l →
  (∀ b, uintToFloatRoundUp size <= b < 8 * t + l → B b = []) →
  let r := floatToUint (uintToFloatRoundUp size) in
  runs ('(nodeIndex, nodeTotalSize) ← popNode t l r;
        splitNode nodeIndex nodeTotalSize r;;
        node ← getNode nodeIndex;
        mret (mkOffsetAllocation (dataOffset node) nodeIndex)) a (λ res a',
    m_size a' = m_size a ∧ m_max_capacity a' = m_max_capacity a ∧
    m_current_capacity a' = m_current_capacity a ∧
    ∃ L' S' B', inv a' L' S' B' ∧ alloc_post a L size res a' L').
Proof.
  intros HI Hsize Ht Hl EB Hmin Hbest r. set (b := 8 * t + l) in *.
  assert (0 <= b < 256) as Hb by lia. pose proof (inv_bins _ _ _ _ HI) as HB.
  assert (x ∈ B b) as Hxb by (rewrite EB; left).
  apply (bins_mem _ _ _ HB) in Hxb as [Hfree Ebin]; [|done].
  pose proof (bins_bin_range HB x Hfree) as Hbr. rewrite Ebin in Hbr.
  destruct (roundUp_spec size Hsize) as (Hur & Hle & _).
  assert (r = bin_size (uintToFloatRoundUp size)) as -> by (apply floatToUint_bin_size; lia).
  assert (is_u32 (sz a x)) as Hszx by apply (bins_valid _ _ _ HB x Hfree).
  assert (bin_size (uintToFloatRoundUp size) <= sz a x) as Hrs.
  { apply roundDown_galois; [done|lia|]. by rewrite Ebin. }
  pose proof (inv_storage_bound HI x Hfree) as Hsb. pose proof (inv_size _ _ _ _ HI) as Hms.
  pose proof (best_fit a L (y :: S) B b size HI Hb Hbest) as Hbf. rewrite <-Ebin in Hbf.
  apply runs_bind. eapply runs_mono;
    [by apply (popNode_ok a _ B t l x l' _ HB Ht Hl EB); unfold is_u32 in *; lia|].
  intros ? a1 (-> & (B1 & HB1) & Hcfg & Efo & Efn & Efs & Hx & Hnb). cbn beta iota.
  destruct Hfree as [HxL Hu]. apply list_elem_of_split in HxL as (L1 & L2 & ->).
  assert (0 <= size <= bin_size (uintToFloatRoundUp size)) as Hsr by (unfold is_u32 in Hsize; lia).
  eapply (runs_mono _ _ (λ res a', same_config a a' ∧ ∃ L' S' B', inv a' L' S' B' ∧ alloc_post a _ size res a' L')).
  - destruct (decide (bin_size (uintToFloatRoundUp size) = sz a x)) as [Eeq|Hneq].
    + by apply (take_whole_ok a a1 L1 x L2 y S B B1 size _ eq_refl).
    + by apply (take_split_ok a a1 L1 x L2 y S B B1 size _ eq_refl).
  - intros res a' [(Es & Ec & Em) HP]. done.
Qed.

Lemma allocate_ok a L S B size :
  inv a L S B → is_u32 size →
  runs (allocate size) a (λ res a',
    m_size a' = m_size a ∧ m_max_capacity a' = m_max_capacity a ∧
    ∃ L' S' B', inv a' L' S' B' ∧ alloc_post a L size res a' L').
Proof.
  intros HI Hsize. unfold allocate.
  apply runs_bind, runs_gets, runs_bind, runs_gets. destruct (Z.eqb_spec (m_freeOffset a) (m_max_capacity a)) as [E|E].
  { apply runs_ret. split; [done|]. split; [done|]. exists L, S, B. split; [done|]. left. auto. }
  apply runs_bind. eapply runs_mono; [by apply (growFreeNodes_ok a L S B)|].
  intros _ a1 (En & Es & Em & Efo & Ecap & y & S1 & HI1). cbv zeta.
  pose proof (inv_bins _ _ _ _ HI1) as HB. destruct (roundUp_spec size Hsize) as (Hur & _ & _).
  apply runs_bind. eapply runs_mono; [by apply (selectBin_ok a1 _ B (uintToFloatRoundUp size) HB)|].
  intros r ? [-> Hr]. destruct r as [[t l]|].
  - destruct Hr as (Ht & Hl & Hge & Hne & Hmin).
    destruct (B (8 * t + l)) as [|x l'] eqn:EB; [done|].
    eapply runs_mono; [by apply (take_ok a1 L y S1 B t l x l' size)|].
    intros res a' (Es' & Em' & Ec' & L' & S' & B' & HI' & Hpost).
    split; [congruence|]. split; [congruence|]. exists L', S', B'. split; [done|].
    by apply (alloc_post_grow a a1).
  - apply runs_ret. split; [done|]. split; [done|]. exists L, (y :: S1), B. split; [done|].
    apply (alloc_post_grow a a1); [done..|]. left. repeat (split; [done|]). right.
    intros i Hi. pose proof (bins_bin_range HB i Hi).
    destruct (decide (uintToFloatRoundDown (sz a1 i) < uintToFloatRoundUp size)); [done|]. exfalso.
    assert (i ∈ B (uintToFloatRoundDown (sz a1 i))) as Hin by (apply (bins_mem _ _ _ HB); [lia|done]).
    rewrite Hr in Hin by lia. set_solver.
Qed.
