(* ===== verification/OffsetFree.v ===== *)
(** * OffsetFree: [free] implements coalescing deallocation

    [free] works on a node [x] that is already detached from its neighbours in
    part: [freeing] is the invariant between its steps.  [L1] and [L2] are the
    live nodes before and after the region [[o, o + s)] that is being freed. *)

From S2P Require Import Prelude SmallFloat Dll OffsetAllocator OffsetInv Blocks OffsetCorrect.
Open Scope Z_scope.
Open Scope u32_scope.

Record freeing (a : Allocator) (x : Z) (L1 L2 S : list Z) (B : Z → list Z) (o s : Z) : Prop := {
  fr_bins : bins a (isfree a (L1 ++ L2)) B;
  fr_cap : 0 <= m_current_capacity a <= m_max_capacity a;
  fr_perm : (L1 ++ x :: L2) ++ S ≡ₚ seqZ 0 (m_current_capacity a);
  fr_fo : m_freeOffset a = Z.of_nat (length (L1 ++ x :: L2));
  fr_stack k i : S !! k = Some i → m_freeNodes a !! (m_freeOffset a + Z.of_nat k) = Some i;
  fr_left : ∃ e, dseg (np a) (nn a) unused L1 e;
  fr_right : ∃ e, dseg (np a) (nn a) e L2 unused;
  fr_prev : np a x = final unused L1;
  fr_next : nn a x = first unused L2;
  fr_size : is_u32 (m_size a);
  fr_tiles1 : tiles 0 (blk a <$> L1) o;
  fr_s : 0 <= s;
  fr_tiles2 : tiles (o + s) (blk a <$> L2) (m_size a);
  fr_coal1 : coalesced (blk a <$> L1);
  fr_coal2 : coalesced (blk a <$> L2);
  fr_storage : m_freeStorage a = free_sum (blk a <$> L1) + free_sum (blk a <$> L2);
}.

Lemma isfree_used a L1 x L2 i :
  us a x = true → isfree a (L1 ++ x :: L2) i ↔ isfree a (L1 ++ L2) i.
Proof. intros Hu. unfold isfree. destruct (decide (i = x)) as [->|]; [rewrite Hu|]; set_solver. Qed.

Lemma inv_freeing a L1 x L2 S B :
  inv a (L1 ++ x :: L2) S B → us a x = true → freeing a x L1 L2 S B (off a x) (sz a x).
Proof.
  intros HI Hu. destruct (dseg_mid _ _ _ _ _ (inv_nbr _ _ _ _ HI)) as [Ep En].
  destruct HI as [H1 H2 H3 H4 H5 H6 H7 [H8 H8'] H9].
  apply dseg_app in H6 as [Hd1 (_ & _ & Hd2)]. rewrite fmap_app, fmap_cons in *.
  apply tiles_app in H8 as (m & Ht1 & Eo & Hs & Ht2). simpl in Eo, Hs, Ht2.
  apply coalesced_app in H8' as (Hc1 & Hc2 & _). apply coalesced_cons in Hc2 as [Hc2 _].
  split; eauto.
  - eapply bins_F_ext; [|exact H1]. intros i. by rewrite isfree_used.
  - by rewrite Eo.
  - by rewrite Eo.
  - rewrite H9, free_sum_app. simpl. rewrite Hu. lia.
Qed.

Section freeing.
Context {a : Allocator} {x : Z} {L1 L2 S : list Z} {B : Z → list Z} {o s : Z}.
Context (HF : freeing a x L1 L2 S B o s).

Lemma fr_nodup : NoDup ((L1 ++ x :: L2) ++ S).
Proof. rewrite (fr_perm _ _ _ _ _ _ _ _ HF). apply NoDup_seqZ. Qed.

Lemma fr_valid i : i ∈ (L1 ++ x :: L2) ++ S → valid a i.
Proof.
  rewrite (fr_perm _ _ _ _ _ _ _ _ HF), elem_of_seqZ.
  pose proof (fr_cap _ _ _ _ _ _ _ _ HF). unfold valid. lia.
Qed.

Lemma fr_not_unused i : i ∈ (L1 ++ x :: L2) ++ S → i ≠ unused.
Proof. intros Hi. eapply valid_not_unused; [apply (fr_bins _ _ _ _ _ _ _ _ HF)|by apply fr_valid]. Qed.

Lemma fr_length :
  m_freeOffset a + Z.of_nat (length S) = m_current_capacity a ∧ 1 <= m_freeOffset a.
Proof.
  pose proof (fr_cap _ _ _ _ _ _ _ _ HF). rewrite (fr_fo _ _ _ _ _ _ _ _ HF).
  pose proof (Permutation_length (fr_perm _ _ _ _ _ _ _ _ HF)) as H'.
  rewrite length_app, length_seqZ, length_app in H'. rewrite length_app. simpl in *. lia.
Qed.

(** The region being freed and the blocks around it fit the storage. *)
Lemma fr_room :
  0 <= o ∧ 0 <= s ∧ 0 <= free_sum (blk a <$> L1) <= o ∧ 0 <= free_sum (blk a <$> L2) ∧
  o + s + free_sum (blk a <$> L2) <= m_size a < 2 ^ 32.
Proof.
  pose proof (fr_tiles1 _ _ _ _ _ _ _ _ HF) as H1. pose proof (fr_tiles2 _ _ _ _ _ _ _ _ HF) as H2.
  pose proof (fr_size _ _ _ _ _ _ _ _ HF) as Hs. unfold is_u32 in Hs.
  pose proof (fr_s _ _ _ _ _ _ _ _ HF).
  pose proof (tiles_le _ _ _ H1). pose proof (tiles_sum _ _ _ H1). pose proof (tiles_sum _ _ _ H2).
  pose proof (sums_nonneg _ _ _ H1). pose proof (sums_nonneg _ _ _ H2). lia.
Qed.
End freeing.

(** Removing a free node from its bin while freeing [x]: the node's index goes
    to the stack, every block stays as it is. *)
Lemma remove_ok a x L1 L2 S B o s p :
  freeing a x L1 L2 S B o s → isfree a (L1 ++ L2) p →
  runs (removeNodeFromBin p) a (λ _ a',
    (∃ B', bins a' (λ i, i ≠ p ∧ isfree a (L1 ++ L2) i) B') ∧ same_config a a' ∧
    m_freeOffset a' = m_freeOffset a - 1 ∧
    m_freeNodes a' = <[m_freeOffset a - 1 := p]> (m_freeNodes a) ∧
    m_freeStorage a' = m_freeStorage a - sz a p ∧ ∀ i, nb a' i = nb a i).
Proof.
  intros HF Hp. pose proof (fr_length HF) as Hlen. pose proof (fr_cap _ _ _ _ _ _ _ _ HF) as Hc.
  pose proof (fr_room HF) as Hroom. pose proof (fr_storage _ _ _ _ _ _ _ _ HF) as Hst.
  eapply removeNodeFromBin_ok; [apply HF|done|lia|].
  assert (0 <= sz a p <= m_freeStorage a); [|unfold is_u32; lia].
  destruct Hp as [Hp Hu]. rewrite Hst.
  pose proof (fr_tiles1 _ _ _ _ _ _ _ _ HF) as H1. pose proof (fr_tiles2 _ _ _ _ _ _ _ _ HF) as H2.
  apply elem_of_app in Hp as [Hp|Hp]; apply (list_elem_of_fmap_2 (blk a)) in Hp.
  - pose proof (free_sum_elem _ _ _ _ H1 Hp Hu). simpl in *. lia.
  - pose proof (free_sum_elem _ _ _ _ H2 Hp Hu). simpl in *. lia.
Qed.

(** The stack after pushing a removed index. *)
Lemma stack_push a a' S p :
  (∀ k i, S !! k = Some i → m_freeNodes a !! (m_freeOffset a + Z.of_nat k) = Some i) →
  m_freeOffset a' = m_freeOffset a - 1 →
  m_freeNodes a' = <[m_freeOffset a - 1 := p]> (m_freeNodes a) →
  ∀ k i, (p :: S) !! k = Some i → m_freeNodes a' !! (m_freeOffset a' + Z.of_nat k) = Some i.
Proof.
  intros Hst -> -> [|k] i Hk.
  - simplify_eq/=. rewrite Z.add_0_r. apply lookup_insert_eq.
  - rewrite lookup_insert_ne by lia. rewrite <-(Hst k i Hk). f_equal. lia.
Qed.

(** Dropping a free block next to the region: the region grows over it. *)
Lemma freeing_left a a' x L1 p L2 S B B' o s :
  freeing a x (L1 ++ [p]) L2 S B o s → us a p = false →
  bins a' (λ i, i ≠ p ∧ isfree a ((L1 ++ [p]) ++ L2) i) B' → same_config a a' →
  m_freeOffset a' = m_freeOffset a - 1 →
  m_freeNodes a' = <[m_freeOffset a - 1 := p]> (m_freeNodes a) →
  m_freeStorage a' = m_freeStorage a - sz a p →
  nb a' x = (off a x, sz a x, np a p, nn a x, us a x) → (∀ i, i ≠ x → nb a' i = nb a i) →
  freeing a' x L1 L2 (p :: S) B' (off a p) (s + sz a p).
Proof.
  intros HF Hu HB' (Es & Ec & Em) Efo Efn Efs Hx Hnb.
  assert (∀ i, blk a' i = blk a i ∧ nn a' i = nn a i ∧ us a' i = us a i) as Hblk.
  { intros i. destruct (decide (i = x)) as [->|Hi].
    - apply nb_inv in Hx as (? & ? & ? & ? & ?). unfold blk. repeat split; congruence.
    - destruct (nb_eq _ _ _ (Hnb i Hi)) as (? & ? & ? & ?). done. }
  assert (∀ l : list Z, blk a' <$> l = blk a <$> l) as Hblks.
  { intros l. apply blk_fmap_ext. intros i _. apply Hblk. }
  pose proof (fr_nodup HF) as Hnd. pose proof (fr_room HF) as Hroom.
  destruct HF as [H1 H2 H3 H4 H5 [e H6] [e' H7] H8 H9 H10 H11 H12 H13 H14 H15 H16].
  apply dseg_app in H6 as [H6 (Ep & _)]. rewrite fmap_app in H11, H14, H16.
  apply tiles_app in H11 as (m & Ht1 & Eo & Hs & Ht2). simpl in Eo, Hs, Ht2.
  apply coalesced_app in H14 as (Hc1 & _ & Hlast).
  assert (x ∉ L1 ∧ x ∉ L2 ∧ p ∉ L1 ++ L2) as (Hx1 & Hx2 & Hp).
  { rewrite <-!app_assoc in Hnd. simpl in Hnd. apply NoDup_app in Hnd as (_ & Hd & Hnd).
    apply NoDup_cons in Hnd as [Hp Hnd]. apply NoDup_cons in Hnd as [Hx' _]. set_solver. }
  assert (∀ i, i ∈ L1 ∨ i ∈ L2 → np a' i = np a i ∧ nn a' i = nn a i) as Hlink.
  { intros i Hi. destruct (nb_eq a a' i) as (_ & ? & ? & _); [|done]. apply Hnb. set_solver. }
  split; rewrite ?Es, ?Ec, ?Em, ?Hblks; try done.
  - eapply bins_F_ext; [|exact HB']. intros i. unfold isfree. destruct (Hblk i) as (_ & _ & ->). set_solver.
  - rewrite <-H3, <-!app_assoc. apply Permutation_app_head. simpl.
    rewrite <-Permutation_middle. apply perm_swap.
  - rewrite Efo, H4, !length_app. simpl. lia.
  - by apply (stack_push a a' S p).
  - eexists. eapply dseg_ext; [|exact H6]. auto.
  - eexists. eapply dseg_ext; [|exact H7]. auto.
  - apply nb_inv in Hx as (_ & _ & -> & _). by rewrite Ep.
  - apply nb_inv in Hx as (_ & _ & _ & -> & _). done.
  - by rewrite Eo.
  - lia.
  - replace (off a p + (s + sz a p)) with (o + s) by lia. done.
  - rewrite Efs, H16, free_sum_app. simpl. rewrite Hu. lia.
Qed.

(** Nothing is merged when the left neighbour is missing or used. *)
Lemma merge_left_none a x L1 L2 S B o s r :
  freeing a x L1 L2 S B o s → r = (o, s) → (L1 = [] ∨ ∃ l p, L1 = l ++ [p] ∧ us a p = true) →
  ∃ L1' S' B', freeing a x L1' L2 S' B' (fst r) (snd r) ∧ same_config a a ∧
    (∀ i, blk a i = blk a i) ∧ (∃ t, L1 = L1' ++ t ∧ ∀ i, i ∈ t → us a i = false) ∧
    merge_left (blk a <$> L1) o s = (blk a <$> L1', fst r, snd r).
Proof.
  intros HF -> Hl. exists L1, S, B. split; [done|]. split; [done|]. split; [done|].
  split; [exists []; rewrite app_nil_r; set_solver|]. unfold merge_left.
  destruct Hl as [->|(l & p & -> & Hu)]; [done|].
  rewrite fmap_app. change (blk a <$> [p]) with [blk a p]. rewrite last_snoc. simpl. by rewrite Hu.
Qed.

Lemma mergePrev_ok a x L1 L2 S B o s :
  freeing a x L1 L2 S B o s →
  runs (mergePrev x o s) a (λ r a', ∃ L1' S' B',
    freeing a' x L1' L2 S' B' (fst r) (snd r) ∧ same_config a a' ∧
    (∀ i, blk a' i = blk a i) ∧ (∃ t, L1 = L1' ++ t ∧ ∀ i, i ∈ t → us a i = false) ∧
    merge_left (blk a <$> L1) o s = (blk a <$> L1', fst r, snd r)).
Proof.
  intros HF. unfold mergePrev. pose proof (fr_not_unused HF) as Hnu. pose proof (fr_nodup HF) as Hnd.
  apply runs_bind, runs_getNode; [apply (fr_valid HF); set_solver|].
  change (neighborPrev (node_at a x)) with (np a x). rewrite (fr_prev _ _ _ _ _ _ _ _ HF).
  destruct L1 as [|p L1 _] using rev_ind.
  { simpl. apply runs_ret. eapply merge_left_none; [done|done|by left]. }
  rewrite final_app. simpl final. destruct (Z.eqb_spec p unused) as [->|Hpu]; [by exfalso; apply (Hnu unused); [set_solver|]|]. simpl.
  assert (valid a p) as Hvp by (apply (fr_valid HF); set_solver).
  apply runs_bind, runs_getNode; [done|].
  change (used (node_at a p)) with (us a p). destruct (us a p) eqn:Hu; simpl.
  { apply runs_ret. eapply merge_left_none; [done|done|]. right. eauto. }
  apply runs_bind. eapply runs_mono; [eapply (remove_ok a x (L1 ++ [p]) L2 S B o s p HF); by split; [set_solver|]|].
  intros _ a1 ((B1 & HB1) & (Es & Ec & Em) & Efo & Efn & Efs & Hnb).
  apply runs_bind, runs_getNode; [unfold valid in *; by rewrite Em|].
  apply runs_bind, runs_modNode; [unfold valid; rewrite Em; apply (fr_valid HF); set_solver|].
  apply runs_ret. simpl fst; simpl snd.
  exists L1, (p :: S), B1.
  assert (sz a p = dataSize (node_at a p)) as Esz by done. rewrite <-Esz.
  assert (x ≠ p) as Hxp.
  { intros ->. rewrite <-!app_assoc in Hnd. simpl in Hnd. apply NoDup_app in Hnd as (_ & _ & Hnd).
    apply NoDup_cons in Hnd as [Hnd _]. set_solver. }
  rewrite u32_small.
  2: { pose proof (fr_room HF) as Hroom. pose proof (fr_tiles1 _ _ _ _ _ _ _ _ HF) as Ht.
       rewrite fmap_app in Ht. apply tiles_app in Ht as (m & Ht & Eo & Hs & Ho). apply tiles_le in Ht.
       simpl in *. unfold is_u32. lia. }
  assert (∀ i, blk (upd a1 x (set_neighborPrev (neighborPrev (node_at a1 p)))) i = blk a i) as Hblk.
  { intros i. transitivity (blk a1 i); [by unfold blk; f_equal; node_cases|]. by apply nb_eq. }
  split; [|split; [done|split; [done|split; [exists [p]; set_solver|]]]].
  - apply (freeing_left a _ x L1 p L2 S B B1 o s); try done.
    + eapply bins_same; [..|exact HB1]; try done. intros i. repeat split; by node_cases.
    + destruct (nb_inv _ _ _ _ _ _ _ (Hnb x)) as (? & ? & ? & ? & ?).
      destruct (nb_inv _ _ _ _ _ _ _ (Hnb p)) as (? & ? & ? & ? & ?).
      node_simp. dec_simp. simpl. congruence.
    + intros i Hi. rewrite <-Hnb. node_simp. dec_simp. done.
  - unfold merge_left. rewrite fmap_app. change (blk a <$> [p]) with [blk a p].
    rewrite last_snoc, removelast_last. simpl. by rewrite Hu.
Qed.

Lemma freeing_right a a' x L1 q L2 S B B' o s :
  freeing a x L1 (q :: L2) S B o s → us a q = false →
  bins a' (λ i, i ≠ q ∧ isfree a (L1 ++ q :: L2) i) B' → same_config a a' →
  m_freeOffset a' = m_freeOffset a - 1 →
  m_freeNodes a' = <[m_freeOffset a - 1 := q]> (m_freeNodes a) →
  m_freeStorage a' = m_freeStorage a - sz a q →
  nb a' x = (off a x, sz a x, np a x, nn a q, us a x) → (∀ i, i ≠ x → nb a' i = nb a i) →
  freeing a' x L1 L2 (q :: S) B' o (s + sz a q).
Proof.
  intros HF Hu HB' (Es & Ec & Em) Efo Efn Efs Hx Hnb.
  assert (∀ i, blk a' i = blk a i ∧ us a' i = us a i) as Hblk.
  { intros i. destruct (decide (i = x)) as [->|Hi].
    - apply nb_inv in Hx as (? & ? & ? & ? & ?). unfold blk. split; congruence.
    - destruct (nb_eq _ _ _ (Hnb i Hi)) as (? & ? & ? & ?). done. }
  assert (∀ l : list Z, blk a' <$> l = blk a <$> l) as Hblks.
  { intros l. apply blk_fmap_ext. intros i _. apply Hblk. }
  pose proof (fr_nodup HF) as Hnd. pose proof (fr_room HF) as Hroom.
  destruct HF as [H1 H2 H3 H4 H5 [e H6] [e' H7] H8 H9 H10 H11 H12 H13 H14 H15 H16].
  destruct H7 as (_ & En & H7). rewrite fmap_cons in H13, H15, H16.
  destruct H13 as (Eo & Hs & Ht). simpl in Eo, Hs, Ht.
  apply coalesced_cons in H15 as [Hc2 _].
  assert (x ∉ L1 ∧ x ∉ L2 ∧ q ∉ L1 ++ L2) as (Hx1 & Hx2 & Hq).
  { rewrite <-!app_assoc in Hnd. simpl in Hnd. apply NoDup_app in Hnd as (_ & Hd & Hnd).
    apply NoDup_cons in Hnd as [Hx' Hnd]. apply NoDup_cons in Hnd as [Hq _]. set_solver. }
  assert (∀ i, i ∈ L1 ∨ i ∈ L2 → np a' i = np a i ∧ nn a' i = nn a i) as Hlink.
  { intros i Hi. destruct (nb_eq a a' i) as (_ & ? & ? & _); [|done]. apply Hnb. set_solver. }
  split; rewrite ?Es, ?Ec, ?Em, ?Hblks; try done.
  - eapply bins_F_ext; [|exact HB']. intros i. unfold isfree. destruct (Hblk i) as [_ ->]. set_solver.
  - rewrite <-H3, <-!app_assoc. apply Permutation_app_head. simpl.
    by rewrite <-Permutation_middle.
  - rewrite Efo, H4, !length_app. simpl. lia.
  - by apply (stack_push a a' S q).
  - eexists. eapply dseg_ext; [|exact H6]. auto.
  - eexists. eapply dseg_ext; [|exact H7]. auto.
  - apply nb_inv in Hx as (_ & _ & -> & _). done.
  - apply nb_inv in Hx as (_ & _ & _ & -> & _). done.
  - lia.
  - by replace (o + (s + sz a q)) with (o + s + sz a q) by lia.
  - rewrite Efs, H16. simpl. rewrite Hu. lia.
Qed.

Lemma mergeNext_ok a x L1 L2 S B o s :
  freeing a x L1 L2 S B o s →
  runs (mergeNext x s) a (λ s' a', ∃ L2' S' B',
    freeing a' x L1 L2' S' B' o s' ∧ same_config a a' ∧
    (∀ i, blk a' i = blk a i) ∧ (∃ t, L2 = t ++ L2' ∧ ∀ i, i ∈ t → us a i = false) ∧
    merge_right s (blk a <$> L2) = (s', blk a <$> L2')).
Proof.
  intros HF. unfold mergeNext. pose proof (fr_not_unused HF) as Hnu. pose proof (fr_nodup HF) as Hnd.
  assert (merge_right s (blk a <$> L2) = (s, blk a <$> L2) →
    ∃ L2' S' B', freeing a x L1 L2' S' B' o s ∧ same_config a a ∧
    (∀ i, blk a i = blk a i) ∧ (∃ t, L2 = t ++ L2' ∧ ∀ i, i ∈ t → us a i = false) ∧
    merge_right s (blk a <$> L2) = (s, blk a <$> L2')) as Hno.
  { intros E. exists L2, S, B. repeat (split; [done|]). split; [exists []; set_solver|done]. }
  apply runs_bind, runs_getNode; [apply (fr_valid HF); set_solver|].
  change (neighborNext (node_at a x)) with (nn a x). rewrite (fr_next _ _ _ _ _ _ _ _ HF).
  destruct L2 as [|q L2]; [by apply runs_ret, Hno|].
  simpl first. destruct (Z.eqb_spec q unused) as [->|Hqu]; [by exfalso; apply (Hnu unused); [set_solver|]|]. cbn [negb].
  assert (valid a q) as Hvq by (apply (fr_valid HF); set_solver).
  apply runs_bind, runs_getNode; [done|].
  change (used (node_at a q)) with (us a q). destruct (us a q) eqn:Hu; cbn [negb].
  { apply runs_ret, Hno. simpl. by rewrite Hu. }
  clear Hno. apply runs_bind.
  eapply runs_mono; [eapply (remove_ok a x L1 (q :: L2) S B o s q HF); by split; [set_solver|]|].
  intros _ a1 ((B1 & HB1) & (Es & Ec & Em) & Efo & Efn & Efs & Hnb).
  apply runs_bind, runs_getNode; [unfold valid in *; by rewrite Em|].
  apply runs_bind, runs_modNode; [unfold valid; rewrite Em; apply (fr_valid HF); set_solver|].
  apply runs_ret. exists L2, (q :: S), B1.
  assert (sz a q = dataSize (node_at a q)) as Esz by done. rewrite <-Esz.
  assert (x ≠ q) as Hxq.
  { intros ->. rewrite <-!app_assoc in Hnd. simpl in Hnd. apply NoDup_app in Hnd as (_ & _ & Hnd).
    apply NoDup_cons in Hnd as [Hnd _]. set_solver. }
  rewrite u32_small.
  2: { pose proof (fr_room HF) as Hroom. destruct (fr_tiles2 _ _ _ _ _ _ _ _ HF) as (Eo & Hs & Ht).
       apply tiles_le in Ht. simpl in *. unfold is_u32. lia. }
  assert (∀ i, blk (upd a1 x (set_neighborNext (neighborNext (node_at a1 q)))) i = blk a i) as Hblk.
  { intros i. transitivity (blk a1 i); [by unfold blk; f_equal; node_cases|]. by apply nb_eq. }
  split; [|split; [done|split; [done|split; [exists [q]; set_solver|]]]].
  - apply (freeing_right a _ x L1 q L2 S B B1 o s); try done.
    + eapply bins_same; [..|exact HB1]; try done. intros i. repeat split; by node_cases.
    + destruct (nb_inv _ _ _ _ _ _ _ (Hnb x)) as (? & ? & ? & ? & ?).
      destruct (nb_inv _ _ _ _ _ _ _ (Hnb q)) as (? & ? & ? & ? & ?).
      node_simp. dec_simp. simpl. congruence.
    + intros i Hi. rewrite <-Hnb. node_simp. dec_simp. done.
  - unfold merge_right. simpl. by rewrite Hu.
Qed.

(** Putting the region back as the free node [x]. *)
Section freeing_insert.
Context (a a' : Allocator) (x : Z) (L1 L2 S : list Z) (B : Z → list Z) (o s : Z) (HF : freeing a x L1 L2 S B o s).
Context (Hx : nb a' x = (o, s, final unused L1, first unused L2, false)).
Context (Hnb : ∀ i, i ≠ x → nb a' i =
    (off a i, sz a i,
     if decide (first unused L2 ≠ unused ∧ i = first unused L2) then x else np a i,
     if decide (final unused L1 ≠ unused ∧ i = final unused L1) then x else nn a i, us a i)).

Lemma freeing_distinct :
  NoDup L1 ∧ NoDup L2 ∧ (∀ i, i ∈ L1 → i ∉ L2) ∧ (∀ i, i ∈ L1 ∨ i ∈ L2 → i ≠ x).
Proof using HF.
  clear -HF. pose proof (fr_nodup HF) as Hnd. rewrite <-app_assoc in Hnd. apply NoDup_app in Hnd as (Hnd1 & Hd & Hnd2).
  apply NoDup_cons in Hnd2 as [Hx2 Hnd2]. apply NoDup_app in Hnd2 as (Hnd2 & _ & _). set_solver.
Qed.

Lemma freeing_insert_blocks :
  blk a' <$> (L1 ++ x :: L2) = (blk a <$> L1) ++ mkBlock o s false :: (blk a <$> L2).
Proof.
  destruct freeing_distinct as (_ & _ & _ & Hix). destruct (nb_inv _ _ _ _ _ _ _ Hx) as (Hxo & Hxs & _ & _ & Hxu).
  assert (∀ i, i ∈ L1 ∨ i ∈ L2 → blk a' i = blk a i) as Hblk.
  { intros i Hi. destruct (nb_inv _ _ _ _ _ _ _ (Hnb i (Hix i Hi))) as (? & ? & _ & _ & ?).
    unfold blk. congruence. }
  rewrite fmap_app, fmap_cons. f_equal; [|f_equal].
  - apply blk_fmap_ext. auto.
  - unfold blk. congruence.
  - apply blk_fmap_ext. auto.
Qed.

Lemma freeing_insert_dll : dseg (np a') (nn a') unused (L1 ++ x :: L2) unused.
Proof.
  destruct freeing_distinct as (Hnd1 & Hnd2 & Hd & Hix). pose proof (fr_not_unused HF) as Hnu.
  destruct (nb_inv _ _ _ _ _ _ _ Hx) as (_ & _ & Hxp & Hxn & _).
  destruct (fr_left _ _ _ _ _ _ _ _ HF) as [e H6], (fr_right _ _ _ _ _ _ _ _ HF) as [e' H7].
  apply (dseg_relink (np a) (nn a) _ _ _ L1 e e' [x] L2); try done; try (intros y Hy).
  - destruct (nb_inv _ _ _ _ _ _ _ (Hnb y ltac:(auto))) as (_ & _ & -> & -> & _). split.
    + rewrite decide_False; [done|]. intros [Hne ->]. apply (Hd _ Hy). apply first_elem. by destruct L2.
    + intros Hne. by rewrite decide_False by naive_solver.
  - destruct (nb_inv _ _ _ _ _ _ _ (Hnb y ltac:(auto))) as (_ & _ & -> & -> & _). split.
    + rewrite decide_False; [done|]. intros [Hne ->]. apply (Hd (final unused L1)); [|done].
      apply final_elem. by destruct L1.
    + intros Hne. by rewrite decide_False by naive_solver.
  - intros Hy. pose proof (final_elem unused _ Hy) as Hin.
    destruct (nb_inv _ _ _ _ _ _ _ (Hnb _ (Hix _ (or_introl Hin)))) as (_ & _ & _ & -> & _).
    rewrite decide_True; [done|]. split; [apply Hnu; set_solver|done].
  - intros Hy. pose proof (first_elem unused _ Hy) as Hin.
    destruct (nb_inv _ _ _ _ _ _ _ (Hnb _ (Hix _ (or_intror Hin)))) as (_ & _ & -> & _ & _).
    rewrite decide_True; [done|]. split; [apply Hnu; set_solver|done].
Qed.

Lemma freeing_insert B' :
  (∀ b, last (blk a <$> L1) = Some b → b_used b = true) →
  (∀ b, head (blk a <$> L2) = Some b → b_used b = true) →
  bins a' (λ i, i = x ∨ isfree a (L1 ++ L2) i) B' → same_config a a' →
  m_freeOffset a' = m_freeOffset a →
  m_freeNodes a' = <[m_freeOffset a - 1 := x]> (m_freeNodes a) →
  m_freeStorage a' = m_freeStorage a + s →
  inv a' (L1 ++ x :: L2) S B'.
Proof.
  intros Hl Hh HB' (Es & Ec & Em) Efo Efn Efs. pose proof freeing_insert_blocks as E. pose proof freeing_insert_dll as Hdll.
  destruct freeing_distinct as (_ & _ & _ & Hix). destruct (nb_inv _ _ _ _ _ _ _ Hx) as (_ & _ & _ & _ & Hxu).
  destruct HF as [H1 H2 H3 H4 H5 _ _ H8 H9 H10 H11 H12 H13 H14 H15 H16].
  split; rewrite ?E, ?Es, ?Ec, ?Em; try done.
  - eapply bins_F_ext; [|exact HB']. intros i. unfold isfree.
    destruct (decide (i = x)) as [->|Hi]; [rewrite Hxu; set_solver|].
    destruct (nb_inv _ _ _ _ _ _ _ (Hnb i Hi)) as (_ & _ & _ & _ & ->). set_solver.
  - by rewrite Efo.
  - intros k i Hk. rewrite Efo, Efn, lookup_insert_ne by lia. by apply H5.
  - split.
    + apply tiles_app. exists o. split; [done|]. by split; [|split].
    + apply coalesced_app. split; [done|]. split; [|naive_solver]. apply coalesced_cons. naive_solver.
  - rewrite Efs, H16, free_sum_app. simpl. lia.
Qed.
End freeing_insert.

(** The two blocks of [free] that connect the combined node. *)
Definition relinked (a a' : Allocator) : Prop :=
  (∃ nodes, a' = set_nodes nodes a) ∧ ∀ i, bp a' i = bp a i ∧ bn a' i = bn a i ∧ sz a' i = sz a i.

Lemma linkNext_ok a c n :
  valid a c → (n ≠ unused → valid a n ∧ n ≠ c) → nn a c = unused →
  runs (when (negb (n =? unused))
    (modNode c (set_neighborNext n);; modNode n (set_neighborPrev c))) a (λ _ a',
    relinked a a' ∧ ∀ i, nb a' i =
      (off a i, sz a i, if decide (n ≠ unused ∧ i = n) then c else np a i,
       if decide (i = c) then n else nn a i, us a i)).
Proof.
  intros Hc Hn Enn. apply runs_when; intros E.
  - apply negb_true_iff, Z.eqb_neq in E. destruct (Hn E) as [Hvn Hnc].
    apply runs_bind, runs_modNode; [done|]. apply runs_modNode; [done|].
    split; [split; [by eexists|intros i; repeat split; by node_cases]|].
    intros i. node_cases; naive_solver.
  - apply negb_false_iff, Z.eqb_eq in E. subst n. split; [split; [by exists (m_nodes a); destruct a|done]|].
    intros i. rewrite decide_False by naive_solver. case_decide; [subst; by rewrite <-Enn|done].
Qed.

Lemma linkPrev_ok a c p :
  valid a c → (p ≠ unused → valid a p ∧ p ≠ c) → np a c = unused →
  runs (when (negb (p =? unused))
    (modNode c (set_neighborPrev p);; modNode p (set_neighborNext c))) a (λ _ a',
    relinked a a' ∧ ∀ i, nb a' i =
      (off a i, sz a i, if decide (i = c) then p else np a i,
       if decide (p ≠ unused ∧ i = p) then c else nn a i, us a i)).
Proof.
  intros Hc Hp Enp. apply runs_when; intros E.
  - apply negb_true_iff, Z.eqb_neq in E. destruct (Hp E) as [Hvp Hpc].
    apply runs_bind, runs_modNode; [done|]. apply runs_modNode; [done|].
    split; [split; [by eexists|intros i; repeat split; by node_cases]|].
    intros i. node_cases; naive_solver.
  - apply negb_false_iff, Z.eqb_eq in E. subst p. split; [split; [by exists (m_nodes a); destruct a|done]|].
    intros i. rewrite (decide_False (P := _ ∧ _)) by naive_solver.
    case_decide; [subst; by rewrite <-Enp|done].
Qed.

(** Both links of the reinserted node. *)
Lemma link_ok a c p n :
  valid a c → np a c = unused → nn a c = unused →
  (n ≠ unused → valid a n ∧ n ≠ c) → (p ≠ unused → valid a p ∧ p ≠ c) →
  runs (when (negb (n =? unused)) (modNode c (set_neighborNext n);; modNode n (set_neighborPrev c));;
        when (negb (p =? unused)) (modNode c (set_neighborPrev p);; modNode p (set_neighborNext c))) a (λ _ a',
    relinked a a' ∧ nb a' c = (off a c, sz a c, p, n, us a c) ∧ ∀ i, i ≠ c → nb a' i =
      (off a i, sz a i, if decide (n ≠ unused ∧ i = n) then c else np a i,
       if decide (p ≠ unused ∧ i = p) then c else nn a i, us a i)).
Proof.
  intros Hc Hnp Hnn Hn Hp. apply runs_bind. eapply runs_mono; [by apply (linkNext_ok a c n)|].
  intros _ a2 [[(n2 & E2) R2] Hnb2]. assert (∀ i, valid a i → valid a2 i) as Hval2 by (by rewrite E2).
  destruct (nb_inv _ _ _ _ _ _ _ (Hnb2 c)) as (Ec1 & Ec2 & Ec3 & Ec4 & Ec5).
  eapply runs_mono; [apply (linkPrev_ok a2 c p); [auto|intros Hne; destruct (Hp Hne); auto|]|].
  { rewrite Ec3, decide_False; [done|]. intros [Hne E]. destruct (Hn Hne). congruence. }
  intros _ a3 [[(n3 & E3) R3] Hnb3]. split; [split|split].
  - exists n3. by rewrite E3, E2.
  - intros i. destruct (R3 i) as (-> & -> & ->). apply R2.
  - rewrite Hnb3, Ec1, Ec2, Ec4, Ec5, !(decide_True (P := c = c)) by done.
    rewrite decide_False; [done|]. intros [Hne E]. destruct (Hp Hne). congruence.
  - intros i Hi. destruct (nb_inv _ _ _ _ _ _ _ (Hnb2 i)) as (F1 & F2 & F3 & F4 & F5).
    by rewrite Hnb3, F1, F2, F3, F4, F5, !(decide_False (P := i = c)) by done.
Qed.

Lemma relinked_bins a a' F B : relinked a a' → bins a F B → bins a' F B.
Proof. intros [(nodes & ->) H]. by apply bins_same. Qed.

(** The node is pushed on the free stack and popped again by [insertNodeIntoBin]. *)
Lemma push_insert_ok a x L1 L2 S B o s :
  freeing a x L1 L2 S B o s →
  runs (setFree (m_freeOffset a ⊟ 1) x;; insertNodeIntoBin s o) (set_freeOffset (m_freeOffset a ⊟ 1) a) (λ r a',
    r = x ∧ (∃ B', bins a' (λ i, i = x ∨ isfree a (L1 ++ L2) i) B') ∧ same_config a a' ∧
    m_freeOffset a' = m_freeOffset a ∧ m_freeNodes a' = <[m_freeOffset a - 1 := x]> (m_freeNodes a) ∧
    m_freeStorage a' = m_freeStorage a + s ∧
    nb a' x = (o, s, unused, unused, false) ∧ ∀ i, i ≠ x → nb a' i = nb a i).
Proof.
  intros HF. pose proof (fr_length HF) as Hlen. pose proof (fr_cap _ _ _ _ _ _ _ _ HF) as Hcap.
  pose proof (fr_room HF) as Hroom. pose proof (fr_storage _ _ _ _ _ _ _ _ HF) as Hst.
  pose proof (fr_bins _ _ _ _ _ _ _ _ HF) as HB. pose proof (bins_cap _ _ _ HB) as Hmax. unfold unused in Hmax.
  destruct (freeing_distinct _ _ _ _ _ _ _ _ HF) as (_ & _ & _ & Hix).
  apply runs_bind. rewrite u32_small by (unfold is_u32; lia).
  apply runs_setFree; [unfold valid; simpl; lia|]. eapply runs_mono.
  { apply (insertNodeIntoBin_ok _ (isfree a (L1 ++ L2)) B s o x).
    - eapply bins_same; [..|exact HB]; done.
    - unfold is_u32; lia.
    - unfold valid; simpl; lia.
    - simpl. apply lookup_insert_eq.
    - intros [Hin%elem_of_app _]. by apply (Hix x).
    - apply (fr_valid HF). set_solver.
    - simpl. unfold is_u32. lia. }
  intros ? a1 (-> & HB1 & Hcfg & Efo & Efn & Efs & Hx & Hnb). simpl in *.
  split; [done|]. split; [done|]. split; [done|]. split; [lia|done].
Qed.

Lemma reinsert_ok a x L1 L2 S B o s :
  freeing a x L1 L2 S B o s →
  (∀ b, last (blk a <$> L1) = Some b → b_used b = true) →
  (∀ b, head (blk a <$> L2) = Some b → b_used b = true) →
  runs (node' ← getNode x;
        freeOffset ← gets m_freeOffset;
        modify (set_freeOffset (freeOffset ⊟ 1));;
        setFree (freeOffset ⊟ 1) x;;
        combinedNodeIndex ← insertNodeIntoBin s o;
        when (negb (neighborNext node' =? unused))
          (modNode combinedNodeIndex (set_neighborNext (neighborNext node'));;
           modNode (neighborNext node') (set_neighborPrev combinedNodeIndex));;
        when (negb (neighborPrev node' =? unused))
          (modNode combinedNodeIndex (set_neighborPrev (neighborPrev node'));;
           modNode (neighborPrev node') (set_neighborNext combinedNodeIndex))) a (λ _ a', ∃ B',
    inv a' (L1 ++ x :: L2) S B' ∧ same_config a a' ∧ us a' x = false ∧
    (∀ i, i ∈ L1 ∨ i ∈ L2 → blk a' i = blk a i) ∧
    blk a' <$> (L1 ++ x :: L2) = (blk a <$> L1) ++ mkBlock o s false :: (blk a <$> L2)).
Proof.
  intros HF Hl Hh. pose proof (fr_valid HF) as Hval.
  destruct (freeing_distinct _ _ _ _ _ _ _ _ HF) as (_ & _ & _ & Hix).
  apply runs_bind, runs_getNode; [apply Hval; set_solver|].
  change (neighborNext (node_at a x)) with (nn a x). change (neighborPrev (node_at a x)) with (np a x).
  rewrite (fr_prev _ _ _ _ _ _ _ _ HF), (fr_next _ _ _ _ _ _ _ _ HF).
  apply runs_bind, runs_gets, runs_bind, runs_modify, runs_assoc, runs_bind.
  eapply runs_mono; [by apply (push_insert_ok a x L1 L2 S B o s)|].
  intros ? a1 (-> & (B1 & HB1) & (Es & Ec & Em) & Efo & Efn & Efs & Hx & Hnb).
  assert (∀ i, valid a i → valid a1 i) as Hval1 by (intros i; unfold valid; by rewrite Em).
  apply nb_inv in Hx as (Ho & Hs & Hp & Hn & Hu).
  eapply runs_mono; [apply (link_ok a1 x (final unused L1) (first unused L2)); [apply Hval1, Hval; set_solver|done..| |]|].
  { intros Hne. assert (first unused L2 ∈ L2) by (apply first_elem; by destruct L2).
    split; [apply Hval1, Hval; set_solver|apply Hix; auto]. }
  { intros Hne. assert (final unused L1 ∈ L1) by (apply final_elem; by destruct L1).
    split; [apply Hval1, Hval; set_solver|apply Hix; auto]. }
  intros _ a3 (R3 & Hx3 & Hi3). exists B1. rewrite Ho, Hs, Hu in Hx3.
  assert (∀ i, i ≠ x → nb a3 i = (off a i, sz a i,
     if decide (first unused L2 ≠ unused ∧ i = first unused L2) then x else np a i,
     if decide (final unused L1 ≠ unused ∧ i = final unused L1) then x else nn a i, us a i)) as Hi.
  { intros i Hi. rewrite Hi3 by done. by destruct (nb_inv _ _ _ _ _ _ _ (Hnb i Hi)) as (-> & -> & -> & -> & ->). }
  clear Hi3. pose proof (freeing_insert_blocks a a3 x L1 L2 S B o s HF Hx3 Hi) as Hblk3.
  split; [eapply (freeing_insert a a3 x L1 L2 S B o s HF Hx3 Hi); try done|].
  { by eapply relinked_bins. }
  1-4: destruct R3 as [(n3 & ->) _]; simpl; try done; lia.
  split; [by destruct R3 as [(n3 & ->) _]|].
  split; [by destruct (nb_inv _ _ _ _ _ _ _ Hx3) as (_ & _ & _ & _ & ?)|]. split; [|done].
  intros i Hin. pose proof (Hix i Hin) as Hne.
  destruct (nb_inv _ _ _ _ _ _ _ (Hi i Hne)) as (? & ? & _ & _ & ?). unfold blk. congruence.
Qed.

Lemma free_ok a L1 x L2 S B o :
  inv a (L1 ++ x :: L2) S B → us a x = true →
  runs (free (mkOffsetAllocation o x)) a (λ _ a', ∃ L1' L2' S' B',
    inv a' (L1' ++ x :: L2') S' B' ∧ same_config a a' ∧
    (∃ t, L1 = L1' ++ t ∧ ∀ i, i ∈ t → us a i = false) ∧
    (∃ t, L2 = t ++ L2' ∧ ∀ i, i ∈ t → us a i = false) ∧ us a' x = false ∧
    (∀ i, i ∈ L1' ∨ i ∈ L2' → blk a' i = blk a i) ∧
    blk a' <$> (L1' ++ x :: L2') = free_at (blk a <$> L1) (blk a x) (blk a <$> L2)).
Proof.
  intros HI Hu. unfold free. simpl metadata. cbv zeta.
  apply runs_bind, runs_getNode; [apply (inv_valid HI); set_solver|].
  pose proof (inv_freeing _ _ _ _ _ _ HI Hu) as HF.
  apply runs_bind. eapply runs_mono; [apply (mergePrev_ok _ _ _ _ _ _ _ _ HF)|].
  intros [o1 s1] a1 (L1' & S1 & B1 & HF1 & Hc1 & Hblk1 & Ht1 & Em1). simpl fst in *; simpl snd in *.
  apply runs_bind. eapply runs_mono; [apply (mergeNext_ok _ _ _ _ _ _ _ _ HF1)|].
  intros s2 a2 (L2' & S2 & B2 & HF2 & Hc2 & Hblk2 & Ht2 & Em2).
  assert (∀ i, us a1 i = us a i) as Hus by (intros i; by injection (Hblk1 i)).
  setoid_rewrite Hus in Ht2.
  rewrite (blk_fmap_ext a a1 L2), (blk_fmap_ext a a1 L2') in Em2 by auto.
  assert (∀ l : list Z, blk a2 <$> l = blk a <$> l) as Hblks.
  { intros l. apply blk_fmap_ext. intros i _. by rewrite Hblk2, Hblk1. }
  pose proof (merge_left_last _ _ _ _ _ _ Em1 (fr_coal1 _ _ _ _ _ _ _ _ HF)) as Hlast.
  pose proof (merge_right_head _ _ _ _ Em2 (fr_coal2 _ _ _ _ _ _ _ _ HF)) as Hhead.
  eapply runs_mono; [apply (reinsert_ok a2 x L1' L2' S2 B2 o1 s2 HF2); by rewrite Hblks|].
  intros _ a3 (B3 & HI3 & Hc3 & Hu3 & Hblk3 & E3). exists L1', L2', S2, B3. split; [done|].
  split; [unfold same_config in *; intuition congruence|]. repeat (split; [done|]).
  split; [intros i Hi; by rewrite Hblk3, Hblk2, Hblk1|].
  rewrite E3, !Hblks. unfold free_at. simpl. by rewrite Em1, Em2.
Qed.
