(* ===== verification/OffsetSpec.v ===== *)
(** * OffsetSpec: what the node allocator promises its clients

    A client owns the allocations it was handed and has not freed.  [Client]
    is the allocator together with that list; [client_step] performs one call
    of [allocate] or [free].  The theorems of this file speak about every
    state that a client can reach from a fresh allocator. *)

From S2P Require Import Prelude SmallFloat Dll OffsetAllocator OffsetInv Blocks OffsetCorrect OffsetFree.
Open Scope Z_scope.
Open Scope u32_scope.

(** ** The fresh allocator *)

Lemma masks_empty a :
  m_usedBins a = replicate 32 0 → m_usedBinsTop a = 0 → masks a (λ _, []).
Proof.
  intros E1 E2. split; rewrite ?E1, ?E2; [done| |lia|].
  - intros t Ht. exists 0. split; [apply lookup_replicate; lia|]. split; [lia|].
    intros l Hl. by rewrite Z.bits_0.
  - intros t Ht. rewrite Z.bits_0. naive_solver.
Qed.

Lemma bins_empty a :
  m_max_capacity a <= unused → m_binIndices a = replicate 256 unused →
  m_usedBins a = replicate 32 0 → m_usedBinsTop a = 0 → bins a (λ _, False) (λ _, []).
Proof.
  intros Hm E1 E2 E3. split; rewrite ?E1; try done.
  - intros b Hb. apply lookup_replicate. split; [done|lia].
  - intros. constructor.
  - set_solver.
  - by apply masks_empty.
Qed.

Lemma reset_ok a :
  1 <= m_current_capacity a <= m_max_capacity a → m_max_capacity a <= unused → is_u32 (m_size a) →
  runs reset a (λ _ a', m_size a' = m_size a ∧ m_max_capacity a' = m_max_capacity a ∧
    m_current_capacity a' = m_current_capacity a ∧
    (∃ B, inv a' [0] (seqZ 1 (m_current_capacity a - 1)) B) ∧ blk a' 0 = mkBlock 0 (m_size a) false).
Proof.
  intros Hc Hm Hs. unfold reset. runs_steps. simpl. eapply runs_mono.
  { apply (insertNodeIntoBin_ok _ (λ _, False) (λ _, []) _ _ 0); try done.
    all: try (unfold valid; simpl; lia). all: try by apply bins_empty.
    simpl. apply seqZ_stack. lia. }
  intros ? a' (-> & (B' & HB') & (Es & Ec & Em) & Efo & Efn & Efs & H0 & Hnb). simpl in *. runs_steps.
  apply nb_inv in H0 as (Ho & Hsz & Hp & Hn & Hu).
  repeat (split; [done|]). split; [|unfold blk; congruence]. exists B'.
  split; rewrite ?Es, ?Ec, ?Em; try done.
  - eapply bins_F_ext; [|exact HB']. intros i. unfold isfree. rewrite list_elem_of_singleton. naive_solver.
  - lia.
  - replace (m_current_capacity a) with (1 + (m_current_capacity a - 1)) at 2 by lia.
    by rewrite seqZ_app by lia.
  - intros k i Hk. apply lookup_seqZ in Hk as [-> Hk]. rewrite Efn, Efo, seqZ_stack by lia. done.
  - simpl. unfold blk. rewrite Ho, Hsz, Hu. split; simpl; [|done]. unfold is_u32 in Hs. lia.
  - simpl. unfold blk. simpl. rewrite Hu, Hsz. lia.
Qed.

Lemma newAllocator_ok size init_capacity max_capacity :
  is_u32 size → 1 <= init_capacity → Z.max init_capacity max_capacity <= unused →
  ∃ a B, newAllocator size init_capacity max_capacity = Some a ∧
    inv a [0] (seqZ 1 (init_capacity - 1)) B ∧ blk a 0 = mkBlock 0 size false ∧
    m_size a = size ∧ m_max_capacity a = Z.max init_capacity max_capacity.
Proof.
  intros Hs Hi Hm. unfold newAllocator.
  destruct (reset_ok (initAllocator size init_capacity max_capacity)) as (r & a & E & Hsz & Hmx & _ & (B & HI) & Hb);
    simpl; try lia; try done.
  exists a, B. rewrite E. done.
Qed.

(** ** Clients *)

(** The allocator and the allocations its client holds, each with the size
    that was asked for. *)
Record Client := mkClient { c_alloc : Allocator; c_live : list (OffsetAllocation * Z) }.

Inductive client_step : Client → event → Client → Prop :=
| step_allocate a a' live size res :
    is_u32 size → allocate size a = Some (res, a') → isNoSpace res = false →
    client_step (mkClient a live) (EvAlloc size (getOffset res)) (mkClient a' ((res, size) :: live))
| step_no_space a a' live size res :
    is_u32 size → allocate size a = Some (res, a') → isNoSpace res = true →
    client_step (mkClient a live) (EvNoSpace size) (mkClient a' live)
| step_free a a' live1 live2 al size :
    free al a = Some (tt, a') →
    client_step (mkClient a (live1 ++ (al, size) :: live2)) (EvFree (getOffset al))
      (mkClient a' (live1 ++ live2)).

(** The states a client reaches from a fresh allocator, with the trace of
    events that led there, latest first. *)
Inductive client_reach (size init_capacity max_capacity : Z) : list event → Client → Prop :=
| reach_init a :
    newAllocator size init_capacity max_capacity = Some a →
    client_reach size init_capacity max_capacity [] (mkClient a [])
| reach_step tr ev c c' :
    client_reach size init_capacity max_capacity tr c → client_step c ev c' →
    client_reach size init_capacity max_capacity (ev :: tr) c'.

Definition node_of (h : OffsetAllocation * Z) : Z := metadata (fst h).

(** The client's allocations are exactly the used nodes. *)
Record owns (a : Allocator) (L : list Z) (live : list (OffsetAllocation * Z)) : Prop := {
  owns_nodup : NoDup (node_of <$> live);
  owns_used i : i ∈ node_of <$> live ↔ i ∈ L ∧ us a i = true;
  owns_at al size : (al, size) ∈ live →
    offset al = off a (metadata al) ∧ 0 <= size <= sz a (metadata al);
}.

(** The client's state and the blocks it represents. *)
Definition client_inv (size : Z) (c : Client) (bs : list Block) : Prop :=
  ∃ L S B, inv (c_alloc c) L S B ∧ owns (c_alloc c) L (c_live c) ∧ m_size (c_alloc c) = size ∧
    bs = blk (c_alloc c) <$> L.

Lemma blk_inj a a' i :
  blk a' i = blk a i → off a' i = off a i ∧ sz a' i = sz a i ∧ us a' i = us a i.
Proof. unfold blk. by intros [= -> -> ->]. Qed.

Lemma owns_ext a a' L live :
  (∀ i, blk a' i = blk a i) → owns a L live → owns a' L live.
Proof.
  intros Hb [H1 H2 H3]. split; [done| |].
  - intros i. destruct (blk_inj _ _ _ (Hb i)) as (_ & _ & ->). apply H2.
  - intros al size Hin. destruct (blk_inj _ _ _ (Hb (metadata al))) as (-> & -> & _). by apply H3.
Qed.

Lemma owns_alloc a a' L1 x L2 rest live size :
  owns a (L1 ++ x :: L2) live → us a x = false →
  (∀ i, i ∈ rest → (i ∉ L1 ++ x :: L2) ∧ us a' i = false) →
  (∀ i, i ∈ L1 ++ x :: L2 → i ≠ x → blk a' i = blk a i) →
  off a' x = off a x → us a' x = true → 0 <= size <= sz a' x →
  owns a' (L1 ++ x :: rest ++ L2) ((mkOffsetAllocation (off a x) x, size) :: live).
Proof.
  intros [H1 H2 H3] Hu Hrest Hb Ho Hu' Hs.
  assert (x ∉ node_of <$> live) as Hx by (rewrite H2, Hu; naive_solver).
  split; rewrite ?fmap_cons.
  - by constructor.
  - intros i. change (node_of (mkOffsetAllocation (off a x) x, size)) with x.
    rewrite elem_of_cons, H2. destruct (decide (i = x)) as [->|Hi]; [rewrite Hu'; set_solver|].
    assert (i ∈ L1 ++ x :: L2 → us a' i = us a i) as Hus by (intros; by apply blk_inj, Hb).
    split; [intros [->|[Hin Hui]]; [done|rewrite Hus by done; set_solver]|].
    intros [Hin Hui]. destruct (decide (i ∈ rest)) as [Hr|Hr].
    + destruct (Hrest i Hr). congruence.
    + assert (i ∈ L1 ++ x :: L2) as Hin' by set_solver. right. by rewrite <-Hus.
  - intros al s [[= -> ->]|Hin]%elem_of_cons; [simpl; lia|].
    assert (metadata al ∈ node_of <$> live) as Hm by (apply (list_elem_of_fmap_2 node_of) in Hin; done).
    apply H2 in Hm as Hm'. destruct Hm' as [Hl _].
    destruct (blk_inj _ _ _ (Hb (metadata al) Hl ltac:(congruence))) as (-> & -> & _). by apply H3.
Qed.

Lemma owns_free a a' L1 x L2 L1' L2' live1 live2 al size :
  owns a (L1 ++ x :: L2) (live1 ++ (al, size) :: live2) → metadata al = x →
  NoDup (L1 ++ x :: L2) →
  (∃ t, L1 = L1' ++ t ∧ ∀ i, i ∈ t → us a i = false) →
  (∃ t, L2 = t ++ L2' ∧ ∀ i, i ∈ t → us a i = false) →
  us a' x = false → (∀ i, i ∈ L1' ∨ i ∈ L2' → blk a' i = blk a i) →
  owns a' (L1' ++ x :: L2') (live1 ++ live2).
Proof.
  intros [H1 H2 H3] Hm Hnd (t1 & -> & Ht1) (t2 & -> & Ht2) Hu Hb.
  rewrite fmap_app, fmap_cons in H1. assert (node_of (al, size) = x) as Ex by done. rewrite Ex in H1.
  rewrite <-Permutation_middle in H1. apply NoDup_cons in H1 as [Hx H1]. rewrite <-fmap_app in H1, Hx.
  assert (∀ i, i ∈ node_of <$> live1 ++ live2 → (i ∈ L1' ∨ i ∈ L2') ∧ us a i = true) as Hin.
  { intros i Hi. assert (i ≠ x) as Hix by congruence.
    assert (i ∈ (L1' ++ t1) ++ x :: t2 ++ L2' ∧ us a i = true) as [Hl Hui].
    { apply H2. rewrite fmap_app in *. set_solver. }
    split; [|done]. pose proof (Ht1 i). pose proof (Ht2 i). set_solver by congruence. }
  split; [done| |].
  - intros i. split.
    + intros Hi. destruct (Hin i Hi) as [Hl Hui].
      destruct (blk_inj _ _ _ (Hb i Hl)) as (_ & _ & ->). set_solver.
    + intros [Hl Hui]. assert (i ≠ x) as Hix by congruence.
      assert (i ∈ L1' ∨ i ∈ L2') as Hl' by set_solver.
      destruct (blk_inj _ _ _ (Hb i Hl')) as (_ & _ & E). rewrite E in Hui.
      assert (i ∈ node_of <$> live1 ++ (al, size) :: live2) as Hi by (apply H2; set_solver).
      rewrite fmap_app, fmap_cons, Ex in Hi. rewrite fmap_app. set_solver.
  - intros al' s Hal. assert (metadata al' ∈ node_of <$> live1 ++ live2) as Hn
      by (by apply (list_elem_of_fmap_2 node_of) in Hal).
    destruct (Hin _ Hn) as [Hl _]. destruct (blk_inj _ _ _ (Hb _ Hl)) as (-> & -> & _).
    apply H3. set_solver.
Qed.

(** A successful allocation is never mistaken for a failed one. *)
Lemma alloc_post_result a L S B size res a' L' :
  inv a L S B → m_size a < NO_SPACE → alloc_post a L size res a' L' →
  isNoSpace res = bool_decide (res = noSpace).
Proof.
  intros HI Hm [(-> & _)|(L1 & x & L2 & rest & -> & _ & _ & _ & _ & _ & _ & -> & _)]; [done|].
  pose proof (inv_block HI x ltac:(set_solver)) as Hb. unfold isNoSpace. simpl.
  rewrite bool_decide_eq_false_2; [apply Z.eqb_neq; lia|]. intros [= E _]. lia.
Qed.

(** One call of a client is a step of the block specification. *)
Lemma client_inv_step size c ev c' bs :
  size < NO_SPACE → client_inv size c bs → client_step c ev c' →
  ∃ bs', client_inv size c' bs' ∧ bstep bs ev bs'.
Proof.
  intros Hsz (L & S & B & HI & HO & Hs & ->) Hst.
  destruct Hst as [a a' live s res Hs' E Hn|a a' live s res Hs' E Hn|a a' live1 live2 al s E]; simpl in *.
  - destruct (runs_det _ _ _ _ _ (allocate_ok a L S B s HI Hs') E) as (Es & Em & L' & S' & B' & HI' & HP).
    rewrite (alloc_post_result _ _ _ _ _ _ _ _ HI ltac:(lia) HP) in Hn. apply bool_decide_eq_false_1 in Hn.
    destruct HP as [(-> & _)|(L1 & x & L2 & rest & -> & -> & [_ Hu] & Hr & Hr' & Hrest & _ & -> & Hx & Hb & Eb)]; [done|].
    exists (blk a' <$> (L1 ++ x :: rest ++ L2)). split.
    + exists (L1 ++ x :: rest ++ L2), S', B'. split; [done|]. split; [|split; [simpl; congruence|done]]. simpl.
      injection Hx as Eo Esz Eu. apply (owns_alloc a); try done. simpl in Hr. lia.
    + rewrite Eb, fmap_app, fmap_cons. apply (bstep_alloc _ (blk a x)); simpl in *; [done|lia].
  - destruct (runs_det _ _ _ _ _ (allocate_ok a L S B s HI Hs') E) as (Es & Em & L' & S' & B' & HI' & HP).
    rewrite (alloc_post_result _ _ _ _ _ _ _ _ HI ltac:(lia) HP) in Hn. apply bool_decide_eq_true_1 in Hn.
    assert (L' = L ∧ ∀ i, blk a' i = blk a i) as [-> Hb].
    { destruct HP as [(_ & -> & ? & _)|(L1 & x & L2 & rest & -> & _ & _ & _ & _ & _ & _ & -> & _)]; [done|].
      pose proof (inv_block HI x ltac:(set_solver)). injection Hn as E1 E2. lia. }
    eexists. split; [|apply bstep_no_space]. exists L, S', B'. split; [done|].
    split; [by apply (owns_ext a)|]. split; [simpl; congruence|]. symmetry. by apply blk_fmap_ext.
  - destruct (proj1 (owns_used _ _ _ HO (metadata al))) as [Hl Hu].
    { apply (list_elem_of_fmap_2 node_of _ (al, s)). set_solver. }
    destruct (owns_at _ _ _ HO al s ltac:(set_solver)) as [Ho _].
    apply list_elem_of_split in Hl as (L1 & L2 & ->). destruct al as [o x]. simpl in *. unfold getOffset. simpl.
    destruct (runs_det _ _ _ _ _ (free_ok a L1 x L2 S B o HI Hu) E)
      as (L1' & L2' & S' & B' & HI' & (Es & _) & Ht1 & Ht2 & Hu' & Hb & Eb).
    exists (blk a' <$> (L1' ++ x :: L2')). split.
    + exists (L1' ++ x :: L2'), S', B'. split; [done|]. split; [|split; [simpl; congruence|done]].
      apply (owns_free a a' L1 x L2 L1' L2' live1 live2 (mkOffsetAllocation o x) s); try done.
      pose proof (inv_nodup HI) as Hnd. by apply NoDup_app in Hnd as (? & _).
    + rewrite Eb, fmap_app, fmap_cons, Ho. by apply (bstep_free _ (blk a x)).
Qed.

(** ** The storage report *)

(** The largest reported region is the size of the highest non-empty bin. *)
Lemma storageReport_spec a L S B :
  inv a L S B → m_freeOffset a < m_max_capacity a →
  totalFreeSpace (storageReport a) = m_freeStorage a ∧
  ((largestFreeRegion (storageReport a) = 0 ∧ ∀ i, ¬ isfree a L i) ∨
   ∃ x, isfree a L x ∧ largestFreeRegion (storageReport a) = bin_size (uintToFloatRoundDown (sz a x)) ∧
     ∀ i, isfree a L i → uintToFloatRoundDown (sz a i) <= uintToFloatRoundDown (sz a x)).
Proof.
  intros HI Hfo. pose proof (inv_bins _ _ _ _ HI) as HB. unfold storageReport.
  destruct (Z.ltb_spec (m_freeOffset a) (m_max_capacity a)); [|lia]. split; [done|]. simpl.
  destruct (bins_masks _ _ _ HB) as [_ Hleaf Htr Htop].
  assert (∀ i, isfree a L i → ∃ t l, 0 <= t < 32 ∧ 0 <= l < 8 ∧ uintToFloatRoundDown (sz a i) = 8 * t + l ∧
    B (8 * t + l) ≠ []) as Hbin.
  { intros i Hi. pose proof (bins_bin_range HB i Hi) as Hr.
    destruct (bin_split (uintToFloatRoundDown (sz a i)) ltac:(lia)) as (t & l & _ & _ & Ht & Hl & E).
    exists t, l. split; [done|]. split; [done|]. split; [done|]. intros E'.
    assert (i ∈ B (8 * t + l)) as Hin by (apply (bins_mem _ _ _ HB); [lia|done]).
    rewrite E' in Hin. set_solver. }
  destruct (Z.eqb_spec (m_usedBinsTop a) 0) as [E0|E0]; simpl.
  { left. split; [done|]. intros i Hi. destruct (Hbin i Hi) as (t & l & Ht & Hl & _ & Hne).
    assert (Z.testbit (m_usedBinsTop a) t = true) as Hb by (apply Htop; eauto).
    by rewrite E0, Z.bits_0 in Hb. }
  right. destruct (lzcnt_spec (m_usedBinsTop a) ltac:(lia)) as (Ht & Hbt & Hmax).
  set (t := 31 - lzcnt_nonzero (m_usedBinsTop a)) in *. rewrite (u32_small t) by (unfold is_u32; lia).
  destruct (Hleaf t Ht) as (v & Hv & Hvr & Hb).
  rewrite (list_lookup_total_correct _ _ _ Hv).
  assert (0 < v) as Hv0.
  { apply Htop in Hbt as (l & Hl & Hne); [|done]. apply Hb in Hne; [|done].
    destruct (decide (v = 0)) as [->|]; [by rewrite Z.bits_0 in Hne|lia]. }
  destruct (lzcnt_spec v ltac:(lia)) as (Hl & Hbl & Hmaxl). set (l := 31 - lzcnt_nonzero v) in *.
  rewrite (u32_small l) by (unfold is_u32; lia).
  pose proof (testbit_bound v 8 l Hvr ltac:(lia) Hbl) as Hl8.
  rewrite bin_join by done. destruct (B (8 * t + l)) as [|x r] eqn:EB; [by apply Hb in Hbl|].
  assert (isfree a L x ∧ uintToFloatRoundDown (sz a x) = 8 * t + l) as [Hx Ex].
  { apply (bins_mem _ _ _ HB); [lia|]. rewrite EB. left. }
  exists x. split; [done|]. rewrite Ex. pose proof (bins_bin_range HB x Hx).
  split; [apply floatToUint_bin_size; lia|]. intros i Hi.
  destruct (Hbin i Hi) as (t' & l' & Ht' & Hl' & -> & Hne).
  assert (t' <= t) as Htt.
  { destruct (decide (t < t')) as [Hlt|]; [|lia].
    assert (Z.testbit (m_usedBinsTop a) t' = true) as Hc by (apply Htop; eauto). by rewrite Hmax in Hc by lia. }
  destruct (decide (t' = t)) as [->|]; [|lia].
  destruct (decide (l < l')) as [Hlt|]; [|lia]. apply Hb in Hne; [|done]. by rewrite Hmaxl in Hne by lia.
Qed.

(** ** Facts about the held allocations *)

Lemma allocationSize_valid a o x :
  m_max_capacity a <= unused → valid a x → allocationSize a (mkOffsetAllocation o x) = sz a x.
Proof.
  intros Hm Hx. unfold allocationSize. simpl. change NO_SPACE with unused.
  destruct (Z.eqb_spec x unused) as [E|E]; [|done]. by apply (valid_not_unused a x) in E.
Qed.

Lemma live_node a L S B live al s :
  inv a L S B → owns a L live → (al, s) ∈ live →
  ∃ k, L !! k = Some (metadata al) ∧ offset al = off a (metadata al) ∧ 0 <= s <= sz a (metadata al) ∧
    allocationSize a al = sz a (metadata al).
Proof.
  intros HI HO Hal. destruct (proj1 (owns_used _ _ _ HO (metadata al))) as [Hl Hu].
  { by apply (list_elem_of_fmap_2 node_of) in Hal. }
  destruct (owns_at _ _ _ HO _ _ Hal) as [Ho Hs].
  apply list_elem_of_lookup in Hl as Hl'. destruct Hl' as [k Hk]. exists k. split; [done|].
  split; [done|]. split; [done|]. destruct al as [o x]. apply allocationSize_valid; [apply (inv_max HI)|].
  apply (inv_valid HI). set_solver.
Qed.

(** Two owned allocations occupy different, disjoint blocks. *)
Lemma owned_disjoint a L S B live i j al1 s1 al2 s2 :
  inv a L S B → owns a L live →
  live !! i = Some (al1, s1) → live !! j = Some (al2, s2) → i ≠ j →
  offset al1 + allocationSize a al1 <= offset al2 ∨ offset al2 + allocationSize a al2 <= offset al1.
Proof.
  intros HI HO Hi Hj Hij.
  destruct (live_node _ _ _ _ _ _ _ HI HO (list_elem_of_lookup_2 _ _ _ Hi)) as (k1 & H1 & Ho1 & Hs1 & ->).
  destruct (live_node _ _ _ _ _ _ _ HI HO (list_elem_of_lookup_2 _ _ _ Hj)) as (k2 & H2 & Ho2 & Hs2 & ->).
  assert (k1 ≠ k2) as Hk.
  { intros ->. apply Hij, (NoDup_lookup _ _ _ (metadata al1) (owns_nodup _ _ _ HO));
      rewrite list_lookup_fmap, ?Hi, ?Hj; unfold node_of; simpl; congruence. }
  destruct (inv_blocks _ _ _ _ HI) as [Ht _].
  assert (∀ k x, L !! k = Some x → (blk a <$> L) !! k = Some (blk a x)) as Hblk
    by (intros k x E; by rewrite list_lookup_fmap, E).
  destruct (decide (k1 < k2)%nat).
  - pose proof (tiles_disjoint _ _ _ _ _ _ _ Ht (Hblk _ _ H1) (Hblk _ _ H2) ltac:(lia)). simpl in *. lia.
  - pose proof (tiles_disjoint _ _ _ _ _ _ _ Ht (Hblk _ _ H2) (Hblk _ _ H1) ltac:(lia)). simpl in *. lia.
Qed.

Lemma used_sum_filter a (L : list Z) :
  used_sum (blk a <$> L) = foldr Z.add 0 (sz a <$> filter (λ i, us a i = true) L).
Proof.
  induction L as [|i L IH]; [done|]. rewrite filter_cons, fmap_cons. simpl. rewrite IH.
  destruct (us a i) eqn:E; [rewrite decide_True by done|rewrite decide_False by done]; done.
Qed.

Lemma live_sizes a L S B live :
  inv a L S B → owns a L live →
  foldr Z.add 0 ((λ h, allocationSize a (fst h)) <$> live) = used_sum (blk a <$> L).
Proof.
  intros HI HO. rewrite used_sum_filter.
  transitivity (foldr Z.add 0 (sz a <$> (node_of <$> live))).
  - rewrite <-list_fmap_compose. f_equal. apply list_fmap_ext. intros k [al s] Hk. simpl.
    by destruct (live_node _ _ _ _ _ _ _ HI HO (list_elem_of_lookup_2 _ _ _ Hk)) as (_ & _ & _ & _ & ->).
  - apply sum_Permutation, Permutation_map, NoDup_Permutation.
    + apply (owns_nodup _ _ _ HO).
    + apply NoDup_filter. pose proof (inv_nodup HI) as Hnd. by apply NoDup_app in Hnd as (? & _).
    + intros i. rewrite (owns_used _ _ _ HO), list_elem_of_filter. tauto.
Qed.

(** ** The full report *)

(** Walking a bin list needs as much fuel as it has nodes. *)
Lemma countBin_ok a fuel p l count :
  dseg (bp a) (bn a) p l unused → (unused ∉ l) → (length l <= fuel)%nat →
  0 <= count → count + Z.of_nat (length l) < 2 ^ 32 →
  countBin fuel a (first unused l) count = Some (count + Z.of_nat (length l)).
Proof.
  revert fuel p count. induction l as [|i l IH]; intros fuel p count Hd Hu Hf Hc Hb; simpl in *.
  - destruct fuel; simpl; f_equal; lia.
  - destruct fuel as [|fuel]; [lia|]. simpl. destruct (Z.eqb_spec i unused) as [->|_]; [set_solver|].
    destruct Hd as (_ & En & Hd). unfold bn in En. rewrite En, u32_small by (unfold is_u32; lia).
    rewrite (IH fuel i (count + 1)) by (set_solver || lia). f_equal. lia.
Qed.

Lemma bin_filter a L S B b :
  inv a L S B → 0 <= b < 256 →
  B b ≡ₚ filter (λ i, us a i = false ∧ uintToFloatRoundDown (sz a i) = b) L.
Proof.
  intros HI Hb. pose proof (inv_bins _ _ _ _ HI) as HB. apply NoDup_Permutation.
  - by apply (bins_nodup _ _ _ HB).
  - apply NoDup_filter. pose proof (inv_nodup HI) as Hnd. by apply NoDup_app in Hnd as (? & _).
  - intros i. rewrite (bins_mem _ _ _ HB) by done. rewrite list_elem_of_filter. unfold isfree. tauto.
Qed.

Lemma mapM_seqZ {A} (f : Z → option A) (g : Z → A) n :
  (∀ b, 0 <= b < n → f b = Some (g b)) → mapM f (seqZ 0 n) = Some (g <$> seqZ 0 n).
Proof.
  intros H. apply mapM_Some_2. apply Forall2_fmap_r, Forall_Forall2_diag, Forall_forall.
  intros b Hb. apply H. rewrite elem_of_seqZ in Hb. lia.
Qed.

Lemma storageReportFull_ok fuel a L S B :
  inv a L S B → (Z.to_nat (m_current_capacity a) <= fuel)%nat →
  storageReportFull fuel a = Some ((λ b, (floatToUint b, Z.of_nat (length
    (filter (λ i, us a i = false ∧ uintToFloatRoundDown (sz a i) = b) L)))) <$> seqZ 0 256).
Proof.
  intros HI Hf. pose proof (inv_bins _ _ _ _ HI) as HB. pose proof (inv_length HI) as Hlen.
  pose proof (inv_cap _ _ _ _ HI) as Hc. pose proof (inv_max HI) as Hm. unfold unused in Hm.
  apply mapM_seqZ. intros b Hb. simpl. rewrite (list_lookup_total_correct _ _ _ (bins_head _ _ _ HB b Hb)).
  pose proof (bin_filter a L S B b HI Hb) as Hp. pose proof (Permutation_length Hp) as El.
  assert (length (B b) <= length L)%nat as Hle by (rewrite El; apply length_filter).
  rewrite (countBin_ok a fuel unused (B b) 0); [|by apply (bins_dll _ _ _ HB)|..]; try lia.
  - simpl. by rewrite El.
  - by apply (bins_no_unused HB).
Qed.

Section reachable.
Context {size init_capacity max_capacity : Z} {tr : list event} {c : Client}.
Context (Hsize : 0 <= size < NO_SPACE) (Hinit : 1 <= init_capacity).
Context (Hmax : Z.max init_capacity max_capacity <= unused).
Context (Hreach : client_reach size init_capacity max_capacity tr c).

Lemma reach_refines : ∃ bs, client_inv size c bs ∧ btrace size tr bs.
Proof.
  induction Hreach as [a E|tr' ev c1 c2 Hr IH Hst].
  - destruct (newAllocator_ok size init_capacity max_capacity) as (a0 & B & E0 & HI & Hb & Hs & _);
      [unfold is_u32, NO_SPACE in *; lia|done|done|]. simplify_eq.
    exists (blk a <$> [0]). split; [|simpl; rewrite Hb; constructor].
    exists [0], (seqZ 1 (init_capacity - 1)), B. split; [done|]. split; [|done]. simpl.
    injection Hb as _ _ Hu. split; [constructor| |set_solver].
    intros i. simpl. rewrite list_elem_of_singleton. split; [set_solver|]. intros [-> Hui]. congruence.
  - destruct (IH Hr) as (bs & HI & Ht).
    destruct (client_inv_step size c1 ev c2 bs ltac:(lia) HI Hst) as (bs' & HI' & Hb').
    exists bs'. split; [done|]. by econstructor.
Qed.

Lemma reach_inv : ∃ L S B, inv (c_alloc c) L S B ∧ owns (c_alloc c) L (c_live c) ∧ m_size (c_alloc c) = size.
Proof. destruct reach_refines as (bs & (L & S & B & HI & HO & Hs & _) & _). by exists L, S, B. Qed.

(** C19: the node allocator refines the block specification: every trace of
    calls and results a client can observe is a trace of best-fit allocation
    and coalescing release on a tiling of the storage, and the well-formed
    tiling it ends in is the one the nodes represent. *)
Theorem allocator_refines_blocks :
  ∃ L bs, btrace size tr bs ∧ wf_blocks size bs ∧ repr (c_alloc c) L ∧ bs = blk (c_alloc c) <$> L.
Proof.
  destruct reach_refines as (bs & (L & S & B & HI & HO & Hs & ->) & Ht).
  exists L, (blk (c_alloc c) <$> L). split; [done|]. rewrite <-Hs. split; [apply HI|].
  split; [by exists S, B|done].
Qed.

Lemma reach_live al s :
  (al, s) ∈ c_live c →
  ∃ L1 L2 S B, inv (c_alloc c) (L1 ++ metadata al :: L2) S B ∧ us (c_alloc c) (metadata al) = true ∧
    offset al = off (c_alloc c) (metadata al) ∧ 0 <= s <= sz (c_alloc c) (metadata al).
Proof.
  intros Hal. destruct reach_inv as (L & S & B & HI & HO & Hs).
  destruct (proj1 (owns_used _ _ _ HO (metadata al))) as [Hl Hu].
  { by apply (list_elem_of_fmap_2 node_of) in Hal. }
  destruct (owns_at _ _ _ HO _ _ Hal) as [Ho Hsz].
  apply list_elem_of_split in Hl as (L1 & L2 & ->). exists L1, L2, S, B. done.
Qed.

(** C25: the allocator never accesses memory outside its arrays, and never
    reads a free-list slot that was not written: from every reachable state
    [allocate] of any 32-bit size and [free] of any held allocation return. *)
Theorem allocator_memory_safe :
  (∀ s, is_u32 s → ∃ res a', allocate s (c_alloc c) = Some (res, a')) ∧
  (∀ al s, (al, s) ∈ c_live c → ∃ a', free al (c_alloc c) = Some (tt, a')).
Proof.
  split.
  - intros s Hs. destruct reach_inv as (L & S & B & HI & _).
    destruct (allocate_ok _ _ _ _ s HI Hs) as (res & a' & E & _). eauto.
  - intros [o x] s Hal. destruct (reach_live _ _ Hal) as (L1 & L2 & S & B & HI & Hu & _).
    destruct (free_ok _ L1 x L2 S B o HI Hu) as ([] & a' & E & _). eauto.
Qed.

(** C26: two allocations held at the same time never overlap, and each lies
    inside the storage and has at least the size that was asked for. *)
Theorem live_allocations_disjoint i j al1 s1 al2 s2 :
  c_live c !! i = Some (al1, s1) → c_live c !! j = Some (al2, s2) → i ≠ j →
  (0 <= offset al1 ∧ offset al1 + allocationSize (c_alloc c) al1 <= size ∧
   s1 <= allocationSize (c_alloc c) al1) ∧
  (offset al1 + allocationSize (c_alloc c) al1 <= offset al2 ∨
   offset al2 + allocationSize (c_alloc c) al2 <= offset al1).
Proof.
  intros Hi Hj Hij. destruct reach_inv as (L & S & B & HI & HO & Hs).
  split; [|by apply (owned_disjoint _ L S B (c_live c) i j _ s1 _ s2)].
  destruct (live_node _ _ _ _ _ _ _ HI HO (list_elem_of_lookup_2 _ _ _ Hi)) as (k1 & H1 & Ho1 & Hs1 & ->).
  pose proof (inv_block HI _ (list_elem_of_lookup_2 _ _ _ H1)) as Hb. lia.
Qed.

(** The free-storage counter is exact: it and the sizes of the held
    allocations add up to the storage. *)
Theorem free_storage_accounting :
  m_freeStorage (c_alloc c) +
    foldr Z.add 0 ((λ h, allocationSize (c_alloc c) (fst h)) <$> c_live c) = size.
Proof.
  destruct reach_inv as (L & S & B & HI & HO & Hs).
  rewrite (live_sizes _ _ _ _ _ HI HO), (inv_storage _ _ _ _ HI), <-Hs.
  destruct (inv_blocks _ _ _ _ HI) as [Ht _]. pose proof (tiles_sum _ _ _ Ht). lia.
Qed.

(** Coalescing is complete: when the client has given everything back, the
    free space is one region again, and the report shows the whole storage
    (rounded down to a bin size). *)
Theorem all_freed_coalesces :
  c_live c = [] → m_freeOffset (c_alloc c) < m_max_capacity (c_alloc c) →
  storageReport (c_alloc c) = mkStorageReport size (floatToUint (uintToFloatRoundDown size)).
Proof.
  intros Hl Hfo. destruct reach_inv as (L & S & B & HI & HO & Hs).
  assert (is_u32 size) as Hu by (unfold is_u32, NO_SPACE in *; lia).
  destruct (roundDown_spec size Hu) as (Hr & _). rewrite floatToUint_bin_size by lia.
  assert (∀ i, i ∈ L → us (c_alloc c) i = false) as Hfree.
  { intros i Hi. destruct (us (c_alloc c) i) eqn:E; [|done]. exfalso.
    assert (i ∈ node_of <$> c_live c) as Hin by (by apply (owns_used _ _ _ HO)). rewrite Hl in Hin. set_solver. }
  pose proof (inv_storage _ _ _ _ HI) as Hst.
  assert (∀ b, b ∈ blk (c_alloc c) <$> L → b_used b = false) as Hfree'.
  { intros b (i & -> & Hi)%list_elem_of_fmap. by apply Hfree. }
  destruct (storageReport (c_alloc c)) as [tot lar] eqn:Er.
  destruct (storageReport_spec _ _ _ _ HI Hfo) as [Ht Hlarge]. rewrite Er in Ht, Hlarge. simpl in Ht, Hlarge.
  destruct (wf_all_free _ _ (inv_blocks _ _ _ _ HI) Hfree') as [[EL Es]|EL]; rewrite EL in Hst.
  - apply fmap_nil_inv in EL. subst L. destruct Hlarge as [[-> _]|(x & [Hx _] & _)]; [|set_solver].
    simpl in Hst. f_equal; [lia|]. by replace size with 0 by lia.
  - destruct L as [|x [|y L]]; try done. injection EL as Eo Esz Eus. simpl in Hst.
    assert (isfree (c_alloc c) [x] x) as Hx by (split; [set_solver|done]).
    destruct Hlarge as [[_ Hn]|(y & [->%list_elem_of_singleton _] & -> & _)]; [by apply Hn in Hx|].
    rewrite Esz, Hs. f_equal. lia.
Qed.

(** C33: the report is a sound and complete admission test: while node indices
    are left, [allocate] succeeds for exactly the sizes up to the reported
    largest region. *)
Theorem allocate_succeeds_iff s res a' :
  1 <= s → is_u32 s → m_freeOffset (c_alloc c) < m_max_capacity (c_alloc c) →
  allocate s (c_alloc c) = Some (res, a') →
  isNoSpace res = false ↔ s <= largestFreeRegion (storageReport (c_alloc c)).
Proof.
  intros Hs1 Hs Hfo E. destruct reach_inv as (L & S & B & HI & HO & Hsz).
  destruct (runs_det _ _ _ _ _ (allocate_ok _ _ _ _ s HI Hs) E) as (_ & _ & L' & S' & B' & _ & HP).
  rewrite (alloc_post_result _ _ _ _ _ _ _ _ HI ltac:(lia) HP), bool_decide_eq_false.
  destruct (storageReport_spec _ _ _ _ HI Hfo) as [_ Hlarge].
  assert (∀ i, isfree (c_alloc c) L i → 0 <= uintToFloatRoundDown (sz (c_alloc c) i)) as Hr
    by (intros i Hi; pose proof (bins_bin_range (inv_bins _ _ _ _ HI) i Hi); lia).
  destruct Hlarge as [[-> Hno]|(x & Hx & -> & Hmx)].
  - split; [|lia]. destruct HP as [(-> & _)|(L1 & x & L2 & rest & _ & _ & Hx & _)]; [done|by apply Hno in Hx].
  - rewrite <-roundUp_galois by auto.
    destruct HP as [(-> & _ & _ & Hfail)|(L1 & y & L2 & rest & EL & _ & Hy & Hsr & Hrs & _ & _ & -> & _)].
    + destruct Hfail as [Hfail|Hfail]; [lia|]. specialize (Hfail x Hx). split; [done|lia].
    + split; intros _.
      * etrans; [|by apply (Hmx y)]. apply roundDown_galois; [|destruct (roundUp_spec s Hs); lia|done].
        apply (bins_valid _ _ _ (inv_bins _ _ _ _ HI) y Hy).
      * intros E'. injection E' as E1 _. pose proof (inv_block HI y ltac:(set_solver)).
        unfold NO_SPACE in *. lia.
Qed.

(** Best fit and bounded waste: no bin that could serve the request and
    lies below the bin of the chosen block holds a block, and the size charged
    to the request exceeds it by at most one eighth. *)
Theorem allocate_best_fit s res a' :
  is_u32 s → allocate s (c_alloc c) = Some (res, a') → isNoSpace res = false →
  s <= allocationSize a' res ∧ 8 * (allocationSize a' res - s) <= s ∧
  allocationSize a' res <= dataSize (node_at (c_alloc c) (metadata res)) ∧
  ∀ b, uintToFloatRoundUp s <= b < uintToFloatRoundDown (dataSize (node_at (c_alloc c) (metadata res))) →
    m_binIndices (c_alloc c) !! Z.to_nat b = Some unused.
Proof.
  intros Hs E Hres. destruct reach_inv as (L & S & B & HI & HO & Hsz).
  destruct (runs_det _ _ _ _ _ (allocate_ok _ _ _ _ s HI Hs) E) as (_ & Em & L' & S' & B' & HI' & HP).
  rewrite (alloc_post_result _ _ _ _ _ _ _ _ HI ltac:(lia) HP), bool_decide_eq_false in Hres.
  destruct HP as [(-> & _)|(L1 & x & L2 & rest & -> & -> & Hx & Hsr & Hrs & _ & Hbest & -> & Hx' & _)]; [done|].
  rewrite (allocationSize_valid a') by (apply (inv_max HI') || (apply (inv_valid HI'); set_solver)).
  injection Hx' as _ -> _. pose proof (roundUp_waste s Hs). split; [lia|]. split; [done|]. split; [done|].
  simpl. change (dataSize (node_at (c_alloc c) x)) with (sz (c_alloc c) x). intros b Hb.
  pose proof (inv_bins _ _ _ _ HI) as HB. pose proof (bins_bin_range HB x Hx).
  destruct (roundUp_spec s Hs) as (Hr & _). rewrite (bins_head _ _ _ HB) by lia.
  destruct (B b) as [|i l] eqn:EB; [done|]. exfalso.
  assert (i ∈ B b) as Hi by (rewrite EB; left). apply (bins_mem _ _ _ HB) in Hi as [Hi Ei]; [|lia].
  specialize (Hbest i Hi). lia.
Qed.

(** The full report terminates and is exact: walking every bin list within
    the node capacity returns, for each bin, the number of free nodes whose
    size falls into it. *)
Theorem storageReportFull_exact fuel :
  (Z.to_nat (m_current_capacity (c_alloc c)) <= fuel)%nat →
  ∃ L, repr (c_alloc c) L ∧
    storageReportFull fuel (c_alloc c) = Some ((λ b, (floatToUint b, Z.of_nat (length
      (filter (λ i, us (c_alloc c) i = false ∧ uintToFloatRoundDown (sz (c_alloc c) i) = b) L))))
      <$> seqZ 0 NUM_LEAF_BINS).
Proof.
  intros Hf. destruct reach_inv as (L & S & B & HI & _). exists L. split; [by exists S, B|].
  by apply (storageReportFull_ok fuel _ L S B).
Qed.

End reachable.

(** ** A concrete client

    1000 bytes and room for at most eight nodes: three allocations, then the
    middle one is given back. *)

Definition demo0 : Allocator := Eval vm_compute in default (initAllocator 0 0 0) (newAllocator 1000 4 8).
Definition demo_alloc (s : Z) (c : Client) : Client :=
  match allocate s (c_alloc c) with
  | Some (res, a) => mkClient a (if isNoSpace res then c_live c else (res, s) :: c_live c)
  | None => c
  end.

Lemma demo_alloc_reach size init_capacity max_capacity s c tr :
  client_reach size init_capacity max_capacity tr c → is_u32 s →
  (∃ r, allocate s (c_alloc c) = Some r) →
  ∃ tr', client_reach size init_capacity max_capacity tr' (demo_alloc s c).
Proof.
  intros Hr Hs [[res a] E]. unfold demo_alloc. rewrite E. destruct c as [a0 live]. simpl in *.
  destruct (isNoSpace res) eqn:En; eexists; (eapply reach_step; [exact Hr|]).
  - by eapply step_no_space.
  - by eapply step_allocate.
Qed.

Definition demo1 : Client := Eval vm_compute in demo_alloc 100 (mkClient demo0 []).
Definition demo2 : Client := Eval vm_compute in demo_alloc 20 demo1.
Definition demo3 : Client := Eval vm_compute in demo_alloc 300 demo2.

Lemma demo3_reach : ∃ tr, client_reach 1000 4 8 tr demo3.
Proof.
  assert (client_reach 1000 4 8 [] (mkClient demo0 [])) as H0 by (apply reach_init; vm_compute; reflexivity).
  assert (demo_alloc 100 (mkClient demo0 []) = demo1) as E1 by (vm_compute; reflexivity).
  assert (demo_alloc 20 demo1 = demo2) as E2 by (vm_compute; reflexivity).
  assert (demo_alloc 300 demo2 = demo3) as E3 by (vm_compute; reflexivity).
  destruct (demo_alloc_reach _ _ _ 100 _ _ H0) as [t1 H1];
    [unfold is_u32; lia|eexists; vm_compute; reflexivity|rewrite E1 in H1].
  destruct (demo_alloc_reach _ _ _ 20 _ _ H1) as [t2 H2];
    [unfold is_u32; lia|eexists; vm_compute; reflexivity|rewrite E2 in H2].
  destruct (demo_alloc_reach _ _ _ 300 _ _ H2) as [t3 H3];
    [unfold is_u32; lia|eexists; vm_compute; reflexivity|rewrite E3 in H3].
  by exists t3.
Qed.

(** The side conditions on the sizes, for the witnesses. *)
Lemma demo_size : 0 <= 1000 < NO_SPACE.
Proof. unfold NO_SPACE. lia. Qed.
Lemma demo_capacity : 1 <= 4 ∧ Z.max 4 8 <= unused.
Proof. unfold unused. lia. Qed.

Lemma allocator_memory_safe_witness :
  (∃ res a', allocate 50 (c_alloc demo3) = Some (res, a')) ∧
  ∃ a', free (mkOffsetAllocation 104 1) (c_alloc demo3) = Some (tt, a').
Proof.
  destruct demo3_reach as [tr H]. destruct demo_capacity as [Hi Hm].
  destruct (allocator_memory_safe demo_size Hi Hm H) as [H1 H2].
  split; [apply H1; unfold is_u32; lia|].
  apply (H2 _ 20). apply elem_of_cons. right. left.
Defined.

Lemma allocator_refines_blocks_witness :
  ∃ tr L bs, btrace 1000 tr bs ∧ wf_blocks 1000 bs ∧ repr (c_alloc demo3) L ∧ bs = blk (c_alloc demo3) <$> L.
Proof.
  destruct demo3_reach as [tr H]. destruct demo_capacity as [Hi Hm]. exists tr.
  exact (allocator_refines_blocks demo_size Hi Hm H).
Defined.

Lemma live_allocations_disjoint_witness :
  c_live demo3 !! 0%nat = Some (mkOffsetAllocation 124 2, 300) ∧
  c_live demo3 !! 1%nat = Some (mkOffsetAllocation 104 1, 20) ∧
  (124 + allocationSize (c_alloc demo3) (mkOffsetAllocation 124 2) <= 104 ∨
   104 + allocationSize (c_alloc demo3) (mkOffsetAllocation 104 1) <= 124).
Proof.
  destruct demo3_reach as [tr H]. destruct demo_capacity as [Hi Hm]. split; [reflexivity|]. split; [reflexivity|].
  exact (proj2 (live_allocations_disjoint demo_size Hi Hm H 0 1 _ 300 _ 20 eq_refl eq_refl ltac:(discriminate))).
Defined.

Lemma free_storage_accounting_witness :
  m_freeStorage (c_alloc demo3) +
    foldr Z.add 0 ((λ h, allocationSize (c_alloc demo3) (fst h)) <$> c_live demo3) = 1000.
Proof.
  destruct demo3_reach as [tr H]. destruct demo_capacity as [Hi Hm].
  exact (free_storage_accounting demo_size Hi Hm H).
Defined.

Lemma all_freed_coalesces_witness :
  storageReport demo0 = mkStorageReport 1000 (floatToUint (uintToFloatRoundDown 1000)).
Proof.
  destruct demo_capacity as [Hi Hm].
  assert (client_reach 1000 4 8 [] (mkClient demo0 [])) as H by (apply reach_init; vm_compute; reflexivity).
  apply (all_freed_coalesces demo_size Hi Hm H); vm_compute; reflexivity.
Defined.

Lemma allocate_succeeds_iff_witness :
  ∃ res a', allocate 500 (c_alloc demo3) = Some (res, a') ∧ isNoSpace res = false.
Proof.
  destruct demo3_reach as [tr H]. destruct demo_capacity as [Hi Hm].
  eexists _, _. split; [vm_compute; reflexivity|].
  eapply (allocate_succeeds_iff demo_size Hi Hm H 500); [lia|unfold is_u32; lia|reflexivity|vm_compute; reflexivity|].
  vm_compute. congruence.
Defined.

Lemma allocate_best_fit_witness :
  ∃ res a', allocate 500 (c_alloc demo3) = Some (res, a') ∧ 8 * (allocationSize a' res - 500) <= 500.
Proof.
  destruct demo3_reach as [tr H]. destruct demo_capacity as [Hi Hm].
  eexists _, _. split; [vm_compute; reflexivity|].
  eapply (allocate_best_fit demo_size Hi Hm H 500); [unfold is_u32; lia|vm_compute; reflexivity|reflexivity].
Defined.

Lemma storageReportFull_exact_witness :
  ∃ L, repr (c_alloc demo3) L ∧ is_Some (storageReportFull 8 (c_alloc demo3)).
Proof.
  destruct demo3_reach as [tr H]. destruct demo_capacity as [Hi Hm].
  destruct (storageReportFull_exact demo_size Hi Hm H 8) as (L & HL & E); [vm_compute; lia|].
  exists L. split; [exact HL|]. rewrite E. eexists. reflexivity.
Defined.
