(* ===== verification/OffsetHandles.v ===== *)
(** * OffsetHandles: class [OffsetAllocator] and its RAII handles

    The public allocator scales 64-bit sizes down to the 32-bit node allocator
    by a power of two, adds the region's base address and keeps two counters.
    A handle frees its allocation when it is destroyed or overwritten; it
    refers to the allocator weakly, so that a handle that outlives its
    allocator does nothing.  Every public method holds the mutex for its whole
    body, so a method is one atomic step on the state below. *)

From S2P Require Import Prelude SmallFloat Dll OffsetAllocator OffsetInv Blocks OffsetCorrect OffsetFree OffsetSpec.
Open Scope Z_scope.

(** ** State *)

Record Wrapper := mkWrapper {
  w_allocator : option Allocator;
  m_base : Z;
  m_multiplier_bits : Z;
  m_capacity : Z;
  m_allocated_size : Z;
  m_allocated_num : Z;
}.

Definition set_w_allocator (a : Allocator) (w : Wrapper) : Wrapper :=
  mkWrapper (Some a) (m_base w) (m_multiplier_bits w) (m_capacity w)
    (m_allocated_size w) (m_allocated_num w).
Definition set_counters (sz num : Z) (w : Wrapper) : Wrapper :=
  mkWrapper (w_allocator w) (m_base w) (m_multiplier_bits w) (m_capacity w) sz num.

(** Allocators are shared objects, named by a number; a handle's weak pointer
    is such a number, or [None] once it has been moved from.  The heap maps the
    numbers of the allocators that some shared pointer keeps alive. *)
Record Handle := mkHandle {
  h_allocator : option nat;
  h_allocation : OffsetAllocation;
  real_base : Z;
  requested_size : Z;
}.

(** ** Construction *)

(** The loop of [calculateMultiplier]; [None] when the fuel runs out. *)
Fixpoint calculateMultiplier_loop (fuel : nat) (size multiplier_bits : Z) : option Z :=
  if MAX_BIN_SIZE <? Z.shiftr size multiplier_bits then
    match fuel with
    | O => None
    | S fuel => calculateMultiplier_loop fuel size (u64 (multiplier_bits + 1))
    end
  else Some multiplier_bits.

Definition calculateMultiplier (size : Z) : option Z := calculateMultiplier_loop 64 size 0.

Definition create (base size init_capacity max_capacity : Z) : option Wrapper :=
  bits ← calculateMultiplier size;
  a ← newAllocator (u32 (Z.shiftr size bits)) init_capacity max_capacity;
  Some (mkWrapper (Some a) base bits size 0 0).

(** ** Allocation *)

Definition fakeSize (w : Wrapper) (size : Z) : Z :=
  if 0 <? m_multiplier_bits w
  then Z.shiftr (u64 (u64 (size + u64 (Z.shiftl 1 (m_multiplier_bits w))) - 1)) (m_multiplier_bits w)
  else size.

(** [OffsetAllocator::allocate]: the allocation and the address and size its
    handle records. *)
Definition wallocate (size : Z) : ST Wrapper (option (OffsetAllocation * Z * Z)) := λ w,
  if size =? 0 then Some (None, w) else
  match w_allocator w with
  | None => Some (None, w)
  | Some a =>
      let fake_size := fakeSize w size in
      if MAX_BIN_SIZE <? fake_size then Some (None, w) else
      '(allocation, a') ← allocate (u32 fake_size) a;
      let w' := set_w_allocator a' w in
      if isNoSpace allocation then Some (None, w') else
      let w'' := set_counters (u64 (m_allocated_size w' + size)) (u64 (m_allocated_num w' + 1)) w' in
      Some (Some (allocation,
                  u64 (m_base w + u64 (Z.shiftl (getOffset allocation) (m_multiplier_bits w))), size), w'')
  end.

Definition freeAllocation (allocation : OffsetAllocation) (size : Z) : ST Wrapper unit := λ w,
  match w_allocator w with
  | None => Some (tt, w)
  | Some a =>
      '(_, a') ← free allocation a;
      Some (tt, set_counters (u64 (m_allocated_size w - size)) (u64 (m_allocated_num w - 1))
                  (set_w_allocator a' w))
  end.

(** ** Reports *)

Definition wstorageReport (w : Wrapper) : StorageReport :=
  match w_allocator w with
  | None => mkStorageReport 0 0
  | Some a =>
      let r := storageReport a in
      mkStorageReport (u64 (Z.shiftl (totalFreeSpace r) (m_multiplier_bits w)))
        (u64 (Z.shiftl (largestFreeRegion r) (m_multiplier_bits w)))
  end.

Definition wstorageReportFull (fuel : nat) (w : Wrapper) : option (list (Z * Z)) :=
  match w_allocator w with
  | None => Some (replicate (Z.to_nat NUM_LEAF_BINS) (0, 0))
  | Some a =>
      map (λ e, (u64 (Z.shiftl (fst e) (m_multiplier_bits w)), snd e)) <$> storageReportFull fuel a
  end.

Record OffsetAllocatorMetrics := mkMetrics {
  allocated_size_ : Z; allocated_num_ : Z; largest_free_region_ : Z;
  total_free_space_ : Z; metrics_capacity : Z;
}.

Definition get_metrics (w : Wrapper) : OffsetAllocatorMetrics :=
  match w_allocator w with
  | None => mkMetrics 0 0 0 0 (m_capacity w)
  | Some a =>
      let basic_report := storageReport a in
      mkMetrics (m_allocated_size w) (m_allocated_num w)
        (u64 (Z.shiftl (largestFreeRegion basic_report) (m_multiplier_bits w)))
        (u64 (Z.shiftl (totalFreeSpace basic_report) (m_multiplier_bits w)))
        (m_capacity w)
  end.

(** ** Handles *)

(** A method call on the allocator [k] of the heap. *)
Definition on_alloc {A} (k : nat) (m : ST Wrapper A) : ST (gmap nat Wrapper) A := λ h,
  w ← h !! k;
  '(x, w') ← m w;
  Some (x, <[k := w']> h).

(** [allocator->allocate(size)] with the handle it returns. *)
Definition hallocate (k : nat) (size : Z) : ST (gmap nat Wrapper) (option Handle) :=
  r ← on_alloc k (wallocate size);
  mret ((λ '(allocation, base, sz), mkHandle (Some k) allocation base sz) <$> r).

(** [if (auto allocator = m_allocator.lock()) allocator->freeAllocation(...)]. *)
Definition release (x : Handle) : ST (gmap nat Wrapper) unit := λ h,
  match h_allocator x with
  | Some k =>
      match h !! k with
      | Some _ => on_alloc k (freeAllocation (h_allocation x) (requested_size x)) h
      | None => Some (tt, h)
      end
  | None => Some (tt, h)
  end.

Definition moved_from : Handle := mkHandle None noSpace 0 0.

(** The move constructor returns the new handle and what is left in [other]. *)
Definition handle_move (other : Handle) : Handle * Handle := (other, moved_from).

(** The move assignment (of two different objects) and the destructor. *)
Definition handle_move_assign (this other : Handle) : ST (gmap nat Wrapper) (Handle * Handle) :=
  release this;;
  mret (other, moved_from).

Definition handle_destroy (x : Handle) : ST (gmap nat Wrapper) unit := release x.

Definition isValid (h : (gmap nat Wrapper)) (x : Handle) : bool :=
  match h_allocator x with
  | Some k => bool_decide (is_Some (h !! k))
  | None => false
  end.

(** * The public allocator and its handles are correct

    The invariant [winv] ties the counters and handles of an [OffsetAllocator]
    to the blocks of its node allocator; [heap_step] lets a program create and
    drop allocators and allocate, move, assign and destroy handles in any
    order. *)

(** ** Scaling *)

Lemma calculateMultiplier_loop_spec fuel size b :
  is_u64 size → 0 <= b → b + Z.of_nat fuel = 64 →
  (∀ k, 0 <= k < b → MAX_BIN_SIZE < Z.shiftr size k) →
  ∃ bits, calculateMultiplier_loop fuel size b = Some bits ∧ 0 <= bits <= 64 ∧
    Z.shiftr size bits <= MAX_BIN_SIZE ∧ (∀ k, 0 <= k < bits → MAX_BIN_SIZE < Z.shiftr size k).
Proof.
  intros Hs. revert b. induction fuel as [|fuel IH]; intros b Hb Hf Hlt; simpl.
  - destruct (Z.ltb_spec MAX_BIN_SIZE (Z.shiftr size b)) as [H|H]; [|exists b; repeat split; auto; lia].
    exfalso. replace b with 64 in H by lia. unfold is_u64 in Hs. rewrite Z.shiftr_div_pow2 in H by lia.
    rewrite Z.div_small in H by lia. unfold MAX_BIN_SIZE in H. lia.
  - destruct (Z.ltb_spec MAX_BIN_SIZE (Z.shiftr size b)) as [H|H]; [|exists b; repeat split; auto; lia].
    rewrite u64_small by (unfold is_u64; lia). apply IH; [lia|lia|]. intros k Hk.
    destruct (decide (k = b)) as [->|]; [done|apply Hlt; lia].
Qed.

Lemma calculateMultiplier_spec size :
  is_u64 size →
  ∃ bits, calculateMultiplier size = Some bits ∧ 0 <= bits <= 33 ∧
    Z.shiftr size bits <= MAX_BIN_SIZE ∧ (∀ k, 0 <= k < bits → MAX_BIN_SIZE < Z.shiftr size k).
Proof.
  intros Hs. destruct (calculateMultiplier_loop_spec 64 size 0 Hs) as (bits & E & Hb & Hle & Hlt);
    [lia|done|intros; lia|]. exists bits. split; [done|]. split; [|done]. split; [lia|].
  destruct (decide (33 < bits)) as [H|]; [|lia]. specialize (Hlt 33 ltac:(lia)).
  unfold is_u64 in Hs. rewrite Z.shiftr_div_pow2 in Hlt by lia.
  pose proof (Z.div_lt_upper_bound size (2 ^ 33) (2 ^ 31) ltac:(lia) ltac:(lia)).
  unfold MAX_BIN_SIZE in Hlt. lia.
Qed.

(** The sizes for which rounding up to a multiple of the unit does not wrap. *)
Definition no_wrap (w : Wrapper) (size : Z) : Prop := 0 < size ∧ size + 2 ^ m_multiplier_bits w <= 2 ^ 64.

Lemma fakeSize_spec w size :
  0 <= m_multiplier_bits w <= 33 → no_wrap w size →
  1 <= fakeSize w size ∧
  size <= fakeSize w size * 2 ^ m_multiplier_bits w < size + 2 ^ m_multiplier_bits w.
Proof.
  intros Hb [Hs Hw]. unfold fakeSize. destruct (Z.ltb_spec 0 (m_multiplier_bits w)) as [H|H].
  - assert (2 ^ 1 <= 2 ^ m_multiplier_bits w <= 2 ^ 33) as Hp by (split; apply Z.pow_le_mono_r; lia).
    rewrite Z.shiftl_1_l, (u64_small (2 ^ _)) by (unfold is_u64; lia).
    destruct (decide (size + 2 ^ m_multiplier_bits w = 2 ^ 64)) as [E|E].
    + rewrite E. change (u64 (2 ^ 64)) with 0. change (u64 (0 - 1)) with (2 ^ 64 - 1).
      rewrite Z.shiftr_div_pow2 by lia.
      pose proof (Z.div_mod (2 ^ 64 - 1) (2 ^ m_multiplier_bits w) ltac:(lia)).
      pose proof (Z.mod_pos_bound (2 ^ 64 - 1) (2 ^ m_multiplier_bits w) ltac:(lia)). nia.
    + rewrite !u64_small by (unfold is_u64; try rewrite u64_small; unfold is_u64; lia).
      rewrite Z.shiftr_div_pow2 by lia.
      set (p := 2 ^ m_multiplier_bits w) in *. set (s := size + p - 1).
      pose proof (Z.div_mod s p ltac:(lia)). pose proof (Z.mod_pos_bound s p ltac:(lia)). nia.
  - replace (m_multiplier_bits w) with 0 by lia. rewrite Z.pow_0_r. lia.
Qed.

(** ** The invariant of one allocator

    A grant is what a handle holds: the node allocation, the address and the
    requested size. *)

Definition grant : Type := OffsetAllocation * Z * Z.
Definition g_alloc (g : grant) : OffsetAllocation := fst (fst g).
Definition g_base (g : grant) : Z := snd (fst g).
Definition g_size (g : grant) : Z := snd g.
Definition node_grant (w : Wrapper) (g : grant) : OffsetAllocation * Z := (g_alloc g, fakeSize w (g_size g)).
Definition total_size (live : list grant) : Z := foldr Z.add 0 (g_size <$> live).

Record winv (w : Wrapper) (live : list grant) : Prop := {
  wi_alloc : ∃ a L S B, w_allocator w = Some a ∧ inv a L S B ∧ owns a L (node_grant w <$> live) ∧
    m_size a = Z.shiftr (m_capacity w) (m_multiplier_bits w);
  wi_bits : 0 <= m_multiplier_bits w <= 33;
  wi_scaled : Z.shiftr (m_capacity w) (m_multiplier_bits w) <= MAX_BIN_SIZE;
  wi_region : is_u64 (m_base w) ∧ is_u64 (m_capacity w) ∧ m_base w + m_capacity w <= 2 ^ 64;
  wi_live g : g ∈ live → no_wrap w (g_size g) ∧
    g_base g = m_base w + offset (g_alloc g) * 2 ^ m_multiplier_bits w;
  wi_size : m_allocated_size w = u64 (total_size live);
  wi_num : m_allocated_num w = u64 (Z.of_nat (length live));
}.

Lemma owns_perm a L live live' : live ≡ₚ live' → owns a L live → owns a L live'.
Proof.
  intros Hp [H1 H2 H3]. split.
  - by rewrite <-Hp.
  - intros i. by rewrite <-Hp.
  - intros al s. rewrite <-Hp. apply H3.
Qed.

Lemma winv_perm w live live' : live ≡ₚ live' → winv w live → winv w live'.
Proof.
  intros Hp [(a & L & S & B & E & HI & HO & Es) H2 H3 H4 H5 H6 H7]. split; try done.
  - exists a, L, S, B. split; [done|]. split; [done|]. split; [|done]. eapply owns_perm; [|exact HO]. by rewrite Hp.
  - intros g Hg. apply H5. by rewrite Hp.
  - rewrite H6. f_equal. apply sum_Permutation. by rewrite Hp.
  - by rewrite H7, Hp.
Qed.

(** The node allocator's storage, scaled back, lies within the region. *)
Lemma winv_scaled w live a o s :
  winv w live → m_size a = Z.shiftr (m_capacity w) (m_multiplier_bits w) →
  0 <= o → 0 <= s → o + s <= m_size a →
  o * 2 ^ m_multiplier_bits w + s * 2 ^ m_multiplier_bits w <= m_capacity w.
Proof.
  intros HW Es Ho Hs Hle. pose proof (wi_bits _ _ HW). rewrite Es, Z.shiftr_div_pow2 in Hle by lia.
  assert (0 < 2 ^ m_multiplier_bits w) by (apply Z.pow_pos_nonneg; lia).
  pose proof (Z.mul_div_le (m_capacity w) (2 ^ m_multiplier_bits w) ltac:(lia)). nia.
Qed.

(** An allocation either fails and keeps every grant, or adds a new one. *)
Lemma wallocate_ok w live size :
  winv w live → no_wrap w size →
  runs (wallocate size) w (λ r w',
    m_base w' = m_base w ∧ m_capacity w' = m_capacity w ∧ m_multiplier_bits w' = m_multiplier_bits w ∧
    match r with
    | None => winv w' live
    | Some g => winv w' (g :: live) ∧ g_size g = size
    end).
Proof.
  intros HW Hs. pose proof (wi_bits _ _ HW) as Hb.
  destruct (fakeSize_spec w size Hb Hs) as [Hf1 Hf2]. unfold wallocate, runs.
  destruct (Z.eqb_spec size 0) as [->|_]; [by destruct Hs|].
  destruct (wi_alloc _ _ HW) as (a & L & S & B & E & HI & HO & Es). rewrite E.
  destruct (Z.ltb_spec MAX_BIN_SIZE (fakeSize w size)) as [Hbig|Hfit]; [by eexists _, _|].
  assert (is_u32 (fakeSize w size)) as Hu by (unfold is_u32, MAX_BIN_SIZE in *; lia).
  rewrite u32_small by done.
  destruct (allocate_ok a L S B (fakeSize w size) HI Hu) as (res & a' & Ea & Esz & Em & L' & S' & B' & HI' & HP).
  simpl. rewrite Ea. simpl.
  rewrite (alloc_post_result _ _ _ _ _ _ _ _ HI ltac:(pose proof (wi_scaled _ _ HW); unfold MAX_BIN_SIZE, NO_SPACE in *; lia) HP).
  pose proof HW as [_ H2 H3 H4 H5 H6 H7].
  case_bool_decide as Hres; eexists _, _; (split; [reflexivity|]); simpl; repeat (split; [done|]).
  - assert (L' = L ∧ ∀ i, blk a' i = blk a i) as [-> Hblk].
    { destruct HP as [(_ & -> & ? & _)|(L1 & x & L2 & rest & -> & _ & _ & _ & _ & _ & _ & -> & _)]; [done|].
      pose proof (inv_block HI x ltac:(set_solver)). injection Hres as E1 E2.
      unfold NO_SPACE, MAX_BIN_SIZE in *. lia. }
    split; try done. exists a', L, S', B'. split; [done|]. split; [done|]. split; [|simpl; congruence].
    by apply (owns_ext a).
  - destruct HP as [(-> & _)|(L1 & x & L2 & rest & -> & -> & [_ Hux] & Hr & Hr' & Hrest & _ & -> & Hx & Hblk & _)]; [done|].
    pose proof (inv_block HI x ltac:(set_solver)) as Hbx. injection Hx as Eo Esz' Eu. split; [|done].
    assert (0 < 2 ^ m_multiplier_bits w) by (apply Z.pow_pos_nonneg; lia).
    pose proof (winv_scaled w live a (off a x) 1 HW Es ltac:(lia) ltac:(lia) ltac:(simpl in *; lia)) as Hsc.
    unfold is_u64 in H4. split; try done; simpl.
    + exists a', (L1 ++ x :: rest ++ L2), S', B'. split; [done|]. split; [done|]. split; [|simpl; congruence].
      apply (owns_alloc a); try done. simpl in Hr. rewrite Esz'. exact Hr.
    + intros g [->|Hg]%elem_of_cons; [|by apply H5]. split; [done|]. unfold g_base, g_alloc, getOffset. simpl.
      rewrite Z.shiftl_mul_pow2 by lia.
      rewrite (u64_small (off a x * _)) by (unfold is_u64; nia). rewrite u64_small by (unfold is_u64; nia). done.
    + rewrite H6, u64_add_l. f_equal. unfold total_size. rewrite fmap_cons. cbn [foldr g_size snd]. lia.
    + rewrite H7, u64_add_l. f_equal. lia.
Qed.

(** Releasing a grant removes it. *)
Lemma freeAllocation_ok w live1 g live2 :
  winv w (live1 ++ g :: live2) →
  runs (freeAllocation (g_alloc g) (g_size g)) w (λ _ w',
    m_base w' = m_base w ∧ m_capacity w' = m_capacity w ∧ m_multiplier_bits w' = m_multiplier_bits w ∧
    winv w' (live1 ++ live2)).
Proof.
  intros HW. destruct (wi_alloc _ _ HW) as (a & L & S & B & E & HI & HO & Es).
  unfold freeAllocation, runs. rewrite E. set (x := metadata (g_alloc g)).
  destruct (proj1 (owns_used _ _ _ HO x)) as [Hl Hu].
  { rewrite <-list_fmap_compose. apply list_elem_of_fmap. exists g. split; [done|set_solver]. }
  apply list_elem_of_split in Hl as (L1 & L2 & ->).
  destruct (free_ok a L1 x L2 S B (offset (g_alloc g)) HI Hu)
    as ([] & a' & Ef & L1' & L2' & S' & B' & HI' & (Es' & _) & Ht1 & Ht2 & Hu' & Hb & _).
  replace (mkOffsetAllocation (offset (g_alloc g)) x) with (g_alloc g) in Ef
    by (unfold x; by destruct (g_alloc g)).
  rewrite Ef. simpl. eexists _, _. split; [reflexivity|]. simpl. repeat (split; [done|]).
  pose proof HW as [_ H2 H3 H4 H5 H6 H7]. split; try done; simpl.
  - exists a', (L1' ++ x :: L2'), S', B'. split; [done|]. split; [done|]. split; [|congruence].
    rewrite fmap_app in *. rewrite fmap_cons in HO.
    apply (owns_free a a' L1 x L2 L1' L2' _ _ (g_alloc g) (fakeSize w (g_size g))); try done.
    pose proof (inv_nodup HI) as Hnd. by apply NoDup_app in Hnd as (? & _).
  - intros g' Hg'. apply H5. set_solver.
  - rewrite H6, u64_sub_l. f_equal. unfold total_size.
    rewrite (sum_Permutation (g_size <$> live1 ++ g :: live2) (g_size <$> g :: live1 ++ live2))
      by (by rewrite Permutation_middle). rewrite fmap_cons. cbn [foldr]. lia.
  - rewrite H7, u64_sub_l. f_equal. rewrite !length_app. simpl. lia.
Qed.

Lemma create_ok base size init_capacity max_capacity :
  is_u64 base → is_u64 size → base + size <= 2 ^ 64 →
  1 <= init_capacity → Z.max init_capacity max_capacity <= unused →
  ∃ w, create base size init_capacity max_capacity = Some w ∧ winv w [] ∧
    m_base w = base ∧ m_capacity w = size.
Proof.
  intros Hb Hu Hbs Hi Hm.
  destruct (calculateMultiplier_spec size Hu) as (bits & E & Hbits & Hle & _).
  assert (0 <= Z.shiftr size bits) by (apply Z.shiftr_nonneg, Hu).
  destruct (newAllocator_ok (Z.shiftr size bits) init_capacity max_capacity) as (a & B & En & HI & Hblk & Hsz & _);
    [unfold is_u32, MAX_BIN_SIZE in *; lia|done|done|].
  exists (mkWrapper (Some a) base bits size 0 0). split.
  { apply bind_Some. exists bits. split; [exact E|]. apply bind_Some. exists a. split; [|done].
    rewrite u32_small by (unfold is_u32, MAX_BIN_SIZE in *; lia). exact En. }
  split; [|done].
  split; simpl; try done.
  - eexists a, _, _, B. split; [done|]. split; [exact HI|]. split; [|done].
    injection Hblk as _ _ Hus. split; [constructor| |set_solver].
    intros i. simpl. rewrite list_elem_of_singleton. split; [set_solver|]. intros [-> ?]. congruence.
  - set_solver.
Qed.

(** ** Programs that use handles

    The state is the heap of live allocators and the bag of handle objects in
    scope; a step is one operation on them. *)

Definition granted (k : nat) (hs : list Handle) : list grant :=
  omap (λ x, if decide (h_allocator x = Some k)
             then Some (h_allocation x, real_base x, requested_size x) else None) hs.

#[global] Arguments granted : simpl never.

Definition HState : Type := gmap nat Wrapper * list Handle.

Inductive heap_step : HState → HState → Prop :=
| hs_create h hs k base size init_capacity max_capacity w :
    h !! k = None → granted k hs = [] →
    is_u64 base → is_u64 size → base + size <= 2 ^ 64 →
    1 <= init_capacity → Z.max init_capacity max_capacity <= unused →
    create base size init_capacity max_capacity = Some w →
    heap_step (h, hs) (<[k := w]> h, hs)
| hs_drop h hs k :
    heap_step (h, hs) (delete k h, hs)
| hs_allocate h h' hs k w size x :
    h !! k = Some w → no_wrap w size →
    hallocate k size h = Some (Some x, h') → heap_step (h, hs) (h', x :: hs)
| hs_allocate_fails h h' hs k w size :
    h !! k = Some w → no_wrap w size →
    hallocate k size h = Some (None, h') → heap_step (h, hs) (h', hs)
| hs_move h hs x rest :
    hs ≡ₚ x :: rest → heap_step (h, hs) (h, fst (handle_move x) :: snd (handle_move x) :: rest)
| hs_assign h h' hs this other rest this' other' :
    hs ≡ₚ this :: other :: rest → handle_move_assign this other h = Some ((this', other'), h') →
    heap_step (h, hs) (h', this' :: other' :: rest)
| hs_destroy h h' hs x rest :
    hs ≡ₚ x :: rest → handle_destroy x h = Some (tt, h') → heap_step (h, hs) (h', rest).

Inductive heap_reach : HState → Prop :=
| heap_init : heap_reach (∅, [])
| heap_next s s' : heap_reach s → heap_step s s' → heap_reach s'.

(** Every live allocator's grants are the ones its handles hold. *)
Definition heap_inv (s : HState) : Prop :=
  ∀ k w, fst s !! k = Some w → winv w (granted k (snd s)).

Lemma granted_cons k x hs :
  granted k (x :: hs) =
  (if decide (h_allocator x = Some k) then [(h_allocation x, real_base x, requested_size x)] else []) ++ granted k hs.
Proof. unfold granted. simpl. by destruct (decide _). Qed.

Lemma granted_perm k hs hs' : hs ≡ₚ hs' → granted k hs ≡ₚ granted k hs'.
Proof. intros Hp. unfold granted. by rewrite Hp. Qed.

Lemma heap_inv_perm h hs hs' : hs ≡ₚ hs' → heap_inv (h, hs) → heap_inv (h, hs').
Proof. intros Hp HI k w E. eapply winv_perm; [by apply granted_perm|by apply HI]. Qed.

(** Releasing a handle: safe, and the handle's grant is gone. *)
Lemma release_ok h x rest :
  heap_inv (h, x :: rest) → runs (release x) h (λ _ h', heap_inv (h', rest)).
Proof.
  intros HI. unfold release, runs. destruct (h_allocator x) as [k|] eqn:Ek.
  - assert (∀ k', k' ≠ k → granted k' (x :: rest) = granted k' rest) as Hne.
    { intros k' Hk. rewrite granted_cons, decide_False by congruence. done. }
    destruct (h !! k) as [w|] eqn:Ew.
    + pose proof (HI k w Ew) as HW. simpl in HW. rewrite granted_cons, decide_True in HW by done. simpl in HW.
      destruct (freeAllocation_ok w [] (h_allocation x, real_base x, requested_size x) (granted k rest) HW)
        as ([] & w' & Ef & _ & _ & _ & HW'). simpl in HW'.
      unfold on_alloc. rewrite Ew. simpl. unfold g_alloc, g_size in Ef. simpl in Ef. rewrite Ef. simpl.
      eexists _, _. split; [done|]. intros k' w1 E. simpl in *. destruct (decide (k' = k)) as [->|Hk].
      * rewrite lookup_insert_eq in E. by simplify_eq.
      * rewrite lookup_insert_ne in E by done. rewrite <-Hne by done. by apply (HI k' w1).
    + eexists _, _. split; [done|]. intros k' w1 E. simpl in *.
      rewrite <-Hne by congruence. by apply (HI k' w1).
  - eexists _, _. split; [done|]. intros k' w1 E. simpl in *. specialize (HI k' w1 E). simpl in HI.
    by rewrite granted_cons, decide_False in HI by congruence.
Qed.

Lemma hallocate_ok h hs k w size :
  heap_inv (h, hs) → h !! k = Some w → no_wrap w size →
  runs (hallocate k size) h (λ r h',
    match r with None => heap_inv (h', hs) | Some x => heap_inv (h', x :: hs) ∧ requested_size x = size end).
Proof.
  intros HI Ew Hs.
  destruct (wallocate_ok w _ size (HI k w Ew) Hs) as (r & w' & Ea & _ & _ & _ & HW).
  unfold runs, hallocate, mbind, st_bind, on_alloc. rewrite Ew. simpl. rewrite Ea. simpl.
  eexists _, _. split; [done|].
  assert (∀ k' w1, k' ≠ k → <[k := w']> h !! k' = Some w1 → winv w1 (granted k' hs)) as Hne.
  { intros k' w1 Hk. rewrite lookup_insert_ne by done. apply (HI k' w1). }
  destruct r as [[[al b] s]|]; simpl.
  - destruct HW as [HW Es]. split; [|done]. intros k' w1 E. simpl in *. rewrite granted_cons.
    destruct (decide (k' = k)) as [->|Hk].
    + rewrite lookup_insert_eq in E. simplify_eq. by rewrite decide_True.
    + rewrite decide_False by (simpl; congruence). by apply Hne.
  - intros k' w1 E. destruct (decide (k' = k)) as [->|Hk]; [|by apply Hne].
    simpl in E. rewrite lookup_insert_eq in E. by simplify_eq.
Qed.

Lemma heap_inv_step s s' : heap_inv s → heap_step s s' → heap_inv s'.
Proof.
  intros HI Hst. destruct Hst as
    [h hs k base size ic mc w Hk Hg Hb Hu Hbs Hi Hm E|h hs k|h h' hs k w size x Ew Hs E|
     h h' hs k w size Ew Hs E|h hs x rest Hp|h h' hs this other rest this' other' Hp E|h h' hs x rest Hp E].
  - intros k' w1 E1. simpl in *. destruct (decide (k' = k)) as [->|Hne].
    + rewrite lookup_insert_eq in E1. simplify_eq. rewrite Hg.
      destruct (create_ok base size ic mc) as (w & E2 & HW & _); [done..|]. by simplify_eq.
    + rewrite lookup_insert_ne in E1 by done. by apply HI.
  - intros k' w1 E1. simpl in *. apply lookup_delete_Some in E1 as [_ E1]. by apply HI.
  - by apply (runs_det _ _ _ _ _ (hallocate_ok h hs k w size HI Ew Hs)) in E as [? _].
  - by apply (runs_det _ _ _ _ _ (hallocate_ok h hs k w size HI Ew Hs)) in E.
  - apply (heap_inv_perm _ _ _ Hp) in HI. intros k w E. specialize (HI k w E). simpl in *.
    by rewrite !granted_cons in *.
  - apply (heap_inv_perm _ _ _ Hp) in HI. unfold handle_move_assign, mbind, st_bind in E.
    destruct (release_ok _ _ _ HI) as ([] & h1 & Er & HI1). rewrite Er in E. unfold mret, st_ret in E. simplify_eq/=.
    intros k w Ew. specialize (HI1 k w Ew). simpl in *. by rewrite !granted_cons in *.
  - apply (heap_inv_perm _ _ _ Hp) in HI. unfold handle_destroy in E.
    exact (runs_det _ _ _ _ _ (release_ok _ _ _ HI) E).
Qed.

Lemma heap_reach_inv s : heap_reach s → heap_inv s.
Proof. induction 1 as [|s s' _ IH Hst]; [by intros k w E|by eapply heap_inv_step]. Qed.

(** The grants of an allocator: scaled sizes and positions of its used blocks. *)
Lemma winv_grant w live g :
  winv w live → g ∈ live →
  m_base w <= g_base g ∧ g_base g + g_size g <= m_base w + m_capacity w.
Proof.
  intros HW Hg. destruct (wi_alloc _ _ HW) as (a & L & S & B & E & HI & HO & Es).
  destruct (wi_live _ _ HW g Hg) as [Hnw ->].
  destruct (fakeSize_spec w (g_size g) (wi_bits _ _ HW) Hnw) as [_ Hf].
  destruct (live_node _ _ _ _ _ _ _ HI HO (list_elem_of_fmap_2 (node_grant w) _ _ Hg)) as (k & Hk & Ho & Hs & _).
  pose proof (inv_block HI _ (list_elem_of_lookup_2 _ _ _ Hk)) as Hb. rewrite Ho.
  set (i := metadata (g_alloc g)) in *.
  pose proof (winv_scaled w live a (off a i) (sz a i) HW Es ltac:(lia) ltac:(lia) ltac:(lia)) as Hsc.
  assert (0 < 2 ^ m_multiplier_bits w) by (apply Z.pow_pos_nonneg; [lia|]; apply (wi_bits _ _ HW)). nia.
Qed.

Lemma winv_disjoint w live i j g1 g2 :
  winv w live → live !! i = Some g1 → live !! j = Some g2 → i ≠ j →
  g_base g1 + g_size g1 <= g_base g2 ∨ g_base g2 + g_size g2 <= g_base g1.
Proof.
  intros HW Hi Hj Hij. destruct (wi_alloc _ _ HW) as (a & L & S & B & E & HI & HO & Es).
  assert (∀ k g, live !! k = Some g → (node_grant w <$> live) !! k = Some (node_grant w g)) as Hl.
  { intros k g Hk. by rewrite list_lookup_fmap, Hk. }
  pose proof (owned_disjoint a L S B _ i j _ _ _ _ HI HO (Hl _ _ Hi) (Hl _ _ Hj) Hij) as Hd.
  destruct (wi_live _ _ HW g1 (list_elem_of_lookup_2 _ _ _ Hi)) as [Hn1 ->].
  destruct (wi_live _ _ HW g2 (list_elem_of_lookup_2 _ _ _ Hj)) as [Hn2 ->].
  destruct (fakeSize_spec w (g_size g1) (wi_bits _ _ HW) Hn1) as [_ Hf1].
  destruct (fakeSize_spec w (g_size g2) (wi_bits _ _ HW) Hn2) as [_ Hf2].
  destruct (live_node _ _ _ _ _ _ _ HI HO (list_elem_of_lookup_2 _ _ _ (Hl _ _ Hi))) as (k1 & _ & _ & Hs1 & E1).
  destruct (live_node _ _ _ _ _ _ _ HI HO (list_elem_of_lookup_2 _ _ _ (Hl _ _ Hj))) as (k2 & _ & _ & Hs2 & E2).
  rewrite E1, E2 in Hd. assert (0 < 2 ^ m_multiplier_bits w) by (apply Z.pow_pos_nonneg; [lia|]; apply (wi_bits _ _ HW)).
  nia.
Qed.

Lemma total_size_bound w a live :
  0 <= m_multiplier_bits w <= 33 →
  (∀ g, g ∈ live → no_wrap w (g_size g) ∧ fakeSize w (g_size g) <= allocationSize a (g_alloc g)) →
  0 <= total_size live <=
    foldr Z.add 0 ((λ h, allocationSize a (fst h)) <$> (node_grant w <$> live)) * 2 ^ m_multiplier_bits w.
Proof.
  intros Hb. assert (0 < 2 ^ m_multiplier_bits w) by (apply Z.pow_pos_nonneg; lia).
  induction live as [|g live IH]; intros Hl; [unfold total_size; simpl; lia|].
  specialize (IH ltac:(intros g' Hg'; apply Hl; by right)). destruct (Hl g ltac:(left)) as [Hn Hf].
  destruct (fakeSize_spec w (g_size g) Hb Hn) as [_ Hs]. destruct Hn.
  unfold total_size in *. rewrite !fmap_cons. cbn [foldr]. cbn [node_grant fst]. nia.
Qed.

(** The counters are exact: the grants fit the region, so they never wrap. *)
Lemma winv_counters w live :
  winv w live →
  m_allocated_size w = total_size live ∧ total_size live <= m_capacity w ∧
  m_allocated_num w = Z.of_nat (length live).
Proof.
  intros HW. destruct (wi_alloc _ _ HW) as (a & L & S & B & E & HI & HO & Es).
  pose proof (wi_region _ _ HW) as Hr. unfold is_u64 in Hr. pose proof (wi_bits _ _ HW) as Hb.
  assert (0 <= total_size live <= m_capacity w) as Ht.
  { pose proof (total_size_bound w a live Hb) as Hts.
    rewrite (live_sizes _ _ _ _ _ HI HO) in Hts.
    destruct (inv_blocks _ _ _ _ HI) as [Hti _]. pose proof (tiles_sum _ _ _ Hti). pose proof (sums_nonneg _ _ _ Hti).
    assert (0 * 2 ^ m_multiplier_bits w + used_sum (blk a <$> L) * 2 ^ m_multiplier_bits w <= m_capacity w) as Hsc
      by (apply (winv_scaled w live a); [done|done|lia..]).
    assert (0 <= total_size live <= used_sum (blk a <$> L) * 2 ^ m_multiplier_bits w); [|lia].
    apply Hts. intros g Hg. destruct (wi_live _ _ HW g Hg) as [Hn _]. split; [done|].
    destruct (live_node _ _ _ _ _ _ _ HI HO (list_elem_of_fmap_2 (node_grant w) _ _ Hg)) as (_ & _ & _ & Hs & E').
    simpl in E'. rewrite E'. simpl in Hs. lia. }
  assert (Z.of_nat (length live) < 2 ^ 32) as Hlen.
  { rewrite <-(length_fmap (node_grant w)), <-(length_fmap node_of).
    assert (length (node_of <$> (node_grant w <$> live)) <= length L)%nat as Hle.
    { apply submseteq_length, NoDup_submseteq; [apply (owns_nodup _ _ _ HO)|].
      intros i Hi. by apply (owns_used _ _ _ HO) in Hi as [? _]. }
    pose proof (inv_length HI). pose proof (inv_cap _ _ _ _ HI). pose proof (inv_max HI) as Hm. unfold unused in Hm. lia. }
  split; [|split; [lia|]].
  - rewrite (wi_size _ _ HW). apply u64_small. unfold is_u64. lia.
  - rewrite (wi_num _ _ HW). apply u64_small. unfold is_u64. lia.
Qed.

(** ** The theorems *)

(** Every use of handles is safe: in every reachable state, allocating on a
    live allocator, destroying any handle and move-assigning one handle over
    another return, without an access outside the allocator's arrays; no
    sequence of moves, assignments and destructions frees a block twice. *)
Theorem handles_memory_safe h hs :
  heap_reach (h, hs) →
  (∀ k w size, h !! k = Some w → no_wrap w size → ∃ r, hallocate k size h = Some r) ∧
  (∀ x, x ∈ hs → ∃ h', handle_destroy x h = Some (tt, h')) ∧
  (∀ this other rest, hs ≡ₚ this :: other :: rest → ∃ r, handle_move_assign this other h = Some r).
Proof.
  intros HI%heap_reach_inv. split; [|split].
  - intros k w size Ew Hs. destruct (hallocate_ok h hs k w size HI Ew Hs) as (r & h' & E & _). eauto.
  - intros x (l1 & l2 & ->)%list_elem_of_split.
    assert (heap_inv (h, x :: l1 ++ l2)) as HI' by (eapply heap_inv_perm; [|exact HI]; by rewrite Permutation_middle).
    destruct (release_ok _ _ _ HI') as ([] & h' & E & _). eauto.
  - intros this other rest Hp. apply (heap_inv_perm _ _ _ Hp) in HI.
    destruct (release_ok _ _ _ HI) as ([] & h' & E & _).
    unfold handle_move_assign, mbind, st_bind. rewrite E. eauto.
Qed.

(** The memory ranges of two handles of one allocator are disjoint and lie
    inside the region the allocator manages, at its full requested size. *)
Theorem handles_disjoint h hs k w i j g1 g2 :
  heap_reach (h, hs) → h !! k = Some w →
  granted k hs !! i = Some g1 → granted k hs !! j = Some g2 → i ≠ j →
  (m_base w <= g_base g1 ∧ g_base g1 + g_size g1 <= m_base w + m_capacity w) ∧
  (g_base g1 + g_size g1 <= g_base g2 ∨ g_base g2 + g_size g2 <= g_base g1).
Proof.
  intros HI%heap_reach_inv Ew Hi Hj Hij. specialize (HI k w Ew). simpl in HI.
  split; [|by eapply winv_disjoint]. eapply winv_grant; [done|]. by eapply list_elem_of_lookup_2.
Qed.

(** The metrics are exact: the counters of a live allocator are the number
    and the total requested size of the handles that refer to it. *)
Theorem handles_metrics_exact h hs k w :
  heap_reach (h, hs) → h !! k = Some w →
  allocated_size_ (get_metrics w) = total_size (granted k hs) ∧
  allocated_num_ (get_metrics w) = Z.of_nat (length (granted k hs)) ∧
  total_size (granted k hs) <= metrics_capacity (get_metrics w).
Proof.
  intros HI%heap_reach_inv Ew. specialize (HI k w Ew). simpl in HI.
  destruct (winv_counters _ _ HI) as (H1 & H2 & H3).
  destruct (wi_alloc _ _ HI) as (a & _ & _ & _ & E & _). unfold get_metrics. rewrite E. simpl. lia.
Qed.

(** ** Rounding wraps for sizes next to 2^64

    [allocate] adds the unit before shifting: sizes above [2^64 - 2^bits]
    become zero units, and the allocator hands out an empty block for them. *)

Lemma fakeSize_wraps w size :
  1 <= m_multiplier_bits w <= 33 → 2 ^ 64 - 2 ^ m_multiplier_bits w < size < 2 ^ 64 → fakeSize w size = 0.
Proof.
  intros Hb Hs. unfold fakeSize. destruct (Z.ltb_spec 0 (m_multiplier_bits w)); [|lia].
  assert (2 ^ 1 <= 2 ^ m_multiplier_bits w <= 2 ^ 33) as Hp by (split; apply Z.pow_le_mono_r; lia).
  rewrite Z.shiftl_1_l, (u64_small (2 ^ _)) by (unfold is_u64; lia). set (p := 2 ^ m_multiplier_bits w) in *.
  assert (u64 (size + p) = size + p - 2 ^ 64) as ->.
  { unfold u64. symmetry. apply (Z.mod_unique_pos _ _ 1); lia. }
  rewrite u64_small by (unfold is_u64; lia). rewrite Z.shiftr_div_pow2 by lia. apply Z.div_small. fold p. lia.
Qed.

Definition demo_w : Wrapper := Eval vm_compute in
  default (mkWrapper None 0 0 0 0 0) (create 4096 (2 ^ 33) 4 8).

Lemma demo_w_create : create 4096 (2 ^ 33) 4 8 = Some demo_w.
Proof. vm_compute. reflexivity. Qed.

(** An 8 GiB region serves a request of [2^64 - 1] bytes: the handle claims
    more memory than the allocator manages. *)
Theorem allocate_accepts_oversized :
  ∃ g w', wallocate (2 ^ 64 - 1) demo_w = Some (Some g, w') ∧ m_capacity demo_w < g_size g.
Proof. eexists _, _. split; vm_compute; reflexivity. Qed.

(** ** A concrete program: two handles on one allocator, one of them moved *)

Definition demo_heap (h : gmap nat Wrapper) (hs : list Handle) (size : Z) : HState :=
  match hallocate 0 size h with
  | Some (Some x, h') => (h', x :: hs)
  | _ => (h, hs)
  end.

Definition demo_s0 : HState := ({[0%nat := demo_w]}, []).
Definition demo_s1 : HState := Eval vm_compute in demo_heap (fst demo_s0) (snd demo_s0) 1000000.
Definition demo_s2 : HState := Eval vm_compute in demo_heap (fst demo_s1) (snd demo_s1) 5000.

Lemma demo_s2_reach : heap_reach demo_s2.
Proof.
  apply (heap_next demo_s1); [apply (heap_next demo_s0); [apply (heap_next (∅, [])); [constructor|]|]|].
  - eapply (hs_create ∅ [] 0 4096 (2 ^ 33) 4 8); [done|done|unfold is_u64; lia|unfold is_u64; lia|lia|lia|unfold unused; lia|].
    apply demo_w_create.
  - eapply (hs_allocate _ _ [] 0 demo_w 1000000); [reflexivity|split; vm_compute; congruence|].
    vm_compute. reflexivity.
  - eapply (hs_allocate (fst demo_s1) _ (snd demo_s1) 0 _ 5000);
      [vm_compute; reflexivity|split; vm_compute; congruence|vm_compute; reflexivity].
Qed.

Lemma handles_memory_safe_witness :
  ∃ r, hallocate 0 77 (fst demo_s2) = Some r.
Proof.
  destruct (handles_memory_safe (fst demo_s2) (snd demo_s2) demo_s2_reach) as [H _].
  eapply H; [vm_compute; reflexivity|]. split; vm_compute; congruence.
Defined.

Lemma handles_disjoint_witness :
  ∃ g1 g2, granted 0 (snd demo_s2) !! 0%nat = Some g1 ∧ granted 0 (snd demo_s2) !! 1%nat = Some g2 ∧
    (g_base g1 + g_size g1 <= g_base g2 ∨ g_base g2 + g_size g2 <= g_base g1).
Proof.
  eexists _, _. split; [vm_compute; reflexivity|]. split; [vm_compute; reflexivity|].
  eapply (handles_disjoint (fst demo_s2) (snd demo_s2) 0 _ 0 1 _ _ demo_s2_reach);
    [vm_compute; reflexivity|vm_compute; reflexivity|vm_compute; reflexivity|discriminate].
Defined.

Lemma handles_metrics_exact_witness :
  ∃ w, fst demo_s2 !! 0%nat = Some w ∧ allocated_num_ (get_metrics w) = 2.
Proof.
  eexists. split; [vm_compute; reflexivity|].
  eapply (handles_metrics_exact (fst demo_s2) (snd demo_s2) 0 _ demo_s2_reach). vm_compute. reflexivity.
Defined.
