(* ===== verification/OffsetTyped.v ===== *)
(** * OffsetTyped: the machine types of the node allocator

    [wt] says that every field holds a value of its C++ type: 32-bit indices
    and sizes, 8-bit masks, arrays of their declared length, and a free-list
    slot for every index below the current capacity.  Every operation preserves
    it, whatever its arguments and whatever the state, because each write is a
    value of the right width. *)

From S2P Require Import Prelude SmallFloat OffsetAllocator.
Open Scope Z_scope.
Open Scope u32_scope.

Definition is_u8 (z : Z) : Prop := 0 <= z < 2 ^ 8.

Record node_wt (n : Node) : Prop := {
  nw_offset : is_u32 (dataOffset n);
  nw_size : is_u32 (dataSize n);
  nw_bp : is_u32 (binListPrev n);
  nw_bn : is_u32 (binListNext n);
  nw_np : is_u32 (neighborPrev n);
  nw_nn : is_u32 (neighborNext n);
}.

Record wt (a : Allocator) : Prop := {
  wt_size : is_u32 (m_size a);
  wt_cur : is_u32 (m_current_capacity a);
  wt_max : is_u32 (m_max_capacity a);
  wt_storage : is_u32 (m_freeStorage a);
  wt_top : is_u32 (m_usedBinsTop a);
  wt_used : length (m_usedBins a) = 32%nat ∧ Forall is_u8 (m_usedBins a);
  wt_bins : length (m_binIndices a) = 256%nat ∧ Forall is_u32 (m_binIndices a);
  wt_nodes i n : m_nodes a !! i = Some n → node_wt n;
  wt_free k v : m_freeNodes a !! k = Some v → is_u32 v;
  wt_dom k : 0 <= k < m_current_capacity a → is_Some (m_freeNodes a !! k);
  wt_fo : is_u32 (m_freeOffset a);
}.

Lemma u8_range z : is_u8 (u8 z).
Proof. by apply Z.mod_pos_bound. Qed.

Lemma unused_u32 : is_u32 unused.
Proof. done. Qed.

Lemma no_space_u32 : is_u32 NO_SPACE.
Proof. done. Qed.

Lemma default_wt : node_wt defaultNode.
Proof. done. Qed.

Lemma node_at_wt a i : wt a → node_wt (node_at a i).
Proof.
  intros H. unfold node_at. destruct (m_nodes a !! i) as [n|] eqn:E; [by apply (wt_nodes _ H i)|apply default_wt].
Qed.

(** ** Typed computations *)

Definition typed {A} (m : ST Allocator A) (P : A → Prop) : Prop :=
  ∀ a x a', wt a → m a = Some (x, a') → wt a' ∧ P x.

Section typed.
Context {A B : Type}.
Implicit Types (P : A → Prop) (Q : B → Prop).

Lemma typed_ret (x : A) P : P x → typed (mret x) P.
Proof. intros HP a y a' Hw [= <- <-]. done. Qed.

Lemma typed_bind (m : ST Allocator A) (k : A → ST Allocator B) P Q :
  typed m P → (∀ x, P x → typed (k x) Q) → typed (m ≫= k) Q.
Proof.
  intros Hm Hk a y a' Hw E. unfold mbind, st_bind in E. destruct (m a) as [[x a1]|] eqn:E1; [|done].
  destruct (Hm a x a1 Hw E1) as [Hw1 Px]. by apply (Hk x Px a1).
Qed.

Lemma typed_gets (f : Allocator → A) P : (∀ a, wt a → P (f a)) → typed (gets f) P.
Proof. intros Hf a x a' Hw [= <- <-]. auto. Qed.

Lemma typed_mono (m : ST Allocator A) P (P' : A → Prop) : typed m P → (∀ x, P x → P' x) → typed m P'.
Proof. intros Hm HP a x a' Hw E. destruct (Hm a x a' Hw E). auto. Qed.
End typed.

Lemma typed_modify (f : Allocator → Allocator) : (∀ a, wt a → wt (f a)) → typed (modify f) (λ _, True).
Proof. intros Hf a x a' Hw [= <- <-]. auto. Qed.

Lemma typed_when (b : bool) m : typed m (λ _, True) → typed (when b m) (λ _, True).
Proof. intros Hm. destruct b; [done|]. by apply typed_ret. Qed.

Lemma typed_if {A} (b : bool) (m1 m2 : ST Allocator A) P :
  typed m1 P → typed m2 P → typed (if b then m1 else m2) P.
Proof. by destruct b. Qed.

(** ** The accesses *)

Lemma typed_getNode i : typed (getNode i) node_wt.
Proof. intros a x a' Hw. unfold getNode. destruct (in_array a i); [|done]. intros [= <- <-]. auto using node_at_wt. Qed.

Lemma typed_modNode i f : (∀ n, node_wt n → node_wt (f n)) → typed (modNode i f) (λ _, True).
Proof.
  intros Hf a x a' Hw. unfold modNode. destruct (in_array a i); [|done]. intros [= <- <-]. split; [|done].
  pose proof (node_at_wt a i Hw) as Hn. destruct Hw as [? ? ? ? ? ? ? Hnodes ? ? ?]. split; simpl; try done.
  intros j n [[-> <-]|[_ E]]%lookup_insert_Some; [by apply Hf|by apply (Hnodes j)].
Qed.

Lemma typed_getFree k : typed (getFree k) is_u32.
Proof.
  intros a x a' Hw. unfold getFree. destruct (in_array a k); [|done].
  destruct (m_freeNodes a !! k) as [v|] eqn:E; [|done]. intros [= <- <-]. split; [done|]. by apply (wt_free _ Hw k).
Qed.

Lemma typed_setFree k v : is_u32 v → typed (setFree k v) (λ _, True).
Proof.
  intros Hv a x a' Hw. unfold setFree. destruct (in_array a k); [|done]. intros [= <- <-]. split; [|done].
  destruct Hw as [? ? ? ? ? ? ? ? Hfree Hdom ?]. split; simpl; try done.
  - intros j w [[-> <-]|[_ E]]%lookup_insert_Some; [done|by apply (Hfree j)].
  - intros j Hj. rewrite lookup_insert. case_decide; [done|by apply Hdom].
Qed.

Lemma typed_getBin b : typed (getBin b) is_u32.
Proof.
  intros a x a' Hw. unfold getBin. destruct (0 <=? b); [|done].
  destruct (m_binIndices a !! Z.to_nat b) as [v|] eqn:E; [|done]. intros [= <- <-]. split; [done|].
  destruct (wt_bins _ Hw) as [_ HF]. by eapply Forall_lookup_1.
Qed.

Lemma typed_setBin b v : is_u32 v → typed (setBin b v) (λ _, True).
Proof.
  intros Hv a x a' Hw. unfold setBin. destruct (_ && _); [|done]. intros [= <- <-]. split; [|done].
  destruct Hw as [? ? ? ? ? ? [Hl HF] ? ? ? ?]. split; simpl; try done.
  split; [by rewrite length_insert|by apply Forall_insert].
Qed.

Lemma typed_getUsed t : typed (getUsed t) (λ _, True).
Proof.
  intros a x a' Hw. unfold getUsed. destruct (0 <=? t); [|done].
  destruct (m_usedBins a !! Z.to_nat t); [|done]. by intros [= <- <-].
Qed.

Lemma typed_setUsed t v : typed (setUsed t v) (λ _, True).
Proof.
  intros a x a' Hw. unfold setUsed. destruct (_ && _); [|done]. intros [= <- <-]. split; [|done].
  destruct Hw as [? ? ? ? ? [Hl HF] ? ? ? ? ?]. split; simpl; try done.
  split; [by rewrite length_insert|apply Forall_insert; [done|apply u8_range]].
Qed.

(** Writes of a single scalar field. *)
Ltac wt_field := intros ? []; split; simpl; auto with mooncake.

Lemma wt_set_freeStorage v a : is_u32 v → wt a → wt (set_freeStorage v a).
Proof. intros Hv. revert a. wt_field. Qed.
Lemma wt_set_freeOffset v a : is_u32 v → wt a → wt (set_freeOffset v a).
Proof. intros Hv. revert a. wt_field. Qed.
Lemma wt_set_usedBinsTop v a : is_u32 v → wt a → wt (set_usedBinsTop v a).
Proof. intros Hv. revert a. wt_field. Qed.

Lemma lor_u32 a b : is_u32 a → is_u32 b → is_u32 (Z.lor a b).
Proof.
  unfold is_u32. intros Ha Hb. split; [apply Z.lor_nonneg; lia|].
  destruct (decide (Z.lor a b = 0)) as [->|]; [lia|].
  apply Z.log2_lt_pow2; [pose proof (Z.lor_nonneg a b); lia|].
  rewrite Z.log2_lor by lia. apply Z.max_lub_lt.
  - destruct (decide (a = 0)) as [->|]; [done|]. apply Z.log2_lt_pow2; lia.
  - destruct (decide (b = 0)) as [->|]; [done|]. apply Z.log2_lt_pow2; lia.
Qed.

Lemma land_u32 a b : is_u32 a → is_u32 (Z.land a b).
Proof.
  unfold is_u32. intros Ha.
  assert (Z.land a b = Z.land a b mod 2 ^ 32) as ->; [|by apply Z.mod_pos_bound].
  rewrite <-Z.land_ones, <-Z.land_assoc, (Z.land_comm b), Z.land_assoc, Z.land_ones, Z.mod_small by lia. done.
Qed.

(** The hints that type the operations: rules for the accesses, and range facts
    for the values they write. *)
Create HintDb typed.
#[export] Hint Resolve typed_getNode typed_getFree typed_getBin typed_getUsed typed_setUsed : typed.
#[export] Hint Resolve typed_setFree typed_setBin : typed.
#[export] Hint Resolve unused_u32 u32_range lor_u32 land_u32 wt_top wt_storage wt_fo wt_cur wt_max wt_size no_space_u32 : typed.
#[export] Hint Resolve nw_offset nw_size nw_bp nw_bn nw_np nw_nn : typed.
#[export] Hint Resolve wt_set_freeStorage wt_set_freeOffset wt_set_usedBinsTop : typed.
#[export] Hint Extern 1 (typed (modify _) _) => apply typed_modify; intros : typed.
#[export] Hint Extern 1 (is_u32 (_ mod _)) => apply u32_range : typed.

Lemma typed_gets_u32 (f : Allocator → Z) : (∀ a, wt a → is_u32 (f a)) → typed (gets f) is_u32.
Proof. apply typed_gets. Qed.

(** Walk through a computation by its syntax: plumbing by the rules above,
    accesses and calls by the hints, ranges by [auto]. *)
Ltac typed_tac :=
  cbv zeta;
  repeat lazymatch goal with
  | |- typed (_ ≫= _) _ => eapply typed_bind; [|intros ? ?; cbv zeta]
  | |- typed (if _ then _ else _) _ => apply typed_if
  | |- typed (when _ _) _ => apply typed_when
  | |- typed (modify _) _ => apply typed_modify; intros; solve [auto 6 with typed]
  | |- typed (mret _) _ => apply typed_ret; simpl; solve [auto 6 with typed]
  | |- typed (modNode _ _) _ => apply typed_modNode; intros; split; simpl; solve [auto 6 with typed]
  | |- typed (gets _) _ => apply typed_gets_u32; intros; solve [auto 6 with typed]
  | |- typed _ _ => solve [eauto 4 with typed]
  end.

Lemma typed_insertNodeIntoBin size o :
  is_u32 size → is_u32 o → typed (insertNodeIntoBin size o) is_u32.
Proof.
  intros Hs Ho. unfold insertNodeIntoBin. typed_tac.
Qed.

Lemma typed_clearBinMask b t l : typed (clearBinMask b t l) (λ _, True).
Proof. unfold clearBinMask. typed_tac. Qed.
#[export] Hint Resolve typed_insertNodeIntoBin typed_clearBinMask : typed.

Lemma typed_removeNodeFromBin i : is_u32 i → typed (removeNodeFromBin i) (λ _, True).
Proof. intros Hi. unfold removeNodeFromBin. typed_tac. Qed.

Lemma typed_growFreeNodes : typed growFreeNodes (λ _, True).
Proof.
  unfold growFreeNodes, mbind, st_bind, gets, when, setFree, modify. intros a x a' Hw.
  destruct (m_freeOffset a =? m_current_capacity a); [|by intros [= <- <-]].
  destruct (in_array a (m_current_capacity a)) eqn:Ei; [|done]. intros [= <- <-]. split; [|done].
  assert (0 <= m_current_capacity a < m_max_capacity a) as Hc by (unfold in_array in Ei; lia).
  destruct Hw as [? Hcur Hmax ? ? ? ? ? Hfree Hdom ?]. unfold is_u32 in Hmax.
  rewrite u32_small by (unfold is_u32; lia). split; simpl; try done.
  - unfold is_u32. lia.
  - intros k v [[<- <-]|[_ E]]%lookup_insert_Some; [done|by apply (Hfree k)].
  - intros k Hk. rewrite lookup_insert. case_decide; [done|]. apply Hdom. lia.
Qed.

Lemma typed_selectBin b : typed (selectBin b) (λ _, True).
Proof.
  unfold selectBin. cbv zeta. eapply typed_bind; [by apply (typed_gets _ (λ _, True))|]. intros top _.
  apply (typed_bind _ _ (λ _, True)); [typed_tac; done|]. intros l _. typed_tac; done.
Qed.
#[export] Hint Resolve typed_removeNodeFromBin typed_growFreeNodes typed_selectBin : typed.

Lemma typed_popNode t l r : is_u32 r → typed (popNode t l r) (λ res, is_u32 (fst res) ∧ is_u32 (snd res)).
Proof. intros Hr. unfold popNode. typed_tac. Qed.

Lemma typed_splitNode i n r : is_u32 i → is_u32 r → typed (splitNode i n r) (λ _, True).
Proof. intros Hi Hr. unfold splitNode. typed_tac. Qed.
#[export] Hint Resolve typed_splitNode : typed.

Lemma floatToUint_u32 f : is_u32 (floatToUint f).
Proof.
  unfold floatToUint. destruct (_ =? 0); [|apply u32_range]. rewrite Z.land_comm. by apply land_u32.
Qed.
#[export] Hint Resolve floatToUint_u32 : typed.

(** [allocate] returns 32-bit indices and keeps the state well typed. *)
Lemma typed_allocate size :
  typed (allocate size) (λ r, is_u32 (offset r) ∧ is_u32 (metadata r)).
Proof.
  unfold allocate. typed_tac. destruct x2 as [[t l]|]; [|apply typed_ret; simpl; auto with typed].
  eapply typed_bind; [apply typed_popNode; auto with typed|].
  intros [i n] [Hi Hn]. simpl in *. typed_tac.
Qed.

Lemma typed_mergePrev i o s :
  is_u32 o → is_u32 s → typed (mergePrev i o s) (λ r, is_u32 (fst r) ∧ is_u32 (snd r)).
Proof. intros Ho Hs. unfold mergePrev. typed_tac. Qed.

Lemma typed_mergeNext i s : is_u32 s → typed (mergeNext i s) is_u32.
Proof. intros Hs. unfold mergeNext. typed_tac. Qed.

Lemma typed_free al : is_u32 (metadata al) → typed (free al) (λ _, True).
Proof.
  intros Hm. unfold free. cbv zeta. eapply typed_bind; [apply typed_getNode|]. intros n Hn.
  eapply typed_bind; [apply typed_mergePrev; auto with typed|]. intros [o s] [Ho Hs]. simpl in *.
  eapply typed_bind; [by apply typed_mergeNext|]. intros s' Hs'. typed_tac.
Qed.

Lemma reset_wt a x a' :
  is_u32 (m_size a) → is_u32 (m_current_capacity a) → is_u32 (m_max_capacity a) →
  reset a = Some (x, a') → wt a'.
Proof.
  intros H1 H2 H3 E. unfold reset, mbind, st_bind, modify, gets in E. cbv beta iota in E.
  destruct (insertNodeIntoBin _ _ _) as [[i a1]|] eqn:E1; [|done]. injection E as <- <-.
  eapply typed_insertNodeIntoBin; [| | |exact E1]; [exact H1|done|].
  split; cbn -[replicate]; try done.
  - split; [done|]. apply Forall_replicate. done.
  - split; [done|]. apply Forall_replicate. apply unused_u32.
  - intros k v E. apply elem_of_list_to_map_2 in E. apply list_elem_of_fmap in E as (i' & [= -> ->] & Hi).
    apply elem_of_seqZ in Hi. unfold is_u32 in *. lia.
  - intros k Hk. exists k. by apply seqZ_stack.
Qed.
