(* ===== verification/Serializer.v ===== *)
(** * Serializer: the two-pass serialization framework (serializer.h)

    A class is serialized by a method that works with any serializer: a counter
    that adds up sizes, and a writer that fills a buffer of that size.  The
    template parameter of [serialize_to] is the typeclass [Serializer] here,
    with the counter and the writer as its instances. *)

From S2P Require Import Prelude Types.
Open Scope Z_scope.

Abbreviation bytes := (list Z).

(** ** The interface

    [write] takes the bytes at a pointer; [None] is the null pointer. *)

Class Serializer (T : Type) := {
  ser_write : option bytes → T → T;
  ser_set_error : T → T;
}.

(** A class with a [serialize_to] method. *)
Definition SerializeTo (X : Type) : Type := ∀ T, Serializer T → X → T → T.

(** ** The size counter *)

Record SerializeSizeCounter := mkCounter { sc_size : Z; sc_has_error : bool }.

Definition counter_init : SerializeSizeCounter := mkCounter 0 false.

Definition counter_set_error (c : SerializeSizeCounter) : SerializeSizeCounter :=
  mkCounter (sc_size c) true.

Definition counter_write (data : option bytes) (c : SerializeSizeCounter) : SerializeSizeCounter :=
  if sc_has_error c then c else
  match data with
  | None => counter_set_error c
  | Some d => mkCounter (u64 (sc_size c + Z.of_nat (length d))) (sc_has_error c)
  end.

#[export] Instance counter_serializer : Serializer SerializeSizeCounter := {
  ser_write := counter_write;
  ser_set_error := counter_set_error;
}.

(** ** The writer *)

Record SerializeWriter := mkWriter {
  sw_buffer : bytes;
  sw_size : Z;
  sw_offset : Z;
  sw_has_error : bool;
}.

Definition writer_init (buffer : bytes) (size : Z) : SerializeWriter := mkWriter buffer size 0 false.

Definition writer_set_error (w : SerializeWriter) : SerializeWriter :=
  mkWriter (sw_buffer w) (sw_size w) (sw_offset w) true.

(** [memcpy] of [d] to offset [o] of a buffer. *)
Definition memcpy_at (o : nat) (d buffer : bytes) : bytes :=
  take o buffer ++ d ++ drop (o + length d) buffer.

Definition writer_write (data : option bytes) (w : SerializeWriter) : SerializeWriter :=
  if sw_has_error w then w else
  match data with
  | None => writer_set_error w
  | Some d =>
      let data_size := Z.of_nat (length d) in
      if sw_size w <? u64 (data_size + sw_offset w) then writer_set_error w
      else mkWriter (memcpy_at (Z.to_nat (sw_offset w)) d (sw_buffer w)) (sw_size w)
             (u64 (sw_offset w + data_size)) (sw_has_error w)
  end.

#[export] Instance writer_serializer : Serializer SerializeWriter := {
  ser_write := writer_write;
  ser_set_error := writer_set_error;
}.

Definition finish_write (w : SerializeWriter) : bool := sw_size w <=? sw_offset w.

(** ** Serializing an object

    The result code and the output buffer; a null [target] leaves the caller's
    buffer as it was. *)

Definition serialize_to_internal {X} (ser : SerializeTo X) (target : option X) (buffer : bytes) :
    ErrorCode * bytes :=
  match target with
  | None => (EC.INVALID_PARAMS, buffer)
  | Some x =>
      let counter := ser _ counter_serializer x counter_init in
      if sc_has_error counter then (EC.INTERNAL_ERROR, buffer) else
      let buffer' := replicate (Z.to_nat (sc_size counter)) 0 in
      let writer := ser _ writer_serializer x (writer_init buffer' (Z.of_nat (length buffer'))) in
      if sw_has_error writer then (EC.INTERNAL_ERROR, sw_buffer writer)
      else if negb (finish_write writer) then (EC.INTERNAL_ERROR, sw_buffer writer)
      else (EC.OK, sw_buffer writer)
  end.

(** ** The reader

    A read either returns, throws an exception, or (in a constructor that copies
    into an array it allocated) overruns that array. *)

Inductive outcome (A : Type) := Ok (x : A) | Throw | Overrun.
Arguments Ok {A} x.
Arguments Throw {A}.
Arguments Overrun {A}.

Record SerializerReader := mkReader { sr_buffer : bytes; sr_size : Z; sr_offset : Z }.

Definition reader_init (buffer : bytes) : SerializerReader :=
  mkReader buffer (Z.of_nat (length buffer)) 0.

Definition RD (A : Type) : Type := SerializerReader → outcome (A * SerializerReader).

#[export] Instance rd_ret : MRet RD := λ A x r, Ok (x, r).
#[export] Instance rd_bind : MBind RD := λ A B k m r,
  match m r with
  | Ok (x, r') => k x r'
  | Throw => Throw
  | Overrun => Overrun
  end.

Definition read (data_size : Z) : RD bytes := λ r,
  if sr_size r <? u64 (sr_offset r + data_size) then Throw
  else Ok (take (Z.to_nat data_size) (drop (Z.to_nat (sr_offset r)) (sr_buffer r)),
           mkReader (sr_buffer r) (sr_size r) (u64 (sr_offset r + data_size))).

Definition overrun {A} : RD A := λ _, Overrun.

Definition finish_read (r : SerializerReader) : bool := sr_offset r =? sr_size r.

(** [deserialize_from]: [Ok None] is the null pointer; exceptions are caught. *)
Definition deserialize_from {X} (deser : RD (option X)) (buffer : bytes) : outcome (option X) :=
  match deser (reader_init buffer) with
  | Ok (None, _) => Ok None
  | Ok (Some x, r) => if finish_read r then Ok (Some x) else Ok None
  | Throw => Ok None
  | Overrun => Overrun
  end.

(** ** Serializing a sequence of fields

    Every [serialize_to] of the store is a sequence of writes of non-null data,
    [write_all]; the lemmas below are about such sequences. *)

Definition write_all {T} `{Serializer T} (ds : list bytes) (s : T) : T :=
  foldl (λ s d, ser_write (Some d) s) s ds.

Lemma write_all_cons {T} `{Serializer T} d ds (s : T) :
  write_all (d :: ds) s = write_all ds (ser_write (Some d) s).
Proof. done. Qed.

Definition fits (d : bytes) : Prop := Z.of_nat (length d) < 2 ^ 64.

Lemma counter_write_all ds n :
  0 <= n → n + Z.of_nat (length (concat ds)) < 2 ^ 64 →
  write_all ds (mkCounter n false) = mkCounter (n + Z.of_nat (length (concat ds))) false.
Proof.
  revert n. induction ds as [|d ds IH]; intros n Hn Hf; [simpl; by rewrite Z.add_0_r|].
  simpl in Hf. rewrite length_app in Hf. rewrite write_all_cons. cbn [ser_write counter_serializer].
  unfold counter_write. cbn [sc_has_error sc_size].
  rewrite u64_small by (unfold is_u64; lia). rewrite IH by lia. f_equal. simpl. rewrite length_app. lia.
Qed.

(** Writing at the end of what was written so far. *)
Lemma memcpy_at_end (done d rest : bytes) :
  (length d <= length rest)%nat →
  memcpy_at (length done) d (done ++ rest) = (done ++ d) ++ drop (length d) rest.
Proof.
  intros Hl. unfold memcpy_at. rewrite take_app_length, <-app_assoc. f_equal. f_equal.
  rewrite <-drop_drop, drop_app_length. done.
Qed.

Lemma writer_write_all ds done rest :
  Z.of_nat (length (done ++ rest)) < 2 ^ 64 → (length (concat ds) <= length rest)%nat →
  write_all ds (mkWriter (done ++ rest) (Z.of_nat (length (done ++ rest))) (Z.of_nat (length done)) false) =
  mkWriter (done ++ concat ds ++ drop (length (concat ds)) rest) (Z.of_nat (length (done ++ rest)))
    (Z.of_nat (length (done ++ concat ds))) false.
Proof.
  revert done rest. induction ds as [|d ds IH]; intros done rest Hs Hl.
  - simpl. by rewrite drop_0, app_nil_r.
  - simpl in Hl. rewrite length_app in Hl, Hs. rewrite write_all_cons. cbn [ser_write writer_serializer].
    unfold writer_write. cbn [sw_has_error sw_size sw_offset sw_buffer].
    destruct (Z.ltb_spec (Z.of_nat (length (done ++ rest))) (u64 (Z.of_nat (length d) + Z.of_nat (length done)))) as [H|H].
    { rewrite length_app, u64_small in H by (unfold is_u64; lia). lia. }
    rewrite Nat2Z.id, memcpy_at_end, u64_small by (unfold is_u64; lia).
    assert (length (done ++ rest) = length ((done ++ d) ++ drop (length d) rest)) as E.
    { rewrite !length_app, length_drop. lia. }
    rewrite E. replace (Z.of_nat (length done) + Z.of_nat (length d)) with (Z.of_nat (length (done ++ d)))
      by (rewrite length_app; lia).
    rewrite IH; [|rewrite <-E, length_app; lia|rewrite length_drop; lia].
    simpl. rewrite drop_drop, <-!app_assoc, (length_app d (concat ds)). done.
Qed.

(** Serializing a sequence of fields yields their concatenation. *)
Lemma serialize_to_fields {X} (ser : SerializeTo X) (fields : X → list bytes) x buffer :
  (∀ T (H : Serializer T) (s : T), ser T H x s = write_all (fields x) s) →
  fits (concat (fields x)) →
  serialize_to_internal ser (Some x) buffer = (EC.OK, concat (fields x)).
Proof.
  intros Hser Hf. unfold serialize_to_internal, fits in *. rewrite !Hser. unfold counter_init.
  rewrite counter_write_all by lia. cbn [sc_has_error sc_size]. rewrite Z.add_0_l, Nat2Z.id.
  set (n := length (concat (fields x))) in *.
  pose proof (writer_write_all (fields x) [] (replicate n 0)) as Hw. simpl in Hw. change (Z.of_nat 0) with 0 in Hw.
  unfold writer_init. rewrite Hw; [|rewrite length_replicate; lia|rewrite length_replicate; fold n; lia].
  cbn [sw_has_error sw_buffer]. unfold finish_write. cbn [sw_size sw_offset].
  rewrite length_replicate. fold n. rewrite Z.leb_refl. simpl. f_equal.
  rewrite drop_ge by (rewrite length_replicate; lia). by rewrite app_nil_r.
Qed.
