(* ===== verification/OffsetSerial.v ===== *)
(** * OffsetSerial: saving and restoring the offset allocator

    [serialize_to] and the deserializing constructors of [__Allocator] and
    [OffsetAllocator] (offset_allocator.hpp), on the framework of [Serializer].
    Integers are written in the machine's little-endian layout; a [Node] takes
    28 bytes, of which the last three are padding.  The value of padding bytes
    is unspecified, so the serializers take them as an argument. *)

From S2P Require Import Prelude Types SmallFloat Dll OffsetAllocator OffsetInv Blocks OffsetCorrect.
From S2P Require Import OffsetFree OffsetSpec OffsetHandles OffsetTyped Serializer.
Open Scope Z_scope.

(** ** Little-endian integers *)

Fixpoint le (n : nat) (z : Z) : bytes :=
  match n with
  | O => []
  | S n => z mod 256 :: le n (z / 256)
  end.

Definition le_val (bs : bytes) : Z := foldr (λ b acc, b + 256 * acc) 0 bs.

(** ** The layout of a node *)

Definition b2z (b : bool) : Z := if b then 1 else 0.

Definition node_bytes (pad : bytes) (n : Node) : bytes :=
  le 4 (dataOffset n) ++ le 4 (dataSize n) ++ le 4 (binListPrev n) ++ le 4 (binListNext n) ++
  le 4 (neighborPrev n) ++ le 4 (neighborNext n) ++ [b2z (used n)] ++ pad.

Definition field (k : nat) (bs : bytes) : Z := le_val (take 4 (drop (4 * k) bs)).

Definition node_of_bytes (bs : bytes) : Node :=
  mkNode (field 0 bs) (field 1 bs) (field 2 bs) (field 3 bs) (field 4 bs) (field 5 bs)
    (negb (default 0 (bs !! 24%nat) =? 0)).

Definition sizeof_Node : Z := 28.
Definition sizeof_NodeIndex : Z := 4.

(** Split a buffer into [n] chunks of [k] bytes. *)
Fixpoint chunks (n k : nat) (bs : bytes) : list bytes :=
  match n with
  | O => []
  | S n => take k bs :: chunks n k (drop k bs)
  end.

(** The array of the given entries, indexed from 0. *)
Definition array_of {A} (l : list A) : gmap Z A :=
  list_to_map (zip (seqZ 0 (Z.of_nat (length l))) l).

(** ** [__Allocator] *)

Section layout.
Context (padding : Z → bytes).

Definition nodes_bytes (a : Allocator) : bytes :=
  concat ((λ i, node_bytes (padding i) (node_at a i)) <$> seqZ 0 (m_current_capacity a)).

Definition freeNodes_bytes (a : Allocator) : bytes :=
  concat ((λ k, le 4 (default 0 (m_freeNodes a !! k))) <$> seqZ 0 (m_current_capacity a)).

Definition allocator_serialize_to : SerializeTo Allocator := λ T _ a s,
  let s := ser_write (Some (le 4 (m_size a))) s in
  let s := ser_write (Some (le 4 (m_current_capacity a))) s in
  let s := ser_write (Some (le 4 (m_max_capacity a))) s in
  let s := ser_write (Some (le 4 (m_freeStorage a))) s in
  let s := ser_write (Some (le 4 (m_usedBinsTop a))) s in
  let s := ser_write (Some (m_usedBins a)) s in
  let s := ser_write (Some (concat (le 4 <$> m_binIndices a))) s in
  let s := ser_write (Some (le 4 (m_freeOffset a))) s in
  let s := ser_write (Some (nodes_bytes a)) s in
  ser_write (Some (freeNodes_bytes a)) s.

(** ** [OffsetAllocator] *)

Definition wrapper_serialize_to : SerializeTo Wrapper := λ T H w s,
  match w_allocator w with
  | None => ser_set_error s
  | Some a =>
      let s := ser_write (Some (le 8 (m_base w))) s in
      let s := ser_write (Some (le 8 (m_multiplier_bits w))) s in
      let s := ser_write (Some (le 8 (m_capacity w))) s in
      let s := ser_write (Some (le 8 (m_allocated_size w))) s in
      let s := ser_write (Some (le 8 (m_allocated_num w))) s in
      allocator_serialize_to T H a s
  end.
End layout.

(** ** Restoring *)

Definition read_u32 : RD Z := bs ← read 4; mret (le_val bs).
Definition read_u64 : RD Z := bs ← read 8; mret (le_val bs).

(** The node arrays are allocated for the maximal capacity; copying more
    entries than that overruns them. *)
Definition allocator_deserialize : RD Allocator :=
  size ← read_u32;
  current_capacity ← read_u32;
  max_capacity ← read_u32;
  freeStorage ← read_u32;
  usedBinsTop ← read_u32;
  usedBins ← read NUM_TOP_BINS;
  binIndices ← read (NUM_LEAF_BINS * sizeof_NodeIndex);
  freeOffset ← read_u32;
  nodes ← read (current_capacity * sizeof_Node);
  (if max_capacity <? current_capacity then overrun else
   freeNodes ← read (current_capacity * sizeof_NodeIndex);
   mret (mkAllocator size current_capacity max_capacity freeStorage usedBinsTop usedBins
     (le_val <$> chunks 256 4 binIndices)
     (array_of (node_of_bytes <$> chunks (Z.to_nat current_capacity) 28 nodes))
     (array_of (le_val <$> chunks (Z.to_nat current_capacity) 4 freeNodes))
     freeOffset)).

Definition wrapper_deserialize : RD (option Wrapper) :=
  base ← read_u64;
  multiplier_bits ← read_u64;
  capacity ← read_u64;
  allocated_size ← read_u64;
  allocated_num ← read_u64;
  a ← allocator_deserialize;
  mret (Some (mkWrapper (Some a) base multiplier_bits capacity allocated_size allocated_num)).

(** ** Integers, chunks and arrays *)

Lemma length_le n z : length (le n z) = n.
Proof. revert z. induction n as [|n IH]; intros z; simpl; [done|]. by rewrite IH. Qed.

Lemma le_val_le n z : 0 <= z < 256 ^ Z.of_nat n → le_val (le n z) = z.
Proof.
  revert z. induction n as [|n IH]; intros z Hz; simpl.
  - change (256 ^ Z.of_nat 0) with 1 in Hz. lia.
  - rewrite Nat2Z.inj_succ, Z.pow_succ_r in Hz by lia. fold (le_val (le n (z / 256))).
    rewrite IH; [pose proof (Z.div_mod z 256 ltac:(lia)); lia|].
    split; [apply Z.div_pos; lia|apply Z.div_lt_upper_bound; lia].
Qed.

Lemma le_u32 z : is_u32 z → le_val (le 4 z) = z.
Proof. intros Hz. apply le_val_le. exact Hz. Qed.

Lemma le_u64 z : is_u64 z → le_val (le 8 z) = z.
Proof. intros Hz. apply le_val_le. exact Hz. Qed.

Lemma length_concat_const {A} (ls : list (list A)) k :
  Forall (λ l, length l = k) ls → length (concat ls) = (length ls * k)%nat.
Proof. induction 1 as [|l ls Hl _ IH]; simpl; [done|]. rewrite length_app, IH. lia. Qed.

Lemma chunks_concat (ls : list bytes) k :
  Forall (λ l, length l = k) ls → chunks (length ls) k (concat ls) = ls.
Proof.
  induction 1 as [|l ls Hl _ IH]; simpl; [done|].
  rewrite <-Hl, take_app_length, drop_app_length, Hl. by f_equal.
Qed.

Lemma length_node_bytes pad n : length pad = 3%nat → length (node_bytes pad n) = 28%nat.
Proof. intros Hp. unfold node_bytes. rewrite !length_app, !length_le, Hp. done. Qed.

Lemma node_roundtrip pad n : node_wt n → node_of_bytes (node_bytes pad n) = n.
Proof.
  intros [H1 H2 H3 H4 H5 H6]. unfold node_of_bytes. destruct n as [o s bp bn np nn u]. simpl in *. f_equal.
  1-6: by apply le_u32. by destruct u.
Qed.

Lemma array_of_lookup {A} (f : Z → A) n i :
  array_of (f <$> seqZ 0 n) !! i = if decide (0 <= i < n) then Some (f i) else None.
Proof.
  unfold array_of. rewrite length_fmap, length_seqZ.
  assert (zip (seqZ 0 (Z.of_nat (Z.to_nat n))) (f <$> seqZ 0 n) = (λ i, (i, f i)) <$> seqZ 0 n) as ->.
  { destruct (decide (0 <= n)); [|by rewrite !seqZ_nil by lia].
    rewrite Z2Nat.id by done. rewrite zip_with_fmap_r. by induction (seqZ 0 n); f_equal/=. }
  assert (NoDup (((λ i, (i, f i)) <$> seqZ 0 n).*1)) as Hnd.
  { rewrite <-list_fmap_compose, (list_fmap_ext _ id), list_fmap_id; [apply NoDup_seqZ|done]. }
  case_decide as Hi.
  - apply elem_of_list_to_map_1; [done|]. apply list_elem_of_fmap. exists i. rewrite elem_of_seqZ. split; [done|lia].
  - apply not_elem_of_list_to_map_1. intros Hin. apply Hi. apply list_elem_of_fmap in Hin as ((i' & y) & -> & Hin).
    apply list_elem_of_fmap in Hin as (j & [= -> ->] & Hj). simpl. apply elem_of_seqZ in Hj. lia.
Qed.

(** ** Parsing

    [parses m bs x]: from any position where [bs] comes next, [m] consumes
    exactly [bs] and returns [x]; when the buffer ends inside [bs] it throws. *)

Definition pos (pre rest : bytes) : SerializerReader :=
  mkReader (pre ++ rest) (Z.of_nat (length (pre ++ rest))) (Z.of_nat (length pre)).

Record parses {A} (m : RD A) (bs : bytes) (x : A) : Prop := {
  parses_ok pre rest : Z.of_nat (length (pre ++ bs ++ rest)) < 2 ^ 64 →
    m (pos pre (bs ++ rest)) = Ok (x, pos (pre ++ bs) rest);
  parses_short pre p t : Z.of_nat (length (pre ++ bs)) < 2 ^ 64 → bs = p ++ t → t ≠ [] →
    m (pos pre p) = Throw;
}.

Lemma parses_ret {A} (x : A) : parses (mret x) [] x.
Proof.
  split; [intros pre rest _; by rewrite app_nil_r|].
  intros pre p t _ E Ht. symmetry in E. by apply app_eq_nil in E as [_ ?].
Qed.

Lemma parses_read d n : n = Z.of_nat (length d) → parses (read n) d d.
Proof.
  intros ->. split.
  - intros pre rest Hf. unfold read, pos. cbn [sr_size sr_offset sr_buffer].
    rewrite !length_app in Hf. rewrite !length_app.
    rewrite u64_small by (unfold is_u64; lia). destruct (Z.ltb_spec (Z.of_nat (length pre + (length d + length rest)))
      (Z.of_nat (length pre) + Z.of_nat (length d))); [lia|].
    rewrite !Nat2Z.id, drop_app_length, take_app_length, <-app_assoc. do 3 f_equal; lia.
  - intros pre p t Hf -> Ht. unfold read, pos. cbn [sr_size sr_offset sr_buffer].
    assert (0 < length t)%nat by (destruct t; simpl; [done|lia]).
    rewrite !length_app in *. rewrite u64_small by (unfold is_u64; lia).
    destruct (Z.ltb_spec (Z.of_nat (length pre + length p)) (Z.of_nat (length pre) + Z.of_nat (length p + length t)));
      [done|lia].
Qed.

Lemma parses_bind {A B} (m : RD A) (k : A → RD B) b1 b2 x y :
  parses m b1 x → parses (k x) b2 y → parses (m ≫= k) (b1 ++ b2) y.
Proof.
  intros [Ho1 Hs1] [Ho2 Hs2]. split.
  - intros pre rest Hf. unfold mbind, rd_bind. rewrite <-!app_assoc in *. rewrite Ho1 by done.
    rewrite Ho2 by (by rewrite <-app_assoc). by rewrite <-app_assoc.
  - intros pre p t Hf E Ht. unfold mbind, rd_bind. rewrite app_assoc in Hf.
    destruct (decide (length b1 <= length p)%nat) as [Hle|Hlt].
    + assert (∃ p2, p = b1 ++ p2 ∧ b2 = p2 ++ t) as (p2 & -> & ->).
      { apply app_eq_inv in E as [(l & -> & ->)|(l & -> & ->)]; [|by exists l].
        rewrite length_app in Hle. destruct l; [|simpl in *; lia]. exists []. by rewrite !app_nil_r. }
      rewrite Ho1 by (rewrite !length_app in *; lia). by apply (Hs2 _ _ t).
    + assert (∃ t1, b1 = p ++ t1 ∧ t1 ≠ []) as (t1 & -> & Ht1).
      { apply app_eq_inv in E as [(l & -> & ->)|(l & -> & ->)]; [|rewrite length_app in Hlt; lia].
        exists l. split; [done|]. intros ->. rewrite length_app in Hlt. simpl in Hlt. lia. }
      rewrite (Hs1 pre p t1); [done| |done|done]. rewrite !length_app in *. lia.
Qed.

Lemma parses_u32 z : is_u32 z → parses read_u32 (le 4 z) z.
Proof.
  intros Hz. rewrite <-(app_nil_r (le 4 z)). eapply parses_bind; [apply parses_read; by rewrite length_le|].
  rewrite le_u32 by done. apply parses_ret.
Qed.

Lemma parses_u64 z : is_u64 z → parses read_u64 (le 8 z) z.
Proof.
  intros Hz. rewrite <-(app_nil_r (le 8 z)). eapply parses_bind; [apply parses_read; by rewrite length_le|].
  rewrite le_u64 by done. apply parses_ret.
Qed.

(** ** What a restored allocator is *)

Definition restored (a : Allocator) : Allocator :=
  mkAllocator (m_size a) (m_current_capacity a) (m_max_capacity a) (m_freeStorage a) (m_usedBinsTop a)
    (m_usedBins a) (m_binIndices a)
    (array_of (node_at a <$> seqZ 0 (m_current_capacity a)))
    (array_of ((λ k, default 0 (m_freeNodes a !! k)) <$> seqZ 0 (m_current_capacity a)))
    (m_freeOffset a).

Section parse_allocator.
Context (padding : Z → bytes) (Hpad : ∀ i, length (padding i) = 3%nat).
Context (a : Allocator) (Hwt : wt a) (Hcap : m_current_capacity a <= m_max_capacity a).

Definition allocator_fields : list bytes :=
  [le 4 (m_size a); le 4 (m_current_capacity a); le 4 (m_max_capacity a); le 4 (m_freeStorage a);
   le 4 (m_usedBinsTop a); m_usedBins a; concat (le 4 <$> m_binIndices a); le 4 (m_freeOffset a);
   nodes_bytes padding a; freeNodes_bytes a].

Lemma length_seqZ_cap : length (seqZ 0 (m_current_capacity a)) = Z.to_nat (m_current_capacity a).
Proof. apply length_seqZ. Qed.

Lemma nodes_chunks :
  Z.of_nat (length (nodes_bytes padding a)) = m_current_capacity a * sizeof_Node ∧
  node_of_bytes <$> chunks (Z.to_nat (m_current_capacity a)) 28 (nodes_bytes padding a) =
    node_at a <$> seqZ 0 (m_current_capacity a).
Proof.
  unfold nodes_bytes. set (ls := _ <$> _).
  assert (Forall (λ l, length l = 28%nat) ls) as HF.
  { apply Forall_forall. intros l (i & -> & _)%list_elem_of_fmap. apply length_node_bytes, Hpad. }
  assert (length ls = Z.to_nat (m_current_capacity a)) as Hl by (unfold ls; by rewrite length_fmap, length_seqZ).
  split.
  - rewrite (length_concat_const _ 28) by done. rewrite Hl. unfold sizeof_Node.
    pose proof (wt_cur _ Hwt) as Hc. unfold is_u32 in Hc. lia.
  - rewrite <-Hl, chunks_concat by done. unfold ls. rewrite <-list_fmap_compose.
    apply list_fmap_ext. intros k i _. apply node_roundtrip, node_at_wt, Hwt.
Qed.

Lemma freeNodes_chunks :
  Z.of_nat (length (freeNodes_bytes a)) = m_current_capacity a * sizeof_NodeIndex ∧
  le_val <$> chunks (Z.to_nat (m_current_capacity a)) 4 (freeNodes_bytes a) =
    (λ k, default 0 (m_freeNodes a !! k)) <$> seqZ 0 (m_current_capacity a).
Proof.
  unfold freeNodes_bytes. set (ls := _ <$> _).
  assert (Forall (λ l, length l = 4%nat) ls) as HF.
  { apply Forall_forall. intros l (i & -> & _)%list_elem_of_fmap. apply length_le. }
  assert (length ls = Z.to_nat (m_current_capacity a)) as Hl by (unfold ls; by rewrite length_fmap, length_seqZ).
  split.
  - rewrite (length_concat_const _ 4) by done. rewrite Hl. unfold sizeof_NodeIndex.
    pose proof (wt_cur _ Hwt) as Hc. unfold is_u32 in Hc. lia.
  - rewrite <-Hl, chunks_concat by done. unfold ls. rewrite <-list_fmap_compose.
    apply list_fmap_ext. intros k i _. apply le_u32. destruct (m_freeNodes a !! i) as [v|] eqn:E; [|done].
    by apply (wt_free _ Hwt i).
Qed.

Lemma binIndices_chunks :
  Z.of_nat (length (concat (le 4 <$> m_binIndices a))) = NUM_LEAF_BINS * sizeof_NodeIndex ∧
  le_val <$> chunks 256 4 (concat (le 4 <$> m_binIndices a)) = m_binIndices a.
Proof.
  destruct (wt_bins _ Hwt) as [Hl HF].
  assert (Forall (λ l, length l = 4%nat) (le 4 <$> m_binIndices a)) as HF4.
  { apply Forall_forall. intros l (i & -> & _)%list_elem_of_fmap. apply length_le. }
  split.
  - rewrite (length_concat_const _ 4), length_fmap, Hl by done. done.
  - rewrite <-Hl, <-(length_fmap (le 4)), chunks_concat by done. rewrite <-list_fmap_compose.
    rewrite <-(list_fmap_id (m_binIndices a)) at 2. apply list_fmap_ext. intros k i Hk.
    apply le_u32. by eapply Forall_lookup_1.
Qed.

Lemma parses_allocator : parses allocator_deserialize (concat allocator_fields) (restored a).
Proof.
  unfold allocator_fields. cbn [concat].
  destruct Hwt as [? ? ? ? ? [Hu _] ? ? ? ? ?].
  do 5 (eapply parses_bind; [by apply parses_u32|]).
  eapply parses_bind; [apply parses_read; by rewrite Hu|].
  eapply parses_bind; [apply parses_read; symmetry; apply binIndices_chunks|].
  eapply parses_bind; [by apply parses_u32|].
  eapply parses_bind; [apply parses_read; symmetry; apply nodes_chunks|].
  destruct (Z.ltb_spec (m_max_capacity a) (m_current_capacity a)); [lia|].
  eapply parses_bind; [apply parses_read; symmetry; apply freeNodes_chunks|].
  rewrite (proj2 nodes_chunks), (proj2 freeNodes_chunks), (proj2 binIndices_chunks). apply parses_ret.
Qed.
End parse_allocator.

(** ** Equivalent allocators

    Two allocators are equivalent when they agree on every scalar, every bin
    and every array entry below the current capacity. *)

#[export] Instance allocator_equiv : Equiv Allocator := λ a b,
  m_size a = m_size b ∧ m_current_capacity a = m_current_capacity b ∧
  m_max_capacity a = m_max_capacity b ∧ m_freeStorage a = m_freeStorage b ∧
  m_usedBinsTop a = m_usedBinsTop b ∧ m_usedBins a = m_usedBins b ∧
  m_binIndices a = m_binIndices b ∧ m_freeOffset a = m_freeOffset b ∧
  (∀ i, 0 <= i < m_current_capacity a → node_at a i = node_at b i) ∧
  (∀ i, 0 <= i < m_current_capacity a → m_freeNodes a !! i = m_freeNodes b !! i).

#[export] Instance allocator_equivalence : Equivalence (≡@{Allocator}).
Proof.
  split.
  - intros a. repeat split; auto.
  - intros a b (E1 & E2 & E3 & E4 & E5 & E6 & E7 & E8 & En & Ef).
    repeat (split; [done|]). rewrite <-E2. split; intros i Hi; symmetry; auto.
  - intros a b c (E1 & E2 & E3 & E4 & E5 & E6 & E7 & E8 & En & Ef) (F1 & F2 & F3 & F4 & F5 & F6 & F7 & F8 & Fn & Ff).
    repeat (split; [congruence|]). split; intros i Hi; [rewrite En, Fn|rewrite Ef, Ff]; rewrite <-?E2; auto.
Qed.

Lemma restored_equiv a : wt a → restored a ≡ a.
Proof.
  intros Hwt. repeat (split; [done|]). split; simpl; intros i Hi.
  - unfold node_at at 1. simpl. by rewrite array_of_lookup, decide_True.
  - rewrite array_of_lookup, decide_True by done. by destruct (wt_dom _ Hwt i Hi) as [v ->].
Qed.

(** The invariant and the ownership speak only about entries below the current
    capacity. *)
Lemma bins_agree a b L B :
  m_max_capacity a = m_max_capacity b → m_usedBinsTop a = m_usedBinsTop b →
  m_usedBins a = m_usedBins b → m_binIndices a = m_binIndices b →
  (∀ i, i ∈ L → node_at a i = node_at b i) →
  bins a (isfree a L) B → bins b (isfree b L) B.
Proof.
  intros E3 E5 E6 E7 HnL [H1 H2 H3 H4 H5 H6 H7 H8].
  assert (∀ i, isfree b L i ↔ isfree a L i) as Hfree.
  { intros i. unfold isfree, us. split; intros [Hi Hu]; (split; [done|]); [rewrite HnL|rewrite <-HnL]; done. }
  assert (∀ i, isfree a L i → sz b i = sz a i) as Hsz by (intros i [Hi _]; unfold sz; by rewrite HnL).
  split; unfold valid; rewrite <-?E3, <-?E7; try done.
  - intros x Hx. eapply dseg_ext; [|by apply H3]. intros i Hi. apply H6 in Hi as [[Hi _] _]; [|done].
    unfold bp, bn. by rewrite HnL.
  - intros x i Hx. rewrite H6, Hfree by done. split; intros [Hi E]; (split; [done|]); by rewrite ?Hsz in *.
  - intros i Hi%Hfree. rewrite Hsz by done. by apply H7.
  - by apply (masks_same a).
Qed.

#[export] Instance inv_proper : Proper ((≡@{Allocator}) ==> eq ==> eq ==> eq ==> impl) inv.
Proof.
  intros a b (E1 & E2 & E3 & E4 & E5 & E6 & E7 & E8 & En & Ef) L ? <- S ? <- B ? <- HI.
  assert (∀ i, i ∈ L → node_at a i = node_at b i) as HnL.
  { intros i Hi. apply En, (inv_range HI). set_solver. }
  assert (blk b <$> L = blk a <$> L) as Hb.
  { apply blk_fmap_ext. intros i Hi. unfold blk, off, sz, us. by rewrite HnL. }
  pose proof (inv_length HI) as Hlen. destruct HI as [H1 H2 H3 H4 H5 H6 H7 H8 H9].
  split; rewrite <-?E1, <-?E2, <-?E3, <-?E4, <-?E8, ?Hb; try done.
  - by apply (bins_agree a).
  - intros k i Hk. rewrite <-Ef; [by apply H5|]. apply lookup_lt_Some in Hk. lia.
  - eapply dseg_ext; [|exact H6]. intros i Hi. unfold np, nn. by rewrite HnL.
Qed.

Lemma owns_agree a b L live :
  (∀ i, i ∈ L → node_at a i = node_at b i) → owns a L live → owns b L live.
Proof.
  intros HnL [H1 H2 H3]. split; [done| |].
  - intros i. rewrite H2. unfold us. split; intros [Hi Hu]; (split; [done|]); [rewrite <-HnL|rewrite HnL]; done.
  - intros al s Hal. assert (metadata al ∈ L) as Hm.
    { apply H2. by apply (list_elem_of_fmap_2 node_of) in Hal. }
    unfold off, sz. rewrite <-HnL by done. by apply H3.
Qed.

(** ** Restoring an [OffsetAllocator] *)

Definition restored_wrapper (w : Wrapper) : Wrapper :=
  mkWrapper (restored <$> w_allocator w) (m_base w) (m_multiplier_bits w) (m_capacity w)
    (m_allocated_size w) (m_allocated_num w).

Lemma winv_restored w a live :
  w_allocator w = Some a → wt a → winv w live → winv (restored_wrapper w) live.
Proof.
  intros Ea Hwt [(a0 & L & S & B & E & HI & HO & Es) H2 H3 H4 H5 H6 H7]. simplify_eq. split; try done.
  exists (restored a), L, S, B. simpl. rewrite Ea. split; [done|].
  assert (a ≡ restored a) as Eq by (symmetry; by apply restored_equiv).
  split; [by eapply inv_proper|]. split; [|done].
  eapply owns_agree; [|exact HO]. intros i Hi. apply Eq, (inv_range HI). set_solver.
Qed.

Definition wrapper_fields (padding : Z → bytes) (a : Allocator) (w : Wrapper) : list bytes :=
  [le 8 (m_base w); le 8 (m_multiplier_bits w); le 8 (m_capacity w); le 8 (m_allocated_size w);
   le 8 (m_allocated_num w)] ++ allocator_fields padding a.

Section restore.
Context (padding : Z → bytes) (Hpad : ∀ i, length (padding i) = 3%nat).
Context (w : Wrapper) (a : Allocator) (live : list grant).
Context (Ea : w_allocator w = Some a) (Hwt : wt a) (HW : winv w live).

Definition image : bytes := concat (wrapper_fields padding a w).

Lemma image_fits : fits image.
Proof.
  unfold image, fits, wrapper_fields, allocator_fields. cbn [app concat].
  rewrite !length_app, !length_le, !Nat2Z.inj_add.
  destruct (wt_used _ Hwt) as [-> _].
  rewrite (proj1 (nodes_chunks padding Hpad a Hwt)), (proj1 (freeNodes_chunks a Hwt)), (proj1 (binIndices_chunks a Hwt)).
  pose proof (wt_cur _ Hwt) as Hc. unfold is_u32, sizeof_Node, sizeof_NodeIndex, NUM_LEAF_BINS, NUM_TOP_BINS, BINS_PER_LEAF in *.
  simpl length. lia.
Qed.

Lemma serialize_image buffer :
  serialize_to_internal (wrapper_serialize_to padding) (Some w) buffer = (EC.OK, image).
Proof.
  apply (serialize_to_fields _ (λ _, wrapper_fields padding a w)); [|apply image_fits].
  intros T H s. unfold wrapper_serialize_to. rewrite Ea. reflexivity.
Qed.

Lemma parses_image : parses wrapper_deserialize image (Some (restored_wrapper w)).
Proof.
  destruct (wi_alloc _ _ HW) as (a0 & L & S & B & E & HI & _). simplify_eq.
  pose proof (inv_cap _ _ _ _ HI) as Hcap. pose proof (wi_bits _ _ HW). pose proof (wi_region _ _ HW) as Hreg.
  unfold image, wrapper_fields. rewrite concat_app. cbn [concat]. rewrite app_nil_r, <-!app_assoc.
  pose proof (u64_range (total_size live)). pose proof (u64_range (Z.of_nat (length live))).
  do 5 (eapply parses_bind; [apply parses_u64; rewrite ?(wi_size _ _ HW), ?(wi_num _ _ HW); unfold is_u64 in *; lia|]).
  rewrite <-(app_nil_r (concat (allocator_fields padding a))).
  eapply parses_bind; [apply parses_allocator; [done|done|lia]|].
  unfold restored_wrapper. rewrite Ea. apply parses_ret.
Qed.

(** The image restores, and only the image: nothing missing, nothing left over. *)
Lemma deserialize_image extra :
  Z.of_nat (length (image ++ extra)) < 2 ^ 64 →
  deserialize_from wrapper_deserialize (image ++ extra) =
    Ok (if decide (extra = []) then Some (restored_wrapper w) else None).
Proof.
  intros Hf. unfold deserialize_from. change (reader_init (image ++ extra)) with (pos [] (image ++ extra)).
  rewrite (parses_ok _ _ _ parses_image) by done. unfold finish_read, pos.
  cbn [sr_offset sr_size]. rewrite app_nil_l, length_app. destruct (decide (extra = [])) as [->|Hne].
  - change (length []) with 0%nat. by rewrite Nat.add_0_r, Z.eqb_refl.
  - assert (0 < length extra)%nat by (destruct extra; simpl; [done|lia]).
    by destruct (Z.eqb_spec (Z.of_nat (length image)) (Z.of_nat (length image + length extra))); [lia|].
Qed.

Lemma deserialize_truncated n :
  (n < length image)%nat → deserialize_from wrapper_deserialize (take n image) = Ok None.
Proof.
  intros Hn. unfold deserialize_from. change (reader_init (take n image)) with (pos [] (take n image)).
  rewrite (parses_short _ _ _ parses_image [] (take n image) (drop n image)); [done| | |].
  - apply image_fits.
  - by rewrite take_drop.
  - intros E. apply (f_equal length) in E. rewrite length_drop in E. change (length []) with 0%nat in E. lia.
Qed.
End restore.

(** ** Every reachable allocator is well typed *)

Definition heap_wt (h : gmap nat Wrapper) : Prop :=
  ∀ k w a, h !! k = Some w → w_allocator w = Some a → wt a.

Lemma heap_wt_insert h k w :
  heap_wt h → (∀ a, w_allocator w = Some a → wt a) → heap_wt (<[k := w]> h).
Proof.
  intros Hh Hw k' w' a [[-> <-]|[_ E]]%lookup_insert_Some Ea; [by apply Hw|by apply (Hh k' w')].
Qed.

Lemma newAllocator_reset size ic mc a :
  newAllocator size ic mc = Some a → ∃ x, reset (initAllocator size ic mc) = Some (x, a).
Proof.
  unfold newAllocator. destruct (reset (initAllocator size ic mc)) as [[x a1]|]; intros E; [|discriminate E].
  injection E as <-. eauto.
Qed.

Lemma newAllocator_wt size ic mc a :
  is_u32 size → 1 <= ic → Z.max ic mc <= unused → newAllocator size ic mc = Some a → wt a.
Proof.
  intros Hs Hi Hm [x E]%newAllocator_reset. apply reset_wt in E; [done|exact Hs|..]; unfold is_u32, unused in *; simpl; lia.
Qed.

Lemma create_wt base size ic mc w a :
  1 <= ic → Z.max ic mc <= unused → create base size ic mc = Some w → w_allocator w = Some a → wt a.
Proof.
  intros Hi Hm E Ea. unfold create in E. apply bind_Some in E as (bits & _ & E).
  apply bind_Some in E as (a0 & E & Ew). injection Ew as <-. injection Ea as ->.
  by apply newAllocator_wt in E; [|apply u32_range|..].
Qed.

Lemma wallocate_wt w size r w' a :
  (∀ a, w_allocator w = Some a → wt a) → wallocate size w = Some (r, w') → w_allocator w' = Some a → wt a.
Proof.
  intros Hw E Ea. unfold wallocate in E. destruct (size =? 0); [simplify_eq; auto|].
  destruct (w_allocator w) as [a0|] eqn:E0; [|simplify_eq; congruence].
  destruct (MAX_BIN_SIZE <? fakeSize w size); [simplify_eq; auto|].
  apply bind_Some in E as ([al a1] & E1 & E).
  assert (wt a1) as Hw1 by (eapply typed_allocate; [by apply Hw|exact E1]).
  destruct (isNoSpace al); simplify_eq/=; done.
Qed.

Lemma hallocate_wt h k w size r h' :
  heap_wt h → h !! k = Some w → hallocate k size h = Some (r, h') → heap_wt h'.
Proof.
  intros Hh Ew E. unfold hallocate, on_alloc, mbind, st_bind, mret, st_ret in E. rewrite Ew in E. simpl in E.
  destruct (wallocate size w) as [[r1 w']|] eqn:E1; [|done]. simplify_eq/=.
  apply heap_wt_insert; [done|]. intros a Ea. eapply wallocate_wt; [|exact E1|exact Ea].
  intros a0 Ea0. by apply (Hh k w).
Qed.

Lemma release_wt h x rest h' :
  heap_inv (h, x :: rest) → heap_wt h → release x h = Some (tt, h') → heap_wt h'.
Proof.
  intros HI Hh E. unfold release in E. destruct (h_allocator x) as [k|] eqn:Ek; [|by simplify_eq].
  destruct (h !! k) as [w|] eqn:Ew; [|by simplify_eq]. unfold on_alloc in E. rewrite Ew in E. simpl in E.
  apply bind_Some in E as ([[] w'] & Ef & [= <-]). apply heap_wt_insert; [done|]. intros a' Ea'.
  unfold freeAllocation in Ef. destruct (w_allocator w) as [a|] eqn:Ea; [|simplify_eq; congruence].
  apply bind_Some in Ef as ([[] a1] & Ef & E'). simplify_eq/=.
  pose proof (HI k w Ew) as HW. simpl in HW. rewrite granted_cons, decide_True in HW by done.
  destruct (wi_alloc _ _ HW) as (a0 & L & S & B & E0 & HIa & HO & _). simplify_eq.
  eapply typed_free; [|by eapply (Hh k w a)|exact Ef].
  destruct (proj1 (owns_used _ _ _ HO (metadata (h_allocation x)))) as [Hl _]; [simpl; left|].
  pose proof (inv_valid HIa (metadata (h_allocation x)) ltac:(set_solver)) as Hv.
  pose proof (inv_max HIa) as Hm. unfold unused in Hm. unfold valid in Hv. unfold is_u32. lia.
Qed.

Lemma heap_reach_wt s : heap_reach s → heap_wt (fst s).
Proof.
  induction 1 as [|s s' Hr IH Hst]; [by intros k w a E|]. apply heap_reach_inv in Hr.
  destruct Hst as
    [h hs k base size ic mc w Hk Hg Hb Hu Hbs Hi Hm E|h hs k|h h' hs k w size x Ew Hs E|
     h h' hs k w size Ew Hs E|h hs x rest Hp|h h' hs this other rest this' other' Hp E|h h' hs x rest Hp E]; simpl in *.
  - apply heap_wt_insert; [done|]. intros a Ea. by eapply create_wt.
  - intros k' w a E Ea. apply lookup_delete_Some in E as [_ E]. by apply (IH k' w).
  - by eapply hallocate_wt.
  - by eapply hallocate_wt.
  - done.
  - apply (heap_inv_perm _ _ _ Hp) in Hr. unfold handle_move_assign, mbind, st_bind in E.
    destruct (release this h) as [[[] h1]|] eqn:Er; [|done]. unfold mret, st_ret in E. simplify_eq/=.
    by eapply release_wt.
  - apply (heap_inv_perm _ _ _ Hp) in Hr. by eapply release_wt.
Qed.

(** ** The theorems *)


(** C29: saving and restoring an allocator loses nothing: the image of every
    reachable allocator deserializes to an equivalent one, which satisfies the
    invariant with the same grants, so that every handle stays valid. *)
Theorem serialize_roundtrip padding h hs k w buffer :
  (∀ i, length (padding i) = 3%nat) → heap_reach (h, hs) → h !! k = Some w →
  ∃ img w', serialize_to_internal (wrapper_serialize_to padding) (Some w) buffer = (EC.OK, img) ∧
    deserialize_from wrapper_deserialize img = Ok (Some w') ∧
    (∀ a, w_allocator w = Some a → ∃ a', w_allocator w' = Some a' ∧ a' ≡ a) ∧
    get_metrics w' = get_metrics w ∧ winv w' (granted k hs).
Proof.
  intros Hpad Hr Ew. pose proof (heap_reach_inv _ Hr k w Ew) as HW. simpl in HW.
  destruct (wi_alloc _ _ HW) as (a & L & S & B & Ea & _).
  pose proof (heap_reach_wt _ Hr k w a Ew Ea) as Hwt.
  exists (image padding w a), (restored_wrapper w). split; [by apply serialize_image|]. split.
  { pose proof (deserialize_image padding Hpad w a _ Ea Hwt HW []) as E. rewrite app_nil_r in E.
    rewrite E; [done|]. by apply image_fits. }
  split; [intros a1 E1; simplify_eq; exists (restored a); split; [unfold restored_wrapper; simpl; by rewrite Ea|by apply restored_equiv]|].
  split; [|by eapply winv_restored]. unfold get_metrics, restored_wrapper. rewrite Ea. simpl. done.
Qed.

(** Damaged images are rejected: a truncated image, and an image followed by
    further bytes, deserialize to the null pointer. *)
Theorem damaged_image_rejected padding h hs k w a :
  (∀ i, length (padding i) = 3%nat) → heap_reach (h, hs) → h !! k = Some w → w_allocator w = Some a →
  (∀ n, (n < length (image padding w a))%nat →
    deserialize_from wrapper_deserialize (take n (image padding w a)) = Ok None) ∧
  (∀ extra, extra ≠ [] → Z.of_nat (length (image padding w a ++ extra)) < 2 ^ 64 →
    deserialize_from wrapper_deserialize (image padding w a ++ extra) = Ok None).
Proof.
  intros Hpad Hr Ew Ea. pose proof (heap_reach_inv _ Hr k w Ew) as HW. simpl in HW.
  pose proof (heap_reach_wt _ Hr k w a Ew Ea) as Hwt. split.
  - intros n Hn. by eapply deserialize_truncated.
  - intros extra Hne Hf. rewrite (deserialize_image padding Hpad w a _ Ea Hwt HW extra Hf). by rewrite decide_False.
Qed.

(** The capacities in an image are not checked against each other: an image
    that claims one live node and room for none makes the constructor copy the
    node past the end of the array it allocated. *)
Theorem deserialize_overruns_on_bad_capacity :
  ∃ img, deserialize_from wrapper_deserialize img = Overrun.
Proof.
  exists (replicate 40 0 ++ le 4 0 ++ le 4 1 ++ replicate 1124 0). vm_compute. reflexivity.
Qed.


Lemma serialize_roundtrip_witness :
  ∃ img w', serialize_to_internal (wrapper_serialize_to (λ _, [0; 0; 0])) (fst demo_s2 !! 0%nat) [] = (EC.OK, img) ∧
    deserialize_from wrapper_deserialize img = Ok (Some w').
Proof.
  destruct (fst demo_s2 !! 0%nat) as [w|] eqn:E; [|vm_compute in E; discriminate E].
  destruct (serialize_roundtrip (λ _, [0; 0; 0]) (fst demo_s2) (snd demo_s2) 0 w []
    (λ _, eq_refl) demo_s2_reach E) as (img & w' & H1 & H2 & _).
  exists img, w'. split; [exact H1|exact H2].
Defined.

Lemma image_header padding w a : (40 <= length (image padding w a))%nat.
Proof. unfold image, wrapper_fields. cbn [app concat]. rewrite !length_app, !length_le. lia. Qed.

Lemma damaged_image_rejected_witness :
  ∃ w a, fst demo_s2 !! 0%nat = Some w ∧ w_allocator w = Some a ∧
    deserialize_from wrapper_deserialize (take 30 (image (λ _, [0; 0; 0]) w a)) = Ok None.
Proof.
  destruct (fst demo_s2 !! 0%nat) as [w|] eqn:E; [|vm_compute in E; discriminate E].
  destruct (w_allocator w) as [a|] eqn:Ea; [|vm_compute in E; injection E as <-; discriminate Ea].
  exists w, a. split; [reflexivity|]. split; [exact Ea|].
  destruct (damaged_image_rejected (λ _, [0; 0; 0]) (fst demo_s2) (snd demo_s2) 0 w a
    (λ _, eq_refl) demo_s2_reach E Ea) as [H _].
  apply H. pose proof (image_header (λ _, [0; 0; 0]) w a). lia.
Defined.
