(* ===== verification/Eviction.v ===== *)
(** * Eviction: the LRU and FIFO eviction strategies (eviction_strategy.h)

    A strategy keeps a linked list of keys, most recent first, and a hash map
    from keys to positions in that list.  A position is a list iterator, so
    list cells carry an identity here and erasing a cell that is no longer in
    the list is a fault.  The LRU strategy is proved against a specification
    that stamps every use of a key with the time. *)

From S2P Require Import Prelude Types.
Open Scope Z_scope.

(** ** State *)

Record EvictionState := mkEviction {
  all_key_list : list (nat * string);
  all_key_idx_map : gmap string nat;
  next_cell : nat;
}.

Definition eviction_init : EvictionState := mkEviction [] ∅ 0.

(** [list.erase(iterator)] *)
Definition list_erase (cell : nat) : ST EvictionState unit := λ s,
  if decide (cell ∈ (all_key_list s).*1) then
    Some (tt, mkEviction (filter (λ c, c.1 ≠ cell) (all_key_list s)) (all_key_idx_map s) (next_cell s))
  else None.

(** [list.push_front(key)]; the new cell becomes [begin()]. *)
Definition list_push_front (key : string) : ST EvictionState unit :=
  modify (λ s, mkEviction ((next_cell s, key) :: all_key_list s) (all_key_idx_map s) (S (next_cell s))).

Definition list_begin : ST EvictionState nat := λ s,
  match all_key_list s with
  | (c, _) :: _ => Some (c, s)
  | [] => None
  end.

Definition map_set (key : string) (cell : nat) : ST EvictionState unit :=
  modify (λ s, mkEviction (all_key_list s) (<[key := cell]> (all_key_idx_map s)) (next_cell s)).

Definition map_erase (key : string) : ST EvictionState unit :=
  modify (λ s, mkEviction (all_key_list s) (delete key (all_key_idx_map s)) (next_cell s)).

(** ** The base class *)

Definition RemoveKey (key : string) : ST EvictionState ErrorCode :=
  m ← gets all_key_idx_map;
  match m !! key with
  | Some cell => list_erase cell;; map_erase key;; mret EC.OK
  | None => mret EC.OK
  end.

Definition GetSize (s : EvictionState) : Z := Z.of_nat (length (all_key_list s)).

Definition CleanUp : ST EvictionState unit :=
  modify (λ s, mkEviction [] ∅ (next_cell s)).

Module LRU.

Definition AddKey (key : string) : ST EvictionState ErrorCode :=
  m ← gets all_key_idx_map;
  match m !! key with
  | Some cell => list_erase cell;; map_erase key
  | None => mret tt
  end;;
  list_push_front key;;
  cell ← list_begin;
  map_set key cell;;
  mret EC.OK.

Definition UpdateKey (key : string) : ST EvictionState ErrorCode :=
  m ← gets all_key_idx_map;
  match m !! key with
  | Some cell =>
      list_erase cell;;
      list_push_front key;;
      cell' ← list_begin;
      map_set key cell';;
      mret EC.OK
  | None => mret EC.OK
  end.

Definition EvictKey : ST EvictionState string :=
  l ← gets all_key_list;
  match last l with
  | None => mret (String.EmptyString)
  | Some (_, evicted_key) =>
      modify (λ s, mkEviction (removelast (all_key_list s)) (all_key_idx_map s) (next_cell s));;
      map_erase evicted_key;;
      mret evicted_key
  end.

End LRU.

Module FIFO.

Definition AddKey (key : string) : ST EvictionState ErrorCode :=
  list_push_front key;; mret EC.OK.

Definition UpdateKey (key : string) : ST EvictionState ErrorCode := mret EC.OK.

Definition EvictKey : ST EvictionState string :=
  l ← gets all_key_list;
  match last l with
  | None => mret (String.EmptyString)
  | Some (_, evicted_key) =>
      modify (λ s, mkEviction (removelast (all_key_list s)) (all_key_idx_map s) (next_cell s));;
      mret evicted_key
  end.

End FIFO.

(** ** The LRU specification: time stamps

    Every key carries the time of its last use; the key with the oldest stamp
    is the one to evict. *)

Record Stamps := mkStamps { clock : Z; stamps : gmap string Z }.

Inductive eop := OAdd (k : string) | OUpdate (k : string) | ORemove (k : string) | OEvict.

(** [spec_step s op out s']: [out] is the key [OEvict] returns. *)
Inductive spec_step : Stamps → eop → option string → Stamps → Prop :=
| spec_add s k :
    spec_step s (OAdd k) None (mkStamps (clock s + 1) (<[k := clock s]> (stamps s)))
| spec_update_hit s k :
    is_Some (stamps s !! k) →
    spec_step s (OUpdate k) None (mkStamps (clock s + 1) (<[k := clock s]> (stamps s)))
| spec_update_miss s k :
    stamps s !! k = None → spec_step s (OUpdate k) None s
| spec_remove s k :
    spec_step s (ORemove k) None (mkStamps (clock s) (delete k (stamps s)))
| spec_evict_none s :
    stamps s = ∅ → spec_step s OEvict (Some String.EmptyString) s
| spec_evict s k t :
    stamps s !! k = Some t → (∀ k' t', stamps s !! k' = Some t' → t <= t') →
    spec_step s OEvict (Some k) (mkStamps (clock s) (delete k (stamps s))).

(** One call on the LRU strategy. *)
Definition lru_run (op : eop) : ST EvictionState (option string) :=
  match op with
  | OAdd k => LRU.AddKey k;; mret None
  | OUpdate k => LRU.UpdateKey k;; mret None
  | ORemove k => RemoveKey k;; mret None
  | OEvict => k ← LRU.EvictKey; mret (Some k)
  end.

(** ** The invariant *)

(** Cells are listed from the latest stamp to the oldest. *)
Definition newer (t : Stamps) (a b : nat * string) : Prop :=
  ∃ ta tb, stamps t !! a.2 = Some ta ∧ stamps t !! b.2 = Some tb ∧ tb < ta.

Record lru_inv (s : EvictionState) (t : Stamps) : Prop := {
  li_sorted : StronglySorted (newer t) (all_key_list s);
  li_keys k : is_Some (stamps t !! k) ↔ ∃ c, (c, k) ∈ all_key_list s;
  li_map k c : all_key_idx_map s !! k = Some c ↔ (c, k) ∈ all_key_list s;
  li_cells : NoDup (all_key_list s).*1;
  li_fresh c k : (c, k) ∈ all_key_list s → (c < next_cell s)%nat;
  li_clock k v : stamps t !! k = Some v → v < clock t;
}.

(** ** Dropping and adding a key *)

Definition drop_key (k : string) (s : EvictionState) : EvictionState :=
  mkEviction (filter (λ e, e.2 ≠ k) (all_key_list s)) (delete k (all_key_idx_map s)) (next_cell s).

Definition push_key (k : string) (s : EvictionState) : EvictionState :=
  mkEviction ((next_cell s, k) :: all_key_list s) (<[k := next_cell s]> (all_key_idx_map s)) (S (next_cell s)).

Lemma drop_key_inv k s t :
  lru_inv s t → lru_inv (drop_key k s) (mkStamps (clock t) (delete k (stamps t))).
Proof.
  intros [H1 H2 H3 H4 H5 H6]. split; simpl.
  - eapply StronglySorted_mono; [|apply StronglySorted_filter, H1].
    intros a b Ha Hb (ta & tb & Ea & Eb & Hlt). apply list_elem_of_filter in Ha as [Ha _], Hb as [Hb _].
    exists ta, tb. simpl. by rewrite !lookup_delete_ne.
  - intros k'. destruct (decide (k' = k)) as [->|Hne].
    + rewrite lookup_delete_eq. split; [by intros [? ?]|]. intros (c & Hc). by apply list_elem_of_filter in Hc as [? _].
    + rewrite lookup_delete_ne by done. rewrite H2. setoid_rewrite list_elem_of_filter. naive_solver.
  - intros k' c. rewrite list_elem_of_filter, lookup_delete_Some, H3. naive_solver.
  - by apply NoDup_fmap_filter.
  - intros c k'. rewrite list_elem_of_filter. intros [_ Hc]. by eapply H5.
  - intros k' v [_ E]%lookup_delete_Some. by eapply H6.
Qed.

Lemma push_key_inv k s t :
  lru_inv s t → stamps t !! k = None →
  lru_inv (push_key k s) (mkStamps (clock t + 1) (<[k := clock t]> (stamps t))).
Proof.
  intros [H1 H2 H3 H4 H5 H6] Hk.
  assert (∀ c k', (c, k') ∈ all_key_list s → k' ≠ k) as Hne.
  { intros c k' Hc ->. destruct (proj2 (H2 k)) as [v Hv]; [by exists c|]. congruence. }
  split; simpl.
  - constructor.
    + eapply StronglySorted_mono; [|exact H1]. intros [ca a] [cb b] Ha Hb (ta & tb & Ea & Eb & Hlt).
      exists ta, tb. simpl in *. rewrite !lookup_insert_ne; [done|intros <-..]; [exact (Hne _ _ Hb eq_refl)|exact (Hne _ _ Ha eq_refl)].
    + apply Forall_forall. intros [c b] Hb. destruct (proj2 (H2 b)) as [v Hv]; [by exists c|].
      exists (clock t), v. simpl. rewrite lookup_insert_eq, lookup_insert_ne by (intros <-; exact (Hne _ _ Hb eq_refl)). eauto.
  - intros k'. rewrite lookup_insert. case_decide as E.
    + subst. split; [intros _|done]. eexists. left.
    + rewrite H2. setoid_rewrite elem_of_cons. naive_solver.
  - intros k' c. rewrite lookup_insert_Some, elem_of_cons, H3. naive_solver.
  - constructor; [|done]. intros ([c k'] & E & Hc)%list_elem_of_fmap. apply H5 in Hc. simpl in E. lia.
  - intros c k' [[= -> ->]|Hc]%elem_of_cons; [lia|]. apply H5 in Hc. lia.
  - intros k' v [[<- <-]|[_ E]]%lookup_insert_Some; [lia|]. apply H6 in E. lia.
Qed.

(** Erasing the cell the map records for a key erases the key. *)
Lemma list_erase_ok s t k c Q :
  lru_inv s t → all_key_idx_map s !! k = Some c →
  Q tt (mkEviction (filter (λ e, e.2 ≠ k) (all_key_list s)) (all_key_idx_map s) (next_cell s)) →
  runs (list_erase c) s Q.
Proof.
  intros HI Hc HQ. apply (li_map _ _ HI) in Hc as Hin. unfold list_erase, runs.
  rewrite decide_True by (apply (list_elem_of_fmap_2 fst) in Hin; done).
  assert (filter (λ e : nat * string, e.1 ≠ c) (all_key_list s) = filter (λ e, e.2 ≠ k) (all_key_list s)) as ->;
    [|by eexists _, _].
  apply filter_ext_elem. intros [c' k'] He. simpl. split; intros Hne ->; apply Hne.
  - apply (li_map _ _ HI) in He. congruence.
  - by injection (NoDup_fmap_inj fst _ _ _ (li_cells _ _ HI) Hin He eq_refl).
Qed.

Lemma lru_key_cases s t k :
  lru_inv s t →
  (∃ c v, all_key_idx_map s !! k = Some c ∧ stamps t !! k = Some v) ∨
  (all_key_idx_map s !! k = None ∧ stamps t !! k = None).
Proof.
  intros HI. destruct (all_key_idx_map s !! k) as [c|] eqn:E; [left|right].
  - destruct (proj2 (li_keys _ _ HI k)) as [v Hv]; [exists c; by apply (li_map _ _ HI)|]. eauto.
  - split; [done|]. apply eq_None_not_Some. intros (c & Hc)%(li_keys _ _ HI).
    apply (li_map _ _ HI) in Hc. congruence.
Qed.

(** ** Each operation follows the specification *)

(** Pushing the key and recording its cell. *)
Lemma push_ok s k Q :
  Q EC.OK (push_key k s) →
  runs (list_push_front k;; cell ← list_begin; map_set k cell;; mret EC.OK) s Q.
Proof. intros HQ. by eexists _, _. Qed.

Lemma AddKey_ok s t k :
  lru_inv s t → runs (LRU.AddKey k) s (λ r s', r = EC.OK ∧
    lru_inv s' (mkStamps (clock t + 1) (<[k := clock t]> (stamps t)))).
Proof.
  intros HI. unfold LRU.AddKey. apply runs_bind, runs_gets, runs_bind.
  destruct (lru_key_cases s t k HI) as [(c & v & Ek & Hv)|[Ek Hv]]; rewrite Ek.
  - apply runs_bind. eapply list_erase_ok; [done|done|]. apply runs_modify, push_ok. split; [done|].
    pose proof (push_key_inv k _ _ (drop_key_inv k s t HI)) as HP. simpl in HP.
    rewrite insert_delete_eq in HP. apply HP, lookup_delete_eq.
  - apply runs_ret, push_ok. split; [done|]. by apply push_key_inv.
Qed.

Lemma UpdateKey_ok s t k :
  lru_inv s t → runs (LRU.UpdateKey k) s (λ r s', r = EC.OK ∧ ∃ t', spec_step t (OUpdate k) None t' ∧ lru_inv s' t').
Proof.
  intros HI. unfold LRU.UpdateKey. apply runs_bind, runs_gets.
  destruct (lru_key_cases s t k HI) as [(c & v & Ek & Hv)|[Ek Hv]]; rewrite Ek.
  - apply runs_bind. eapply list_erase_ok; [done|done|]. apply push_ok. split; [done|].
    eexists. split; [apply spec_update_hit; eauto|].
    pose proof (push_key_inv k _ _ (drop_key_inv k s t HI)) as HP. unfold push_key in HP. simpl in HP.
    rewrite !insert_delete_eq in HP. apply HP, lookup_delete_eq.
  - apply runs_ret. split; [done|]. exists t. split; [by apply spec_update_miss|done].
Qed.

Lemma RemoveKey_ok s t k :
  lru_inv s t → runs (RemoveKey k) s (λ r s', r = EC.OK ∧ lru_inv s' (mkStamps (clock t) (delete k (stamps t)))).
Proof.
  intros HI. unfold RemoveKey. apply runs_bind, runs_gets.
  destruct (lru_key_cases s t k HI) as [(c & v & Ek & Hv)|[Ek Hv]]; rewrite Ek.
  - apply runs_bind. eapply list_erase_ok; [done|done|].
    apply runs_bind, runs_modify, runs_ret. split; [done|]. exact (drop_key_inv k s t HI).
  - apply runs_ret. split; [done|]. rewrite delete_id by done. by destruct t.
Qed.

(** The last cell of the list holds the oldest stamp. *)
Lemma last_oldest s t l c k :
  lru_inv s t → all_key_list s = l ++ [(c, k)] →
  filter (λ e, e.2 ≠ k) (all_key_list s) = l ∧
  ∃ v, stamps t !! k = Some v ∧ ∀ k' v', stamps t !! k' = Some v' → v <= v'.
Proof.
  intros HI El. destruct (proj2 (li_keys _ _ HI k)) as [v Hv]; [exists c; rewrite El; set_solver|].
  assert (∀ e, e ∈ l → newer t e (c, k)) as Hnew.
  { pose proof (li_sorted _ _ HI) as HS. rewrite El in HS. clear El.
    induction l as [|e l IH]; [set_solver|]. apply StronglySorted_inv in HS as [HS HF].
    intros e' [->|He]%elem_of_cons; [|by apply IH]. rewrite Forall_forall in HF. apply HF. set_solver. }
  split.
  - rewrite El, filter_app, filter_cons_False, filter_nil, app_nil_r by naive_solver.
    apply filter_all. intros e He E.
    destruct (Hnew e He) as (ta & tb & Ea & Eb & Hlt). rewrite E in Ea. simpl in Eb. simplify_eq. lia.
  - exists v. split; [done|]. intros k' v' Hv'. destruct (proj1 (li_keys _ _ HI k')) as [c' Hc']; [eauto|].
    rewrite El in Hc'. apply elem_of_app in Hc' as [Hc'|Hc'].
    + destruct (Hnew _ Hc') as (ta & tb & Ea & Eb & Hlt). simpl in *. simplify_eq. lia.
    + apply list_elem_of_singleton in Hc'. simplify_eq. lia.
Qed.

Lemma EvictKey_ok s t :
  lru_inv s t → runs LRU.EvictKey s (λ k s', ∃ t', spec_step t OEvict (Some k) t' ∧ lru_inv s' t').
Proof.
  intros HI. unfold LRU.EvictKey. apply runs_bind, runs_gets.
  destruct (all_key_list s) as [|[c k] l _] eqn:El using rev_ind.
  - simpl. apply runs_ret. exists t. split; [|done]. apply spec_evict_none. apply map_empty. intros k.
    apply eq_None_not_Some. intros (c & Hc)%(li_keys _ _ HI). rewrite El in Hc. set_solver.
  - rewrite last_snoc. destruct (last_oldest _ _ _ _ _ HI El) as [Ef (v & Hv & Hmin)].
    apply runs_bind, runs_modify, runs_bind, runs_modify, runs_ret. simpl. rewrite El, removelast_last.
    exists (mkStamps (clock t) (delete k (stamps t))). split; [by eapply spec_evict|].
    pose proof (drop_key_inv k s t HI) as HD. unfold drop_key in HD. by rewrite Ef in HD.
Qed.

(** ** Runs of operations *)

Inductive lru_trace : list (eop * option string) → EvictionState → Prop :=
| lru_start : lru_trace [] eviction_init
| lru_next tr s op out s' :
    lru_trace tr s → lru_run op s = Some (out, s') → lru_trace ((op, out) :: tr) s'.

Inductive spec_trace : list (eop * option string) → Stamps → Prop :=
| spec_start : spec_trace [] (mkStamps 0 ∅)
| spec_next tr t op out t' :
    spec_trace tr t → spec_step t op out t' → spec_trace ((op, out) :: tr) t'.

Lemma lru_run_ok op s t :
  lru_inv s t → runs (lru_run op) s (λ out s', ∃ t', spec_step t op out t' ∧ lru_inv s' t').
Proof.
  intros HI. destruct op as [k|k|k|]; simpl; apply runs_bind.
  - eapply runs_mono; [by apply AddKey_ok|]. intros r s' [_ HI']. apply runs_ret. eexists. split; [apply spec_add|done].
  - eapply runs_mono; [by apply UpdateKey_ok|]. intros r s' [_ HI']. by apply runs_ret.
  - eapply runs_mono; [by apply RemoveKey_ok|]. intros r s' [_ HI']. apply runs_ret. eexists. split; [apply spec_remove|done].
  - eapply runs_mono; [by apply EvictKey_ok|]. intros k s' HI'. by apply runs_ret.
Qed.

Lemma lru_init_inv : lru_inv eviction_init (mkStamps 0 ∅).
Proof.
  split; simpl; [constructor| | |constructor|set_solver|].
  - intros k. rewrite lookup_empty. split; [by intros [? ?]|set_solver].
  - intros k c. rewrite lookup_empty. set_solver.
  - intros k v. by rewrite lookup_empty.
Qed.

Lemma lru_trace_inv tr s : lru_trace tr s → ∃ t, spec_trace tr t ∧ lru_inv s t.
Proof.
  induction 1 as [|tr s op out s' _ (t & Ht & HI) E].
  - eexists. split; [constructor|apply lru_init_inv].
  - destruct (runs_det _ _ _ _ _ (lru_run_ok op s t HI) E) as (t' & Hst & HI').
    exists t'. split; [by econstructor|done].
Qed.

(** C35: the LRU strategy evicts the least recently used key: every run of
    AddKey, UpdateKey, RemoveKey and EvictKey is a run of the time-stamp
    specification, with the same evicted keys, and the number of keys agrees. *)
Theorem lru_evicts_least_recent tr s :
  lru_trace tr s → ∃ t, spec_trace tr t ∧ GetSize s = Z.of_nat (size (stamps t)).
Proof.
  intros (t & Ht & HI)%lru_trace_inv. exists t. split; [done|]. unfold GetSize. f_equal.
  rewrite <-size_dom, <-(length_fmap snd).
  assert (NoDup (all_key_list s).*2) as Hnd.
  { pose proof (li_sorted _ _ HI) as HS. clear Ht HI. induction HS as [|e l _ IH HF]; simpl; constructor; [|done].
    intros (e' & E & He)%list_elem_of_fmap. eapply Forall_forall in HF as (ta & tb & Ea & Eb & Hlt); [|exact He].
    rewrite E in Ea. simplify_eq. lia. }
  rewrite <-(size_list_to_set (C := gset string)) by done. f_equal. apply set_eq. intros k.
  rewrite elem_of_list_to_set, elem_of_dom, (li_keys _ _ HI), list_elem_of_fmap. split.
  - intros ([c k'] & -> & Hc). by exists c.
  - intros (c & Hc). by exists (c, k).
Qed.

(** No operation of the LRU strategy uses a dangling list iterator: from
    every reachable state every operation returns. *)
Theorem lru_iterators_valid tr s op :
  lru_trace tr s → ∃ out s', lru_run op s = Some (out, s').
Proof.
  intros (t & _ & HI)%lru_trace_inv. destruct (lru_run_ok op s t HI) as (out & s' & E & _). eauto.
Qed.

(** The FIFO strategy never removes a key: it does not fill the position
    map, so [RemoveKey] finds nothing, and the key is still evicted later. *)
Theorem fifo_remove_is_ignored key :
  ∃ s1 s2 s3 s4, FIFO.AddKey key eviction_init = Some (EC.OK, s1) ∧
    RemoveKey key s1 = Some (EC.OK, s2) ∧ GetSize s2 = 1 ∧
    FIFO.EvictKey s2 = Some (key, s3) ∧ FIFO.EvictKey s3 = Some (String.EmptyString, s4).
Proof. by do 4 eexists. Qed.

(** ** A concrete run *)

Definition demo_trace : list (eop * option string) :=
  [(OEvict, Some "b"%string); (OUpdate "a", None); (OAdd "b", None); (OAdd "a", None)].

Definition demo_lru : EvictionState := mkEviction [(2%nat, "a"%string)] {["a"%string := 2%nat]} 3.

Lemma demo_lru_trace : lru_trace demo_trace demo_lru.
Proof.
  eapply lru_next; [eapply lru_next; [eapply lru_next; [eapply lru_next; [constructor|]|]|]|];
    vm_compute; reflexivity.
Qed.

Lemma lru_evicts_least_recent_witness :
  ∃ t, spec_trace demo_trace t ∧ GetSize demo_lru = Z.of_nat (size (stamps t)).
Proof. exact (lru_evicts_least_recent demo_trace demo_lru demo_lru_trace). Defined.

Lemma lru_iterators_valid_witness :
  ∃ out s', lru_run (ORemove "a") demo_lru = Some (out, s').
Proof. exact (lru_iterators_valid demo_trace demo_lru (ORemove "a") demo_lru_trace). Defined.
