(* ===== verification/Float64.v ===== *)
(** * Float64: the double arithmetic of the eviction thread

    IEEE binary64 by the standard library's executable specification, with the
    conversions C++ inserts: [double] from [long], [std::ceil], and the
    truncating conversion back to [long]. *)

From S2P Require Import Prelude.
From Stdlib Require Export SpecFloat.
Open Scope Z_scope.

Definition prec64 : Z := 53.
Definition emax64 : Z := 1024.

Definition f64_of_Z (z : Z) : spec_float := binary_normalize prec64 emax64 z 0 false.
Definition f64_add : spec_float → spec_float → spec_float := SFadd prec64 emax64.
Definition f64_sub : spec_float → spec_float → spec_float := SFsub prec64 emax64.
Definition f64_mul : spec_float → spec_float → spec_float := SFmul prec64 emax64.
Definition f64_div : spec_float → spec_float → spec_float := SFdiv prec64 emax64.
Definition f64_lt (x y : spec_float) : bool := SFltb x y.

(** [std::max(x, y)] is [x < y ? y : x]. *)
Definition f64_max (x y : spec_float) : spec_float := if f64_lt x y then y else x.

Definition f64_zero : spec_float := S754_zero false.
Definition f64_one : spec_float := Eval vm_compute in f64_of_Z 1.
Definition f64_half : spec_float := Eval vm_compute in f64_div (f64_of_Z 1) (f64_of_Z 2).

(** The integer a finite number truncates to. *)
Definition f64_trunc (x : spec_float) : Z :=
  match x with
  | S754_finite s m e =>
      let a := if 0 <=? e then Z.pos m * 2 ^ e else Z.pos m / 2 ^ (- e) in
      if s then - a else a
  | _ => 0
  end.

(** [std::ceil], exact: the result of a ceiling is representable. *)
Definition f64_ceil (x : spec_float) : spec_float :=
  match x with
  | S754_finite s m e =>
      if 0 <=? e then x
      else f64_of_Z (if s then - (Z.pos m / 2 ^ (- e)) else (Z.pos m + 2 ^ (- e) - 1) / 2 ^ (- e))
  | _ => x
  end.
