(* ===== verification/CacheSlab.v ===== *)
(** * CacheSlab: dividing a region into slabs

    CacheLib's [Slab.h], [SlabAllocator.h] and [SlabAllocator.cpp]
    (cachelib_memory_allocator).  A slab is an aligned piece of 16 MB; its header,
    kept in a separate region, says which pool and allocation class it belongs to.
    A [Slab*] is its address; a pointer to a header is the index of the header.

    CacheLib reports errors by exceptions.  [EX S A] is the state monad with faults
    whose result may be an exception; the changes made before it was thrown stay. *)

From S2P Require Import Prelude Types.
Open Scope Z_scope.

(** ** Exceptions *)

Inductive Exn := invalid_argument | runtime_error | logic_error | out_of_range | SlabReleaseAborted.

#[export] Instance Exn_eq_dec : EqDecision Exn.
Proof. solve_decision. Defined.

Definition EX (S A : Type) : Type := S → option ((Exn + A) * S).

#[export] Instance ex_ret S : MRet (EX S) := λ A x s, Some (inr x, s).
#[export] Instance ex_bind S : MBind (EX S) := λ A B k m s,
  match m s with
  | Some (inr x, s') => k x s'
  | Some (inl e, s') => Some (inl e, s')
  | None => None
  end.

Definition throw {S A} (e : Exn) : EX S A := λ s, Some (inl e, s).
Definition reads {S A} (f : S → A) : EX S A := λ s, Some (inr (f s), s).
Definition updates {S} (f : S → S) : EX S unit := λ s, Some (inr tt, f s).
Definition crash {S A} : EX S A := λ _, None.

(** [returns m s Q]: [m] neither faults nor throws, and ends in [Q]. *)
Definition returns {S A} (m : EX S A) (s : S) (Q : A → S → Prop) : Prop :=
  ∃ x s', m s = Some (inr x, s') ∧ Q x s'.

Section returns.
Context {S : Type}.

Lemma returns_ret {A} (x : A) (s : S) Q : Q x s → returns (mret x) s Q.
Proof. intros H. by exists x, s. Qed.

Lemma returns_bind {A B} (m : EX S A) (k : A → EX S B) s Q :
  returns m s (λ x s', returns (k x) s' Q) → returns (m ≫= k) s Q.
Proof.
  intros (x & s' & E & y & s'' & E' & H). exists y, s''. split; [|done].
  unfold mbind, ex_bind. by rewrite E.
Qed.

Lemma returns_reads {A} (f : S → A) (s : S) Q : Q (f s) s → returns (reads f) s Q.
Proof. intros H. by exists (f s), s. Qed.

Lemma returns_updates (f : S → S) (s : S) Q : Q tt (f s) → returns (updates f) s Q.
Proof. intros H. by exists tt, (f s). Qed.

Lemma returns_mono {A} (m : EX S A) s (P Q : A → S → Prop) :
  returns m s P → (∀ x s', P x s' → Q x s') → returns m s Q.
Proof. intros (x & s' & E & H) HPQ. exists x, s'. eauto. Qed.

End returns.

(** [tries m s Q E]: [m] does not fault; it returns in [Q] or throws in [E]. *)
Definition tries {S A} (m : EX S A) (s : S) (Q : A → S → Prop) (E : Exn → S → Prop) : Prop :=
  ∃ r s', m s = Some (r, s') ∧ match r with inr x => Q x s' | inl e => E e s' end.

Section tries.
Context {S : Type}.

Lemma tries_ret {A} (x : A) (s : S) Q E : Q x s → tries (mret x) s Q E.
Proof. intros H. by exists (inr x), s. Qed.

Lemma tries_throw {A} (e : Exn) (s : S) (Q : A → S → Prop) (E : Exn → S → Prop) : E e s → tries (throw e) s Q E.
Proof. intros H. by exists (inl e), s. Qed.

Lemma tries_bind {A B} (m : EX S A) (k : A → EX S B) s Q E :
  tries m s (λ x s', tries (k x) s' Q E) E → tries (m ≫= k) s Q E.
Proof.
  intros ([e|x] & s' & Em & H).
  - exists (inl e), s'. unfold mbind, ex_bind. by rewrite Em.
  - destruct H as (r & s'' & E' & H). exists r, s''. split; [|done]. unfold mbind, ex_bind. by rewrite Em.
Qed.

Lemma returns_tries {A} (m : EX S A) s Q E : returns m s Q → tries m s Q E.
Proof. intros (x & s' & Em & H). by exists (inr x), s'. Qed.

Lemma tries_bind_returns {A B} (m : EX S A) (k : A → EX S B) s P Q E :
  returns m s P → (∀ x s', P x s' → tries (k x) s' Q E) → tries (m ≫= k) s Q E.
Proof. intros (x & s' & Em & H) Hk. apply tries_bind. exists (inr x), s'. auto. Qed.

Lemma tries_reads {A} (f : S → A) (s : S) Q E : Q (f s) s → tries (reads f) s Q E.
Proof. intros H. by apply returns_tries, returns_reads. Qed.

Lemma tries_mono {A} (m : EX S A) s (P Q : A → S → Prop) (E E' : Exn → S → Prop) :
  tries m s P E → (∀ x s', P x s' → Q x s') → (∀ e s', E e s' → E' e s') → tries m s Q E'.
Proof. intros ([e|x] & s' & Em & H) HQ HE; eexists _, s'; (split; [done|]); simpl; auto. Qed.
End tries.

Ltac returns_step :=
  lazymatch goal with
  | |- returns (mret _) _ _ => apply returns_ret
  | |- returns (_ ≫= _) _ _ => apply returns_bind
  | |- returns (reads _) _ _ => apply returns_reads
  | |- returns (updates _) _ _ => apply returns_updates
  | |- returns (let _ := _ in _) _ _ => cbv zeta
  end.
Ltac returns_steps := repeat returns_step.

(** Running a computation on a part of the state. *)
Definition zoom {S T A} (get : S → T) (set : T → S → S) (m : EX T A) : EX S A := λ s,
  '(r, t) ← m (get s); Some (r, set t s).

(** ** Slabs and headers (Slab.h) *)

Definition kNumSlabBits : Z := 24.
Definition kSize : Z := Z.shiftl 1 kNumSlabBits.
Definition kMinAllocSize : Z := 2 ^ 6.
Definition kInvalidClassId : Z := -1.
Definition kInvalidPoolId : Z := -1.

Record SlabHeader := mkHeader {
  poolId : Z;
  classId : Z;
  flags : Z;
  allocSize : Z;
}.

Inductive SlabHeaderFlag := IS_MARKED_FOR_RELEASE | IS_ADVISED.
Definition flag_mask (f : SlabHeaderFlag) : Z :=
  match f with IS_MARKED_FOR_RELEASE => Z.shiftl 1 0 | IS_ADVISED => Z.shiftl 1 1 end.

Definition setFlag (f : SlabHeaderFlag) (h : SlabHeader) : SlabHeader :=
  mkHeader (poolId h) (classId h) (Z.lor (flags h) (flag_mask f)) (allocSize h).
Definition unSetFlag (f : SlabHeaderFlag) (h : SlabHeader) : SlabHeader :=
  mkHeader (poolId h) (classId h) (Z.land (flags h) (255 - flag_mask f)) (allocSize h).
Definition isFlagSet (f : SlabHeaderFlag) (h : SlabHeader) : bool :=
  negb (Z.land (flags h) (flag_mask f) =? 0).

Definition isAdvised : SlabHeader → bool := isFlagSet IS_ADVISED.
Definition isMarkedForRelease : SlabHeader → bool := isFlagSet IS_MARKED_FOR_RELEASE.
Definition setMarkedForRelease (value : bool) (h : SlabHeader) : SlabHeader :=
  if value then setFlag IS_MARKED_FOR_RELEASE h else unSetFlag IS_MARKED_FOR_RELEASE h.
Definition setAllocInfo (cid size : Z) (h : SlabHeader) : SlabHeader :=
  mkHeader (poolId h) cid (flags h) size.
Definition resetAllocInfo (h : SlabHeader) : SlabHeader :=
  mkHeader kInvalidPoolId kInvalidClassId (flags h) 0.
Definition new_header (pid : Z) : SlabHeader := mkHeader pid kInvalidClassId 0 0.

(** The header region is zero before the first header is constructed in it. *)
Definition raw_header : SlabHeader := mkHeader 0 0 0 0.
Definition sizeof_SlabHeader : Z := 7.

(** [SlabReleaseContext] *)
Inductive SlabReleaseMode := kResize | kRebalance.

#[export] Instance SlabReleaseMode_eq_dec : EqDecision SlabReleaseMode.
Proof. solve_decision. Defined.

Record SlabReleaseContext := mkContext {
  ctx_slab : Z;
  ctx_pid : Z;
  ctx_victim : Z;
  activeAllocations : list Z;
  ctx_receiver : Z;
  ctx_mode : SlabReleaseMode;
}.
Definition isReleased (ctx : SlabReleaseContext) : bool := bool_decide (activeAllocations ctx = []).
Definition setReceiver (receiver : Z) (ctx : SlabReleaseContext) : SlabReleaseContext :=
  mkContext (ctx_slab ctx) (ctx_pid ctx) (ctx_victim ctx) (activeAllocations ctx) receiver (ctx_mode ctx).

(** ** SlabAllocator *)

Module SlabAllocator.
Record t := mk {
  memoryPoolSize_ : gmap Z Z;
  freeSlabs_ : list Z;
  headerMemorySize_ : Z;
  headers : gmap Z SlabHeader;
  slabMemoryStart_ : Z;
  slabMemorySize_ : Z;
  nextSlabAllocation_ : Z;
  canAllocate_ : bool;
}.

Definition set_poolSize (f : gmap Z Z → gmap Z Z) (a : t) : t :=
  mk (f (memoryPoolSize_ a)) (freeSlabs_ a) (headerMemorySize_ a) (headers a) (slabMemoryStart_ a)
     (slabMemorySize_ a) (nextSlabAllocation_ a) (canAllocate_ a).
Definition set_freeSlabs (l : list Z) (a : t) : t :=
  mk (memoryPoolSize_ a) l (headerMemorySize_ a) (headers a) (slabMemoryStart_ a)
     (slabMemorySize_ a) (nextSlabAllocation_ a) (canAllocate_ a).
Definition set_headers (hs : gmap Z SlabHeader) (a : t) : t :=
  mk (memoryPoolSize_ a) (freeSlabs_ a) (headerMemorySize_ a) hs (slabMemoryStart_ a)
     (slabMemorySize_ a) (nextSlabAllocation_ a) (canAllocate_ a).
Definition set_next (n : Z) (a : t) : t :=
  mk (memoryPoolSize_ a) (freeSlabs_ a) (headerMemorySize_ a) (headers a) (slabMemoryStart_ a)
     (slabMemorySize_ a) n (canAllocate_ a).
Definition set_canAllocate (b : bool) (a : t) : t :=
  mk (memoryPoolSize_ a) (freeSlabs_ a) (headerMemorySize_ a) (headers a) (slabMemoryStart_ a)
     (slabMemorySize_ a) (nextSlabAllocation_ a) b.

Definition numSlabs (memorySize : Z) : Z := u32 (memorySize / kSize).

Definition new (headerMemoryStart headerMemorySize slabMemoryStart slabMemorySize : Z) : Exn + t :=
  if (headerMemoryStart =? 0) || (headerMemorySize <=? sizeof_SlabHeader * numSlabs slabMemorySize)
  then inl invalid_argument
  else if (slabMemoryStart =? 0) || negb (slabMemoryStart mod kSize =? 0) then inl invalid_argument
  else if negb (slabMemorySize mod kSize =? 0) then inl invalid_argument
  else inr (mk ∅ [] headerMemorySize ∅ slabMemoryStart slabMemorySize slabMemoryStart true).

Definition kAddressMask : Z := 2 ^ 64 - 1 - Z.shiftl 1 kNumSlabBits + 1.
Definition getSlabMemoryEnd (a : t) : Z := slabMemoryStart_ a + slabMemorySize_ a.
Definition getNumUsableSlabs (a : t) : Z := u32 ((getSlabMemoryEnd a - slabMemoryStart_ a) / kSize).
Definition allMemorySlabbed (a : t) : bool := nextSlabAllocation_ a =? getSlabMemoryEnd a.
Definition allSlabsAllocated (a : t) : bool := allMemorySlabbed a && bool_decide (freeSlabs_ a = []).
Definition getSlabForMemory (memory : Z) : Z := Z.land memory kAddressMask.
Definition isValidSlab (a : t) (slab : Z) : bool :=
  (slabMemoryStart_ a <=? slab) && (slab <? nextSlabAllocation_ a) && (getSlabForMemory slab =? slab).
Definition isMemoryInSlab (a : t) (ptr slab : Z) : bool :=
  isValidSlab a slab && (getSlabForMemory ptr =? slab).
Definition slabIdx (a : t) (slab : Z) : Z := u32 ((slab - slabMemoryStart_ a) / kSize).
Definition getSlabForIdx (a : t) (idx : Z) : Z := slabMemoryStart_ a + idx * kSize.

(** The two overloads of [getSlabHeader]: for a slab, and for an address inside one. *)
Definition getSlabHeader (a : t) (slab : Z) : option Z :=
  if isValidSlab a slab then Some (slabIdx a slab) else None.
Definition getSlabHeaderFor (a : t) (memory : Z) : option Z := getSlabHeader a (getSlabForMemory memory).

(** Reading and writing a header through its pointer. *)
Definition in_headers (a : t) (i : Z) : bool :=
  (0 <=? i) && (sizeof_SlabHeader * (i + 1) <=? headerMemorySize_ a).
Definition header_at (a : t) (i : Z) : SlabHeader := default raw_header (headers a !! i).
Definition readHeader (i : Z) : EX t SlabHeader := λ a,
  if in_headers a i then Some (inr (header_at a i), a) else None.
Definition modHeader (i : Z) (f : SlabHeader → SlabHeader) : EX t unit := λ a,
  if in_headers a i then Some (inr tt, set_headers (<[i := f (header_at a i)]> (headers a)) a) else None.

Definition addPoolSize (id d : Z) : EX t unit := λ a,
  if (0 <=? id) && (id <? 127)
  then Some (inr tt, set_poolSize (λ m, <[id := u64 (default 0 (m !! id) + d)]> m) a)
  else None.

Definition makeNewSlabImpl : EX t (option Z) := λ a,
  if negb (canAllocate_ a) then Some (inr None, a)
  else match last (freeSlabs_ a) with
  | Some slab => Some (inr (Some slab), set_freeSlabs (removelast (freeSlabs_ a)) a)
  | None =>
      if allMemorySlabbed a then Some (inr None, set_canAllocate false a)
      else Some (inr (Some (nextSlabAllocation_ a)), set_next (nextSlabAllocation_ a + kSize) a)
  end.

Definition initializeHeader (slab id : Z) : EX t unit := λ a,
  match getSlabHeader a slab with
  | Some i => modHeader i (λ _, new_header id) a
  | None => None
  end.

Definition makeNewSlab (id : Z) : EX t (option Z) :=
  slab ← makeNewSlabImpl;
  match slab with
  | None => mret None
  | Some slab =>
      addPoolSize id kSize;;
      initializeHeader slab id;;
      mret (Some slab)
  end.

Definition freeSlab (slab : Z) : EX t unit :=
  header ← reads (λ a, getSlabHeader a slab);
  match header with
  | None => throw runtime_error
  | Some i =>
      h ← readHeader i;
      addPoolSize (poolId h) (- kSize);;
      updates (λ a, set_canAllocate true (set_freeSlabs (freeSlabs_ a ++ [slab]) a));;
      modHeader i resetAllocInfo
  end.
End SlabAllocator.
