(* ===== verification/CacheClass.v ===== *)
(** * CacheClass: allocations of one size

    CacheLib's [AllocationClass.h] and [AllocationClass.cpp].  A class carves its
    slabs into chunks of its size and keeps a list of freed chunks.  A slab in use
    is released in steps: [startSlabRelease] marks it and collects the chunks still
    held, the holder frees them, [completeSlabRelease] takes the slab away.

    Operations run on the class together with the slab allocator whose headers
    they use.  Every lock section of the source is atomic; [pruneFreeAllocs]
    leaves the lock between its batches, and is given here as the sequence of its
    sections.  [abort n] is the answer of [shouldAbortFn] when it is asked for the
    [n]-th time, [rnd n] the random number drawn from [0..n]. *)

From S2P Require Import Prelude Types CacheSlab.
Open Scope Z_scope.

Module AllocationClass.
Import SlabAllocator (getSlabForMemory, getSlabHeader, getSlabHeaderFor, isValidSlab, isMemoryInSlab, readHeader, modHeader).

Record t := mk {
  classId_ : Z;
  poolId_ : Z;
  allocationSize_ : Z;
  currOffset_ : Z;
  currSlab_ : option Z;
  allocatedSlabs_ : list Z;
  freeSlabs_ : list Z;
  freedAllocations_ : list Z;
  canAllocate_ : bool;
  activeReleases_ : Z;
  slabReleaseAllocMap_ : gmap Z (list bool);
}.

Definition set_current (slab : option Z) (offset : Z) (c : t) : t :=
  mk (classId_ c) (poolId_ c) (allocationSize_ c) offset slab (allocatedSlabs_ c) (freeSlabs_ c)
     (freedAllocations_ c) (canAllocate_ c) (activeReleases_ c) (slabReleaseAllocMap_ c).
Definition set_slabs (allocated free : list Z) (c : t) : t :=
  mk (classId_ c) (poolId_ c) (allocationSize_ c) (currOffset_ c) (currSlab_ c) allocated free
     (freedAllocations_ c) (canAllocate_ c) (activeReleases_ c) (slabReleaseAllocMap_ c).
Definition set_freed (l : list Z) (c : t) : t :=
  mk (classId_ c) (poolId_ c) (allocationSize_ c) (currOffset_ c) (currSlab_ c) (allocatedSlabs_ c) (freeSlabs_ c)
     l (canAllocate_ c) (activeReleases_ c) (slabReleaseAllocMap_ c).
Definition set_canAllocate (b : bool) (c : t) : t :=
  mk (classId_ c) (poolId_ c) (allocationSize_ c) (currOffset_ c) (currSlab_ c) (allocatedSlabs_ c) (freeSlabs_ c)
     (freedAllocations_ c) b (activeReleases_ c) (slabReleaseAllocMap_ c).
Definition add_releases (d : Z) (c : t) : t :=
  mk (classId_ c) (poolId_ c) (allocationSize_ c) (currOffset_ c) (currSlab_ c) (allocatedSlabs_ c) (freeSlabs_ c)
     (freedAllocations_ c) (canAllocate_ c) (activeReleases_ c + d) (slabReleaseAllocMap_ c).
Definition set_releaseMap (m : gmap Z (list bool)) (c : t) : t :=
  mk (classId_ c) (poolId_ c) (allocationSize_ c) (currOffset_ c) (currSlab_ c) (allocatedSlabs_ c) (freeSlabs_ c)
     (freedAllocations_ c) (canAllocate_ c) (activeReleases_ c) m.

Definition State : Type := t * SlabAllocator.t.
Definition on_class (f : t → t) : EX State unit := updates (λ s, (f s.1, s.2)).
Definition on_slabs {A} (m : EX SlabAllocator.t A) : EX State A := zoom snd (λ a s, (s.1, a)) m.

(** The constructor; [checkState] looks at the fields it has just set. *)
Definition new (classId poolId allocSize : Z) : Exn + t :=
  if classId <? 0 then inl invalid_argument
  else if kSize <? allocSize then inl invalid_argument
  else inr (mk classId poolId allocSize 0 None [] [] [] true 0 ∅).

Definition getAllocsPerSlab (c : t) : Z := kSize / allocationSize_ c.

Definition addSlabLocked (slab : Z) : EX State unit :=
  on_class (set_canAllocate true);;
  header ← reads (λ s, getSlabHeader s.2 slab);
  match header with
  | None => crash
  | Some i =>
      c ← reads fst;
      on_slabs (modHeader i (setAllocInfo (classId_ c) (allocationSize_ c)));;
      on_class (λ c, set_slabs (allocatedSlabs_ c) (freeSlabs_ c ++ [slab]) c)
  end.

Definition addSlab (slab : Z) : EX State unit := addSlabLocked slab.

(** [currOffset_ + allocationSize_] is computed in 32 bits. *)
Definition canAllocateFromCurrentSlabLocked (c : t) : bool :=
  bool_decide (is_Some (currSlab_ c)) && (u32 (currOffset_ c + allocationSize_ c) <=? kSize).

Definition allocateFromCurrentSlabLocked : EX State Z := λ s,
  let c := s.1 in
  match currSlab_ c with
  | Some slab => Some (inr (slab + currOffset_ c),
                       (set_current (Some slab) (u32 (currOffset_ c + allocationSize_ c)) c, s.2))
  | None => None
  end.

Definition setupCurrentSlabLocked : EX State unit := λ s,
  let c := s.1 in
  match last (freeSlabs_ c) with
  | Some slab => Some (inr tt, (set_current (Some slab) 0
                     (set_slabs (allocatedSlabs_ c ++ [slab]) (removelast (freeSlabs_ c)) c), s.2))
  | None => None
  end.

Definition allocateLocked : EX State (option Z) :=
  c ← reads fst;
  if bool_decide (freedAllocations_ c = []) && bool_decide (freeSlabs_ c = [])
     && negb (canAllocateFromCurrentSlabLocked c)
  then on_class (set_canAllocate false);; mret None
  else match freedAllocations_ c with
  | ret :: rest => on_class (set_freed rest);; mret (Some ret)
  | [] =>
      if canAllocateFromCurrentSlabLocked c then ret ← allocateFromCurrentSlabLocked; mret (Some ret)
      else setupCurrentSlabLocked;; ret ← allocateFromCurrentSlabLocked; mret (Some ret)
  end.

Definition allocate : EX State (option Z) :=
  c ← reads fst;
  if negb (canAllocate_ c) then mret None else allocateLocked.

Definition addSlabAndAllocate (slab : Z) : EX State (option Z) :=
  addSlabLocked slab;; allocateLocked.

(** ** Freeing *)

Definition getAllocIdx (c : t) (slab alloc : Z) : Z := (alloc - slab) / allocationSize_ c.
Definition getAllocForIdx (slab idx : Z) : EX State Z :=
  c ← reads fst;
  if getAllocsPerSlab c <=? idx then throw invalid_argument else mret (slab + idx * allocationSize_ c).

(** [allocState[idx] = true], a fault outside the vector. *)
Definition mark_freed (idx : Z) (allocState : list bool) : option (list bool) :=
  if (0 <=? idx) && (idx <? Z.of_nat (length allocState)) then Some (<[Z.to_nat idx := true]> allocState) else None.

Definition free (memory : Z) : EX State unit :=
  header ← reads (λ s, getSlabHeaderFor s.2 memory);
  let slab := getSlabForMemory memory in
  match header with
  | None => throw invalid_argument
  | Some i =>
      h ← on_slabs (readHeader i);
      c ← reads fst;
      if negb (classId h =? classId_ c) then throw invalid_argument
      else if isMarkedForRelease h then
        match slabReleaseAllocMap_ c !! slab with
        | None => throw runtime_error
        | Some allocState =>
            let idx := getAllocIdx c slab memory in
            match allocState !! Z.to_nat idx with
            | None => crash
            | Some true => throw invalid_argument
            | Some false =>
                on_class (set_releaseMap (<[slab := <[Z.to_nat idx := true]> allocState]> (slabReleaseAllocMap_ c)))
            end
        end
      else on_class (λ c, set_canAllocate true (set_freed (memory :: freedAllocations_ c) c))
  end.

(** ** Releasing a slab *)

Definition getSlabForReleaseLocked (rnd : Z → Z) (c : t) : option Z :=
  match freeSlabs_ c with
  | slab :: _ => Some slab
  | [] =>
      match allocatedSlabs_ c with
      | [] => None
      | _ => allocatedSlabs_ c !! Z.to_nat (rnd (Z.of_nat (length (allocatedSlabs_ c)) - 1))
      end
  end.

(** [*it = v.back(); v.pop_back()] for the first occurrence of [x] in [v]. *)
Definition swap_remove (x : Z) (v : list Z) : option (list Z) :=
  '(i, _) ← list_find (x =.) v;
  y ← last v;
  Some (removelast (<[i := y]> v)).

Definition kFreeAllocsPruneLimit : nat := 4 * 1024.

(** The free list, and the two lists its elements are put on. *)
Fixpoint partition_loop (n : nat) (a : SlabAllocator.t) (slab : Z) (freeAllocs inSlab notInSlab : list Z)
    : list Z * list Z * list Z :=
  match n, freeAllocs with
  | S n, alloc :: rest =>
      if isMemoryInSlab a alloc slab then partition_loop n a slab rest (alloc :: inSlab) notInSlab
      else partition_loop n a slab rest inSlab (alloc :: notInSlab)
  | _, _ => (freeAllocs, inSlab, notInSlab)
  end.
Definition partitionFreeAllocs : SlabAllocator.t → Z → list Z → list Z → list Z → list Z * list Z * list Z :=
  partition_loop kFreeAllocsPruneLimit.

Fixpoint mark_all (c : t) (slab : Z) (allocs : list Z) (allocState : list bool) : option (list bool) :=
  match allocs with
  | [] => Some allocState
  | alloc :: rest => mark_freed (getAllocIdx c slab alloc) allocState ≫= mark_all c slab rest
  end.

(** The section that puts the checked allocations back and marks those of the slab. *)
Definition prune_section (slab : Z) (inSlab notInSlab : list Z) : EX State unit :=
  (if bool_decide (notInSlab = []) then mret tt
   else on_class (λ c, set_canAllocate true (set_freed (notInSlab ++ freedAllocations_ c) c)));;
  c ← reads fst;
  match slabReleaseAllocMap_ c !! slab with
  | None => throw out_of_range
  | Some allocState =>
      match mark_all c slab inSlab allocState with
      | None => crash
      | Some allocState => on_class (set_releaseMap (<[slab := allocState]> (slabReleaseAllocMap_ c)))
      end
  end.

(** The loop of [pruneFreeAllocs]: whether to abort, and the three lists it ends
    with.  Each round but the last takes elements off [freeAllocs]. *)
Fixpoint prune_loop (fuel : nat) (k : nat) (abort : nat → bool) (slab : Z) (freeAllocs inSlab notInSlab : list Z)
    : EX State (bool * (list Z * list Z * list Z)) :=
  if abort k then mret (true, (freeAllocs, inSlab, notInSlab)) else
  prune_section slab inSlab notInSlab;;
  match fuel, freeAllocs with
  | _, [] => mret (false, ([], [], []))
  | 0%nat, _ => crash
  | S fuel, _ =>
      a ← reads snd;
      let '(freeAllocs, inSlab, notInSlab) := partitionFreeAllocs a slab freeAllocs [] [] in
      prune_loop fuel (S k) abort slab freeAllocs inSlab notInSlab
  end.

(** The chunks of the slab that are not freed. *)
Definition active_allocations (c : t) (slab : Z) (allocState : list bool) : list Z :=
  omap (λ '(i, freed), if (freed : bool) then None else Some (slab + Z.of_nat i * allocationSize_ c))
       (zip (seq 0 (length allocState)) allocState).

Definition pruneFreeAllocs (abort : nat → bool) (slab : Z) : EX State (bool * list Z) :=
  c ← reads fst;
  a ← reads snd;
  on_class (set_freed []);;
  let '(freeAllocs, inSlab, notInSlab) := partitionFreeAllocs a slab (freedAllocations_ c) [] [] in
  '(shouldAbort, (freeAllocs, inSlab, notInSlab)) ←
    prune_loop (length (freedAllocations_ c)) 0 abort slab freeAllocs inSlab notInSlab;
  if (shouldAbort : bool) then
    on_class (λ c, set_freed (inSlab ++ notInSlab ++ freeAllocs ++ freedAllocations_ c) c);;
    mret (true, [])
  else
    c ← reads fst;
    match slabReleaseAllocMap_ c !! slab with
    | None => throw out_of_range
    | Some allocState => mret (false, active_allocations c slab allocState)
    end.

(** The slab in use is marked and taken off the allocated slabs; what has not been
    carved from it counts as freed. *)
Definition mark_used (slab i : Z) : EX State unit :=
  on_slabs (modHeader i (setMarkedForRelease true));;
  c ← reads fst;
  match slabReleaseAllocMap_ c !! slab with
  | Some _ => throw runtime_error
  | None =>
      on_class (set_releaseMap (<[slab := replicate (Z.to_nat (getAllocsPerSlab c)) false]> (slabReleaseAllocMap_ c)));;
      match swap_remove slab (allocatedSlabs_ c) with
      | None => throw runtime_error
      | Some allocated =>
          on_class (set_slabs allocated (freeSlabs_ c));;
          if bool_decide (currSlab_ c = Some slab) then
            on_class (λ c, set_current None 0 (set_releaseMap
              (alter (imap (λ j freed, bool_decide (currOffset_ c / allocationSize_ c <= Z.of_nat j) || freed))
                 slab (slabReleaseAllocMap_ c)) c))
          else mret tt
      end
  end.

(** The first section of [startSlabRelease]: a free slab is handed over at once
    ([Some] context), a slab in use is marked. *)
Definition mark_for_release (rnd : Z → Z) (mode : SlabReleaseMode) (hint : option Z)
    : EX State (Z * Z * option SlabReleaseContext) :=
  c ← reads fst;
  match (match hint with None => getSlabForReleaseLocked rnd c | Some m => Some (getSlabForMemory m) end) with
  | None => throw invalid_argument
  | Some slab =>
      header ← reads (λ s, getSlabHeader s.2 slab);
      match header with
      | None => throw invalid_argument
      | Some i =>
          h ← on_slabs (readHeader i);
          if negb (classId h =? classId_ c) || negb (poolId h =? poolId_ c) || isMarkedForRelease h
          then throw invalid_argument
          else match swap_remove slab (freeSlabs_ c) with
          | Some free =>
              on_class (set_slabs (allocatedSlabs_ c) free);;
              on_slabs (modHeader i (setAllocInfo kInvalidClassId 0));;
              mret (slab, i, Some (mkContext slab (poolId h) kInvalidClassId [] kInvalidClassId mode))
          | None => mark_used slab i;; mret (slab, i, None)
          end
      end
  end.

(** The end of [startSlabRelease], when the free list has been pruned. *)
Definition finish_start (mode : SlabReleaseMode) (slab i : Z) (aborted : bool) (active : list Z)
    : EX State SlabReleaseContext :=
  if aborted then
    on_slabs (modHeader i (setMarkedForRelease false));;
    on_class (λ c, set_releaseMap (delete slab (slabReleaseAllocMap_ c)) c);;
    throw SlabReleaseAborted
  else if bool_decide (active = []) then
    on_slabs (modHeader i (λ h, setMarkedForRelease false (setAllocInfo kInvalidClassId 0 h)));;
    on_class (λ c, set_releaseMap (delete slab (slabReleaseAllocMap_ c)) c);;
    h ← on_slabs (readHeader i);
    mret (mkContext slab (poolId h) (classId h) [] kInvalidClassId mode)
  else
    on_class (add_releases 1);;
    h ← on_slabs (readHeader i);
    mret (mkContext slab (poolId h) (classId h) active kInvalidClassId mode).

Definition startSlabRelease (rnd : Z → Z) (abort : nat → bool) (mode : SlabReleaseMode) (hint : option Z)
    : EX State SlabReleaseContext :=
  a ← reads snd;
  if match hint with None => false | Some m => negb (isValidSlab a (getSlabForMemory m)) end
  then throw invalid_argument else
  '(slab, i, released) ← mark_for_release rnd mode hint;
  match released with
  | Some ctx => mret ctx
  | None =>
      '(aborted, active) ← pruneFreeAllocs abort slab;
      finish_start mode slab i aborted active
  end.

Definition allFreed (slab : Z) (c : t) : Exn + bool :=
  match slabReleaseAllocMap_ c !! slab with
  | None => inl runtime_error
  | Some allocState => inr (forallb id allocState)
  end.

(** The loop of [abortSlabRelease] over the state of the slab: freed chunks go back
    to the free list. *)
Fixpoint restore_loop (slab idx : Z) (allocState : list bool) (inserted : bool) : EX State bool :=
  match allocState with
  | [] => mret inserted
  | true :: rest =>
      alloc ← getAllocForIdx slab idx;
      on_class (λ c, set_freed (alloc :: freedAllocations_ c) c);;
      restore_loop slab (idx + 1) rest true
  | false :: rest => restore_loop slab (idx + 1) rest inserted
  end.

Definition abortSlabRelease (ctx : SlabReleaseContext) : EX State unit :=
  if isReleased ctx then throw invalid_argument else
  let slab := ctx_slab ctx in
  header ← reads (λ s, getSlabHeader s.2 slab);
  c ← reads fst;
  inserted ← restore_loop slab 0 (default [] (slabReleaseAllocMap_ c !! slab)) false;
  (if (inserted : bool) then on_class (set_canAllocate true) else mret tt);;
  on_class (λ c, set_slabs (allocatedSlabs_ c ++ [slab]) (freeSlabs_ c)
    (set_releaseMap (delete slab (slabReleaseAllocMap_ c)) c));;
  match header with
  | None => crash
  | Some i =>
      on_slabs (modHeader i (λ h, setMarkedForRelease false (setAllocInfo (classId_ c) (allocationSize_ c) h)));;
      on_class (add_releases (-1))
  end.

(** [completeSlabRelease] waits until the holders have freed everything; [false]
    says that the call is still waiting. *)
Definition completeSlabRelease (ctx : SlabReleaseContext) : EX State bool :=
  if isReleased ctx then mret true else
  let slab := ctx_slab ctx in
  header ← reads (λ s, getSlabHeader s.2 slab);
  match header with
  | None => throw runtime_error
  | Some i =>
      h ← on_slabs (readHeader i);
      c ← reads fst;
      if negb (classId h =? classId_ c) || negb (isMarkedForRelease h) then throw runtime_error
      else match allFreed slab c with
      | inl e => throw e
      | inr false => mret false
      | inr true =>
          on_class (λ c, add_releases (-1) (set_releaseMap (delete slab (slabReleaseAllocMap_ c)) c));;
          on_slabs (modHeader i (λ h, setMarkedForRelease false (setAllocInfo kInvalidClassId 0 h)));;
          mret true
      end
  end.

(** ** Looking at a release *)

Definition checkSlabInRelease (ctx : SlabReleaseContext) (memory : Z) : EX State unit :=
  header ← reads (λ s, getSlabHeaderFor s.2 memory);
  match header with
  | None => throw invalid_argument
  | Some i =>
      h ← on_slabs (readHeader i);
      c ← reads fst;
      if negb (classId h =? classId_ c) then throw invalid_argument
      else if negb (isMarkedForRelease h) then throw invalid_argument
      else if negb (getSlabForMemory memory =? ctx_slab ctx) then throw invalid_argument
      else mret tt
  end.

Definition isAllocFreed (ctx : SlabReleaseContext) (memory : Z) : EX State bool :=
  checkSlabInRelease ctx memory;;
  c ← reads fst;
  let slab := getSlabForMemory memory in
  match slabReleaseAllocMap_ c !! slab with
  | None => throw runtime_error
  | Some allocState =>
      match allocState !! Z.to_nat (getAllocIdx c slab memory) with
      | Some freed => mret freed
      | None => crash
      end
  end.

(** Whether [processAllocForRelease] calls its callback. *)
Definition processAllocForRelease (ctx : SlabReleaseContext) (memory : Z) : EX State bool :=
  freed ← isAllocFreed ctx memory; mret (negb freed).

Inductive SlabIterationStatus :=
  kFinishedCurrentSlabAndContinue | kSkippedCurrentSlabAndContinue | kAbortIteration.

(** The loop over the chunks: the callback is asked until it answers [false]; the
    chunks it was called with are returned. *)
Fixpoint visit_chunks (callback : Z → bool) (n : nat) (ptr size : Z) : SlabIterationStatus * list Z :=
  match n with
  | 0%nat => (kFinishedCurrentSlabAndContinue, [])
  | S n =>
      if callback ptr then
        let '(status, visited) := visit_chunks callback n (ptr + size) size in (status, ptr :: visited)
      else (kAbortIteration, [ptr])
  end.

Definition forEachAllocation (callback : Z → bool) (slab : Z) : EX State (SlabIterationStatus * list Z) :=
  header ← reads (λ s, getSlabHeader s.2 slab);
  match header with
  | None => mret (kSkippedCurrentSlabAndContinue, [])
  | Some i =>
      h ← on_slabs (readHeader i);
      c ← reads fst;
      if negb (classId h =? classId_ c) || negb (poolId h =? poolId_ c) || isAdvised h || isMarkedForRelease h
      then mret (kSkippedCurrentSlabAndContinue, [])
      else mret (visit_chunks callback (Z.to_nat (getAllocsPerSlab c)) slab (allocationSize_ c))
  end.
End AllocationClass.
