(* ===== verification/CachePool.v ===== *)
(** * CachePool: allocations of any size from one pool

    CacheLib's [MemoryPool.h] and [MemoryPool.cpp].  A pool has one allocation class
    per size and may take slabs up to its maximum size from the slab allocator.  A
    [std::set<uint32_t>] of sizes is its increasing list.  Counters are 64-bit. *)

From S2P Require Import Prelude Types CacheSlab CacheClass.
Open Scope Z_scope.

Module MemoryPool.
Record t := mk {
  id_ : Z;
  maxSize_ : Z;
  currSlabAllocSize_ : Z;
  currAllocSize_ : Z;
  freeSlabs_ : list Z;
  acSizes_ : list Z;
  ac_ : list AllocationClass.t;
  curSlabsAdvised_ : Z;
  nSlabResize_ : Z;
  nSlabRebalance_ : Z;
  nSlabReleaseAborted_ : Z;
}.

Definition resize (size : Z) (p : t) : t :=
  mk (id_ p) size (currSlabAllocSize_ p) (currAllocSize_ p) (freeSlabs_ p) (acSizes_ p) (ac_ p)
     (curSlabsAdvised_ p) (nSlabResize_ p) (nSlabRebalance_ p) (nSlabReleaseAborted_ p).
Definition add_slabAlloc (d : Z) (p : t) : t :=
  mk (id_ p) (maxSize_ p) (u64 (currSlabAllocSize_ p + d)) (currAllocSize_ p) (freeSlabs_ p) (acSizes_ p) (ac_ p)
     (curSlabsAdvised_ p) (nSlabResize_ p) (nSlabRebalance_ p) (nSlabReleaseAborted_ p).
Definition add_alloc (d : Z) (p : t) : t :=
  mk (id_ p) (maxSize_ p) (currSlabAllocSize_ p) (u64 (currAllocSize_ p + d)) (freeSlabs_ p) (acSizes_ p) (ac_ p)
     (curSlabsAdvised_ p) (nSlabResize_ p) (nSlabRebalance_ p) (nSlabReleaseAborted_ p).
Definition set_freeSlabs (l : list Z) (p : t) : t :=
  mk (id_ p) (maxSize_ p) (currSlabAllocSize_ p) (currAllocSize_ p) l (acSizes_ p) (ac_ p)
     (curSlabsAdvised_ p) (nSlabResize_ p) (nSlabRebalance_ p) (nSlabReleaseAborted_ p).
Definition set_ac (l : list AllocationClass.t) (p : t) : t :=
  mk (id_ p) (maxSize_ p) (currSlabAllocSize_ p) (currAllocSize_ p) (freeSlabs_ p) (acSizes_ p) l
     (curSlabsAdvised_ p) (nSlabResize_ p) (nSlabRebalance_ p) (nSlabReleaseAborted_ p).
Definition count (resized rebalanced aborted : Z) (p : t) : t :=
  mk (id_ p) (maxSize_ p) (currSlabAllocSize_ p) (currAllocSize_ p) (freeSlabs_ p) (acSizes_ p) (ac_ p)
     (curSlabsAdvised_ p) (u32 (nSlabResize_ p + resized)) (u32 (nSlabRebalance_ p + rebalanced))
     (u32 (nSlabReleaseAborted_ p + aborted)).

Definition State : Type := t * SlabAllocator.t.
Definition on_pool (f : t → t) : EX State unit := updates (λ s, (f s.1, s.2)).
Definition on_slabs {A} (m : EX SlabAllocator.t A) : EX State A := zoom snd (λ a s, (s.1, a)) m.

(** An operation on the class [ac_[cid]], a fault outside the vector. *)
Definition with_class {A} (cid : Z) (m : EX AllocationClass.State A) : EX State A := λ s,
  if cid <? 0 then None else
  c ← ac_ s.1 !! Z.to_nat cid;
  '(r, (c', a')) ← m (c, s.2);
  Some (r, (set_ac (<[Z.to_nat cid := c']> (ac_ s.1)) s.1, a')).

(** ** Construction *)

Fixpoint create_classes (id pool : Z) (sizes : list Z) : Exn + list AllocationClass.t :=
  match sizes with
  | [] => inr []
  | size :: rest =>
      if (size <? kMinAllocSize) || (kSize <? size) then inl invalid_argument else
      match AllocationClass.new id pool size with
      | inl e => inl e
      | inr c => match create_classes (id + 1) pool rest with inl e => inl e | inr cs => inr (c :: cs) end
      end
  end.
Definition createAllocationClasses (pool : Z) (sizes : list Z) : Exn + list AllocationClass.t :=
  create_classes 0 pool sizes.

Fixpoint is_sorted (l : list Z) : bool :=
  match l with
  | x :: (y :: _) as rest => (x <=? y) && is_sorted rest
  | _ => true
  end.
Fixpoint has_adjacent (l : list Z) : bool :=
  match l with
  | x :: (y :: _) as rest => (x =? y) || has_adjacent rest
  | _ => false
  end.

(** [checkState] on a pool that was just built: no slab is allocated or free yet. *)
Definition checkState (p : t) : bool :=
  negb (id_ p <? 0) && negb (currSlabAllocSize_ p <? currAllocSize_ p)
  && negb (bool_decide (acSizes_ p = [])) && negb (bool_decide (length (ac_ p) = 0%nat))
  && bool_decide (length (acSizes_ p) = length (ac_ p))
  && is_sorted (acSizes_ p) && negb (has_adjacent (acSizes_ p))
  && forallb (λ '(size, c), (size =? AllocationClass.allocationSize_ c) && (kMinAllocSize <=? size) && (size <=? kSize))
       (zip (acSizes_ p) (ac_ p)).

Definition new (id poolSize : Z) (allocSizes : list Z) : Exn + t :=
  match createAllocationClasses id allocSizes with
  | inl e => inl e
  | inr ac =>
      let p := mk id poolSize 0 0 [] allocSizes ac 0 0 0 0 in
      if checkState p then inr p else inl invalid_argument
  end.

(** ** Sizes *)

Definition getPoolAdvisedSize (p : t) : Z := u64 (curSlabsAdvised_ p * kSize).
Definition getPoolUsableSize (p : t) : Z :=
  if maxSize_ p <=? getPoolAdvisedSize p then 0 else maxSize_ p - getPoolAdvisedSize p.
Definition getCurrentUsedSize (p : t) : Z :=
  u64 (currSlabAllocSize_ p + u64 (Z.of_nat (length (freeSlabs_ p)) * kSize)).
Definition overLimit (p : t) : bool := maxSize_ p <? u64 (getCurrentUsedSize p + getPoolAdvisedSize p).
Definition getUnAllocatedSlabMemory (p : t) : Z :=
  let total := u64 (currSlabAllocSize_ p + getPoolAdvisedSize p) in
  if maxSize_ p <? total then 0 else maxSize_ p - total.
Definition allSlabsAllocated (p : t) : bool :=
  maxSize_ p <? u64 (currSlabAllocSize_ p + getPoolAdvisedSize p + kSize).

(** ** Finding the class *)

(** [static_cast<ClassId>(ac_.size())]: a [ClassId] has 8 bits and a sign. *)
Definition class_count (p : t) : Z := (Z.of_nat (length (ac_ p)) + 128) mod 256 - 128.

Definition getAllocationClassId (size : Z) (p : t) : Exn + Z :=
  match last (acSizes_ p) with
  | None => inl invalid_argument
  | Some back =>
      if (back <? size) || (size =? 0) then inl invalid_argument
      else match list_find (λ x, size <= x) (acSizes_ p) with
      | Some (i, _) => inr (Z.of_nat i)
      | None => inr (Z.of_nat (length (acSizes_ p)))
      end
  end.

Definition getAllocationClassIdFor (memory : Z) : EX State Z :=
  header ← reads (λ s, SlabAllocator.getSlabHeaderFor s.2 memory);
  match header with
  | None => throw invalid_argument
  | Some i =>
      h ← on_slabs (SlabAllocator.readHeader i);
      p ← reads fst;
      if negb (poolId h =? id_ p) then throw invalid_argument
      else if classId h =? kInvalidClassId then throw invalid_argument
      else if (class_count p <=? classId h) || (classId h <? 0) then throw runtime_error
      else mret (classId h)
  end.

(** [getAllocationClassFor(ClassId)] checks the upper bound only. *)
Definition getAllocationClassFor {A} (cid : Z) (m : EX AllocationClass.State A) : EX State A :=
  p ← reads fst;
  if cid <? class_count p then with_class cid m else throw invalid_argument.

Definition of_sum {S A} (r : Exn + A) : EX S A := match r with inl e => throw e | inr x => mret x end.

(** ** Allocating and freeing *)

Definition getSlabLocked : EX State (option Z) :=
  p ← reads fst;
  if allSlabsAllocated p then mret None else
  on_pool (add_slabAlloc kSize);;
  match last (freeSlabs_ p) with
  | Some slab => on_pool (set_freeSlabs (removelast (freeSlabs_ p)));; mret (Some slab)
  | None =>
      slab ← on_slabs (SlabAllocator.makeNewSlab (id_ p));
      match slab with
      | None => on_pool (add_slabAlloc (- kSize));; mret None
      | Some slab => mret (Some slab)
      end
  end.

Definition allocate (size : Z) : EX State (option Z) :=
  p ← reads fst;
  cid ← of_sum (getAllocationClassId size p);
  alloc ← with_class cid AllocationClass.allocate;
  allocSize ← with_class cid (reads (λ s, AllocationClass.allocationSize_ s.1));
  match alloc with
  | Some _ => on_pool (add_alloc allocSize);; mret alloc
  | None =>
      p ← reads fst;
      if allSlabsAllocated p then mret None else
      alloc ← with_class cid AllocationClass.allocate;
      match alloc with
      | Some _ => on_pool (add_alloc allocSize);; mret alloc
      | None =>
          slab ← getSlabLocked;
          match slab with
          | None => mret None
          | Some slab =>
              alloc ← with_class cid (AllocationClass.addSlabAndAllocate slab);
              on_pool (add_alloc allocSize);;
              mret alloc
          end
      end
  end.

Definition free (memory : Z) : EX State unit :=
  cid ← getAllocationClassIdFor memory;
  with_class cid (AllocationClass.free memory);;
  allocSize ← with_class cid (reads (λ s, AllocationClass.allocationSize_ s.1));
  on_pool (add_alloc (- allocSize)).

(** ** Releasing slabs *)

Definition releaseSlab (mode : SlabReleaseMode) (slab receiverClassId : Z) : EX State unit :=
  match mode with
  | kResize =>
      on_slabs (SlabAllocator.freeSlab slab);;
      on_pool (λ p, count 1 0 0 (add_slabAlloc (- kSize) p))
  | kRebalance =>
      (if negb (receiverClassId =? kInvalidClassId) then
         getAllocationClassFor receiverClassId (AllocationClass.addSlab slab)
       else on_pool (λ p, add_slabAlloc (- kSize) (set_freeSlabs (freeSlabs_ p ++ [slab]) p)));;
      on_pool (count 0 1 0)
  end.

Definition releaseFromFreeSlabs : EX State SlabReleaseContext :=
  p ← reads fst;
  match last (freeSlabs_ p) with
  | None => throw invalid_argument
  | Some slab =>
      on_pool (set_freeSlabs (removelast (freeSlabs_ p)));;
      mret (mkContext slab (id_ p) kInvalidClassId [] kInvalidClassId kResize)
  end.

Definition startSlabRelease (rnd : Z → Z) (abort : nat → bool) (victim receiver : Z) (mode : SlabReleaseMode)
    (hint : option Z) : EX State SlabReleaseContext :=
  if negb (receiver =? kInvalidClassId) && negb (bool_decide (mode = kRebalance)) then throw invalid_argument
  else if (victim =? kInvalidClassId) && negb (bool_decide (mode = kResize)) then throw invalid_argument
  else
  context ← (if victim =? kInvalidClassId then releaseFromFreeSlabs
             else getAllocationClassFor victim (AllocationClass.startSlabRelease rnd abort mode hint));
  let context := setReceiver receiver context in
  (if isReleased context then releaseSlab (ctx_mode context) (ctx_slab context) receiver else mret tt);;
  mret context.

Definition abortSlabRelease (context : SlabReleaseContext) : EX State unit :=
  getAllocationClassFor (ctx_victim context) (AllocationClass.abortSlabRelease context);;
  on_pool (count 0 0 1).

(** [false]: still waiting for allocations to be freed. *)
Definition completeSlabRelease (context : SlabReleaseContext) : EX State bool :=
  if isReleased context then mret true
  else if negb (ctx_receiver context =? kInvalidClassId) && negb (bool_decide (ctx_mode context = kRebalance))
  then throw invalid_argument
  else
  completed ← getAllocationClassFor (ctx_victim context) (AllocationClass.completeSlabRelease context);
  if negb completed then mret false else
  releaseSlab (ctx_mode context) (ctx_slab context) (ctx_receiver context);;
  mret true.

Definition forEachAllocation (cid : Z) (callback : Z → bool) (slab : Z)
    : EX State (AllocationClass.SlabIterationStatus * list Z) :=
  getAllocationClassFor cid (AllocationClass.forEachAllocation callback slab).
End MemoryPool.
