(* ===== verification/CacheAllocator.v ===== *)
(** * CacheAllocator: CacheLib's memory allocator

    CacheLib's [MemoryPoolManager] and [MemoryAllocator] (.h and .cpp): the pools
    that share one slab allocator, and the table of allocation sizes. *)

From S2P Require Import Prelude Types Float64 CacheSlab CacheClass CachePool.
Open Scope Z_scope.

(** ** The table of sizes

    The conversion of a product to [uint32_t] is undefined when it does not fit,
    and so is a division by zero: [None]. *)

Definition kMaxClasses : Z := Z.shiftl 1 7.
Definition kAlignment : Z := 8.

Definition getAlignedSize (size alignment : Z) : Z :=
  let rem := size mod alignment in
  if rem =? 0 then size else u32 (size + alignment - rem).

Definition scale (size : Z) (factor : spec_float) : option Z :=
  let x := f64_mul (f64_of_Z size) factor in
  match x with
  | S754_infinity _ | S754_nan => None
  | _ => let z := f64_trunc x in if (0 <=? z) && (z <? 2 ^ 32) then Some z else None
  end.

(** The [do] loop of [nextSize].  The size grows by a multiple of the alignment in
    every round that does not throw, so [kSize / kAlignment] rounds are enough. *)
Fixpoint next_size_loop (fuel : nat) (incFactor : spec_float) (prevSize newSize : Z) : option (Exn + Z) :=
  match fuel with
  | 0%nat => None
  | S fuel =>
      z ← scale newSize incFactor;
      let newSize' := getAlignedSize z kAlignment in
      if newSize' =? newSize then Some (inl invalid_argument)
      else if kSize <? newSize' then Some (inr newSize')
      else if (newSize' =? 0) || (prevSize =? 0) then None
      else if kSize / newSize' =? kSize / prevSize then next_size_loop fuel incFactor prevSize newSize'
      else
        let perSlab := kSize / newSize' in
        let maxChunkSize := kSize / perSlab in
        Some (inr (maxChunkSize - maxChunkSize mod kAlignment))
  end.
Definition nextSize (prevSize : Z) (incFactor : spec_float) : option (Exn + Z) :=
  next_size_loop (Z.to_nat (kSize / kAlignment)) incFactor prevSize prevSize.

(** Insertion into a [std::set]. *)
Fixpoint set_insert (x : Z) (l : list Z) : list Z :=
  match l with
  | [] => [x]
  | y :: rest => if x <? y then x :: l else if x =? y then l else y :: set_insert x rest
  end.

Fixpoint sizes_loop (fuel : nat) (factor : spec_float) (maxSize : Z) (reduceFragmentation : bool)
    (size : Z) (allocSizes : list Z) : option (Exn + list Z) :=
  match fuel with
  | 0%nat => None
  | S fuel =>
      if negb (size <? maxSize) then Some (inr allocSizes)
      else if size =? 0 then None
      else if kSize / size <=? 1 then Some (inr allocSizes)
      else
        let allocSizes := set_insert size allocSizes in
        next ← (if reduceFragmentation then nextSize size factor
                else z ← scale size factor;
                     let size' := getAlignedSize z kAlignment in
                     Some (if size =? size' then inl invalid_argument else inr size'));
        match next with
        | inl e => Some (inl e)
        | inr size =>
            if kMaxClasses <=? Z.of_nat (length allocSizes) + 1 then Some (inr allocSizes)
            else sizes_loop fuel factor maxSize reduceFragmentation size allocSizes
        end
  end.

Definition generateAllocSizes (factor : spec_float) (maxSize minSize : Z) (reduceFragmentation : bool)
    : option (Exn + list Z) :=
  if kSize <? maxSize then Some (inl invalid_argument)
  else if negb (f64_lt f64_one factor) then Some (inl invalid_argument)
  else
    r ← sizes_loop (Z.to_nat kMaxClasses) factor maxSize reduceFragmentation minSize [];
    match r with
    | inl e => Some (inl e)
    | inr allocSizes => Some (inr (set_insert (getAlignedSize maxSize kAlignment) allocSizes))
    end.

(** The default arguments. *)
Definition factor_1_25 : spec_float := f64_div (f64_of_Z 5) (f64_of_Z 4).
Definition default_sizes : option (Exn + list Z) := generateAllocSizes factor_1_25 kSize 72 false.

(** ** Pools and the allocator

    [pools_] holds the pools created so far: [nextPoolId_] is its length. *)

Definition kMaxPools : Z := 64.

Module MemoryAllocator.
Record t := mk {
  allocSizes : list Z;
  slabAllocator_ : SlabAllocator.t;
  pools_ : list MemoryPool.t;
  poolsByName_ : gmap string Z;
}.

Definition set_slabs (a : SlabAllocator.t) (m : t) : t := mk (allocSizes m) a (pools_ m) (poolsByName_ m).
Definition set_pools (ps : list MemoryPool.t) (m : t) : t := mk (allocSizes m) (slabAllocator_ m) ps (poolsByName_ m).

Definition new (config : list Z) (headerMemoryStart headerMemorySize slabMemoryStart slabMemorySize : Z) : Exn + t :=
  match SlabAllocator.new headerMemoryStart headerMemorySize slabMemoryStart slabMemorySize with
  | inl e => inl e
  | inr a => if kMaxClasses <? Z.of_nat (length config) then inl invalid_argument else inr (mk config a [] ∅)
  end.

Definition nextPoolId_ (m : t) : Z := Z.of_nat (length (pools_ m)).
Definition getRemainingSizeLocked (m : t) : Z :=
  let totalSize := u64 (SlabAllocator.getNumUsableSlabs (slabAllocator_ m) * kSize) in
  let sum := foldl (λ sum p, u64 (sum + MemoryPool.maxSize_ p)) 0 (pools_ m) in
  u64 (totalSize - sum).

(** An operation on the pool [getPoolById(id)]. *)
Definition getPoolById {A} (id : Z) (op : EX MemoryPool.State A) : EX t A := λ m,
  if (id <? nextPoolId_ m) && (0 <=? id) then
    p ← pools_ m !! Z.to_nat id;
    '(r, (p', a')) ← op (p, slabAllocator_ m);
    Some (r, set_pools (<[Z.to_nat id := p']> (pools_ m)) (set_slabs a' m))
  else Some (inl invalid_argument, m).

Definition createNewPool (name : string) (poolSize : Z) (sizes : list Z) : EX t Z := λ m,
  match poolsByName_ m !! name with
  | Some _ => Some (inl invalid_argument, m)
  | None =>
      if nextPoolId_ m =? kMaxPools then Some (inl logic_error, m)
      else if getRemainingSizeLocked m <? poolSize then Some (inl invalid_argument, m)
      else
        let id := nextPoolId_ m in
        match MemoryPool.new id poolSize sizes with
        | inl e => Some (inl e, m)
        | inr p => Some (inr id, mk (allocSizes m) (slabAllocator_ m) (pools_ m ++ [p]) (<[name := id]> (poolsByName_ m)))
        end
  end.

Definition addPool (name : string) (size : Z) (sizes : list Z) (ensureProvisionable : bool) : EX t Z :=
  m ← reads id;
  let poolAllocSizes := if bool_decide (sizes = []) then allocSizes m else sizes in
  if kMaxClasses <? Z.of_nat (length poolAllocSizes) then throw invalid_argument
  else if ensureProvisionable && (size <? u64 (kSize * Z.of_nat (length poolAllocSizes))) then throw invalid_argument
  else createNewPool name size poolAllocSizes.

Definition pool_size (id : Z) : EX t Z := getPoolById id (reads (λ s, MemoryPool.maxSize_ s.1)).
Definition resize_pool (id size : Z) : EX t unit := getPoolById id (MemoryPool.on_pool (MemoryPool.resize size)).

Definition resizePools (src dest bytes : Z) : EX t bool :=
  srcSize ← pool_size src;
  pool_size dest;;
  if srcSize <? bytes then mret false else
  resize_pool src (srcSize - bytes);;
  destSize ← pool_size dest;
  resize_pool dest (u64 (destSize + bytes));;
  mret true.

Definition shrinkPool (pid bytes : Z) : EX t bool :=
  size ← pool_size pid;
  if size <? bytes then mret false else
  resize_pool pid (size - bytes);; mret true.

Definition growPool (pid bytes : Z) : EX t bool :=
  size ← pool_size pid;
  remaining ← reads getRemainingSizeLocked;
  if remaining <? bytes then mret false else
  resize_pool pid (u64 (size + bytes));; mret true.

Definition getPoolsOverLimit (m : t) : list Z :=
  filter (λ id, from_option MemoryPool.overLimit false (pools_ m !! Z.to_nat id) = true) (snd <$> map_to_list (poolsByName_ m)).
Definition getPoolId (name : string) (m : t) : Z := default kInvalidPoolId (poolsByName_ m !! name).

Definition allocate (id size : Z) : EX t (option Z) := getPoolById id (MemoryPool.allocate size).

Definition free (memory : Z) : EX t unit := λ m,
  match SlabAllocator.getSlabHeaderFor (slabAllocator_ m) memory with
  | None => Some (inl invalid_argument, m)
  | Some i =>
      if SlabAllocator.in_headers (slabAllocator_ m) i
      then getPoolById (poolId (SlabAllocator.header_at (slabAllocator_ m) i)) (MemoryPool.free memory) m
      else None
  end.

Definition startSlabRelease (rnd : Z → Z) (abort : nat → bool) (pid victim receiver : Z) (mode : SlabReleaseMode)
    (hint : option Z) : EX t SlabReleaseContext :=
  getPoolById pid (MemoryPool.startSlabRelease rnd abort victim receiver mode hint).
Definition completeSlabRelease (ctx : SlabReleaseContext) : EX t bool :=
  getPoolById (ctx_pid ctx) (MemoryPool.completeSlabRelease ctx).
Definition abortSlabRelease (ctx : SlabReleaseContext) : EX t unit :=
  getPoolById (ctx_pid ctx) (MemoryPool.abortSlabRelease ctx).
Definition isAllocFreed (ctx : SlabReleaseContext) (memory : Z) : EX t bool :=
  getPoolById (ctx_pid ctx) (MemoryPool.getAllocationClassFor (ctx_victim ctx) (AllocationClass.isAllocFreed ctx memory)).
Definition allAllocsFreed (ctx : SlabReleaseContext) : EX t bool :=
  getPoolById (ctx_pid ctx) (MemoryPool.getAllocationClassFor (ctx_victim ctx)
    (c ← reads fst; MemoryPool.of_sum (AllocationClass.allFreed (ctx_slab ctx) c))).

(** The traversal of all slabs: the number of slabs skipped, and the chunks the
    callback was called with. *)
Fixpoint each_slab (callback : Z → bool) (n : nat) (idx skipped : Z) : EX t (Z * list Z) :=
  match n with
  | 0%nat => mret (skipped, [])
  | S n =>
      slab ← reads (λ m, SlabAllocator.getSlabForIdx (slabAllocator_ m) idx);
      header ← reads (λ m, SlabAllocator.getSlabHeader (slabAllocator_ m) slab);
      match header with
      | None => each_slab callback n (idx + 1) skipped
      | Some i =>
          h ← zoom slabAllocator_ set_slabs (SlabAllocator.readHeader i);
          if (poolId h =? kInvalidPoolId) || (classId h =? kInvalidClassId) || isAdvised h || isMarkedForRelease h
          then each_slab callback n (idx + 1) (skipped + 1)
          else
            '(status, visited) ← getPoolById (poolId h) (MemoryPool.forEachAllocation (classId h) callback slab);
            match status with
            | AllocationClass.kSkippedCurrentSlabAndContinue => each_slab callback n (idx + 1) (skipped + 1)
            | AllocationClass.kAbortIteration => mret (skipped, visited)
            | AllocationClass.kFinishedCurrentSlabAndContinue =>
                '(skipped, rest) ← each_slab callback n (idx + 1) skipped;
                mret (skipped, visited ++ rest)
            end
      end
  end.
Definition forEachAllocation (callback : Z → bool) : EX t (Z * list Z) :=
  n ← reads (λ m, SlabAllocator.getNumUsableSlabs (slabAllocator_ m));
  each_slab callback (Z.to_nat n) 0 0.
End MemoryAllocator.
