(* ===== verification/CacheInv.v ===== *)
(** * CacheInv: slabs and their headers

    The header of a slab says where the slab is: in the slab allocator (no pool),
    in a pool ([kInvalidClassId]), or in an allocation class.  [holds a s h] is the
    header of the valid slab [s]; an operation changes the header of one slab at a
    time ([only]), so what other classes own is untouched. *)

From S2P Require Import Prelude Types CacheSlab.
Import SlabAllocator.
Open Scope Z_scope.

(** ** Addresses *)

Lemma kSize_eq : kSize = 2 ^ 24.
Proof. done. Qed.

Lemma getSlabForMemory_spec x : is_u64 x → getSlabForMemory x = x - x mod kSize.
Proof.
  intros Hx. unfold getSlabForMemory, kAddressMask, kNumSlabBits, kSize.
  change (2 ^ 64 - 1 - Z.shiftl 1 24 + 1) with (Z.shiftl (Z.ones 40) 24).
  change (Z.shiftl 1 kNumSlabBits) with (2 ^ 24).
  transitivity (Z.shiftl (Z.shiftr x 24) 24).
  - apply Z.bits_inj'. intros n Hn. rewrite Z.land_spec, !Z.shiftl_spec by lia.
    destruct (Z.ltb_spec n 24).
    { rewrite !(Z.testbit_neg_r _ (n - 24)) by lia. by rewrite andb_false_r. }
    rewrite Z.shiftr_spec by lia. replace (n - 24 + 24) with n by lia.
    destruct (Z.ltb_spec n 64).
    + rewrite Z.ones_spec_low by lia. by rewrite andb_true_r.
    + rewrite Z.ones_spec_high by lia. rewrite andb_false_r. symmetry.
      destruct (decide (x = 0)) as [->|]; [apply Z.bits_0|].
      apply Z.bits_above_log2; [unfold is_u64 in Hx; lia|].
      apply Z.log2_lt_pow2; [unfold is_u64 in Hx; lia|].
      eapply Z.lt_le_trans; [apply Hx|]. apply Z.pow_le_mono_r; lia.
  - rewrite Z.shiftl_mul_pow2, Z.shiftr_div_pow2 by lia.
    pose proof (Z.div_mod x (2 ^ 24) ltac:(lia)). lia.
Qed.

Lemma getSlabForMemory_chunk s o : is_u64 s → s mod kSize = 0 → 0 <= o < kSize → s + o < 2 ^ 64 →
  getSlabForMemory (s + o) = s.
Proof.
  intros Hs Hm Ho Hu. rewrite getSlabForMemory_spec by (unfold is_u64 in *; lia).
  rewrite Z.add_mod, Hm, Z.add_0_l, Z.mod_mod, (Z.mod_small o) by (rewrite ?kSize_eq in *; lia). lia.
Qed.

(** ** The shape of the slab allocator *)

Record geometry (a : t) : Prop := {
  g_start : 0 < slabMemoryStart_ a;
  g_align : slabMemoryStart_ a mod kSize = 0;
  g_size : 0 <= slabMemorySize_ a < 2 ^ 56;
  g_size_align : slabMemorySize_ a mod kSize = 0;
  g_end : slabMemoryStart_ a + slabMemorySize_ a <= 2 ^ 64;
  g_next : slabMemoryStart_ a <= nextSlabAllocation_ a <= slabMemoryStart_ a + slabMemorySize_ a;
  g_next_align : nextSlabAllocation_ a mod kSize = 0;
  g_headers : sizeof_SlabHeader * (slabMemorySize_ a / kSize) < headerMemorySize_ a;
}.

(** [s] is a slab that has been cut from the region. *)
Definition slab_ok (a : t) (s : Z) : Prop :=
  slabMemoryStart_ a <= s < nextSlabAllocation_ a ∧ s mod kSize = 0.

Definition holds (a : t) (s : Z) (h : SlabHeader) : Prop := slab_ok a s ∧ header_at a (slabIdx a s) = h.

(** An unmarked slab of the given pool and class. *)
Definition slab_in (a : t) (s pid cid : Z) : Prop :=
  ∃ h, holds a s h ∧ poolId h = pid ∧ classId h = cid ∧ isMarkedForRelease h = false.

(** Nothing but the header of [s] and the lists of the slab allocator changed. *)
Record only (s : Z) (a a' : t) : Prop := {
  only_start : slabMemoryStart_ a' = slabMemoryStart_ a;
  only_size : slabMemorySize_ a' = slabMemorySize_ a;
  only_headers s' h : s' ≠ s → holds a s' h ↔ holds a' s' h;
}.

Lemma only_refl s a : only s a a.
Proof. done. Qed.
Lemma only_trans s a1 a2 a3 : only s a1 a2 → only s a2 a3 → only s a1 a3.
Proof.
  intros [A1 A2 A3] [B1 B2 B3]. split; [congruence..|]. intros s' h Hne. rewrite A3, B3; done.
Qed.
#[export] Hint Resolve only_refl : mooncake.

Lemma holds_det a s h h' : holds a s h → holds a s h' → h = h'.
Proof. intros [_ <-] [_ <-]. done. Qed.

Lemma slab_in_only s s' a a' pid cid : only s a a' → s' ≠ s → slab_in a s' pid cid → slab_in a' s' pid cid.
Proof. intros Ho Hne (h & Hh & Hr). exists h. split; [|done]. by apply (only_headers _ _ _ Ho). Qed.

Section geometry.
Context {a : t} (G : geometry a).

Lemma slab_u64 s : slab_ok a s → is_u64 s ∧ s + kSize <= slabMemoryStart_ a + slabMemorySize_ a ∧ s + kSize <= 2 ^ 64.
Proof.
  intros [Hs Hm]. destruct G as [G1 G2 G3 G4 G5 G6 G7 G8].
  assert (s + kSize <= nextSlabAllocation_ a).
  { rewrite kSize_eq in *.
    pose proof (Z.div_mod s (2 ^ 24) ltac:(lia)). pose proof (Z.div_mod (nextSlabAllocation_ a) (2 ^ 24) ltac:(lia)).
    assert (s / 2 ^ 24 < nextSlabAllocation_ a / 2 ^ 24) by lia. lia. }
  unfold is_u64. rewrite kSize_eq in *. lia.
Qed.

Lemma isValidSlab_spec s : isValidSlab a s = true ↔ slab_ok a s.
Proof.
  unfold isValidSlab, slab_ok. rewrite !andb_true_iff, Z.leb_le, Z.ltb_lt, Z.eqb_eq. pose proof G as [G1 _ _ _ G5 G6 _ _].
  split.
  - intros [[H1 H2] H3]. split; [lia|]. rewrite getSlabForMemory_spec in H3 by (unfold is_u64; lia). lia.
  - intros [H1 H2]. split; [lia|]. rewrite getSlabForMemory_spec by (unfold is_u64; lia). lia.
Qed.

Lemma slabIdx_spec s : slab_ok a s → slabIdx a s = (s - slabMemoryStart_ a) / kSize.
Proof.
  intros Hs. destruct (slab_u64 s Hs) as (_ & H2 & _). destruct Hs as [Hs Hm]. destruct G as [G1 G2 G3 _ _ _ _ _].
  unfold slabIdx. apply u32_small. unfold is_u32. rewrite kSize_eq in *. split; [apply Z.div_pos; lia|].
  apply Z.div_lt_upper_bound; lia.
Qed.

Lemma slabIdx_inj s s' : slab_ok a s → slab_ok a s' → slabIdx a s = slabIdx a s' → s = s'.
Proof.
  intros Hs Hs'. rewrite !slabIdx_spec by done. destruct Hs as [_ H1], Hs' as [_ H2].
  pose proof (g_align _ G) as H3. rewrite kSize_eq in *. intros E.
  pose proof (Z.div_mod s (2 ^ 24) ltac:(lia)). pose proof (Z.div_mod s' (2 ^ 24) ltac:(lia)).
  pose proof (Z.div_mod (slabMemoryStart_ a) (2 ^ 24) ltac:(lia)).
  replace (s - slabMemoryStart_ a) with ((s / 2 ^ 24 - slabMemoryStart_ a / 2 ^ 24) * 2 ^ 24) in E by lia.
  replace (s' - slabMemoryStart_ a) with ((s' / 2 ^ 24 - slabMemoryStart_ a / 2 ^ 24) * 2 ^ 24) in E by lia.
  rewrite !Z.div_mul in E by lia. lia.
Qed.

Lemma in_headers_ok s : slab_ok a s → in_headers a (slabIdx a s) = true.
Proof.
  intros Hs. destruct (slab_u64 s Hs) as (_ & H2 & _). rewrite slabIdx_spec by done. unfold in_headers.
  destruct Hs as [Hs Hm]. destruct G as [G1 G2 G3 G4 _ _ _ G8]. rewrite kSize_eq in *.
  apply andb_true_iff. rewrite !Z.leb_le. split; [apply Z.div_pos; lia|]. unfold sizeof_SlabHeader in *.
  assert ((s - slabMemoryStart_ a) / 2 ^ 24 + 1 <= slabMemorySize_ a / 2 ^ 24); [|lia].
  rewrite <-(Z.div_add _ 1) by lia. apply Z.div_le_mono; lia.
Qed.

Lemma getSlabHeader_ok s : slab_ok a s → getSlabHeader a s = Some (slabIdx a s).
Proof. intros Hs. unfold getSlabHeader. by rewrite (proj2 (isValidSlab_spec s) Hs). Qed.

(** Reading and writing the header of a slab. *)
Lemma returns_readHeader s h Q : holds a s h → Q h a → returns (readHeader (slabIdx a s)) a Q.
Proof. intros [Hs <-] HQ. exists (header_at a (slabIdx a s)), a. unfold readHeader. by rewrite in_headers_ok. Qed.

Lemma holds_set_header s f s' h :
  slab_ok a s →
  holds (set_headers (<[slabIdx a s := f (header_at a (slabIdx a s))]> (headers a)) a) s' h ↔
  if decide (s' = s) then ∃ h0, holds a s h0 ∧ h = f h0 else holds a s' h.
Proof.
  intros Hs. unfold holds. change (slab_ok (set_headers _ a) s') with (slab_ok a s').
  change (slabIdx (set_headers _ a) s') with (slabIdx a s'). unfold header_at at 1. cbn [headers set_headers].
  destruct (decide (s' = s)) as [->|Hne].
  - rewrite lookup_insert_eq. simpl. naive_solver.
  - split; intros [Hs' <-]; (split; [done|]).
    + rewrite lookup_insert_ne; [done|]. intros E. by apply Hne, slabIdx_inj.
    + rewrite lookup_insert_ne; [done|]. intros E. by apply Hne, slabIdx_inj.
Qed.

Lemma returns_modHeader s f (Q : unit → t → Prop) :
  slab_ok a s →
  (∀ hs, geometry (set_headers hs a) → only s a (set_headers hs a) →
     (∀ h, holds a s h → holds (set_headers hs a) s (f h)) → Q tt (set_headers hs a)) →
  returns (modHeader (slabIdx a s) f) a Q.
Proof.
  intros Hs HQ. eexists tt, _. unfold modHeader. rewrite in_headers_ok by done. split; [reflexivity|].
  apply HQ; [by destruct G| |].
  - split; [done|done|]. intros s' h Hne. rewrite holds_set_header by done. by rewrite decide_False.
  - intros h Hh. apply holds_set_header; [done|]. rewrite decide_True by done. eauto.
Qed.
End geometry.

(** ** The slab allocator *)

Record sa_inv (a : t) : Prop := {
  sa_geometry : geometry a;
  sa_nodup : NoDup (freeSlabs_ a);
  sa_free s : s ∈ freeSlabs_ a → slab_in a s kInvalidPoolId kInvalidClassId;
  sa_full : canAllocate_ a = false → allSlabsAllocated a = true;
}.

Lemma only_slab_in_iff s a a' s' pid cid :
  only s a a' → s' ≠ s → slab_in a s' pid cid ↔ slab_in a' s' pid cid.
Proof.
  intros Ho Hne. unfold slab_in. split; intros (h & Hh & Hr); exists h; (split; [|done]);
    by apply (only_headers _ _ _ Ho).
Qed.

(** The free list stays as it is when the header of another slab changes. *)
Lemma sa_inv_headers s hs a :
  sa_inv a → geometry (set_headers hs a) → only s a (set_headers hs a) → s ∉ freeSlabs_ a → sa_inv (set_headers hs a).
Proof.
  intros [H1 H2 H3 H4] HG Ho Hs. split; [done|done| |done].
  intros s' Hs'. eapply slab_in_only; [done| |by apply H3]. intros ->. by apply Hs.
Qed.

(** Taking a slab that is not in use: from the free list, or a new one. *)
Definition fresh_slab (a : t) (s : Z) : Prop := slab_in a s kInvalidPoolId kInvalidClassId ∨ ¬ slab_ok a s.

Lemma fresh_not_in a s pid cid : fresh_slab a s → 0 <= pid → ¬ slab_in a s pid cid.
Proof.
  intros [(h & Hh & E1 & _)|Hn] Hp (h' & Hh' & E1' & _).
  - rewrite (holds_det _ _ _ _ Hh Hh') in E1. unfold kInvalidPoolId in E1. lia.
  - destruct Hh'. done.
Qed.

Lemma fresh_not_holds a s h : fresh_slab a s → holds a s h → poolId h = kInvalidPoolId.
Proof. intros [(h' & Hh & E & _)|Hn] Hh'; [by rewrite (holds_det _ _ _ _ Hh' Hh)|]. by destruct Hh'. Qed.

Lemma slab_next a : geometry a → ¬ slab_ok a (nextSlabAllocation_ a).
Proof. intros _ [H _]. lia. Qed.

Lemma geometry_next a :
  geometry a → allMemorySlabbed a = false → geometry (set_next (nextSlabAllocation_ a + kSize) a).
Proof.
  intros G Hn. unfold allMemorySlabbed, getSlabMemoryEnd in Hn. apply Z.eqb_neq in Hn.
  pose proof G as [G1 G2 G3 G4 G5 G6 G7 G8]. split; simpl; try done.
  - rewrite kSize_eq in *.
    pose proof (Z.div_mod (nextSlabAllocation_ a) (2 ^ 24) ltac:(lia)).
    pose proof (Z.div_mod (slabMemorySize_ a) (2 ^ 24) ltac:(lia)).
    pose proof (Z.div_mod (slabMemoryStart_ a) (2 ^ 24) ltac:(lia)). lia.
  - rewrite Z.add_mod, G7, Z.mod_same by (rewrite kSize_eq; lia). done.
Qed.

Lemma only_next a : geometry a → only (nextSlabAllocation_ a) a (set_next (nextSlabAllocation_ a + kSize) a).
Proof.
  intros G. split; [done|done|]. intros s' h Hne. unfold holds.
  change (header_at (set_next _ a) (slabIdx (set_next _ a) s')) with (header_at a (slabIdx a s')).
  assert (slab_ok a s' ↔ slab_ok (set_next (nextSlabAllocation_ a + kSize) a) s') as E; [|by rewrite E].
  unfold slab_ok. simpl. split; intros [H Hm]; (split; [|done]); [rewrite kSize_eq; lia|].
  pose proof (g_next_align _ G). rewrite kSize_eq in *.
  pose proof (Z.div_mod (nextSlabAllocation_ a) (2 ^ 24) ltac:(lia)). pose proof (Z.div_mod s' (2 ^ 24) ltac:(lia)).
  lia.
Qed.

Lemma slab_ok_next a : geometry a → slab_ok (set_next (nextSlabAllocation_ a + kSize) a) (nextSlabAllocation_ a).
Proof. intros G. unfold slab_ok. simpl. pose proof (g_next _ G). pose proof (g_next_align _ G). rewrite kSize_eq in *. lia. Qed.

Lemma makeNewSlabImpl_ok a :
  sa_inv a →
  returns makeNewSlabImpl a (λ r a',
    match r with
    | None => sa_inv a' ∧ allSlabsAllocated a = true ∧ ∀ s, only s a a'
    | Some s => fresh_slab a s ∧ sa_inv a' ∧ only s a a' ∧ s ∉ freeSlabs_ a' ∧ slab_ok a' s
    end).
Proof.
  intros HI. pose proof HI as [G H2 H3 H4]. unfold returns, makeNewSlabImpl. destruct (canAllocate_ a) eqn:Ec; simpl.
  2: { eexists _, a. split; [done|]. split; [done|]. auto with mooncake. }
  destruct (last (freeSlabs_ a)) as [s|] eqn:El.
  - apply last_Some in El as [l El]. rewrite El in *. rewrite removelast_last.
    eexists _, _. split; [reflexivity|]. apply NoDup_app in H2 as (Hl & Hd & _).
    assert (slab_in a s kInvalidPoolId kInvalidClassId) as Hs by (apply H3; set_solver).
    split; [by left|]. split; [split; simpl; [by destruct G|done|intros s' Hs'; apply H3; set_solver|congruence]|].
    split; [done|]. simpl. split; [intros Hin; by apply (Hd s Hin), list_elem_of_singleton|].
    by destruct Hs as (h & [Hok _] & _).
  - apply last_None in El. destruct (allMemorySlabbed a) eqn:Em.
    { eexists _, _. split; [reflexivity|]. assert (allSlabsAllocated a = true) as Ha.
      { unfold allSlabsAllocated. by rewrite Em, El. }
      split; [split; simpl; [by destruct G|done|done|done]|]. split; [done|]. intros s. by split. }
    eexists _, _. split; [reflexivity|]. pose proof (only_next a G) as Ho.
    split; [right; by apply slab_next|]. split; [split; simpl; [by apply geometry_next|done| |congruence]|].
    { rewrite El. intros s Hs. by apply elem_of_nil in Hs. }
    split; [done|]. split; [simpl; rewrite El; apply not_elem_of_nil|]. by apply slab_ok_next.
Qed.

Lemma returns_addPoolSize id d a (Q : unit → t → Prop) :
  0 <= id < 127 → (∀ f, Q tt (set_poolSize f a)) → returns (addPoolSize id d) a Q.
Proof.
  intros Hid HQ. eexists _, _. unfold addPoolSize.
  rewrite (proj2 (Z.leb_le 0 id)), (proj2 (Z.ltb_lt id 127)) by lia. split; [reflexivity|]. apply HQ.
Qed.

Lemma sa_inv_poolSize f a : sa_inv a → sa_inv (set_poolSize f a).
Proof. intros [G H2 H3 H4]. split; [by destruct G|done..]. Qed.

Lemma makeNewSlab_ok id a :
  sa_inv a → 0 <= id < 127 →
  returns (makeNewSlab id) a (λ r a',
    sa_inv a' ∧
    match r with
    | None => allSlabsAllocated a = true ∧ ∀ s, only s a a'
    | Some s => fresh_slab a s ∧ only s a a' ∧ slab_in a' s id kInvalidClassId
    end).
Proof.
  intros HI Hid. apply returns_bind. eapply returns_mono; [by apply makeNewSlabImpl_ok|].
  intros [s|] a1; [|intros (? & ? & ?); by apply returns_ret].
  intros (Hfr & HI1 & Ho1 & Hnf & Hok). apply returns_bind, returns_addPoolSize; [done|]. intros f.
  pose proof (sa_inv_poolSize f a1 HI1) as HI2. pose proof (sa_geometry _ HI2) as G2.
  apply returns_bind. unfold returns, initializeHeader. rewrite (getSlabHeader_ok G2) by done.
  apply (returns_modHeader G2); [done|]. intros hs G' Ho' Hh. apply returns_ret.
  split; [by eapply sa_inv_headers|]. split; [done|]. split.
  - eapply only_trans; [|done]. destruct Ho1 as [O1 O2 O3]. by split.
  - exists (new_header id). split; [|done]. by apply (Hh (header_at a1 (slabIdx a1 s))).
Qed.

(** A slab in use is not on the free list. *)
Lemma not_free a s h : sa_inv a → holds a s h → poolId h ≠ kInvalidPoolId → s ∉ freeSlabs_ a.
Proof.
  intros HI Hh Hp Hin. destruct (sa_free _ HI s Hin) as (h' & Hh' & E & _).
  by rewrite (holds_det _ _ _ _ Hh Hh') in Hp.
Qed.

Lemma freeSlab_ok s id cid a :
  sa_inv a → 0 <= id < 127 → slab_in a s id cid →
  returns (freeSlab s) a (λ _ a',
    sa_inv a' ∧ only s a a' ∧ slab_in a' s kInvalidPoolId kInvalidClassId).
Proof.
  intros HI Hid (h & Hh & E1 & E2 & E3). pose proof (sa_geometry _ HI) as G. pose proof Hh as [Hok _].
  assert (s ∉ freeSlabs_ a) as Hnf by (eapply not_free; [done..|]; unfold kInvalidPoolId; lia).
  unfold freeSlab. apply returns_bind, returns_reads. rewrite (getSlabHeader_ok G) by done.
  apply returns_bind, (returns_readHeader G s h); [done|]. rewrite E1.
  apply returns_bind, returns_addPoolSize; [done|]. intros f. apply returns_bind, returns_updates.
  set (a1 := set_canAllocate _ _).
  assert (geometry a1) as G1 by (by destruct G).
  apply (returns_modHeader G1 s); [done|]. intros hs G' Ho' Hset.
  assert (slab_in (set_headers hs a1) s kInvalidPoolId kInvalidClassId) as Hin.
  { exists (resetAllocInfo h). split; [by apply Hset|done]. }
  assert (only s a (set_headers hs a1)) as Ho by (eapply only_trans; [|done]; done).
  destruct HI as [_ H2 H3 H4]. split; [split; [done|..]|done].
  - simpl. apply NoDup_app. split; [done|]. split; [|apply NoDup_singleton]. intros x Hx ->%list_elem_of_singleton. done.
  - simpl. intros s' [Hs'| ->%list_elem_of_singleton]%elem_of_app; [|done].
    eapply slab_in_only; [done|by intros ->|by apply H3].
  - done.
Qed.
