(* ===== verification/CacheChunks.v ===== *)
(** * CacheChunks: the invariant of an allocation class

    [cinv a c H]: the class [c] owns its slabs, the headers agree, and the chunks on
    its free list together with the chunks [H] its clients hold are distinct chunks
    of slabs of the class.  A chunk of a slab under release counts as held until the
    release map says it is freed.  The lemmas say what each operation of
    AllocationClass does to this account. *)

From S2P Require Import Prelude Types CacheSlab CacheClass CacheInv.
Import AllocationClass.
Open Scope Z_scope.

Definition per_slab (c : t) : Z := getAllocsPerSlab c.

(** [s] belongs to the class. *)
Definition owned (a : SlabAllocator.t) (c : t) (s : Z) : Prop :=
  ∃ h, holds a s h ∧ poolId h = poolId_ c ∧ classId h = classId_ c.

(** [x] is a chunk the class has carved and not given up. *)
Definition chunk (a : SlabAllocator.t) (c : t) (x : Z) : Prop :=
  ∃ s i, x = s + i * allocationSize_ c ∧ 0 <= i < per_slab c ∧ owned a c s ∧ s ∉ freeSlabs_ c ∧
    (currSlab_ c = Some s → i * allocationSize_ c < currOffset_ c) ∧
    (∀ st, slabReleaseAllocMap_ c !! s = Some st → st !! Z.to_nat i = Some false).

Record cinv (a : SlabAllocator.t) (c : t) (H : list Z) : Prop := {
  ci_pool : 0 <= poolId_ c;
  ci_class : 0 <= classId_ c;
  ci_size : kMinAllocSize <= allocationSize_ c <= kSize;
  ci_slabs : NoDup (allocatedSlabs_ c ++ freeSlabs_ c);
  ci_own s : s ∈ allocatedSlabs_ c ++ freeSlabs_ c → owned a c s ∧ slabReleaseAllocMap_ c !! s = None;
  ci_release s st : slabReleaseAllocMap_ c !! s = Some st → owned a c s ∧ length st = Z.to_nat (per_slab c);
  ci_marked s h : holds a s h → poolId h = poolId_ c → classId h = classId_ c →
    isMarkedForRelease h = true ↔ is_Some (slabReleaseAllocMap_ c !! s);
  ci_current s : currSlab_ c = Some s →
    s ∈ allocatedSlabs_ c ∧ ∃ k, 0 <= k <= per_slab c ∧ currOffset_ c = k * allocationSize_ c;
  ci_nodup : NoDup (freedAllocations_ c ++ H);
  ci_chunk x : x ∈ freedAllocations_ c ++ H → chunk a c x;
  ci_exact s i : s ∈ allocatedSlabs_ c → 0 <= i < per_slab c →
    (currSlab_ c = Some s → i * allocationSize_ c < currOffset_ c) →
    s + i * allocationSize_ c ∈ freedAllocations_ c ++ H;
  ci_full : canAllocate_ c = false →
    freedAllocations_ c = [] ∧ freeSlabs_ c = [] ∧ canAllocateFromCurrentSlabLocked c = false;
}.

(** ** Arithmetic of chunks *)

Lemma per_slab_bounds a c H : cinv a c H →
  1 <= per_slab c ∧ per_slab c * allocationSize_ c <= kSize ∧ kSize < (per_slab c + 1) * allocationSize_ c.
Proof.
  intros [_ _ [Hs1 Hs2] _ _ _ _ _ _ _ _ _]. unfold per_slab, getAllocsPerSlab.
  assert (0 < allocationSize_ c) by (unfold kMinAllocSize in Hs1; lia).
  pose proof (Z.div_mod kSize (allocationSize_ c) ltac:(lia)).
  pose proof (Z.mod_pos_bound kSize (allocationSize_ c) ltac:(lia)).
  split; [apply Z.div_le_lower_bound; lia|]. lia.
Qed.

Lemma owned_ok a c s : owned a c s → slab_ok a s.
Proof. by intros (h & [? _] & _). Qed.

Section chunks.
Context {a : SlabAllocator.t} {c : t} {H : list Z} (G : geometry a) (CI : cinv a c H).

Lemma chunk_slab s i : slab_ok a s → 0 <= i < per_slab c →
  SlabAllocator.getSlabForMemory (s + i * allocationSize_ c) = s ∧
  getAllocIdx c s (s + i * allocationSize_ c) = i.
Proof.
  intros Hs Hi. destruct (per_slab_bounds _ _ _ CI) as (H1 & H2 & H3).
  destruct (slab_u64 G s Hs) as (U1 & U2 & U3). pose proof (ci_size _ _ _ CI) as [S1 S2]. unfold kMinAllocSize in S1.
  assert (0 <= i * allocationSize_ c ∧ i * allocationSize_ c + allocationSize_ c <= kSize) as [B1 B2] by nia.
  split; [apply getSlabForMemory_chunk; [done|apply Hs|lia|lia]|].
  unfold getAllocIdx. replace (s + i * allocationSize_ c - s) with (i * allocationSize_ c) by lia.
  apply Z.div_mul. lia.
Qed.

(** A chunk lies in its slab, so distinct chunks do not overlap. *)
Lemma chunk_bounds x : chunk a c x →
  slab_ok a (SlabAllocator.getSlabForMemory x) ∧ owned a c (SlabAllocator.getSlabForMemory x) ∧
  SlabAllocator.getSlabForMemory x <= x ∧
  x + allocationSize_ c <= SlabAllocator.getSlabForMemory x + kSize.
Proof.
  intros (s & i & -> & Hi & Ho & _). pose proof (owned_ok _ _ _ Ho) as Hs.
  destruct (chunk_slab s i Hs Hi) as [-> _]. split; [done|]. split; [done|].
  destruct (per_slab_bounds _ _ _ CI) as (H1 & H2 & H3). pose proof (ci_size _ _ _ CI) as [S1 S2].
  unfold kMinAllocSize in S1. nia.
Qed.

Lemma chunk_disjoint x y : chunk a c x → chunk a c y → x ≠ y →
  x + allocationSize_ c <= y ∨ y + allocationSize_ c <= x.
Proof.
  intros Hx Hy Hne. destruct (chunk_bounds x Hx) as (Sx & _ & Bx1 & Bx2), (chunk_bounds y Hy) as (Sy & _ & By1 & By2).
  destruct Hx as (s & i & -> & Hi & Hos & _), Hy as (s' & j & -> & Hj & Hos' & _).
  pose proof (ci_size _ _ _ CI) as [S1 S2]. unfold kMinAllocSize in S1.
  rewrite (proj1 (chunk_slab s i (owned_ok _ _ _ Hos) Hi)) in *.
  rewrite (proj1 (chunk_slab s' j (owned_ok _ _ _ Hos') Hj)) in *.
  destruct (decide (s = s')) as [->|Hss].
  - destruct (decide (i < j)); [left; nia|]. destruct (decide (j < i)); [right; nia|]. exfalso. apply Hne. assert (i = j) as -> by lia. done.
  - destruct Sx as [_ Mx], Sy as [_ My]. rewrite kSize_eq in *.
    pose proof (Z.div_mod s (2 ^ 24) ltac:(lia)). pose proof (Z.div_mod s' (2 ^ 24) ltac:(lia)). lia.
Qed.
End chunks.

(** ** What does not disturb the class *)

Definition same_ids (c c' : t) : Prop :=
  classId_ c' = classId_ c ∧ poolId_ c' = poolId_ c ∧ allocationSize_ c' = allocationSize_ c.

(** The class keeps its identity and its releases. *)
Definition same_class (c c' : t) : Prop :=
  same_ids c c' ∧ slabReleaseAllocMap_ c' = slabReleaseAllocMap_ c.

Lemma same_ids_trans c1 c2 c3 : same_ids c1 c2 → same_ids c2 c3 → same_ids c1 c3.
Proof. unfold same_ids. intuition congruence. Qed.

Lemma same_class_trans c1 c2 c3 : same_class c1 c2 → same_class c2 c3 → same_class c1 c3.
Proof. intros [H1 H2] [H3 H4]. split; [by eapply same_ids_trans|congruence]. Qed.

(** The invariant depends on the headers of the slabs of the class only. *)
Lemma cinv_ext a a' c H :
  (∀ s h, poolId h = poolId_ c → classId h = classId_ c → holds a s h ↔ holds a' s h) → cinv a c H → cinv a' c H.
Proof.
  intros Hh [C0 C1 C2 C3 C4 C5 C6 C7 C8 C9 C11 C10].
  assert (∀ s', owned a c s' ↔ owned a' c s') as E.
  { intros s'. unfold owned. split; intros (h & Hs & E1 & E2); exists h; (split; [|done]); by apply (Hh s' h E1 E2). }
  split; try done.
  - intros s' Hs'. rewrite <-E. by apply C4.
  - intros s' st Hs'. rewrite <-E. by apply C5.
  - intros s' h Hs Hp Hc. apply C6; [|done..]. by apply (Hh s' h Hp Hc).
  - intros x Hx. destruct (C9 x Hx) as (s' & i & Hr & Hi & How & Hr'). exists s', i. rewrite <-E. done.
Qed.

Lemma cinv_perm a c H H' : H ≡ₚ H' → cinv a c H → cinv a c H'.
Proof.
  intros HP [C0 C1 C2 C3 C4 C5 C6 C7 C8 C9 C11 C10]. split; try done.
  - by rewrite <-HP.
  - intros x. rewrite <-HP. apply C9.
  - intros s i Hs Hi Hc. rewrite <-HP. by apply C11.
Qed.

#[export] Instance cinv_proper a c : Proper ((≡ₚ) ==> iff) (cinv a c).
Proof. intros H H' HP. split; by apply cinv_perm. Qed.

(** ** Allocating *)

(** Dropping chunks from the account, or moving them within it. *)
Lemma cinv_freed a c H l H' b :
  cinv a c H → l ++ H' ≡ₚ freedAllocations_ c ++ H →
  (canAllocate_ c = false → b = false → l = []) → (b = false → canAllocate_ c = false) →
  cinv a (set_canAllocate b (set_freed l c)) H'.
Proof.
  intros [C0 C1 C2 C3 C4 C5 C6 C7 C8 C9 C11 C10] HP Hl Hb. split; try done; simpl.
  - by rewrite HP.
  - intros x. rewrite HP. apply C9.
  - intros s i Hs Hi Hc. rewrite HP. by apply C11.
  - intros ->. destruct (C10 (Hb eq_refl)) as (_ & ? & ?). split; [by apply Hl; [apply Hb|]|done].
Qed.

Lemma can_allocate_current a c H s :
  cinv a c H → currSlab_ c = Some s → canAllocateFromCurrentSlabLocked c = true →
  ∃ k, 0 <= k < per_slab c ∧ currOffset_ c = k * allocationSize_ c ∧
    u32 (currOffset_ c + allocationSize_ c) = (k + 1) * allocationSize_ c.
Proof.
  intros CI Hs Hc. destruct (ci_current _ _ _ CI s Hs) as [_ (k & Hk & Ek)].
  destruct (per_slab_bounds _ _ _ CI) as (B1 & B2 & B3). pose proof (ci_size _ _ _ CI) as [S1 S2].
  unfold canAllocateFromCurrentSlabLocked in Hc. apply andb_true_iff in Hc as [_ Hc%Z.leb_le].
  unfold kMinAllocSize in S1. rewrite kSize_eq in *.
  assert (0 <= k * allocationSize_ c <= 2 ^ 24) by nia.
  rewrite u32_small in * by (unfold is_u32; lia). exists k. rewrite Ek in *. split; [|split; [done|lia]].
  split; [lia|]. apply Z.nle_gt. intros Hge. nia.
Qed.

Lemma allocateFromCurrentSlabLocked_ok a c H :
  geometry a → cinv a c H → canAllocateFromCurrentSlabLocked c = true →
  returns allocateFromCurrentSlabLocked (c, a) (λ x s',
    s'.2 = a ∧ same_class c s'.1 ∧ cinv a s'.1 (x :: H)).
Proof.
  intros G CI Hcan. destruct (currSlab_ c) as [s|] eqn:Es.
  2: { unfold canAllocateFromCurrentSlabLocked in Hcan. by rewrite Es in Hcan. }
  destruct (can_allocate_current a c H s CI Es Hcan) as (k & Hk & Ek & Eu).
  pose proof (ci_size _ _ _ CI) as [S1 S2]. unfold kMinAllocSize in S1.
  eexists _, _. unfold allocateFromCurrentSlabLocked. simpl. rewrite Es. split; [reflexivity|]. simpl.
  split; [done|]. split; [done|]. rewrite Eu.
  destruct (ci_current _ _ _ CI s Es) as [HsA _].
  destruct (ci_own _ _ _ CI s) as [How HNone]; [set_solver|].
  assert (s ∉ freeSlabs_ c) as HsF.
  { pose proof (ci_slabs _ _ _ CI) as Hnd. apply NoDup_app in Hnd as (_ & Hd & _). by apply Hd. }
  pose proof CI as [C0 C1 C2 C3 C4 C5 C6 C7 C8 C9 C11 C10]. split; try done; simpl.
  - intros s' [= <-]. split; [done|]. exists (k + 1). split; [change (0 <= k + 1 <= per_slab c); lia|done].
  - rewrite Permutation_app_comm. simpl. rewrite Permutation_app_comm. apply NoDup_cons. split; [|done].
    intros Hin. destruct (C9 _ Hin) as (s' & i & E & Hi & How' & _ & Hcur & _).
    destruct (chunk_slab G CI s k (owned_ok _ _ _ How) Hk) as [E1 E2].
    rewrite Ek in E. destruct (chunk_slab G CI s' i (owned_ok _ _ _ How') Hi) as [E1' E2'].
    rewrite <-E, E1 in E1'. subst s'. rewrite <-E, E2 in E2'. subst i. specialize (Hcur Es). lia.
  - intros x Hx. assert (x = s + currOffset_ c ∨ x ∈ freedAllocations_ c ++ H) as [->|Hold] by set_solver.
    + exists s, k. simpl. rewrite Ek. split; [done|]. split; [done|]. split; [done|]. split; [done|].
      split; [intros _; nia|]. rewrite HNone. done.
    + destruct (C9 x Hold) as (s' & i & E & Hi & How' & HF & Hcur & Hst). exists s', i. simpl.
      split; [done|]. split; [done|]. split; [done|]. split; [done|]. split; [|done].
      intros [= <-]. specialize (Hcur Es). lia.
  - intros s' i Hs' Hi Hcur. destruct (decide (s' = s ∧ i = k)) as [[-> ->]|Hne]; [rewrite Ek; set_solver|].
    assert (s' + i * allocationSize_ c ∈ freedAllocations_ c ++ H); [|set_solver]. apply C11; [done|done|].
    rewrite Es. intros [= <-]. specialize (Hcur eq_refl). assert (i ≠ k) by naive_solver. nia.
  - intros E. destruct (C10 E) as (_ & _ & ?). congruence.
Qed.

(** A current slab from which nothing more can be carved is carved completely. *)
Lemma exhausted a c H s i :
  cinv a c H → canAllocateFromCurrentSlabLocked c = false → currSlab_ c = Some s → 0 <= i < per_slab c →
  i * allocationSize_ c < currOffset_ c.
Proof.
  intros CI Hc Hs Hi. destruct (ci_current _ _ _ CI s Hs) as [_ (k & Hk & Ek)].
  destruct (per_slab_bounds _ _ _ CI) as (B1 & B2 & B3). pose proof (ci_size _ _ _ CI) as [S1 S2].
  unfold canAllocateFromCurrentSlabLocked in Hc. rewrite Hs in Hc. simpl in Hc. apply Z.leb_gt in Hc.
  unfold kMinAllocSize in S1. rewrite kSize_eq in *. assert (0 <= k * allocationSize_ c <= 2 ^ 24) by nia.
  rewrite u32_small in Hc by (unfold is_u32; lia). rewrite Ek in *. assert (per_slab c <= k) by nia. nia.
Qed.

Lemma setupCurrentSlabLocked_ok a c H :
  cinv a c H → freeSlabs_ c ≠ [] → canAllocateFromCurrentSlabLocked c = false →
  returns setupCurrentSlabLocked (c, a) (λ _ s',
    s'.2 = a ∧ same_class c s'.1 ∧ cinv a s'.1 H ∧ canAllocateFromCurrentSlabLocked s'.1 = true).
Proof.
  intros CI HF Hcan. destruct (last (freeSlabs_ c)) as [s|] eqn:El; [|by apply last_None in El].
  eexists _, _. unfold setupCurrentSlabLocked. simpl. rewrite El. split; [reflexivity|].
  apply last_Some in El as [l El]. rewrite El, removelast_last. simpl.
  split; [done|]. split; [done|].
  pose proof CI as [C0 C1 C2 C3 C4 C5 C6 C7 C8 C9 C11 C10]. destruct (per_slab_bounds _ _ _ CI) as (B1 & _). rewrite El in *.
  split; [split; try done; simpl|].
  - rewrite <-app_assoc. by rewrite (Permutation_app_comm [s] l).
  - intros s' Hs'. apply C4. set_solver.
  - intros s' [= <-]. split; [set_solver|]. exists 0. split; [change (0 <= 0 <= per_slab c); lia|lia].
  - intros x Hx. destruct (C9 x Hx) as (s' & i & E & Hi & How & HF' & Hcur & Hst). exists s', i. simpl.
    split; [done|]. split; [done|]. split; [done|]. rewrite El in HF'. split; [set_solver|]. split; [|done].
    intros [= <-]. destruct HF'. apply elem_of_app. right. left.
  - intros s' i [Hs'| ->%list_elem_of_singleton]%elem_of_app Hi Hcur.
    + apply C11; [done|done|]. intros Es. eapply exhausted; [exact CI|done..].
    + specialize (Hcur eq_refl). unfold kMinAllocSize in C2. nia.
  - intros E. destruct (C10 E) as (_ & ? & _). by destruct l.
  - unfold canAllocateFromCurrentSlabLocked. simpl. unfold kMinAllocSize in C2. rewrite kSize_eq in *.
    rewrite u32_small by (unfold is_u32; lia). apply Z.leb_le. lia.
Qed.

Definition class_empty (c : t) : Prop :=
  freedAllocations_ c = [] ∧ freeSlabs_ c = [] ∧ canAllocateFromCurrentSlabLocked c = false.

Lemma allocateLocked_ok a c H :
  geometry a → cinv a c H →
  returns allocateLocked (c, a) (λ r s',
    s'.2 = a ∧ same_class c s'.1 ∧
    match r with
    | Some x => cinv a s'.1 (x :: H)
    | None => cinv a s'.1 H ∧ class_empty c
    end).
Proof.
  intros G CI. unfold allocateLocked. apply returns_bind, returns_reads. simpl.
  destruct (bool_decide _ && bool_decide _ && negb _) eqn:Eb.
  { apply andb_true_iff in Eb as [Eb E3]. apply andb_true_iff in Eb as [E1%bool_decide_eq_true E2%bool_decide_eq_true].
    apply negb_true_iff in E3. apply returns_bind, returns_updates, returns_ret. simpl. split; [done|]. split; [done|].
    split; [|done]. destruct CI as [C0 C1 C2 C3 C4 C5 C6 C7 C8 C9 C11 C10]. by split. }
  destruct (freedAllocations_ c) as [|x rest] eqn:Ef.
  - destruct (canAllocateFromCurrentSlabLocked c) eqn:Ecan.
    + apply returns_bind. eapply returns_mono; [by apply allocateFromCurrentSlabLocked_ok|].
      intros x s' Hs'. by apply returns_ret.
    + rewrite bool_decide_eq_true_2, andb_true_l, andb_true_r in Eb by done. apply bool_decide_eq_false in Eb.
      apply returns_bind. eapply returns_mono; [by apply setupCurrentSlabLocked_ok|].
      intros _ [c1 a1] (Ea & Hid & CI1 & Hcan1). simpl in *. subst a1.
      apply returns_bind. eapply returns_mono; [by apply allocateFromCurrentSlabLocked_ok|].
      intros x s' (E1 & Hid1 & CI2). apply returns_ret. split; [done|]. split; [|done].
      by eapply same_class_trans.
  - apply returns_bind, returns_updates, returns_ret. simpl. split; [done|]. split; [done|].
    assert (set_freed rest c = set_canAllocate (canAllocate_ c) (set_freed rest c)) as -> by (by destruct c).
    apply (cinv_freed a c H); [done| | |done].
    + rewrite Ef. simpl. by rewrite Permutation_middle.
    + intros E _. destruct (ci_full _ _ _ CI E) as [E' _]. congruence.
Qed.

Lemma ac_allocate_ok a c H :
  geometry a → cinv a c H →
  returns allocate (c, a) (λ r s',
    s'.2 = a ∧ same_class c s'.1 ∧
    match r with
    | Some x => cinv a s'.1 (x :: H)
    | None => cinv a s'.1 H ∧ class_empty c
    end).
Proof.
  intros G CI. unfold allocate. apply returns_bind, returns_reads. simpl.
  destruct (canAllocate_ c) eqn:Ec; simpl; [by apply allocateLocked_ok|].
  apply returns_ret. split; [done|]. split; [done|]. split; [done|]. by apply (ci_full _ _ _ CI).
Qed.

(** ** Adding a slab *)

Lemma returns_on_slabs {A} (m : EX SlabAllocator.t A) c a (Q : A → State → Prop) :
  returns m a (λ r a', Q r (c, a')) → returns (on_slabs m) (c, a) Q.
Proof. intros (r & a' & E & HQ). exists r, (c, a'). unfold on_slabs, zoom. simpl. by rewrite E. Qed.

Lemma addSlabLocked_ok a c H s :
  sa_inv a → cinv a c H → slab_in a s (poolId_ c) kInvalidClassId →
  returns (addSlabLocked s) (c, a) (λ _ s',
    sa_inv s'.2 ∧ only s a s'.2 ∧ owned s'.2 c s ∧ same_class c s'.1 ∧ cinv s'.2 s'.1 H ∧ freeSlabs_ s'.1 ≠ []).
Proof.
  intros SI CI Hs. pose proof (sa_geometry _ SI) as G. destruct Hs as (h & Hh & E1 & E2 & E3). pose proof Hh as [Hok _].
  assert (¬ owned a c s) as Hno.
  { intros (h' & Hh' & _ & E). rewrite <-(holds_det _ _ _ _ Hh Hh'), E2 in E.
    pose proof (ci_class _ _ _ CI). unfold kInvalidClassId in E. lia. }
  pose proof (ci_pool _ _ _ CI) as C0.
  unfold addSlabLocked. apply returns_bind, returns_updates, returns_bind, returns_reads. simpl.
  rewrite (getSlabHeader_ok G) by done. apply returns_bind, returns_reads, returns_bind, returns_on_slabs. simpl.
  apply (returns_modHeader G); [done|]. intros hs G' Ho Hset. apply returns_updates. simpl.
  set (h' := setAllocInfo (classId_ c) (allocationSize_ c) h) in *. specialize (Hset h Hh).
  assert (owned (SlabAllocator.set_headers hs a) c s) as Hown by (by exists h').
  split; [eapply sa_inv_headers; [done..|]; eapply not_free; [done..|]; unfold kInvalidPoolId; lia|].
  split; [done|]. split; [done|]. split; [done|]. split; [|by destruct (freeSlabs_ c)].
  pose proof CI as [_ C1 C2 C3 C4 C5 C6 C7 C8 C9 C11 C10].
  assert (∀ s', s' ≠ s → owned a c s' ↔ owned (SlabAllocator.set_headers hs a) c s') as Eo.
  { intros s' Hne. split; intros (h0 & Hh0 & Er); exists h0; (split; [|done]); by apply (only_headers _ _ _ Ho). }
  assert (∀ s', owned a c s' → s' ≠ s) as Hne by (by intros s' How ->).
  assert (slabReleaseAllocMap_ c !! s = None) as HNone.
  { destruct (slabReleaseAllocMap_ c !! s) as [st|] eqn:E; [|done]. by destruct (C5 s st E). }
  split; try done; simpl.
  - rewrite app_assoc. apply NoDup_app. split; [done|]. split; [|apply NoDup_singleton].
    intros x Hx ->%list_elem_of_singleton. by destruct (C4 s Hx).
  - intros s' Hs'. rewrite app_assoc in Hs'. apply elem_of_app in Hs' as [Hs'| ->%list_elem_of_singleton]; [|done].
    destruct (C4 s' Hs') as [How ?]. split; [|done]. apply Eo; [by apply Hne|done].
  - intros s' st Hst. destruct (C5 s' st Hst) as [How ?]. split; [|done]. apply Eo; [by apply Hne|done].
  - intros s' h0 Hh0 Ep Ec. destruct (decide (s' = s)) as [->|Hss].
    + rewrite (holds_det _ _ _ _ Hh0 Hset), HNone. replace (isMarkedForRelease _) with false by done. split; [done|]. by intros [? ?].
    + apply C6; [|done..]. by apply (only_headers _ _ _ Ho).
  - intros x Hx. destruct (C9 x Hx) as (s' & i & E & Hi & How & HF & Hcur & Hst). exists s', i. simpl.
    split; [done|]. split; [done|]. split; [apply Eo; [by apply Hne|done]|]. split; [|done].
    intros [?| ->%list_elem_of_singleton]%elem_of_app; [done|]. by apply (Hne s).
Qed.

Lemma addSlabAndAllocate_ok a c H s :
  sa_inv a → cinv a c H → slab_in a s (poolId_ c) kInvalidClassId →
  returns (addSlabAndAllocate s) (c, a) (λ r s', ∃ x, r = Some x ∧
    sa_inv s'.2 ∧ only s a s'.2 ∧ owned s'.2 c s ∧ same_class c s'.1 ∧ cinv s'.2 s'.1 (x :: H)).
Proof.
  intros SI CI Hs. apply returns_bind. eapply returns_mono; [by apply addSlabLocked_ok|].
  intros _ [c1 a1] (SI1 & Ho & How & Hid & CI1 & HF). simpl in *.
  eapply returns_mono; [apply (allocateLocked_ok a1 c1 H); [apply SI1|done]|].
  intros r [c2 a2] (Ea & Hid2 & Hr). simpl in *. subst a2. destruct r as [x|].
  - exists x. split; [done|]. split; [done|]. split; [done|]. split; [done|]. split; [|done].
    by eapply same_class_trans.
  - destruct Hr as [_ (_ & ? & _)]. done.
Qed.

(** ** Freeing *)

(** A release of [s] is under way and all its unfreed chunks are held. *)
Definition covered (c : t) (s : Z) (st : list bool) (l : list Z) : Prop :=
  ∀ i, 0 <= i < per_slab c → st !! Z.to_nat i = Some false → s + i * allocationSize_ c ∈ l.
Definition releasing (c : t) (H : list Z) (s : Z) : Prop :=
  ∃ st, slabReleaseAllocMap_ c !! s = Some st ∧ covered c s st H.

Lemma releasing_same c c' H H' s :
  same_ids c c' → (∀ st, slabReleaseAllocMap_ c !! s = Some st → slabReleaseAllocMap_ c' !! s = Some st) →
  (∀ x, x ∈ H → x ∈ H') → releasing c H s → releasing c' H' s.
Proof.
  intros (_ & _ & Esz) Hm HH (st & Hst & Hcov). exists st. split; [by apply Hm|].
  unfold covered, per_slab, getAllocsPerSlab in *. rewrite Esz. intros i Hi Hf. by apply HH, Hcov.
Qed.

(** A held chunk leads to the header of its slab and to its place in the slab. *)
Lemma chunk_header a c H x :
  geometry a → cinv a c H → chunk a c x → ∃ s i h,
    SlabAllocator.getSlabForMemory x = s ∧ SlabAllocator.getSlabHeaderFor a x = Some (SlabAllocator.slabIdx a s) ∧
    holds a s h ∧ poolId h = poolId_ c ∧ classId h = classId_ c ∧
    x = s + i * allocationSize_ c ∧ 0 <= i < per_slab c ∧ getAllocIdx c s x = i ∧
    (∀ st, slabReleaseAllocMap_ c !! s = Some st → st !! Z.to_nat i = Some false).
Proof.
  intros G CI (s & i & -> & Hi & How & HF & Hcur & Hst). pose proof How as (h & Hh & E1 & E2).
  destruct (chunk_slab G CI s i (owned_ok _ _ _ How) Hi) as [Es Ei].
  exists s, i, h. unfold SlabAllocator.getSlabHeaderFor. rewrite Es, (getSlabHeader_ok G) by apply Hh.
  by repeat (split; [done|]).
Qed.

Lemma free_unmarked_ok a c H x :
  cinv a c (x :: H) → cinv a (set_canAllocate true (set_freed (x :: freedAllocations_ c) c)) H.
Proof.
  intros CI. apply (cinv_freed a c (x :: H)); [done| |done|done]. simpl. by rewrite Permutation_middle.
Qed.

Lemma free_marked_ok a c H s i st :
  geometry a → cinv a c (s + i * allocationSize_ c :: H) → owned a c s → 0 <= i < per_slab c →
  slabReleaseAllocMap_ c !! s = Some st →
  cinv a (set_releaseMap (<[s := <[Z.to_nat i := true]> st]> (slabReleaseAllocMap_ c)) c) H.
Proof.
  intros G CI How Hi Hst. pose proof CI as [C0 C1 C2 C3 C4 C5 C6 C7 C8 C9 C11 C10].
  set (x := s + i * allocationSize_ c) in *.
  assert (x ∉ freedAllocations_ c ++ H ∧ NoDup (freedAllocations_ c ++ H)) as [Hx Hnd].
  { rewrite <-Permutation_middle in C8. by apply NoDup_cons in C8. }
  split; try done; simpl.
  - intros s' Hs'. destruct (C4 s' Hs') as [How' HN]. split; [done|].
    rewrite lookup_insert_ne; [done|]. intros <-. congruence.
  - intros s' st' Hl. destruct (decide (s' = s)) as [->|Hne].
    + rewrite lookup_insert_eq in Hl. injection Hl as <-. rewrite length_insert. by apply C5.
    + rewrite lookup_insert_ne in Hl by done. by apply C5.
  - intros s' h Hh Ep Ec. rewrite (C6 s' h Hh Ep Ec). destruct (decide (s' = s)) as [->|Hne].
    + rewrite lookup_insert_eq, Hst. by split.
    + by rewrite lookup_insert_ne.
  - intros y Hy. destruct (C9 y) as (s' & j & E & Hj & How' & HF & Hcur & Hst'); [set_solver|].
    exists s', j. split; [done|]. split; [done|]. split; [done|]. split; [done|]. split; [done|].
    intros st' Hl. simpl in Hl. destruct (decide (s' = s)) as [->|Hne]; [|rewrite lookup_insert_ne in Hl by done; by apply Hst'].
    rewrite lookup_insert_eq in Hl. injection Hl as <-.
    rewrite list_lookup_insert_ne; [by apply Hst'|]. intros Eij. assert (i = j) as -> by lia. by apply Hx; subst x y.
  - intros s' j Hs' Hj Hcur. specialize (C11 s' j Hs' Hj Hcur). destruct (C4 s') as [How' HN]; [set_solver|].
    rewrite <-Permutation_middle in C11. apply elem_of_cons in C11 as [E|?]; [|done]. exfalso.
    destruct (chunk_slab G CI s i (owned_ok _ _ _ How) Hi) as [E1 _].
    destruct (chunk_slab G CI s' j (owned_ok _ _ _ How') Hj) as [E2 _].
    fold x in E1. rewrite E, E1 in E2. congruence.
Qed.

Lemma free_marked_releasing a c H s i st s' :
  geometry a → cinv a c (s + i * allocationSize_ c :: H) → owned a c s → 0 <= i < per_slab c →
  slabReleaseAllocMap_ c !! s = Some st → releasing c (s + i * allocationSize_ c :: H) s' →
  releasing (set_releaseMap (<[s := <[Z.to_nat i := true]> st]> (slabReleaseAllocMap_ c)) c) H s'.
Proof.
  intros G CI How Hi Hst (st' & Hst' & Hcov).
  pose proof (owned_ok _ _ _ (proj1 (ci_release _ _ _ CI s' st' Hst'))) as Hs'.
  assert (∀ j, 0 <= j < per_slab c → st' !! Z.to_nat j = Some false → (s', j) ≠ (s, i) → s' + j * allocationSize_ c ∈ H) as Hin.
  { intros j Hj Hf Hne. specialize (Hcov j Hj Hf). apply elem_of_cons in Hcov as [E|?]; [|done]. destruct Hne.
    destruct (chunk_slab G CI s' j Hs' Hj) as [E1 E2], (chunk_slab G CI s i (owned_ok _ _ _ How) Hi) as [E3 E4].
    rewrite E in E1. assert (s' = s) as Ess by congruence. clear E1 E3. subst s'. rewrite E, E4 in E2. by subst j. }
  destruct (decide (s' = s)) as [->|Hne].
  - rewrite Hst in Hst'. injection Hst' as <-. eexists. split; [apply lookup_insert_eq|]. intros j Hj Hf.
    destruct (decide (j = i)) as [->|Hij].
    { rewrite list_lookup_insert_eq in Hf; [done|]. destruct (ci_release _ _ _ CI s st Hst) as [_ ->].
      change (0 <= i < per_slab c) in Hj. lia. }
    change (0 <= j < per_slab c) in Hj. rewrite list_lookup_insert_ne in Hf by lia. apply Hin; [done|done|congruence].
  - exists st'. split; [simpl; by rewrite lookup_insert_ne by done|]. intros j Hj Hf. apply Hin; [done|done|congruence].
Qed.

Lemma ac_free_ok a c H x :
  geometry a → cinv a c (x :: H) →
  returns (free x) (c, a) (λ _ s', s'.2 = a ∧ same_ids c s'.1 ∧ cinv a s'.1 H ∧
    ∀ s, releasing c (x :: H) s → releasing s'.1 H s).
Proof.
  intros G CI. assert (chunk a c x) as Hx by (apply (ci_chunk _ _ _ CI); set_solver).
  destruct (chunk_header a c _ x G CI Hx) as (s & i & h & Es & Eh & Hh & E1 & E2 & Ex & Hi & Ei & Hst).
  unfold free. apply returns_bind, returns_reads. simpl. rewrite Eh, Es.
  apply returns_bind, returns_on_slabs, (returns_readHeader G s h); [done|]. apply returns_bind, returns_reads. simpl.
  rewrite E2, Z.eqb_refl. simpl. pose proof (ci_marked _ _ _ CI s h Hh E1 E2) as Hm.
  destruct (isMarkedForRelease h) eqn:Em.
  - destruct (proj1 Hm eq_refl) as [st Hst']. rewrite Hst', Ei, (Hst st Hst'). apply returns_updates. simpl.
    assert (owned a c s) as How by (by exists h).
    split; [done|]. split; [done|]. subst x. split; [by apply free_marked_ok|]. intros s'. by apply (free_marked_releasing a).
  - apply returns_updates. simpl. split; [done|]. split; [done|]. split; [by apply free_unmarked_ok|].
    intros s' (st & Hl & Hcov). exists st. split; [done|]. intros j Hj Hf. specialize (Hcov j Hj Hf).
    apply elem_of_cons in Hcov as [E|?]; [|done]. exfalso.
    destruct (chunk_slab G CI s' j (owned_ok _ _ _ (proj1 (ci_release _ _ _ CI s' st Hl))) Hj) as [F1 _].
    rewrite E, Es in F1. subst s'. assert (false = true) as ?; [|done]. apply Hm. by eexists.
Qed.
