(* ===== verification/CacheRelease.v ===== *)
(** * CacheRelease: taking slabs away from an allocation class

    The steps of [startSlabRelease], [completeSlabRelease] and [abortSlabRelease] keep
    the account of chunks of CacheChunks.  A release that is started reports exactly
    the chunks of the slab that are held, also when its free list is processed in
    several batches. *)

From S2P Require Import Prelude Types CacheSlab CacheClass CacheInv CacheChunks.
Import AllocationClass.
Open Scope Z_scope.

(** ** Lists *)

Lemma last_insert_middle {A} (l1 l2 : list A) x y :
  last (l1 ++ x :: l2) = Some y → l1 ++ x :: l2 ≡ₚ x :: removelast (l1 ++ y :: l2).
Proof.
  destruct l2 as [|z l2 _] using rev_ind.
  - rewrite last_snoc. intros [= ->]. rewrite removelast_last. by rewrite Permutation_app_comm.
  - rewrite app_comm_cons, (app_assoc l1), last_snoc. intros [= ->].
    rewrite (app_comm_cons l2 [y] y), (app_assoc l1 (y :: l2)), removelast_last.
    rewrite <-!Permutation_middle, Permutation_app_comm. simpl. apply perm_swap.
Qed.

Lemma swap_remove_spec x v :
  match swap_remove x v with
  | Some v' => v ≡ₚ x :: v'
  | None => x ∉ v
  end.
Proof.
  unfold swap_remove. destruct (list_find (x =.) v) as [[i y]|] eqn:E; simpl.
  - apply list_find_Some in E as (Hi & <- & _). destruct (last v) as [z|] eqn:El; simpl.
    + apply list_elem_of_split_length in Hi as (l1 & l2 & -> & ->).
      rewrite insert_app_r_alt, Nat.sub_diag by done. simpl. by apply last_insert_middle.
    + apply last_None in El. subst v. done.
  - apply list_find_None in E. rewrite Forall_forall in E. intros Hx. by apply (E x Hx).
Qed.

(** ** Giving up a slab whose chunks are all freed *)

Section leaving.
Context (a a' : SlabAllocator.t) (c : t) (H : list Z) (s : Z) (st : list bool).
Context (G : geometry a) (CI : cinv a c H) (Hst : slabReleaseAllocMap_ c !! s = Some st) (Ho : only s a a').

Lemma leaving_other s' : s' ≠ s → owned a c s' ↔ owned a' c s'.
Proof.
  intros Hne. unfold owned. split; intros (h & Hh & E); exists h; (split; [|done]); by apply (only_headers _ _ _ Ho).
Qed.

Lemma leaving_not_listed s' : s' ∈ allocatedSlabs_ c ++ freeSlabs_ c → s' ≠ s.
Proof. intros Hs' ->. destruct (ci_own _ _ _ CI s Hs'). congruence. Qed.

(** The slab leaves the class: none of its chunks is in the account. *)
Lemma abandon_ok :
  (∀ i, st !! i ≠ Some false) → ¬ owned a' c s →
  cinv a' (set_releaseMap (delete s (slabReleaseAllocMap_ c)) c) H.
Proof.
  intros Hall Hno. pose proof CI as [C0 C1 C2 C3 C4 C5 C6 C7 C8 C9 C11 C10]. split; try done; simpl.
  - intros s' Hs'. pose proof (leaving_not_listed s' Hs') as Hne. destruct (C4 s' Hs') as [How HN].
    rewrite lookup_delete_ne by done. split; [by apply (leaving_other s' Hne)|done].
  - intros s' st' [Hne Hl]%lookup_delete_Some. destruct (C5 s' st' Hl) as [How Hlen].
    split; [|done]. by apply (leaving_other s' (not_eq_sym Hne)).
  - intros s' h Hh Ep Ec. assert (s' ≠ s) as Hne by (intros ->; apply Hno; by exists h).
    rewrite lookup_delete_ne by done. apply C6; [|done..]. by apply (only_headers _ _ _ Ho).
  - intros x Hx. destruct (C9 x Hx) as (s' & i & E & Hi & How & HF & Hcur & Hs').
    assert (s' ≠ s) as Hne by (intros ->; by apply (Hall (Z.to_nat i)), Hs').
    exists s', i. split; [done|]. split; [done|]. split; [by apply (leaving_other s' Hne)|]. split; [done|]. split; [done|].
    simpl. intros st' [_ Hl]%lookup_delete_Some. by apply Hs'.
Qed.

(** The release is called off: the slab stays with the class. *)
Lemma unmark_ok :
  (∀ h, holds a' s h → poolId h = poolId_ c → classId h = classId_ c → isMarkedForRelease h = false) →
  owned a' c s →
  cinv a' (set_releaseMap (delete s (slabReleaseAllocMap_ c)) c) H.
Proof.
  intros Hm Hown. pose proof CI as [C0 C1 C2 C3 C4 C5 C6 C7 C8 C9 C11 C10]. split; try done; simpl.
  - intros s' Hs'. pose proof (leaving_not_listed s' Hs') as Hne. destruct (C4 s' Hs') as [How HN].
    rewrite lookup_delete_ne by done. split; [by apply (leaving_other s' Hne)|done].
  - intros s' st' [Hne Hl]%lookup_delete_Some. destruct (C5 s' st' Hl) as [How Hlen].
    split; [|done]. by apply (leaving_other s' (not_eq_sym Hne)).
  - intros s' h Hh Ep Ec. destruct (decide (s' = s)) as [->|Hne].
    + rewrite lookup_delete_eq, (Hm h Hh Ep Ec). split; [done|by intros [? ?]].
    + rewrite lookup_delete_ne by done. apply C6; [|done..]. by apply (only_headers _ _ _ Ho).
  - intros x Hx. destruct (C9 x Hx) as (s' & i & E & Hi & How & HF & Hcur & Hs').
    exists s', i. split; [done|]. split; [done|]. split.
    { change (owned a' c s'). destruct (decide (s' = s)) as [->|Hne]; [done|]. by apply leaving_other. }
    split; [done|]. split; [done|]. simpl. intros st' [_ Hl]%lookup_delete_Some. by apply Hs'.
Qed.
End leaving.

(** ** Pruning the free list *)

(** The account while part of the free list is off line: [fa] is not looked at yet,
    [ins] are chunks of the slab, [nins] are others. *)
Record pruning (a : SlabAllocator.t) (c : t) (H : list Z) (s : Z) (fa ins nins : list Z) : Prop := {
  pr_cinv : cinv a (set_freed (fa ++ ins ++ nins ++ freedAllocations_ c) c) H;
  pr_release : ∃ st, slabReleaseAllocMap_ c !! s = Some st ∧
    ∀ i, 0 <= i < per_slab c → st !! Z.to_nat i = Some false →
      s + i * allocationSize_ c ∈ (fa ++ ins ++ nins ++ freedAllocations_ c) ++ H;
  pr_in x : x ∈ ins → SlabAllocator.getSlabForMemory x = s;
  pr_out x : x ∈ nins ++ freedAllocations_ c → SlabAllocator.getSlabForMemory x ≠ s;
}.

(** Only the free list and the entry of [s] differ. *)
Definition pruned (s : Z) (c c' : t) : Prop :=
  ∃ l b st, c' = set_canAllocate b (set_releaseMap (<[s := st]> (slabReleaseAllocMap_ c)) (set_freed l c)).

Lemma pruned_trans s c1 c2 c3 : pruned s c1 c2 → pruned s c2 c3 → pruned s c1 c3.
Proof. intros (l & b & st & ->) (l' & b' & st' & ->). exists l', b', st'. simpl. by rewrite insert_insert_eq. Qed.

Lemma partition_loop_spec n a s fa ins nins :
  let '(fa', ins', nins') := partition_loop n a s fa ins nins in
  fa' ++ ins' ++ nins' ≡ₚ fa ++ ins ++ nins ∧
  (∀ x, x ∈ ins' → x ∈ ins ∨ SlabAllocator.isMemoryInSlab a x s = true) ∧
  (∀ x, x ∈ nins' → x ∈ nins ∨ SlabAllocator.isMemoryInSlab a x s = false) ∧
  length fa' = (length fa - n)%nat.
Proof.
  revert fa ins nins. induction n as [|n IH]; intros fa ins nins; simpl.
  { split; [done|]. split; [auto|]. split; [auto|]. lia. }
  destruct fa as [|x fa]; [simpl; split; [done|]; split; [auto|]; split; [auto|]; done|].
  destruct (SlabAllocator.isMemoryInSlab a x s) eqn:Ex.
  - specialize (IH fa (x :: ins) nins). destruct (partition_loop _ _ _ _ _ _) as [[fa' ins'] nins'].
    destruct IH as (IH1 & IH2 & IH3 & IH4). split; [rewrite IH1; simpl; symmetry; apply Permutation_middle|].
    split; [|split; [done|simpl; lia]]. intros y Hy. destruct (IH2 y Hy) as [[->|?]%elem_of_cons|?]; auto.
  - specialize (IH fa ins (x :: nins)). destruct (partition_loop _ _ _ _ _ _) as [[fa' ins'] nins'].
    destruct IH as (IH1 & IH2 & IH3 & IH4).
    split; [rewrite IH1; simpl; rewrite (app_assoc fa), <-Permutation_middle, <-app_assoc; done|].
    split; [done|]. split; [|simpl; lia]. intros y Hy. destruct (IH3 y Hy) as [[->|?]%elem_of_cons|?]; auto.
Qed.

Lemma cinv_shift a c H l H' :
  cinv a c H → l ++ H' ≡ₚ freedAllocations_ c ++ H → (canAllocate_ c = false → l = []) → cinv a (set_freed l c) H'.
Proof.
  intros CI HP Hl. replace (set_freed l c) with (set_canAllocate (canAllocate_ c) (set_freed l c)) by (by destruct c).
  apply (cinv_freed a c H); auto.
Qed.

Lemma partition_pruning a c H s fa :
  geometry a → slab_ok a s → pruning a c H s fa [] [] →
  let '(fa', ins', nins') := partitionFreeAllocs a s fa [] [] in
  pruning a c H s fa' ins' nins' ∧ (length fa' <= pred (length fa))%nat.
Proof.
  intros G Hs [P1 (st & P2 & P3) P4 P5]. unfold partitionFreeAllocs.
  pose proof (partition_loop_spec kFreeAllocsPruneLimit a s fa [] []) as HS.
  destruct (partition_loop _ _ _ _ _ _) as [[fa' ins'] nins']. destruct HS as (HP & Hin & Hout & Hlen).
  rewrite !app_nil_r in HP. simpl in P1, P3.
  assert (fa' ++ ins' ++ nins' ++ freedAllocations_ c ≡ₚ fa ++ freedAllocations_ c) as HP'.
  { rewrite <-HP. by rewrite <-!app_assoc. }
  assert (∀ x, SlabAllocator.isMemoryInSlab a x s = bool_decide (SlabAllocator.getSlabForMemory x = s)) as Em.
  { intros x. unfold SlabAllocator.isMemoryInSlab. rewrite (proj2 (isValidSlab_spec G s) Hs). simpl.
    destruct (Z.eqb_spec (SlabAllocator.getSlabForMemory x) s); symmetry; by case_bool_decide. }
  split; [split|unfold kFreeAllocsPruneLimit in Hlen; lia].
  - assert (∀ l, set_freed l c = set_freed l (set_freed (fa ++ freedAllocations_ c) c)) as E by done. rewrite E.
    apply (cinv_shift a _ H); [done|simpl; by rewrite HP'|]. simpl. intros Ec.
    destruct (ci_full _ _ _ P1 Ec) as [E' _]. simpl in E'. rewrite E' in HP'. by apply Permutation_nil_r in HP'.
  - exists st. split; [done|]. intros i Hi Hf. rewrite HP'. by apply P3.
  - intros x Hx. destruct (Hin x Hx) as [?%elem_of_nil|E]; [done|]. rewrite Em in E. by apply bool_decide_eq_true in E.
  - intros x [Hx|Hx]%elem_of_app; [|apply P5; set_solver].
    destruct (Hout x Hx) as [?%elem_of_nil|E]; [done|]. rewrite Em in E. by apply bool_decide_eq_false in E.
Qed.

(** Marking chunks of the slab takes them out of the account. *)
Lemma mark_all_ok a c H s ins rest st :
  geometry a → slab_ok a s →
  cinv a (set_freed (ins ++ rest) (set_releaseMap (<[s := st]> (slabReleaseAllocMap_ c)) c)) H →
  (∀ x, x ∈ ins → SlabAllocator.getSlabForMemory x = s) →
  (∀ i, 0 <= i < per_slab c → st !! Z.to_nat i = Some false → s + i * allocationSize_ c ∈ (ins ++ rest) ++ H) →
  ∃ st', mark_all c s ins st = Some st' ∧
    cinv a (set_freed rest (set_releaseMap (<[s := st']> (slabReleaseAllocMap_ c)) c)) H ∧
    (∀ i, 0 <= i < per_slab c → st' !! Z.to_nat i = Some false → s + i * allocationSize_ c ∈ rest ++ H).
Proof.
  intros G Hs. revert st. induction ins as [|x ins IH]; intros st CI Hin Hex; [by exists st|]. cbn [mark_all].
  set (c0 := set_freed ((x :: ins) ++ rest) (set_releaseMap (<[s := st]> (slabReleaseAllocMap_ c)) c)) in *.
  assert (chunk a c0 x) as Hx by (apply (ci_chunk _ _ _ CI); left).
  destruct (chunk_header a c0 H x G CI Hx) as (s' & i & h & Es & _ & Hh & E1 & E2 & Ex & Hi & Ei & Hst).
  assert (s' = s) as -> by (rewrite <-Es; apply Hin; left). specialize (Hst st (lookup_insert_eq _ _ _)).
  change (getAllocIdx c0 s x) with (getAllocIdx c s x) in Ei. change (per_slab c0) with (per_slab c) in Hi.
  change (allocationSize_ c0) with (allocationSize_ c) in Ex.
  assert (i < Z.of_nat (length st)) by (apply lookup_lt_Some in Hst; lia).
  unfold mark_freed. rewrite Ei, (proj2 (Z.leb_le 0 i)), (proj2 (Z.ltb_lt i _)) by lia. simpl.
  assert (cinv a (set_freed (ins ++ rest) c0) (s + i * allocationSize_ c :: H)) as CI1.
  { apply (cinv_shift a c0 H); [done|simpl; rewrite <-Ex; by rewrite Permutation_middle|].
    intros Ec. by destruct (ci_full _ _ _ CI Ec) as [? _]. }
  assert (slabReleaseAllocMap_ c0 !! s = Some st) as Hl by apply lookup_insert_eq.
  pose proof (free_marked_ok a _ H s i st G CI1 ltac:(by exists h) Hi Hl) as CI2.
  apply IH.
  - simpl in CI2. rewrite insert_insert_eq in CI2. exact CI2.
  - intros y Hy. apply Hin. by right.
  - intros j Hj Hf. destruct (decide (j = i)) as [->|Hne].
    { rewrite list_lookup_insert_eq in Hf by lia. done. }
    rewrite list_lookup_insert_ne in Hf by lia. specialize (Hex j Hj Hf).
    apply elem_of_cons in Hex as [E|?]; [|done]. exfalso. rewrite Ex in E.
    destruct (chunk_slab G CI s i Hs Hi) as [_ I1], (chunk_slab G CI s j Hs Hj) as [_ I2].
    change (allocationSize_ c0) with (allocationSize_ c) in *. rewrite E, I1 in I2. congruence.
Qed.

Lemma prune_section_ok a c H s fa ins nins :
  geometry a → slab_ok a s → pruning a c H s fa ins nins →
  returns (prune_section s ins nins) (c, a) (λ _ s',
    s'.2 = a ∧ pruned s c s'.1 ∧ pruning a s'.1 H s fa [] []).
Proof.
  intros G Hs [P1 (st & P2 & P3) P4 P5]. unfold prune_section.
  set (c1 := if bool_decide (nins = []) then c else set_canAllocate true (set_freed (nins ++ freedAllocations_ c) c)).
  apply returns_bind. apply (returns_mono _ _ (λ _ s', s' = (c1, a))).
  { unfold c1. case_bool_decide; [by apply returns_ret|by apply returns_updates]. }
  intros _ ? ->. apply returns_bind, returns_reads. simpl.
  assert (∃ b, c1 = set_canAllocate b (set_freed (nins ++ freedAllocations_ c) c) ∧
            (b = false → canAllocate_ c = false)) as (b & Ec1 & Hb).
  { unfold c1. case_bool_decide as E; [|by exists true]. subst nins. exists (canAllocate_ c). split; [by destruct c|done]. }
  clearbody c1. subst c1. cbn [slabReleaseAllocMap_ set_canAllocate set_freed]. rewrite P2.
  set (c1 := set_canAllocate b (set_freed (nins ++ freedAllocations_ c) c)).
  assert (cinv a (set_freed (ins ++ fa ++ nins ++ freedAllocations_ c)
            (set_releaseMap (<[s := st]> (slabReleaseAllocMap_ c1)) c1)) H) as CI.
  { subst c1. simpl. rewrite insert_id by done.
    pose proof (cinv_freed a _ H (ins ++ fa ++ nins ++ freedAllocations_ c) H b P1) as HC. simpl in HC. apply HC.
    - apply Permutation_app_tail. rewrite !app_assoc. apply Permutation_app_tail, Permutation_app_tail.
      apply Permutation_app_comm.
    - intros Ec _. destruct (ci_full _ _ _ P1 Ec) as [E _]. simpl in E.
      apply app_nil in E as [-> E]. apply app_nil in E as [-> E]. done.
    - done. }
  destruct (mark_all_ok a c1 H s ins (fa ++ nins ++ freedAllocations_ c) st G Hs CI P4) as (st' & Es' & CI' & Hex').
  { intros i Hi Hf. specialize (P3 i Hi Hf). rewrite !elem_of_app in P3 |- *. simpl. tauto. }
  rewrite Es'. apply returns_updates. cbn [fst snd]. split; [done|].
  split; [by exists (nins ++ freedAllocations_ c), b, st'|]. split.
  - exact CI'.
  - exists st'. split; [apply lookup_insert_eq|]. exact Hex'.
  - intros x Hx. by apply elem_of_nil in Hx.
  - exact P5.
Qed.

Lemma prune_loop_ok abort a H s fuel : ∀ k c fa ins nins,
  geometry a → slab_ok a s → pruning a c H s fa ins nins → (length fa <= fuel)%nat →
  returns (prune_loop fuel k abort s fa ins nins) (c, a) (λ r s',
    let '(aborted, (fa', ins', nins')) := r in
    s'.2 = a ∧ (s'.1 = c ∨ pruned s c s'.1) ∧ pruning a s'.1 H s fa' ins' nins' ∧
    (aborted = false → fa' = [] ∧ ins' = [] ∧ nins' = [])).
Proof.
  induction fuel as [|fuel IH]; intros k c fa ins nins G Hs HP Hlen; cbn [prune_loop].
  - destruct (abort k); [apply returns_ret; by split_and!; [|left| |]|].
    apply returns_bind. eapply returns_mono; [by apply (prune_section_ok a c H s fa ins nins)|].
    intros _ [c1 a1] (Ea & Hp & HP1). simpl in Ea, Hp, HP1. subst a1.
    destruct fa; [|simpl in Hlen; lia]. apply returns_ret. simpl. by split_and!; [|right| |].
  - destruct (abort k); [apply returns_ret; by split_and!; [|left| |]|].
    apply returns_bind. eapply returns_mono; [by apply (prune_section_ok a c H s fa ins nins)|].
    intros _ [c1 a1] (Ea & Hp & HP1). simpl in Ea, Hp, HP1. subst a1.
    destruct fa as [|x fa]; [apply returns_ret; simpl; by split_and!; [|right| |]|].
    apply returns_bind, returns_reads. cbn [snd].
    pose proof (partition_pruning a c1 H s (x :: fa) G Hs HP1) as HQ.
    destruct (partitionFreeAllocs a s (x :: fa) [] []) as [[fa' ins'] nins']. destruct HQ as [HP2 Hlen2].
    simpl in Hlen, Hlen2. eapply returns_mono; [apply (IH (S k) c1 fa' ins' nins'); [done..|lia]|].
    intros [ab [[fa2 ins2] nins2]] s2 (E2 & Hp2 & HP3 & Hend). split; [done|]. split; [|done]. right.
    destruct Hp2 as [->|Hp2]; [done|]. by eapply pruned_trans.
Qed.

Lemma pruneFreeAllocs_ok abort a c H s st :
  geometry a → slab_ok a s → cinv a c H → slabReleaseAllocMap_ c !! s = Some st →
  covered c s st (freedAllocations_ c ++ H) →
  returns (pruneFreeAllocs abort s) (c, a) (λ r s',
    s'.2 = a ∧ pruned s c s'.1 ∧ cinv a s'.1 H ∧
    (r.1 = false → ∃ st', slabReleaseAllocMap_ s'.1 !! s = Some st' ∧ r.2 = active_allocations s'.1 s st' ∧
       covered s'.1 s st' H)).
Proof.
  intros G Hs CI Hst Hcov. unfold pruneFreeAllocs.
  apply returns_bind, returns_reads, returns_bind, returns_reads, returns_bind, returns_updates. cbn [fst snd].
  assert (pruning a (set_freed [] c) H s (freedAllocations_ c) [] []) as HP.
  { split; simpl; rewrite ?app_nil_r.
    - by replace (set_freed _ (set_freed [] c)) with c by (by destruct c).
    - by exists st.
    - intros x Hx. by apply elem_of_nil in Hx.
    - intros x Hx. by apply elem_of_nil in Hx. }
  pose proof (partition_pruning a _ H s _ G Hs HP) as HQ.
  destruct (partitionFreeAllocs a s (freedAllocations_ c) [] []) as [[fa ins] nins]. destruct HQ as [HP1 Hlen].
  apply returns_bind. eapply returns_mono; [apply (prune_loop_ok abort a H s); [done|done|exact HP1|lia]|].
  intros [ab [[fa' ins'] nins']] [c1 a1] (Ea & Hp & [Q1 (st' & Q2 & Q3) _ Q5] & Hend). simpl in Ea. subst a1.
  assert (pruned s c c1) as Hp'.
  { destruct Hp as [E|(l & b & st1 & E)]; simpl in E; subst c1; [|by exists l, b, st1].
    exists [], (canAllocate_ c), st. rewrite insert_id by done. by destruct c. }
  destruct ab.
  - apply returns_bind, returns_updates, returns_ret. cbn [fst snd]. split; [done|]. split.
    { destruct Hp' as (l & b & st1 & ->). by eexists _, b, st1. }
    split; [|done]. simpl in Q1.
    assert (∀ l, set_freed l c1 = set_freed l (set_freed (fa' ++ ins' ++ nins' ++ freedAllocations_ c1) c1)) as E by done.
    rewrite E. apply (cinv_shift a _ H); [done| |].
    + simpl. apply Permutation_app_tail. rewrite !app_assoc. apply Permutation_app_tail.
      rewrite <-!app_assoc, (Permutation_app_comm fa'), <-app_assoc. done.
    + intros Ec. destruct (ci_full _ _ _ Q1 Ec) as [E' _]. simpl in E'.
      apply app_nil in E' as [-> E']. apply app_nil in E' as [-> E']. by apply app_nil in E' as [-> ->].
  - destruct (Hend eq_refl) as (-> & -> & ->). simpl in Q1, Q2, Q3, Q5.
    apply returns_bind, returns_reads. cbn [fst]. rewrite Q2. apply returns_ret. cbn [fst snd].
    split; [done|]. split; [done|]. replace (set_freed _ c1) with c1 in Q1 by (by destruct c1). split; [done|].
    intros _. exists st'. split; [done|]. split; [done|]. intros i Hi Hf.
    destruct (elem_of_app (freedAllocations_ c1) H (s + i * allocationSize_ c1)) as [[Hfr|?] _]; [by apply Q3| |done].
    exfalso. apply (Q5 _ Hfr). by apply (chunk_slab G Q1).
Qed.

Lemma elem_of_active c s st x :
  x ∈ active_allocations c s st ↔ ∃ i, st !! i = Some false ∧ x = s + Z.of_nat i * allocationSize_ c.
Proof.
  unfold active_allocations. rewrite list_elem_of_omap. split.
  - intros ([i freed] & Hin & E). apply list_elem_of_lookup in Hin as [k Hk].
    apply lookup_zip_Some in Hk as [H1 H2]. apply lookup_seq in H1 as [-> _]. destruct freed; [done|].
    injection E as <-. exists k. done.
  - intros (i & Hi & ->). exists (i, false). split; [|done]. apply list_elem_of_lookup. exists i.
    apply lookup_zip_Some. split; [|done]. apply lookup_seq. split; [done|]. by apply lookup_lt_Some in Hi.
Qed.

(** The chunks a release reports are exactly the held chunks of the slab. *)
Lemma active_exact a c H s st x :
  geometry a → cinv a c H → slabReleaseAllocMap_ c !! s = Some st → covered c s st H →
  x ∈ active_allocations c s st ↔ x ∈ H ∧ SlabAllocator.getSlabForMemory x = s.
Proof.
  intros G CI Hst Hcov. destruct (ci_release _ _ _ CI s st Hst) as [How Hlen]. rewrite elem_of_active.
  pose proof (owned_ok _ _ _ How) as Hs. split.
  - intros (i & Hi & ->). pose proof (lookup_lt_Some _ _ _ Hi) as Hlt.
    assert (0 <= Z.of_nat i < per_slab c) as Hi' by lia. split; [apply Hcov; [done|by rewrite Nat2Z.id]|].
    by apply (chunk_slab G CI).
  - intros [HxH Es]. assert (chunk a c x) as Hx by (apply (ci_chunk _ _ _ CI); set_solver).
    destruct (chunk_header a c H x G CI Hx) as (s' & i & h & Es' & _ & _ & _ & _ & Ex & Hi & _ & Hf).
    rewrite Es in Es'. subst s'. exists (Z.to_nat i). rewrite Z2Nat.id by lia. split; [by apply Hf|done].
Qed.

(** ** Starting a release *)

(** The releases of other slabs go on. *)
Definition map_but (s : Z) (c c' : t) : Prop :=
  ∀ s', s' ≠ s → slabReleaseAllocMap_ c' !! s' = slabReleaseAllocMap_ c !! s'.

Lemma map_but_trans s c1 c2 c3 : map_but s c1 c2 → map_but s c2 c3 → map_but s c1 c3.
Proof. intros H1 H2 s' Hne. by rewrite H2, H1. Qed.

Lemma map_but_insert s c c' st :
  slabReleaseAllocMap_ c' = <[s := st]> (slabReleaseAllocMap_ c) → map_but s c c'.
Proof. intros E s' Hne. by rewrite E, lookup_insert_ne. Qed.

Lemma map_but_delete s c c' :
  slabReleaseAllocMap_ c' = delete s (slabReleaseAllocMap_ c) → map_but s c c'.
Proof. intros E s' Hne. by rewrite E, lookup_delete_ne. Qed.

(** The header of a slab of the class has changed, and the slab is still with it. *)
Definition kept_at (a : SlabAllocator.t) (c : t) (H : list Z) (s : Z) (s' : State) : Prop :=
  sa_inv s'.2 ∧ same_ids c s'.1 ∧ cinv s'.2 s'.1 H ∧ owned a c s ∧ owned s'.2 c s ∧ only s a s'.2 ∧ map_but s c s'.1.

(** Where an attempt to release leaves the class when it throws. *)
Definition kept (a : SlabAllocator.t) (c : t) (H : list Z) (s' : State) : Prop :=
  s' = (c, a) ∨ ∃ s, slabReleaseAllocMap_ c !! s = None ∧ kept_at a c H s s'.

Section marking.
Context (a a' : SlabAllocator.t) (c : t) (H : list Z) (s : Z) (h h' : SlabHeader).
Context (G : geometry a) (CI : cinv a c H) (Hh : holds a s h) (Hh' : holds a' s h') (Ho : only s a a').
Context (Ep : poolId h = poolId_ c) (Ec : classId h = classId_ c).

(** A free slab leaves the class. *)
Lemma release_free_ok free :
  freeSlabs_ c ≡ₚ s :: free → classId h' ≠ classId_ c →
  cinv a' (set_slabs (allocatedSlabs_ c) free c) H.
Proof.
  intros HF Hc'. pose proof CI as [C0 C1 C2 C3 C4 C5 C6 C7 C8 C9 C11 C10]. rewrite HF in C3.
  assert (NoDup (allocatedSlabs_ c ++ free) ∧ s ∉ allocatedSlabs_ c ++ free) as [Hnd Hns].
  { rewrite <-Permutation_middle in C3. apply NoDup_cons in C3. tauto. }
  destruct (C4 s) as [How HNone]; [rewrite HF; set_solver|].
  assert (∀ s', owned a' c s' ↔ s' ≠ s ∧ owned a c s') as Eo.
  { intros s'. destruct (decide (s' = s)) as [->|Hne].
    - split; [|tauto]. intros (h0 & Hh0 & _ & E). by rewrite (holds_det _ _ _ _ Hh0 Hh') in E.
    - rewrite <-(leaving_other a a' c s Ho s' Hne). tauto. }
  split; try done; simpl.
  - intros s' Hs'. destruct (C4 s') as [How' HN']; [rewrite HF; set_solver|]. split; [|done].
    apply Eo. split; [|done]. by intros ->.
  - intros s' st Hl. destruct (C5 s' st Hl) as [How' Hlen]. split; [|done]. apply Eo. split; [|done].
    intros ->. congruence.
  - intros s' h0 Hh0 E1 E2. assert (s' ≠ s) as Hne.
    { intros ->. by rewrite (holds_det _ _ _ _ Hh0 Hh') in E2. }
    apply C6; [|done..]. by apply (only_headers _ _ _ Ho).
  - intros x Hx. destruct (C9 x Hx) as (s' & i & E & Hi & How' & HF' & Hcur & Hs'). exists s', i.
    split; [done|]. split; [done|]. rewrite HF in HF'. split; [apply Eo; split; [set_solver|done]|].
    split; [simpl; set_solver|]. done.
  - intros E. destruct (C10 E) as (_ & E' & _). rewrite E' in HF. by apply Permutation_nil_cons in HF.
Qed.

(** A slab is marked: its chunks are tracked by the release map [st] from now on. *)
Lemma mark_slab_ok st allocated cur offset :
  poolId h' = poolId_ c → classId h' = classId_ c → isMarkedForRelease h' = true →
  s ∉ freeSlabs_ c → slabReleaseAllocMap_ c !! s = None →
  (allocatedSlabs_ c ≡ₚ s :: allocated ∨ s ∉ allocatedSlabs_ c ∧ allocated = allocatedSlabs_ c) →
  (cur = None ∧ currSlab_ c = Some s ∨ cur = currSlab_ c ∧ offset = currOffset_ c ∧ currSlab_ c ≠ Some s) →
  length st = Z.to_nat (per_slab c) →
  (∀ i, 0 <= i < per_slab c → (currSlab_ c = Some s → i * allocationSize_ c < currOffset_ c) →
     st !! Z.to_nat i = Some false) →
  cinv a' (set_current cur offset (set_slabs allocated (freeSlabs_ c)
            (set_releaseMap (<[s := st]> (slabReleaseAllocMap_ c)) c))) H.
Proof.
  intros Ep' Ec' Em HsF HNone HA Hcurr Hlen Hst. pose proof CI as [C0 C1 C2 C3 C4 C5 C6 C7 C8 C9 C11 C10].
  assert (NoDup (allocated ++ freeSlabs_ c) ∧ s ∉ allocated ++ freeSlabs_ c ∧
    ∀ s', s' ∈ allocated → s' ∈ allocatedSlabs_ c) as (Hnd & Hns & Hsub).
  { destruct HA as [HA|[HsA ->]]; [|set_solver]. rewrite HA in C3. simpl in C3. apply NoDup_cons in C3 as [? ?].
    split; [done|]. split; [done|]. intros s' Hs'. rewrite HA. by right. }
  assert (∀ s', owned a' c s' ↔ owned a c s') as Eo.
  { intros s'. destruct (decide (s' = s)) as [->|Hne]; [|symmetry; by apply (leaving_other a a' c s Ho)].
    split; intros _; [by exists h|by exists h']. }
  split; try done; simpl.
  - intros s' Hs'. destruct (C4 s') as [How HN]; [set_solver|]. split; [by apply Eo|].
    rewrite lookup_insert_ne; [done|]. intros <-. done.
  - intros s' st' Hl. destruct (decide (s' = s)) as [->|Hne].
    + rewrite lookup_insert_eq in Hl. injection Hl as <-. split; [by exists h'|done].
    + rewrite lookup_insert_ne in Hl by done. destruct (C5 s' st' Hl). split; [by apply Eo|done].
  - intros s' h0 Hh0 E1 E2. destruct (decide (s' = s)) as [->|Hne].
    + rewrite (holds_det _ _ _ _ Hh0 Hh'), Em, lookup_insert_eq. by split.
    + rewrite lookup_insert_ne by done. apply C6; [|done..]. by apply (only_headers _ _ _ Ho).
  - intros s' E. destruct Hcurr as [[-> _]|(-> & -> & Hne)]; [done|]. destruct (C7 s' E) as [Hs' Hk]. split; [|done].
    destruct HA as [HA|[_ ->]]; [|done]. rewrite HA in Hs'. apply elem_of_cons in Hs' as [->|?]; [|done]. congruence.
  - intros x Hx. destruct (C9 x Hx) as (s' & i & E & Hi & How & HF & Hcur & Hs'). exists s', i.
    split; [done|]. split; [done|]. split; [by apply Eo|]. split; [done|]. simpl. split.
    + intros E'. destruct Hcurr as [[-> _]|(-> & -> & _)]; [done|]. by apply Hcur.
    + intros st' Hl. destruct (decide (s' = s)) as [->|Hne].
      * rewrite lookup_insert_eq in Hl. injection Hl as <-. by apply Hst.
      * rewrite lookup_insert_ne in Hl by done. by apply Hs'.
  - intros s' i Hs' Hi Hc. apply C11; [by apply Hsub|done|]. intros Es'.
    destruct Hcurr as [[-> E]|(-> & -> & _)]; [|by apply Hc]. rewrite E in Es'. injection Es' as <-.
    destruct Hns. apply elem_of_app. by left.
  - intros E. destruct (C10 E) as (E1 & E2 & E3). split; [done|]. split; [done|].
    destruct Hcurr as [[-> _]|(-> & -> & _)]; [done|]. exact E3.
Qed.
End marking.

Lemma marked_true h : isMarkedForRelease (setMarkedForRelease true h) = true.
Proof.
  unfold isMarkedForRelease, isFlagSet, setMarkedForRelease, setFlag. simpl. apply negb_true_iff, Z.eqb_neq. intros E.
  apply (f_equal (λ z, Z.testbit z 0)) in E. rewrite Z.land_spec, Z.lor_spec in E. simpl in E.
  by rewrite orb_true_r in E.
Qed.

Lemma marked_false h : isMarkedForRelease (setMarkedForRelease false h) = false.
Proof.
  unfold isMarkedForRelease, isFlagSet, setMarkedForRelease, unSetFlag. simpl. apply negb_false_iff, Z.eqb_eq.
  rewrite <-Z.land_assoc. change (Z.land (255 - 1) 1) with 0. apply Z.land_0_r.
Qed.

Definition fresh_state (c : t) (s : Z) : list bool :=
  if bool_decide (currSlab_ c = Some s)
  then imap (λ j freed, bool_decide (currOffset_ c / allocationSize_ c <= Z.of_nat j) || freed)
         (replicate (Z.to_nat (per_slab c)) false)
  else replicate (Z.to_nat (per_slab c)) false.

(** The state of a slab that is marked: what has not been carved counts as freed. *)
Lemma fresh_state_spec a c H s i :
  cinv a c H → 0 <= i < per_slab c →
  fresh_state c s !! Z.to_nat i = Some false ↔ (currSlab_ c = Some s → i * allocationSize_ c < currOffset_ c).
Proof.
  intros CI Hi. pose proof (ci_size _ _ _ CI) as [S1 _]. unfold kMinAllocSize in S1. unfold fresh_state.
  assert (replicate (Z.to_nat (per_slab c)) false !! Z.to_nat i = Some false) as Hr by (apply lookup_replicate; lia).
  case_bool_decide as E; [|rewrite Hr; split; [by intros _ ?|done]].
  rewrite list_lookup_imap, Hr. simpl. rewrite orb_false_r, Z2Nat.id by lia.
  destruct (ci_current _ _ _ CI s E) as [_ (k & Hk & Ek)]. rewrite Ek, Z.div_mul by lia.
  case_bool_decide; split; intros HH; [done|specialize (HH E); nia|intros _; nia|done].
Qed.

Lemma fresh_state_length c s : length (fresh_state c s) = Z.to_nat (per_slab c).
Proof. unfold fresh_state. case_bool_decide; by rewrite ?length_imap, length_replicate. Qed.

(** What [mark_for_release] has done when it returns. *)
Definition marked_post (a : SlabAllocator.t) (c : t) (H : list Z) (mode : SlabReleaseMode)
    (r : Z * Z * option SlabReleaseContext) (s' : State) : Prop :=
  let '(s, i, released) := r in
  i = SlabAllocator.slabIdx a s ∧ owned a c s ∧ slabReleaseAllocMap_ c !! s = None ∧
  sa_inv s'.2 ∧ only s a s'.2 ∧ same_ids c s'.1 ∧ cinv s'.2 s'.1 H ∧ map_but s c s'.1 ∧
  match released with
  | Some ctx => ctx = mkContext s (poolId_ c) kInvalidClassId [] kInvalidClassId mode ∧
      slab_in s'.2 s (poolId_ c) kInvalidClassId
  | None => owned s'.2 c s ∧ ∃ st, slabReleaseAllocMap_ s'.1 !! s = Some st ∧
      covered s'.1 s st (freedAllocations_ s'.1 ++ H)
  end.

Lemma mark_used_ok a c H s h :
  sa_inv a → cinv a c H → holds a s h → poolId h = poolId_ c → classId h = classId_ c →
  s ∉ freeSlabs_ c → slabReleaseAllocMap_ c !! s = None → s ∉ SlabAllocator.freeSlabs_ a →
  tries (mark_used s (SlabAllocator.slabIdx a s)) (c, a) (λ _ s',
    sa_inv s'.2 ∧ only s a s'.2 ∧ same_ids c s'.1 ∧ cinv s'.2 s'.1 H ∧ map_but s c s'.1 ∧ owned s'.2 c s ∧
    ∃ st, slabReleaseAllocMap_ s'.1 !! s = Some st ∧ covered s'.1 s st (freedAllocations_ s'.1 ++ H))
    (λ _, kept a c H).
Proof.
  intros SI CI Hh Ep Ec HsF HNone Hnf. pose proof (sa_geometry _ SI) as G. unfold mark_used.
  apply tries_bind, returns_tries, returns_on_slabs, (returns_modHeader G); [apply Hh|].
  intros hs G' Ho Hset. specialize (Hset h Hh). set (a' := SlabAllocator.set_headers hs a) in *.
  pose proof (marked_true h) as Em.
  assert (sa_inv a') as SI' by (by eapply sa_inv_headers).
  assert (owned a' c s) as How' by (by eexists).
  pose proof (mark_slab_ok a a' c H s h _ G CI Hh Hset Ho Ep Ec) as Hmark.
  apply tries_bind, tries_reads. cbn [fst]. rewrite HNone. apply tries_bind, returns_tries, returns_updates. cbn [fst snd].
  pose proof (swap_remove_spec s (allocatedSlabs_ c)) as HA. destruct (swap_remove s (allocatedSlabs_ c)) as [allocated|].
  - apply tries_bind, returns_tries, returns_updates. cbn [fst snd].
    assert (s ∈ allocatedSlabs_ c) as HsA by (rewrite HA; left).
    assert (∀ i, 0 <= i < per_slab c → fresh_state c s !! Z.to_nat i = Some false →
      s + i * allocationSize_ c ∈ freedAllocations_ c ++ H) as Hcov.
    { intros i Hi Hf. apply (ci_exact _ _ _ CI); [done|done|]. by eapply fresh_state_spec. }
    assert (∀ c', (∃ cur off, (cur = None ∧ currSlab_ c = Some s ∨
        cur = currSlab_ c ∧ off = currOffset_ c ∧ currSlab_ c ≠ Some s) ∧
        c' = set_current cur off (set_slabs allocated (freeSlabs_ c)
               (set_releaseMap (<[s := fresh_state c s]> (slabReleaseAllocMap_ c)) c))) →
      sa_inv a' ∧ only s a a' ∧ same_ids c c' ∧ cinv a' c' H ∧ map_but s c c' ∧ owned a' c s ∧
      ∃ st, slabReleaseAllocMap_ c' !! s = Some st ∧ covered c' s st (freedAllocations_ c' ++ H)) as Hdone.
    { intros c' (cur & off & Hcur & ->). split; [done|]. split; [done|]. split; [done|]. split; [|split; [by eapply map_but_insert|split; [done|]]].
      - apply Hmark; try done; [by left|apply fresh_state_length|]. intros i Hi Hc. by eapply fresh_state_spec.
      - exists (fresh_state c s). split; [apply lookup_insert_eq|done]. }
    unfold fresh_state in Hdone. case_bool_decide as Ecur.
    + apply returns_tries, returns_updates. cbn [fst snd]. apply Hdone. exists None, 0. split; [by left|].
      unfold set_current, set_slabs, set_releaseMap. simpl. by rewrite alter_insert_eq.
    + apply tries_ret. cbn [fst snd]. apply Hdone. exists (currSlab_ c), (currOffset_ c). split; [right|]; done.
  - apply tries_throw. right. exists s. split; [done|]. split; [done|]. split; [done|]. cbn [fst snd].
    split; [|split; [by eexists|split; [done|split; [done|by eapply map_but_insert]]]].
    eapply (Hmark _ (allocatedSlabs_ c) (currSlab_ c) (currOffset_ c)) in Em as HC; try done.
    + destruct c. exact HC.
    + by right.
    + right. split; [done|]. split; [done|]. intros E. by destruct (ci_current _ _ _ CI s E).
    + by rewrite length_replicate.
    + intros i Hi _. apply lookup_replicate. unfold per_slab in *. lia.
Qed.

Lemma mark_for_release_ok rnd mode hint a c H :
  sa_inv a → cinv a c H →
  tries (mark_for_release rnd mode hint) (c, a) (marked_post a c H mode) (λ _, kept a c H).
Proof.
  intros SI CI. pose proof (sa_geometry _ SI) as G.
  assert (kept a c H (c, a)) as Hkept by (by left).
  unfold mark_for_release. apply tries_bind, tries_reads. cbn [fst].
  destruct (match hint with None => _ | Some m => _ end) as [s|]; [|by apply tries_throw].
  apply tries_bind, tries_reads. cbn [snd]. destruct (SlabAllocator.getSlabHeader a s) as [i|] eqn:Ei; [|by apply tries_throw].
  unfold SlabAllocator.getSlabHeader in Ei. destruct (SlabAllocator.isValidSlab a s) eqn:Ev; [|done]. injection Ei as <-.
  apply (isValidSlab_spec G) in Ev. set (h := SlabAllocator.header_at a (SlabAllocator.slabIdx a s)).
  assert (holds a s h) as Hh by done.
  apply tries_bind, returns_tries, returns_on_slabs, (returns_readHeader G s h); [done|].
  destruct (negb _ || negb _ || _) eqn:Eb; [by apply tries_throw|].
  apply orb_false_iff in Eb as [[E1%negb_false_iff%Z.eqb_eq E2%negb_false_iff%Z.eqb_eq]%orb_false_iff Em].
  assert (owned a c s) as How by (by exists h).
  assert (slabReleaseAllocMap_ c !! s = None) as HNone.
  { destruct (slabReleaseAllocMap_ c !! s) eqn:E; [|done]. rewrite (proj2 (ci_marked _ _ _ CI s h Hh E2 E1)) in Em; [done|by eexists]. }
  assert (s ∉ SlabAllocator.freeSlabs_ a) as Hnf.
  { eapply not_free; [done..|]. rewrite E2. pose proof (ci_pool _ _ _ CI). unfold kInvalidPoolId. lia. }
  pose proof (swap_remove_spec s (freeSlabs_ c)) as HF. destruct (swap_remove s (freeSlabs_ c)) as [free|].
  - apply tries_bind, returns_tries, returns_updates. apply tries_bind, returns_tries, returns_on_slabs. cbn [fst snd].
    apply (returns_modHeader G); [done|]. intros hs G' Ho Hset. specialize (Hset h Hh). apply tries_ret.
    split; [done|]. split; [done|]. split; [done|]. split; [by eapply sa_inv_headers|]. split; [done|]. split; [done|]. cbn [fst snd].
    split; [|split; [done|split; [by rewrite E2|by eexists]]].
    eapply (release_free_ok a _ c H s h); [done..|].
    pose proof (ci_class _ _ _ CI). simpl. unfold kInvalidClassId. lia.
  - apply tries_bind. eapply tries_mono; [by apply (mark_used_ok a c H s h)| |done].
    intros _ s' (SI' & Ho & Hid & CI' & Hb & How' & Hst). by apply tries_ret.
Qed.

Lemma cinv_add_releases a c H d : cinv a c H → cinv a (add_releases d c) H.
Proof. intros [C0 C1 C2 C3 C4 C5 C6 C7 C8 C9 C11 C10]. by split. Qed.

Lemma slabIdx_only s a a' s' : only s a a' → SlabAllocator.slabIdx a' s' = SlabAllocator.slabIdx a s'.
Proof. intros Ho. unfold SlabAllocator.slabIdx. by rewrite (only_start _ _ _ Ho). Qed.

Lemma pruned_ids s c c' : pruned s c c' → same_ids c c'.
Proof. by intros (l & b & st & ->). Qed.

Lemma owned_same_ids a c c' s : same_ids c c' → owned a c s ↔ owned a c' s.
Proof. intros (E1 & E2 & _). unfold owned. by rewrite E1, E2. Qed.

(** A release that has started: either the slab is out of the class already, or the
    chunks still held are reported and tracked. *)
Definition release_post (a : SlabAllocator.t) (c : t) (H : list Z) (mode : SlabReleaseMode)
    (ctx : SlabReleaseContext) (s' : State) : Prop :=
  let s := ctx_slab ctx in
  owned a c s ∧ sa_inv s'.2 ∧ only s a s'.2 ∧ same_ids c s'.1 ∧ cinv s'.2 s'.1 H ∧ map_but s c s'.1 ∧
  ctx_pid ctx = poolId_ c ∧ ctx_mode ctx = mode ∧
  if isReleased ctx then slab_in s'.2 s (poolId_ c) kInvalidClassId
  else ctx_victim ctx = classId_ c ∧ owned s'.2 c s ∧
    ∃ st, slabReleaseAllocMap_ s'.1 !! s = Some st ∧ covered s'.1 s st H ∧
      activeAllocations ctx = active_allocations s'.1 s st.

(** The last section of [startSlabRelease] after the free list has been pruned. *)
Section finish.
Context (a : SlabAllocator.t) (c : t) (H : list Z) (s : Z) (st : list bool) (h : SlabHeader).
Context (SI : sa_inv a) (CI : cinv a c H) (Hst : slabReleaseAllocMap_ c !! s = Some st).
Context (Hh : holds a s h) (Ep : poolId h = poolId_ c) (Ec : classId h = classId_ c).

Lemma finish_not_free : s ∉ SlabAllocator.freeSlabs_ a.
Proof. eapply not_free; [done..|]. rewrite Ep. pose proof (ci_pool _ _ _ CI). unfold kInvalidPoolId. lia. Qed.

(** The slab leaves the class. *)
Lemma finish_empty_ok (Q : unit → State → Prop) f :
  (∀ i, st !! i ≠ Some false) → poolId (f h) = poolId_ c → classId (f h) = kInvalidClassId → isMarkedForRelease (f h) = false →
  (∀ a', sa_inv a' → only s a a' → holds a' s (f h) →
     cinv a' (set_releaseMap (delete s (slabReleaseAllocMap_ c)) c) H → Q tt (c, a')) →
  returns (on_slabs (SlabAllocator.modHeader (SlabAllocator.slabIdx a s) f)) (c, a) Q.
Proof.
  intros Hall E1 E2 E3 HQ. apply returns_on_slabs, (returns_modHeader (sa_geometry _ SI)); [apply Hh|].
  intros hs G' Ho Hset. specialize (Hset h Hh). apply HQ; [|done|done|].
  - eapply sa_inv_headers; [done..|apply finish_not_free].
  - eapply abandon_ok; [exact CI|done|exact Ho|done|]. intros (h' & Hh' & _ & E).
    rewrite (holds_det _ _ _ _ Hh' Hset), E2 in E. pose proof (ci_class _ _ _ CI). unfold kInvalidClassId in E. lia.
Qed.

(** The slab stays with the class, no longer marked. *)
Lemma finish_unmark_ok (Q : unit → State → Prop) f :
  poolId (f h) = poolId_ c → classId (f h) = classId_ c → isMarkedForRelease (f h) = false →
  (∀ a', sa_inv a' → only s a a' → owned a' c s →
     cinv a' (set_releaseMap (delete s (slabReleaseAllocMap_ c)) c) H → Q tt (c, a')) →
  returns (on_slabs (SlabAllocator.modHeader (SlabAllocator.slabIdx a s) f)) (c, a) Q.
Proof.
  intros E1 E2 E3 HQ. apply returns_on_slabs, (returns_modHeader (sa_geometry _ SI)); [apply Hh|].
  intros hs G' Ho Hset. specialize (Hset h Hh). apply HQ; [|done|by eexists|].
  - eapply sa_inv_headers; [done..|apply finish_not_free].
  - eapply unmark_ok; [exact CI|done|exact Ho| |by eexists]. intros h' Hh' _ _. by rewrite (holds_det _ _ _ _ Hh' Hset).
Qed.
End finish.

Lemma active_nil c s st : active_allocations c s st = [] → ∀ i, st !! i ≠ Some false.
Proof.
  intros E i Hi. assert (s + Z.of_nat i * allocationSize_ c ∈ active_allocations c s st) as Hin.
  { apply elem_of_active. by exists i. }
  rewrite E in Hin. by apply elem_of_nil in Hin.
Qed.

Lemma finish_start_ok mode a c H s st aborted active :
  sa_inv a → cinv a c H → slabReleaseAllocMap_ c !! s = Some st → owned a c s →
  (aborted = false → active = active_allocations c s st ∧ covered c s st H) →
  tries (finish_start mode s (SlabAllocator.slabIdx a s) aborted active) (c, a) (λ ctx s',
    ctx_slab ctx = s ∧ release_post a c H mode ctx s')
    (λ _, kept_at a c H s).
Proof.
  intros SI CI Hst How Hact. pose proof How as (h & Hh & Ep & Ec). unfold finish_start. destruct aborted.
  - apply tries_bind, returns_tries. eapply (finish_unmark_ok a c H s st h); try done; [apply marked_false|].
    intros a' SI' Ho' How' CI'. apply tries_bind, returns_tries, returns_updates, tries_throw.
    repeat (split; [done|]). by eapply map_but_delete.
  - destruct (Hact eq_refl) as [-> Hcov]. case_bool_decide as Enil.
    + apply tries_bind, returns_tries.
      eapply (finish_empty_ok a c H s st h); try done; [by eapply active_nil|apply marked_false|].
      intros a' SI' Ho' Hh' CI'. apply tries_bind, returns_tries, returns_updates. cbn [fst snd].
      rewrite <-(slabIdx_only s a a' s Ho').
      apply tries_bind, returns_tries, returns_on_slabs. eapply (returns_readHeader (sa_geometry _ SI') s); [exact Hh'|].
      apply tries_ret. split; [done|]. do 5 (split; [done|]).
      split; [by eapply map_but_delete|]. split; [done|]. split; [done|]. eexists. split; [done|]. split; [done|]. split; [done|apply marked_false].
    + apply tries_bind, returns_tries, returns_updates. cbn [fst snd].
      apply tries_bind, returns_tries, returns_on_slabs, (returns_readHeader (sa_geometry _ SI) s h); [done|].
      apply tries_ret. split; [done|]. unfold release_post, isReleased. cbn [ctx_slab ctx_pid ctx_mode ctx_victim activeAllocations fst snd].
      rewrite bool_decide_eq_false_2 by done. do 4 (split; [done|]). split; [by apply cinv_add_releases|].
      split; [done|]. split; [done|]. split; [done|]. split; [done|]. split; [done|]. by exists st.
Qed.

Lemma startSlabRelease_ok rnd abort mode hint a c H :
  sa_inv a → cinv a c H →
  tries (startSlabRelease rnd abort mode hint) (c, a) (λ ctx s',
    slabReleaseAllocMap_ c !! ctx_slab ctx = None ∧ release_post a c H mode ctx s') (λ _, kept a c H).
Proof.
  intros SI CI. unfold startSlabRelease. apply tries_bind, tries_reads. cbn [snd].
  destruct (match hint with None => _ | Some m => _ end).
  { apply tries_throw. by left. }
  apply tries_bind. eapply tries_mono; [by apply mark_for_release_ok| |done].
  intros [[s i] released] [c1 a1] (-> & How & HNone & SI1 & Ho1 & Hid1 & CI1 & Hb1 & Hrel). cbn [fst snd] in *.
  destruct released as [ctx|].
  { destruct Hrel as [-> Hin]. apply tries_ret. split; [done|]. by repeat (split; [done|]). }
  destruct Hrel as (How1 & st & Hst & Hcov). pose proof (sa_geometry _ SI1) as G1.
  eapply tries_bind_returns; [apply (pruneFreeAllocs_ok abort a1 c1 H s st G1); [by eapply owned_ok|done..]|].
  intros [aborted active] [c2 a2] (Ea & Hp & CI2 & Hact). cbn [fst snd] in *. subst a2.
  pose proof (same_ids_trans _ _ _ Hid1 (pruned_ids _ _ _ Hp)) as Hid2.
  assert (map_but s c1 c2 ∧ ∃ st2, slabReleaseAllocMap_ c2 !! s = Some st2) as [Hb2 (st2 & Hst2)].
  { destruct Hp as (l & b & st2 & ->). split; [by eapply map_but_insert|]. exists st2. apply lookup_insert_eq. }
  assert (∀ a' s', owned a' c s' ↔ owned a' c2 s') as Eo by (intros; by apply owned_same_ids).
  rewrite <-(slabIdx_only s a a1 s Ho1). eapply tries_mono.
  - apply (finish_start_ok mode a1 c2 H s st2); [done..|by apply Eo|]. intros E. destruct (Hact E) as (st' & Hst' & ? & ?).
    rewrite Hst2 in Hst'. by injection Hst' as <-.
  - intros ctx [c3 a3] [Es Hpost]. unfold release_post in *. rewrite Es in *. cbn [fst snd] in *. rewrite !Eo.
    destruct Hpost as (_ & SI3 & Ho3 & Hid3 & CI3 & Hb3 & E1 & E2 & Hr). pose proof Hid2 as (I1 & I2 & _). rewrite I1, I2 in *.
    split; [done|]. split; [by apply Eo|]. split; [done|]. split; [by eapply only_trans|]. split; [by eapply same_ids_trans|].
    split; [done|]. split; [by eapply map_but_trans, map_but_trans|]. do 2 (split; [done|]). destruct (isReleased ctx); [done|]. destruct Hr as (? & ? & ?). split; [done|]. split; [by apply Eo|done].
  - intros _ [c3 a3] (SI3 & Hid3 & CI3 & _ & How3 & Ho3 & Hb3). right. exists s. split; [done|]. split; [done|].
    split; [by eapply same_ids_trans|]. split; [done|]. split; [done|]. split; [by apply Eo|].
    split; [by eapply only_trans|by eapply map_but_trans, map_but_trans].
Qed.

(** ** Completing and aborting a release *)

Lemma all_freed_spec c s st :
  slabReleaseAllocMap_ c !! s = Some st → allFreed s c = inr (forallb id st).
Proof. intros Hst. unfold allFreed. by rewrite Hst. Qed.

Lemma forallb_id_true (st : list bool) : forallb id st = true ↔ ∀ i, st !! i ≠ Some false.
Proof.
  rewrite forallb_forall. split.
  - intros HA i Hi. by specialize (HA false (proj1 (list_elem_of_In _ _) (list_elem_of_lookup_2 _ _ _ Hi))).
  - intros HA b Hb. apply list_elem_of_In, list_elem_of_lookup in Hb as [i Hi]. destruct b; [done|]. by destruct (HA i).
Qed.

(** [completeSlabRelease] waits exactly while a chunk of the slab is held. *)
Lemma completeSlabRelease_ok a c H ctx :
  let s := ctx_slab ctx in
  sa_inv a → cinv a c H → isReleased ctx = false → releasing c H s →
  returns (completeSlabRelease ctx) (c, a) (λ r s',
    sa_inv s'.2 ∧ same_ids c s'.1 ∧ cinv s'.2 s'.1 H ∧ only s a s'.2 ∧
    (r = true ↔ ∀ x, x ∈ H → SlabAllocator.getSlabForMemory x ≠ s) ∧
    if r then slab_in s'.2 s (poolId_ c) kInvalidClassId ∧ owned a c s ∧
              slabReleaseAllocMap_ s'.1 = delete s (slabReleaseAllocMap_ c)
    else s' = (c, a)).
Proof.
  intros s SI CI Hrel (st & Hst & Hcov). pose proof (sa_geometry _ SI) as G.
  destruct (ci_release _ _ _ CI s st Hst) as [How Hlen]. pose proof How as (h & Hh & Ep & Ec). pose proof Hh as [Hok _].
  assert (forallb id st = true ↔ ∀ x, x ∈ H → SlabAllocator.getSlabForMemory x ≠ s) as Hiff.
  { rewrite forallb_id_true. split.
    - intros Hall x Hx Es. assert (x ∈ active_allocations c s st) as Hin by (by eapply active_exact).
      apply elem_of_active in Hin as (i & Hi & _). by apply (Hall i).
    - intros Hno i Hi. pose proof (lookup_lt_Some _ _ _ Hi). apply (Hno (s + Z.of_nat i * allocationSize_ c)).
      + apply Hcov; [lia|by rewrite Nat2Z.id].
      + apply (chunk_slab G CI); [done|lia]. }
  unfold completeSlabRelease. rewrite Hrel. apply returns_bind, returns_reads. cbn [snd]. fold s.
  rewrite (getSlabHeader_ok G) by done. apply returns_bind, returns_on_slabs, (returns_readHeader G s h); [done|].
  apply returns_bind, returns_reads. cbn [fst]. rewrite Ec, Z.eqb_refl.
  rewrite (proj2 (ci_marked _ _ _ CI s h Hh Ep Ec)) by (by eexists). cbn [negb orb].
  rewrite (all_freed_spec c s st Hst). destruct (forallb id st) eqn:Eall.
  - apply returns_bind, returns_updates. cbn [fst snd]. pose proof (proj1 (forallb_id_true st) Eall) as Hall.
    apply returns_bind, returns_on_slabs, (returns_modHeader G); [done|]. intros hs G' Ho Hset. specialize (Hset h Hh).
    apply returns_ret. cbn [fst snd]. split; [eapply sa_inv_headers; [done..|by eapply finish_not_free]|]. split; [done|].
    split; [|split; [done|split; [tauto|split; [|done]]]].
    + apply cinv_add_releases. eapply abandon_ok; [exact CI|done|exact Ho|done|]. intros (h' & Hh' & _ & E).
      rewrite (holds_det _ _ _ _ Hh' Hset) in E. pose proof (ci_class _ _ _ CI). simpl in E. unfold kInvalidClassId in E. lia.
    + eexists. split; [exact Hset|]. split; [done|]. split; [done|apply marked_false].
  - apply returns_ret. split; [done|]. split; [done|]. split; [done|]. split; [done|]. split; [tauto|done].
Qed.

(** The chunks [abortSlabRelease] puts back, the last one first. *)
Fixpoint restored (s idx size : Z) (st : list bool) (acc : list Z) : list Z :=
  match st with
  | [] => acc
  | true :: rest => restored s (idx + 1) size rest (s + idx * size :: acc)
  | false :: rest => restored s (idx + 1) size rest acc
  end.

Lemma elem_of_restored s idx size st acc x :
  x ∈ restored s idx size st acc ↔ x ∈ acc ∨ ∃ i, st !! i = Some true ∧ x = s + (idx + Z.of_nat i) * size.
Proof.
  revert idx acc. induction st as [|b st IH]; intros idx acc; cbn [restored]; [set_solver|].
  assert (∀ b' i, (b :: st) !! i = Some b' ↔ (i = 0%nat ∧ b = b') ∨ ∃ j, i = S j ∧ st !! j = Some b') as El.
  { intros b' [|i]; simpl; [naive_solver|]. naive_solver. }
  setoid_rewrite El. destruct b; rewrite IH, ?elem_of_cons.
  - split.
    + intros [[->|?]|(j & Hj & ->)]; [right; exists 0%nat; split; [by left|f_equal; lia]|by left|].
      right. exists (S j). split; [right; eauto|]. f_equal. lia.
    + intros [?|(i & [[-> _]|(j & -> & Hj)] & ->)]; [auto|left; left; f_equal; lia|].
      right. exists j. split; [done|]. f_equal. lia.
  - split.
    + intros [?|(j & Hj & ->)]; [by left|]. right. exists (S j). split; [right; eauto|]. f_equal. lia.
    + intros [?|(i & [[_ ?]|(j & -> & Hj)] & ->)]; [auto|done|]. right. exists j. split; [done|]. f_equal. lia.
Qed.

Lemma restored_nodup s idx size st acc :
  0 < size → NoDup acc → (∀ i, st !! i = Some true → s + (idx + Z.of_nat i) * size ∉ acc) →
  NoDup (restored s idx size st acc).
Proof.
  intros Hsz. revert idx acc. induction st as [|b st IH]; intros idx acc Hnd Hout; cbn [restored]; [done|]. destruct b.
  - apply IH.
    + apply NoDup_cons. split; [|done]. specialize (Hout 0%nat eq_refl). by rewrite Z.add_0_r in Hout.
    + intros i Hi Hin. apply elem_of_cons in Hin as [E|Hin]; [assert (idx + 1 + Z.of_nat i = idx) by nia; lia|].
      apply (Hout (S i) Hi). by replace (idx + Z.of_nat (S i)) with (idx + 1 + Z.of_nat i) by lia.
  - apply IH; [done|]. intros i Hi Hin. apply (Hout (S i) Hi).
    by replace (idx + Z.of_nat (S i)) with (idx + 1 + Z.of_nat i) by lia.
Qed.

Lemma restore_loop_ok s idx st inserted c a :
  0 <= idx → idx + Z.of_nat (length st) <= per_slab c →
  returns (restore_loop s idx st inserted) (c, a) (λ r s',
    s' = (set_freed (restored s idx (allocationSize_ c) st (freedAllocations_ c)) c, a) ∧
    r = inserted || existsb id st).
Proof.
  revert idx inserted c. induction st as [|b st IH]; intros idx inserted c Hi Hlen; cbn [restore_loop restored].
  { apply returns_ret. split; [by destruct c|]. by rewrite orb_false_r. }
  cbn [length] in Hlen. destruct b.
  - apply returns_bind. unfold getAllocForIdx. apply returns_bind, returns_reads. cbn [fst].
    rewrite (proj2 (Z.leb_gt _ _)) by (unfold per_slab in Hlen; lia). apply returns_ret.
    apply returns_bind, returns_updates. cbn [fst snd].
    eapply returns_mono; [apply IH; [lia|change (per_slab (set_freed _ c)) with (per_slab c); lia]|].
    intros r s' [-> ->]. split; [done|]. simpl. by rewrite orb_true_r.
  - eapply returns_mono; [apply IH; lia|]. intros r s' [-> ->]. done.
Qed.

Lemma restore_slab_ok a c H s st b :
  geometry a → cinv a c H → owned a c s → s ∉ allocatedSlabs_ c ++ freeSlabs_ c → slabReleaseAllocMap_ c !! s = None →
  length st = Z.to_nat (per_slab c) → covered c s st H →
  (∀ i, st !! i = Some true → s + Z.of_nat i * allocationSize_ c ∉ freedAllocations_ c ++ H) →
  (b = false → canAllocate_ c = false ∧ ∀ i, st !! i ≠ Some true) →
  cinv a (set_slabs (allocatedSlabs_ c ++ [s]) (freeSlabs_ c) (set_canAllocate b
    (set_freed (restored s 0 (allocationSize_ c) st (freedAllocations_ c)) c))) H.
Proof.
  intros G CI How Hns HNone Hlen Hcov Hout Hb. pose proof CI as [C0 C1 C2 C3 C4 C5 C6 C7 C8 C9 C11 C10].
  assert (0 < allocationSize_ c) as Hsz by (unfold kMinAllocSize in C2; lia).
  assert (∀ x, x ∈ restored s 0 (allocationSize_ c) st (freedAllocations_ c) ++ H ↔
    x ∈ freedAllocations_ c ++ H ∨ ∃ i, st !! i = Some true ∧ x = s + Z.of_nat i * allocationSize_ c) as El.
  { intros x. rewrite !elem_of_app, elem_of_restored. setoid_rewrite Z.add_0_l. tauto. }
  apply NoDup_app in C8 as (Hnf & Hd & HnH).
  split; try done; cbn [allocatedSlabs_ freeSlabs_ currSlab_ currOffset_ freedAllocations_ canAllocate_ slabReleaseAllocMap_ set_slabs set_canAllocate set_freed].
  - rewrite <-app_assoc, (Permutation_app_comm [s]), app_assoc. apply NoDup_app. split; [done|].
    split; [|apply NoDup_singleton]. intros x Hx ->%list_elem_of_singleton. done.
  - intros s' Hs'. destruct (decide (s' = s)) as [->|Hne]; [done|]. apply C4. set_solver.
  - intros s' E. destruct (C7 s' E) as [? ?]. split; [set_solver|done].
  - apply NoDup_app. split.
    + apply restored_nodup; [done|done|]. intros i Hi Hin. apply (Hout i Hi). rewrite Z.add_0_l in Hin. set_solver.
    + split; [|done]. intros x [Hx|(i & Hi & ->)]%elem_of_restored HxH; [by apply (Hd x)|].
      apply (Hout i Hi). rewrite Z.add_0_l in HxH. set_solver.
  - intros x [Hx|(i & Hi & ->)]%El; [by apply C9|]. exists s, (Z.of_nat i). pose proof (lookup_lt_Some _ _ _ Hi).
    split; [done|]. split; [change (0 <= Z.of_nat i < per_slab c); lia|]. split; [done|]. split; [set_solver|].
    cbn. split; [intros E; destruct (C7 s E) as [HA _]; destruct Hns; apply elem_of_app; by left|]. by rewrite HNone.
  - intros s' i [Hs'| ->%list_elem_of_singleton]%elem_of_app Hi Hcur; apply El; [left; by apply C11|].
    change (0 <= i < per_slab c) in Hi. destruct (lookup_lt_is_Some_2 st (Z.to_nat i)) as [[|] Eb]; [lia| |].
    + right. exists (Z.to_nat i). split; [done|]. by rewrite Z2Nat.id by lia.
    + left. apply elem_of_app. right. by apply Hcov.
  - intros ->. destruct (Hb eq_refl) as [Ec Hno]. destruct (C10 Ec) as (E1 & E2 & E3). split; [|done].
    destruct (restored _ _ _ _ _) as [|y l] eqn:E; [done|]. exfalso.
    assert (y ∈ restored s 0 (allocationSize_ c) st (freedAllocations_ c)) as Hy by (rewrite E; left).
    apply elem_of_restored in Hy as [Hy|(i & Hi & _)]; [rewrite E1 in Hy; by apply elem_of_nil in Hy|]. by apply (Hno i).
Qed.

Lemma existsb_id_false (st : list bool) : existsb id st = false → ∀ i, st !! i ≠ Some true.
Proof.
  intros E i Hi. assert (existsb id st = true) as E'; [|congruence]. apply existsb_exists. exists true.
  split; [|done]. apply list_elem_of_In. by eapply list_elem_of_lookup_2.
Qed.

(** The chunks the release map calls freed are not in the account. *)
Lemma freed_not_counted a c H s st i :
  geometry a → cinv a c H → slabReleaseAllocMap_ c !! s = Some st → st !! i = Some true →
  s + Z.of_nat i * allocationSize_ c ∉ freedAllocations_ c ++ H.
Proof.
  intros G CI Hst Hi Hin. destruct (ci_release _ _ _ CI s st Hst) as [How Hlen].
  pose proof (lookup_lt_Some _ _ _ Hi). pose proof (ci_chunk _ _ _ CI _ Hin) as Hx.
  destruct (chunk_header a c H _ G CI Hx) as (s' & j & h & Es & _ & _ & _ & _ & _ & Hj & Ej & Hf).
  destruct (chunk_slab G CI s (Z.of_nat i) (owned_ok _ _ _ How) ltac:(lia)) as [E1 E2].
  rewrite E1 in Es. subst s'. rewrite E2 in Ej. subst j. specialize (Hf st Hst).
  rewrite Nat2Z.id in Hf. congruence.
Qed.

Lemma abortSlabRelease_ok a c H ctx :
  let s := ctx_slab ctx in
  sa_inv a → cinv a c H → isReleased ctx = false → releasing c H s →
  returns (abortSlabRelease ctx) (c, a) (λ _ s',
    sa_inv s'.2 ∧ same_ids c s'.1 ∧ cinv s'.2 s'.1 H ∧ only s a s'.2 ∧ owned a c s ∧ owned s'.2 c s ∧
    slabReleaseAllocMap_ s'.1 = delete s (slabReleaseAllocMap_ c)).
Proof.
  intros s SI CI Hrel (st & Hst & Hcov). pose proof (sa_geometry _ SI) as G.
  destruct (ci_release _ _ _ CI s st Hst) as [How Hlen]. pose proof How as (h & Hh & Ep & Ec). pose proof Hh as [Hok _].
  destruct (per_slab_bounds _ _ _ CI) as (B1 & _).
  unfold abortSlabRelease. rewrite Hrel. fold s. apply returns_bind, returns_reads, returns_bind, returns_reads. cbn [fst snd].
  rewrite (getSlabHeader_ok G) by done. rewrite Hst. change (default [] (Some st)) with st. apply returns_bind.
  eapply returns_mono; [apply restore_loop_ok; lia|]. intros inserted ? [-> ->]. cbn [orb].
  apply returns_bind. set (l := restored s 0 (allocationSize_ c) st (freedAllocations_ c)).
  apply (returns_mono _ _ (λ _ s', ∃ b, s' = (set_canAllocate b (set_freed l c), a) ∧
    (b = false → canAllocate_ c = false ∧ ∀ i, st !! i ≠ Some true))).
  { destruct (existsb id st) eqn:Ee; [apply returns_updates; by exists true|]. apply returns_ret. exists (canAllocate_ c).
    split; [by destruct c|]. intros Eb. split; [done|]. by apply existsb_id_false. }
  intros _ ? (b & -> & Hb). apply returns_bind, returns_updates. cbn [fst snd].
  apply returns_bind, returns_on_slabs, (returns_modHeader G); [done|]. intros hs G' Ho Hset. specialize (Hset h Hh).
  apply returns_updates. cbn [fst snd].
  assert (owned (SlabAllocator.set_headers hs a) c s) as How' by (by eexists).
  assert (cinv (SlabAllocator.set_headers hs a) (set_releaseMap (delete s (slabReleaseAllocMap_ c)) c) H) as CI0.
  { eapply unmark_ok; [exact CI|done|exact Ho| |done]. intros h' Hh' _ _.
    rewrite (holds_det _ _ _ _ Hh' Hset). apply marked_false. }
  split; [eapply sa_inv_headers; [done..|by eapply finish_not_free]|]. split; [done|].
  split; [|split; [done|]; split; [done|]; split; [done|done]]. apply cinv_add_releases.
  apply (restore_slab_ok _ _ H s st b G' CI0); cbn; try done.
  - intros Hin. by apply (leaving_not_listed a c H s st CI Hst s Hin).
  - by rewrite lookup_delete_eq.
  - intros i Hi. by apply (freed_not_counted a c H s st i G CI).
Qed.
