(* ===== verification/CachePools.v ===== *)
(** * CachePools: the invariant of a memory pool

    [pinv a p H]: the classes of the pool are in order of their sizes, each satisfies
    its own invariant with the chunks [H i] held from it, the slabs on the pool's own
    list belong to no class, and the counter of allocated bytes is exact.  Slabs of
    other pools are not touched ([others]). *)

From S2P Require Import Prelude Types CacheSlab CacheClass CachePool CacheInv CacheChunks CacheRelease.
Import MemoryPool.
Open Scope Z_scope.

Definition held_bytes (sizes : list Z) (H : nat → list Z) : Z :=
  zsum (imap (λ i n, Z.of_nat (length (H i)) * n) sizes).

Record pinv (a : SlabAllocator.t) (p : t) (H : nat → list Z) : Prop := {
  pi_id : 0 <= id_ p < 127;
  pi_sorted : StronglySorted Z.lt (acSizes_ p);
  pi_length : length (ac_ p) = length (acSizes_ p);
  pi_count : (length (ac_ p) <= 127)%nat;
  pi_class i c : ac_ p !! i = Some c →
    AllocationClass.classId_ c = Z.of_nat i ∧ AllocationClass.poolId_ c = id_ p ∧
    acSizes_ p !! i = Some (AllocationClass.allocationSize_ c) ∧ cinv a c (H i);
  pi_none i : ac_ p !! i = None → H i = [];
  pi_nodup : NoDup (freeSlabs_ p);
  pi_free s : s ∈ freeSlabs_ p → slab_in a s (id_ p) kInvalidClassId;
  pi_alloc : currAllocSize_ p = u64 (held_bytes (acSizes_ p) H);
}.

(** Up to 127 classes the count of classes is not changed by the cast. *)
Lemma class_count_ok a p H : pinv a p H → class_count p = Z.of_nat (length (ac_ p)).
Proof. intros PI. pose proof (pi_count _ _ _ PI). unfold class_count. rewrite Z.mod_small by lia. lia. Qed.

(** The slabs of pools other than [id] keep their headers. *)
Record others (id : Z) (a a' : SlabAllocator.t) : Prop := {
  ot_start : SlabAllocator.slabMemoryStart_ a' = SlabAllocator.slabMemoryStart_ a;
  ot_size : SlabAllocator.slabMemorySize_ a' = SlabAllocator.slabMemorySize_ a;
  ot_headers s h : poolId h ≠ id → poolId h ≠ kInvalidPoolId → holds a s h ↔ holds a' s h;
}.

Lemma others_refl id a : others id a a.
Proof. done. Qed.
Lemma others_trans id a1 a2 a3 : others id a1 a2 → others id a2 a3 → others id a1 a3.
Proof. intros [A1 A2 A3] [B1 B2 B3]. split; [congruence..|]. intros s h H1 H2. by rewrite A3, B3. Qed.
#[export] Hint Resolve others_refl : mooncake.

(** A slab of the pool, or one that no pool has. *)
Definition near (id : Z) (h : SlabHeader) : Prop := poolId h = id ∨ poolId h = kInvalidPoolId.

Lemma only_others id s a a' :
  only s a a' → (∀ h, holds a s h → near id h) → (∀ h, holds a' s h → near id h) → others id a a'.
Proof.
  intros Ho H1 H2. split; [apply Ho..|]. intros s' h N1 N2. destruct (decide (s' = s)) as [->|Hne].
  - unfold near in *. split; intros Hh; [destruct (H1 h Hh)|destruct (H2 h Hh)]; done.
  - by apply (only_headers _ _ _ Ho).
Qed.

(** Operations on one pool leave the others alone. *)
Lemma pinv_others id a a' p H : others id a a' → id_ p ≠ id → pinv a p H → pinv a' p H.
Proof.
  intros Ho Hid [P1 P2 P3 PC P4 P5 P6 P7 P8].
  assert (∀ s h, poolId h = id_ p → holds a s h ↔ holds a' s h) as Hh.
  { intros s h E. apply (ot_headers _ _ _ Ho); rewrite E; [done|]. unfold kInvalidPoolId. lia. }
  split; try done.
  - intros i c Hc. destruct (P4 i c Hc) as (E1 & E2 & E3 & CI). split; [done|]. split; [done|]. split; [done|].
    eapply cinv_ext; [|exact CI]. intros s h E _. apply Hh. congruence.
  - intros s Hs. destruct (P7 s Hs) as (h & Hs' & E & Hr). exists h. split; [by apply Hh|done].
Qed.

(** ** One class of the pool *)

Lemma returns_with_class {A} i c (m : EX AllocationClass.State A) p a (Q : A → State → Prop) :
  ac_ p !! i = Some c →
  returns m (c, a) (λ r s', Q r (set_ac (<[i := s'.1]> (ac_ p)) p, s'.2)) →
  returns (with_class (Z.of_nat i) m) (p, a) Q.
Proof.
  intros Hc (r & [c' a'] & E & HQ). eexists r, _. unfold with_class. simpl.
  rewrite (proj2 (Z.ltb_ge _ _)), Nat2Z.id, Hc by lia. simpl. rewrite E. simpl. split; [reflexivity|done].
Qed.

Lemma tries_with_class {A} i c (m : EX AllocationClass.State A) p a (Q : A → State → Prop) (E : Exn → State → Prop) :
  ac_ p !! i = Some c →
  tries m (c, a) (λ r s', Q r (set_ac (<[i := s'.1]> (ac_ p)) p, s'.2))
    (λ e s', E e (set_ac (<[i := s'.1]> (ac_ p)) p, s'.2)) →
  tries (with_class (Z.of_nat i) m) (p, a) Q E.
Proof.
  intros Hc (r & [c' a'] & Em & HQ). eexists r, _. unfold with_class. simpl.
  rewrite (proj2 (Z.ltb_ge _ _)), Nat2Z.id, Hc by lia. simpl. rewrite Em. simpl. split; [reflexivity|done].
Qed.

Lemma set_ac_id i c p : ac_ p !! i = Some c → set_ac (<[i := c]> (ac_ p)) p = p.
Proof. intros Hc. unfold set_ac. rewrite list_insert_id by done. by destruct p. Qed.

Lemma held_bytes_insert sizes H i n l :
  sizes !! i = Some n →
  held_bytes sizes (<[i := l]> H) = held_bytes sizes H + (Z.of_nat (length l) - Z.of_nat (length (H i))) * n.
Proof.
  intros Hi. unfold held_bytes.
  rewrite (zsum_imap_update (λ j m, Z.of_nat (length (H j)) * m) _ sizes i n Hi).
  - rewrite fn_lookup_insert. lia.
  - intros j m Hj. by rewrite fn_lookup_insert_ne.
Qed.

(** The headers an operation on class [i] may change. *)
Definition near_class (id : Z) (i : nat) (h : SlabHeader) : Prop :=
  poolId h = kInvalidPoolId ∨ poolId h = id ∧ (classId h = Z.of_nat i ∨ classId h = kInvalidClassId).

Lemma near_class_near id i h : near_class id i h → near id h.
Proof. intros [?|[? _]]; [by right|by left]. Qed.

(** Replacing a class, the list of free slabs and the counter. *)
Lemma pinv_update a a' p H i c c' l free s d :
  pinv a p H → ac_ p !! i = Some c → same_ids c c' → cinv a' c' l → only s a a' →
  (∀ h, holds a s h → near_class (id_ p) i h) → (∀ h, holds a' s h → near_class (id_ p) i h) →
  NoDup free → (∀ s', s' ∈ free → s' ∈ freeSlabs_ p ∧ s' ≠ s ∨ slab_in a' s' (id_ p) kInvalidClassId) →
  d = (Z.of_nat (length l) - Z.of_nat (length (H i))) * AllocationClass.allocationSize_ c →
  pinv a' (add_alloc d (set_freeSlabs free (set_ac (<[i := c']> (ac_ p)) p))) (<[i := l]> H).
Proof.
  intros [P1 P2 P3 PC P4 P5 P6 P7 P8] Hc (E1 & E2 & E3) CI Ho Hn Hn' Hnd Hfree Hd.
  pose proof (lookup_lt_Some _ _ _ Hc) as Hlt. destruct (P4 i c Hc) as (I1 & I2 & I3 & _).
  split; try done; cbn [id_ acSizes_ ac_ freeSlabs_ currAllocSize_ add_alloc set_freeSlabs set_ac].
  - by rewrite length_insert.
  - by rewrite length_insert.
  - intros j cj Hj. destruct (decide (j = i)) as [->|Hne].
    + rewrite list_lookup_insert_eq in Hj by done. injection Hj as <-. rewrite fn_lookup_insert, E1, E2, E3. done.
    + rewrite list_lookup_insert_ne in Hj by done. destruct (P4 j cj Hj) as (J1 & J2 & J3 & CJ).
      rewrite fn_lookup_insert_ne by done. split; [done|]. split; [done|]. split; [done|].
      eapply cinv_ext; [|exact CJ]. intros s' h Ep Ec. destruct (decide (s' = s)) as [->|Hs].
      * assert (¬ near_class (id_ p) i h) as Hno.
        { unfold near_class, kInvalidPoolId, kInvalidClassId. rewrite Ep, Ec, J1, J2. lia. }
        split; intros Hh; [by destruct Hno; apply Hn|by destruct Hno; apply Hn'].
      * by apply (only_headers _ _ _ Ho).
  - intros j Hj. destruct (decide (j = i)) as [->|Hne].
    + rewrite list_lookup_insert_eq in Hj by done. done.
    + rewrite list_lookup_insert_ne in Hj by done. rewrite fn_lookup_insert_ne by done. by apply P5.
  - intros s' Hs'. destruct (Hfree s' Hs') as [[Hin Hne]|?]; [|done]. eapply slab_in_only; [exact Ho|done|by apply P7].
  - rewrite P8, (held_bytes_insert _ _ i _ _ I3), u64_add_l. f_equal. lia.
Qed.

(** ** What an operation keeps *)

Definition same_pool (p p' : t) : Prop :=
  id_ p' = id_ p ∧ maxSize_ p' = maxSize_ p ∧ acSizes_ p' = acSizes_ p ∧ curSlabsAdvised_ p' = curSlabsAdvised_ p.

(** The release of slab [s] of class [i] is under way. *)
Definition releases (p : t) (H : nat → list Z) (i : nat) (s : Z) : Prop :=
  ∃ c, ac_ p !! i = Some c ∧ releasing c (H i) s.
Definition keeps (p : t) (H : nat → list Z) (p' : t) (H' : nat → list Z) : Prop :=
  ∀ i s, releases p H i s → releases p' H' i s.

Lemma same_pool_trans p1 p2 p3 : same_pool p1 p2 → same_pool p2 p3 → same_pool p1 p3.
Proof. unfold same_pool. intuition congruence. Qed.
Lemma keeps_refl p H : keeps p H p H.
Proof. by intros i s Hr. Qed.
Lemma keeps_same p p' H : ac_ p' = ac_ p → keeps p H p' H.
Proof. intros E i s (c & Hc & Hr). exists c. by rewrite E. Qed.
Lemma keeps_trans p1 H1 p2 H2 p3 H3 : keeps p1 H1 p2 H2 → keeps p2 H2 p3 H3 → keeps p1 H1 p3 H3.
Proof. intros A B i s Hr. by apply B, A. Qed.
#[export] Hint Resolve keeps_refl : mooncake.

(** The operation changed one class, and kept its releases. *)
Lemma keeps_class p p' H i c c' l :
  ac_ p !! i = Some c → ac_ p' = <[i := c']> (ac_ p) →
  (∀ s, releasing c (H i) s → releasing c' l s) → keeps p H p' (<[i := l]> H).
Proof.
  intros Hc E Hk j s (cj & Hj & Hr). unfold releases. rewrite E. pose proof (lookup_lt_Some _ _ _ Hc).
  destruct (decide (j = i)) as [->|Hne].
  - exists c'. rewrite list_lookup_insert_eq by done. split; [done|]. rewrite fn_lookup_insert. apply Hk.
    rewrite Hj in Hc. by injection Hc as ->.
  - exists cj. rewrite list_lookup_insert_ne, fn_lookup_insert_ne by done. done.
Qed.

Lemma releasing_mono c c' H H' s :
  same_class c c' → (∀ x, x ∈ H → x ∈ H') → releasing c H s → releasing c' H' s.
Proof. intros [Hid Em] HH. apply releasing_same; [done| |done]. intros st. by rewrite Em. Qed.

(** The order in which the clients' chunks are listed does not matter. *)
Lemma held_bytes_perm sizes H H' : (∀ i, H i ≡ₚ H' i) → held_bytes sizes H = held_bytes sizes H'.
Proof. intros HP. unfold held_bytes. f_equal. apply imap_ext. intros i n _. by rewrite (HP i). Qed.

Lemma pinv_perm a p H H' : (∀ i, H i ≡ₚ H' i) → pinv a p H → pinv a p H'.
Proof.
  intros HP [P1 P2 P3 PC P4 P5 P6 P7 P8]. split; try done.
  - intros i c Hc. destruct (P4 i c Hc) as (E1 & E2 & E3 & CI). rewrite <-(HP i). done.
  - intros i Hi. apply Permutation_nil_r. by rewrite <-(HP i), (P5 i Hi).
  - by rewrite P8, (held_bytes_perm _ _ _ HP).
Qed.

Lemma releases_perm p H H' i s : (∀ i, H i ≡ₚ H' i) → releases p H i s → releases p H' i s.
Proof.
  intros HP (c & Hc & Hr). exists c. split; [done|]. eapply releasing_same; [done|done| |exact Hr].
  intros x. by rewrite (HP i).
Qed.

Lemma insert_self_perm (H : nat → list Z) i l j : l ≡ₚ H i → (<[i := l]> H) j ≡ₚ H j.
Proof. intros HP. destruct (decide (j = i)) as [->|]; by rewrite ?fn_lookup_insert, ?fn_lookup_insert_ne. Qed.

(** Only the counters and the list of free slabs differ. *)
Lemma pinv_counters a p p' H :
  pinv a p H → id_ p' = id_ p → acSizes_ p' = acSizes_ p → ac_ p' = ac_ p → currAllocSize_ p' = currAllocSize_ p →
  NoDup (freeSlabs_ p') → (∀ s, s ∈ freeSlabs_ p' → slab_in a s (id_ p) kInvalidClassId) → pinv a p' H.
Proof.
  intros [P1 P2 P3 PC P4 P5 P6 P7 P8] E1 E2 E3 E4 Hnd Hf. split; rewrite ?E1, ?E2, ?E3, ?E4; done.
Qed.

(** ** Taking a slab *)

Lemma slab_in_holds a s id cid h : slab_in a s id cid → holds a s h → poolId h = id ∧ classId h = cid.
Proof. intros (h' & Hh' & E1 & E2 & _) Hh. by rewrite (holds_det _ _ _ _ Hh Hh'). Qed.

Lemma slab_in_unclassed a s id h : slab_in a s id kInvalidClassId → holds a s h → (poolId h = kInvalidPoolId ∨ classId h = kInvalidClassId).
Proof. intros Hs Hh. right. by apply (slab_in_holds _ _ _ _ h Hs). Qed.

(** The header of a slab that is in no class changes. *)
Definition unclassed (h : SlabHeader) : Prop := poolId h = kInvalidPoolId ∨ classId h = kInvalidClassId.

Lemma pinv_unclassed a a' p H s :
  pinv a p H → only s a a' → (∀ h, holds a s h → unclassed h) → (∀ h, holds a' s h → unclassed h) →
  s ∉ freeSlabs_ p → pinv a' p H.
Proof.
  intros [P1 P2 P3 PC P4 P5 P6 P7 P8] Ho Hu Hu' Hs. split; try done.
  - intros i c Hc. destruct (P4 i c Hc) as (I1 & I2 & I3 & CI). split; [done|]. split; [done|]. split; [done|].
    eapply cinv_ext; [|exact CI]. intros s' h Ep Ec. destruct (decide (s' = s)) as [->|Hne].
    + assert (¬ unclassed h) as Hno by (unfold unclassed, kInvalidPoolId, kInvalidClassId; lia).
      split; intros Hh; destruct Hno; [by apply Hu|by apply Hu'].
    + by apply (only_headers _ _ _ Ho).
  - intros s' Hs'. eapply slab_in_only; [exact Ho|by intros ->|by apply P7].
Qed.

Lemma pinv_not_listed a p H s : pinv a p H → (∀ h, holds a s h → poolId h = kInvalidPoolId) → s ∉ freeSlabs_ p.
Proof.
  intros PI Hfr Hin. destruct (pi_free _ _ _ PI s Hin) as (h & Hh & Ep & _). rewrite (Hfr h Hh) in Ep.
  pose proof (pi_id _ _ _ PI). unfold kInvalidPoolId in Ep. lia.
Qed.

Lemma only_all_others id a a' : (∀ s, only s a a') → others id a a'.
Proof.
  intros Ho. split; [apply (Ho 0)..|]. intros s h _ _. apply (only_headers _ _ _ (Ho (s + 1))). lia.
Qed.

Lemma pinv_same_headers a a' p H : (∀ s, only s a a') → pinv a p H → pinv a' p H.
Proof. intros Ho HP. apply (pinv_others (id_ p + 1) a); [by apply only_all_others|lia|done]. Qed.

Lemma returns_pool_slabs {A} (m : EX SlabAllocator.t A) p a (Q : A → State → Prop) :
  returns m a (λ r a', Q r (p, a')) → returns (on_slabs m) (p, a) Q.
Proof. intros (r & a' & E & HQ). exists r, (p, a'). unfold on_slabs, zoom. simpl. by rewrite E. Qed.

Definition no_slab (p : t) (a : SlabAllocator.t) : Prop :=
  allSlabsAllocated p = true ∨ freeSlabs_ p = [] ∧ SlabAllocator.allSlabsAllocated a = true.

Lemma getSlabLocked_ok p a H :
  sa_inv a → pinv a p H →
  returns getSlabLocked (p, a) (λ r s',
    sa_inv s'.2 ∧ others (id_ p) a s'.2 ∧ same_pool p s'.1 ∧ ac_ s'.1 = ac_ p ∧ pinv s'.2 s'.1 H ∧
    match r with
    | None => no_slab p a
    | Some s => slab_in s'.2 s (id_ p) kInvalidClassId ∧ s ∉ freeSlabs_ s'.1
    end).
Proof.
  intros SI PI. unfold getSlabLocked. apply returns_bind, returns_reads. cbn [fst].
  destruct (allSlabsAllocated p) eqn:Eall.
  { apply returns_ret. split; [done|]. split; [done|]. split; [done|]. split; [done|]. split; [done|]. by left. }
  apply returns_bind, returns_updates. cbn [fst snd]. destruct (last (freeSlabs_ p)) as [s|] eqn:El.
  - apply last_Some in El as [l El]. apply returns_bind, returns_updates, returns_ret. cbn [fst snd].
    pose proof (pi_nodup _ _ _ PI) as Hnd. rewrite El in Hnd. apply NoDup_app in Hnd as (Hl & Hd & _).
    rewrite El, removelast_last. split; [done|]. split; [done|]. split; [done|]. split; [done|]. split.
    + eapply (pinv_counters a p); try done. intros s' Hs'. apply (pi_free _ _ _ PI). rewrite El. set_solver.
    + split; [apply (pi_free _ _ _ PI); rewrite El; set_solver|]. intros Hin. apply (Hd s Hin). by left.
  - apply last_None in El. apply returns_bind, returns_pool_slabs.
    eapply returns_mono; [apply (makeNewSlab_ok (id_ p)); [done|apply PI]|].
    intros [s|] a' (SI' & Hr).
    + destruct Hr as (Hfr & Ho & Hs). apply returns_ret. cbn [fst snd].
      assert (pinv a' p H) as PI'.
      { eapply pinv_unclassed; [done..| | |].
        - intros h Hh. left. by apply (fresh_not_holds a s).
        - intros h. by apply (slab_in_unclassed a' s (id_ p)).
        - eapply pinv_not_listed; [done|]. intros h. by apply fresh_not_holds. }
      split; [done|]. split.
      { eapply only_others; [exact Ho| |].
        - intros h Hh. right. by apply (fresh_not_holds a s).
        - intros h Hh. left. by apply (slab_in_holds _ _ _ _ h Hs). }
      split; [done|]. split; [done|]. split; [by apply (pinv_counters a' p); [done|done|done|done|done|apply PI'|apply PI']|].
      split; [done|]. cbn. rewrite El. by apply not_elem_of_nil.
    + destruct Hr as [Hall Ho]. apply returns_bind, returns_updates, returns_ret. cbn [fst snd].
      assert (pinv a' p H) as PI' by (by eapply pinv_same_headers).
      split; [done|]. split; [by apply only_all_others|]. split; [done|]. split; [done|].
      split; [by apply (pinv_counters a' p); [done|done|done|done|done|apply PI'|apply PI']|]. by right.
Qed.

(** ** One class changes *)

Lemma no_holds_1 a h : ¬ holds a 1 h.
Proof. intros [[_ Hm] _]. by vm_compute in Hm. Qed.

Section one_class.
Context (a : SlabAllocator.t) (p : t) (H : nat → list Z) (i : nat) (c c' : AllocationClass.t).
Context (PI : pinv a p H) (Hc : ac_ p !! i = Some c) (Hid : same_ids c c').

(** The headers stay. *)
Lemma pinv_alloc l d :
  cinv a c' l → d = (Z.of_nat (length l) - Z.of_nat (length (H i))) * AllocationClass.allocationSize_ c →
  pinv a (add_alloc d (set_ac (<[i := c']> (ac_ p)) p)) (<[i := l]> H).
Proof.
  intros CI Hd. eapply (pinv_update a a p H i c c' l (freeSlabs_ p) 1); try done; [by intros h Hh%no_holds_1..|apply PI|].
  intros s Hs. right. by apply (pi_free _ _ _ PI).
Qed.

(** A slab moves between the pool and the class; what is held stays. *)
Lemma pinv_move a' s :
  cinv a' c' (H i) → only s a a' → s ∉ freeSlabs_ p →
  (∀ h, holds a s h → near_class (id_ p) i h) → (∀ h, holds a' s h → near_class (id_ p) i h) →
  pinv a' (set_ac (<[i := c']> (ac_ p)) p) H.
Proof.
  intros CI Ho Hs Hn Hn'. apply (pinv_perm _ _ (<[i := H i]> H)); [intros j; by apply insert_self_perm|].
  eapply (pinv_counters a' (add_alloc 0 (set_freeSlabs (freeSlabs_ p) (set_ac (<[i := c']> (ac_ p)) p)))); try done.
  - eapply (pinv_update a a' p H i c c' _ _ s); try done; [apply PI| |lia]. intros s' Hs'. left. split; [done|]. by intros ->.
  - cbn. rewrite (pi_alloc _ _ _ PI), u64_add_l. f_equal. lia.
  - apply PI.
  - intros s' Hs'. eapply slab_in_only; [exact Ho|by intros ->|]. by apply (pi_free _ _ _ PI).
Qed.

Lemma pinv_kept : cinv a c' (H i) → pinv a (set_ac (<[i := c']> (ac_ p)) p) H.
Proof.
  intros CI. apply (pinv_move a 1); try done; [|by intros h Hh%no_holds_1..].
  intros Hs. destruct (pi_free _ _ _ PI 1 Hs) as (h & Hh & _). by apply no_holds_1 in Hh.
Qed.

Lemma keeps_kept q : ac_ q = <[i := c']> (ac_ p) → (∀ s, releasing c (H i) s → releasing c' (H i) s) → keeps p H q H.
Proof.
  intros E Hk j s Hr. apply (releases_perm q (<[i := H i]> H)); [intros k; by apply insert_self_perm|].
  revert j s Hr. by apply (keeps_class p q H i c c').
Qed.

Lemma owned_near s : owned a c s → ∀ h, holds a s h → near_class (id_ p) i h.
Proof.
  intros (h' & Hh' & E1 & E2) h Hh. rewrite (holds_det _ _ _ _ Hh Hh'). right.
  destruct (pi_class _ _ _ PI i c Hc) as (I1 & I2 & _). rewrite E1, E2, I1, I2. auto.
Qed.
End one_class.

Lemma slab_in_near a s id i : slab_in a s id kInvalidClassId → ∀ h, holds a s h → near_class id i h.
Proof. intros Hs h Hh. right. destruct (slab_in_holds _ _ _ _ h Hs Hh) as [-> ->]. auto. Qed.

Lemma near_others id i s a a' :
  only s a a' → (∀ h, holds a s h → near_class id i h) → (∀ h, holds a' s h → near_class id i h) → others id a a'.
Proof. intros Ho H1 H2. eapply only_others; [exact Ho|..]; intros h Hh; eapply near_class_near; eauto. Qed.

(** ** Finding the class of a size *)

Definition class_for (p : t) (size : Z) (i : nat) (n : Z) : Prop :=
  acSizes_ p !! i = Some n ∧ size <= n ∧ ∀ j m, (j < i)%nat → acSizes_ p !! j = Some m → m < size.

Lemma sorted_last (l : list Z) back : StronglySorted Z.lt l → last l = Some back → Forall (λ x, x <= back) l.
Proof.
  intros HS [l' ->]%last_Some. apply Forall_app. split; [|by repeat constructor].
  apply Forall_forall. intros x Hx. enough (x < back) by lia. eapply StronglySorted_app_1_elem_of; [exact HS|done|by left].
Qed.

Lemma getAllocationClassId_spec a p H size :
  pinv a p H →
  match getAllocationClassId size p with
  | inl e => e = invalid_argument ∧ (size = 0 ∨ Forall (λ n, n < size) (acSizes_ p))
  | inr cid => ∃ i n, cid = Z.of_nat i ∧ size ≠ 0 ∧ class_for p size i n
  end.
Proof.
  intros PI. unfold getAllocationClassId. destruct (last (acSizes_ p)) as [back|] eqn:El.
  2: { apply last_None in El. rewrite El. split; [done|]. right. constructor. }
  pose proof (sorted_last _ _ (pi_sorted _ _ _ PI) El) as HF.
  destruct (_ || _) eqn:Eb.
  { split; [done|]. apply orb_true_iff in Eb as [Eb|Eb]; [|left; lia]. right. eapply Forall_impl; [exact HF|]. simpl. lia. }
  apply orb_false_iff in Eb as [E1 E2]. destruct (list_find _ _) as [[i n]|] eqn:Ef.
  - apply list_find_Some in Ef as (Hi & Hn & Hlt). exists i, n. split; [done|]. split; [lia|]. split; [done|].
    split; [done|]. intros j m Hj Hm. specialize (Hlt j m Hm Hj). simpl in Hlt. lia.
  - apply list_find_None in Ef. apply last_Some in El as [l El]. rewrite El in Ef.
    apply Forall_app in Ef as [_ Ef]. inversion_clear Ef. lia.
Qed.

Lemma pinv_class_at a p H i n :
  pinv a p H → acSizes_ p !! i = Some n →
  ∃ c, ac_ p !! i = Some c ∧ AllocationClass.allocationSize_ c = n ∧ AllocationClass.poolId_ c = id_ p ∧
    AllocationClass.classId_ c = Z.of_nat i ∧ cinv a c (H i).
Proof.
  intros PI Hi. destruct (lookup_lt_is_Some_2 (ac_ p) i) as [c Hc].
  { rewrite (pi_length _ _ _ PI). by eapply lookup_lt_Some. }
  destruct (pi_class _ _ _ PI i c Hc) as (E1 & E2 & E3 & CI). exists c. split; [done|]. split; [congruence|done].
Qed.

(** ** Allocating *)

Definition alloc_post (p : t) (a : SlabAllocator.t) (H : nat → list Z) (i : nat) (r : option Z) (s' : State) : Prop :=
  sa_inv s'.2 ∧ others (id_ p) a s'.2 ∧ same_pool p s'.1 ∧
  match r with
  | Some x => pinv s'.2 s'.1 (<[i := x :: H i]> H) ∧ keeps p H s'.1 (<[i := x :: H i]> H)
  | None => pinv s'.2 s'.1 H ∧ keeps p H s'.1 H
  end.

Lemma length_delta {A} (l : list A) x n : n = (Z.of_nat (length (x :: l)) - Z.of_nat (length l)) * n.
Proof. simpl. lia. Qed.

(** The class answers from what it has. *)
Lemma class_allocate_ok p a H i c (k : option Z → EX State (option Z)) Q E :
  sa_inv a → pinv a p H → ac_ p !! i = Some c →
  (∀ c' x, same_class c c' → cinv a c' (x :: H i) →
     tries (k (Some x)) (set_ac (<[i := c']> (ac_ p)) p, a) Q E) →
  (∀ c', same_class c c' → cinv a c' (H i) → class_empty c → tries (k None) (set_ac (<[i := c']> (ac_ p)) p, a) Q E) →
  tries (with_class (Z.of_nat i) AllocationClass.allocate ≫= k) (p, a) Q E.
Proof.
  intros SI PI Hc HS HN. destruct (pi_class _ _ _ PI i c Hc) as (_ & _ & _ & CI).
  apply tries_bind, (tries_with_class i c); [done|].
  apply returns_tries. eapply returns_mono; [apply ac_allocate_ok; [apply SI|exact CI]|].
  intros r [c' a'] (Ea & Hsc & Hr). cbn [fst snd] in *. subst a'. destruct r as [x|]; [by apply HS|].
  destruct Hr. by apply HN.
Qed.

Lemma class_size_ok {A} p a i c (k : Z → EX State A) Q E :
  ac_ p !! i = Some c → tries (k (AllocationClass.allocationSize_ c)) (p, a) Q E →
  tries (with_class (Z.of_nat i) (reads (λ s, AllocationClass.allocationSize_ s.1)) ≫= k) (p, a) Q E.
Proof.
  intros Hc Hk. apply tries_bind, (tries_with_class i c); [done|]. apply tries_reads. cbn [fst snd].
  by rewrite (set_ac_id i c) by done.
Qed.

Lemma finish_alloc_ok p a H i c c' x n E :
  sa_inv a → pinv a p H → ac_ p !! i = Some c → same_class c c' → cinv a c' (x :: H i) →
  AllocationClass.allocationSize_ c = n →
  tries (on_pool (add_alloc n);; mret (Some x)) (set_ac (<[i := c']> (ac_ p)) p, a)
    (λ r s', alloc_post p a H i r s' ∧ is_Some r) E.
Proof.
  intros SI PI Hc Hsc CI <-. apply returns_tries, returns_bind, returns_updates, returns_ret. cbn [fst snd]. split; [|done].
  split; [done|]. split; [done|]. split; [done|]. split.
  - apply (pinv_alloc a p H i c c'); try done; [apply Hsc|apply length_delta].
  - apply (keeps_class p _ H i c c'); [done..|]. intros s. apply releasing_mono; [done|]. intros y. by right.
Qed.

Lemma alloc_post_trans p1 a1 p2 a2 H i r s' :
  others (id_ p1) a1 a2 → same_pool p1 p2 → keeps p1 H p2 H → alloc_post p2 a2 H i r s' → alloc_post p1 a1 H i r s'.
Proof.
  intros Ho Hp Hk (SI & Ho' & Hp' & Hr). split; [done|].
  split; [eapply others_trans; [done|]; by rewrite <-(proj1 Hp)|]. split; [by eapply same_pool_trans|].
  destruct r; (split; [apply Hr|]); eapply keeps_trans; [done|apply Hr|done|apply Hr].
Qed.

(** A slab is added to the class when it has nothing left. *)
Lemma grow_ok p a H i c E :
  sa_inv a → pinv a p H → ac_ p !! i = Some c →
  tries (slab ← getSlabLocked;
         match slab with
         | None => mret None
         | Some slab =>
             alloc ← with_class (Z.of_nat i) (AllocationClass.addSlabAndAllocate slab);
             on_pool (add_alloc (AllocationClass.allocationSize_ c));;
             mret alloc
         end) (p, a) (λ r s', alloc_post p a H i r s' ∧ (r = None → no_slab p a)) E.
Proof.
  intros SI PI Hc. eapply tries_bind_returns; [by apply getSlabLocked_ok|].
  intros [s|] [p1 a1] (SI1 & Ho1 & Hp1 & Ea1 & PI1 & Hr); cbn [fst snd] in *.
  2: { apply tries_ret. split; [|done]. split; [done|]. split; [done|]. split; [done|]. split; [done|].
       by apply keeps_same. }
  destruct Hr as [Hs Hnf]. assert (ac_ p1 !! i = Some c) as Hc1 by (by rewrite Ea1).
  destruct (pi_class _ _ _ PI1 i c Hc1) as (I1 & I2 & I3 & CI). rewrite <-(proj1 Hp1) in Hs.
  apply tries_bind, (tries_with_class i c); [done|]. apply returns_tries.
  eapply returns_mono; [apply (addSlabAndAllocate_ok a1 c (H i) s); [done..|by rewrite I2]|].
  intros r [c2 a2] (x & -> & SI2 & Ho2 & How & Hsc & CI2). cbn [fst snd] in *.
  apply returns_tries, returns_bind, returns_updates, returns_ret. cbn [fst snd]. split; [|done].
  assert (∀ h, holds a2 s h → near_class (id_ p1) i h) as Hn2.
  { intros h Hh. destruct How as (h' & Hh' & E1 & E2). rewrite (holds_det _ _ _ _ Hh Hh'). right. rewrite E1, E2, I1, I2. auto. }
  eapply (alloc_post_trans p a p1 a1); [done|done|by apply keeps_same|].
  split; [done|]. split; [eapply (near_others _ i s); [done|by apply slab_in_near|done]|]. split; [done|]. split.
  - eapply (pinv_update a1 a2 p1 H i c c2 _ (freeSlabs_ p1) s); try done; [apply Hsc|by apply slab_in_near|apply PI1| |apply length_delta].
    intros s' Hs'. left. split; [done|]. by intros ->.
  - apply (keeps_class p1 _ H i c c2); [done..|]. intros s0. apply releasing_mono; [done|]. intros y. by right.
Qed.

(** The class of [size] has nothing left, and there is no slab for it. *)
Definition exhausted (p : t) (a : SlabAllocator.t) (i : nat) : Prop :=
  (∃ c, ac_ p !! i = Some c ∧ class_empty c) ∧ no_slab p a.

Lemma pool_allocate_ok p a H size :
  sa_inv a → pinv a p H →
  tries (allocate size) (p, a)
    (λ r s', ∃ i n, size ≠ 0 ∧ class_for p size i n ∧ alloc_post p a H i r s' ∧ (r = None → exhausted p a i))
    (λ e s', s' = (p, a) ∧ e = invalid_argument ∧ (size = 0 ∨ Forall (λ n, n < size) (acSizes_ p))).
Proof.
  intros SI PI. unfold allocate. apply tries_bind, tries_reads. cbn [fst].
  pose proof (getAllocationClassId_spec a p H size PI) as HS.
  destruct (getAllocationClassId size p) as [e|cid]; cbn [of_sum].
  { destruct HS as [-> HS]. apply tries_bind, tries_throw. done. }
  destruct HS as (i & n & -> & Hsz & Hcf). apply tries_bind, tries_ret.
  destruct (pinv_class_at a p H i n PI (proj1 Hcf)) as (c & Hc & Hn & _). pose proof (lookup_lt_Some _ _ _ Hc) as Hlt.
  apply (tries_mono _ _ (λ r s', alloc_post p a H i r s' ∧ (r = None → exhausted p a i)) _ (λ _ _, False)).
  2: { intros r s' [HA HN]. by exists i, n. }
  2: { done. }
  apply (class_allocate_ok p a H i c); [done..| |].
  { intros c' x Hsc CI. apply (class_size_ok _ _ i c'); [by apply list_lookup_insert_eq|].
    eapply tries_mono; [apply (finish_alloc_ok p a H i c c' x _ (λ _ _, False)); try done; symmetry; apply Hsc| |done].
    intros r s' [HA [y ->]]. done. }
  intros c1 Hsc1 CI1 Hempty. set (p1 := set_ac _ p).
  assert (pinv a p1 H) as PI1 by (by apply (pinv_kept a p H i c c1); [| |apply Hsc1|]).
  assert (ac_ p1 !! i = Some c1) as Hc1 by (by apply list_lookup_insert_eq).
  assert (keeps p H p1 H) as Hk1.
  { apply (keeps_kept p H i c c1); [done..|]. intros s. by apply releasing_mono. }
  apply (class_size_ok _ _ i c1); [done|]. apply tries_bind, tries_reads. cbn [fst].
  change (allSlabsAllocated p1) with (allSlabsAllocated p). destruct (allSlabsAllocated p) eqn:Eall.
  { apply tries_ret. split; [done|]. intros _. split; [by exists c|by left]. }
  apply (class_allocate_ok p1 a H i c1); [done..| |].
  { intros c' x Hsc CI. eapply tries_mono; [by apply (finish_alloc_ok p1 a H i c1 c' x _ (λ _ _, False))| |done].
    intros r s' [HA [y ->]]. split; [by apply (alloc_post_trans p a p1 a)|done]. }
  intros c2 Hsc2 CI2 _. set (p2 := set_ac _ p1). rewrite <-(proj2 (proj2 (proj1 Hsc2))).
  assert (pinv a p2 H) as PI2 by (by apply (pinv_kept a p1 H i c1 c2); [| |apply Hsc2|]).
  eapply tries_mono; [apply (grow_ok p2 a H i c2 (λ _ _, False)); [done..|]|..|done].
  { apply list_lookup_insert_eq. by eapply lookup_lt_Some. }
  intros r s' [HA HN]. split; [|intros E; split; [by exists c|by apply HN]].
  apply (alloc_post_trans p a p2 a); [done|done| |done]. eapply keeps_trans; [exact Hk1|].
  apply (keeps_kept p1 H i c1 c2); [done..|]. intros s. by apply releasing_mono.
Qed.

(** ** Freeing *)

Lemma getAllocationClassIdFor_ok p a H i x :
  sa_inv a → pinv a p H → x ∈ H i →
  returns (getAllocationClassIdFor x) (p, a) (λ r s', r = Z.of_nat i ∧ s' = (p, a) ∧ (i < length (ac_ p))%nat).
Proof.
  intros SI PI Hx. pose proof (sa_geometry _ SI) as G. destruct (ac_ p !! i) as [c|] eqn:Hc.
  2: { rewrite (pi_none _ _ _ PI i Hc) in Hx. by apply elem_of_nil in Hx. }
  destruct (pi_class _ _ _ PI i c Hc) as (I1 & I2 & _ & CI). pose proof (lookup_lt_Some _ _ _ Hc) as Hlt.
  assert (chunk a c x) as Hch by (apply (ci_chunk _ _ _ CI), elem_of_app; by right).
  destruct (chunk_header a c _ x G CI Hch) as (s & j & h & Es & Eh & Hh & E1 & E2 & _).
  unfold getAllocationClassIdFor. apply returns_bind, returns_reads. cbn [snd]. rewrite Eh.
  apply returns_bind, returns_pool_slabs, (returns_readHeader G s h); [done|]. apply returns_bind, returns_reads. cbn [fst].
  rewrite E1, I2, Z.eqb_refl, E2, I1. cbn [negb].
  rewrite (proj2 (Z.eqb_neq _ _)) by (unfold kInvalidClassId; lia).
  rewrite (class_count_ok _ _ _ PI), (proj2 (Z.leb_gt _ _)), (proj2 (Z.ltb_ge _ _)) by lia. cbn [orb]. by apply returns_ret.
Qed.

Lemma pool_free_ok p a H i x l :
  sa_inv a → pinv a p H → H i ≡ₚ x :: l →
  returns (free x) (p, a) (λ _ s', s'.2 = a ∧ same_pool p s'.1 ∧
    pinv a s'.1 (<[i := l]> H) ∧ keeps p H s'.1 (<[i := l]> H)).
Proof.
  intros SI PI HP. unfold free. apply returns_bind.
  eapply returns_mono; [apply (getAllocationClassIdFor_ok p a H i x); [done..|rewrite HP; by left]|].
  intros ? ? (-> & -> & [c Hc]%lookup_lt_is_Some_2).
  destruct (pi_class _ _ _ PI i c Hc) as (I1 & I2 & _ & CI). rewrite HP in CI.
  apply returns_bind, (returns_with_class i c); [done|].
  eapply returns_mono; [apply ac_free_ok; [apply SI|exact CI]|].
  intros _ [c' a'] (Ea & Hid & CI' & Hk). cbn [fst snd] in *. subst a'.
  apply returns_bind, (returns_with_class i c').
  { cbn. rewrite list_lookup_insert_eq; [done|]. by eapply lookup_lt_Some. }
  apply returns_reads. cbn [fst snd]. rewrite set_ac_id.
  2: { cbn. rewrite list_lookup_insert_eq; [done|]. by eapply lookup_lt_Some. }
  apply returns_updates. cbn [fst snd]. split; [done|]. split; [done|]. split.
  - apply (pinv_alloc a p H i c c'); try done. rewrite HP, (proj2 (proj2 Hid)). simpl. lia.
  - apply (keeps_class p _ H i c c'); [done..|]. intros s Hr. apply Hk. eapply releasing_same; [done|done| |exact Hr].
    intros y. by rewrite HP.
Qed.

(** ** Releasing a slab *)

(** Where an operation on releases leaves the pool: the clients hold what they held. *)
Definition pool_kept (p : t) (a : SlabAllocator.t) (H : nat → list Z) (s' : State) : Prop :=
  sa_inv s'.2 ∧ others (id_ p) a s'.2 ∧ same_pool p s'.1 ∧ pinv s'.2 s'.1 H ∧ length (ac_ s'.1) = length (ac_ p).

Lemma pool_kept_trans p1 a1 p2 a2 H s' :
  pool_kept p1 a1 H (p2, a2) → pool_kept p2 a2 H s' → pool_kept p1 a1 H s'.
Proof.
  intros (A1 & A2 & A3 & A4 & A5) (B1 & B2 & B3 & B4 & B5). cbn [fst snd] in *. split; [done|].
  split; [eapply others_trans; [done|]; by rewrite <-(proj1 A3)|]. split; [by eapply same_pool_trans|].
  split; [done|]. congruence.
Qed.

Lemma pool_kept_refl p a H : sa_inv a → pinv a p H → pool_kept p a H (p, a).
Proof. intros SI PI. unfold pool_kept. by split_and!. Qed.

Lemma tries_class_for {A} i c (m : EX AllocationClass.State A) p a (Q : A → State → Prop) (E : Exn → State → Prop) H :
  pinv a p H → ac_ p !! i = Some c →
  tries m (c, a) (λ r s', Q r (set_ac (<[i := s'.1]> (ac_ p)) p, s'.2))
    (λ e s', E e (set_ac (<[i := s'.1]> (ac_ p)) p, s'.2)) →
  tries (getAllocationClassFor (Z.of_nat i) m) (p, a) Q E.
Proof.
  intros PI Hc Hm. unfold getAllocationClassFor. apply tries_bind, tries_reads. cbn [fst].
  pose proof (lookup_lt_Some _ _ _ Hc). rewrite (class_count_ok _ _ _ PI), (proj2 (Z.ltb_lt _ _)) by lia.
  by apply (tries_with_class i c).
Qed.

Lemma tries_class_any {A} cid (m : EX AllocationClass.State A) p a (Q : A → State → Prop) (E : Exn → State → Prop) H :
  pinv a p H → 0 <= cid →
  (∀ i c, cid = Z.of_nat i → ac_ p !! i = Some c → tries (getAllocationClassFor cid m) (p, a) Q E) →
  E invalid_argument (p, a) → tries (getAllocationClassFor cid m) (p, a) Q E.
Proof.
  intros PI Hc Hin Hout. destruct (ac_ p !! Z.to_nat cid) as [c|] eqn:El.
  - apply (Hin (Z.to_nat cid) c); [by rewrite Z2Nat.id|done].
  - unfold getAllocationClassFor. apply tries_bind, tries_reads. cbn [fst]. apply lookup_ge_None in El.
    rewrite (class_count_ok _ _ _ PI), (proj2 (Z.ltb_ge _ _)) by lia. by apply tries_throw.
Qed.

Lemma releaseSlab_ok mode p a H s receiver :
  sa_inv a → pinv a p H → slab_in a s (id_ p) kInvalidClassId → s ∉ freeSlabs_ p → -1 <= receiver →
  tries (releaseSlab mode s receiver) (p, a) (λ _ s', pool_kept p a H s' ∧ keeps p H s'.1 H)
    (λ _ s', pool_kept p a H s' ∧ keeps p H s'.1 H).
Proof.
  intros SI PI Hs Hnf Hrec. destruct mode; cbn [releaseSlab].
  - apply returns_tries, returns_bind, returns_pool_slabs.
    eapply returns_mono; [apply (freeSlab_ok s (id_ p) kInvalidClassId); [done|apply PI|done]|].
    intros _ a' (SI' & Ho & Hs'). apply returns_updates. cbn [fst snd].
    assert (pinv a' p H) as PI'.
    { eapply pinv_unclassed; [done..| | |done]; intros h; by eapply slab_in_unclassed. }
    split; [|by apply keeps_same]. split; [done|]. split.
    { eapply only_others; [exact Ho|..]; intros h Hh.
      - left. by apply (slab_in_holds _ _ _ _ h Hs).
      - right. by apply (slab_in_holds _ _ _ _ h Hs'). }
    split; [done|]. split; [|done]. apply (pinv_counters a' p); [done|done|done|done|done|apply PI'|apply PI'].
  - destruct (Z.eqb_spec receiver kInvalidClassId) as [->|Hne]; cbn [negb].
    + apply returns_tries, returns_bind, returns_updates, returns_updates. cbn [fst snd]. split; [|by apply keeps_same].
      split; [done|]. split; [done|]. split; [done|]. split; [|done].
      apply (pinv_counters a p); try done; cbn.
      * apply NoDup_app. split; [apply PI|]. split; [|apply NoDup_singleton]. by intros s' Hs' ->%list_elem_of_singleton.
      * intros s' [Hs'| ->%list_elem_of_singleton]%elem_of_app; [by apply (pi_free _ _ _ PI)|done].
    + assert (0 <= receiver) as Hr0 by (unfold kInvalidClassId in Hne; lia). apply tries_bind.
      apply (tries_class_any _ _ _ _ _ _ H PI); [done| |split; [by apply pool_kept_refl|apply keeps_refl]].
      intros i c -> Hc. destruct (pi_class _ _ _ PI i c Hc) as (I1 & I2 & _ & CI).
      apply (tries_class_for i c _ _ _ _ _ H PI); [done|]. apply returns_tries. unfold AllocationClass.addSlab.
      eapply returns_mono; [apply (addSlabLocked_ok a c (H i) s); [done..|by rewrite I2]|].
      intros _ [c' a'] (SI' & Ho & How & Hsc & CI' & _). cbn [fst snd] in *.
      assert (∀ h, holds a' s h → near_class (id_ p) i h) as Hn'.
      { intros h Hh. destruct How as (h' & Hh' & E1 & E2). rewrite (holds_det _ _ _ _ Hh Hh'). right.
        rewrite E1, E2, I1, I2. auto. }
      assert (pinv a' (set_ac (<[i := c']> (ac_ p)) p) H) as PI'.
      { apply (pinv_move a p H i c c' PI Hc (proj1 Hsc) a' s); try done. by apply slab_in_near. }
      apply returns_tries, returns_updates. cbn [fst snd]. split; [split; [done|]; split; [|split; [done|]; split]|].
      * eapply (near_others _ i s); [done|by apply slab_in_near|done].
      * apply (pinv_counters a' (set_ac (<[i := c']> (ac_ p)) p)); [done|done|done|done|done|apply PI'|apply PI'].
      * cbn. by rewrite length_insert.
      * apply (keeps_kept p H i c c'); [done..|]. intros s0. by apply releasing_mono.
Qed.

(** ** Starting, completing and aborting a release *)

Lemma map_but_releasing c c' H s0 s :
  same_ids c c' → map_but s0 c c' → AllocationClass.slabReleaseAllocMap_ c !! s0 = None →
  releasing c H s → releasing c' H s.
Proof.
  intros Hid Hb HN. apply releasing_same; [done| |done]. intros st Hst. rewrite Hb; [done|]. intros ->. congruence.
Qed.

(** The class has let go of a slab, or it has its header changed. *)
Lemma class_release_ok a a' p H i c c' s :
  sa_inv a' → pinv a p H → ac_ p !! i = Some c → same_ids c c' → cinv a' c' (H i) → only s a a' →
  owned a c s → (owned a' c s ∨ slab_in a' s (id_ p) kInvalidClassId) →
  pool_kept p a H (set_ac (<[i := c']> (ac_ p)) p, a') ∧ s ∉ freeSlabs_ p.
Proof.
  intros SI' PI Hc Hid CI' Ho How Hafter.
  destruct (pi_class _ _ _ PI i c Hc) as (I1 & I2 & I3 & CI).
  assert (s ∉ freeSlabs_ p) as Hnf.
  { intros Hin. destruct (pi_free _ _ _ PI s Hin) as (h & Hh & _ & Ec & _). destruct How as (h' & Hh' & _ & Ec').
    rewrite (holds_det _ _ _ _ Hh' Hh), Ec in Ec'. unfold kInvalidClassId in Ec'. lia. }
  assert (∀ h, holds a' s h → near_class (id_ p) i h) as Hn'.
  { destruct Hafter as [How'|Hs]; [|by apply slab_in_near]. intros h Hh. destruct How' as (h' & Hh' & E1 & E2).
    rewrite (holds_det _ _ _ _ Hh Hh'). right. rewrite E1, E2, I1, I2. auto. }
  pose proof (owned_near a p H i c PI Hc s How) as Hn. split; [|done]. split; [done|].
  split; [by eapply (near_others _ i s)|]. split; [done|]. split; [|cbn; by rewrite length_insert].
  by apply (pinv_move a p H i c c' PI Hc Hid a' s).
Qed.

Lemma class_kept_ok a p H i c s' :
  sa_inv a → pinv a p H → ac_ p !! i = Some c → kept a c (H i) s' →
  pool_kept p a H (set_ac (<[i := s'.1]> (ac_ p)) p, s'.2) ∧ keeps p H (set_ac (<[i := s'.1]> (ac_ p)) p) H.
Proof.
  intros SI PI Hc [->|(s & HN & SI' & Hid & CI' & How & How' & Ho & Hb)]; cbn [fst snd].
  - rewrite set_ac_id by done. split; [by apply pool_kept_refl|apply keeps_refl].
  - split; [eapply class_release_ok; eauto|]. apply (keeps_kept p H i c s'.1); [done..|].
    intros s0. by apply (map_but_releasing _ _ _ s).
Qed.

Definition start_post (p : t) (a : SlabAllocator.t) (H : nat → list Z) (receiver : Z) (mode : SlabReleaseMode)
    (ctx : SlabReleaseContext) (s' : State) : Prop :=
  pool_kept p a H s' ∧ keeps p H s'.1 H ∧ ctx_pid ctx = id_ p ∧ ctx_receiver ctx = receiver ∧ ctx_mode ctx = mode ∧
  (receiver ≠ kInvalidClassId → mode = kRebalance) ∧
  (isReleased ctx = false → ∃ i, ctx_victim ctx = Z.of_nat i ∧ releases s'.1 H i (ctx_slab ctx) ∧
     ¬ releases p H i (ctx_slab ctx) ∧
     ∀ x, x ∈ activeAllocations ctx ↔ x ∈ H i ∧ SlabAllocator.getSlabForMemory x = ctx_slab ctx).

(** The end of [startSlabRelease]: a slab that is released already goes to its new place. *)
Lemma start_finish_ok p a H receiver mode ctx p1 a1 :
  start_post p a H receiver mode (setReceiver receiver ctx) (p1, a1) → -1 <= receiver →
  (isReleased ctx = true → slab_in a1 (ctx_slab ctx) (id_ p) kInvalidClassId ∧ ctx_slab ctx ∉ freeSlabs_ p1) →
  tries (let context := setReceiver receiver ctx in
         (if isReleased context then releaseSlab (ctx_mode context) (ctx_slab context) receiver else mret tt);;
         mret context) (p1, a1) (start_post p a H receiver mode) (λ _ s', pool_kept p a H s' ∧ keeps p H s'.1 H).
Proof.
  intros (Hk & Hkp & E1 & E2 & E3 & Hm & Hr) Hrec Hs. cbv zeta. apply tries_bind. cbn [fst snd] in *.
  change (isReleased (setReceiver receiver ctx)) with (isReleased ctx) in *. destruct (isReleased ctx) eqn:Er.
  - destruct (Hs eq_refl) as [Hin Hnf]. pose proof Hk as (SI1 & _ & Hp & PI1 & _). cbn [fst snd] in *.
    eapply tries_mono; [apply (releaseSlab_ok _ p1 a1 H); [done..|by rewrite (proj1 Hp)|done|done]|..].
    + intros _ [p2 a2] [Hk2 Hkp2]. apply tries_ret. split; [by eapply pool_kept_trans|].
      split; [by eapply keeps_trans|]. split; [done|]. split; [done|]. split; [done|]. split; [done|]. by intros E%(eq_trans (eq_sym Er)).
    + intros e [p2 a2] [Hk2 Hkp2]. split; [by eapply pool_kept_trans|by eapply keeps_trans].
  - apply tries_ret, tries_ret. do 6 (split; [done|]). intros _. by apply Hr.
Qed.

Lemma releaseFromFreeSlabs_ok p a H :
  sa_inv a → pinv a p H →
  tries releaseFromFreeSlabs (p, a) (λ ctx s',
    pool_kept p a H s' ∧ ac_ s'.1 = ac_ p ∧ isReleased ctx = true ∧ ctx_pid ctx = id_ p ∧ ctx_mode ctx = kResize ∧
    slab_in s'.2 (ctx_slab ctx) (id_ p) kInvalidClassId ∧ ctx_slab ctx ∉ freeSlabs_ s'.1)
    (λ _ s', s' = (p, a)).
Proof.
  intros SI PI. unfold releaseFromFreeSlabs. apply tries_bind, tries_reads. cbn [fst].
  destruct (last (freeSlabs_ p)) as [s|] eqn:El; [|by apply tries_throw].
  apply last_Some in El as [l El]. apply returns_tries, returns_bind, returns_updates, returns_ret. cbn [fst snd].
  rewrite El, removelast_last. pose proof (pi_nodup _ _ _ PI) as Hnd. rewrite El in Hnd.
  apply NoDup_app in Hnd as (Hl & Hd & _). assert (∀ s', s' ∈ l ++ [s] → slab_in a s' (id_ p) kInvalidClassId) as Hf.
  { intros s' Hs'. apply (pi_free _ _ _ PI). by rewrite El. }
  split; [|split; [done|]; split; [done|]; split; [done|]; split; [done|]; split].
  - split; [done|]. split; [done|]. split; [done|]. split; [|done]. apply (pinv_counters a p); try done.
    intros s' Hs'. apply Hf. apply elem_of_app. by left.
  - apply Hf. apply elem_of_app. right. by left.
  - intros Hin. apply (Hd s Hin). by left.
Qed.

Lemma pool_startSlabRelease_ok rnd abort victim receiver mode hint p a H :
  sa_inv a → pinv a p H → -1 <= victim → -1 <= receiver →
  tries (startSlabRelease rnd abort victim receiver mode hint) (p, a) (start_post p a H receiver mode)
    (λ _ s', pool_kept p a H s' ∧ keeps p H s'.1 H).
Proof.
  intros SI PI Hv Hrec. assert (pool_kept p a H (p, a) ∧ keeps p H p H) as Hk by (split; [by apply pool_kept_refl|apply keeps_refl]).
  unfold startSlabRelease. destruct (negb (receiver =? _) && negb _) eqn:Eg; [by apply tries_throw|].
  assert (receiver ≠ kInvalidClassId → mode = kRebalance) as Hm.
  { intros Hne. apply Z.eqb_neq in Hne. rewrite Hne in Eg. cbn in Eg. by apply negb_false_iff, bool_decide_eq_true in Eg. }
  destruct ((victim =? kInvalidClassId) && negb _) eqn:Em; [by apply tries_throw|]. apply tries_bind.
  destruct (Z.eqb_spec victim kInvalidClassId) as [->|Hne].
  - cbn [andb] in Em. apply negb_false_iff, bool_decide_eq_true in Em. subst mode.
    eapply tries_mono; [by apply releaseFromFreeSlabs_ok| |by intros e s' ->].
    intros ctx [p1 a1] (Hk1 & Ea & Er & E1 & E2 & Hs & Hnf). apply (start_finish_ok p a H receiver kResize); [|done..].
    split; [done|]. split; [by apply keeps_same|]. do 4 (split; [done|]).
    change (isReleased (setReceiver receiver ctx)) with (isReleased ctx). by rewrite Er.
  - apply (tries_class_any _ _ _ _ _ _ H PI); [unfold kInvalidClassId in Hne; lia| |done].
    intros i c -> Hc. destruct (pi_class _ _ _ PI i c Hc) as (I1 & I2 & _ & CI). apply (tries_class_for i c _ _ _ _ _ H PI); [done|].
    eapply tries_mono; [by apply startSlabRelease_ok|..].
    2: { intros e s' Hkept. by apply (class_kept_ok a p H i c). }
    intros ctx [c1 a1] (HN & How & SI1 & Ho & Hid & CI1 & Hb & E1 & E2 & Hr). cbn [fst snd] in *. rewrite I2 in *.
    destruct (class_release_ok a a1 p H i c c1 (ctx_slab ctx)) as [Hk1 Hnf]; try done.
    { destruct (isReleased ctx); [by right|]. left. apply Hr. }
    apply start_finish_ok; [|done|].
    + split; [done|]. split; [apply (keeps_kept p H i c c1); [done..|]; intros s; by apply (map_but_releasing _ _ _ (ctx_slab ctx))|].
      do 4 (split; [done|]). cbn [ctx_victim ctx_slab activeAllocations setReceiver].
      change (isReleased (setReceiver receiver ctx)) with (isReleased ctx). intros Er. rewrite Er in Hr.
      destruct Hr as (Ev & _ & st & Hst & Hcov & Eact). exists i. split; [congruence|]. pose proof (lookup_lt_Some _ _ _ Hc).
      split; [exists c1; cbn; rewrite list_lookup_insert_eq by done; split; [done|]; by exists st|].
      split; [intros (c0 & Hc0 & st0 & Hst0 & _); congruence|].
      intros x. rewrite Eact. apply (active_exact a1 c1); [apply SI1|done..].
    + intros Er. rewrite Er in Hr. done.
Qed.

(** All other releases go on. *)
Definition keeps_but (i : nat) (s : Z) (p : t) (H : nat → list Z) (p' : t) : Prop :=
  ∀ j s', (j, s') ≠ (i, s) → releases p H j s' → releases p' H j s'.

Lemma keeps_but_delete p p' H i c c' s :
  ac_ p !! i = Some c → ac_ p' = <[i := c']> (ac_ p) → same_ids c c' →
  AllocationClass.slabReleaseAllocMap_ c' = delete s (AllocationClass.slabReleaseAllocMap_ c) → keeps_but i s p H p'.
Proof.
  intros Hc E Hid Em j s' Hne (cj & Hj & Hr). unfold releases. rewrite E. pose proof (lookup_lt_Some _ _ _ Hc).
  destruct (decide (j = i)) as [->|Hji].
  - exists c'. rewrite list_lookup_insert_eq by done. split; [done|]. rewrite Hj in Hc. injection Hc as ->.
    eapply releasing_same; [done| |done|exact Hr]. intros st Hst. rewrite Em, lookup_delete_ne; [done|].
    intros ->. by apply Hne.
  - exists cj. by rewrite list_lookup_insert_ne by done.
Qed.

Lemma keeps_but_trans i s p1 H p2 p3 : keeps_but i s p1 H p2 → keeps p2 H p3 H → keeps_but i s p1 H p3.
Proof. intros A B j s' Hne Hr. by apply B, A. Qed.

Section releasing.
Context (p : t) (a : SlabAllocator.t) (H : nat → list Z) (ctx : SlabReleaseContext) (i : nat).
Context (SI : sa_inv a) (PI : pinv a p H) (Hrel : isReleased ctx = false) (Hv : ctx_victim ctx = Z.of_nat i).
Context (Hr : releases p H i (ctx_slab ctx)).

Lemma pool_completeSlabRelease_ok :
  -1 <= ctx_receiver ctx → (ctx_receiver ctx ≠ kInvalidClassId → ctx_mode ctx = kRebalance) →
  let done := ∀ x, x ∈ H i → SlabAllocator.getSlabForMemory x ≠ ctx_slab ctx in
  tries (completeSlabRelease ctx) (p, a)
    (λ r s', pool_kept p a H s' ∧ keeps_but i (ctx_slab ctx) p H s'.1 ∧ (r = true ↔ done) ∧ (r = false → s' = (p, a)))
    (λ _ s', pool_kept p a H s' ∧ keeps_but i (ctx_slab ctx) p H s'.1 ∧ done).
Proof.
  intros Hrec Hmode Hdone. unfold completeSlabRelease. rewrite Hrel.
  assert (negb (ctx_receiver ctx =? kInvalidClassId) && negb (bool_decide (ctx_mode ctx = kRebalance)) = false) as ->.
  { destruct (Z.eqb_spec (ctx_receiver ctx) kInvalidClassId); [done|]. by rewrite bool_decide_true by auto. }
  destruct Hr as (c & Hc & Hrc). destruct (pi_class _ _ _ PI i c Hc) as (I1 & I2 & _ & CI). rewrite Hv.
  apply tries_bind, (tries_class_for i c _ _ _ _ _ H PI); [done|]. apply returns_tries.
  eapply returns_mono; [by apply completeSlabRelease_ok|]. intros r [c1 a1] (SI1 & Hid & CI1 & Ho & Hiff & Hres).
  cbn [fst snd] in *. destruct r; cbn [negb].
  - destruct Hres as (Hs & How & Em). rewrite I2 in Hs.
    destruct (class_release_ok a a1 p H i c c1 (ctx_slab ctx)) as [Hk1 Hnf]; try done; [by right|].
    assert (keeps_but i (ctx_slab ctx) p H (set_ac (<[i := c1]> (ac_ p)) p)) as Hkb by (by eapply (keeps_but_delete _ _ _ i c c1)).
    pose proof Hk1 as (_ & _ & _ & PI1 & _). cbn [fst snd] in PI1. apply tries_bind.
    eapply tries_mono; [by apply (releaseSlab_ok _ _ a1 H (ctx_slab ctx))|..].
    + intros _ [p2 a2] [Hk2 Hkp2]. apply tries_ret. cbn [fst snd] in *.
      split; [by eapply pool_kept_trans|]. split; [by eapply keeps_but_trans|]. done.
    + intros e [p2 a2] [Hk2 Hkp2]. cbn [fst snd] in *.
      split; [by eapply pool_kept_trans|]. split; [by eapply keeps_but_trans|]. exact (proj1 Hiff eq_refl).
  - injection Hres as -> ->. apply tries_ret. rewrite set_ac_id by done.
    split; [by apply pool_kept_refl|]. split; [by intros j s' _|]. done.
Qed.

Lemma pool_abortSlabRelease_ok :
  returns (abortSlabRelease ctx) (p, a) (λ _ s', pool_kept p a H s' ∧ keeps_but i (ctx_slab ctx) p H s'.1).
Proof.
  destruct Hr as (c & Hc & Hrc). destruct (pi_class _ _ _ PI i c Hc) as (I1 & I2 & _ & CI).
  unfold abortSlabRelease. rewrite Hv. unfold getAllocationClassFor.
  apply returns_bind, returns_bind, returns_reads. cbn [fst].
  pose proof (lookup_lt_Some _ _ _ Hc). rewrite (class_count_ok _ _ _ PI), (proj2 (Z.ltb_lt _ _)) by lia.
  apply (returns_with_class i c); [done|].
  eapply returns_mono; [by apply abortSlabRelease_ok|]. intros _ [c1 a1] (SI1 & Hid & CI1 & Ho & How & How1 & Em).
  cbn [fst snd] in *. apply returns_updates. cbn [fst snd].
  destruct (class_release_ok a a1 p H i c c1 (ctx_slab ctx)) as [(K1 & K2 & K3 & K4 & K5) _]; try done; [by left|].
  cbn [fst snd] in *. split.
  - split; [done|]. split; [done|]. split; [done|]. split; [|done].
    eapply pinv_counters; [exact K4|done|done|done|done|apply K4|apply K4].
  - by eapply (keeps_but_delete _ _ _ i c c1).
Qed.
End releasing.

(** The slab of a release is known by its header. *)
Lemma releases_header a p H i s :
  pinv a p H → releases p H i s → ∃ h, holds a s h ∧ poolId h = id_ p ∧ classId h = Z.of_nat i.
Proof.
  intros PI (c & Hc & st & Hst & _). destruct (pi_class _ _ _ PI i c Hc) as (I1 & I2 & _ & CI).
  destruct (ci_release _ _ _ CI s st Hst) as [(h & Hh & E1 & E2) _]. exists h. split; [done|]. split; congruence.
Qed.
