(* ===== verification/CacheCorrect.v ===== *)
(** * CacheCorrect: clients of CacheLib's memory allocator

    A configuration is a MemoryAllocator with the allocations its clients hold and
    the slab releases that have been started.  [exec] runs one call on it.  In every
    configuration that clients reach, no call makes an access outside the headers,
    vectors and maps, allocations are disjoint and inside the region, an allocation
    fails for want of memory only, and a slab release completes exactly when the
    chunks it reported have been freed. *)

From S2P Require Import Prelude Types CacheSlab CacheClass CachePool CacheAllocator CacheInv CacheChunks CacheRelease CachePools.
Import MemoryAllocator.
Open Scope Z_scope.

Record Held := mkHeld {
  h_pool : nat;
  h_class : nat;
  h_addr : Z;
  h_size : Z;
}.

(** The chunks held from a class of a pool. *)
Definition in_class (L : list Held) (k i : nat) : list Z :=
  h_addr <$> filter (λ h, h_pool h = k ∧ h_class h = i) L.

Definition ongoing (m : t) (L : list Held) (ctx : SlabReleaseContext) : Prop :=
  ∃ k p i, ctx_pid ctx = Z.of_nat k ∧ pools_ m !! k = Some p ∧ ctx_victim ctx = Z.of_nat i ∧
    isReleased ctx = false ∧ releases p (in_class L k) i (ctx_slab ctx) ∧
    -1 <= ctx_receiver ctx ∧ (ctx_receiver ctx ≠ kInvalidClassId → ctx_mode ctx = kRebalance).

(** A [std::set] of sizes, of at most 127 elements: the counts of classes the pools
    work with have 7 bits. *)
Definition sizes_ok (sizes : list Z) : Prop := StronglySorted Z.lt sizes ∧ (length sizes <= 127)%nat.

Record ca_inv (m : t) (L : list Held) (R : list SlabReleaseContext) : Prop := {
  ca_sizes : sizes_ok (allocSizes m);
  ca_slabs : sa_inv (slabAllocator_ m);
  ca_count : nextPoolId_ m <= kMaxPools;
  ca_fresh s h : holds (slabAllocator_ m) s h → poolId h < nextPoolId_ m;
  ca_pool k p : pools_ m !! k = Some p →
    MemoryPool.id_ p = Z.of_nat k ∧ pinv (slabAllocator_ m) p (in_class L k);
  ca_held h : h ∈ L → ∃ p n, pools_ m !! h_pool h = Some p ∧
    MemoryPool.acSizes_ p !! h_class h = Some n ∧ 0 < h_size h <= n;
  ca_release ctx : ctx ∈ R → ongoing m L ctx;
  ca_distinct : NoDup (ctx_slab <$> R);
}.

(** ** The chunks of a class *)

Lemma in_class_cons_same h L i :
  in_class (h :: L) (h_pool h) i =
  (<[h_class h := h_addr h :: in_class L (h_pool h) (h_class h)]> (in_class L (h_pool h))) i.
Proof.
  unfold in_class at 1. rewrite filter_cons. destruct (decide (h_class h = i)) as [<-|Hne].
  - rewrite decide_True by done. by rewrite fn_lookup_insert.
  - rewrite decide_False by tauto. by rewrite fn_lookup_insert_ne.
Qed.

Lemma in_class_cons_other h L k i : k ≠ h_pool h → in_class (h :: L) k i = in_class L k i.
Proof. intros Hne. unfold in_class. rewrite filter_cons, decide_False; [done|]. intros [? _]. congruence. Qed.

#[export] Instance in_class_perm : Proper ((≡ₚ) ==> eq ==> eq ==> (≡ₚ)) in_class.
Proof. intros L1 L2 HL k _ <- i _ <-. unfold in_class. by rewrite HL. Qed.

Lemma elem_of_in_class x L k i : x ∈ in_class L k i ↔ ∃ h, h ∈ L ∧ h_pool h = k ∧ h_class h = i ∧ h_addr h = x.
Proof.
  unfold in_class. rewrite list_elem_of_fmap. setoid_rewrite list_elem_of_filter. naive_solver.
Qed.

Lemma ongoing_perm m L1 L2 ctx : L1 ≡ₚ L2 → ongoing m L1 ctx → ongoing m L2 ctx.
Proof.
  intros HL (k & p & i & E1 & Hp & E2 & Er & Hr & Hrest). exists k, p, i. split_and!; try done; [|apply Hrest..].
  eapply releases_perm; [|exact Hr]. intros j. by rewrite HL.
Qed.

Lemma ca_inv_perm m L1 L2 R : L1 ≡ₚ L2 → ca_inv m L1 R → ca_inv m L2 R.
Proof.
  intros HL [C0 C1 C2 CF C3 C4 C5 C6]. split; try done.
  - intros k p Hp. destruct (C3 k p Hp) as [E PI]. split; [done|]. eapply pinv_perm; [|exact PI]. intros i. by rewrite HL.
  - intros h Hh. apply C4. by rewrite HL.
  - intros ctx Hc. eapply ongoing_perm; [done|]. by apply C5.
Qed.

(** ** Operations on one pool *)

Section pool.
Context (m : t) (L L' : list Held) (R : list SlabReleaseContext) (k : nat) (p p' : MemoryPool.t) (a' : SlabAllocator.t).
Context (CI : ca_inv m L R) (Hp : pools_ m !! k = Some p).
Let m' : t := set_pools (<[k := p']> (pools_ m)) (set_slabs a' m).

Lemma ca_update :
  sa_inv a' → others (Z.of_nat k) (slabAllocator_ m) a' → MemoryPool.id_ p' = MemoryPool.id_ p →
  MemoryPool.acSizes_ p' = MemoryPool.acSizes_ p →
  pinv a' p' (in_class L' k) → (∀ j, j ≠ k → ∀ i, in_class L' j i = in_class L j i) →
  (∀ h, h ∈ L' → h ∈ L ∨ h_pool h = k ∧ ∃ n, MemoryPool.acSizes_ p !! h_class h = Some n ∧ 0 < h_size h <= n) →
  (∀ ctx, ctx ∈ R → ongoing m' L' ctx) → ca_inv m' L' R.
Proof.
  intros SI' Ho Hsp Hss PI' HL Hheld HR. pose proof CI as [C0 C1 C2 CF C3 C4 C5 C6].
  pose proof (lookup_lt_Some _ _ _ Hp) as Hlt. destruct (C3 k p Hp) as [Eid _]. split; try done.
  - unfold nextPoolId_, m'. cbn. rewrite length_insert. exact C2.
  - intros s h Hh. unfold nextPoolId_, m' in *. cbn in *. rewrite length_insert.
    destruct (decide (poolId h = Z.of_nat k)) as [->|]; [lia|].
    destruct (decide (poolId h = kInvalidPoolId)) as [->|]; [unfold kInvalidPoolId; lia|].
    apply (CF s). by apply (ot_headers _ _ _ Ho).
  - intros j q Hq. unfold m' in Hq. cbn in Hq. destruct (decide (j = k)) as [->|Hne].
    + rewrite list_lookup_insert_eq in Hq by done. injection Hq as <-. split; [by rewrite Hsp|done].
    + rewrite list_lookup_insert_ne in Hq by done. destruct (C3 j q Hq) as [Ej PJ]. split; [done|].
      cbn. apply (pinv_perm _ _ (in_class L j)); [intros i; by rewrite HL|].
      eapply pinv_others; [exact Ho|lia|exact PJ].
  - assert (∀ h q n, pools_ m !! h_pool h = Some q → MemoryPool.acSizes_ q !! h_class h = Some n →
      ∃ q', pools_ m' !! h_pool h = Some q' ∧ MemoryPool.acSizes_ q' !! h_class h = Some n) as Hsz.
    { intros h q n Hq Hn. unfold m'. cbn. destruct (decide (h_pool h = k)) as [E|Hne].
      - exists p'. rewrite E, list_lookup_insert_eq by done. split; [done|]. rewrite E, Hp in Hq. injection Hq as <-.
        by rewrite Hss.
      - exists q. by rewrite list_lookup_insert_ne by done. }
    intros h [(q & n & Hq & Hn & Hs)%C4|(Ek & n & Hn & Hs)]%Hheld.
    + destruct (Hsz h q n Hq Hn) as (q' & ? & ?). by exists q', n.
    + destruct (Hsz h p n) as (q' & ? & ?); [by rewrite Ek|done|]. by exists q', n.
Qed.

(** A release that goes on in the pool, and those of the other pools. *)
Lemma ongoing_update ctx :
  ongoing m L ctx → (∀ j, j ≠ k → ∀ i, in_class L' j i = in_class L j i) →
  (∀ i, ctx_pid ctx = Z.of_nat k → ctx_victim ctx = Z.of_nat i →
     releases p (in_class L k) i (ctx_slab ctx) → releases p' (in_class L' k) i (ctx_slab ctx)) →
  ongoing m' L' ctx.
Proof.
  intros (j & q & i & E1 & Hq & E2 & Er & Hr & Hrest) HL Hk. exists j.
  pose proof (lookup_lt_Some _ _ _ Hp) as Hlt. unfold m'. cbn. destruct (decide (j = k)) as [->|Hne].
  - exists p', i. rewrite list_lookup_insert_eq by done. split_and!; try done; [|apply Hrest..].
    apply Hk; [done..|]. rewrite Hp in Hq. by injection Hq as <-.
  - exists q, i. rewrite list_lookup_insert_ne by done. split_and!; try done; [|apply Hrest..].
    eapply releases_perm; [|exact Hr]. intros i'. by rewrite HL.
Qed.
End pool.

(** The new state of the pool satisfies its invariant; everything held and every
    release stays as it is. *)
Lemma ca_kept m L R k p p' a' :
  ca_inv m L R → pools_ m !! k = Some p →
  pool_kept p (slabAllocator_ m) (in_class L k) (p', a') → keeps p (in_class L k) p' (in_class L k) →
  ca_inv (set_pools (<[k := p']> (pools_ m)) (set_slabs a' m)) L R.
Proof.
  intros CI Hp (SI & Ho & Hsp & PI & _) Hk. cbn [fst snd] in *. destruct (ca_pool _ _ _ CI k p Hp) as [Ek _]. rewrite Ek in Ho.
  apply (ca_update m L L R k p p' a'); try done; [apply Hsp|apply Hsp|by left|]. intros ctx Hctx.
  apply (ongoing_update m L L k p p' a'); try done; [by apply (ca_release _ _ _ CI)|]. intros i _ _. apply Hk.
Qed.

Lemma ca_drop m L R R' : ca_inv m L R → (∃ l, R ≡ₚ l ++ R') → ca_inv m L R'.
Proof.
  intros [C0 C1 C2 CF C3 C4 C5 C6] [l HR]. split; try done.
  - intros ctx Hc. apply C5. rewrite HR. apply elem_of_app. by right.
  - rewrite HR, fmap_app in C6. by apply NoDup_app in C6 as (_ & _ & ?).
Qed.

(** ** The calls *)

Definition put_pool (k : nat) (m : t) (s' : MemoryPool.State) : t :=
  set_pools (<[k := s'.1]> (pools_ m)) (set_slabs s'.2 m).

Lemma put_pool_same k m p : pools_ m !! k = Some p → put_pool k m (p, slabAllocator_ m) = m.
Proof. intros Hp. unfold put_pool, set_pools, set_slabs. cbn. rewrite list_insert_id by done. by destruct m. Qed.

Lemma tries_pool {A} pid (op : EX MemoryPool.State A) m (Q : A → t → Prop) (E : Exn → t → Prop) :
  (∀ k p, pid = Z.of_nat k → pools_ m !! k = Some p →
     tries op (p, slabAllocator_ m) (λ r s', Q r (put_pool k m s')) (λ e s', E e (put_pool k m s'))) →
  (¬ 0 <= pid < nextPoolId_ m → E invalid_argument m) → tries (getPoolById pid op) m Q E.
Proof.
  intros Hin Hout. unfold tries, getPoolById. destruct ((pid <? nextPoolId_ m) && (0 <=? pid)) eqn:Eb.
  - apply andb_true_iff in Eb as [E1 E2]. destruct (lookup_lt_is_Some_2 (pools_ m) (Z.to_nat pid)) as [p Hp].
    { unfold nextPoolId_ in E1. lia. }
    destruct (Hin (Z.to_nat pid) p) as (r & [p' a'] & Eop & Hr); [lia|done|].
    rewrite Hp. cbn [mbind option_bind]. rewrite Eop. by eexists r, _.
  - apply andb_false_iff in Eb. exists (inl invalid_argument), m. split; [done|]. apply Hout. lia.
Qed.

Definition same_region (m m' : t) : Prop :=
  SlabAllocator.slabMemoryStart_ (slabAllocator_ m') = SlabAllocator.slabMemoryStart_ (slabAllocator_ m) ∧
  SlabAllocator.slabMemorySize_ (slabAllocator_ m') = SlabAllocator.slabMemorySize_ (slabAllocator_ m).

(** The record of an allocation of [size] bytes at [x]. *)
Definition allocated (size : Z) (pid : Z) (m : t) (x : Z) : option Held :=
  p ← pools_ m !! Z.to_nat pid;
  match MemoryPool.getAllocationClassId size p with
  | inr i => Some (mkHeld (Z.to_nat pid) (Z.to_nat i) x size)
  | inl _ => None
  end.

Lemma class_for_det p size i n i' n' : class_for p size i n → class_for p size i' n' → i = i'.
Proof.
  intros (H1 & H2 & H3) (H1' & H2' & H3'). destruct (lt_eq_lt_dec i i') as [[Hl|?]|Hl]; [|done|].
  - specialize (H3' i n Hl H1). lia.
  - specialize (H3 i' n' Hl H1'). lia.
Qed.

(** [size] does not fit any class of the pool. *)
Definition bad_size (p : MemoryPool.t) (size : Z) : Prop := size = 0 ∨ Forall (λ n, n < size) (MemoryPool.acSizes_ p).

Lemma ca_allocate m L R pid size :
  ca_inv m L R → 0 <= size →
  tries (allocate pid size) m
    (λ r m', same_region m m' ∧ match r with
       | Some x => ∃ h, allocated size pid m x = Some h ∧ ca_inv m' (h :: L) R
       | None => ca_inv m' L R ∧ ∃ k p i n, pid = Z.of_nat k ∧ pools_ m !! k = Some p ∧ size ≠ 0 ∧
           class_for p size i n ∧ exhausted p (slabAllocator_ m) i
       end)
    (λ e m', e = invalid_argument ∧ m' = m ∧
       ((¬ 0 <= pid < nextPoolId_ m) ∨ ∃ k p, pid = Z.of_nat k ∧ pools_ m !! k = Some p ∧ bad_size p size)).
Proof.
  intros CI Hsz. apply tries_pool; [|auto]. intros k p -> Hp. destruct (ca_pool _ _ _ CI k p Hp) as [Ek PI].
  eapply tries_mono; [by apply (pool_allocate_ok p (slabAllocator_ m) (in_class L k)); [apply CI|]|..].
  - intros r [p' a'] (i & n & Hnz & Hcf & (SI & Ho & Hsp & Hr) & HN). cbn [fst snd] in *. rewrite Ek in Ho.
    split; [by destruct Ho|]. destruct r as [x|].
    + pose proof (getAllocationClassId_spec _ _ _ size PI) as HS. unfold allocated. rewrite Nat2Z.id, Hp. cbn [mbind option_bind].
      destruct (MemoryPool.getAllocationClassId size p) as [e|cid].
      { exfalso. destruct HS as [_ [?|HF]]; [done|]. destruct Hcf as (Hn & Hle & _).
        apply (Forall_lookup_1 _ _ _ _ HF) in Hn. lia. }
      destruct HS as (i' & n' & -> & _ & Hcf'). pose proof (class_for_det _ _ _ _ _ _ Hcf Hcf') as <-.
      eexists. split; [done|]. rewrite Nat2Z.id. destruct Hr as [PI' Hk].
      set (h := mkHeld k i x size). assert (∀ j, in_class (h :: L) k j = (<[i := x :: in_class L k i]> (in_class L k)) j) as El.
      { intros j. apply (in_class_cons_same h L j). }
      apply (ca_update m L (h :: L) R k p p' a'); try done; [apply Hsp|apply Hsp|..].
      * eapply pinv_perm; [|exact PI']. intros j. by rewrite El.
      * intros j Hj i'. by apply in_class_cons_other.
      * intros h' [->|?]%elem_of_cons; [|by left]. right. split; [done|]. exists n. split; [apply Hcf|].
        split; [cbn; lia|apply Hcf].
      * intros ctx Hctx. apply (ongoing_update m L (h :: L) k p p' a'); try done; [by apply (ca_release _ _ _ CI)|..].
        -- intros j Hj i'. by apply in_class_cons_other.
        -- intros i' _ _ Hrel. apply Hk in Hrel. eapply releases_perm; [|exact Hrel]. intros j. by rewrite El.
    + destruct Hr as [PI' Hk]. split; [|exists k, p, i, n; split_and!; auto; apply HN; done].
      apply (ca_update m L L R k p p' a'); try done; [apply Hsp|apply Hsp|by left|]. intros ctx Hctx.
      apply (ongoing_update m L L k p p' a'); try done; [by apply (ca_release _ _ _ CI)|]. intros i' _ _. apply Hk.
  - intros e s' (-> & -> & Hbad). rewrite put_pool_same by done. split; [done|]. split; [done|]. right. by exists k, p.
Qed.

(** What an allocation is: a chunk of its class, in a slab whose header says so. *)
Lemma held_chunk m L R h :
  ca_inv m L R → h ∈ L → ∃ p c, pools_ m !! h_pool h = Some p ∧ MemoryPool.ac_ p !! h_class h = Some c ∧
    AllocationClass.poolId_ c = Z.of_nat (h_pool h) ∧ AllocationClass.classId_ c = Z.of_nat (h_class h) ∧
    0 < h_size h <= AllocationClass.allocationSize_ c ∧
    cinv (slabAllocator_ m) c (in_class L (h_pool h) (h_class h)) ∧ chunk (slabAllocator_ m) c (h_addr h).
Proof.
  intros CI Hh. destruct (ca_held _ _ _ CI h Hh) as (p & n & Hp & Hn & Hs).
  destruct (ca_pool _ _ _ CI _ p Hp) as [Ek PI].
  destruct (pinv_class_at _ _ _ _ _ PI Hn) as (c & Hc & <- & Ec & Ecid & CC). exists p, c. rewrite Ec, Ek.
  do 6 (split; [done|]). apply (ci_chunk _ _ _ CC), elem_of_app. right. apply elem_of_in_class. by exists h.
Qed.

Lemma held_header m L R h :
  ca_inv m L R → h ∈ L → ∃ hd, holds (slabAllocator_ m) (SlabAllocator.getSlabForMemory (h_addr h)) hd ∧
    poolId hd = Z.of_nat (h_pool h) ∧ classId hd = Z.of_nat (h_class h) ∧
    SlabAllocator.getSlabHeaderFor (slabAllocator_ m) (h_addr h) =
      Some (SlabAllocator.slabIdx (slabAllocator_ m) (SlabAllocator.getSlabForMemory (h_addr h))).
Proof.
  intros CI Hh. destruct (held_chunk m L R h CI Hh) as (p & c & Hp & Hc & Ep & Ec & _ & CC & Hch).
  destruct (chunk_header _ _ _ _ (sa_geometry _ (ca_slabs _ _ _ CI)) CC Hch) as (s & i & hd & Es & Eh & Hhd & E1 & E2 & _).
  exists hd. rewrite Es, <-Ep, <-Ec. done.
Qed.

Lemma ca_free m L R h :
  ca_inv m (h :: L) R → returns (free (h_addr h)) m (λ _ m', same_region m m' ∧ ca_inv m' L R).
Proof.
  intros CI. pose proof (ca_slabs _ _ _ CI) as SI. assert (h ∈ h :: L) as Hin by (by left).
  destruct (held_header _ _ _ h CI Hin) as (hd & Hh & E1 & _ & Eh). pose proof Hh as [_ Ehd].
  destruct (held_chunk _ _ _ h CI Hin) as (p & c & Hp & _). set (k := h_pool h) in *.
  destruct (ca_pool _ _ _ CI k p Hp) as [Ek PI].
  destruct (pool_free_ok p (slabAllocator_ m) _ (h_class h) (h_addr h) (in_class L k (h_class h)) SI PI)
    as ([] & [p' a'] & Ef & Ea & Hsp & PI' & Hk); [unfold k; by rewrite in_class_cons_same, fn_lookup_insert|].
  cbn [fst snd] in *. subst a'.
  exists tt, (put_pool k m (p', slabAllocator_ m)). unfold free. rewrite Eh, (in_headers_ok (sa_geometry _ SI)) by apply Hh.
  rewrite Ehd, E1. pose proof (lookup_lt_Some _ _ _ Hp). unfold getPoolById, nextPoolId_.
  rewrite (proj2 (Z.ltb_lt _ _)), (proj2 (Z.leb_le _ _)), Nat2Z.id, Hp by lia. cbn [andb mbind option_bind]. rewrite Ef.
  split; [done|]. split; [done|].
  assert (∀ j, j ≠ k → ∀ i, in_class L j i = in_class (h :: L) j i) as Hoth.
  { intros j Hj i'. by rewrite in_class_cons_other. }
  assert (∀ j, (<[h_class h := in_class L k (h_class h)]> (in_class (h :: L) k)) j ≡ₚ in_class L k j) as HP.
  { intros j. destruct (decide (j = h_class h)) as [->|]; [by rewrite fn_lookup_insert|].
    rewrite fn_lookup_insert_ne by done. unfold k. rewrite in_class_cons_same, fn_lookup_insert_ne; done. }
  apply (ca_update m (h :: L) L R k p p'); try done; [apply Hsp|apply Hsp|..].
  - eapply pinv_perm; [exact HP|done].
  - intros h' Hh'. left. by right.
  - intros ctx Hctx. apply (ongoing_update m (h :: L) L k p p'); try done; [by apply (ca_release _ _ _ CI)|].
    intros i' _ _ Hrel. apply Hk in Hrel. by eapply releases_perm.
Qed.

(** ** Pools *)

Lemma create_classes_spec id pool sizes cs :
  0 <= id → MemoryPool.create_classes id pool sizes = inr cs →
  length cs = length sizes ∧
  ∀ i c, cs !! i = Some c → ∃ n, sizes !! i = Some n ∧ kMinAllocSize <= n <= kSize ∧
    AllocationClass.new (id + Z.of_nat i) pool n = inr c.
Proof.
  revert id cs. induction sizes as [|n sizes IH]; intros id cs Hid E; cbn in E; [by injection E as <-|].
  destruct (_ || _) eqn:Eb; [done|]. apply orb_false_iff in Eb as [E1 E2].
  destruct (AllocationClass.new id pool n) as [|c] eqn:Ec; [done|].
  destruct (MemoryPool.create_classes (id + 1) pool sizes) as [|cs'] eqn:Ecs; [done|]. injection E as <-.
  destruct (IH (id + 1) cs' ltac:(lia) Ecs) as [Hlen Hcs]. split; [cbn; lia|]. intros [|i] c' Hc'; cbn in Hc'.
  - injection Hc' as <-. exists n. rewrite Z.add_0_r. split; [done|]. split; [lia|done].
  - destruct (Hcs i c' Hc') as (n' & ? & ? & E'). exists n'. split; [done|]. split; [done|].
    by replace (id + Z.of_nat (S i)) with (id + 1 + Z.of_nat i) by lia.
Qed.

Lemma cinv_new a cid pool n c :
  0 <= pool → 0 <= cid → kMinAllocSize <= n <= kSize → (∀ s h, holds a s h → poolId h < pool) →
  AllocationClass.new cid pool n = inr c →
  cinv a c [] ∧ AllocationClass.classId_ c = cid ∧ AllocationClass.poolId_ c = pool ∧ AllocationClass.allocationSize_ c = n.
Proof.
  intros Hp Hc Hn Hfresh E. unfold AllocationClass.new in E.
  rewrite (proj2 (Z.ltb_ge _ _)), (proj2 (Z.ltb_ge _ _)) in E by lia. injection E as <-. split; [|done].
  split; cbn; try done; try set_solver; [constructor| |constructor].
  intros s h Hh Ep. specialize (Hfresh s h Hh). lia.
Qed.

Lemma zsum_imap_zero (f : nat → Z → Z) l : (∀ i n, f i n = 0) → zsum (imap f l) = 0.
Proof.
  revert f. induction l as [|x l IH]; intros f Hf; [done|]. rewrite imap_cons, zsum_cons, Hf, IH; [done|]. intros i n. apply Hf.
Qed.

Lemma pool_new_ok a id size sizes p :
  0 <= id < 127 → sizes_ok sizes → (∀ s h, holds a s h → poolId h < id) →
  MemoryPool.new id size sizes = inr p →
  pinv a p (λ _, []) ∧ MemoryPool.id_ p = id ∧ MemoryPool.acSizes_ p = sizes ∧ MemoryPool.maxSize_ p = size.
Proof.
  intros Hid [Hs Hct] Hfresh E. unfold MemoryPool.new, MemoryPool.createAllocationClasses in E.
  destruct (MemoryPool.create_classes 0 id sizes) as [|cs] eqn:Ec; [done|].
  destruct (MemoryPool.checkState _); [|done]. injection E as <-.
  destruct (create_classes_spec 0 id sizes cs ltac:(lia) Ec) as [Hlen Hcs]. split; [|done].
  split; cbn; try done; [lia| |constructor|set_solver|].
  - intros i c Hi. destruct (Hcs i c Hi) as (n & Hn & Hb & En).
    destruct (cinv_new a (0 + Z.of_nat i) id n c ltac:(lia) ltac:(lia) Hb Hfresh En) as (CI & -> & -> & ->). done.
  - unfold held_bytes. by rewrite zsum_imap_zero.
Qed.

Lemma in_class_none m L R k i : ca_inv m L R → pools_ m !! k = None → in_class L k i = [].
Proof.
  intros CI Hk. destruct (in_class L k i) as [|x l] eqn:E; [done|]. exfalso.
  assert (x ∈ in_class L k i) as (h & Hh & Ep & _)%elem_of_in_class by (rewrite E; by left).
  destruct (ca_held _ _ _ CI h Hh) as (p & n & Hp & _). congruence.
Qed.

Lemma ongoing_snoc m L ctx q names :
  ongoing m L ctx → ongoing (mk (allocSizes m) (slabAllocator_ m) (pools_ m ++ [q]) names) L ctx.
Proof.
  intros (k & p & i & E1 & Hp & Hrest). exists k, p, i. split; [done|]. split; [|done]. cbn. by apply lookup_app_l_Some.
Qed.

Lemma ca_addPool m L R name size sizes ensure :
  ca_inv m L R → sizes_ok sizes →
  tries (addPool name size sizes ensure) m
    (λ r m', r = nextPoolId_ m ∧ ca_inv m' L R ∧ slabAllocator_ m' = slabAllocator_ m) (λ _ m', m' = m).
Proof.
  intros CI Hs. unfold addPool. apply tries_bind, tries_reads. cbv zeta.
  destruct (kMaxClasses <? _); [by apply tries_throw|]. destruct (ensure && _); [by apply tries_throw|].
  set (sizes' := if bool_decide _ then _ else _).
  assert (sizes_ok sizes') as Hs' by (unfold sizes'; case_bool_decide; [apply (ca_sizes _ _ _ CI)|done]).
  clearbody sizes'. pose proof (ca_count _ _ _ CI) as Hc. unfold kMaxPools in Hc. unfold tries, createNewPool.
  destruct (poolsByName_ m !! name); [by eexists _, m|].
  destruct (Z.eqb_spec (nextPoolId_ m) kMaxPools) as [|Hne]; [by eexists _, m|]. unfold kMaxPools in Hne.
  destruct (getRemainingSizeLocked m <? size); [by eexists _, m|].
  destruct (MemoryPool.new _ _ _) as [e|q] eqn:Eq; [by eexists _, m|]. eexists _, _. split; [reflexivity|].
  assert (0 <= nextPoolId_ m < 127) as Hid by (unfold nextPoolId_ in *; lia).
  destruct (pool_new_ok (slabAllocator_ m) _ _ _ _ Hid Hs' (ca_fresh _ _ _ CI) Eq) as (PI & Eid & _).
  split; [done|]. split; [|done].
  pose proof CI as [C0 C1 C2 CF C3 C4 C5 C6]. split; try done; cbn.
  - unfold nextPoolId_ in *. cbn. rewrite length_app. unfold kMaxPools. cbn. lia.
  - intros s h Hh. apply CF in Hh. unfold nextPoolId_ in *. cbn. rewrite length_app. cbn. lia.
  - intros k p [Hp|[Hk Hp]]%lookup_app_Some; [by apply C3|]. apply list_lookup_singleton_Some in Hp as [Hk' <-].
    assert (k = length (pools_ m)) as -> by lia. split; [done|]. eapply pinv_perm; [|exact PI]. intros i.
    rewrite (in_class_none m L R); [done|done|]. by apply lookup_ge_None.
  - intros h Hh. destruct (C4 h Hh) as (p & n & Hp & Hr). exists p, n. split; [by apply lookup_app_l_Some|done].
  - intros ctx Hctx. by apply ongoing_snoc, C5.
Qed.

(** Changing the size of a pool leaves what it holds. *)
Lemma ca_resize_pool m L R pid size :
  ca_inv m L R → tries (resize_pool pid size) m (λ _ m', ca_inv m' L R) (λ _ m', m' = m).
Proof.
  intros CI. apply tries_pool; [|done]. intros k p -> Hp. apply returns_tries, returns_updates. cbn [fst snd].
  destruct (ca_pool _ _ _ CI k p Hp) as [Ek PI].
  apply (ca_update m L L R k p (MemoryPool.resize size p) (slabAllocator_ m) CI Hp); try done; [apply CI| |by left|].
  - by apply (pinv_counters _ p); [| | | | |apply PI|apply PI].
  - intros ctx Hctx. apply (ongoing_update m L L k p); try done. by apply (ca_release _ _ _ CI).
Qed.

Lemma ca_pool_size m pid (Q : Z → t → Prop) (E : Exn → t → Prop) :
  (∀ size, Q size m) → (∀ e, E e m) → tries (pool_size pid) m Q E.
Proof.
  intros HQ HE. apply tries_pool; [|done]. intros k p _ Hp. apply tries_reads. cbn [fst snd].
  by rewrite put_pool_same.
Qed.

Lemma ca_resizePools m L R src dest bytes :
  ca_inv m L R → tries (resizePools src dest bytes) m (λ _ m', ca_inv m' L R) (λ _ m', ca_inv m' L R).
Proof.
  intros CI. apply tries_bind, ca_pool_size; [|done]. intros size. apply tries_bind, ca_pool_size; [|done]. intros _.
  destruct (size <? bytes); [by apply tries_ret|]. apply tries_bind.
  eapply tries_mono; [by apply (ca_resize_pool _ L R)| |by intros e m' ->]. intros ? m1 CI1.
  apply tries_bind, ca_pool_size; [|done]. intros dsize. apply tries_bind.
  eapply tries_mono; [by apply (ca_resize_pool _ L R)| |by intros e m' ->]. intros ? m2 CI2. by apply tries_ret.
Qed.

Lemma ca_shrinkPool m L R pid bytes :
  ca_inv m L R → tries (shrinkPool pid bytes) m (λ _ m', ca_inv m' L R) (λ _ m', ca_inv m' L R).
Proof.
  intros CI. apply tries_bind, ca_pool_size; [|done]. intros size.
  destruct (size <? bytes); [by apply tries_ret|]. apply tries_bind.
  eapply tries_mono; [by apply (ca_resize_pool _ L R)| |by intros e m' ->]. intros ? m1 CI1. by apply tries_ret.
Qed.

Lemma ca_growPool m L R pid bytes :
  ca_inv m L R → tries (growPool pid bytes) m (λ _ m', ca_inv m' L R) (λ _ m', ca_inv m' L R).
Proof.
  intros CI. apply tries_bind, ca_pool_size; [|done]. intros size. apply tries_bind, tries_reads.
  destruct (_ <? bytes); [by apply tries_ret|]. apply tries_bind.
  eapply tries_mono; [by apply (ca_resize_pool _ L R)| |by intros e m' ->]. intros ? m1 CI1. by apply tries_ret.
Qed.

(** ** Releases *)

Lemma ongoing_header m L R ctx :
  ca_inv m L R → ongoing m L ctx →
  ∃ hd, holds (slabAllocator_ m) (ctx_slab ctx) hd ∧ poolId hd = ctx_pid ctx ∧ classId hd = ctx_victim ctx.
Proof.
  intros CI (k & p & i & E1 & Hp & E2 & _ & Hr & _). destruct (ca_pool _ _ _ CI k p Hp) as [Ek PI].
  destruct (releases_header _ _ _ _ _ PI Hr) as (hd & Hhd & ? & ?). exists hd. split; [done|]. split; congruence.
Qed.

Lemma ca_start m L R rnd abort pid victim receiver mode hint :
  ca_inv m L R → -1 <= victim → -1 <= receiver →
  tries (startSlabRelease rnd abort pid victim receiver mode hint) m
    (λ ctx m', if isReleased ctx then ca_inv m' L R
       else ca_inv m' L (ctx :: R) ∧
         ∀ x, x ∈ activeAllocations ctx ↔ ∃ h, h ∈ L ∧ h_addr h = x ∧ SlabAllocator.getSlabForMemory x = ctx_slab ctx)
    (λ _ m', ca_inv m' L R).
Proof.
  intros CI Hv Hrec. apply tries_pool; [|done]. intros k p -> Hp. destruct (ca_pool _ _ _ CI k p Hp) as [Ek PI].
  eapply tries_mono; [by apply (pool_startSlabRelease_ok _ _ _ _ _ _ p (slabAllocator_ m) (in_class L k)); [apply CI|..]|..].
  - intros ctx [p' a'] (Hk & Hkp & E1 & E2 & E3 & Hmode & Hrel). pose proof (ca_kept m L R k p p' a' CI Hp Hk Hkp) as CI'.
    destruct (isReleased ctx) eqn:Er; [exact CI'|]. destruct (Hrel eq_refl) as (i & Ev & Hnew & Hold & Hact).
    pose proof (lookup_lt_Some _ _ _ Hp) as Hlt. cbn [fst] in *.
    assert (ongoing (put_pool k m (p', a')) L ctx) as Hong.
    { exists k, p', i. unfold put_pool. cbn. rewrite list_lookup_insert_eq by done. rewrite E1, E2, E3. done. }
    split; [pose proof CI' as [C0 C1 C2 CF C3 C4 C5 C6]; split; try done|].
    + intros ctx' [->|?]%elem_of_cons; [done|by apply C5].
    + cbn. apply NoDup_cons. split; [|done]. intros (ctx' & Es & Hin)%list_elem_of_fmap.
      destruct (ongoing_header _ _ _ _ CI' Hong) as (hd & Hhd & E4 & E5).
      destruct (ongoing_header _ _ _ _ CI' (C5 ctx' Hin)) as (hd' & Hhd' & E6 & E7). rewrite <-Es in Hhd'.
      rewrite (holds_det _ _ _ _ Hhd' Hhd) in *.
      destruct (ca_release _ _ _ CI ctx' Hin) as (k0 & p0 & i0 & F1 & F2 & F3 & _ & Hr0 & _).
      assert (k0 = k) as -> by lia. assert (i0 = i) as -> by lia. rewrite Hp in F2. injection F2 as <-. by rewrite Es in Hold.
    + intros x. rewrite Hact. split.
      * intros [(h & Hh & _ & _ & Ea)%elem_of_in_class Es]. by exists h.
      * intros (h & Hh & <- & Es). split; [|done]. apply elem_of_in_class. exists h.
        destruct (held_header _ _ _ h CI' Hh) as (hd & Hhd & E4 & E5 & _). rewrite Es in Hhd.
        destruct (ongoing_header _ _ _ _ CI' Hong) as (hd' & Hhd' & E6 & E7).
        rewrite (holds_det _ _ _ _ Hhd Hhd') in *. split; [done|]. split; [lia|]. split; [lia|done].
  - intros e [p' a'] [Hk Hkp]. by apply (ca_kept m L R k p p' a').
Qed.

(** The release [ctx] is over; the others go on. *)
Lemma ca_released m L R ctx k p i p' a' :
  ca_inv m L (ctx :: R) → ctx_pid ctx = Z.of_nat k → pools_ m !! k = Some p →
  pool_kept p (slabAllocator_ m) (in_class L k) (p', a') → keeps_but i (ctx_slab ctx) p (in_class L k) p' →
  ca_inv (put_pool k m (p', a')) L R.
Proof.
  intros CI E1 Hp (SI & Ho & Hsp & PI & _) Hk. cbn [fst snd] in *.
  destruct (ca_pool _ _ _ CI k p Hp) as [Ek _]. rewrite Ek in Ho.
  pose proof (ca_distinct _ _ _ CI) as Hd. cbn in Hd. apply NoDup_cons in Hd as [Hd _].
  assert (ca_inv m L R) as CI0 by (eapply ca_drop; [exact CI|]; by exists [ctx]).
  apply (ca_update m L L R k p p' a'); try done; [apply Hsp|apply Hsp|by left|]. intros ctx' Hctx.
  apply (ongoing_update m L L k p p' a'); try done; [by apply (ca_release _ _ _ CI0)|].
  intros i' _ _. apply Hk. intros [= -> Es]. apply Hd, list_elem_of_fmap. by exists ctx'.
Qed.

(** The slab of a release has no chunk of another class. *)
Lemma waiting_class m L R ctx k i :
  ca_inv m L R → ongoing m L ctx → ctx_pid ctx = Z.of_nat k → ctx_victim ctx = Z.of_nat i →
  (∀ x, x ∈ in_class L k i → SlabAllocator.getSlabForMemory x ≠ ctx_slab ctx) ↔
  ¬ ∃ h, h ∈ L ∧ SlabAllocator.getSlabForMemory (h_addr h) = ctx_slab ctx.
Proof.
  intros CI Hong E1 E2. destruct (ongoing_header _ _ _ _ CI Hong) as (hd & Hhd & E4 & E5). split.
  - intros Hno (h & Hh & Es). apply (Hno (h_addr h)); [|done]. apply elem_of_in_class. exists h.
    destruct (held_header _ _ _ h CI Hh) as (hd' & Hhd' & E6 & E7 & _). rewrite Es in Hhd'.
    rewrite (holds_det _ _ _ _ Hhd' Hhd) in *. split; [done|]. split; [lia|]. split; [lia|done].
  - intros Hno x (h & Hh & _ & _ & <-)%elem_of_in_class Es. apply Hno. by exists h.
Qed.

Lemma ca_complete m L R ctx :
  ca_inv m L (ctx :: R) →
  let waiting := ∃ h, h ∈ L ∧ SlabAllocator.getSlabForMemory (h_addr h) = ctx_slab ctx in
  tries (completeSlabRelease ctx) m
    (λ r m', if r then ca_inv m' L R ∧ ¬ waiting else m' = m ∧ ¬ ¬ waiting)
    (λ _ m', ca_inv m' L R ∧ ¬ waiting).
Proof.
  intros CI waiting. assert (ongoing m L ctx) as Hong by (apply (ca_release _ _ _ CI); by left).
  pose proof Hong as (k & p & i & E1 & Hp & E2 & Er & Hr & Hrec & Hmode). destruct (ca_pool _ _ _ CI k p Hp) as [Ek PI].
  pose proof (waiting_class m L _ ctx k i CI Hong E1 E2) as Hw. fold waiting in Hw.
  apply tries_pool; [|pose proof (lookup_lt_Some _ _ _ Hp); unfold nextPoolId_; lia].
  intros k' p' Ek' Hp'. assert (k' = k) as -> by lia. rewrite Hp in Hp'. injection Hp' as <-.
  eapply tries_mono; [by apply (pool_completeSlabRelease_ok p _ (in_class L k) ctx i); [apply CI|..]|..].
  - intros r [p' a'] (Hk & Hkb & Hiff & Hf). rewrite Hw in Hiff. destruct r.
    + split; [by eapply ca_released|by apply Hiff].
    + rewrite (Hf eq_refl), put_pool_same by done. split; [done|]. by intros Hn%Hiff.
  - intros e [p' a'] (Hk & Hkb & Hdone). rewrite Hw in Hdone. split; [by eapply ca_released|done].
Qed.

Lemma ca_abort m L R ctx :
  ca_inv m L (ctx :: R) → tries (abortSlabRelease ctx) m (λ _ m', ca_inv m' L R) (λ _ _, False).
Proof.
  intros CI. assert (ongoing m L ctx) as Hong by (apply (ca_release _ _ _ CI); by left).
  pose proof Hong as (k & p & i & E1 & Hp & E2 & Er & Hr & Hrec & Hmode). destruct (ca_pool _ _ _ CI k p Hp) as [Ek PI].
  apply tries_pool; [|pose proof (lookup_lt_Some _ _ _ Hp); unfold nextPoolId_; lia].
  intros k' p' Ek' Hp'. assert (k' = k) as -> by lia. rewrite Hp in Hp'. injection Hp' as <-. apply returns_tries.
  eapply returns_mono; [by apply (pool_abortSlabRelease_ok p _ (in_class L k) ctx i); [apply CI|..]|].
  intros _ [p' a'] [Hk Hkb]. by eapply ca_released.
Qed.
