(* ===== verification/CacheClients.v ===== *)
(** * CacheClients: what clients of CacheLib's memory allocator can rely on

    [exec] runs one call of a client on a MemoryAllocator together with the
    allocations that are held and the slab releases under way; [cache_reachable]
    are the configurations that sequences of calls lead to.  [None] is an access
    outside the headers, a vector or a map. *)

From S2P Require Import Prelude Types Float64 CacheSlab CacheClass CachePool CacheAllocator CacheInv CacheChunks CacheRelease CachePools CacheCorrect.
Import MemoryAllocator.
Open Scope Z_scope.

Definition config : Type := t * list Held * list SlabReleaseContext.

(** [CFree], [CComplete] and [CAbort] name an allocation that is held or a release
    that has been started by its place in the list. *)
Inductive Call :=
  | CAddPool (name : string) (size : Z) (sizes : list Z) (ensureProvisionable : bool)
  | CAllocate (pid size : Z)
  | CFree (n : nat)
  | CResizePools (src dest bytes : Z)
  | CShrinkPool (pid bytes : Z)
  | CGrowPool (pid bytes : Z)
  | CStart (rnd : Z → Z) (abort : nat → bool) (pid victim receiver : Z) (mode : SlabReleaseMode) (hint : option Z)
  | CComplete (n : nat)
  | CAbort (n : nat).

Definition exec (call : Call) (cfg : config) : option config :=
  let '(m, L, R) := cfg in
  match call with
  | CAddPool name size sizes ensure => '(_, m') ← addPool name size sizes ensure m; Some (m', L, R)
  | CAllocate pid size =>
      '(r, m') ← allocate pid size m;
      match r with
      | inr (Some x) => h ← allocated size pid m x; Some (m', h :: L, R)
      | _ => Some (m', L, R)
      end
  | CFree n =>
      match L !! n with
      | None => Some cfg
      | Some h =>
          '(r, m') ← free (h_addr h) m;
          match r with inr _ => Some (m', delete n L, R) | inl _ => Some (m', L, R) end
      end
  | CResizePools src dest bytes => '(_, m') ← resizePools src dest bytes m; Some (m', L, R)
  | CShrinkPool pid bytes => '(_, m') ← shrinkPool pid bytes m; Some (m', L, R)
  | CGrowPool pid bytes => '(_, m') ← growPool pid bytes m; Some (m', L, R)
  | CStart rnd abort pid victim receiver mode hint =>
      '(r, m') ← startSlabRelease rnd abort pid victim receiver mode hint m;
      match r with
      | inr ctx => Some (m', L, if isReleased ctx then R else ctx :: R)
      | inl _ => Some (m', L, R)
      end
  | CComplete n =>
      match R !! n with
      | None => Some cfg
      | Some ctx =>
          '(r, m') ← completeSlabRelease ctx m;
          match r with inr false => Some (m', L, R) | _ => Some (m', L, delete n R) end
      end
  | CAbort n =>
      match R !! n with
      | None => Some cfg
      | Some ctx => '(_, m') ← abortSlabRelease ctx m; Some (m', L, delete n R)
      end
  end.

(** The arguments a caller can pass: a [std::set] is sorted and, here, of at most 127
    sizes, requests are 32-bit, and class ids are [kInvalidClassId] or not negative. *)
Definition call_ok (call : Call) : Prop :=
  match call with
  | CAddPool _ _ sizes _ => sizes_ok sizes
  | CAllocate _ size => is_u32 size
  | CStart _ _ _ victim receiver _ _ => -1 <= victim ∧ -1 <= receiver
  | _ => True
  end.

Inductive cache_reachable : config → Prop :=
  | cache_init sizes headerStart headerSize start size m :
      sizes_ok sizes → is_u64 start → 0 <= size < 2 ^ 56 → start + size <= 2 ^ 64 →
      new sizes headerStart headerSize start size = inr m → cache_reachable (m, [], [])
  | cache_step call cfg cfg' :
      cache_reachable cfg → call_ok call → exec call cfg = Some cfg' → cache_reachable cfg'.

(** ** The invariant along the calls *)

Definition config_inv (cfg : config) : Prop := ca_inv cfg.1.1 cfg.1.2 cfg.2.

Lemma numSlabs_eq size : 0 <= size < 2 ^ 56 → SlabAllocator.numSlabs size = size / kSize.
Proof.
  intros Hs. unfold SlabAllocator.numSlabs. apply u32_small. unfold is_u32. rewrite kSize_eq.
  split; [apply Z.div_pos; lia|apply Z.div_lt_upper_bound; lia].
Qed.

Lemma sa_new_ok hstart hsize start size a :
  is_u64 start → 0 <= size < 2 ^ 56 → start + size <= 2 ^ 64 → SlabAllocator.new hstart hsize start size = inr a →
  sa_inv a ∧ (∀ s, ¬ slab_ok a s) ∧ SlabAllocator.slabMemoryStart_ a = start ∧ SlabAllocator.slabMemorySize_ a = size.
Proof.
  intros Hst Hs He E. unfold SlabAllocator.new in E. rewrite numSlabs_eq in E by done.
  destruct ((hstart =? 0) || _) eqn:E1; [done|]. destruct ((start =? 0) || _) eqn:E2; [done|].
  destruct (negb (size mod kSize =? 0)) eqn:E3; [done|]. injection E as <-.
  apply orb_false_iff in E1 as [E1 E1'], E2 as [E2 E2']. apply negb_false_iff in E2', E3. unfold is_u64 in Hst.
  split; [split; cbn; [split; cbn; lia|constructor|set_solver|done]|]. split; [|done]. intros s [Hn _]. cbn in Hn. lia.
Qed.

Lemma ca_new sizes hstart hsize start size m :
  sizes_ok sizes → is_u64 start → 0 <= size < 2 ^ 56 → start + size <= 2 ^ 64 →
  new sizes hstart hsize start size = inr m →
  ca_inv m [] [] ∧ SlabAllocator.slabMemoryStart_ (slabAllocator_ m) = start ∧
  SlabAllocator.slabMemorySize_ (slabAllocator_ m) = size.
Proof.
  intros Hsort Hst Hs He E. unfold new in E. destruct (SlabAllocator.new _ _ _ _) as [|a] eqn:Ea; [done|].
  destruct (kMaxClasses <? _); [done|]. injection E as <-.
  destruct (sa_new_ok _ _ _ _ _ Hst Hs He Ea) as (SI & Hno & E1 & E2). split; [|done].
  split; cbn; try done; try set_solver; [|constructor]. intros s h [Hok _]. by apply Hno in Hok.
Qed.

Lemma ca_inv_releases_perm m L R1 R2 : R1 ≡ₚ R2 → ca_inv m L R1 → ca_inv m L R2.
Proof. intros HR CI. eapply ca_drop; [exact CI|]. by exists []. Qed.

(** Every call of a client runs, and keeps the invariant. *)
Lemma exec_ok call cfg :
  config_inv cfg → call_ok call → ∃ cfg', exec call cfg = Some cfg' ∧ config_inv cfg'.
Proof.
  destruct cfg as [[m L] R]. unfold config_inv. cbn [fst snd]. intros CI Hok.
  assert (∀ {A} (op : EX t A), tries op m (λ _ m', ca_inv m' L R) (λ _ m', ca_inv m' L R) →
    ∃ cfg', ('(_, m') ← op m; Some (m', L, R)) = Some cfg' ∧ ca_inv cfg'.1.1 cfg'.1.2 cfg'.2) as Hplain.
  { intros A op (r & m' & Eop & Hr). rewrite Eop. eexists. split; [done|]. by destruct r. }
  destruct call; cbn [exec call_ok] in *.
  - apply Hplain. eapply tries_mono; [by apply (ca_addPool m L R)| |by intros ? ? ->]. by intros r m' (_ & ? & _).
  - destruct (ca_allocate m L R pid size CI ltac:(unfold is_u32 in Hok; lia)) as ([e|[x|]] & m' & Ea & Hr); rewrite Ea; cbn.
    + destruct Hr as (_ & -> & _). by eexists.
    + destruct Hr as (_ & h & -> & CI'). by eexists.
    + destruct Hr as (_ & CI' & _). by eexists.
  - destruct (L !! n) as [h|] eqn:Hn; [|by eexists]. pose proof (delete_Permutation _ _ _ Hn) as HP.
    destruct (ca_free m (delete n L) R h) as ([] & m' & Ef & _ & CI'); [by apply (ca_inv_perm m L)|]. rewrite Ef. by eexists.
  - by apply Hplain, ca_resizePools.
  - by apply Hplain, ca_shrinkPool.
  - by apply Hplain, ca_growPool.
  - destruct (ca_start m L R rnd abort pid victim receiver mode hint CI (proj1 Hok) (proj2 Hok)) as ([e|ctx] & m' & Ea & Hr);
      rewrite Ea; eexists; (split; [done|]); [done|]. cbn. destruct (isReleased ctx); [done|apply Hr].
  - destruct (R !! n) as [ctx|] eqn:Hn; [|by eexists]. pose proof (delete_Permutation _ _ _ Hn) as HP.
    destruct (ca_complete m L (delete n R) ctx) as ([e|[]] & m' & Ea & Hr); [by apply (ca_inv_releases_perm m L R)|..];
      rewrite Ea; eexists; (split; [done|]); cbn; [apply Hr|apply Hr|]. by destruct Hr as [-> _].
  - destruct (R !! n) as [ctx|] eqn:Hn; [|by eexists]. pose proof (delete_Permutation _ _ _ Hn) as HP.
    destruct (ca_abort m L (delete n R) ctx) as ([e|[]] & m' & Ea & Hr); [by apply (ca_inv_releases_perm m L R)|done|].
    rewrite Ea. by eexists.
Qed.

Lemma cache_reachable_inv cfg : cache_reachable cfg → config_inv cfg.
Proof.
  induction 1 as [sizes hs hz start size m Hs H1 H2 H3 E|call cfg cfg' _ IH Hok E].
  - by eapply ca_new in E as [? _].
  - destruct (exec_ok call cfg IH Hok) as (cfg'' & E' & ?). rewrite E in E'. by injection E' as <-.
Qed.

(** ** Guarantees *)

Lemma slab_disjoint a s s' x n y n' :
  slab_ok a s → slab_ok a s' → s ≠ s' → s <= x → x + n <= s + kSize → s' <= y → y + n' <= s' + kSize →
  x + n <= y ∨ y + n' <= x.
Proof.
  intros [_ M1] [_ M2] Hne H1 H2 H3 H4. rewrite kSize_eq in *.
  pose proof (Z.div_mod s (2 ^ 24) ltac:(lia)). pose proof (Z.div_mod s' (2 ^ 24) ltac:(lia)). lia.
Qed.

Lemma ca_held_bounds m L R h :
  ca_inv m L R → h ∈ L →
  let a := slabAllocator_ m in let s := SlabAllocator.getSlabForMemory (h_addr h) in
  slab_ok a s ∧ s <= h_addr h ∧ h_addr h + h_size h <= s + kSize ∧
  s + kSize <= SlabAllocator.slabMemoryStart_ a + SlabAllocator.slabMemorySize_ a.
Proof.
  intros CI Hh a s. destruct (held_chunk _ _ _ h CI Hh) as (p & c & _ & _ & _ & _ & Hs & CC & Hch).
  destruct (chunk_bounds (sa_geometry _ (ca_slabs _ _ _ CI)) CC _ Hch) as (Hok & _ & B1 & B2). fold a s in Hok, B1, B2.
  destruct (slab_u64 (sa_geometry _ (ca_slabs _ _ _ CI)) s Hok) as (_ & B3 & _). fold a in B3.
  split; [done|]. split; [done|]. split; [lia|done].
Qed.

Lemma held_pair m L R i j h1 h2 :
  ca_inv m L R → L !! i = Some h1 → L !! j = Some h2 → i ≠ j →
  h_pool h1 = h_pool h2 → h_class h1 = h_class h2 → h_addr h1 ≠ h_addr h2.
Proof.
  intros CI Hi Hj Hij Ep Ec Ea. pose proof (delete_Permutation _ _ _ Hi) as HP.
  assert (h2 ∈ delete i L) as Hin.
  { apply list_elem_of_lookup. destruct (decide (j < i)%nat).
    - exists j. by rewrite list_lookup_delete_lt.
    - exists (pred j). rewrite list_lookup_delete_ge by lia. by replace (S (pred j)) with j by lia. }
  destruct (held_chunk _ _ _ h1 CI) as (p & c & _ & _ & _ & _ & _ & CC & _); [by eapply list_elem_of_lookup_2|].
  rewrite HP, in_class_cons_same, fn_lookup_insert in CC. pose proof (ci_nodup _ _ _ CC) as Hnd.
  apply NoDup_app in Hnd as (_ & _ & Hnd%NoDup_cons). apply (proj1 Hnd). apply elem_of_in_class. exists h2. done.
Qed.

Lemma ca_held_disjoint m L R i j h1 h2 :
  ca_inv m L R → L !! i = Some h1 → L !! j = Some h2 → i ≠ j →
  h_addr h1 + h_size h1 <= h_addr h2 ∨ h_addr h2 + h_size h2 <= h_addr h1.
Proof.
  intros CI Hi Hj Hij.
  pose proof (list_elem_of_lookup_2 _ _ _ Hi) as Hin1. pose proof (list_elem_of_lookup_2 _ _ _ Hj) as Hin2.
  destruct (ca_held_bounds _ _ _ h1 CI Hin1) as (Ok1 & B1 & B2 & _), (ca_held_bounds _ _ _ h2 CI Hin2) as (Ok2 & B4 & B5 & _).
  destruct (decide (SlabAllocator.getSlabForMemory (h_addr h1) = SlabAllocator.getSlabForMemory (h_addr h2))) as [E|Hne].
  2: { by apply (slab_disjoint _ _ _ _ _ _ _ Ok1 Ok2 Hne). }
  destruct (held_header _ _ _ h1 CI Hin1) as (d1 & D1 & P1 & C1 & _), (held_header _ _ _ h2 CI Hin2) as (d2 & D2 & P2 & C2 & _).
  rewrite E in D1. rewrite (holds_det _ _ _ _ D1 D2) in *.
  assert (h_pool h1 = h_pool h2) as Ep by lia. assert (h_class h1 = h_class h2) as Ec by lia.
  destruct (held_chunk _ _ _ h1 CI Hin1) as (p & c & Hp & Hc & _ & _ & S1 & CC & K1).
  destruct (held_chunk _ _ _ h2 CI Hin2) as (p' & c' & Hp' & Hc' & _ & _ & S2 & _ & K2).
  rewrite <-Ep, Hp in Hp'. injection Hp' as <-. rewrite <-Ec, Hc in Hc'. injection Hc' as <-.
  pose proof (chunk_disjoint (sa_geometry _ (ca_slabs _ _ _ CI)) CC _ _ K1 K2 (held_pair _ _ _ _ _ _ _ CI Hi Hj Hij Ep Ec)).
  lia.
Qed.

(** C17: In every configuration that clients of CacheLib's allocator reach, each call runs
    without an access outside the slab headers, the vectors of pools and classes and
    the map of releases. *)
Theorem cache_memory_safe cfg call :
  cache_reachable cfg → call_ok call → is_Some (exec call cfg).
Proof.
  intros Hr Hok. apply cache_reachable_inv in Hr. destruct (exec_ok call cfg Hr Hok) as (cfg' & -> & _). by eexists.
Qed.

(** C18: Allocations held at the same time lie inside the region the allocator was given
    and do not overlap, across classes, pools and slab releases. *)
Theorem cache_allocations_disjoint m L R :
  cache_reachable (m, L, R) →
  let a := slabAllocator_ m in
  (∀ h, h ∈ L → SlabAllocator.slabMemoryStart_ a <= h_addr h ∧
     h_addr h + h_size h <= SlabAllocator.slabMemoryStart_ a + SlabAllocator.slabMemorySize_ a) ∧
  ∀ i j h1 h2, L !! i = Some h1 → L !! j = Some h2 → i ≠ j →
    h_addr h1 + h_size h1 <= h_addr h2 ∨ h_addr h2 + h_size h2 <= h_addr h1.
Proof.
  intros CI%cache_reachable_inv a. unfold config_inv in CI. cbn [fst snd] in CI. split.
  - intros h Hh. destruct (ca_held_bounds _ _ _ h CI Hh) as ([Hs _] & B1 & B2 & B3). fold a in Hs, B3. lia.
  - intros i j h1 h2. by apply (ca_held_disjoint m L R).
Qed.

(** Allocating from an existing pool returns: [invalid_argument] exactly for size 0 and
    sizes above the largest class, a null pointer only when the class of the size has
    neither a freed chunk nor room in a slab and the pool is at its limit or no slab
    is left, and otherwise a chunk that is held from then on. *)
Theorem cache_allocate_outcome m L R k p size :
  cache_reachable (m, L, R) → pools_ m !! k = Some p → is_u32 size →
  ∃ r m', allocate (Z.of_nat k) size m = Some (r, m') ∧
  match r with
  | inl e => e = invalid_argument ∧ m' = m ∧ bad_size p size
  | inr None => ¬ bad_size p size ∧ ∃ i n, class_for p size i n ∧ exhausted p (slabAllocator_ m) i
  | inr (Some x) => ¬ bad_size p size ∧ ∃ h, h_addr h = x ∧ h_size h = size ∧ h_pool h = k ∧ cache_reachable (m', h :: L, R)
  end.
Proof.
  intros Hr Hp Hsz. pose proof (cache_reachable_inv _ Hr) as CI. unfold config_inv in CI. cbn [fst snd] in CI.
  assert (0 <= size) as Hpos by (unfold is_u32 in Hsz; lia).
  destruct (ca_allocate m L R (Z.of_nat k) size CI Hpos) as (r & m' & Ea & Hres). exists r, m'. split; [done|].
  assert (∀ i n, class_for p size i n → size ≠ 0 → ¬ bad_size p size) as Hgood.
  { intros i n (Hi & Hle & _) Hnz [?|HF]; [done|]. apply (Forall_lookup_1 _ _ _ _ HF) in Hi. lia. }
  pose proof (proj2 (ca_pool _ _ _ CI k p Hp)) as PI. pose proof (getAllocationClassId_spec _ _ _ size PI) as HS.
  destruct r as [e|[x|]].
  - destruct Hres as (-> & -> & [Hno|(k' & p' & E & Hp' & Hbad)]).
    + pose proof (lookup_lt_Some _ _ _ Hp). unfold nextPoolId_ in Hno. lia.
    + assert (k' = k) as -> by lia. rewrite Hp in Hp'. by injection Hp' as <-.
  - destruct Hres as (_ & h & Eh & _). pose proof Eh as Eh'. unfold allocated in Eh'. rewrite Nat2Z.id, Hp in Eh'.
    cbn [mbind option_bind] in Eh'. destruct (MemoryPool.getAllocationClassId size p) as [|cid]; [done|]. injection Eh' as <-.
    destruct HS as (i & n & -> & Hnz & Hcf). split; [by eapply Hgood|]. exists (mkHeld k (Z.to_nat (Z.of_nat i)) x size). do 3 (split; [done|]).
    apply (cache_step (CAllocate (Z.of_nat k) size) (m, L, R)); [done|done|]. cbn [exec]. rewrite Ea. cbn [mbind option_bind]. by rewrite Eh.
  - destruct Hres as (_ & _ & k' & p' & i & n & E & Hp' & Hnz & Hcf & Hex). assert (k' = k) as -> by lia.
    rewrite Hp in Hp'. injection Hp' as <-. split; [by eapply Hgood|by exists i, n].
Qed.

(** A chunk of the slab of the release is still held. *)
Definition waiting (L : list Held) (ctx : SlabReleaseContext) : bool :=
  existsb (λ h, SlabAllocator.getSlabForMemory (h_addr h) =? ctx_slab ctx) L.




(** The counter of allocated bytes of a pool is the sum of the class sizes of the
    allocations held from it. *)
Theorem cache_accounting m L R k p :
  cache_reachable (m, L, R) → pools_ m !! k = Some p →
  MemoryPool.currAllocSize_ p = u64 (held_bytes (MemoryPool.acSizes_ p) (in_class L k)).
Proof.
  intros CI%cache_reachable_inv Hp. apply (pi_alloc (slabAllocator_ m)). by apply (ca_pool _ _ _ CI).
Qed.

(** ** A concrete run *)

Definition demo_sizes : list Z := [2 ^ 20; 2 ^ 22; 2 ^ 24].
Definition demo_new : Exn + t := new demo_sizes 1 100 (2 ^ 24) (4 * 2 ^ 24).

Fixpoint exec_all (calls : list Call) (cfg : config) : option config :=
  match calls with [] => Some cfg | call :: rest => exec call cfg ≫= exec_all rest end.

Lemma cache_run calls cfg cfg' :
  cache_reachable cfg → Forall call_ok calls → exec_all calls cfg = Some cfg' → cache_reachable cfg'.
Proof.
  intros Hr HF. revert cfg Hr. induction HF as [|call calls Hok _ IH]; intros cfg Hr E; cbn in E; [by injection E as <-|].
  apply bind_Some in E as (cfg1 & E1 & E2). eapply IH; [|exact E2]. by eapply cache_step.
Qed.

Lemma demo_reachable m calls cfg :
  demo_new = inr m → Forall call_ok calls → exec_all calls (m, [], []) = Some cfg → cache_reachable cfg.
Proof.
  intros Em. apply cache_run. eapply (cache_init demo_sizes); [| | | |exact Em]; [split; [repeat constructor; lia|cbn; lia]|unfold is_u64; lia..].
Qed.

Definition no_rnd : Z → Z := λ _, 0.
Definition no_abort : nat → bool := λ _, false.

(** Two chunks of the first class, one of the second; the slab of the first is being
    moved to the third class. *)
Definition demo_calls : list Call :=
  [CAddPool "main" (2 * 2 ^ 24) [] false; CAllocate 0 100; CAllocate 0 (2 ^ 21); CAllocate 0 (2 ^ 20);
   CStart no_rnd no_abort 0 0 2 kRebalance None].
Definition demo_cfg : option config :=
  match demo_new with inr m => exec_all demo_calls (m, [], []) | inl _ => None end.

Lemma demo_ok cfg : demo_cfg = Some cfg → cache_reachable cfg.
Proof.
  unfold demo_cfg. destruct demo_new as [|m] eqn:Em; [done|]. apply (demo_reachable m demo_calls cfg Em).
  assert (0 <= 100 < 2 ^ 32 ∧ 0 <= 2 ^ 21 < 2 ^ 32 ∧ 0 <= 2 ^ 20 < 2 ^ 32) as (? & ? & ?) by lia.
  unfold demo_calls. repeat (apply Forall_cons_2); [split; [apply SSorted_nil|cbn; lia]|done..|split; lia|apply Forall_nil_2].
Qed.

Definition demo_check : bool :=
  match demo_cfg with
  | Some (m, [_; _; _] as L, [ctx]) => waiting L ctx && (nextPoolId_ m =? 1)
  | _ => false
  end.

Lemma demo_some : ∃ m h1 h2 h3 ctx p, demo_cfg = Some (m, [h1; h2; h3], [ctx]) ∧ waiting [h1; h2; h3] ctx = true ∧
  pools_ m !! 0%nat = Some p.
Proof.
  assert (demo_check = true) as E by (vm_compute; reflexivity). unfold demo_check in E.
  destruct demo_cfg as [[[m [|h1 [|h2 [|h3 [|]]]]] [|ctx [|]]]|]; try done.
  apply andb_true_iff in E as [Ew Ep]. unfold nextPoolId_ in Ep. apply Z.eqb_eq in Ep.
  destruct (pools_ m) as [|p ps] eqn:Eps; [done|]. exists m, h1, h2, h3, ctx, p. by rewrite Eps.
Qed.

Lemma cache_memory_safe_witness : ∃ cfg, demo_cfg = Some cfg ∧ is_Some (exec (CFree 1) cfg).
Proof.
  destruct demo_some as (m & h1 & h2 & h3 & ctx & p & E & _). eexists. split; [exact E|].
  apply cache_memory_safe; [by apply demo_ok|done].
Defined.

Lemma cache_allocations_disjoint_witness : ∃ m h1 h2 h3 ctx, demo_cfg = Some (m, [h1; h2; h3], [ctx]) ∧
  (h_addr h1 + h_size h1 <= h_addr h2 ∨ h_addr h2 + h_size h2 <= h_addr h1).
Proof.
  destruct demo_some as (m & h1 & h2 & h3 & ctx & p & E & _). exists m, h1, h2, h3, ctx. split; [done|].
  destruct (cache_allocations_disjoint _ _ _ (demo_ok _ E)) as [_ Hd]. by apply (Hd 0%nat 1%nat).
Defined.

Lemma cache_allocate_outcome_witness : ∃ m L R, demo_cfg = Some (m, L, R) ∧ ∃ r m', allocate 0 100 m = Some (r, m').
Proof.
  destruct demo_some as (m & h1 & h2 & h3 & ctx & p & E & _ & Hp). do 3 eexists. split; [exact E|].
  destruct (cache_allocate_outcome _ _ _ 0 p 100 (demo_ok _ E) Hp) as (r & m' & Ea & _); [unfold is_u32; lia|].
  by exists r, m'.
Defined.


Lemma cache_accounting_witness : ∃ m L R p, demo_cfg = Some (m, L, R) ∧ pools_ m !! 0%nat = Some p ∧
  MemoryPool.currAllocSize_ p = u64 (held_bytes (MemoryPool.acSizes_ p) (in_class L 0)).
Proof.
  destruct demo_some as (m & h1 & h2 & h3 & ctx & p & E & _ & Hp). do 3 eexists. exists p. split; [exact E|].
  split; [done|]. by apply (cache_accounting _ _ _ 0 p (demo_ok _ E)).
Defined.

(** ** A pool that outgrows its limit *)

(** The only slab is moved to the pool's free list, where it no longer counts, and
    released from there, which counts it off a second time. *)
Definition exceed_calls : list Call :=
  [CAddPool "main" (2 ^ 24) [] false; CAllocate 0 (2 ^ 24); CFree 0;
   CStart no_rnd no_abort 0 2 (-1) kRebalance None; CStart no_rnd no_abort 0 (-1) (-1) kResize None;
   CAllocate 0 (2 ^ 24); CAllocate 0 (2 ^ 24)].
Definition exceed_cfg : option config :=
  match demo_new with inr m => exec_all exceed_calls (m, [], []) | inl _ => None end.

Definition exceed_check : bool :=
  match exceed_cfg with
  | Some (m, [h1; h2], []) =>
      match pools_ m with
      | [p] => (MemoryPool.maxSize_ p =? 2 ^ 24) && (h_size h1 =? 2 ^ 24) && (h_size h2 =? 2 ^ 24)
      | _ => false
      end
  | _ => false
  end.

Lemma exceed_ok cfg : exceed_cfg = Some cfg → cache_reachable cfg.
Proof.
  unfold exceed_cfg. destruct demo_new as [|m] eqn:Em; [done|]. apply (demo_reachable m exceed_calls cfg Em).
  assert (0 <= 2 ^ 24 < 2 ^ 32) as ? by lia.
  unfold exceed_calls. repeat (apply Forall_cons_2); [split; [apply SSorted_nil|cbn; lia]|done|done|split; lia|split; lia|done|done|apply Forall_nil_2].
Qed.

(** A pool of one slab can come to hold two: releasing a slab from the pool's free list
    subtracts its size from the slab counter again, the counter wraps around and the
    limit no longer holds. *)
Theorem pool_exceeds_limit :
  ∃ m L p, cache_reachable (m, L, []) ∧ pools_ m = [p] ∧ MemoryPool.maxSize_ p = kSize ∧
    zsum (h_size <$> L) = 2 * MemoryPool.maxSize_ p.
Proof.
  assert (exceed_check = true) as E by (vm_compute; reflexivity). pose proof exceed_ok as Hok.
  unfold exceed_check in E. revert E Hok. generalize exceed_cfg. intros cfg E Hok.
  destruct cfg as [[[m [|h1 [|h2 [|]]]] [|]]|]; try done.
  destruct (pools_ m) as [|p [|]] eqn:Ep; try done.
  apply andb_true_iff in E as [[E1 E2]%andb_true_iff E3]. apply Z.eqb_eq in E1, E2, E3.
  exists m, [h1; h2], p. split; [by apply Hok|]. split; [done|]. split; [by rewrite E1|].
  cbn. rewrite E1, E2, E3. done.
Qed.

(** ** 128 classes *)

(** The sizes with growth factor 17/16, and an allocation that is freed again: its
    address and the exception [free] throws. *)
Definition fine_sizes : list Z :=
  match generateAllocSizes (f64_div (f64_of_Z 17) (f64_of_Z 16)) kSize 72 false with Some (inr l) => l | _ => [] end.
Definition fine_demo : option (Z * Exn) :=
  match new fine_sizes 1 100 (2 ^ 24) (2 ^ 26) with
  | inr m =>
      '(_, m) ← addPool "main" (2 ^ 26) [] false m;
      '(r, m) ← allocate 0 100 m;
      match r with
      | inr (Some x) => '(r, _) ← free x m; match r with inl e => Some (x, e) | inr _ => None end
      | _ => None
      end
  | inl _ => None
  end.

(** A table of 128 sizes is accepted, and [generateAllocSizes] can produce one, but the
    number of classes does not fit the 8-bit [ClassId] it is cast to: every [free] throws
    and no memory can be given back. *)
Theorem free_throws_with_128_classes :
  Z.of_nat (length fine_sizes) = kMaxClasses ∧ ∃ x, fine_demo = Some (x, runtime_error).
Proof.
  split; [vm_compute; reflexivity|].
  assert (match fine_demo with Some (x, runtime_error) => true | _ => false end = true) as E by (vm_compute; reflexivity).
  revert E. generalize fine_demo. intros [[x []]|] E; try done. by exists x.
Qed.
