(* ===== verification/StorePath.v ===== *)
(** * StorePath: where the disk replica of a key lives

    [SanitizeKey] and [ResolvePath] of master_service.cpp, with the parts of
    [std::filesystem::path] they use (POSIX): appending and
    [lexically_normal].  The hash of the key is a parameter. *)

From S2P Require Import Prelude.
From Stdlib Require Import Ascii.
Open Scope Z_scope.

Definition slash : ascii := "047"%char.
Abbreviation chars := (list ascii) (only parsing).

(** ** std::filesystem::path *)

Fixpoint split_slash (s : chars) : list chars :=
  match s with
  | [] => [[]]
  | c :: s =>
      if decide (c = slash) then [] :: split_slash s
      else match split_slash s with
           | x :: xs => (c :: x) :: xs
           | [] => [[c]]
           end
  end.

Fixpoint join_slash (xs : list chars) : chars :=
  match xs with
  | [] => []
  | [x] => x
  | x :: xs => x ++ slash :: join_slash xs
  end.

Definition is_absolute (p : chars) : bool := bool_decide (head p = Some slash).
Definition has_filename (p : chars) : bool := negb (bool_decide (p = [])) && negb (bool_decide (last p = Some slash)).

(** [operator/] *)
Definition path_append (p q : chars) : chars :=
  if is_absolute q then q else if has_filename p then p ++ slash :: q else p ++ q.

Definition dot : chars := ["."%char].
Definition dotdot : chars := ["."%char; "."%char].

(** One name on top of the names kept so far (in reverse). *)
Definition normal_step (absolute : bool) (stack : list chars) (x : chars) : list chars :=
  if decide (x = [] ∨ x = dot) then stack
  else if decide (x = dotdot) then
    match stack with
    | y :: rest => if decide (y = dotdot) then x :: stack else rest
    | [] => if absolute then [] else [x]
    end
  else x :: stack.

(** The normal form ends in a separator when the last name was empty, a dot, or
    a dot-dot that removed a name. *)
Definition lexically_normal (p : chars) : chars :=
  if decide (p = []) then [] else
  let absolute := is_absolute p in
  let names := split_slash p in
  let kept := rev (foldl (normal_step absolute) [] names) in
  let ends_open := match last names with Some x => bool_decide (x = [] ∨ x = dot ∨ x = dotdot) | None => false end in
  let body := join_slash kept in
  if decide (kept = []) then (if absolute then [slash] else dot)
  else (if absolute then [slash] else []) ++ body
       ++ (if ends_open && negb (bool_decide (last kept = Some dotdot)) then [slash] else []).

(** ** MasterService *)

Definition kInvalidChars : chars :=
  ["047"; "092"; ":"; "*"; "?"; "034"; "<"; ">"; "|"]%char.

Definition SanitizeKey (key : chars) : chars :=
  (λ c, if decide (c ∈ kInvalidChars) then "_"%char else c) <$> key.

Section resolve.
Variable hash : chars → Z.

Definition hash_dir (shift : Z) (key : chars) : chars :=
  [ascii_of_nat (Z.to_nat (97 + Z.land (Z.shiftr (hash key) shift) 15))].

Definition ResolvePath (root_fs_dir cluster_id key : chars) : chars :=
  let dir_path := path_append (hash_dir 0 key) (hash_dir 4 key) in
  let full_path := path_append (path_append (path_append root_fs_dir cluster_id) dir_path) (SanitizeKey key) in
  lexically_normal full_path.

End resolve.

Definition GetFsdir (root_fs_dir cluster_id : chars) : chars :=
  if decide (root_fs_dir = [] ∨ cluster_id = []) then [] else root_fs_dir ++ slash :: cluster_id.

(** ** Paths stay below the cluster's directory *)

(** A name the file system does not interpret. *)
Definition plain (x : chars) : Prop := x ≠ [] ∧ x ≠ dot ∧ x ≠ dotdot ∧ slash ∉ x.

Lemma split_slash_plain x : slash ∉ x → split_slash x = [x].
Proof.
  induction x as [|c x IH]; [done|]. rewrite not_elem_of_cons. intros [Hc Hx]. simpl.
  rewrite decide_False by congruence. by rewrite IH.
Qed.

Lemma split_slash_app x y : slash ∉ x → split_slash (x ++ slash :: y) = x :: split_slash y.
Proof.
  induction x as [|c x IH]; [done|]. rewrite not_elem_of_cons. intros [Hc Hx]. simpl.
  rewrite decide_False by congruence. by rewrite IH.
Qed.

Lemma split_join xs : xs ≠ [] → Forall (λ x, slash ∉ x) xs → split_slash (join_slash xs) = xs.
Proof.
  intros Hne HF. induction HF as [|x xs Hx HF IH]; [done|]. destruct xs as [|y xs]; [by apply split_slash_plain|].
  change (join_slash (x :: y :: xs)) with (x ++ slash :: join_slash (y :: xs)). rewrite split_slash_app by done.
  by rewrite IH.
Qed.

Lemma normal_steps_plain absolute xs stack :
  Forall plain xs → foldl (normal_step absolute) stack xs = rev xs ++ stack.
Proof.
  intros HF. revert stack. induction HF as [|x xs (H1 & H2 & H3 & _) HF IH]; intros stack; [done|]. simpl.
  rewrite IH, <-(assoc (++)). f_equal. unfold normal_step. by rewrite !decide_False by naive_solver.
Qed.

Lemma last_plain xs : Forall plain xs → match last xs with Some x => bool_decide (x = [] ∨ x = dot ∨ x = dotdot) | None => false end = false.
Proof.
  intros HF. destruct (last xs) as [x|] eqn:E; [|done]. apply last_Some_elem_of in E.
  rewrite Forall_forall in HF. destruct (HF x E) as (H1 & H2 & H3 & _). apply bool_decide_eq_false_2. naive_solver.
Qed.

Lemma join_slash_cons x y xs : join_slash (x :: y :: xs) = x ++ slash :: join_slash (y :: xs).
Proof. done. Qed.

(** An absolute path of plain names is its own normal form. *)
Lemma normal_plain xs : xs ≠ [] → Forall plain xs → lexically_normal (slash :: join_slash xs) = slash :: join_slash xs.
Proof.
  intros Hne HF. unfold lexically_normal. rewrite decide_False by done.
  change (is_absolute (slash :: join_slash xs)) with true.
  assert (split_slash (slash :: join_slash xs) = [] :: xs) as ->.
  { simpl. rewrite split_join; [done|done|]. eapply Forall_impl; [exact HF|]. by intros x (_ & _ & _ & ?). }
  cbn [foldl]. change (normal_step true [] []) with (@nil chars).
  rewrite normal_steps_plain by done. rewrite app_nil_r, rev_involutive. rewrite decide_False by done.
  assert (last ([] :: xs) = last xs) as -> by (by destruct xs). rewrite last_plain by done. simpl. by rewrite app_nil_r.
Qed.

Lemma join_slash_app xs ys : xs ≠ [] → ys ≠ [] → join_slash (xs ++ ys) = join_slash xs ++ slash :: join_slash ys.
Proof.
  intros Hx Hy. induction xs as [|x xs IH]; [done|]. destruct xs as [|x' xs].
  - destruct ys as [|y ys]; [done|]. done.
  - change ((x :: x' :: xs) ++ ys) with (x :: x' :: (xs ++ ys)). rewrite !join_slash_cons.
    change (x' :: (xs ++ ys)) with ((x' :: xs) ++ ys). rewrite IH by done. by rewrite <-(assoc (++)).
Qed.

Lemma join_slash_last xs : xs ≠ [] → Forall plain xs → ∃ c, last (join_slash xs) = Some c ∧ c ≠ slash.
Proof.
  intros Hne HF. induction HF as [|x xs (H1 & _ & _ & H4) HF IH]; [done|]. destruct xs as [|y xs].
  - simpl. destruct (last x) as [c|] eqn:E; [|by apply last_None in E]. exists c. split; [done|].
    intros ->. by apply last_Some_elem_of in E.
  - rewrite join_slash_cons. destruct IH as (c & E & Hc); [done|]. exists c. split; [|done].
    rewrite last_app, last_cons, E. done.
Qed.

Lemma join_slash_head xs : Forall plain xs → is_absolute (join_slash xs) = false.
Proof.
  intros HF. apply bool_decide_eq_false_2. destruct HF as [|x xs (H1 & _ & _ & H4) HF]; [done|].
  destruct x as [|c x]; [done|]. rewrite not_elem_of_cons in H4. destruct xs; simpl; naive_solver.
Qed.

Lemma path_append_plain xs ys :
  xs ≠ [] → ys ≠ [] → Forall plain xs → Forall plain ys →
  path_append (slash :: join_slash xs) (join_slash ys) = slash :: join_slash (xs ++ ys).
Proof.
  intros Hx Hy HFx HFy. unfold path_append. rewrite join_slash_head by done.
  destruct (join_slash_last xs Hx HFx) as (c & E & Hc). unfold has_filename.
  rewrite last_cons, E. simpl. rewrite bool_decide_eq_false_2 by congruence. simpl. by rewrite join_slash_app.
Qed.

Lemma sanitize_no_slash key : slash ∉ SanitizeKey key.
Proof.
  unfold SanitizeKey. intros (c & E & _)%list_elem_of_fmap. case_decide as Hc; [done|]. subst c.
  apply Hc. unfold kInvalidChars, slash. left.
Qed.

Lemma sanitize_dots n key : SanitizeKey key = replicate n "."%char → key = replicate n "."%char.
Proof.
  revert n. induction key as [|c key IH]; intros [|n] E; try done. simpl in E. injection E as E1 E2.
  simpl. f_equal; [|by apply IH]. by case_decide.
Qed.

Lemma sanitize_plain key : key ∉ [[]; dot; dotdot] → plain (SanitizeKey key).
Proof.
  rewrite !not_elem_of_cons. intros (H0 & H1 & H2 & _). split_and!; [| | |apply sanitize_no_slash].
  - intros E. by apply (sanitize_dots 0) in E.
  - intros E. by apply (sanitize_dots 1) in E.
  - intros E. by apply (sanitize_dots 2) in E.
Qed.

Lemma hash_dir_plain hash shift key : plain (hash_dir hash shift key).
Proof.
  assert (∀ n, (n <= 15)%nat → plain [ascii_of_nat (97 + n)]) as H.
  { intros n Hn. do 16 (destruct n as [|n]; [split_and!; try done; by vm_compute; set_solver|]). lia. }
  unfold hash_dir. set (z := Z.land _ 15).
  assert (0 <= z < 2 ^ 4) as Hz.
  { unfold z. change 15 with (Z.ones 4). rewrite Z.land_ones by lia. by apply Z.mod_pos_bound. }
  replace (Z.to_nat (97 + z)) with (97 + Z.to_nat z)%nat by lia. apply H. lia.
Qed.

Lemma resolve_plain (hash : chars → Z) root cluster key :
  root ≠ [] → Forall plain root → plain cluster → key ∉ [[]; dot; dotdot] →
  ResolvePath hash (slash :: join_slash root) cluster key =
    slash :: join_slash (root ++ [cluster; hash_dir hash 0 key; hash_dir hash 4 key; SanitizeKey key]).
Proof.
  intros Hne HF Hc Hk. unfold ResolvePath.
  pose proof (hash_dir_plain hash 0 key) as H0. pose proof (hash_dir_plain hash 4 key) as H4.
  pose proof (sanitize_plain key Hk) as Hs.
  assert (path_append (hash_dir hash 0 key) (hash_dir hash 4 key) = join_slash [hash_dir hash 0 key; hash_dir hash 4 key]) as ->.
  { unfold path_append. pose proof (join_slash_head [hash_dir hash 4 key] ltac:(by constructor)) as E. simpl in E. rewrite E.
    destruct H0 as (_ & _ & _ & H0). unfold hash_dir in H0 |- *. set (c := ascii_of_nat (Z.to_nat (97 + Z.land (Z.shiftr (hash key) 0) 15))) in *.
    unfold has_filename. rewrite (bool_decide_eq_false_2 (last [c] = Some slash)); [done|].
    simpl. intros [= Ec]. apply H0. rewrite Ec. left. }
  change cluster with (join_slash [cluster]) at 1. change (SanitizeKey key) with (join_slash [SanitizeKey key]) at 1.
  assert (Forall plain [cluster]) as Fc by auto using Forall_cons_2, Forall_nil_2.
  assert (Forall plain [hash_dir hash 0 key; hash_dir hash 4 key]) as Fd by auto using Forall_cons_2, Forall_nil_2.
  assert (Forall plain [SanitizeKey key]) as Fk by auto using Forall_cons_2, Forall_nil_2.
  rewrite (path_append_plain root [cluster]) by done.
  rewrite (path_append_plain (root ++ [cluster])); [|by destruct root|done|by apply Forall_app_2|done].
  rewrite (path_append_plain ((root ++ [cluster]) ++ _)); [|by destruct root|done|by repeat apply Forall_app_2|done].
  rewrite normal_plain; [by rewrite <-!(assoc (++))|by destruct root|by repeat apply Forall_app_2].
Qed.

(** The disk replica of a key lies two hashed directories below the cluster's
    directory, under the sanitized key, whatever characters the key has: no key
    but the empty one and the two dot names can name another place. *)
Theorem resolve_below_cluster (hash : chars → Z) root cluster key :
  root ≠ [] → Forall plain root → plain cluster → key ∉ [[]; dot; dotdot] →
  ResolvePath hash (slash :: join_slash root) cluster key =
    slash :: join_slash (root ++ [cluster; hash_dir hash 0 key; hash_dir hash 4 key; SanitizeKey key]).
Proof. apply resolve_plain. Qed.

Definition demo_chars (s : string) : chars := String.list_ascii_of_string s.

Lemma resolve_below_cluster_witness :
  ResolvePath (λ _, 33) (demo_chars "/mnt/store") (demo_chars "c0") (demo_chars "model/layer:3")
  = demo_chars "/mnt/store/c0/b/c/model_layer_3".
Proof.
  change (demo_chars "/mnt/store") with (slash :: join_slash [demo_chars "mnt"; demo_chars "store"]).
  rewrite (resolve_below_cluster (λ _, 33) [demo_chars "mnt"; demo_chars "store"] (demo_chars "c0")); [reflexivity|done| | |].
  - repeat constructor; try done; vm_compute; set_solver.
  - repeat constructor; try done; vm_compute; set_solver.
  - vm_compute. set_solver.
Defined.

(** Sanitizing maps different keys to one file: keys that differ only in
    forbidden characters share the path whenever the low byte of their hashes
    agrees. *)
Theorem resolve_collides (hash : chars → Z) root cluster (k1 := demo_chars "a/b") (k2 := demo_chars "a:b") :
  hash k1 mod 256 = hash k2 mod 256 →
  k1 ≠ k2 ∧ ResolvePath hash root cluster k1 = ResolvePath hash root cluster k2.
Proof.
  intros Hh. split; [done|]. unfold ResolvePath.
  assert (∀ s, s = 0 ∨ s = 4 → hash_dir hash s k1 = hash_dir hash s k2) as Hd.
  { intros s Hs. unfold hash_dir. do 4 f_equal. apply Z.bits_inj'. intros i Hi. change 15 with (Z.ones 4).
    rewrite !Z.land_spec, Z.testbit_ones_nonneg by lia. destruct (Z.ltb_spec i 4); [|by rewrite !andb_false_r].
    rewrite !Z.shiftr_spec by lia. change 256 with (2 ^ 8) in Hh.
    rewrite <-(Z.mod_pow2_bits_low (hash k1) 8), <-(Z.mod_pow2_bits_low (hash k2) 8), Hh by lia. done. }
  rewrite !Hd by auto. done.
Qed.

Lemma resolve_collides_witness :
  ResolvePath (λ k, Z.of_nat (length k)) (demo_chars "/mnt") (demo_chars "c0") (demo_chars "a/b") =
  ResolvePath (λ k, Z.of_nat (length k)) (demo_chars "/mnt") (demo_chars "c0") (demo_chars "a:b").
Proof. apply (resolve_collides (λ k, Z.of_nat (length k))). reflexivity. Defined.
