(* ===== verification/BufferAllocator.v ===== *)
(** * BufferAllocator: the allocators behind a mounted segment

    [BufferAllocatorBase] (allocator.h) is the interface the segment manager and
    the allocation strategy work against; here it is a class of operations with
    a class of laws.  [OffsetBufferAllocator] (allocator.cpp) is the instance
    built on the offset allocator; CachelibAllocator has the one built on CacheLib. *)

From S2P Require Import Prelude Types OffsetAllocator OffsetHandles.
Open Scope Z_scope.

(** ** The interface

    [A] is the allocator object and [H] what a buffer keeps in order to be
    released.  The mutex or the atomics of an implementation make each
    operation one step on [A]; a result of [None] from [ba_create] is an
    exception of the constructor, one from [ba_allocate] a null pointer;
    [ba_deallocate] returns [false] when it caught an exception. *)

Class BufferAllocator (A H : Type) := {
  ba_kind : BufferAllocatorType;
  ba_create : string → Z → Z → string → option A;
  ba_allocate : Z → ST A (option (Z * H));
  ba_deallocate : Z → Z → H → ST A bool;
  ba_capacity : A → Z;
  ba_size : A → Z;
  ba_segment_name : A → string;
  ba_endpoint : A → string;
  ba_largest : A → Z;
}.

(** What does not change over the life of an allocator. *)
Definition ba_ident {A H} `{BufferAllocator A H} (a : A) : string * string * Z :=
  (ba_segment_name a, ba_endpoint a, ba_capacity a).

(** A live buffer as its allocator sees it: address, size, handle. *)
Abbreviation held H := (Z * Z * H)%type (only parsing).
Definition held_ptr {H} (b : held H) : Z := fst (fst b).
Definition held_size {H} (b : held H) : Z := snd (fst b).
Definition held_handle {H} (b : held H) : H := snd b.
Definition held_total {H} (L : list (held H)) : Z := foldr Z.add 0 (held_size <$> L).

(** The sizes an allocator is asked for: PutStart lets slices up to [kMaxSliceSize]
    through to CacheLib, and requests are below 2^63 in any case. *)
Definition max_request {A H} `{BufferAllocator A H} : Z :=
  match ba_kind with CACHELIB => kMaxSliceSize | OFFSET => 2 ^ 63 end.

Class BufferAllocatorLaws (A H : Type) `{BufferAllocator A H} := {
  ba_base : A → Z;
  ba_inv : A → list (held H) → Prop;
  ba_inv_perm a : Proper ((≡ₚ) ==> iff) (ba_inv a);
  ba_create_ok name base size endpoint a :
    is_u64 base → is_u64 size → base + size <= 2 ^ 64 →
    ba_create name base size endpoint = Some a →
    ba_inv a [] ∧ ba_ident a = (name, endpoint, size) ∧ ba_base a = base;
  ba_allocate_ok a L n :
    ba_inv a L → 0 < n <= max_request →
    runs (ba_allocate n) a (λ r a',
      ba_ident a' = ba_ident a ∧ ba_base a' = ba_base a ∧
      match r with
      | Some (p, h) => ba_inv a' ((p, n, h) :: L)
      | None => ba_inv a' L
      end);
  ba_deallocate_ok a p n h L :
    ba_inv a ((p, n, h) :: L) →
    runs (ba_deallocate p n h) a (λ ok a',
      ok = true ∧ ba_ident a' = ba_ident a ∧ ba_base a' = ba_base a ∧ ba_inv a' L);
  ba_inside a L b :
    ba_inv a L → b ∈ L → ba_base a <= held_ptr b ∧ held_ptr b + held_size b <= ba_base a + ba_capacity a;
  ba_disjoint a L i j b1 b2 :
    ba_inv a L → L !! i = Some b1 → L !! j = Some b2 → i ≠ j →
    held_ptr b1 + held_size b1 <= held_ptr b2 ∨ held_ptr b2 + held_size b2 <= held_ptr b1;
  ba_size_ok a L : ba_inv a L → ba_size a = u64 (held_total L);
}.
#[export] Existing Instance ba_inv_perm.

(** ** OffsetBufferAllocator *)

Record OffsetBufferAllocator := mkOffsetBufferAllocator {
  ob_segment_name : string;
  ob_base : Z;
  ob_total_size : Z;
  ob_cur_size : Z;
  ob_endpoint : string;
  ob_allocator : option Wrapper;
}.

Definition ob_update (w : option Wrapper) (n : Z) (o : OffsetBufferAllocator) : OffsetBufferAllocator :=
  mkOffsetBufferAllocator (ob_segment_name o) (ob_base o) (ob_total_size o) n (ob_endpoint o) w.

(** [1k <= init_capacity <= 64k] and [1M <= max_capacity <= 64M] nodes. *)
Definition ob_init_capacity (size : Z) : Z := Z.min (Z.max (size / 4096) 1024) (64 * 1024).
Definition ob_max_capacity (size : Z) : Z := Z.min (Z.max (size / 1024) (1024 * 1024)) (64 * 1024 * 1024).

Definition ob_create (segment_name : string) (base size : Z) (transport_endpoint : string)
    : option OffsetBufferAllocator :=
  w ← create base size (u32 (ob_init_capacity size)) (u32 (ob_max_capacity size));
  Some (mkOffsetBufferAllocator segment_name base size 0 transport_endpoint (Some w)).

Definition ob_allocate (size : Z) : ST OffsetBufferAllocator (option (Z * grant)) := λ o,
  match ob_allocator o with
  | None => Some (None, o)
  | Some w =>
      '(allocation_handle, w') ← wallocate size w;
      match allocation_handle with
      | None => Some (None, ob_update (Some w') (ob_cur_size o) o)
      | Some g => Some (Some (g_base g, g), ob_update (Some w') (u64 (ob_cur_size o + size)) o)
      end
  end.

(** [handle->offset_handle_.reset()] runs the handle's destructor. *)
Definition ob_deallocate (ptr size : Z) (handle : grant) : ST OffsetBufferAllocator bool := λ o,
  match ob_allocator o with
  | None => Some (true, ob_update None (u64 (ob_cur_size o - size)) o)
  | Some w =>
      '(_, w') ← freeAllocation (g_alloc handle) (g_size handle) w;
      Some (true, ob_update (Some w') (u64 (ob_cur_size o - size)) o)
  end.

Definition ob_getLargestFreeRegion (o : OffsetBufferAllocator) : Z :=
  match ob_allocator o with
  | None => 0
  | Some w => largestFreeRegion (wstorageReport w)
  end.

#[export] Instance OffsetBuffer : BufferAllocator OffsetBufferAllocator grant := {
  ba_kind := OFFSET;
  ba_create := ob_create;
  ba_allocate := ob_allocate;
  ba_deallocate := ob_deallocate;
  ba_capacity := ob_total_size;
  ba_size := ob_cur_size;
  ba_segment_name := ob_segment_name;
  ba_endpoint := ob_endpoint;
  ba_largest := ob_getLargestFreeRegion;
}.

(** The buffers of the segment are the grants of the offset allocator. *)
Record ob_inv (o : OffsetBufferAllocator) (L : list (held grant)) : Prop := {
  obi_allocator : ∃ w, ob_allocator o = Some w ∧ winv w (held_handle <$> L) ∧
    m_base w = ob_base o ∧ m_capacity w = ob_total_size o;
  obi_held b : b ∈ L → held_ptr b = g_base (held_handle b) ∧ held_size b = g_size (held_handle b);
  obi_cur : ob_cur_size o = u64 (held_total L);
}.

Lemma held_total_cons {H} (b : held H) L : held_total (b :: L) = held_size b + held_total L.
Proof. done. Qed.

#[export] Instance held_total_perm {H} : Proper ((≡ₚ) ==> eq) (@held_total H).
Proof. intros L1 L2 Hp. unfold held_total. apply sum_Permutation. by rewrite Hp. Qed.

#[export] Instance ob_inv_perm o : Proper ((≡ₚ) ==> iff) (ob_inv o).
Proof.
  assert (∀ L1 L2, L1 ≡ₚ L2 → ob_inv o L1 → ob_inv o L2) as H;
    [|intros L1 L2 Hp; split; apply H; [|symmetry]; done].
  intros L1 L2 Hp [(w & E & HW & Hb & Hc) H2 H3]. split.
  - exists w. split; [done|]. split; [|done]. eapply winv_perm; [|exact HW]. by rewrite Hp.
  - intros b. rewrite <-Hp. apply H2.
  - by rewrite <-Hp.
Qed.

Lemma ob_create_ok name base size endpoint o :
  is_u64 base → is_u64 size → base + size <= 2 ^ 64 →
  ob_create name base size endpoint = Some o →
  ob_inv o [] ∧ ba_ident o = (name, endpoint, size) ∧ ob_base o = base.
Proof.
  intros Hb Hs Hbs (w & E & E2)%bind_Some. simplify_eq/=.
  destruct (create_ok base size (u32 (ob_init_capacity size)) (u32 (ob_max_capacity size)))
    as (w' & E' & HW & Hbase & Hcap); [done..| | |].
  - rewrite u32_small; unfold is_u32, ob_init_capacity; lia.
  - rewrite !u32_small by (unfold is_u32, ob_init_capacity, ob_max_capacity; lia).
    unfold ob_init_capacity, ob_max_capacity, unused. lia.
  - rewrite E in E'. simplify_eq. split; [|done]. split; simpl; [eauto|set_solver|done].
Qed.

Lemma ob_allocate_ok o L n :
  ob_inv o L → 0 < n <= max_request →
  runs (ob_allocate n) o (λ r o',
    ba_ident o' = ba_ident o ∧ ob_base o' = ob_base o ∧
    match r with Some (p, h) => ob_inv o' ((p, n, h) :: L) | None => ob_inv o' L end).
Proof.
  intros [(w & E & HW & Hb & Hc) H2 H3] Hn. unfold runs, ob_allocate. rewrite E.
  assert (no_wrap w n) as Hnw.
  { split; [lia|]. pose proof (wi_bits _ _ HW).
    assert (2 ^ m_multiplier_bits w <= 2 ^ 33) by (apply Z.pow_le_mono_r; lia). change (0 < n <= 2 ^ 63) in Hn. lia. }
  destruct (wallocate_ok w _ n HW Hnw) as (r & w' & Ea & Eb & Ec & _ & HW'). simpl. rewrite Ea. simpl.
  destruct r as [g|]; simpl; (eexists _, _; split; [reflexivity|]); (split; [done|]); (split; [done|]).
  - destruct HW' as [HW' Eg]. split.
    + exists w'. split; [done|]. split; [exact HW'|]. simpl. split; congruence.
    + intros b [->|Hb']%elem_of_cons; [done|by apply H2].
    + simpl. rewrite H3, u64_add_l, held_total_cons. f_equal. unfold held_size. simpl. lia.
  - split; [|done|done]. exists w'. split; [done|]. split; [done|]. simpl. split; congruence.
Qed.

Lemma ob_deallocate_ok o p n h L :
  ob_inv o ((p, n, h) :: L) →
  runs (ob_deallocate p n h) o (λ ok o',
    ok = true ∧ ba_ident o' = ba_ident o ∧ ob_base o' = ob_base o ∧ ob_inv o' L).
Proof.
  intros [(w & E & HW & Hb & Hc) H2 H3]. unfold runs, ob_deallocate. rewrite E.
  destruct (freeAllocation_ok w [] h (fmap (M := list) held_handle L) HW) as ([] & w' & Ef & Eb & Ec & _ & HW').
  simpl. rewrite Ef. simpl. eexists _, _. split; [reflexivity|]. split; [done|]. split; [done|]. split; [done|]. split.
  - exists w'. split; [done|]. split; [done|]. simpl. split; congruence.
  - intros b Hb'. apply H2. by right.
  - simpl. rewrite H3, u64_sub_l, held_total_cons. f_equal. unfold held_size. simpl. lia.
Qed.

#[export] Instance OffsetBufferLaws : BufferAllocatorLaws OffsetBufferAllocator grant.
Proof.
  refine {| ba_base := ob_base; ba_inv := ob_inv; ba_create_ok := ob_create_ok;
            ba_allocate_ok := ob_allocate_ok; ba_deallocate_ok := ob_deallocate_ok |}.
  - intros a L b [(w & E & HW & Hb & Hc) H2 _] Hin. destruct (H2 b Hin) as [-> ->]. simpl. rewrite <-Hb, <-Hc.
    eapply winv_grant; [done|]. by apply list_elem_of_fmap_2.
  - intros a L i j b1 b2 [(w & E & HW & _) H2 _] Hi Hj Hij.
    destruct (H2 b1 (list_elem_of_lookup_2 _ _ _ Hi)) as [-> ->].
    destruct (H2 b2 (list_elem_of_lookup_2 _ _ _ Hj)) as [-> ->].
    by eapply (winv_disjoint w _ i j); [done|rewrite list_lookup_fmap, ?Hi, ?Hj..|].
  - by intros a L [_ _ H].
Defined.
