(* ===== verification/CachelibAllocator.v ===== *)
(** * CachelibAllocator: the allocators built on CacheLib

    [CachelibBufferAllocator] and [SimpleAllocator] of allocator.cpp, on the model of
    CacheLib's memory allocator.  The first is an instance of the interface the
    segment manager works against. *)

From S2P Require Import Prelude Types CacheSlab CacheClass CachePool CacheAllocator CacheInv CacheChunks.
From S2P Require Import CachePools CacheCorrect CacheClients BufferAllocator.
Open Scope Z_scope.

(** The sizes [generateAllocSizes()] computes. *)
Definition cachelib_sizes : list Z := match default_sizes with Some (inr l) => l | _ => [] end.

(** The header region; a [size_t] times an [unsigned int], plus one. *)
Definition header_region_size (size : Z) : Z := u64 (sizeof_SlabHeader * u32 (size / kSize) + 1).

(** Both constructors build the allocator over the region and add the pool.  The
    address of the header region only has to be non-null, which [make_unique] grants;
    [None] is an exception. *)
Definition main_pool (base size : Z) : option (Z * MemoryAllocator.t) :=
  match MemoryAllocator.new cachelib_sizes 1 (header_region_size size) base size with
  | inl _ => None
  | inr m =>
      match MemoryAllocator.addPool "main" size [] false m with
      | Some (inr pool_id, m') => Some (pool_id, m')
      | _ => None
      end
  end.

(** ** CachelibBufferAllocator *)

Record CachelibBufferAllocator := mkCachelib {
  cb_segment_name : string;
  cb_base : Z;
  cb_total_size : Z;
  cb_cur_size : Z;
  cb_endpoint : string;
  cb_memory_allocator : MemoryAllocator.t;
  cb_pool_id : Z;
}.

Definition cb_update (m : MemoryAllocator.t) (n : Z) (c : CachelibBufferAllocator) : CachelibBufferAllocator :=
  mkCachelib (cb_segment_name c) (cb_base c) (cb_total_size c) n (cb_endpoint c) m (cb_pool_id c).

Definition cb_create (segment_name : string) (base size : Z) (transport_endpoint : string)
    : option CachelibBufferAllocator :=
  '(pool_id, m) ← main_pool base size;
  Some (mkCachelib segment_name base size 0 transport_endpoint m pool_id).

(** [MemoryAllocator::allocate] takes a 32-bit size. *)
Definition cb_allocate (size : Z) : ST CachelibBufferAllocator (option (Z * unit)) := λ c,
  let padding_size := Z.max size kMinSliceSize in
  '(r, m) ← MemoryAllocator.allocate (cb_pool_id c) (u32 padding_size) (cb_memory_allocator c);
  match r with
  | inr (Some buffer) => Some (Some (buffer, tt), cb_update m (u64 (cb_cur_size c + size)) c)
  | _ => Some (None, cb_update m (cb_cur_size c) c)
  end.

Definition cb_deallocate (ptr size : Z) (_ : unit) : ST CachelibBufferAllocator bool := λ c,
  '(r, m) ← MemoryAllocator.free ptr (cb_memory_allocator c);
  match r with
  | inr _ => Some (true, cb_update m (u64 (cb_cur_size c - size)) c)
  | inl _ => Some (false, cb_update m (cb_cur_size c) c)
  end.

Definition kAllocatorUnknownFreeSpace : Z := 2 ^ 64 - 1.

#[export] Instance CachelibBuffer : BufferAllocator CachelibBufferAllocator unit := {
  ba_kind := CACHELIB;
  ba_create := cb_create;
  ba_allocate := cb_allocate;
  ba_deallocate := cb_deallocate;
  ba_capacity := cb_total_size;
  ba_size := cb_cur_size;
  ba_segment_name := cb_segment_name;
  ba_endpoint := cb_endpoint;
  ba_largest := λ _, kAllocatorUnknownFreeSpace;
}.

(** ** SimpleAllocator

    The memory comes from [aligned_alloc], whose result is the argument [base]. *)

Record SimpleAllocator := mkSimple {
  si_base : Z;
  si_memory_allocator : MemoryAllocator.t;
  si_pool_id : Z;
}.

Definition si_create (base size : Z) : option SimpleAllocator :=
  if base =? 0 then None else
  '(pool_id, m) ← main_pool base size;
  Some (mkSimple base m pool_id).

Definition si_allocate (size : Z) : ST SimpleAllocator (option Z) := λ s,
  let padding_size := Z.max size kMinSliceSize in
  '(r, m) ← MemoryAllocator.allocate (si_pool_id s) (u32 padding_size) (si_memory_allocator s);
  Some (match r with inr ptr => ptr | inl _ => None end, mkSimple (si_base s) m (si_pool_id s)).

Definition si_deallocate (ptr : Z) : ST SimpleAllocator unit := λ s,
  if ptr =? 0 then Some (tt, s) else
  '(_, m) ← MemoryAllocator.free ptr (si_memory_allocator s);
  Some (tt, mkSimple (si_base s) m (si_pool_id s)).

(** ** The table of sizes *)

Fixpoint strictly_increasing (l : list Z) : bool :=
  match l with
  | x :: (y :: _) as rest => (x <? y) && strictly_increasing rest
  | _ => true
  end.

Lemma strictly_increasing_sorted l : strictly_increasing l = true → StronglySorted Z.lt l.
Proof.
  intros Hl. apply Sorted_StronglySorted; [intros x y z; lia|].
  induction l as [|x [|y l] IH]; [constructor|by repeat constructor|]. cbn in Hl. apply andb_true_iff in Hl as [E Hl].
  constructor; [by apply IH|]. constructor. lia.
Qed.

Lemma cachelib_sizes_ok : sizes_ok cachelib_sizes.
Proof.
  split; [apply strictly_increasing_sorted; vm_compute; reflexivity|]. apply Nat.leb_le. vm_compute. reflexivity.
Qed.
#[global] Opaque cachelib_sizes.

(** ** The laws of the interface *)

Definition padded (b : held unit) : Z * Z := (held_ptr b, Z.max (held_size b) kMinSliceSize).
Definition held_range (h : Held) : Z * Z := (h_addr h, h_size h).

(** The buffers of the segment are allocations of the memory allocator, padded to the
    smallest size it serves. *)
Record cb_inv (c : CachelibBufferAllocator) (L : list (held unit)) : Prop := {
  cbi_allocator : ∃ HL, ca_inv (cb_memory_allocator c) HL [] ∧ held_range <$> HL = padded <$> L;
  cbi_base : SlabAllocator.slabMemoryStart_ (MemoryAllocator.slabAllocator_ (cb_memory_allocator c)) = cb_base c;
  cbi_size : SlabAllocator.slabMemorySize_ (MemoryAllocator.slabAllocator_ (cb_memory_allocator c)) = cb_total_size c;
  cbi_cur : cb_cur_size c = u64 (held_total L);
}.

Lemma cb_inv_perm_1 c L1 L2 : L1 ≡ₚ L2 → cb_inv c L1 → cb_inv c L2.
Proof.
  intros HL [(HL1 & CI & E) H2 H3 H4]. split; [|done|done|by rewrite <-HL].
  assert (padded <$> L2 ≡ₚ held_range <$> HL1) as HP by (by rewrite E, HL).
  apply Permutation_map_inv in HP as (HL2 & E2 & HP). exists HL2. split; [|done]. by eapply ca_inv_perm.
Qed.

Lemma remaining_bound m : MemoryAllocator.pools_ m = [] → MemoryAllocator.getRemainingSizeLocked m < 2 ^ 56.
Proof.
  intros E. unfold MemoryAllocator.getRemainingSizeLocked. rewrite E. cbn [foldl]. rewrite Z.sub_0_r.
  unfold SlabAllocator.getNumUsableSlabs. set (x := _ / kSize). pose proof (u32_range x) as Hx. unfold is_u32 in Hx.
  rewrite kSize_eq, (u64_small (u32 x * 2 ^ 24)), u64_small by (unfold is_u64; lia). lia.
Qed.

Lemma new_no_pools sizes hs hz start size m : MemoryAllocator.new sizes hs hz start size = inr m → MemoryAllocator.pools_ m = [].
Proof.
  unfold MemoryAllocator.new. destruct (SlabAllocator.new _ _ _ _); [done|]. destruct (_ <? _); [done|]. by intros [= <-].
Qed.

(** Adding a pool bounds the size of the region by what 32-bit slab counts can express. *)
Lemma addPool_fits name size m r m' :
  MemoryAllocator.addPool name size [] false m = Some (inr r, m') → size <= MemoryAllocator.getRemainingSizeLocked m.
Proof.
  unfold MemoryAllocator.addPool, mbind, ex_bind, reads. cbn [andb]. rewrite bool_decide_true by done.
  destruct (kMaxClasses <? _); [done|]. unfold MemoryAllocator.createNewPool.
  destruct (MemoryAllocator.poolsByName_ _ !! name); [done|]. destruct (_ =? kMaxPools); [done|].
  destruct (_ <? size) eqn:E; [done|]. intros _. apply Z.ltb_ge in E. exact E.
Qed.

(** The pool is added only to a region whose slabs can be counted in 32 bits. *)
Lemma main_pool_ok base size pid m :
  is_u64 base → is_u64 size → base + size <= 2 ^ 64 → main_pool base size = Some (pid, m) →
  ca_inv m [] [] ∧ SlabAllocator.slabMemoryStart_ (MemoryAllocator.slabAllocator_ m) = base ∧
  SlabAllocator.slabMemorySize_ (MemoryAllocator.slabAllocator_ m) = size.
Proof.
  intros Hb Hs He E. unfold main_pool in E. destruct (MemoryAllocator.new _ _ _ _ _) as [|m0] eqn:Em; [done|].
  destruct (MemoryAllocator.addPool _ _ _ _ _) as [[[|pid'] m']|] eqn:Ep; [done| |done]. injection E as <- <-.
  assert (0 <= size < 2 ^ 56) as Hsz.
  { pose proof (addPool_fits _ _ _ _ _ Ep). pose proof (remaining_bound m0 (new_no_pools _ _ _ _ _ _ Em)).
    unfold is_u64 in Hs. lia. }
  destruct (ca_new _ _ _ _ _ _ cachelib_sizes_ok Hb Hsz He Em) as (CI & E1 & E2).
  destruct (ca_addPool m0 [] [] "main" size [] false CI (conj (SSorted_nil _) (Nat.le_0_l _))) as (r & m1 & Ep' & Hr).
  rewrite Ep in Ep'. injection Ep' as <- <-. destruct Hr as (_ & CI' & Ea). by rewrite Ea.
Qed.

Lemma allocated_range size pid m x h : allocated size pid m x = Some h → held_range h = (x, size).
Proof.
  unfold allocated. intros (p & _ & E)%bind_Some. destruct (MemoryPool.getAllocationClassId size p); [done|]. by injection E as <-.
Qed.

Lemma cb_create_ok name base size endpoint c :
  is_u64 base → is_u64 size → base + size <= 2 ^ 64 → cb_create name base size endpoint = Some c →
  cb_inv c [] ∧ ba_ident c = (name, endpoint, size) ∧ cb_base c = base.
Proof.
  intros Hb Hs He ([pid m] & Em & E)%bind_Some. injection E as <-.
  destruct (main_pool_ok base size pid m Hb Hs He Em) as (CI & E1 & E2). split; [|done]. split; [|done..]. by exists [].
Qed.

Lemma cb_allocate_ok c L n :
  cb_inv c L → 0 < n <= max_request →
  runs (cb_allocate n) c (λ r c', ba_ident c' = ba_ident c ∧ cb_base c' = cb_base c ∧
    match r with Some (p, h) => cb_inv c' ((p, n, h) :: L) | None => cb_inv c' L end).
Proof.
  intros [(HL & CI & E) H2 H3 H4] Hn. change (0 < n <= kMaxSliceSize) in Hn. unfold runs, cb_allocate. cbv zeta.
  rewrite u32_small by (unfold is_u32, kMaxSliceSize, kMinSliceSize, kSlabSize in *; lia).
  assert (0 <= Z.max n kMinSliceSize) as Hpos by lia.
  destruct (ca_allocate _ HL [] (cb_pool_id c) (Z.max n kMinSliceSize) CI Hpos) as (r & m & Ea & Hr).
  rewrite Ea. cbn [mbind option_bind]. destruct r as [e|[x|]].
  - destruct Hr as (_ & -> & _). eexists _, _. split; [done|]. split; [done|]. split; [done|]. split; [by exists HL|done..].
  - destruct Hr as ([R1 R2] & h & Eh & CI'). eexists _, _. split; [done|]. split; [done|]. split; [done|].
    split; cbn [cb_memory_allocator cb_base cb_total_size cb_cur_size cb_update]; [|congruence..|].
    + exists (h :: HL). split; [done|]. cbn. rewrite (allocated_range _ _ _ _ _ Eh). by f_equal.
    + rewrite H4, u64_add_l, held_total_cons. f_equal. unfold held_size. cbn. lia.
  - destruct Hr as ([R1 R2] & CI' & _). eexists _, _. split; [done|]. split; [done|]. split; [done|].
    split; cbn [cb_memory_allocator cb_base cb_total_size cb_cur_size cb_update]; [by exists HL|congruence..|done].
Qed.

Lemma cb_deallocate_ok c p n h L :
  cb_inv c ((p, n, h) :: L) →
  runs (cb_deallocate p n h) c (λ ok c', ok = true ∧ ba_ident c' = ba_ident c ∧ cb_base c' = cb_base c ∧ cb_inv c' L).
Proof.
  intros [(HL & CI & E) H2 H3 H4]. unfold runs, cb_deallocate. destruct HL as [|h0 HL]; [done|].
  cbn in E. injection E as Ep En E. change (h_addr h0 = p) in Ep.
  destruct (ca_free _ HL [] h0 CI) as (u & m & Ef & [R1 R2] & CI'). rewrite Ep in Ef. rewrite Ef. cbn [mbind option_bind].
  eexists _, _. split; [done|]. split; [done|]. split; [done|]. split; [done|]. split; cbn [cb_memory_allocator cb_base cb_total_size cb_cur_size cb_update]; [by exists HL|congruence..|].
  rewrite H4, u64_sub_l, held_total_cons. f_equal. unfold held_size. cbn. lia.
Qed.

#[export] Instance CachelibBufferLaws : BufferAllocatorLaws CachelibBufferAllocator unit.
Proof.
  refine {| ba_base := cb_base; ba_inv := cb_inv; ba_create_ok := cb_create_ok;
            ba_allocate_ok := cb_allocate_ok; ba_deallocate_ok := cb_deallocate_ok |}.
  - intros c L1 L2 HL. split; apply cb_inv_perm_1; [|symmetry]; done.
  - intros c L b [(HL & CI & E) H2 H3 _] Hb. apply (list_elem_of_fmap_2 padded) in Hb. rewrite <-E in Hb.
    apply list_elem_of_fmap in Hb as (h & Eh & Hh). injection Eh as E1 E2.
    destruct (ca_held_bounds _ _ _ h CI Hh) as ([Hs _] & B1 & B2 & B3). change (ba_capacity c) with (cb_total_size c). lia.
  - intros c L i j b1 b2 [(HL & CI & E) _ _ _] Hi Hj Hij.
    assert (∀ k b, L !! k = Some b → ∃ h, HL !! k = Some h ∧ held_ptr b = h_addr h ∧ held_size b <= h_size h) as Hl.
    { intros k b Hk. apply (f_equal (λ l, l !! k)) in E. rewrite !list_lookup_fmap, Hk in E. cbn in E.
      destruct (HL !! k) as [h|]; [|done]. injection E as E1 E2. exists h. split; [done|]. split; [done|lia]. }
    destruct (Hl i b1 Hi) as (h1 & H1 & -> & S1), (Hl j b2 Hj) as (h2 & H2 & -> & S2).
    pose proof (ca_held_disjoint _ _ _ i j h1 h2 CI H1 H2 Hij). lia.
  - by intros c L [].
Defined.

(** ** Sizes beyond 32 bits

    PutStart keeps such sizes from a CachelibBufferAllocator; SimpleAllocator takes any. *)

Definition wide_request : Z := 2 ^ 32 + 100.
Definition truncation_demo : option (option Z * option Z) :=
  s ← si_create (2 ^ 24) (2 ^ 25);
  '(x, s) ← si_allocate wide_request s;
  '(y, s) ← si_allocate 100 s;
  Some (x, y).

(** SimpleAllocator passes a 64-bit size to a 32-bit parameter: a request of 4 GiB and
    100 bytes in a region of 32 MiB is answered with a buffer, and the next buffer
    starts inside it. *)
Theorem simple_allocator_truncates :
  ∃ x y, truncation_demo = Some (Some x, Some y) ∧ x < y < x + wide_request.
Proof.
  assert (match truncation_demo with Some (Some x, Some y) => (x <? y) && (y <? x + wide_request) | _ => false end = true) as E
    by (vm_compute; reflexivity).
  revert E. generalize truncation_demo. intros [[[x|] [y|]]|] E; try done.
  apply andb_true_iff in E as [E1 E2]. exists x, y. split; [done|]. lia.
Qed.
