(* ===== verification/Replica.v ===== *)
(** * Replica: buffers, replicas and object metadata

    allocator.h/.cpp ([AllocatedBuffer]), replica.h ([Replica] and its
    descriptors), the gauges of master_metric_manager.cpp, and the
    [ObjectMetadata] of master_service.h.

    Allocators are shared objects: the [World] maps the number of every
    allocator that some shared pointer keeps alive to its state.  A buffer's
    weak pointer is such a number; numbers are never reused, so a weak pointer
    to a dead allocator stays expired.  The metrics singleton is the other part
    of the [World]. *)

From S2P Require Import Prelude Types BufferAllocator.
Open Scope Z_scope.

(** ** Metrics

    The gauges of [MasterMetricManager] the store updates; [retry_counter] is the
    counter [RandomAllocationStrategy] keeps. *)

Inductive Gauge :=
| mem_allocated_size | mem_total_capacity | file_allocated_size | file_total_capacity
| key_count | soft_pin_key_count | active_clients
| eviction_success | eviction_attempts | evicted_key_count | evicted_size
| retry_counter.

#[export] Instance Gauge_eq_dec : EqDecision Gauge.
Proof. solve_decision. Defined.

Definition Metrics : Type := Gauge → Z.
Definition no_metrics : Metrics := λ _, 0.
Definition inc (g : Gauge) (v : Z) (m : Metrics) : Metrics :=
  λ g', if decide (g' = g) then m g' + v else m g'.
Definition dec (g : Gauge) (v : Z) : Metrics → Metrics := inc g (- v).

(** ** The world of shared objects *)

Record World (A : Type) := mkWorld {
  heap : gmap positive A;
  next_id : positive;
  metrics : Metrics;
}.
#[global] Arguments mkWorld {A}.
#[global] Arguments heap {A}.
#[global] Arguments next_id {A}.
#[global] Arguments metrics {A}.

Definition set_heap {A} (h : gmap positive A) (w : World A) : World A := mkWorld h (next_id w) (metrics w).
Definition set_metrics {A} (f : Metrics → Metrics) (w : World A) : World A :=
  mkWorld (heap w) (next_id w) (f (metrics w)).

(** ** Buffers and replicas *)

Record AllocatedBuffer (H : Type) := mkBuffer {
  ab_allocator : positive;
  ab_ptr : Z;
  ab_size : Z;
  ab_handle : H;
}.
#[global] Arguments mkBuffer {H}.
#[global] Arguments ab_allocator {H}.
#[global] Arguments ab_ptr {H}.
#[global] Arguments ab_size {H}.
#[global] Arguments ab_handle {H}.

Inductive ReplicaType := MEMORY | DISK.
Inductive ReplicaStatus := RS_UNDEFINED | INITIALIZED | PROCESSING | COMPLETE | REMOVED | FAILED.

#[export] Instance ReplicaType_eq_dec : EqDecision ReplicaType.
Proof. solve_decision. Defined.
#[export] Instance ReplicaStatus_eq_dec : EqDecision ReplicaStatus.
Proof. solve_decision. Defined.

Record ReplicateConfig := mkReplicateConfig {
  replica_num : Z;
  with_soft_pin : bool;
  preferred_segment : string;
  prefer_alloc_in_same_node : bool;
}.

Inductive ReplicaData (H : Type) :=
| MemoryReplicaData (buffers : list (AllocatedBuffer H))
| DiskReplicaData (file_path : string) (object_size : Z).
#[global] Arguments MemoryReplicaData {H}.
#[global] Arguments DiskReplicaData {H}.

Record Replica (H : Type) := mkReplica { data_ : ReplicaData H; status_ : ReplicaStatus }.
#[global] Arguments mkReplica {H}.
#[global] Arguments data_ {H}.
#[global] Arguments status_ {H}.

Record BufferDescriptor := mkBufferDescriptor {
  d_size : Z; d_buffer_address : Z; d_transport_endpoint : string }.

Inductive DescriptorVariant :=
| MemoryDescriptor (buffer_descriptors : list BufferDescriptor)
| DiskDescriptor (file_path : string) (object_size : Z).

Record Descriptor := mkDescriptor { descriptor_variant : DescriptorVariant; d_status : ReplicaStatus }.

Section buffers.
Context {A H : Type} `{!BufferAllocator A H}.

Abbreviation World := (World A).
Abbreviation AllocatedBuffer := (AllocatedBuffer H).
Abbreviation Replica := (Replica H).

(** [allocator_.lock()] *)
Definition lock (w : World) (b : AllocatedBuffer) : option A := heap w !! ab_allocator b.
Definition isAllocatorValid (w : World) (b : AllocatedBuffer) : bool := bool_decide (is_Some (lock w b)).

Definition getSegmentName (w : World) (b : AllocatedBuffer) : string :=
  match lock w b with Some alloc => ba_segment_name alloc | None => EmptyString end.

Definition buffer_get_descriptor (w : World) (b : AllocatedBuffer) : BufferDescriptor :=
  let endpoint := match lock w b with Some alloc => ba_endpoint alloc | None => EmptyString end in
  mkBufferDescriptor (ab_size b) (ab_ptr b) endpoint.

(** A call [alloc->allocate(size)] through a shared pointer, with the metric
    both implementations update. *)
Definition heap_allocate (id : positive) (size : Z) : ST World (option AllocatedBuffer) := λ w,
  alloc ← heap w !! id;
  '(r, alloc') ← ba_allocate size alloc;
  let w' := set_heap (<[id := alloc']> (heap w)) w in
  match r with
  | None => Some (None, w')
  | Some (p, h) => Some (Some (mkBuffer id p size h), set_metrics (inc mem_allocated_size size) w')
  end.

(** [~AllocatedBuffer] *)
Definition destroy_buffer (b : AllocatedBuffer) : ST World unit := λ w,
  match lock w b with
  | Some alloc =>
      '(ok, alloc') ← ba_deallocate (ab_ptr b) (ab_size b) (ab_handle b) alloc;
      let w' := set_heap (<[ab_allocator b := alloc']> (heap w)) w in
      Some (tt, if (ok : bool) then set_metrics (dec mem_allocated_size (ab_size b)) w' else w')
  | None => Some (tt, set_metrics (dec mem_allocated_size (ab_size b)) w)
  end.

Fixpoint destroy_buffers (bs : list AllocatedBuffer) : ST World unit :=
  match bs with
  | [] => mret tt
  | b :: bs => destroy_buffer b;; destroy_buffers bs
  end.

Definition replica_buffers (r : Replica) : list AllocatedBuffer :=
  match data_ r with MemoryReplicaData buffers => buffers | DiskReplicaData _ _ => [] end.

(** Destroying replicas destroys the buffers they own, in order. *)
Definition destroy_replicas (rs : list Replica) : ST World unit := destroy_buffers (rs ≫= replica_buffers).

Definition type (r : Replica) : ReplicaType :=
  match data_ r with MemoryReplicaData _ => MEMORY | DiskReplicaData _ _ => DISK end.

Definition has_invalid_mem_handle (w : World) (r : Replica) : bool :=
  match data_ r with
  | MemoryReplicaData buffers => existsb (λ b, negb (isAllocatorValid w b)) buffers
  | DiskReplicaData _ _ => false
  end.

Definition mark_complete (r : Replica) : Replica :=
  match status_ r with
  | PROCESSING => mkReplica (data_ r) COMPLETE
  | _ => r
  end.

Definition get_descriptor (w : World) (r : Replica) : Descriptor :=
  mkDescriptor
    (match data_ r with
     | MemoryReplicaData buffers => MemoryDescriptor (buffer_get_descriptor w <$> buffers)
     | DiskReplicaData file_path object_size => DiskDescriptor file_path object_size
     end) (status_ r).

Definition get_segment_names (w : World) (r : Replica) : list (option string) :=
  match data_ r with
  | MemoryReplicaData buffers =>
      (λ b, if isAllocatorValid w b then Some (getSegmentName w b) else None) <$> buffers
  | DiskReplicaData _ _ => []
  end.
End buffers.

(** ** Object metadata

    Time points are nanoseconds of the steady clock; the lease times are given
    in milliseconds.  The clock is an argument of the operations that read it. *)

Record ObjectMetadata (H : Type) := mkObjectMetadata {
  replicas : list (Replica H);
  size : Z;
  lease_timeout : Z;
  soft_pin_timeout : option Z;
  disk_replica_size : Z;
}.
#[global] Arguments mkObjectMetadata {H}.
#[global] Arguments replicas {H}.
#[global] Arguments size {H}.
#[global] Arguments lease_timeout {H}.
#[global] Arguments soft_pin_timeout {H}.
#[global] Arguments disk_replica_size {H}.

Definition milliseconds (n : Z) : Z := n * 1000000.
Definition seconds (n : Z) : Z := n * 1000000000.

Section metadata.
Context {A H : Type} `{!BufferAllocator A H}.
Implicit Types (o : ObjectMetadata H) (r : Replica H).

Definition set_replicas (rs : list (Replica H)) o : ObjectMetadata H :=
  mkObjectMetadata rs (size o) (lease_timeout o) (soft_pin_timeout o) (disk_replica_size o).

Definition disk_size (r : Replica H) : Z :=
  match data_ r with DiskReplicaData _ object_size => object_size | MemoryReplicaData _ => 0 end.

Definition soft_pin_count o : Z := if bool_decide (is_Some (soft_pin_timeout o)) then 1 else 0.

(** The gauges the constructor and the destructor move. *)
Definition metadata_created o (m : Metrics) : Metrics :=
  inc file_allocated_size (disk_replica_size o) (inc soft_pin_key_count (soft_pin_count o) (inc key_count 1 m)).
Definition metadata_destroyed o (m : Metrics) : Metrics :=
  dec file_allocated_size (disk_replica_size o) (dec soft_pin_key_count (soft_pin_count o) (dec key_count 1 m)).

Definition new_metadata (value_length : Z) (reps : list (Replica H)) (enable_soft_pin : bool)
    : ST (World A) (ObjectMetadata H) :=
  let o := mkObjectMetadata reps value_length 0 (if enable_soft_pin then Some 0 else None)
             (foldl (λ acc r, u64 (acc + disk_size r)) 0 reps) in
  modify (set_metrics (metadata_created o));;
  mret o.

(** [~ObjectMetadata]: the destructor's body, then the members. *)
Definition destroy_metadata o : ST (World A) unit :=
  modify (set_metrics (metadata_destroyed o));;
  destroy_replicas (replicas o).

Definition HasDiffRepStatus (status : ReplicaStatus) (replica_type : ReplicaType) o : option ReplicaStatus :=
  status_ <$> List.find (λ r, bool_decide (status_ r ≠ status ∧ type r = replica_type)) (replicas o).

Definition GrantLease (now ttl soft_ttl : Z) o : ObjectMetadata H :=
  mkObjectMetadata (replicas o) (size o) (Z.max (lease_timeout o) (now + milliseconds ttl))
    ((λ t, Z.max t (now + milliseconds soft_ttl)) <$> soft_pin_timeout o) (disk_replica_size o).

(** [EraseReplica] destroys the replicas it removes. *)
Definition EraseReplica (replica_type : ReplicaType) o : ST (World A) (ObjectMetadata H) :=
  destroy_replicas (filter (λ r, type r = replica_type) (replicas o));;
  mret (set_replicas (filter (λ r, type r ≠ replica_type) (replicas o)) o).

Definition HasMemReplica o : bool := existsb (λ r, bool_decide (type r = MEMORY)) (replicas o).
Definition GetMemReplicaCount o : Z := Z.of_nat (length (filter (λ r, type r = MEMORY) (replicas o))).
Definition IsLeaseExpired (now : Z) o : bool := lease_timeout o <=? now.
Definition IsSoftPinned (now : Z) o : bool :=
  match soft_pin_timeout o with Some t => now <? t | None => false end.
Definition IsValid o : bool := negb (bool_decide (replicas o = [])) && (0 <? size o).
Definition IsAllReplicasComplete o : bool := forallb (λ r, bool_decide (status_ r = COMPLETE)) (replicas o).
End metadata.
