(* ===== verification/ReplicaHeap.v ===== *)
(** * ReplicaHeap: who owns which buffer

    [heap_ok w bs]: the buffers [bs] are all the buffer objects there are.  Every
    live allocator's invariant holds for exactly its own buffers, and the
    allocated-memory gauge is their total size.  [world_ok] adds the metadata
    objects with the gauges their constructors and destructors keep.  The
    lemmas say what allocation and destruction do to this account, so that the
    components above never look inside an allocator. *)

From S2P Require Import Prelude Types BufferAllocator Replica.
Open Scope Z_scope.

Lemma inc_eq g v m : inc g v m g = m g + v.
Proof. unfold inc. by rewrite decide_True. Qed.
Lemma inc_ne g g' v m : g' ≠ g → inc g v m g' = m g'.
Proof. intros. unfold inc. by rewrite decide_False. Qed.

Section heap.
Context {A B : Type} {ops : BufferAllocator A B} {laws : BufferAllocatorLaws A B}.
Implicit Types (w : World A) (b : AllocatedBuffer B) (bs : list (AllocatedBuffer B)).

Definition as_held b : held B := (ab_ptr b, ab_size b, ab_handle b).
Definition held_by (id : positive) bs : list (held B) := as_held <$> filter (λ b, ab_allocator b = id) bs.

Record heap_ok w bs : Prop := {
  ho_inv id a : heap w !! id = Some a → ba_inv a (held_by id bs);
  ho_heap id : is_Some (heap w !! id) → (id < next_id w)%positive;
  ho_bufs b : b ∈ bs → (ab_allocator b < next_id w)%positive;
  ho_total : metrics w mem_allocated_size = zsum (ab_size <$> bs);
}.

(** The allocators are the same objects, whatever they have handed out. *)
Definition same_heap w w' : Prop :=
  (∀ id, (λ a, (ba_ident a, ba_base a)) <$> heap w' !! id = (λ a, (ba_ident a, ba_base a)) <$> heap w !! id) ∧
  next_id w' = next_id w.

(** Allocating and destroying buffers moves two gauges. *)
Definition buffer_gauge (g : Gauge) : bool :=
  match g with mem_allocated_size | retry_counter => true | _ => false end.

Definition frame w w' : Prop :=
  same_heap w w' ∧ ∀ g, buffer_gauge g = false → metrics w' g = metrics w g.

#[export] Instance same_heap_preorder : PreOrder same_heap.
Proof.
  split; [done|]. intros w1 w2 w3 [H1 H2] [H3 H4]. split; [|congruence]. intros id. by rewrite H3, H1.
Qed.

#[export] Instance same_heap_symmetric : Symmetric same_heap.
Proof. intros w w' [H1 H2]. split; [|done]. intros id. by rewrite H1. Qed.

#[export] Instance frame_preorder : PreOrder frame.
Proof.
  split; [done|]. intros w1 w2 w3 [H1 H2] [H3 H4]. split; [by etrans|].
  intros g Hg. by rewrite H4, H2.
Qed.

Lemma same_heap_set_metrics f w : same_heap w (set_metrics f w).
Proof. done. Qed.

Lemma same_heap_valid w w' b : same_heap w w' → isAllocatorValid w' b = isAllocatorValid w b.
Proof.
  intros [Hh _]. unfold isAllocatorValid, lock. apply bool_decide_ext.
  specialize (Hh (ab_allocator b)). split; intros [a E]; rewrite E in Hh.
  - by destruct (heap w !! _); eauto.
  - by destruct (heap w' !! _); eauto.
Qed.

Lemma same_heap_segment w w' b : same_heap w w' → getSegmentName w' b = getSegmentName w b.
Proof.
  intros [Hh _]. unfold getSegmentName, lock. specialize (Hh (ab_allocator b)).
  destruct (heap w !! _), (heap w' !! _); try done. simpl in Hh. unfold ba_ident in Hh. by simplify_eq.
Qed.

Lemma same_heap_descriptor w w' b : same_heap w w' → buffer_get_descriptor w' b = buffer_get_descriptor w b.
Proof.
  intros [Hh _]. unfold buffer_get_descriptor, lock. specialize (Hh (ab_allocator b)).
  destruct (heap w !! _), (heap w' !! _); try done. simpl in Hh. unfold ba_ident in Hh. f_equal. by simplify_eq.
Qed.

Lemma get_descriptor_same w w' (r : Replica B) : same_heap w w' → get_descriptor w' r = get_descriptor w r.
Proof.
  intros HS. unfold get_descriptor. f_equal. destruct (data_ r); [|done]. f_equal.
  apply list_fmap_ext. intros _ b _. by apply same_heap_descriptor.
Qed.

Lemma same_heap_is_Some w w' id : same_heap w w' → is_Some (heap w' !! id) ↔ is_Some (heap w !! id).
Proof. intros [Hh _]. specialize (Hh id). by destruct (heap w !! id), (heap w' !! id). Qed.

Lemma same_heap_name w w' id a :
  same_heap w w' → heap w !! id = Some a →
  ∃ a', heap w' !! id = Some a' ∧ ba_segment_name a' = ba_segment_name a.
Proof.
  intros [Hs _] E. specialize (Hs id). rewrite E in Hs. destruct (heap w' !! id) as [a'|]; [|done].
  exists a'. split; [done|]. simpl in Hs. unfold ba_ident in Hs. by simplify_eq.
Qed.

#[export] Instance held_by_perm id : Proper ((≡ₚ) ==> (≡ₚ)) (held_by id).
Proof. intros l1 l2 Hp. unfold held_by. by rewrite Hp. Qed.

#[export] Instance heap_ok_perm w : Proper ((≡ₚ) ==> iff) (heap_ok w).
Proof.
  assert (∀ l1 l2, l1 ≡ₚ l2 → heap_ok w l1 → heap_ok w l2) as HP;
    [|intros l1 l2 Hp; split; apply HP; [|symmetry]; done].
  intros l1 l2 Hp [H1 H2 H3 H4]. split; [|done| |by rewrite <-Hp].
  - intros id a E. eapply ba_inv_perm; [|by apply H1]. by rewrite Hp.
  - intros b. rewrite <-Hp. apply H3.
Qed.

Lemma held_by_cons id b bs :
  held_by id (b :: bs) = (if decide (ab_allocator b = id) then [as_held b] else []) ++ held_by id bs.
Proof. unfold held_by. rewrite filter_cons. by case_decide. Qed.

Lemma heap_insert_same w id a a' :
  heap w !! id = Some a → ba_ident a' = ba_ident a → ba_base a' = ba_base a →
  same_heap w (set_heap (<[id := a']> (heap w)) w).
Proof.
  intros E Hi Hb. split; [|done]. intros id'. simpl. destruct (decide (id' = id)) as [->|Hne].
  - rewrite lookup_insert_eq, E. simpl. congruence.
  - by rewrite lookup_insert_ne.
Qed.

(** The account after one allocator moved from [bs] to [bs']. *)
Lemma heap_ok_insert w id a a' bs bs' f :
  heap_ok w bs → heap w !! id = Some a → ba_inv a' (held_by id bs') →
  (∀ id', id' ≠ id → held_by id' bs' = held_by id' bs) →
  (∀ b, b ∈ bs' → b ∈ bs ∨ ab_allocator b = id) →
  f (metrics w) mem_allocated_size = zsum (ab_size <$> bs') →
  heap_ok (set_metrics f (set_heap (<[id := a']> (heap w)) w)) bs'.
Proof.
  intros [H1 H2 H3 H4] E HI Hne Hb Ht. split; simpl; [| | |done].
  - intros id' a1 E1. destruct (decide (id' = id)) as [->|Hn].
    + rewrite lookup_insert_eq in E1. by simplify_eq.
    + rewrite lookup_insert_ne in E1 by done. rewrite Hne by done. by apply H1.
  - intros id' Hs. apply H2. destruct (decide (id' = id)) as [->|Hn]; [by rewrite E|].
    by rewrite lookup_insert_ne in Hs.
  - intros b [Hin| <-]%Hb; [by apply H3|]. apply H2. by rewrite E.
Qed.

Lemma heap_allocate_ok w bs id n :
  heap_ok w bs → is_Some (heap w !! id) → 0 < n <= max_request →
  runs (heap_allocate id n) w (λ r w', frame w w' ∧
    match r with
    | None => heap_ok w' bs
    | Some b => heap_ok w' (b :: bs) ∧ ab_allocator b = id ∧ ab_size b = n
    end).
Proof.
  intros HO [a E] Hn. unfold runs, heap_allocate. rewrite E. simpl.
  destruct (ba_allocate_ok a _ n (ho_inv _ _ HO _ _ E) Hn) as (r & a' & Ea & Hi & Hb & HI). rewrite Ea. simpl.
  destruct r as [[p h]|]; (eexists _, _; split; [reflexivity|]).
  - split; [split; [by eapply heap_insert_same|]|].
    { intros g Hg. simpl. rewrite inc_ne; [done|by intros ->]. }
    split; [|done]. apply (heap_ok_insert w id a a' bs); try done.
    + by rewrite held_by_cons, decide_True.
    + intros id' Hne. by rewrite held_by_cons, decide_False.
    + intros b [->|]%elem_of_cons; auto.
    + rewrite inc_eq, (ho_total _ _ HO), fmap_cons, zsum_cons. simpl. lia.
  - split; [split; [by eapply heap_insert_same|done]|].
    apply (heap_ok_insert w id a a' bs bs (λ m, m)); try done; [auto|]. apply (ho_total _ _ HO).
Qed.

Lemma destroy_buffer_ok w b bs :
  heap_ok w (b :: bs) → runs (destroy_buffer b) w (λ _ w', frame w w' ∧ heap_ok w' bs).
Proof.
  intros HO. unfold runs, destroy_buffer, lock.
  assert (∀ id, id ≠ ab_allocator b → held_by id bs = held_by id (b :: bs)) as Hne
    by (intros id Hid; by rewrite held_by_cons, decide_False).
  assert (∀ m, m mem_allocated_size = zsum (ab_size <$> b :: bs) →
    dec mem_allocated_size (ab_size b) m mem_allocated_size = zsum (ab_size <$> bs)) as Hm.
  { intros m Em. unfold dec. rewrite inc_eq, Em, fmap_cons, zsum_cons. lia. }
  destruct (heap w !! ab_allocator b) as [a|] eqn:E.
  - pose proof (ho_inv _ _ HO _ _ E) as HI. rewrite held_by_cons, decide_True in HI by done. simpl in HI.
    destruct (ba_deallocate_ok a _ _ _ _ HI) as (ok & a' & Ea & -> & Hi & Hb & HI'). simpl. rewrite Ea. simpl.
    eexists _, _. split; [reflexivity|]. split; [split; [by eapply heap_insert_same|]|].
    { intros g Hg. simpl. unfold dec. rewrite inc_ne; [done|by intros ->]. }
    apply (heap_ok_insert w _ a a' (b :: bs)); try done; [intros; left; by right|].
    apply Hm, (ho_total _ _ HO).
  - eexists _, _. split; [reflexivity|]. split; [split; [done|]|].
    { intros g Hg. simpl. unfold dec. rewrite inc_ne; [done|by intros ->]. }
    destruct HO as [H1 H2 H3 H4]. split; simpl; [|done|intros; apply H3; by right|by apply Hm].
    intros id a1 E1. rewrite Hne; [by apply H1|congruence].
Qed.

Lemma destroy_buffers_ok xs w bs :
  heap_ok w (xs ++ bs) → runs (destroy_buffers xs) w (λ _ w', frame w w' ∧ heap_ok w' bs).
Proof.
  revert w. induction xs as [|b xs IH]; intros w HO; simpl; [by apply runs_ret|].
  apply runs_bind. eapply runs_mono; [by apply destroy_buffer_ok|]. intros [] w1 [HF HO1].
  eapply runs_mono; [by apply IH|]. intros [] w2 [HF2 HO2]. split; [by etrans|done].
Qed.
End heap.

(** ** Objects *)

Section objects.
Context {A B : Type} {ops : BufferAllocator A B} {laws : BufferAllocatorLaws A B}.
Implicit Types (w : World A) (bs : list (AllocatedBuffer B)) (o : ObjectMetadata B).

Definition obj_buffers o : list (AllocatedBuffer B) := replicas o ≫= replica_buffers.
Definition pins o : Prop := is_Some (soft_pin_timeout o).

(** [bs] are buffers in local variables, [os] all the metadata objects. *)
Record world_ok w bs (os : list (ObjectMetadata B)) : Prop := {
  wo_heap : heap_ok w (bs ++ (os ≫= obj_buffers));
  wo_keys : metrics w key_count = Z.of_nat (length os);
  wo_pins : metrics w soft_pin_key_count = Z.of_nat (length (filter pins os));
  wo_files : metrics w file_allocated_size = zsum (disk_replica_size <$> os);
}.

Definition object_gauge (g : Gauge) : bool :=
  match g with key_count | soft_pin_key_count | file_allocated_size => true | _ => buffer_gauge g end.

(** What destroying or creating objects leaves alone. *)
Definition oframe w w' : Prop :=
  same_heap w w' ∧ ∀ g, object_gauge g = false → metrics w' g = metrics w g.

#[export] Instance oframe_preorder : PreOrder oframe.
Proof.
  split; [done|]. intros w1 w2 w3 [H1 H2] [H3 H4]. split; [by etrans|]. intros g Hg. by rewrite H4, H2.
Qed.

Lemma frame_oframe w w' : frame w w' → oframe w w'.
Proof. intros [H1 H2]. split; [done|]. intros g Hg. apply H2. by destruct g. Qed.

#[export] Instance world_ok_perm w : Proper ((≡ₚ) ==> (≡ₚ) ==> iff) (world_ok w).
Proof.
  assert (∀ l1 l2 p1 p2, l1 ≡ₚ l2 → p1 ≡ₚ p2 → world_ok w l1 p1 → world_ok w l2 p2) as HP;
    [|intros l1 l2 Hp p1 p2 Ho; split; apply HP; try done; by symmetry].
  intros l1 l2 p1 p2 Hp Ho [H1 H2 H3 H4]. split; by rewrite <-?Hp, <-?Ho.
Qed.

(** A step that only moves buffers keeps the objects' account. *)
Lemma world_ok_frame w w' bs bs' os :
  world_ok w bs os → frame w w' → heap_ok w' (bs' ++ (os ≫= obj_buffers)) → world_ok w' bs' os.
Proof. intros [H1 H2 H3 H4] [_ Hm] HO. split; [done|by rewrite Hm..]. Qed.

Lemma destroy_local_ok xs w bs os :
  world_ok w (xs ++ bs) os → runs (destroy_buffers xs) w (λ _ w', frame w w' ∧ world_ok w' bs os).
Proof.
  intros HW. pose proof (wo_heap _ _ _ HW) as HO. rewrite <-(assoc (++)) in HO.
  eapply runs_mono; [by apply destroy_buffers_ok|]. intros [] w' [HF HO']. split; [done|]. by eapply world_ok_frame.
Qed.

(** One object changes replicas, lease or pin time, but not whether it is pinned. *)
Lemma world_ok_object w w' bs bs' o o' os :
  world_ok w bs (o :: os) → frame w w' → heap_ok w' (bs' ++ ((o' :: os) ≫= obj_buffers)) →
  (pins o' ↔ pins o) → disk_replica_size o' = disk_replica_size o → world_ok w' bs' (o' :: os).
Proof.
  intros [H1 H2 H3 H4] [_ Hm] HO Hp Hd. split; [done|rewrite Hm by done..].
  - done.
  - rewrite H3, !filter_cons. repeat case_decide; naive_solver.
  - rewrite H4. simpl. by rewrite Hd.
Qed.

Lemma world_ok_replace w bs o o' os :
  world_ok w bs (o :: os) → obj_buffers o' ≡ₚ obj_buffers o →
  (pins o' ↔ pins o) → disk_replica_size o' = disk_replica_size o → world_ok w bs (o' :: os).
Proof.
  intros HW Hb Hp Hd. apply (world_ok_object w w bs bs o); try done.
  pose proof (wo_heap _ _ _ HW) as HO. simpl in *. by rewrite Hb.
Qed.

Lemma filter_split_replicas (P : Replica B → Prop) `{∀ r, Decision (P r)} rs :
  (filter P rs ≫= replica_buffers) ++ (filter (λ r, ¬ P r) rs ≫= replica_buffers) ≡ₚ rs ≫= replica_buffers.
Proof. by rewrite <-bind_app, filter_app_complement. Qed.

(** Destroying some buffers of an object. *)
Lemma shrink_ok xs rs' w bs o os :
  world_ok w bs (o :: os) → obj_buffers o ≡ₚ xs ++ (rs' ≫= replica_buffers) →
  runs (destroy_buffers xs) w (λ _ w', frame w w' ∧ world_ok w' bs (set_replicas rs' o :: os)).
Proof.
  intros HW Hp. eapply runs_mono.
  { apply destroy_buffers_ok with (bs := bs ++ (set_replicas rs' o :: os) ≫= obj_buffers).
    pose proof (wo_heap _ _ _ HW) as HO. simpl in HO. simpl. rewrite Hp in HO.
    revert HO. apply heap_ok_perm. unfold obj_buffers at 1. simpl. rewrite (Permutation_app_swap_app xs). by rewrite <-(assoc (++)). }
  intros [] w' [HF HO]. split; [done|]. by eapply world_ok_object.
Qed.

(** Destroying a part of an object's replicas. *)
Lemma drop_replicas_ok (P : Replica B → Prop) `{∀ r, Decision (P r)} w bs o os :
  world_ok w bs (o :: os) →
  runs (destroy_replicas (filter P (replicas o))) w (λ _ w',
    frame w w' ∧ world_ok w' bs (set_replicas (filter (λ r, ¬ P r) (replicas o)) o :: os)).
Proof. intros HW. apply shrink_ok; [done|]. unfold obj_buffers. by rewrite filter_split_replicas. Qed.

Lemma EraseReplica_ok t w bs o os :
  world_ok w bs (o :: os) →
  runs (EraseReplica t o) w (λ o' w', frame w w' ∧
    o' = set_replicas (filter (λ r, type r ≠ t) (replicas o)) o ∧ world_ok w' bs (o' :: os)).
Proof.
  intros HW. unfold EraseReplica. apply runs_bind.
  eapply runs_mono; [by apply (drop_replicas_ok (λ r, type r = t))|]. intros [] w' [HF HW']. by apply runs_ret.
Qed.

Lemma heap_ok_metrics w f bs :
  f (metrics w) mem_allocated_size = metrics w mem_allocated_size → heap_ok w bs → heap_ok (set_metrics f w) bs.
Proof. intros Hf [H1 H2 H3 H4]. split; simpl; try done. by rewrite Hf. Qed.

Lemma pins_cons o os :
  Z.of_nat (length (filter pins (o :: os))) = Z.of_nat (length (filter pins os)) + soft_pin_count o.
Proof.
  rewrite filter_cons. unfold soft_pin_count. case_decide as Hp.
  - rewrite bool_decide_eq_true_2 by done. simpl. lia.
  - rewrite bool_decide_eq_false_2 by done. lia.
Qed.

(** The gauges of one object added or taken away ([s] is [1] or [-1]). *)
Lemma object_metrics s o m g :
  inc file_allocated_size (s * disk_replica_size o)
    (inc soft_pin_key_count (s * soft_pin_count o) (inc key_count (s * 1) m)) g =
  match g with
  | key_count => m g + s
  | soft_pin_key_count => m g + s * soft_pin_count o
  | file_allocated_size => m g + s * disk_replica_size o
  | _ => m g
  end.
Proof. unfold inc. destruct g; simpl; lia. Qed.

Lemma created_metrics o m g : metadata_created o m g = inc file_allocated_size (1 * disk_replica_size o)
    (inc soft_pin_key_count (1 * soft_pin_count o) (inc key_count (1 * 1) m)) g.
Proof. unfold metadata_created. by rewrite !Z.mul_1_l. Qed.

Lemma destroyed_metrics o m g : metadata_destroyed o m g = inc file_allocated_size (-1 * disk_replica_size o)
    (inc soft_pin_key_count (-1 * soft_pin_count o) (inc key_count (-1 * 1) m)) g.
Proof.
  unfold metadata_destroyed, dec. rewrite !(Z.mul_comm (-1)). by rewrite <-!Z.opp_eq_mul_m1.
Qed.

Lemma new_metadata_ok w bs reps len pin os :
  world_ok w ((reps ≫= replica_buffers) ++ bs) os →
  runs (new_metadata len reps pin) w (λ o w', oframe w w' ∧ world_ok w' bs (o :: os) ∧
    replicas o = reps ∧ size o = len ∧ lease_timeout o = 0 ∧ (pins o ↔ pin = true)).
Proof.
  intros [H1 H2 H3 H4]. unfold new_metadata. set (o := mkObjectMetadata _ _ _ _ _). runs_steps.
  split; [split; [done|]|split; [|split_and!; [done..|unfold pins; destruct pin; naive_solver]]].
  - intros g Hg. simpl. rewrite created_metrics, object_metrics.
    by destruct g.
  - split; simpl; [|rewrite created_metrics, object_metrics..].
    + apply heap_ok_metrics; [by rewrite created_metrics, object_metrics|]. unfold obj_buffers at 1. simpl.
      revert H1. apply heap_ok_perm.
      rewrite <-(assoc (++)), Permutation_app_comm, <-(assoc (++)). f_equiv. by rewrite Permutation_app_comm.
    + rewrite H2. lia.
    + rewrite H3, pins_cons. lia.
    + rewrite H4. unfold zsum, fmap. simpl. lia.
Qed.

Lemma destroy_metadata_ok w bs o os :
  world_ok w bs (o :: os) → runs (destroy_metadata o) w (λ _ w', oframe w w' ∧ world_ok w' bs os).
Proof.
  intros [H1 H2 H3 H4]. unfold destroy_metadata, destroy_replicas. runs_steps.
  set (w1 := set_metrics _ w).
  assert (oframe w w1) as HF1.
  { split; [done|]. intros g Hg. simpl. rewrite destroyed_metrics, object_metrics.
    by destruct g. }
  assert (world_ok w1 (obj_buffers o ++ bs) os) as HW1.
  { split; simpl; [|rewrite destroyed_metrics, object_metrics..].
    - apply heap_ok_metrics; [by rewrite destroyed_metrics, object_metrics|].
      revert H1. apply heap_ok_perm. simpl. by rewrite <-(assoc (++)), Permutation_app_swap_app.
    - rewrite H2. simpl. lia.
    - rewrite H3, pins_cons. lia.
    - rewrite H4. unfold zsum, fmap. simpl. lia. }
  eapply runs_mono; [by apply destroy_local_ok|]. intros [] w2 [HF2 HW2]. split; [|done].
  etrans; [exact HF1|by apply frame_oframe].
Qed.

(** Allocators may be created and dropped: no buffer refers to a new one, and a
    dropped one takes its account with it. *)
Lemma world_ok_heap w w' bs os :
  world_ok w bs os →
  (∀ k a, heap w' !! k = Some a → heap w !! k = Some a ∨ (next_id w <= k < next_id w')%positive ∧ ba_inv a []) →
  (next_id w <= next_id w')%positive →
  (∀ g, object_gauge g = true → metrics w' g = metrics w g) →
  world_ok w' bs os.
Proof.
  intros [[H1 H2 H3 H4] Hk Hp Hf] Hh Hn Hg. split; [split|rewrite Hg by done..]; try done.
  - intros id a E. destruct (Hh id a E) as [E'|[Hid HI]]; [by apply H1|].
    unfold held_by. 
    assert (filter (λ b, ab_allocator b = id) (bs ++ (os ≫= obj_buffers)) = []) as ->; [|done].
    apply filter_none. intros b Hb <-. specialize (H3 b Hb). lia.
  - intros id [a E]. destruct (Hh id a E) as [E'|[Hid HI]]; [|lia]. pose proof (H2 id ltac:(eauto)). lia.
  - intros b Hb. specialize (H3 b Hb). lia.
  - by rewrite Hg.
Qed.
End objects.
