(* ===== verification/AllocationStrategy.v ===== *)
(** * AllocationStrategy: placing the slices of an object

    [RandomAllocationStrategy] of allocation_strategy.h.  [std::shuffle] with the
    thread's random engine is a parameter: [shuffle s i] is the arrangement it
    produces for replica [i] of slice [s]; all that is used of it is that it
    permutes.  The theorem [allocation_placement] states the contract of
    [Allocate]: best effort, all slices in every replica, the replicas of one
    slice on segments of different names, and nothing leaked on failure. *)

From S2P Require Import Prelude Types BufferAllocator Replica ReplicaHeap.
Open Scope Z_scope.

Definition kMaxRetryLimit : nat := 10.

Section strategy.
Context {A B : Type} {ops : BufferAllocator A B}.
Variable shuffle : nat → nat → list nat → list nat.

Definition validateInput (slice_sizes : list Z) (replica_num : Z) : option ErrorCode :=
  if (replica_num =? 0) || bool_decide (slice_sizes = [])
     || (0 <? Z.of_nat (length (filter (λ n, n = 0) slice_sizes)))
  then Some EC.INVALID_PARAMS else None.

(** The indices of the allocators that may serve the request. *)
Fixpoint eligible_indices (w : World A) (i : nat) (allocators : list positive) (size : Z)
    (excluded_segments : gset string) : option (list nat) :=
  match allocators with
  | [] => Some []
  | id :: rest =>
      alloc ← heap w !! id;
      l ← eligible_indices w (S i) rest size excluded_segments;
      Some (if bool_decide (ba_segment_name alloc ∉ excluded_segments) && (size <=? ba_largest alloc)
            then i :: l else l)
  end.

Fixpoint random_tries (allocators : list positive) (indices : list nat) (size : Z)
    : ST (World A) (option (AllocatedBuffer B)) :=
  match indices with
  | [] => mret None
  | i :: rest =>
      match allocators !! i with
      | None => fault
      | Some id =>
          buffer ← heap_allocate id size;
          match buffer with
          | Some b => mret (Some b)
          | None =>
              modify (set_metrics (inc retry_counter 1));;
              random_tries allocators rest size
          end
      end
  end.

Definition tryRandomAllocate (arrange : list nat → list nat) (allocators : list positive) (size : Z)
    (excluded_segments : gset string) : ST (World A) (option (AllocatedBuffer B)) := λ w,
  indices ← eligible_indices w 0 allocators size excluded_segments;
  if bool_decide (indices = []) then Some (None, w) else
  let max_tries := Nat.min kMaxRetryLimit (length indices) in
  random_tries allocators (take max_tries (arrange indices)) size w.

(** The loop over the allocators of the preferred segment. *)
Fixpoint first_allocate (ids : list positive) (size : Z) : ST (World A) (option (AllocatedBuffer B)) :=
  match ids with
  | [] => mret None
  | id :: rest =>
      buffer ← heap_allocate id size;
      match buffer with
      | Some b => mret (Some b)
      | None => first_allocate rest size
      end
  end.

Definition allocateSingleBuffer (arrange : list nat → list nat) (allocators : list positive)
    (allocators_by_name : gmap string (list positive)) (size : Z) (config : ReplicateConfig)
    (excluded_segments : gset string) : ST (World A) (option (AllocatedBuffer B)) :=
  preferred ←
    (if negb (bool_decide (preferred_segment config = EmptyString))
        && negb (bool_decide (preferred_segment config ∈ excluded_segments))
     then match allocators_by_name !! preferred_segment config with
          | Some ids => first_allocate ids size
          | None => mret None
          end
     else mret None);
  match preferred with
  | Some b => mret (Some b)
  | None => tryRandomAllocate arrange allocators size excluded_segments
  end.

(** [n] more replicas of slice [s]; [i] counts the ones there are. *)
Fixpoint allocateSlice (s n i : nat) (allocators : list positive)
    (allocators_by_name : gmap string (list positive)) (slice_size : Z) (config : ReplicateConfig)
    (used_segments : gset string) : ST (World A) (list (AllocatedBuffer B)) :=
  match n with
  | O => mret []
  | S n =>
      buffer ← allocateSingleBuffer (shuffle s i) allocators allocators_by_name slice_size config used_segments;
      match buffer with
      | None => mret []
      | Some b =>
          name ← gets (λ w, getSegmentName w b);
          buffers ← allocateSlice s n (S i) allocators allocators_by_name slice_size config
                      ({[name]} ∪ used_segments);
          mret (b :: buffers)
      end
  end.

(** The loop over the slices; an early return destroys the local vectors. *)
Fixpoint allocate_slices (s : nat) (slice_sizes : list Z) (actual_replica_count : nat)
    (replica_buffers : list (list (AllocatedBuffer B))) (allocators : list positive)
    (allocators_by_name : gmap string (list positive)) (config : ReplicateConfig)
    : ST (World A) (ErrorCode + list (list (AllocatedBuffer B))) :=
  match slice_sizes with
  | [] => mret (inr replica_buffers)
  | slice_size :: rest =>
      slice_replicas ← allocateSlice s actual_replica_count 0 allocators allocators_by_name slice_size config ∅;
      if bool_decide (slice_replicas = []) then
        destroy_buffers (mjoin replica_buffers);;
        mret (inl EC.NO_AVAILABLE_HANDLE)
      else
        let count := Nat.min (length slice_replicas) actual_replica_count in
        destroy_buffers (mjoin (drop count replica_buffers));;
        allocate_slices (S s) rest count
          (zip_with (λ bs b, bs ++ [b]) (take count replica_buffers) slice_replicas)
          allocators allocators_by_name config
  end.

Definition Allocate (allocators : list positive) (allocators_by_name : gmap string (list positive))
    (slice_sizes : list Z) (config : ReplicateConfig) : ST (World A) (ErrorCode + list (Replica B)) :=
  match validateInput slice_sizes (replica_num config) with
  | Some validation_error => mret (inl validation_error)
  | None =>
      let n := Z.to_nat (replica_num config) in
      r ← allocate_slices 0 slice_sizes n (replicate n []) allocators allocators_by_name config;
      match r with
      | inl e => mret (inl e)
      | inr replica_buffers => mret (inr ((λ bs, mkReplica (MemoryReplicaData bs) PROCESSING) <$> replica_buffers))
      end
  end.
End strategy.

(** ** Correctness *)

Section placement.
Context {A B : Type} {ops : BufferAllocator A B} {laws : BufferAllocatorLaws A B}.
Implicit Types (w : World A) (bs : list (AllocatedBuffer B)).

(** The containers the strategy is given refer to live allocators, and the one
    indexed by name does so correctly. *)
Record usable w (allocators : list positive) (by_name : gmap string (list positive)) : Prop := {
  us_all id : id ∈ allocators → is_Some (heap w !! id);
  us_name n ids id : by_name !! n = Some ids → id ∈ ids → ∃ a, heap w !! id = Some a ∧ ba_segment_name a = n;
}.

Lemma usable_same w w' allocators by_name :
  same_heap w w' → usable w allocators by_name → usable w' allocators by_name.
Proof.
  intros Hs [H1 H2]. split.
  - intros id Hid. apply (same_heap_is_Some w); auto.
  - intros n ids id E Hid. destruct (H2 n ids id E Hid) as (a & Ea & <-). by eapply same_heap_name.
Qed.

(** The outcome of an attempt to get one buffer. *)
Definition single_post w bs (n : Z) (excluded : gset string) (r : option (AllocatedBuffer B)) w' : Prop :=
  frame w w' ∧
  match r with
  | None => heap_ok w' bs
  | Some b => heap_ok w' (b :: bs) ∧ ab_size b = n ∧ isAllocatorValid w b ∧ getSegmentName w b ∉ excluded
  end.

Lemma single_post_after w w1 bs n excluded r w' :
  frame w w1 → single_post w1 bs n excluded r w' → single_post w bs n excluded r w'.
Proof.
  intros HF [HF1 HR]. split; [by etrans|]. destruct r as [b|]; [|done]. destruct HF as [HS _].
  by rewrite (same_heap_valid w), (same_heap_segment w) in HR.
Qed.

Lemma heap_allocate_single w bs id a n excluded :
  heap_ok w bs → heap w !! id = Some a → ba_segment_name a ∉ excluded → 0 < n <= max_request →
  runs (heap_allocate id n) w (single_post w bs n excluded).
Proof.
  intros HO E Hex Hn. eapply runs_mono; [apply heap_allocate_ok; [done|rewrite E; eauto|done]|].
  intros r w' [HF HR]. split; [done|]. destruct r as [b|]; [|done]. destruct HR as (HO' & Eb & Es).
  unfold isAllocatorValid, getSegmentName, lock. rewrite Eb, E. auto.
Qed.

Lemma first_allocate_ok ids w bs n excluded :
  heap_ok w bs → 0 < n <= max_request →
  (∀ id, id ∈ ids → ∃ a, heap w !! id = Some a ∧ ba_segment_name a ∉ excluded) →
  runs (first_allocate ids n) w (single_post w bs n excluded).
Proof.
  revert w. induction ids as [|id ids IH]; intros w HO Hn Hids; simpl; [by apply runs_ret|].
  destruct (Hids id ltac:(left)) as (a & E & Hex). runs_step.
  eapply runs_mono; [by apply (heap_allocate_single w bs id a n excluded)|].
  intros [b|] w1 HP; [by apply runs_ret|]. destruct HP as [HF HO1].
  eapply runs_mono; [apply IH; [done|done|]|intros r w2; by apply single_post_after].
  intros id' Hid'. destruct (Hids id' ltac:(by right)) as (a' & E' & Hex'). 
  destruct (same_heap_name _ _ _ _ (proj1 HF) E') as (a1 & E1 & En). exists a1. by rewrite En.
Qed.

Lemma eligible_indices_spec w allocators i0 n excluded :
  (∀ id, id ∈ allocators → is_Some (heap w !! id)) →
  ∃ l, eligible_indices w i0 allocators n excluded = Some l ∧
    ∀ i, i ∈ l → (i0 <= i)%nat ∧
      ∃ id a, allocators !! (i - i0)%nat = Some id ∧ heap w !! id = Some a ∧ ba_segment_name a ∉ excluded.
Proof.
  revert i0. induction allocators as [|id rest IH]; intros i0 Hal; simpl; [exists []; set_solver|].
  destruct (Hal id ltac:(left)) as [a E]. destruct (IH (S i0) ltac:(intros; apply Hal; by right)) as (l & El & Hl).
  rewrite E. simpl. rewrite El. simpl. eexists. split; [done|].
  assert (∀ i, i ∈ l → (i0 <= i)%nat ∧ ∃ id' a', (id :: rest) !! (i - i0)%nat = Some id' ∧
            heap w !! id' = Some a' ∧ ba_segment_name a' ∉ excluded) as Hl'.
  { intros i Hi. destruct (Hl i Hi) as (Hle & id' & a' & Hlk & Hh & Hex). split; [lia|].
    exists id', a'. replace (i - i0)%nat with (S (i - S i0)) by lia. auto. }
  destruct (bool_decide _) eqn:Eb, (n <=? _); simpl; try done.
  intros i [->|Hi]%elem_of_cons; [|auto]. split; [lia|]. exists id, a. rewrite Nat.sub_diag.
  by apply bool_decide_eq_true_1 in Eb.
Qed.

Lemma random_tries_ok allocators indices w bs n excluded :
  heap_ok w bs → 0 < n <= max_request →
  (∀ i, i ∈ indices → ∃ id a, allocators !! i = Some id ∧ heap w !! id = Some a ∧ ba_segment_name a ∉ excluded) →
  runs (random_tries allocators indices n) w (single_post w bs n excluded).
Proof.
  revert w. induction indices as [|i rest IH]; intros w HO Hn Hi; simpl; [by apply runs_ret|].
  destruct (Hi i ltac:(left)) as (id & a & El & E & Hex). rewrite El. runs_step.
  eapply runs_mono; [by apply (heap_allocate_single w bs id a n excluded)|].
  intros [b|] w1 HP; [by apply runs_ret|]. destruct HP as [HF HO1]. runs_steps.
  set (w2 := set_metrics _ w1).
  assert (frame w w2) as HF2.
  { etrans; [exact HF|]. split; [done|]. intros g Hg. simpl. rewrite inc_ne; [done|by intros ->]. }
  eapply runs_mono; [apply IH; [|done|]|intros r w3; by apply single_post_after].
  { apply heap_ok_metrics; [by rewrite inc_ne|done]. }
  intros j Hj. destruct (Hi j ltac:(by right)) as (id' & a' & El' & E' & Hex'). 
  destruct (same_heap_name _ _ _ _ (proj1 HF) E') as (a1 & E1 & En). exists id', a1. by rewrite En.
Qed.

Lemma tryRandomAllocate_ok arrange allocators w bs n excluded :
  (∀ l, arrange l ≡ₚ l) → heap_ok w bs → 0 < n <= max_request →
  (∀ id, id ∈ allocators → is_Some (heap w !! id)) →
  runs (tryRandomAllocate arrange allocators n excluded) w (single_post w bs n excluded).
Proof.
  intros Hsh HO Hn Hal. unfold tryRandomAllocate, runs.
  destruct (eligible_indices_spec w allocators 0 n excluded Hal) as (l & El & Hl). rewrite El. simpl.
  case_bool_decide; [by eexists _, _|]. apply random_tries_ok; [done|done|].
  intros i Hi%elem_of_take. destruct Hi as (k & Hk%list_elem_of_lookup_2 & _). rewrite Hsh in Hk.
  destruct (Hl i Hk) as [_ Hid]. by rewrite Nat.sub_0_r in Hid.
Qed.

Lemma allocateSingleBuffer_ok arrange allocators by_name w bs n config excluded :
  (∀ l, arrange l ≡ₚ l) → heap_ok w bs → 0 < n <= max_request → usable w allocators by_name →
  runs (allocateSingleBuffer arrange allocators by_name n config excluded) w (single_post w bs n excluded).
Proof.
  intros Hsh HO Hn HU. unfold allocateSingleBuffer. apply runs_bind.
  apply (runs_mono _ _ (single_post w bs n excluded)).
  - destruct (bool_decide (_ = EmptyString)); simpl; [by apply runs_ret|].
    case_bool_decide as Hex; simpl; [by apply runs_ret|].
    destruct (by_name !! _) as [ids|] eqn:E; [|by apply runs_ret].
    apply first_allocate_ok; [done|done|]. intros id Hid.
    destruct (us_name _ _ _ HU _ _ _ E Hid) as (a & Ea & En). exists a. by rewrite En.
  - intros [b|] w1 HP; [by apply runs_ret|]. destruct HP as [HF HO1].
    eapply runs_mono; [|intros r w2; by apply single_post_after].
    apply tryRandomAllocate_ok; [done..|]. intros id Hid. apply (same_heap_is_Some w), (us_all _ _ _ HU); [|done].
    apply HF.
Qed.

Lemma frame_segment w w' b : frame w w' → getSegmentName w' b = getSegmentName w b.
Proof. intros [HS _]. by apply same_heap_segment. Qed.

Section with_shuffle.
Context (shuffle : nat → nat → list nat → list nat) (Hshuffle : ∀ s i l, shuffle s i l ≡ₚ l).

(** [xs] are fresh buffers of size [n] on segments of different names, none of
    them in [used]. *)
Definition slice_ok w (n : Z) (used : gset string) (xs : list (AllocatedBuffer B)) : Prop :=
  Forall (λ b, ab_size b = n ∧ isAllocatorValid w b ∧ getSegmentName w b ∉ used) xs ∧
  NoDup (getSegmentName w <$> xs).

Lemma slice_ok_nil w n used : slice_ok w n used [].
Proof. split; constructor. Qed.

Lemma allocateSlice_ok s k i allocators by_name w bs n config used :
  heap_ok w bs → usable w allocators by_name → 0 < n <= max_request →
  runs (allocateSlice shuffle s k i allocators by_name n config used) w (λ xs w',
    frame w w' ∧ heap_ok w' (xs ++ bs) ∧ (length xs <= k)%nat ∧ slice_ok w n used xs).
Proof.
  intros HO HU Hn. revert i w bs used HO HU. induction k as [|k IH]; intros i w bs used HO HU; simpl.
  { apply runs_ret. split_and!; [done|done|simpl; lia|apply slice_ok_nil]. }
  runs_step. eapply runs_mono; [by apply allocateSingleBuffer_ok|].
  intros [b|] w1 [HF HR]; [|apply runs_ret; split_and!; [done|done|simpl; lia|apply slice_ok_nil]].
  destruct HR as (HO1 & Es & Hv & Hu). runs_steps.
  eapply runs_mono; [apply IH; [done|by eapply usable_same; [apply HF|]]|].
  intros xs w2 (HF2 & HO2 & Hlen & [Hall Hnd]). apply runs_ret.
  assert (∀ b, getSegmentName w1 b = getSegmentName w b) as Hname by (intros; by apply frame_segment).
  split; [by etrans|]. split; [simpl; by rewrite Permutation_middle|]. split; [simpl; lia|].
  rewrite (list_fmap_ext _ (getSegmentName w)) in Hnd by (intros; apply Hname).
  rewrite Hname in Hall. split.
  - constructor; [auto|]. eapply Forall_impl; [exact Hall|]. intros x (H1 & H2 & H3). rewrite Hname in H3.
    rewrite (same_heap_valid w) in H2 by apply HF. split_and!; [done..|set_solver].
  - simpl. constructor; [|done]. intros (x & Ex & Hx)%list_elem_of_fmap. rewrite Forall_forall in Hall.
    destruct (Hall x Hx) as (_ & _ & H3). rewrite Hname, <-Ex in H3. set_solver.
Qed.

(** The vectors filled so far: every replica has the slices [done], and the
    replicas of each slice are on different segments. *)
Definition column w (j : nat) (rbs : list (list (AllocatedBuffer B))) : list string :=
  omap (λ rb : list (AllocatedBuffer B), getSegmentName w <$> rb !! j) rbs.

Record filled w (sizes : list Z) (rbs : list (list (AllocatedBuffer B))) : Prop := {
  fi_sizes : Forall (λ rb, ab_size <$> rb = sizes) rbs;
  fi_valid : Forall (λ rb, Forall (isAllocatorValid w) rb) rbs;
  fi_distinct j : NoDup (column w j rbs);
}.

Definition push_slice : list (list (AllocatedBuffer B)) → list (AllocatedBuffer B) → list (list (AllocatedBuffer B)) :=
  zip_with (λ rb b, rb ++ [b]).

Lemma push_slice_join rbs xs :
  length rbs = length xs → mjoin (push_slice rbs xs) ≡ₚ xs ++ mjoin rbs.
Proof.
  revert xs. induction rbs as [|rb rbs IH]; intros [|x xs] Hl; simpl in *; try done.
  unfold push_slice in *. rewrite IH by lia. rewrite <-(assoc (++)). simpl.
  rewrite <-Permutation_middle. f_equiv. by rewrite Permutation_app_swap_app.
Qed.

Lemma push_slice_column w j d rbs xs :
  length rbs = length xs → Forall (λ rb, length rb = d) rbs →
  column w j (push_slice rbs xs) =
  if decide (j = d) then getSegmentName w <$> xs else if decide (j < d)%nat then column w j rbs else [].
Proof.
  revert xs. induction rbs as [|rb rbs IH]; intros [|x xs] Hl HF; simpl in *; try done; [by repeat case_decide|].
  apply Forall_cons in HF as [Hd HF]. unfold push_slice, column in *. simpl. rewrite (IH xs) by (try done; lia).
  repeat case_decide.
  - rewrite lookup_app_r by lia. replace (j - length rb)%nat with 0%nat by lia. done.
  - by rewrite lookup_app_l by lia.
  - rewrite lookup_ge_None_2; [done|]. rewrite length_app. simpl. lia.
Qed.

Lemma filled_push w sizes rbs n xs :
  filled w sizes rbs → slice_ok w n ∅ xs → length rbs = length xs → filled w (sizes ++ [n]) (push_slice rbs xs).
Proof.
  intros [H1 H2 H3] [Hall Hnd] Hl. rewrite Forall_forall in Hall. split.
  - apply Forall_zip_with_fst with (P := λ rb, ab_size <$> rb = sizes); [done|].
    apply Forall_forall. intros b Hb rb Hrb. rewrite fmap_app, Hrb. simpl. by destruct (Hall b Hb) as (-> & _).
  - apply Forall_zip_with_fst with (P := λ rb, Forall (isAllocatorValid w) rb); [done|].
    apply Forall_forall. intros b Hb rb Hrb. apply Forall_app. split; [done|].
    constructor; [|constructor]. by destruct (Hall b Hb) as (_ & ? & _).
  - intros j. rewrite (push_slice_column w j (length sizes)); [|done|].
    { repeat case_decide; [done|done|constructor]. }
    eapply Forall_impl; [exact H1|]. intros rb <-. by rewrite length_fmap.
Qed.

Lemma filled_take w sizes k rbs : filled w sizes rbs → filled w sizes (take k rbs).
Proof.
  intros [H1 H2 H3]. split; [by apply Forall_take..|]. intros j. eapply sublist_NoDup; [apply (H3 j)|].
  unfold column. rewrite <-(take_drop k rbs) at 2. rewrite omap_app. by apply sublist_inserts_r.
Qed.

Lemma filled_same w w' sizes rbs : same_heap w w' → filled w sizes rbs → filled w' sizes rbs.
Proof.
  intros HS [H1 H2 H3]. split; [done| |].
  - eapply Forall_impl; [exact H2|]. intros rb Hrb. eapply Forall_impl; [exact Hrb|].
    intros b. by rewrite (same_heap_valid w w').
  - intros j. specialize (H3 j). unfold column in *. erewrite list_omap_ext; [exact H3|].
    apply Forall_Forall2_diag, Forall_true. intros rb. destruct (rb !! j); simpl; [|done].
    by rewrite (same_heap_segment w w').
Qed.

Lemma allocate_slices_ok s rest sizes count rbs allocators by_name config w bs :
  heap_ok w (mjoin rbs ++ bs) → usable w allocators by_name → Forall (λ n, 0 < n <= max_request) rest →
  length rbs = count → (1 <= count)%nat → filled w sizes rbs →
  runs (allocate_slices shuffle s rest count rbs allocators by_name config) w (λ r w', frame w w' ∧
    match r with
    | inl e => e = EC.NO_AVAILABLE_HANDLE ∧ heap_ok w' bs
    | inr rbs' => heap_ok w' (mjoin rbs' ++ bs) ∧ (1 <= length rbs' <= count)%nat ∧ filled w' (sizes ++ rest) rbs'
    end).
Proof.
  revert s sizes count rbs w. induction rest as [|n rest IH]; intros s sizes count rbs w HO HU Hn Hl Hc HFi; simpl.
  { apply runs_ret. rewrite app_nil_r. split; [done|]. split; [done|]. split; [lia|done]. }
  apply Forall_cons in Hn as [Hn Hrest]. runs_step.
  eapply runs_mono; [by apply allocateSlice_ok|]. intros xs w1 (HF1 & HO1 & Hlen & Hsl).
  case_bool_decide as Hxs; [subst xs|]; simpl in HO1.
  { runs_step. eapply runs_mono; [by apply destroy_buffers_ok|]. intros [] w2 [HF2 HO2]. apply runs_ret.
    split; [by etrans|done]. }
  assert (Nat.min (length xs) count = length xs) as -> by lia.
  assert (length (take (length xs) rbs) = length xs) as Hlt by (rewrite length_take; lia).
  assert (0 < length xs)%nat as Hpos by (destruct xs; [done|simpl; lia]).
  rewrite <-(take_drop (length xs) rbs), join_app in HO1.
  runs_step. eapply runs_mono; [apply (destroy_buffers_ok _ _ (mjoin (push_slice (take (length xs) rbs) xs) ++ bs))|].
  { rewrite push_slice_join by done. revert HO1. apply heap_ok_perm.
    rewrite <-!(assoc (++)), (Permutation_app_swap_app (mjoin (drop _ _))). f_equiv. apply Permutation_app_swap_app. }
  intros [] w2 [HF2 HO2].
  eapply runs_mono; [apply (IH _ (sizes ++ [n])); [exact HO2| |done| |lia|]|].
  - eapply usable_same; [|exact HU]. etrans; [apply HF1|apply HF2].
  - unfold push_slice. rewrite length_zip_with. lia.
  - apply (filled_same w); [etrans; [apply HF1|apply HF2]|]. apply filled_push; [by apply filled_take|done|done].
  - intros r w3 [HF3 HR]. split; [etrans; [exact HF1|by etrans]|]. destruct r as [e|rbs']; [done|].
    rewrite <-(assoc (++)) in HR. destruct HR as (? & ? & ?). split; [done|]. split; [lia|done].
Qed.

(** The contract of [Allocate], on every branch. *)
Definition allocate_post w bs (slice_sizes : list Z) (config : ReplicateConfig)
    (r : ErrorCode + list (Replica B)) w' : Prop :=
  match r with
  | inl e =>
      heap_ok w' bs ∧
      e = (if decide (validateInput slice_sizes (replica_num config) = None)
           then EC.NO_AVAILABLE_HANDLE else EC.INVALID_PARAMS)
  | inr rs =>
      heap_ok w' ((rs ≫= replica_buffers) ++ bs) ∧
      (1 <= Z.of_nat (length rs) <= replica_num config) ∧
      Forall (λ r, type r = MEMORY ∧ status_ r = PROCESSING) rs ∧
      filled w' slice_sizes (replica_buffers <$> rs) ∧
      slice_sizes ≠ [] ∧ Forall (λ n, 0 < n) slice_sizes
  end.

Lemma Allocate_ok allocators by_name slice_sizes config w bs :
  heap_ok w bs → usable w allocators by_name → 0 <= replica_num config →
  Forall (λ n, 0 <= n <= max_request) slice_sizes →
  runs (Allocate shuffle allocators by_name slice_sizes config) w (λ r w',
    frame w w' ∧ allocate_post w bs slice_sizes config r w').
Proof.
  intros HO HU Hr Hs. unfold Allocate, allocate_post.
  destruct (validateInput _ _) as [e|] eqn:Ev.
  { apply runs_ret. split; [done|]. split; [done|]. unfold validateInput in Ev.
    destruct (_ || _) in Ev; by simplify_eq. }
  assert (1 <= replica_num config ∧ slice_sizes ≠ [] ∧ Forall (λ n, 0 < n <= max_request) slice_sizes) as (Hr1 & Hne & Hs1).
  { unfold validateInput in Ev. destruct (Z.eqb_spec (replica_num config) 0) as [|Hr0]; [done|]. split; [lia|].
    case_bool_decide as Hne; [done|]. split; [done|]. simpl in Ev.
    destruct (Z.ltb_spec 0 (Z.of_nat (length (filter (λ n, n = 0) slice_sizes)))) as [|Hf]; [done|].
    apply Forall_forall. intros n Hn. rewrite Forall_forall in Hs. specialize (Hs n Hn).
    destruct (decide (n = 0)) as [->|]; [|lia].
    assert (0 ∈ filter (λ n, n = 0) slice_sizes) as Hin by (by apply list_elem_of_filter).
    destruct (filter _ _); [by apply elem_of_nil in Hin|simpl in Hf; lia]. }
  runs_step. set (k := Z.to_nat (replica_num config)).
  assert (mjoin (replicate k ([] : list (AllocatedBuffer B))) = []) as Hj by (clear; induction k; done).
  eapply runs_mono; [apply (allocate_slices_ok 0 slice_sizes [] k (replicate k []) allocators by_name config w bs)|].
  - by rewrite Hj.
  - done.
  - done.
  - apply length_replicate.
  - lia.
  - split; [by apply Forall_replicate|by apply Forall_replicate|].
    intros j. replace (column w j (replicate k [])) with ([] : list string); [constructor|].
    clear. induction k as [|k IH]; [done|]. unfold column in *. by destruct j.
  - intros [e|rbs] w' [HF HR]; apply runs_ret; (split; [done|]).
    + destruct HR as [-> HR]. by rewrite decide_True.
    + destruct HR as (HO' & Hlen & HFi). simpl in HFi.
      assert (((λ rb, mkReplica (MemoryReplicaData rb) PROCESSING) <$> rbs) ≫= replica_buffers = mjoin rbs) as ->.
      { clear. induction rbs as [|rb rbs IH]; [done|]. simpl. f_equal. exact IH. }
      split; [done|]. rewrite length_fmap. split; [lia|]. split; [by apply Forall_fmap, Forall_true|].
      split; [rewrite <-list_fmap_compose; by rewrite (list_fmap_ext _ id), list_fmap_id|].
      split; [done|]. eapply Forall_impl; [exact Hs1|]. intros n Hn. simpl in Hn. lia.
Qed.
End with_shuffle.
End placement.
