(* ===== verification/SegmentManager.v ===== *)
(** * SegmentManager: mounting and unmounting segments

    segment.h and segment.cpp.  Every method runs under the segment mutex, so
    each is one step on the manager and the world.  Unmounting has two phases:
    [PrepareUnmountSegment] drops the allocator, [CommitUnmountSegment] removes
    the segment after the objects on it have been cleaned up; between the two
    the segment is [UNMOUNTING].  The order in which an [unordered_map] lists its
    entries is left to [map_to_list]. *)

From S2P Require Import Prelude Types BufferAllocator Replica ReplicaHeap AllocationStrategy.
Open Scope Z_scope.

Inductive SegmentStatus := SS_UNDEFINED | SS_OK | SS_UNMOUNTING.

#[export] Instance SegmentStatus_eq_dec : EqDecision SegmentStatus.
Proof. solve_decision. Defined.

Record MountedSegment := mkMounted {
  ms_segment : Segment;
  ms_status : SegmentStatus;
  ms_allocator : option positive;
}.

Record SegmentManager := mkSegmentManager {
  memory_allocator_ : BufferAllocatorType;
  allocators_ : list positive;
  allocators_by_name_ : gmap string (list positive);
  mounted_segments_ : gmap UUID MountedSegment;
  client_segments_ : gmap UUID (list UUID);
}.

Definition new_SegmentManager (memory_allocator : BufferAllocatorType) : SegmentManager :=
  mkSegmentManager memory_allocator [] ∅ ∅ ∅.

(** [std::find] and [vector::erase] *)
Fixpoint erase_first {X} `{EqDecision X} (x : X) (l : list X) : list X :=
  match l with
  | [] => []
  | y :: l => if decide (x = y) then l else y :: erase_first x l
  end.

(** The allocators some shared pointer of the manager refers to. *)
Definition referenced (sm : SegmentManager) : gset positive :=
  list_to_set (allocators_ sm) ∪
  list_to_set (mjoin ((map_to_list (allocators_by_name_ sm)).*2)) ∪
  list_to_set (omap (λ e, ms_allocator (snd e)) (map_to_list (mounted_segments_ sm))).

Section operations.
Context {A B : Type} {ops : BufferAllocator A B}.

Definition SegState : Type := SegmentManager * World A.

(** Objects no shared pointer refers to any more are destroyed. *)
Definition collect (s : SegState) : SegState :=
  (fst s, set_heap (filter (λ e, e.1 ∈ referenced (fst s)) (heap (snd s))) (snd s)).

Definition ScopedMountSegment (segment : Segment) (client_id : UUID) : ST SegState ErrorCode := λ s,
  let '(sm, w) := s in
  let buffer := seg_base segment in
  let size := seg_size segment in
  if (buffer =? 0) || (size =? 0) then Some (EC.INVALID_PARAMS, s)
  else if bool_decide (memory_allocator_ sm = CACHELIB)
          && (negb (buffer mod kSlabSize =? 0) || negb (size mod kSlabSize =? 0))
  then Some (EC.INVALID_PARAMS, s)
  else match mounted_segments_ sm !! seg_id segment with
  | Some exist_segment =>
      Some (if decide (ms_status exist_segment = SS_OK) then EC.SEGMENT_ALREADY_EXISTS
            else EC.UNAVAILABLE_IN_CURRENT_STATUS, s)
  | None =>
      match ba_create (seg_name segment) buffer size (te_endpoint segment) with
      | None => Some (EC.INVALID_PARAMS, s)
      | Some allocator =>
          let id := next_id w in
          let w := mkWorld (<[id := allocator]> (heap w)) (Pos.succ id) (metrics w) in
          let by_name := default [] (allocators_by_name_ sm !! seg_name segment) in
          let owned := default [] (client_segments_ sm !! client_id) in
          let sm := mkSegmentManager (memory_allocator_ sm) (allocators_ sm ++ [id])
            (<[seg_name segment := by_name ++ [id]]> (allocators_by_name_ sm))
            (<[seg_id segment := mkMounted segment SS_OK (Some id)]> (mounted_segments_ sm))
            (<[client_id := owned ++ [seg_id segment]]> (client_segments_ sm)) in
          Some (EC.OK, (sm, set_metrics (inc mem_total_capacity size) w))
      end
  end.

Fixpoint ScopedReMountSegment (segments : list Segment) (client_id : UUID) : ST SegState ErrorCode :=
  match segments with
  | [] => mret EC.OK
  | segment :: rest =>
      err ← ScopedMountSegment segment client_id;
      if decide (err = EC.UNAVAILABLE_IN_CURRENT_STATUS ∨ err = EC.INTERNAL_ERROR) then mret err
      else ScopedReMountSegment rest client_id
  end.

(** The entry of [allocators_by_name_] after an allocator has been taken out. *)
Definition drop_named (id : option positive) (l : list positive) : option (list positive) :=
  let l' := match id with Some id => erase_first id l | None => l end in
  if decide (l' = []) then None else Some l'.

(** Returns the error code and the new value of [metrics_dec_capacity]. *)
Definition PrepareUnmountSegment (segment_id : UUID) (metrics_dec_capacity : Z) : ST SegState (ErrorCode * Z) := λ s,
  let '(sm, w) := s in
  match mounted_segments_ sm !! segment_id with
  | None => Some ((EC.SEGMENT_NOT_FOUND, metrics_dec_capacity), s)
  | Some mounted_segment =>
      if decide (ms_status mounted_segment = SS_UNMOUNTING)
      then Some ((EC.UNAVAILABLE_IN_CURRENT_STATUS, metrics_dec_capacity), s) else
      let segment := ms_segment mounted_segment in
      let allocator := ms_allocator mounted_segment in
      let sm' := mkSegmentManager (memory_allocator_ sm)
        (match allocator with Some id => erase_first id (allocators_ sm) | None => allocators_ sm end)
        (partial_alter (λ e, e ≫= drop_named allocator) (seg_name segment) (allocators_by_name_ sm))
        (<[segment_id := mkMounted segment SS_UNMOUNTING None]> (mounted_segments_ sm))
        (client_segments_ sm) in
      Some ((EC.OK, seg_size segment), collect (sm', w))
  end.

Definition CommitUnmountSegment (segment_id client_id : UUID) (metrics_dec_capacity : Z) : ST SegState ErrorCode := λ s,
  let '(sm, w) := s in
  let drop_owned l := let l' := erase_first segment_id l in if decide (l' = []) then None else Some l' in
  let sm' := mkSegmentManager (memory_allocator_ sm) (allocators_ sm) (allocators_by_name_ sm)
    (delete segment_id (mounted_segments_ sm))
    (partial_alter (λ e, e ≫= drop_owned) client_id (client_segments_ sm)) in
  Some (EC.OK, (sm', set_metrics (dec mem_total_capacity metrics_dec_capacity) w)).

(** The segments of a client; the caller's vector is [segments]. *)
Definition GetClientSegments (client_id : UUID) (segments : list Segment) (sm : SegmentManager)
    : ErrorCode * list Segment :=
  match client_segments_ sm !! client_id with
  | None => (EC.SEGMENT_NOT_FOUND, segments)
  | Some ids => (EC.OK, omap (λ id, ms_segment <$> mounted_segments_ sm !! id) ids)
  end.

Definition ScopedGetAllSegments (sm : SegmentManager) : list string :=
  omap (λ e, if decide (ms_status (snd e) = SS_OK) then Some (seg_name (ms_segment (snd e))) else None)
    (map_to_list (mounted_segments_ sm)).

(** [used] and [capacity] of the first allocator of that name; indexing an empty
    vector or a dangling pointer is a fault. *)
Definition ScopedQuerySegments (segment : string) : ST SegState (ErrorCode + Z * Z) := λ s,
  let '(sm, w) := s in
  match allocators_by_name_ sm !! segment with
  | None => Some (inl EC.SEGMENT_NOT_FOUND, s)
  | Some allocators =>
      id ← head allocators;
      a ← heap w !! id;
      Some (inr (ba_size a, ba_capacity a), s)
  end.
End operations.
