(* ===== verification/SegmentInv.v ===== *)
(** * SegmentInv: the containers of the segment manager agree

    [allocators_], [allocators_by_name_] and [mounted_segments_] describe the same
    set of live allocators: exactly the segments with status [OK] have one, it
    carries the segment's name, endpoint and size, and nothing else is alive.
    Every operation of the manager keeps this, with the account of buffers and
    objects of ReplicaHeap. *)

From S2P Require Import Prelude Types BufferAllocator Replica ReplicaHeap AllocationStrategy SegmentManager.
Open Scope Z_scope.

(** ** Lists *)

Section erase_first.
Context {X : Type} `{EqDecision X}.
Implicit Types (x y : X) (l : list X).

Lemma erase_first_sublist x l : sublist (erase_first x l) l.
Proof. induction l as [|y l IH]; simpl; [done|]. case_decide; [by apply sublist_cons|by apply sublist_skip]. Qed.

Lemma erase_first_NoDup x l : NoDup l → NoDup (erase_first x l).
Proof. intros Hn. eapply sublist_NoDup; [exact Hn|apply erase_first_sublist]. Qed.

Lemma elem_of_erase_first x y l : NoDup l → y ∈ erase_first x l ↔ y ∈ l ∧ y ≠ x.
Proof.
  induction 1 as [|z l Hz Hn IH]; simpl; [set_solver|]. case_decide; subst; [set_solver|]. rewrite !elem_of_cons, IH. naive_solver.
Qed.
End erase_first.

Lemma map_sum_insert {K} `{Countable K} {V} (f : V → Z) (m : gmap K V) k v :
  m !! k = None → zsum ((λ e, f e.2) <$> map_to_list (<[k := v]> m)) = f v + zsum ((λ e, f e.2) <$> map_to_list m).
Proof. intros Hk. by rewrite map_to_list_insert. Qed.

Lemma map_sum_delete {K} `{Countable K} {V} (f : V → Z) (m : gmap K V) k v :
  m !! k = Some v → zsum ((λ e, f e.2) <$> map_to_list m) = f v + zsum ((λ e, f e.2) <$> map_to_list (delete k m)).
Proof. intros Hk. rewrite <-(map_sum_insert f (delete k m) k v) by apply lookup_delete_eq. by rewrite insert_delete_id. Qed.

(** ** The invariant *)

Section invariant.
Context {A B : Type} {ops : BufferAllocator A B} {laws : BufferAllocatorLaws A B}.
Implicit Types (s : SegState (A := A)) (w : World A) (sm : SegmentManager).

Definition named sm (n : string) : list positive := default [] (allocators_by_name_ sm !! n).

(** Allocator [k] belongs to the mounted segment [id]. *)
Definition serves sm (k : positive) (id : UUID) (ms : MountedSegment) : Prop :=
  mounted_segments_ sm !! id = Some ms ∧ ms_allocator ms = Some k.

Definition backed w (seg : Segment) (k : positive) : Prop :=
  ∃ a, heap w !! k = Some a ∧ ba_ident a = (seg_name seg, te_endpoint seg, seg_size seg) ∧ ba_base a = seg_base seg.

Definition mounted_ok w (ms : MountedSegment) : Prop :=
  match ms_status ms with
  | SS_OK => ∃ k, ms_allocator ms = Some k ∧ backed w (ms_segment ms) k
  | SS_UNMOUNTING => ms_allocator ms = None
  | SS_UNDEFINED => False
  end.

Definition total_capacity sm : Z :=
  zsum ((λ e, seg_size (ms_segment e.2)) <$> map_to_list (mounted_segments_ sm)).

Record seg_ok s : Prop := {
  so_mounted id ms : mounted_segments_ (fst s) !! id = Some ms →
    seg_id (ms_segment ms) = id ∧ mounted_ok (snd s) ms;
  so_inj k id1 ms1 id2 ms2 : serves (fst s) k id1 ms1 → serves (fst s) k id2 ms2 → id1 = id2;
  so_nodup : NoDup (allocators_ (fst s));
  so_all k : k ∈ allocators_ (fst s) ↔ ∃ id ms, serves (fst s) k id ms;
  so_named_nodup n : NoDup (named (fst s) n);
  so_named n k : k ∈ named (fst s) n ↔ ∃ id ms, serves (fst s) k id ms ∧ seg_name (ms_segment ms) = n;
  so_nonempty n : allocators_by_name_ (fst s) !! n ≠ Some [];
  so_heap k : is_Some (heap (snd s) !! k) → k ∈ allocators_ (fst s);
  so_capacity : metrics (snd s) mem_total_capacity = total_capacity (fst s);
}.

Lemma serves_backed s k id ms : seg_ok s → serves (fst s) k id ms → ms_status ms = SS_OK ∧ backed (snd s) (ms_segment ms) k.
Proof.
  intros HS [Hm Ha]. destruct (so_mounted _ HS _ _ Hm) as [_ Hok]. unfold mounted_ok in Hok.
  destruct (ms_status ms); [done| |congruence]. destruct Hok as (k' & Ek & Hb). by simplify_eq.
Qed.

(** What [PutStart] needs of the containers. *)
Lemma seg_ok_usable s : seg_ok s → usable (snd s) (allocators_ (fst s)) (allocators_by_name_ (fst s)).
Proof.
  intros HS. split.
  - intros k (id & ms & Hs)%(so_all _ HS). destruct (serves_backed _ _ _ _ HS Hs) as (_ & a & -> & _). eauto.
  - intros n ids k E Hk. destruct (proj1 (so_named _ HS n k)) as (id & ms & Hs & Hn).
    { unfold named. by rewrite E. }
    destruct (serves_backed _ _ _ _ HS Hs) as (_ & a & Ea & Hi & _). exists a. split; [done|].
    unfold ba_ident in Hi. by simplify_eq.
Qed.

Lemma backed_same w w' seg k : same_heap w w' → backed w seg k → backed w' seg k.
Proof.
  intros [Hs _] (a & E & Hi & Hb). specialize (Hs k). rewrite E in Hs. unfold backed.
  destruct (heap w' !! k) as [a'|]; [|done]. exists a'. simpl in Hs. injection Hs as E1 E2. unfold ba_ident in *. split; [done|]. split; congruence.
Qed.

(** Allocating and destroying buffers and objects does not concern the manager. *)
Lemma seg_ok_same sm w w' :
  same_heap w w' → metrics w' mem_total_capacity = metrics w mem_total_capacity → seg_ok (sm, w) → seg_ok (sm, w').
Proof.
  intros Hs Hm [H1 H2 H3 H4 H5 H6 H7 H8 H9]. split; simpl in *; try done.
  - intros id ms Hms. destruct (H1 id ms Hms) as [? Hok]. split; [done|]. unfold mounted_ok in *.
    destruct (ms_status ms); [done| |done]. destruct Hok as (k & ? & ?). exists k. split; [done|]. by eapply backed_same.
  - intros k Hk. by apply H8, (same_heap_is_Some w w').
  - congruence.
Qed.

Lemma seg_ok_init t : seg_ok (new_SegmentManager t, mkWorld ∅ 1 no_metrics).
Proof.
  split; simpl.
  - intros id ms. by rewrite lookup_empty.
  - by intros k id1 ms1 id2 ms2 [E _] _; simpl in E; rewrite lookup_empty in E.
  - constructor.
  - intros k. split; [set_solver|]. intros (id & ms & [E _]). by simpl in E; rewrite lookup_empty in E.
  - intros n. unfold named. simpl. rewrite lookup_empty. constructor.
  - intros n k. unfold named. simpl. rewrite lookup_empty. split; [set_solver|].
    intros (id & ms & [E _] & _). by simpl in E; rewrite lookup_empty in E.
  - intros n. by rewrite lookup_empty.
  - intros k. rewrite lookup_empty. by intros [? ?].
  - done.
Qed.

(** ** Mounting *)

Definition mount (seg : Segment) (client : UUID) (a : A) s : SegState (A := A) :=
  let '(sm, w) := s in let id := next_id w in
  (mkSegmentManager (memory_allocator_ sm) (allocators_ sm ++ [id])
     (<[seg_name seg := named sm (seg_name seg) ++ [id]]> (allocators_by_name_ sm))
     (<[seg_id seg := mkMounted seg SS_OK (Some id)]> (mounted_segments_ sm))
     (<[client := default [] (client_segments_ sm !! client) ++ [seg_id seg]]> (client_segments_ sm)),
   set_metrics (inc mem_total_capacity (seg_size seg)) (mkWorld (<[id := a]> (heap w)) (Pos.succ id) (metrics w))).

Lemma serves_mount sm k id ms seg new_id (m := mkMounted seg SS_OK (Some new_id)) sm' :
  mounted_segments_ sm' = <[seg_id seg := m]> (mounted_segments_ sm) →
  mounted_segments_ sm !! seg_id seg = None →
  serves sm' k id ms ↔ (k = new_id ∧ id = seg_id seg ∧ ms = m) ∨ serves sm k id ms.
Proof.
  intros E Hnone. unfold serves. rewrite E. destruct (decide (id = seg_id seg)) as [->|Hne].
  - rewrite lookup_insert_eq. split; [intros [? ?]; left; by simplify_eq/=|].
    intros [(-> & _ & ->)|[? _]]; [done|congruence].
  - rewrite lookup_insert_ne by done. naive_solver.
Qed.

Lemma named_insert sm sm' n n' l :
  allocators_by_name_ sm' = <[n := l]> (allocators_by_name_ sm) →
  named sm' n' = if decide (n' = n) then l else named sm n'.
Proof. intros E. unfold named. rewrite E. case_decide; subst; [by rewrite lookup_insert_eq|by rewrite lookup_insert_ne]. Qed.

Lemma serves_alive s k id ms : seg_ok s → serves (fst s) k id ms → is_Some (heap (snd s) !! k).
Proof. intros HS Hs. destruct (serves_backed _ _ _ _ HS Hs) as (_ & a & -> & _). eauto. Qed.

Lemma mounted_ok_mono w w' ms :
  (∀ k a, heap w !! k = Some a → heap w' !! k = Some a) → mounted_ok w ms → mounted_ok w' ms.
Proof.
  intros Hh. unfold mounted_ok. destruct (ms_status ms); [done| |done].
  intros (k & Ek & a & Ea & Ha). exists k. split; [done|]. exists a. split; [by apply Hh|done].
Qed.

Lemma mount_seg_ok seg client a s :
  seg_ok s → (∀ k, is_Some (heap (snd s) !! k) → (k < next_id (snd s))%positive) →
  mounted_segments_ (fst s) !! seg_id seg = None →
  ba_ident a = (seg_name seg, te_endpoint seg, seg_size seg) → ba_base a = seg_base seg →
  seg_ok (mount seg client a s).
Proof.
  destruct s as [sm w]. intros HS Hfr Hnone Hi Hb. simpl in *. set (id := next_id w).
  assert (∀ k i ms, serves sm k i ms → k ≠ id) as Hne.
  { intros k i ms Hs ->. pose proof (Hfr id (serves_alive _ _ _ _ HS Hs)). lia. }
  assert (∀ k a', heap w !! k = Some a' → <[id := a]> (heap w) !! k = Some a') as Hmono.
  { intros k a' E. rewrite lookup_insert_ne; [done|]. intros <-. pose proof (Hfr id ltac:(eauto)). lia. }
  set (sm' := mkSegmentManager _ _ _ _ _).
  assert (∀ k i ms, serves sm' k i ms ↔
    (k = id ∧ i = seg_id seg ∧ ms = mkMounted seg SS_OK (Some id)) ∨ serves sm k i ms) as Hsv
    by (intros; by apply serves_mount).
  assert (∀ n, named sm' n = if decide (n = seg_name seg) then named sm (seg_name seg) ++ [id] else named sm n) as Hnm
    by (intros; by apply named_insert).
  destruct HS as [H1 H2 H3 H4 H5 H6 H7 H8 H9]. split; simpl in *.
  - intros i ms Hms. destruct (decide (i = seg_id seg)) as [->|Hn].
    + rewrite lookup_insert_eq in Hms. simplify_eq/=. split; [done|]. exists id. split; [done|]. exists a. simpl.
      by rewrite lookup_insert_eq.
    + rewrite lookup_insert_ne in Hms by done. destruct (H1 i ms Hms). split; [done|]. by eapply mounted_ok_mono.
  - intros k i1 m1 i2 m2 [(-> & -> & _)|S1]%Hsv [(E & -> & _)|S2]%Hsv; try done.
    + by destruct (Hne _ _ _ S2). + by destruct (Hne _ _ _ S1). + by eapply H2.
  - apply NoDup_app. split; [done|]. split; [|apply NoDup_singleton].
    intros k Hk%H4 ->%list_elem_of_singleton. destruct Hk as (i & ms & Hs). by destruct (Hne _ _ _ Hs).
  - intros k. rewrite elem_of_app, list_elem_of_singleton, H4. setoid_rewrite Hsv. naive_solver.
  - intros n. rewrite Hnm. case_decide; [subst|done].
    apply NoDup_app. split; [done|]. split; [|apply NoDup_singleton].
    intros k (i & ms & Hs & _)%H6 ->%list_elem_of_singleton. by destruct (Hne _ _ _ Hs).
  - intros n k. rewrite Hnm. setoid_rewrite Hsv. case_decide as Hn.
    + subst. rewrite elem_of_app, list_elem_of_singleton, H6. naive_solver.
    + rewrite H6. naive_solver.
  - intros n. destruct (decide (n = seg_name seg)) as [->|Hn].
    + rewrite lookup_insert_eq. intros [= E]. by destruct (named sm (seg_name seg)).
    + by rewrite lookup_insert_ne.
  - intros k Hk. rewrite elem_of_app, list_elem_of_singleton. destruct (decide (k = id)) as [->|Hn]; [by right|].
    rewrite lookup_insert_ne in Hk by done. left. by apply H8.
  - rewrite inc_eq, H9. unfold total_capacity. simpl.
    rewrite (map_sum_insert (λ ms, seg_size (ms_segment ms))) by done. simpl. lia.
Qed.

(** ** Unmounting *)

Lemma referenced_spec sm k :
  (∀ k, k ∈ allocators_ sm ↔ ∃ id ms, serves sm k id ms) →
  (∀ n k, k ∈ named sm n → ∃ id ms, serves sm k id ms) →
  k ∈ referenced sm ↔ ∃ id ms, serves sm k id ms.
Proof.
  intros Hall Hnm. unfold referenced. rewrite !elem_of_union, !elem_of_list_to_set, Hall.
  split; [intros [[H|H]|H]; [done| |]|by auto].
  - apply list_elem_of_join in H as (l & Hk & Hl). apply list_elem_of_fmap in Hl as ([n l'] & -> & Hl).
    apply elem_of_map_to_list in Hl. apply (Hnm n). unfold named. by rewrite Hl.
  - apply list_elem_of_omap in H as ([id ms] & Hl & Hk). apply elem_of_map_to_list in Hl. by exists id, ms.
Qed.

(** The manager after phase one, for an allocator [k]. *)
Definition detach (id : UUID) (seg : Segment) (k : positive) sm : SegmentManager :=
  mkSegmentManager (memory_allocator_ sm) (erase_first k (allocators_ sm))
    (partial_alter (λ e, e ≫= drop_named (Some k)) (seg_name seg) (allocators_by_name_ sm))
    (<[id := mkMounted seg SS_UNMOUNTING None]> (mounted_segments_ sm)) (client_segments_ sm).

Lemma serves_detach id ms k k' id' ms' s :
  seg_ok s → serves (fst s) k id ms →
  serves (detach id (ms_segment ms) k (fst s)) k' id' ms' ↔ serves (fst s) k' id' ms' ∧ k' ≠ k.
Proof.
  intros HS Hs. unfold serves at 1. simpl. destruct (decide (id' = id)) as [->|Hne].
  - rewrite lookup_insert_eq. split; [intros [E1 E2]; by simplify_eq|].
    intros [[E1 E2] Hk]. destruct Hs. congruence.
  - rewrite lookup_insert_ne by done. unfold serves. split; [|naive_solver].
    intros [E1 E2]. split; [done|]. intros ->. by destruct Hne; eapply (so_inj _ HS).
Qed.

Lemma named_detach id seg k n sm :
  named (detach id seg k sm) n = if decide (n = seg_name seg) then erase_first k (named sm n) else named sm n.
Proof.
  unfold named, detach. simpl. case_decide as Hn; [subst|by rewrite lookup_partial_alter_ne].
  rewrite lookup_partial_alter_eq. destruct (allocators_by_name_ sm !! _) as [l|]; simpl; [|done].
  unfold drop_named. by case_decide.
Qed.

Lemma detach_containers id ms k s :
  seg_ok s → serves (fst s) k id ms → let sm' := detach id (ms_segment ms) k (fst s) in
  (∀ k', k' ∈ allocators_ sm' ↔ ∃ id' ms', serves sm' k' id' ms') ∧
  (∀ n k', k' ∈ named sm' n ↔ ∃ id' ms', serves sm' k' id' ms' ∧ seg_name (ms_segment ms') = n).
Proof.
  intros HS Hs sm'. split.
  - intros k'. unfold sm'. setoid_rewrite (serves_detach id ms k _ _ _ _ HS Hs). simpl.
    rewrite elem_of_erase_first by apply (so_nodup _ HS). rewrite (so_all _ HS). naive_solver.
  - intros n k'. unfold sm'. setoid_rewrite (serves_detach id ms k _ _ _ _ HS Hs). rewrite named_detach.
    case_decide as Hn.
    + rewrite elem_of_erase_first by apply (so_named_nodup _ HS). rewrite (so_named _ HS). naive_solver.
    + rewrite (so_named _ HS). split; [|naive_solver]. intros (id' & ms' & Hs' & En). exists id', ms'.
      split; [|done]. split; [done|]. intros ->. pose proof (so_inj _ HS _ _ _ _ _ Hs Hs') as <-.
      destruct Hs, Hs'. by simplify_eq.
Qed.

Lemma detach_heap id ms k s :
  seg_ok s → serves (fst s) k id ms →
  heap (snd (collect (detach id (ms_segment ms) k (fst s), snd s))) = delete k (heap (snd s)).
Proof.
  intros HS Hs. destruct (detach_containers _ _ _ _ HS Hs) as [Hall Hnm].
  assert (∀ k', k' ∈ referenced (detach id (ms_segment ms) k (fst s)) ↔
    (∃ id' ms', serves (fst s) k' id' ms' ∧ k' ≠ k)) as Href.
  { intros k'. rewrite referenced_spec; [|done|].
    - by setoid_rewrite (serves_detach _ _ _ _ _ _ _ HS Hs).
    - intros n k1 Hk. destruct (proj1 (Hnm n k1) Hk) as (? & ? & ? & _). eauto. }
  apply map_eq. intros k'. simpl. destruct (decide (k' = k)) as [->|Hne].
  - rewrite lookup_delete_eq. apply map_lookup_filter_None. right. intros a' _ (? & ? & _ & ?)%Href. done.
  - rewrite lookup_delete_ne by done. destruct (heap (snd s) !! k') as [a|] eqn:E.
    + apply map_lookup_filter_Some. split; [done|]. simpl. apply Href.
      destruct (proj1 (so_all _ HS k')) as (id' & ms' & Hs'); [apply (so_heap _ HS); by rewrite E|]. eauto.
    + apply map_lookup_filter_None. by left.
Qed.

Lemma detach_seg_ok id ms k s :
  seg_ok s → serves (fst s) k id ms → seg_ok (collect (detach id (ms_segment ms) k (fst s), snd s)).
Proof.
  intros HS Hs. pose proof (detach_heap _ _ _ _ HS Hs) as Hh. destruct (detach_containers _ _ _ _ HS Hs) as [Hall Hnm].
  pose proof (serves_detach id ms k) as Hsv.
  set (d := detach id (ms_segment ms) k (fst s)) in *. set (w' := snd (collect (d, snd s))) in *.
  change (collect (d, snd s)) with (d, w'). split; try done; cbn [fst snd].
  - intros id' ms' E. simpl in E. destruct (decide (id' = id)) as [->|Hne].
    + rewrite lookup_insert_eq in E. simplify_eq/=. by destruct (so_mounted _ HS _ _ (proj1 Hs)).
    + rewrite lookup_insert_ne in E by done. destruct (so_mounted _ HS _ _ E) as [? Hok]. split; [done|].
      unfold mounted_ok in *. destruct (ms_status ms'); [done| |done].
      destruct Hok as (k' & Ek & a & Ea & Ha). exists k'. split; [done|]. exists a. split; [|done].
      rewrite Hh, lookup_delete_ne; [done|]. intros <-. by destruct Hne; eapply (so_inj _ HS).
  - intros k' id1 m1 id2 m2 [S1 _]%(Hsv _ _ _ _ HS Hs) [S2 _]%(Hsv _ _ _ _ HS Hs). by eapply (so_inj _ HS).
  - apply erase_first_NoDup, (so_nodup _ HS).
  - intros n. unfold d. rewrite named_detach. case_decide; [apply erase_first_NoDup|]; apply (so_named_nodup _ HS).
  - intros n. simpl. destruct (decide (n = seg_name (ms_segment ms))) as [->|Hn].
    + rewrite lookup_partial_alter_eq. destruct (allocators_by_name_ _ !! _) as [l|]; simpl; [|done].
      unfold drop_named. case_decide; congruence.
    + rewrite lookup_partial_alter_ne by done. apply (so_nonempty _ HS).
  - intros k' Hk'. rewrite Hh in Hk'. apply Hall. destruct (decide (k' = k)) as [->|Hne].
    { rewrite lookup_delete_eq in Hk'. by destruct Hk'. }
    rewrite lookup_delete_ne in Hk' by done.
    destruct (proj1 (so_all _ HS k') (so_heap _ HS _ Hk')) as (id' & ms' & Hs'). exists id', ms'.
    by apply (Hsv _ _ _ _ HS Hs).
  - simpl. rewrite (so_capacity _ HS). unfold total_capacity. simpl.
    rewrite <-(insert_delete_eq (mounted_segments_ (fst s)) id).
    rewrite (map_sum_insert (λ ms, seg_size (ms_segment ms))) by apply lookup_delete_eq.
    by rewrite (map_sum_delete (λ ms, seg_size (ms_segment ms)) _ _ _ (proj1 Hs)).
Qed.

Lemma commit_seg_ok id client ms s s' :
  seg_ok s → mounted_segments_ (fst s) !! id = Some ms → ms_status ms = SS_UNMOUNTING →
  CommitUnmountSegment id client (seg_size (ms_segment ms)) s = Some (EC.OK, s') → seg_ok s'.
Proof.
  destruct s as [sm w]. intros HS Hm Hst E. cbn in E. injection E as <-.
  set (sm' := mkSegmentManager _ _ _ _ _).
  assert (ms_allocator ms = None) as Hnone.
  { destruct (so_mounted _ HS _ _ Hm) as [_ Hok]. unfold mounted_ok in Hok. by rewrite Hst in Hok. }
  assert (∀ k i m, serves sm' k i m ↔ serves sm k i m) as Hsv.
  { intros k i m. unfold serves, sm'. simpl. simpl in Hm. rewrite lookup_delete_Some. split; [naive_solver|].
    intros [E1 E2]. split; [|done]. split; [|done]. intros <-. by simplify_eq. }
  destruct HS as [H1 H2 H3 H4 H5 H6 H7 H8 H9]. split; simpl in *; try done.
  - intros i m. rewrite lookup_delete_Some. intros [_ E]. by apply H1.
  - intros k i1 m1 i2 m2 S1%Hsv S2%Hsv. by eapply H2.
  - intros k. setoid_rewrite Hsv. apply H4.
  - intros n k. setoid_rewrite Hsv. apply H6.
  - unfold dec. rewrite inc_eq, H9. unfold total_capacity. simpl.
    rewrite (map_sum_delete (λ ms, seg_size (ms_segment ms)) _ _ _ Hm). lia.
Qed.

(** ** The operations *)

(** The segment is a range of a 64-bit address space. *)
Definition region_ok (seg : Segment) : Prop :=
  is_u64 (seg_base seg) ∧ is_u64 (seg_size seg) ∧ seg_base seg + seg_size seg <= 2 ^ 64.

(** Mounting leaves what is mounted and what is alive alone. *)
Record extends s s' : Prop := {
  ex_mounted id ms : mounted_segments_ (fst s) !! id = Some ms → mounted_segments_ (fst s') !! id = Some ms;
  ex_heap k a : heap (snd s) !! k = Some a → heap (snd s') !! k = Some a;
  ex_unmounting id ms : mounted_segments_ (fst s') !! id = Some ms → ms_status ms = SS_UNMOUNTING →
    mounted_segments_ (fst s) !! id = Some ms;
  ex_fresh k : is_Some (heap (snd s') !! k) → is_Some (heap (snd s) !! k) ∨ (next_id (snd s) <= k)%positive;
  ex_next : (next_id (snd s) <= next_id (snd s'))%positive;
}.

#[export] Instance extends_preorder : PreOrder extends.
Proof.
  split; [intros s; split; auto; lia|]. intros s1 s2 s3 [H1 H2 H4 H5 H6] [G1 G2 G4 G5 G6]. split; eauto.
  - intros k [Hk|Hk]%G5; [auto|right; lia].
  - lia.
Qed.

Definition gauges_kept s s' : Prop := ∀ g, g ≠ mem_total_capacity → metrics (snd s') g = metrics (snd s) g.

Lemma ScopedMountSegment_ok seg client s bs os :
  seg_ok s → world_ok (snd s) bs os → region_ok seg →
  runs (ScopedMountSegment seg client) s (λ e s', seg_ok s' ∧ world_ok (snd s') bs os ∧ extends s s' ∧ gauges_kept s s' ∧
    (e = EC.OK ∧ (∃ a, s' = mount seg client a s) ∨
     e ≠ EC.OK ∧ s' = s ∧ (e = EC.SEGMENT_ALREADY_EXISTS → is_Some (mounted_segments_ (fst s) !! seg_id seg)))).
Proof.
  destruct s as [sm w]. intros HS HW (Hb & Hsz & Hr). unfold runs, ScopedMountSegment. cbn [fst].
  assert (∀ e, e ≠ EC.OK → (e = EC.SEGMENT_ALREADY_EXISTS → is_Some (mounted_segments_ sm !! seg_id seg)) →
    ∃ x s', Some (e, (sm, w)) = Some (x, s') ∧ seg_ok s' ∧ world_ok (snd s') bs os ∧
    extends (sm, w) s' ∧ gauges_kept (sm, w) s' ∧ (x = EC.OK ∧ (∃ a, s' = mount seg client a (sm, w)) ∨
      x ≠ EC.OK ∧ s' = (sm, w) ∧ (x = EC.SEGMENT_ALREADY_EXISTS → is_Some (mounted_segments_ sm !! seg_id seg)))) as Hstay
    by (intros e He Hx; eexists _, _; split; [reflexivity|]; split_and!; [done..|by right]).
  destruct (_ || _); [by apply Hstay|]. destruct (_ && _); [by apply Hstay|].
  destruct (mounted_segments_ sm !! seg_id seg) as [ms|] eqn:Em.
  { apply Hstay; [by case_decide|eauto]. }
  destruct (ba_create _ _ _ _) as [a|] eqn:Ec; [|by apply Hstay].
  destruct (ba_create_ok _ _ _ _ _ Hb Hsz Hr Ec) as (Hinv & Hid & Hbase).
  assert (∀ k, is_Some (heap w !! k) → (k < next_id w)%positive) as Hfr by apply (ho_heap _ _ (wo_heap _ _ _ HW)).
  assert (∀ k a', heap w !! k = Some a' → <[next_id w := a]> (heap w) !! k = Some a') as Hmono.
  { intros k a' E. rewrite lookup_insert_ne; [done|]. intros <-. pose proof (Hfr (next_id w) ltac:(eauto)). lia. }
  eexists _, (mount seg client a (sm, w)). split; [reflexivity|]. split_and!.
  - by apply mount_seg_ok.
  - apply (world_ok_heap w); [done| |simpl; lia|].
    + intros k a' E. simpl in E. destruct (decide (k = next_id w)) as [->|Hne].
      * rewrite lookup_insert_eq in E. simplify_eq. right. simpl. split; [lia|done].
      * rewrite lookup_insert_ne in E by done. by left.
    + intros g Hg. simpl. rewrite inc_ne; [done|by intros ->].
  - split; simpl; [|done| | |lia].
    + intros id ms E. rewrite lookup_insert_ne; [done|congruence].
    + intros id ms [[_ <-]|[_ ?]]%lookup_insert_Some Hst; done.
    + intros k [a' [[<- _]|[_ ?]]%lookup_insert_Some]; [right; lia|left; eauto].
  - intros g Hg. simpl. by rewrite inc_ne.
  - left. eauto.
Qed.

Lemma ScopedReMountSegment_ok segs client s bs os :
  seg_ok s → world_ok (snd s) bs os → Forall region_ok segs →
  runs (ScopedReMountSegment segs client) s (λ _ s', seg_ok s' ∧ world_ok (snd s') bs os ∧ extends s s' ∧ gauges_kept s s').
Proof.
  intros HS HW HF. revert s HS HW. induction HF as [|seg segs Hseg HF IH]; intros s HS HW; simpl; [by apply runs_ret|].
  runs_step. eapply runs_mono; [by apply ScopedMountSegment_ok|]. intros e s1 (HS1 & HW1 & He & Hg & _).
  case_decide; [by apply runs_ret|]. eapply runs_mono; [by apply IH|]. intros e' s2 (? & ? & ? & Hg2).
  split_and!; [done..|by etrans|]. intros g Hne. by rewrite Hg2, Hg.
Qed.

Lemma PrepareUnmountSegment_ok id cap s bs os :
  seg_ok s → world_ok (snd s) bs os →
  runs (PrepareUnmountSegment id cap) s (λ r s', seg_ok s' ∧ world_ok (snd s') bs os ∧
    (s' = s ∧ mounted_segments_ (fst s) !! id = None ∧ r = (EC.SEGMENT_NOT_FOUND, cap) ∨
     s' = s ∧ (∃ ms, mounted_segments_ (fst s) !! id = Some ms ∧ ms_status ms = SS_UNMOUNTING) ∧
       r = (EC.UNAVAILABLE_IN_CURRENT_STATUS, cap) ∨
     ∃ ms k, r = (EC.OK, seg_size (ms_segment ms)) ∧ serves (fst s) k id ms ∧
       s' = collect (detach id (ms_segment ms) k (fst s), snd s))).
Proof.
  destruct s as [sm w]. intros HS HW. unfold runs, PrepareUnmountSegment.
  destruct (mounted_segments_ sm !! id) as [ms|] eqn:Em;
    [|eexists _, _; split; [reflexivity|]; split_and!; [done..|by left]].
  case_decide as Hst; [eexists _, _; split; [reflexivity|]; split_and!; [done..|right; left; by eauto]|].
  destruct (so_mounted _ HS _ _ Em) as [_ Hok]. unfold mounted_ok in Hok.
  destruct (ms_status ms); [done| |done]. destruct Hok as (k & Ek & _).
  assert (serves sm k id ms) as Hs by done. rewrite Ek.
  pose proof (detach_heap _ _ _ _ HS Hs) as Hh.
  eexists _, (collect (detach id (ms_segment ms) k sm, w)). split; [reflexivity|]. split_and!.
  - by apply (detach_seg_ok id ms k (sm, w)).
  - apply (world_ok_heap w); [done| |simpl; lia|done].
    intros k' a E. cbn [fst snd] in Hh. rewrite Hh in E. left. by apply lookup_delete_Some in E as [_ ?].
  - right. right. by exists ms, k.
Qed.
End invariant.
