(* ===== verification/MasterService.v ===== *)
(** * MasterService: the metadata server of the store

    master_service.h and master_service.cpp, one definition per method.  A method
    that holds a lock for its whole body is one definition on the state; a method
    that takes locks one after the other is built from one definition per
    critical section, which MasterSteps interleaves.

    Arguments that stand for what the method reads from outside: [now] is the
    steady clock, [room] whether the ping queue accepts one more entry, [order]
    the order in which a shard's [unordered_map] lists its keys, [shuffle] the
    random arrangement of AllocationStrategy.  [hash] is [std::hash<std::string>]
    and [regex_ok], [regex_search] are the regular expression library. *)

From S2P Require Import Prelude Types BufferAllocator Replica AllocationStrategy SegmentManager StorePath.
From S2P Require Import Float64.
Open Scope Z_scope.

Definition kNumShards : nat := 1024.

(** ** Configuration and state *)

Record MasterServiceConfig := mkMasterServiceConfig {
  default_kv_lease_ttl : Z;
  default_kv_soft_pin_ttl : Z;
  allow_evict_soft_pinned_objects : bool;
  eviction_ratio : spec_float;
  eviction_high_watermark_ratio : spec_float;
  client_live_ttl_sec : Z;
  cluster_id : string;
  root_fs_dir : string;
  global_file_segment_size : Z;
  memory_allocator : BufferAllocatorType;
}.

Record Master (A B : Type) := mkMaster {
  metadata_shards_ : list (gmap string (ObjectMetadata B));
  ok_client_ : gset UUID;
  client_ping_queue_ : list UUID;
  need_eviction_ : bool;
  segment_manager_ : SegmentManager;
  world_ : World A;
}.
#[global] Arguments mkMaster {A B}.
#[global] Arguments metadata_shards_ {A B}.
#[global] Arguments ok_client_ {A B}.
#[global] Arguments client_ping_queue_ {A B}.
#[global] Arguments need_eviction_ {A B}.
#[global] Arguments segment_manager_ {A B}.
#[global] Arguments world_ {A B}.

(** [tl::expected<T, ErrorCode>] *)
Abbreviation expected T := (ErrorCode + T)%type (only parsing).

Record PingResponse := mkPingResponse { view_version_id : Z; client_status : ClientStatus }.
Record GetReplicaListResponse := mkGetReplicaListResponse { r_replicas : list Descriptor; lease_ttl_ms : Z }.

Section master.
Context {A B : Type} {ops : BufferAllocator A B}.
Variables (cfg : MasterServiceConfig) (hash : string → Z).

Abbreviation Master := (Master A B).
Abbreviation M := (ST Master).
Abbreviation Metadata := (ObjectMetadata B).

Definition set_shards (sh : list (gmap string Metadata)) (m : Master) : Master :=
  mkMaster sh (ok_client_ m) (client_ping_queue_ m) (need_eviction_ m) (segment_manager_ m) (world_ m).
Definition set_ok_client (c : gset UUID) (m : Master) : Master :=
  mkMaster (metadata_shards_ m) c (client_ping_queue_ m) (need_eviction_ m) (segment_manager_ m) (world_ m).
Definition set_ping_queue (q : list UUID) (m : Master) : Master :=
  mkMaster (metadata_shards_ m) (ok_client_ m) q (need_eviction_ m) (segment_manager_ m) (world_ m).
Definition set_need_eviction (b : bool) (m : Master) : Master :=
  mkMaster (metadata_shards_ m) (ok_client_ m) (client_ping_queue_ m) b (segment_manager_ m) (world_ m).
Definition set_segment_state (s : SegState (A := A)) (m : Master) : Master :=
  mkMaster (metadata_shards_ m) (ok_client_ m) (client_ping_queue_ m) (need_eviction_ m) (fst s) (snd s).
Definition set_world (w : World A) (m : Master) : Master :=
  mkMaster (metadata_shards_ m) (ok_client_ m) (client_ping_queue_ m) (need_eviction_ m) (segment_manager_ m) w.

(** Running code on a part of the state. *)
Definition on_world {X} (c : ST (World A) X) : M X := λ m,
  '(x, w) ← c (world_ m); Some (x, set_world w m).
Definition on_segments {X} (c : ST (SegState (A := A)) X) : M X := λ m,
  '(x, s) ← c (segment_manager_ m, world_ m); Some (x, set_segment_state s m).
Definition bump (f : Metrics → Metrics) : M unit := on_world (modify (set_metrics f)).

Definition use_disk_replica : bool := negb (bool_decide (root_fs_dir cfg = EmptyString)).

(** The constructor; the two threads it starts are the steps of
    [EvictionThreadFunc] and [ClientMonitorFunc] below.  [None] is the exception
    for a ratio outside [0, 1]. *)
Definition in_unit (r : spec_float) : bool :=
  negb (f64_lt r f64_zero) && negb (f64_lt f64_one r).

Definition new_Master : option Master :=
  if in_unit (eviction_ratio cfg) && in_unit (eviction_high_watermark_ratio cfg) then
    let w := mkWorld ∅ 1 no_metrics in
    let w := if use_disk_replica then set_metrics (inc file_total_capacity (global_file_segment_size cfg)) w else w in
    Some (mkMaster (replicate kNumShards ∅) ∅ [] false (new_SegmentManager (memory_allocator cfg)) w)
  else None.

(** ** Metadata access *)

Definition getShardIndex (key : string) : nat := Z.to_nat (hash key mod Z.of_nat kNumShards).

Definition get_shard (i : nat) : M (gmap string Metadata) := λ m,
  sh ← metadata_shards_ m !! i; Some (sh, m).
Definition put_shard (i : nat) (sh : gmap string Metadata) : M unit :=
  modify (λ m, set_shards (<[i := sh]> (metadata_shards_ m)) m).

Definition find_key (key : string) : M (option Metadata) :=
  sh ← get_shard (getShardIndex key); mret (sh !! key).
Definition store_key (i : nat) (key : string) (o : Metadata) : M unit :=
  sh ← get_shard i; put_shard i (<[key := o]> sh).
(** [metadata.erase(it)] destroys the object. *)
Definition erase_key (i : nat) (key : string) (o : Metadata) : M unit :=
  sh ← get_shard i; put_shard i (delete key sh);; on_world (destroy_metadata o).

Fixpoint cleanup_replicas (rs : list (Replica B)) : ST (World A) (list (Replica B)) :=
  match rs with
  | [] => mret []
  | r :: rs =>
      stale ← gets (λ w, has_invalid_mem_handle w r);
      if (stale : bool) then destroy_replicas [r];; cleanup_replicas rs
      else rs' ← cleanup_replicas rs; mret (r :: rs')
  end.

(** The object after the clean-up, and whether no replica is left. *)
Definition CleanupStaleHandles (o : Metadata) : M (bool * Metadata) :=
  rs ← on_world (cleanup_replicas (replicas o));
  mret (bool_decide (rs = []), set_replicas rs o).

(** The constructor of [MetadataAccessor]: [None] when [Exists()] is false. *)
Definition access (key : string) : M (option Metadata) :=
  let i := getShardIndex key in
  e ← find_key key;
  match e with
  | None => mret None
  | Some o =>
      '(stale, o') ← CleanupStaleHandles o;
      if (stale : bool) then erase_key i key o';; mret None
      else store_key i key o';; mret (Some o')
  end.

(** ** Segments *)

Definition ping_push (room : bool) (client_id : UUID) : M bool :=
  if room then modify (λ m, set_ping_queue (client_ping_queue_ m ++ [client_id]) m);; mret true
  else mret false.

Definition MountSegment (room : bool) (segment : Segment) (client_id : UUID) : M (expected unit) :=
  pushed ← ping_push room client_id;
  if negb pushed then mret (inl EC.INTERNAL_ERROR) else
  err ← on_segments (ScopedMountSegment segment client_id);
  if decide (err = EC.SEGMENT_ALREADY_EXISTS) then mret (inr tt)
  else if decide (err = EC.OK) then mret (inr tt) else mret (inl err).

Definition ReMountSegment (room : bool) (segments : list Segment) (client_id : UUID) : M (expected unit) :=
  oks ← gets ok_client_;
  if decide (client_id ∈ oks) then mret (inr tt) else
  pushed ← ping_push room client_id;
  if negb pushed then mret (inl EC.INTERNAL_ERROR) else
  err ← on_segments (ScopedReMountSegment segments client_id);
  if decide (err = EC.OK) then
    modify (λ m, set_ok_client ({[client_id]} ∪ ok_client_ m) m);;
    bump (inc active_clients 1);;
    mret (inr tt)
  else mret (inl err).

(** The keys of one shard, in iteration order; erasing a key does not disturb
    the others. *)
Fixpoint for_keys {X} (i : nat) (body : string → Metadata → X → M X) (ks : list string) (acc : X) : M X :=
  match ks with
  | [] => mret acc
  | k :: ks =>
      sh ← get_shard i;
      match sh !! k with
      | None => fault
      | Some o => acc' ← body k o acc; for_keys i body ks acc'
      end
  end.

Definition for_shard {X} (order : gmap string Metadata → list string) (i : nat)
    (body : string → Metadata → X → M X) (acc : X) : M X :=
  sh ← get_shard i; for_keys i body (order sh) acc.

(** A critical section for each shard of the list in turn. *)
Fixpoint for_shards {X} (shards : list nat) (section : nat → X → M X) (acc : X) : M X :=
  match shards with
  | [] => mret acc
  | i :: shards => acc' ← section i acc; for_shards shards section acc'
  end.

Definition all_shards : list nat := seq 0 kNumShards.

Definition clear_shard order (i : nat) : M unit :=
  for_shard order i (λ k o _,
    '(stale, o') ← CleanupStaleHandles o;
    if (stale : bool) then erase_key i k o' else store_key i k o') tt.

Definition ClearInvalidHandles order : M unit :=
  for_shards all_shards (λ i _, clear_shard (order i) i) tt.

Definition UnmountSegment order (segment_id client_id : UUID) : M (expected unit) :=
  '(err, metrics_dec_capacity) ← on_segments (PrepareUnmountSegment segment_id 0);
  if decide (err = EC.SEGMENT_NOT_FOUND) then mret (inr tt)
  else if negb (bool_decide (err = EC.OK)) then mret (inl err) else
  ClearInvalidHandles order;;
  err ← on_segments (CommitUnmountSegment segment_id client_id metrics_dec_capacity);
  if negb (bool_decide (err = EC.OK)) then mret (inl err) else mret (inr tt).

Definition GetAllSegments : M (expected (list string)) :=
  names ← gets (λ m, ScopedGetAllSegments (segment_manager_ m)); mret (inr names).

Definition QuerySegments (segment : string) : M (expected (Z * Z)) :=
  on_segments (ScopedQuerySegments segment).

(** ** Objects *)

Definition is_complete (r : Replica B) : bool := bool_decide (status_ r = COMPLETE).

Definition ExistKey (now : Z) (key : string) : M (expected bool) :=
  e ← access key;
  match e with
  | None => mret (inr false)
  | Some o =>
      if existsb is_complete (replicas o) then
        store_key (getShardIndex key) key (GrantLease now (default_kv_lease_ttl cfg) (default_kv_soft_pin_ttl cfg) o);;
        mret (inr true)
      else mret (inr false)
  end.

(** A batch: one call per key, each at its own time. *)
Fixpoint batch {X Y} (f : X → M Y) (xs : list X) : M (list Y) :=
  match xs with
  | [] => mret []
  | x :: xs => y ← f x; ys ← batch f xs; mret (y :: ys)
  end.

Definition BatchExistKey (keys : list (Z * string)) : M (list (expected bool)) :=
  batch (λ tk, ExistKey (fst tk) (snd tk)) keys.

Definition GetAllKeys (order : nat → gmap string Metadata → list string) : M (expected (list string)) :=
  ks ← for_shards all_shards (λ i acc, for_shard (order i) i (λ k _ acc, mret (acc ++ [k])) acc) [];
  mret (inr ks).

Definition GetKeyCount : M Z :=
  for_shards all_shards (λ i total, sh ← get_shard i; mret (total + Z.of_nat (map_size sh))) 0.

Definition complete_descriptors (w : World A) (o : Metadata) : list Descriptor :=
  get_descriptor w <$> filter (λ r, status_ r = COMPLETE) (replicas o).

Definition GetReplicaList (now : Z) (key : string) : M (expected GetReplicaListResponse) :=
  e ← access key;
  match e with
  | None => mret (inl EC.OBJECT_NOT_FOUND)
  | Some o =>
      replica_list ← gets (λ m, complete_descriptors (world_ m) o);
      if bool_decide (replica_list = []) then mret (inl EC.REPLICA_IS_NOT_READY) else
      store_key (getShardIndex key) key (GrantLease now (default_kv_lease_ttl cfg) (default_kv_soft_pin_ttl cfg) o);;
      mret (inr (mkGetReplicaListResponse replica_list (default_kv_lease_ttl cfg)))
  end.

(** [results.emplace(key, ...)] appends: the keys of all shards are distinct. *)
Definition regex_shard (regex_search : string → string → bool) (pattern : string) (now : string → Z)
    (order : gmap string Metadata → list string) (i : nat)
    (results : list (string * list Descriptor)) : M (list (string * list Descriptor)) :=
  for_shard order i (λ k o results,
    if regex_search k pattern then
      replica_list ← gets (λ m, complete_descriptors (world_ m) o);
      if bool_decide (replica_list = []) then mret results else
      store_key i k (GrantLease (now k) (default_kv_lease_ttl cfg) (default_kv_soft_pin_ttl cfg) o);;
      mret (results ++ [(k, replica_list)])
    else mret results) results.

Definition GetReplicaListByRegex (regex_ok : string → bool) (regex_search : string → string → bool)
    (times : nat → string → Z) (order : nat → gmap string Metadata → list string) (regex_pattern : string)
    : M (expected (list (string * list Descriptor))) :=
  if negb (regex_ok regex_pattern) then mret (inl EC.INVALID_PARAMS) else
  results ← for_shards all_shards (λ i, regex_shard regex_search regex_pattern (times i) (order i) i) [];
  mret (inr results).

Definition to_chars (s : string) : list Ascii.ascii := String.list_ascii_of_string s.
Definition of_chars (s : list Ascii.ascii) : string := String.string_of_list_ascii s.

Definition resolve_path (key : string) : string :=
  of_chars (ResolvePath (λ k, hash (of_chars k)) (to_chars (root_fs_dir cfg)) (to_chars (cluster_id cfg)) (to_chars key)).

Definition total_length (slice_lengths : list Z) : Z := foldl (λ acc n, u64 (acc + n)) 0 slice_lengths.

(** [metadata.emplace]: the node is built first; when the key is present it is
    destroyed again and the map keeps the old object. *)
Definition emplace_key (i : nat) (key : string) (value_length : Z) (reps : list (Replica B)) (pin : bool) : M unit :=
  o ← on_world (new_metadata value_length reps pin);
  sh ← get_shard i;
  match sh !! key with
  | Some _ => on_world (destroy_metadata o)
  | None => put_shard i (<[key := o]> sh)
  end.

Definition PutStart (shuffle : nat → nat → list nat → list nat) (key : string) (slice_lengths : list Z)
    (config : ReplicateConfig) : M (expected (list Descriptor)) :=
  if (replica_num config =? 0) || bool_decide (key = EmptyString) || bool_decide (slice_lengths = [])
  then mret (inl EC.INVALID_PARAMS)
  else if bool_decide (memory_allocator cfg = CACHELIB) && existsb (λ n, kMaxSliceSize <? n) slice_lengths
  then mret (inl EC.INVALID_PARAMS)
  else
  let i := getShardIndex key in
  it ← find_key key;
  exists_ok ← match it with
    | None => mret false
    | Some o => '(stale, o') ← CleanupStaleHandles o; store_key i key o';; mret (negb stale)
    end;
  if (exists_ok : bool) then mret (inl EC.OBJECT_ALREADY_EXISTS) else
  sm ← gets segment_manager_;
  allocation_result ← on_world (Allocate shuffle (allocators_ sm) (allocators_by_name_ sm) slice_lengths config);
  match allocation_result with
  | inl e =>
      if decide (e = EC.INVALID_PARAMS) then mret (inl EC.INVALID_PARAMS) else
      modify (set_need_eviction true);;
      mret (inl EC.NO_AVAILABLE_HANDLE)
  | inr reps =>
      let reps := if use_disk_replica
        then reps ++ [mkReplica (DiskReplicaData (resolve_path key) (total_length slice_lengths)) PROCESSING] else reps in
      replica_list ← gets (λ m, get_descriptor (world_ m) <$> reps);
      emplace_key i key (total_length slice_lengths) reps (with_soft_pin config);;
      mret (inr replica_list)
  end.

Definition mark_type (t : ReplicaType) (o : Metadata) : Metadata :=
  set_replicas ((λ r, if decide (type r = t) then mark_complete r else r) <$> replicas o) o.

Definition PutEnd (now : Z) (key : string) (replica_type : ReplicaType) : M (expected unit) :=
  e ← access key;
  match e with
  | None => mret (inl EC.OBJECT_NOT_FOUND)
  | Some o =>
      store_key (getShardIndex key) key (GrantLease now 0 (default_kv_soft_pin_ttl cfg) (mark_type replica_type o));;
      mret (inr tt)
  end.

Definition PutRevoke (key : string) (replica_type : ReplicaType) : M (expected unit) :=
  e ← access key;
  match e with
  | None => mret (inl EC.OBJECT_NOT_FOUND)
  | Some o =>
      match HasDiffRepStatus PROCESSING replica_type o with
      | Some _ => mret (inl EC.INVALID_WRITE)
      | None =>
          let i := getShardIndex key in
          o' ← on_world (EraseReplica replica_type o);
          (if IsValid o' then store_key i key o' else erase_key i key o');;
          mret (inr tt)
      end
  end.

Definition BatchPutEnd (keys : list (Z * string)) : M (list (expected unit)) :=
  batch (λ tk, PutEnd (fst tk) (snd tk) MEMORY) keys.
Definition BatchPutRevoke (keys : list string) : M (list (expected unit)) :=
  batch (λ k, PutRevoke k MEMORY) keys.

Definition Remove (now : Z) (key : string) : M (expected unit) :=
  e ← access key;
  match e with
  | None => mret (inl EC.OBJECT_NOT_FOUND)
  | Some o =>
      if negb (IsLeaseExpired now o) then mret (inl EC.OBJECT_HAS_LEASE)
      else if negb (IsAllReplicasComplete o) then mret (inl EC.REPLICA_IS_NOT_READY)
      else erase_key (getShardIndex key) key o;; mret (inr tt)
  end.

Definition remove_regex_shard (regex_search : string → string → bool) (pattern : string) (now : string → Z)
    (order : gmap string Metadata → list string) (i : nat) (removed_count : Z) : M Z :=
  for_shard order i (λ k o removed_count,
    if regex_search k pattern then
      if negb (IsLeaseExpired (now k) o) then mret removed_count
      else if negb (IsAllReplicasComplete o) then mret removed_count
      else erase_key i k o;; mret (removed_count + 1)
    else mret removed_count) removed_count.

Definition RemoveByRegex (regex_ok : string → bool) (regex_search : string → string → bool)
    (times : nat → string → Z) (order : nat → gmap string Metadata → list string) (regex_pattern : string) : M (expected Z) :=
  if negb (regex_ok regex_pattern) then mret (inl EC.INVALID_PARAMS) else
  removed ← for_shards all_shards (λ i, remove_regex_shard regex_search regex_pattern (times i) (order i) i) 0;
  mret (inr removed).

Definition remove_all_shard (now : Z) (order : gmap string Metadata → list string) (i : nat)
    (acc : Z * Z) : M (Z * Z) :=
  for_shard order i (λ k o '(removed_count, total_freed_size),
    if IsLeaseExpired now o then
      erase_key i k o;;
      mret (removed_count + 1, u64 (total_freed_size + u64 (size o * GetMemReplicaCount o)))
    else mret (removed_count, total_freed_size)) acc.

Definition RemoveAll (now : Z) (order : nat → gmap string Metadata → list string) : M Z :=
  '(removed_count, _) ← for_shards all_shards (λ i, remove_all_shard now (order i) i) (0, 0);
  mret removed_count.

(** ** Clients *)

(** [view_version_] has no initializer, so the reply carries whatever value
    [view_version] the member happens to have. *)
Definition Ping (view_version : Z) (room : bool) (client_id : UUID) : M (expected PingResponse) :=
  oks ← gets ok_client_;
  let client_status := if decide (client_id ∈ oks) then CS_OK else CS_NEED_REMOUNT in
  pushed ← ping_push room client_id;
  if negb pushed then mret (inl EC.INTERNAL_ERROR)
  else mret (inr (mkPingResponse view_version client_status)).

(** One round of [ClientMonitorFunc], whose local state is [client_ttl].  First
    the queue is emptied. *)
Definition monitor_drain (now : Z) (client_ttl : gmap UUID Z) : M (gmap UUID Z) := λ m,
  Some (foldl (λ ttl id, <[id := now + seconds (client_live_ttl_sec cfg)]> ttl) client_ttl (client_ping_queue_ m),
        set_ping_queue [] m).

(** The expired clients ([listed] is the iteration order of the map), and the
    clients that stay. *)
Definition monitor_expired (now : Z) (listed : list UUID) (client_ttl : gmap UUID Z) : list UUID * gmap UUID Z :=
  (filter (λ id, default now (client_ttl !! id) < now) listed, filter (λ e, ¬ e.2 < now) client_ttl).

(** Under the client and the segment mutex: the clients lose their status, and
    their segments are prepared.  A record is what the commit phase needs. *)
Definition Unmounting : Type := UUID * UUID * Z.

Fixpoint expire_clients (clients : list UUID) : M unit :=
  match clients with
  | [] => mret tt
  | client_id :: rest =>
      oks ← gets ok_client_;
      (if decide (client_id ∈ oks) then
         modify (set_ok_client (oks ∖ {[client_id]}));; bump (dec active_clients 1)
       else mret tt);;
      expire_clients rest
  end.

Fixpoint prepare_segments (client_id : UUID) (segments : list Segment) : M (list Unmounting) :=
  match segments with
  | [] => mret []
  | seg :: rest =>
      '(err, cap) ← on_segments (PrepareUnmountSegment (seg_id seg) 0);
      us ← prepare_segments client_id rest;
      mret (if decide (err = EC.OK) then (seg_id seg, client_id, cap) :: us else us)
  end.

Fixpoint prepare_clients (clients : list UUID) : M (list Unmounting) :=
  match clients with
  | [] => mret []
  | client_id :: rest =>
      segments ← gets (λ m, snd (GetClientSegments client_id [] (segment_manager_ m)));
      us ← prepare_segments client_id segments;
      vs ← prepare_clients rest;
      mret (us ++ vs)
  end.

Definition monitor_prepare (expired_clients : list UUID) : M (list Unmounting) :=
  expire_clients expired_clients;;
  prepare_clients expired_clients.

Fixpoint monitor_commit (us : list Unmounting) : M unit :=
  match us with
  | [] => mret tt
  | (segment_id, client_id, cap) :: us =>
      on_segments (CommitUnmountSegment segment_id client_id cap);;
      monitor_commit us
  end.

Definition ClientMonitorRound (now : Z) (order : nat → gmap string Metadata → list string)
    (list_clients : gmap UUID Z → list UUID) (client_ttl : gmap UUID Z) : M (gmap UUID Z) :=
  ttl ← monitor_drain now client_ttl;
  let '(expired_clients, ttl') := monitor_expired now (list_clients ttl) ttl in
  if bool_decide (expired_clients = []) then mret ttl' else
  us ← monitor_prepare expired_clients;
  (if bool_decide (us = []) then mret tt else ClearInvalidHandles order;; monitor_commit us);;
  mret ttl'.
End master.
