(* ===== verification/BatchEvict.v ===== *)
(** * BatchEvict: making room

    [BatchEvict] and [EvictionThreadFunc] of master_service.cpp.  Each shard is
    visited under its own lock; what the passes carry from shard to shard is the
    record [EvictLocals].  [std::nth_element] is the [n]-th element of the sorted
    list, [start_idx] the random first shard.  The numbers of objects to evict
    are computed in double precision, as in the source. *)

From S2P Require Import Prelude Types Float64 BufferAllocator Replica AllocationStrategy SegmentManager.
From S2P Require Import MasterService.
Open Scope Z_scope.

Record EvictLocals := mkEvictLocals {
  evicted_count : Z;
  object_count : Z;
  total_freed_size : Z;
  no_pin_objects : list Z;
  soft_pin_objects : list Z;
}.

(** [std::ceil(count * ratio) - evicted], converted to [long]. *)
Definition ideal_num (count : Z) (ratio : spec_float) (evicted : Z) : Z :=
  f64_trunc (f64_sub (f64_ceil (f64_mul (f64_of_Z count) ratio)) (f64_of_Z evicted)).

(** The element [std::nth_element] puts at index [n - 1]. *)
Definition nth_smallest (l : list Z) (n : Z) : option Z := merge_sort Z.le l !! Z.to_nat (n - 1).

Section evict.
Context {A B : Type} {ops : BufferAllocator A B}.
Variable cfg : MasterServiceConfig.

Abbreviation M := (ST (Master A B)).
Abbreviation Metadata := (ObjectMetadata B).

Definition incomplete (o : Metadata) : bool := bool_decide (is_Some (HasDiffRepStatus COMPLETE MEMORY o)).

(** The first loop over a shard sorts the objects that may go. *)
Definition sort_candidate (now ideal_evict_num : Z) (o : Metadata) (acc : list Z * list Z * list Z)
    : list Z * list Z * list Z :=
  let '(candidates, no_pin, soft_pin) := acc in
  if negb (IsLeaseExpired now o) || incomplete o then acc
  else if negb (IsSoftPinned now o) then
    if 0 <? ideal_evict_num then (candidates ++ [lease_timeout o], no_pin, soft_pin)
    else (candidates, no_pin ++ [lease_timeout o], soft_pin)
  else if allow_evict_soft_pinned_objects cfg then (candidates, no_pin, soft_pin ++ [lease_timeout o])
  else acc.

Definition sort_shard (order : gmap string Metadata → list string) (i : nat) (now ideal_evict_num : Z)
    (no_pin soft_pin : list Z) : M (list Z * list Z * list Z) :=
  for_shard order i (λ _ o acc, mret (sort_candidate now ideal_evict_num o acc)) ([], no_pin, soft_pin).

(** Evicting one object: its memory replicas go, and the entry with them when
    nothing is left. *)
Definition evict_object (i : nat) (k : string) (o : Metadata) : M unit :=
  o' ← on_world (EraseReplica MEMORY o);
  if IsValid o' then store_key i k o' else erase_key i k o'.

Definition freed (total : Z) (o : Metadata) : Z := u64 (total + u64 (size o * GetMemReplicaCount o)).

(** The second loop: evict up to [target_timeout], remember the others. *)
Definition evict_first (now target_timeout : Z) (i : nat) (k : string) (o : Metadata)
    (acc : Z * Z * list Z) : M (Z * Z * list Z) :=
  let '(shard_evicted_count, total, no_pin) := acc in
  if negb (IsLeaseExpired now o) || IsSoftPinned now o || incomplete o || negb (HasMemReplica o) then mret acc
  else if lease_timeout o <=? target_timeout then
    evict_object i k o;;
    mret (shard_evicted_count + 1, freed total o, no_pin)
  else mret (shard_evicted_count, total, no_pin ++ [lease_timeout o]).

Definition first_pass_shard (order : gmap string Metadata → list string) (now : Z) (ratio : spec_float) (i : nat)
    (l : EvictLocals) : M EvictLocals :=
  sh ← get_shard i;
  let object_count := object_count l + Z.of_nat (map_size sh) in
  let ideal_evict_num := ideal_num object_count ratio (evicted_count l) in
  '(candidates, no_pin, soft_pin) ← sort_shard order i now ideal_evict_num (no_pin_objects l) (soft_pin_objects l);
  if (0 <? ideal_evict_num) && negb (bool_decide (candidates = [])) then
    let evict_num := Z.min ideal_evict_num (Z.of_nat (length candidates)) in
    match nth_smallest candidates evict_num with
    | None => fault
    | Some target_timeout =>
        '(shard_evicted_count, total, no_pin) ←
          for_shard order i (evict_first now target_timeout i) (0, total_freed_size l, no_pin);
        mret (mkEvictLocals (evicted_count l + shard_evicted_count) object_count total no_pin soft_pin)
    end
  else mret (mkEvictLocals (evicted_count l) object_count (total_freed_size l) no_pin soft_pin).

(** The second passes stop when [target_evict_num] is used up; the accumulator is
    the target, the evicted count and the freed size. *)
Definition evict_second (evict : Metadata → bool) (i : nat) (k : string) (o : Metadata)
    (acc : Z * Z * Z) : M (Z * Z * Z) :=
  let '(target_evict_num, count, total) := acc in
  if (0 <? target_evict_num) && evict o then
    evict_object i k o;;
    mret (target_evict_num - 1, count + 1, freed total o)
  else mret acc.

(** Second pass A: objects without soft pin. *)
Definition pass_a (now target_timeout : Z) (o : Metadata) : bool :=
  (lease_timeout o <=? target_timeout) && negb (IsSoftPinned now o) && negb (incomplete o) && HasMemReplica o.

(** Second pass B: soft-pinned objects as well. *)
Definition pass_b (now soft_target_timeout : Z) (o : Metadata) : bool :=
  negb (negb (IsLeaseExpired now o) || incomplete o || negb (HasMemReplica o))
  && (negb (IsSoftPinned now o) || (lease_timeout o <=? soft_target_timeout)).

Definition second_pass_shard (order : gmap string Metadata → list string) (evict : Metadata → bool) (i : nat)
    (acc : Z * Z * Z) : M (Z * Z * Z) :=
  if 0 <? fst (fst acc) then for_shard order i (evict_second evict i) acc else mret acc.

Definition shards_from (start_idx : nat) : list nat :=
  (λ i, Nat.modulo (start_idx + i) kNumShards) <$> seq 0 kNumShards.

(** What the second pass evicts, if there is one; a fault is an index outside
    the vector. *)
Definition second_pass (now : Z) (target_evict_num : Z) (l : EvictLocals) : option (option (Metadata → bool)) :=
  let no_pins := Z.of_nat (length (no_pin_objects l)) in
  if negb (0 <? target_evict_num) then Some None
  else if target_evict_num <=? no_pins then
    t ← nth_smallest (no_pin_objects l) target_evict_num; Some (Some (pass_a now t))
  else if negb (bool_decide (soft_pin_objects l = [])) then
    t ← nth_smallest (soft_pin_objects l) (target_evict_num - no_pins); Some (Some (pass_b now t))
  else Some None.

(** The end of [BatchEvict]: the flag and the counters. *)
Definition publish (evicted total count : Z) : M unit :=
  if 0 <? evicted then
    modify (set_need_eviction false);;
    bump (inc evicted_key_count evicted);;
    bump (inc evicted_size total);;
    bump (inc eviction_success 1);;
    bump (inc eviction_attempts 1)
  else
    (if count =? 0 then modify (set_need_eviction false) else mret tt);;
    bump (inc eviction_attempts 1).

Definition BatchEvict (now : Z) (start_idx : nat) (order1 order2 : nat → gmap string Metadata → list string)
    (evict_ratio_target evict_ratio_lowerbound : spec_float) : M unit :=
  let evict_ratio_lowerbound :=
    if f64_lt evict_ratio_target evict_ratio_lowerbound then evict_ratio_target else evict_ratio_lowerbound in
  let shards := shards_from start_idx in
  l ← for_shards shards (λ i, first_pass_shard (order1 i) now evict_ratio_target i) (mkEvictLocals 0 0 0 [] []);
  let target_evict_num := Z.min (ideal_num (object_count l) evict_ratio_lowerbound (evicted_count l))
    (Z.of_nat (length (no_pin_objects l)) + Z.of_nat (length (soft_pin_objects l))) in
  '(_, evicted, total) ←
    match second_pass now target_evict_num l with
    | None => fault
    | Some None => mret (target_evict_num, evicted_count l, total_freed_size l)
    | Some (Some evict) =>
        for_shards shards (λ i, second_pass_shard (order2 i) evict i)
          (target_evict_num, evicted_count l, total_freed_size l)
    end;
  publish evicted total (object_count l).

Definition get_global_mem_used_ratio (m : Metrics) : spec_float :=
  let allocated := f64_of_Z (m mem_allocated_size) in
  let capacity := f64_of_Z (m mem_total_capacity) in
  if m mem_total_capacity =? 0 then f64_zero else f64_div allocated capacity.

(** One round of [EvictionThreadFunc]. *)
Definition EvictionRound (now : Z) (start_idx : nat) (order1 order2 : nat → gmap string Metadata → list string) : M unit :=
  m ← gets (λ m, m);
  let used_ratio := get_global_mem_used_ratio (metrics (world_ m)) in
  let high := eviction_high_watermark_ratio cfg in
  if f64_lt high used_ratio || (need_eviction_ m && f64_lt f64_zero (eviction_ratio cfg)) then
    let evict_ratio_target := f64_max (eviction_ratio cfg) (f64_add (f64_sub used_ratio high) (eviction_ratio cfg)) in
    let evict_ratio_lowerbound := f64_max (f64_mul evict_ratio_target f64_half) (f64_sub used_ratio high) in
    BatchEvict now start_idx order1 order2 evict_ratio_target evict_ratio_lowerbound
  else mret tt.
End evict.
