(* ===== verification/MasterInv.v ===== *)
(** * MasterInv: the invariant of the metadata server

    [minv] joins the invariants of the segment manager and of the account of
    buffers and objects with the shape of the metadata table.  The lemmas below
    say what the building blocks of the handlers (finding, cleaning, storing and
    erasing a key, loops over a shard) do to it, and what they leave alone:
    [safe t] is the promise behind leases, that a complete replica on live
    memory stays readable while the lease of its object lasts. *)

From S2P Require Import Prelude Types BufferAllocator Replica ReplicaHeap AllocationStrategy SegmentManager SegmentInv.
From S2P Require Import MasterService.
Open Scope Z_scope.

(** ** Running on a part of the state *)

Section table.
Context {B : Type}.
Abbreviation Metadata := (ObjectMetadata B).

(** All the objects of the table, with their keys. *)
Definition entries (shards : list (gmap string Metadata)) : list (string * Metadata) := shards ≫= map_to_list.

Lemma entries_insert shards i sh sh' :
  shards !! i = Some sh → ∃ rest, entries shards ≡ₚ map_to_list sh ++ rest ∧
    entries (<[i := sh']> shards) ≡ₚ map_to_list sh' ++ rest.
Proof.
  intros Hi. exists (entries (take i shards) ++ entries (drop (S i) shards)).
  pose proof (lookup_lt_Some _ _ _ Hi) as Hlt. split.
  - rewrite <-(take_drop_middle shards i sh) at 1 by done. unfold entries. rewrite bind_app. simpl.
    apply Permutation_app_swap_app.
  - rewrite insert_take_drop by done. unfold entries. rewrite bind_app. simpl. apply Permutation_app_swap_app.
Qed.

Lemma entries_take_out shards i sh k o :
  shards !! i = Some sh → sh !! k = Some o → entries shards ≡ₚ (k, o) :: entries (<[i := delete k sh]> shards).
Proof.
  intros Hi Hk. destruct (entries_insert shards i sh (delete k sh) Hi) as (rest & -> & ->).
  by rewrite <-(map_to_list_delete sh k o).
Qed.

Lemma entries_put_in shards i sh k o :
  shards !! i = Some sh → entries (<[i := <[k := o]> sh]> shards) ≡ₚ (k, o) :: entries (<[i := delete k sh]> shards).
Proof.
  intros Hi. pose proof (lookup_lt_Some _ _ _ Hi) as Hlt.
  rewrite (entries_take_out _ i (<[k := o]> sh) k o); [|by apply list_lookup_insert_eq|apply lookup_insert_eq].
  by rewrite list_insert_insert_eq, delete_insert_eq.
Qed.
End table.

Section invariant.
Context {A B : Type} {ops : BufferAllocator A B} {laws : BufferAllocatorLaws A B}.
Context (cfg : MasterServiceConfig) (hash : string → Z).
Implicit Types (m : Master A B) (k : string) (o : ObjectMetadata B) (w : World A) (t : Z).

Abbreviation idx := (getShardIndex hash).

Lemma idx_lt k : (idx k < kNumShards)%nat.
Proof. unfold getShardIndex. pose proof (Z.mod_pos_bound (hash k) (Z.of_nat kNumShards) ltac:(done)). lia. Qed.

Definition find m k : option (ObjectMetadata B) := sh ← metadata_shards_ m !! idx k; sh !! k.
Definition objects m : list (ObjectMetadata B) := (entries (metadata_shards_ m)).*2.

(** A memory replica holds the whole object; only two states occur. *)
Definition replica_ok (n : Z) (r : Replica B) : Prop :=
  (status_ r = PROCESSING ∨ status_ r = COMPLETE) ∧
  (type r = MEMORY → zsum (ab_size <$> replica_buffers r) = n).
Definition obj_ok o : Prop := 0 < size o ∧ Forall (replica_ok (size o)) (replicas o).

Record minv (bs : list (AllocatedBuffer B)) m : Prop := {
  mi_shards : length (metadata_shards_ m) = kNumShards;
  mi_placed i sh k : metadata_shards_ m !! i = Some sh → is_Some (sh !! k) → idx k = i;
  mi_segments : seg_ok (segment_manager_ m, world_ m);
  mi_world : world_ok (world_ m) bs (objects m);
  mi_clients : metrics (world_ m) active_clients = Z.of_nat (base.size (ok_client_ m));
  mi_objects : Forall obj_ok (objects m);
}.

Lemma minv_shard bs m i : minv bs m → (i < kNumShards)%nat → ∃ sh, metadata_shards_ m !! i = Some sh.
Proof. intros HI Hi. apply lookup_lt_is_Some. by rewrite (mi_shards _ _ HI). Qed.

Lemma find_shard m k sh : metadata_shards_ m !! idx k = Some sh → find m k = sh !! k.
Proof. unfold find. by intros ->. Qed.

Lemma find_entry bs m k o : minv bs m → find m k = Some o ↔ (k, o) ∈ entries (metadata_shards_ m).
Proof.
  intros HI. unfold entries. rewrite list_elem_of_bind. split.
  - intros (sh & Hi & Hk)%bind_Some. exists sh. split; [by apply elem_of_map_to_list|by eapply list_elem_of_lookup_2].
  - intros (sh & Hk%elem_of_map_to_list & [i Hi]%list_elem_of_lookup).
    pose proof (mi_placed _ _ HI i sh k Hi ltac:(eauto)) as <-. by rewrite (find_shard _ _ sh).
Qed.

(** ** Executing on the world *)

Lemma runs_on_world {X} (c : ST (World A) X) m Q :
  runs c (world_ m) (λ x w, Q x (set_world w m)) → runs (on_world c) m Q.
Proof. intros (x & w & E & H). exists x, (set_world w m). split; [|done]. unfold on_world. by rewrite E. Qed.

Lemma runs_on_segments {X} (c : ST (SegState (A := A)) X) m Q :
  runs c (segment_manager_ m, world_ m) (λ x s, Q x (set_segment_state s m)) → runs (on_segments c) m Q.
Proof. intros (x & s & E & H). exists x, (set_segment_state s m). split; [|done]. unfold on_segments. by rewrite E. Qed.

Lemma set_world_id m : set_world (world_ m) m = m.
Proof. by destruct m. Qed.

(** ** The object in hand

    While a handler works on key [k], the table still has the old object; [o] is
    what it has become, and the world is [w]. *)
Record hand m w k o : Prop := {
  ha_inv : minv [] m;
  ha_find : is_Some (find m k);
  ha_frame : oframe (world_ m) w;
  ha_world : ∃ sh, metadata_shards_ m !! idx k = Some sh ∧
    world_ok w [] (o :: (entries (<[idx k := delete k sh]> (metadata_shards_ m))).*2);
  ha_ok : obj_ok o;
}.

Lemma hand_intro m k o : minv [] m → find m k = Some o → hand m (world_ m) k o.
Proof.
  intros HI Hf. pose proof Hf as (sh & Hi & Hk)%bind_Some. split; [done|by rewrite Hf|done| |].
  - exists sh. split; [done|]. pose proof (mi_world _ _ HI) as HW. unfold objects in HW.
    by rewrite (entries_take_out _ _ _ _ _ Hi Hk) in HW.
  - apply (find_entry _ _ _ _ HI) in Hf. pose proof (mi_objects _ _ HI) as HF. rewrite Forall_forall in HF.
    apply HF. unfold objects. apply list_elem_of_fmap. by exists (k, o).
Qed.

Definition store m k o : Master A B :=
  set_shards (alter (λ sh, <[k := o]> sh) (idx k) (metadata_shards_ m)) m.
Definition erase m k : Master A B :=
  set_shards (alter (λ sh, delete k sh) (idx k) (metadata_shards_ m)) m.

Lemma alter_shard {X} (f : X → X) (l : list X) i x : l !! i = Some x → alter f i l = <[i := f x]> l.
Proof. revert i. induction l as [|y l IH]; intros [|i] Hi; simplify_eq/=; [done|]. f_equal. by apply IH. Qed.

Lemma seg_ok_oframe m w : minv [] m → oframe (world_ m) w → seg_ok (segment_manager_ m, w).
Proof. intros HI [HS Hg]. apply (seg_ok_same _ (world_ m)); [done| |apply HI]. by apply Hg. Qed.

(** The table without one key keeps its shape. *)
Lemma shards_changed m i sh sh' :
  (∀ i sh k, metadata_shards_ m !! i = Some sh → is_Some (sh !! k) → idx k = i) →
  metadata_shards_ m !! i = Some sh →
  (∀ k, is_Some (sh' !! k) → is_Some (sh !! k) ∨ idx k = i) →
  ∀ j s k, <[i := sh']> (metadata_shards_ m) !! j = Some s → is_Some (s !! k) → idx k = j.
Proof.
  intros Hp Hi Hs j s k Hj Hk. destruct (decide (j = i)) as [->|Hne].
  - rewrite list_lookup_insert_eq in Hj by (by eapply lookup_lt_Some). simplify_eq.
    destruct (Hs k Hk) as [Hk'|]; [by eapply Hp|done].
  - rewrite list_lookup_insert_ne in Hj by done. by eapply Hp.
Qed.

(** Putting the object back, as it is now. *)
Lemma hand_store m w k o : hand m w k o → minv [] (store (set_world w m) k o).
Proof.
  intros [HI Hf HF (sh & Hi & HW) Ho]. unfold store. simpl. rewrite (alter_shard _ _ _ sh) by done.
  destruct HI as [H1 H2 H3 H4 H5 H6]. split; simpl.
  - by rewrite length_insert.
  - eapply shards_changed; [exact H2|exact Hi|]. intros k' Hk'. destruct (decide (k' = k)) as [->|Hne]; [by right|].
    rewrite lookup_insert_ne in Hk' by done. by left.
  - by apply seg_ok_oframe.
  - unfold objects. simpl. by rewrite entries_put_in.
  - destruct HF as [_ Hg]. by rewrite Hg.
  - unfold objects in *. simpl. rewrite entries_put_in by done. simpl. constructor; [done|].
    destruct Hf as [o0 Hf]. rewrite (find_shard _ _ sh Hi) in Hf.
    rewrite (entries_take_out _ _ _ _ _ Hi Hf) in H6. simpl in H6. by apply Forall_cons in H6 as [_ H6].
Qed.

Lemma hand_erase m w k o :
  hand m w k o → runs (destroy_metadata o) w (λ _ w', oframe (world_ m) w' ∧ minv [] (erase (set_world w' m) k)).
Proof.
  intros [HI Hf HF (sh & Hi & HW) Ho].
  eapply runs_mono; [by apply destroy_metadata_ok|]. intros [] w' [HF' HW'].
  assert (oframe (world_ m) w') as HF'' by (by etrans). split; [done|].
  unfold erase. simpl. rewrite (alter_shard _ _ _ sh) by done.
  destruct HI as [H1 H2 H3 H4 H5 H6]. split; simpl.
  - by rewrite length_insert.
  - eapply shards_changed; [exact H2|exact Hi|]. intros k' [o' Hk'%lookup_delete_Some]. left. naive_solver.
  - by apply seg_ok_oframe.
  - done.
  - destruct HF'' as [_ Hg]. by rewrite Hg.
  - unfold objects in *. simpl. destruct Hf as [o0 Hf]. rewrite (find_shard _ _ sh Hi) in Hf.
    rewrite (entries_take_out _ _ _ _ _ Hi Hf) in H6. simpl in H6. by apply Forall_cons in H6 as [_ H6].
Qed.

Lemma find_store m w k o k' :
  minv [] m → find (store (set_world w m) k o) k' = if decide (k' = k) then Some o else find m k'.
Proof.
  intros HI. destruct (minv_shard _ _ (idx k) HI (idx_lt k)) as [sh Hi]. unfold find, store. simpl.
  rewrite (alter_shard _ _ _ sh) by done. destruct (decide (idx k' = idx k)) as [E|Hne].
  - rewrite E, Hi, list_lookup_insert_eq by (by eapply lookup_lt_Some). simpl. rewrite lookup_insert. by repeat case_decide.
  - rewrite list_lookup_insert_ne by done. case_decide; [congruence|done].
Qed.

Lemma find_erase m w k k' :
  minv [] m → find (erase (set_world w m) k) k' = if decide (k' = k) then None else find m k'.
Proof.
  intros HI. destruct (minv_shard _ _ (idx k) HI (idx_lt k)) as [sh Hi]. unfold find, erase. simpl.
  rewrite (alter_shard _ _ _ sh) by done. destruct (decide (idx k' = idx k)) as [E|Hne].
  - rewrite E, Hi, list_lookup_insert_eq by (by eapply lookup_lt_Some). simpl. rewrite lookup_delete. by repeat case_decide.
  - rewrite list_lookup_insert_ne by done. case_decide; [congruence|done].
Qed.

Lemma runs_get_shard m i sh Q : metadata_shards_ m !! i = Some sh → Q sh m → runs (get_shard i) m Q.
Proof. intros E HQ. exists sh, m. split; [|done]. unfold get_shard. by rewrite E. Qed.

Lemma runs_store_key m w k o Q :
  minv [] m → Q tt (store (set_world w m) k o) → runs (store_key (idx k) k o) (set_world w m) Q.
Proof.
  intros HI HQ. destruct (minv_shard _ _ (idx k) HI (idx_lt k)) as [sh Hi]. unfold store_key. runs_step.
  apply (runs_get_shard _ _ sh); [done|]. unfold put_shard. runs_step. unfold store in HQ. simpl in *.
  by rewrite (alter_shard _ _ _ sh) in HQ.
Qed.

Lemma runs_erase_key m w k o Q :
  hand m w k o →
  (∀ w', oframe (world_ m) w' → minv [] (erase (set_world w' m) k) → Q tt (erase (set_world w' m) k)) →
  runs (erase_key (idx k) k o) (set_world w m) Q.
Proof.
  intros HH HQ. destruct (minv_shard _ _ (idx k) (ha_inv _ _ _ _ HH) (idx_lt k)) as [sh Hi]. unfold erase_key. runs_step.
  apply (runs_get_shard _ _ sh); [done|]. unfold put_shard. runs_steps. apply runs_on_world. simpl.
  eapply runs_mono; [by apply (hand_erase m w k o)|]. intros [] w' [HF HI'].
  specialize (HQ w' HF HI'). unfold erase in HQ. simpl in *. by rewrite (alter_shard _ _ _ sh) in HQ.
Qed.

Lemma runs_find_key m w k Q : minv [] m → Q (find m k) (set_world w m) → runs (find_key hash k) (set_world w m) Q.
Proof.
  intros HI HQ. destruct (minv_shard _ _ (idx k) HI (idx_lt k)) as [sh Hi]. unfold find_key. runs_step.
  apply (runs_get_shard _ _ sh); [done|]. apply runs_ret. by rewrite (find_shard _ _ _ Hi) in HQ.
Qed.

(** ** Leases *)

Definition live_replica w (r : Replica B) : Prop := has_invalid_mem_handle w r = false.

(** A reader whose lease lasts beyond [t] may read replica [r] of key [k]. *)
Definition readable t m k (r : Replica B) : Prop :=
  ∃ o, find m k = Some o ∧ t < lease_timeout o ∧ r ∈ replicas o ∧ status_ r = COMPLETE ∧ live_replica (world_ m) r.

Definition safe t m m' : Prop := ∀ k r, readable t m k r → readable t m' k r.

(** Objects come and go, segments and clients do not. *)
Record calm m m' : Prop := {
  ca_segments : segment_manager_ m' = segment_manager_ m;
  ca_clients : ok_client_ m' = ok_client_ m;
  ca_queue : client_ping_queue_ m' = client_ping_queue_ m;
  ca_world : oframe (world_ m) (world_ m');
}.

#[export] Instance safe_preorder t : PreOrder (safe t).
Proof. split; [by intros m k r|]. intros m1 m2 m3 H1 H2 k r Hr. by apply H2, H1. Qed.

#[export] Instance calm_preorder : PreOrder calm.
Proof. split; [by split|]. intros m1 m2 m3 [] []. split; [congruence..|by etrans]. Qed.

#[export] Instance live_replica_dec w (r : Replica B) : Decision (live_replica w r).
Proof. unfold live_replica. apply _. Defined.

Lemma live_same w w' (r : Replica B) : same_heap w w' → has_invalid_mem_handle w' r = has_invalid_mem_handle w r.
Proof.
  intros HS. unfold has_invalid_mem_handle. destruct (data_ r) as [bufs|]; [|done].
  induction bufs as [|b bufs IH]; [done|]. simpl. by rewrite (same_heap_valid w w' b HS), IH.
Qed.

Lemma calm_live m m' (r : Replica B) : calm m m' → live_replica (world_ m') r ↔ live_replica (world_ m) r.
Proof. intros [_ _ _ [HS _]]. unfold live_replica. by rewrite (live_same (world_ m) (world_ m')). Qed.

Lemma store_safe t m w k o o' :
  minv [] m → find m k = Some o → oframe (world_ m) w →
  (∀ r, t < lease_timeout o → r ∈ replicas o → status_ r = COMPLETE → live_replica (world_ m) r →
     t < lease_timeout o' ∧ r ∈ replicas o') →
  safe t m (store (set_world w m) k o').
Proof.
  intros HI Hf [HS _] Hk k' r (o1 & Hf1 & Ht & Hr & Hc & Hl).
  assert (live_replica w r) as Hl' by (unfold live_replica; by rewrite (live_same (world_ m))).
  unfold readable. setoid_rewrite find_store; [|done]. case_decide as E; [subst k'|by exists o1].
  simplify_eq. destruct (Hk r Ht Hr Hc Hl). by exists o'.
Qed.

Lemma erase_safe t m w k o :
  minv [] m → find m k = Some o → oframe (world_ m) w →
  (∀ r, t < lease_timeout o → r ∈ replicas o → status_ r = COMPLETE → ¬ live_replica (world_ m) r) →
  safe t m (erase (set_world w m) k).
Proof.
  intros HI Hf [HS _] Hk k' r (o1 & Hf1 & Ht & Hr & Hc & Hl).
  assert (live_replica w r) as Hl' by (unfold live_replica; by rewrite (live_same (world_ m))).
  unfold readable. setoid_rewrite find_erase; [|done]. case_decide as E; [subst k'|by exists o1].
  simplify_eq. by destruct (Hk r).
Qed.

Lemma store_calm m w k o : oframe (world_ m) w → calm m (store (set_world w m) k o).
Proof. by split. Qed.
Lemma erase_calm m w k : oframe (world_ m) w → calm m (erase (set_world w m) k).
Proof. by split. Qed.

(** ** Cleaning up stale handles *)

Lemma cleanup_replicas_ok rs pre w o os :
  world_ok w [] (set_replicas (pre ++ rs) o :: os) →
  runs (cleanup_replicas rs) w (λ rs' w', rs' = filter (live_replica w) rs ∧ frame w w' ∧
    world_ok w' [] (set_replicas (pre ++ rs') o :: os)).
Proof.
  revert pre w. induction rs as [|r rs IH]; intros pre w HW; simpl; [by apply runs_ret|].
  runs_step. runs_step. rewrite filter_cons. destruct (has_invalid_mem_handle w r) eqn:Es.
  - rewrite decide_False by (unfold live_replica; congruence). unfold destroy_replicas. simpl. rewrite app_nil_r.
    runs_step. eapply runs_mono.
    { apply (shrink_ok (replica_buffers r) (pre ++ rs)); [exact HW|]. unfold obj_buffers. simpl.
      rewrite !bind_app. simpl. by rewrite Permutation_app_swap_app. }
    intros [] w1 [HF1 HW1]. eapply runs_mono; [apply (IH pre); by destruct o|].
    intros rs' w2 (-> & HF2 & HW2). split; [|split; [by etrans|by destruct o]].
    apply filter_ext_elem. intros r' _. unfold live_replica. by rewrite (live_same w w1) by apply HF1.
  - rewrite decide_True by done. runs_step. eapply runs_mono.
    { apply (IH (pre ++ [r])). by rewrite <-(assoc (++)). }
    intros rs' w1 (-> & HF & HW1). apply runs_ret. split; [done|]. split; [done|]. by rewrite <-(assoc (++)) in HW1.
Qed.

Lemma hand_update m w k o o' w' :
  hand m w k o → frame w w' → obj_ok o' →
  (∀ os, world_ok w [] (o :: os) → world_ok w' [] (o' :: os)) → hand m w' k o'.
Proof.
  intros [HI Hf HF (sh & Hi & HW) Ho] Hfr Ho' Hup. split; [done|done| | |done].
  - etrans; [exact HF|by apply frame_oframe].
  - exists sh. split; [done|]. by apply Hup.
Qed.

Lemma cleanup_hand m w k o :
  hand m w k o → runs (cleanup_replicas (replicas o)) w (λ rs w', rs = filter (live_replica w) (replicas o) ∧
    frame w w' ∧ hand m w' k (set_replicas rs o)).
Proof.
  intros HH. pose proof HH as [HI Hf HF (sh & Hi & HW) Ho].
  eapply runs_mono; [apply (cleanup_replicas_ok (replicas o) [] w o); by destruct o|].
  intros rs w' (-> & HF' & HW'). split; [done|]. split; [done|]. split; [done|done| | |].
  - etrans; [exact HF|by apply frame_oframe].
  - by exists sh.
  - destruct Ho. split; [done|]. by apply Forall_filter_keep.
Qed.

(** Some replica of [k] has lost its memory. *)
Definition stale m k : Prop := ∃ o r, find m k = Some o ∧ r ∈ replicas o ∧ ¬ live_replica (world_ m) r.

(** What a handler that reads the clock at [now] does to the rest. *)
Record gentle (now : Z) m m' : Prop := {
  ge_inv : minv [] m';
  ge_calm : calm m m';
  ge_safe t : now <= t → safe t m m';
  ge_stale k : stale m' k → stale m k;
}.

Lemma gentle_refl now m : minv [] m → gentle now m m.
Proof. by split. Qed.

Lemma gentle_trans now m1 m2 m3 : gentle now m1 m2 → gentle now m2 m3 → gentle now m1 m3.
Proof.
  intros [_ H1 H2 S1] [H3 H4 H5 S2]. split; [done|by etrans| |by auto]. intros t Ht. etrans; [by apply H2|by apply H5].
Qed.

Lemma gentle_mono now now' m m' : now <= now' → gentle now m m' → gentle now' m m'.
Proof. intros Hle [H1 H2 H3 H4]. split; [done|done| |done]. intros t Ht. apply H3. lia. Qed.

(** Nothing but key [k] changes. *)
Definition only k m m' : Prop := ∀ k', k' ≠ k → find m' k' = find m k'.

Lemma stale_only k m m' :
  only k m m' → calm m m' →
  (∀ o' r, find m' k = Some o' → r ∈ replicas o' → ¬ live_replica (world_ m) r → stale m k) →
  ∀ k', stale m' k' → stale m k'.
Proof.
  intros HO HC Hk k' (o & r & Hf & Hr & Hl). assert (¬ live_replica (world_ m) r) by (by rewrite <-(calm_live m m')).
  destruct (decide (k' = k)) as [->|]; [by eapply Hk|]. rewrite HO in Hf by done. by exists o, r.
Qed.

Definition cleaned m o : ObjectMetadata B := set_replicas (filter (live_replica (world_ m)) (replicas o)) o.

Lemma CleanupStaleHandles_ok m k o :
  minv [] m → find m k = Some o →
  runs (CleanupStaleHandles o) m (λ r m', r = (bool_decide (replicas (cleaned m o) = []), cleaned m o) ∧
    ∃ w, m' = set_world w m ∧ hand m w k (cleaned m o)).
Proof.
  intros HI Hf. unfold CleanupStaleHandles. runs_step. apply runs_on_world.
  eapply runs_mono; [by apply cleanup_hand, hand_intro|]. intros rs w (-> & _ & HH). apply runs_ret. eauto.
Qed.

Lemma store_only m w k o :
  minv [] m → only k m (store (set_world w m) k o) ∧ find (store (set_world w m) k o) k = Some o.
Proof. intros HI. split; [intros k' Hk'; by rewrite find_store, decide_False|by rewrite find_store, decide_True]. Qed.

Lemma erase_only m w k : minv [] m → only k m (erase (set_world w m) k) ∧ find (erase (set_world w m) k) k = None.
Proof. intros HI. split; [intros k' Hk'; by rewrite find_erase, decide_False|by rewrite find_erase, decide_True]. Qed.

Lemma store_cleaned now m w k o Q :
  find m k = Some o → hand m w k (cleaned m o) →
  (∀ m', gentle now m m' → only k m m' → find m' k = Some (cleaned m o) → Q tt m') →
  runs (store_key (idx k) k (cleaned m o)) (set_world w m) Q.
Proof.
  intros Hf HH HQ. pose proof (ha_inv _ _ _ _ HH) as HI. pose proof (ha_frame _ _ _ _ HH) as HF.
  apply runs_store_key; [done|]. destruct (store_only m w k (cleaned m o) HI) as [HO Hn].
  apply HQ; [split; [by apply hand_store|by apply store_calm| |]|done|done].
  - intros t _. apply (store_safe t m w k o); try done. intros r Ht Hr Hc Hl. split; [done|]. by apply list_elem_of_filter.
  - apply (stale_only k); [done|by apply store_calm|]. intros o' r Ho' Hr Hl. rewrite Hn in Ho'.
    simplify_eq/=. by apply list_elem_of_filter in Hr as [? _].
Qed.

Lemma erase_cleaned now m w k o Q :
  find m k = Some o → hand m w k (cleaned m o) → replicas (cleaned m o) = [] →
  (∀ m', gentle now m m' → only k m m' → find m' k = None → Q tt m') →
  runs (erase_key (idx k) k (cleaned m o)) (set_world w m) Q.
Proof.
  intros Hf HH He HQ. pose proof (ha_inv _ _ _ _ HH) as HI.
  apply (runs_erase_key m); [exact HH|]. intros w' HF' HI'. destruct (erase_only m w' k HI) as [HO Hn].
  apply HQ; [split; [done|by apply erase_calm| |]|done|done].
  - intros t _. apply (erase_safe t m w' k o); try done. intros r Ht Hr Hc Hl.
    assert (r ∈ replicas (cleaned m o)) as Hin by (by apply list_elem_of_filter).
    rewrite He in Hin. by apply elem_of_nil in Hin.
  - apply (stale_only k); [done|by apply erase_calm|congruence].
Qed.

Lemma access_ok now m k :
  minv [] m → runs (access hash k) m (λ r m', gentle now m m' ∧ only k m m' ∧ r = find m' k ∧
    match find m k with
    | None => r = None
    | Some o => r = if decide (replicas (cleaned m o) = []) then None else Some (cleaned m o)
    end).
Proof.
  intros HI. rewrite <-(set_world_id m) at 1. unfold access. runs_step. apply runs_find_key; [done|]. rewrite set_world_id.
  destruct (find m k) as [o|] eqn:Hf; cycle 1.
  { apply runs_ret. split_and!; [by apply gentle_refl|done|done|done]. }
  runs_step. eapply runs_mono; [by apply CleanupStaleHandles_ok|]. intros r m' (-> & w & -> & HH).
  case_bool_decide as He; runs_step.
  - apply (erase_cleaned now); [done..|]. intros m' HG HO Hf'. apply runs_ret. rewrite decide_True by done. by split_and!.
  - apply (store_cleaned now); [done..|]. intros m' HG HO Hf'. apply runs_ret. rewrite decide_False by done. by split_and!.
Qed.

(** Storing a new version of the object under [k]. *)
Lemma store_key_ok now m k o o' Q :
  minv [] m → find m k = Some o → obj_ok o' → obj_buffers o' ≡ₚ obj_buffers o → (pins o' ↔ pins o) →
  disk_replica_size o' = disk_replica_size o →
  (∀ r, r ∈ replicas o' → ∃ r0, r0 ∈ replicas o ∧ data_ r = data_ r0) →
  (∀ t r, now <= t → t < lease_timeout o → r ∈ replicas o → status_ r = COMPLETE →
     t < lease_timeout o' ∧ r ∈ replicas o') →
  (∀ m', gentle now m m' → only k m m' → find m' k = Some o' → Q tt m') →
  runs (store_key (idx k) k o') m Q.
Proof.
  intros HI Hf Hok Hb Hp Hd Hsame Hk HQ. rewrite <-(set_world_id m) at 1. apply runs_store_key; [done|].
  destruct (store_only m (world_ m) k o' HI) as [HO Hn].
  assert (hand m (world_ m) k o') as HH.
  { eapply hand_update; [by apply hand_intro|done|done|]. intros os HW. by eapply world_ok_replace. }
  apply HQ; [split; [by apply hand_store|by apply store_calm| |]|done|done].
  - intros t Ht. apply (store_safe t m _ k o); try done. eauto.
  - apply (stale_only k); [done|by apply store_calm|]. intros o1 r E Hr Hl. rewrite Hn in E. simplify_eq.
    destruct (Hsame r Hr) as (r0 & Hr0 & Ed). exists o, r0. split_and!; [done|done|].
    unfold live_replica, has_invalid_mem_handle in *. by rewrite <-Ed.
Qed.

Lemma erase_key_ok now m k o Q :
  minv [] m → find m k = Some o →
  (∀ t r, now <= t → t < lease_timeout o → r ∈ replicas o → status_ r = COMPLETE → ¬ live_replica (world_ m) r) →
  (∀ m', gentle now m m' → only k m m' → find m' k = None → Q tt m') →
  runs (erase_key (idx k) k o) m Q.
Proof.
  intros HI Hf Hk HQ. rewrite <-(set_world_id m) at 1. apply (runs_erase_key m); [by apply hand_intro|].
  intros w' HF HI'. destruct (erase_only m w' k HI) as [HO Hn]. apply HQ; [split; [done|by apply erase_calm| |]|done|done].
  - intros t Ht. eapply erase_safe; try done. eauto.
  - apply (stale_only k); [done|by apply erase_calm|congruence].
Qed.

(** ** Loops over a shard *)

Lemma for_keys_rule {X} i (body : string → ObjectMetadata B → X → ST (Master A B) X) (Inv : list string → X → Master A B → Prop) ks acc m :
  (∀ k ks acc m, Inv (k :: ks) acc m → ∃ o sh, metadata_shards_ m !! i = Some sh ∧ sh !! k = Some o ∧
     runs (body k o acc) m (Inv ks)) →
  Inv ks acc m → runs (for_keys i body ks acc) m (Inv []).
Proof.
  intros Hb. revert acc m. induction ks as [|k ks IH]; intros acc m HI; simpl; [by apply runs_ret|].
  destruct (Hb _ _ _ _ HI) as (o & sh & Hi & Hk & Hr). runs_step. apply (runs_get_shard _ _ sh); [done|].
  rewrite Hk. runs_step. eapply runs_mono; [exact Hr|]. eauto.
Qed.

Lemma for_shards_rule {X} (section : nat → X → ST (Master A B) X) (Inv : list nat → X → Master A B → Prop) l acc m :
  (∀ i l acc m, Inv (i :: l) acc m → runs (section i acc) m (Inv l)) →
  Inv l acc m → runs (for_shards l section acc) m (Inv []).
Proof.
  intros Hb. revert acc m. induction l as [|i l IH]; intros acc m HI; simpl; [by apply runs_ret|].
  runs_step. eapply runs_mono; [by apply Hb|]. eauto.
Qed.

(** [order] lists the keys of a shard, each once. *)
Definition order_ok (order : gmap string (ObjectMetadata B) → list string) : Prop :=
  ∀ sh, order sh ≡ₚ (map_to_list sh).*1.

Lemma for_shard_rule {X} now order i (body : string → ObjectMetadata B → X → ST (Master A B) X)
    (J : list string → X → Master A B → Prop) acc m :
  order_ok order → (i < kNumShards)%nat → minv [] m →
  (∀ k ks o acc m1, J (k :: ks) acc m1 → k ∉ ks → minv [] m1 → gentle now m m1 → find m1 k = Some o → idx k = i →
     runs (body k o acc) m1 (λ acc' m2, J ks acc' m2 ∧ gentle now m1 m2 ∧ only k m1 m2)) →
  (∀ ks, (∀ k, k ∈ ks ↔ idx k = i ∧ is_Some (find m k)) → NoDup ks → J ks acc m) →
  runs (for_shard order i body acc) m (λ acc' m', J [] acc' m' ∧ gentle now m m').
Proof.
  intros Ho Hi HI Hb HJ. unfold for_shard. runs_step. destruct (minv_shard _ _ _ HI Hi) as [sh Hsh].
  apply (runs_get_shard _ _ sh); [done|].
  assert (NoDup (order sh)) as Hnd by (rewrite (Ho sh); apply NoDup_fst_map_to_list).
  assert (∀ k, k ∈ order sh ↔ idx k = i ∧ is_Some (find m k)) as Hin.
  { intros k. rewrite (Ho sh). rewrite list_elem_of_fmap. split.
    - intros ([k' o] & -> & Hk%elem_of_map_to_list). simpl. pose proof (mi_placed _ _ HI i sh k' Hsh ltac:(eauto)) as <-.
      split; [done|]. rewrite (find_shard _ _ sh) by done. eauto.
    - intros [<- [o Hk]]. rewrite (find_shard _ _ sh) in Hk by done. exists (k, o). split; [done|]. by apply elem_of_map_to_list. }
  eapply runs_mono; [apply (for_keys_rule i body (λ ks acc m1, J ks acc m1 ∧ gentle now m m1 ∧ NoDup ks ∧
    ∀ k, k ∈ ks → idx k = i ∧ is_Some (find m1 k)))|].
  - intros k ks acc1 m1 (HJ1 & HG & Hn & Hks). apply NoDup_cons in Hn as [Hk Hn].
    destruct (Hks k ltac:(left)) as [Hik [o Hf]]. pose proof Hf as (sh1 & Hs1 & Hk1)%bind_Some. rewrite Hik in Hs1.
    exists o, sh1. split; [done|]. split; [done|].
    eapply runs_mono; [by apply (Hb k ks o acc1 m1); [..|apply HG| | |]|]. intros acc2 m2 (HJ2 & HG2 & Honly).
    split; [done|]. split; [by eapply gentle_trans|]. split; [done|].
    intros k' Hk'. destruct (Hks k' ltac:(by right)) as [? ?]. split; [done|]. rewrite Honly; [done|]. by intros ->.
  - split_and!; [by apply HJ|by apply gentle_refl|done|]. intros k Hk. by apply Hin.
  - intros acc' m' (? & ? & _). done.
Qed.

(** A loop that treats the objects of a shard one by one: [f] is what becomes of
    an object, [J] an invariant of the accumulator over the keys left. *)
Definition shard_map i (f : string → ObjectMetadata B → option (ObjectMetadata B)) m m' : Prop :=
  ∀ k, find m' k = if decide (idx k = i) then find m k ≫= f k else find m k.

Lemma for_shard_map {X} now order i (body : string → ObjectMetadata B → X → ST (Master A B) X)
    (f : string → ObjectMetadata B → option (ObjectMetadata B)) (J : list string → X → Prop) acc m :
  order_ok order → (i < kNumShards)%nat → minv [] m →
  (∀ k ks o acc m1, J (k :: ks) acc → k ∉ ks → find m k = Some o → idx k = i → gentle now m m1 → find m1 k = Some o →
     runs (body k o acc) m1 (λ acc' m2, J ks acc' ∧ gentle now m1 m2 ∧ only k m1 m2 ∧ find m2 k = f k o)) →
  (∀ ks, (∀ k, k ∈ ks ↔ idx k = i ∧ is_Some (find m k)) → NoDup ks → J ks acc) →
  runs (for_shard order i body acc) m (λ acc' m', J [] acc' ∧ gentle now m m' ∧ shard_map i f m m').
Proof.
  intros Ho Hi HI Hb HJ.
  eapply runs_mono; [apply (for_shard_rule now order i body (λ ks acc m1, J ks acc ∧
    (∀ k, k ∈ ks → find m1 k = find m k) ∧
    (∀ k, k ∉ ks → find m1 k = if decide (idx k = i) then find m k ≫= f k else find m k))); try done|].
  - intros k ks o acc1 m1 (HJ1 & Hin & Hout) Hk HI1 HG Hf Hik.
    assert (find m k = Some o) as Hf0 by (rewrite <-Hin; [done|left]).
    eapply runs_mono; [by apply (Hb k ks o acc1 m1)|]. intros acc2 m2 (HJ2 & HG2 & HO & Hf2). split; [|done].
    split; [done|]. split.
    + intros k' Hk'. rewrite HO by (by intros ->). apply Hin. by right.
    + intros k' Hk'. destruct (decide (k' = k)) as [->|Hne]; [by rewrite Hf2, Hf0, decide_True|].
      rewrite HO by done. apply Hout. by rewrite not_elem_of_cons.
  - intros ks Hks Hnd. split; [by apply HJ|]. split; [done|]. intros k Hk. case_decide as Hik; [|done].
    destruct (find m k) as [o|] eqn:E; [|done]. destruct Hk. apply Hks. by rewrite E.
  - intros acc' m' [(HJ' & _ & Hout) HG]. split; [done|]. split; [done|]. intros k. apply Hout, not_elem_of_nil.
Qed.

Lemma for_shards_map {X} now (section : nat → X → ST (Master A B) X)
    (f : string → ObjectMetadata B → option (ObjectMetadata B)) l (J : list nat → X → Prop) acc m :
  minv [] m → NoDup l → (∀ i, i ∈ l → (i < kNumShards)%nat) →
  (∀ i l' acc m1, J (i :: l') acc → (i < kNumShards)%nat → gentle now m m1 →
     (∀ k, idx k = i → find m1 k = find m k) →
     runs (section i acc) m1 (λ acc' m2, J l' acc' ∧ gentle now m1 m2 ∧ shard_map i f m1 m2)) →
  J l acc →
  runs (for_shards l section acc) m (λ acc' m', J [] acc' ∧ gentle now m m' ∧
    ∀ k, find m' k = if decide (idx k ∈ l) then find m k ≫= f k else find m k).
Proof.
  intros HI Hnd Hl Hs HJ.
  eapply runs_mono; [apply (for_shards_rule section (λ l' acc m1, J l' acc ∧ gentle now m m1 ∧ NoDup l' ∧ (∀ i, i ∈ l' → i ∈ l) ∧
    ∀ k, find m1 k = if decide (idx k ∈ l ∧ idx k ∉ l') then find m k ≫= f k else find m k))|].
  - intros i l' acc1 m1 (HJ1 & HG & Hn & Hsub & Hf). apply NoDup_cons in Hn as [Hi Hn].
    eapply runs_mono; [apply (Hs i l' acc1 m1); [done|by apply Hl, Hsub; left|done|]|].
    + intros k <-. rewrite Hf, decide_False; [done|]. intros [_ Hk]. apply Hk. left.
    + intros acc2 m2 (HJ2 & HG2 & Hm). split; [done|]. split; [by eapply gentle_trans|]. split; [done|].
      split; [intros; apply Hsub; by right|]. intros k. rewrite Hm, Hf.
      assert (i ∈ l) by (apply Hsub; left). repeat case_decide; rewrite ?not_elem_of_cons in *; naive_solver.
  - split_and!; [done|by apply gentle_refl|done|done|]. intros k. rewrite decide_False; [done|]. naive_solver.
  - intros acc' m' (HJ' & HG & _ & _ & Hf). split; [done|]. split; [done|]. intros k. rewrite Hf.
    assert (idx k ∉ []) by apply not_elem_of_nil. repeat case_decide; naive_solver.
Qed.

Lemma all_shards_idx k : idx k ∈ all_shards.
Proof. apply elem_of_seq. pose proof (idx_lt k). lia. Qed.
End invariant.
