(* ===== verification/MasterOps.v ===== *)
(** * MasterOps: what each handler does

    For every handler of MasterService: it returns (no fault), keeps the
    invariant, leaves leased replicas alone, and its result is the one the table
    calls for. *)

From S2P Require Import Prelude Types BufferAllocator Replica ReplicaHeap AllocationStrategy SegmentManager SegmentInv.
From S2P Require Import MasterService MasterInv.
Open Scope Z_scope.

Section ops.
Context {A B : Type} {ops : BufferAllocator A B} {laws : BufferAllocatorLaws A B}.
Context (cfg : MasterServiceConfig) (hash : string → Z).
Implicit Types (m : Master A B) (k : string) (o : ObjectMetadata B) (w : World A) (t now : Z).

Abbreviation idx := (getShardIndex hash).
Abbreviation find := (find hash).
Abbreviation minv := (minv hash).
Abbreviation gentle := (gentle hash).
Abbreviation only := (only hash).

(** ** Objects *)

Lemma minv_obj m k o : minv [] m → find m k = Some o → obj_ok o.
Proof.
  intros HI Hf%(find_entry hash _ _ _ _ HI). pose proof (mi_objects _ _ _ HI) as HF. rewrite Forall_forall in HF.
  apply HF. apply list_elem_of_fmap. by exists (k, o).
Qed.

Lemma obj_ok_lease now ttl soft o : obj_ok o → obj_ok (GrantLease now ttl soft o).
Proof. done. Qed.

Lemma pins_lease now ttl soft o : pins (GrantLease now ttl soft o) ↔ pins o.
Proof. unfold pins. simpl. by rewrite fmap_is_Some. Qed.

(** Renewing a lease keeps everything else. *)
Lemma grant_ok now ttl soft m k o Q :
  minv [] m → find m k = Some o →
  (∀ m', gentle now m m' → only k m m' → find m' k = Some (GrantLease now ttl soft o) → Q tt m') →
  runs (store_key (idx k) k (GrantLease now ttl soft o)) m Q.
Proof.
  intros HI Hf HQ. apply (store_key_ok hash now m k o); try done.
  - by eapply obj_ok_lease, minv_obj.
  - apply pins_lease.
  - intros r Hr. by exists r.
  - intros t r Ht Hl Hr Hc. simpl. split; [lia|done].
Qed.

Lemma ExistKey_ok now m k :
  minv [] m → runs (ExistKey cfg hash now k) m (λ r m', gentle now m m' ∧ only k m m' ∧
    (r = inr true ↔ ∃ o r', find m k = Some o ∧ r' ∈ replicas o ∧ status_ r' = COMPLETE ∧ live_replica (world_ m) r') ∧
    (r = inr true → ∀ o, find m' k = Some o → now + milliseconds (default_kv_lease_ttl cfg) <= lease_timeout o)).
Proof.
  intros HI. unfold ExistKey. runs_step. eapply runs_mono; [by apply (access_ok hash now)|].
  intros r m1 (HG & HO & -> & Hr).
  assert (∀ o1, find m1 k = Some o1 → ∃ o, find m k = Some o ∧ o1 = cleaned m o) as Hcl.
  { intros o1 E. destruct (find m k) as [o|]; [|congruence]. exists o. split; [done|]. case_decide; congruence. }
  assert (∀ o r', find m k = Some o → r' ∈ replicas o → live_replica (world_ m) r' →
    ∃ o1, find m1 k = Some o1 ∧ r' ∈ replicas o1) as Hlive.
  { intros o r' Ho Hin Hl. rewrite Ho in Hr. assert (r' ∈ replicas (cleaned m o)) as Hin' by (by apply list_elem_of_filter).
    exists (cleaned m o). rewrite Hr, decide_False; [done|]. intros E. rewrite E in Hin'. by apply elem_of_nil in Hin'. }
  destruct (find m1 k) as [o1|] eqn:Hf1; cycle 1.
  { apply runs_ret. split_and!; [done|done| |done]. split; [done|].
    intros (o & r' & Ho & Hin & _ & Hl). by destruct (Hlive o r' Ho Hin Hl) as (? & ? & _). }
  destruct (Hcl o1 eq_refl) as (o & Ho & ->).
  destruct (existsb _ _) eqn:Ex.
  - runs_step. apply (grant_ok now _ _ m1 k (cleaned m o)); [apply HG|done|]. intros m2 HG2 HO2 Hf2. apply runs_ret.
    split; [by eapply gentle_trans|]. split; [intros k' Hk'; by rewrite HO2, HO|]. split; [|intros _ o2 E2; rewrite Hf2 in E2; simplify_eq; simpl; lia].
    split; [intros _|done]. apply existsb_exists in Ex as (r' & Hin%list_elem_of_In & Hc%bool_decide_eq_true_1).
    simpl in Hin. apply list_elem_of_filter in Hin as [Hl Hin]. by exists o, r'.
  - apply runs_ret. split_and!; [done|done| |done]. split; [done|].
    intros (o' & r' & Ho' & Hin & Hc & Hl). destruct (Hlive o' r' Ho' Hin Hl) as (o1 & E1 & Hin1). simplify_eq.
    assert (existsb is_complete (replicas (cleaned m o)) = true) as Et; [|congruence].
    apply existsb_exists. exists r'. split; [by apply list_elem_of_In|]. by apply bool_decide_eq_true_2.
Qed.

Lemma GetReplicaList_ok now m k :
  minv [] m → runs (GetReplicaList cfg hash now k) m (λ r m', gentle now m m' ∧ only k m m' ∧
    match r with
    | inr resp => ∃ o, find m k = Some o ∧ r_replicas resp = complete_descriptors (world_ m) (cleaned m o) ∧
        r_replicas resp ≠ [] ∧ lease_ttl_ms resp = default_kv_lease_ttl cfg ∧
        find m' k = Some (GrantLease now (default_kv_lease_ttl cfg) (default_kv_soft_pin_ttl cfg) (cleaned m o))
    | inl e =>
        (e = EC.OBJECT_NOT_FOUND ∧ ∀ o, find m k = Some o → replicas (cleaned m o) = []) ∨
        (e = EC.REPLICA_IS_NOT_READY ∧ ∃ o, find m k = Some o ∧ replicas (cleaned m o) ≠ [] ∧
           filter (λ r, status_ r = COMPLETE) (replicas (cleaned m o)) = [])
    end).
Proof.
  intros HI. unfold GetReplicaList. runs_step. eapply runs_mono; [by apply (access_ok hash now)|].
  intros r m1 (HG & HO & -> & Hr).
  assert (∀ o, complete_descriptors (world_ m1) o = complete_descriptors (world_ m) o) as Hd.
  { intros o. unfold complete_descriptors. apply list_fmap_ext. intros _ r' _. apply get_descriptor_same.
    apply (ca_world _ _ (ge_calm _ _ _ _ HG)). }
  destruct (find m k) as [o|] eqn:Ho.
  - destruct (decide (replicas (cleaned m o) = [])) as [He|He]; rewrite Hr.
    { apply runs_ret. split_and!; [done|done|]. left. split; [done|]. intros o' [= <-]. done. }
    do 2 runs_step. rewrite Hd. destruct (bool_decide _) eqn:Eb.
    { apply bool_decide_eq_true_1, fmap_nil_inv in Eb. apply runs_ret. split_and!; [done|done|]. right. eauto. }
    apply bool_decide_eq_false_1 in Eb. runs_step.
    apply (grant_ok now _ _ m1 k (cleaned m o)); [apply HG|done|]. intros m2 HG2 HO2 Hf2. apply runs_ret.
    split; [by eapply gentle_trans|]. split; [intros k' Hk'; by rewrite HO2, HO|]. exists o. split_and!; done.
  - rewrite Hr. apply runs_ret. split_and!; [done|done|]. left. by split.
Qed.

Lemma mark_type_buffers rt o : obj_buffers (mark_type rt o) = obj_buffers o.
Proof.
  unfold obj_buffers. simpl. induction (replicas o) as [|r rs IH]; [done|]. simpl. f_equal; [|exact IH].
  case_decide; [|done]. unfold replica_buffers, mark_complete. by destruct (status_ r).
Qed.

Lemma mark_type_ok rt o : obj_ok o → obj_ok (mark_type rt o).
Proof.
  intros [Hs HF]. split; [done|]. simpl. apply Forall_fmap. eapply Forall_impl; [exact HF|].
  intros r [Hst Hsz]. simpl. case_decide as Ht; [|done]. unfold mark_complete, replica_ok.
  destruct Hst as [E|E]; rewrite E; simpl; (split; [auto|]); intros Hm; apply Hsz; exact Hm.
Qed.

Lemma PutEnd_ok now m k rt :
  minv [] m → runs (PutEnd cfg hash now k rt) m (λ r m', gentle now m m' ∧ only k m m' ∧
    match r with
    | inr _ => ∃ o, find m k = Some o ∧ replicas (cleaned m o) ≠ [] ∧
        find m' k = Some (GrantLease now 0 (default_kv_soft_pin_ttl cfg) (mark_type rt (cleaned m o)))
    | inl e => e = EC.OBJECT_NOT_FOUND ∧ find m' k = None ∧ ∀ o, find m k = Some o → replicas (cleaned m o) = []
    end).
Proof.
  intros HI. unfold PutEnd. runs_step. eapply runs_mono; [by apply (access_ok hash now)|].
  intros r m1 (HG & HO & -> & Hr).
  destruct (find m k) as [o|] eqn:Ho; cycle 1.
  { rewrite Hr. apply runs_ret. by split_and!. }
  destruct (decide (replicas (cleaned m o) = [])) as [He|He]; rewrite Hr.
  { apply runs_ret. split_and!; [done..|]. by intros o' [= <-]. }
  runs_step. apply (store_key_ok hash now m1 k (cleaned m o)); [apply HG|done| | | |done| | |].
  - apply obj_ok_lease, mark_type_ok. eapply minv_obj; [apply HG|done].
  - by rewrite <-(mark_type_buffers rt (cleaned m o)).
  - by rewrite pins_lease.
  - intros r (r0 & -> & Hr0)%list_elem_of_fmap. exists r0. split; [done|]. case_decide; [|done].
    unfold mark_complete. by destruct (status_ r0).
  - intros t r Ht Hl Hin Hc. simpl in *. split; [lia|]. apply list_elem_of_fmap. exists r. split; [|done].
    unfold mark_complete. rewrite Hc. by case_decide.
  - intros m2 HG2 HO2 Hf2. apply runs_ret. split; [by eapply gentle_trans|].
    split; [intros k' Hk'; by rewrite HO2, HO|]. eauto.
Qed.

(** Dropping the replicas of one type, then the entry when none is left. *)
Definition without (rt : ReplicaType) o : ObjectMetadata B :=
  set_replicas (filter (λ r, type r ≠ rt) (replicas o)) o.

Lemma IsValid_spec o : obj_ok o → IsValid o = negb (bool_decide (replicas o = [])).
Proof. intros [Hs _]. unfold IsValid. destruct (Z.ltb_spec 0 (size o)); [by rewrite andb_true_r|lia]. Qed.

Lemma drop_type_ok now rt m k o Q :
  minv [] m → find m k = Some o →
  (∀ t r, now <= t → t < lease_timeout o → r ∈ replicas o → status_ r = COMPLETE → live_replica (world_ m) r → type r ≠ rt) →
  (∀ m', gentle now m m' → only k m m' →
     find m' k = (if decide (replicas (without rt o) = []) then None else Some (without rt o)) → Q tt m') →
  runs (o' ← on_world (EraseReplica rt o); if IsValid o' then store_key (idx k) k o' else erase_key (idx k) k o') m Q.
Proof.
  intros HI Hf Hk HQ. runs_step. apply runs_on_world.
  pose proof (hand_intro hash m k o HI Hf) as HH. destruct (ha_world _ _ _ _ _ HH) as (sh & Hsh & HW).
  eapply runs_mono; [by apply EraseReplica_ok|]. intros o' w (HF & -> & HW'). fold (without rt o) in *.
  assert (obj_ok (without rt o)) as Ho'.
  { destruct (ha_ok _ _ _ _ _ HH). split; [done|]. by apply Forall_filter_keep. }
  assert (oframe (world_ m) w) as HF' by (by apply frame_oframe).
  assert (hand hash m w k (without rt o)) as HH'.
  { split; [done|by rewrite Hf|done| |done]. by exists sh. }
  rewrite IsValid_spec by done. case_bool_decide as He; simpl.
  - rewrite decide_True in HQ by done. apply (runs_erase_key hash m); [exact HH'|]. intros w' HF'' HI'.
    destruct (erase_only hash m w' k HI) as [HO Hn]. apply HQ; [split; [done|by apply erase_calm| |]|done|done].
    + intros t Ht. eapply erase_safe; [done..|]. intros r Hl Hr Hc Hlv. pose proof (Hk t r Ht Hl Hr Hc Hlv) as Hty.
      assert (r ∈ replicas (without rt o)) as Hin by (by apply list_elem_of_filter). rewrite He in Hin. by apply elem_of_nil in Hin.
    + apply (stale_only hash k); [done|by apply erase_calm|congruence].
  - rewrite decide_False in HQ by done. apply runs_store_key; [done|].
    destruct (store_only hash m w k (without rt o) HI) as [HO Hn].
    apply HQ; [split; [by apply hand_store|by apply store_calm| |]|done|done].
    + intros t Ht. eapply store_safe; [done..|]. intros r Hl Hr Hc Hlv. split; [done|].
      apply list_elem_of_filter. split; [by eapply Hk|done].
    + apply (stale_only hash k); [done|by apply store_calm|]. intros o1 r E Hr Hlv. rewrite Hn in E. simplify_eq/=.
      apply list_elem_of_filter in Hr as [_ Hr]. by exists o, r.
Qed.

Lemma HasDiffRepStatus_None st rt o :
  HasDiffRepStatus st rt o = None ↔ ∀ r, r ∈ replicas o → type r = rt → status_ r = st.
Proof.
  unfold HasDiffRepStatus. rewrite fmap_None. split.
  - intros Hn r Hr Ht. destruct (decide (status_ r = st)) as [|Hne]; [done|].
    pose proof (find_none _ _ Hn r (proj1 (list_elem_of_In _ _) Hr)) as Hb. apply bool_decide_eq_false_1 in Hb. naive_solver.
  - intros H. destruct (List.find _ _) as [r|] eqn:E; [|done]. apply find_some in E as [Hin Hb].
    apply bool_decide_eq_true_1 in Hb. destruct Hb as [Hst Ht]. apply list_elem_of_In in Hin. by destruct Hst, (H r).
Qed.

Lemma PutRevoke_ok now m k rt :
  minv [] m → runs (PutRevoke hash k rt) m (λ r m', gentle now m m' ∧ only k m m' ∧
    match r with
    | inr _ => ∃ o, find m k = Some o ∧ replicas (cleaned m o) ≠ [] ∧
        find m' k = (if decide (replicas (without rt (cleaned m o)) = []) then None else Some (without rt (cleaned m o)))
    | inl e => (e = EC.OBJECT_NOT_FOUND ∧ find m' k = None) ∨
        (e = EC.INVALID_WRITE ∧ ∃ o r', find m k = Some o ∧ find m' k = Some (cleaned m o) ∧ r' ∈ replicas (cleaned m o) ∧
           type r' = rt ∧ status_ r' ≠ PROCESSING)
    end).
Proof.
  intros HI. unfold PutRevoke. runs_step. eapply runs_mono; [by apply (access_ok hash now)|].
  intros r m1 (HG & HO & -> & Hr).
  destruct (find m k) as [o|] eqn:Ho; cycle 1.
  { rewrite Hr. apply runs_ret. split_and!; [done..|]. by left. }
  destruct (decide (replicas (cleaned m o) = [])) as [He|He]; rewrite Hr.
  { apply runs_ret. split_and!; [done..|]. by left. }
  destruct (HasDiffRepStatus _ _ _) as [st|] eqn:Ed.
  { apply runs_ret. split_and!; [done..|]. right. split; [done|]. exists o.
    unfold HasDiffRepStatus in Ed. apply fmap_Some in Ed as (r' & Hr' & ->). apply find_some in Hr' as [Hin Hb].
    apply bool_decide_eq_true_1 in Hb. exists r'. split_and!; [done|done|by apply list_elem_of_In|naive_solver..]. }
  rewrite HasDiffRepStatus_None in Ed.
  assert (runs (o' ← on_world (EraseReplica rt (cleaned m o));
    if IsValid o' then store_key (idx k) k o' else erase_key (idx k) k o') m1
    (λ _ m', gentle now m m' ∧ only k m m' ∧
      find m' k = (if decide (replicas (without rt (cleaned m o)) = []) then None else Some (without rt (cleaned m o))))) as Hd.
  { apply (drop_type_ok now rt m1 k (cleaned m o)); [apply HG|done| |].
    - intros t r Ht Hl Hin Hc _ Hty. pose proof (Ed r Hin Hty). congruence.
    - intros m2 HG2 HO2 Hf2. split; [by eapply gentle_trans|]. split; [intros k' Hk'; by rewrite HO2, HO|done]. }
  destruct Hd as ([] & m2 & E2 & HG2 & HO2 & Hf2). exists (inr tt), m2. split; [|split_and!; [done|done|]; by exists o].
  unfold mbind, st_bind in E2 |- *. destruct (on_world _ m1) as [[o' m']|]; [|done]. by rewrite E2.
Qed.

Lemma Remove_ok now m k :
  minv [] m → runs (Remove hash now k) m (λ r m', gentle now m m' ∧ only k m m' ∧
    match r with
    | inr _ => find m' k = None ∧ ∃ o, find m k = Some o ∧ lease_timeout o <= now ∧
        Forall (λ r, status_ r = COMPLETE) (replicas (cleaned m o))
    | inl e => (e = EC.OBJECT_NOT_FOUND ∧ find m' k = None) ∨
        (e = EC.OBJECT_HAS_LEASE ∧ ∃ o, find m' k = Some o ∧ now < lease_timeout o) ∨
        (e = EC.REPLICA_IS_NOT_READY ∧ ∃ o r', find m' k = Some o ∧ r' ∈ replicas o ∧ status_ r' ≠ COMPLETE)
    end).
Proof.
  intros HI. unfold Remove. runs_step. eapply runs_mono; [by apply (access_ok hash now)|].
  intros r m1 (HG & HO & -> & Hr).
  destruct (find m k) as [o|] eqn:Ho; cycle 1.
  { rewrite Hr. apply runs_ret. split_and!; [done..|]. by left. }
  destruct (decide (replicas (cleaned m o) = [])) as [He|He]; rewrite Hr.
  { apply runs_ret. split_and!; [done..|]. by left. }
  unfold IsLeaseExpired. destruct (Z.leb_spec (lease_timeout (cleaned m o)) now) as [Hl|Hl]; simpl.
  2: { apply runs_ret. split_and!; [done..|]. right. left. eauto. }
  destruct (IsAllReplicasComplete _) eqn:Ec; simpl.
  - runs_step. apply (erase_key_ok hash now m1 k (cleaned m o)); [apply HG|done|intros; simpl in *; lia|].
    intros m2 HG2 HO2 Hf2. apply runs_ret. split; [by eapply gentle_trans|].
    split; [intros k' Hk'; by rewrite HO2, HO|]. split; [done|]. exists o. split_and!; [done|done|].
    apply Forall_forall. intros r Hin. unfold IsAllReplicasComplete in Ec. rewrite forallb_forall in Ec.
    eapply bool_decide_eq_true_1, Ec. by apply list_elem_of_In.
  - apply runs_ret. split_and!; [done..|]. right. right. split; [done|]. exists (cleaned m o).
    unfold IsAllReplicasComplete in Ec. apply not_true_iff_false in Ec. rewrite forallb_forall in Ec.
    assert (∃ r, r ∈ replicas (cleaned m o) ∧ status_ r ≠ COMPLETE) as (r' & ? & ?); [|by exists r'].
    apply Exists_exists, not_Forall_Exists; [intros; apply _|]. rewrite Forall_forall. intros HF. apply Ec.
    intros r Hin%list_elem_of_In. by apply bool_decide_eq_true_2, HF.
Qed.

(** ** Loops *)

Abbreviation shard_map := (shard_map hash).

(** What cleaning leaves of an object. *)
Definition clean_entry m o : option (ObjectMetadata B) :=
  if decide (replicas (cleaned m o) = []) then None else Some (cleaned m o).

Lemma calm_cleaned m m' o : calm m m' → cleaned m' o = cleaned m o.
Proof. intros HC. unfold cleaned. f_equal. apply filter_ext_elem. intros r _. by apply calm_live. Qed.

Lemma clear_shard_ok now order m i :
  order_ok order → (i < kNumShards)%nat → minv [] m →
  runs (clear_shard order i) m (λ _ m', gentle now m m' ∧ shard_map i (λ _, clean_entry m) m m').
Proof.
  intros Ho Hi HI. unfold clear_shard.
  eapply runs_mono; [apply (for_shard_map hash now order i _ (λ _, clean_entry m) (λ _ _, True)); try done|by intros [] m' (_ & ? & ?)].
  intros k ks o [] m1 _ _ Hf0 Hik HG Hf. lazy beta. runs_step.
  eapply runs_mono; [eapply CleanupStaleHandles_ok; [apply HG|exact Hf]|]. intros r m' (-> & w & -> & HH). rewrite <-Hik.
  unfold clean_entry. rewrite <-(calm_cleaned m m1) by apply HG. case_bool_decide as He.
  - rewrite decide_True by done. apply (erase_cleaned hash now); [done..|]. intros m2 ???. by split_and!.
  - rewrite decide_False by done. apply (store_cleaned hash now); [done..|]. intros m2 ???. by split_and!.
Qed.

Lemma ClearInvalidHandles_ok now order m :
  (∀ i, order_ok (order i)) → minv [] m →
  runs (ClearInvalidHandles order) m (λ _ m', gentle now m m' ∧ ∀ k, find m' k = find m k ≫= clean_entry m).
Proof.
  intros Ho HI. unfold ClearInvalidHandles.
  eapply runs_mono; [apply (for_shards_map hash now _ (λ _, clean_entry m) _ (λ _ _, True)); try done|].
  - apply NoDup_seq.
  - intros i Hi%elem_of_seq. lia.
  - intros i l' [] m1 _ Hi HG Hf. eapply runs_mono; [apply (clear_shard_ok now); [done|done|apply HG]|].
    intros [] m2 [HG2 Hm]. split_and!; [done|done|]. intros k. rewrite (Hm k). case_decide; [|done].
    destruct (find m1 k) as [o|]; [|done]. simpl. unfold clean_entry. by rewrite (calm_cleaned m m1) by apply HG.
  - intros [] m' (_ & HG & Hf). split; [done|]. intros k. by rewrite Hf, decide_True by apply all_shards_idx.
Qed.

(** Deleting the objects of a shard that satisfy [gone]. *)
Definition remove_entry (gone : string → ObjectMetadata B → bool) k o : option (ObjectMetadata B) :=
  if gone k o then None else Some o.

Lemma remove_all_shard_ok now order i m n total :
  order_ok order → (i < kNumShards)%nat → minv [] m →
  runs (remove_all_shard now order i (n, total)) m (λ _ m',
    gentle now m m' ∧ shard_map i (remove_entry (λ _, IsLeaseExpired now)) m m').
Proof.
  intros Ho Hi HI. unfold remove_all_shard.
  eapply runs_mono; [apply (for_shard_map hash now order i _ (remove_entry (λ _, IsLeaseExpired now)) (λ _ _, True)); try done|by intros acc m' (_ & ? & ?)].
  intros k ks o [n1 total1] m1 _ _ Hf0 Hik HG Hf. unfold remove_entry, IsLeaseExpired.
  destruct (Z.leb_spec (lease_timeout o) now) as [Hl|Hl].
  - rewrite <-Hik. runs_step. apply (erase_key_ok hash now m1 k o); [apply HG|done|intros; lia|].
    intros m2 HG2 HO2 Hf2. apply runs_ret. by split_and!.
  - apply runs_ret. split_and!; [done|by apply gentle_refl, HG|done|done].
Qed.

Lemma RemoveAll_ok now order m :
  (∀ i, order_ok (order i)) → minv [] m →
  runs (RemoveAll now order) m (λ _ m', gentle now m m' ∧
    ∀ k, find m' k = find m k ≫= remove_entry (λ _, IsLeaseExpired now) k).
Proof.
  intros Ho HI. unfold RemoveAll. runs_step.
  eapply runs_mono; [apply (for_shards_map hash now _ (remove_entry (λ _, IsLeaseExpired now)) _ (λ _ _, True)); try done|].
  - apply NoDup_seq.
  - intros i Hi%elem_of_seq. lia.
  - intros i l' [n total] m1 _ Hi HG Hf. eapply runs_mono; [apply remove_all_shard_ok; [done|done|apply HG]|].
    intros acc m2 [? ?]. by split_and!.
  - intros [n total] m' (_ & HG & Hf). apply runs_ret. split; [done|]. intros k. by rewrite Hf, decide_True by apply all_shards_idx.
Qed.

Definition regex_gone (search : string → string → bool) (pattern : string) (time : string → Z) k o : bool :=
  search k pattern && IsLeaseExpired (time k) o && IsAllReplicasComplete o.

Lemma remove_regex_shard_ok now search pattern time order i m n :
  (∀ k, time k <= now) → order_ok order → (i < kNumShards)%nat → minv [] m →
  runs (remove_regex_shard search pattern time order i n) m (λ _ m',
    gentle now m m' ∧ shard_map i (remove_entry (regex_gone search pattern time)) m m').
Proof.
  intros Ht Ho Hi HI. unfold remove_regex_shard.
  eapply runs_mono; [apply (for_shard_map hash now order i _ (remove_entry (regex_gone search pattern time)) (λ _ _, True)); try done|by intros acc m' (_ & ? & ?)].
  intros k ks o n1 m1 _ _ Hf0 Hik HG Hf. unfold remove_entry, regex_gone, IsLeaseExpired.
  assert (∀ x : Z, True ∧ gentle now m1 m1 ∧ only k m1 m1 ∧ find m1 k = Some o) as Hsame
    by (intros _; split_and!; [done|by apply gentle_refl, HG|done|done]).
  destruct (search k pattern); [|by apply runs_ret, Hsame].
  destruct (Z.leb_spec (lease_timeout o) (time k)) as [Hl|Hl]; simpl; [|by apply runs_ret, Hsame].
  destruct (IsAllReplicasComplete o); simpl; [|by apply runs_ret, Hsame].
  specialize (Ht k). rewrite <-Hik. runs_step. apply (erase_key_ok hash now m1 k o); [apply HG|done|intros; lia|].
  intros m2 HG2 HO2 Hf2. apply runs_ret. by split_and!.
Qed.

Definition regex_grant (search : string → string → bool) (pattern : string) (time : string → Z) k o : ObjectMetadata B :=
  if search k pattern && existsb is_complete (replicas o)
  then GrantLease (time k) (default_kv_lease_ttl cfg) (default_kv_soft_pin_ttl cfg) o else o.

Lemma existsb_filter_nil o : existsb is_complete (replicas o) = negb (bool_decide (filter (λ r, status_ r = COMPLETE) (replicas o) = [])).
Proof.
  induction (replicas o) as [|r rs IH]; [done|]. simpl. rewrite filter_cons, IH. unfold is_complete.
  case_decide as Hc; [by rewrite (bool_decide_eq_true_2 (_ = COMPLETE))|by rewrite (bool_decide_eq_false_2 (_ = COMPLETE))].
Qed.

Lemma regex_shard_ok now search pattern time order i m res :
  order_ok order → (i < kNumShards)%nat → minv [] m →
  runs (regex_shard cfg search pattern time order i res) m (λ _ m',
    gentle now m m' ∧ shard_map i (λ k o, Some (regex_grant search pattern time k o)) m m').
Proof.
  intros Ho Hi HI. unfold regex_shard.
  eapply runs_mono; [apply (for_shard_map hash now order i _ (λ k o, Some (regex_grant search pattern time k o)) (λ _ _, True)); try done|by intros acc m' (_ & ? & ?)].
  intros k ks o res1 m1 _ _ Hf0 Hik HG Hf. unfold regex_grant. rewrite existsb_filter_nil.
  assert (∀ x : list (string * list Descriptor), True ∧ gentle now m1 m1 ∧ only k m1 m1 ∧ find m1 k = Some o) as Hsame
    by (intros _; split_and!; [done|by apply gentle_refl, HG|done|done]).
  destruct (search k pattern); [|by apply runs_ret, Hsame]. do 2 runs_step.
  assert (bool_decide (complete_descriptors (world_ m1) o = []) = bool_decide (filter (λ r, status_ r = COMPLETE) (replicas o) = [])) as ->.
  { apply bool_decide_ext. unfold complete_descriptors. split; [apply fmap_nil_inv|by intros ->]. }
  case_bool_decide as He; simpl; [by apply runs_ret, Hsame|].
  rewrite <-Hik. runs_step. apply (store_key_ok hash now m1 k o); [apply HG|done| |done|apply pins_lease|done|by eauto| |].
  - eapply obj_ok_lease, minv_obj; [apply HG|done].
  - intros t r Ht Hl Hr Hc. simpl. split; [lia|done].
  - intros m2 HG2 HO2 Hf2. apply runs_ret. by split_and!.
Qed.
End ops.
