(* ===== verification/MasterPut.v ===== *)
(** * MasterPut: starting a write

    [PutStart] allocates the replicas of a new object and enters it in the
    table.  [PutStart_ok] describes every outcome. *)

From S2P Require Import Prelude Types BufferAllocator Replica ReplicaHeap AllocationStrategy SegmentManager SegmentInv.
From S2P Require Import MasterService MasterInv MasterOps.
Open Scope Z_scope.

Section put.
Context {A B : Type} {ops : BufferAllocator A B} {laws : BufferAllocatorLaws A B}.
Context (cfg : MasterServiceConfig) (hash : string → Z).
Implicit Types (m : Master A B) (k : string) (o : ObjectMetadata B) (w : World A) (now : Z).

Abbreviation idx := (getShardIndex hash).
Abbreviation find := (find hash).
Abbreviation minv := (minv hash).
Abbreviation gentle := (gentle hash).
Abbreviation only := (only hash).

Lemma minv_world bs bs' m w :
  minv bs m → oframe (world_ m) w → world_ok w bs' (objects m) → minv bs' (set_world w m).
Proof.
  intros [H1 H2 H3 H4 H5 H6] [HS Hg] HW. split; simpl; try done.
  - apply (seg_ok_same _ (world_ m)); [done|by apply Hg|done].
  - by rewrite Hg.
Qed.

(** Entering a new object. *)
Lemma minv_insert m w k o sh :
  minv [] m → oframe (world_ m) w → world_ok w [] (o :: objects m) → obj_ok o →
  metadata_shards_ m !! idx k = Some sh → sh !! k = None →
  minv [] (set_shards (<[idx k := <[k := o]> sh]> (metadata_shards_ m)) (set_world w m)).
Proof.
  intros HI [HS Hg] HW Hok Hi Hk.
  assert (entries (<[idx k := <[k := o]> sh]> (metadata_shards_ m)) ≡ₚ (k, o) :: entries (metadata_shards_ m)) as He.
  { rewrite entries_put_in by done. rewrite delete_id by done. by rewrite list_insert_id. }
  destruct HI as [H1 H2 H3 H4 H5 H6]. split; simpl.
  - by rewrite length_insert.
  - eapply shards_changed; [exact H2|exact Hi|]. intros k' Hk'. destruct (decide (k' = k)) as [->|Hne]; [by right|].
    rewrite lookup_insert_ne in Hk' by done. by left.
  - apply (seg_ok_same _ (world_ m)); [done|by apply Hg|done].
  - unfold objects. simpl. by rewrite He.
  - by rewrite Hg.
  - unfold objects. simpl. rewrite He. by constructor.
Qed.

Lemma safe_other t m m' k :
  only k m m' → calm m m' → (∀ o, find m k = Some o → find m' k = Some o) → safe hash t m m'.
Proof.
  intros HO HC Hk k' r (o & Hf & Ht & Hr & Hs & Hl). exists o.
  split_and!; [|done..|by apply (calm_live m m')]. destruct (decide (k' = k)) as [->|]; [by apply Hk|by rewrite HO].
Qed.

Lemma emplace_key_ok now m w k len reps pin :
  minv [] m → oframe (world_ m) w → world_ok w (reps ≫= replica_buffers) (objects m) →
  0 < len → Forall (replica_ok len) reps → Forall (live_replica (world_ m)) reps →
  runs (emplace_key (idx k) k len reps pin) (set_world w m) (λ _ m', gentle now m m' ∧ only k m m' ∧
    match find m k with
    | Some o => find m' k = Some o
    | None => ∃ o, find m' k = Some o ∧ replicas o = reps ∧ size o = len ∧ lease_timeout o = 0 ∧ (pins o ↔ pin = true)
    end).
Proof.
  intros HI HF HW Hlen Hreps Hlive. unfold emplace_key. runs_step. apply runs_on_world.
  eapply runs_mono; [apply (new_metadata_ok _ []); by rewrite app_nil_r|].
  intros o w1 (HF1 & HW1 & Hr & Hsz & Hle & Hpin). runs_step.
  destruct (minv_shard hash _ _ (idx k) HI (idx_lt hash k)) as [sh Hi]. apply (runs_get_shard _ _ sh); [done|].
  assert (oframe (world_ m) w1) as HFm by (by etrans). rewrite (find_shard hash _ _ _ Hi).
  destruct (sh !! k) as [o0|] eqn:Hk.
  - apply runs_on_world. eapply runs_mono; [by apply destroy_metadata_ok|]. intros [] w2 [HF2 HW2].
    assert (calm m (set_world w2 m)) as HC by (split; [done..|by etrans]).
    split; [split; [|exact HC| |]|split; [done|by rewrite (find_shard hash _ _ sh)]].
    + apply (minv_world [] [] m); [done|by etrans|done].
    + intros t _. by apply (safe_other t m _ k).
    + apply (stale_only hash k); [done|done|]. intros o1 r1 Ho1 Hr1 Hl1. by exists o1, r1.
  - unfold put_shard. runs_step.
    assert (obj_ok o) as Hok by (split; [lia|by rewrite Hr, Hsz]).
    pose proof (minv_insert m w1 k o sh HI HFm HW1 Hok Hi Hk) as HI'.
    assert (∀ k', find (set_shards (<[idx k := <[k := o]> sh]> (metadata_shards_ m)) (set_world w1 m)) k' =
      if decide (k' = k) then Some o else find m k') as Hfind.
    { intros k'. rewrite <-(find_store hash m w1 k o k' HI). unfold store. simpl. by rewrite (alter_shard _ _ _ sh). }
    set (m' := set_shards _ _) in *.
    assert (only k m m') as HO by (intros k' Hk'; by rewrite Hfind, decide_False).
    assert (calm m m') as HC by (by split).
    split; [split; [done|done| |]|split; [done|]].
    + intros t _. apply (safe_other t m m' k); [done..|]. intros o' E. rewrite (find_shard hash _ _ _ Hi) in E. congruence.
    + apply (stale_only hash k); [done|done|]. intros o' r Ho' Hr' Hl. rewrite Hfind, decide_True in Ho' by done.
      simplify_eq. rewrite Forall_forall in Hlive. by destruct Hl; apply Hlive.
    + exists o. by rewrite Hfind, decide_True.
Qed.

Lemma total_length_small slices acc :
  0 <= acc → Forall (λ n, 0 <= n) slices → acc + zsum slices < 2 ^ 64 →
  foldl (λ acc n, u64 (acc + n)) acc slices = acc + zsum slices.
Proof.
  intros Hacc HF. revert acc Hacc. induction HF as [|n slices Hn HF IH]; intros acc Hacc Hlt; simpl; [unfold zsum; simpl; lia|].
  rewrite zsum_cons in *. assert (0 <= zsum slices) as Hp.
  { clear -HF. induction HF; [done|]. rewrite zsum_cons. lia. }
  rewrite u64_small by (unfold is_u64; lia). rewrite IH by lia. lia.
Qed.

Lemma zsum_bound slices : Forall (λ n, 0 <= n) slices → Forall (λ n, 0 <= n <= zsum slices) slices.
Proof.
  induction 1 as [|n l Hn HF IH]; constructor.
  - rewrite zsum_cons. assert (0 <= zsum l); [|lia]. clear -HF. induction HF; [done|]. rewrite zsum_cons. lia.
  - eapply Forall_impl; [exact IH|]. intros x Hx. rewrite zsum_cons. simpl in Hx. lia.
Qed.

Lemma zsum_pos slices : slices ≠ [] → Forall (λ n, 0 < n) slices → 0 < zsum slices.
Proof.
  intros Hne HF. destruct HF as [|n l Hn HF]; [done|]. rewrite zsum_cons. assert (0 <= zsum l); [|lia].
  clear -HF. induction HF; [done|]. rewrite zsum_cons. lia.
Qed.

(** A request whose sizes are sizes: no slice is negative and the total is not
    beyond what an allocator accepts. *)
Record request_ok (slices : list Z) (config : ReplicateConfig) : Prop := {
  rq_slices : Forall (λ n, 0 <= n) slices;
  rq_total : zsum slices <= 2 ^ 63;
  rq_replicas : 0 <= replica_num config;
}.

Definition disk_replicas k (slices : list Z) : list (Replica B) :=
  if use_disk_replica cfg
  then [mkReplica (DiskReplicaData (resolve_path cfg hash k) (total_length slices)) PROCESSING] else [].

(** The replicas of a write: memory copies that each hold every slice, on live
    memory, the copies of one slice on segments of different names, then the
    disk copy when one is configured. *)
Definition write_set w k (slices : list Z) (config : ReplicateConfig) (reps : list (Replica B)) : Prop :=
  ∃ mem, reps = mem ++ disk_replicas k slices ∧
    1 <= Z.of_nat (length mem) <= replica_num config ∧
    Forall (λ r, type r = MEMORY ∧ status_ r = PROCESSING) mem ∧
    filled w slices (replica_buffers <$> mem).

Lemma total_length_spec slices config : request_ok slices config → total_length slices = zsum slices.
Proof.
  intros [H1 H2 _]. unfold total_length. rewrite total_length_small; [lia|done|done|]. lia.
Qed.

Lemma filled_replica_ok w slices mem r :
  Forall (λ r, type r = MEMORY ∧ status_ r = PROCESSING) mem → filled w slices (replica_buffers <$> mem) →
  r ∈ mem → replica_ok (zsum slices) r.
Proof.
  intros HF [HS _ _] Hr. rewrite Forall_forall in HF. destruct (HF r Hr) as [Ht Hst]. split; [by left|]. intros _.
  apply Forall_fmap in HS. rewrite Forall_forall in HS. specialize (HS r Hr). simpl in HS. by rewrite HS.
Qed.

Lemma write_set_ok w k slices config reps :
  request_ok slices config → write_set w k slices config reps → Forall (replica_ok (total_length slices)) reps.
Proof.
  intros HR (mem & -> & _ & HF & HFi). rewrite (total_length_spec _ _ HR). apply Forall_app. split.
  - apply Forall_forall. intros r Hr. by eapply filled_replica_ok.
  - unfold disk_replicas. destruct (use_disk_replica cfg); [|constructor]. constructor; [|constructor]. split; [by left|done].
Qed.

Lemma write_set_buffers k slices mem :
  (mem ++ disk_replicas k slices) ≫= replica_buffers = mem ≫= replica_buffers.
Proof. rewrite bind_app. unfold disk_replicas. destruct (use_disk_replica cfg); simpl; by rewrite app_nil_r. Qed.

Lemma live_filled w slices (mem : list (Replica B)) :
  Forall (λ r, type r = MEMORY ∧ status_ r = PROCESSING) mem →
  filled w slices (replica_buffers <$> mem) → Forall (live_replica w) mem.
Proof.
  intros HF [_ HV _]. rewrite Forall_fmap in HV. rewrite Forall_forall in *. intros r Hr. specialize (HV r Hr). simpl in HV.
  unfold live_replica, has_invalid_mem_handle. unfold replica_buffers in HV. destruct (data_ r) as [bufs|]; [|done].
  apply not_true_iff_false. intros (b & Hb%list_elem_of_In & Hn)%existsb_exists.
  rewrite Forall_forall in HV. specialize (HV b Hb). by destruct (isAllocatorValid w b).
Qed.

Lemma write_set_live w w' k slices config reps :
  same_heap w w' → write_set w k slices config reps → Forall (live_replica w') reps.
Proof.
  intros HS (mem & -> & _ & HF & HFi). apply Forall_app. split.
  - eapply live_filled; [done|]. by apply (filled_same w).
  - unfold disk_replicas. destruct (use_disk_replica cfg); repeat constructor.
Qed.

(** What happens to the entry of the key: a stale object is emptied but stays. *)
Definition put_entry m k slices config (r : expected (list Descriptor)) m' : Prop :=
  match find m k with
  | Some o =>
      (r = inl EC.OBJECT_ALREADY_EXISTS ∧ replicas (cleaned m o) ≠ [] ∧ find m' k = Some (cleaned m o)) ∨
      (replicas (cleaned m o) = [] ∧ find m' k = Some (cleaned m o) ∧ r ≠ inl EC.OBJECT_ALREADY_EXISTS)
  | None =>
      match r with
      | inl _ => find m' k = None
      | inr ds => ∃ o, find m' k = Some o ∧ write_set (world_ m') k slices config (replicas o) ∧
          ds = get_descriptor (world_ m') <$> replicas o ∧
          size o = zsum slices ∧ lease_timeout o = 0 ∧ (pins o ↔ with_soft_pin config = true)
      end
  end.

(** The part of [PutStart] after the key has been found free or stale. *)
Lemma put_alloc_ok now shuffle m k slices config :
  (∀ s i l, shuffle s i l ≡ₚ l) → request_ok slices config → Forall (λ n, 0 <= n <= max_request) slices → minv [] m →
  runs (sm ← gets segment_manager_;
        allocation_result ← on_world (Allocate shuffle (allocators_ sm) (allocators_by_name_ sm) slices config);
        match allocation_result with
        | inl e =>
            if decide (e = EC.INVALID_PARAMS) then mret (inl EC.INVALID_PARAMS) else
            modify (set_need_eviction true);;
            mret (inl EC.NO_AVAILABLE_HANDLE)
        | inr reps =>
            let reps := if use_disk_replica cfg
              then reps ++ [mkReplica (DiskReplicaData (resolve_path cfg hash k) (total_length slices)) PROCESSING] else reps in
            replica_list ← gets (λ m, get_descriptor (world_ m) <$> reps);
            emplace_key (idx k) k (total_length slices) reps (with_soft_pin config);;
            mret (inr replica_list)
        end) m (λ r m', gentle now m m' ∧ only k m m' ∧ r ≠ inl EC.OBJECT_ALREADY_EXISTS ∧
          match find m k with
          | Some o => find m' k = Some o
          | None =>
              match r with
              | inl _ => find m' k = None
              | inr ds => ∃ o, find m' k = Some o ∧ write_set (world_ m') k slices config (replicas o) ∧
                  ds = get_descriptor (world_ m') <$> replicas o ∧
                  size o = zsum slices ∧ lease_timeout o = 0 ∧ (pins o ↔ with_soft_pin config = true)
              end
          end).
Proof.
  intros Hsh HR Hfit HI. do 3 runs_step. apply runs_on_world.
  pose proof (mi_world _ _ _ HI) as HW. pose proof (wo_heap _ _ _ HW) as HO. simpl in HO.
  eapply runs_mono.
  { apply Allocate_ok; [done|exact HO|exact (seg_ok_usable _ (mi_segments _ _ _ HI))|apply HR|exact Hfit]. }
  intros r w [HF HP]. destruct r as [e|mem]; simpl in HP.
  - destruct HP as [HO' _].
    assert (minv [] (set_world w m)) as HI'.
    { apply (minv_world [] [] m); [done|by apply frame_oframe|]. by eapply world_ok_frame. }
    assert (∀ b, gentle now m (set_need_eviction b (set_world w m)) ∧ only k m (set_need_eviction b (set_world w m)) ∧
      find (set_need_eviction b (set_world w m)) k = find m k) as Hkeep.
    { intros b. assert (calm m (set_need_eviction b (set_world w m))) as HC by (split; [done..|by apply frame_oframe]).
      split; [split; [by destruct HI' as [? ? ? ? ? ?]|done| |]|done].
      - intros t _. by apply (safe_other t m _ k).
      - apply (stale_only hash k); [done|done|]. intros o' r Ho' Hr Hl. by exists o', r. }
    case_decide; runs_steps.
    + destruct (Hkeep (need_eviction_ m)) as (? & ? & ?). split_and!; [done|done|done|]. by destruct (find m k).
    + destruct (Hkeep true) as (? & ? & Hf). split_and!; [done|done|done|]. rewrite Hf. by destruct (find m k).
  - destruct HP as (HO' & Hlen & Hmem & Hfi & Hne & Hpos). cbv zeta.
    assert ((if use_disk_replica cfg then mem ++ [mkReplica (DiskReplicaData (resolve_path cfg hash k) (total_length slices)) PROCESSING]
      else mem) = mem ++ disk_replicas k slices) as ->.
    { unfold disk_replicas. destruct (use_disk_replica cfg); [done|by rewrite app_nil_r]. }
    assert (write_set w k slices config (mem ++ disk_replicas k slices)) as Hws by (by exists mem).
    do 3 runs_step. eapply runs_mono.
    { apply (emplace_key_ok now m w k); [done|by apply frame_oframe| | |by eapply write_set_ok|].
      3: { eapply write_set_live; [symmetry; apply HF|done]. }
      - rewrite write_set_buffers. by eapply world_ok_frame.
      - rewrite (total_length_spec _ _ HR). by apply zsum_pos. }
    intros [] m' (HG & Hon & Hf). apply runs_ret. split_and!; [done..|].
    destruct (find m k) as [o|]; [done|]. destruct Hf as (o & Hf & Hr & Hsz & Hle & Hpin). exists o. rewrite Hr, Hsz.
    assert (same_heap w (world_ m')) as HS.
    { etrans; [symmetry; apply HF|apply (ca_world _ _ (ge_calm _ _ _ _ HG))]. }
    split; [done|]. split; [|split; [|by rewrite (total_length_spec _ _ HR)]].
    + destruct Hws as (mem' & E & Hl & Hm & Hfl). exists mem'. split; [done|]. split; [done|]. split; [done|].
      by apply (filled_same w).
    + apply list_fmap_ext. intros _ r _. symmetry. by apply get_descriptor_same.
Qed.

(** What passes the check on slice lengths fits the allocator the server was
    configured with. *)
Lemma slices_fit slices config :
  memory_allocator cfg = ba_kind → request_ok slices config →
  bool_decide (memory_allocator cfg = CACHELIB) && existsb (λ n, kMaxSliceSize <? n) slices = false →
  Forall (λ n, 0 <= n <= max_request) slices.
Proof.
  intros Hkind HR Hg. pose proof (zsum_bound _ (rq_slices _ _ HR)) as HF. rewrite Forall_forall in HF |- *.
  intros n Hn. pose proof (HF n Hn) as Hz. pose proof (rq_total _ _ HR). split; [lia|]. unfold max_request.
  rewrite Hkind in Hg. destruct ba_kind; [|lia]. cbn [andb bool_decide] in Hg. rewrite bool_decide_true in Hg by done.
  apply Z.ltb_ge. destruct (kMaxSliceSize <? n) eqn:E; [|done]. exfalso.
  assert (existsb (λ n, kMaxSliceSize <? n) slices = true) as E' by (apply existsb_exists; exists n; by rewrite <-list_elem_of_In).
  by rewrite E' in Hg.
Qed.

Lemma PutStart_ok now shuffle m k slices config :
  memory_allocator cfg = ba_kind → (∀ s i l, shuffle s i l ≡ₚ l) → request_ok slices config → minv [] m →
  runs (PutStart cfg hash shuffle k slices config) m (λ r m', gentle now m m' ∧ only k m m' ∧
    (r = inl EC.INVALID_PARAMS ∧ m' = m ∨ put_entry m k slices config r m')).
Proof.
  intros Hkind Hsh HR HI. unfold PutStart.
  destruct (_ || _); [apply runs_ret; split_and!; [by apply gentle_refl|done|by left]|].
  destruct (_ && _) eqn:Eg; [apply runs_ret; split_and!; [by apply gentle_refl|done|by left]|].
  pose proof (slices_fit slices config Hkind HR Eg) as Hfit. clear Eg. cbv zeta. runs_step. rewrite <-(set_world_id m) at 1. apply runs_find_key; [done|]. rewrite set_world_id.
  unfold put_entry. destruct (find m k) as [o|] eqn:Hf.
  - runs_step. runs_step. eapply runs_mono; [by apply CleanupStaleHandles_ok|]. intros x m0 (-> & w & -> & HH).
    runs_step. apply (store_cleaned hash now); [done..|]. intros m1 HG1 HO1 Hf1. apply runs_ret.
    case_bool_decide as He; simpl.
    + eapply runs_mono; [apply (put_alloc_ok now); [done|done|done|apply HG1]|].
      intros r m' (HG & HO & Hr & Hf'). rewrite Hf1 in Hf'. split; [by eapply gentle_trans|].
      split; [intros k' Hk'; by rewrite HO, HO1|]. right. right. done.
    + apply runs_ret. split_and!; [done|done|]. right. left. done.
  - runs_step. apply runs_ret. eapply runs_mono; [by apply (put_alloc_ok now)|].
    intros r m' (HG & HO & Hr & Hf'). rewrite Hf in Hf'. split_and!; [done|done|]. by right.
Qed.
End put.
