(* ===== verification/MasterEvict.v ===== *)
(** * MasterEvict: what eviction may take

    [BatchEvict] frees the memory replicas of objects whose lease has expired,
    whose memory replicas are all complete, and which are not soft-pinned unless
    the configuration allows it; disk replicas stay.  The targets of the second
    pass come from the lease times the first pass recorded, so even its variant
    without a lease check never reaches a leased object. *)

From S2P Require Import Prelude Types Float64 BufferAllocator Replica ReplicaHeap AllocationStrategy SegmentManager SegmentInv.
From S2P Require Import MasterService BatchEvict MasterInv MasterOps.
Open Scope Z_scope.

(** ** The n-th smallest *)

Lemma nth_smallest_in l n : 0 < n <= Z.of_nat (length l) → ∃ t, nth_smallest l n = Some t ∧ t ∈ l.
Proof.
  intros Hn. unfold nth_smallest. pose proof (merge_sort_Permutation Z.le l) as Hp.
  destruct (lookup_lt_is_Some_2 (merge_sort Z.le l) (Z.to_nat (n - 1))) as [t Ht].
  { rewrite Hp. lia. }
  exists t. split; [done|]. rewrite <-Hp. by eapply list_elem_of_lookup_2.
Qed.

Section evict.
Context {A B : Type} {ops : BufferAllocator A B} {laws : BufferAllocatorLaws A B}.
Context (cfg : MasterServiceConfig) (hash : string → Z).
Implicit Types (m : Master A B) (k : string) (o : ObjectMetadata B) (w : World A) (t now : Z).

Abbreviation idx := (getShardIndex hash).
Abbreviation find := (find hash).
Abbreviation minv := (minv hash).
Abbreviation gentle := (gentle hash).
Abbreviation only := (only hash).

Definition evict_entry o : option (ObjectMetadata B) :=
  if decide (replicas (without MEMORY o) = []) then None else Some (without MEMORY o).

(** The objects eviction may touch. *)
Record evictable now o : Prop := {
  ev_expired : lease_timeout o <= now;
  ev_pinned : IsSoftPinned now o = true → allow_evict_soft_pinned_objects cfg = true;
  ev_complete r : r ∈ replicas o → type r = MEMORY → status_ r = COMPLETE;
  ev_memory : HasMemReplica o = true;
}.

(** Exactly the keys of [E] lost their memory replicas. *)
Record evicts now (E : list string) m m' : Prop := {
  es_nodup : NoDup E;
  es_in k : k ∈ E → ∃ o, find m k = Some o ∧ evictable now o ∧ find m' k = evict_entry o;
  es_out k : k ∉ E → find m' k = find m k;
}.

Lemma without_no_memory o : HasMemReplica (without MEMORY o) = false.
Proof.
  apply not_true_iff_false. unfold HasMemReplica. intros (r & Hr%list_elem_of_In & Ht%bool_decide_eq_true_1)%existsb_exists.
  simpl in Hr. by apply list_elem_of_filter in Hr as [? _].
Qed.

Lemma evicts_refl now m : evicts now [] m m.
Proof. split; [constructor|intros k Hk; by apply elem_of_nil in Hk|done]. Qed.

Lemma evicts_trans now E1 E2 m1 m2 m3 :
  evicts now E1 m1 m2 → evicts now E2 m2 m3 → evicts now (E1 ++ E2) m1 m3.
Proof.
  intros [N1 I1 O1] [N2 I2 O2].
  assert (∀ k, k ∈ E1 → k ∉ E2) as Hdisj.
  { intros k (o & _ & _ & H2)%I1 (o2 & H2' & Hev & _)%I2. rewrite H2 in H2'. unfold evict_entry in H2'.
    case_decide; simplify_eq. pose proof (ev_memory _ _ Hev) as Hm. by rewrite without_no_memory in Hm. }
  split.
  - apply NoDup_app. auto.
  - intros k [Hk|Hk]%elem_of_app.
    + destruct (I1 k Hk) as (o & ? & ? & ?). exists o. rewrite O2 by auto. done.
    + destruct (I2 k Hk) as (o & Ho & ? & ?). exists o. rewrite O1 in Ho; [done|]. intros Hk'. by eapply Hdisj.
  - intros k Hk. rewrite not_elem_of_app in Hk. destruct Hk. by rewrite O2, O1.
Qed.

Lemma evicts_one now m m' k o :
  find m k = Some o → evictable now o → only k m m' → find m' k = evict_entry o → evicts now [k] m m'.
Proof.
  intros Hf He HO Hf'. split; [apply NoDup_singleton| |].
  - intros k' ->%list_elem_of_singleton. eauto.
  - intros k' Hk'. apply HO. by rewrite list_elem_of_singleton in Hk'.
Qed.

Lemma evict_object_ok now m k o Q :
  minv [] m → find m k = Some o → lease_timeout o <= now →
  (∀ m', gentle now m m' → only k m m' → find m' k = evict_entry o → Q tt m') →
  runs (evict_object (idx k) k o) m Q.
Proof. intros HI Hf Hl HQ. unfold evict_object. apply (drop_type_ok hash now MEMORY m k o); [done|done|intros; lia|done]. Qed.

Lemma incomplete_false o : incomplete o = false ↔ ∀ r, r ∈ replicas o → type r = MEMORY → status_ r = COMPLETE.
Proof. unfold incomplete. rewrite bool_decide_eq_false, <-eq_None_not_Some. apply HasDiffRepStatus_None. Qed.

(** A loop over one shard in which the body evicts or does nothing. *)
Lemma for_shard_evicts {X} now order i (body : string → ObjectMetadata B → X → ST (Master A B) X) (count : X → Z) (I : X → Prop) acc m :
  order_ok order → (i < kNumShards)%nat → minv [] m →
  (∀ k o acc m1, minv [] m1 → find m1 k = Some o → idx k = i → I acc →
     runs (body k o acc) m1 (λ acc' m2, gentle now m1 m2 ∧ only k m1 m2 ∧ I acc' ∧
       ∃ E, evicts now E m1 m2 ∧ count acc' = count acc + Z.of_nat (length E))) →
  I acc →
  runs (for_shard order i body acc) m (λ acc' m', gentle now m m' ∧ I acc' ∧
    ∃ E, evicts now E m m' ∧ count acc' = count acc + Z.of_nat (length E)).
Proof.
  intros Ho Hi HI Hb Hacc.
  eapply runs_mono; [apply (for_shard_rule hash now order i body (λ _ acc1 m1, I acc1 ∧
    ∃ E, evicts now E m m1 ∧ count acc1 = count acc + Z.of_nat (length E))); try done|].
  - intros k ks o acc1 m1 (Hacc1 & E & HE & Hc) _ HI1 _ Hf Hik.
    eapply runs_mono; [by apply (Hb k o acc1 m1)|]. intros acc2 m2 (HG & HO & Hacc2 & E2 & HE2 & Hc2).
    split; [|done]. split; [done|]. exists (E ++ E2). split; [by eapply evicts_trans|]. rewrite length_app. lia.
  - intros ks _ _. split; [done|]. exists []. split; [apply evicts_refl|simpl; lia].
  - intros acc' m' ((? & ?) & ?). done.
Qed.

(** ** The first pass *)

(** What the locals of the first pass are worth to the second. *)
Record locals_ok now (l : EvictLocals) : Prop := {
  lo_no_pin : Forall (λ t, t <= now) (no_pin_objects l);
  lo_soft_pin : Forall (λ t, t <= now) (soft_pin_objects l);
  lo_allowed : soft_pin_objects l ≠ [] → allow_evict_soft_pinned_objects cfg = true;
}.

Lemma Forall_snoc {X} (P : X → Prop) l x : Forall P l → P x → Forall P (l ++ [x]).
Proof. intros. apply Forall_app. auto. Qed.

Lemma sort_candidate_ok now n o c np sp :
  (∀ n1 n2 n3, locals_ok now (mkEvictLocals n1 n2 n3 np sp)) →
  let '(c', np', sp') := sort_candidate cfg now n o (c, np, sp) in
  ∀ n1 n2 n3, locals_ok now (mkEvictLocals n1 n2 n3 np' sp').
Proof.
  intros HL. unfold sort_candidate, IsLeaseExpired. destruct (Z.leb_spec (lease_timeout o) now) as [Hl|]; simpl; [|done].
  destruct (incomplete o); simpl; [done|]. destruct (HL 0 0 0) as [H1 H2 H3]; simpl in *.
  destruct (IsSoftPinned now o); simpl; [|destruct (0 <? n); split; simpl; auto using Forall_snoc].
  destruct (allow_evict_soft_pinned_objects cfg) eqn:E; [|done]. split; simpl; auto using Forall_snoc.
Qed.

Lemma sort_shard_ok now n order i np sp m :
  order_ok order → (i < kNumShards)%nat → minv [] m →
  (∀ n1 n2 n3, locals_ok now (mkEvictLocals n1 n2 n3 np sp)) →
  runs (sort_shard cfg order i now n np sp) m (λ '(_, np', sp') m', m' = m ∧
    ∀ n1 n2 n3, locals_ok now (mkEvictLocals n1 n2 n3 np' sp')).
Proof.
  intros Ho Hi HI HL. unfold sort_shard.
  eapply runs_mono; [apply (for_shard_rule hash now order i _ (λ _ '(_, np', sp') m1, m1 = m ∧
    ∀ n1 n2 n3, locals_ok now (mkEvictLocals n1 n2 n3 np' sp'))); try done|by intros [[? ?] ?] m' [? _]].
  intros k ks o [[c np1] sp1] m1 [-> HL1] _ _ _ _ _. apply runs_ret.
  pose proof (sort_candidate_ok now n o c np1 sp1 HL1) as Hs. destruct (sort_candidate _ _ _ _ _) as [[c' np'] sp'].
  split; [done|]. split; [by apply gentle_refl|done].
Qed.

Lemma evict_first_ok now target i k o n total np m :
  minv [] m → find m k = Some o → idx k = i → Forall (λ t, t <= now) np →
  runs (evict_first now target i k o (n, total, np)) m (λ acc' m', gentle now m m' ∧ only k m m' ∧
    Forall (λ t, t <= now) (snd acc') ∧ ∃ E, evicts now E m m' ∧ fst (fst acc') = n + Z.of_nat (length E)).
Proof.
  intros HI Hf <- Hnp. unfold evict_first, IsLeaseExpired.
  assert (∀ np', Forall (λ t, t <= now) np' →
    gentle now m m ∧ only k m m ∧ Forall (λ t, t <= now) np' ∧ ∃ E, evicts now E m m ∧ n = n + Z.of_nat (length E)) as Hstay.
  { intros np' ?. split_and!; [by apply gentle_refl|done|done|]. exists []. split; [apply evicts_refl|simpl; lia]. }
  destruct (Z.leb_spec (lease_timeout o) now) as [Hl|]; simpl; [|by apply runs_ret, Hstay].
  destruct (IsSoftPinned now o) eqn:Hp; simpl; [by apply runs_ret, Hstay|].
  destruct (incomplete o) eqn:Hi; simpl; [by apply runs_ret, Hstay|].
  destruct (HasMemReplica o) eqn:Hm; simpl; [|by apply runs_ret, Hstay].
  destruct (_ <=? target); [|apply runs_ret, Hstay; by apply Forall_snoc].
  runs_step. apply (evict_object_ok now); [done..|]. intros m' HG HO Hf'. apply runs_ret. split_and!; [done..|].
  exists [k]. split; [|simpl; lia]. eapply evicts_one; [done| |done|done]. split; [done|congruence|by apply incomplete_false|done].
Qed.

Lemma first_pass_shard_ok now order ratio i l m :
  order_ok order → (i < kNumShards)%nat → minv [] m → locals_ok now l →
  runs (first_pass_shard cfg order now ratio i l) m (λ l' m', gentle now m m' ∧ locals_ok now l' ∧
    ∃ E, evicts now E m m' ∧ evicted_count l' = evicted_count l + Z.of_nat (length E)).
Proof.
  intros Ho Hi HI HL. unfold first_pass_shard. runs_step. destruct (minv_shard hash _ _ _ HI Hi) as [sh Hsh].
  apply (runs_get_shard _ _ sh); [done|]. cbv zeta. runs_step.
  eapply runs_mono; [apply sort_shard_ok; [done..|]; destruct HL; by split|].
  intros [[c np] sp] m1 [-> HL1].
  assert (∀ n, gentle now m m ∧ locals_ok now (mkEvictLocals (evicted_count l) n (total_freed_size l) np sp) ∧
    ∃ E, evicts now E m m ∧ evicted_count l = evicted_count l + Z.of_nat (length E)) as Hstay.
  { intros n. split_and!; [by apply gentle_refl|done|]. exists []. split; [apply evicts_refl|simpl; lia]. }
  set (ideal := ideal_num _ _ _). destruct (Z.ltb_spec 0 ideal) as [Hid|]; [|by apply runs_ret, Hstay].
  case_bool_decide as Hc; [by apply runs_ret, Hstay|]. simpl.
  destruct (nth_smallest_in c (Z.min ideal (Z.of_nat (length c)))) as (target & -> & _).
  { destruct c; [done|]. simpl. lia. }
  runs_step. destruct (HL1 0 0 0) as [L1 L2 L3]. simpl in *. eapply runs_mono.
  { apply (for_shard_evicts now order i _ (λ acc, fst (fst acc)) (λ acc, Forall (λ t, t <= now) (snd acc))); [done..| |exact L1].
    intros k o [[n1 t1] np1] m1 HI1 Hf Hik Hnp1. by apply evict_first_ok. }
  intros [[n1 t1] np1] m' (HG & Hnp1 & E & HE & Hn). simpl in *. apply runs_ret. split_and!; [done|by split|].
  exists E. split; [done|]. simpl. lia.
Qed.

(** ** The second pass *)

Definition evict_ok now (evict : ObjectMetadata B → bool) : Prop := ∀ o, evict o = true → evictable now o.

Lemma pass_a_ok now target : target <= now → evict_ok now (pass_a now target).
Proof.
  intros Ht o. unfold pass_a. rewrite !andb_true_iff, !negb_true_iff, Z.leb_le. intros (((Hl & Hp) & Hi) & Hm).
  split; [lia|congruence|by apply incomplete_false|done].
Qed.

Lemma pass_b_ok now target : allow_evict_soft_pinned_objects cfg = true → evict_ok now (pass_b now target).
Proof.
  intros Ha o. unfold pass_b, IsLeaseExpired. rewrite andb_true_iff, negb_true_iff, !orb_false_iff, !negb_false_iff, Z.leb_le.
  intros [((Hl & Hi) & Hm) _]. split; [done|done|by apply incomplete_false|done].
Qed.

Lemma second_pass_ok now target l :
  locals_ok now l →
  target <= Z.of_nat (length (no_pin_objects l)) + Z.of_nat (length (soft_pin_objects l)) →
  ∃ e, second_pass now target l = Some e ∧ from_option (evict_ok now) True e.
Proof.
  intros [L1 L2 L3] Ht. unfold second_pass. destruct (Z.ltb_spec 0 target) as [Hp|]; simpl; [|by exists None].
  destruct (Z.leb_spec target (Z.of_nat (length (no_pin_objects l)))).
  - destruct (nth_smallest_in (no_pin_objects l) target) as (t & -> & Hin); [lia|]. simpl. eexists. split; [done|].
    simpl. apply pass_a_ok. rewrite Forall_forall in L1. by apply L1.
  - case_bool_decide as Hs; simpl; [by exists None|].
    destruct (nth_smallest_in (soft_pin_objects l) (target - Z.of_nat (length (no_pin_objects l)))) as (t & -> & _); [lia|].
    simpl. eexists. split; [done|]. simpl. by apply pass_b_ok, L3.
Qed.

Lemma evict_second_ok now evict i k o a m :
  evict_ok now evict → minv [] m → find m k = Some o → idx k = i →
  runs (evict_second evict i k o a) m (λ acc' m', gentle now m m' ∧ only k m m' ∧ True ∧
    ∃ E, evicts now E m m' ∧ snd (fst acc') = snd (fst a) + Z.of_nat (length E)).
Proof.
  intros He HI Hf <-. destruct a as [[tgt n] total]. unfold evict_second.
  destruct (_ && evict o) eqn:Ee.
  - apply andb_true_iff in Ee as [_ Hev%He]. runs_step. apply (evict_object_ok now); [done|done|apply Hev|].
    intros m' HG HO Hf'. apply runs_ret. split_and!; [done..|]. exists [k]. split; [by eapply evicts_one|simpl; lia].
  - apply runs_ret. split_and!; [by apply gentle_refl|done|done|]. exists []. split; [apply evicts_refl|simpl; lia].
Qed.

Lemma second_pass_shard_ok now order evict i a m :
  order_ok order → (i < kNumShards)%nat → minv [] m → evict_ok now evict →
  runs (second_pass_shard order evict i a) m (λ acc' m', gentle now m m' ∧ True ∧
    ∃ E, evicts now E m m' ∧ snd (fst acc') = snd (fst a) + Z.of_nat (length E)).
Proof.
  intros Ho Hi HI He. unfold second_pass_shard. destruct (0 <? _).
  - apply (for_shard_evicts now order i _ (λ acc, snd (fst acc)) (λ _, True)); [done..| |done].
    intros k o acc m1 HI1 Hf Hik _. by apply evict_second_ok.
  - apply runs_ret. split_and!; [by apply gentle_refl|done|]. exists []. split; [apply evicts_refl|simpl; lia].
Qed.

(** ** The whole *)

Lemma for_shards_evicts {X} now (section : nat → X → ST (Master A B) X) (count : X → Z) (I : X → Prop) l acc m :
  (∀ i, i ∈ l → (i < kNumShards)%nat) → minv [] m →
  (∀ i acc m1, (i < kNumShards)%nat → minv [] m1 → I acc →
     runs (section i acc) m1 (λ acc' m2, gentle now m1 m2 ∧ I acc' ∧
       ∃ E, evicts now E m1 m2 ∧ count acc' = count acc + Z.of_nat (length E))) →
  I acc →
  runs (for_shards l section acc) m (λ acc' m', gentle now m m' ∧ I acc' ∧
    ∃ E, evicts now E m m' ∧ count acc' = count acc + Z.of_nat (length E)).
Proof.
  intros Hl HI Hs Hacc.
  eapply runs_mono; [apply (for_shards_rule section (λ l' acc1 m1, (∀ i, i ∈ l' → (i < kNumShards)%nat) ∧ gentle now m m1 ∧ I acc1 ∧
    ∃ E, evicts now E m m1 ∧ count acc1 = count acc + Z.of_nat (length E)))|by intros acc' m' [_ ?]].
  - intros i l' acc1 m1 (Hl' & HG & Hacc1 & E & HE & Hc).
    eapply runs_mono; [apply (Hs i acc1 m1); [apply Hl'; left|apply HG|done]|]. intros acc2 m2 (HG2 & Hacc2 & E2 & HE2 & Hc2).
    split; [intros; apply Hl'; by right|]. split; [by eapply gentle_trans|]. split; [done|]. exists (E ++ E2).
    split; [by eapply evicts_trans|]. rewrite length_app. lia.
  - split_and!; [done|by apply gentle_refl|done|]. exists []. split; [apply evicts_refl|simpl; lia].
Qed.

Lemma shards_from_lt start i : i ∈ shards_from start → (i < kNumShards)%nat.
Proof. unfold shards_from. intros (j & -> & _)%list_elem_of_fmap. by apply Nat.mod_upper_bound. Qed.

(** The counters published at the end concern no other component. *)
Definition eviction_gauge (g : Gauge) : bool :=
  match g with eviction_success | eviction_attempts | evicted_key_count | evicted_size => true | _ => false end.

Record published (n : Z) m m' : Prop := {
  pu_shards : metadata_shards_ m' = metadata_shards_ m;
  pu_segments : segment_manager_ m' = segment_manager_ m;
  pu_clients : ok_client_ m' = ok_client_ m;
  pu_queue : client_ping_queue_ m' = client_ping_queue_ m;
  pu_heap : heap (world_ m') = heap (world_ m);
  pu_next : next_id (world_ m') = next_id (world_ m);
  pu_metrics g : eviction_gauge g = false → metrics (world_ m') g = metrics (world_ m) g;
  pu_evicted : metrics (world_ m') evicted_key_count = metrics (world_ m) evicted_key_count + n;
}.

Lemma publish_ok n total count m : 0 <= n → runs (publish n total count) m (λ _ m', published n m m').
Proof.
  intros Hn. unfold publish, bump. destruct (Z.ltb_spec 0 n) as [Hp|Hz].
  - do 2 runs_step. repeat (runs_step; apply runs_on_world; runs_step). apply runs_on_world. runs_step.
    split; try done. intros g Hg. simpl. unfold inc. by destruct g.
  - replace n with 0 in * by lia. runs_step. eapply runs_mono with (P := λ _ m', published 0 m m').
    { destruct (count =? 0); runs_step; split; simpl; (done || lia). }
    intros _ m' [P1 P2 P3 P4 P5 P6 P7 P8]. apply runs_on_world. runs_step. split; try done.
    intros g Hg. simpl. rewrite <-P7 by done. unfold inc. by destruct g.
Qed.

Lemma BatchEvict_ok now start order1 order2 target lower m :
  (∀ i, order_ok (order1 i)) → (∀ i, order_ok (order2 i)) → minv [] m →
  runs (BatchEvict cfg now start order1 order2 target lower) m (λ _ m', ∃ m1 E, gentle now m m1 ∧ evicts now E m m1 ∧
    published (Z.of_nat (length E)) m1 m').
Proof.
  intros Ho1 Ho2 HI. unfold BatchEvict. cbv zeta. runs_step. eapply runs_mono.
  { apply (for_shards_evicts now _ evicted_count (locals_ok now)); [apply shards_from_lt|done| |by split; simpl].
    intros i l m1 Hi HI1 HL. by apply first_pass_shard_ok. }
  intros l m1 (HG1 & HL & E1 & HE1 & Hn1). simpl in Hn1.
  set (tn := Z.min _ _). destruct (second_pass_ok now tn l HL) as (e & -> & He); [unfold tn; lia|].
  runs_step. eapply runs_mono with (P := λ acc m2, gentle now m m2 ∧ ∃ E, evicts now E m m2 ∧ snd (fst acc) = Z.of_nat (length E)).
  { destruct e as [evict|]; [|apply runs_ret; split; [done|]; exists E1; split; [done|simpl; lia]].
    eapply runs_mono.
    { apply (for_shards_evicts now _ (λ acc, snd (fst acc)) (λ _, True)); [apply shards_from_lt|apply HG1| |done].
      intros i a m2 Hi HI2 _. by apply second_pass_shard_ok. }
    intros acc m2 (HG2 & _ & E2 & HE2 & Hn2). split; [by eapply gentle_trans|]. exists (E1 ++ E2).
    split; [by eapply evicts_trans|]. rewrite length_app. simpl in Hn2. lia. }
  intros [[tl n] total] m2 (HG & E & HE & Hn). simpl in Hn. subst n.
  eapply runs_mono; [apply publish_ok; lia|]. eauto.
Qed.
End evict.
