(* ===== verification/MasterSegments.v ===== *)
(** * MasterSegments: mounting, unmounting and the client monitor

    The handlers that change the set of segments.  Mounting only adds
    ([grows]); phase one of an unmount takes allocators away and leaves the table
    alone ([prepared]); phase two removes segments that are being unmounted
    ([committed]).  Put in sequence they give the unmount handler and the round
    of the client monitor: afterwards the segments are gone and no object refers
    to their memory. *)

From S2P Require Import Prelude Types BufferAllocator Replica ReplicaHeap AllocationStrategy SegmentManager SegmentInv.
From S2P Require Import MasterService BatchEvict MasterInv MasterOps MasterEvict.
Open Scope Z_scope.

Section segments.
Context {A B : Type} {ops : BufferAllocator A B} {laws : BufferAllocatorLaws A B}.
Context (cfg : MasterServiceConfig) (hash : string → Z).
Implicit Types (m : Master A B) (k : string) (o : ObjectMetadata B) (w : World A) (t now : Z).

Abbreviation idx := (getShardIndex hash).
Abbreviation find := (find hash).
Abbreviation minv := (minv hash).
Abbreviation gentle := (gentle hash).
Abbreviation stale := (stale hash).

Definition segs m : SegState (A := A) := (segment_manager_ m, world_ m).
Definition mounted m : gmap UUID MountedSegment := mounted_segments_ (segment_manager_ m).

Lemma minv_segments m s :
  minv [] m → seg_ok s → world_ok (snd s) [] (objects m) →
  metrics (snd s) active_clients = metrics (world_ m) active_clients → minv [] (set_segment_state s m).
Proof.
  destruct s as [sm w]. intros [H1 H2 H3 H4 H5 H6] HS HW Hc. split; simpl in *; try done. by rewrite Hc.
Qed.

Lemma minv_queue m q : minv [] m → minv [] (set_ping_queue q m).
Proof. intros [H1 H2 H3 H4 H5 H6]. by split. Qed.

Lemma minv_need m b : minv [] m → minv [] (set_need_eviction b m).
Proof. intros [H1 H2 H3 H4 H5 H6]. by split. Qed.

(** The set of clients and its gauge move together. *)
Lemma minv_clients m c v :
  minv [] m → Z.of_nat (base.size c) = Z.of_nat (base.size (ok_client_ m)) + v →
  minv [] (set_world (set_metrics (inc active_clients v) (world_ m)) (set_ok_client c m)).
Proof.
  intros [H1 H2 H3 H4 H5 H6] Hc. split; simpl; try done.
  - apply (seg_ok_same _ (world_ m)); [apply same_heap_set_metrics|done|done].
  - apply (world_ok_heap (world_ m)); [done|by left|simpl; lia|]. intros g Hg. simpl. rewrite inc_ne; [done|by intros ->].
  - rewrite inc_eq. lia.
Qed.

(** ** Mounting *)

Record grows m m' : Prop := {
  gr_shards : metadata_shards_ m' = metadata_shards_ m;
  gr_extends : extends (segs m) (segs m');
}.

#[export] Instance grows_preorder : PreOrder grows.
Proof. split; [by split|]. intros m1 m2 m3 [] []. split; [congruence|by etrans]. Qed.

Lemma grows_queue m q : grows m (set_ping_queue q m).
Proof. by split. Qed.

Lemma ping_push_ok room client m :
  minv [] m → runs (ping_push room client) m (λ ok m', minv [] m' ∧ grows m m' ∧ ok = room ∧
    (room = true → m' = set_ping_queue (client_ping_queue_ m ++ [client]) m) ∧ (room = false → m' = m)).
Proof.
  intros HI. unfold ping_push. destruct room; runs_steps; [|by split_and!]. split_and!; [by apply minv_queue|by split|done..].
Qed.

Lemma MountSegment_ok room seg client m :
  minv [] m → region_ok seg →
  runs (MountSegment room seg client) m (λ r m', minv [] m' ∧ grows m m' ∧
    (r = inr tt → is_Some (mounted m' !! seg_id seg)) ∧ (room = false → r = inl EC.INTERNAL_ERROR ∧ m' = m)).
Proof.
  intros HI Hseg. unfold MountSegment. runs_step. eapply runs_mono; [by apply ping_push_ok|].
  intros ok m1 (HI1 & HG1 & -> & H1 & H2). destruct room; simpl; [|apply runs_ret; rewrite H2 by done; by split_and!].
  runs_step. apply runs_on_segments.
  eapply runs_mono; [by apply (ScopedMountSegment_ok seg client _ [] (objects m1)); [apply HI1|apply HI1|]|].
  intros e s' (HS & HW & HE & Hg & Hcase). assert (minv [] (set_segment_state s' m1)) as HI2.
  { apply minv_segments; [done..|]. by apply Hg. }
  assert (grows m (set_segment_state s' m1)) as HG2 by (etrans; [done|]; split; [done|by destruct s']).
  case_decide as He1; [subst e|case_decide as He2]; runs_steps; (split; [done|]; split; [done|]; split; [|done]).
  - destruct Hcase as [[? _]|(_ & -> & Hex)]; [done|]. intros _. by apply Hex.
  - intros _. subst e. destruct Hcase as [[_ [a ->]]|[? _]]; [|done]. unfold mounted. simpl. by rewrite lookup_insert_eq.
  - done.
Qed.

Lemma ReMountSegment_ok room segments client m :
  minv [] m → Forall region_ok segments →
  runs (ReMountSegment room segments client) m (λ r m', minv [] m' ∧ grows m m' ∧
    (r = inr tt → client ∈ ok_client_ m') ∧ ok_client_ m ⊆ ok_client_ m').
Proof.
  intros HI HF. unfold ReMountSegment. do 2 runs_step. case_decide as Hc; [by apply runs_ret|].
  runs_step. eapply runs_mono; [by apply ping_push_ok|].
  intros ok m1 (HI1 & HG1 & -> & H1 & H2). destruct room; simpl; [|apply runs_ret; rewrite H2 by done; by split_and!].
  assert (ok_client_ m1 = ok_client_ m) as Hok by (by rewrite H1).
  runs_step. apply runs_on_segments.
  eapply runs_mono; [by apply (ScopedReMountSegment_ok segments client _ [] (objects m1)); [apply HI1|apply HI1|]|].
  intros e s' (HS & HW & HE & Hg). assert (minv [] (set_segment_state s' m1)) as HI2.
  { apply minv_segments; [done..|]. by apply Hg. }
  assert (grows m (set_segment_state s' m1)) as HG2 by (etrans; [done|]; split; [done|by destruct s']).
  case_decide as He; [|apply runs_ret; simpl; by rewrite Hok].
  do 3 runs_step. unfold bump. apply runs_on_world. do 2 runs_step. split_and!.
  - apply (minv_clients (set_segment_state s' m1)); [done|]. simpl. rewrite Hok, size_union by set_solver. rewrite size_singleton. lia.
  - etrans; [exact HG2|]. split; [done|]. destruct s' as [sm w]. split; simpl; auto; lia.
  - simpl. set_solver.
  - simpl. rewrite Hok. set_solver.
Qed.

(** ** Phase one of an unmount *)

Definition unmounting (ms : MountedSegment) : MountedSegment := mkMounted (ms_segment ms) SS_UNMOUNTING None.
Definition unmount_ids (us : list Unmounting) : list UUID := us.*1.*1.

Record prepared (us : list Unmounting) m m' : Prop := {
  pr_shards : metadata_shards_ m' = metadata_shards_ m;
  pr_owned : client_segments_ (segment_manager_ m') = client_segments_ (segment_manager_ m);
  pr_next : next_id (world_ m') = next_id (world_ m);
  pr_heap i a : heap (world_ m') !! i = Some a → heap (world_ m) !! i = Some a;
  pr_nodup : NoDup (unmount_ids us);
  pr_mounted id : mounted m' !! id = if decide (id ∈ unmount_ids us) then unmounting <$> mounted m !! id else mounted m !! id;
  pr_units id c cap : (id, c, cap) ∈ us →
    ∃ ms, mounted m !! id = Some ms ∧ ms_status ms = SS_OK ∧ cap = seg_size (ms_segment ms);
  pr_idle : us = [] → heap (world_ m') = heap (world_ m);
}.

Lemma unmount_ids_elem id us : id ∈ unmount_ids us ↔ ∃ c cap, (id, c, cap) ∈ us.
Proof.
  unfold unmount_ids. rewrite list_elem_of_fmap. setoid_rewrite list_elem_of_fmap. split.
  - intros ([id' c] & -> & [[id1 c1] cap] & [= <- <-] & Hin). eauto.
  - intros (c & cap & Hin). exists (id, c). split; [done|]. by exists (id, c, cap).
Qed.

Lemma prepared_nil m m' :
  metadata_shards_ m' = metadata_shards_ m → segment_manager_ m' = segment_manager_ m →
  heap (world_ m') = heap (world_ m) → next_id (world_ m') = next_id (world_ m) → prepared [] m m'.
Proof.
  intros H1 H2 H3 H4. split; [done| |done| |constructor| | |done].
  - by rewrite H2.
  - by rewrite H3.
  - intros id. unfold mounted. by rewrite H2.
  - intros id c cap H. by apply elem_of_nil in H.
Qed.

Lemma prepared_trans us vs m1 m2 m3 : prepared us m1 m2 → prepared vs m2 m3 → prepared (us ++ vs) m1 m3.
Proof.
  intros [A1 A2 A3 A4 A5 A6 A7 A8] [B1 B2 B3 B4 B5 B6 B7 B8].
  assert (∀ id, id ∈ unmount_ids vs → id ∉ unmount_ids us) as Hd.
  { intros id (c & cap & Hin)%unmount_ids_elem Hu. destruct (B7 _ _ _ Hin) as (ms & Hm & Hst & _).
    rewrite A6, decide_True in Hm by done. destruct (mounted m1 !! id); by simplify_eq/=. }
  assert (∀ id, id ∈ unmount_ids (us ++ vs) ↔ id ∈ unmount_ids us ∨ id ∈ unmount_ids vs) as Happ.
  { intros id. unfold unmount_ids. by rewrite !fmap_app, elem_of_app. }
  split; [congruence..|by eauto| | | |intros [-> ->]%app_nil; by rewrite B8, A8].
  - unfold unmount_ids. rewrite !fmap_app. apply NoDup_app. split; [done|]. split; [|done]. intros id Hu Hv. by eapply Hd.
  - intros id. rewrite B6, A6. repeat case_decide; naive_solver.
  - intros id c cap [Hin|Hin]%elem_of_app; [by eapply A7|]. destruct (B7 _ _ _ Hin) as (ms & Hm & Hrest).
    rewrite A6, decide_False in Hm; [by exists ms|]. apply Hd. apply unmount_ids_elem. eauto.
Qed.

Lemma prepare_one_ok id client m :
  minv [] m →
  runs (on_segments (PrepareUnmountSegment id 0)) m (λ r m', minv [] m' ∧ ok_client_ m' = ok_client_ m ∧
    prepared (if decide (fst r = EC.OK) then [(id, client, snd r)] else []) m m' ∧
    (fst r = EC.SEGMENT_NOT_FOUND ↔ mounted m !! id = None) ∧
    fst r ∈ [EC.OK; EC.SEGMENT_NOT_FOUND; EC.UNAVAILABLE_IN_CURRENT_STATUS] ∧
    (fst r ≠ EC.OK → m' = m) ∧
    (∀ ms, mounted m' !! id = Some ms → ms_status ms = SS_UNMOUNTING)).
Proof.
  intros HI. apply runs_on_segments.
  eapply runs_mono; [by apply (PrepareUnmountSegment_ok id 0 _ [] (objects m)); apply HI|].
  intros r s' (HS & HW & Hcase). unfold mounted. simpl in Hcase.
  assert (∀ s'', s'' = (segment_manager_ m, world_ m) → set_segment_state s'' m = m) as Hid by (by intros ? ->; destruct m).
  destruct Hcase as [(E & Hn & ->)|[(E & (ms & Hm & Hst) & ->)|(ms & k & -> & [Hm Hk] & ->)]].
  - rewrite (Hid _ E). simpl. split_and!; [done|done|by apply prepared_nil|done|set_solver|done|congruence].
  - rewrite (Hid _ E). simpl. split_and!; [done|done|by apply prepared_nil|split; congruence|set_solver|done|]. intros ms'. congruence.
  - simpl. simpl in Hm. assert (ms_status ms = SS_OK) as Hst.
    { destruct (so_mounted _ (mi_segments _ _ _ HI) id ms Hm) as [_ Hok]. unfold mounted_ok in Hok.
      destruct (ms_status ms); [done|done|congruence]. }
    split_and!; [by apply minv_segments|done| |split; [done|congruence]|left|done|].
    + split; simpl; try done.
      * intros k' a E. by apply map_lookup_filter_Some in E as [? _].
      * apply NoDup_singleton.
      * intros id'. unfold mounted. simpl. case_decide as Hin.
        -- apply list_elem_of_singleton in Hin as ->. cbn [fst]. by rewrite lookup_insert_eq, Hm.
        -- rewrite lookup_insert_ne; [done|]. intros ->. apply Hin. by apply list_elem_of_singleton.
      * intros id' c cap [= -> -> ->]%list_elem_of_singleton. eauto.
    + intros ms'. rewrite lookup_insert_eq. by intros [= <-].
Qed.

Lemma prepare_segments_ok client segments m :
  minv [] m →
  runs (prepare_segments client segments) m (λ us m', minv [] m' ∧ ok_client_ m' = ok_client_ m ∧ prepared us m m' ∧
    (∀ id, id ∈ unmount_ids us → id ∈ seg_id <$> segments) ∧
    ∀ seg ms, seg ∈ segments → mounted m' !! seg_id seg = Some ms → ms_status ms = SS_UNMOUNTING).
Proof.
  revert m. induction segments as [|seg rest IH]; intros m HI; simpl.
  { apply runs_ret. split_and!; [done|done|by apply prepared_nil|done|]. intros seg ms Hs. by apply elem_of_nil in Hs. }
  runs_step. eapply runs_mono; [by apply (prepare_one_ok (seg_id seg) client)|].
  intros [err cap] m1 (HI1 & Hc1 & HP1 & _ & _ & _ & Hst1). runs_step. eapply runs_mono; [by apply IH|].
  intros us m2 (HI2 & Hc2 & HP2 & Hin & Hst2). apply runs_ret. simpl in HP1.
  pose proof (prepared_trans _ _ _ _ _ HP1 HP2) as HP. split; [done|]. split; [congruence|].
  split; [by case_decide|]. split.
  - intros id Hid. rewrite elem_of_cons. case_decide; [|by right; apply Hin].
    unfold unmount_ids in Hid. simpl in Hid. apply elem_of_cons in Hid as [->|Hid]; [by left|]. right. by apply Hin.
  - intros s ms [->|Hs]%elem_of_cons Hm; [|by eapply Hst2]. rewrite (pr_mounted _ _ _ HP2) in Hm.
    case_decide; [|by apply Hst1]. apply fmap_Some in Hm as (ms0 & _ & ->). done.
Qed.

(** Segments a client owns, as the manager lists them. *)
Definition owns m client id : Prop := ∃ ids, client_segments_ (segment_manager_ m) !! client = Some ids ∧ id ∈ ids.

Lemma GetClientSegments_owns client m id :
  minv [] m → owns m client id → is_Some (mounted m !! id) →
  ∃ seg, seg ∈ snd (GetClientSegments client [] (segment_manager_ m)) ∧ seg_id seg = id.
Proof.
  intros HI (ids & E & Hin) [ms Hm]. exists (ms_segment ms). split.
  - unfold GetClientSegments. rewrite E. simpl. apply list_elem_of_omap. exists id. split; [done|].
    unfold mounted in Hm. by rewrite Hm.
  - by destruct (so_mounted _ (mi_segments _ _ _ HI) id ms Hm).
Qed.

Lemma prepare_clients_ok clients m :
  minv [] m →
  runs (prepare_clients clients) m (λ us m', minv [] m' ∧ ok_client_ m' = ok_client_ m ∧ prepared us m m' ∧
    ∀ c id ms, c ∈ clients → owns m c id → mounted m' !! id = Some ms → ms_status ms = SS_UNMOUNTING).
Proof.
  revert m. induction clients as [|c rest IH]; intros m HI; simpl.
  { apply runs_ret. split_and!; [done|done|by apply prepared_nil|]. intros c id ms Hc. by apply elem_of_nil in Hc. }
  do 3 runs_step. eapply runs_mono; [by apply prepare_segments_ok|].
  intros us m1 (HI1 & Hc1 & HP1 & _ & Hst1). runs_step. eapply runs_mono; [by apply IH|].
  intros vs m2 (HI2 & Hc2 & HP2 & Hst2). apply runs_ret. pose proof (prepared_trans _ _ _ _ _ HP1 HP2) as HP.
  split_and!; [done|congruence|done|]. intros c' id ms [->|Hc]%elem_of_cons Ho Hm.
  - rewrite (pr_mounted _ _ _ HP2) in Hm. case_decide as Hin; [by apply fmap_Some in Hm as (? & _ & ->)|].
    rewrite (pr_mounted _ _ _ HP1) in Hm. case_decide as Hin'; [by apply fmap_Some in Hm as (? & _ & ->)|].
    destruct (GetClientSegments_owns c m id HI Ho ltac:(eauto)) as (seg & Hs & <-). apply (Hst1 seg ms Hs).
    by rewrite (pr_mounted _ _ _ HP1), decide_False.
  - apply (Hst2 c' id); [done| |done]. unfold owns. by rewrite (pr_owned _ _ _ HP1).
Qed.

Lemma expire_clients_ok clients m :
  minv [] m →
  runs (expire_clients clients) m (λ _ m', minv [] m' ∧ prepared [] m m' ∧ segment_manager_ m' = segment_manager_ m ∧
    ok_client_ m' = ok_client_ m ∖ list_to_set clients).
Proof.
  revert m. induction clients as [|c rest IH]; intros m HI; simpl.
  { apply runs_ret. split_and!; [done|by apply prepared_nil|done|set_solver]. }
  runs_step. runs_step. runs_step.
  eapply runs_mono with (P := λ _ m1, minv [] m1 ∧ prepared [] m m1 ∧ segment_manager_ m1 = segment_manager_ m ∧
    ok_client_ m1 = ok_client_ m ∖ {[c]}).
  { case_decide as Hc; [|apply runs_ret; split_and!; [done|by apply prepared_nil|done|set_solver]].
    do 2 runs_step. unfold bump. apply runs_on_world. runs_step. split_and!; [|by apply prepared_nil|done|done].
    apply (minv_clients m); [done|]. rewrite size_difference by set_solver. rewrite size_singleton.
    assert (base.size (ok_client_ m) ≠ 0%nat); [|lia]. intros E%size_empty_inv. set_solver. }
  intros _ m1 (HI1 & HP1 & Hs1 & Hok1). eapply runs_mono; [by apply IH|].
  intros _ m2 (HI2 & HP2 & Hs2 & Hok2). split_and!; [done| |congruence|rewrite Hok2, Hok1; set_solver].
  apply (prepared_trans [] [] m m1 m2); done.
Qed.

Lemma monitor_prepare_ok clients m :
  minv [] m →
  runs (monitor_prepare clients) m (λ us m', minv [] m' ∧ prepared us m m' ∧
    ok_client_ m' = ok_client_ m ∖ list_to_set clients ∧
    ∀ c id ms, c ∈ clients → owns m c id → mounted m' !! id = Some ms → ms_status ms = SS_UNMOUNTING).
Proof.
  intros HI. unfold monitor_prepare. runs_step. eapply runs_mono; [by apply expire_clients_ok|].
  intros _ m1 (HI1 & HP1 & Hs1 & Hok1). eapply runs_mono; [by apply prepare_clients_ok|].
  intros us m2 (HI2 & Hok2 & HP2 & Hst). split_and!; [done| |congruence|].
  - apply (prepared_trans [] us m m1 m2); done.
  - intros c id ms Hc Ho. apply (Hst c); [done|]. unfold owns. by rewrite Hs1.
Qed.

(** ** Phase two *)

(** Segments between the two phases, with what the second needs. *)
Record pending m (us : list Unmounting) : Prop := {
  pe_nodup : NoDup (unmount_ids us);
  pe_unmounting id c cap : (id, c, cap) ∈ us →
    ∃ ms, mounted m !! id = Some ms ∧ ms_status ms = SS_UNMOUNTING ∧ cap = seg_size (ms_segment ms);
}.

Record committed (us : list Unmounting) m m' : Prop := {
  cm_shards : metadata_shards_ m' = metadata_shards_ m;
  cm_heap : heap (world_ m') = heap (world_ m);
  cm_next : next_id (world_ m') = next_id (world_ m);
  cm_clients : ok_client_ m' = ok_client_ m;
  cm_mounted id : mounted m' !! id = if decide (id ∈ unmount_ids us) then None else mounted m !! id;
}.

Lemma prepared_pending us m m' : prepared us m m' → pending m' us.
Proof.
  intros HP. split; [apply HP|]. intros id c cap Hin. destruct (pr_units _ _ _ HP _ _ _ Hin) as (ms & Hm & Hst & ->).
  exists (unmounting ms). rewrite (pr_mounted _ _ _ HP), decide_True, Hm; [done|]. apply unmount_ids_elem. eauto.
Qed.

Lemma commit_one_ok id c m ms :
  minv [] m → mounted m !! id = Some ms → ms_status ms = SS_UNMOUNTING →
  runs (on_segments (CommitUnmountSegment id c (seg_size (ms_segment ms)))) m (λ e m', e = EC.OK ∧ minv [] m' ∧
    committed [(id, c, seg_size (ms_segment ms))] m m').
Proof.
  intros HI Hm Hst. apply runs_on_segments. eexists _, _. split; [reflexivity|]. split; [done|]. split.
  - apply minv_segments; [done| | |done].
    + eapply (commit_seg_ok id c ms (segs m)); [apply HI|done|done|reflexivity].
    + apply (world_ok_heap (world_ m)); [apply HI|by left|simpl; lia|]. intros g Hg. simpl. unfold dec.
      rewrite inc_ne; [done|by intros ->].
  - split; try done. intros id'. unfold mounted. simpl. case_decide as Hin.
    + apply list_elem_of_singleton in Hin as ->. apply lookup_delete_eq.
    + rewrite lookup_delete_ne; [done|]. intros ->. apply Hin. by apply list_elem_of_singleton.
Qed.

Lemma committed_pending us vs m m' :
  pending m (us ++ vs) → committed us m m' → pending m' vs.
Proof.
  intros [Hn Hu] HC. unfold unmount_ids in Hn. rewrite !fmap_app in Hn. apply NoDup_app in Hn as (_ & Hd & Hn).
  split; [done|]. intros id c cap Hin. destruct (Hu id c cap) as (ms & ? & ? & ?); [apply elem_of_app; by right|].
  exists ms. rewrite (cm_mounted _ _ _ HC), decide_False; [done|]. intros Hin'. apply (Hd id Hin').
  apply unmount_ids_elem. eauto.
Qed.

Lemma monitor_commit_ok us m :
  minv [] m → pending m us → runs (monitor_commit us) m (λ _ m', minv [] m' ∧ committed us m m').
Proof.
  revert m. induction us as [|[[id c] cap] us IH]; intros m HI HP; simpl; [by apply runs_ret|].
  destruct (pe_unmounting _ _ HP id c cap ltac:(left)) as (ms & Hm & Hst & ->).
  runs_step. eapply runs_mono; [by apply commit_one_ok|]. intros e m1 (-> & HI1 & HC1).
  eapply runs_mono; [apply IH; [done|]; by eapply (committed_pending [_])|]. intros _ m2 (HI2 & [C1 C2 C3 C4 C5]).
  destruct HC1 as [D1 D2 D3 D4 D5]. split; [done|]. split; [congruence..|]. intros id'. rewrite C5, D5.
  unfold unmount_ids. simpl. repeat case_decide; rewrite ?elem_of_cons in *; set_solver.
Qed.

(** ** The handlers *)

Lemma cleared_fresh now m m' k :
  gentle now m m' → find m' k = find m k ≫= clean_entry m → ¬ stale m' k.
Proof.
  intros HG Hf (o & r & Ho & Hr & Hl). rewrite Hf in Ho. apply bind_Some in Ho as (o0 & _ & Ho).
  unfold clean_entry in Ho. case_decide; simplify_eq/=. apply list_elem_of_filter in Hr as [Hr _].
  destruct Hl. by apply (calm_live m m'), Hr; apply HG.
Qed.

(** Stale handles depend on the table and on what is alive. *)
Lemma stale_same m m' k :
  metadata_shards_ m' = metadata_shards_ m → heap (world_ m') = heap (world_ m) → stale m' k ↔ stale m k.
Proof.
  intros Hs Hh. unfold MasterInv.stale, MasterInv.find. rewrite Hs.
  assert (∀ r : Replica B, live_replica (world_ m') r ↔ live_replica (world_ m) r) as Hl.
  { intros r. unfold live_replica, has_invalid_mem_handle, isAllocatorValid, lock. by rewrite Hh. }
  by setoid_rewrite Hl.
Qed.

Lemma calm_mounted m m' : calm m m' → mounted m' = mounted m.
Proof. intros HC. unfold mounted. by rewrite (ca_segments _ _ HC). Qed.

Lemma calm_pending m m' us : calm m m' → pending m us → pending m' us.
Proof. intros HC [H1 H2]. split; [done|]. by rewrite (calm_mounted _ _ HC). Qed.

Lemma UnmountSegment_ok now order id client m :
  (∀ i, order_ok (order i)) → minv [] m →
  runs (UnmountSegment order id client) m (λ r m', minv [] m' ∧
    match r with
    | inr _ => mounted m' !! id = None ∧ (∀ id', id' ≠ id → mounted m' !! id' = mounted m !! id') ∧
        (is_Some (mounted m !! id) → ∀ k, ¬ stale m' k)
    | inl e => e = EC.UNAVAILABLE_IN_CURRENT_STATUS ∧ m' = m ∧ ∃ ms, mounted m !! id = Some ms ∧ ms_status ms = SS_UNMOUNTING
    end).
Proof.
  intros Ho HI. unfold UnmountSegment. runs_step. eapply runs_mono; [by apply (prepare_one_ok id client)|].
  intros [err cap] m1 (HI1 & _ & HP & Hnf & Hcode & Hsame & Hst). cbn [fst snd] in *.
  destruct (decide (err = EC.SEGMENT_NOT_FOUND)) as [He|He].
  { rewrite (Hsame ltac:(congruence)) in *. apply Hnf in He. apply runs_ret. split_and!; [done|done|done|]. intros [? ?]. congruence. }
  case_bool_decide as Hok; simpl; [rewrite decide_True in HP by done|].
  2: { apply runs_ret. rewrite (Hsame Hok) in *. split; [done|]. destruct (mounted m !! id) as [ms|] eqn:E; [|by destruct He; apply Hnf].
       assert (ms_status ms = SS_UNMOUNTING) by (by apply Hst). split; [|by eauto]. set_solver. }
  runs_step. eapply runs_mono; [by apply (ClearInvalidHandles_ok hash now)|]. intros _ m2 (HG2 & Hf2).
  pose proof (calm_pending _ _ _ (ge_calm _ _ _ _ HG2) (prepared_pending _ _ _ HP)) as Hpe.
  destruct (pe_unmounting _ _ Hpe id client cap ltac:(left)) as (ms & Hm & Hs & ->).
  runs_step. eapply runs_mono; [apply commit_one_ok; [apply HG2|done|done]|]. intros e m3 (-> & HI3 & HC).
  simpl. apply runs_ret. split; [done|]. split; [|split].
  - rewrite (cm_mounted _ _ _ HC), decide_True; [done|]. by apply list_elem_of_singleton.
  - intros id' Hid'. assert (id' ∉ [id]) as Hni by (by rewrite list_elem_of_singleton).
    rewrite (cm_mounted _ _ _ HC), decide_False by done. rewrite (calm_mounted _ _ (ge_calm _ _ _ _ HG2)).
    by rewrite (pr_mounted _ _ _ HP), decide_False.
  - intros _ k. rewrite (stale_same m2 m3) by apply HC. by eapply cleared_fresh.
Qed.

(** ** The client monitor *)

Lemma drain_lookup (q : list UUID) (v : Z) (ttl : gmap UUID Z) c :
  foldl (λ ttl id, <[id := v]> ttl) ttl q !! c = if decide (c ∈ q) then Some v else ttl !! c.
Proof.
  revert ttl. induction q as [|d q IH]; intros ttl; simpl; [done|]. rewrite IH. destruct (decide (c ∈ q)) as [H|H].
  - by rewrite decide_True by (by right).
  - destruct (decide (c = d)) as [->|Hne]; [by rewrite lookup_insert_eq, decide_True by left|].
    rewrite lookup_insert_ne by done. rewrite decide_False; [done|]. by rewrite elem_of_cons; intros [|].
Qed.

(** A client that has not been heard of for too long. *)
Definition silent now (ttl : gmap UUID Z) m c : Prop :=
  c ∉ client_ping_queue_ m ∧ ∃ t, ttl !! c = Some t ∧ t < now.

Lemma monitor_expired_spec now ttl m listed c (ttl1 := foldl (λ ttl id, <[id := now + seconds (client_live_ttl_sec cfg)]> ttl) ttl (client_ping_queue_ m)) :
  0 <= client_live_ttl_sec cfg → listed ≡ₚ (map_to_list ttl1).*1 →
  (c ∈ fst (monitor_expired now listed ttl1) ↔ silent now ttl m c) ∧
  (silent now ttl m c → snd (monitor_expired now listed ttl1) !! c = None).
Proof.
  intros Hpos Hl. unfold monitor_expired, silent. simpl.
  assert (ttl1 !! c = if decide (c ∈ client_ping_queue_ m) then Some (now + seconds (client_live_ttl_sec cfg)) else ttl !! c) as Hlk
    by apply drain_lookup. unfold seconds in Hlk. split.
  - rewrite list_elem_of_filter, Hl, list_elem_of_fmap, Hlk. destruct (decide (c ∈ client_ping_queue_ m)) as [Hq|Hq]; simpl.
    { split; [lia|]. by intros [? _]. }
    split.
    + intros [Hlt ([c' t] & -> & Ht%elem_of_map_to_list)]. simpl in *. split; [done|]. rewrite Hlk in Ht.
      exists t. split; [done|]. by rewrite Ht in Hlt.
    + intros [_ (t & Ht & Hlt)]. rewrite Ht. split; [done|]. exists (c, t). split; [done|]. apply elem_of_map_to_list.
      by rewrite Hlk.
  - intros [Hq (t & Ht & Hlt)]. apply map_lookup_filter_None. right. rewrite Hlk, decide_False by done.
    intros t'. rewrite Ht. intros [= <-]. simpl. lia.
Qed.

(** One round, when no other unmount is under way. *)
Lemma ClientMonitorRound_ok now order list_clients ttl m :
  (∀ i, order_ok (order i)) → (∀ l, list_clients l ≡ₚ (map_to_list l).*1) → 0 <= client_live_ttl_sec cfg →
  minv [] m → (∀ id ms, mounted m !! id = Some ms → ms_status ms ≠ SS_UNMOUNTING) →
  runs (ClientMonitorRound cfg now order list_clients ttl) m (λ ttl' m', minv [] m' ∧
    (∀ c, silent now ttl m c → c ∉ ok_client_ m' ∧ ttl' !! c = None ∧
       ∀ id, owns m c id → mounted m' !! id = None ∧ (is_Some (mounted m !! id) → ∀ k, ¬ stale m' k)) ∧
    (∀ c, ¬ silent now ttl m c → c ∈ ok_client_ m → c ∈ ok_client_ m')).
Proof.
  intros Ho Hlc Hpos HI Hidle. unfold ClientMonitorRound. runs_step. unfold monitor_drain.
  eexists _, _. split; [reflexivity|].
  set (ttl1 := foldl _ _ _).
  pose proof (λ c, monitor_expired_spec now ttl m (list_clients ttl1) c Hpos (Hlc ttl1)) as Hexp. fold ttl1 in Hexp.
  destruct (monitor_expired now (list_clients ttl1) ttl1) as [expired ttl'] eqn:Ee. simpl in Hexp.
  apply minv_queue with (q := []) in HI as HI0. set (m0 := set_ping_queue [] m) in *.
  case_bool_decide as Hx.
  { apply runs_ret. split; [done|]. split; [|done]. intros c Hc. apply (proj1 (Hexp c)) in Hc. rewrite Hx in Hc. by apply elem_of_nil in Hc. }
  runs_step. eapply runs_mono; [by apply monitor_prepare_ok|]. intros us m1 (HI1 & HP & Hok & Hst).
  runs_step. eapply runs_mono with (P := λ _ m2, minv [] m2 ∧ ok_client_ m2 = ok_client_ m1 ∧
    (∀ id, mounted m2 !! id = if decide (id ∈ unmount_ids us) then None else mounted m1 !! id) ∧ (us ≠ [] → ∀ k, ¬ stale m2 k)).
  { case_bool_decide as Hu; [apply runs_ret; rewrite Hu; by split_and!|].
    runs_step. eapply runs_mono; [by apply (ClearInvalidHandles_ok hash now)|]. intros _ m2 (HG2 & Hf2).
    eapply runs_mono; [apply (monitor_commit_ok us); [apply HG2|]|].
    { eapply calm_pending; [apply HG2|by eapply prepared_pending]. }
    intros _ m3 (HI3 & HC). split_and!; [done| | |].
    - rewrite (cm_clients _ _ _ HC). apply HG2.
    - intros id. rewrite (cm_mounted _ _ _ HC). by rewrite (calm_mounted _ _ (ge_calm _ _ _ _ HG2)).
    - intros _ k. rewrite (stale_same m2 m3) by apply HC. by eapply cleared_fresh. }
  intros _ m2 (HI2 & Hok2 & Hm2 & Hs2). apply runs_ret. split; [done|]. rewrite Hok2, Hok. split.
  - intros c Hc. pose proof (proj2 (Hexp c) Hc). apply (proj1 (Hexp c)) in Hc. split_and!; [set_solver|done|]. intros id Hid.
    assert (is_Some (mounted m !! id) → id ∈ unmount_ids us) as Hin.
    { intros [ms Hm]. destruct (decide (id ∈ unmount_ids us)) as [|Hn]; [done|]. destruct (Hidle id ms Hm).
      apply (Hst c id); [done|done|]. by rewrite (pr_mounted _ _ _ HP), decide_False. }
    split.
    + rewrite Hm2. case_decide as Hn; [done|]. rewrite (pr_mounted _ _ _ HP), decide_False by done.
      destruct (mounted m0 !! id) eqn:E; [|done]. destruct Hn. apply Hin. by exists m3.
    + intros Hm%Hin. apply Hs2. intros ->. by apply elem_of_nil in Hm.
  - intros c Hc Hin. apply elem_of_difference. split; [done|]. rewrite elem_of_list_to_set. intros Hn. by apply Hc, (proj1 (Hexp c)).
Qed.
(** ** Queries *)

Lemma Ping_ok version room client m :
  minv [] m → runs (Ping version room client) m (λ r m', minv [] m' ∧ grows m m' ∧
    r = if room then inr (mkPingResponse version (if decide (client ∈ ok_client_ m) then CS_OK else CS_NEED_REMOUNT))
        else inl EC.INTERNAL_ERROR).
Proof.
  intros HI. unfold Ping. do 3 runs_step. eapply runs_mono; [by apply ping_push_ok|].
  intros ok m1 (HI1 & HG1 & -> & _ & _). destruct room; runs_steps; done.
Qed.

(** What a query reports is the size and the use of a mounted segment of that name. *)
Lemma QuerySegments_ok name m :
  minv [] m → runs (QuerySegments name) m (λ r m', m' = m ∧
    match r with
    | inl e => e = EC.SEGMENT_NOT_FOUND ∧ ∀ id ms, mounted m !! id = Some ms → seg_name (ms_segment ms) = name → ms_status ms = SS_UNMOUNTING
    | inr (used, capacity) => ∃ id ms i, mounted m !! id = Some ms ∧ ms_status ms = SS_OK ∧ ms_allocator ms = Some i ∧
        seg_name (ms_segment ms) = name ∧ capacity = seg_size (ms_segment ms) ∧
        used = u64 (zsum (ab_size <$> filter (λ b, ab_allocator b = i) (objects m ≫= obj_buffers)))
    end).
Proof.
  intros HI. pose proof (mi_segments _ _ _ HI) as HS. unfold QuerySegments. apply runs_on_segments. unfold runs, ScopedQuerySegments.
  assert (set_segment_state (segment_manager_ m, world_ m) m = m) as Hm by (by destruct m).
  destruct (allocators_by_name_ (segment_manager_ m) !! name) as [l|] eqn:El.
  - destruct l as [|i l]; [by destruct (so_nonempty _ HS name)|]. simpl.
    destruct (proj1 (so_named _ HS name i)) as (id & ms & Hs & Hn).
    { unfold named. simpl. rewrite El. left. }
    destruct (serves_backed _ _ _ _ HS Hs) as (Hst & a & Ha & Hid & _). destruct Hs as [Hm1 Hm2]. simpl in Ha.
    rewrite Ha. simpl. eexists _, _. split; [reflexivity|]. split; [done|].
    exists id, ms, i. unfold ba_ident in Hid. simplify_eq. split_and!; [done..|].
    rewrite (ba_size_ok _ _ (ho_inv _ _ (wo_heap _ _ _ (mi_world _ _ _ HI)) i a Ha)). f_equal. simpl.
    unfold held_total, held_by, zsum. f_equal. rewrite <-list_fmap_compose. done.
  - eexists _, _. split; [reflexivity|]. split; [done|]. split; [done|]. intros id ms Hms Hn.
    destruct (so_mounted _ HS id ms Hms) as [_ Hok]. unfold mounted_ok in Hok. destruct (ms_status ms); [done| |done].
    destruct Hok as (i & Hi & _). exfalso. assert (i ∈ named (segment_manager_ m) name) as Hin.
    { apply (so_named _ HS name i). by exists id, ms. }
    unfold named in Hin. rewrite El in Hin. by apply elem_of_nil in Hin.
Qed.
End segments.
