(* ===== verification/MasterSteps.v ===== *)
(** * MasterSteps: the metadata server under concurrency

    The handlers of MasterService take locks one after the other; between two
    critical sections other handlers run.  A [call] is one critical section, and
    [step] interleaves calls, the phases of unmounts and the client monitor in
    any order.  The state also has the clock and the unmounts under way, each
    with the segments it still has to remove and the shards it still has to
    clean.  The handlers themselves are runs of steps (the lemmas ending in
    [_steps]), so what is shown of [reachable] states holds of every
    interleaving of handlers. *)

From S2P Require Import Prelude Types Float64 BufferAllocator Replica ReplicaHeap AllocationStrategy SegmentManager SegmentInv.
From S2P Require Import MasterService BatchEvict MasterInv MasterOps MasterPut MasterEvict MasterSegments.
Open Scope Z_scope.

Definition discard {S X} (c : ST S X) : ST S unit := c ≫= λ _, mret tt.

Lemma runs_discard {S X} (c : ST S X) (s : S) (P : S → Prop) :
  runs c s (λ _ s', P s') → runs (discard c) s (λ _ s', P s').
Proof. intros H. unfold discard. runs_step. eapply runs_mono; [exact H|]. intros x s' HP. by apply runs_ret. Qed.

Lemma discard_Some {S X} (c : ST S X) s x s' : c s = Some (x, s') → discard c s = Some (tt, s').
Proof. intros E. unfold discard, mbind, st_bind. by rewrite E. Qed.

(** ** The system *)

Record Unmount := mkUnmount { un_segments : list Unmounting; un_todo : list nat }.

Record Sys (A B : Type) := mkSys {
  sys_master : Master A B;
  sys_clock : Z;
  sys_unmounts : list Unmount;
  sys_ttl : gmap UUID Z;
}.
#[global] Arguments mkSys {A B}.
#[global] Arguments sys_master {A B}.
#[global] Arguments sys_clock {A B}.
#[global] Arguments sys_unmounts {A B}.
#[global] Arguments sys_ttl {A B}.

Inductive call (B : Type) :=
| CExistKey (k : string)
| CGetReplicaList (k : string)
| CPutStart (shuffle : nat → nat → list nat → list nat) (k : string) (slices : list Z) (config : ReplicateConfig)
| CPutEnd (k : string) (rt : ReplicaType)
| CPutRevoke (k : string) (rt : ReplicaType)
| CRemove (k : string)
| CRegexShard (search : string → string → bool) (pattern : string) (time : string → Z)
    (order : gmap string (ObjectMetadata B) → list string) (i : nat) (results : list (string * list Descriptor))
| CRemoveRegexShard (search : string → string → bool) (pattern : string) (time : string → Z)
    (order : gmap string (ObjectMetadata B) → list string) (i : nat) (removed : Z)
| CRemoveAllShard (start : Z) (order : gmap string (ObjectMetadata B) → list string) (i : nat) (acc : Z * Z)
| CMountSegment (room : bool) (segment : Segment) (client : UUID)
| CReMountSegment (room : bool) (segments : list Segment) (client : UUID)
| CQuerySegments (segment : string)
| CPing (version : Z) (room : bool) (client : UUID)
| CEvictFirst (start : Z) (order : gmap string (ObjectMetadata B) → list string) (ratio : spec_float) (i : nat) (l : EvictLocals)
| CEvictSecond (start : Z) (order : gmap string (ObjectMetadata B) → list string) (evict : ObjectMetadata B → bool)
    (i : nat) (acc : Z * Z * Z)
| CPublish (evicted total count : Z).
#[global] Arguments CExistKey {B}.
#[global] Arguments CGetReplicaList {B}.
#[global] Arguments CPutStart {B}.
#[global] Arguments CPutEnd {B}.
#[global] Arguments CPutRevoke {B}.
#[global] Arguments CRemove {B}.
#[global] Arguments CMountSegment {B}.
#[global] Arguments CReMountSegment {B}.
#[global] Arguments CQuerySegments {B}.
#[global] Arguments CPing {B}.
#[global] Arguments CPublish {B}.
#[global] Arguments CRegexShard {B}.
#[global] Arguments CRemoveRegexShard {B}.
#[global] Arguments CRemoveAllShard {B}.
#[global] Arguments CEvictFirst {B}.
#[global] Arguments CEvictSecond {B}.

Section system.
Context {A B : Type} {ops : BufferAllocator A B}.
Context (cfg : MasterServiceConfig) (hash : string → Z).

Definition run_call (now : Z) (c : call B) : ST (Master A B) unit :=
  match c with
  | CExistKey k => discard (ExistKey cfg hash now k)
  | CGetReplicaList k => discard (GetReplicaList cfg hash now k)
  | CPutStart shuffle k slices config => discard (PutStart cfg hash shuffle k slices config)
  | CPutEnd k rt => discard (PutEnd cfg hash now k rt)
  | CPutRevoke k rt => discard (PutRevoke hash k rt)
  | CRemove k => discard (Remove hash now k)
  | CRegexShard search pattern time order i res => discard (regex_shard cfg search pattern time order i res)
  | CRemoveRegexShard search pattern time order i n => discard (remove_regex_shard search pattern time order i n)
  | CRemoveAllShard start order i acc => discard (remove_all_shard start order i acc)
  | CMountSegment room segment client => discard (MountSegment room segment client)
  | CReMountSegment room segments client => discard (ReMountSegment room segments client)
  | CQuerySegments segment => discard (QuerySegments segment)
  | CPing version room client => discard (Ping version room client)
  | CEvictFirst start order ratio i l => discard (first_pass_shard cfg order start ratio i l)
  | CEvictSecond start order evict i acc => discard (second_pass_shard order evict i acc)
  | CPublish evicted total count => publish evicted total count
  end.

(** What a caller may rely on or has to respect: iteration orders list every key
    once, a shuffle permutes, requests and segments are within the address space,
    and times were read from the clock before. *)
Definition call_ok (now : Z) (c : call B) : Prop :=
  match c with
  | CPutStart shuffle k slices config => (∀ s i l, shuffle s i l ≡ₚ l) ∧ request_ok slices config
  | CRegexShard search pattern time order i res => order_ok order ∧ (i < kNumShards)%nat
  | CRemoveRegexShard search pattern time order i n => (∀ k, time k <= now) ∧ order_ok order ∧ (i < kNumShards)%nat
  | CRemoveAllShard start order i acc => start <= now ∧ order_ok order ∧ (i < kNumShards)%nat
  | CMountSegment room segment client => region_ok segment
  | CReMountSegment room segments client => Forall region_ok segments
  | CEvictFirst start order ratio i l => start <= now ∧ order_ok order ∧ (i < kNumShards)%nat ∧ locals_ok cfg start l
  | CEvictSecond start order evict i acc => start <= now ∧ order_ok order ∧ (i < kNumShards)%nat ∧ evict_ok cfg start evict
  | CPublish evicted total count => 0 <= evicted
  | _ => True
  end.

Abbreviation Sys := (Sys A B).
Implicit Types (σ : Sys) (m : Master A B).

Definition with_master m σ : Sys := mkSys m (sys_clock σ) (sys_unmounts σ) (sys_ttl σ).
Definition with_unmounts m us σ : Sys := mkSys m (sys_clock σ) us (sys_ttl σ).

(** The monitor has nothing to clean when it prepared no segment. *)
Definition begin_unmount (us : list Unmounting) : list Unmount :=
  if bool_decide (us = []) then [] else [mkUnmount us all_shards].

Inductive step σ : Sys → Prop :=
| step_tick t : sys_clock σ <= t → step σ (mkSys (sys_master σ) t (sys_unmounts σ) (sys_ttl σ))
| step_call c m :
    call_ok (sys_clock σ) c → run_call (sys_clock σ) c (sys_master σ) = Some (tt, m) →
    step σ (with_master m σ)
| step_prepare id client cap m :
    on_segments (PrepareUnmountSegment id 0) (sys_master σ) = Some ((EC.OK, cap), m) →
    step σ (with_unmounts m (sys_unmounts σ ++ [mkUnmount [(id, client, cap)] all_shards]) σ)
| step_drain ttl m :
    monitor_drain cfg (sys_clock σ) (sys_ttl σ) (sys_master σ) = Some (ttl, m) →
    step σ (mkSys m (sys_clock σ) (sys_unmounts σ) ttl)
| step_expire start listed us m :
    start <= sys_clock σ →
    monitor_prepare (fst (monitor_expired start listed (sys_ttl σ))) (sys_master σ) = Some (us, m) →
    step σ (mkSys m (sys_clock σ) (sys_unmounts σ ++ begin_unmount us)
              (snd (monitor_expired start listed (sys_ttl σ))))
| step_clear pre us i todo post order m :
    order_ok order → sys_unmounts σ = pre ++ mkUnmount us (i :: todo) :: post →
    clear_shard order i (sys_master σ) = Some (tt, m) →
    step σ (with_unmounts m (pre ++ mkUnmount us todo :: post) σ)
| step_commit pre id client cap us post m :
    sys_unmounts σ = pre ++ mkUnmount ((id, client, cap) :: us) [] :: post →
    on_segments (CommitUnmountSegment id client cap) (sys_master σ) = Some (EC.OK, m) →
    step σ (with_unmounts m (pre ++ mkUnmount us [] :: post) σ)
| step_end pre post :
    sys_unmounts σ = pre ++ mkUnmount [] [] :: post → step σ (with_unmounts (sys_master σ) (pre ++ post) σ).

(** The server has been started at some time, with the type of allocator it is
    configured for, and any number of steps taken. *)
Inductive reachable : Sys → Prop :=
| reach_init m t : memory_allocator cfg = ba_kind → new_Master cfg = Some m → reachable (mkSys m t [] ∅)
| reach_step σ σ' : reachable σ → step σ σ' → reachable σ'.

Lemma reachable_rtc σ σ' : reachable σ → rtc step σ σ' → reachable σ'.
Proof. intros Hr Hs. induction Hs as [|σ σ1 σ2 H1 H2 IH]; [done|]. apply IH. by eapply reach_step. Qed.
End system.

(** ** What a call does *)

Section invariant.
Context {A B : Type} {ops : BufferAllocator A B} {laws : BufferAllocatorLaws A B}.
Context (cfg : MasterServiceConfig) (hash : string → Z).
Implicit Types (σ : Sys A B) (m : Master A B) (k : string) (t now : Z).

Abbreviation idx := (getShardIndex hash).
Abbreviation find := (find hash).
Abbreviation minv := (minv hash).
Abbreviation gentle := (gentle hash).
Abbreviation stale := (stale hash).
Abbreviation readable := (readable hash).
Abbreviation safe := (safe hash).
Abbreviation step := (step cfg hash).
Abbreviation reachable := (reachable cfg hash).

(** Allocators that are gone do not come back. *)
Record aged m m' : Prop := {
  ag_next : (next_id (world_ m) <= next_id (world_ m'))%positive;
  ag_heap (i : positive) : is_Some (heap (world_ m') !! i) → is_Some (heap (world_ m) !! i) ∨ (next_id (world_ m) <= i)%positive;
}.

#[export] Instance aged_preorder : PreOrder aged.
Proof.
  split; [intros m; split; [lia|by left]|]. intros m1 m2 m3 [H1 H2] [G1 G2]. split; [lia|].
  intros i [Hi|Hi]%G2; [auto|right; lia].
Qed.

Lemma same_heap_aged m m' : same_heap (world_ m) (world_ m') → aged m m'.
Proof. intros HS. pose proof HS as [_ Hn]. split; [lia|]. intros i Hi. left. by apply (same_heap_is_Some (world_ m) (world_ m')). Qed.

(** A call leaves the unmounts under way alone and does not create stale handles. *)
Record mild now m m' : Prop := {
  ml_inv : minv [] m';
  ml_mounted id ms : ms_status ms = SS_UNMOUNTING → mounted m' !! id = Some ms ↔ mounted m !! id = Some ms;
  ml_stale k : stale m' k → stale m k;
  ml_safe t : now <= t → safe t m m';
  ml_aged : aged m m';
}.

Lemma mild_refl now m : minv [] m → mild now m m.
Proof. by split. Qed.

Lemma gentle_mild now now' m m' : now' <= now → gentle now' m m' → mild now m m'.
Proof.
  intros Hle [H1 H2 H3 H4]. split; [done| |done| |].
  - intros id ms _. by rewrite (calm_mounted _ _ H2).
  - intros t Ht. apply H3. lia.
  - apply same_heap_aged, (ca_world _ _ H2).
Qed.

Lemma live_extends (w w' : World A) (r : Replica B) :
  (∀ i a, heap w !! i = Some a → heap w' !! i = Some a) → live_replica w r → live_replica w' r.
Proof.
  intros Hh. unfold live_replica, has_invalid_mem_handle. destruct (data_ r) as [bufs|]; [|done].
  induction bufs as [|b bufs IH]; [done|]. simpl. unfold isAllocatorValid at 1, lock at 1. intros [Hb Hbs]%orb_false_iff.
  apply orb_false_iff. split; [|by apply IH]. apply negb_false_iff, bool_decide_eq_true in Hb as [a Ha].
  apply negb_false_iff. unfold isAllocatorValid, lock. apply bool_decide_eq_true. exists a. by apply Hh.
Qed.

Lemma grows_mild now m m' : minv [] m' → grows m m' → mild now m m'.
Proof.
  intros HI [Hs [E1 E2 E3 E4 E5]]. simpl in *. split; [done| | | |by split].
  - intros id ms Hst. unfold mounted. split; intros H; [by apply E3|by apply E1].
  - intros k (o & r & Hf & Hr & Hl). exists o, r. unfold MasterInv.find in *. rewrite <-Hs. split_and!; [done|done|].
    intros Hl'. by apply Hl, (live_extends (world_ m)).
  - intros t _ k r (o & Hf & Ht & Hr & Hc & Hl). exists o. unfold MasterInv.find in *. rewrite Hs. split_and!; [done..|].
    by apply (live_extends (world_ m)).
Qed.

Lemma published_mild now n m m' : minv [] m → published n m m' → mild now m m'.
Proof.
  intros HI [P1 P2 P3 P4 P5 P6 P7 P8].
  assert (same_heap (world_ m) (world_ m')) as HS by (split; [intros i; by rewrite P5|done]).
  split; [| | | |by apply same_heap_aged].
  - destruct HI as [H1 H2 H3 H4 H5 H6]. unfold objects in *. split; rewrite ?P1, ?P2, ?P3; try done.
    + apply (seg_ok_same _ (world_ m)); [done|by apply P7|done].
    + unfold objects. rewrite P1. apply (world_ok_heap (world_ m)); [done| |lia|].
      * intros i a E. left. by rewrite <-P5.
      * intros g Hg. apply P7. by destruct g.
    + by rewrite P7.
    + unfold objects. by rewrite P1.
  - intros id ms _. unfold mounted. by rewrite P2.
  - intros k. by rewrite (stale_same hash m m').
  - intros t _ k r (o & Hf & Ht & Hr & Hc & Hl). exists o. unfold MasterInv.find in *. rewrite P1. split_and!; [done..|].
    unfold live_replica in *. by rewrite (live_same (world_ m)).
Qed.

Lemma run_call_ok now c m : memory_allocator cfg = ba_kind → minv [] m → call_ok cfg now c → runs (run_call cfg hash now c) m (λ _ m', mild now m m').
Proof.
  intros Hkind HI Hc. assert (∀ start m', start <= now → gentle start m m' → mild now m m') as HGM by (intros; by eapply gentle_mild).
  assert (∀ m', gentle now m m' → mild now m m') as HG by (intros; by eapply HGM).
  destruct c; simpl in *; try apply runs_discard.
  - eapply runs_mono; [by apply ExistKey_ok|]. naive_solver.
  - eapply runs_mono; [by apply GetReplicaList_ok|]. naive_solver.
  - destruct Hc. eapply runs_mono; [by apply (PutStart_ok cfg hash now)|]. naive_solver.
  - eapply runs_mono; [by apply PutEnd_ok|]. naive_solver.
  - eapply runs_mono; [by apply (PutRevoke_ok hash now)|]. naive_solver.
  - eapply runs_mono; [by apply Remove_ok|]. naive_solver.
  - destruct Hc. eapply runs_mono; [by apply (regex_shard_ok cfg hash now)|]. naive_solver.
  - destruct Hc as (? & ? & ?). eapply runs_mono; [by apply (remove_regex_shard_ok hash now)|]. naive_solver.
  - destruct Hc as (? & ? & ?). destruct acc. eapply runs_mono; [by apply (remove_all_shard_ok hash)|]. naive_solver.
  - eapply runs_mono; [by apply (MountSegment_ok hash)|]. intros ? ? (? & ? & _). by apply grows_mild.
  - eapply runs_mono; [by apply (ReMountSegment_ok hash)|]. intros ? ? (? & ? & _). by apply grows_mild.
  - eapply runs_mono; [by apply (QuerySegments_ok hash)|]. intros ? ? (-> & _). by apply mild_refl.
  - eapply runs_mono; [by apply (Ping_ok hash)|]. intros ? ? (? & ? & _). by apply grows_mild.
  - destruct Hc as (? & ? & ? & ?). eapply runs_mono; [by apply (first_pass_shard_ok cfg hash)|]. naive_solver.
  - destruct Hc as (? & ? & ? & ?). eapply runs_mono; [by apply (second_pass_shard_ok cfg hash start)|]. naive_solver.
  - eapply runs_mono; [by apply publish_ok|]. intros ? m1 HP. by apply (published_mild now evicted).
Qed.

(** ** The invariant of the system *)

Definition all_units (us : list Unmount) : list Unmounting := us ≫= un_segments.

Record sinv σ : Prop := {
  si_master : minv [] (sys_master σ);
  si_pending : pending (sys_master σ) (all_units (sys_unmounts σ));
  si_known id ms : mounted (sys_master σ) !! id = Some ms → ms_status ms = SS_UNMOUNTING →
    id ∈ unmount_ids (all_units (sys_unmounts σ));
  si_stale k : stale (sys_master σ) k → ∃ u, u ∈ sys_unmounts σ ∧ idx k ∈ un_todo u;
  si_todo u i : u ∈ sys_unmounts σ → i ∈ un_todo u → (i < kNumShards)%nat;
}.

Lemma pending_perm m us vs : us ≡ₚ vs → pending m us → pending m vs.
Proof.
  intros Hp [H1 H2]. split.
  - unfold unmount_ids in *. by rewrite <-Hp.
  - intros id c cap Hin. apply (H2 id c cap). by rewrite Hp.
Qed.

Lemma mild_sinv now σ m : sinv σ → mild now (sys_master σ) m → sinv (with_master m σ).
Proof.
  intros [S1 [P1 P2] S3 S4 S5] HM. split; simpl; [| | | |done].
  - apply HM.
  - split; [done|]. intros id c cap Hin. destruct (P2 id c cap Hin) as (ms & Hm & Hst & Hcap). exists ms.
    split; [by apply (ml_mounted _ _ _ HM)|done].
  - intros id ms Hm Hst. apply (S3 id ms); [by apply (ml_mounted _ _ _ HM)|done].
  - intros k Hk. by apply S4, (ml_stale _ _ _ HM).
Qed.

Lemma all_units_app us vs : all_units (us ++ vs) = all_units us ++ all_units vs.
Proof. apply bind_app. Qed.

(** Phase one starts an unmount. *)
Lemma prepared_pending_app us vs m m' :
  pending m us → prepared vs m m' → pending m' (us ++ vs).
Proof.
  intros [P1 P2] HP. pose proof (prepared_pending _ _ _ HP) as [V1 V2].
  assert (∀ id, id ∈ unmount_ids us → id ∉ unmount_ids vs) as Hd.
  { intros id (c & cap & Hin)%unmount_ids_elem (c' & cap' & Hin')%unmount_ids_elem.
    destruct (P2 _ _ _ Hin) as (ms & Hm & Hst & _). destruct (pr_units _ _ _ HP _ _ _ Hin') as (ms' & Hm' & Hst' & _).
    congruence. }
  split.
  - unfold unmount_ids. rewrite !fmap_app. apply NoDup_app. split; [done|]. split; [|done]. apply Hd.
  - intros id c cap [Hin|Hin]%elem_of_app; [|by apply (V2 id c)]. destruct (P2 _ _ _ Hin) as (ms & Hm & Hrest).
    exists ms. split; [|done]. rewrite (pr_mounted _ _ _ HP), decide_False; [done|]. apply Hd. apply unmount_ids_elem. eauto.
Qed.

Lemma prepared_sinv σ us m new ttl :
  sinv σ → minv [] m → prepared us (sys_master σ) m →
  (new = [] ∧ us = [] ∨ new = [mkUnmount us all_shards]) →
  sinv (mkSys m (sys_clock σ) (sys_unmounts σ ++ new) ttl).
Proof.
  intros [S1 S2 S3 S4 S5] HI HP Hn. assert (all_units new = us) as Hnew.
  { destruct Hn as [[-> ->]| ->]; [done|]. unfold all_units. simpl. by rewrite app_nil_r. }
  split; simpl; [done| | | |].
  - rewrite all_units_app, Hnew. by eapply prepared_pending_app.
  - intros id ms Hm Hs. rewrite all_units_app, Hnew. unfold unmount_ids. rewrite !fmap_app, elem_of_app.
    rewrite (pr_mounted _ _ _ HP) in Hm. case_decide; [by right|left; by eapply S3].
  - intros k Hk. destruct Hn as [[-> Hus]| ->].
    + rewrite (stale_same hash (sys_master σ) m) in Hk; [|apply HP|by apply HP]. rewrite app_nil_r. by apply S4.
    + exists (mkUnmount us all_shards). split; [|apply all_shards_idx]. apply elem_of_app. right. by apply list_elem_of_singleton.
  - intros u i [Hu|Hu]%elem_of_app Hi; [by eapply S5|]. destruct Hn as [[-> _]| ->]; [by apply elem_of_nil in Hu|].
    apply list_elem_of_singleton in Hu as ->. apply elem_of_seq in Hi. simpl in Hi. lia.
Qed.

Lemma sinv_same σ σ' : sys_master σ' = sys_master σ → sys_unmounts σ' = sys_unmounts σ → sinv σ → sinv σ'.
Proof. intros E1 E2 [S1 S2 S3 S4 S5]. split; rewrite ?E1, ?E2; done. Qed.

(** One shard less to clean. *)
Lemma clear_sinv σ pre us i todo post order m :
  sinv σ → order_ok order → sys_unmounts σ = pre ++ mkUnmount us (i :: todo) :: post →
  clear_shard order i (sys_master σ) = Some (tt, m) →
  mild (sys_clock σ) (sys_master σ) m ∧ sinv (with_unmounts m (pre ++ mkUnmount us todo :: post) σ).
Proof.
  intros HS Ho Eu E. assert (i < kNumShards)%nat as Hi.
  { eapply (si_todo _ HS (mkUnmount us (i :: todo))); [rewrite Eu; set_solver|simpl; left]. }
  pose proof (runs_det _ _ _ _ _ (clear_shard_ok hash (sys_clock σ) order _ i Ho Hi (si_master _ HS)) E) as [HG Hm].
  assert (mild (sys_clock σ) (sys_master σ) m) as HM by (by eapply gentle_mild). split; [done|].
  destruct (mild_sinv _ _ _ HS HM) as [S1 S2 S3 S4 S5]. simpl in *. rewrite Eu in *.
  assert (all_units (pre ++ mkUnmount us todo :: post) = all_units (pre ++ mkUnmount us (i :: todo) :: post)) as Hau
    by (by rewrite !all_units_app).
  split; simpl; rewrite ?Hau; try done.
  - intros k Hk. assert (idx k ≠ i) as Hne.
    { intros <-. destruct (cleared_fresh hash (sys_clock σ) (sys_master σ) m k HG); [|done]. by rewrite (Hm k), decide_True. }
    destruct (S4 k Hk) as (u & Hu & Hin). rewrite elem_of_app, elem_of_cons in Hu. destruct Hu as [Hu|[->|Hu]].
    + exists u. set_solver.
    + exists (mkUnmount us todo). simpl in *. set_solver.
    + exists u. set_solver.
  - intros u j Hu Hj. rewrite elem_of_app, elem_of_cons in Hu. destruct Hu as [Hu|[->|Hu]].
    + apply (S5 u); set_solver.
    + apply (S5 (mkUnmount us (i :: todo))); set_solver.
    + apply (S5 u); set_solver.
Qed.

Lemma commit_sinv σ pre id client cap us post m :
  sinv σ → sys_unmounts σ = pre ++ mkUnmount ((id, client, cap) :: us) [] :: post →
  on_segments (CommitUnmountSegment id client cap) (sys_master σ) = Some (EC.OK, m) →
  committed [(id, client, cap)] (sys_master σ) m ∧ sinv (with_unmounts m (pre ++ mkUnmount us [] :: post) σ).
Proof.
  intros [S1 S2 S3 S4 S5] Eu E. rewrite Eu in *.
  assert (all_units (pre ++ mkUnmount ((id, client, cap) :: us) [] :: post) ≡ₚ
    [(id, client, cap)] ++ all_units (pre ++ mkUnmount us [] :: post)) as Hp.
  { rewrite !all_units_app. unfold all_units. simpl. symmetry. apply Permutation_middle. }
  apply (pending_perm _ _ _ Hp) in S2. destruct (pe_unmounting _ _ S2 id client cap ltac:(left)) as (ms & Hm & Hst & ->).
  pose proof (runs_det _ _ _ _ _ (commit_one_ok hash id client _ _ S1 Hm Hst) E) as (_ & HI & HC).
  split; [done|]. split; simpl; [done| | | |].
  - by eapply committed_pending.
  - intros id' ms' Hm' Hst'. rewrite (cm_mounted _ _ _ HC) in Hm'. case_decide as Hn; [done|].
    pose proof (S3 id' ms' Hm' Hst') as Hin. unfold unmount_ids in *. rewrite Hp, !fmap_app, elem_of_app in Hin. by destruct Hin.
  - intros k. rewrite (stale_same hash (sys_master σ) m) by apply HC. intros (u & Hu & Hin)%S4.
    rewrite elem_of_app, elem_of_cons in Hu. destruct Hu as [Hu|[->|Hu]]; [|by apply elem_of_nil in Hin|]; exists u; (split; [set_solver|done]).
  - intros u j Hu Hj. rewrite elem_of_app, elem_of_cons in Hu.
    destruct Hu as [Hu|[->|Hu]]; [|by apply elem_of_nil in Hj|]; apply (S5 u); set_solver.
Qed.

Lemma end_sinv σ pre post :
  sinv σ → sys_unmounts σ = pre ++ mkUnmount [] [] :: post → sinv (with_unmounts (sys_master σ) (pre ++ post) σ).
Proof.
  intros [S1 S2 S3 S4 S5] Eu. rewrite Eu in *.
  assert (all_units (pre ++ mkUnmount [] [] :: post) = all_units (pre ++ post)) as Hp by (by rewrite !all_units_app).
  rewrite Hp in *. split; simpl; try done.
  - intros k (u & Hu & Hin)%S4. rewrite elem_of_app, elem_of_cons in Hu.
    destruct Hu as [Hu|[->|Hu]]; [|by apply elem_of_nil in Hin|]; exists u; set_solver.
  - intros u j Hu Hj. apply (S5 u); set_solver.
Qed.

(** ** Steps *)

(** A complete replica under a lease beyond [t] stays, unless its memory goes. *)
Definition protects t m m' : Prop :=
  ∀ k r, readable t m k r → live_replica (world_ m') r → readable t m' k r.

Lemma same_table_protects t m m' : metadata_shards_ m' = metadata_shards_ m → protects t m m'.
Proof.
  intros Hs k r (o & Hf & Ht & Hr & Hc & _) Hl. exists o. unfold MasterInv.find in *. by rewrite Hs.
Qed.

Lemma prepared_aged us m m' : prepared us m m' → aged m m'.
Proof.
  intros HP. split; [by rewrite (pr_next _ _ _ HP)|]. intros i [a Ha]. left. exists a. by apply (pr_heap _ _ _ HP).
Qed.

Lemma committed_aged us m m' : committed us m m' → aged m m'.
Proof. intros HC. split; [by rewrite (cm_next _ _ _ HC)|]. intros i. rewrite (cm_heap _ _ _ HC). by left. Qed.

Record advances σ σ' : Prop := {
  ad_inv : sinv σ';
  ad_aged : aged (sys_master σ) (sys_master σ');
  ad_clock : sys_clock σ <= sys_clock σ';
  ad_protects t : sys_clock σ <= t → protects t (sys_master σ) (sys_master σ');
}.

Lemma mild_advances σ m : sinv σ → mild (sys_clock σ) (sys_master σ) m → advances σ (with_master m σ).
Proof.
  intros HS HM. split; [by eapply mild_sinv|apply HM|simpl; lia|]. intros t Ht k r Hr _. by apply (ml_safe _ _ _ HM).
Qed.

Lemma prepared_advances σ us m new ttl :
  sinv σ → minv [] m → prepared us (sys_master σ) m → (new = [] ∧ us = [] ∨ new = [mkUnmount us all_shards]) →
  advances σ (mkSys m (sys_clock σ) (sys_unmounts σ ++ new) ttl).
Proof.
  intros HS HI HP Hn. split; [by eapply prepared_sinv|by eapply prepared_aged|simpl; lia|].
  intros t _. apply same_table_protects, HP.
Qed.

Lemma step_advances σ σ' : memory_allocator cfg = ba_kind → sinv σ → step σ σ' → advances σ σ'.
Proof.
  intros Hkind HS Hstep. pose proof (si_master _ HS) as HI. destruct Hstep as
    [t Ht|c m Hc E|id client cap m E|ttl m E|start listed us m Ht E|pre us i todo post order m Ho Eu E|pre id client cap us post m Eu E|pre post Eu].
  - split; simpl; [by apply (sinv_same σ)|done|done|by intros t' _ k r].
  - apply mild_advances; [done|]. by eapply (runs_det _ _ _ _ _ (run_call_ok _ c _ Hkind HI Hc)).
  - destruct (runs_det _ _ _ _ _ (prepare_one_ok hash id client _ HI) E) as (HI' & _ & HP & _).
    eapply prepared_advances; [done|done|exact HP|by right].
  - unfold monitor_drain in E. simplify_eq.
    assert (mild (sys_clock σ) (sys_master σ) (set_ping_queue [] (sys_master σ))) as HM
      by (apply grows_mild; [by apply minv_queue|apply grows_queue]).
    destruct (mild_advances σ _ HS HM) as [A1 A2 A3 A4]. split; simpl in *; [|done..].
    eapply sinv_same; [..|exact A1]; done.
  - destruct (runs_det _ _ _ _ _ (monitor_prepare_ok hash _ _ HI) E) as (HI' & HP & _).
    apply (prepared_advances σ us); [done|done|done|]. unfold begin_unmount. case_bool_decide; auto.
  - destruct (clear_sinv σ pre us i todo post order m HS Ho Eu E) as [HM HS'].
    destruct (mild_advances σ m HS HM) as [A1 A2 A3 A4]. by split.
  - destruct (commit_sinv σ pre id client cap us post m HS Eu E) as [HC HS'].
    split; [done|by eapply committed_aged|simpl; lia|]. intros t _. apply same_table_protects, HC.
  - split; [by apply end_sinv|done|simpl; lia|]. by intros t _ k r.
Qed.

(** A replica of the table is dead for good once its memory is gone. *)
Lemma aged_live m0 m m' k o r :
  minv [] m0 → find m0 k = Some o → r ∈ replicas o → aged m0 m → aged m m' →
  live_replica (world_ m') r → live_replica (world_ m) r.
Proof.
  intros HI Hf Hr [Hle0 _] [_ Ha]. assert (∀ b, b ∈ replica_buffers r → (ab_allocator b < next_id (world_ m))%positive) as Hid.
  { intros b Hb. eapply Pos.lt_le_trans; [|exact Hle0]. revert b Hb. intros b Hb. apply (ho_bufs _ _ (wo_heap _ _ _ (mi_world _ _ _ HI))). simpl. apply list_elem_of_bind. exists o.
    split; [apply list_elem_of_bind; eauto|]. apply (find_entry hash _ _ _ _ HI) in Hf. apply list_elem_of_fmap. by exists (k, o). }
  unfold live_replica, has_invalid_mem_handle, replica_buffers in *. destruct (data_ r) as [bufs|]; [|done].
  clear Hr. induction bufs as [|b bufs IH]; [done|]. simpl. rewrite !orb_false_iff, !negb_false_iff. intros [Hb Hbs].
  split; [|apply IH; [|done]; intros; apply Hid; by right].
  unfold isAllocatorValid, lock in *. apply bool_decide_eq_true in Hb. apply bool_decide_eq_true.
  destruct (Ha _ Hb) as [|Hle]; [done|]. specialize (Hid b ltac:(left)). lia.
Qed.

(** Along a run the promise holds for leases that last to its end. *)
Lemma steps_protect σ σ' : memory_allocator cfg = ba_kind → sinv σ → rtc step σ σ' →
  sinv σ' ∧ aged (sys_master σ) (sys_master σ') ∧ sys_clock σ <= sys_clock σ' ∧
  ∀ t, sys_clock σ' <= t → protects t (sys_master σ) (sys_master σ').
Proof.
  intros Hkind HS Hr. induction Hr as [σ|σ σ1 σ2 H1 H2 IH].
  { split_and!; [done|done|lia|]. by intros t _ k r. }
  destruct (step_advances _ _ Hkind HS H1) as [A1 A2 A3 A4]. destruct (IH A1) as (B1 & B2 & B3 & B4).
  split; [done|]. split; [by etrans|]. split; [lia|].
  intros t Ht k r Hrd Hl. apply B4; [done| |done]. apply A4; [lia|done|].
  destruct Hrd as (o & Hf & _ & Hin & _ & _). by eapply (aged_live (sys_master σ)); [apply HS|..].
Qed.

(** ** The initial state *)

Lemma new_Master_minv m : new_Master cfg = Some m → minv [] m.
Proof.
  unfold new_Master. case_match; [|done]. intros E. apply (inj Some) in E. subst m.
  assert (entries (replicate kNumShards (∅ : gmap string (ObjectMetadata B))) = []) as He.
  { generalize kNumShards. intros n. induction n as [|n IH]; [done|]. simpl. unfold entries in *. simpl. by rewrite IH, map_to_list_empty. }
  set (w := if use_disk_replica cfg then _ else _).
  assert (heap w = ∅ ∧ next_id w = 1%positive ∧ ∀ g, g ≠ file_total_capacity → metrics w g = 0) as (Hh & Hn & Hg).
  { unfold w. destruct (use_disk_replica cfg); simpl; [|done]. split_and!; [done..|]. intros g Hg. by rewrite inc_ne. }
  split; cbn [metadata_shards_ ok_client_ segment_manager_ world_].
  - apply length_replicate.
  - intros i sh k Hi. apply lookup_replicate in Hi as [-> _]. rewrite lookup_empty. by intros [? ?].
  - apply (seg_ok_same _ (mkWorld ∅ 1 no_metrics)); [|by apply Hg|apply seg_ok_init].
    split; [intros i; by rewrite Hh|done].
  - unfold objects. cbn [metadata_shards_]. rewrite He. split; simpl; [split|by apply Hg..].
    + intros i a. by rewrite Hh, lookup_empty.
    + intros i. rewrite Hh, lookup_empty. by intros [? ?].
    + intros b Hb. by apply elem_of_nil in Hb.
    + by apply Hg.
  - by apply Hg.
  - unfold objects. cbn [metadata_shards_]. rewrite He. constructor.
Qed.

Lemma init_sinv m t : new_Master cfg = Some m → sinv (mkSys m t [] ∅).
Proof.
  intros Hm. pose proof (new_Master_minv m Hm) as HI. unfold new_Master in Hm. case_match; [|done]. apply (inj Some) in Hm. subst m.
  split; cbn [sys_master sys_unmounts]; [done|split; [constructor|]| | |].
  - intros id c cap Hin. by apply elem_of_nil in Hin.
  - intros id ms. unfold mounted. cbn [segment_manager_ mounted_segments_ new_SegmentManager]. by rewrite lookup_empty.
  - intros k (o & r & Hf & _). unfold MasterInv.find in Hf. cbn [metadata_shards_ sys_master] in Hf. apply bind_Some in Hf as (sh & Hi & Hk).
    apply lookup_replicate in Hi as [-> _]. by rewrite lookup_empty in Hk.
  - intros u i Hin. by apply elem_of_nil in Hin.
Qed.

Lemma reachable_kind σ : reachable σ → memory_allocator cfg = ba_kind.
Proof. by induction 1. Qed.

Lemma reachable_sinv σ : reachable σ → sinv σ.
Proof.
  induction 1 as [m t _ Hm|σ σ' Hr IH Hs]; [by apply init_sinv|]. apply (step_advances σ); [by apply (reachable_kind σ)|done..].
Qed.
End invariant.
