(* ===== verification/MasterRuns.v ===== *)
(** * MasterRuns: handlers are runs of steps

    A handler that visits the shards one after the other, or that works in
    phases, is a sequence of steps of MasterSteps when nothing interferes; with
    interference its steps are interleaved with others. *)

From S2P Require Import Prelude Types Float64 BufferAllocator Replica ReplicaHeap AllocationStrategy SegmentManager SegmentInv.
From S2P Require Import MasterService BatchEvict MasterInv MasterOps MasterPut MasterEvict MasterSegments MasterSteps.
Open Scope Z_scope.

(** A bind that succeeds. *)
Lemma bind_run {S X Y} (c : ST S X) (f : X → ST S Y) s y s' :
  (c ≫= f) s = Some (y, s') → ∃ x s1, c s = Some (x, s1) ∧ f x s1 = Some (y, s').
Proof. unfold mbind, st_bind. destruct (c s) as [[x s1]|]; [|done]. eauto. Qed.

Section handlers.
Context {A B : Type} {ops : BufferAllocator A B} {laws : BufferAllocatorLaws A B}.
Context (cfg : MasterServiceConfig) (hash : string → Z) (Hkind : memory_allocator cfg = ba_kind).
Implicit Types (σ : Sys A B) (m : Master A B).

Abbreviation step := (step cfg hash).
Abbreviation sinv := (sinv hash).
Abbreviation run_call := (run_call cfg hash).
Abbreviation call_ok := (call_ok cfg).

Lemma with_master_twice m m' σ : with_master m (with_master m' σ) = with_master m σ.
Proof. done. Qed.

Lemma with_master_id σ : with_master (sys_master σ) σ = σ.
Proof. by destruct σ. Qed.

(** A loop over shards whose sections are calls; [I] is what the accumulator
    carries from one section to the next. *)
Lemma for_shards_steps {X} (section : nat → X → ST (Master A B) X) (mk : nat → X → call B) (I : X → Prop) l acc σ x m' :
  sinv σ → I acc → (∀ i, i ∈ l → (i < kNumShards)%nat) →
  (∀ i acc, (i < kNumShards)%nat → I acc → call_ok (sys_clock σ) (mk i acc)) →
  (∀ i acc, run_call (sys_clock σ) (mk i acc) = discard (section i acc)) →
  (∀ i acc m y m1, (i < kNumShards)%nat → minv hash [] m → I acc → section i acc m = Some (y, m1) → I y) →
  for_shards l section acc (sys_master σ) = Some (x, m') →
  rtc step σ (with_master m' σ) ∧ I x.
Proof.
  intros HS HI Hl Hok Hrun HIs. revert σ acc HS HI Hok Hrun. induction l as [|i l IH]; intros σ acc HS HI Hok Hrun; simpl.
  - intros [= <- <-]. rewrite with_master_id. done.
  - intros (y & m1 & E1 & E2)%bind_run. assert (i < kNumShards)%nat as Hi by (apply Hl; left).
    assert (step σ (with_master m1 σ)) as Hstep.
    { eapply step_call; [by apply (Hok i acc)|]. rewrite Hrun. by eapply discard_Some. }
    pose proof (step_advances cfg hash _ _ Hkind HS Hstep) as HA.
    destruct (IH ltac:(intros; apply Hl; by right) (with_master m1 σ) y) as [Hr Hx]; [apply HA| |done|done|done|].
    + eapply HIs; [done|apply HS|done|done].
    + split; [|done]. eapply rtc_l; [done|]. by rewrite with_master_twice in Hr.
Qed.

Lemma all_shards_lt i : i ∈ all_shards → (i < kNumShards)%nat.
Proof. intros Hi%elem_of_seq. lia. Qed.

Lemma RemoveAll_steps order σ r m :
  sinv σ → (∀ i, order_ok (order i)) → RemoveAll (sys_clock σ) order (sys_master σ) = Some (r, m) →
  rtc step σ (with_master m σ).
Proof.
  intros HS Ho ([n total] & m1 & E1 & [= <- <-])%bind_run.
  eapply (for_shards_steps _ (λ i acc, CRemoveAllShard (sys_clock σ) (order i) i acc) (λ _, True));
    [done|done|apply all_shards_lt| |done|done|exact E1]. intros. simpl. by split_and!.
Qed.

Lemma RemoveByRegex_steps rok search times order pattern σ r m :
  sinv σ → (∀ i, order_ok (order i)) → (∀ i k, times i k <= sys_clock σ) →
  RemoveByRegex rok search times order pattern (sys_master σ) = Some (r, m) → rtc step σ (with_master m σ).
Proof.
  intros HS Ho Ht. unfold RemoveByRegex. destruct (negb _); [intros [= <- <-]; by rewrite with_master_id|].
  intros (n & m1 & E1 & [= <- <-])%bind_run.
  eapply (for_shards_steps _ (λ i acc, CRemoveRegexShard search pattern (times i) (order i) i acc) (λ _, True));
    [done|done|apply all_shards_lt| |done|done|exact E1]. intros. simpl. by split_and!.
Qed.

Lemma GetReplicaListByRegex_steps rok search times order pattern σ r m :
  sinv σ → (∀ i, order_ok (order i)) →
  GetReplicaListByRegex cfg rok search times order pattern (sys_master σ) = Some (r, m) → rtc step σ (with_master m σ).
Proof.
  intros HS Ho. unfold GetReplicaListByRegex. destruct (negb _); [intros [= <- <-]; by rewrite with_master_id|].
  intros (n & m1 & E1 & [= <- <-])%bind_run.
  eapply (for_shards_steps _ (λ i acc, CRegexShard search pattern (times i) (order i) i acc) (λ _, True));
    [done|done|apply all_shards_lt| |done|done|exact E1]. intros. simpl. by split_and!.
Qed.

Lemma steps_sinv σ σ' : sinv σ → rtc step σ σ' → sinv σ'.
Proof. intros HS Hr. by destruct (steps_protect cfg hash _ _ Hkind HS Hr). Qed.

Lemma BatchEvict_steps start order1 order2 target lower σ m :
  sinv σ → (∀ i, order_ok (order1 i)) → (∀ i, order_ok (order2 i)) →
  BatchEvict cfg (sys_clock σ) start order1 order2 target lower (sys_master σ) = Some (tt, m) →
  rtc step σ (with_master m σ).
Proof.
  intros HS Ho1 Ho2. unfold BatchEvict. cbv zeta. set (low := if f64_lt target lower then target else lower).
  intros (l & m1 & E1 & E2)%bind_run.
  eapply (for_shards_steps _ (λ i l, CEvictFirst (sys_clock σ) (order1 i) target i l)
    (λ l, locals_ok cfg (sys_clock σ) l ∧ 0 <= evicted_count l)) in E1 as [Hr1 [HL Hn]];
    [|done|by split; [split; simpl|]|apply shards_from_lt|by intros i acc Hi []; split_and!|done|].
  2: { intros i acc m0 y m2 Hi HI [HL Hn] E.
    destruct (runs_det _ _ _ _ _ (first_pass_shard_ok cfg hash (sys_clock σ) (order1 i) target i acc m0 (Ho1 i) Hi HI HL) E) as (_ & ? & ? & _ & ?).
    split; [done|lia]. }
  pose proof (steps_sinv _ _ HS Hr1) as HS1. set (σ1 := with_master m1 σ) in *.
  set (tn := Z.min _ _) in E2. destruct (second_pass_ok cfg (B := B) (sys_clock σ) tn l HL) as (e & Ee & He); [unfold tn; lia|].
  apply bind_run in E2 as ([[tl n] total] & m2 & E2 & E3). rewrite Ee in E2.
  assert (rtc step σ1 (with_master m2 σ) ∧ 0 <= n) as [Hr2 Hn2].
  { destruct e as [evict|]; [|injection E2 as <- <- <- <-; done].
    eapply (for_shards_steps _ (λ i acc, CEvictSecond (sys_clock σ) (order2 i) evict i acc) (λ acc, 0 <= snd (fst acc)) _ _ σ1) in E2;
      [done|done|done|apply shards_from_lt|by intros; split_and!|done|].
    intros i acc m0 y m3 Hi HI Hacc E.
    destruct (runs_det _ _ _ _ _ (second_pass_shard_ok cfg hash (sys_clock σ) (order2 i) evict i acc m0 (Ho2 i) Hi HI He) E) as (_ & _ & ? & _ & ?).
    lia. }
  etrans; [exact Hr1|]. etrans; [exact Hr2|]. apply rtc_once.
  eapply (step_call cfg hash (with_master m2 σ) (CPublish n total (object_count l)) m); [done|exact E3].
Qed.

Lemma EvictionRound_steps start order1 order2 σ m :
  sinv σ → (∀ i, order_ok (order1 i)) → (∀ i, order_ok (order2 i)) →
  EvictionRound cfg (sys_clock σ) start order1 order2 (sys_master σ) = Some (tt, m) → rtc step σ (with_master m σ).
Proof.
  intros HS Ho1 Ho2. unfold EvictionRound. intros (m0 & m1 & [= <- <-] & E)%bind_run. cbv zeta in E.
  destruct (_ || _); [eapply BatchEvict_steps; [done|exact Ho1|exact Ho2|exact E]|]. injection E as <-. by rewrite with_master_id.
Qed.

(** ** Unmounting *)

Lemma clear_steps order us l pre σ m :
  (∀ i, order_ok (order i)) → sys_unmounts σ = pre ++ [mkUnmount us l] →
  for_shards l (λ i _, clear_shard (order i) i) tt (sys_master σ) = Some (tt, m) →
  rtc step σ (with_unmounts m (pre ++ [mkUnmount us []]) σ).
Proof.
  intros Ho. revert σ. induction l as [|i l IH]; intros σ Eu; simpl.
  - intros [= <-]. rewrite <-Eu. unfold with_unmounts. by destruct σ.
  - intros ([] & m1 & E1 & E2)%bind_run.
    eapply rtc_l; [eapply (step_clear cfg hash σ pre us i l []); [apply Ho|done|exact E1]|].
    by apply (IH (with_unmounts m1 (pre ++ [mkUnmount us l]) σ)).
Qed.

Lemma commit_steps us pre σ m :
  sys_unmounts σ = pre ++ [mkUnmount us []] → monitor_commit us (sys_master σ) = Some (tt, m) →
  rtc step σ (with_unmounts m pre σ).
Proof.
  revert σ. induction us as [|[[id c] cap] us IH]; intros σ Eu; simpl.
  - intros [= <-]. apply rtc_once. rewrite <-(app_nil_r pre) at 1. by apply (step_end cfg hash σ pre []).
  - intros (e & m1 & E1 & E2)%bind_run. assert (e = EC.OK) as ->.
    { unfold on_segments in E1. simpl in E1. by simplify_eq. }
    eapply rtc_l; [by eapply (step_commit cfg hash σ pre id c cap us [])|].
    by apply (IH (with_unmounts m1 (pre ++ [mkUnmount us []]) σ)).
Qed.

Lemma UnmountSegment_steps order id client σ r m :
  sinv σ → (∀ i, order_ok (order i)) → UnmountSegment order id client (sys_master σ) = Some (r, m) →
  rtc step σ (with_master m σ).
Proof.
  intros HS Ho. unfold UnmountSegment. intros ([err cap] & m1 & E1 & E2)%bind_run.
  destruct (runs_det _ _ _ _ _ (prepare_one_ok hash id client _ (si_master _ _ HS)) E1) as (_ & _ & _ & _ & _ & Hsame & _).
  cbn [fst snd] in Hsame. destruct (decide (err = EC.OK)) as [->|Hne].
  - rewrite decide_False, bool_decide_eq_true_2 in E2 by done. cbn [negb] in E2. apply bind_run in E2 as ([] & m2 & E2 & E3). apply bind_run in E3 as (e & m3 & E3 & E4).
    assert (e = EC.OK) as -> by (unfold on_segments in E3; simpl in E3; by simplify_eq). injection E4 as <- <-.
    eapply rtc_l; [by apply (step_prepare cfg hash σ id client cap m1)|]. set (σ1 := with_unmounts _ _ σ).
    etrans; [apply (clear_steps order [(id, client, cap)] all_shards (sys_unmounts σ) σ1 m2); [done|done|exact E2]|].
    apply (commit_steps [(id, client, cap)] (sys_unmounts σ) (with_unmounts m2 _ σ1)); [done|]. simpl.
    unfold mbind, st_bind. by rewrite E3.
  - rewrite (Hsame Hne) in *. assert (m = sys_master σ) as ->; [|by rewrite with_master_id].
    destruct (decide _) in E2; [by injection E2 as <- <-|]. rewrite bool_decide_eq_false_2 in E2 by done. by injection E2 as <- <-.
Qed.

Lemma ClientMonitorRound_steps order list_clients σ ttl m :
  sinv σ → (∀ i, order_ok (order i)) →
  ClientMonitorRound cfg (sys_clock σ) order list_clients (sys_ttl σ) (sys_master σ) = Some (ttl, m) →
  rtc step σ (mkSys m (sys_clock σ) (sys_unmounts σ) ttl).
Proof.
  intros HS Ho. unfold ClientMonitorRound. intros (ttl1 & m1 & E1 & E2)%bind_run.
  eapply rtc_l; [by eapply step_drain|]. set (σ1 := mkSys m1 _ _ ttl1).
  pose proof (step_advances cfg hash _ σ1 Hkind HS ltac:(by eapply step_drain)) as [HS1 _ _ _].
  assert (∀ us m2, monitor_prepare (fst (monitor_expired (sys_clock σ) (list_clients ttl1) ttl1)) m1 = Some (us, m2) →
    step σ1 (mkSys m2 (sys_clock σ) (sys_unmounts σ ++ begin_unmount us) (snd (monitor_expired (sys_clock σ) (list_clients ttl1) ttl1)))) as Hexp.
  { intros us m2 E. eapply (step_expire cfg hash σ1 (sys_clock σ) (list_clients ttl1)); [simpl; lia|exact E]. }
  destruct (monitor_expired (sys_clock σ) (list_clients ttl1) ttl1) as [expired ttl2] eqn:Ee. simpl in Hexp.
  case_bool_decide as Hx.
  { injection E2 as <- <-. apply rtc_once. rewrite <-(app_nil_r (sys_unmounts σ)) at 1. subst expired.
    apply (Hexp [] m1). done. }
  apply bind_run in E2 as (us & m2 & E2 & E3). apply bind_run in E3 as ([] & m3 & E3 & [= <- <-]).
  eapply rtc_l; [by apply (Hexp us m2)|]. unfold begin_unmount. case_bool_decide as Hu.
  { injection E3 as <-. by rewrite app_nil_r. }
  apply bind_run in E3 as ([] & m4 & E3 & E4). set (σ2 := mkSys m2 _ _ _).
  etrans; [by apply (clear_steps order us all_shards (sys_unmounts σ) σ2 m4)|].
  apply (commit_steps us (sys_unmounts σ) (with_unmounts m4 (sys_unmounts σ ++ [mkUnmount us []]) σ2)); done.
Qed.
End handlers.
