(* ===== verification/MasterCorrect.v ===== *)
(** * MasterCorrect: the guarantees of the metadata server

    Theorems about every reachable state of MasterSteps, that is, under every
    interleaving of the handlers, the eviction thread and the client monitor;
    and about the results of the handlers in such a state. *)

From S2P Require Import Prelude Types Float64 OffsetAllocator OffsetHandles BufferAllocator Replica ReplicaHeap AllocationStrategy SegmentManager SegmentInv.
From S2P Require Import MasterService BatchEvict MasterInv MasterOps MasterPut MasterEvict MasterSegments MasterSteps MasterRuns.
Open Scope Z_scope.

(** ** A small server to evaluate the theorems on *)

Module Demo.
Open Scope string_scope.
Definition cfg : MasterServiceConfig :=
  mkMasterServiceConfig 5000 1800000 true f64_half f64_one 10 "cluster" EmptyString 0 OFFSET.
Definition hash (s : string) : Z := Z.of_nat (String.length s).
Definition segment : Segment := mkSegment (1, 1) "seg" 16777216 65536 "host:1".
Definition client : UUID := (7, 7).
Definition key : string := "key".
Definition config : ReplicateConfig := mkReplicateConfig 1 false EmptyString false.
Definition shuffle (_ _ : nat) (l : list nat) : list nat := l.
Definition order {X} (sh : gmap string X) : list string := (map_to_list sh).*1.

Abbreviation A := OffsetBufferAllocator.
Abbreviation B := grant.

Definition start : Sys A B :=
  mkSys (default (mkMaster [] ∅ [] false (new_SegmentManager OFFSET) (mkWorld ∅ 1 no_metrics)) (new_Master cfg)) 100 [] ∅.

(** The state after a call. *)
Definition exec (c : call B) (σ : Sys A B) : Sys A B :=
  match run_call cfg hash (sys_clock σ) c (sys_master σ) with Some (_, m) => with_master m σ | None => σ end.

Definition mounted : Sys A B := exec (CMountSegment true segment client) start.
Definition started : Sys A B := exec (CPutStart shuffle key [4096; 100] config) mounted.
Definition written : Sys A B := exec (CPutEnd key MEMORY) started.
Definition leased : Sys A B := exec (CGetReplicaList key) written.

Lemma reachable_start : reachable cfg hash start.
Proof. by apply reach_init. Qed.

Lemma reachable_exec c σ : reachable cfg hash σ → call_ok cfg (sys_clock σ) c → reachable cfg hash (exec c σ).
Proof.
  intros Hr Hc. unfold exec. destruct (run_call _ _ _ _ _) as [[[] m]|] eqn:E; [|done].
  eapply reach_step; [exact Hr|]. by eapply step_call.
Qed.

Lemma segment_ok : region_ok segment.
Proof. repeat split; vm_compute; congruence. Qed.

Lemma request_demo : request_ok [4096; 100] config.
Proof. split; [repeat constructor; lia|vm_compute; congruence|done]. Qed.

Lemma reachable_mounted : reachable cfg hash mounted.
Proof. apply reachable_exec; [apply reachable_start|apply segment_ok]. Qed.

Lemma reachable_started : reachable cfg hash started.
Proof. apply reachable_exec; [apply reachable_mounted|]. split; [done|apply request_demo]. Qed.

Lemma reachable_written : reachable cfg hash written.
Proof. by apply reachable_exec; [apply reachable_started|]. Qed.

Lemma reachable_leased : reachable cfg hash leased.
Proof. by apply reachable_exec; [apply reachable_written|]. Qed.

(** The first phase of an unmount of the segment. *)
Definition unmounting : Sys A B :=
  match on_segments (B := B) (PrepareUnmountSegment (A := A) (seg_id segment) 0) (sys_master leased) with
  | Some ((e, cap), m) =>
      if decide (e = EC.OK)
      then with_unmounts m (sys_unmounts leased ++ [mkUnmount [(seg_id segment, client, cap)] all_shards]) leased else leased
  | None => leased
  end.

Lemma reachable_unmounting : reachable cfg hash unmounting.
Proof.
  unfold unmounting. destruct (on_segments _ _) as [[[e cap] m]|] eqn:E; [|exact reachable_leased].
  case_decide as He; [subst e|exact reachable_leased].
  eapply reach_step; [apply reachable_leased|]. by eapply step_prepare.
Qed.

Lemma exec_steps c σ : call_ok cfg (sys_clock σ) c → rtc (step cfg hash) σ (exec c σ).
Proof.
  intros Hc. unfold exec. destruct (run_call _ _ _ _ _) as [[[] m]|] eqn:E; [|done]. apply rtc_once. by eapply step_call.
Qed.

(** Parts of a state, to name them in statements. *)
Definition object (σ : Sys A B) (k : string) : ObjectMetadata B :=
  default (mkObjectMetadata [] 0 0 None 0) (find hash (sys_master σ) k).
Definition replica (σ : Sys A B) (k : string) : Replica B :=
  default (mkReplica (DiskReplicaData EmptyString 0) FAILED) (head (replicas (object σ k))).
Definition buffers (σ : Sys A B) : list (AllocatedBuffer B) := objects (sys_master σ) ≫= obj_buffers.
Definition buffer (σ : Sys A B) (i : nat) : AllocatedBuffer B :=
  default (mkBuffer 1 0 0 (mkOffsetAllocation 0 0, 0, 0)) (buffers σ !! i).

Lemma order_demo : order_ok (order (X := ObjectMetadata B)).
Proof. by intros sh. Qed.
End Demo.

Section correct.
Context {A B : Type} {ops : BufferAllocator A B} {laws : BufferAllocatorLaws A B}.
Context (cfg : MasterServiceConfig) (hash : string → Z).
Implicit Types (σ : Sys A B) (m : Master A B) (k : string).

Abbreviation reachable := (reachable cfg hash).
Abbreviation find := (find hash).

Lemma runs_Some {S X} (c : ST S X) s Q : runs c s Q → is_Some (c s).
Proof. intros (x & s' & -> & _). eauto. Qed.

(** All the buffers the table holds. *)
Definition all_buffers m : list (AllocatedBuffer B) := objects m ≫= obj_buffers.

Lemma buffer_segment m i a :
  minv hash [] m → heap (world_ m) !! i = Some a →
  ∃ id ms, mounted m !! id = Some ms ∧ ms_status ms = SS_OK ∧ ms_allocator ms = Some i ∧
    ba_base a = seg_base (ms_segment ms) ∧ ba_capacity a = seg_size (ms_segment ms).
Proof.
  intros HI Ha. pose proof (mi_segments _ _ _ HI) as HS.
  destruct (proj1 (so_all _ HS i) (so_heap _ HS i ltac:(eauto))) as (id & ms & Hs).
  destruct (serves_backed _ _ _ _ HS Hs) as (Hst & a' & Ha' & Hid & Hb). simpl in Ha'. simplify_eq.
  destruct Hs. exists id, ms. unfold ba_ident in Hid. by simplify_eq.
Qed.
Lemma two_perm {X} (l : list X) i j x y :
  l !! i = Some x → l !! j = Some y → i ≠ j → ∃ rest, l ≡ₚ x :: y :: rest.
Proof.
  intros Hi Hj Hij. pose proof (delete_Permutation l i x Hi) as Hp.
  assert (∃ j', delete i l !! j' = Some y) as [j' Hj'].
  { destruct (decide (j < i)%nat); [exists j; by rewrite list_lookup_delete_lt|].
    exists (j - 1)%nat. rewrite list_lookup_delete_ge by lia. by replace (S (j - 1)) with j by lia. }
  exists (delete j' (delete i l)). etrans; [exact Hp|]. f_equiv. by apply delete_Permutation.
Qed.

Lemma held_disjoint m i j b b' a :
  minv hash [] m → all_buffers m !! i = Some b → all_buffers m !! j = Some b' → i ≠ j →
  heap (world_ m) !! ab_allocator b = Some a → ab_allocator b' = ab_allocator b →
  ab_ptr b + ab_size b <= ab_ptr b' ∨ ab_ptr b' + ab_size b' <= ab_ptr b.
Proof.
  intros HI Hi Hj Hij Ha E. destruct (two_perm _ _ _ _ _ Hi Hj Hij) as [rest Hp].
  pose proof (ho_inv _ _ (wo_heap _ _ _ (mi_world _ _ _ HI)) _ a Ha) as Hinv. simpl in Hinv. unfold held_by in Hinv.
  fold (all_buffers m) in Hinv. rewrite Hp, !filter_cons, decide_True, decide_True in Hinv by done.
  apply (ba_disjoint a _ 0 1 (as_held b) (as_held b') Hinv); done.
Qed.

Lemma held_inside m b a :
  minv hash [] m → b ∈ all_buffers m → heap (world_ m) !! ab_allocator b = Some a →
  ba_base a <= ab_ptr b ∧ ab_ptr b + ab_size b <= ba_base a + ba_capacity a.
Proof.
  intros HI Hb Ha. apply (ba_inside a _ (as_held b) (ho_inv _ _ (wo_heap _ _ _ (mi_world _ _ _ HI)) _ a Ha)).
  apply list_elem_of_fmap_2, list_elem_of_filter. done.
Qed.

(** C2: No critical section of the server ever faults: whatever handlers,
    evictions, unmounts and client expiries have been interleaved, no call
    dereferences a dead allocator or an absent entry, indexes outside a vector or
    frees a buffer its allocator does not know, and every call returns. *)
Theorem master_memory_safe σ :
  reachable σ →
  (∀ c, call_ok cfg (sys_clock σ) c → is_Some (run_call cfg hash (sys_clock σ) c (sys_master σ))) ∧
  (∀ id, is_Some (on_segments (PrepareUnmountSegment id 0) (sys_master σ))) ∧
  (∀ clients, is_Some (monitor_prepare clients (sys_master σ))) ∧
  (∀ order, (∀ i, order_ok (order i)) → is_Some (ClearInvalidHandles order (sys_master σ))).
Proof.
  intros HR. pose proof (reachable_kind cfg hash _ HR) as Hkind. pose proof (reachable_sinv cfg hash _ HR) as HS.
  pose proof (si_master _ _ HS) as HI. split_and!.
  - intros c Hc. by eapply runs_Some, run_call_ok.
  - intros id. by eapply runs_Some, (prepare_one_ok hash id (0, 0)).
  - intros clients. by eapply runs_Some, (monitor_prepare_ok hash).
  - intros order Ho. by eapply runs_Some, (ClearInvalidHandles_ok hash (sys_clock σ)).
Qed.

(** C7: Every buffer of the table whose memory is still mounted lies inside a
    mounted segment, and two buffers on the same segment never overlap: no
    interleaving of writes, removals, evictions and unmounts hands out the same
    memory twice. *)
Theorem master_buffers_disjoint σ i b :
  reachable σ → all_buffers (sys_master σ) !! i = Some b → isAllocatorValid (world_ (sys_master σ)) b = true →
  (∃ id ms, mounted (sys_master σ) !! id = Some ms ∧ ms_status ms = SS_OK ∧ ms_allocator ms = Some (ab_allocator b) ∧
     seg_base (ms_segment ms) <= ab_ptr b ∧ ab_ptr b + ab_size b <= seg_base (ms_segment ms) + seg_size (ms_segment ms)) ∧
  ∀ j b', all_buffers (sys_master σ) !! j = Some b' → i ≠ j → ab_allocator b' = ab_allocator b →
    ab_ptr b + ab_size b <= ab_ptr b' ∨ ab_ptr b' + ab_size b' <= ab_ptr b.
Proof.
  intros HS%(reachable_sinv cfg hash) Hb Hv. pose proof (si_master _ _ HS) as HI.
  unfold isAllocatorValid, lock in Hv. apply bool_decide_eq_true in Hv as [a Ha]. split.
  - destruct (buffer_segment _ _ a HI Ha) as (id & ms & Hm & Hst & Hal & Eb & Ec).
    destruct (held_inside (sys_master σ) b a HI ltac:(by eapply list_elem_of_lookup_2) Ha). exists id, ms. rewrite <-Eb, <-Ec. done.
  - intros j b' Hb' Hij E. by apply (held_disjoint (sys_master σ) i j b b' a).
Qed.

(** C14: The gauges are exact in every reachable state: keys, soft-pinned keys,
    bytes on disk and bytes of memory handed out are those of the table, the
    capacity is the sum of the mounted segments, and the active clients are
    the clients the server regards as alive. *)
Theorem master_metrics_exact σ (w := world_ (sys_master σ)) (os := objects (sys_master σ)) :
  reachable σ →
  metrics w key_count = Z.of_nat (length os) ∧
  metrics w soft_pin_key_count = Z.of_nat (length (filter pins os)) ∧
  metrics w file_allocated_size = zsum (disk_replica_size <$> os) ∧
  metrics w mem_allocated_size = zsum (ab_size <$> all_buffers (sys_master σ)) ∧
  metrics w mem_total_capacity = zsum ((λ e, seg_size (ms_segment e.2)) <$> map_to_list (mounted (sys_master σ))) ∧
  metrics w active_clients = Z.of_nat (base.size (ok_client_ (sys_master σ))).
Proof.
  intros HS%(reachable_sinv cfg hash). destruct (si_master _ _ HS) as [_ _ H3 [H4 H5 H6 H7] H8 _].
  split_and!; [done..|apply (ho_total _ _ H4)|apply (so_capacity _ H3)|done].
Qed.

(** C8: Leases protect readers.  A replica that is complete, on mounted memory
    and under a lease that lasts beyond the time [t] is still listed, complete,
    under that lease and on mounted memory after any steps that take the clock no
    further than [t]: only unmounting the segment itself can take it away. *)
Theorem lease_protects_reader σ σ' t k r :
  reachable σ → rtc (step cfg hash) σ σ' → sys_clock σ' <= t →
  readable hash t (sys_master σ) k r → live_replica (world_ (sys_master σ')) r →
  readable hash t (sys_master σ') k r.
Proof.
  intros HR Hr Ht Hrd Hl.
  destruct (steps_protect cfg hash _ _ (reachable_kind cfg hash _ HR) (reachable_sinv cfg hash _ HR) Hr) as (_ & _ & _ & Hp). by apply (Hp t Ht k r).
Qed.

(** C13: When no unmount is under way, no object of the table refers to memory
    that is gone, and every mounted segment is available; while one is, stale
    handles occur only in shards it has still to clean. *)
Theorem no_stale_handles_when_idle σ k o r :
  reachable σ → find (sys_master σ) k = Some o → r ∈ replicas o → has_invalid_mem_handle (world_ (sys_master σ)) r = true →
  ∃ u, u ∈ sys_unmounts σ ∧ getShardIndex hash k ∈ un_todo u.
Proof.
  intros HS%(reachable_sinv cfg hash) Hf Hr Hl. apply (si_stale _ _ HS). exists o, r.
  split_and!; [done..|]. unfold live_replica. congruence.
Qed.


(** ** Results of the handlers *)

Lemma cleaned_live m o : Forall (live_replica (world_ m)) (replicas o) → cleaned m o = o.
Proof.
  intros HF. unfold cleaned. assert (filter (live_replica (world_ m)) (replicas o) = replicas o) as ->; [|by destruct o].
  induction HF as [|r rs Hr HF IH]; [done|]. rewrite filter_cons, decide_True by done. by rewrite IH.
Qed.

Definition is_memory (d : Descriptor) : bool :=
  match descriptor_variant d with MemoryDescriptor _ => true | DiskDescriptor _ _ => false end.
Definition completed (d : Descriptor) : Descriptor := mkDescriptor (descriptor_variant d) COMPLETE.

(** A write of a key followed by a read. *)
Definition put_then_get shuffle k slices config (now1 now2 : Z)
    : ST (Master A B) (option (list Descriptor * (expected GetReplicaListResponse))) :=
  r ← PutStart cfg hash shuffle k slices config;
  match r with
  | inl _ => mret None
  | inr ds => PutEnd cfg hash now1 k MEMORY;; g ← GetReplicaList cfg hash now2 k; mret (Some (ds, g))
  end.

Lemma mark_live (w : World A) rt (o : ObjectMetadata B) :
  Forall (live_replica w) (replicas o) → Forall (live_replica w) (replicas (mark_type rt o)).
Proof.
  intros HF. simpl. rewrite Forall_fmap. eapply Forall_impl; [exact HF|]. intros r Hr. simpl. case_decide; [|done].
  unfold live_replica, has_invalid_mem_handle, mark_complete in *. by destruct (status_ r).
Qed.

(** What a reader sees of a write set after the memory replicas have been marked. *)
Lemma written_replicas (mem : list (Replica B)) :
  Forall (λ r, type r = MEMORY ∧ status_ r = PROCESSING) mem →
  filter (λ r, status_ r = COMPLETE) ((λ r, if decide (type r = MEMORY) then mark_complete r else r) <$> mem) = mark_complete <$> mem.
Proof.
  induction 1 as [|r rs [Ht Hs] HF IH]; [done|]. rewrite !fmap_cons, filter_cons, decide_True, IH; [by rewrite decide_True|].
  rewrite decide_True by done. unfold mark_complete. by rewrite Hs.
Qed.

Lemma memory_descriptors (w : World A) (mem : list (Replica B)) :
  Forall (λ r, type r = MEMORY ∧ status_ r = PROCESSING) mem →
  filter is_memory (get_descriptor w <$> mem) = get_descriptor w <$> mem.
Proof.
  induction 1 as [|r rs [Ht Hs] HF IH]; [done|]. rewrite fmap_cons, filter_cons, decide_True, IH; [done|].
  unfold is_memory, type, get_descriptor in *. by destruct (data_ r).
Qed.

Lemma completed_descriptor (w w' : World A) (r : Replica B) :
  same_heap w w' → status_ r = PROCESSING → get_descriptor w' (mark_complete r) = completed (get_descriptor w r).
Proof.
  intros HS Hs. rewrite <-(get_descriptor_same w w' r HS). unfold mark_complete. by rewrite Hs.
Qed.

Lemma complete_write_set (w w' : World A) k slices config o :
  same_heap w w' → write_set cfg hash w k slices config (replicas o) →
  complete_descriptors w' (mark_type MEMORY o) = completed <$> filter is_memory (get_descriptor w <$> replicas o) ∧
  complete_descriptors w' (mark_type MEMORY o) ≠ [].
Proof.
  intros HS (mem & E & Hlen & HF & _). unfold complete_descriptors. simpl. rewrite E, !fmap_app, !filter_app, !fmap_app.
  assert (filter (λ r, status_ r = COMPLETE) ((λ r, if decide (type r = MEMORY) then mark_complete r else r) <$> disk_replicas cfg hash k slices) = [] ∧
    filter is_memory (get_descriptor w <$> disk_replicas cfg hash (B := B) k slices) = []) as [-> ->].
  { unfold disk_replicas. by destruct (use_disk_replica cfg). }
  rewrite !app_nil_r, written_replicas, memory_descriptors by done. rewrite <-!list_fmap_compose. split.
  - apply list_fmap_ext. intros i r Hr. simpl. apply completed_descriptor; [done|]. rewrite Forall_forall in HF.
    by apply HF; eapply list_elem_of_lookup_2.
  - intros ->%fmap_nil_inv. simpl in Hlen. lia.
Qed.

Lemma write_set_nonempty w k slices config reps : write_set cfg hash w k slices config reps → reps ≠ [].
Proof. intros (mem & -> & Hlen & _) [-> _]%app_nil. simpl in Hlen. lia. Qed.

(** C9: Writing and reading back: in any reachable state, a write of a key that
    is not in the table that [PutStart] accepts and [PutEnd] completes can be read
    by [GetReplicaList], which returns exactly the memory descriptors handed to
    the writer, now complete. *)
Theorem put_get_roundtrip σ shuffle k slices config now1 now2 :
  reachable σ → (∀ s i l, shuffle s i l ≡ₚ l) → request_ok slices config → find (sys_master σ) k = None →
  runs (put_then_get shuffle k slices config now1 now2) (sys_master σ) (λ x _,
    match x with
    | None => True
    | Some (ds, g) => ∃ resp, g = inr resp ∧ r_replicas resp = completed <$> filter is_memory ds ∧ r_replicas resp ≠ []
    end).
Proof.
  intros Hreach Hsh HR Hk. pose proof (reachable_kind cfg hash _ Hreach) as Hkind.
  pose proof (reachable_sinv cfg hash _ Hreach) as HS. pose proof (si_master _ _ HS) as HI. unfold put_then_get.
  runs_step. eapply runs_mono; [by apply (PutStart_ok cfg hash now1)|]. intros [e|ds] m1 (HG1 & _ & Hcase); [by apply runs_ret|].
  destruct Hcase as [[? _]|Hput]; [done|]. unfold put_entry in Hput. rewrite Hk in Hput.
  destruct Hput as (o & Hf & Hws & -> & _). pose proof (write_set_nonempty _ _ _ _ _ Hws) as Hne.
  pose proof (write_set_live cfg hash _ (world_ m1) _ _ _ _ (reflexivity _) Hws) as Hlive.
  runs_step. eapply runs_mono; [apply (PutEnd_ok cfg hash now1 m1 k MEMORY), HG1|]. intros r m2 (HG2 & _ & Hr).
  destruct r as [e|[]].
  { destruct Hr as (_ & _ & Hc). specialize (Hc o Hf). by rewrite cleaned_live in Hc. }
  destruct Hr as (o' & Hf' & _ & Hf2). simplify_eq. rewrite cleaned_live in Hf2 by done.
  pose proof (ca_world _ _ (ge_calm _ _ _ _ HG2)) as [HS2 _].
  destruct (complete_write_set _ (world_ m2) _ _ _ _ HS2 Hws) as [Hd Hdne].
  set (o2 := GrantLease now1 0 _ (mark_type MEMORY o)) in *.
  assert (cleaned m2 o2 = o2) as Hcl.
  { apply cleaned_live. apply (mark_live _ MEMORY o). eapply Forall_impl; [exact Hlive|]. intros r Hr.
    by apply (calm_live m1 m2); [apply HG2|]. }
  change (complete_descriptors (world_ m2) o2 ≠ []) in Hdne.
  runs_step. eapply runs_mono; [apply (GetReplicaList_ok cfg hash now2 m2 k), HG2|]. intros g m3 (_ & _ & Hg). apply runs_ret.
  destruct g as [e|resp].
  - exfalso. apply Hdne. destruct Hg as [[_ Hn]|[_ (o3 & Hf3 & _ & Hn)]].
    + specialize (Hn o2 Hf2). rewrite Hcl in Hn. unfold complete_descriptors. by rewrite Hn.
    + simplify_eq. rewrite Hcl in Hn. unfold complete_descriptors. by rewrite Hn.
  - destruct Hg as (o3 & Hf3 & Hr & Hrne & _). simplify_eq. exists resp. rewrite Hcl in Hr. split_and!; [done| |done].
    by rewrite Hr, <-Hd.
Qed.
End correct.

Lemma master_memory_safe_witness :
  is_Some (run_call Demo.cfg Demo.hash (sys_clock Demo.leased) (CRemove Demo.key) (sys_master Demo.leased)).
Proof. exact (proj1 (master_memory_safe Demo.cfg Demo.hash Demo.leased Demo.reachable_leased) (CRemove Demo.key) I). Defined.

Lemma master_buffers_disjoint_witness :
  (ab_size (Demo.buffer Demo.leased 0), ab_size (Demo.buffer Demo.leased 1)) = (4096, 100) ∧
  (ab_ptr (Demo.buffer Demo.leased 0) + 4096 <= ab_ptr (Demo.buffer Demo.leased 1) ∨
   ab_ptr (Demo.buffer Demo.leased 1) + 100 <= ab_ptr (Demo.buffer Demo.leased 0)).
Proof.
  split; [by vm_compute|].
  refine (proj2 (master_buffers_disjoint Demo.cfg Demo.hash Demo.leased 0 (Demo.buffer Demo.leased 0) Demo.reachable_leased _ _)
    1%nat (Demo.buffer Demo.leased 1) _ _ _); [by vm_compute|by vm_compute|by vm_compute|done|by vm_compute].
Defined.

Lemma master_metrics_exact_witness :
  metrics (world_ (sys_master Demo.leased)) mem_allocated_size = 4196 ∧
  zsum (ab_size <$> all_buffers (sys_master Demo.leased)) = 4196.
Proof.
  assert (zsum (ab_size <$> all_buffers (sys_master Demo.leased)) = 4196) as E by (by vm_compute). split; [|exact E].
  pose proof (master_metrics_exact Demo.cfg Demo.hash Demo.leased Demo.reachable_leased) as (_ & _ & _ & Hm & _).
  exact (eq_trans Hm E).
Defined.

Lemma lease_protects_reader_witness :
  readable Demo.hash 1000 (sys_master (Demo.exec (CRemove Demo.key) Demo.leased)) Demo.key (Demo.replica Demo.leased Demo.key).
Proof.
  apply (lease_protects_reader Demo.cfg Demo.hash Demo.leased); [apply Demo.reachable_leased|by apply Demo.exec_steps|by vm_compute| |by vm_compute].
  exists (Demo.object Demo.leased Demo.key). split; [by vm_compute|]. split; [by vm_compute|].
  split; [|split; by vm_compute]. apply list_elem_of_lookup. exists 0%nat. by vm_compute.
Defined.

Lemma no_stale_handles_when_idle_witness :
  ∃ u, u ∈ sys_unmounts Demo.unmounting ∧ getShardIndex Demo.hash Demo.key ∈ un_todo u.
Proof.
  apply (no_stale_handles_when_idle Demo.cfg Demo.hash Demo.unmounting Demo.key (Demo.object Demo.unmounting Demo.key)
    (Demo.replica Demo.unmounting Demo.key)); [apply Demo.reachable_unmounting|by vm_compute| |by vm_compute].
  apply list_elem_of_lookup. exists 0%nat. by vm_compute.
Defined.

Lemma put_get_roundtrip_witness :
  runs (put_then_get Demo.cfg Demo.hash Demo.shuffle Demo.key [4096; 100] Demo.config 200 300) (sys_master Demo.mounted) (λ x _,
    match x with
    | None => True
    | Some (ds, g) => ∃ resp, g = inr resp ∧ r_replicas resp = completed <$> filter is_memory ds ∧ r_replicas resp ≠ []
    end) ∧
  (length ∘ fst <$> (put_then_get Demo.cfg Demo.hash Demo.shuffle Demo.key [4096; 100] Demo.config 200 300 (sys_master Demo.mounted) ≫= fst)) = Some 1%nat.
Proof.
  split; [|by vm_compute].
  apply (put_get_roundtrip Demo.cfg Demo.hash Demo.mounted); [apply Demo.reachable_mounted|done|apply Demo.request_demo|by vm_compute].
Defined.
