(* ===== verification/MasterResults.v ===== *)
(** * MasterResults: what the handlers answer

    The outcome of each handler in a reachable state, error codes included, and
    that the handlers built from several critical sections are runs of the steps
    the guarantees of MasterCorrect are about. *)

From S2P Require Import Prelude Types Float64 OffsetHandles BufferAllocator Replica ReplicaHeap AllocationStrategy SegmentManager SegmentInv.
From S2P Require Import MasterService BatchEvict MasterInv MasterOps MasterPut MasterEvict MasterSegments MasterSteps MasterRuns MasterCorrect.
Open Scope string_scope.
Open Scope Z_scope.

Section results.
Context {A B : Type} {ops : BufferAllocator A B} {laws : BufferAllocatorLaws A B}.
Context (cfg : MasterServiceConfig) (hash : string → Z).
Implicit Types (σ : Sys A B) (m : Master A B) (k : string).

Abbreviation reachable := (reachable cfg hash).
Abbreviation find := (find hash).
Abbreviation stale := (stale hash).

Lemma reachable_minv σ : reachable σ → minv hash [] (sys_master σ).
Proof. intros Hr. by apply si_master, (reachable_sinv cfg). Qed.

(** C24: A successful [PutStart] on a new key enters an unleased object whose
    replicas cover the request: between one and [replica_num] memory copies, each
    made of one buffer per slice, of the slice's size and on mounted memory, the
    copies of a slice on segments of different names, then the disk copy if one
    is configured; the caller gets their descriptors.  A failure leaves the key
    absent, and an object with live replicas is reported as existing. *)
Theorem put_start_outcome σ shuffle k slices config :
  reachable σ → (∀ s i l, shuffle s i l ≡ₚ l) → request_ok slices config →
  runs (PutStart cfg hash shuffle k slices config) (sys_master σ) (λ r m',
    r = inl EC.INVALID_PARAMS ∧ m' = sys_master σ ∨ put_entry cfg hash (sys_master σ) k slices config r m').
Proof.
  intros Hr Hsh HR. pose proof (reachable_kind cfg hash _ Hr) as Hkind. pose proof (reachable_minv _ Hr) as HI.
  eapply runs_mono; [by apply (PutStart_ok cfg hash (sys_clock σ))|]. by intros r m' (_ & _ & ?).
Qed.

(** C40: A key whose replicas have all lost their memory, but which no cleaning
    pass has reached yet, cannot be written: [PutStart] hands out descriptors of
    buffers it has already given back, the entry stays without replicas, and
    ending the write fails with [OBJECT_NOT_FOUND]. *)
Theorem put_start_on_stale_key_loses_write σ shuffle k slices config o :
  reachable σ → (∀ s i l, shuffle s i l ≡ₚ l) → request_ok slices config →
  find (sys_master σ) k = Some o → forallb (has_invalid_mem_handle (world_ (sys_master σ))) (replicas o) = true →
  runs (PutStart cfg hash shuffle k slices config) (sys_master σ) (λ r m',
    match r with
    | inr _ => find m' k = Some (set_replicas [] o) ∧
        ∀ now rt, runs (PutEnd cfg hash now k rt) m' (λ r' _, r' = inl EC.OBJECT_NOT_FOUND)
    | inl _ => True
    end).
Proof.
  intros Hreach Hsh HR Hf Hst. pose proof (reachable_kind cfg hash _ Hreach) as Hkind.
  pose proof (reachable_minv _ Hreach) as HI.
  assert (cleaned (sys_master σ) o = set_replicas [] o) as Hcl.
  { unfold cleaned. f_equal. apply filter_none. intros r Hr Hl. rewrite forallb_forall in Hst.
    specialize (Hst r (proj1 (list_elem_of_In _ _) Hr)). unfold live_replica in Hl. congruence. }
  eapply runs_mono; [by apply (PutStart_ok cfg hash 0)|]. intros r m' (HG & _ & Hcase). destruct r as [e|ds]; [done|].
  destruct Hcase as [[? _]|Hput]; [done|]. unfold put_entry in Hput. rewrite Hf, Hcl in Hput.
  destruct Hput as [(? & _)|(_ & Hf' & _)]; [done|]. split; [done|]. intros now rt.
  eapply runs_mono; [apply (PutEnd_ok cfg hash now m' k rt), HG|]. intros [e|[]] m2 (_ & _ & Hr).
  - by destruct Hr as [-> _].
  - destruct Hr as (o' & E & Hne & _). rewrite Hf' in E. by simplify_eq.
Qed.

(** [ExistKey] answers whether a complete replica is on mounted memory, and a
    positive answer comes with a lease. *)
Theorem exist_key_exact σ now k :
  reachable σ →
  runs (ExistKey cfg hash now k) (sys_master σ) (λ r m',
    (r = inr true ↔ ∃ o r', find (sys_master σ) k = Some o ∧ r' ∈ replicas o ∧ status_ r' = COMPLETE ∧
       has_invalid_mem_handle (world_ (sys_master σ)) r' = false) ∧
    (r = inr true → ∀ o, find m' k = Some o → now + milliseconds (default_kv_lease_ttl cfg) <= lease_timeout o)).
Proof. intros HI%reachable_minv. eapply runs_mono; [by apply ExistKey_ok|]. by intros r m' (_ & _ & ? & ?). Qed.

(** [Remove] deletes an object only when its lease has expired and its live
    replicas are complete; otherwise the answer names the reason and the entry
    stays. *)
Theorem remove_outcome σ now k :
  reachable σ →
  runs (Remove hash now k) (sys_master σ) (λ r m',
    match r with
    | inr _ => find m' k = None ∧ ∃ o, find (sys_master σ) k = Some o ∧ lease_timeout o <= now ∧
        Forall (λ r, status_ r = COMPLETE) (replicas (cleaned (sys_master σ) o))
    | inl e => (e = EC.OBJECT_NOT_FOUND ∧ find m' k = None) ∨
        (e = EC.OBJECT_HAS_LEASE ∧ ∃ o, find m' k = Some o ∧ now < lease_timeout o) ∨
        (e = EC.REPLICA_IS_NOT_READY ∧ ∃ o r', find m' k = Some o ∧ r' ∈ replicas o ∧ status_ r' ≠ COMPLETE)
    end).
Proof. intros HI%reachable_minv. eapply runs_mono; [by apply Remove_ok|]. by intros r m' (_ & _ & ?). Qed.

(** [PutRevoke] takes back the replicas of one type only while all of them are
    being written; the entry goes with the last replica. *)
Theorem put_revoke_outcome σ k rt :
  reachable σ →
  runs (PutRevoke hash k rt) (sys_master σ) (λ r m',
    match r with
    | inr _ => ∃ o, find (sys_master σ) k = Some o ∧ replicas (cleaned (sys_master σ) o) ≠ [] ∧
        find m' k = (if decide (replicas (without rt (cleaned (sys_master σ) o)) = []) then None
                     else Some (without rt (cleaned (sys_master σ) o)))
    | inl e => (e = EC.OBJECT_NOT_FOUND ∧ find m' k = None) ∨
        (e = EC.INVALID_WRITE ∧ ∃ o r', find (sys_master σ) k = Some o ∧ find m' k = Some (cleaned (sys_master σ) o) ∧
           r' ∈ replicas (cleaned (sys_master σ) o) ∧ type r' = rt ∧ status_ r' ≠ PROCESSING)
    end).
Proof. intros HI%reachable_minv. eapply runs_mono; [by apply (PutRevoke_ok hash 0)|]. by intros r m' (_ & _ & ?). Qed.

(** [RemoveAll] removes exactly the objects whose lease has expired. *)
Theorem remove_all_exact σ now order k :
  reachable σ → (∀ i, order_ok (order i)) →
  runs (RemoveAll now order) (sys_master σ) (λ _ m',
    find m' k = match find (sys_master σ) k with
                | Some o => if lease_timeout o <=? now then None else Some o
                | None => None
                end).
Proof.
  intros HI%reachable_minv Ho. eapply runs_mono; [by apply (RemoveAll_ok hash)|]. intros r m' (_ & Hf). rewrite Hf.
  by destruct (find (sys_master σ) k).
Qed.

(** C15: Eviction takes the memory replicas of a set of objects, and of no others:
    each had an expired lease, only complete memory replicas, and no soft pin
    unless soft-pinned objects may be evicted; its disk replicas stay, and
    [evicted_key_count] grows by the number of objects. *)
Theorem batch_evict_exact σ now start order1 order2 target lower :
  reachable σ → (∀ i, order_ok (order1 i)) → (∀ i, order_ok (order2 i)) →
  runs (BatchEvict cfg now start order1 order2 target lower) (sys_master σ) (λ _ m', ∃ E : list string,
    NoDup E ∧
    (∀ k, k ∈ E → ∃ o, find (sys_master σ) k = Some o ∧ lease_timeout o <= now ∧
       (IsSoftPinned now o = true → allow_evict_soft_pinned_objects cfg = true) ∧
       (∀ r, r ∈ replicas o → type r = MEMORY → status_ r = COMPLETE) ∧ HasMemReplica o = true ∧
       find m' k = let rs := filter (λ r, type r ≠ MEMORY) (replicas o) in if decide (rs = []) then None else Some (set_replicas rs o)) ∧
    (∀ k, k ∉ E → find m' k = find (sys_master σ) k) ∧
    metrics (world_ m') evicted_key_count = metrics (world_ (sys_master σ)) evicted_key_count + Z.of_nat (length E)).
Proof.
  intros HI%reachable_minv Ho1 Ho2. eapply runs_mono; [by apply (BatchEvict_ok cfg hash)|].
  intros _ m' (m1 & E & HG & [N In Out] & HP). exists E.
  assert (∀ k, find m' k = find m1 k) as Hfind by (intros k; unfold MasterInv.find; by rewrite (pu_shards _ _ _ HP)).
  split; [done|]. split; [|split].
  - intros k Hk. destruct (In k Hk) as (o & Hf & [] & Hf'). exists o. rewrite Hfind, Hf'. by split_and!.
  - intros k Hk. rewrite Hfind. by apply Out.
  - rewrite (pu_evicted _ _ _ HP). f_equal. by apply (ca_world _ _ (ge_calm _ _ _ _ HG)).
Qed.

(** C28: An unmount that succeeds removes the segment, leaves the others alone, and
    leaves no handle to its memory in the table; it fails only while the segment
    is already being unmounted. *)
Theorem unmount_segment_outcome σ order id client :
  reachable σ → (∀ i, order_ok (order i)) →
  runs (UnmountSegment order id client) (sys_master σ) (λ r m',
    match r with
    | inr _ => mounted m' !! id = None ∧ (∀ id', id' ≠ id → mounted m' !! id' = mounted (sys_master σ) !! id') ∧
        (is_Some (mounted (sys_master σ) !! id) → ∀ k, ¬ stale m' k)
    | inl e => e = EC.UNAVAILABLE_IN_CURRENT_STATUS ∧ m' = sys_master σ ∧
        ∃ ms, mounted (sys_master σ) !! id = Some ms ∧ ms_status ms = SS_UNMOUNTING
    end).
Proof. intros HI%reachable_minv Ho. eapply runs_mono; [by apply (UnmountSegment_ok hash 0)|]. by intros r m' (_ & ?). Qed.


(** [QuerySegments] never indexes an empty vector, and reports the size of a
    mounted segment of that name and the bytes the table holds on it. *)
Theorem query_segments_exact σ name :
  reachable σ →
  runs (QuerySegments name) (sys_master σ) (λ r m', m' = sys_master σ ∧
    match r with
    | inl e => e = EC.SEGMENT_NOT_FOUND ∧
        ∀ id ms, mounted m' !! id = Some ms → seg_name (ms_segment ms) = name → ms_status ms = SS_UNMOUNTING
    | inr (used, capacity) => ∃ id ms i, mounted m' !! id = Some ms ∧ ms_status ms = SS_OK ∧ ms_allocator ms = Some i ∧
        seg_name (ms_segment ms) = name ∧ capacity = seg_size (ms_segment ms) ∧
        used = u64 (zsum (ab_size <$> filter (λ b, ab_allocator b = i) (all_buffers m')))
    end).
Proof. intros HI%reachable_minv. eapply runs_mono; [by apply (QuerySegments_ok hash)|]. by intros r m' [-> ?]. Qed.

(** C20: The handlers that visit shard after shard or work in phases are runs of
    atomic steps, so the guarantees about reachable states cover them and
    whatever runs between their critical sections. *)
Theorem handlers_are_steps σ (order : nat → gmap string (ObjectMetadata B) → list string) :
  reachable σ → (∀ i, order_ok (order i)) → let now := sys_clock σ in let m := sys_master σ in
  (∀ id client r m', UnmountSegment order id client m = Some (r, m') → rtc (step cfg hash) σ (with_master m' σ)) ∧
  (∀ r m', RemoveAll now order m = Some (r, m') → rtc (step cfg hash) σ (with_master m' σ)) ∧
  (∀ rok search times pattern r m', (∀ i k, times i k <= now) →
     RemoveByRegex rok search times order pattern m = Some (r, m') → rtc (step cfg hash) σ (with_master m' σ)) ∧
  (∀ rok search times pattern r m',
     GetReplicaListByRegex cfg rok search times order pattern m = Some (r, m') → rtc (step cfg hash) σ (with_master m' σ)) ∧
  (∀ start m', EvictionRound cfg now start order order m = Some (tt, m') → rtc (step cfg hash) σ (with_master m' σ)) ∧
  (∀ list_clients ttl m', ClientMonitorRound cfg now order list_clients (sys_ttl σ) m = Some (ttl, m') →
     rtc (step cfg hash) σ (mkSys m' now (sys_unmounts σ) ttl)).
Proof.
  intros Hr Ho. pose proof (reachable_kind cfg hash _ Hr) as Hkind.
  pose proof (reachable_sinv cfg hash _ Hr) as HS. cbv zeta. split_and!; intros.
  - by eapply UnmountSegment_steps.
  - by eapply RemoveAll_steps.
  - by eapply RemoveByRegex_steps.
  - by eapply GetReplicaListByRegex_steps.
  - by eapply EvictionRound_steps.
  - by eapply ClientMonitorRound_steps.
Qed.
End results.

(** ** The theorems on the small server *)

Lemma put_start_outcome_witness :
  runs (PutStart Demo.cfg Demo.hash Demo.shuffle Demo.key [4096; 100] Demo.config) (sys_master Demo.mounted) (λ r m',
    r = inl EC.INVALID_PARAMS ∧ m' = sys_master Demo.mounted ∨
    put_entry Demo.cfg Demo.hash (sys_master Demo.mounted) Demo.key [4096; 100] Demo.config r m').
Proof.
  apply (put_start_outcome Demo.cfg Demo.hash Demo.mounted); [apply Demo.reachable_mounted|done|apply Demo.request_demo].
Defined.

(** A second segment is mounted while the first is being unmounted. *)
Definition spare : Segment := mkSegment (2, 2) "spare" 33554432 65536 "host:2".
Definition replaced : Sys Demo.A Demo.B := Demo.exec (CMountSegment true spare Demo.client) Demo.unmounting.

Lemma reachable_replaced : reachable Demo.cfg Demo.hash replaced.
Proof. apply Demo.reachable_exec; [apply Demo.reachable_unmounting|]. repeat split; vm_compute; congruence. Qed.

Lemma put_start_on_stale_key_loses_write_witness :
  (∃ ds, fst <$> PutStart Demo.cfg Demo.hash Demo.shuffle Demo.key [4096; 100] Demo.config (sys_master replaced) = Some (inr [ds])) ∧
  runs (PutStart Demo.cfg Demo.hash Demo.shuffle Demo.key [4096; 100] Demo.config) (sys_master replaced) (λ r m',
    match r with
    | inr _ => find Demo.hash m' Demo.key = Some (set_replicas [] (Demo.object replaced Demo.key)) ∧
        ∀ now rt, runs (PutEnd Demo.cfg Demo.hash now Demo.key rt) m' (λ r' _, r' = inl EC.OBJECT_NOT_FOUND)
    | inl _ => True
    end).
Proof.
  split; [eexists; vm_compute; reflexivity|].
  apply (put_start_on_stale_key_loses_write Demo.cfg Demo.hash replaced); [apply reachable_replaced|done|apply Demo.request_demo|by vm_compute|by vm_compute].
Defined.

Lemma exist_key_exact_witness :
  is_Some (ExistKey Demo.cfg Demo.hash 200 Demo.key (sys_master Demo.written)) ∧
  fst <$> ExistKey Demo.cfg Demo.hash 200 Demo.key (sys_master Demo.written) = Some (inr true).
Proof. split; [exact (runs_Some _ _ _ (exist_key_exact Demo.cfg Demo.hash Demo.written 200 Demo.key Demo.reachable_written))|by vm_compute]. Defined.

Lemma remove_outcome_witness :
  is_Some (Remove Demo.hash 200 Demo.key (sys_master Demo.leased)) ∧
  fst <$> Remove Demo.hash 200 Demo.key (sys_master Demo.leased) = Some (inl EC.OBJECT_HAS_LEASE) ∧
  fst <$> Remove Demo.hash 200 Demo.key (sys_master Demo.written) = Some (inr tt).
Proof.
  split; [exact (runs_Some _ _ _ (remove_outcome Demo.cfg Demo.hash Demo.leased 200 Demo.key Demo.reachable_leased))|].
  split; by vm_compute.
Defined.

Lemma put_revoke_outcome_witness :
  is_Some (PutRevoke Demo.hash Demo.key MEMORY (sys_master Demo.started)) ∧
  fst <$> PutRevoke Demo.hash Demo.key MEMORY (sys_master Demo.started) = Some (inr tt) ∧
  fst <$> PutRevoke Demo.hash Demo.key MEMORY (sys_master Demo.written) = Some (inl EC.INVALID_WRITE).
Proof.
  split; [exact (runs_Some _ _ _ (put_revoke_outcome Demo.cfg Demo.hash Demo.started Demo.key MEMORY Demo.reachable_started))|].
  split; by vm_compute.
Defined.

Lemma remove_all_exact_witness :
  is_Some (RemoveAll 200 (λ _, Demo.order) (sys_master Demo.written)) ∧
  fst <$> RemoveAll 200 (λ _, Demo.order) (sys_master Demo.written) = Some 1 ∧
  fst <$> RemoveAll 200 (λ _, Demo.order) (sys_master Demo.leased) = Some 0.
Proof.
  split; [exact (runs_Some _ _ _ (remove_all_exact Demo.cfg Demo.hash Demo.written 200 (λ _, Demo.order) Demo.key Demo.reachable_written (λ _, Demo.order_demo)))|].
  split; by vm_compute.
Defined.

Lemma batch_evict_exact_witness :
  is_Some (BatchEvict Demo.cfg 200 0 (λ _, Demo.order) (λ _, Demo.order) f64_half f64_half (sys_master Demo.written)) ∧
  (λ r, metrics (world_ (snd r)) evicted_key_count) <$>
    BatchEvict Demo.cfg 200 0 (λ _, Demo.order) (λ _, Demo.order) f64_half f64_half (sys_master Demo.written) = Some 1.
Proof.
  split; [|by vm_compute].
  exact (runs_Some _ _ _ (batch_evict_exact Demo.cfg Demo.hash Demo.written 200 0 (λ _, Demo.order) (λ _, Demo.order) f64_half f64_half
    Demo.reachable_written (λ _, Demo.order_demo) (λ _, Demo.order_demo))).
Defined.

Lemma unmount_segment_outcome_witness :
  is_Some (UnmountSegment (λ _, Demo.order) (seg_id Demo.segment) Demo.client (sys_master Demo.leased)) ∧
  fst <$> UnmountSegment (λ _, Demo.order) (seg_id Demo.segment) Demo.client (sys_master Demo.leased) = Some (inr tt) ∧
  fst <$> UnmountSegment (λ _, Demo.order) (seg_id Demo.segment) Demo.client (sys_master Demo.unmounting)
    = Some (inl EC.UNAVAILABLE_IN_CURRENT_STATUS).
Proof.
  split; [|split; by vm_compute].
  exact (runs_Some _ _ _ (unmount_segment_outcome Demo.cfg Demo.hash Demo.leased (λ _, Demo.order) (seg_id Demo.segment) Demo.client
    Demo.reachable_leased (λ _, Demo.order_demo))).
Defined.





Lemma query_segments_exact_witness :
  is_Some (QuerySegments "seg" (sys_master Demo.leased)) ∧
  fst <$> QuerySegments "seg" (sys_master Demo.leased) = Some (inr (4196, 65536)).
Proof. split; [exact (runs_Some _ _ _ (query_segments_exact Demo.cfg Demo.hash Demo.leased "seg" Demo.reachable_leased))|by vm_compute]. Defined.

Lemma handlers_are_steps_witness :
  ∃ r m', UnmountSegment (λ _, Demo.order) (seg_id Demo.segment) Demo.client (sys_master Demo.leased) = Some (r, m') ∧
    rtc (step Demo.cfg Demo.hash) Demo.leased (with_master m' Demo.leased).
Proof.
  destruct (UnmountSegment (λ _, Demo.order) (seg_id Demo.segment) Demo.client (sys_master Demo.leased)) as [[r m']|] eqn:E.
  - exists r, m'. split; [reflexivity|].
    exact (proj1 (handlers_are_steps Demo.cfg Demo.hash Demo.leased (λ _, Demo.order) Demo.reachable_leased (λ _, Demo.order_demo)) _ _ r m' E).
  - exfalso. assert (is_Some (UnmountSegment (λ _, Demo.order) (seg_id Demo.segment) Demo.client (sys_master Demo.leased))) as [x Hx].
    { eapply runs_Some, (UnmountSegment_ok Demo.hash 0); [intros; apply Demo.order_demo|]. apply (reachable_minv Demo.cfg), Demo.reachable_leased. }
    rewrite E in Hx. discriminate Hx.
Defined.
