(* ===== verification/PosixFiles.v ===== *)
(** * PosixFiles: the file layer of the store

    [PosixFile] of posix_file.cpp (include/file_interface.h) with the system calls and
    the parts of [std::filesystem] it and the storage backends use.  The operating
    system is a map from paths to file contents, a set of directories and the memory of
    the process.  Whether a call fails and how many bytes it transfers is decided by an
    environment, an arbitrary function of the number of calls made so far. *)

From S2P Require Import Prelude Types StorePath.
From Stdlib Require Import Ascii.
Open Scope Z_scope.

(** ** Signed integers *)

Definition i64 (z : Z) : Z := (z + 2 ^ 63) mod 2 ^ 64 - 2 ^ 63.
Definition i32 (z : Z) : Z := (z + 2 ^ 31) mod 2 ^ 32 - 2 ^ 31.

Lemma i64_small z : - 2 ^ 63 <= z < 2 ^ 63 → i64 z = z.
Proof. intros H. unfold i64. rewrite Z.mod_small; lia. Qed.

Lemma i32_small z : - 2 ^ 31 <= z < 2 ^ 31 → i32 z = z.
Proof. intros H. unfold i32. rewrite Z.mod_small; lia. Qed.

Lemma take_min {A} n (l : list A) : take (n `min` length l) l = take n l.
Proof. destruct (decide (n <= length l)%nat); [by rewrite Nat.min_l|by rewrite Nat.min_r, !take_ge by lia]. Qed.

(** ** Results

    The code returns [tl::expected<T, ErrorCode>] everywhere: a computation ends with an
    error or a value, and its state in both cases.  A missing result is a loop that goes
    on for longer than the environment's patience, an access outside an array, or an
    exception that is not caught. *)

Definition Res (S A : Type) : Type := S → option ((ErrorCode + A) * S).

#[export] Instance res_ret S : MRet (Res S) := λ A x s, Some (inr x, s).
#[export] Instance res_bind S : MBind (Res S) := λ A B k m s,
  match m s with
  | Some (inr x, s') => k x s'
  | Some (inl e, s') => Some (inl e, s')
  | None => None
  end.

Definition fail {S A} (e : ErrorCode) : Res S A := λ s, Some (inl e, s).
Definition ask {S A} (f : S → A) : Res S A := λ s, Some (inr (f s), s).
Definition put {S} (f : S → S) : Res S unit := λ s, Some (inr tt, f s).

(** [if (!result) return make_unexpected(f(result.error()))] *)
Definition on_error {S A} (f : ErrorCode → ErrorCode) (m : Res S A) : Res S A := λ s,
  match m s with
  | Some (inl e, s') => Some (inl (f e), s')
  | r => r
  end.

(** A result that the caller looks at itself. *)
Definition attempt {S A} (m : Res S A) : Res S (ErrorCode + A) := λ s,
  match m s with
  | Some (r, s') => Some (inr r, s')
  | None => None
  end.

Definition within {S T A} (get : S → T) (set : T → S → S) (m : Res T A) : Res S A := λ s,
  match m (get s) with
  | Some (r, t) => Some (r, set t s)
  | None => None
  end.

(** [post m s Q]: if [m] ends, then in [Q].  [ends m s Q]: it ends, and in [Q]. *)
Definition post {S A} (m : Res S A) (s : S) (Q : ErrorCode + A → S → Prop) : Prop :=
  ∀ r s', m s = Some (r, s') → Q r s'.
Definition ends {S A} (m : Res S A) (s : S) (Q : ErrorCode + A → S → Prop) : Prop :=
  ∃ r s', m s = Some (r, s') ∧ Q r s'.

Section results.
Context {S : Type}.

Lemma post_ret {A} (x : A) (s : S) Q : Q (inr x) s → post (mret x) s Q.
Proof. by intros H r s' [= <- <-]. Qed.
Lemma post_fail {A} e (s : S) (Q : ErrorCode + A → S → Prop) : Q (inl e) s → post (fail e) s Q.
Proof. by intros H r s' [= <- <-]. Qed.
Lemma post_ask {A} (f : S → A) (s : S) Q : Q (inr (f s)) s → post (ask f) s Q.
Proof. by intros H r s' [= <- <-]. Qed.
Lemma post_put (f : S → S) (s : S) Q : Q (inr tt) (f s) → post (put f) s Q.
Proof. by intros H r s' [= <- <-]. Qed.
Lemma post_bind {A B} (m : Res S A) (k : A → Res S B) s Q :
  post m s (λ r s', match r with inl e => Q (inl e) s' | inr x => post (k x) s' Q end) → post (m ≫= k) s Q.
Proof.
  intros H r s'. unfold mbind, res_bind. destruct (m s) as [[[e|x] s1]|] eqn:E; [| |done].
  - intros [= <- <-]. exact (H _ _ E).
  - exact (H _ _ E r s').
Qed.
Lemma post_attempt {A} (m : Res S A) s Q : post m s (λ r s', Q (inr r) s') → post (attempt m) s Q.
Proof. intros H r s'. unfold attempt. destruct (m s) as [[r1 s1]|] eqn:E; [|done]. intros [= <- <-]. by apply H. Qed.
Lemma post_on_error {A} f (m : Res S A) s Q :
  post m s (λ r s', match r with inl e => Q (inl (f e)) s' | inr x => Q (inr x) s' end) → post (on_error f m) s Q.
Proof.
  intros H r s'. unfold on_error. destruct (m s) as [[[e|x] s1]|] eqn:E; [| |done]; intros [= <- <-]; exact (H _ _ E).
Qed.
Lemma post_mono {A} (m : Res S A) s (P Q : ErrorCode + A → S → Prop) :
  post m s P → (∀ r s', P r s' → Q r s') → post m s Q.
Proof. intros H HPQ r s' E. apply HPQ, H, E. Qed.

Lemma ends_ret {A} (x : A) (s : S) Q : Q (inr x) s → ends (mret x) s Q.
Proof. intros H. by exists (inr x), s. Qed.
Lemma ends_fail {A} e (s : S) (Q : ErrorCode + A → S → Prop) : Q (inl e) s → ends (fail e) s Q.
Proof. intros H. by exists (inl e), s. Qed.
Lemma ends_ask {A} (f : S → A) (s : S) Q : Q (inr (f s)) s → ends (ask f) s Q.
Proof. intros H. by exists (inr (f s)), s. Qed.
Lemma ends_put (f : S → S) (s : S) Q : Q (inr tt) (f s) → ends (put f) s Q.
Proof. intros H. by exists (inr tt), (f s). Qed.
Lemma ends_bind {A B} (m : Res S A) (k : A → Res S B) s Q :
  ends m s (λ r s', match r with inl e => Q (inl e) s' | inr x => ends (k x) s' Q end) → ends (m ≫= k) s Q.
Proof.
  intros (r & s1 & E & H). unfold ends, mbind, res_bind. rewrite E. destruct r as [e|x]; [by exists (inl e), s1|done].
Qed.
Lemma ends_attempt {A} (m : Res S A) s Q : ends m s (λ r s', Q (inr r) s') → ends (attempt m) s Q.
Proof. intros (r & s1 & E & H). exists (inr r), s1. unfold attempt. by rewrite E. Qed.
Lemma ends_on_error {A} f (m : Res S A) s Q :
  ends m s (λ r s', match r with inl e => Q (inl (f e)) s' | inr x => Q (inr x) s' end) → ends (on_error f m) s Q.
Proof. intros (r & s1 & E & H). unfold ends, on_error. rewrite E. destruct r; eauto. Qed.
Lemma ends_mono {A} (m : Res S A) s (P Q : ErrorCode + A → S → Prop) :
  ends m s P → (∀ r s', P r s' → Q r s') → ends m s Q.
Proof. intros (r & s' & E & H) HPQ. exists r, s'. auto. Qed.
Lemma ends_post {A} (m : Res S A) s P Q : ends m s P → post m s Q → ends m s (λ r s', P r s' ∧ Q r s').
Proof. intros (r & s' & E & H) HQ. exists r, s'. auto. Qed.
End results.

(** One step through the plumbing. *)
Ltac res_step :=
  lazymatch goal with
  | |- post (mret _) _ _ => apply post_ret
  | |- post (fail _) _ _ => apply post_fail
  | |- post (ask _) _ _ => apply post_ask
  | |- post (put _) _ _ => apply post_put
  | |- post (_ ≫= _) _ _ => apply post_bind
  | |- post (attempt _) _ _ => apply post_attempt
  | |- post (on_error _ _) _ _ => apply post_on_error
  | |- ends (mret _) _ _ => apply ends_ret
  | |- ends (fail _) _ _ => apply ends_fail
  | |- ends (ask _) _ _ => apply ends_ask
  | |- ends (put _) _ _ => apply ends_put
  | |- ends (_ ≫= _) _ _ => apply ends_bind
  | |- ends (attempt _) _ _ => apply ends_attempt
  | |- ends (on_error _ _) _ _ => apply ends_on_error
  end.

(** ** The operating system *)

Inductive Errno := EINTR | EOTHER.

(** A call fails, or it transfers at most so many bytes. *)
Inductive Outcome := Fails (e : Errno) | Upto (n : nat).

Record OS := mkOS {
  files : gmap (list ascii) (list ascii);
  dirs : gset (list ascii);
  mem : gmap Z ascii;
  calls : nat;
}.

Definition tick (o : OS) : OS := mkOS (files o) (dirs o) (mem o) (S (calls o)).
Definition set_files (f : gmap (list ascii) (list ascii) → gmap (list ascii) (list ascii)) (o : OS) : OS :=
  mkOS (f (files o)) (dirs o) (mem o) (calls o).
Definition set_dirs (f : gset (list ascii) → gset (list ascii)) (o : OS) : OS :=
  mkOS (files o) (f (dirs o)) (mem o) (calls o).
Definition set_mem (m : gmap Z ascii) (o : OS) : OS := mkOS (files o) (dirs o) m (calls o).

(** [patience]: after so many calls in a row without progress a loop is given up. *)
Class Posix := { env : nat → Outcome; patience : nat }.

(** *** Paths *)

Fixpoint drop_slashes (p : chars) : chars :=
  match p with
  | c :: p' => if decide (c = slash) then drop_slashes p' else p
  | [] => []
  end.
Definition strip_slashes (p : chars) : chars := rev (drop_slashes (rev p)).

(** A directory without trailing separators, as [dirs] has it. *)
Definition dir_name (p : chars) : chars :=
  let d := strip_slashes p in if bool_decide (d = []) && is_absolute p then [slash] else d.

(** [path::parent_path] *)
Definition parent_path (p : chars) : chars :=
  let d := strip_slashes (join_slash (removelast (split_slash p))) in
  if bool_decide (d = []) && is_absolute p then [slash] else d.

(** [path::filename], [path::extension], [path::stem] *)
Definition filename (p : chars) : chars := default [] (last (split_slash p)).
Definition split_dot (name : chars) : chars * chars :=
  let fix go s :=
    match s with
    | [] => None
    | c :: s' => match go s' with
                 | Some (a, b) => Some (c :: a, b)
                 | None => if decide (c = "."%char) then Some ([], s) else None
                 end
    end in
  if decide (name = dot ∨ name = dotdot) then (name, []) else
  match go name with
  | Some ([], _) | None => (name, [])
  | Some (stem, ext) => (stem, ext)
  end.
Definition extension (p : chars) : chars := snd (split_dot (filename p)).
Definition stem (p : chars) : chars := fst (split_dot (filename p)).

Fixpoint ancestors (fuel : nat) (p : chars) : list chars :=
  match fuel with
  | O => []
  | S fuel =>
      if decide (p = []) then []
      else if decide (parent_path p = p) then [p] else p :: ancestors fuel (parent_path p)
  end.

Definition is_directory (p : chars) (o : OS) : bool := bool_decide (dir_name p ∈ dirs o).
Definition exists_ (p : chars) (o : OS) : bool := bool_decide (is_Some (files o !! p)) || is_directory p o.

(** *** Memory *)

Inductive iovec := iov_string (s : chars) | iov_mem (base len : Z).

(** The bytes at an address, if all of them are mapped. *)
Definition fetch (m : gmap Z ascii) (base len : Z) : option chars := mapM (λ a, m !! a) (seqZ base len).

Definition gather_one (m : gmap Z ascii) (v : iovec) : option chars :=
  match v with iov_string s => Some s | iov_mem base len => fetch m base len end.
Definition gather (m : gmap Z ascii) (iov : list iovec) : option chars :=
  mjoin <$> mapM (gather_one m) iov.

Fixpoint store (base : Z) (data : chars) (m : gmap Z ascii) : gmap Z ascii :=
  match data with
  | [] => m
  | c :: data => store (base + 1) data (<[base := c]> m)
  end.

Fixpoint scatter (iov : list (Z * Z)) (data : chars) (m : gmap Z ascii) : gmap Z ascii :=
  match iov with
  | [] => m
  | (base, len) :: iov =>
      scatter iov (drop (Z.to_nat len) data) (store base (take (Z.to_nat len) data) m)
  end.

(** *** Calls *)

Definition IOV_MAX : Z := 1024.

Inductive FileMode := Read | Write.

(** The content of a file after [data] has been written at [pos]. *)
Definition overwrite (pos : nat) (data content : chars) : chars :=
  take pos content ++ replicate (pos - length content) "000"%char ++ data ++ drop (pos + length data) content.

Section posix.
Context {P : Posix}.

Definition open (path : chars) (mode : FileMode) (o : OS) : bool * OS :=
  match env (calls o), mode with
  | Fails _, _ => (false, tick o)
  | Upto _, Read => (exists_ path o, tick o)
  | Upto _, Write =>
      if bool_decide (has_filename path = true ∧ path ∉ dirs o ∧ (parent_path path = [] ∨ parent_path path ∈ dirs o))
      then (true, tick (set_files <[path := []]> o)) else (false, tick o)
  end.

Definition sys_write (path : chars) (pos : nat) (data : chars) (o : OS) : (Errno + nat) * OS :=
  match env (calls o), files o !! path with
  | Fails e, _ => (inl e, tick o)
  | Upto n, Some content =>
      let chunk := take n data in
      (inr (length chunk), tick (set_files <[path := overwrite pos chunk content]> o))
  | Upto _, None => (inl EOTHER, tick o)
  end.

Definition sys_read (path : chars) (pos count : nat) (o : OS) : (Errno + chars) * OS :=
  match env (calls o), files o !! path with
  | Fails e, _ => (inl e, tick o)
  | Upto n, Some content => (inr (take (n `min` count) (drop pos content)), tick o)
  | Upto _, None => (inl EOTHER, tick o)
  end.

Definition sys_pwritev (path : chars) (iov : list iovec) (iovcnt off : Z) (o : OS) : option nat * OS :=
  match env (calls o), files o !! path, gather (mem o) (take (Z.to_nat iovcnt) iov) with
  | Upto n, Some content, Some data =>
      if (iovcnt <? 0) || (IOV_MAX <? iovcnt) || (off <? 0) || (2 ^ 63 <=? Z.of_nat (length data)) then (None, tick o)
      else let chunk := take n data in
           (Some (length chunk), tick (set_files <[path := overwrite (Z.to_nat off) chunk content]> o))
  | _, _, _ => (None, tick o)
  end.

Definition iov_total (iov : list (Z * Z)) : Z := zsum (snd <$> iov).
Definition mapped (m : gmap Z ascii) (iov : list (Z * Z)) : bool :=
  forallb (λ v, bool_decide (is_Some (fetch m v.1 v.2))) iov.

Definition sys_preadv (path : chars) (iov : list (Z * Z)) (iovcnt off : Z) (o : OS) : option nat * OS :=
  match env (calls o), files o !! path with
  | Upto n, Some content =>
      let iov := take (Z.to_nat iovcnt) iov in
      if (iovcnt <? 0) || (IOV_MAX <? iovcnt) || (off <? 0) || (2 ^ 63 <=? iov_total iov) || negb (mapped (mem o) iov)
      then (None, tick o)
      else let data := take (n `min` Z.to_nat (iov_total iov)) (drop (Z.to_nat off) content) in
           (Some (length data), tick (set_mem (scatter iov data (mem o)) o))
  | _, _ => (None, tick o)
  end.

Definition unlink (path : chars) (o : OS) : OS :=
  match env (calls o) with
  | Fails _ => tick o
  | Upto _ => tick (set_files (delete path) o)
  end.

(** [fs::create_directories]; an ancestor that is a regular file makes it fail. *)
Definition create_directories (p : chars) (o : OS) : OS :=
  let new := ancestors (length p) p in
  match env (calls o) with
  | Fails _ => tick o
  | Upto _ => if forallb (λ d, negb (bool_decide (is_Some (files o !! d)))) new
              then tick (set_dirs (λ ds, list_to_set new ∪ ds) o) else tick o
  end.

(** [fs::remove] of a file, in its throwing and its non-throwing form: the result says
    whether the file was there, a missing one that the call failed. *)
Definition remove (p : chars) (o : OS) : option bool * OS :=
  match env (calls o) with
  | Fails _ => (None, tick o)
  | Upto _ => (Some (bool_decide (is_Some (files o !! p))), tick (set_files (delete p) o))
  end.

Definition file_size (p : chars) (o : OS) : option Z * OS :=
  match env (calls o) with
  | Fails _ => (None, tick o)
  | Upto _ => ((λ c, Z.of_nat (length c)) <$> files o !! p, tick o)
  end.
End posix.

(** ** PosixFile *)

Module PosixFile.
Record t := mk {
  filename_ : chars;
  position : nat;
  error_code_ : ErrorCode;
}.

Definition State : Type := t * OS.
Definition advance (n : nat) (f : t) : t := mk (filename_ f) (position f + n) (error_code_ f).

Section file.
Context {P : Posix}.

Definition make_error {A} (code : ErrorCode) : Res State A := λ s,
  Some (inl code, (mk (filename_ s.1) (position s.1) code, s.2)).

(** The loop of [write]: [data] is what remains. *)
Fixpoint write_loop (fuel : nat) (data : chars) (written_bytes : nat) : Res State nat :=
  match data with
  | [] => mret written_bytes
  | _ =>
      match fuel with
      | O => λ _, None
      | S fuel => λ s,
          match sys_write (filename_ s.1) (position s.1) data s.2 with
          | (inl EINTR, o) => write_loop fuel data written_bytes (s.1, o)
          | (inl _, o) => make_error EC.FILE_WRITE_FAIL (s.1, o)
          | (inr n, o) => write_loop fuel (drop n data) (written_bytes + n) (advance n s.1, o)
          end
      end
  end.

Definition write (data : chars) (len : nat) : Res State nat :=
  if decide (len = 0%nat) then make_error EC.FILE_INVALID_BUFFER
  else if decide (length data < len)%nat then λ _, None
  else
    written_bytes ← write_loop (S (len * patience)) (take len data) 0;
    if decide (written_bytes = len) then mret written_bytes else make_error EC.FILE_WRITE_FAIL.

(** The loop of [read]: [buffer] is what has been read. *)
Fixpoint read_loop (fuel : nat) (len : nat) (buffer : chars) : Res State chars :=
  if decide (len <= length buffer)%nat then mret buffer
  else match fuel with
  | O => λ _, None
  | S fuel => λ s,
      match sys_read (filename_ s.1) (position s.1) (len - length buffer) s.2 with
      | (inl EINTR, o) => read_loop fuel len buffer (s.1, o)
      | (inl _, o) => make_error EC.FILE_READ_FAIL (s.1, o)
      | (inr [], o) => Some (inr buffer, (s.1, o))
      | (inr bytes, o) => read_loop fuel len (buffer ++ bytes) (advance (length bytes) s.1, o)
      end
  end.

Definition read (len : nat) : Res State chars :=
  if decide (len = 0%nat) then make_error EC.FILE_INVALID_BUFFER
  else
    buffer ← read_loop (S (len * patience)) len [];
    if decide (length buffer = len) then mret buffer else make_error EC.FILE_READ_FAIL.

Definition vector_write (iov : list iovec) (iovcnt offset : Z) : Res State Z := λ s,
  match sys_pwritev (filename_ s.1) iov iovcnt offset s.2 with
  | (None, o) => make_error EC.FILE_WRITE_FAIL (s.1, o)
  | (Some n, o) => Some (inr (Z.of_nat n), (s.1, o))
  end.

Definition vector_read (iov : list (Z * Z)) (iovcnt offset : Z) : Res State Z := λ s,
  match sys_preadv (filename_ s.1) iov iovcnt offset s.2 with
  | (None, o) => make_error EC.FILE_READ_FAIL (s.1, o)
  | (Some n, o) => Some (inr (Z.of_nat n), (s.1, o))
  end.

(** The destructor: [close], and a file whose write failed is deleted. *)
Definition destroy (f : t) (o : OS) : OS :=
  if decide (error_code_ f = EC.FILE_WRITE_FAIL) then unlink (filename_ f) (tick o) else tick o.

(** A file that lives as long as [body]. *)
Definition with_file {A} (path : chars) (mode : FileMode) (body : Res State A) : Res OS A := λ o,
  match open path mode o with
  | (false, o1) => Some (inl EC.FILE_OPEN_FAIL, o1)
  | (true, o1) =>
      match body (mk path 0 EC.OK, o1) with
      | Some (r, (f, o2)) => Some (r, destroy f o2)
      | None => None
      end
  end.
End file.
End PosixFile.
