(* ===== verification/PosixSpec.v ===== *)
(** * PosixSpec: what reads and writes of files do

    Lemmas on PosixFiles: memory and scattered reads, the calls on an open file under any
    environment ([post]) and under a reliable one, the life of a file object, paths, and
    the termination of the loops of [write] and [read] when calls make progress. *)

From S2P Require Import Prelude Types StorePath PosixFiles.
From Stdlib Require Import Ascii.
Open Scope Z_scope.

(** ** Memory lemmas *)

Lemma fetch_length m b l d : fetch m b l = Some d → length d = Z.to_nat l.
Proof. intros H%length_mapM. by rewrite length_seqZ in H. Qed.

Lemma fetch_0 m b l : l <= 0 → fetch m b l = Some [].
Proof. intros H. unfold fetch. by rewrite seqZ_nil. Qed.

Lemma fetch_cons m b l : 0 < l → fetch m b l = (c ← m !! b; d ← fetch m (b + 1) (l - 1); Some (c :: d)).
Proof.
  intros H. unfold fetch. rewrite seqZ_cons by done. cbn [mapM]. by rewrite <-Z.add_1_r, <-Z.sub_1_r.
Qed.

Lemma mapM_app_Some {A B} (f : A → option B) l1 l2 k1 k2 :
  mapM f l1 = Some k1 → mapM f l2 = Some k2 → mapM f (l1 ++ l2) = Some (k1 ++ k2).
Proof. rewrite !mapM_Some. apply Forall2_app. Qed.

Lemma fetch_app m b l1 l2 d1 d2 :
  0 <= l1 → 0 <= l2 → fetch m b l1 = Some d1 → fetch m (b + l1) l2 = Some d2 → fetch m b (l1 + l2) = Some (d1 ++ d2).
Proof.
  intros H1 H2 E1 E2. unfold fetch in *. rewrite seqZ_app by done. by apply mapM_app_Some.
Qed.

Lemma fetch_ext m m' b l : (∀ a, b <= a < b + l → m !! a = m' !! a) → fetch m b l = fetch m' b l.
Proof.
  intros H. unfold fetch. apply Forall_mapM_ext, Forall_forall. intros a Ha%elem_of_seqZ. by apply H.
Qed.

Lemma fetch_Some_iff m b l : is_Some (fetch m b l) ↔ ∀ a, b <= a < b + l → is_Some (m !! a).
Proof.
  unfold fetch. rewrite mapM_is_Some, Forall_forall. by setoid_rewrite elem_of_seqZ.
Qed.

Lemma store_lookup_ne b d m a : a < b ∨ b + Z.of_nat (length d) <= a → store b d m !! a = m !! a.
Proof.
  revert b m. induction d as [|c d IH]; intros b m H; [done|]. simpl in *.
  rewrite IH by lia. apply lookup_insert_ne. lia.
Qed.

Lemma store_is_Some b d m a : is_Some (m !! a) → is_Some (store b d m !! a).
Proof.
  revert b m. induction d as [|c d IH]; intros b m H; [done|]. simpl. apply IH.
  destruct (decide (a = b)) as [->|]; [by rewrite lookup_insert_eq|by rewrite lookup_insert_ne].
Qed.

Lemma fetch_store b d m : fetch (store b d m) b (Z.of_nat (length d)) = Some d.
Proof.
  revert b m. induction d as [|c d IH]; intros b m; [by apply fetch_0|]. simpl store. cbn [length].
  rewrite fetch_cons by lia. rewrite store_lookup_ne by lia. rewrite lookup_insert_eq. simpl.
  replace (Z.of_nat (S (length d)) - 1) with (Z.of_nat (length d)) by lia. by rewrite IH.
Qed.

(** The ranges [[b, b + l)] and [[b', b' + l')] do not meet. *)
Definition apart (v w : Z * Z) : Prop := v.1 + v.2 <= w.1 ∨ w.1 + w.2 <= v.1.

Lemma fetch_store_apart b l b' d m : apart (b, l) (b', Z.of_nat (length d)) → fetch (store b' d m) b l = fetch m b l.
Proof. intros [H|H]; simpl in H; apply fetch_ext; intros a Ha; apply store_lookup_ne; lia. Qed.

(** The bytes [[off, off + n)] of a file. *)
Definition piece (c : list ascii) (off n : Z) : list ascii := take (Z.to_nat n) (drop (Z.to_nat off) c).

Lemma piece_length c off n : 0 <= off → 0 <= n → off + n <= Z.of_nat (length c) → length (piece c off n) = Z.to_nat n.
Proof. intros H1 H2 H3. unfold piece. rewrite length_take, length_drop. lia. Qed.

Lemma piece_piece c o1 n1 o2 n2 :
  0 <= o1 → 0 <= o2 → 0 <= n2 → o2 + n2 <= n1 → piece (piece c o1 n1) o2 n2 = piece c (o1 + o2) n2.
Proof.
  intros ????. unfold piece. replace (Z.to_nat n1) with (Z.to_nat o2 + Z.to_nat (n1 - o2))%nat by lia.
  rewrite <-take_drop_commute, take_take, drop_drop. f_equal; [|f_equal]; lia.
Qed.

Lemma piece_split c off n1 n2 : 0 <= off → 0 <= n1 → 0 <= n2 → piece c off (n1 + n2) = piece c off n1 ++ piece c (off + n1) n2.
Proof.
  intros ???. unfold piece. rewrite Z2Nat.inj_add by done.
  rewrite <-take_take_drop, drop_drop. do 3 f_equal. lia.
Qed.

Lemma scatter_apart iov data m b l :
  Forall (λ v, 0 <= v.2 ∧ apart (b, l) v) iov → fetch (scatter iov data m) b l = fetch m b l.
Proof.
  revert data m. induction iov as [|[b' l'] iov IH]; intros data m HF; [done|].
  apply Forall_cons in HF as [[H0 H] HF]. simpl. rewrite IH by done. apply fetch_store_apart.
  unfold apart in *. simpl in *. rewrite length_take. lia.
Qed.

Lemma scatter_is_Some iov data m a : is_Some (m !! a) → is_Some (scatter iov data m !! a).
Proof.
  revert data m. induction iov as [|[b' l'] iov IH]; intros data m H; [done|]. simpl. by apply IH, store_is_Some.
Qed.

(** Ranges that are pairwise apart, of lengths that are not negative. *)
Definition spread (iov : list (Z * Z)) : Prop :=
  Forall (λ v, 0 <= v.2) iov ∧ ∀ i j v w, i ≠ j → iov !! i = Some v → iov !! j = Some w → apart v w.

Lemma spread_cons v iov : spread (v :: iov) → 0 <= v.2 ∧ Forall (λ w, 0 <= w.2 ∧ apart v w) iov ∧ spread iov.
Proof.
  intros [HF H]. apply Forall_cons in HF as [Hv HF]. split; [done|]. split; [|split; [done|]].
  - apply Forall_lookup. intros i w Hi. split; [by eapply Forall_lookup_1 in HF|]. by apply (H 0%nat (S i)).
  - intros i j a b Hij Hi Hj. apply (H (S i) (S j)); [lia|done|done].
Qed.

Lemma iov_total_cons v iov : iov_total (v :: iov) = v.2 + iov_total iov.
Proof. done. Qed.

Lemma iov_total_nonneg iov : Forall (λ v, 0 <= v.2) iov → 0 <= iov_total iov.
Proof. induction 1 as [|v iov Hv _ IH]; [done|]. rewrite iov_total_cons. lia. Qed.

Lemma iov_total_app l1 l2 : iov_total (l1 ++ l2) = iov_total l1 + iov_total l2.
Proof. unfold iov_total. by rewrite fmap_app, zsum_app. Qed.

Lemma scatter_fetch iov data m i v :
  spread iov → Z.of_nat (length data) = iov_total iov → iov !! i = Some v →
  fetch (scatter iov data m) v.1 v.2 = Some (piece data (iov_total (take i iov)) v.2).
Proof.
  revert data m i. induction iov as [|w iov IH]; intros data m i HS Hl Hi; [done|].
  apply spread_cons in HS as (Hw & HA & HS). destruct w as [b l]. simpl in Hw. rewrite iov_total_cons in Hl. cbn [snd] in Hl.
  pose proof (iov_total_nonneg iov (proj1 HS)) as Hpos. destruct i as [|i]; simpl in Hi |- *.
  - injection Hi as <-. cbn [fst snd]. rewrite scatter_apart by done.
    assert (length (take (Z.to_nat l) data) = Z.to_nat l) as E by (rewrite length_take; lia).
    pose proof (fetch_store b (take (Z.to_nat l) data) m) as HF. rewrite E, Z2Nat.id in HF by done. exact HF.
  - rewrite (IH _ _ i); [|done|rewrite length_drop; lia|done]. rewrite iov_total_cons. cbn [snd].
    assert (0 <= iov_total (take i iov)) by (apply iov_total_nonneg, Forall_take, HS).
    unfold piece. rewrite drop_drop. do 3 f_equal. lia.
Qed.

(** ** What the calls on an open file do *)

(** Nothing but memory and the count of calls has changed. *)
Definition same_files (o o' : OS) : Prop := files o' = files o ∧ dirs o' = dirs o.

#[export] Instance same_files_po : PreOrder same_files.
Proof. split; [done|]. intros o1 o2 o3 [? ?] [? ?]. split; congruence. Qed.

(** Every call succeeds and transfers up to [n] bytes. *)
Definition reliable `{Posix} (n : nat) : Prop := ∀ k, ∃ m, env k = Upto m ∧ (n <= m)%nat.

Section file.
Context {P : Posix}.

Lemma reliable_mono n n' : (n' <= n)%nat → reliable n → reliable n'.
Proof. intros ? H k. destruct (H k) as (m & ? & ?). exists m. split; [done|lia]. Qed.

(** The content of an open file; a directory has none. *)
Definition content (f : PosixFile.t) (o : OS) : list ascii := default [] (files o !! PosixFile.filename_ f).

Lemma vector_read_post iov off f o Q :
  Z.of_nat (length iov) < 2 ^ 31 → Forall (λ v, 0 <= v.2) iov →
  (∀ o', same_files o o' → mem o' = mem o →
     Q (inl EC.FILE_READ_FAIL) (PosixFile.mk (PosixFile.filename_ f) (PosixFile.position f) EC.FILE_READ_FAIL, o')) →
  (∀ n o', 0 <= off → same_files o o' → (∃ data, mem o' = scatter iov data (mem o)) →
     (n = iov_total iov → mem o' = scatter iov (piece (content f o) off (iov_total iov)) (mem o) ∧
        (0 < n → off + n <= Z.of_nat (length (content f o)))) →
     Q (inr n) (f, o')) →
  post (PosixFile.vector_read iov (i32 (Z.of_nat (length iov))) off) (f, o) Q.
Proof.
  intros Hlen HF Hbad Hgood. rewrite i32_small by lia. intros r s'. unfold PosixFile.vector_read, sys_preadv.
  cbn [fst snd]. destruct (env (calls o)) as [e|n]; [intros [= <- <-]; by apply Hbad|].
  destruct (files o !! PosixFile.filename_ f) as [c|] eqn:Hc; [|intros [= <- <-]; by apply Hbad].
  assert (content f o = c) as Ec by (unfold content; by rewrite Hc). rewrite Ec in Hgood.
  rewrite Nat2Z.id, take_ge by lia. pose proof (iov_total_nonneg _ HF) as Hpos.
  destruct (_ || negb (mapped _ _)) eqn:E; [intros [= <- <-]; by apply Hbad|]. rewrite !orb_false_iff in E. destruct_and!.
  intros [= <- <-]. apply Hgood; [lia|done|by eexists|]. intros Hn. rewrite length_take, length_drop in Hn.
  assert (n `min` Z.to_nat (iov_total iov) = Z.to_nat (iov_total iov))%nat as -> by lia. split; [done|].
  rewrite length_take, length_drop. lia.
Qed.

Lemma vector_read_reliable iov off f o c :
  reliable (Z.to_nat (iov_total iov)) → files o !! PosixFile.filename_ f = Some c → Forall (λ v, 0 <= v.2) iov →
  Z.of_nat (length iov) <= IOV_MAX → 0 <= off → iov_total iov < 2 ^ 63 → mapped (mem o) iov = true →
  off + iov_total iov <= Z.of_nat (length c) →
  PosixFile.vector_read iov (i32 (Z.of_nat (length iov))) off (f, o) =
    Some (inr (iov_total iov), (f, tick (set_mem (scatter iov (piece c off (iov_total iov)) (mem o)) o))).
Proof.
  intros Hrel Hc HF Hlen Hoff Htot Hm Hle. unfold IOV_MAX in Hlen. rewrite i32_small by lia.
  unfold PosixFile.vector_read, sys_preadv. cbn [fst snd]. rewrite Hc.
  destruct (Hrel (calls o)) as (n & -> & Hn). rewrite Nat2Z.id, take_ge by lia. rewrite Hm.
  pose proof (iov_total_nonneg _ HF) as Hpos. unfold IOV_MAX.
  destruct (_ || negb _) eqn:E; [rewrite !orb_true_iff, !Z.ltb_lt, Z.leb_le in E; destruct E as [[[[?|?]|?]|?]|[=]]; lia|].
  replace (n `min` Z.to_nat (iov_total iov))%nat with (Z.to_nat (iov_total iov)) by lia.
  fold (piece c off (iov_total iov)). rewrite piece_length by lia. by rewrite Z2Nat.id.
Qed.

(** A write that is reported complete has replaced an empty file by the data. *)
Lemma vector_write_post iov f o Q :
  files o !! PosixFile.filename_ f = Some [] → Z.of_nat (length iov) < 2 ^ 31 →
  (∀ f' o', PosixFile.filename_ f' = PosixFile.filename_ f → PosixFile.error_code_ f' = EC.FILE_WRITE_FAIL →
     same_files o o' → mem o' = mem o → Q (inl EC.FILE_WRITE_FAIL) (f', o')) →
  (∀ data n o', gather (mem o) iov = Some data → Z.of_nat (length data) < 2 ^ 63 → dirs o' = dirs o → mem o' = mem o →
     files o' = <[PosixFile.filename_ f := take n data]> (files o) → (n <= length data)%nat → Q (inr (Z.of_nat n)) (f, o')) →
  post (PosixFile.vector_write iov (i32 (Z.of_nat (length iov))) 0) (f, o) Q.
Proof.
  intros Hc Hlen Hbad Hgood. rewrite i32_small by lia. intros r s'. unfold PosixFile.vector_write, sys_pwritev.
  cbn [fst snd]. rewrite Hc. destruct (env (calls o)) as [e|n]; [intros [= <- <-]; by apply Hbad|].
  rewrite Nat2Z.id, take_ge by lia. destruct (gather (mem o) iov) as [data|] eqn:Hg; [|intros [= <- <-]; by apply Hbad].
  destruct (_ || (2 ^ 63 <=? _)) eqn:E; [intros [= <- <-]; by apply Hbad|]. rewrite !orb_false_iff in E. destruct_and!.
  intros [= <- <-]. apply (Hgood data); try done; [lia| |rewrite length_take; lia].
  unfold overwrite. simpl. rewrite drop_nil, app_nil_r. by rewrite length_take, take_min.
Qed.

Lemma vector_write_reliable iov f o data :
  reliable (length data) → files o !! PosixFile.filename_ f = Some [] → gather (mem o) iov = Some data →
  Z.of_nat (length iov) <= IOV_MAX → Z.of_nat (length data) < 2 ^ 63 →
  PosixFile.vector_write iov (i32 (Z.of_nat (length iov))) 0 (f, o) =
    Some (inr (Z.of_nat (length data)), (f, tick (set_files <[PosixFile.filename_ f := data]> o))).
Proof.
  intros Hrel Hc Hg Hlen Htot. unfold IOV_MAX in Hlen. rewrite i32_small by lia.
  unfold PosixFile.vector_write, sys_pwritev. cbn [fst snd]. rewrite Hc.
  destruct (Hrel (calls o)) as (n & -> & Hn). rewrite Nat2Z.id, take_ge by lia. rewrite Hg. unfold IOV_MAX.
  destruct (_ || (2 ^ 63 <=? _)) eqn:E; [rewrite !orb_true_iff, !Z.ltb_lt, Z.leb_le in E; destruct E as [[[?|?]|?]|?]; lia|].
  rewrite (take_ge data) by done. unfold overwrite. simpl. by rewrite drop_nil, app_nil_r.
Qed.
End file.

Section with_file.
Context {P : Posix} {A : Type}.
Implicit Types (body : Res PosixFile.State A) (Q : ErrorCode + A → OS → Prop).

(** The destructor of a file that was only read, or written without error. *)
Lemma destroy_ok f o : PosixFile.error_code_ f ≠ EC.FILE_WRITE_FAIL → PosixFile.destroy f o = tick o.
Proof. intros H. unfold PosixFile.destroy. by rewrite decide_False. Qed.

Lemma with_file_read_post path body o Q :
  (∀ o', same_files o o' → mem o' = mem o → Q (inl EC.FILE_OPEN_FAIL) o') →
  (∀ o', same_files o o' → mem o' = mem o → exists_ path o = true →
     post body (PosixFile.mk path 0 EC.OK, o') (λ r s, Q r (PosixFile.destroy s.1 s.2))) →
  post (PosixFile.with_file path Read body) o Q.
Proof.
  intros Hbad Hgood r s'. unfold PosixFile.with_file, open.
  destruct (env (calls o)); [intros [= <- <-]; by apply Hbad|]. destruct (exists_ path o) eqn:E; [|intros [= <- <-]; by apply Hbad].
  specialize (Hgood (tick o) ltac:(done) eq_refl eq_refl). destruct (body _) as [[r1 [f o2]]|] eqn:Eb; [|done].
  intros [= <- <-]. exact (Hgood _ _ Eb).
Qed.

Lemma with_file_write_post path body o Q :
  (∀ o', same_files o o' → mem o' = mem o → Q (inl EC.FILE_OPEN_FAIL) o') →
  (∀ o', files o' = <[path := []]> (files o) → dirs o' = dirs o → mem o' = mem o → path ∉ dirs o →
     post body (PosixFile.mk path 0 EC.OK, o') (λ r s, Q r (PosixFile.destroy s.1 s.2))) →
  post (PosixFile.with_file path Write body) o Q.
Proof.
  intros Hbad Hgood r s'. unfold PosixFile.with_file, open.
  destruct (env (calls o)); [intros [= <- <-]; by apply Hbad|].
  destruct (bool_decide _) eqn:E; [|intros [= <- <-]; by apply Hbad]. apply bool_decide_eq_true in E as (_ & ? & _).
  specialize (Hgood (tick (set_files <[path := []]> o)) eq_refl eq_refl eq_refl ltac:(done)).
  destruct (body _) as [[r1 [f o2]]|] eqn:Eb; [|done]. intros [= <- <-]. exact (Hgood _ _ Eb).
Qed.

(** A path at which a file can be created. *)
Definition creatable (path : list ascii) (o : OS) : Prop :=
  has_filename path = true ∧ path ∉ dirs o ∧ (parent_path path = [] ∨ parent_path path ∈ dirs o).

Lemma with_file_write_ends path body o Q :
  reliable 0 → creatable path o →
  ends body (PosixFile.mk path 0 EC.OK, tick (set_files <[path := []]> o)) (λ r s, Q r (PosixFile.destroy s.1 s.2)) →
  ends (PosixFile.with_file path Write body) o Q.
Proof.
  intros Hrel Hc (r & [f o2] & Eb & HQ). unfold ends, PosixFile.with_file, open.
  destruct (Hrel (calls o)) as (m & -> & _). rewrite bool_decide_eq_true_2 by done. rewrite Eb. by exists r, (PosixFile.destroy f o2).
Qed.

Lemma with_file_read_ends path body o Q :
  reliable 0 → is_Some (files o !! path) →
  ends body (PosixFile.mk path 0 EC.OK, tick o) (λ r s, Q r (PosixFile.destroy s.1 s.2)) →
  ends (PosixFile.with_file path Read body) o Q.
Proof.
  intros Hrel Hc (r & [f o2] & Eb & HQ). unfold ends, PosixFile.with_file, open.
  destruct (Hrel (calls o)) as (m & -> & _). unfold exists_. rewrite bool_decide_eq_true_2 by done. cbn [orb]. rewrite Eb.
  by exists r, (PosixFile.destroy f o2).
Qed.
End with_file.

(** ** Paths *)

Lemma split_slash_cons p : ∃ x xs, split_slash p = x :: xs.
Proof. destruct p as [|c p]; simpl; [eauto|]. case_decide; [eauto|]. destruct (split_slash p); eauto. Qed.

Lemma join_split p : join_slash (split_slash p) = p.
Proof.
  induction p as [|c p IH]; [done|]. simpl. destruct (split_slash_cons p) as (x & xs & E). case_decide as Ec.
  - subst c. rewrite E in IH |- *. rewrite join_slash_cons, IH. done.
  - rewrite E in IH |- *. destruct xs as [|y xs]; [simpl in *; by rewrite IH|]. rewrite join_slash_cons in IH |- *. by rewrite <-IH.
Qed.

Lemma split_slash_snoc p : split_slash p = removelast (split_slash p) ++ [filename p].
Proof.
  unfold filename. destruct (last (split_slash p)) as [y|] eqn:El.
  - apply last_Some in El as [l ->]. by rewrite removelast_last.
  - apply last_None in El. destruct (split_slash_cons p) as (x & xs & E). congruence.
Qed.

Lemma drop_slashes_length p : (length (drop_slashes p) <= length p)%nat.
Proof. induction p as [|c p IH]; [done|]. simpl. case_decide; simpl; lia. Qed.

Lemma strip_slashes_length p : (length (strip_slashes p) <= length p)%nat.
Proof. unfold strip_slashes. rewrite length_rev. etrans; [apply drop_slashes_length|]. by rewrite length_rev. Qed.

Lemma parent_path_length p : (length (parent_path p) <= length p)%nat.
Proof.
  unfold parent_path. destruct (_ && is_absolute p) eqn:E.
  - apply andb_true_iff in E as [_ E]. apply bool_decide_eq_true in E. destruct p; simpl in *; [done|lia].
  - etrans; [apply strip_slashes_length|]. pose proof (f_equal length (join_split p)) as Hj. rewrite split_slash_snoc in Hj.
    destruct (removelast (split_slash p)); [simpl; lia|]. rewrite join_slash_app, length_app in Hj by done. lia.
Qed.

Lemma parent_path_shorter p : has_filename p = true → (length (parent_path p) < length p)%nat.
Proof.
  intros H. unfold has_filename in H. apply andb_true_iff in H as [H1 H2].
  rewrite negb_true_iff, bool_decide_eq_false in H1, H2. assert (filename p ≠ []) as Hf.
  { intros E. apply H2. rewrite <-(join_split p). rewrite split_slash_snoc, E.
    destruct (removelast (split_slash p)) eqn:Er.
    - pose proof (join_split p) as Hj. rewrite split_slash_snoc, Er, E in Hj. by subst p.
    - rewrite join_slash_app by done. simpl. by rewrite last_snoc. }
  assert (length (filename p) ≠ 0%nat) as Hf' by (by destruct (filename p)).
  pose proof (join_split p) as Hj. rewrite split_slash_snoc in Hj. unfold parent_path.
  destruct (removelast (split_slash p)) as [|x xs] eqn:Er.
  - assert (is_absolute p = false) as ->.
    { apply bool_decide_eq_false. intros Ea. destruct p as [|c p]; [done|]. injection Ea as ->. simpl in Er.
      destruct (split_slash_cons p) as (y & ys & Ey). by rewrite Ey in Er. }
    rewrite andb_false_r. change (join_slash []) with (@nil ascii). change (strip_slashes []) with (@nil ascii). rewrite <-Hj. simpl. lia.
  - rewrite join_slash_app in Hj by done. pose proof (strip_slashes_length (join_slash (x :: xs))) as Hl.
    apply (f_equal length) in Hj. rewrite length_app in Hj. change (join_slash [filename p]) with (filename p) in Hj. cbn [length] in Hj.
    destruct (_ && is_absolute p); cbn [length]; lia.
Qed.

Lemma ancestors_length fuel p d : d ∈ ancestors fuel p → (length d <= length p)%nat.
Proof.
  revert p. induction fuel as [|fuel IH]; intros p; simpl; [by intros ?%elem_of_nil|].
  case_decide; [by intros ?%elem_of_nil|]. case_decide; [by intros ->%list_elem_of_singleton|].
  intros [->|Hd]%elem_of_cons; [done|]. apply IH in Hd. pose proof (parent_path_length p). lia.
Qed.

Lemma drop_slashes_idemp p : drop_slashes (drop_slashes p) = drop_slashes p.
Proof. induction p as [|c p IH]; [done|]. simpl. case_decide as E; [done|]. simpl. by rewrite decide_False. Qed.

Lemma strip_slashes_idemp p : strip_slashes (strip_slashes p) = strip_slashes p.
Proof. unfold strip_slashes. by rewrite rev_involutive, drop_slashes_idemp. Qed.

Lemma dir_name_parent p : dir_name (parent_path p) = parent_path p.
Proof.
  unfold parent_path, dir_name. set (d := strip_slashes (join_slash _)). destruct (bool_decide (d = [])) eqn:E; simpl.
  - destruct (is_absolute p); [done|]. apply bool_decide_eq_true in E. by rewrite E.
  - unfold d. rewrite strip_slashes_idemp. fold d. by rewrite E.
Qed.

(** ** The loops of [write] and [read] *)

(** A call that is neither interrupted nor without effect. *)
Definition progress (r : Outcome) : Prop := match r with Fails EINTR | Upto O => False | _ => True end.
Definition fair `{Posix} : Prop := ∀ k, ∃ i, (i < patience)%nat ∧ progress (env (k + i)).

Section loops.
Context {P : Posix}.
Import PosixFile.

(** Only the file [f] has changed. *)
Definition only_file (p : list ascii) (o o' : OS) : Prop :=
  dirs o' = dirs o ∧ mem o' = mem o ∧ ∀ q, q ≠ p → files o' !! q = files o !! q.

#[export] Instance only_file_po p : PreOrder (only_file p).
Proof.
  split; [done|]. intros o1 o2 o3 (D1 & M1 & F1) (D2 & M2 & F2). split; [congruence|]. split; [congruence|].
  intros q Hq. by rewrite F2, F1.
Qed.

Lemma write_loop_post fuel data n w f o :
  files o !! filename_ f = Some w → position f = length w →
  post (write_loop fuel data n) (f, o) (λ r s', filename_ s'.1 = filename_ f ∧ only_file (filename_ f) o s'.2 ∧
    match r with
    | inr m => m = (n + length data)%nat ∧ files s'.2 !! filename_ f = Some (w ++ data) ∧ error_code_ s'.1 = error_code_ f
    | inl e => e = EC.FILE_WRITE_FAIL ∧ error_code_ s'.1 = EC.FILE_WRITE_FAIL
    end).
Proof.
  revert data n w f o. induction fuel as [|fuel IH]; intros [|c data] n w f o Hw Hp; simpl.
  1,3: res_step; rewrite app_nil_r; repeat split; [lia|done].
  { by intros r s'. }
  set (data' := c :: data). intros r s'. cbn [fst snd]. unfold sys_write. destruct (env (calls o)) as [[]|m].
  - intros E. destruct (IH data' n w f (tick o) Hw Hp r s' E) as (? & ? & ?). done.
  - by intros [= <- <-].
  - rewrite Hw. intros E. rewrite length_take in E. set (k := (m `min` length data')%nat) in *.
    assert (take m data' = take k data') as Et.
    { symmetry. apply take_min. }
    set (o1 := tick (set_files <[filename_ f := overwrite (position f) (take m data') w]> o)) in *.
    assert (files o1 !! filename_ f = Some (w ++ take k data')) as Hw1.
    { cbn. rewrite lookup_insert_eq, Hp, Et. unfold overwrite. rewrite Nat.sub_diag. simpl.
      rewrite take_ge, drop_ge by lia. by rewrite app_nil_r. }
    assert (length (take k data') = k) as Hk by (rewrite length_take; unfold k; lia).
    destruct (IH (drop k data') (n + k)%nat (w ++ take k data') (advance k f) o1 Hw1) with (r := r) (s' := s') as (H1 & H2 & H3).
    { cbn. rewrite length_app, Hk. lia. }
    { exact E. }
    split; [done|]. split.
    { etrans; [|exact H2]. split; [done|]. split; [done|]. intros q Hq. cbn. by rewrite lookup_insert_ne by (cbn in Hq; congruence). }
    destruct r as [e|m']; [done|]. destruct H3 as (-> & HF & ->). split; [rewrite length_drop; unfold k, data'; cbn [length]; lia|].
    split; [|done]. cbn in HF. by rewrite HF, <-app_assoc, take_drop.
Qed.

Lemma write_post data f o :
  files o !! filename_ f = Some [] → position f = 0%nat →
  post (write data (length data)) (f, o) (λ r s', filename_ s'.1 = filename_ f ∧ only_file (filename_ f) o s'.2 ∧
    match r with
    | inr m => m = length data ∧ files s'.2 !! filename_ f = Some data ∧ error_code_ s'.1 = error_code_ f
    | inl e => True
    end).
Proof.
  intros Hw Hp. unfold write. case_decide; [by intros r s' [= <- <-]|]. rewrite decide_False by lia.
  rewrite take_ge by done. res_step. eapply post_mono; [by apply (write_loop_post _ data 0 [])|].
  intros [e|m] s' (H1 & H2 & H3); [done|]. destruct H3 as (-> & H3 & H4). rewrite decide_True by done. by res_step.
Qed.

Lemma write_loop_nil fuel n s : write_loop fuel [] n s = Some (inr n, s).
Proof. by destruct fuel. Qed.

Lemma read_loop_full fuel len b s : (len <= length b)%nat → read_loop fuel len b s = Some (inr b, s).
Proof. intros H. destruct fuel; cbn [read_loop]; by rewrite decide_True. Qed.

Lemma write_reliable data f o :
  reliable (length data) → data ≠ [] → files o !! filename_ f = Some [] → position f = 0%nat →
  write data (length data) (f, o) = Some (inr (length data), (advance (length data) f, tick (set_files <[filename_ f := data]> o))).
Proof.
  intros Hrel Hne Hw Hp. unfold write. rewrite decide_False by (by destruct data). rewrite decide_False by lia.
  rewrite take_ge by done. unfold mbind, res_bind. destruct data as [|c data]; [done|]. set (d := c :: data) in *.
  cbn [write_loop]. destruct d as [|c' d'] eqn:Ed; [done|]. rewrite <-Ed in *. cbn [fst snd]. unfold sys_write.
  destruct (Hrel (calls o)) as (m & -> & Hm). rewrite Hw, (take_ge d), drop_ge by lia. rewrite Hp.
  rewrite write_loop_nil, decide_True by done. unfold overwrite. cbn [take length Nat.sub replicate app].
  by rewrite drop_nil, app_nil_r.
Qed.

Lemma read_loop_post fuel len buffer c f o :
  files o !! filename_ f = Some c → position f = length buffer → buffer = take (length buffer) c → (length buffer <= len)%nat →
  post (read_loop fuel len buffer) (f, o) (λ r s', filename_ s'.1 = filename_ f ∧ same_files o s'.2 ∧ mem s'.2 = mem o ∧
    match r with
    | inr b => b = take (length b) c ∧ (length b <= len)%nat ∧ error_code_ s'.1 = error_code_ f
    | inl e => error_code_ s'.1 = EC.FILE_READ_FAIL
    end).
Proof.
  intros Hc. revert buffer f o Hc. induction fuel as [|fuel IH]; intros buffer f o Hc Hp Hb Hl; cbn [read_loop].
  { case_decide; [by res_step|by intros r s']. }
  case_decide; [by res_step|]. intros r s'. cbn [fst snd]. unfold sys_read. destruct (env (calls o)) as [[]|m].
  - intros E. by destruct (IH buffer f (tick o) Hc Hp Hb Hl r s' E) as (? & ? & ?).
  - by intros [= <- <-].
  - rewrite Hc. destruct (take (m `min` (len - length buffer)) (drop (position f) c)) as [|x xs] eqn:Et; cbv iota; [by intros [= <- <-]|]. rewrite <-Et. set (bytes := take (m `min` (len - length buffer)) (drop (position f) c)) in *.
    assert (buffer ++ bytes = take (length (buffer ++ bytes)) c) as Hb'.
    { rewrite length_app, <-take_take_drop, <-Hb. f_equal. unfold bytes. by rewrite Hp, length_take, take_min. }
    intros E. destruct (IH (buffer ++ bytes) (advance (length bytes) f) (tick o) Hc) with (r := r) (s' := s') as (? & ? & ? & H3); try done.
    { cbn. rewrite length_app. lia. }
    { rewrite length_app. unfold bytes. rewrite length_take. lia. }
Qed.

Lemma read_post len c f o :
  files o !! filename_ f = Some c → position f = 0%nat →
  post (read len) (f, o) (λ r s', filename_ s'.1 = filename_ f ∧ same_files o s'.2 ∧ mem s'.2 = mem o ∧
    (error_code_ f ≠ EC.FILE_WRITE_FAIL → error_code_ s'.1 ≠ EC.FILE_WRITE_FAIL) ∧
    match r with inr b => b = take len c ∧ length b = len | inl e => True end).
Proof.
  intros Hc Hp. unfold read. case_decide; [by intros r s' [= <- <-]|]. res_step.
  eapply post_mono; [apply (read_loop_post _ len [] c); [done..|simpl; lia]|]. intros [e|b] s' (H1 & H2 & H3 & H4).
  - do 3 (split; [done|]). split; [|done]. by rewrite H4.
  - destruct H4 as (Hb & Hl & He). case_decide as Eb; [res_step|by intros r s'' [= <- <-]].
    do 3 (split; [done|]). rewrite He. split; [done|]. by rewrite <-Eb.
Qed.

Lemma read_reliable f o c :
  reliable (length c) → c ≠ [] → files o !! filename_ f = Some c → position f = 0%nat →
  read (length c) (f, o) = Some (inr c, (advance (length c) f, tick o)).
Proof.
  intros Hrel Hne Hc Hp. unfold read. rewrite decide_False by (by destruct c). unfold mbind, res_bind. cbn [read_loop length].
  rewrite decide_False by (destruct c; [done|simpl; lia]). cbn [fst snd]. unfold sys_read.
  destruct (Hrel (calls o)) as (m & -> & Hm). rewrite Hc, Hp, drop_0, Nat.sub_0_r, Nat.min_r, take_ge by lia.
  destruct c as [|x c]; [done|]. set (d := x :: c) in *. change ([] ++ d) with d.
  rewrite read_loop_full by done. by rewrite decide_True.
Qed.
End loops.

(** ** The loops end when the system makes progress *)

Section termination.
Context {P : Posix} (Hfair : fair).
Import PosixFile.

Lemma write_loop_ends i fuel data n s :
  progress (env (calls s.2 + i)) → (i + (length data - 1) * patience < fuel)%nat →
  ends (write_loop fuel data n) s (λ _ _, True).
Proof.
  revert i data n s. induction fuel as [|fuel IH]; intros i [|c data] n s Hp Hf; [by apply Nat.nlt_0_r in Hf..|by eexists _, _|].
  set (d := c :: data) in *. cbn [write_loop]. unfold d at 1. unfold sys_write.
  assert (∀ o, calls o = S (calls s.2) → i ≠ 0%nat → ends (write_loop fuel d n) (s.1, o) (λ _ _, True)) as Hstall.
  { intros o Ho Hi. apply (IH (i - 1)%nat); [|lia]. cbn. rewrite Ho.
    by replace (S (calls s.2) + (i - 1))%nat with (calls s.2 + i)%nat by lia. }
  destruct (env (calls s.2)) as [[]|m] eqn:Ee; unfold ends; cbv beta; rewrite Ee.
  - apply Hstall; [done|]. intros ->. by rewrite Nat.add_0_r, Ee in Hp.
  - by eexists _, _.
  - destruct (files s.2 !! filename_ s.1) as [w|]; [|by eexists _, _]. rewrite length_take.
    destruct (decide (m `min` length d = 0)%nat) as [E0|Hm].
    { rewrite E0, drop_0, Nat.add_0_r. destruct (Hstall (tick (set_files <[filename_ s.1 := overwrite (position s.1) (take m d) w]> s.2)))
        as (r & s' & E & _); [done| |].
      - intros ->. rewrite Nat.add_0_r, Ee in Hp. destruct m; [done|]. unfold d in E0. simpl in E0. lia.
      - exists r, s'. split; [|done]. rewrite <-E. destruct s as [f o]. unfold advance. cbn. by rewrite Nat.add_0_r; destruct f. }
    destruct (Hfair (S (calls s.2))) as (j & Hj & Hpj).
    destruct (decide (length d <= m `min` length d)%nat).
    { rewrite drop_ge, write_loop_nil by done. by eexists _, _. }
    apply (IH j); [done|]. rewrite length_drop. set (k := (m `min` length d)%nat) in *.
    assert ((length d - k - 1) * patience + patience <= (length d - 1) * patience)%nat; [|lia].
    replace (length d - 1)%nat with ((length d - k - 1) + 1 + (k - 1))%nat by lia. nia.
Qed.

Lemma read_loop_ends i fuel len b s :
  progress (env (calls s.2 + i)) → (i + (len - length b - 1) * patience < fuel)%nat →
  ends (read_loop fuel len b) s (λ _ _, True).
Proof.
  revert i b s. induction fuel as [|fuel IH]; intros i b s Hp Hf; [by apply Nat.nlt_0_r in Hf|]. cbn [read_loop].
  case_decide as Hle; [by eexists _, _|]. unfold ends, sys_read. cbv beta. destruct (env (calls s.2)) as [[]|m] eqn:Ee.
  - assert (i ≠ 0%nat) by (intros ->; by rewrite Nat.add_0_r, Ee in Hp). apply (IH (i - 1)%nat); [|lia]. cbn [snd].
    replace (calls (tick s.2) + (i - 1))%nat with (calls s.2 + i)%nat; [done|cbn; lia].
  - by eexists _, _.
  - destruct (files s.2 !! filename_ s.1) as [w|]; [|by eexists _, _].
    destruct (take (m `min` (len - length b)) (drop (position s.1) w)) as [|x xs]; [by eexists _, _|].
    destruct (Hfair (S (calls s.2))) as (j & Hj & Hpj). 
    destruct (decide (len <= length (b ++ x :: xs))%nat); [rewrite read_loop_full by done; by eexists _, _|].
    apply (IH j); [done|]. rewrite length_app in *. simpl length in *. set (k := length b) in *. set (l := length xs) in *.
    assert ((len - (k + S l) - 1) * patience + patience <= (len - k - 1) * patience)%nat; [|lia].
    replace (len - k - 1)%nat with ((len - (k + S l) - 1) + 1 + l)%nat by lia. nia.
Qed.

(** Reading and writing a file returns. *)
Lemma write_ends data s : ends (write data (length data)) s (λ _ _, True).
Proof.
  unfold write. case_decide; [by eexists _, _|]. rewrite decide_False by lia. rewrite take_ge by done. res_step.
  destruct (Hfair (calls s.2)) as (i & Hi & Hp). eapply ends_mono; [apply (write_loop_ends i); [done|nia]|].
  intros [e|m] s' _; [done|]. case_decide; by eexists _, _.
Qed.

Lemma read_ends len s : ends (read len) s (λ _ _, True).
Proof.
  unfold read. case_decide; [by eexists _, _|]. res_step.
  destruct (Hfair (calls s.2)) as (i & Hi & Hp). eapply ends_mono; [apply (read_loop_ends i); [done|simpl; nia]|].
  intros [e|m] s' _; [done|]. case_decide; by eexists _, _.
Qed.
End termination.

Section within.
Context {S T : Type} (get : S → T) (set : T → S → S).

Lemma post_within {A} (m : Res T A) s Q : post m (get s) (λ r t, Q r (set t s)) → post (within get set m) s Q.
Proof. intros H r s'. unfold within. destruct (m (get s)) as [[r1 t]|] eqn:E; [|done]. intros [= <- <-]. exact (H _ _ E). Qed.

Lemma ends_within {A} (m : Res T A) s Q : ends m (get s) (λ r t, Q r (set t s)) → ends (within get set m) s Q.
Proof. intros (r & t & E & H). exists r, (set t s). unfold within. by rewrite E. Qed.
End within.

Lemma destroy_only `{Posix} f o : only_file (PosixFile.filename_ f) o (PosixFile.destroy f o).
Proof.
  unfold PosixFile.destroy, unlink. case_decide; [|done]. destruct (env _); [done|]. do 2 (split; [done|]).
  intros q Hq. cbn. by rewrite lookup_delete_ne.
Qed.
