(* ===== verification/StorageBackend.v ===== *)
(** * StorageBackend: one file per object

    [StorageBackend] of storage_backend.cpp, as it is built without 3FS: objects are
    stored in files at the paths the master hands out and read back into slices, some of
    which the reader may skip. *)

From S2P Require Import Prelude Types StorePath PosixFiles.
From Stdlib Require Import Ascii.
Open Scope Z_scope.

(** A slice with a null pointer has [ptr = 0]. *)
Record Slice := mkSlice { ptr : Z; slice_size : Z }.
Definition slice_iov (s : Slice) : Z * Z := (ptr s, slice_size s).

Record StorageBackend := mkStorage { root_dir_ : chars; fsdir_ : chars }.

(** "moon_" *)
Definition moon_prefix : chars := ["m"; "o"; "o"; "n"; "_"]%char.

Definition Create (root_dir fsdir : chars) (o : OS) : option StorageBackend :=
  if negb (exists_ root_dir o) then None
  else if negb (is_directory root_dir o) then None
  else if decide (fsdir = []) then None
  else Some (mkStorage root_dir (moon_prefix ++ fsdir)).

Section storage.
Context {P : Posix}.

(** [StorageBackend::ResolvePath] *)
Definition make_parents (path : chars) : Res OS unit := λ o,
  let parent := parent_path path in
  Some (inr tt, if negb (bool_decide (parent = [])) && negb (exists_ parent o) then create_directories parent o else o).

Definition StoreObject (path : chars) (slices : list Slice) : Res OS unit :=
  make_parents path;;
  PosixFile.with_file path Write (
    let iovs := (λ s, iov_mem (ptr s) (slice_size s)) <$> slices in
    let slices_total_size := foldl (λ n s, i64 (n + slice_size s)) 0 slices in
    written ← PosixFile.vector_write iovs (i32 (Z.of_nat (length iovs))) 0;
    if negb (written =? u64 slices_total_size) then fail EC.FILE_WRITE_FAIL else mret tt).

(** The overloads for strings and spans. *)
Definition StoreObjectData (path data : chars) : Res OS unit :=
  make_parents path;;
  PosixFile.with_file path Write (
    written ← PosixFile.write data (length data);
    if negb (written =? length data)%nat then fail EC.FILE_WRITE_FAIL else mret tt).

(** The variables of [LoadObject]. *)
Record Loader := mkLoader {
  current_offset : Z;
  total_bytes_processed : Z;
  iovs_chunk : list (Z * Z);
  chunk_start_offset : Z;
  chunk_length : Z;
}.

Definition process_chunk (l : Loader) : Res PosixFile.State Loader :=
  match iovs_chunk l with
  | [] => mret l
  | iovs =>
      n ← PosixFile.vector_read iovs (i32 (Z.of_nat (length iovs))) (chunk_start_offset l);
      if negb (n =? u64 (chunk_length l)) then fail EC.FILE_READ_FAIL
      else mret (mkLoader (current_offset l) (i64 (total_bytes_processed l + chunk_length l)) [] (chunk_start_offset l) 0)
  end.

Definition load_slice (l : Loader) (s : Slice) : Res PosixFile.State Loader :=
  l ← (if negb (ptr s =? 0) then
         let start := if decide (iovs_chunk l = []) then current_offset l else chunk_start_offset l in
         mret (mkLoader (current_offset l) (total_bytes_processed l) (iovs_chunk l ++ [slice_iov s]) start
                 (i64 (chunk_length l + slice_size s)))
       else
         l ← process_chunk l;
         mret (mkLoader (current_offset l) (i64 (total_bytes_processed l + slice_size s)) (iovs_chunk l)
                 (chunk_start_offset l) (chunk_length l)));
  mret (mkLoader (i64 (current_offset l + slice_size s)) (total_bytes_processed l) (iovs_chunk l)
          (chunk_start_offset l) (chunk_length l)).

Fixpoint load_slices (l : Loader) (slices : list Slice) : Res PosixFile.State Loader :=
  match slices with
  | [] => mret l
  | s :: slices => l ← load_slice l s; load_slices l slices
  end.

Definition LoadObject (path : chars) (slices : list Slice) (length : Z) : Res OS unit :=
  make_parents path;;
  PosixFile.with_file path Read (
    l ← load_slices (mkLoader 0 0 [] 0 0) slices;
    l ← process_chunk l;
    if negb (total_bytes_processed l =? length) then fail EC.FILE_READ_FAIL else mret tt).

Definition LoadObjectData (path : chars) (len : nat) : Res OS chars :=
  make_parents path;;
  PosixFile.with_file path Read (
    str ← PosixFile.read len;
    if negb (length str =? len)%nat then fail EC.FILE_READ_FAIL else mret str).

Definition RemoveFile (path : chars) : Res OS unit := λ o,
  Some (inr tt, if exists_ path o then snd (remove path o) else o).

Fixpoint remove_paths (paths : list chars) (o : OS) : OS :=
  match paths with
  | [] => o
  | p :: paths => remove_paths paths (snd (remove p o))
  end.

(** The files a directory iterator visits are an argument: the paths below the directory,
    in some order; [matches] is the compiled pattern, if it compiles. *)
Definition StorageRemoveByRegex (b : StorageBackend) (matches : option (chars → bool)) (listing : list chars)
    : Res OS unit := λ o,
  Some (inr tt,
    match matches with
    | None => o
    | Some m =>
        if negb (is_directory (path_append (root_dir_ b) (fsdir_ b)) o) then o
        else remove_paths (filter (λ p, is_Some (files o !! p) ∧ m (filename p) = true) listing) o
    end).

(** [directory_iterator] lists the entries of the directory itself, and throws where there
    is no directory; nothing here catches it. *)
Definition StorageRemoveAll (b : StorageBackend) (listing : list chars) : Res OS unit := λ o,
  if is_directory (root_dir_ b) o
  then Some (inr tt, remove_paths (filter (λ p, is_Some (files o !! p)) listing) o) else None.
End storage.
