(* ===== verification/StorageCorrect.v ===== *)
(** * StorageCorrect: objects come back from their files

    What [StoreObject] and [LoadObject] of StorageBackend do: a load that succeeds has
    filled every slice that is not skipped with the bytes of the file at its place, and on
    a reliable system a stored object is loaded back.  [RemoveAll] does not reach the files
    of objects. *)

From S2P Require Import Prelude Types StorePath PosixFiles PosixSpec StorageBackend.
From Stdlib Require Import Ascii.
Open Scope Z_scope.

Definition stotal (slices : list Slice) : Z := zsum (slice_size <$> slices).

Lemma stotal_app l1 l2 : stotal (l1 ++ l2) = stotal l1 + stotal l2.
Proof. unfold stotal. by rewrite fmap_app, zsum_app. Qed.
Lemma stotal_cons s l : stotal (s :: l) = slice_size s + stotal l.
Proof. done. Qed.
Lemma stotal_iov run : iov_total (slice_iov <$> run) = stotal run.
Proof. unfold iov_total, stotal. by rewrite <-list_fmap_compose. Qed.

(** Slices as a client passes them: the buffers do not overlap, and the total is a file
    size. *)
Record slices_ok (slices : list Slice) : Prop := {
  so_size : Forall (λ s, 0 <= slice_size s) slices;
  so_total : stotal slices < 2 ^ 63;
  so_count : Z.of_nat (length slices) < 2 ^ 31;
  so_apart : ∀ i j s t, i ≠ j → slices !! i = Some s → slices !! j = Some t →
    ptr s ≠ 0 → ptr t ≠ 0 → apart (slice_iov s) (slice_iov t);
}.

(** The slices that are not skipped hold the bytes of the file at their place. *)
Definition loaded (c : chars) (m : gmap Z ascii) (slices : list Slice) : Prop :=
  ∀ i s, slices !! i = Some s → ptr s ≠ 0 →
    fetch m (ptr s) (slice_size s) = Some (piece c (stotal (take i slices)) (slice_size s)).

Lemma stotal_nonneg slices : Forall (λ s, 0 <= slice_size s) slices → 0 <= stotal slices.
Proof. induction 1; [done|]. rewrite stotal_cons. lia. Qed.

Section load.
Context {P : Posix} (c : chars) (slices : list Slice) (Hok : slices_ok slices).

(** The loader when [pre] has been visited: all but the last [run] of buffers is read. *)
Definition loading (pre run : list Slice) (l : Loader) (m : gmap Z ascii) : Prop :=
  Forall (λ s, ptr s ≠ 0) run ∧ iovs_chunk l = slice_iov <$> run ∧ (run ≠ [] → chunk_start_offset l = stotal pre) ∧
  chunk_length l = stotal run ∧ total_bytes_processed l = stotal pre ∧ loaded c m pre.

Lemma loaded_app m pre s :
  loaded c m pre → (ptr s ≠ 0 → fetch m (ptr s) (slice_size s) = Some (piece c (stotal pre) (slice_size s))) →
  loaded c m (pre ++ [s]).
Proof.
  intros H Hs i t Hi Ht. apply lookup_app_Some in Hi as [Hi|[Hle Hi]].
  - rewrite take_app_le by (apply lookup_lt_Some in Hi; lia). by apply H.
  - destruct (i - length pre)%nat eqn:E; [|done]. injection Hi as <-. rewrite take_app_ge by lia.
    rewrite E. simpl. rewrite app_nil_r. by apply Hs.
Qed.

Lemma part_ok pre run rest : slices = pre ++ run ++ rest →
  0 <= stotal pre ∧ 0 <= stotal run ∧ stotal pre + stotal run < 2 ^ 63 ∧ Z.of_nat (length run) < 2 ^ 31.
Proof.
  intros E. destruct Hok as [Hs Ht Hc _]. rewrite E in Hs, Ht, Hc. rewrite !stotal_app in Ht. rewrite !length_app in Hc.
  apply Forall_app in Hs as [H1 [H2 H3]%Forall_app].
  pose proof (stotal_nonneg _ H1). pose proof (stotal_nonneg _ H2). pose proof (stotal_nonneg _ H3). lia.
Qed.

Lemma run_sizes pre run rest : slices = pre ++ run ++ rest → Forall (λ s, 0 <= slice_size s) run.
Proof. intros E. pose proof (so_size _ Hok) as Hs. rewrite E in Hs. by apply Forall_app in Hs as [_ [Hs _]%Forall_app]. Qed.

Lemma run_spread pre run rest : slices = pre ++ run ++ rest → Forall (λ s, ptr s ≠ 0) run → spread (slice_iov <$> run).
Proof.
  intros E Hrun. destruct Hok as [_ _ _ Ha]. split.
  - apply Forall_fmap. exact (run_sizes _ _ _ E).
  - intros i j v w Hij Hi Hj. apply list_lookup_fmap_Some in Hi as (s & -> & Hi), Hj as (t & -> & Hj).
    apply (Ha (length pre + i)%nat (length pre + j)%nat s t); [lia| | |by eapply Forall_lookup_1 in Hrun..].
    + rewrite E, lookup_app_r, lookup_app_l by (pose proof (lookup_lt_Some _ _ _ Hi); lia). by rewrite Nat.add_sub_swap, Nat.sub_diag.
    + rewrite E, lookup_app_r, lookup_app_l by (pose proof (lookup_lt_Some _ _ _ Hj); lia). by rewrite Nat.add_sub_swap, Nat.sub_diag.
Qed.

(** Reading the run leaves what has been read before. *)
Lemma loaded_scatter pre run rest m :
  slices = pre ++ run ++ rest → Forall (λ s, ptr s ≠ 0) run → loaded c m pre →
  (0 < stotal run → stotal pre + stotal run <= Z.of_nat (length c)) →
  loaded c (scatter (slice_iov <$> run) (piece c (stotal pre) (stotal run)) m) (pre ++ run).
Proof.
  intros E Hrun Hl Hlen i s Hi Hs. destruct (part_ok _ _ _ E) as (H1 & H2 & H3 & _).
  pose proof (run_spread _ _ _ E Hrun) as HS. apply lookup_app_Some in Hi as [Hi|[Hle Hi]].
  - rewrite take_app_le by (apply lookup_lt_Some in Hi; lia). rewrite scatter_apart; [by apply Hl|].
    apply Forall_fmap, Forall_lookup. intros j t Hj. split.
    { exact (Forall_lookup_1 _ _ _ _ (run_sizes _ _ _ E) Hj). }
    apply (so_apart _ Hok i (length pre + j)%nat s t); [apply lookup_lt_Some in Hi; lia| | |done|by eapply Forall_lookup_1 in Hrun].
    + rewrite E. by apply lookup_app_l_Some.
    + rewrite E, lookup_app_r, lookup_app_l by (pose proof (lookup_lt_Some _ _ _ Hj); lia). by rewrite Nat.add_sub_swap, Nat.sub_diag.
  - set (j := (i - length pre)%nat) in *. rewrite take_app_ge by lia. fold j. rewrite stotal_app.
    assert ((slice_iov <$> run) !! j = Some (slice_iov s)) as Hv by (by rewrite list_lookup_fmap, Hi).
    assert (0 <= slice_size s ∧ 0 <= stotal (take j run) ∧ stotal (take j run) + slice_size s <= stotal run) as (G1 & G2 & G3).
    { pose proof (run_sizes _ _ _ E) as HF. split; [exact (Forall_lookup_1 _ _ _ _ HF Hi)|].
      rewrite <-(take_drop_middle _ _ _ Hi) in HF. apply Forall_app in HF as [F1 [F2 F3]%Forall_cons].
      pose proof (f_equal stotal (take_drop_middle _ _ _ Hi)) as HT. rewrite stotal_app, stotal_cons in HT.
      pose proof (stotal_nonneg _ F1). pose proof (stotal_nonneg _ F3). lia. }
    destruct (decide (stotal run = 0)) as [Ez|].
    { assert (slice_size s = 0) as -> by lia. unfold piece. rewrite fetch_0 by lia. by rewrite take_0. }
    pose proof (scatter_fetch (slice_iov <$> run) (piece c (stotal pre) (stotal run)) m j (slice_iov s) HS) as HF.
    rewrite stotal_iov in HF. specialize (HF ltac:(rewrite piece_length; lia) Hv). simpl in HF. rewrite HF.
    rewrite <-fmap_take, stotal_iov. f_equal. apply piece_piece; lia.
Qed.

(** Only memory has changed, and closing the file will not delete it. *)
Definition reading (s s' : PosixFile.State) : Prop :=
  PosixFile.filename_ s'.1 = PosixFile.filename_ s.1 ∧ PosixFile.error_code_ s'.1 ≠ EC.FILE_WRITE_FAIL ∧ same_files s.2 s'.2.

Lemma reading_content s s' : reading s s' → content s'.1 s'.2 = content s.1 s.2.
Proof. intros (E & _ & [Ef _]). unfold content. by rewrite E, Ef. Qed.

Lemma reading_trans s1 s2 s3 : reading s1 s2 → reading s2 s3 → reading s1 s3.
Proof. intros (E1 & _ & S1) (E2 & H & S2). split; [congruence|]. split; [done|]. by etrans. Qed.

Lemma process_chunk_post pre run rest l s :
  slices = pre ++ run ++ rest → content s.1 s.2 = c → PosixFile.error_code_ s.1 ≠ EC.FILE_WRITE_FAIL →
  loading pre run l (mem s.2) →
  post (process_chunk l) s (λ r s', reading s s' ∧
    ∀ l', r = inr l' → loading (pre ++ run) [] l' (mem s'.2) ∧ current_offset l' = current_offset l).
Proof.
  intros E Hc Herr (Hrun & Hio & Hst & Hlen & Htot & Hl). destruct s as [f o]. cbn [fst snd] in *.
  destruct (part_ok _ _ _ E) as (H1 & H2 & H3 & H4). unfold process_chunk. rewrite Hio.
  destruct run as [|s0 run].
  { simpl. res_step. split; [done|]. intros l' [= <-]. rewrite app_nil_r. by repeat split. }
  set (full := s0 :: run) in *. change (slice_iov <$> full) with (slice_iov s0 :: (slice_iov <$> run)) at 1.
  cbv iota. change (slice_iov s0 :: (slice_iov <$> run)) with (slice_iov <$> full). res_step.
  apply vector_read_post.
  - by rewrite length_fmap.
  - apply Forall_fmap. exact (run_sizes _ _ _ E).
  - intros o' Hs Hm. split; [done|]. intros l' [=].
  - intros n o' Hoff Hs _ Hn. rewrite Hlen, u64_small by (unfold is_u64; lia).
    destruct (n =? stotal full) eqn:En; cbn [negb]; res_step; (split; [done|]); intros l' El; [|done].
    injection El as <-. apply Z.eqb_eq in En. rewrite stotal_iov in Hn. destruct (Hn En) as [Hm Hle].
    rewrite Hst in Hle, Hm by done. split; [|done]. split; [constructor|]. do 2 (split; [done|]). split; [done|]. split.
    + cbn [total_bytes_processed]. rewrite Htot, stotal_app, i64_small; lia.
    + cbn [snd]. rewrite Hm, Hc. apply (loaded_scatter _ _ _ _ E); [done..|]. rewrite <-Hc. lia.
Qed.

Lemma load_slice_post pre run rest s0 l s :
  slices = pre ++ run ++ s0 :: rest → content s.1 s.2 = c → PosixFile.error_code_ s.1 ≠ EC.FILE_WRITE_FAIL →
  loading pre run l (mem s.2) → current_offset l = stotal (pre ++ run) →
  post (load_slice l s0) s (λ r s', reading s s' ∧ ∀ l', r = inr l' →
    current_offset l' = stotal (pre ++ run ++ [s0]) ∧
    ∃ pre' run', pre ++ run ++ [s0] = pre' ++ run' ∧ loading pre' run' l' (mem s'.2)).
Proof.
  intros E Hc Herr HL Hcur. unfold load_slice.
  destruct (part_ok pre (run ++ [s0]) rest) as (H1 & H2 & H3 & _); [by rewrite <-app_assoc|].
  destruct (part_ok _ _ _ E) as (_ & H2' & _). rewrite stotal_app in *. rewrite stotal_cons in *. change (stotal []) with 0 in *.
  assert (0 <= slice_size s0) as H0.
  { pose proof (run_sizes (pre ++ run) [s0] rest ltac:(by rewrite <-app_assoc)) as HF. by apply Forall_cons in HF as [? _]. }
  res_step. destruct (ptr s0 =? 0) eqn:Ep; cbn [negb].
  - res_step. eapply post_mono; [apply (process_chunk_post _ _ _ _ _ E Hc Herr HL)|]. intros [e|l1] s1 [HR H]; [by split|].
    destruct (H l1 eq_refl) as [(_ & Hio & Hst & Hlen & Htot & Hl) Hcur1]. res_step. res_step. split; [done|].
    intros l' [= <-]. cbn. split; [rewrite !stotal_app, !stotal_cons, Hcur1, Hcur, i64_small; change (stotal []) with 0; lia|].
    exists (pre ++ run ++ [s0]), []. rewrite app_nil_r. split; [done|]. split; [constructor|]. cbn. do 3 (split; [done|]).
    split; [rewrite Htot, !stotal_app, !stotal_cons, i64_small; change (stotal []) with 0; lia|].
    rewrite app_assoc. apply loaded_app; [done|]. intros []. by apply Z.eqb_eq.
  - destruct HL as (Hrun & Hio & Hst & Hlen & Htot & Hl). res_step. res_step. split; [by destruct s|].
    intros l' [= <-]. cbn. split; [rewrite !stotal_app, !stotal_cons, Hcur, i64_small; change (stotal []) with 0; lia|].
    exists pre, (run ++ [s0]). split; [done|]. apply Z.eqb_neq in Ep. split; [by apply Forall_app; split; [|constructor]|].
    cbn. split; [by rewrite fmap_app, Hio|]. split.
    { intros _. rewrite Hio. destruct run; [rewrite decide_True, Hcur by done; change (stotal []) with 0; lia|].
      rewrite decide_False by done. by apply Hst. }
    split; [rewrite stotal_app, stotal_cons, Hlen, i64_small; change (stotal []) with 0; lia|done].
Qed.

Lemma load_slices_post rest pre run l s :
  slices = pre ++ run ++ rest → content s.1 s.2 = c → PosixFile.error_code_ s.1 ≠ EC.FILE_WRITE_FAIL →
  loading pre run l (mem s.2) → current_offset l = stotal (pre ++ run) →
  post (load_slices l rest) s (λ r s', reading s s' ∧ ∀ l', r = inr l' →
    ∃ pre' run', slices = pre' ++ run' ∧ loading pre' run' l' (mem s'.2)).
Proof.
  revert pre run l s. induction rest as [|s0 rest IH]; intros pre run l s E Hc Herr HL Hcur.
  { cbn [load_slices]. res_step. split; [by destruct s|]. intros l' [= <-]. exists pre, run. by rewrite E, app_nil_r. }
  cbn [load_slices]. res_step. eapply post_mono; [by eapply load_slice_post|].
  intros [e|l1] s1 [HR H]; [by split|]. destruct (H l1 eq_refl) as (Hcur1 & pre' & run' & E' & HL').
  eapply post_mono; [apply (IH pre' run')|].
  - rewrite E, (app_assoc pre'), <-E'. by rewrite <-!app_assoc.
  - by rewrite (reading_content _ _ HR).
  - apply HR.
  - done.
  - by rewrite Hcur1, E'.
  - intros r s2 [HR2 H2]. split; [by eapply reading_trans|done].
Qed.

(** Where a read cannot fail. *)
Definition loadable (m : gmap Z ascii) : Prop :=
  ∀ s, s ∈ slices → ptr s ≠ 0 → is_Some (fetch m (ptr s) (slice_size s)).

Context (Hrel : reliable (Z.to_nat (stotal slices))) (Hmax : Z.of_nat (length slices) <= IOV_MAX)
  (Hfit : stotal slices <= Z.of_nat (length c)).

Lemma loadable_scatter iov data m : loadable m → loadable (scatter iov data m).
Proof.
  intros H s Hs Hp. apply fetch_Some_iff. intros a Ha. apply scatter_is_Some.
  by apply (proj1 (fetch_Some_iff _ _ _) (H s Hs Hp)).
Qed.

Lemma process_chunk_ends pre run rest l f o :
  slices = pre ++ run ++ rest → files o !! PosixFile.filename_ f = Some c → loading pre run l (mem o) → loadable (mem o) →
  ends (process_chunk l) (f, o) (λ r s', is_Some (match r with inr l' => Some l' | inl _ => None end) ∧ loadable (mem s'.2)).
Proof.
  intros E Hc (Hrun & Hio & Hst & Hlen & Htot & Hl) Hm. destruct (part_ok _ _ _ E) as (H1 & H2 & H3 & H4).
  assert (stotal run <= stotal slices ∧ stotal pre + stotal run <= stotal slices ∧ (length run <= length slices)%nat) as (G1 & G2 & G3).
  { rewrite E, !stotal_app, !length_app.
    pose proof (so_size _ Hok) as HF. rewrite E in HF. apply Forall_app in HF as [_ [_ HF]%Forall_app].
    pose proof (stotal_nonneg _ HF). lia. }
  unfold process_chunk. rewrite Hio. destruct run as [|s0 run]; [simpl; res_step; by split|].
  set (full := s0 :: run) in *. change (slice_iov <$> full) with (slice_iov s0 :: (slice_iov <$> run)) at 1.
  cbv iota. change (slice_iov s0 :: (slice_iov <$> run)) with (slice_iov <$> full). res_step.
  eexists _, _. split; [apply (vector_read_reliable (slice_iov <$> full) _ f o c)|].
  - rewrite stotal_iov. eapply reliable_mono; [|exact Hrel]. lia.
  - done.
  - apply Forall_fmap. exact (run_sizes _ _ _ E).
  - rewrite length_fmap. lia.
  - rewrite Hst by done. lia.
  - rewrite stotal_iov. lia.
  - apply forallb_forall. intros v Hv. apply list_elem_of_In, list_elem_of_fmap in Hv as (s & -> & Hs).
    apply bool_decide_eq_true_2, Hm; [rewrite E, !elem_of_app; auto|by eapply Forall_forall in Hrun].
  - rewrite stotal_iov, Hst by done. lia.
  - cbv iota. rewrite stotal_iov, Hlen, u64_small, Z.eqb_refl by (unfold is_u64; lia). cbn [negb]. res_step.
    split; [done|]. by apply loadable_scatter.
Qed.

Lemma load_slices_ends rest pre run l s :
  slices = pre ++ run ++ rest → files s.2 !! PosixFile.filename_ s.1 = Some c → PosixFile.error_code_ s.1 ≠ EC.FILE_WRITE_FAIL →
  loading pre run l (mem s.2) → current_offset l = stotal (pre ++ run) → loadable (mem s.2) →
  ends (load_slices l rest) s (λ r s', is_Some (match r with inr l' => Some l' | inl _ => None end) ∧ loadable (mem s'.2)).
Proof.
  revert pre run l s. induction rest as [|s0 rest IH]; intros pre run l s E Hc Herr HL Hcur Hm;
    [cbn [load_slices]; res_step; by split|].
  assert (content s.1 s.2 = c) as Hc' by (unfold content; by rewrite Hc).
  cbn [load_slices]. res_step. eapply ends_mono; [eapply ends_post; [|by eapply load_slice_post]|].
  - instantiate (1 := λ r s', is_Some (match r with inr l' => Some l' | inl _ => None end) ∧ loadable (mem s'.2)).
    unfold load_slice. res_step. destruct (negb _); [res_step; by res_step|]. res_step. destruct s as [f o].
    eapply ends_mono; [by eapply process_chunk_ends|]. intros [e|l1] s1 [Hi ?]; [by destruct Hi|]. res_step. by res_step.
  - intros [e|l1] s1 [[Hi Hm1] [HR H]]; [by destruct Hi|]. destruct (H l1 eq_refl) as (Hcur1 & pre' & run' & E' & HL').
    apply (IH pre' run'); [|destruct HR as (-> & _ & [-> _]); done|apply HR|done|by rewrite Hcur1, E'|done].
    rewrite E, (app_assoc pre'), <-E'. by rewrite <-!app_assoc.
Qed.
End load.

Section storage.
Context {P : Posix}.

(** What [ResolvePath] changes, if anything, is the set of directories. *)
Lemma make_parents_files path o : ∃ o', make_parents path o = Some (inr tt, o') ∧ files o' = files o ∧ mem o' = mem o ∧ dirs o ⊆ dirs o'.
Proof.
  eexists. split; [done|]. destruct (negb _ && _); [|done]. unfold create_directories.
  destruct (env (calls o)); [done|]. destruct (forallb _ _); [|done]. do 2 (split; [done|]). simpl. set_solver.
Qed.

Lemma reading_closed s s' : reading s s' → files (PosixFile.destroy s'.1 s'.2) = files s.2 ∧ mem (PosixFile.destroy s'.1 s'.2) = mem s'.2.
Proof. intros (_ & Herr & [Hf _]). rewrite destroy_ok by done. by split. Qed.

Lemma loading_nil c m : loading c [] [] (mkLoader 0 0 [] 0 0) m.
Proof. split; [constructor|]. do 4 (split; [done|]). by intros []. Qed.

(** Whatever the system does: a load that reports success has read the bytes of the file. *)
Lemma LoadObject_post path slices len o :
  slices_ok slices →
  post (LoadObject path slices len) o (λ r o', files o' = files o ∧
    (r = inr tt → stotal slices = len ∧ loaded (default [] (files o !! path)) (mem o') slices)).
Proof.
  intros Hok. unfold LoadObject. res_step. destruct (make_parents_files path o) as (o0 & E & Ef & Em & _).
  intros r s'. rewrite E. intros [= <- <-]. apply with_file_read_post; [by intros o' [-> _] _|].
  intros o' [Hf Hd] Hm _. res_step. set (st := (PosixFile.mk path 0 EC.OK, o')).
  set (c := default [] (files o !! path)).
  assert (content st.1 st.2 = c) as Hc by (unfold content; cbn; by rewrite Hf, Ef).
  eapply post_mono; [apply (load_slices_post c slices Hok slices [] [] _ st); [done..|apply loading_nil|done]|].
  intros [e|l] s1 [HR H]; [split; [by rewrite (proj1 (reading_closed _ _ HR)), <-Ef|done]|].
  destruct (H l eq_refl) as (pre & run & E' & HL). res_step.
  eapply post_mono; [apply (process_chunk_post c slices Hok pre run []); [by rewrite app_nil_r|by rewrite (reading_content _ _ HR)|apply HR|done]|].
  intros r2 s2 [HR2 H2]. pose proof (reading_trans _ _ _ HR HR2) as HR3.
  destruct (reading_closed _ _ HR3) as [Hfin Hmem].
  assert (files (PosixFile.destroy s2.1 s2.2) = files o) as Hfin' by (rewrite Hfin; cbn; by rewrite Hf).
  destruct r2 as [e|l2]; [by split|]. destruct (H2 l2 eq_refl) as [(_ & _ & _ & _ & Ht & Hl) _].
  destruct (total_bytes_processed l2 =? len) eqn:Et; cbn [negb]; res_step; (split; [done|]); [|done].
  intros _. apply Z.eqb_eq in Et. rewrite <-E' in Ht, Hl. split; [lia|]. by rewrite Hmem.
Qed.

Lemma LoadObject_ends path slices o c :
  slices_ok slices → reliable (Z.to_nat (stotal slices)) → Z.of_nat (length slices) <= IOV_MAX →
  files o !! path = Some c → stotal slices <= Z.of_nat (length c) → loadable slices (mem o) →
  ends (LoadObject path slices (stotal slices)) o (λ r o', r = inr tt).
Proof.
  intros Hok Hrel Hmax Hc Hfit Hm. unfold LoadObject. res_step. destruct (make_parents_files path o) as (o0 & E & Ef & Em & _).
  exists (inr tt), o0. split; [done|]. assert (reliable 0) as Hrel0 by (eapply reliable_mono; [|done]; lia).
  apply with_file_read_ends; [done|by rewrite Ef, Hc|].
  res_step. set (st := (PosixFile.mk path 0 EC.OK, tick o0)).
  assert (content st.1 st.2 = c) as Hc' by (unfold content; cbn; by rewrite Ef, Hc).
  eapply ends_mono; [eapply ends_post;
    [apply (load_slices_ends c slices Hok Hrel Hmax Hfit slices [] [] _ st); [done|cbn; by rewrite Ef|done|apply loading_nil|done|by cbn; rewrite Em]
    |apply (load_slices_post c slices Hok slices [] [] _ st); [done..|apply loading_nil|done]]|].
  intros [e|l] s1 [[Hi Hm1] [HR H]]; [by destruct Hi|]. destruct (H l eq_refl) as (pre & run & E' & HL).
  assert (files s1.2 !! PosixFile.filename_ s1.1 = Some c) as Hc1 by (destruct HR as (-> & _ & [-> _]); cbn; by rewrite Ef).
  res_step. destruct s1 as [f1 o1]. cbn [fst snd] in *.
  eapply ends_mono; [eapply ends_post;
    [apply (process_chunk_ends c slices Hok Hrel Hmax Hfit pre run []); [by rewrite app_nil_r|done..]
    |apply (process_chunk_post c slices Hok pre run []); [by rewrite app_nil_r|by rewrite (reading_content _ _ HR)|apply HR|done]]|].
  intros [e|l2] s2 [[Hi2 _] [_ H2]]; [by destruct Hi2|]. destruct (H2 l2 eq_refl) as [(_ & _ & _ & _ & Ht & _) _].
  rewrite <-E' in Ht. rewrite Ht, Z.eqb_refl. cbn [negb]. by res_step.
Qed.

(** A path at which [StoreObject] can create a file: no directory has its name and no
    directory on the way is a regular file. *)
Record path_ok (path : chars) (o : OS) : Prop := {
  po_name : has_filename path = true;
  po_dir : path ∉ dirs o;
  po_parents : ∀ d, d ∈ ancestors (length (parent_path path)) (parent_path path) → files o !! d = None;
}.

Lemma make_parents_creatable path o o' :
  reliable 0 → path_ok path o → make_parents path o = Some (inr tt, o') → creatable path o'.
Proof.
  intros Hrel [Hn Hd Hp] [= <-]. split; [done|]. set (parent := parent_path path) in *.
  destruct (decide (parent = [])) as [->|Hne]; [by split; [|left]|].
  assert (parent ∈ ancestors (length parent) parent) as Hin.
  { destruct parent as [|c parent]; [done|]. cbn [length ancestors]. rewrite decide_False by done. case_decide; left. }
  rewrite bool_decide_eq_false_2 by done. cbn [negb andb]. unfold exists_, is_directory.
  unfold parent. rewrite dir_name_parent. fold parent. destruct (_ || _) eqn:E; cbn [negb].
  - split; [done|]. right. apply orb_true_iff in E as [E|E]; apply bool_decide_eq_true in E; [|done].
    rewrite Hp in E by done. by destruct E.
  - unfold create_directories. destruct (Hrel (calls o)) as (m & -> & _).
    destruct (forallb _ _) eqn:Ef.
    + cbn. split; [|right; set_solver]. intros [Ha|]%elem_of_union; [|done]. apply elem_of_list_to_set, ancestors_length in Ha.
      pose proof (parent_path_shorter _ Hn). fold parent in H. lia.
    + exfalso. apply not_true_iff_false in Ef. apply Ef, forallb_forall. intros d Hin'%list_elem_of_In.
      rewrite Hp by done. done.
Qed.

Definition source_iov (slices : list Slice) : list iovec := (λ s, iov_mem (ptr s) (slice_size s)) <$> slices.

Lemma gather_length m slices data :
  Forall (λ s, 0 <= slice_size s) slices → gather m (source_iov slices) = Some data → Z.of_nat (length data) = stotal slices.
Proof.
  unfold gather, source_iov. intros HF Hg. apply fmap_Some in Hg as (parts & Hg & ->). revert parts Hg.
  induction HF as [|s slices Hs HF IH]; intros parts Hg; simpl in Hg; [by injection Hg as <-|].
  destruct (fetch m _ _) as [d|] eqn:Ed; [|done]. simpl in Hg. destruct (mapM _ _) as [ds|] eqn:Eds; [|done]. simpl in Hg.
  injection Hg as <-. simpl. rewrite length_app, stotal_cons, Nat2Z.inj_add, (IH _ eq_refl), (fetch_length _ _ _ _ Ed). lia.
Qed.

Lemma sum_sizes slices n :
  Forall (λ s, 0 <= slice_size s) slices → 0 <= n → n + stotal slices < 2 ^ 63 →
  foldl (λ n s, i64 (n + slice_size s)) n slices = n + stotal slices.
Proof.
  intros HF. revert n. induction HF as [|s slices Hs HF IH]; intros n Hn Hlt; [change (stotal []) with 0; simpl; lia|].
  rewrite stotal_cons in Hlt. pose proof (stotal_nonneg _ HF). simpl. rewrite i64_small by lia. rewrite IH, stotal_cons by lia. lia.
Qed.

Lemma StoreObject_ends path slices data o :
  reliable (length data) → path_ok path o → Forall (λ s, 0 <= slice_size s) slices → stotal slices < 2 ^ 63 →
  Z.of_nat (length slices) <= IOV_MAX → gather (mem o) (source_iov slices) = Some data →
  ends (StoreObject path slices) o (λ r o', r = inr tt ∧ files o' = <[path := data]> (files o) ∧ mem o' = mem o).
Proof.
  intros Hrel Hpath HF Htot Hmax Hg. unfold StoreObject. res_step.
  assert (reliable 0) as Hrel0 by (eapply reliable_mono; [|done]; lia).
  destruct (make_parents_files path o) as (o0 & E & Ef & Em & _). exists (inr tt), o0. split; [done|].
  pose proof (gather_length _ _ _ HF Hg) as Hlen.
  apply with_file_write_ends; [done|by eapply make_parents_creatable|]. cbv zeta. fold (source_iov slices). res_step.
  eexists _, _. split; [apply (vector_write_reliable _ _ _ data)|].
  - done.
  - cbn. by rewrite lookup_insert_eq.
  - cbn. by rewrite Em.
  - unfold source_iov. by rewrite length_fmap.
  - lia.
  - cbv iota. rewrite sum_sizes by (done || lia). rewrite u64_small by (unfold is_u64; pose proof (stotal_nonneg _ HF); lia).
    rewrite Hlen, Z.add_0_l, Z.eqb_refl. cbn [negb]. res_step. split; [done|]. rewrite destroy_ok by done. cbn.
    by rewrite insert_insert_eq, Ef, Em.
Qed.

(** C21: Objects come back from their files.  On a system whose calls succeed, [StoreObject]
    succeeds, and from then on, as long as the file is left alone, [LoadObject] into any
    slices of the same total size succeeds and gives every slice that is not skipped the
    bytes at its place, however source and target are cut. *)
Theorem storage_roundtrip path src data o :
  reliable (length data) → path_ok path o → Forall (λ s, 0 <= slice_size s) src → stotal src < 2 ^ 63 →
  Z.of_nat (length src) <= IOV_MAX → gather (mem o) (source_iov src) = Some data →
  ∃ o1, StoreObject path src o = Some (inr tt, o1) ∧ files o1 = <[path := data]> (files o) ∧ mem o1 = mem o ∧
    ∀ dst o2, files o2 !! path = files o1 !! path → slices_ok dst → stotal dst = stotal src →
      Z.of_nat (length dst) <= IOV_MAX → loadable dst (mem o2) →
      ∃ o3, LoadObject path dst (stotal src) o2 = Some (inr tt, o3) ∧ loaded data (mem o3) dst ∧ files o3 = files o2.
Proof.
  intros Hrel Hpath HF Htot Hmax Hg. pose proof (gather_length _ _ _ HF Hg) as Hlen.
  destruct (StoreObject_ends path src data o) as (r & o1 & Es & -> & Ef & Em); [done..|].
  exists o1. do 3 (split; [done|]). intros dst o2 E2 Hok Edst Hmax2 Hload. rewrite Ef, lookup_insert_eq in E2.
  assert (reliable (Z.to_nat (stotal dst))) as Hrel' by (eapply reliable_mono; [|exact Hrel]; lia).
  rewrite <-Edst. destruct (LoadObject_ends path dst o2 data) as (r & o3 & El & ->); [done..|lia|done|].
  exists o3. split; [done|]. destruct (LoadObject_post path dst (stotal dst) o2 Hok _ _ El) as [Ef3 H].
  destruct (H eq_refl) as [_ HL]. by rewrite E2 in HL.
Qed.

(** A load that reports success has filled every slice that is not skipped with the
    bytes of the file at its place, whatever calls failed or were cut short before. *)
Theorem load_object_exact path slices len o o' :
  slices_ok slices → LoadObject path slices len o = Some (inr tt, o') →
  stotal slices = len ∧ loaded (default [] (files o !! path)) (mem o') slices.
Proof. intros Hok E. by apply (LoadObject_post path slices len o Hok _ _ E). Qed.

(** ** RemoveAll *)

Lemma remove_paths_other paths o p : p ∉ paths → files (remove_paths paths o) !! p = files o !! p.
Proof.
  revert o. induction paths as [|q paths IH]; intros o Hp; [done|]. apply not_elem_of_cons in Hp as [Hq Hp].
  simpl. rewrite IH by done. unfold remove. destruct (env (calls o)); [done|]. cbn. by rewrite lookup_delete_ne.
Qed.

Lemma join_plain_inj xs ys : xs ≠ [] → ys ≠ [] → Forall plain xs → Forall plain ys → join_slash xs = join_slash ys → xs = ys.
Proof.
  intros Hx Hy Fx Fy E. rewrite <-(split_join xs), <-(split_join ys), E; [done|done| |done|];
    (eapply Forall_impl; [eassumption|]); by intros x (_ & _ & _ & ?).
Qed.

(** [RemoveAll] deletes no object: it lists only the entries of the root directory
    itself, and the files of objects lie three directories deeper. *)
Theorem remove_all_keeps_objects hash root cluster key b listing o o' :
  root ≠ [] → Forall plain root → plain cluster → key ∉ [[]; dot; dotdot] → root_dir_ b = slash :: join_slash root →
  (∀ p, p ∈ listing → ∃ name, plain name ∧ p = slash :: join_slash (root ++ [name])) →
  StorageRemoveAll b listing o = Some (inr tt, o') →
  files o' !! ResolvePath hash (root_dir_ b) cluster key = files o !! ResolvePath hash (root_dir_ b) cluster key.
Proof.
  intros Hne HF Hc Hk Hb Hl E. unfold StorageRemoveAll in E. destruct (is_directory _ _); [|done]. injection E as <-.
  apply remove_paths_other. intros [_ Hin]%list_elem_of_filter. destruct (Hl _ Hin) as (name & Hn & Ep).
  rewrite Hb, resolve_plain in Ep by done. injection Ep as Ep.
  apply join_plain_inj in Ep; [|by destruct root|by destruct root|apply Forall_app; split; [done|]|apply Forall_app; split; [done|by constructor]].
  - apply (f_equal length) in Ep. rewrite !length_app in Ep. simpl in Ep. lia.
  - repeat constructor; try done; try apply Hc; try apply hash_dir_plain; by apply sanitize_plain.
Qed.
End storage.

(** ** A concrete run *)

Definition calm : Posix := {| env := λ _, Upto 100; patience := 1 |}.

Lemma calm_reliable n : (n <= 100)%nat → @reliable calm n.
Proof. intros Hn k. by exists 100%nat. Qed.

Definition demo_text (s : string) : list ascii := String.list_ascii_of_string s.
Definition demo_path : list ascii := demo_text "/data/x/obj".
Definition demo_os : OS := mkOS ∅ {[ [slash] ]} (store 100 (demo_text "hello world") (store 200 (demo_text "...........") ∅)) 0.
Definition demo_src : list Slice := [mkSlice 100 6; mkSlice 106 5].
Definition demo_dst : list Slice := [mkSlice 200 4; mkSlice 0 3; mkSlice 207 4].

Lemma demo_dst_ok : slices_ok demo_dst.
Proof.
  split; [by repeat constructor|done|done|]. intros i j s t Hij Hi Hj Hs Ht.
  destruct i as [|[|[|i]]]; destruct j as [|[|[|j]]]; simpl in *; simplify_eq; try done; unfold apart; simpl; lia.
Qed.

Lemma demo_dst_loadable : loadable demo_dst (mem demo_os).
Proof.
  intros s Hs Hp. apply elem_of_cons in Hs as [->|Hs]; [by vm_compute; eexists|].
  apply elem_of_cons in Hs as [->|Hs]; [done|]. apply list_elem_of_singleton in Hs as ->. by vm_compute; eexists.
Qed.

Lemma demo_path_ok : path_ok demo_path demo_os.
Proof. split; [done|vm_compute; set_solver|]. intros d _. done. Qed.

Lemma storage_roundtrip_witness :
  ∃ o1 o3, @StoreObject calm demo_path demo_src demo_os = Some (inr tt, o1) ∧
    @LoadObject calm demo_path demo_dst 11 o1 = Some (inr tt, o3) ∧
    fetch (mem o3) 200 4 = Some (demo_text "hell") ∧ fetch (mem o3) 207 4 = Some (demo_text "orld").
Proof.
  destruct (@storage_roundtrip calm demo_path demo_src (demo_text "hello world") demo_os) as (o1 & E1 & _ & Em & H).
  - apply calm_reliable, Nat.leb_le. reflexivity.
  - apply demo_path_ok.
  - by repeat constructor.
  - reflexivity.
  - vm_compute. discriminate.
  - vm_compute. reflexivity.
  - destruct (H demo_dst o1 eq_refl demo_dst_ok eq_refl) as (o3 & E3 & HL & _).
    + vm_compute. discriminate.
    + rewrite Em. apply demo_dst_loadable.
    + exists o1, o3. split; [exact E1|]. split; [exact E3|].
      split; [exact (HL 0%nat _ eq_refl ltac:(discriminate))|exact (HL 2%nat _ eq_refl ltac:(discriminate))].
Defined.

Lemma load_object_exact_witness :
  ∃ o', @LoadObject calm demo_path demo_dst 11 (set_files <[demo_path := demo_text "hello world!"]> demo_os) = Some (inr tt, o') ∧
    fetch (mem o') 207 4 = Some (demo_text "orld").
Proof.
  destruct (@LoadObject calm demo_path demo_dst 11 (set_files <[demo_path := demo_text "hello world!"]> demo_os)) as [[[e|[]] o']|] eqn:E;
    [by vm_compute in E| |by vm_compute in E].
  exists o'. split; [done|]. destruct (@load_object_exact calm demo_path demo_dst 11 _ o' demo_dst_ok E) as [_ HL].
  exact (HL 2%nat _ eq_refl ltac:(discriminate)).
Defined.

Definition demo_backend : StorageBackend := mkStorage (slash :: join_slash [demo_text "data"]) (demo_text "moon_c").
Definition demo_object : list ascii := ResolvePath (λ _, 33) (root_dir_ demo_backend) (demo_text "moon_c") (demo_text "k").
Definition demo_full : OS :=
  mkOS (<[demo_text "/data/readme" := []]> {[ demo_object := demo_text "v" ]}) {[ root_dir_ demo_backend ]} ∅ 0.

Lemma remove_all_keeps_objects_witness :
  ∃ o', @StorageRemoveAll calm demo_backend [demo_text "/data/readme"] demo_full = Some (inr tt, o') ∧
    files o' !! demo_text "/data/readme" = None ∧ files o' !! demo_object = Some (demo_text "v").
Proof.
  eexists. split; [reflexivity|]. split; [reflexivity|].
  unfold demo_object.
  rewrite (@remove_all_keeps_objects calm (λ _, 33) [demo_text "data"] (demo_text "moon_c") (demo_text "k") demo_backend
    [demo_text "/data/readme"] demo_full); [reflexivity|done| | | |reflexivity| |reflexivity].
  - repeat constructor; try done; vm_compute; set_solver.
  - repeat constructor; try done; vm_compute; set_solver.
  - vm_compute. set_solver.
  - intros p ->%list_elem_of_singleton. exists (demo_text "readme"). split; [|reflexivity].
    repeat constructor; try done; vm_compute; set_solver.
Defined.
