(* ===== verification/BucketStorage.v ===== *)
(** * BucketStorage: objects offloaded in buckets

    [BucketIdGenerator] and [BucketStorageBackend] of storage_backend.cpp.  A batch of
    objects is written to one data file, with a second file for the metadata; the index of
    buckets and keys lives in memory and is read back from the metadata files by [Init].
    The encoding of the metadata (struct_pb) is a parameter. *)

From S2P Require Import Prelude Types StorePath PosixFiles StorageBackend.
From Stdlib Require Import Ascii.
Open Scope Z_scope.

Record StorageObjectMetadata := mkStorageObject {
  so_bucket_id : Z;
  so_offset : Z;
  so_key_size : Z;
  so_data_size : Z;
}.

Record BucketObjectMetadata := mkBucketObject {
  bo_offset : Z;
  bo_key_size : Z;
  bo_data_size : Z;
}.

Record BucketMetadata := mkBucketMetadata {
  meta_size : Z;
  data_size : Z;
  object_metadata : gmap (list ascii) BucketObjectMetadata;
  keys : list (list ascii);
}.

Record OffloadMetadata := mkOffload { total_keys : Z; total_size : Z }.

Definition set_meta_size (n : Z) (b : BucketMetadata) : BucketMetadata :=
  mkBucketMetadata n (data_size b) (object_metadata b) (keys b).
Definition new_bucket : BucketMetadata := mkBucketMetadata 0 0 ∅ [].

(** [struct_pb::to_pb] and [struct_pb::from_pb]; a result of [None] is an exception. *)
Class Protobuf := {
  to_pb : BucketMetadata → list ascii;
  from_pb : list ascii → option BucketMetadata;
}.

(** ** Numbers in decimal *)

Definition digit (d : Z) : ascii := ascii_of_nat (Z.to_nat (48 + d)).

Fixpoint digits (fuel : nat) (n : Z) (acc : chars) : chars :=
  match fuel with
  | O => acc
  | S fuel => let acc := digit (n mod 10) :: acc in if n / 10 =? 0 then acc else digits fuel (n / 10) acc
  end.

(** [std::to_string] of a 64-bit integer, which has at most 19 digits *)
Definition to_string (n : Z) : chars := if n <? 0 then "-"%char :: digits 19 (- n) [] else digits 19 n [].

Definition digit_value (c : ascii) : option Z :=
  let v := Z.of_nat (nat_of_ascii c) - 48 in if (0 <=? v) && (v <=? 9) then Some v else None.

Fixpoint read_digits (v : Z) (s : chars) : Z :=
  match s with
  | c :: s => match digit_value c with Some d => read_digits (v * 10 + d) s | None => v end
  | [] => v
  end.

Definition is_space (c : ascii) : bool :=
  let n := nat_of_ascii c in (n =? 32)%nat || ((9 <=? n)%nat && (n <=? 13)%nat).

Fixpoint skip_space (s : chars) : chars :=
  match s with c :: s' => if is_space c then skip_space s' else s | [] => [] end.

Definition split_sign (s : chars) : Z * chars :=
  match s with
  | c :: s' => if decide (c = "-"%char) then (-1, s') else if decide (c = "+"%char) then (1, s') else (1, s)
  | [] => (1, [])
  end.

(** [std::stoll]; [None] for the exceptions it throws. *)
Definition stoll (s : chars) : option Z :=
  let '(sign, s) := split_sign (skip_space s) in
  match s with
  | c :: _ =>
      if bool_decide (is_Some (digit_value c)) then
        let v := sign * read_digits 0 s in if (- 2 ^ 63 <=? v) && (v <? 2 ^ 63) then Some v else None
      else None
  | [] => None
  end.

(** ** BucketIdGenerator *)

Definition INIT_NEW_START_ID : Z := -1.
Definition TIMESTAMP_SHIFT : Z := 12.
Definition SEQUENCE_ID_SHIFT : Z := 0.

(** [now] is the clock in seconds. *)
Definition new_generator (now start : Z) : Z :=
  if start <=? 0 then Z.lor (i64 (Z.shiftl now TIMESTAMP_SHIFT)) SEQUENCE_ID_SHIFT else start.

(** ** BucketStorageBackend *)

Record BucketStorageBackend := mkBackend {
  initialized_ : bool;
  bucket_id_generator_ : option Z;
  storage_path_ : list ascii;
  total_size_ : Z;
  object_bucket_map_ : gmap (list ascii) StorageObjectMetadata;
  buckets_ : gmap Z BucketMetadata;
}.

Definition new_backend (storage_path : chars) : BucketStorageBackend := mkBackend false None storage_path 0 ∅ ∅.

Definition set_generator (id : Z) (b : BucketStorageBackend) : BucketStorageBackend :=
  mkBackend (initialized_ b) (Some id) (storage_path_ b) (total_size_ b) (object_bucket_map_ b) (buckets_ b).
Definition set_initialized (b : BucketStorageBackend) : BucketStorageBackend :=
  mkBackend true (bucket_id_generator_ b) (storage_path_ b) (total_size_ b) (object_bucket_map_ b) (buckets_ b).
Definition set_index (n : Z) (om : gmap (list ascii) StorageObjectMetadata) (bs : gmap Z BucketMetadata)
    (b : BucketStorageBackend) : BucketStorageBackend :=
  mkBackend (initialized_ b) (bucket_id_generator_ b) (storage_path_ b) n om bs.
Definition set_buckets (bs : gmap Z BucketMetadata) (b : BucketStorageBackend) : BucketStorageBackend :=
  set_index (total_size_ b) (object_bucket_map_ b) bs b.

Definition Store : Type := BucketStorageBackend * OS.
Definition on_os {A} (m : Res OS A) : Res Store A := within snd (λ o s, (s.1, o)) m.
Definition on_backend (f : BucketStorageBackend → BucketStorageBackend) : Res Store unit := put (λ s, (f s.1, s.2)).

Definition meta_suffix : chars := ["."; "m"; "e"; "t"; "a"]%char.

Definition GetBucketDataPath (b : BucketStorageBackend) (bucket_id : Z) : chars :=
  let sep := if bool_decide (storage_path_ b = [] ∨ last (storage_path_ b) = Some slash) then [] else [slash] in
  storage_path_ b ++ sep ++ to_string bucket_id.
Definition GetBucketMetadataPath (b : BucketStorageBackend) (bucket_id : Z) : chars :=
  GetBucketDataPath b bucket_id ++ meta_suffix.

(** The objects of a bucket are entered in the index; [emplace] leaves the entry of a key
    that is there already. *)
Definition index_bucket (bucket_id : Z) (bucket : BucketMetadata) (m : gmap (list ascii) StorageObjectMetadata)
    : gmap (list ascii) StorageObjectMetadata :=
  m ∪ ((λ o, mkStorageObject bucket_id (bo_offset o) (bo_key_size o) (bo_data_size o)) <$> object_metadata bucket).

Section bucket.
Context {P : Posix} {PB : Protobuf}.

(** The loop of [BuildBucket]; the objects come in the order of the hash map. *)
Fixpoint build_bucket (bucket : BucketMetadata) (storage_offset : Z) (iovs : list iovec)
    (batch : list (list ascii * list Slice)) : ErrorCode + (BucketMetadata * list iovec) :=
  match batch with
  | [] => inr (bucket, iovs)
  | (key, slices) :: batch =>
      if bool_decide (slices = []) then inl EC.INVALID_KEY
      else
        let key_size := Z.of_nat (length key) in
        let object_total_size := foldl (λ n s, i64 (n + slice_size s)) 0 slices in
        let iovs := iovs ++ iov_string key :: ((λ s, iov_mem (ptr s) (slice_size s)) <$> slices) in
        let meta := mkBucketObject storage_offset key_size object_total_size in
        let objects := match object_metadata bucket !! key with Some _ => object_metadata bucket
                       | None => <[key := meta]> (object_metadata bucket) end in
        build_bucket
          (mkBucketMetadata (meta_size bucket) (i64 (data_size bucket + (object_total_size + key_size))) objects
             (keys bucket ++ [key]))
          (i64 (storage_offset + (object_total_size + key_size))) iovs batch
  end.

Definition BuildBucket (batch : list (list ascii * list Slice)) : ErrorCode + (BucketMetadata * list iovec) :=
  build_bucket new_bucket 0 [] batch.

(** The size of the metadata file is recorded in the metadata. *)
Definition StoreBucketMetadata (path : chars) (metadata : BucketMetadata) : Res OS BucketMetadata :=
  PosixFile.with_file path Write (
    let str := to_pb metadata in
    PosixFile.write str (length str);;
    mret (set_meta_size (Z.of_nat (length str)) metadata)).

(** The data file stays open while the metadata is written. *)
Definition WriteBucket (bucket_id : Z) (metadata : BucketMetadata) (iovs : list iovec) : Res Store BucketMetadata :=
  b ← ask fst;
  on_os (PosixFile.with_file (GetBucketDataPath b bucket_id) Write (
    PosixFile.vector_write iovs (i32 (Z.of_nat (length iovs))) 0;;
    within snd (λ o s, (s.1, o))
      (on_error (λ _, EC.FILE_WRITE_FAIL) (StoreBucketMetadata (GetBucketMetadataPath b bucket_id) metadata)))).

Definition NextId : Res Store Z := λ s,
  match bucket_id_generator_ s.1 with
  | Some id => Some (inr (i64 (id + 1)), (set_generator (i64 (id + 1)) s.1, s.2))
  | None => None
  end.

Definition of_result {S A} (r : ErrorCode + A) : Res S A := match r with inl e => fail e | inr x => mret x end.

(** [BatchOffload] up to the call of the handler: no lock is held. *)
Definition offload_write (batch : list (list ascii * list Slice)) : Res Store (Z * BucketMetadata) :=
  b ← ask fst;
  if negb (initialized_ b) then fail EC.INTERNAL_ERROR
  else if bool_decide (batch = []) then fail EC.INVALID_KEY
  else
    bucket_id ← NextId;
    '(bucket, iovs) ← of_result (BuildBucket batch);
    bucket ← WriteBucket bucket_id bucket iovs;
    mret (bucket_id, bucket).

(** The section under the lock. *)
Definition offload_publish (bucket_id : Z) (bucket : BucketMetadata) : Res Store unit :=
  on_backend (λ b,
    set_index (i64 (total_size_ b + (data_size bucket + meta_size bucket)))
      (index_bucket bucket_id bucket (object_bucket_map_ b))
      (match buckets_ b !! bucket_id with Some _ => buckets_ b | None => <[bucket_id := bucket]> (buckets_ b) end) b).

Definition BatchOffload (batch : list (list ascii * list Slice))
    (complete_handler : option (gmap (list ascii) BucketObjectMetadata → ErrorCode)) : Res Store Z :=
  '(bucket_id, bucket) ← offload_write batch;
  let error_code := match complete_handler with Some h => h (object_metadata bucket) | None => EC.OK end in
  if bool_decide (error_code = EC.OK) then offload_publish bucket_id bucket;; mret bucket_id else fail error_code.

Fixpoint BatchQuery (ks : list (list ascii)) (out : gmap (list ascii) StorageObjectMetadata)
    : Res Store (gmap (list ascii) StorageObjectMetadata) :=
  match ks with
  | [] => mret out
  | key :: ks =>
      b ← ask fst;
      match object_bucket_map_ b !! key with
      | Some m => BatchQuery ks (match out !! key with Some _ => out | None => <[key := m]> out end)
      | None => fail EC.OBJECT_NOT_FOUND
      end
  end.

Definition IsExist (key : chars) : Res Store bool :=
  ask (λ s, bool_decide (is_Some (object_bucket_map_ s.1 !! key))).

Definition GetBucketKeys (bucket_id : Z) : Res Store (list (list ascii)) :=
  b ← ask fst;
  match buckets_ b !! bucket_id with
  | Some bucket => mret (keys bucket)
  | None => fail EC.BUCKET_NOT_FOUND
  end.

Definition GetStoreMetadata : Res Store OffloadMetadata :=
  ask (λ s, mkOffload (Z.of_nat (size (object_bucket_map_ s.1))) (total_size_ s.1)).

(** *** Loading *)

(** The keys of the request by bucket. *)
Fixpoint group_keys (b : BucketStorageBackend) (batch : list (list ascii * Slice)) (m : gmap Z (list (list ascii)))
    : ErrorCode + gmap Z (list (list ascii)) :=
  match batch with
  | [] => inr m
  | (key, _) :: batch =>
      match object_bucket_map_ b !! key with
      | None => inl EC.INVALID_KEY
      | Some o => group_keys b batch (<[so_bucket_id o := default [] (m !! so_bucket_id o) ++ [key]]> m)
      end
  end.

Fixpoint load_keys (b : BucketStorageBackend) (bucket_id : Z) (slices : gmap (list ascii) Slice) (ks : list (list ascii))
    : Res PosixFile.State unit :=
  match ks with
  | [] => mret tt
  | key :: ks =>
      let slice := default (mkSlice 0 0) (slices !! key) in
      match buckets_ b !! bucket_id with
      | None => fail EC.BUCKET_NOT_FOUND
      | Some bucket =>
          match object_metadata bucket !! key with
          | None => fail EC.OBJECT_NOT_FOUND
          | Some o =>
              if negb (u64 (bo_data_size o) =? slice_size slice) then fail EC.FILE_READ_FAIL
              else
                n ← PosixFile.vector_read [slice_iov slice] (i32 1) (i64 (bo_offset o + Z.of_nat (length key)));
                if negb (n =? slice_size slice) then fail EC.FILE_READ_FAIL
                else load_keys b bucket_id slices ks
          end
      end
  end.

Definition BatchLoadBucket (bucket_id : Z) (ks : list (list ascii)) (slices : gmap (list ascii) Slice) : Res Store unit :=
  b ← ask fst;
  on_os (PosixFile.with_file (GetBucketDataPath b bucket_id) Read (load_keys b bucket_id slices ks)).

Fixpoint load_buckets (groups : list (Z * list (list ascii))) (slices : gmap (list ascii) Slice) : Res Store unit :=
  match groups with
  | [] => mret tt
  | (bucket_id, ks) :: groups => BatchLoadBucket bucket_id ks slices;; load_buckets groups slices
  end.

(** [arrange] is the order in which the map of buckets is listed. *)
Definition BatchLoad (arrange : list (Z * list (list ascii)) → list (Z * list (list ascii)))
    (batch : list (list ascii * Slice)) : Res Store unit :=
  b ← ask fst;
  groups ← of_result (group_keys b batch ∅);
  load_buckets (arrange (map_to_list groups)) (list_to_map batch).

(** *** Scanning *)

Definition ordered (m : gmap Z BucketMetadata) : list Z := merge_sort Z.le (elements (dom m)).

Definition add_objects (bucket : BucketMetadata) (objects : gmap (list ascii) BucketObjectMetadata)
    : gmap (list ascii) BucketObjectMetadata := objects ∪ object_metadata bucket.

Fixpoint scan (bs : gmap Z BucketMetadata) (ids : list Z) (objects : gmap (list ascii) BucketObjectMetadata) (visited : list Z) (limit : Z)
    : ErrorCode + (Z * gmap (list ascii) BucketObjectMetadata * list Z) :=
  match ids with
  | [] => inr (0, objects, visited)
  | id :: ids =>
      match bs !! id with
      | None => inr (0, objects, visited)
      | Some bucket =>
          let count := Z.of_nat (length (keys bucket)) in
          if u64 limit <? count then inl EC.KEYS_ULTRA_BUCKET_LIMIT
          else if u64 limit <? u64 (count + Z.of_nat (size objects)) then inr (id, objects, visited)
          else scan bs ids (add_objects bucket objects) (visited ++ [id]) limit
      end
  end.

(** The result is the next bucket, the objects and the buckets visited. *)
Definition BucketScan (bucket_id : Z) (objects : gmap (list ascii) BucketObjectMetadata) (visited : list Z) (limit : Z)
    : Res Store (Z * gmap (list ascii) BucketObjectMetadata * list Z) :=
  b ← ask fst;
  of_result (scan (buckets_ b) (filter (λ id, bucket_id <= id) (ordered (buckets_ b))) objects visited limit).

(** *** Initialization

    An error of [Res] is an exception here, or a code that [Init] returns; the codes that
    [LoadBucketMetadata] returns are values. *)

Definition LoadBucketMetadata (path : chars) : Res OS (ErrorCode + BucketMetadata) :=
  match_open ← attempt (PosixFile.with_file path Read (λ s,
    match file_size path s.2 with
    | (None, o) => Some (inr (inl None), (s.1, o))
    | (Some size, o) =>
        match PosixFile.read (Z.to_nat size) (s.1, o) with
        | Some (inl e, s') => Some (inr (inl (Some e)), s')
        | Some (inr str, s') => Some (inr (inr (str, size)), s')
        | None => None
        end
    end));
  match match_open with
  | inl e => mret (inl e)
  | inr (inl None) => fail EC.INTERNAL_ERROR
  | inr (inl (Some e)) => mret (inl e)
  | inr (inr (str, size)) =>
      mret (match from_pb str with
            | Some metadata => inr (set_meta_size size metadata)
            | None => inl EC.FILE_READ_FAIL
            end)
  end.

Definition remove_or_throw (path : chars) : Res OS unit := λ o,
  match remove path o with
  | (None, o') => Some (inl EC.INTERNAL_ERROR, o')
  | (Some _, o') => Some (inr tt, o')
  end.

(** The two files of a bucket are deleted and its entry is erased. *)
Definition drop_bucket (bucket_id : Z) : Res Store unit :=
  b ← ask fst;
  on_os (remove_or_throw (GetBucketDataPath b bucket_id));;
  on_os (remove_or_throw (GetBucketMetadataPath b bucket_id));;
  on_backend (λ b, set_buckets (delete bucket_id (buckets_ b)) b).

Definition bucket_valid (m : BucketMetadata) : bool :=
  negb ((data_size m =? 0) || (meta_size m =? 0) || bool_decide (object_metadata m = ∅) || bool_decide (keys m = [])).

(** One metadata file; the result is the largest bucket number so far. *)
Definition init_bucket (bucket_id max_bucket_id : Z) : Res Store Z :=
  b ← ask fst;
  match buckets_ b !! bucket_id with
  | Some _ => fail EC.BUCKET_ALREADY_EXISTS
  | None =>
      on_backend (set_buckets (<[bucket_id := new_bucket]> (buckets_ b)));;
      r ← on_os (LoadBucketMetadata (GetBucketMetadataPath b bucket_id));
      match r with
      | inl _ => drop_bucket bucket_id;; mret max_bucket_id
      | inr m =>
          if bucket_valid m then
            on_backend (λ b, set_index (i64 (total_size_ b + (data_size m + meta_size m)))
              (index_bucket bucket_id m (object_bucket_map_ b)) (<[bucket_id := m]> (buckets_ b)) b);;
            mret (Z.max bucket_id max_bucket_id)
          else drop_bucket bucket_id;; mret max_bucket_id
      end
  end.

Definition init_entry (path : chars) (max_bucket_id : Z) : Res Store Z :=
  if bool_decide (extension path = meta_suffix) then
    match stoll (stem path) with
    | None => fail EC.INTERNAL_ERROR
    | Some bucket_id => init_bucket bucket_id max_bucket_id
    end
  else mret max_bucket_id.

Fixpoint init_entries (listing : list (list ascii)) (max_bucket_id : Z) : Res Store Z :=
  match listing with
  | [] => mret max_bucket_id
  | path :: listing => max_bucket_id ← init_entry path max_bucket_id; init_entries listing max_bucket_id
  end.

(** [listing]: the regular files below the storage directory in the order of the directory
    iterator, whose construction throws where there is no directory. *)
Definition Init (now : Z) (listing : list (list ascii)) : Res Store unit :=
  s ← ask id;
  if initialized_ s.1 then fail EC.INTERNAL_ERROR
  else
    on_backend (set_index 0 ∅ ∅);;
    if negb (is_directory (storage_path_ s.1) s.2) then fail EC.INTERNAL_ERROR
    else
      max_bucket_id ← init_entries listing INIT_NEW_START_ID;
      on_backend (λ b, set_initialized (set_generator (new_generator now max_bucket_id) b)).
End bucket.
