(* ===== verification/BucketLayout.v ===== *)
(** * BucketLayout: names and contents of bucket files

    The decimal names of bucket files are read back and do not clash; [BuildBucket] lays
    the objects of a batch out one after the other and records where each one is. *)

From S2P Require Import Prelude Types StorePath PosixFiles PosixSpec StorageBackend StorageCorrect BucketStorage.
From Stdlib Require Import Ascii.
Open Scope Z_scope.

(** ** Decimal names *)

Definition decimal (c : ascii) : Prop := is_Some (digit_value c).

Lemma digit_value_digit d : 0 <= d <= 9 → digit_value (digit d) = Some d.
Proof.
  intros Hd. unfold digit_value, digit. rewrite nat_ascii_embedding by lia.
  replace (Z.of_nat (Z.to_nat (48 + d)) - 48) with d by lia.
  destruct ((0 <=? d) && (d <=? 9)) eqn:E; [done|]. apply andb_false_iff in E as [?%Z.leb_gt|?%Z.leb_gt]; lia.
Qed.

Lemma digits_read fuel n acc v :
  0 <= n < 10 ^ Z.of_nat fuel → v = 0 → (0 < fuel)%nat → read_digits v (digits fuel n acc) = read_digits n acc.
Proof.
  intros Hn ->. revert n acc Hn. induction fuel as [|fuel IH]; intros n acc Hn Hf; [lia|]. cbn [digits].
  pose proof (Z.mod_pos_bound n 10 ltac:(lia)) as Hm. pose proof (Z.div_mod n 10 ltac:(lia)) as Hdm.
  destruct (Z.eqb_spec (n / 10) 0) as [E|E].
  - cbn [read_digits]. rewrite digit_value_digit by lia. f_equal. lia.
  - assert (0 < fuel)%nat as Hf'.
    { destruct fuel; [|lia]. change (10 ^ Z.of_nat 1) with 10 in Hn. rewrite Z.div_small in E by lia. done. }
    rewrite IH; [|split; [apply Z.div_pos; lia|]|done].
    + cbn [read_digits]. rewrite digit_value_digit by lia. f_equal. lia.
    + apply Z.div_lt_upper_bound; [lia|]. rewrite Nat2Z.inj_succ, Z.pow_succ_r in Hn by lia. lia.
Qed.

Lemma digits_decimal fuel n acc : Forall decimal acc → Forall decimal (digits fuel n acc).
Proof.
  revert n acc. induction fuel as [|fuel IH]; intros n acc HF; [done|]. cbn [digits].
  pose proof (Z.mod_pos_bound n 10 ltac:(lia)) as Hm.
  assert (Forall decimal (digit (n mod 10) :: acc)) as HF'.
  { constructor; [|done]. exists (n mod 10). apply digit_value_digit. lia. }
  destruct (_ =? _); [done|by apply IH].
Qed.

Lemma digits_cons fuel n acc : acc ≠ [] → ∃ c s, digits fuel n acc = c :: s.
Proof.
  revert n acc. induction fuel as [|fuel IH]; intros n acc Ha; [destruct acc; eauto; done|]. cbn [digits].
  destruct (_ =? _); [eauto|by apply IH].
Qed.

(** The identifiers of buckets are positive. *)
Definition is_id (n : Z) : Prop := 0 < n < 2 ^ 63.

Lemma to_string_pos n : is_id n → to_string n = digits 19 n [] ∧ ∃ c s, to_string n = c :: s ∧ decimal c.
Proof.
  intros Hn. unfold to_string, is_id in *. destruct (Z.ltb_spec n 0); [lia|]. split; [done|].
  pose proof (digits_decimal 19 n [] ltac:(constructor)) as HF. revert HF. cbn [digits].
  destruct (_ =? 0); [intros HF; eexists _, _; split; [done|]; by apply Forall_cons in HF as [? _]|].
  change (digits 18 (n / 10) [digit (n mod 10)]) with (digits 18 (n / 10) [digit (n mod 10)]).
  destruct (digits_cons 18 (n / 10) [digit (n mod 10)]) as (c & s & E); [done|]. cbn [digits] in E |- *. rewrite E.
  intros HF. eexists _, _. split; [done|]. by apply Forall_cons in HF as [? _].
Qed.

Lemma to_string_decimal n : is_id n → Forall decimal (to_string n).
Proof. intros Hn. destruct (to_string_pos n Hn) as [-> _]. apply digits_decimal. constructor. Qed.

Lemma decimal_ne c x : decimal c → digit_value x = None → c ≠ x.
Proof. intros [? E] Ex ->. congruence. Qed.

Lemma decimal_plain c : decimal c → is_space c = false ∧ c ≠ "-"%char ∧ c ≠ "+"%char ∧ c ≠ "."%char ∧ c ≠ slash.
Proof.
  intros Hc. split_and!; [|by eapply decimal_ne..]. destruct Hc as [d Hd]. unfold digit_value, is_space in *.
  destruct ((0 <=? _) && _) eqn:E; [|done]. apply andb_true_iff in E as [E1%Z.leb_le E2%Z.leb_le].
  set (k := nat_of_ascii c) in *. destruct (Nat.eqb_spec k 32); [lia|]. destruct (Nat.leb_spec 9 k); [|done].
  destruct (Nat.leb_spec k 13); [lia|done].
Qed.

Lemma to_string_no n x : is_id n → digit_value x = None → x ∉ to_string n.
Proof.
  intros Hn Hx Hin. pose proof (to_string_decimal n Hn) as HF. rewrite Forall_forall in HF.
  by apply (decimal_ne x x (HF x Hin) Hx).
Qed.

Lemma stoll_to_string n : is_id n → stoll (to_string n) = Some n.
Proof.
  intros Hn. destruct (to_string_pos n Hn) as [E (c & s & Ec & Hc)].
  destruct (decimal_plain c Hc) as (Hs & H1 & H2 & _). unfold stoll. rewrite Ec. cbn [skip_space]. rewrite Hs.
  unfold split_sign. rewrite !decide_False by done.
  rewrite bool_decide_eq_true_2 by done. rewrite <-Ec, E, digits_read by (done || (unfold is_id in Hn; lia)). cbn [read_digits].
  rewrite Z.mul_1_l. unfold is_id in Hn.
  destruct ((- 2 ^ 63 <=? n) && (n <? 2 ^ 63)) eqn:Eb; [done|]. apply andb_false_iff in Eb as [?%Z.leb_gt|?%Z.ltb_ge]; lia.
Qed.

Lemma to_string_inj m n : is_id m → is_id n → to_string m = to_string n → m = n.
Proof. intros Hm Hn E. apply (inj Some). by rewrite <-(stoll_to_string m), <-(stoll_to_string n), E. Qed.

(** ** Paths of bucket files *)

Lemma split_slash_at q y : split_slash (q ++ slash :: y) = split_slash q ++ split_slash y.
Proof.
  induction q as [|c q IH]; [done|]. simpl. case_decide; [by rewrite IH|]. rewrite IH.
  by destruct (split_slash_cons q) as (x & xs & ->).
Qed.

(** The storage directory with its separator. *)
Definition base (sp : list ascii) : list ascii :=
  sp ++ (if bool_decide (sp = [] ∨ last sp = Some slash) then [] else [slash]).

Lemma GetBucketDataPath_base b id : GetBucketDataPath b id = base (storage_path_ b) ++ to_string id.
Proof. unfold GetBucketDataPath, base. by rewrite (assoc_L (++)). Qed.

Lemma GetBucketMetadataPath_base b id : GetBucketMetadataPath b id = base (storage_path_ b) ++ (to_string id ++ meta_suffix).
Proof. unfold GetBucketMetadataPath. by rewrite GetBucketDataPath_base, <-(assoc_L (++)). Qed.

Lemma base_split sp : sp = [] ∧ base sp = [] ∨ ∃ q, base sp = q ++ [slash] ∧ dir_name sp = parent_path (q ++ slash :: []).
Proof.
  assert (∀ q, removelast (split_slash (q ++ [slash])) = split_slash q) as Hr.
  { intros q. rewrite split_slash_at. apply removelast_last. }
  assert (∀ q, parent_path (q ++ [slash]) = (let d := strip_slashes q in if bool_decide (d = []) && is_absolute (q ++ [slash]) then [slash] else d)) as Hp.
  { intros q. unfold parent_path. by rewrite Hr, join_split. }
  unfold base. case_bool_decide as E.
  - rewrite app_nil_r. destruct E as [->|E]; [by left|]. right. apply last_Some in E as [q ->]. exists q. split; [done|].
    rewrite Hp. unfold dir_name. assert (strip_slashes (q ++ [slash]) = strip_slashes q) as ->; [|done].
    unfold strip_slashes. rewrite rev_unit. cbn [drop_slashes]. by rewrite decide_True.
  - right. exists sp. split; [done|]. rewrite Hp. unfold dir_name. assert (is_absolute (sp ++ [slash]) = is_absolute sp) as ->; [|done].
    destruct sp; [|done]. destruct E. by left.
Qed.

Section names.
Context (sp name : list ascii) (Hne : name ≠ []) (Hslash : slash ∉ name).

Lemma base_filename : filename (base sp ++ name) = name.
Proof.
  unfold filename. destruct (base_split sp) as [[_ ->]|(q & -> & _)].
  - simpl. by rewrite split_slash_plain.
  - rewrite <-(assoc_L (++)). simpl. by rewrite split_slash_at, (split_slash_plain name), last_snoc.
Qed.

Lemma base_parent : parent_path (base sp ++ name) = dir_name sp.
Proof.
  destruct (base_split sp) as [[-> ->]|(q & -> & ->)].
  - simpl. unfold parent_path. rewrite split_slash_plain by done. simpl.
    destruct (is_absolute name) eqn:E; [|done]. apply bool_decide_eq_true in E. destruct name; [done|]. injection E as ->.
    by rewrite not_elem_of_cons in Hslash; destruct Hslash.
  - unfold parent_path. rewrite <-(assoc_L (++)). simpl. rewrite !split_slash_at, (split_slash_plain name) by done.
    rewrite removelast_last. change (split_slash []) with [@nil ascii]. rewrite removelast_last.
    assert (is_absolute (q ++ slash :: name) = is_absolute (q ++ [slash])) as -> by (by destruct q). done.
Qed.

Lemma base_has_filename : has_filename (base sp ++ name) = true.
Proof.
  unfold has_filename. destruct (last name) as [c|] eqn:El; [|by apply last_None in El].
  rewrite last_app, El. assert (c ≠ slash) by (intros ->; by apply last_Some_elem_of in El).
  rewrite !bool_decide_eq_false_2; [done|congruence|]. by destruct (base sp), name.
Qed.
End names.

Lemma base_creatable sp name o :
  name ≠ [] → slash ∉ name → dir_name sp = [] ∨ dir_name sp ∈ dirs o → base sp ++ name ∉ dirs o → creatable (base sp ++ name) o.
Proof. intros. split; [by apply base_has_filename|]. split; [done|]. by rewrite base_parent. Qed.

Lemma meta_suffix_dots s : "."%char ∉ s → s ≠ [] → split_dot (s ++ meta_suffix) = (s, meta_suffix).
Proof.
  intros Hdot Hne. unfold split_dot. rewrite decide_False.
  2:{ intros [E|E]; apply (f_equal length) in E; rewrite length_app in E; simpl in E; lia. }
  set (go := fix go s := match s with [] => None | c :: s' => _ end).
  assert (∀ s, go (s ++ meta_suffix) = Some (s, meta_suffix)) as Hgo; [|rewrite Hgo; by destruct s].
  clear. induction s as [|c s IH]; [done|]. simpl in *. by rewrite IH.
Qed.

Lemma split_dot_none s : "."%char ∉ s → split_dot s = (s, []).
Proof.
  intros Hdot. unfold split_dot. case_decide; [done|]. set (go := fix go s := match s with [] => None | c :: s' => _ end).
  assert (go s = None) as ->; [|done]. clear -Hdot. induction s as [|c s IH]; [done|]. apply not_elem_of_cons in Hdot as [? ?].
  simpl. rewrite IH by done. by rewrite decide_False by congruence.
Qed.

Section bucket_paths.
Context (b : BucketStorageBackend).
Local Abbreviation dpath := (GetBucketDataPath b).
Local Abbreviation mpath := (GetBucketMetadataPath b).

Lemma name_ok id : is_id id → to_string id ≠ [] ∧ slash ∉ to_string id ∧ "."%char ∉ to_string id.
Proof.
  intros Hid. split; [by destruct (to_string_pos id Hid) as [_ (? & ? & -> & _)]|]. split; by apply to_string_no.
Qed.

Lemma meta_name_ok id : is_id id → to_string id ++ meta_suffix ≠ [] ∧ slash ∉ to_string id ++ meta_suffix.
Proof.
  intros Hid. destruct (name_ok id Hid) as (H1 & H2 & _). split; [by destruct (to_string id)|].
  rewrite elem_of_app. intros [?|Hin]; [done|]. by vm_compute in Hin; set_solver.
Qed.

Lemma dpath_inj m n : is_id m → is_id n → dpath m = dpath n → m = n.
Proof. intros Hm Hn. rewrite !GetBucketDataPath_base. intros E%app_inv_head. by apply to_string_inj. Qed.

Lemma mpath_inj m n : is_id m → is_id n → mpath m = mpath n → m = n.
Proof. intros Hm Hn. unfold GetBucketMetadataPath. intros E%app_inv_tail. by apply dpath_inj. Qed.

Lemma dpath_ne_mpath m n : is_id m → dpath m ≠ mpath n.
Proof.
  intros Hm. rewrite GetBucketDataPath_base, GetBucketMetadataPath_base. intros E%app_inv_head.
  apply (proj2 (proj2 (name_ok m Hm))). rewrite E. apply elem_of_app. right. left.
Qed.

Lemma mpath_extension id : is_id id → extension (mpath id) = meta_suffix ∧ stem (mpath id) = to_string id.
Proof.
  intros Hid. destruct (name_ok id Hid) as (H1 & _ & H3). destruct (meta_name_ok id Hid) as [H4 H5].
  unfold extension, stem. rewrite GetBucketMetadataPath_base, base_filename, meta_suffix_dots; done.
Qed.

Lemma dpath_creatable id o :
  is_id id → dir_name (storage_path_ b) = [] ∨ dir_name (storage_path_ b) ∈ dirs o → dpath id ∉ dirs o → creatable (dpath id) o.
Proof. intros Hid. destruct (name_ok id Hid) as (? & ? & _). rewrite GetBucketDataPath_base. by apply base_creatable. Qed.

Lemma mpath_creatable id o :
  is_id id → dir_name (storage_path_ b) = [] ∨ dir_name (storage_path_ b) ∈ dirs o → mpath id ∉ dirs o → creatable (mpath id) o.
Proof. intros Hid. destruct (meta_name_ok id Hid) as (? & ?). rewrite GetBucketMetadataPath_base. by apply base_creatable. Qed.
End bucket_paths.

(** ** The layout of a bucket *)

(** Keys with the sizes of their data. *)
Definition Shape : Type := list (list ascii * Z).

Definition entry_size (e : list ascii * Z) : Z := e.2 + Z.of_nat (length e.1).
Definition shape_size (sh : Shape) : Z := zsum (entry_size <$> sh).

Fixpoint layout (off : Z) (sh : Shape) : list (list ascii * BucketObjectMetadata) :=
  match sh with
  | [] => []
  | e :: sh => (e.1, mkBucketObject off (Z.of_nat (length e.1)) e.2) :: layout (off + entry_size e) sh
  end.

Definition bucket_of (sh : Shape) : BucketMetadata :=
  mkBucketMetadata 0 (shape_size sh) (list_to_map (layout 0 sh)) sh.*1.

Definition shape_ok (sh : Shape) : Prop := NoDup sh.*1 ∧ Forall (λ e, 0 <= e.2) sh ∧ shape_size sh < 2 ^ 63.

Lemma shape_size_app s1 s2 : shape_size (s1 ++ s2) = shape_size s1 + shape_size s2.
Proof. unfold shape_size. by rewrite fmap_app, zsum_app. Qed.
Lemma shape_size_cons e sh : shape_size (e :: sh) = entry_size e + shape_size sh.
Proof. done. Qed.
Lemma shape_size_nonneg sh : Forall (λ e, 0 <= e.2) sh → 0 <= shape_size sh.
Proof. induction 1 as [|e sh He _ IH]; [done|]. rewrite shape_size_cons. unfold entry_size. lia. Qed.

Lemma layout_app off s1 s2 : layout off (s1 ++ s2) = layout off s1 ++ layout (off + shape_size s1) s2.
Proof.
  revert off. induction s1 as [|e s1 IH]; intros off; simpl.
  - by rewrite Z.add_0_r.
  - rewrite IH, shape_size_cons. do 3 f_equal. lia.
Qed.

Lemma layout_keys off sh : (layout off sh).*1 = sh.*1.
Proof. revert off. induction sh as [|e sh IH]; intros off; [done|]. csimpl. by rewrite IH. Qed.

Lemma layout_lookup off sh k o :
  (k, o) ∈ layout off sh →
  ∃ s1 n s2, sh = s1 ++ (k, n) :: s2 ∧ o = mkBucketObject (off + shape_size s1) (Z.of_nat (length k)) n.
Proof.
  revert off. induction sh as [|[k' n'] sh IH]; intros off; simpl; [by intros ?%elem_of_nil|].
  intros [E|Hin]%elem_of_cons.
  - injection E as -> ->. exists [], n', sh. split; [done|]. by rewrite Z.add_0_r.
  - apply IH in Hin as (s1 & n & s2 & -> & ->). exists ((k', n') :: s1), n, s2. split; [done|].
    rewrite shape_size_cons. f_equal. lia.
Qed.

Lemma bucket_of_lookup sh k o :
  NoDup sh.*1 → object_metadata (bucket_of sh) !! k = Some o ↔ (k, o) ∈ layout 0 sh.
Proof. intros Hn. simpl. symmetry. apply elem_of_list_to_map. by rewrite layout_keys. Qed.

Lemma bucket_of_keys sh k : is_Some (object_metadata (bucket_of sh) !! k) ↔ k ∈ sh.*1.
Proof. simpl. rewrite <-(layout_keys 0 sh), <-elem_of_dom, dom_list_to_map, elem_of_list_to_set. done. Qed.

(** *** BuildBucket *)

Definition batch_shape (batch : list (list ascii * list Slice)) : Shape := (λ e, (e.1, stotal e.2)) <$> batch.
Definition batch_iovs (batch : list (list ascii * list Slice)) : list iovec :=
  batch ≫= λ e, iov_string e.1 :: source_iov e.2.

(** A batch as clients pass it: a hash map of keys, with something to write. *)
Record batch_ok (batch : list (list ascii * list Slice)) : Prop := {
  bo_keys : NoDup batch.*1;
  bo_sizes : Forall (λ e, Forall (λ s, 0 <= slice_size s) e.2) batch;
  bo_total : 0 < shape_size (batch_shape batch) < 2 ^ 63;
  bo_count : Z.of_nat (length (batch_iovs batch)) < 2 ^ 31;
}.

Lemma batch_shape_ok batch : batch_ok batch → shape_ok (batch_shape batch).
Proof.
  intros [H1 H2 [_ H3] _]. split; [unfold batch_shape; rewrite <-list_fmap_compose; exact H1|]. split; [|done].
  apply Forall_fmap. eapply Forall_impl; [exact H2|]. intros e He. by apply stotal_nonneg.
Qed.

Lemma build_bucket_spec pre batch iovs :
  shape_ok (pre ++ batch_shape batch) → Forall (λ e, Forall (λ s, 0 <= slice_size s) e.2) batch →
  build_bucket (bucket_of pre) (shape_size pre) iovs batch =
    if bool_decide (Exists (λ e, e.2 = []) batch) then inl EC.INVALID_KEY
    else inr (bucket_of (pre ++ batch_shape batch), iovs ++ batch_iovs batch).
Proof.
  revert pre iovs. induction batch as [|[k sl] batch IH]; intros pre iovs Hok HF; simpl.
  { by rewrite !app_nil_r. }
  apply Forall_cons in HF as [Hsl HF]. simpl in Hsl. destruct (decide (sl = [])) as [Esl|Esl].
  { rewrite !bool_decide_eq_true_2; [done|by left|done]. }
  rewrite (bool_decide_eq_false_2 (sl = [])) by done.
  destruct Hok as (Hn & Hs & Ht). set (n := stotal sl).
  assert (batch_shape ((k, sl) :: batch) = (k, n) :: batch_shape batch) as Eb by done. rewrite Eb in Hn, Hs, Ht.
  pose proof (stotal_nonneg _ Hsl) as Hpos. fold n in Hpos.
  assert (0 <= shape_size pre ∧ 0 <= shape_size (batch_shape batch)) as [Hp1 Hp2].
  { apply Forall_app in Hs as [F1 [_ F2]%Forall_cons]. split; by apply shape_size_nonneg. }
  rewrite shape_size_app, shape_size_cons in Ht. unfold entry_size in Ht. cbn [fst snd] in Ht.
  rewrite sum_sizes by (done || lia). rewrite Z.add_0_l. fold n.
  assert (object_metadata (bucket_of pre) !! k = None) as Hk.
  { rewrite fmap_app in Hn. apply NoDup_app in Hn as (_ & Hd & _). apply eq_None_not_Some. rewrite bucket_of_keys.
    intros Hin. apply (Hd k Hin). left. }
  simpl in Hk. rewrite Hk, !i64_small by lia.
  assert (mkBucketMetadata 0 (shape_size pre + (n + Z.of_nat (length k)))
    (<[k := mkBucketObject (shape_size pre) (Z.of_nat (length k)) n]> (list_to_map (layout 0 pre))) (pre.*1 ++ [k]) = bucket_of (pre ++ [(k, n)])) as ->.
  { unfold bucket_of. rewrite shape_size_app, layout_app, fmap_app. f_equal.
    - rewrite shape_size_cons. unfold entry_size. simpl. change (shape_size []) with 0. lia.
    - simpl. symmetry. apply list_to_map_snoc. by apply not_elem_of_list_to_map. }
  assert (shape_size pre + (n + Z.of_nat (length k)) = shape_size (pre ++ [(k, n)])) as ->.
  { rewrite shape_size_app, shape_size_cons. unfold entry_size. simpl. change (shape_size []) with 0. lia. }
  rewrite IH; [|rewrite <-(assoc_L (++)); split; [done|split; [done|]]|done].
  - rewrite <-!(assoc_L (++)). assert (bool_decide (Exists (λ e : chars * list Slice, e.2 = []) ((k, sl) :: batch)) =
      bool_decide (Exists (λ e : chars * list Slice, e.2 = []) batch)) as ->; [|done].
    apply bool_decide_ext. rewrite Exists_cons. simpl. naive_solver.
  - rewrite shape_size_app. simpl. rewrite shape_size_cons. unfold entry_size. simpl. lia.
Qed.

Lemma BuildBucket_spec batch :
  batch_ok batch →
  BuildBucket batch = if bool_decide (Exists (λ e, e.2 = []) batch) then inl EC.INVALID_KEY
                      else inr (bucket_of (batch_shape batch), batch_iovs batch).
Proof. intros Hb. apply (build_bucket_spec [] batch []); [by apply batch_shape_ok|apply Hb]. Qed.

(** *** Contents *)

(** The objects of a bucket: keys with their data. *)
Definition Objects : Type := list (list ascii * list ascii).

Definition shape (objs : Objects) : Shape := (λ e, (e.1, Z.of_nat (length e.2))) <$> objs.
Definition flat (objs : Objects) : list ascii := objs ≫= λ e, e.1 ++ e.2.

(** What a batch holds when memory is [m]. *)
Definition contents (m : gmap Z ascii) (batch : list (list ascii * list Slice)) : option Objects :=
  mapM (λ e, pair e.1 <$> gather m (source_iov e.2)) batch.

Lemma gather_cons m v iov : gather m (v :: iov) = (x ← gather_one m v; y ← gather m iov; Some (x ++ y)).
Proof.
  unfold gather. simpl. destruct (gather_one m v) as [x|]; [|done]. simpl. by destruct (mapM (gather_one m) iov).
Qed.

Lemma gather_app m a b : gather m (a ++ b) = (x ← gather m a; y ← gather m b; Some (x ++ y)).
Proof.
  induction a as [|v a IH]; [simpl; by destruct (gather m b)|]. simpl app. rewrite !gather_cons, IH.
  destruct (gather_one m v) as [x|]; [|done]. simpl. destruct (gather m a) as [y|]; [|done]. simpl.
  destruct (gather m b) as [z|]; [|done]. simpl. by rewrite (assoc_L (++)).
Qed.

Lemma gather_batch m batch : gather m (batch_iovs batch) = flat <$> contents m batch.
Proof.
  unfold contents. induction batch as [|e batch IH]; [done|]. unfold batch_iovs in *. csimpl. rewrite gather_cons, gather_app, IH.
  simpl. destruct (gather m (source_iov e.2)) as [d|]; [|done]. simpl.
  destruct (mapM _ batch) as [objs|]; [|done]. simpl. by rewrite (assoc_L (++)).
Qed.

Lemma contents_shape m batch objs :
  Forall (λ e, Forall (λ s, 0 <= slice_size s) e.2) batch → contents m batch = Some objs → shape objs = batch_shape batch.
Proof.
  intros HF Hc. apply mapM_Some in Hc. revert HF. induction Hc as [|e d batch objs He Hc IH]; intros HF; [done|].
  apply Forall_cons in HF as [Hs HF]. apply fmap_Some in He as (data & Hg & ->). unfold shape, batch_shape in *. csimpl.
  rewrite IH by done. by rewrite (gather_length _ _ _ Hs Hg).
Qed.

Lemma flat_length objs : Z.of_nat (length (flat objs)) = shape_size (shape objs).
Proof.
  induction objs as [|[k d] objs IH]; [done|]. unfold flat in *. csimpl. rewrite !length_app.
  change (shape ((k, d) :: objs)) with ((k, Z.of_nat (length d)) :: shape objs). rewrite shape_size_cons, <-IH.
  unfold entry_size. simpl. lia.
Qed.

Lemma flat_app o1 o2 : flat (o1 ++ o2) = flat o1 ++ flat o2.
Proof. apply bind_app. Qed.

Lemma flat_piece o1 k d o2 :
  piece (flat (o1 ++ (k, d) :: o2)) (shape_size (shape o1) + Z.of_nat (length k)) (Z.of_nat (length d)) = d.
Proof.
  rewrite <-flat_length, flat_app. unfold flat at 2, piece. csimpl. rewrite Nat2Z.id.
  replace (Z.to_nat (Z.of_nat (length (flat o1)) + Z.of_nat (length k))) with (length (flat o1) + length k)%nat by lia.
  rewrite <-drop_drop, drop_app_length, <-(assoc_L (++)), drop_app_length. by rewrite take_app_length.
Qed.

Lemma shape_keys objs : (shape objs).*1 = objs.*1.
Proof. unfold shape. rewrite <-list_fmap_compose. done. Qed.

(** Where the metadata of a bucket says an object is, it is. *)
Lemma bucket_of_piece objs k o :
  NoDup objs.*1 → object_metadata (bucket_of (shape objs)) !! k = Some o →
  ∃ d, (k, d) ∈ objs ∧ bo_data_size o = Z.of_nat (length d) ∧ bo_key_size o = Z.of_nat (length k) ∧ 0 <= bo_offset o ∧
    bo_offset o + Z.of_nat (length k) + Z.of_nat (length d) <= shape_size (shape objs) ∧
    piece (flat objs) (bo_offset o + Z.of_nat (length k)) (Z.of_nat (length d)) = d.
Proof.
  intros Hn Hl. apply bucket_of_lookup in Hl; [|by rewrite shape_keys].
  apply layout_lookup in Hl as (s1 & n & s2 & E & ->). unfold shape in E.
  apply fmap_app_inv in E as (o1 & o2' & -> & E & ->). symmetry in E. apply fmap_cons_inv in E as ([k' d] & o2 & E & -> & ->).
  simpl in E. injection E as -> ->. exists d. split; [apply elem_of_app; right; left|]. do 2 (split; [done|]).
  cbn [bo_offset]. fold (shape o1). split; [rewrite <-flat_length; lia|].
  rewrite Z.add_0_l. split; [|apply flat_piece].
  change (shape (o1 ++ (k', d) :: o2)) with ((λ e : chars * chars, (e.1, Z.of_nat (length e.2))) <$> (o1 ++ (k', d) :: o2)).
  rewrite fmap_app, fmap_cons, shape_size_app, shape_size_cons. fold (shape o1) (shape o2). unfold entry_size. simpl.
  rewrite <-(flat_length o2). lia.
Qed.
