(* ===== verification/BucketInv.v ===== *)
(** * BucketInv: what the bucket backend keeps true

    The invariant of [BucketStorageBackend] under concurrent batches: every bucket in the
    index has its metadata file and a data file that starts like its contents, the index of
    keys agrees with the buckets, the total is the sum of the sizes, and the next bucket
    number is new.  The phases of an offload preserve it. *)

From S2P Require Import Prelude Types StorePath PosixFiles PosixSpec StorageBackend StorageCorrect BucketStorage BucketLayout.
From Stdlib Require Import Ascii.
Open Scope Z_scope.

(** What the code relies on of struct_pb: the reflected fields, which are all but
    [meta_size], are read back, and the image of a bucket with keys is not empty. *)
Class ProtobufLaws (PB : Protobuf) : Prop := {
  pb_roundtrip m : from_pb (to_pb m) = Some (set_meta_size 0 m);
  pb_nonempty m : keys m ≠ [] → to_pb m ≠ [];
}.

Lemma i64_add_l x y : i64 (i64 x + y) = i64 (x + y).
Proof.
  unfold i64. replace ((x + 2 ^ 63) mod 2 ^ 64 - 2 ^ 63 + y + 2 ^ 63) with ((x + 2 ^ 63) mod 2 ^ 64 + y) by lia.
  rewrite Zplus_mod_idemp_l. do 2 f_equal. lia.
Qed.

(** The bytes of the buckets of the index. *)
Definition bucket_bytes (bk : BucketMetadata) : Z := data_size bk + meta_size bk.
Definition bytes_of (m : gmap Z BucketMetadata) : Z := zsum ((λ p, bucket_bytes p.2) <$> map_to_list m).

Lemma bytes_of_insert m id bk : m !! id = None → bytes_of (<[id := bk]> m) = bytes_of m + bucket_bytes bk.
Proof.
  intros Hid. unfold bytes_of. rewrite map_to_list_insert by done. rewrite fmap_cons, zsum_cons. cbn [snd]. lia.
Qed.

Abbreviation dpath := GetBucketDataPath.
Abbreviation mpath := GetBucketMetadataPath.

Section bucket.
Context {P : Posix} {PB : Protobuf}.

Definition objects_ok (objs : Objects) : Prop :=
  objs ≠ [] ∧ NoDup objs.*1 ∧ 0 < shape_size (shape objs) < 2 ^ 63.

(** The metadata of a bucket as it is written and as it is kept. *)
Definition written (objs : Objects) : list ascii := to_pb (bucket_of (shape objs)).
Definition recorded (objs : Objects) : BucketMetadata :=
  set_meta_size (Z.of_nat (length (written objs))) (bucket_of (shape objs)).

(** *** Writing the two files *)

Lemma StoreBucketMetadata_post path m o :
  post (StoreBucketMetadata path m) o (λ r o', only_file path o o' ∧
    match r with
    | inr m' => m' = set_meta_size (Z.of_nat (length (to_pb m))) m ∧ files o' !! path = Some (to_pb m)
    | inl _ => True
    end).
Proof.
  apply with_file_write_post; [by intros o' [Hf Hd] Hm; repeat split; [..|intros q _; by rewrite Hf]|].
  intros o' Hf Hd Hm _. assert (only_file path o o') as Ho.
  { do 2 (split; [done|]). intros q Hq. by rewrite Hf, lookup_insert_ne. }
  cbv zeta. res_step. eapply post_mono; [apply write_post; [cbn; by rewrite Hf, lookup_insert_eq|done]|].
  intros [e|n] [f s'] (H1 & H2 & H3); cbn [fst snd] in *.
  - split; [|done]. etrans; [exact Ho|]. etrans; [exact H2|]. rewrite <-H1 at 1. apply destroy_only.
  - destruct H3 as (-> & H3 & He). res_step. cbn [fst snd]. rewrite destroy_ok by (by rewrite He). cbn in H1, H3.
    split; [by etrans|done].
Qed.

Lemma WriteBucket_post id bk iovs b o :
  is_id id → Z.of_nat (length iovs) < 2 ^ 31 →
  post (WriteBucket id bk iovs) (b, o) (λ r s', s'.1 = b ∧ dirs s'.2 = dirs o ∧ mem s'.2 = mem o ∧
    (∀ q, q ≠ GetBucketDataPath b id → q ≠ GetBucketMetadataPath b id → files s'.2 !! q = files o !! q) ∧
    match r with
    | inr bk' => bk' = set_meta_size (Z.of_nat (length (to_pb bk))) bk ∧ files s'.2 !! GetBucketMetadataPath b id = Some (to_pb bk) ∧
        ∃ data n, gather (mem o) iovs = Some data ∧ files s'.2 !! GetBucketDataPath b id = Some (take n data)
    | inl _ => True
    end).
Proof.
  intros Hid Hlen. unfold WriteBucket. set (dp := GetBucketDataPath b id). set (mp := GetBucketMetadataPath b id).
  assert (dp ≠ mp) as Hne by (by apply dpath_ne_mpath). res_step. res_step. apply post_within. cbn [snd].
  apply with_file_write_post; [intros o' [Hf Hd] Hm; repeat split; [done..|intros q _ _; by cbn; rewrite Hf]|].
  intros o1 Hf1 Hd1 Hm1 _. res_step. apply vector_write_post; [cbn; by rewrite Hf1, lookup_insert_eq|done| |].
  - intros f' o' Hfn Herr [Hf Hd] Hm. cbn [fst snd]. pose proof (destroy_only f' o') as (D & M & F). rewrite Hfn in F. cbn in F.
    split; [done|]. split; [cbn; congruence|]. split; [cbn; congruence|]. split; [|done]. intros q Hq _. by rewrite F, Hf, Hf1, lookup_insert_ne.
  - intros data n o' Hg _ Hd Hm Hf _. cbn [PosixFile.filename_] in Hf. apply post_within. res_step. cbn [snd].
    eapply post_mono; [apply StoreBucketMetadata_post|]. intros r o2 [(D & M & F) Hr]. cbn [fst snd].
    rewrite destroy_ok by done.
    assert (∀ q, q ≠ dp → q ≠ mp → files o2 !! q = files o !! q) as HF.
    { intros q Hq Hq'. by rewrite F, Hf, Hf1, !lookup_insert_ne. }
    destruct r as [e|bk']; (split; [done|]; split; [cbn; congruence|]; split; [cbn; congruence|]; split; [done|]); [done|].
    destruct Hr as [-> Hr]. do 2 (split; [done|]). exists data, n. split; [by rewrite <-Hm1|].
    cbn. rewrite F, Hf by done. apply lookup_insert_eq.
Qed.

(** *** The invariant *)

(** The index of keys and the buckets agree. *)
Definition index_ok (bs : gmap Z BucketMetadata) (om : gmap (list ascii) StorageObjectMetadata) : Prop :=
  (∀ k so, om !! k = Some so → ∃ bk bo, bs !! so_bucket_id so = Some bk ∧ object_metadata bk !! k = Some bo ∧
     so = mkStorageObject (so_bucket_id so) (bo_offset bo) (bo_key_size bo) (bo_data_size bo)) ∧
  ∀ id bk k, bs !! id = Some bk → is_Some (object_metadata bk !! k) → is_Some (om !! k).

(** The files of a bucket: the metadata is complete, the data may have been cut short. *)
Definition on_disk (b : BucketStorageBackend) (o : OS) (id : Z) (objs : Objects) : Prop :=
  files o !! mpath b id = Some (written objs) ∧ ∃ n, files o !! dpath b id = Some (take n (flat objs)).

(** [pend]: buckets that are written and not published; [hist]: the contents of the buckets
    that have been written. *)
Record bucket_inv (b : BucketStorageBackend) (o : OS) (pend : list (Z * BucketMetadata)) (hist : gmap Z Objects) : Prop := {
  bi_init : initialized_ b = true;
  bi_gen : ∃ cur, bucket_id_generator_ b = Some cur ∧ 0 <= cur < 2 ^ 63 ∧ ∀ id, is_Some (hist !! id) → 0 < id <= cur;
  bi_objects : ∀ id objs, hist !! id = Some objs → objects_ok objs;
  bi_disk : ∀ id objs, hist !! id = Some objs → on_disk b o id objs;
  bi_buckets : ∀ id bk, buckets_ b !! id = Some bk → ∃ objs, hist !! id = Some objs ∧ bk = recorded objs;
  bi_index : index_ok (buckets_ b) (object_bucket_map_ b);
  bi_total : total_size_ b = i64 (bytes_of (buckets_ b));
  bi_pending : ∀ id bk, (id, bk) ∈ pend → buckets_ b !! id = None ∧ ∃ objs, hist !! id = Some objs ∧ bk = recorded objs;
  bi_nodup : NoDup pend.*1;
}.

Lemma bi_id b o pend hist id : bucket_inv b o pend hist → is_Some (hist !! id) → is_id id.
Proof. intros BI Hid. destruct (bi_gen _ _ _ _ BI) as (cur & _ & Hc & H). specialize (H id Hid). unfold is_id. lia. Qed.

(** Entering a bucket in the index. *)
Lemma index_ok_insert bs om id bk :
  bs !! id = None → index_ok bs om → index_ok (<[id := bk]> bs) (index_bucket id bk om).
Proof.
  intros Hid [H1 H2]. unfold index_bucket. split.
  - intros k so Hk. apply lookup_union_Some_raw in Hk as [Hk|[Hk E]].
    + destruct (H1 k so Hk) as (bk' & bo & Hb & Ho & Es). exists bk', bo. split; [|done].
      rewrite lookup_insert_ne; [done|]. intros ->. congruence.
    + rewrite lookup_fmap in E. destruct (object_metadata bk !! k) as [bo|] eqn:Eo; [|done]. injection E as <-.
      exists bk, bo. by rewrite lookup_insert_eq.
  - intros id' bk' k Hb Hk. apply lookup_insert_Some in Hb as [[-> ->]|[Hne Hb]].
    + apply lookup_union_is_Some. right. by rewrite lookup_fmap, fmap_is_Some.
    + apply lookup_union_is_Some. left. by eapply H2.
Qed.

Lemma bucket_inv_files b o o' pend hist :
  bucket_inv b o pend hist →
  (∀ id, is_Some (hist !! id) → files o' !! mpath b id = files o !! mpath b id ∧ files o' !! dpath b id = files o !! dpath b id) →
  bucket_inv b o' pend hist.
Proof.
  intros [] HF. split; try done. intros id objs Hid. destruct (HF id (ex_intro _ _ Hid)) as [E1 E2]. unfold on_disk.
  rewrite E1, E2. by apply bi_disk0.
Qed.

(** A bucket that has been written and is to be published. *)
Lemma bucket_inv_add b o pend hist id objs :
  bucket_inv b o pend hist → hist !! id = None → 0 < id → bucket_id_generator_ b = Some id →
  objects_ok objs → on_disk b o id objs → bucket_inv b o ((id, recorded objs) :: pend) (<[id := objs]> hist).
Proof.
  intros BI Hfresh Hpos Eg Hok Hdisk. destruct BI. split; try done.
  - destruct bi_gen0 as (cur & E & Hc & Hids). exists cur. split; [done|]. split; [done|]. intros id' Hs.
    destruct (decide (id' = id)) as [->|Hne]; [rewrite Eg in E; injection E as <-; lia|]. rewrite lookup_insert_ne in Hs by done. by apply Hids.
  - intros id' objs' Hl. apply lookup_insert_Some in Hl as [[<- <-]|[Hne Hl]]; [done|by eapply bi_objects0].
  - intros id' objs' Hl. apply lookup_insert_Some in Hl as [[<- <-]|[Hne Hl]]; [done|by apply bi_disk0].
  - intros id' bk Hl. destruct (bi_buckets0 id' bk Hl) as (objs' & Ho & ->). exists objs'. split; [|done].
    rewrite lookup_insert_ne; [done|]. intros <-. congruence.
  - intros id' bk Hin. apply elem_of_cons in Hin as [E|Hin].
    + injection E as -> ->. split; [|exists objs; by rewrite lookup_insert_eq]. apply eq_None_not_Some. intros [bk Hl].
      destruct (bi_buckets0 _ _ Hl) as (? & ? & _). congruence.
    + destruct (bi_pending0 id' bk Hin) as (H1 & objs' & H2 & H3). split; [done|]. exists objs'. split; [|done].
      rewrite lookup_insert_ne; [done|]. intros <-. congruence.
  - simpl. constructor; [|done]. intros Hin. apply list_elem_of_fmap in Hin as ([id' bk] & E & Hin). simpl in E. subst id'.
    destruct (bi_pending0 _ _ Hin) as (_ & ? & ? & _). congruence.
Qed.

(** Writing the files of a new bucket leaves the others alone. *)
Lemma bucket_inv_new_files b o o' pend hist id :
  bucket_inv b o pend hist → is_id id → hist !! id = None →
  (∀ q, q ≠ dpath b id → q ≠ mpath b id → files o' !! q = files o !! q) → bucket_inv b o' pend hist.
Proof.
  intros BI Hid Hfresh HF. eapply bucket_inv_files; [exact BI|]. intros id' Hs. pose proof (bi_id _ _ _ _ id' BI Hs) as Hid'.
  assert (id' ≠ id) as Hne by (intros ->; destruct Hs; congruence).
  split; apply HF; try (apply not_eq_sym, dpath_ne_mpath; done); try (apply dpath_ne_mpath; done).
  - intros E. by apply mpath_inj in E.
  - intros E. by apply dpath_inj in E.
Qed.

(** The counter of bucket numbers moves to a new one. *)
Lemma bucket_inv_next b o pend hist cur :
  bucket_inv b o pend hist → bucket_id_generator_ b = Some cur → cur + 1 < 2 ^ 63 →
  bucket_inv (set_generator (cur + 1) b) o pend hist ∧ hist !! (cur + 1) = None ∧ is_id (cur + 1).
Proof.
  intros BI Eg Hc1. destruct (bi_gen _ _ _ _ BI) as (cur' & E & Hc & Hids). rewrite Eg in E. injection E as <-. split.
  - destruct BI. split; try done. exists (cur + 1). split; [done|]. split; [lia|]. intros id' Hs. specialize (Hids id' Hs). lia.
  - split; [|unfold is_id; lia]. apply eq_None_not_Some. intros Hs. specialize (Hids _ Hs). lia.
Qed.

Lemma contents_ok m batch objs : batch_ok batch → contents m batch = Some objs → objects_ok objs.
Proof.
  intros Hb Ec. pose proof (contents_shape _ _ _ (bo_sizes _ Hb) Ec) as E. pose proof (bo_total _ Hb) as Ht. rewrite <-E in Ht.
  split; [intros ->; by destruct Ht|]. split; [|done]. rewrite <-shape_keys, E. apply batch_shape_ok, Hb.
Qed.

(** The first phase of an offload. *)
Lemma offload_write_post batch b o pend hist :
  bucket_inv b o pend hist → batch_ok batch → bucket_id_generator_ b ≠ Some (2 ^ 63 - 1) →
  post (offload_write batch) (b, o) (λ r s', storage_path_ s'.1 = storage_path_ b ∧ dirs s'.2 = dirs o ∧ mem s'.2 = mem o ∧
    object_bucket_map_ s'.1 = object_bucket_map_ b ∧ buckets_ s'.1 = buckets_ b ∧
    match r with
    | inl _ => bucket_inv s'.1 s'.2 pend hist
    | inr (id, bk) => hist !! id = None ∧ is_id id ∧
        ∃ objs, contents (mem o) batch = Some objs ∧ bk = recorded objs ∧ bucket_inv s'.1 s'.2 ((id, bk) :: pend) (<[id := objs]> hist)
    end).
Proof.
  intros BI Hb Hcur. unfold offload_write. res_step. res_step. cbn [fst]. rewrite (bi_init _ _ _ _ BI). cbn [negb].
  case_bool_decide as Ebatch; [by res_step|]. destruct (bi_gen _ _ _ _ BI) as (cur & Eg & Hc & _). res_step. unfold NextId.
  intros r s'. cbn [fst snd]. rewrite Eg. intros [= <- <-].
  assert (cur + 1 < 2 ^ 63) as Hc1 by (rewrite Eg in Hcur; assert (cur ≠ 2 ^ 63 - 1) by congruence; lia).
  rewrite i64_small by lia. destruct (bucket_inv_next _ _ _ _ _ BI Eg Hc1) as (BI1 & Hfresh & Hid).
  set (id := cur + 1) in *. set (b1 := set_generator id b) in *. res_step. unfold of_result. rewrite BuildBucket_spec by done.
  destruct (bool_decide _) eqn:Eex; [by res_step|]. res_step. res_step.
  eapply post_mono; [apply (WriteBucket_post id _ _ b1 o Hid), Hb|]. intros r [b2 o2] (E2 & Hd & Hm & HF & Hr). cbn [fst snd] in *. subst b2.
  pose proof (bucket_inv_new_files _ _ _ _ _ _ BI1 Hid Hfresh HF) as BI2.
  destruct r as [e|bk]; [done|]. destruct Hr as (-> & Hmp & data & n & Hg & Hdp).
  rewrite gather_batch in Hg. destruct (contents (mem o) batch) as [objs|] eqn:Ec; [|done]. injection Hg as <-.
  rewrite <-(contents_shape _ _ _ (bo_sizes _ Hb) Ec) in *. res_step. do 7 (split; [done|]).
  exists objs. do 2 (split; [done|]). apply bucket_inv_add; [done|done|apply Hid|done|by eapply contents_ok|].
  split; [done|]. by exists n.
Qed.

(** The index after a bucket has been published. *)
Definition published (id : Z) (bk : BucketMetadata) (b : BucketStorageBackend) : BucketStorageBackend :=
  set_index (i64 (total_size_ b + bucket_bytes bk)) (index_bucket id bk (object_bucket_map_ b)) (<[id := bk]> (buckets_ b)) b.

Lemma offload_publish_eq id bk b o :
  buckets_ b !! id = None → offload_publish id bk (b, o) = Some (inr tt, (published id bk b, o)).
Proof. intros Hid. unfold offload_publish, on_backend, put. cbn [fst snd]. by rewrite Hid. Qed.

(** The section under the lock. *)
Lemma bucket_inv_publish b o p1 id bk p2 hist :
  bucket_inv b o (p1 ++ (id, bk) :: p2) hist → buckets_ b !! id = None ∧ bucket_inv (published id bk b) o (p1 ++ p2) hist.
Proof.
  intros BI. destruct (bi_pending _ _ _ _ BI id bk) as (Hid & objs & Hh & Ebk); [apply elem_of_app; right; left|].
  split; [done|]. destruct BI. split; try done.
  - intros id' bk' Hl. cbn in Hl. apply lookup_insert_Some in Hl as [[<- <-]|[_ Hl]]; [by exists objs|by apply bi_buckets0].
  - by apply index_ok_insert.
  - cbn. rewrite bi_total0, i64_add_l, bytes_of_insert by done. done.
  - intros id' bk' Hin. destruct (bi_pending0 id' bk') as (H1 & H2).
    { apply elem_of_app. apply elem_of_app in Hin as [?|?]; [by left|right; by right]. }
    split; [|done]. cbn. rewrite lookup_insert_ne; [done|]. intros ->. rewrite fmap_app, fmap_cons in bi_nodup0.
    apply NoDup_app in bi_nodup0 as (_ & N1 & N2). apply NoDup_cons in N2 as [N2 _].
    apply elem_of_app in Hin as [Hin|Hin]; apply (list_elem_of_fmap_2 fst) in Hin; [|done]. apply (N1 id' Hin). left.
  - rewrite fmap_app in *. rewrite fmap_cons in bi_nodup0. eapply sublist_NoDup; [exact bi_nodup0|]. apply sublist_app; [done|by constructor].
Qed.

Lemma bucket_inv_abandon b o p1 e p2 hist : bucket_inv b o (p1 ++ e :: p2) hist → bucket_inv b o (p1 ++ p2) hist.
Proof.
  intros []. split; try done.
  - intros id' bk' Hin. apply bi_pending0. apply elem_of_app. apply elem_of_app in Hin as [?|?]; [by left|right; by right].
  - rewrite fmap_app in *. rewrite fmap_cons in bi_nodup0. eapply sublist_NoDup; [exact bi_nodup0|]. apply sublist_app; [done|by constructor].
Qed.
End bucket.
