(* ===== verification/BucketLoad.v ===== *)
(** * BucketLoad: what a batch load returns

    A [BatchLoad] that succeeds has filled every buffer with the bytes of the object as it
    was offloaded, whatever calls failed before; on a reliable system it succeeds for
    buckets that were written in full. *)

From S2P Require Import Prelude Types StorePath PosixFiles PosixSpec StorageBackend StorageCorrect BucketStorage BucketLayout BucketInv.
From Stdlib Require Import Ascii.
Open Scope Z_scope.

Definition buffer (slices : gmap (list ascii) Slice) (k : list ascii) : Slice := default (mkSlice 0 0) (slices !! k).

(** A request: a hash map of keys to buffers that do not overlap. *)
Record request_ok (batch : list (list ascii * Slice)) : Prop := {
  ro_keys : NoDup batch.*1;
  ro_sizes : Forall (λ e, 0 <= slice_size e.2 < 2 ^ 63) batch;
  ro_apart : ∀ k1 s1 k2 s2, (k1, s1) ∈ batch → (k2, s2) ∈ batch → k1 ≠ k2 → apart (slice_iov s1) (slice_iov s2);
}.

Lemma buffer_of batch k s : NoDup batch.*1 → (k, s) ∈ batch → buffer (list_to_map batch) k = s.
Proof. intros Hn Hin. unfold buffer. by rewrite (elem_of_list_to_map_1 batch k s). Qed.

(** The part of a list that has been cut off. *)
Lemma piece_take (c : list ascii) n off len :
  0 <= off → 0 <= len → off + len <= Z.of_nat (length (take n c)) → piece (take n c) off len = piece c off len.
Proof.
  intros H1 H2 H3. rewrite length_take in H3. unfold piece. rewrite <-(take_drop n c) at 2.
  rewrite drop_app_le by (rewrite length_take; lia). rewrite take_app_le; [done|]. rewrite length_drop, length_take. lia.
Qed.

Section load.
Context {P : Posix} {PB : Protobuf} (hist : gmap Z Objects) (slices : gmap (list ascii) Slice).

Local Abbreviation buf := (buffer slices).
Definition range (k : list ascii) : Z * Z := slice_iov (buf k).
Definition filled (m : gmap Z ascii) (objs : Objects) (k : list ascii) : Prop :=
  ∃ d, (k, d) ∈ objs ∧ fetch m (ptr (buf k)) (slice_size (buf k)) = Some d.

(** Buffers other than those of [ks] are left alone. *)
Definition outside (ks : list (list ascii)) (m m' : gmap Z ascii) : Prop :=
  ∀ v, Forall (λ k, apart v (range k)) ks → fetch m' v.1 v.2 = fetch m v.1 v.2.

Definition sizes_ok (ks : list (list ascii)) : Prop := Forall (λ k, 0 <= slice_size (buf k) < 2 ^ 63) ks.
Definition all_apart (ks : list (list ascii)) : Prop := ∀ i j k1 k2, i ≠ j → ks !! i = Some k1 → ks !! j = Some k2 → apart (range k1) (range k2).

Lemma all_apart_cons k ks : all_apart (k :: ks) → Forall (λ k', apart (range k) (range k')) ks ∧ all_apart ks.
Proof.
  intros H. split.
  - apply Forall_lookup. intros i k' Hi. by apply (H 0%nat (S i)).
  - intros i j k1 k2 Hij Hi Hj. by apply (H (S i) (S j)); [lia|..].
Qed.

Lemma all_apart_app k1 k2 : all_apart (k1 ++ k2) → all_apart k1 ∧ all_apart k2 ∧ ∀ a b, a ∈ k1 → b ∈ k2 → apart (range a) (range b).
Proof.
  intros H. split_and!.
  - intros i j a b Hij Hi Hj. apply (H i j); [done|by apply lookup_app_l_Some..].
  - intros i j a b Hij Hi Hj. apply (H (length k1 + i)%nat (length k1 + j)%nat); [lia|rewrite lookup_app_r by lia; by rewrite Nat.add_sub_swap, Nat.sub_diag..].
  - intros a b [i Hi]%list_elem_of_lookup [j Hj]%list_elem_of_lookup.
    apply (H i (length k1 + j)%nat); [apply lookup_lt_Some in Hi; lia|by apply lookup_app_l_Some|].
    rewrite lookup_app_r by lia. by rewrite Nat.add_sub_swap, Nat.sub_diag.
Qed.

Lemma load_keys_post b id objs n ks s :
  buckets_ b !! id = Some (recorded objs) → objects_ok objs → content s.1 s.2 = take n (flat objs) →
  PosixFile.error_code_ s.1 ≠ EC.FILE_WRITE_FAIL → sizes_ok ks → all_apart ks →
  post (load_keys b id slices ks) s (λ r s', reading s s' ∧ outside ks (mem s.2) (mem s'.2) ∧
    (r = inr tt → ∀ k, k ∈ ks → filled (mem s'.2) objs k)).
Proof.
  intros Hbk (_ & Hnd & Hsz). revert s. induction ks as [|k ks IH]; intros s Hc Herr Hs Ha; cbn [load_keys].
  { res_step. split; [by destruct s|]. split; [done|]. intros _ k ?%elem_of_nil. done. }
  rewrite Hbk. apply Forall_cons in Hs as [Hk Hs]. apply all_apart_cons in Ha as [Hak Ha]. fold (buf k).
  destruct (object_metadata (recorded objs) !! k) as [bo|] eqn:Eo; [|by res_step; split; [by destruct s|]].
  destruct (bucket_of_piece objs k bo Hnd Eo) as (d & Hin & Hds & Hks & Hoff & Hend & Hpiece).
  rewrite Hds, u64_small by (unfold is_u64; lia). destruct (Z.eqb_spec (Z.of_nat (length d)) (slice_size (buf k))) as [Esz|]; cbn [negb];
    [|by res_step; split; [by destruct s|]].
  rewrite i64_small by lia. res_step. destruct s as [f o]. cbn [fst snd] in *.
  assert (∀ data, outside (k :: ks) (mem o) (scatter [range k] data (mem o))) as Hout.
  { intros data v Hv. apply Forall_cons in Hv as [Hv _]. apply scatter_apart. constructor; [split; [apply Hk|done]|constructor]. }
  apply (vector_read_post [range k]); [done|constructor; [apply Hk|constructor]|intros o' Hsf Hm; split; [done|]; split; [intros v _; cbn; by rewrite Hm|done]|].
  intros n' o' _ Hsf (data & Hm) Hread. destruct (Z.eqb_spec n' (slice_size (buf k))) as [En|]; cbn [negb].
  2:{ res_step. split; [done|]. split; [cbn [snd]; rewrite Hm; apply Hout|done]. }
  assert (reading (f, o) (f, o')) as HR by done.
  eapply post_mono; [apply IH; [by rewrite (reading_content _ _ HR)|done..]|]. intros r s2 (HR2 & Hout2 & Hfill).
  split; [by eapply reading_trans|]. split.
  { intros v Hv. rewrite Hout2 by (by apply Forall_cons in Hv as [_ Hv]). cbn [snd]. rewrite Hm. by apply Hout. }
  intros Hr k' [->|Hk']%elem_of_cons; [|by apply Hfill]. exists d. split; [done|].
  change (fetch (mem s2.2) (range k).1 (range k).2 = Some d). rewrite (Hout2 (range k) Hak). cbn [snd].
  assert (iov_total [range k] = slice_size (buf k)) as Et by (rewrite iov_total_cons; change (iov_total []) with 0; cbn; lia).
  rewrite Et in Hread. destruct (Hread En) as [-> Hle]. rewrite Hc in *.
  destruct (decide (slice_size (buf k) = 0)) as [E0|Hn0].
  { rewrite fetch_0 by (cbn; lia). f_equal. symmetry. apply nil_length_inv. lia. }
  rewrite piece_take by lia. rewrite <-Esz, Hpiece.
  rewrite (scatter_fetch [range k] d (mem o) 0 (range k)); [|split; [constructor; [apply Hk|constructor]|intros [|i] [|j]; done]|rewrite Et; lia|done].
  f_equal. unfold piece. cbn [take]. change (Z.to_nat (iov_total [])) with 0%nat. rewrite drop_0, take_ge; [done|].
  change (range k).2 with (slice_size (buf k)). lia.
Qed.

Lemma load_keys_none b id ks s :
  buckets_ b !! id = None → post (load_keys b id slices ks) s (λ r s', s' = s ∧ (r = inr tt → ks = [])).
Proof. intros Hb. destruct ks as [|k ks]; cbn [load_keys]; [by res_step|]. rewrite Hb. by res_step. Qed.

(** What is known of the buckets that are loaded. *)
Definition loadable_bucket (b : BucketStorageBackend) (o : OS) (id : Z) (objs : Objects) : Prop :=
  hist !! id = Some objs ∧ buckets_ b !! id = Some (recorded objs) ∧ objects_ok objs ∧
  ∃ n, files o !! dpath b id = Some (take n (flat objs)).

Lemma BatchLoadBucket_post b o id ks :
  (∀ bk, buckets_ b !! id = Some bk → ∃ objs, loadable_bucket b o id objs) → sizes_ok ks → all_apart ks →
  post (BatchLoadBucket id ks slices) (b, o) (λ r s', s'.1 = b ∧ same_files o s'.2 ∧ outside ks (mem o) (mem s'.2) ∧
    (r = inr tt → ∀ k, k ∈ ks → ∃ objs, loadable_bucket b o id objs ∧ filled (mem s'.2) objs k)).
Proof.
  intros Hb Hs Ha. unfold BatchLoadBucket. res_step. res_step. apply post_within. cbn [fst snd].
  apply with_file_read_post; [intros o' Hsf Hm; split; [done|]; split; [done|]; split; [|done]; intros v _; cbn; by rewrite Hm|].
  intros o1 [Hf Hd] Hm _. set (st := (PosixFile.mk (dpath b id) 0 EC.OK, o1)).
  destruct (buckets_ b !! id) as [bk|] eqn:Eb.
  - destruct (Hb bk eq_refl) as (objs & HL). pose proof HL as (_ & Ebk & Hok & n & Hn).
    eapply post_mono; [apply (load_keys_post b id objs n ks st); [done|done|unfold content; cbn; by rewrite Hf, Hn|done..]|].
    intros r s' (HR & Hout & Hfill). destruct HR as (_ & Herr & Hsf). rewrite destroy_ok by done. split; [done|].
    split; [etrans; [|exact Hsf]; done|]. split; [intros v Hv; cbn; rewrite (Hout v Hv); cbn; by rewrite Hm|].
    intros Hr k Hk. exists objs. split; [done|]. by apply Hfill.
  - eapply post_mono; [by apply load_keys_none|]. intros r s' [-> Hr]. rewrite destroy_ok by done. split; [done|]. split; [done|].
    split; [intros v _; cbn; by rewrite Hm|]. intros Hr' k Hk. rewrite (Hr Hr') in Hk. by apply elem_of_nil in Hk.
Qed.

Lemma loadable_bucket_files b o o' id objs : same_files o o' → loadable_bucket b o id objs ↔ loadable_bucket b o' id objs.
Proof. intros [Hf _]. unfold loadable_bucket. by rewrite Hf. Qed.

Lemma load_buckets_post b groups o :
  (∀ id bk, buckets_ b !! id = Some bk → ∃ objs, loadable_bucket b o id objs) →
  sizes_ok (groups ≫= snd) → all_apart (groups ≫= snd) →
  post (load_buckets groups slices) (b, o) (λ r s', s'.1 = b ∧ same_files o s'.2 ∧ outside (groups ≫= snd) (mem o) (mem s'.2) ∧
    (r = inr tt → ∀ id ks k, (id, ks) ∈ groups → k ∈ ks → ∃ objs, loadable_bucket b o id objs ∧ filled (mem s'.2) objs k)).
Proof.
  revert o. induction groups as [|[id ks] groups IH]; intros o Hb Hs Ha; cbn [load_buckets].
  { res_step. do 3 (split; [done|]). intros _ id ks k ?%elem_of_nil. done. }
  csimpl in Hs. csimpl in Ha. apply Forall_app in Hs as [Hs1 Hs2]. apply all_apart_app in Ha as (Ha1 & Ha2 & Ha12). res_step.
  eapply post_mono; [apply BatchLoadBucket_post; [intros bk Hbk; by eapply Hb|done..]|].
  intros r [b1 o1] (E & Hsf & Hout & Hfill). cbn [fst snd] in *. subst b1.
  assert (∀ v, Forall (λ k, apart v (range k)) (ks ++ (groups ≫= snd)) → Forall (λ k, apart v (range k)) ks) as Hpart.
  { by intros v [? _]%Forall_app. }
  destruct r as [e|[]].
  { do 2 (split; [done|]). split; [intros v Hv; by apply Hout, Hpart|done]. }
  eapply post_mono; [apply IH; [|done..]|].
  - intros id' bk Hbk. destruct (Hb id' bk Hbk) as [objs HL]. exists objs. by apply (loadable_bucket_files _ o).
  - intros r s' (E' & Hsf' & Hout' & Hfill'). split; [done|]. split; [by etrans|]. split.
    { intros v Hv. csimpl in Hv. pose proof (Hpart v Hv). apply Forall_app in Hv as [_ Hv]. by rewrite Hout', Hout. }
    intros Hr id' ks' k [E|Hin]%elem_of_cons Hk.
    + injection E as -> ->. destruct (Hfill eq_refl k Hk) as (objs & HL & d & Hd & Hfetch). exists objs. split; [done|].
      exists d. split; [done|]. rewrite <-Hfetch. apply (Hout' (range k)). apply Forall_forall. intros k2 Hk2. by apply Ha12.
    + destruct (Hfill' Hr id' ks' k Hin Hk) as (objs & HL & Hd). exists objs. split; [|done].
      exact (proj2 (loadable_bucket_files b o o1 id' objs Hsf) HL).
Qed.
End load.

(** *** Grouping the keys of a request *)

Definition grouped (m : gmap Z (list (list ascii))) : list (list ascii) := map_to_list m ≫= snd.

Lemma grouped_insert m id k :
  grouped (<[id := default [] (m !! id) ++ [k]]> m) ≡ₚ k :: grouped m.
Proof.
  unfold grouped. destruct (m !! id) as [l|] eqn:E; simpl.
  - rewrite <-(insert_delete_id m id l E) at 2. rewrite <-(insert_delete_eq m). rewrite !map_to_list_insert by (by rewrite lookup_delete_eq).
    csimpl. rewrite <-(assoc_L (++)). symmetry. apply Permutation_middle.
  - rewrite map_to_list_insert by done. done.
Qed.

Lemma group_keys_spec b batch m m' :
  group_keys b batch m = inr m' →
  grouped m' ≡ₚ batch.*1 ++ grouped m ∧
  (∀ k s, (k, s) ∈ batch → is_Some (object_bucket_map_ b !! k)) ∧
  ((∀ id ks k, m !! id = Some ks → k ∈ ks → ∃ so, object_bucket_map_ b !! k = Some so ∧ so_bucket_id so = id) →
   ∀ id ks k, m' !! id = Some ks → k ∈ ks → ∃ so, object_bucket_map_ b !! k = Some so ∧ so_bucket_id so = id).
Proof.
  revert m. induction batch as [|[k s] batch IH]; intros m; simpl.
  { intros [= <-]. split; [done|]. split; [by intros ?? ?%elem_of_nil|done]. }
  destruct (object_bucket_map_ b !! k) as [so|] eqn:Ek; [|done]. intros E. apply IH in E as (Hp & Hall & Hids).
  split; [by rewrite Hp, grouped_insert, Permutation_middle|]. split.
  - intros k' s' [[= -> ->]|Hin]%elem_of_cons; [by rewrite Ek|by eapply Hall].
  - intros Hm. apply Hids. intros id ks k' Hl Hk'. apply lookup_insert_Some in Hl as [[<- <-]|[_ Hl]]; [|by eapply Hm].
    apply elem_of_app in Hk' as [Hk'|Hk']; [|apply list_elem_of_singleton in Hk' as ->; by exists so].
    destruct (m !! so_bucket_id so) as [l|] eqn:El; [by eapply Hm|by apply elem_of_nil in Hk'].
Qed.

Section batch.
Context {P : Posix} {PB : Protobuf} (arrange : list (Z * list (list ascii)) → list (Z * list (list ascii))).
Context (Harr : ∀ l, arrange l ≡ₚ l).

(** The keys of the request, bucket by bucket. *)
Lemma arranged_keys b batch groups :
  request_ok batch → group_keys b batch ∅ = inr groups →
  let ks := arrange (map_to_list groups) ≫= snd in
  ks ≡ₚ batch.*1 ∧ sizes_ok (list_to_map batch) ks ∧ all_apart (list_to_map batch) ks.
Proof.
  intros [Hn Hs Ha] Hg ks. destruct (group_keys_spec _ _ _ _ Hg) as (Hp & _ & _).
  assert (ks ≡ₚ batch.*1) as Hks.
  { unfold ks. rewrite Harr. change (grouped groups ≡ₚ batch.*1). rewrite Hp. unfold grouped. by rewrite map_to_list_empty, app_nil_r. }
  assert (∀ k, k ∈ ks → ∃ s, (k, s) ∈ batch ∧ buffer (list_to_map batch) k = s) as Hin.
  { intros k Hk. rewrite Hks in Hk. apply list_elem_of_fmap in Hk as ([k' s] & -> & Hk). exists s. split; [done|]. by apply buffer_of. }
  split; [done|]. split.
  - apply Forall_forall. intros k Hk. destruct (Hin k Hk) as (s & Hb & ->). by eapply Forall_forall in Hs; [|exact Hb].
  - intros i j k1 k2 Hij H1 H2. destruct (Hin k1) as (s1 & B1 & E1); [by eapply list_elem_of_lookup_2|].
    destruct (Hin k2) as (s2 & B2 & E2); [by eapply list_elem_of_lookup_2|]. unfold range. rewrite E1, E2.
    apply (Ha k1 s1 k2 s2 B1 B2). intros ->. apply Hij. eapply (NoDup_lookup ks); [by rewrite Hks|done|done].
Qed.

Lemma inv_loadable b o pend hist id bk :
  bucket_inv b o pend hist → buckets_ b !! id = Some bk → ∃ objs, loadable_bucket hist b o id objs.
Proof.
  intros BI Hb. destruct (bi_buckets _ _ _ _ BI id bk Hb) as (objs & Ho & ->). exists objs. split; [done|]. split; [done|].
  split; [by eapply bi_objects|]. by apply (bi_disk _ _ _ _ BI id objs Ho).
Qed.

Lemma BatchLoad_post b o pend hist batch :
  bucket_inv b o pend hist → request_ok batch →
  post (BatchLoad arrange batch) (b, o) (λ r s', s'.1 = b ∧ same_files o s'.2 ∧ (r = inr tt → ∀ k sl, (k, sl) ∈ batch →
    ∃ so objs d, object_bucket_map_ b !! k = Some so ∧ hist !! so_bucket_id so = Some objs ∧ (k, d) ∈ objs ∧
      fetch (mem s'.2) (ptr sl) (slice_size sl) = Some d)).
Proof.
  intros BI Hreq. unfold BatchLoad. res_step. res_step. cbn [fst]. res_step. unfold of_result.
  destruct (group_keys b batch ∅) as [e|groups] eqn:Hg; [by res_step|]. res_step.
  destruct (arranged_keys _ _ _ Hreq Hg) as (Hks & Hs & Ha). destruct (group_keys_spec _ _ _ _ Hg) as (_ & _ & Hids).
  eapply post_mono; [apply (load_buckets_post hist); [|done..]|].
  { intros id bk Hb. by eapply inv_loadable. }
  intros r s' (E & Hsf & _ & Hfill). split; [done|]. split; [done|]. intros Hr k sl Hin.
  assert (k ∈ arrange (map_to_list groups) ≫= snd) as Hk by (rewrite Hks; by apply (list_elem_of_fmap_2 fst _ (k, sl))).
  apply list_elem_of_bind in Hk as ([id ks] & Hk & Hgr). destruct (Hfill Hr id ks k Hgr Hk) as (objs & HL & d & Hd & Hf).
  rewrite Harr in Hgr. apply elem_of_map_to_list in Hgr.
  destruct (Hids ltac:(done) id ks k Hgr Hk) as (so & Hso & <-). exists so, objs, d. split; [done|].
  rewrite (buffer_of batch k sl) in Hf by (done || apply Hreq). split; [apply HL|done].
Qed.
End batch.

(** *** Loads that cannot fail *)

Definition grows (m m' : gmap Z ascii) : Prop := ∀ a, is_Some (m !! a) → is_Some (m' !! a).

Section reliable.
Context {P : Posix} {PB : Protobuf} (N : nat) (Hrel : reliable N) (hist : gmap Z Objects) (slices : gmap (list ascii) Slice).

Local Abbreviation buf := (buffer slices).

(** The bucket is complete and the buffer of the key fits. *)
Definition fits (objs : Objects) (m : gmap Z ascii) (k : list ascii) : Prop :=
  (Z.to_nat (slice_size (buf k)) <= N)%nat ∧ is_Some (fetch m (ptr (buf k)) (slice_size (buf k))) ∧
  ∃ bo, object_metadata (recorded objs) !! k = Some bo ∧ bo_data_size bo = slice_size (buf k).

Lemma fits_grows objs m m' k : grows m m' → fits objs m k → fits objs m' k.
Proof.
  intros Hg (H1 & H2 & H3). split; [done|]. split; [|done]. apply fetch_Some_iff. intros a Ha. apply Hg.
  by apply (proj1 (fetch_Some_iff _ _ _) H2).
Qed.

Lemma load_keys_ends b id objs ks f o :
  buckets_ b !! id = Some (recorded objs) → objects_ok objs → files o !! PosixFile.filename_ f = Some (flat objs) →
  sizes_ok slices ks → (∀ k, k ∈ ks → fits objs (mem o) k) →
  ends (load_keys b id slices ks) (f, o) (λ r s', r = inr tt ∧ grows (mem o) (mem s'.2) ∧ same_files o s'.2 ∧ s'.1 = f).
Proof.
  intros Hbk Hok. pose proof Hok as (_ & Hnd & Hsz). revert o. induction ks as [|k ks IH]; intros o Hc Hs Hfit; cbn [load_keys].
  { res_step. split; [done|]. split; [by intros a|]. done. }
  rewrite Hbk. apply Forall_cons in Hs as [Hk Hs]. fold (buf k). destruct (Hfit k) as (HN & Hmap & bo & Eo & Ebo); [left|].
  rewrite Eo, Ebo, u64_small, Z.eqb_refl by (unfold is_u64; lia). cbn [negb].
  destruct (bucket_of_piece objs k bo Hnd Eo) as (d & _ & Hds & _ & Hoff & Hend & _). rewrite i64_small by lia.
  assert (iov_total [range slices k] = slice_size (buf k)) as Et by (rewrite iov_total_cons; change (iov_total []) with 0; cbn; lia).
  res_step. eexists _, _. split; [apply (vector_read_reliable [range slices k] _ f o (flat objs))|].
  - rewrite Et. by eapply reliable_mono.
  - done.
  - constructor; [apply Hk|constructor].
  - unfold IOV_MAX. cbn. lia.
  - lia.
  - rewrite Et. lia.
  - unfold mapped. cbn [forallb]. rewrite andb_true_r. by apply bool_decide_eq_true_2.
  - rewrite Et, flat_length. lia.
  - cbv iota. rewrite Et, Z.eqb_refl. cbn [negb]. set (o1 := tick _).
    assert (grows (mem o) (mem o1)) as Hg by (intros a; apply scatter_is_Some).
    eapply ends_mono; [apply (IH o1); [done|done|]|].
    + intros k' Hk'. eapply fits_grows; [exact Hg|]. apply Hfit. by right.
    + intros r s' (-> & Hg' & [Hf' Hd'] & ->). split; [done|]. split; [intros a Ha; by apply Hg', Hg|]. done.
Qed.

Lemma load_buckets_ends b groups o :
  sizes_ok slices (groups ≫= snd) →
  (∀ id ks k, (id, ks) ∈ groups → k ∈ ks → ∃ objs, buckets_ b !! id = Some (recorded objs) ∧ objects_ok objs ∧
     files o !! dpath b id = Some (flat objs) ∧ fits objs (mem o) k) →
  (∀ id ks, (id, ks) ∈ groups → ks ≠ []) →
  ends (load_buckets groups slices) (b, o) (λ r s', r = inr tt).
Proof.
  intros Hs Hfit Hne. revert o Hs Hfit. induction groups as [|[id ks] groups IH]; intros o Hs Hfit; cbn [load_buckets]; [by res_step|].
  csimpl in Hs. apply Forall_app in Hs as [Hs1 Hs2]. res_step. unfold BatchLoadBucket. res_step. res_step. cbn [fst snd].
  apply ends_within. cbn [snd]. pose proof (Hne id ks ltac:(left)) as Hks. destruct ks as [|k0 ks]; [done|].
  destruct (Hfit id (k0 :: ks) k0 ltac:(left) ltac:(left)) as (objs & Hb & Hok & Hfile & _).
  apply with_file_read_ends; [by eapply reliable_mono; [|exact Hrel]; lia|by rewrite Hfile|].
  eapply ends_mono; [apply (load_keys_ends b id objs (k0 :: ks)); [done|done|done|done|]|].
  - intros k Hk. destruct (Hfit id (k0 :: ks) k ltac:(left) Hk) as (objs' & Hb' & _ & Hfile' & HN & Hm & bo & Hbo).
    rewrite Hb in Hb'. apply (inj Some) in Hb'. split; [done|]. split; [done|]. exists bo. by rewrite Hb'.
  - intros r s' (-> & Hg & [Hf Hd] & Hs'). rewrite destroy_ok by (by rewrite Hs'). apply IH; [|done|].
    + intros id' ks' Hin. apply (Hne id' ks'). by right.
    + intros id' ks' k Hin Hk. destruct (Hfit id' ks' k ltac:(by right) Hk) as (objs' & Hb' & Hok' & Hfile' & Hfit').
      exists objs'. do 2 (split; [done|]). split; [cbn; rewrite Hf; done|]. by eapply fits_grows.
Qed.
End reliable.

Lemma group_keys_total b batch m :
  (∀ k s, (k, s) ∈ batch → is_Some (object_bucket_map_ b !! k)) → ∃ m', group_keys b batch m = inr m'.
Proof.
  revert m. induction batch as [|[k s] batch IH]; intros m H; [by exists m|]. simpl.
  destruct (H k s ltac:(left)) as [so ->]. apply IH. intros k' s' Hin. apply (H k' s'). by right.
Qed.

Lemma group_keys_nonempty b batch m m' :
  group_keys b batch m = inr m' → map_Forall (λ _ ks, ks ≠ []) m → map_Forall (λ _ ks, ks ≠ []) m'.
Proof.
  revert m. induction batch as [|[k s] batch IH]; intros m; simpl; [by intros [= <-]|].
  destruct (object_bucket_map_ b !! k) as [so|]; [|done]. intros E HF. apply (IH _ E), map_Forall_insert_2; [by destruct (default _ _)|done].
Qed.

Section complete.
Context {P : Posix} {PB : Protobuf} (arrange : list (Z * list (list ascii)) → list (Z * list (list ascii))).
Context (Harr : ∀ l, arrange l ≡ₚ l).

(** A key whose bucket was written in full, with a buffer of the right size. *)
Definition servable (N : nat) (b : BucketStorageBackend) (o : OS) (hist : gmap Z Objects) (k : list ascii) (sl : Slice) : Prop :=
  ∃ so objs, object_bucket_map_ b !! k = Some so ∧ hist !! so_bucket_id so = Some objs ∧
    files o !! dpath b (so_bucket_id so) = Some (flat objs) ∧ so_data_size so = slice_size sl ∧
    (Z.to_nat (slice_size sl) <= N)%nat ∧ is_Some (fetch (mem o) (ptr sl) (slice_size sl)).

Lemma BatchLoad_ends N b o pend hist batch :
  reliable N → bucket_inv b o pend hist → request_ok batch → (∀ k sl, (k, sl) ∈ batch → servable N b o hist k sl) →
  ends (BatchLoad arrange batch) (b, o) (λ r s', r = inr tt).
Proof.
  intros Hrel BI Hreq Hserv. unfold BatchLoad. res_step. res_step. cbn [fst]. res_step. unfold of_result.
  destruct (group_keys_total b batch ∅) as [groups Hg].
  { intros k s Hin. destruct (Hserv k s Hin) as (so & ? & -> & _). done. }
  rewrite Hg. res_step. destruct (arranged_keys arrange Harr _ _ _ Hreq Hg) as (Hks & Hs & Ha).
  destruct (group_keys_spec _ _ _ _ Hg) as (Hp & _ & Hids). pose proof (group_keys_nonempty _ _ _ _ Hg (map_Forall_empty _)) as Hne.
  apply (load_buckets_ends N Hrel); [done| |].
  - intros id ks k Hin Hk. assert (k ∈ batch.*1) as Hkb by (rewrite <-Hks; apply list_elem_of_bind; by exists (id, ks)).
    apply list_elem_of_fmap in Hkb as ([k' sl] & -> & Hb). destruct (Hserv _ _ Hb) as (so & objs & Hso & Ho & Hf & Hsz & HN & Hm).
    rewrite Harr in Hin. apply elem_of_map_to_list in Hin. destruct (Hids ltac:(done) id ks _ Hin Hk) as (so' & Hso' & <-).
    cbn [fst] in *. rewrite Hso in Hso'. injection Hso' as <-. destruct (proj1 (bi_index _ _ _ _ BI) _ _ Hso) as (bk & bo & Hbk & Hbo & Eso).
    destruct (bi_buckets _ _ _ _ BI _ _ Hbk) as (objs' & Ho' & ->). rewrite Ho in Ho'. injection Ho' as <-.
    exists objs. split; [done|]. split; [by eapply bi_objects|]. split; [done|]. unfold fits.
    rewrite (buffer_of batch k' sl) by (done || apply Hreq). split; [done|]. split; [done|]. exists bo. split; [done|].
    rewrite Eso in Hsz. exact Hsz.
  - intros id ks Hin. rewrite Harr in Hin. apply elem_of_map_to_list in Hin. by apply (Hne id ks).
Qed.
End complete.
