(* ===== verification/BucketInit.v ===== *)
(** * BucketInit: offloads that succeed, and starting from the files

    On a reliable system an offload writes both files in full.  [Init] rebuilds the index
    from the metadata files: it establishes the invariant for the buckets it accepts, and
    accepts all of them when no call fails. *)

From S2P Require Import Prelude Types StorePath PosixFiles PosixSpec StorageBackend StorageCorrect BucketStorage BucketLayout BucketInv.
From Stdlib Require Import Ascii.
Open Scope Z_scope.

Section offload.
Context {P : Posix} {PB : Protobuf} {HPB : ProtobufLaws PB}.

(** The storage directory is there, and no directory has the name of a bucket file. *)
Definition writable (b : BucketStorageBackend) (o : OS) : Prop :=
  (dir_name (storage_path_ b) = [] ∨ dir_name (storage_path_ b) ∈ dirs o) ∧ ∀ id, is_id id → dpath b id ∉ dirs o ∧ mpath b id ∉ dirs o.

Lemma StoreBucketMetadata_ends path m o :
  reliable (length (to_pb m)) → keys m ≠ [] → creatable path o →
  ends (StoreBucketMetadata path m) o (λ r o', r = inr (set_meta_size (Z.of_nat (length (to_pb m))) m)).
Proof.
  intros Hrel Hk Hc. unfold StoreBucketMetadata. apply with_file_write_ends; [by eapply reliable_mono; [|exact Hrel]; lia|done|].
  cbv zeta. res_step. eexists _, _. split; [apply write_reliable; [done|by apply pb_nonempty|cbn; by rewrite lookup_insert_eq|done]|].
  cbv iota. by res_step.
Qed.

Lemma WriteBucket_ends id bk iovs data b o :
  reliable (length data) → reliable (length (to_pb bk)) → keys bk ≠ [] → is_id id → writable b o →
  gather (mem o) iovs = Some data → Z.of_nat (length iovs) <= IOV_MAX → Z.of_nat (length data) < 2 ^ 63 →
  ends (WriteBucket id bk iovs) (b, o) (λ r s', r = inr (set_meta_size (Z.of_nat (length (to_pb bk))) bk) ∧
    files s'.2 !! dpath b id = Some data).
Proof.
  intros Hrel1 Hrel2 Hk Hid [Hdir Hno] Hg Hmax Hlen. destruct (Hno id Hid) as [Hd Hm]. unfold WriteBucket. res_step. res_step.
  apply ends_within. cbn [fst snd]. assert (reliable 0) as Hrel0 by (eapply reliable_mono; [|exact Hrel1]; lia).
  apply with_file_write_ends; [done|by apply dpath_creatable|]. res_step. set (o1 := tick _).
  eexists _, _. split; [apply (vector_write_reliable iovs _ o1 data); [done|cbn; by rewrite lookup_insert_eq|done..]|].
  cbv iota. apply ends_within. res_step. cbn [fst snd]. set (o2 := tick _).
  eapply ends_mono; [apply ends_post; [apply (StoreBucketMetadata_ends (mpath b id) bk o2); [done|done|by apply mpath_creatable]|apply StoreBucketMetadata_post]|].
  intros r o3 (-> & (D & M & F) & _). cbv iota. split; [done|]. cbn [fst snd]. rewrite destroy_ok by done. cbn.
  rewrite F by (by apply dpath_ne_mpath). cbn. apply lookup_insert_eq.
Qed.

Lemma offload_write_ends N batch objs b o pend hist :
  reliable N → bucket_inv b o pend hist → bucket_id_generator_ b ≠ Some (2 ^ 63 - 1) → writable b o → batch_ok batch →
  batch ≠ [] → Forall (λ e, e.2 ≠ []) batch → Z.of_nat (length (batch_iovs batch)) <= IOV_MAX →
  contents (mem o) batch = Some objs → (length (flat objs) <= N)%nat → (length (written objs) <= N)%nat →
  ends (offload_write batch) (b, o) (λ r s', ∃ id, r = inr (id, recorded objs) ∧ files s'.2 !! dpath b id = Some (flat objs)).
Proof.
  intros Hrel BI Hcur Hw Hb Hne Hsl Hmax Hc HN1 HN2. unfold offload_write. res_step. res_step. cbn [fst].
  rewrite (bi_init _ _ _ _ BI), bool_decide_eq_false_2 by done. cbn [negb]. destruct (bi_gen _ _ _ _ BI) as (cur & Eg & Hc0 & _).
  assert (cur + 1 < 2 ^ 63) as Hc1 by (rewrite Eg in Hcur; assert (cur ≠ 2 ^ 63 - 1) by congruence; lia).
  res_step. unfold NextId. eexists _, _. cbn [fst snd]. rewrite Eg, i64_small by lia. split; [done|]. cbv iota.
  destruct (bucket_inv_next _ _ _ _ _ BI Eg Hc1) as (BI1 & Hfresh & Hid). res_step. unfold of_result.
  rewrite BuildBucket_spec, bool_decide_eq_false_2; [|intros HE; apply Exists_exists in HE as (e & He & E); by eapply Forall_forall in Hsl|done].
  res_step. res_step. pose proof (contents_shape _ _ _ (bo_sizes _ Hb) Hc) as Esh. rewrite <-Esh.
  destruct (contents_ok _ _ _ Hb Hc) as (Hone & _ & Hsz).
  eapply ends_mono; [apply (WriteBucket_ends _ _ _ (flat objs))|].
  - by eapply reliable_mono.
  - by eapply reliable_mono.
  - cbn. rewrite shape_keys. by destruct objs.
  - done.
  - exact Hw.
  - by rewrite gather_batch, Hc.
  - done.
  - rewrite flat_length. lia.
  - intros r s' (-> & Hf). cbv iota. res_step. by eexists.
Qed.
End offload.

(** ** Reading the metadata back *)

Section init.
Context {P : Posix} {PB : Protobuf} {HPB : ProtobufLaws PB}.

Lemma LoadBucketMetadata_post path o c :
  files o !! path = Some c →
  post (LoadBucketMetadata path) o (λ r o', same_files o o' ∧
    ∀ m, r = inr (inr m) → ∃ m0, from_pb c = Some m0 ∧ m = set_meta_size (Z.of_nat (length c)) m0).
Proof.
  intros Hc. unfold LoadBucketMetadata. res_step. res_step. apply with_file_read_post.
  { intros o' Hsf _. res_step. split; [done|]. by intros m [=]. }
  intros o1 [Hf Hd] _ _ r s'. unfold file_size. cbn [fst snd]. destruct (env (calls o1)) as [e|n0].
  { intros [= <- <-]. cbn [fst snd]. rewrite destroy_ok by done. res_step. split; [done|]. by intros m [=]. }
  rewrite Hf, Hc. cbn [option_map fmap option_fmap]. destruct (PosixFile.read _ _) as [[r1 s1]|] eqn:Er; [|done].
  pose proof (read_post (Z.to_nat (Z.of_nat (length c))) c (PosixFile.mk path 0 EC.OK) (tick o1) ltac:(cbn; by rewrite Hf) eq_refl _ _ Er)
    as (_ & Hsf & _ & Herr & Hr). specialize (Herr ltac:(done)).
  assert (same_files o (PosixFile.destroy s1.1 s1.2)) as Hsame.
  { rewrite destroy_ok by done. destruct Hsf as [H1 H2]. split; cbn; [by rewrite H1|by rewrite H2]. }
  destruct r1 as [e|str]; intros [= <- <-]; res_step; (split; [done|]); intros m; [done|].
  destruct Hr as [-> _]. rewrite Nat2Z.id, take_ge by done. destruct (from_pb c) as [m0|]; [|done]. intros [= <-]. by exists m0.
Qed.

Lemma LoadBucketMetadata_ends path o c m0 :
  reliable (length c) → files o !! path = Some c → c ≠ [] → from_pb c = Some m0 →
  ends (LoadBucketMetadata path) o (λ r o', r = inr (inr (set_meta_size (Z.of_nat (length c)) m0))).
Proof.
  intros Hrel Hc Hne Hpb. unfold LoadBucketMetadata. res_step. res_step.
  apply with_file_read_ends; [by eapply reliable_mono; [|exact Hrel]; lia|by rewrite Hc|].
  eexists _, _. unfold file_size. cbn [fst snd]. destruct (Hrel (calls (tick o))) as (n & -> & _).
  change (files (tick o)) with (files o). rewrite Hc. cbn [option_map fmap option_fmap]. rewrite Nat2Z.id.
  rewrite (read_reliable _ _ c) by done. split; [done|]. cbv iota. rewrite Hpb. by res_step.
Qed.

Lemma drop_bucket_post id b o :
  post (drop_bucket id) (b, o) (λ r s', storage_path_ s'.1 = storage_path_ b ∧ (r = inr tt → s'.1 = set_buckets (delete id (buckets_ b)) b ∧
    ∀ q, q ≠ dpath b id → q ≠ mpath b id → files s'.2 !! q = files o !! q)).
Proof.
  unfold drop_bucket. res_step. res_step. cbn [fst].
  assert (∀ p o, post (remove_or_throw p) o (λ r o', ∀ q, q ≠ p → files o' !! q = files o !! q)) as Hrm.
  { intros p o' r o''. unfold remove_or_throw, remove. destruct (env _); intros [= <- <-] q Hq; [done|]. cbn. by rewrite lookup_delete_ne. }
  res_step. apply post_within. cbn [snd]. eapply post_mono; [apply Hrm|]. intros [e|[]] o1 H1; [done|].
  res_step. apply post_within. cbn [snd]. eapply post_mono; [apply Hrm|]. intros [e|[]] o2 H2; [done|].
  apply post_put. split; [done|]. intros _. split; [done|]. intros q Hq Hq'. cbn. by rewrite H2, H1.
Qed.

(** *** The loop over the files *)

Context (hist : gmap Z Objects) (Hhist : ∀ id objs, hist !! id = Some objs → is_id id ∧ objects_ok objs).

(** The metadata files of [seen] have been read. *)
Record init_inv (b : BucketStorageBackend) (o : OS) (seen : list (list ascii)) (max : Z) : Prop := {
  ii_disk : ∀ id objs, hist !! id = Some objs → mpath b id ∉ seen ∨ is_Some (buckets_ b !! id) → on_disk b o id objs;
  ii_buckets : ∀ id bk, buckets_ b !! id = Some bk → ∃ objs, hist !! id = Some objs ∧ bk = recorded objs ∧ mpath b id ∈ seen;
  ii_index : index_ok (buckets_ b) (object_bucket_map_ b);
  ii_total : total_size_ b = i64 (bytes_of (buckets_ b));
  ii_max : (∀ id, is_Some (buckets_ b !! id) → id <= max) ∧ (is_id max ∨ max = INIT_NEW_START_ID);
}.

Lemma recorded_read objs m0 :
  from_pb (written objs) = Some m0 → set_meta_size (Z.of_nat (length (written objs))) m0 = recorded objs.
Proof. unfold written. rewrite pb_roundtrip. by intros [= <-]. Qed.

Lemma recorded_valid objs : objects_ok objs → bucket_valid (recorded objs) = true.
Proof.
  intros (Hne & _ & Hsz). unfold bucket_valid, recorded. cbn. rewrite (proj2 (Z.eqb_neq _ 0)) by lia.
  assert (keys (bucket_of (shape objs)) ≠ []) as Hk by (cbn; rewrite shape_keys; by destruct objs).
  pose proof (pb_nonempty _ Hk) as Hw. fold (written objs) in Hw.
  rewrite (proj2 (Z.eqb_neq _ 0)) by (destruct (written objs); [done|cbn; lia]).
  cbn in Hk. rewrite (bool_decide_eq_false_2 (_ = [])) by done. rewrite bool_decide_eq_false_2; [done|].
  destruct objs as [|[k d] objs]; [done|]. cbn. apply insert_non_empty.
Qed.

Lemma init_inv_seen b o seen max id :
  init_inv b o seen max → is_id id → hist !! id ≠ None → mpath b id ∉ seen → buckets_ b !! id = None.
Proof.
  intros II Hid _ Hs. apply eq_None_not_Some. intros [bk Hb]. destruct (ii_buckets _ _ _ _ II id bk Hb) as (? & _ & _ & ?). done.
Qed.

(** A bucket whose metadata was read. *)
Lemma init_inv_accept b o o' seen max id objs :
  init_inv b o seen max → hist !! id = Some objs → mpath b id ∉ seen → same_files o o' →
  init_inv (published id (recorded objs) b) o' (mpath b id :: seen) (Z.max id max).
Proof.
  intros II Ho Hs [Hf _]. destruct (Hhist id objs Ho) as [Hid Hok].
  pose proof (init_inv_seen _ _ _ _ _ II Hid ltac:(congruence) Hs) as Hnone. destruct II as [Hd Hb Hi Ht [Hm Hm']]. split.
  - intros id' objs' Ho' Hor. unfold on_disk. rewrite Hf. apply Hd; [done|]. cbn in Hor. destruct (decide (id' = id)) as [->|Hne]; [by left|].
    rewrite lookup_insert_ne in Hor by done. destruct Hor as [Hor|Hor]; [left|by right]. intros ?. apply Hor. by right.
  - intros id' bk Hl. cbn in Hl. apply lookup_insert_Some in Hl as [[<- <-]|[_ Hl]].
    + exists objs. split; [done|]. split; [done|left].
    + destruct (Hb id' bk Hl) as (objs' & ? & ? & ?). exists objs'. split; [done|]. split; [done|by right].
  - by apply index_ok_insert.
  - cbn. by rewrite Ht, i64_add_l, bytes_of_insert.
  - split; [|left; unfold is_id, INIT_NEW_START_ID in *; lia]. intros id' Hl. cbn in Hl.
    destruct (decide (id' = id)) as [->|Hne]; [lia|]. rewrite lookup_insert_ne in Hl by done. specialize (Hm id' Hl). lia.
Qed.

(** A bucket that is deleted. *)
Lemma init_inv_drop b o o' seen max id :
  init_inv b o seen max → is_id id → buckets_ b !! id = None →
  (∀ q, q ≠ dpath b id → q ≠ mpath b id → files o' !! q = files o !! q) →
  init_inv (set_buckets (buckets_ b) b) o' (mpath b id :: seen) max.
Proof.
  intros [Hd Hb Hi Ht Hm] Hid Hnone HF. split; try done.
  - intros id' objs' Ho' Hor. destruct (Hhist id' objs' Ho') as [Hid' _]. assert (id' ≠ id) as Hne.
    { intros ->. destruct Hor as [Hor|Hor]; [apply Hor; left|]. cbn in Hor. rewrite Hnone in Hor. by destruct Hor. }
    destruct (Hd id' objs' Ho') as [H1 [n H2]].
    { destruct Hor as [Hor|Hor]; [left|by right]. intros ?. apply Hor. by right. }
    split; [|exists n]; change (mpath (set_buckets (buckets_ b) b)) with (mpath b); change (dpath (set_buckets (buckets_ b) b)) with (dpath b);
      rewrite HF; try done; try (by apply dpath_ne_mpath); try (by apply not_eq_sym, dpath_ne_mpath).
    + intros E. by apply mpath_inj in E.
    + intros E. by apply dpath_inj in E.
  - intros id' bk Hl. destruct (Hb id' bk Hl) as (objs' & ? & ? & ?). exists objs'. split; [done|]. split; [done|by right].
Qed.

Lemma init_inv_skip b o seen max p : (∀ id, is_Some (hist !! id) → p ≠ mpath b id) → init_inv b o seen max → init_inv b o (p :: seen) max.
Proof.
  intros Hp [Hd Hb Hi Ht Hm]. split; try done.
  - intros id objs Ho Hor. apply Hd; [done|]. destruct Hor as [Hor|Hor]; [left|by right]. intros ?. apply Hor. by right.
  - intros id bk Hl. destruct (Hb id bk Hl) as (objs & ? & ? & ?). exists objs. split; [done|]. split; [done|by right].
Qed.

(** The bucket is there once its metadata file has been seen. *)
Definition accepted (b : BucketStorageBackend) (seen : list (list ascii)) : Prop :=
  ∀ id, is_Some (hist !! id) → mpath b id ∈ seen → is_Some (buckets_ b !! id).

Definition blank (id : Z) (b : BucketStorageBackend) : BucketStorageBackend := set_buckets (<[id := new_bucket]> (buckets_ b)) b.

Lemma init_bucket_post id objs b o seen max :
  init_inv b o seen max → hist !! id = Some objs → mpath b id ∉ seen →
  post (init_bucket id max) (b, o) (λ r s', storage_path_ s'.1 = storage_path_ b ∧
    ∀ max', r = inr max' → init_inv s'.1 s'.2 (mpath b id :: seen) max').
Proof.
  intros II Ho Hs. destruct (Hhist id objs Ho) as [Hid Hok].
  pose proof (init_inv_seen _ _ _ _ _ II Hid ltac:(congruence) Hs) as Hnone.
  destruct (ii_disk _ _ _ _ II id objs Ho (or_introl Hs)) as [Hmeta _].
  unfold init_bucket. res_step. res_step. cbn [fst]. rewrite Hnone. res_step. apply post_put. cbn [fst snd]. fold (blank id b).
  assert (∀ o1, same_files o o1 → post (drop_bucket id ≫= λ _, mret max) (blank id b, o1) (λ r s', storage_path_ s'.1 = storage_path_ b ∧
    ∀ max', r = inr max' → init_inv s'.1 s'.2 (mpath b id :: seen) max')) as Hdrop.
  { intros o1 [Hf _] r s' E. unfold mbind, res_bind in E. destruct (drop_bucket id (blank id b, o1)) as [[[e|[]] s1]|] eqn:Ed; [| |done].
    - injection E as <- <-. split; [|done]. exact (proj1 (drop_bucket_post id (blank id b) o1 _ _ Ed)).
    - injection E as <- <-. destruct (proj2 (drop_bucket_post id (blank id b) o1 _ _ Ed) eq_refl) as [E1 HF].
      rewrite E1. split; [done|]. intros max' [= <-]. unfold blank. cbn. rewrite delete_insert_id by done.
      apply (init_inv_drop b o); [done..|]. intros q Hq Hq'. by rewrite HF, Hf. }
  res_step. apply post_within. cbn [snd]. eapply post_mono; [by apply LoadBucketMetadata_post|]. intros r o1 [Hsf Hr]. cbn [fst].
  destruct r as [e|[e|m]]; [by split|by apply Hdrop|]. destruct (Hr m eq_refl) as (m0 & Hpb & ->). rewrite (recorded_read _ _ Hpb).
  rewrite recorded_valid by done. res_step. apply post_put. res_step. cbn [fst snd]. split; [done|]. intros max' [= <-].
  replace (set_index _ _ _ _) with (published id (recorded objs) b); [by apply (init_inv_accept b o)|].
  unfold published, set_index, blank. cbn. by rewrite insert_insert_eq.
Qed.

(** The metadata files below the storage directory are those of the history. *)
Definition known (b : BucketStorageBackend) (listing : list (list ascii)) : Prop :=
  ∀ p, p ∈ listing → extension p = meta_suffix → ∃ id, is_Some (hist !! id) ∧ p = mpath b id.

Lemma mpath_storage b b' id : storage_path_ b' = storage_path_ b → mpath b' id = mpath b id.
Proof. intros E. unfold GetBucketMetadataPath, GetBucketDataPath. by rewrite E. Qed.

Lemma init_entry_post b o seen max p :
  init_inv b o seen max → p ∉ seen → known b [p] →
  post (init_entry p max) (b, o) (λ r s', storage_path_ s'.1 = storage_path_ b ∧ ∀ max', r = inr max' → init_inv s'.1 s'.2 (p :: seen) max').
Proof.
  intros II Hp Hk. unfold init_entry. case_bool_decide as Ee.
  - destruct (Hk p ltac:(left) Ee) as (id & [objs Ho] & ->). destruct (Hhist id objs Ho) as [Hid _].
    rewrite (proj2 (mpath_extension b id Hid)), stoll_to_string by done. by eapply init_bucket_post.
  - res_step. split; [done|]. intros max' [= <-]. apply init_inv_skip; [|done]. intros id [objs Ho] ->. apply Ee.
    by apply mpath_extension, (Hhist id objs).
Qed.

Lemma init_entries_post listing b o seen max :
  init_inv b o seen max → NoDup listing → (∀ p, p ∈ listing → p ∉ seen) → known b listing →
  post (init_entries listing max) (b, o) (λ r s', storage_path_ s'.1 = storage_path_ b ∧
    ∀ max', r = inr max' → ∃ seen', init_inv s'.1 s'.2 seen' max').
Proof.
  revert b o seen max. induction listing as [|p listing IH]; intros b o seen max II Hn Hd Hk; cbn [init_entries].
  { res_step. split; [done|]. intros max' [= <-]. by exists seen. }
  apply NoDup_cons in Hn as [Hp Hn]. res_step.
  eapply post_mono; [apply (init_entry_post b o seen max p II); [apply Hd; left|]|].
  { intros q ->%list_elem_of_singleton He. apply Hk; [left|done]. }
  intros r [b1 o1] [E1 H1]. cbn [fst snd] in *. destruct r as [e|max1]; [by split|].
  eapply post_mono; [apply (IH b1 o1 (p :: seen) max1 (H1 _ eq_refl) Hn)|].
  - intros q Hq [->|Hs]%elem_of_cons; [done|]. by apply (Hd q); [right|].
  - intros q Hq He. destruct (Hk q ltac:(by right) He) as (id & Hid & ->). exists id. split; [done|]. by rewrite (mpath_storage b b1).
  - intros r s' [E2 H2]. split; [congruence|done].
Qed.

(** What [Init] accepts satisfies the invariant. *)
Lemma Init_post now listing sp o :
  0 <= now < 2 ^ 51 → NoDup listing → known (new_backend sp) listing →
  (∀ id objs, hist !! id = Some objs → on_disk (new_backend sp) o id objs) →
  post (Init now listing) (new_backend sp, o) (λ r s', r = inr tt → storage_path_ s'.1 = sp ∧
    bucket_inv s'.1 s'.2 [] (filter (λ e, is_Some (buckets_ s'.1 !! e.1)) hist)).
Proof.
  intros Hnow Hn Hk Hd. unfold Init. res_step. res_step. cbn [fst snd id initialized_ new_backend]. res_step. apply post_put. cbn [fst snd].
  destruct (negb _); [by res_step|]. res_step.
  eapply post_mono; [apply (init_entries_post listing _ _ [] INIT_NEW_START_ID)|].
  - split; [by intros id objs Ho _; apply Hd|done|split; done|done|]. split; [by intros id [? ?]|by right].
  - done.
  - intros p _ ?%elem_of_nil. done.
  - done.
  - intros r [b1 o1] [E1 H1]. cbn [fst snd] in *. destruct r as [e|max]; [done|]. destruct (H1 max eq_refl) as [seen II]. clear H1.
    apply post_put. cbn [fst snd]. intros _. split; [done|]. destruct II as [Hd' Hb Hi Ht [Hm Hm']].
    assert (∀ id, is_Some (buckets_ b1 !! id) → is_id id) as Hids.
    { intros id [bk Hl]. destruct (Hb id bk Hl) as (objs & Ho & _). by eapply Hhist. }
    set (b2 := set_initialized _). change (buckets_ b2) with (buckets_ b1). split; try done.
    + exists (new_generator now max). split; [done|]. unfold new_generator. destruct (Z.leb_spec max 0) as [Hle|Hgt].
      * unfold TIMESTAMP_SHIFT, SEQUENCE_ID_SHIFT. rewrite Z.lor_0_r, Z.shiftl_mul_pow2, i64_small by lia. split; [lia|].
        intros id [objs Ho]. apply map_lookup_filter_Some in Ho as [_ Ho]. specialize (Hids id Ho). specialize (Hm id Ho). unfold is_id in Hids. lia.
      * destruct Hm' as [Hm'| ->]; [|unfold INIT_NEW_START_ID in Hgt; lia]. unfold is_id in Hm'. split; [lia|].
        intros id [objs Ho]. apply map_lookup_filter_Some in Ho as [_ Ho]. specialize (Hids id Ho). specialize (Hm id Ho). unfold is_id in Hids. lia.
    + intros id objs Ho. apply map_lookup_filter_Some in Ho as [Ho _]. by eapply Hhist.
    + intros id objs Ho. apply map_lookup_filter_Some in Ho as [Ho Hs]. apply Hd'; [done|by right].
    + intros id bk Hl. destruct (Hb id bk Hl) as (objs & Ho & -> & _). exists objs. split; [|done].
      apply map_lookup_filter_Some. split; [done|]. by exists (recorded objs).
    + intros id bk ?%elem_of_nil. done.
    + constructor.
Qed.

(** *** Without failing calls every bucket is accepted *)

Context (N : nat) (Hrel : reliable N) (HN : ∀ id objs, hist !! id = Some objs → (length (written objs) <= N)%nat).

Lemma init_bucket_ends id objs b o seen max :
  init_inv b o seen max → hist !! id = Some objs → mpath b id ∉ seen →
  ends (init_bucket id max) (b, o) (λ r s', (∃ max', r = inr max') ∧ buckets_ s'.1 = <[id := recorded objs]> (buckets_ b)).
Proof.
  intros II Ho Hs. destruct (Hhist id objs Ho) as [Hid Hok].
  pose proof (init_inv_seen _ _ _ _ _ II Hid ltac:(congruence) Hs) as Hnone.
  destruct (ii_disk _ _ _ _ II id objs Ho (or_introl Hs)) as [Hmeta _].
  unfold init_bucket. res_step. res_step. cbn [fst]. rewrite Hnone. res_step. apply ends_put. cbn [fst snd]. res_step. apply ends_within. cbn [snd].
  eapply ends_mono; [apply (LoadBucketMetadata_ends _ _ (written objs) (set_meta_size 0 (bucket_of (shape objs))))|].
  - eapply reliable_mono; [|exact Hrel]. by eapply HN.
  - exact Hmeta.
  - apply pb_nonempty. cbn. rewrite shape_keys. by destruct objs, Hok.
  - apply pb_roundtrip.
  - intros r o1 ->. cbv iota. cbn [fst]. change (set_meta_size _ (set_meta_size _ _)) with (recorded objs).
    rewrite recorded_valid by done. res_step. apply ends_put. res_step. cbn. split; [by eexists|]. by rewrite insert_insert_eq.
Qed.

Lemma init_entries_ends listing b o seen max :
  init_inv b o seen max → NoDup listing → (∀ p, p ∈ listing → p ∉ seen) → known b listing →
  ends (init_entries listing max) (b, o) (λ r s', (∃ max', r = inr max') ∧
    ∀ id, is_Some (hist !! id) → mpath b id ∈ listing ∨ is_Some (buckets_ b !! id) → is_Some (buckets_ s'.1 !! id)).
Proof.
  revert b o seen max. induction listing as [|p listing IH]; intros b o seen max II Hn Hd Hk; cbn [init_entries].
  { res_step. split; [by eexists|]. by intros id _ [?%elem_of_nil|?]. }
  apply NoDup_cons in Hn as [Hp Hn]. assert (known b [p]) as Hkp.
  { intros q ->%list_elem_of_singleton He. apply Hk; [left|done]. }
  assert (p ∉ seen) as Hps by (apply Hd; left). res_step.
  eapply ends_mono; [apply ends_post; [|by apply (init_entry_post b o seen max p II)]|].
  { instantiate (1 := λ r s', (∃ max', r = inr max') ∧ ∀ id, is_Some (hist !! id) → mpath b id = p ∨ is_Some (buckets_ b !! id) → is_Some (buckets_ s'.1 !! id)).
    unfold init_entry. case_bool_decide as Ee.
    - destruct (Hkp p ltac:(left) Ee) as (id & [objs Ho] & ->). destruct (Hhist id objs Ho) as [Hid _].
      rewrite (proj2 (mpath_extension b id Hid)), stoll_to_string by done.
      eapply ends_mono; [by eapply init_bucket_ends|]. intros r s' [Hr ->]. split; [done|]. intros id' [objs' Ho'] Hor.
      destruct (decide (id' = id)) as [->|Hne]; [by rewrite lookup_insert_eq|]. rewrite lookup_insert_ne by done.
      destruct Hor as [E|?]; [|done]. apply mpath_inj in E; [done|by eapply Hhist|done].
    - res_step. split; [by eexists|]. intros id [objs Ho] [<-|?]; [|done]. destruct Ee. by apply mpath_extension, (Hhist id objs). }
  intros r [b1 o1] [[[max1 ->] Hacc] [E1 H1]]. cbn [fst snd] in *.
  eapply ends_mono; [apply (IH b1 o1 (p :: seen) max1 (H1 _ eq_refl) Hn)|].
  - intros q Hq [->|Hs]%elem_of_cons; [done|]. by apply (Hd q); [right|].
  - intros q Hq He. destruct (Hk q ltac:(by right) He) as (id & Hid & ->). exists id. split; [done|]. by rewrite (mpath_storage b b1).
  - intros r s' [Hr Hall]. split; [done|]. intros id Hid Hor. apply Hall; [done|]. rewrite (mpath_storage b b1) by done.
    destruct Hor as [[E|Hin]%elem_of_cons|Hb]; [right; apply Hacc; [done|by left]|by left|right; apply Hacc; [done|by right]].
Qed.

Lemma Init_ends now listing sp o :
  is_directory sp o = true → NoDup listing → known (new_backend sp) listing →
  (∀ id objs, hist !! id = Some objs → on_disk (new_backend sp) o id objs) →
  (∀ id, is_Some (hist !! id) → mpath (new_backend sp) id ∈ listing) →
  ends (Init now listing) (new_backend sp, o) (λ r s', r = inr tt ∧ ∀ id, is_Some (hist !! id) → is_Some (buckets_ s'.1 !! id)).
Proof.
  intros Hdir Hn Hk Hd Hall. unfold Init. res_step. res_step. cbn [fst snd id initialized_ storage_path_ new_backend].
  res_step. apply ends_put. rewrite Hdir. cbn [negb fst snd]. res_step.
  eapply ends_mono; [apply (init_entries_ends listing _ _ [] INIT_NEW_START_ID)|].
  - split; [by intros id objs Ho _; apply Hd|done|split; done|done|]. split; [by intros id [? ?]|by right].
  - done.
  - intros p _ ?%elem_of_nil. done.
  - done.
  - intros r [b1 o1] [[max ->] Hacc]. cbv iota. apply ends_put. split; [done|]. intros id Hid. cbn. apply Hacc; [done|]. left. by apply Hall.
Qed.
End init.
