(* ===== verification/BucketCorrect.v ===== *)
(** * BucketCorrect: the guarantees of the bucket backend

    Offloads of several threads, changes of memory and restarts are interleaved; in every
    state that is reached, what is loaded is what was offloaded, the index and the totals
    are exact, and a restart recovers the buckets from their files. *)

From S2P Require Import Prelude Types StorePath PosixFiles PosixSpec StorageBackend StorageCorrect BucketStorage BucketLayout BucketInv.
From S2P Require Import BucketLoad BucketInit.
From Stdlib Require Import Ascii.
Open Scope Z_scope.

Section system.
Context {P : Posix} {PB : Protobuf} {HPB : ProtobufLaws PB}.

(** The backend, the system, the buckets that are written and not yet published, and the
    contents of all buckets that have been written. *)
Definition Sys : Type := BucketStorageBackend * OS * list (Z * BucketMetadata) * gmap Z Objects.

Definition remember (m : gmap Z ascii) (batch : list (list ascii * list Slice)) (id : Z) (hist : gmap Z Objects) : gmap Z Objects :=
  match contents m batch with Some objs => <[id := objs]> hist | None => hist end.

(** The phases of [BatchOffload] in different threads; [step_memory] stands for everything
    that leaves the files alone, loads included; [step_restart] is a crash followed by
    [Init].  A restart finds only metadata files that were written in full. *)
Inductive bucket_step : Sys → Sys → Prop :=
| step_write batch b o pend hist id bk b' o' :
    batch_ok batch → bucket_id_generator_ b ≠ Some (2 ^ 63 - 1) → offload_write batch (b, o) = Some (inr (id, bk), (b', o')) →
    bucket_step (b, o, pend, hist) (b', o', (id, bk) :: pend, remember (mem o) batch id hist)
| step_write_fails batch b o pend hist e b' o' :
    batch_ok batch → bucket_id_generator_ b ≠ Some (2 ^ 63 - 1) → offload_write batch (b, o) = Some (inl e, (b', o')) →
    bucket_step (b, o, pend, hist) (b', o', pend, hist)
| step_publish b o p1 id bk p2 hist b' o' :
    offload_publish id bk (b, o) = Some (inr tt, (b', o')) →
    bucket_step (b, o, p1 ++ (id, bk) :: p2, hist) (b', o', p1 ++ p2, hist)
| step_abandon b o p1 e p2 hist : bucket_step (b, o, p1 ++ e :: p2, hist) (b, o, p1 ++ p2, hist)
| step_memory b o pend hist o' : same_files o o' → bucket_step (b, o, pend, hist) (b, o', pend, hist)
| step_restart now listing b o pend hist b' o' :
    0 <= now < 2 ^ 51 → NoDup listing → known hist b listing →
    Init now listing (new_backend (storage_path_ b), o) = Some (inr tt, (b', o')) →
    bucket_step (b, o, pend, hist) (b', o', [], filter (λ e, is_Some (buckets_ b' !! e.1)) hist).

Inductive bucket_reachable : Sys → Prop :=
| reach_start now listing sp o b' o' :
    0 <= now < 2 ^ 51 → NoDup listing → Forall (λ p, extension p ≠ meta_suffix) listing →
    Init now listing (new_backend sp, o) = Some (inr tt, (b', o')) → bucket_reachable (b', o', [], ∅)
| reach_step s s' : bucket_reachable s → bucket_step s s' → bucket_reachable s'.

Definition sys_inv (s : Sys) : Prop := bucket_inv s.1.1.1 s.1.1.2 s.1.2 s.2.

Lemma on_disk_storage b b' o id objs : storage_path_ b' = storage_path_ b → on_disk b o id objs → on_disk b' o id objs.
Proof. intros E. unfold on_disk, GetBucketMetadataPath, GetBucketDataPath. by rewrite E. Qed.

Lemma known_storage hist b b' listing : storage_path_ b' = storage_path_ b → known hist b listing → known hist b' listing.
Proof. intros E H p Hp He. destruct (H p Hp He) as (id & ? & ->). exists id. split; [done|]. by rewrite (mpath_storage b b'). Qed.

Lemma bucket_step_inv s s' : sys_inv s → bucket_step s s' → sys_inv s'.
Proof.
  unfold sys_inv. intros BI Hstep. destruct Hstep as
    [batch b o pend hist id bk b' o' Hb Hg E|batch b o pend hist e b' o' Hb Hg E|b o p1 id bk p2 hist b' o' E|b o p1 e p2 hist
    |b o pend hist o' [Hf Hd]|now listing b o pend hist b' o' Hnow Hn Hk E]; cbn [fst snd] in *.
  - destruct (offload_write_post batch b o pend hist BI Hb Hg _ _ E) as (_ & _ & _ & _ & _ & _ & _ & objs & Hc & _ & BI').
    unfold remember. by rewrite Hc.
  - apply (offload_write_post batch b o pend hist BI Hb Hg _ _ E).
  - destruct (bucket_inv_publish _ _ _ _ _ _ _ BI) as [Hnone BI']. rewrite offload_publish_eq in E by done. by injection E as <- <-.
  - by eapply bucket_inv_abandon.
  - eapply bucket_inv_files; [exact BI|]. intros id _. by rewrite Hf.
  - refine (proj2 (Init_post hist _ now listing (storage_path_ b) o Hnow Hn _ _ _ _ E eq_refl)).
    + intros id objs Ho. split; [by eapply bi_id|by eapply bi_objects].
    + by apply (known_storage _ b).
    + intros id objs Ho. apply (on_disk_storage b); [done|]. by apply (bi_disk _ _ _ _ BI).
Qed.

Lemma bucket_reachable_inv s : bucket_reachable s → sys_inv s.
Proof.
  induction 1 as [now listing sp o b' o' Hnow Hn HF E|s s' _ IH Hs]; [|by eapply bucket_step_inv].
  unfold sys_inv. cbn [fst snd]. assert (bucket_inv b' o' [] (filter (λ e, is_Some (buckets_ b' !! e.1)) ∅)) as BI.
  { refine (proj2 (Init_post ∅ _ now listing sp o Hnow Hn _ _ _ _ E eq_refl)); [done| |done].
    intros p Hp He. by eapply Forall_forall in HF. }
  by rewrite map_filter_empty in BI.
Qed.

(** C4: What is loaded is what was offloaded.  In every reachable state, whatever calls have
    failed or were cut short and however offloads and restarts interleaved, a [BatchLoad]
    that succeeds has filled the buffer of every key with the bytes the object had when its
    bucket, the one the index names, was offloaded. *)
Theorem bucket_load_exact b o pend hist arrange batch b' o' :
  bucket_reachable (b, o, pend, hist) → request_ok batch → (∀ l, arrange l ≡ₚ l) →
  BatchLoad arrange batch (b, o) = Some (inr tt, (b', o')) →
  b' = b ∧ same_files o o' ∧ ∀ k sl, (k, sl) ∈ batch →
    ∃ so objs d, object_bucket_map_ b !! k = Some so ∧ hist !! so_bucket_id so = Some objs ∧ (k, d) ∈ objs ∧
      fetch (mem o') (ptr sl) (slice_size sl) = Some d.
Proof.
  intros Hr Hreq Harr E. apply bucket_reachable_inv in Hr.
  destruct (BatchLoad_post arrange Harr b o pend hist batch Hr Hreq _ _ E) as (H1 & H2 & H3). by split; [|split; [|apply H3]].
Qed.

(** C22: The index is exact in every reachable state: an entry of a key is the entry of a
    bucket that is there, every key of a bucket has an entry, every bucket has its complete
    metadata file and a data file that starts like its contents, and the total is the sum
    of the sizes of the buckets. *)
Theorem bucket_index_exact b o pend hist :
  bucket_reachable (b, o, pend, hist) →
  index_ok (buckets_ b) (object_bucket_map_ b) ∧ total_size_ b = i64 (bytes_of (buckets_ b)) ∧
  ∀ id bk, buckets_ b !! id = Some bk → ∃ objs, hist !! id = Some objs ∧ bk = recorded objs ∧ on_disk b o id objs.
Proof.
  intros BI%bucket_reachable_inv. unfold sys_inv in BI. cbn [fst snd] in BI. split; [apply BI|]. split; [apply BI|].
  intros id bk Hl. destruct (bi_buckets _ _ _ _ BI id bk Hl) as (objs & Ho & ->). exists objs. split; [done|]. split; [done|].
  by apply (bi_disk _ _ _ _ BI).
Qed.

(** What [BatchOffload] needs to succeed: a system on which no call fails or stops short of
    [N] bytes, directories to write in, and a batch that fits. *)
Record offloadable (N : nat) (b : BucketStorageBackend) (o : OS) (batch : list (list ascii * list Slice)) (objs : Objects) : Prop := {
  of_reliable : reliable N;
  of_generator : bucket_id_generator_ b ≠ Some (2 ^ 63 - 1);
  of_writable : writable b o;
  of_batch : batch_ok batch;
  of_nonempty : batch ≠ [];
  of_slices : Forall (λ e, e.2 ≠ []) batch;
  of_vectors : Z.of_nat (length (batch_iovs batch)) <= IOV_MAX;
  of_contents : contents (mem o) batch = Some objs;
  of_data : (length (flat objs) <= N)%nat;
  of_meta : (length (written objs) <= N)%nat;
}.

(** The bucket is written and waits to be published. *)
Lemma offload_succeeds N b o pend hist batch objs :
  bucket_reachable (b, o, pend, hist) → offloadable N b o batch objs →
  ∃ id b1 o1, offload_write batch (b, o) = Some (inr (id, recorded objs), (b1, o1)) ∧
    files o1 !! dpath b id = Some (flat objs) ∧ storage_path_ b1 = storage_path_ b ∧ object_bucket_map_ b1 = object_bucket_map_ b ∧
    buckets_ b1 = buckets_ b ∧ buckets_ b1 !! id = None ∧ dirs o1 = dirs o ∧ bucket_reachable (b1, o1, (id, recorded objs) :: pend, <[id := objs]> hist).
Proof.
  intros Hr [Hrel Hg Hw Hb Hne Hsl Hmax Hc HN1 HN2]. pose proof (bucket_reachable_inv _ Hr) as BI. unfold sys_inv in BI. cbn [fst snd] in BI.
  destruct (offload_write_ends N batch objs b o pend hist) as (r & [b1 o1] & E & id & -> & Hf); [done..|].
  destruct (offload_write_post batch b o pend hist BI Hb Hg _ _ E) as (Hsp & Hd & _ & Hom & Hbk & Hfresh & _ & objs' & Hc' & _ & BI').
  rewrite Hc in Hc'. injection Hc' as <-. cbn [fst snd] in *.
  pose proof (reach_step _ _ Hr (step_write batch b o pend hist _ _ _ _ Hb Hg E)) as Hr1. unfold remember in Hr1. rewrite Hc in Hr1.
  destruct (bucket_inv_publish b1 o1 [] id (recorded objs) pend _ BI') as [Hnone _].
  exists id, b1, o1. do 6 (split; [done|]). done.
Qed.

(** The entry of an object of a bucket that has just been published. *)
Lemma published_entry b id objs k d :
  objects_ok objs → (k, d) ∈ objs → object_bucket_map_ b !! k = None →
  ∃ so, object_bucket_map_ (published id (recorded objs) b) !! k = Some so ∧ so_bucket_id so = id ∧ so_data_size so = Z.of_nat (length d).
Proof.
  intros (_ & Hn & _) Hin Hk. destruct (proj2 (bucket_of_keys (shape objs) k)) as [bo Hbo].
  { rewrite shape_keys. by apply (list_elem_of_fmap_2 fst _ (k, d)). }
  exists (mkStorageObject id (bo_offset bo) (bo_key_size bo) (bo_data_size bo)). split; [|split; [done|]].
  - cbn. unfold index_bucket. rewrite lookup_union_r by done. rewrite lookup_fmap. cbn in Hbo. cbn. by rewrite Hbo.
  - destruct (bucket_of_piece objs k bo Hn Hbo) as (d' & Hin' & -> & _). cbn. do 2 f_equal.
    by pose proof (NoDup_fmap_inj fst objs (k, d') (k, d) Hn Hin' Hin eq_refl) as [= ->].
Qed.

(** C10: Offloaded objects are loaded back.  On a reliable system [BatchOffload] succeeds,
    and from then on, as long as the files are left alone, [BatchLoad] of any of the keys
    that were not stored before succeeds with buffers of the right sizes and fills them
    with the bytes the objects had when they were offloaded. *)
Theorem bucket_offload_roundtrip N b o pend hist batch objs handler :
  bucket_reachable (b, o, pend, hist) → offloadable N b o batch objs →
  (∀ h, handler = Some h → h (object_metadata (recorded objs)) = EC.OK) →
  ∃ id b1 o1, BatchOffload batch handler (b, o) = Some (inr id, (b1, o1)) ∧ bucket_reachable (b1, o1, pend, <[id := objs]> hist) ∧
    ∀ arrange req o2, (∀ l, arrange l ≡ₚ l) → same_files o1 o2 → request_ok req →
      (∀ k sl, (k, sl) ∈ req → object_bucket_map_ b !! k = None ∧ is_Some (fetch (mem o2) (ptr sl) (slice_size sl)) ∧
         ∃ d, (k, d) ∈ objs ∧ slice_size sl = Z.of_nat (length d) ∧ (length d <= N)%nat) →
      ∃ o3, BatchLoad arrange req (b1, o2) = Some (inr tt, (b1, o3)) ∧
        ∀ k sl d, (k, sl) ∈ req → (k, d) ∈ objs → fetch (mem o3) (ptr sl) (slice_size sl) = Some d.
Proof.
  intros Hr HO Hh. pose proof (contents_ok _ _ _ (of_batch _ _ _ _ _ HO) (of_contents _ _ _ _ _ HO)) as Hok.
  destruct (offload_succeeds N b o pend hist batch objs Hr HO) as (id & b1 & o1 & E & Hf & Hsp & Hom & _ & Hnone & _ & Hr1).
  pose proof (offload_publish_eq id (recorded objs) b1 o1 Hnone) as Ep.
  pose proof (reach_step _ _ Hr1 (step_publish b1 o1 [] id (recorded objs) pend _ _ _ Ep)) as Hr2. cbn [app] in Hr2.
  exists id, (published id (recorded objs) b1), o1. split; [|split; [done|]].
  { unfold BatchOffload, mbind at 1, res_bind. rewrite E. cbv iota beta zeta.
    rewrite bool_decide_eq_true_2 by (destruct handler; [by apply Hh|done]). unfold mbind, res_bind. by rewrite Ep. }
  intros arrange req o2 Harr Hsf Hreq Hserv.
  pose proof (bucket_reachable_inv _ (reach_step _ _ Hr2 (step_memory _ _ _ _ _ Hsf))) as BI2. unfold sys_inv in BI2. cbn [fst snd] in BI2.
  destruct (BatchLoad_ends arrange Harr N _ o2 pend _ req (of_reliable _ _ _ _ _ HO) BI2 Hreq) as (r & [b3 o3] & El & ->).
  { intros k sl Hin. destruct (Hserv k sl Hin) as (Hk & Hm & d & Hd & Hsz & HN). rewrite <-Hom in Hk.
    destruct (published_entry b1 id objs k d Hok Hd Hk) as (so & Hso & Eid & Esz). exists so, objs. split; [done|].
    rewrite Eid. split; [by rewrite lookup_insert_eq|]. split; [|split; [congruence|split; [lia|done]]].
    destruct Hsf as [-> _]. rewrite <-Hf. unfold GetBucketDataPath. cbn. by rewrite Hsp. }
  destruct (BatchLoad_post arrange Harr _ o2 pend _ req BI2 Hreq _ _ El) as (Eb & _ & Hload). cbn in Eb. subst b3.
  exists o3. split; [done|]. intros k sl d Hin Hd. destruct (Hload eq_refl k sl Hin) as (so & objs' & d' & Hso & Ho & Hd' & Hfetch).
  destruct (Hserv k sl Hin) as (Hk & _). rewrite <-Hom in Hk. destruct (published_entry b1 id objs k d Hok Hd Hk) as (so' & Hso' & Eid & _).
  rewrite Hso in Hso'. injection Hso' as <-. rewrite Eid, lookup_insert_eq in Ho. injection Ho as <-.
  pose proof (NoDup_fmap_inj fst objs (k, d') (k, d) (proj1 (proj2 Hok)) Hd' Hd eq_refl) as [= ->]. done.
Qed.

(** What a restart needs to go through: no call that fails, and a listing of the directory
    with every metadata file and nothing that looks like one. *)
Record restartable (N : nat) (b : BucketStorageBackend) (o : OS) (hist : gmap Z Objects) (now : Z) (listing : list (list ascii)) : Prop := {
  re_reliable : reliable N;
  re_meta : ∀ id objs, hist !! id = Some objs → (length (written objs) <= N)%nat;
  re_now : 0 <= now < 2 ^ 51;
  re_nodup : NoDup listing;
  re_known : known hist b listing;
  re_complete : ∀ id, is_Some (hist !! id) → mpath b id ∈ listing;
  re_dir : is_directory (storage_path_ b) o = true;
}.

Lemma restart_succeeds N b o pend hist now listing :
  bucket_reachable (b, o, pend, hist) → restartable N b o hist now listing →
  ∃ b' o', Init now listing (new_backend (storage_path_ b), o) = Some (inr tt, (b', o')) ∧
    buckets_ b' = recorded <$> hist ∧ bucket_reachable (b', o', [], hist).
Proof.
  intros Hr [Hrel HN Hnow Hn Hk Hall Hdir]. pose proof (bucket_reachable_inv _ Hr) as BI. unfold sys_inv in BI. cbn [fst snd] in BI.
  assert (∀ id objs, hist !! id = Some objs → is_id id ∧ objects_ok objs) as Hh.
  { intros id objs Ho. split; [by eapply bi_id|by eapply bi_objects]. }
  destruct (Init_ends hist Hh N Hrel HN now listing (storage_path_ b) o) as (r & [b' o'] & E & -> & Hacc); try done.
  { intros id objs Ho. apply (on_disk_storage b); [done|]. by apply (bi_disk _ _ _ _ BI). }
  pose proof (reach_step _ _ Hr (step_restart now listing b o pend hist b' o' Hnow Hn Hk E)) as Hr'. cbn [fst] in Hacc.
  assert (filter (λ e : Z * Objects, is_Some (buckets_ b' !! e.1)) hist = hist) as Eh.
  { apply map_filter_id. intros id objs Ho. apply Hacc. by exists objs. }
  rewrite Eh in Hr'. pose proof (bucket_reachable_inv _ Hr') as BI'. unfold sys_inv in BI'. cbn [fst snd] in BI'.
  exists b', o'. split; [done|]. split; [|done]. apply map_eq. intros id. rewrite lookup_fmap. destruct (hist !! id) as [objs|] eqn:Ho; simpl.
  - destruct (Hacc id ltac:(by exists objs)) as [bk Hb]. destruct (bi_buckets _ _ _ _ BI' id bk Hb) as (objs' & Ho' & ->). congruence.
  - apply eq_None_not_Some. intros [bk Hb]. destruct (bi_buckets _ _ _ _ BI' id bk Hb) as (? & ? & _). congruence.
Qed.

(** Every key of a bucket in memory is indexed. *)
Lemma bucket_indexed b o pend hist id objs k :
  bucket_reachable (b, o, pend, hist) → buckets_ b !! id = Some (recorded objs) → k ∈ objs.*1 → is_Some (object_bucket_map_ b !! k).
Proof.
  intros BI%bucket_reachable_inv Hb Hk. unfold sys_inv in BI. cbn [fst snd] in BI.
  apply (proj2 (bi_index _ _ _ _ BI) id (recorded objs)); [done|]. apply (bucket_of_keys (shape objs) k). by rewrite shape_keys.
Qed.

(** C11: A restart loses nothing.  When no call fails, [Init] accepts every bucket whose files
    were written: the buckets and their total are those of the history, every key that was
    stored is stored again, and the guarantees go on from there. *)
Theorem bucket_restart_recovers N b o pend hist now listing :
  bucket_reachable (b, o, pend, hist) → restartable N b o hist now listing →
  ∃ b' o', Init now listing (new_backend (storage_path_ b), o) = Some (inr tt, (b', o')) ∧
    buckets_ b' = recorded <$> hist ∧ total_size_ b' = i64 (bytes_of (recorded <$> hist)) ∧
    (∀ k, is_Some (object_bucket_map_ b !! k) → is_Some (object_bucket_map_ b' !! k)) ∧ bucket_reachable (b', o', [], hist).
Proof.
  intros Hr HR. destruct (restart_succeeds N b o pend hist now listing Hr HR) as (b' & o' & E & Eb & Hr').
  pose proof (bucket_reachable_inv _ Hr) as BI. pose proof (bucket_reachable_inv _ Hr') as BI'. unfold sys_inv in BI, BI'. cbn [fst snd] in BI, BI'.
  exists b', o'. split; [done|]. split; [done|]. split; [rewrite <-Eb; apply BI'|]. split; [|done].
  intros k [so Hso]. destruct (proj1 (bi_index _ _ _ _ BI) k so Hso) as (bk & bo & Hb & Hbo & _).
  destruct (bi_buckets _ _ _ _ BI _ _ Hb) as (objs & Ho & ->). apply (bucket_indexed b' o' [] hist (so_bucket_id so) objs); [done| |].
  - by rewrite Eb, lookup_fmap, Ho.
  - rewrite <-shape_keys. apply bucket_of_keys. by exists bo.
Qed.

Lemma contents_keys m batch objs : contents m batch = Some objs → objs.*1 = batch.*1.
Proof.
  intros Hc%mapM_Some. induction Hc as [|e d batch objs He Hc IH]; [done|]. csimpl. rewrite IH. f_equal.
  by apply fmap_Some in He as (data & _ & ->).
Qed.

(** C39: A rejected batch comes back.  When the completion handler of [BatchOffload] refuses
    the batch, the offload fails with its code and the index stays as it was, but the files
    of the bucket are left behind: after the next restart every key of the batch is stored. *)
Theorem rejected_offload_reappears N b o pend hist batch objs h :
  bucket_reachable (b, o, pend, hist) → offloadable N b o batch objs → h (object_metadata (recorded objs)) ≠ EC.OK →
  ∃ id b1 o1, BatchOffload batch (Some h) (b, o) = Some (inl (h (object_metadata (recorded objs))), (b1, o1)) ∧
    object_bucket_map_ b1 = object_bucket_map_ b ∧ buckets_ b1 = buckets_ b ∧
    ∀ now listing, restartable N b1 o1 (<[id := objs]> hist) now listing →
      ∃ b' o', Init now listing (new_backend (storage_path_ b), o1) = Some (inr tt, (b', o')) ∧
        ∀ k, k ∈ batch.*1 → is_Some (object_bucket_map_ b' !! k).
Proof.
  intros Hr HO Hh. destruct (offload_succeeds N b o pend hist batch objs Hr HO) as (id & b1 & o1 & E & _ & Hsp & Hom & Hbk & _ & _ & Hr1).
  exists id, b1, o1. split; [|split; [done|split; [done|]]].
  { unfold BatchOffload, mbind at 1, res_bind. rewrite E. cbv iota beta zeta. by rewrite bool_decide_eq_false_2. }
  intros now listing HR. rewrite <-Hsp. destruct (restart_succeeds N b1 o1 _ _ now listing Hr1 HR) as (b' & o' & Ei & Eb & Hr').
  exists b', o'. split; [done|]. intros k Hk. apply (bucket_indexed b' o' [] (<[id := objs]> hist) id objs); [done| |].
  - by rewrite Eb, lookup_fmap, lookup_insert_eq.
  - by rewrite (contents_keys _ _ _ (of_contents _ _ _ _ _ HO)).
Qed.
End system.

(** * Scanning the buckets page by page

    [BucketScan] returns the bucket at which the next call is to start, and 0 at the end.
    A client that follows this protocol sees every bucket exactly once, in the order of
    the ids, in pages of at most the limit it gives. *)

Definition Page : Type := list Z * gmap (list ascii) BucketObjectMetadata.

Section paging.
Context {P : Posix} {PB : Protobuf} {HPB : ProtobufLaws PB}.

(** The calls of a client that starts at [start]; [fuel] bounds the number of calls. *)
Fixpoint pages (fuel : nat) (start limit : Z) : Res Store (list Page) :=
  match fuel with
  | O => λ _, None
  | S fuel =>
      '(next, objects, visited) ← BucketScan start ∅ [] limit;
      if next =? 0 then mret [(visited, objects)]
      else rest ← pages fuel next limit; mret ((visited, objects) :: rest)
  end.

Lemma ordered_elem m id : id ∈ ordered m ↔ is_Some (m !! id).
Proof. unfold ordered. by rewrite merge_sort_Permutation, elem_of_elements, elem_of_dom. Qed.

Lemma ordered_length m : length (ordered m) = size m.
Proof. unfold ordered. rewrite merge_sort_Permutation. by rewrite <-size_dom. Qed.

Lemma list_to_map_size (l : list (list ascii * BucketObjectMetadata)) :
  (size (list_to_map l : gmap (list ascii) BucketObjectMetadata) <= length l)%nat.
Proof.
  induction l as [|[k bo] l IH]; [done|]. rewrite list_to_map_cons, map_size_insert, length_cons.
  destruct (_ !! k); cbv [id]; lia.
Qed.

Lemma recorded_size objs : (size (object_metadata (recorded objs)) <= length (keys (recorded objs)))%nat.
Proof.
  change (keys (recorded objs)) with (shape objs).*1. rewrite <-(layout_keys 0 (shape objs)), length_fmap. apply list_to_map_size.
Qed.

Lemma ordered_sorted m : StronglySorted Z.lt (ordered m).
Proof.
  assert (StronglySorted Z.le (ordered m)) as Hs by (apply StronglySorted_merge_sort; apply _).
  assert (NoDup (ordered m)) as Hn by (unfold ordered; rewrite merge_sort_Permutation; apply NoDup_elements).
  induction Hs as [|id l Hs IH Hall]; constructor; apply NoDup_cons in Hn as [Hnot Hn]; [by apply IH|].
  rewrite Forall_forall in *. intros id' Hin. specialize (Hall id' Hin). destruct (decide (id = id')) as [->|]; [done|lia].
Qed.

Lemma filter_sorted start l : StronglySorted Z.lt l → StronglySorted Z.lt (filter (λ id, start <= id) l).
Proof.
  induction 1 as [|id l Hs IH Hall]; [constructor|]. rewrite filter_cons. case_decide; [|done]. constructor; [done|].
  rewrite Forall_forall in *. intros id' [_ Hin]%list_elem_of_filter. by apply Hall.
Qed.

(** What is left to visit after the buckets [l1]. *)
Lemma filter_rest start l l1 next l2 :
  StronglySorted Z.lt l → filter (λ id, start <= id) l = l1 ++ next :: l2 → filter (λ id, next <= id) l = next :: l2.
Proof.
  intros Hs E. pose proof (filter_sorted start l Hs) as Hs'. rewrite E in Hs'.
  assert (start <= next) as Hle. { assert (next ∈ filter (λ id, start <= id) l) as Hn%list_elem_of_filter by (rewrite E; set_solver). tauto. }
  transitivity (filter (λ id, next <= id) (filter (λ id, start <= id) l)).
  { rewrite list_filter_filter_l; [done|]. intros id ?. lia. }
  rewrite E. clear E Hs. induction l1 as [|id l1 IH]; cbn [app] in *.
  - rewrite filter_cons_True by lia. f_equal. apply StronglySorted_inv in Hs' as [_ Hall].
    clear -Hall. induction Hall; [done|]. rewrite filter_cons_True by lia. by f_equal.
  - apply StronglySorted_inv in Hs' as [Hs' Hall]. rewrite Forall_forall in Hall.
    rewrite filter_cons_False; [by apply IH|]. specialize (Hall next ltac:(set_solver)). lia.
Qed.

(** The objects [objs] of a page are those of the buckets [ids], one entry for each key. *)
Definition page_of (bs : gmap Z BucketMetadata) (ids : list Z) (objs : gmap (list ascii) BucketObjectMetadata) : Prop :=
  (∀ k bo, objs !! k = Some bo → ∃ id bk, id ∈ ids ∧ bs !! id = Some bk ∧ object_metadata bk !! k = Some bo) ∧
  (∀ id bk k, id ∈ ids → bs !! id = Some bk → is_Some (object_metadata bk !! k) → is_Some (objs !! k)).

Lemma page_of_add bs ids objs id bk : page_of bs ids objs → bs !! id = Some bk → page_of bs (ids ++ [id]) (add_objects bk objs).
Proof.
  intros [H1 H2] Hb. unfold add_objects. split.
  - intros k bo Hk%lookup_union_Some_raw. destruct Hk as [Hk|[_ Hk]].
    + destruct (H1 k bo Hk) as (id' & bk' & ? & ? & ?). exists id', bk'. set_solver.
    + exists id, bk. set_solver.
  - intros id' bk' k Hin Hb' Hk. apply elem_of_app in Hin as [Hin| ->%list_elem_of_singleton].
    + destruct (H2 id' bk' k Hin Hb' Hk) as [bo Hbo]. exists bo. by apply lookup_union_Some_l.
    + rewrite lookup_union_is_Some. right. congruence.
Qed.

Definition countable_buckets (bs : gmap Z BucketMetadata) (limit : Z) : Prop :=
  ∀ id bk, bs !! id = Some bk → (size (object_metadata bk) <= length (keys bk))%nat ∧ Z.of_nat (length (keys bk)) <= limit.

Lemma size_add_objects bk objs : (size (add_objects bk objs) <= size objs + size (object_metadata bk))%nat.
Proof.
  unfold add_objects. rewrite <-!size_dom, dom_union_L.
  rewrite size_union_alt. pose proof (subseteq_size (dom (object_metadata bk) ∖ dom objs) (dom (object_metadata bk))). set_solver by lia.
Qed.

(** One call visits the buckets [l1] and stops before the rest [l2]. *)
Lemma scan_spec bs limit ids objs vis :
  0 <= limit < 2 ^ 63 → countable_buckets bs limit → Forall (λ id, is_Some (bs !! id)) ids →
  page_of bs vis objs → Z.of_nat (size objs) <= limit →
  ∃ l1 l2 objs', ids = l1 ++ l2 ∧ scan bs ids objs vis limit = inr (default 0 (head l2), objs', vis ++ l1) ∧
    page_of bs (vis ++ l1) objs' ∧ Z.of_nat (size objs') <= limit ∧ (objs = ∅ → ids ≠ [] → l1 ≠ []).
Proof.
  intros Hl Hc Hids. revert objs vis. induction Hids as [|id ids [bk Hb] Hids IH]; intros objs vis Hp Hs.
  - exists [], [], objs. rewrite !app_nil_r. do 4 (split; [done|]). intros _ []. done.
  - destruct (Hc id bk Hb) as [Hk1 Hk2]. cbn [scan]. rewrite Hb.
    assert (u64 limit = limit) as -> by (unfold u64; rewrite Z.mod_small; lia).
    rewrite (proj2 (Z.ltb_ge _ _)) by lia.
    replace (u64 (Z.of_nat (length (keys bk)) + Z.of_nat (size objs))) with (Z.of_nat (length (keys bk)) + Z.of_nat (size objs))
      by (unfold u64; rewrite Z.mod_small; lia).
    destruct (Z.ltb_spec limit (Z.of_nat (length (keys bk)) + Z.of_nat (size objs))).
    + exists [], (id :: ids), objs. rewrite app_nil_r. do 4 (split; [done|]). intros -> _. rewrite map_size_empty in *. lia.
    + pose proof (size_add_objects bk objs).
      destruct (IH (add_objects bk objs) (vis ++ [id])) as (l1 & l2 & objs' & -> & E & Hp' & Hs' & _); [by apply page_of_add|lia|].
      exists (id :: l1), l2, objs'. rewrite <-app_assoc in E, Hp'. done.
Qed.

(** Every page is within the limit and shows the objects of its buckets. *)
Definition page_ok (bs : gmap Z BucketMetadata) (limit : Z) (p : Page) : Prop := page_of bs p.1 p.2 ∧ Z.of_nat (size p.2) <= limit.

Lemma pages_spec b o limit fuel start :
  0 <= limit < 2 ^ 63 → countable_buckets (buckets_ b) limit → (∀ id, is_Some (buckets_ b !! id) → 0 < id) →
  (length (filter (λ id, (start <= id)%Z) (ordered (buckets_ b))) < fuel)%nat →
  ∃ ps, pages fuel start limit (b, o) = Some (inr ps, (b, o)) ∧
    concat ps.*1 = filter (λ id, start <= id) (ordered (buckets_ b)) ∧ Forall (page_ok (buckets_ b) limit) ps.
Proof.
  intros Hl Hc Hpos. revert start. induction fuel as [|fuel IH]; intros start Hf; [lia|].
  destruct (scan_spec (buckets_ b) limit (filter (λ id, start <= id) (ordered (buckets_ b))) ∅ []) as (l1 & l2 & objs & El & Es & Hp & Hs & Hne).
  { done. } { done. } { apply Forall_forall. intros id [_ Hid]%list_elem_of_filter. by apply ordered_elem. }
  { split; [intros k bo; by rewrite lookup_empty|set_solver]. } { rewrite map_size_empty. lia. }
  cbn [pages]. unfold mbind at 1, res_bind, BucketScan. unfold mbind at 1, res_bind, ask. cbn [fst]. rewrite Es. cbn [of_result mret res_ret app].
  destruct l2 as [|next l2]; cbn [head default from_option].
  - exists [(l1, objs)]. rewrite Z.eqb_refl. split; [done|]. rewrite El. split; [done|]. by apply Forall_singleton.
  - assert (0 < next) as Hn.
    { apply Hpos, ordered_elem. assert (next ∈ filter (λ id, start <= id) (ordered (buckets_ b))) as Hin by (rewrite El; set_solver).
      apply list_elem_of_filter in Hin. tauto. }
    cbv [id]. rewrite (proj2 (Z.eqb_neq next 0)) by lia.
    pose proof (filter_rest start _ l1 next l2 (ordered_sorted _) El) as Er.
    destruct (IH next) as (ps & Ep & Ec & Hok).
    { rewrite Er. rewrite El, length_app in Hf. specialize (Hne eq_refl ltac:(rewrite El; by destruct l1)). destruct l1; [done|]. cbn in *. lia. }
    exists ((l1, objs) :: ps). unfold mbind, res_bind. rewrite Ep. split; [done|]. cbn [fmap list_fmap concat fst]. rewrite Ec, Er, El.
    split; [done|]. constructor; [split; [exact Hp|exact Hs]|done].
Qed.

(** C23: Paging visits everything once.  When no bucket has more objects than the limit, a
    client that calls [BucketScan] until it returns 0 is done after at most one call more
    than there are buckets; the buckets it has visited are those from its starting point on, in
    ascending order and without repetition, and every page shows the objects of its buckets and
    is within the limit. *)
Theorem bucket_scan_pages b o pend hist limit fuel start :
  bucket_reachable (b, o, pend, hist) → 0 <= limit < 2 ^ 63 →
  (∀ id bk, buckets_ b !! id = Some bk → Z.of_nat (length (keys bk)) <= limit) → (size (buckets_ b) < fuel)%nat →
  ∃ ps, pages fuel start limit (b, o) = Some (inr ps, (b, o)) ∧
    StronglySorted Z.lt (concat ps.*1) ∧ (∀ id, id ∈ concat ps.*1 ↔ is_Some (buckets_ b !! id) ∧ start <= id) ∧
    Forall (page_ok (buckets_ b) limit) ps.
Proof.
  intros Hr Hl Hk Hf. pose proof (bucket_reachable_inv _ Hr) as BI. unfold sys_inv in BI. cbn [fst snd] in BI.
  destruct (pages_spec b o limit fuel start) as (ps & E & Ec & Hok); [done|..].
  - intros id bk Hb. split; [|by eapply Hk]. destruct (bi_buckets _ _ _ _ BI id bk Hb) as (objs & _ & ->). apply recorded_size.
  - intros id [bk Hb]. destruct (bi_buckets _ _ _ _ BI id bk Hb) as (objs & Ho & _).
    destruct (bi_gen _ _ _ _ BI) as (cur & _ & _ & Hids). specialize (Hids id ltac:(by exists objs)). lia.
  - pose proof (length_filter (λ id, start <= id) (ordered (buckets_ b))) as Hle. rewrite ordered_length in Hle. lia.
  - exists ps. split; [done|]. rewrite Ec. split; [apply filter_sorted, ordered_sorted|]. split; [|done].
    intros id. rewrite list_elem_of_filter, ordered_elem. tauto.
Qed.
End paging.
