(* ===== verification/BucketExamples.v ===== *)
(** * BucketExamples: concrete runs of the bucket backend

    A serialization with the laws of struct_pb, two systems, and the runs that show that
    the hypotheses of the theorems on the bucket backend can hold. *)

From S2P Require Import Prelude Types StorePath PosixFiles PosixSpec StorageBackend StorageCorrect BucketStorage BucketLayout BucketInv.
From S2P Require Import BucketLoad BucketInit BucketCorrect.
From Stdlib Require Import Ascii.
Open Scope Z_scope.

(** ** A serialization with the laws of struct_pb *)

Fixpoint bits (p : positive) : list ascii :=
  match p with xH => ["1"%char] | xO p => "0"%char :: bits p | xI p => "1"%char :: bits p end.

Fixpoint of_bits (l : list ascii) : option positive :=
  match l with
  | [] => None
  | c :: l => match of_bits l with None => Some xH | Some p => Some (if decide (c = "1"%char) then xI p else xO p) end
  end.

Lemma of_bits_bits p : of_bits (bits p) = Some p.
Proof. induction p as [p IH|p IH|]; cbn; [by rewrite IH..|done]. Qed.

Definition Fields : Type := Z * gmap (list ascii) (Z * Z * Z) * list (list ascii).
Definition fields (m : BucketMetadata) : Fields :=
  (data_size m, (λ o, (bo_offset o, bo_key_size o, bo_data_size o)) <$> object_metadata m, keys m).
Definition of_fields (f : Fields) : BucketMetadata :=
  mkBucketMetadata 0 f.1.1 ((λ t, mkBucketObject t.1.1 t.1.2 t.2) <$> f.1.2) f.2.

Definition bits_pb : Protobuf := {| to_pb m := bits (encode (fields m)); from_pb s := p ← of_bits s; of_fields <$> decode p |}.

Lemma bits_pb_laws : ProtobufLaws bits_pb.
Proof.
  split.
  - intros m. cbn. rewrite of_bits_bits. cbn. rewrite decode_encode. cbn. destruct m as [ms ds om ks].
    unfold of_fields, fields, set_meta_size. cbn. rewrite <-map_fmap_compose. f_equal. f_equal. rewrite <-(map_fmap_id om) at 2.
    apply map_fmap_ext. intros k [] _. done.
  - intros m _. cbn. by destruct (encode (fields m)).
Qed.

(** ** A system on which calls do not fail, with a batch of two objects *)

Definition steady : Posix := {| env := λ _, Upto 4000; patience := 1 |}.
Definition ex_dir : list ascii := demo_text "/d".
Definition ex_os : OS := mkOS ∅ {[ demo_text "/d" ]} (store 100 (demo_text "hello world") (store 200 (demo_text "...........") ∅)) 0.
Definition ex_batch : list (list ascii * list Slice) := [(demo_text "a", [mkSlice 100 5; mkSlice 105 1]); (demo_text "b", [mkSlice 106 5])].
Definition ex_request : list (list ascii * Slice) := [(demo_text "b", mkSlice 200 5); (demo_text "a", mkSlice 205 6)].
Definition ex_now : Z := 7.


Definition final {S A} (d : S) (r : option ((ErrorCode + A) * S)) : S := match r with Some (_, s) => s | None => d end.
Definition value {S A} (r : option ((ErrorCode + A) * S)) : option A := match r with Some (inr x, _) => Some x | _ => None end.

Lemma value_final {A} (r : option ((ErrorCode + A) * Store)) x : value r = Some x → ∃ b o, r = Some (inr x, (b, o)).
Proof. destruct r as [[[e|y] [b o]]|]; intros [= ->]. by exists b, o. Qed.

Definition ex_new : Store := (new_backend ex_dir, ex_os).
Definition ex_start : Store := final ex_new (@Init steady bits_pb ex_now [] ex_new).
Definition ex_objs : Objects := [(demo_text "a", demo_text "hello "); (demo_text "b", demo_text "world")].
Definition ex_id : Z := 28673.
Definition ex_written : Store := final ex_new (@offload_write steady bits_pb ex_batch ex_start).
Definition ex_stored : BucketStorageBackend := published ex_id (@recorded bits_pb ex_objs) ex_written.1.

#[local] Existing Instance steady.
#[local] Existing Instance bits_pb.
#[local] Existing Instance bits_pb_laws.

Lemma steady_reliable : reliable 4000.
Proof. intros k. by exists 4000%nat. Qed.

Lemma ex_start_reachable : bucket_reachable (ex_start.1, ex_start.2, [], ∅).
Proof.
  apply (reach_start ex_now [] ex_dir ex_os); [by split|constructor|constructor|]. vm_compute. reflexivity.
Qed.

Lemma ex_batch_ok : batch_ok ex_batch.
Proof.
  split; [|by repeat constructor|by split|done].
  apply (bool_decide_unpack (NoDup _)). vm_compute. exact I.
Qed.

(** Nothing of the form of a bucket's path is a directory. *)
Lemma ex_writable b o : storage_path_ b = ex_dir → dirs o = {[ ex_dir ]} → writable b o.
Proof.
  intros Eb Ed. unfold writable. rewrite Eb, Ed. split; [right; by apply elem_of_singleton|].
  intros id Hid. unfold GetBucketMetadataPath, GetBucketDataPath. rewrite Eb, bool_decide_eq_false_2 by (intros [?|?]; done).
  split; intros H%elem_of_singleton%(f_equal length); rewrite !length_app in H; cbn in H; lia.
Qed.

Lemma ex_offloadable : offloadable 4000 ex_start.1 ex_start.2 ex_batch ex_objs.
Proof.
  split; [apply steady_reliable|by vm_compute| |apply ex_batch_ok|done|by repeat constructor|done|reflexivity| |].
  - apply ex_writable; [reflexivity|]. vm_compute. reflexivity.
  - apply Nat.leb_le. vm_compute. reflexivity.
  - apply Nat.leb_le. vm_compute. reflexivity.
Qed.

Lemma ex_written_reachable : bucket_reachable (ex_written.1, ex_written.2, [(ex_id, recorded ex_objs)], {[ ex_id := ex_objs ]}).
Proof.
  apply (reach_step _ _ ex_start_reachable).
  change ({[ ex_id := ex_objs ]} : gmap Z Objects) with (remember (mem ex_start.2) ex_batch ex_id ∅).
  apply step_write; [apply ex_batch_ok|by vm_compute|]. vm_compute. reflexivity.
Qed.

Lemma ex_stored_reachable : bucket_reachable (ex_stored, ex_written.2, [], {[ ex_id := ex_objs ]}).
Proof.
  apply (reach_step _ _ ex_written_reachable). 
  apply (step_publish _ _ [] ex_id (recorded ex_objs) []), offload_publish_eq. vm_compute. reflexivity.
Qed.

Lemma ex_request_ok : request_ok ex_request.
Proof.
  split.
  - apply (bool_decide_unpack (NoDup _)). vm_compute. exact I.
  - by repeat constructor.
  - intros k1 s1 k2 s2 H1 H2 Hne. unfold ex_request in *. rewrite !elem_of_cons, elem_of_nil in *.
    destruct H1 as [[= -> ->]|[[= -> ->]|[]]]; destruct H2 as [[= -> ->]|[[= -> ->]|[]]]; try done; unfold apart; cbn; lia.
Qed.

(** ** The theorems at these runs *)

Lemma bucket_load_exact_witness :
  ∃ b' o', BatchLoad (λ l, l) ex_request (ex_stored, ex_written.2) = Some (inr tt, (b', o')) ∧ b' = ex_stored ∧
    ∃ so objs d, object_bucket_map_ ex_stored !! demo_text "a" = Some so ∧ ({[ ex_id := ex_objs ]} : gmap Z Objects) !! so_bucket_id so = Some objs ∧
      (demo_text "a", d) ∈ objs ∧ fetch (mem o') 205 6 = Some d.
Proof.
  assert (value (BatchLoad (λ l, l) ex_request (ex_stored, ex_written.2)) = Some tt) as E by (vm_compute; reflexivity).
  destruct (value_final _ _ E) as (b' & o' & E').
  destruct (bucket_load_exact ex_stored ex_written.2 [] {[ ex_id := ex_objs ]} (λ l, l) ex_request b' o') as (Eb & _ & H);
    [apply ex_stored_reachable|apply ex_request_ok|done|exact E'|].
  exists b', o'. split; [done|]. split; [done|]. apply (H (demo_text "a") (mkSlice 205 6)). by right; left.
Defined.

Lemma bucket_index_exact_witness :
  index_ok (buckets_ ex_stored) (object_bucket_map_ ex_stored) ∧ size (buckets_ ex_stored) = 1%nat.
Proof.
  destruct (bucket_index_exact ex_stored ex_written.2 [] {[ ex_id := ex_objs ]} ex_stored_reachable) as [H _].
  split; [exact H|]. vm_compute. reflexivity.
Defined.

Lemma bucket_offload_roundtrip_witness :
  ∃ id b1 o1 o3, BatchOffload ex_batch None (ex_start.1, ex_start.2) = Some (inr id, (b1, o1)) ∧
    BatchLoad (λ l, l) ex_request (b1, o1) = Some (inr tt, (b1, o3)) ∧ fetch (mem o3) 200 5 = Some (demo_text "world").
Proof.
  destruct (bucket_offload_roundtrip 4000 ex_start.1 ex_start.2 [] ∅ ex_batch ex_objs None) as (id & b1 & o1 & E & _ & H);
    [apply ex_start_reachable|apply ex_offloadable|done|].
  destruct (H (λ l, l) ex_request o1) as (o3 & El & Hd); [done|done|apply ex_request_ok| |].
  - assert (o1 = ex_written.2) as ->.
    { transitivity (final ex_new (BatchOffload ex_batch None (ex_start.1, ex_start.2))).2; [by rewrite E|vm_compute; reflexivity]. }
    intros k sl Hin. unfold ex_request in Hin. rewrite !elem_of_cons, elem_of_nil in Hin.
    destruct Hin as [[= -> ->]|[[= -> ->]|[]]].
    + split; [reflexivity|]. split; [eexists; vm_compute; reflexivity|]. exists (demo_text "world"). split; [by right; left|].
      split; [reflexivity|]. apply Nat.leb_le. reflexivity.
    + split; [reflexivity|]. split; [eexists; vm_compute; reflexivity|]. exists (demo_text "hello "). split; [by left|].
      split; [reflexivity|]. apply Nat.leb_le. reflexivity.
  - exists id, b1, o1, o3. split; [done|]. split; [done|].
    apply (Hd (demo_text "b") (mkSlice 200 5) (demo_text "world")); [by left|by right; left].
Defined.

Lemma ex_restartable id b o :
  storage_path_ b = ex_dir → dirs o = {[ ex_dir ]} → restartable 4000 b o {[ id := ex_objs ]} ex_now [mpath b id].
Proof.
  intros Eb Ed. split; [apply steady_reliable| |by split|apply NoDup_singleton| | |].
  - intros id' objs [_ <-]%lookup_singleton_Some. apply Nat.leb_le. vm_compute. reflexivity.
  - intros p ->%list_elem_of_singleton _. exists id. split; [rewrite lookup_singleton_eq; by eexists|done].
  - intros id' [objs [<- _]%lookup_singleton_Some]. by apply list_elem_of_singleton.
  - unfold is_directory. rewrite Eb, Ed. apply bool_decide_eq_true_2. by apply elem_of_singleton.
Qed.

Lemma bucket_restart_recovers_witness :
  ∃ b' o', Init ex_now [mpath ex_stored ex_id] (new_backend ex_dir, ex_written.2) = Some (inr tt, (b', o')) ∧
    is_Some (buckets_ b' !! ex_id) ∧ is_Some (object_bucket_map_ b' !! demo_text "a").
Proof.
  destruct (bucket_restart_recovers 4000 ex_stored ex_written.2 [] {[ ex_id := ex_objs ]} ex_now [mpath ex_stored ex_id])
    as (b' & o' & E & Eb & _ & Hk & _).
  - apply ex_stored_reachable.
  - apply ex_restartable; [reflexivity|]. vm_compute. reflexivity.
  - exists b', o'. split; [exact E|]. split; [rewrite Eb, lookup_fmap, lookup_singleton_eq; by eexists|]. apply Hk. eexists. vm_compute. reflexivity.
Defined.

Definition refuse (_ : gmap (list ascii) BucketObjectMetadata) : ErrorCode := EC.RPC_FAIL.

Lemma rejected_offload_reappears_witness :
  ∃ b1 o1 listing b' o', BatchOffload ex_batch (Some refuse) (ex_start.1, ex_start.2) = Some (inl EC.RPC_FAIL, (b1, o1)) ∧
    Init ex_now listing (new_backend ex_dir, o1) = Some (inr tt, (b', o')) ∧
    object_bucket_map_ b1 !! demo_text "a" = None ∧ is_Some (object_bucket_map_ b' !! demo_text "a").
Proof.
  destruct (rejected_offload_reappears 4000 ex_start.1 ex_start.2 [] ∅ ex_batch ex_objs refuse) as (id & b1 & o1 & E & Hom & _ & H);
    [apply ex_start_reachable|apply ex_offloadable|done|].
  assert ((b1, o1) = final ex_new (BatchOffload ex_batch (Some refuse) (ex_start.1, ex_start.2))) as E' by by rewrite E.
  destruct (H ex_now [mpath b1 id]) as (b' & o' & Ei & Hk).
  { apply ex_restartable; [change b1 with (b1, o1).1|change o1 with (b1, o1).2]; rewrite E'; vm_compute; reflexivity. }
  exists b1, o1, [mpath b1 id], b', o'. split; [exact E|]. split; [exact Ei|]. split; [rewrite Hom; vm_compute; reflexivity|].
  apply Hk. by left.
Defined.

Lemma bucket_scan_pages_witness :
  ∃ ps, pages 3 0 2 (ex_stored, ex_written.2) = Some (inr ps, (ex_stored, ex_written.2)) ∧ ex_id ∈ concat ps.*1.
Proof.
  destruct (bucket_scan_pages ex_stored ex_written.2 [] {[ ex_id := ex_objs ]} 2 3 0) as (ps & E & _ & H & _).
  - apply ex_stored_reachable.
  - done.
  - intros id bk Hb. destruct (bi_buckets _ _ _ _ (bucket_reachable_inv _ ex_stored_reachable) id bk Hb) as (objs & Ho & ->).
    cbn [snd] in Ho. apply lookup_singleton_Some in Ho as [_ <-]. by vm_compute.
  - apply Nat.leb_le. vm_compute. reflexivity.
  - exists ps. split; [exact E|]. apply H. split; [eexists; vm_compute; reflexivity|done].
Defined.

(** ** A write that stops short *)

Definition short_write : Posix := {| env := λ k, if decide (k = 1%nat) then Upto 5 else Upto 4000; patience := 1 |}.

(** A short write is published.  [WriteBucket] does not compare the number of bytes that
    were written with the size of the bucket: when [pwritev] stops short, [BatchOffload]
    succeeds all the same, the key is reported as stored, and loading it fails. *)
Theorem short_offload_is_published :
  ∃ b1 o1, @BatchOffload short_write bits_pb ex_batch None ex_start = Some (inr ex_id, (b1, o1)) ∧
    value (IsExist (demo_text "b") (b1, o1)) = Some true ∧
    fst <$> @BatchLoad short_write (λ l, l) ex_request (b1, o1) = Some (inl EC.FILE_READ_FAIL).
Proof.
  assert (value (@BatchOffload short_write bits_pb ex_batch None ex_start) = Some ex_id) as E by (vm_compute; reflexivity).
  destruct (value_final _ _ E) as (b1 & o1 & E'). exists b1, o1. split; [done|].
  assert ((b1, o1) = final ex_new (@BatchOffload short_write bits_pb ex_batch None ex_start)) as -> by by rewrite E'.
  split; vm_compute; reflexivity.
Qed.
