(* ===== verification/ClientProg.v ===== *)
(** * ClientProg: client code as a conversation with its surroundings

    The store client calls the master, moves data through the transfer engine and reads the
    clock; between two such actions other clients, the engine and the master go on.  A
    client operation is a [Prog]: a tree of actions with what is done on every answer. *)

From S2P Require Import Prelude Types BufferAllocator Replica MasterService StorageBackend.
From Stdlib Require Import Ascii.
Open Scope Z_scope.

(** ** Transfers *)

Inductive OpCode := READ | WRITE.

#[export] Instance OpCode_eq_dec : EqDecision OpCode.
Proof. solve_decision. Defined.

(** A segment handle of the engine stands for the name it was opened by. *)
Record TransferRequest := mkRequest {
  rq_opcode : OpCode;
  rq_source : Z;
  rq_target : string;
  rq_offset : Z;
  rq_length : Z;
}.

Module TS.
Inductive t := WAITING | PENDING | INVALID | CANCELED | COMPLETED | TIMEOUT | FAILED.
End TS.
Abbreviation TransferStatusEnum := TS.t.

(** ** The handlers of the master a client calls *)

Inductive MasterCall : Type → Type :=
| MExistKey (key : string) : MasterCall (expected bool)
| MGetReplicaList (key : string) : MasterCall (expected GetReplicaListResponse)
| MPutStart (key : string) (slice_lengths : list Z) (config : ReplicateConfig) : MasterCall (expected (list Descriptor))
| MPutEnd (key : string) (replica_type : ReplicaType) : MasterCall (expected unit)
| MPutRevoke (key : string) (replica_type : ReplicaType) : MasterCall (expected unit)
| MRemove (key : string) : MasterCall (expected unit)
| MRemoveByRegex (regex : string) : MasterCall (expected Z)
| MRemoveAll : MasterCall (expected Z)
| MMountSegment (segment : Segment) (client_id : UUID) : MasterCall (expected unit)
| MReMountSegment (segments : list Segment) (client_id : UUID) : MasterCall (expected unit)
| MUnmountSegment (segment_id client_id : UUID) : MasterCall (expected unit)
| MPing (client_id : UUID) : MasterCall (expected PingResponse)
| MServiceReady : MasterCall (expected unit).

(** ** Actions

    [Lossy] asks whether a message is lost.  [Submit] allocates a batch and submits its
    requests; [Copy] is the same for the worker that copies within the process.  [Poll] is
    the status of every task of a batch, [None] where it cannot be had.  [StoreFile] is
    StoreObject of the storage backend.  The thread that pings asks whether it is to go on,
    starts a remount, asks whether it has ended and waits for it, and reads the address of
    the master from etcd; [SetClientPool] selects the master that is called.  [Spin] is a
    loop that goes on for ever. *)
Inductive Action : Type → Type :=
| Now : Action Z
| Lossy : Action bool
| Exec {X} (c : MasterCall X) : Action X
| OpenSegment (endpoint : string) : Action bool
| Submit (requests : list TransferRequest) : Action (option nat)
| Copy (requests : list TransferRequest) : Action nat
| Poll (batch : nat) : Action (list (option TransferStatusEnum))
| Wait (batch : nat) : Action unit
| FreeBatch (batch : nat) : Action unit
| ReadFile (file_path : string) (object_size : Z) (slices : list Slice) : Action nat
| WaitFile (task : nat) : Action ErrorCode
| Value (slices : list Slice) : Action (list ascii)
| Enqueue (key path : string) (value : list ascii) : Action unit
| RegisterMemory (base size : Z) : Action bool
| UnregisterMemory (base : Z) : Action Z
| GenerateUuid : Action UUID
| StoreFile (path : string) (value : list ascii) : Action bool
| PingRunning : Action bool
| RemountStart : Action unit
| RemountReady : Action bool
| RemountWait : Action unit
| GetMasterView : Action (expected string)
| SetClientPool (master_addr : string) : Action unit
| SleepMs (ms : Z) : Action unit
| Spin : Action Empty_set.

Inductive Prog (R : Type) : Type :=
| Ret (r : R)
| Act {X : Type} (a : Action X) (k : X → Prog R).
#[global] Arguments Ret {R}.
#[global] Arguments Act {R X}.

#[export] Instance prog_ret : MRet Prog := @Ret.
#[export] Instance prog_bind : MBind Prog := λ A B f, fix bind p :=
  match p with Ret r => f r | Act a k => Act a (λ x, bind (k x)) end.

Definition perform {X} (a : Action X) : Prog X := Act a Ret.

(** A loop over a list, and one that stops at the first answer. *)
Fixpoint each {X Y} (f : X → Prog Y) (xs : list X) : Prog (list Y) :=
  match xs with
  | [] => mret []
  | x :: xs => y ← f x; ys ← each f xs; mret (y :: ys)
  end.

(** ** MasterClient

    A request that is lost has no effect; when the answer is lost the request has been
    served.  The caller sees RPC_FAIL in both cases. *)

Definition invoke_rpc {X} (c : MasterCall (expected X)) : Prog (expected X) :=
  lost ← perform Lossy;
  if (lost : bool) then mret (inl EC.RPC_FAIL)
  else
    result ← perform (Exec c);
    lost ← perform Lossy;
    if (lost : bool) then mret (inl EC.RPC_FAIL) else mret result.

Definition invoke_batch_rpc {X} (input_size : nat) (serve : Prog (list (expected X))) : Prog (list (expected X)) :=
  lost ← perform Lossy;
  if (lost : bool) then mret (replicate input_size (inl EC.RPC_FAIL))
  else
    result ← serve;
    lost ← perform Lossy;
    if (lost : bool) then mret (replicate input_size (inl EC.RPC_FAIL)) else mret result.

(** ** WrappedMasterService: batches, one handler after the other *)

Module Wrapped.
Definition BatchExistKey (keys : list string) : Prog (list (expected bool)) :=
  each (λ key, perform (Exec (MExistKey key))) keys.
Definition BatchGetReplicaList (keys : list string) : Prog (list (expected GetReplicaListResponse)) :=
  each (λ key, perform (Exec (MGetReplicaList key))) keys.
Definition BatchPutEnd (keys : list string) : Prog (list (expected unit)) :=
  each (λ key, perform (Exec (MPutEnd key MEMORY))) keys.
Definition BatchPutRevoke (keys : list string) : Prog (list (expected unit)) :=
  each (λ key, perform (Exec (MPutRevoke key MEMORY))) keys.

(** The endpoint of the last memory replica with a buffer. *)
Definition preferred_of (replicas : list Descriptor) : string :=
  foldl (λ s r, match descriptor_variant r with MemoryDescriptor (h :: _) => d_transport_endpoint h | _ => s end)
    EmptyString replicas.

Definition with_preferred (config : ReplicateConfig) (s : string) : ReplicateConfig :=
  mkReplicateConfig (replica_num config) (with_soft_pin config) s (prefer_alloc_in_same_node config).

(** With [prefer_alloc_in_same_node] every object gets one buffer for all its slices, and
    the place of the first object is preferred for the others. *)
Definition put_start_merged (key : string) (lengths : list Z) (config : ReplicateConfig) : Prog (expected (list Descriptor)) :=
  perform (Exec (MPutStart key [foldl (λ n l, u64 (n + l)) 0 lengths] config)).

Definition BatchPutStart (keys : list string) (slice_lengths : list (list Z)) (config : ReplicateConfig)
    : Prog (list (expected (list Descriptor))) :=
  if prefer_alloc_in_same_node config then
    match keys, slice_lengths with
    | key :: keys, lengths :: slice_lengths =>
        result ← put_start_merged key lengths config;
        let config :=
          match result with
          | inr replicas =>
              let s := preferred_of replicas in
              if bool_decide (s = EmptyString) then config else with_preferred config s
          | inl _ => config
          end in
        results ← each (λ kl, put_start_merged kl.1 kl.2 config) (zip keys slice_lengths);
        mret (result :: results)
    | _, _ => mret []
    end
  else each (λ kl, perform (Exec (MPutStart kl.1 kl.2 config))) (zip keys slice_lengths).
End Wrapped.
