(* ===== verification/TransferTask.v ===== *)
(** * TransferTask: moving the data of a replica

    TransferSubmitter turns the slices of the caller and the buffers of a replica into
    requests for the transfer engine or for the worker that copies within the process, and
    TransferFuture waits for the outcome. *)

From S2P Require Import Prelude Types BufferAllocator Replica MasterService StorageBackend ClientProg.
Open Scope Z_scope.

Inductive TransferStrategy := LOCAL_MEMCPY | TRANSFER_ENGINE | FILE_READ | EMPTY.

(** The state behind a future; a batch of the engine with its number of requests. *)
Inductive TransferFuture :=
| MemcpyOperation (batch : nat)
| EngineOperation (batch : nat)
| FilereadOperation (task : nat)
| EmptyOperation.

(** What the submitter reads once: MC_STORE_MEMCPY, the address of the engine. *)
Record Submitter := mkSubmitter {
  memcpy_enabled_ : bool;
  local_endpoint : string;
}.

(** ** Waiting *)

Module Engine.
Fixpoint check_tasks (statuses : list (option TransferStatusEnum)) (all_completed has_failure : bool) : option ErrorCode :=
  match statuses with
  | [] => if has_failure then Some EC.TRANSFER_FAIL else if all_completed then Some EC.OK else None
  | None :: _ => Some EC.TRANSFER_FAIL
  | Some s :: statuses =>
      match s with
      | TS.COMPLETED => check_tasks statuses all_completed has_failure
      | TS.FAILED | TS.CANCELED | TS.INVALID => check_tasks statuses all_completed true
      | _ => check_tasks statuses false has_failure
      end
  end.

(** The result that is set, if any. *)
Definition check_task_status (batch : nat) : Prog (option ErrorCode) :=
  statuses ← perform (Poll batch); mret (check_tasks statuses true false).

Definition timeout_seconds : Z := 60.
Definition kOneSecondInNano : Z := 1000 * 1000 * 1000.

(** [polls] bounds the turns of the loop. *)
Fixpoint wait_loop (polls : nat) (batch : nat) (start_ts : Z) : Prog ErrorCode :=
  match polls with
  | O => Act Spin (λ e : Empty_set, match e with end)
  | S polls =>
      now ← perform Now;
      if timeout_seconds * kOneSecondInNano <? now - start_ts then mret EC.TRANSFER_FAIL
      else
        r ← check_task_status batch;
        match r with Some e => mret e | None => wait_loop polls batch start_ts end
  end.

(** [TransferFuture::wait] asks [isReady] first, and [wait_for_completion] asks again. *)
Definition wait (polls : nat) (batch : nat) : Prog ErrorCode :=
  r ← check_task_status batch;
  match r with
  | Some e => mret e
  | None =>
      r ← check_task_status batch;
      match r with
      | Some e => mret e
      | None => start_ts ← perform Now; wait_loop polls batch start_ts
      end
  end.
End Engine.

(** [get_result] of the empty state has no result to give. *)
Definition future_get (polls : nat) (f : TransferFuture) : Prog ErrorCode :=
  match f with
  | MemcpyOperation b => perform (Wait b);; mret EC.OK
  | EngineOperation b => Engine.wait polls b
  | FilereadOperation t => perform (WaitFile t)
  | EmptyOperation => mret EC.INVALID_PARAMS
  end.

(** The destructor of the state. *)
Definition future_drop (f : TransferFuture) : Prog unit :=
  match f with EngineOperation b => perform (FreeBatch b) | _ => mret tt end.

(** ** Submitting *)

Section submitter.
Context (sub : Submitter).

Definition isLocalTransfer (handles : list BufferDescriptor) : bool :=
  if bool_decide (local_endpoint sub = EmptyString) then false
  else forallb (λ h, negb (bool_decide (d_transport_endpoint h = EmptyString)) &&
                     bool_decide (d_transport_endpoint h = local_endpoint sub)) handles.

Definition selectStrategy (handles : list BufferDescriptor) : TransferStrategy :=
  if negb (memcpy_enabled_ sub) then TRANSFER_ENGINE
  else if isLocalTransfer handles then LOCAL_MEMCPY else TRANSFER_ENGINE.

Definition validateTransferParams (handles : list BufferDescriptor) (slices : list Slice) (is_multi_buffers : bool) : bool :=
  match handles with
  | [] => false
  | h :: _ =>
      if (length slices <? length handles)%nat then false
      else if is_multi_buffers then d_size h =? foldl (λ n s, u64 (n + slice_size s)) 0 slices
      else forallb (λ hs, d_size hs.1 =? slice_size hs.2) (zip handles slices)
  end.

Definition request (op_code : OpCode) (h : BufferDescriptor) (s : Slice) : TransferRequest :=
  mkRequest op_code (ptr s) (d_transport_endpoint h) (d_buffer_address h) (d_size h).

(** Both ways skip slices without memory. *)
Definition with_memory (handles : list BufferDescriptor) (slices : list Slice) : list (BufferDescriptor * Slice) :=
  filter (λ hs, ptr hs.2 ≠ 0) (zip handles slices).

Definition submitMemcpyOperation (handles : list BufferDescriptor) (slices : list Slice) (op_code : OpCode)
    : Prog (option TransferFuture) :=
  b ← perform (Copy ((λ hs, request op_code hs.1 hs.2) <$> with_memory handles slices));
  mret (Some (MemcpyOperation b)).

Definition submitTransfer (requests : list TransferRequest) : Prog (option TransferFuture) :=
  b ← perform (Submit requests); mret (match b with Some b => Some (EngineOperation b) | None => None end).

Fixpoint open_all (hss : list (BufferDescriptor * Slice)) : Prog bool :=
  match hss with
  | [] => mret true
  | (h, s) :: hss =>
      if bool_decide (d_transport_endpoint h = EmptyString) then mret false
      else
        ok ← perform (OpenSegment (d_transport_endpoint h));
        if (ok : bool) then open_all hss else mret false
  end.

Definition submitTransferEngineOperation (handles : list BufferDescriptor) (slices : list Slice) (op_code : OpCode)
    : Prog (option TransferFuture) :=
  ok ← open_all (with_memory handles slices);
  if (ok : bool) then submitTransfer ((λ hs, request op_code hs.1 hs.2) <$> with_memory handles slices)
  else mret None.

Definition submit (replica : Descriptor) (slices : list Slice) (op_code : OpCode) : Prog (option TransferFuture) :=
  match descriptor_variant replica with
  | MemoryDescriptor handles =>
      if negb (validateTransferParams handles slices false) then mret None
      else
        match selectStrategy handles with
        | LOCAL_MEMCPY => submitMemcpyOperation handles slices op_code
        | TRANSFER_ENGINE => submitTransferEngineOperation handles slices op_code
        | _ => mret None
        end
  | DiskDescriptor file_path object_size =>
      t ← perform (ReadFile file_path object_size slices); mret (Some (FilereadOperation t))
  end.

(** The slices of an object one behind the other in its single buffer. *)
Fixpoint batch_requests (op_code : OpCode) (h : BufferDescriptor) (offset : Z) (slices : list Slice) : list TransferRequest :=
  match slices with
  | [] => []
  | s :: slices =>
      mkRequest op_code (ptr s) (d_transport_endpoint h) (u64 (d_buffer_address h + offset)) (slice_size s) ::
      batch_requests op_code h (u64 (offset + slice_size s)) slices
  end.

(** [None]: a failure; the replicas are memory replicas. *)
Fixpoint collect_requests (op_code : OpCode) (replicas : list Descriptor) (all_slices : list (list Slice))
    : Prog (option (list TransferRequest)) :=
  match replicas, all_slices with
  | replica :: replicas, slices :: all_slices =>
      match descriptor_variant replica with
      | MemoryDescriptor ((h :: _) as handles) =>
          if negb (validateTransferParams handles slices true) then mret None
          else
            ok ← perform (OpenSegment (d_transport_endpoint h));
            if (ok : bool) then
              rest ← collect_requests op_code replicas all_slices;
              mret (match rest with Some rest => Some (batch_requests op_code h 0 slices ++ rest) | None => None end)
            else mret None
      | _ => mret None
      end
  | _, _ => mret (Some [])
  end.

Definition submit_batch (replicas : list Descriptor) (all_slices : list (list Slice)) (op_code : OpCode)
    : Prog (option TransferFuture) :=
  rs ← collect_requests op_code replicas all_slices;
  match rs with Some rs => submitTransfer rs | None => mret None end.
End submitter.
