(* ===== verification/StoreClient.v ===== *)
(** * StoreClient: reading and writing objects

    The operations of Client: queries, Get and Put of one object and of batches, and the
    mounting of segments, as conversations with the master and the transfer engine. *)

From S2P Require Import Prelude Types BufferAllocator Replica MasterService StorageBackend ClientProg TransferTask.
From Stdlib Require Import Ascii.
Open Scope Z_scope.

Definition CalculateSliceSize (slices : list Slice) : Z := foldl (λ n s, u64 (n + slice_size s)) 0 slices.

Record QueryResult := mkQueryResult { q_replicas : list Descriptor; q_lease_timeout : Z }.
Definition query_expired (q : QueryResult) (now : Z) : bool := q_lease_timeout q <=? now.

Definition is_memory_replica (d : Descriptor) : bool :=
  match descriptor_variant d with MemoryDescriptor _ => true | DiskDescriptor _ _ => false end.

Fixpoint FindFirstCompleteReplica (replica_list : list Descriptor) : option Descriptor :=
  match replica_list with
  | [] => None
  | d :: replica_list => if bool_decide (d_status d = COMPLETE) then Some d else FindFirstCompleteReplica replica_list
  end.

(** ** Batched writes *)

Inductive PutOperationState := OP_PENDING | OP_MASTER_FAILED | OP_TRANSFER_FAILED | OP_FINALIZE_FAILED | OP_SUCCESS.

#[export] Instance PutOperationState_eq_dec : EqDecision PutOperationState.
Proof. solve_decision. Defined.

Record PutOperation := mkPutOperation {
  op_key : string;
  op_slices : list Slice;
  op_state : PutOperationState;
  op_result : expected unit;
  op_replicas : list Descriptor;
  op_pending : list TransferFuture;
}.

Definition new_operation (key : string) (slices : list Slice) : PutOperation :=
  mkPutOperation key slices OP_PENDING (inl EC.INTERNAL_ERROR) [] [].
Definition op_with_replicas (rs : list Descriptor) (op : PutOperation) : PutOperation :=
  mkPutOperation (op_key op) (op_slices op) (op_state op) (op_result op) rs (op_pending op).
Definition op_with_pending (fs : list TransferFuture) (op : PutOperation) : PutOperation :=
  mkPutOperation (op_key op) (op_slices op) (op_state op) (op_result op) (op_replicas op) fs.
Definition op_with_state (st : PutOperationState) (op : PutOperation) : PutOperation :=
  mkPutOperation (op_key op) (op_slices op) st (op_result op) (op_replicas op) (op_pending op).

Definition SetSuccess (op : PutOperation) : PutOperation :=
  mkPutOperation (op_key op) (op_slices op) OP_SUCCESS (inr tt) (op_replicas op) (op_pending op).
Definition SetError (error : ErrorCode) (op : PutOperation) : PutOperation :=
  let state := match op_replicas op, op_pending op with
               | [], _ => OP_MASTER_FAILED
               | _, [] => OP_TRANSFER_FAILED
               | _, _ => OP_FINALIZE_FAILED
               end in
  mkPutOperation (op_key op) (op_slices op) state (inl error) (op_replicas op) (op_pending op).
Definition IsResolved (op : PutOperation) : bool := negb (bool_decide (op_state op = OP_PENDING)).

Definition CreatePutOperations (keys : list string) (batched_slices : list (list Slice)) : list PutOperation :=
  zip_with new_operation keys batched_slices.

Definition collect_result (op : PutOperation) : expected unit :=
  match op_result op with inl e => if decide (e = EC.OBJECT_ALREADY_EXISTS) then inr tt else inl e | inr x => inr x end.
Definition CollectResults (ops : list PutOperation) : list (expected unit) := collect_result <$> ops.

(** What is put at the places [ix], one answer each. *)
Fixpoint at_each {X} (f : X → PutOperation → PutOperation) (ix : list nat) (xs : list X) (ops : list PutOperation) : list PutOperation :=
  match ix, xs with
  | i :: ix, x :: xs => at_each f ix xs (alter (f x) i ops)
  | _, _ => ops
  end.

Module Client.
Section client.
Context (transfer_submitter_ : option Submitter) (storage_backend_ : bool) (polls : nat).

(** ** Transfers *)

Definition TransferData (replica : Descriptor) (slices : list Slice) (op_code : OpCode) : Prog ErrorCode :=
  match transfer_submitter_ with
  | None => mret EC.INVALID_PARAMS
  | Some sub =>
      future ← submit sub replica slices op_code;
      match future with
      | None => mret EC.TRANSFER_FAIL
      | Some f => e ← future_get polls f; future_drop f;; mret e
      end
  end.

Definition TransferWrite (replica : Descriptor) (slices : list Slice) : Prog ErrorCode := TransferData replica slices WRITE.

Definition replica_size (replica : Descriptor) : Z :=
  match descriptor_variant replica with
  | MemoryDescriptor handles => foldl (λ n h, u64 (n + d_size h)) 0 handles
  | DiskDescriptor _ object_size => object_size
  end.

Definition TransferRead (replica : Descriptor) (slices : list Slice) : Prog ErrorCode :=
  if CalculateSliceSize slices <? replica_size replica then mret EC.INVALID_PARAMS
  else TransferData replica slices READ.

(** ** Reading *)

Definition query_result (start_time : Z) (r : expected GetReplicaListResponse) : expected QueryResult :=
  match r with
  | inl e => inl e
  | inr resp => inr (mkQueryResult (r_replicas resp) (start_time + milliseconds (lease_ttl_ms resp)))
  end.

Definition Query (object_key : string) : Prog (expected QueryResult) :=
  start_time ← perform Now;
  result ← invoke_rpc (MGetReplicaList object_key);
  mret (query_result start_time result).

Definition BatchQuery (object_keys : list string) : Prog (list (expected QueryResult)) :=
  start_time ← perform Now;
  response ← invoke_batch_rpc (length object_keys) (Wrapped.BatchGetReplicaList object_keys);
  if negb (length response =? length object_keys)%nat then mret (replicate (length object_keys) (inl EC.RPC_FAIL))
  else mret (query_result start_time <$> response).

Definition get_query (q : QueryResult) (slices : list Slice) : Prog (expected unit) :=
  match FindFirstCompleteReplica (q_replicas q) with
  | None => mret (inl EC.INVALID_REPLICA)
  | Some replica =>
      err ← TransferRead replica slices;
      if negb (bool_decide (err = EC.OK)) then mret (inl err)
      else
        now ← perform Now;
        if query_expired q now then mret (inl EC.LEASE_EXPIRED) else mret (inr tt)
  end.

Definition Get (object_key : string) (slices : list Slice) : Prog (expected unit) :=
  q ← Query object_key;
  match q with inl e => mret (inl e) | inr q => get_query q slices end.

(** Submitting the transfers of a batch: the results so far, with the place of every
    transfer that is under way. *)
Fixpoint submit_gets (sub : Submitter) (i : nat) (kqs : list (string * QueryResult)) (slices : gmap string (list Slice))
    : Prog (list (expected unit) * list (nat * TransferFuture)) :=
  match kqs with
  | [] => mret ([], [])
  | (key, q) :: kqs =>
      r ← match slices !! key with
          | None => mret (inl EC.INVALID_PARAMS)
          | Some sl =>
              match FindFirstCompleteReplica (q_replicas q) with
              | None => mret (inl EC.INVALID_REPLICA)
              | Some replica =>
                  f ← submit sub replica sl READ;
                  mret (match f with None => inl EC.TRANSFER_FAIL | Some f => inr f end)
              end
          end;
      rest ← submit_gets sub (S i) kqs slices;
      mret (match (r : expected TransferFuture) with
            | inl e => (inl e :: rest.1, rest.2)
            | inr f => (inr tt :: rest.1, (i, f) :: rest.2)
            end)
  end.

Fixpoint wait_gets (pending : list (nat * TransferFuture)) (results : list (expected unit)) : Prog (list (expected unit)) :=
  match pending with
  | [] => mret results
  | (index, f) :: pending =>
      e ← future_get polls f;
      wait_gets pending (<[index := if bool_decide (e = EC.OK) then inr tt else inl e]> results)
  end.

Definition check_leases (now : Z) (qs : list QueryResult) (results : list (expected unit)) : list (expected unit) :=
  zip_with (λ q r, match r with inr _ => if query_expired q now then inl EC.LEASE_EXPIRED else r | inl _ => r end) qs results.

Definition drop_all (fs : list TransferFuture) : Prog unit := each future_drop fs;; mret tt.

(** *** With all objects of a batch in one place

    One batch of the engine for every endpoint; the map of endpoints is visited in some
    order.  The leases are not checked. *)

Record BatchGetOperation := mkBatchGet {
  bg_replicas : list Descriptor;
  bg_slices : list (list Slice);
  bg_indexes : list nat;
}.

Definition bg_add (replica : Descriptor) (sl : list Slice) (i : nat) (op : option BatchGetOperation) : option BatchGetOperation :=
  let op := default (mkBatchGet [] [] []) op in
  Some (mkBatchGet (bg_replicas op ++ [replica]) (bg_slices op ++ [sl]) (bg_indexes op ++ [i])).

Fixpoint group_gets (i : nat) (kqs : list (string * QueryResult)) (slices : gmap string (list Slice))
    (ops : gmap string BatchGetOperation) : list (expected unit) * gmap string BatchGetOperation :=
  match kqs with
  | [] => ([], ops)
  | (key, q) :: kqs =>
      let '(r, ops) :=
        match slices !! key with
        | None => (inl EC.INVALID_PARAMS, ops)
        | Some sl =>
            match FindFirstCompleteReplica (q_replicas q) with
            | None => (inl EC.INVALID_REPLICA, ops)
            | Some replica =>
                match descriptor_variant replica with
                | MemoryDescriptor (h :: _) => (inr tt, partial_alter (bg_add replica sl i) (d_transport_endpoint h) ops)
                | _ => (inl EC.INVALID_REPLICA, ops)
                end
            end
        end in
      let '(rs, ops) := group_gets (S i) kqs slices ops in
      (r :: rs, ops)
  end.

Definition fill (ix : list nat) (r : expected unit) (results : list (expected unit)) : list (expected unit) :=
  foldl (λ rs i, <[i := r]> rs) results ix.

Fixpoint submit_groups (sub : Submitter) (ops : list BatchGetOperation) (results : list (expected unit))
    : Prog (list (BatchGetOperation * TransferFuture) * list (expected unit)) :=
  match ops with
  | [] => mret ([], results)
  | op :: ops =>
      f ← submit_batch (bg_replicas op) (bg_slices op) READ;
      match f with
      | None => submit_groups sub ops (fill (bg_indexes op) (inl EC.TRANSFER_FAIL) results)
      | Some f => rest ← submit_groups sub ops results; mret ((op, f) :: rest.1, rest.2)
      end
  end.

Fixpoint wait_groups (fs : list (BatchGetOperation * TransferFuture)) (results : list (expected unit)) : Prog (list (expected unit)) :=
  match fs with
  | [] => mret results
  | (op, f) :: fs =>
      e ← future_get polls f;
      wait_groups fs (fill (bg_indexes op) (if bool_decide (e = EC.OK) then inr tt else inl EC.TRANSFER_FAIL) results)
  end.

Definition BatchGetWhenPreferSameNode (sub : Submitter) (arrange : list (string * BatchGetOperation) → list (string * BatchGetOperation))
    (kqs : list (string * QueryResult)) (slices : gmap string (list Slice)) : Prog (list (expected unit)) :=
  let '(results, ops) := group_gets 0 kqs slices ∅ in
  fs ← submit_groups sub (arrange (map_to_list ops)).*2 results;
  results ← wait_groups fs.1 fs.2;
  drop_all fs.1.*2;;
  mret results.

Definition batch_get_query (arrange : list (string * BatchGetOperation) → list (string * BatchGetOperation)) (object_keys : list string)
    (query_results : list QueryResult) (slices : gmap string (list Slice)) (prefer : bool) : Prog (list (expected unit)) :=
  match transfer_submitter_ with
  | None => mret (replicate (length object_keys) (inl EC.INVALID_PARAMS))
  | Some sub =>
      if negb (length query_results =? length object_keys)%nat then mret (replicate (length object_keys) (inl EC.INVALID_PARAMS))
      else if prefer then BatchGetWhenPreferSameNode sub arrange (zip object_keys query_results) slices
      else
        '(results, pending) ← submit_gets sub 0 (zip object_keys query_results) slices;
        results ← wait_gets pending results;
        now ← perform Now;
        let results := check_leases now query_results results in
        drop_all pending.*2;;
        mret results
  end.

(** The keys whose query failed keep its error. *)
Fixpoint merge_results (qs : list (expected QueryResult)) (valid : list (expected unit)) : list (expected unit) :=
  match qs with
  | [] => []
  | inl e :: qs => inl e :: merge_results qs valid
  | inr _ :: qs =>
      match valid with
      | r :: valid => r :: merge_results qs valid
      | [] => inr tt :: merge_results qs []
      end
  end.

Definition BatchGet (object_keys : list string) (slices : gmap string (list Slice)) : Prog (list (expected unit)) :=
  qs ← BatchQuery object_keys;
  let valid := omap (λ kq, match kq.2 with inr q => Some (kq.1, q) | inl _ => None end) (zip object_keys qs) in
  match valid with
  | [] => mret (merge_results qs [])
  | _ =>
      rs ← batch_get_query id valid.*1 valid.*2 (filter (λ e, e.1 ∈ valid.*1) slices) false;
      mret (merge_results qs rs)
  end.

(** ** Writing *)

(** The copy on disk is written by another thread. *)
Definition PutToLocalFile (key : string) (slices : list Slice) (path : string) : Prog unit :=
  if negb storage_backend_ then mret tt
  else value ← perform (Value slices); perform (Enqueue key path value).

(** What that thread does. *)
Definition write_task (key path : string) (value : list ascii) : Prog unit :=
  stored ← perform (StoreFile path value);
  if negb stored then invoke_rpc (MPutRevoke key DISK);; mret tt
  else invoke_rpc (MPutEnd key DISK);; mret tt.

Definition last_disk (replicas : list Descriptor) : option string :=
  foldl (λ d r, match descriptor_variant r with DiskDescriptor path _ => Some path | _ => d end) None replicas.

Definition put_disk (key : string) (slices : list Slice) (replicas : list Descriptor) : Prog unit :=
  if storage_backend_ then
    match last_disk replicas with Some path => PutToLocalFile key slices path | None => mret tt end
  else mret tt.

(** The loop over the memory replicas; a failed transfer ends the operation. *)
Fixpoint put_replicas (key : string) (slices : list Slice) (replicas : list Descriptor) : Prog (option (expected unit)) :=
  match replicas with
  | [] => mret None
  | replica :: replicas =>
      if negb (is_memory_replica replica) then put_replicas key slices replicas
      else
        err ← TransferWrite replica slices;
        if bool_decide (err = EC.OK) then put_replicas key slices replicas
        else
          r ← invoke_rpc (MPutRevoke key MEMORY);
          mret (Some (match r with inl e => inl e | inr _ => inl err end))
  end.

Definition Put (key : string) (slices : list Slice) (config : ReplicateConfig) : Prog (expected unit) :=
  start_result ← invoke_rpc (MPutStart key (slice_size <$> slices) config);
  match start_result with
  | inl err => if decide (err = EC.OBJECT_ALREADY_EXISTS) then mret (inr tt) else mret (inl err)
  | inr replicas =>
      put_disk key slices replicas;;
      failed ← put_replicas key slices replicas;
      match failed with
      | Some r => mret r
      | None => invoke_rpc (MPutEnd key MEMORY)
      end
  end.

(** *** Batches *)

Definition start_response (r : expected (list Descriptor)) (op : PutOperation) : PutOperation :=
  match r with inl e => SetError e op | inr replicas => op_with_replicas replicas op end.

Definition StartBatchPut (ops : list PutOperation) (config : ReplicateConfig) : Prog (list PutOperation) :=
  responses ← invoke_batch_rpc (length ops) (Wrapped.BatchPutStart (op_key <$> ops) ((λ op, slice_size <$> op_slices op) <$> ops) config);
  if negb (length responses =? length ops)%nat then mret (SetError EC.RPC_FAIL <$> ops)
  else mret (zip_with start_response responses ops).

(** The transfers submitted, and whether all of them were. *)
Fixpoint submit_writes (sub : Submitter) (slices : list Slice) (replicas : list Descriptor) : Prog (list TransferFuture * bool) :=
  match replicas with
  | [] => mret ([], true)
  | replica :: replicas =>
      if negb (is_memory_replica replica) then submit_writes sub slices replicas
      else
        f ← submit sub replica slices WRITE;
        match f with
        | None => mret ([], false)
        | Some f => rest ← submit_writes sub slices replicas; mret (f :: rest.1, rest.2)
        end
  end.

Definition submit_operation (sub : Submitter) (op : PutOperation) : Prog PutOperation :=
  if IsResolved op then mret op
  else
    match op_replicas op with
    | [] => mret (SetError EC.INTERNAL_ERROR op)
    | _ =>
        put_disk (op_key op) (op_slices op) (op_replicas op);;
        '(fs, all_submitted) ← submit_writes sub (op_slices op) (op_replicas op);
        let op := op_with_pending fs op in
        if (all_submitted : bool) then mret op
        else drop_all fs;; mret (op_with_pending [] (SetError EC.TRANSFER_FAIL op))
    end.

Definition SubmitTransfers (ops : list PutOperation) : Prog (list PutOperation) :=
  match transfer_submitter_ with
  | None => mret (SetError EC.INVALID_PARAMS <$> ops)
  | Some sub => each (submit_operation sub) ops
  end.

(** All transfers are waited for; the first error counts. *)
Fixpoint wait_writes (fs : list TransferFuture) (first_error : ErrorCode) : Prog ErrorCode :=
  match fs with
  | [] => mret first_error
  | f :: fs =>
      e ← future_get polls f;
      wait_writes fs (if bool_decide (first_error = EC.OK) then e else first_error)
  end.

Definition wait_operation (op : PutOperation) : Prog PutOperation :=
  if IsResolved op then mret op
  else
    match op_pending op with
    | [] => mret (SetError EC.INTERNAL_ERROR op)
    | fs => e ← wait_writes fs EC.OK; mret (if bool_decide (e = EC.OK) then op else SetError e op)
    end.

Definition WaitForTransfers (ops : list PutOperation) : Prog (list PutOperation) := each wait_operation ops.

Definition to_end (op : PutOperation) : bool :=
  negb (IsResolved op) && negb (bool_decide (op_replicas op = [])) && (0 <? length (op_pending op))%nat.
Definition to_revoke (op : PutOperation) : bool :=
  negb (to_end op) && IsResolved op && negb (bool_decide (op_replicas op = [])).

(** The places of the operations that satisfy [f]. *)
Definition places (f : PutOperation → bool) (ops : list PutOperation) : list nat :=
  (filter (λ iop, f iop.2 = true) (imap pair ops)).*1.
Definition keys_of (f : PutOperation → bool) (ops : list PutOperation) : list string := op_key <$> filter (λ op, f op = true) ops.

Definition end_response (r : expected unit) (op : PutOperation) : PutOperation :=
  match r with inl e => SetError e op | inr _ => SetSuccess op end.

(** The places and keys of both groups are collected before the first call. *)
Definition FinalizeBatchPut (ops : list PutOperation) : Prog (list PutOperation) :=
  let successful_keys := keys_of to_end ops in
  let successful_indices := places to_end ops in
  let failed_keys := keys_of to_revoke ops in
  let failed_indices := places to_revoke ops in
  ops ← (if bool_decide (successful_keys = []) then mret ops
         else
           rs ← invoke_batch_rpc (length successful_keys) (Wrapped.BatchPutEnd successful_keys);
           if negb (length rs =? length successful_keys)%nat
           then mret (at_each SetError successful_indices (replicate (length successful_indices) EC.RPC_FAIL) ops)
           else mret (at_each end_response successful_indices rs ops));
  ops ← (if bool_decide (failed_keys = []) then mret ops
         else
           rs ← invoke_batch_rpc (length failed_keys) (Wrapped.BatchPutRevoke failed_keys);
           if negb (length rs =? length failed_keys)%nat
           then mret (at_each SetError failed_indices (replicate (length failed_indices) EC.RPC_FAIL) ops)
           else mret ops);
  mret ((λ op, if IsResolved op then op else SetError EC.INTERNAL_ERROR op) <$> ops).

(** *** With all objects of a batch in one place *)

(** The endpoint of the first buffer of the first replica. *)
Definition op_endpoint (op : PutOperation) : option string :=
  match op_replicas op with
  | d :: _ => match descriptor_variant d with MemoryDescriptor (h :: _) => Some (d_transport_endpoint h) | _ => None end
  | [] => None
  end.

Definition prefer_check (op : PutOperation) : PutOperation :=
  if IsResolved op then op
  else
    match op_replicas op with
    | [] => SetError EC.INTERNAL_ERROR op
    | d :: _ =>
        match descriptor_variant d with
        | MemoryDescriptor [] | DiskDescriptor _ _ => SetError EC.INVALID_PARAMS op
        | _ => op
        end
    end.

(** The replicas and slices of the operations at one endpoint. *)
Definition SegGroup : Type := list Descriptor * list (list Slice).
Definition seg_add (d : Descriptor) (sl : list Slice) (g : option SegGroup) : option SegGroup :=
  let g := default ([], []) g in Some (g.1 ++ [d], g.2 ++ [sl]).

Definition group_ops (ops : list PutOperation) : gmap string SegGroup :=
  foldl (λ m op,
    if IsResolved op then m
    else match op_replicas op, op_endpoint op with
         | d :: _, Some seg => partial_alter (seg_add d (op_slices op)) seg m
         | _, _ => m
         end) ∅ ops.

(** The future of the batch of every endpoint, where it could be submitted. *)
Fixpoint submit_segments (groups : list (string * SegGroup)) : Prog (list (string * option TransferFuture)) :=
  match groups with
  | [] => mret []
  | (seg, (ds, sls)) :: groups =>
      f ← submit_batch ds sls WRITE;
      rest ← submit_segments groups;
      mret ((seg, f) :: rest)
  end.

(** The state of the merged operation of every endpoint. *)
Fixpoint wait_segments (fs : list (string * option TransferFuture)) : Prog (gmap string PutOperationState) :=
  match fs with
  | [] => mret ∅
  | (seg, f) :: fs =>
      st ← match f with
           | None => mret OP_TRANSFER_FAILED
           | Some f => e ← future_get polls f; mret (if bool_decide (e = EC.OK) then OP_PENDING else OP_FINALIZE_FAILED)
           end;
      rest ← wait_segments fs;
      mret (<[seg := st]> rest)
  end.

Definition prefer_state (states : gmap string PutOperationState) (op : PutOperation) : PutOperation :=
  if IsResolved op then op
  else
    let st := match op_endpoint op with Some seg => default OP_PENDING (states !! seg) | None => OP_PENDING end in
    op_with_pending (op_pending op ++ [EmptyOperation]) (op_with_state st op).

Definition BatchPutWhenPreferSameNode (arrange : list (string * SegGroup) → list (string * SegGroup))
    (ops : list PutOperation) : Prog (list (expected unit)) :=
  let ops := prefer_check <$> ops in
  fs ← submit_segments (arrange (map_to_list (group_ops ops)));
  states ← wait_segments fs;
  let ops := prefer_state states <$> ops in
  ops ← FinalizeBatchPut ops;
  drop_all (omap snd fs);;
  mret (CollectResults ops).

Definition BatchPut (arrange : list (string * SegGroup) → list (string * SegGroup)) (keys : list string)
    (batched_slices : list (list Slice)) (config : ReplicateConfig) : Prog (list (expected unit)) :=
  let ops := CreatePutOperations keys batched_slices in
  if prefer_alloc_in_same_node config then
    if negb (replica_num config =? 1) then mret (replicate (length keys) (inl EC.INVALID_PARAMS))
    else ops ← StartBatchPut ops config; BatchPutWhenPreferSameNode arrange ops
  else
    ops ← StartBatchPut ops config;
    ops ← SubmitTransfers ops;
    ops ← WaitForTransfers ops;
    ops ← FinalizeBatchPut ops;
    drop_all (ops ≫= op_pending);;
    mret (CollectResults ops).

(** ** Other operations *)

Definition Remove (key : string) : Prog (expected unit) := invoke_rpc (MRemove key).
Definition RemoveByRegex (str : string) : Prog (expected Z) := invoke_rpc (MRemoveByRegex str).
Definition RemoveAll : Prog (expected Z) := invoke_rpc MRemoveAll.
Definition IsExist (key : string) : Prog (expected bool) := invoke_rpc (MExistKey key).
Definition BatchIsExist (keys : list string) : Prog (list (expected bool)) :=
  response ← invoke_batch_rpc (length keys) (Wrapped.BatchExistKey keys);
  if negb (length response =? length keys)%nat then mret (replicate (length keys) (inl EC.RPC_FAIL)) else mret response.
End client.

(** ** Segments *)

Record Segments := mkSegments {
  local_hostname_ : string;
  p2p_handshake : bool;
  local_ip_and_port : string;
  max_mr_size : Z;
  client_id_ : UUID;
}.

Definition CheckRegisterMemoryParams (c : Segments) (addr length : Z) : bool :=
  negb (addr =? 0) && negb (length =? 0) && (length <=? max_mr_size c).

(** [std::max(l1, l2) < std::min(r1, r2)] *)
Definition overlaps (base size : Z) (s : Segment) : bool :=
  Z.max (seg_base s) base <? Z.min (u64 (seg_size s + seg_base s)) (u64 (size + base)).

(** The lock on [mounted_segments_] is held throughout. *)
Definition MountSegment (c : Segments) (mounted_segments_ : gmap UUID Segment) (buffer size : Z)
    : Prog (expected unit * gmap UUID Segment) :=
  if negb (CheckRegisterMemoryParams c buffer size) then mret (inl EC.INVALID_PARAMS, mounted_segments_)
  else if existsb (overlaps buffer size) (map_to_list mounted_segments_).*2 then mret (inl EC.INVALID_PARAMS, mounted_segments_)
  else
    registered ← perform (RegisterMemory buffer size);
    if negb registered then mret (inl EC.INVALID_PARAMS, mounted_segments_)
    else
      id ← perform GenerateUuid;
      let segment := mkSegment id (local_hostname_ c) buffer size
        (if p2p_handshake c then local_ip_and_port c else local_hostname_ c) in
      r ← invoke_rpc (MMountSegment segment (client_id_ c));
      match r with
      | inl e => mret (inl e, mounted_segments_)
      | inr _ => mret (inr tt, <[id := segment]> mounted_segments_)
      end.

Definition RegisterLocalMemory (c : Segments) (addr length : Z) : Prog (expected unit) :=
  if negb (CheckRegisterMemoryParams c addr length) then mret (inl EC.INVALID_PARAMS)
  else
    registered ← perform (RegisterMemory addr length);
    mret (if (registered : bool) then inr tt else inl EC.INVALID_PARAMS).

Definition unregisterLocalMemory (addr : Z) : Prog (expected unit) :=
  rc ← perform (UnregisterMemory addr);
  mret (if rc =? 0 then inr tt else inl EC.INVALID_PARAMS).

Definition ERR_ADDRESS_NOT_REGISTERED : Z := -3.

Definition UnmountSegment (c : Segments) (mounted_segments_ : gmap UUID Segment) (buffer size : Z)
    : Prog (expected unit * gmap UUID Segment) :=
  match List.find (λ e, (seg_base e.2 =? buffer) && (seg_size e.2 =? size)) (map_to_list mounted_segments_) with
  | None => mret (inl EC.INVALID_PARAMS, mounted_segments_)
  | Some (id, segment) =>
      r ← invoke_rpc (MUnmountSegment (seg_id segment) (client_id_ c));
      match r with
      | inl e => mret (inl e, mounted_segments_)
      | inr _ =>
          rc ← perform (UnregisterMemory (seg_base segment));
          if negb (rc =? 0) && negb (rc =? ERR_ADDRESS_NOT_REGISTERED) then mret (inl EC.INTERNAL_ERROR, mounted_segments_)
          else mret (inr tt, delete id mounted_segments_)
      end
  end.
End Client.
