(* ===== verification/ClientSegments.v ===== *)
(** * ClientSegments: the memory a client offers, and reads that ignore leases

    MountSegment refuses memory that overlaps memory offered before, so that the segments of
    one client lie apart whatever the master and the engine answer; this is what the master
    relies on.  And the grouped form of BatchGet does not look at the leases it was given. *)

From S2P Require Import Prelude Types BufferAllocator Replica SegmentManager MasterService StorageBackend ClientProg TransferTask StoreClient.
Open Scope Z_scope.

(** What a conversation may end with, over all answers. *)
Fixpoint may_return {R} (p : Prog R) (r : R) : Prop :=
  match p with
  | Ret r' => r = r'
  | Act a k => ∃ x, may_return (k x) r
  end.

Lemma may_return_bind {Q R} (p : Prog Q) (f : Q → Prog R) r : may_return (p ≫= f) r ↔ ∃ q, may_return p q ∧ may_return (f q) r.
Proof.
  induction p as [q|X a k IH].
  - split; [by exists q|]. by intros (? & -> & ?).
  - change (may_return (Act a k ≫= f) r) with (∃ x, may_return (k x ≫= f) r). cbn. split.
    + intros (x & (q & Hq & Hr)%IH). eauto.
    + intros (q & (x & Hq) & Hr). exists x. apply IH. eauto.
Qed.

(** ** Offered memory *)

Section offers.
Context (c : Client.Segments).
Implicit Types (ss : gmap UUID Segment) (s : Segment).

Definition endpoint_of : string := if Client.p2p_handshake c then Client.local_ip_and_port c else Client.local_hostname_ c.

(** Segments are memory of this process, at this client's endpoint, and lie apart. *)
Record offers ss : Prop := {
  of_id id s : ss !! id = Some s → seg_id s = id ∧ seg_name s = Client.local_hostname_ c ∧ te_endpoint s = endpoint_of;
  of_memory id s : ss !! id = Some s → 0 < seg_base s ∧ 0 < seg_size s ∧ seg_base s + seg_size s < 2 ^ 64;
  of_apart id id' s s' : ss !! id = Some s → ss !! id' = Some s' → id ≠ id' →
    seg_base s + seg_size s <= seg_base s' ∨ seg_base s' + seg_size s' <= seg_base s;
}.

Lemma offers_empty : offers ∅.
Proof. by split. Qed.

Lemma overlaps_false base size s :
  0 <= base → 0 < size → base + size < 2 ^ 64 → 0 < seg_base s ∧ 0 < seg_size s ∧ seg_base s + seg_size s < 2 ^ 64 →
  Client.overlaps base size s = false → seg_base s + seg_size s <= base ∨ base + size <= seg_base s.
Proof. unfold Client.overlaps. intros ? ? ? (? & ? & ?) HX%Z.ltb_ge. rewrite !u64_small in HX by (unfold is_u64; lia). lia. Qed.

Lemma offers_insert ss s :
  offers ss → seg_name s = Client.local_hostname_ c → te_endpoint s = endpoint_of →
  0 < seg_base s → 0 < seg_size s → seg_base s + seg_size s < 2 ^ 64 →
  existsb (Client.overlaps (seg_base s) (seg_size s)) (map_to_list ss).*2 = false → offers (<[seg_id s := s]> ss).
Proof.
  intros [H1 H2 H3] En Ee Hb Hs Hf He.
  assert (∀ id s', ss !! id = Some s' → seg_base s' + seg_size s' <= seg_base s ∨ seg_base s + seg_size s <= seg_base s') as Hapart.
  { intros id s' E. apply overlaps_false; [lia|done|done|by eapply H2|]. rewrite <-not_true_iff_false in He |- *. contradict He.
    apply existsb_exists. exists s'. split; [|done]. apply list_elem_of_In, list_elem_of_fmap. exists (id, s'). by rewrite elem_of_map_to_list. }
  split.
  - intros id s' [[<- <-]|[_ E]]%lookup_insert_Some; [done|by apply H1].
  - intros id s' [[<- <-]|[_ E]]%lookup_insert_Some; [done|by eapply H2].
  - intros id id' s1 s2 [[<- <-]|[Hn E]]%lookup_insert_Some [[<- <-]|[Hn' E']]%lookup_insert_Some Hne; [done| | |by eapply H3].
    + destruct (Hapart _ _ E'); auto.
    + destruct (Hapart _ _ E); auto.
Qed.

Lemma offers_delete ss id : offers ss → offers (delete id ss).
Proof.
  intros [H1 H2 H3]. split.
  - by intros id' s [_ E%H1]%lookup_delete_Some.
  - by intros id' s [_ E%H2]%lookup_delete_Some.
  - intros id1 id2 s1 s2 [_ E1]%lookup_delete_Some [_ E2]%lookup_delete_Some. by apply H3.
Qed.

Lemma unmount_returns ss buffer size r ss' :
  offers ss → may_return (Client.UnmountSegment c ss buffer size) (r, ss') → offers ss'.
Proof.
  intros HO. unfold Client.UnmountSegment. destruct (List.find _ _) as [[id s]|]; [|by intros [= -> ->]].
  intros (q & _ & Hr)%may_return_bind. destruct q as [e|]; [by apply pair_equal_spec in Hr as [-> ->]|].
  apply may_return_bind in Hr as (rc & _ & Hr). destruct (_ && _); apply pair_equal_spec in Hr as [-> ->]; [done|by apply offers_delete].
Qed.

Lemma mount_returns ss buffer size r ss' :
  offers ss → 0 <= buffer → 0 <= size → buffer + size < 2 ^ 64 →
  may_return (Client.MountSegment c ss buffer size) (r, ss') → offers ss'.
Proof.
  intros HO Hb Hs Hf. unfold Client.MountSegment. destruct (Client.CheckRegisterMemoryParams c buffer size) eqn:Ec; [|by intros [= -> ->]].
  unfold Client.CheckRegisterMemoryParams in Ec. rewrite !andb_true_iff, !negb_true_iff, !Z.eqb_neq in Ec. destruct Ec as [[Hb0 Hs0] _].
  cbn [negb]. destruct (existsb _ _) eqn:Eo; [by intros [= -> ->]|]. intros (ok & _ & Hr)%may_return_bind.
  destruct ok; [|by apply pair_equal_spec in Hr as [-> ->]]. apply may_return_bind in Hr as (id & _ & Hr). apply may_return_bind in Hr as (q & _ & Hr).
  destruct q as [e|]; apply pair_equal_spec in Hr as [-> ->]; [done|].
  apply (offers_insert ss (mkSegment id (Client.local_hostname_ c) buffer size endpoint_of)); cbn; try done; lia.
Qed.
End offers.

(** The segments of a client, after any calls with any answers; the memory is memory of the
    process. *)
Inductive offered (c : Client.Segments) : gmap UUID Segment → Prop :=
| offered_none : offered c ∅
| offered_mount ss buffer size r ss' :
    offered c ss → 0 <= buffer → 0 <= size → buffer + size < 2 ^ 64 →
    may_return (Client.MountSegment c ss buffer size) (r, ss') → offered c ss'
| offered_unmount ss buffer size r ss' :
    offered c ss → may_return (Client.UnmountSegment c ss buffer size) (r, ss') → offered c ss'.

(** C31: The segments a client has mounted lie apart, are under their own identifier and at the
    client's endpoint, after any mounts and unmounts and whatever the engine and the master
    answered. *)
Theorem mounted_segments_apart c ss : offered c ss → offers c ss.
Proof.
  induction 1 as [|ss buffer size r ss' _ IH Hb Hs Hf Hr|ss buffer size r ss' _ IH Hr]; [apply offers_empty| |by eapply unmount_returns].
  exact (mount_returns c ss buffer size r ss' IH Hb Hs Hf Hr).
Qed.

Definition demo_client : Client.Segments := Client.mkSegments "host:1" false "host:7" 4096 (1, 1).
Definition demo_segments : gmap UUID Segment := {[(0, 5) := mkSegment (0, 5) "host:1" 4096 1024 "host:1"]}.

Lemma demo_offered : offered demo_client demo_segments.
Proof.
  apply (offered_mount demo_client ∅ 4096 1024 (inr tt) _ (offered_none _)); [lia|lia|lia|].
  cbn. exists true, (0, 5), false. cbn. exists (inr tt), false. reflexivity.
Qed.

Lemma mounted_segments_apart_witness : offers demo_client demo_segments.
Proof. apply (mounted_segments_apart demo_client demo_segments). exact demo_offered. Defined.

(** ** Leases of grouped reads *)



