(* ===== verification/MasterQuiet.v ===== *)
(** * MasterQuiet: what bystanders do to objects

    A call that neither starts nor ends a write, and is not RemoveAll, adds no replica and
    leaves every object alone that still has a memory replica to be written. *)

From S2P Require Import Prelude Types Float64 BufferAllocator Replica ReplicaHeap AllocationStrategy SegmentManager SegmentInv.
From S2P Require Import MasterService BatchEvict MasterInv MasterOps MasterPut MasterEvict MasterSegments MasterSteps.
Open Scope Z_scope.

Section quiet.
Context {A B : Type} {ops : BufferAllocator A B} {laws : BufferAllocatorLaws A B}.
Context (cfg : MasterServiceConfig) (hash : string → Z).
Implicit Types (m : Master A B) (k : string) (o : ObjectMetadata B) (r : Replica B) (w : World A).

Abbreviation find := (find hash).
Abbreviation minv := (minv hash).
Abbreviation gentle := (gentle hash).
Abbreviation only := (only hash).

(** Allocators stay, with their name, endpoint and memory. *)
Definition heap_kept w w' : Prop :=
  ∀ i x, (λ a, (ba_ident a, ba_base a)) <$> heap w !! i = Some x → (λ a, (ba_ident a, ba_base a)) <$> heap w' !! i = Some x.

#[export] Instance heap_kept_preorder : PreOrder heap_kept.
Proof. split; [by intros w i x|]. intros w1 w2 w3 H1 H2 i x E. by apply H2, H1. Qed.

Definition being_written r : Prop := type r = MEMORY ∧ status_ r = PROCESSING.

Record quiet m m' : Prop := {
  qu_from k o' r : find m' k = Some o' → r ∈ replicas o' → ∃ o, find m k = Some o ∧ r ∈ replicas o;
  qu_busy k o r : find m k = Some o → r ∈ replicas o → being_written r → ∃ o', find m' k = Some o' ∧ replicas o' = replicas o;
  qu_empty k o' : find m' k = Some o' → replicas o' = [] → ∃ o, find m k = Some o ∧ replicas o = [];
  qu_heap : heap_kept (world_ m) (world_ m');
}.

Lemma quiet_refl m : quiet m m.
Proof. split; [by eauto..|done]. Qed.

Lemma gentle_heap now m m' : gentle now m m' → heap_kept (world_ m) (world_ m').
Proof. intros HG i x E. destruct (ca_world _ _ (ge_calm _ _ _ _ HG)) as [[H _] _]. by rewrite H. Qed.

Lemma grows_heap m m' : grows m m' → heap_kept (world_ m) (world_ m').
Proof.
  intros HG i x (a & E & ->)%fmap_Some. pose proof (ex_heap _ _ (gr_extends _ _ HG) i a) as H. cbn in H. by rewrite (H E).
Qed.

Lemma same_shards_quiet m m' : metadata_shards_ m' = metadata_shards_ m → heap_kept (world_ m) (world_ m') → quiet m m'.
Proof. intros E Hh. assert (∀ k, find m' k = find m k) as Hf by (intros k; unfold MasterInv.find; by rewrite E).
  split; [intros k o' r; rewrite Hf; eauto|intros k o r; rewrite Hf; eauto|intros k o'; rewrite Hf; eauto|done].
Qed.

(** A table in which nothing is stale. *)
Definition fresh m : Prop := ∀ k, ¬ stale hash m k.

Lemma fresh_cleaned m k o : fresh m → find m k = Some o → cleaned m o = o.
Proof.
  intros HF Ho. unfold cleaned. destruct o as [rs sz lt sp ds]. unfold set_replicas. cbn. f_equal. apply filter_all.
  intros r Hr. destruct (decide (live_replica (world_ m) r)); [done|]. destruct (HF k). by exists (mkObjectMetadata rs sz lt sp ds), r.
Qed.

(** The entry of each key is kept, loses nothing that is being written, or goes when nothing is. *)
Definition entry_quiet (x y : option (ObjectMetadata B)) : Prop :=
  match x, y with
  | None, None => True
  | None, Some _ => False
  | Some o, None => ∀ r, r ∈ replicas o → ¬ being_written r
  | Some o, Some o' => replicas o' = replicas o ∨
      replicas o' ≠ [] ∧ (∀ r, r ∈ replicas o' → r ∈ replicas o) ∧ ∀ r, r ∈ replicas o → ¬ being_written r
  end.

Lemma entries_quiet m m' : heap_kept (world_ m) (world_ m') → (∀ k, entry_quiet (find m k) (find m' k)) → quiet m m'.
Proof.
  intros Hh He. split; [intros k o r Hf|intros k o r Hf|intros k o Hf|done]; specialize (He k); rewrite Hf in He; unfold entry_quiet in He.
  - intros Hr. destruct (find m k) as [o0|]; [|done]. exists o0. split; [done|]. destruct He as [<-|(_ & H & _)]; [done|by apply H].
  - intros Hr Hw. destruct (find m' k) as [o'|]; [|by destruct (He r)]. exists o'. split; [done|].
    destruct He as [?|(_ & _ & H)]; [done|by destruct (H r)].
  - intros Hn. destruct (find m k) as [o0|]; [|done]. exists o0. destruct He as [<-|[H _]]; done.
Qed.

Lemma entry_quiet_refl x : entry_quiet x x.
Proof. destruct x; cbn; [by left|done]. Qed.

Lemma only_quiet now k m m' : gentle now m m' → only k m m' → entry_quiet (find m k) (find m' k) → quiet m m'.
Proof.
  intros HG HO He. apply entries_quiet; [by eapply gentle_heap|]. intros k'. destruct (decide (k' = k)) as [->|Hne]; [done|].
  rewrite HO by done. apply entry_quiet_refl.
Qed.

Lemma shard_quiet now i f m m' :
  gentle now m m' → shard_map hash i f m m' → (∀ k o, entry_quiet (Some o) (f k o)) → quiet m m'.
Proof.
  intros HG HM Hf. apply entries_quiet; [by eapply gentle_heap|]. intros k. rewrite (HM k).
  case_decide; [|apply entry_quiet_refl]. destruct (find m k) as [o|]; [apply Hf|done].
Qed.

Lemma complete_not_written o : (∀ r, r ∈ replicas o → type r = MEMORY → status_ r = COMPLETE) → ∀ r, r ∈ replicas o → ¬ being_written r.
Proof. intros H r Hr [Ht Hs]. specialize (H r Hr Ht). congruence. Qed.

Lemma evicts_quiet now E m m' : gentle now m m' → evicts cfg hash now E m m' → quiet m m'.
Proof.
  intros HG [_ Hin Hout]. apply entries_quiet; [by eapply gentle_heap|]. intros k. destruct (decide (k ∈ E)) as [HE|HE].
  - destruct (Hin k HE) as (o & Ho & Hev & Hf). rewrite Ho, Hf. unfold evict_entry, entry_quiet. pose proof (complete_not_written o (ev_complete _ _ _ Hev)) as Hc.
    case_decide; [done|]. right. split; [done|]. split; [|done]. intros r Hr. by apply list_elem_of_filter in Hr as [_ ?].
  - rewrite Hout by done. apply entry_quiet_refl.
Qed.

Lemma remove_quiet gone k o : (gone k o = true → ∀ r, r ∈ replicas o → ¬ being_written r) → entry_quiet (Some o) (remove_entry gone k o).
Proof. intros H. unfold remove_entry. destruct (gone k o); cbn; [by apply H|by left]. Qed.

Lemma all_complete_not_written o : IsAllReplicasComplete o = true → ∀ r, r ∈ replicas o → ¬ being_written r.
Proof.
  unfold IsAllReplicasComplete. rewrite forallb_forall. intros H r Hr%list_elem_of_In [_ Hs].
  specialize (H r Hr). apply bool_decide_eq_true_1 in H. congruence.
Qed.

(** The calls of other clients and of the server's own threads. *)
Definition bystander (c : call B) : bool :=
  match c with CPutStart _ _ _ _ | CPutEnd _ _ | CPutRevoke _ _ | CRemoveAllShard _ _ _ _ => false | _ => true end.

Lemma ExistKey_quiet now m k : minv [] m → fresh m → runs (ExistKey cfg hash now k) m (λ _ m', quiet m m').
Proof.
  intros HI HF. unfold ExistKey. runs_step. eapply runs_mono; [by apply (access_ok hash now)|]. intros r m1 (HG & HO & -> & Hr).
  destruct (find m k) as [o|] eqn:Ho; cycle 1.
  { rewrite Hr. apply runs_ret. eapply only_quiet; [done..|]. by rewrite Ho, Hr. }
  rewrite (fresh_cleaned m k o HF Ho) in Hr. case_decide as He; rewrite Hr.
  { apply runs_ret. eapply only_quiet; [done..|]. rewrite Ho, Hr. cbn. rewrite He. by intros ? ?%elem_of_nil. }
  destruct (existsb _ _).
  - runs_step. apply (grant_ok hash now _ _ m1 k o); [apply HG|done|]. intros m2 HG2 HO2 Hf2. apply runs_ret.
    eapply (only_quiet now k); [by eapply gentle_trans|intros k' Hk'; by rewrite HO2, HO|]. rewrite Ho, Hf2. by left.
  - apply runs_ret. eapply only_quiet; [done..|]. rewrite Ho, Hr. by left.
Qed.

Lemma GetReplicaList_quiet now m k : minv [] m → fresh m →
  runs (GetReplicaList cfg hash now k) m (λ _ m', quiet m m').
Proof.
  intros HI HF. unfold GetReplicaList. runs_step. eapply runs_mono; [by apply (access_ok hash now)|]. intros r m1 (HG & HO & -> & Hr).
  destruct (find m k) as [o|] eqn:Ho; cycle 1.
  { rewrite Hr. apply runs_ret. eapply only_quiet; [done..|]. by rewrite Ho, Hr. }
  rewrite (fresh_cleaned m k o HF Ho) in Hr. case_decide as He; rewrite Hr.
  { apply runs_ret. eapply only_quiet; [done..|]. rewrite Ho, Hr. cbn. rewrite He. by intros ? ?%elem_of_nil. }
  do 2 runs_step. destruct (bool_decide _); [|].
  - apply runs_ret. eapply only_quiet; [done..|]. rewrite Ho, Hr. by left.
  - runs_step. apply (grant_ok hash now _ _ m1 k o); [apply HG|done|]. intros m2 HG2 HO2 Hf2. apply runs_ret.
    eapply (only_quiet now k); [by eapply gentle_trans|intros k' Hk'; by rewrite HO2, HO|]. rewrite Ho, Hf2. by left.
Qed.

Lemma Remove_quiet now m k : minv [] m → fresh m → runs (Remove hash now k) m (λ _ m', quiet m m').
Proof.
  intros HI HF. unfold Remove. runs_step. eapply runs_mono; [by apply (access_ok hash now)|]. intros r m1 (HG & HO & -> & Hr).
  destruct (find m k) as [o|] eqn:Ho; cycle 1.
  { rewrite Hr. apply runs_ret. eapply only_quiet; [done..|]. by rewrite Ho, Hr. }
  rewrite (fresh_cleaned m k o HF Ho) in Hr. case_decide as He; rewrite Hr.
  { apply runs_ret. eapply only_quiet; [done..|]. rewrite Ho, Hr. cbn. rewrite He. by intros ? ?%elem_of_nil. }
  assert (quiet m m1) as HQ by (eapply only_quiet; [done..|]; rewrite Ho, Hr; by left).
  unfold IsLeaseExpired. destruct (Z.leb_spec (lease_timeout o) now); cbn [negb]; [|by apply runs_ret].
  destruct (IsAllReplicasComplete o) eqn:Ec; cbn [negb]; [|by apply runs_ret].
  runs_step. apply (erase_key_ok hash now m1 k o); [apply HG|done|intros; lia|]. intros m2 HG2 HO2 Hf2. apply runs_ret.
  eapply (only_quiet now k); [by eapply gentle_trans|intros k' Hk'; by rewrite HO2, HO|]. rewrite Ho, Hf2. cbn. by apply all_complete_not_written.
Qed.

Lemma bystander_quiet now c m :
  minv [] m → fresh m → call_ok cfg now c → bystander c = true → runs (run_call cfg hash now c) m (λ _ m', quiet m m').
Proof.
  intros HI HF Hc Hb. destruct c; try discriminate Hb; simpl in *; try apply runs_discard.
  - by apply ExistKey_quiet.
  - by apply GetReplicaList_quiet.
  - by apply Remove_quiet.
  - destruct Hc. eapply runs_mono; [by apply (regex_shard_ok cfg hash now)|]. intros ? m' [HG HM].
    eapply shard_quiet; [done..|]. intros k o. left. unfold regex_grant. by destruct (_ && _).
  - destruct Hc as (? & ? & ?). eapply runs_mono; [by apply (remove_regex_shard_ok hash now)|]. intros ? m' [HG HM].
    eapply shard_quiet; [done..|]. intros k o. apply remove_quiet. unfold regex_gone. rewrite andb_true_iff. intros [_ ?].
    by apply all_complete_not_written.
  - eapply runs_mono; [by apply (MountSegment_ok hash)|]. intros ? ? (? & HG & _). apply same_shards_quiet; [apply HG|by apply grows_heap].
  - eapply runs_mono; [by apply (ReMountSegment_ok hash)|]. intros ? ? (? & HG & _). apply same_shards_quiet; [apply HG|by apply grows_heap].
  - eapply runs_mono; [by apply (QuerySegments_ok hash)|]. intros ? ? (-> & _). apply quiet_refl.
  - eapply runs_mono; [by apply (Ping_ok hash)|]. intros ? ? (? & HG & _). apply same_shards_quiet; [apply HG|by apply grows_heap].
  - destruct Hc as (? & ? & ? & ?). eapply runs_mono; [by apply (first_pass_shard_ok cfg hash)|]. intros ? ? (HG & _ & E & HE & _).
    by eapply evicts_quiet.
  - destruct Hc as (? & ? & ? & ?). eapply runs_mono; [by apply (second_pass_shard_ok cfg hash start)|]. intros ? ? (HG & _ & E & HE & _). by eapply evicts_quiet.
  - eapply runs_mono; [by apply publish_ok|]. intros ? m1 HP. apply same_shards_quiet; [apply HP|]. intros j y. by rewrite (pu_heap _ _ _ HP).
Qed.
End quiet.
