(* ===== verification/ClientSystem.v ===== *)
(** * ClientSystem: clients, the master and the transfer engine together

    Any number of client operations run at once, each a [Prog] of StoreClient with its own
    memory.  One step is one action of one operation, one byte moved by the transfer engine,
    a call of somebody else at the master, or time passing; steps of different parties
    interleave in any order.  The memory of the segments is addressed by endpoint and address. *)

From S2P Require Import Prelude Types Float64 BufferAllocator Replica ReplicaHeap AllocationStrategy SegmentManager SegmentInv.
From S2P Require Import MasterService BatchEvict MasterInv MasterOps MasterPut MasterEvict MasterSegments MasterSteps MasterQuiet.
From S2P Require Import StorageBackend ClientProg TransferTask StoreClient.
From Stdlib Require Import Ascii.
Open Scope Z_scope.

(** ** The transfer engine *)

Definition Memory : Type := Z → ascii.
Definition Remote : Type := string → Z → ascii.

Definition poke (z : Z) (c : ascii) (mem : Memory) : Memory := λ z', if decide (z' = z) then c else mem z'.
Definition poke_remote (e : string) (z : Z) (c : ascii) (rm : Remote) : Remote :=
  λ e' z', if decide (e' = e ∧ z' = z) then c else rm e' z'.

(** A request, and which of its bytes have been moved. *)
Record Task := mkTask { t_request : TransferRequest; t_copied : gset Z }.
(** [bt_limit]: the time after which nothing is moved any more. *)
Record Batch := mkBatch { bt_tasks : list Task; bt_stopped : bool; bt_limit : option Z }.

Definition task_done (t : Task) : bool := forallb (λ j, bool_decide (j ∈ t_copied t)) (seqZ 0 (rq_length (t_request t))).
Definition stop_batch (bt : Batch) : Batch := mkBatch (bt_tasks bt) true (bt_limit bt).
Definition mark_copied (j : Z) (t : Task) : Task := mkTask (t_request t) ({[j]} ∪ t_copied t).
Definition batch_copied (n : nat) (j : Z) (bt : Batch) : Batch :=
  mkBatch (alter (mark_copied j) n (bt_tasks bt)) (bt_stopped bt) (bt_limit bt).

(** Whether a batch may still move bytes. *)
Definition running (now : Z) (bt : Batch) : bool :=
  negb (bt_stopped bt) && match bt_limit bt with Some l => now <=? l | None => true end.

(** What the engine guarantees about transfers that are given up: it reports a failure only
    once nothing of the batch is under way, it stops a batch that is freed, and it moves
    nothing later than a minute after the submission. *)
Record EngineRules := mkRules { failure_stops : bool; free_stops : bool; timeout_stops : bool }.
Definition tidy_engine : EngineRules := mkRules true true true.

(** The statuses a poll may report. *)
Definition status_fair (rules : EngineRules) (bt : Batch) (t : Task) (s : option TransferStatusEnum) : bool :=
  match s with
  | Some TS.COMPLETED => task_done t
  | Some TS.FAILED | Some TS.CANCELED | Some TS.INVALID | None => bt_stopped bt || negb (failure_stops rules)
  | _ => true
  end.
Definition poll_fair (rules : EngineRules) (bt : Batch) (ss : list (option TransferStatusEnum)) : bool :=
  (length ss =? length (bt_tasks bt))%nat && forallb (λ ts, status_fair rules bt ts.1 ts.2) (zip (bt_tasks bt) ss).

Definition new_batch (limit : option Z) (rs : list TransferRequest) : Batch := mkBatch ((λ r, mkTask r ∅) <$> rs) false limit.

(** ** Operations *)

Record ClientConfig := mkClientConfig { cc_submitter : option Submitter; cc_storage : bool; cc_polls : nat }.

Inductive Job :=
| JGet (key : string) (slices : list Slice)
| JBatchGet (keys : list string) (slices : gmap string (list Slice))
| JPut (key : string) (slices : list Slice) (config : ReplicateConfig)
| JBatchPut (keys : list string) (batched_slices : list (list Slice)) (config : ReplicateConfig)
| JRemove (key : string)
| JIsExist (key : string).

Definition job_prog (c : ClientConfig) (j : Job) : Prog (list (expected unit)) :=
  let sub := cc_submitter c in
  match j with
  | JGet key slices => r ← Client.Get sub (cc_polls c) key slices; mret [r]
  | JBatchGet keys slices => Client.BatchGet sub (cc_polls c) keys slices
  | JPut key slices config => r ← Client.Put sub (cc_storage c) (cc_polls c) key slices config; mret [r]
  | JBatchPut keys slices config => Client.BatchPut sub (cc_storage c) (cc_polls c) id keys slices config
  | JRemove key => r ← Client.Remove key; mret [r]
  | JIsExist key => r ← Client.IsExist key; mret [match r with inl e => inl e | inr _ => inr tt end]
  end.

(** What an operation writes, and what it reads with the place of the result. *)
Definition puts (j : Job) : list (string * list Slice) :=
  match j with
  | JPut key slices _ => [(key, slices)]
  | JBatchPut keys slices _ => zip keys slices
  | _ => []
  end.
Definition gets (j : Job) : list (string * list Slice) :=
  match j with
  | JGet key slices => [(key, slices)]
  | JBatchGet keys slices => (λ k, (k, default [] (slices !! k))) <$> keys
  | _ => []
  end.

Definition put_config (j : Job) : option ReplicateConfig :=
  match j with JPut _ _ c | JBatchPut _ _ c => Some c | _ => None end.

Definition slices_apart (s s' : Slice) : Prop := ptr s + slice_size s <= ptr s' ∨ ptr s' + slice_size s' <= ptr s.

(** Slices have memory of their own; batches are not placed on one node. *)
Record job_ok (j : Job) : Prop := {
  jo_memory k sl s : (k, sl) ∈ puts j ++ gets j → s ∈ sl → ptr s ≠ 0;
  jo_request k sl config : (k, sl) ∈ puts j → put_config j = Some config → request_ok (slice_size <$> sl) config;
  jo_apart x y s s' : (gets j ≫= snd) !! x = Some s → (gets j ≫= snd) !! y = Some s' → x ≠ y → slices_apart s s';
  jo_spread keys slices config : j = JBatchPut keys slices config → prefer_alloc_in_same_node config = false;
}.

(** A batched write that fails half way does not wait for copies within the process. *)
Definition client_ok (c : ClientConfig) (j : Job) : Prop := ∀ keys slices config sub,
  j = JBatchPut keys slices config → cc_submitter c = Some sub → memcpy_enabled_ sub = false.

(** ** The system *)

Record Thread := mkThread {
  th_job : Job;
  th_start : Memory;
  th_prog : Prog (list (expected unit));
  th_memory : Memory;
  th_batches : list Batch;
}.
Definition th_with_batches (f : list Batch → list Batch) (th : Thread) : Thread :=
  mkThread (th_job th) (th_start th) (th_prog th) (th_memory th) (f (th_batches th)).
Definition th_with_prog (p : Prog (list (expected unit))) (th : Thread) : Thread :=
  mkThread (th_job th) (th_start th) p (th_memory th) (th_batches th).
Definition th_with_memory (mem : Memory) (th : Thread) : Thread :=
  mkThread (th_job th) (th_start th) (th_prog th) mem (th_batches th).

Record System (A B : Type) := mkSystem {
  s_master : Master A B;
  s_clock : Z;
  s_remote : Remote;
  s_threads : list Thread;
}.
#[global] Arguments mkSystem {A B}.
#[global] Arguments s_master {A B}.
#[global] Arguments s_clock {A B}.
#[global] Arguments s_remote {A B}.
#[global] Arguments s_threads {A B}.

(** What is not determined by the state: whether a message is lost or a call of the engine
    succeeds, the statuses a poll reports, and the choices of the allocation strategy. *)
Record Oracle := mkOracle {
  or_flag : bool;
  or_statuses : list (option TransferStatusEnum);
  or_shuffle : nat → nat → list nat → list nat;
}.

Inductive Event (B : Type) :=
| Tick (t : Z)
| Call (c : call B)
| Start (c : ClientConfig) (j : Job) (memory : Memory)
| Step (i : nat) (o : Oracle)
| Move (i b n : nat) (j : Z)
| Stop (i b : nat).
#[global] Arguments Tick {B}.
#[global] Arguments Call {B}.
#[global] Arguments Start {B}.
#[global] Arguments Step {B}.
#[global] Arguments Move {B}.
#[global] Arguments Stop {B}.

Section system.
Context {A B : Type} {ops : BufferAllocator A B}.
Context (cfg : MasterServiceConfig) (hash : string → Z) (rules : EngineRules).
Implicit Types (m : Master A B) (g : System A B).

Definition s_with_master m g : System A B := mkSystem m (s_clock g) (s_remote g) (s_threads g).
Definition s_with_threads (f : list Thread → list Thread) g : System A B :=
  mkSystem (s_master g) (s_clock g) (s_remote g) (f (s_threads g)).
Definition s_with_remote (rm : Remote) g : System A B := mkSystem (s_master g) (s_clock g) rm (s_threads g).

(** *** Actions *)

(** The handler behind a call of a job; segments are mounted by [Call]. *)
Definition serve {X} (c : MasterCall X) (now : Z) (o : Oracle) : ST (Master A B) X :=
  match c with
  | MExistKey key => ExistKey cfg hash now key
  | MGetReplicaList key => GetReplicaList cfg hash now key
  | MPutStart key lengths config => PutStart cfg hash (or_shuffle o) key lengths config
  | MPutEnd key rt => PutEnd cfg hash now key rt
  | MPutRevoke key rt => PutRevoke hash key rt
  | MRemove key => Remove hash now key
  | _ => λ _, None
  end.

(** The answer to an action with the master and the batches after it.  There are no disk
    replicas, so nothing is read from or written to files. *)
Definition react {X} (a : Action X) (o : Oracle) m (now : Z) (bts : list Batch) : option (X * Master A B * list Batch) :=
  match a with
  | Now => Some (now, m, bts)
  | Lossy => Some (or_flag o, m, bts)
  | Exec c => '(x, m) ← serve c now o m; Some (x, m, bts)
  | OpenSegment _ => Some (or_flag o, m, bts)
  | Submit rs =>
      if or_flag o
      then Some (Some (length bts), m,
                 bts ++ [new_batch (if timeout_stops rules then Some (now + Engine.timeout_seconds * Engine.kOneSecondInNano) else None) rs])
      else Some (None, m, bts)
  | Copy rs => Some (length bts, m, bts ++ [new_batch None rs])
  | Poll b =>
      bt ← bts !! b;
      if poll_fair rules bt (or_statuses o) then Some (or_statuses o, m, bts) else None
  | Wait b =>
      bt ← bts !! b;
      if forallb task_done (bt_tasks bt) then Some (tt, m, bts) else None
  | FreeBatch b => Some (tt, m, if free_stops rules then alter stop_batch b bts else bts)
  | _ => None
  end.

Definition do_step (i : nat) (o : Oracle) g : option (System A B) :=
  th ← s_threads g !! i;
  match th_prog th with
  | Ret _ => None
  | Act a k =>
      '(x, m, bts) ← react a o (s_master g) (s_clock g) (th_batches th);
      let th := th_with_prog (k x) (th_with_batches (λ _, bts) th) in
      Some (s_with_threads <[i := th]> (s_with_master m g))
  end.

(** One byte of one request. *)
Definition do_move (i b n : nat) (j : Z) g : option (System A B) :=
  th ← s_threads g !! i;
  bt ← th_batches th !! b;
  t ← bt_tasks bt !! n;
  let r := t_request t in
  if running (s_clock g) bt && (0 <=? j) && (j <? rq_length r) && negb (bool_decide (j ∈ t_copied t)) then
    let th := th_with_batches (alter (batch_copied n j) b) th in
    Some (match rq_opcode r with
          | READ =>
              let mem := poke (rq_source r + j) (s_remote g (rq_target r) (rq_offset r + j)) (th_memory th) in
              s_with_threads <[i := th_with_memory mem th]> g
          | WRITE =>
              let rm := poke_remote (rq_target r) (rq_offset r + j) (th_memory th (rq_source r + j)) (s_remote g) in
              s_with_threads <[i := th]> (s_with_remote rm g)
          end)
  else None.

Definition handle (ev : Event B) g : option (System A B) :=
  match ev with
  | Tick t => if s_clock g <=? t then Some (mkSystem (s_master g) t (s_remote g) (s_threads g)) else None
  | Call c => '(_, m) ← run_call cfg hash (s_clock g) c (s_master g); Some (s_with_master m g)
  | Start c j memory => Some (s_with_threads (λ ths, ths ++ [mkThread j memory (job_prog c j) memory []]) g)
  | Step i o => do_step i o g
  | Move i b n j => do_move i b n j g
  | Stop i b => th ← s_threads g !! i; Some (s_with_threads <[i := th_with_batches (alter stop_batch b) th]> g)
  end.

Fixpoint handle_all (evs : list (Event B)) g : option (System A B) :=
  match evs with [] => Some g | ev :: evs => g ← handle ev g; handle_all evs g end.

(** *** Runs *)

(** Mounted segments of one process do not overlap. *)
Definition segments_apart m : Prop := ∀ (id id' : UUID) (ms ms' : MountedSegment),
  mounted m !! id = Some ms → mounted m !! id' = Some ms' → id ≠ id' →
  te_endpoint (ms_segment ms) = te_endpoint (ms_segment ms') →
  seg_base (ms_segment ms) + seg_size (ms_segment ms) <= seg_base (ms_segment ms') ∨
  seg_base (ms_segment ms') + seg_size (ms_segment ms') <= seg_base (ms_segment ms).

Definition event_ok (now : Z) (ev : Event B) : Prop :=
  match ev with
  | Call c => bystander c = true ∧ call_ok cfg now c
  | Start c j _ => job_ok j ∧ client_ok c j
  | Step _ o => ∀ s i l, or_shuffle o s i l ≡ₚ l
  | _ => True
  end.

Inductive sstep g : System A B → Prop :=
| sstep_event ev g' : event_ok (s_clock g) ev → handle ev g = Some g' → segments_apart (s_master g') → sstep g g'.

Inductive sreachable : System A B → Prop :=
| sreach_init m t rm : memory_allocator cfg = ba_kind → new_Master cfg = Some m → sreachable (mkSystem m t rm [])
| sreach_step g g' : sreachable g → sstep g g' → sreachable g'.
End system.
