(* ===== verification/ClientHeld.v ===== *)
(** * ClientHeld: the memory behind the table

    Every handle of every replica stands for bytes of a segment, and no two handles for
    the same byte. *)

From S2P Require Import Prelude Types Float64 BufferAllocator Replica ReplicaHeap AllocationStrategy SegmentManager SegmentInv.
From S2P Require Import MasterService BatchEvict MasterInv MasterOps MasterPut MasterEvict MasterSegments MasterSteps MasterCorrect MasterQuiet.
From S2P Require Import StorageBackend ClientProg TransferTask StoreClient ClientSystem.
Open Scope Z_scope.

(** ** Where an element of a part is in the whole *)

Definition place {X Y} (f : X → list Y) (l : list X) (i j : nat) : nat := (length (take i l ≫= f) + j)%nat.

Lemma place_lookup {X Y} (f : X → list Y) l i j x y :
  l !! i = Some x → f x !! j = Some y → (l ≫= f) !! place f l i j = Some y.
Proof.
  intros Hi Hj. assert (l ≫= f = (take i l ≫= f) ++ f x ++ (drop (S i) l ≫= f)) as ->.
  { rewrite <-bind_cons, <-bind_app. by rewrite take_drop_middle. }
  unfold place. rewrite lookup_app_r by lia. replace (_ + j - _)%nat with j by lia. rewrite lookup_app_l; [done|by eapply lookup_lt_Some].
Qed.

Lemma place_lt {X Y} (f : X → list Y) l i i' j j' x y :
  l !! i = Some x → f x !! j = Some y → (i < i')%nat → (place f l i j < place f l i' j')%nat.
Proof.
  intros Hi Hj Hlt. apply lookup_lt_Some in Hj. unfold place.
  replace (take i' l) with (take i l ++ x :: drop (S i) (take i' l)).
  - rewrite bind_app, bind_cons, !length_app. lia.
  - transitivity (take i (take i' l) ++ x :: drop (S i) (take i' l)); [by rewrite take_take, Nat.min_l by lia|].
    apply take_drop_middle. by rewrite lookup_take_lt.
Qed.

Lemma place_inj {X Y} (f : X → list Y) l i i' j j' x x' y y' :
  l !! i = Some x → f x !! j = Some y → l !! i' = Some x' → f x' !! j' = Some y' →
  place f l i j = place f l i' j' → i = i' ∧ j = j'.
Proof.
  intros Hi Hj Hi' Hj' E. assert (i = i') as ->; [|unfold place in E; split; [done|lia]].
  destruct (lt_eq_lt_dec i i') as [[Hlt| ->]|Hlt]; [|done|].
  - pose proof (place_lt f l i i' j j' x y Hi Hj Hlt). lia.
  - pose proof (place_lt f l i' i j' j x' y' Hi' Hj' Hlt). lia.
Qed.

(** ** Handles *)

(** Two handles have no byte in common. *)
Definition handles_disjoint (h h' : BufferDescriptor) : Prop :=
  d_transport_endpoint h = d_transport_endpoint h' →
  d_buffer_address h + d_size h <= d_buffer_address h' ∨ d_buffer_address h' + d_size h' <= d_buffer_address h.

Definition handles_of (d : Descriptor) : list BufferDescriptor :=
  match descriptor_variant d with MemoryDescriptor hs => hs | DiskDescriptor _ _ => [] end.

Section held.
Context {A B : Type} {ops : BufferAllocator A B} {laws : BufferAllocatorLaws A B}.
Context (hash : string → Z).
Implicit Types (m : Master A B) (k : string) (o : ObjectMetadata B) (r : Replica B) (w : World A).

Abbreviation find := (find hash).
Abbreviation minv := (minv hash).

Lemma handles_of_descriptor w r : handles_of (get_descriptor w r) = buffer_get_descriptor w <$> replica_buffers r.
Proof. unfold handles_of, get_descriptor, replica_buffers. by destruct (data_ r). Qed.

(** [h] is handle [j] of replica [n] of object [k]. *)
Definition handle_at m k (n j : nat) (h : BufferDescriptor) : Prop :=
  ∃ o r, find m k = Some o ∧ replicas o !! n = Some r ∧ handles_of (get_descriptor (world_ m) r) !! j = Some h.

Lemma handle_buffer m k n j h : handle_at m k n j h → ∃ o r b, find m k = Some o ∧ replicas o !! n = Some r ∧
  replica_buffers r !! j = Some b ∧ h = buffer_get_descriptor (world_ m) b.
Proof.
  intros (o & r & Ho & Hr & Hh). rewrite handles_of_descriptor, list_lookup_fmap in Hh. apply fmap_Some in Hh as (b & Hb & ->). eauto 10.
Qed.

(** The place of a handle's buffer among all buffers. *)
Lemma buffer_place m k o n r j b :
  minv [] m → find m k = Some o → replicas o !! n = Some r → replica_buffers r !! j = Some b →
  ∃ x, entries (metadata_shards_ m) !! x = Some (k, o) ∧
    all_buffers m !! place obj_buffers (objects m) x (place replica_buffers (replicas o) n j) = Some b.
Proof.
  intros HI Ho Hr Hb. apply (find_entry hash _ _ _ _ HI), list_elem_of_lookup in Ho as [x Hx]. exists x. split; [done|].
  eapply place_lookup; [unfold objects; by rewrite list_lookup_fmap, Hx|]. by eapply place_lookup.
Qed.

Lemma places_differ m k o n r j b k' o' n' r' j' b' x x' :
  entries (metadata_shards_ m) !! x = Some (k, o) → replicas o !! n = Some r → replica_buffers r !! j = Some b →
  entries (metadata_shards_ m) !! x' = Some (k', o') → replicas o' !! n' = Some r' → replica_buffers r' !! j' = Some b' →
  (k, n, j) ≠ (k', n', j') →
  place obj_buffers (objects m) x (place replica_buffers (replicas o) n j) ≠
  place obj_buffers (objects m) x' (place replica_buffers (replicas o') n' j').
Proof.
  intros Hx Hr Hb Hx' Hr' Hb' Hne E.
  apply (place_inj _ _ _ _ _ _ o o' b b') in E as [-> E]; [|unfold objects; by rewrite list_lookup_fmap, ?Hx, ?Hx'|
    by eapply place_lookup|unfold objects; by rewrite list_lookup_fmap, ?Hx, ?Hx'|by eapply place_lookup].
  rewrite Hx in Hx'. simplify_eq. apply (place_inj _ _ _ _ _ _ r r' b b') in E as [-> ->]; done.
Qed.

(** Buffers of one allocator are apart since it hands out no byte twice, those of different
    allocators since the segments are. *)
Lemma buffers_disjoint m x x' b b' :
  minv [] m → segments_apart m → all_buffers m !! x = Some b → all_buffers m !! x' = Some b' → x ≠ x' →
  is_Some (heap (world_ m) !! ab_allocator b) → is_Some (heap (world_ m) !! ab_allocator b') →
  handles_disjoint (buffer_get_descriptor (world_ m) b) (buffer_get_descriptor (world_ m) b').
Proof.
  intros HI Hsep Hb Hb' Hne [a Ha] [a' Ha']. unfold handles_disjoint, buffer_get_descriptor, lock. cbn. rewrite Ha, Ha'. intros He.
  destruct (decide (ab_allocator b' = ab_allocator b)) as [E|E]; [by eapply held_disjoint|].
  pose proof (held_inside hash m b a HI ltac:(by eapply list_elem_of_lookup_2) Ha).
  pose proof (held_inside hash m b' a' HI ltac:(by eapply list_elem_of_lookup_2) Ha').
  pose proof (mi_segments _ _ _ HI) as HS.
  destruct (proj1 (so_all _ HS _) (so_heap _ HS _ (ex_intro _ a Ha))) as (id & ms & Hs).
  destruct (proj1 (so_all _ HS _) (so_heap _ HS _ (ex_intro _ a' Ha'))) as (id' & ms' & Hs').
  destruct (serves_backed _ _ _ _ HS Hs) as (_ & a1 & Ha1 & Hid & Hbs). destruct (serves_backed _ _ _ _ HS Hs') as (_ & a2 & Ha2 & Hid' & Hbs').
  simpl in *. simplify_eq. destruct Hs as [Hm Hal], Hs' as [Hm' Hal']. unfold ba_ident in *. simplify_eq.
  assert (id ≠ id') as Hii by (intros ->; congruence).
  destruct (Hsep id id' ms ms' Hm Hm' Hii ltac:(congruence)); lia.
Qed.

Lemma fresh_allocator m k o r b :
  fresh hash m → find m k = Some o → r ∈ replicas o → b ∈ replica_buffers r → is_Some (heap (world_ m) !! ab_allocator b).
Proof.
  intros HF Ho Hr Hb. destruct (heap (world_ m) !! ab_allocator b) eqn:E; [eauto|]. destruct (HF k). exists o, r. split_and!; [done..|].
  unfold live_replica, has_invalid_mem_handle. unfold replica_buffers in Hb. destruct (data_ r) as [bs|]; [|by apply elem_of_nil in Hb].
  rewrite not_false_iff_true, existsb_exists. exists b. split; [by apply list_elem_of_In|].
  unfold isAllocatorValid, lock. rewrite E. by rewrite bool_decide_false by (by intros []).
Qed.

Lemma handles_apart m k n j h k' n' j' h' :
  minv [] m → fresh hash m → segments_apart m → handle_at m k n j h → handle_at m k' n' j' h' → (k, n, j) ≠ (k', n', j') →
  handles_disjoint h h'.
Proof.
  intros HI HF HS (o & r & b & Ho & Hr & Hb & ->)%handle_buffer (o' & r' & b' & Ho' & Hr' & Hb' & ->)%handle_buffer Hne.
  destruct (buffer_place _ _ _ _ _ _ _ HI Ho Hr Hb) as (x & Hx & Hl). destruct (buffer_place _ _ _ _ _ _ _ HI Ho' Hr' Hb') as (x' & Hx' & Hl').
  eapply buffers_disjoint; [done|done|exact Hl|exact Hl'|by eapply places_differ| |].
  - eapply fresh_allocator; [done|exact Ho|by eapply list_elem_of_lookup_2..].
  - eapply fresh_allocator; [done|exact Ho'|by eapply list_elem_of_lookup_2..].
Qed.
End held.
