(* ===== verification/ClientGhost.v ===== *)
(** * ClientGhost: what an operation may do

    An operation that started a write has a permit for its replicas, one that asked for
    replicas has leases, and for every batch it submitted it knows what the answers so far
    tell.  [Perm] is that knowledge; [wp] says that every action of an operation is one its
    knowledge allows, whatever the answers are. *)

From S2P Require Import Prelude Types BufferAllocator Replica MasterService MasterPut StorageBackend ClientProg TransferTask StoreClient ClientSystem ClientHeld.
Open Scope Z_scope.

(** ** Transfers as their operation knows them *)

(** [Landed]: all bytes were moved.  [Dead]: no more bytes are moved.  [Verified]: the bytes
    were moved while the lease was valid. *)
Inductive Status := Flying | Landed | Dead | Verified.

#[export] Instance Status_eq_dec : EqDecision Status.
Proof. solve_decision. Defined.

(** The time of the submission: without limit, not bounded yet, or not later than [t]. *)
Inductive Limit := NoLimit | Unseen | Seen (t : Z).

(** Replica [n] of [key] is written, or request [x] is read under a lease until [deadline]. *)
Inductive Side := Writing (key : string) (n : nat) | Reading (x : nat) (key : string) (deadline : Z).

(** Every replica is written, and every request read, by one batch. *)
Definition slot (s : Side) : string * nat + nat :=
  match s with Writing k n => inl (k, n) | Reading x _ _ => inr x end.

Record Transfer := mkTransfer {
  tr_side : Side;
  tr_replica : Descriptor;
  tr_slices : list Slice;
  tr_limit : Limit;
  tr_status : Status;
}.
Definition tr_with (l : Limit) (st : Status) (tr : Transfer) : Transfer :=
  mkTransfer (tr_side tr) (tr_replica tr) (tr_slices tr) l st.

Definition op_of (s : Side) : OpCode := match s with Writing _ _ => WRITE | Reading _ _ _ => READ end.
Definition requests_of (tr : Transfer) : list TransferRequest :=
  zip_with (request (op_of (tr_side tr))) (handles_of (tr_replica tr)) (tr_slices tr).

Definition minute : Z := Engine.timeout_seconds * Engine.kOneSecondInNano.

(** What reading the clock tells. *)
Definition see (t : Z) (tr : Transfer) : Transfer :=
  match tr_status tr with
  | Flying =>
      match tr_limit tr with
      | Unseen => tr_with (Seen t) Flying tr
      | Seen s => if s + minute <? t then tr_with (Seen s) Dead tr else tr
      | NoLimit => tr
      end
  | Landed => match tr_side tr with Reading _ _ deadline => if t <? deadline then tr_with (tr_limit tr) Verified tr else tr | _ => tr end
  | _ => tr
  end.

(** What a result of the transfer tells. *)
Definition settle (r : option ErrorCode) (tr : Transfer) : Transfer :=
  match tr_status tr, r with
  | Flying, Some e => tr_with (tr_limit tr) (if decide (e = EC.OK) then Landed else Dead) tr
  | Dead, Some e => if decide (e = EC.OK) then tr_with (tr_limit tr) Landed tr else tr
  | _, _ => tr
  end.

Record Perm := mkPerm {
  pm_now : Z;
  pm_permits : gmap string (list Descriptor);
  pm_leases : list (string * Descriptor * Z);
  pm_transfers : list Transfer;
}.
Definition pm_with_transfers (f : list Transfer → list Transfer) (π : Perm) : Perm :=
  mkPerm (pm_now π) (pm_permits π) (pm_leases π) (f (pm_transfers π)).
Definition pm_with_permits (f : gmap string (list Descriptor) → gmap string (list Descriptor)) (π : Perm) : Perm :=
  mkPerm (pm_now π) (f (pm_permits π)) (pm_leases π) (pm_transfers π).
Definition pm_observe (t : Z) (π : Perm) : Perm :=
  mkPerm t (pm_permits π) (pm_leases π) (see t <$> pm_transfers π).
Definition pm_lease (key : string) (resp : GetReplicaListResponse) (π : Perm) : Perm :=
  mkPerm (pm_now π) (pm_permits π)
    (pm_leases π ++ ((λ d, (key, d, pm_now π + milliseconds (lease_ttl_ms resp))) <$> r_replicas resp)) (pm_transfers π).

(** No batch of the operation moves bytes of object [k]. *)
Definition grounded (k : string) (trs : list Transfer) : Prop :=
  ∀ b tr n, trs !! b = Some tr → tr_side tr = Writing k n → tr_status tr ≠ Flying.

Definition sized (hs : list BufferDescriptor) (sl : list Slice) : Prop := d_size <$> hs = slice_size <$> sl.

(** A replica that is being written, once it is. *)
Definition written_at (k : string) (n : nat) (d : Descriptor) (sl : list Slice) (trs : list Transfer) : Prop :=
  ∃ b tr, trs !! b = Some tr ∧ tr_side tr = Writing k n ∧ tr_replica tr = d ∧ tr_slices tr = sl ∧ tr_status tr = Landed.

Section wp.
Context (j : Job).

(** ** What is allowed, what the answer may be, and what is known after it *)

Definition call_allowed {X} (c : MasterCall X) (π : Perm) : Prop :=
  match c with
  | MPutStart k lengths config => pm_transfers π = [] ∧ request_ok lengths config
  | MPutEnd k rt => rt = MEMORY ∧ grounded k (pm_transfers π) ∧ ∃ ds sl,
      pm_permits π !! k = Some ds ∧ (k, sl) ∈ puts j ∧
      ∀ n d, ds !! n = Some d → sized (handles_of d) sl ∧ written_at k n d sl (pm_transfers π)
  | MPutRevoke k rt => rt = MEMORY ∧ is_Some (pm_permits π !! k) ∧ grounded k (pm_transfers π)
  | MExistKey _ | MGetReplicaList _ | MRemove _ => True
  | _ => False
  end.

Definition transfer_allowed (tr : Transfer) (π : Perm) : Prop :=
  slot (tr_side tr) ∉ slot ∘ tr_side <$> pm_transfers π ∧
  match tr_side tr with
  | Writing k n => ∃ ds, pm_permits π !! k = Some ds ∧ ds !! n = Some (tr_replica tr) ∧ (k, tr_slices tr) ∈ puts j ∧
      sized (handles_of (tr_replica tr)) (tr_slices tr)
  | Reading x k deadline => gets j !! x = Some (k, tr_slices tr) ∧ (k, tr_replica tr, deadline) ∈ pm_leases π ∧
      sized (handles_of (tr_replica tr)) (take (length (handles_of (tr_replica tr))) (tr_slices tr))
  end.

Definition allowed {X} (a : Action X) (tr : Transfer) (π : Perm) : Prop :=
  match a with
  | Now | Lossy | OpenSegment _ | Poll _ | Wait _ | FreeBatch _ | Spin => True
  | Exec c => call_allowed c π
  | Submit rs => transfer_allowed tr π ∧ tr_limit tr = Unseen ∧ tr_status tr = Flying ∧ rs = requests_of tr
  | Copy rs => transfer_allowed tr π ∧ tr_limit tr = NoLimit ∧ tr_status tr = Flying ∧ rs = requests_of tr
  | _ => False
  end.

Definition call_may {X} (c : MasterCall X) (π : Perm) : X → Prop :=
  match c with
  | MPutStart k lengths config => λ x, match x with
      | inr ds => pm_permits π !! k = None ∧ ds ≠ [] ∧ Forall (λ d, is_memory_replica d = true ∧ d_size <$> handles_of d = lengths) ds
      | inl _ => True
      end
  | MGetReplicaList k => λ x, match x with
      | inr resp => Forall (λ d, is_memory_replica d = true) (r_replicas resp)
      | inl _ => True
      end
  | _ => λ _, True
  end.

Definition may {X} (a : Action X) (π : Perm) : X → Prop :=
  match a with
  | Now => λ t, pm_now π <= t
  | Submit _ => λ x, ∀ b, x = Some b → b = length (pm_transfers π)
  | Copy _ => λ b, b = length (pm_transfers π)
  | Exec c => call_may c π
  | _ => λ _, True
  end.

Definition call_after {X} (c : MasterCall X) (π : Perm) : X → Perm :=
  match c with
  | MPutStart k lengths config => λ x, match x with inr ds => pm_with_permits <[k := ds]> π | inl _ => π end
  | MPutEnd k _ | MPutRevoke k _ => λ _, pm_with_permits (delete k) π
  | MGetReplicaList k => λ x, match x with inr resp => pm_lease k resp π | inl _ => π end
  | _ => λ _, π
  end.

Definition after {X} (a : Action X) (tr : Transfer) (π : Perm) : X → Perm :=
  match a with
  | Now => λ t, pm_observe t π
  | Exec c => call_after c π
  | Submit _ => λ x, match x with Some _ => pm_with_transfers (λ trs, trs ++ [tr]) π | None => π end
  | Copy _ => λ _, pm_with_transfers (λ trs, trs ++ [tr]) π
  | Poll b => λ ss, pm_with_transfers (alter (settle (Engine.check_tasks ss true false)) b) π
  | Wait b => λ _, pm_with_transfers (alter (settle (Some EC.OK)) b) π
  | FreeBatch b => λ _, pm_with_transfers (alter (settle (Some EC.TRANSFER_FAIL)) b) π
  | _ => λ _, π
  end.

Fixpoint wp {R} (p : Prog R) (π : Perm) (Q : R → Perm → Prop) : Prop :=
  match p with
  | Ret r => Q r π
  | Act a k => ∃ tr, allowed a tr π ∧ ∀ x, may a π x → wp (k x) (after a tr π x) Q
  end.

(** ** Rules *)

Lemma wp_mono {R} (p : Prog R) π (Q Q' : R → Perm → Prop) : (∀ r π', Q r π' → Q' r π') → wp p π Q → wp p π Q'.
Proof.
  intros HQ. revert π. induction p as [r|X a k IH]; intros π; cbn; [apply HQ|]. intros (tr & Ha & Hk). exists tr. split; [done|].
  intros x Hx. by apply IH, Hk.
Qed.

Lemma wp_bind {R R'} (p : Prog R) (f : R → Prog R') π Q : wp p π (λ r π', wp (f r) π' Q) → wp (p ≫= f) π Q.
Proof.
  revert π. induction p as [r|X a k IH]; intros π; cbn; [done|]. intros (tr & Ha & Hk). exists tr. split; [done|].
  intros x Hx. by apply IH, Hk.
Qed.

Lemma wp_ret {R} (r : R) π (Q : R → Perm → Prop) : Q r π → wp (mret r) π Q.
Proof. done. Qed.

(** An action that needs no transfer. *)
Lemma wp_perform {X} (a : Action X) tr π Q :
  allowed a tr π → (∀ x, may a π x → Q x (after a tr π x)) → wp (perform a) π Q.
Proof. intros Ha HQ. exists tr. split; [done|]. exact HQ. Qed.

(** A loop, with what holds of the answers so far. *)
Lemma wp_each {X Y} (f : X → Prog Y) (I : list X → list Y → Perm → Prop) xs Q π :
  (∀ pre x post ys π, xs = pre ++ x :: post → I pre ys π → length ys = length pre → wp (f x) π (λ y π', I (pre ++ [x]) (ys ++ [y]) π')) →
  (∀ ys π, I xs ys π → length ys = length xs → Q ys π) → I [] [] π → wp (each f xs) π Q.
Proof.
  intros Hf HQ H0.
  assert (∀ post pre ys π, xs = pre ++ post → I pre ys π → length ys = length pre → wp (each f post) π (λ zs π', Q (ys ++ zs) π')) as Hall;
    [|by apply (Hall xs [] [] π)].
  induction post as [|x post IH]; intros pre ys π1 E HI Hl; cbn [each].
  - rewrite app_nil_r in E. subst pre. apply wp_ret. rewrite app_nil_r. by apply HQ.
  - apply wp_bind. eapply wp_mono; [|by eapply Hf]. intros y π2 HI2. apply wp_bind.
    eapply wp_mono; [|apply (IH (pre ++ [x]) (ys ++ [y]) π2); [by rewrite <-(assoc (++)), E|done|rewrite !length_app; cbn; lia]].
    intros zs π3 HQ3. apply wp_ret. cbv beta in *. by rewrite <-(assoc (++)) in HQ3.
Qed.
End wp.
