(* ===== verification/ClientInv.v ===== *)
(** * ClientInv: what is true of every operation at any time

    Complete replicas hold what one write put there; a permit stands for an object nobody
    else touches; leases stand for replicas that stay; and what a batch has moved is equal on
    both sides as long as that holds. *)

From S2P Require Import Prelude Types Float64 BufferAllocator Replica ReplicaHeap AllocationStrategy SegmentManager SegmentInv.
From S2P Require Import MasterService BatchEvict MasterInv MasterOps MasterPut MasterEvict MasterSegments MasterSteps MasterCorrect MasterQuiet.
From S2P Require Import StorageBackend ClientProg TransferTask StoreClient ClientSystem ClientHeld ClientGhost.
Open Scope Z_scope.

(** ** Contents *)

(** A write of [k] with the contents of [sl] in [mem]. *)
Definition put_of (ths : list Thread) (k : string) (mem : Memory) (sl : list Slice) : Prop :=
  ∃ i th, ths !! i = Some th ∧ (k, sl) ∈ puts (th_job th) ∧ th_start th = mem.

(** The bytes behind handle [h] are those of slice [s]. *)
Definition holds (rm : Remote) (h : BufferDescriptor) (mem : Memory) (s : Slice) : Prop :=
  ∀ j, 0 <= j < d_size h → rm (d_transport_endpoint h) (d_buffer_address h + j) = mem (ptr s + j).

Definition stored_as (rm : Remote) (ths : list Thread) (k : string) (d : Descriptor) : Prop :=
  ∃ mem sl, put_of ths k mem sl ∧ sized (handles_of d) sl ∧
    ∀ x h s, handles_of d !! x = Some h → sl !! x = Some s → holds rm h mem s.

(** [sl] begins with the contents of one write of [k]. *)
Definition reads_as (mem : Memory) (ths : list Thread) (k : string) (sl : list Slice) : Prop :=
  ∃ mem' sl', put_of ths k mem' sl' ∧
    Forall2 (λ s s', slice_size s = slice_size s' ∧ ∀ j, 0 <= j < slice_size s' → mem (ptr s + j) = mem' (ptr s' + j))
      (take (length sl') sl) sl'.

(** Every byte a batch has moved is the same on both sides. *)
Definition mirrored (rm : Remote) (mem : Memory) (bt : Batch) : Prop :=
  ∀ x t j, bt_tasks bt !! x = Some t → j ∈ t_copied t → 0 <= j < rq_length (t_request t) →
    rm (rq_target (t_request t)) (rq_offset (t_request t) + j) = mem (rq_source (t_request t) + j).

Section inv.
Context {A B : Type} {ops : BufferAllocator A B} {laws : BufferAllocatorLaws A B}.
Context (cfg : MasterServiceConfig) (hash : string → Z).
Implicit Types (m : Master A B) (g : System A B) (k : string) (d : Descriptor) (th : Thread) (π : Perm).

Abbreviation find := (find hash).

Definition sys_of g : Sys A B := mkSys (s_master g) (s_clock g) [] ∅.

Record shared g : Prop := {
  sh_reach : reachable cfg hash (sys_of g);
  sh_apart : segments_apart (s_master g);
  sh_some k o : find (s_master g) k = Some o → replicas o ≠ [];
  sh_memory k o r : find (s_master g) k = Some o → r ∈ replicas o → type r = MEMORY;
  sh_stored k o r : find (s_master g) k = Some o → r ∈ replicas o → status_ r = COMPLETE →
    stored_as (s_remote g) (s_threads g) k (get_descriptor (world_ (s_master g)) r);
}.

Definition granted m k (ds : list Descriptor) : Prop :=
  ∃ o, find m k = Some o ∧ replicas o ≠ [] ∧ Forall being_written (replicas o) ∧ ds = get_descriptor (world_ m) <$> replicas o.

Definition leased m k d (t : Z) : Prop :=
  ∃ o r, find m k = Some o ∧ r ∈ replicas o ∧ status_ r = COMPLETE ∧ t <= lease_timeout o ∧ d = get_descriptor (world_ m) r.

Definition limit_inv (now : Z) (l : option Z) (tl : Limit) : Prop :=
  match tl with
  | NoLimit => l = None
  | Unseen => ∃ t, l = Some t ∧ t <= now + minute
  | Seen s => ∃ t, l = Some t ∧ t <= s + minute
  end.

Definition status_inv (now : Z) (bt : Batch) (st : Status) : Prop :=
  match st with
  | Flying => True
  | Landed | Verified => Forall (λ t, task_done t = true) (bt_tasks bt)
  | Dead => running now bt = false
  end.

Definition side_inv g th π (bt : Batch) (tr : Transfer) : Prop :=
  match tr_side tr with
  | Writing k n =>
      (k, tr_slices tr) ∈ puts (th_job th) ∧ sized (handles_of (tr_replica tr)) (tr_slices tr) ∧
      (tr_status tr = Flying → is_Some (pm_permits π !! k)) ∧
      ∀ ds, pm_permits π !! k = Some ds → ds !! n = Some (tr_replica tr) ∧ mirrored (s_remote g) (th_memory th) bt
  | Reading x k deadline =>
      gets (th_job th) !! x = Some (k, tr_slices tr) ∧
      sized (handles_of (tr_replica tr)) (take (length (handles_of (tr_replica tr))) (tr_slices tr)) ∧
      if decide (tr_status tr = Verified) then reads_as (th_memory th) (s_threads g) k (tr_slices tr)
      else s_clock g < deadline →
        leased (s_master g) k (tr_replica tr) deadline ∧ mirrored (s_remote g) (th_memory th) bt
  end.

Record transfer_inv g th π (bt : Batch) (tr : Transfer) : Prop := {
  tf_tasks : t_request <$> bt_tasks bt = requests_of tr;
  tf_limit : limit_inv (s_clock g) (bt_limit bt) (tr_limit tr);
  tf_status : status_inv (s_clock g) bt (tr_status tr);
  tf_side : side_inv g th π bt tr;
}.

Record tinv g th π : Prop := {
  ti_job : job_ok (th_job th);
  ti_now : pm_now π <= s_clock g;
  ti_permits k ds : pm_permits π !! k = Some ds → granted (s_master g) k ds;
  ti_leases k d t : (k, d, t) ∈ pm_leases π → s_clock g < t → leased (s_master g) k d t;
  ti_transfers : Forall2 (transfer_inv g th π) (th_batches th) (pm_transfers π);
  ti_slots : NoDup (slot ∘ tr_side <$> pm_transfers π);
  ti_kept : puts (th_job th) ≠ [] → ∀ z, th_memory th z = th_start th z;
}.

(** What an operation has shown when it ends. *)
Definition ended (j : Job) (rs : list (expected unit)) π : Prop :=
  ∀ x k sl, gets j !! x = Some (k, sl) → rs !! x = Some (inr tt) →
    ∃ b tr deadline, pm_transfers π !! b = Some tr ∧ tr_side tr = Reading x k deadline ∧ tr_status tr = Verified.

Definition exclusive (Π : list Perm) : Prop :=
  ∀ i i' π π' k, Π !! i = Some π → Π !! i' = Some π' → i ≠ i' → is_Some (pm_permits π !! k) → pm_permits π' !! k = None.

Definition inv g : Prop :=
  shared g ∧ ∃ Π, exclusive Π ∧ Forall2 (λ th π, tinv g th π ∧ wp (th_job th) (th_prog th) π (ended (th_job th))) (s_threads g) Π.

(** ** What other parties do, seen by one operation *)

(** The bytes behind the handles of [d] are the same. *)
Definition same_bytes (rm rm' : Remote) d : Prop :=
  ∀ x h z, handles_of d !! x = Some h → d_buffer_address h <= z < d_buffer_address h + d_size h →
    rm' (d_transport_endpoint h) z = rm (d_transport_endpoint h) z.

Record rely π g g' : Prop := {
  re_clock : s_clock g <= s_clock g';
  re_puts k mem sl : put_of (s_threads g) k mem sl → put_of (s_threads g') k mem sl;
  re_permits k ds : pm_permits π !! k = Some ds → granted (s_master g) k ds →
    granted (s_master g') k ds ∧ ∀ d, d ∈ ds → same_bytes (s_remote g) (s_remote g') d;
  re_leases k d t : s_clock g' < t → leased (s_master g) k d t →
    leased (s_master g') k d t ∧ same_bytes (s_remote g) (s_remote g') d;
}.

(** The requests of a transfer are those of its handles. *)
Lemma task_handle g th π bt tr x t : transfer_inv g th π bt tr → bt_tasks bt !! x = Some t →
  ∃ h s, handles_of (tr_replica tr) !! x = Some h ∧ tr_slices tr !! x = Some s ∧ t_request t = request (op_of (tr_side tr)) h s.
Proof.
  intros HT Ht. pose proof (tf_tasks _ _ _ _ _ HT) as E. assert ((t_request <$> bt_tasks bt) !! x = Some (t_request t)) as Hx
    by (by rewrite list_lookup_fmap, Ht). rewrite E in Hx. apply lookup_zip_with_Some in Hx as (h & s & -> & Hh & Hs). eauto.
Qed.

Lemma mirrored_same g th π bt tr rm' :
  transfer_inv g th π bt tr → same_bytes (s_remote g) rm' (tr_replica tr) →
  mirrored (s_remote g) (th_memory th) bt → mirrored rm' (th_memory th) bt.
Proof.
  intros HT HS HM x t j Ht Hj Hr. rewrite <-(HM x t j Ht Hj Hr). destruct (task_handle _ _ _ _ _ _ _ HT Ht) as (h & s & Hh & _ & E).
  rewrite E in *. cbn in *. apply (HS x h); [done|lia].
Qed.

Lemma reads_as_mono mem ths ths' k sl :
  (∀ k mem sl, put_of ths k mem sl → put_of ths' k mem sl) → reads_as mem ths k sl → reads_as mem ths' k sl.
Proof. intros Hp (mem' & sl' & H & HF). exists mem', sl'. auto. Qed.

Lemma status_inv_mono now now' bt st : now <= now' → status_inv now bt st → status_inv now' bt st.
Proof.
  intros Hle. destruct st; cbn; try done. unfold running. rewrite !andb_false_iff. destruct (bt_limit bt) as [l|]; [|done].
  rewrite !Z.leb_gt. intros [?|?]; [by left|right; lia].
Qed.

Lemma limit_inv_mono now now' l tl : now <= now' → limit_inv now l tl → limit_inv now' l tl.
Proof. intros Hle. destruct tl; cbn; try done. intros (t & -> & ?). exists t. split; [done|lia]. Qed.

Lemma transfer_rely g g' th π bt tr :
  (∀ k ds, pm_permits π !! k = Some ds → granted (s_master g) k ds) → rely π g g' → transfer_inv g th π bt tr → transfer_inv g' th π bt tr.
Proof.
  intros Hp HR HT. pose proof HT as [H1 H2 H3 H4]. split; [done|eapply limit_inv_mono; [apply HR|done]|eapply status_inv_mono; [apply HR|done]|].
  unfold side_inv in *. destruct (tr_side tr) as [k n|x k t].
  - destruct H4 as (Hin & Hs & Hf & Hm). split_and!; [done..|]. intros ds Hds. destruct (Hm ds Hds) as [Hn HM]. split; [done|].
    eapply mirrored_same; [done| |done]. destruct (re_permits _ _ _ HR k ds Hds (Hp k ds Hds)) as [_ HB].
    eapply HB, list_elem_of_lookup_2, Hn.
  - destruct H4 as (Hin & Hs & Hm). split_and!; [done..|]. case_decide; [eapply reads_as_mono; [apply HR|done]|].
    intros Ht. pose proof (re_clock _ _ _ HR). destruct Hm as [HL HM]; [lia|].
    destruct (re_leases _ _ _ HR k _ t Ht HL) as [HL' HB]. split; [done|]. by eapply mirrored_same.
Qed.

Lemma tinv_rely g g' th π : tinv g th π → rely π g g' → tinv g' th π.
Proof.
  intros [T1 T2 T3 T4 T5 T6 T7] HR. pose proof (re_clock _ _ _ HR). split; [done|lia| | | |done|done].
  - intros k ds Hk. by apply (re_permits _ _ _ HR), T3.
  - intros k d t Hin Ht. apply (re_leases _ _ _ HR); [done|]. apply T4; [done|lia].
  - eapply Forall2_impl; [exact T5|]. intros bt tr. by apply transfer_rely.
Qed.
End inv.
