(* ===== verification/ClientMaster.v ===== *)
(** * ClientMaster: what the calls of clients do to objects being read and written *)

From S2P Require Import Prelude Types Float64 BufferAllocator Replica ReplicaHeap AllocationStrategy SegmentManager SegmentInv.
From S2P Require Import MasterService BatchEvict MasterInv MasterOps MasterPut MasterEvict MasterSegments MasterSteps MasterCorrect MasterQuiet.
From S2P Require Import StorageBackend ClientProg TransferTask StoreClient ClientSystem ClientHeld ClientGhost ClientInv.
Open Scope Z_scope.

Section master.
Context {A B : Type} {ops : BufferAllocator A B} {laws : BufferAllocatorLaws A B}.
Context (cfg : MasterServiceConfig) (hash : string → Z).
Implicit Types (m : Master A B) (g : System A B) (k : string) (d : Descriptor) (th : Thread) (π : Perm).

Abbreviation find := (find hash).
Abbreviation minv := (minv hash).
Abbreviation fresh := (fresh hash).
Abbreviation granted := (granted hash).
Abbreviation leased := (leased hash).
Abbreviation shared := (shared cfg hash).
Abbreviation rely := (rely hash).

(** Nothing but the object [ex] is changed in a way that matters to readers and writers. *)
Record moves (ex : option string) (now : Z) m m' : Prop := {
  mv_busy k o : Some k ≠ ex → find m k = Some o → replicas o ≠ [] → Forall being_written (replicas o) →
    ∃ o', find m' k = Some o' ∧ replicas o' = replicas o;
  mv_from k o' r : Some k ≠ ex → find m' k = Some o' → r ∈ replicas o' →
    (∃ o, find m k = Some o ∧ r ∈ replicas o) ∨ being_written r;
  mv_empty k o' : Some k ≠ ex → find m' k = Some o' → replicas o' = [] → ∃ o, find m k = Some o ∧ replicas o = [];
  mv_heap : heap_kept (world_ m) (world_ m');
  mv_safe t : now <= t → safe hash t m m';
}.

Lemma quiet_moves now m m' : quiet hash m m' → mild hash now m m' → moves None now m m'.
Proof.
  intros [Q1 Q2 Q3 Q4] HM. split; [| | |done|apply HM].
  - intros k o _ Ho Hn HF. destruct (replicas o) as [|r rs] eqn:E; [done|]. rewrite <-E. apply Forall_cons in HF as [Hw _].
    eapply (Q2 k o r); [done|rewrite E; left|done].
  - intros k o' r _ Ho Hr. left. by eapply Q1.
  - intros k o' _. apply Q3.
Qed.

(** One object is changed. *)
Lemma only_moves now k m m' : gentle hash now m m' → only hash k m m' → moves (Some k) now m m'.
Proof.
  intros HG HO. split.
  - intros k' o Hk Ho _ _. exists o. by rewrite HO by congruence.
  - intros k' o' r Hk. rewrite HO by congruence. left. eauto.
  - intros k' o' Hk. rewrite HO by congruence. eauto.
  - by eapply gentle_heap.
  - apply HG.
Qed.

(** The descriptor of a replica stays the same. *)
Lemma descriptor_kept m m' k o r :
  fresh m → find m k = Some o → r ∈ replicas o → heap_kept (world_ m) (world_ m') →
  get_descriptor (world_ m') r = get_descriptor (world_ m) r.
Proof.
  intros HF Ho Hr Hh. assert (∀ b, b ∈ replica_buffers r → is_Some (heap (world_ m) !! ab_allocator b)) as Hv
    by (intros b Hb; by eapply fresh_allocator).
  unfold get_descriptor. f_equal. unfold replica_buffers in Hv. destruct (data_ r) as [bs|]; [|done]. f_equal.
  apply list_fmap_ext. intros x b Hb%list_elem_of_lookup_2. unfold buffer_get_descriptor, lock. f_equal.
  destruct (Hv b Hb) as [a Ha]. specialize (Hh (ab_allocator b) (ba_ident a, ba_base a)). rewrite Ha in Hh |- *.
  destruct (heap (world_ m') !! ab_allocator b) as [a'|]; [|by discriminate Hh]. specialize (Hh eq_refl). cbn in Hh.
  unfold ba_ident in Hh. congruence.
Qed.

Lemma descriptors_kept m m' k o :
  fresh m → find m k = Some o → heap_kept (world_ m) (world_ m') →
  get_descriptor (world_ m') <$> replicas o = get_descriptor (world_ m) <$> replicas o.
Proof. intros HF Ho Hh. apply list_fmap_ext. intros x r Hr%list_elem_of_lookup_2. by eapply descriptor_kept. Qed.

Lemma shared_minv g : shared g → minv [] (s_master g).
Proof. intros HS. apply (si_master _ _ (reachable_sinv cfg hash _ (sh_reach _ _ _ HS))). Qed.

Lemma shared_fresh g : shared g → fresh (s_master g).
Proof.
  intros HS k Hk. destruct (si_stale _ _ (reachable_sinv cfg hash _ (sh_reach _ _ _ HS)) k Hk) as (u & Hu & _). by apply elem_of_nil in Hu.
Qed.

Lemma shared_kind g : shared g → memory_allocator cfg = ba_kind.
Proof. intros HS. apply (reachable_kind cfg hash _ (sh_reach _ _ _ HS)). Qed.

Lemma granted_moves ex now m m' k ds : fresh m → moves ex now m m' → Some k ≠ ex → granted m k ds → granted m' k ds.
Proof.
  intros HF HM Hk (o & Ho & Hn & Hw & ->). destruct (mv_busy _ _ _ _ HM k o Hk Ho Hn Hw) as (o' & Ho' & E).
  exists o'. rewrite E. split_and!; [done..|]. symmetry. eapply descriptors_kept; [done..|apply HM].
Qed.

Lemma leased_moves ex now m m' k d t : fresh m → moves ex now m m' → now < t → leased m k d t → leased m' k d t.
Proof.
  intros HF HM Ht (o & r & Ho & Hr & Hc & Hl & ->).
  assert (readable hash (t - 1) m k r) as HR.
  { exists o. split_and!; [done|lia|done..|]. unfold live_replica. destruct (has_invalid_mem_handle _ r) eqn:E; [|done].
    destruct (HF k). exists o, r. unfold live_replica. by rewrite E. }
  destruct (mv_safe _ _ _ _ HM (t - 1) ltac:(lia) k r HR) as (o' & Ho' & Hl' & Hr' & Hc' & _).
  exists o', r. split_and!; [done..|lia|]. symmetry. eapply descriptor_kept; [done..|apply HM].
Qed.

Lemma rely_moves ex g m' π :
  fresh (s_master g) → moves ex (s_clock g) (s_master g) m' → (∀ k, ex = Some k → pm_permits π !! k = None) → rely π g (s_with_master m' g).
Proof.
  intros HF HM Hex. split; cbn; [done|done| |].
  - intros k ds Hk HG. split; [|by intros]. eapply granted_moves; [done..| |done]. intros E. rewrite (Hex k) in Hk by done. done.
  - intros k d t Ht HL. split; [|by intros]. by eapply leased_moves.
Qed.

(** Only object [k] may have to be looked at. *)
Lemma shared_moves ex g m' :
  shared g → moves ex (s_clock g) (s_master g) m' → reachable cfg hash (sys_of (s_with_master m' g)) → segments_apart m' →
  (∀ k o, ex = Some k → find m' k = Some o → replicas o ≠ [] ∧ ∀ r, r ∈ replicas o → type r = MEMORY ∧
     (status_ r = COMPLETE → stored_as (s_remote g) (s_threads g) k (get_descriptor (world_ m') r))) →
  shared (s_with_master m' g).
Proof.
  intros HS HM HR HA Hex. pose proof (shared_fresh g HS) as HF. destruct HS as [S1 S2 S3 S4 S5]. split; cbn; [done|done|..].
  - intros k o Ho. destruct (decide (ex = Some k)) as [E|E]; [by eapply Hex|]. intros Hn.
    destruct (mv_empty _ _ _ _ HM k o ltac:(congruence) Ho Hn) as (o0 & Ho0 & Hn0). by apply (S3 k o0).
  - intros k o r Ho Hr. destruct (decide (ex = Some k)) as [E|E]; [by eapply Hex|].
    destruct (mv_from _ _ _ _ HM k o r ltac:(congruence) Ho Hr) as [(o0 & Ho0 & Hr0)|[]]; [by eapply S4|done].
  - intros k o r Ho Hr Hc. destruct (decide (ex = Some k)) as [E|E]; [by eapply Hex|].
    destruct (mv_from _ _ _ _ HM k o r ltac:(congruence) Ho Hr) as [(o0 & Ho0 & Hr0)|[_ Hp]]; [|congruence].
    erewrite descriptor_kept; [by eapply S5|done|exact Ho0|done|apply HM].
Qed.

(** ** The calls *)

Lemma gentle_moves now k m m' : gentle hash now m m' → only hash k m m' → find m' k = find m k → moves None now m m'.
Proof.
  intros HG HO E. assert (∀ k', find m' k' = find m k') as Hf by (intros k'; destruct (decide (k' = k)) as [->|]; [done|by apply HO]).
  split; [| | |by eapply gentle_heap|apply HG].
  - intros k' o _ Ho _ _. exists o. by rewrite Hf.
  - intros k' o' r _. rewrite Hf. eauto.
  - intros k' o' _. rewrite Hf. eauto.
Qed.

(** A new object is being written. *)
Lemma emplace_moves now k o m m' :
  gentle hash now m m' → only hash k m m' → find m k = None → find m' k = Some o → replicas o ≠ [] → Forall being_written (replicas o) →
  moves None now m m'.
Proof.
  intros HG HO Hn Ho He HF. split; [| | |by eapply gentle_heap|apply HG].
  - intros k' o' _ Ho' _ _. exists o'. rewrite HO; [done|]. intros ->. congruence.
  - intros k' o' r _. destruct (decide (k' = k)) as [->|Hk]; [|rewrite HO by done; eauto]. rewrite Ho. intros [= <-] Hr. right.
    rewrite Forall_forall in HF. by apply HF.
  - intros k' o' _. destruct (decide (k' = k)) as [->|Hk]; [|rewrite HO by done; eauto]. rewrite Ho. by intros [= <-].
Qed.

Lemma write_set_granted w k lengths config reps :
  use_disk_replica cfg = false → write_set cfg hash w k lengths config reps →
  reps ≠ [] ∧ Forall being_written reps ∧
  Forall (λ d, is_memory_replica d = true ∧ d_size <$> handles_of d = lengths) (get_descriptor w <$> reps).
Proof.
  intros Hd (mem & -> & Hl & Hm & Hf). unfold disk_replicas. rewrite Hd, app_nil_r. split; [intros ->; cbn in Hl; lia|]. split; [done|].
  apply Forall_fmap. pose proof (fi_sizes _ _ _ Hf) as Hs. rewrite Forall_fmap in Hs. rewrite Forall_forall in *. intros r Hr. cbn.
  destruct (Hm r Hr) as [Ht _]. rewrite handles_of_descriptor. specialize (Hs r Hr). cbn in Hs. rewrite <-Hs, <-list_fmap_compose. split; [|done].
  unfold is_memory_replica, get_descriptor, type in *. cbn. by destruct (data_ r).
Qed.

Lemma PutStart_moves now shuffle m k lengths config :
  memory_allocator cfg = ba_kind → use_disk_replica cfg = false → (∀ s i l, shuffle s i l ≡ₚ l) → request_ok lengths config →
  minv [] m → fresh m → (∀ o, find m k = Some o → replicas o ≠ []) →
  runs (PutStart cfg hash shuffle k lengths config) m (λ x m', moves None now m m' ∧ ∀ ds, x = inr ds →
    find m k = None ∧ granted m' k ds ∧ ds ≠ [] ∧ Forall (λ d, is_memory_replica d = true ∧ d_size <$> handles_of d = lengths) ds).
Proof.
  intros Hk Hd Hsh HR HI HF Hn. eapply runs_mono; [by apply (PutStart_ok cfg hash now)|]. intros x m' (HG & HO & [[-> ->]|HP]).
  { split; [by eapply gentle_moves|done]. }
  unfold put_entry in HP. destruct (find m k) as [o|] eqn:Ho.
  - rewrite (fresh_cleaned hash m k o HF Ho) in HP. destruct HP as [(-> & _ & E)|(E & _)]; [|by destruct (Hn o)].
    split; [|done]. eapply gentle_moves; [done..|]. by rewrite Ho.
  - destruct x as [e|ds]; [split; [|done]; eapply gentle_moves; [done..|]; by rewrite Ho|].
    destruct HP as (o & Ho' & Hw & -> & _). destruct (write_set_granted _ _ _ _ _ Hd Hw) as (He & HF' & Hds).
    split; [by eapply emplace_moves|]. intros ds [= <-]. split_and!; [done| |by intros ?%fmap_nil_inv|done]. by exists o.
Qed.

Lemma PutEnd_moves now m k ds :
  minv [] m → fresh m → granted m k ds →
  runs (PutEnd cfg hash now k MEMORY) m (λ _ m', moves (Some k) now m m' ∧ ∃ o, find m' k = Some o ∧ replicas o ≠ [] ∧
    ∀ r, r ∈ replicas o → type r = MEMORY ∧ ∃ d, d ∈ ds ∧ handles_of (get_descriptor (world_ m') r) = handles_of d).
Proof.
  intros HI HF (o & Ho & Hn & Hw & ->). eapply runs_mono; [by apply PutEnd_ok|]. intros x m' (HG & HO & Hx).
  split; [by apply only_moves|]. pose proof (fresh_cleaned hash m k o HF Ho) as Ec.
  destruct x as [e|[]]; [destruct Hx as (_ & _ & H); destruct Hn; rewrite <-Ec; by apply H|].
  destruct Hx as (o' & Ho' & _ & Hf). rewrite Ho in Ho'. apply (inj Some) in Ho' as <-. rewrite Ec in Hf.
  eexists. split; [exact Hf|]. cbn. split; [by intros ?%fmap_nil_inv|]. intros r (r0 & -> & Hr0)%list_elem_of_fmap.
  rewrite Forall_forall in Hw. destruct (Hw r0 Hr0) as [Ht Hs]. rewrite decide_True by done. unfold mark_complete. rewrite Hs.
  split; [done|]. exists (get_descriptor (world_ m) r0). split; [by apply list_elem_of_fmap_2|].
  rewrite <-(descriptor_kept m m' k o r0) by (done || by eapply gentle_heap). by rewrite !handles_of_descriptor.
Qed.

Lemma PutRevoke_moves now m k ds :
  minv [] m → fresh m → granted m k ds →
  runs (PutRevoke hash k MEMORY) m (λ _ m', moves (Some k) now m m' ∧ find m' k = None).
Proof.
  intros HI HF (o & Ho & Hn & Hw & ->). eapply runs_mono; [by apply (PutRevoke_ok hash now)|]. intros x m' (HG & HO & Hx).
  split; [by apply only_moves|]. pose proof (fresh_cleaned hash m k o HF Ho) as Ec. rewrite Forall_forall in Hw.
  destruct x as [e|[]]; [destruct Hx as [[_ ?]|(_ & o' & r & Ho' & _ & Hr & _ & Hs)]; [done|]|destruct Hx as (o' & Ho' & _ & Hf)];
    rewrite Ho in Ho'; apply (inj Some) in Ho' as <-; rewrite Ec in *; [by destruct (Hw r Hr)|].
  rewrite Hf, decide_True; [done|]. cbn. apply filter_none. intros r Hr Ht. by destruct (Hw r Hr).
Qed.

Lemma GetReplicaList_leased now m k :
  minv [] m → fresh m → (∀ o r, find m k = Some o → r ∈ replicas o → type r = MEMORY) →
  runs (GetReplicaList cfg hash now k) m (λ x m', ∀ resp, x = inr resp →
    Forall (λ d, is_memory_replica d = true ∧ leased m' k d (now + milliseconds (lease_ttl_ms resp))) (r_replicas resp)).
Proof.
  intros HI HF Hmem. eapply runs_mono; [by apply GetReplicaList_ok|]. intros x m' (HG & HO & Hx) resp ->.
  destruct Hx as (o & Ho & -> & _ & -> & Hf). rewrite (fresh_cleaned hash m k o HF Ho) in *.
  apply Forall_forall. intros d (r & -> & [Hc Hr]%list_elem_of_filter)%list_elem_of_fmap. split.
  - specialize (Hmem o r Ho Hr). unfold is_memory_replica, get_descriptor, type in *. cbn. by destruct (data_ r).
  - eexists _, r. split; [exact Hf|]. split_and!; [done|done|cbn; lia|].
    symmetry. eapply descriptor_kept; [done..|by eapply gentle_heap].
Qed.
End master.
