(* ===== verification/ClientActs.v ===== *)
(** * ClientActs: what the answers of the engine and of the clock tell

    The knowledge an operation draws from an answer is true of its batches. *)

From S2P Require Import Prelude Types Float64 BufferAllocator Replica ReplicaHeap AllocationStrategy SegmentManager SegmentInv.
From S2P Require Import MasterService BatchEvict MasterInv MasterOps MasterPut MasterEvict MasterSegments MasterSteps MasterCorrect MasterQuiet.
From S2P Require Import StorageBackend ClientProg TransferTask StoreClient ClientSystem ClientHeld ClientGhost ClientInv ClientMaster.
From Stdlib Require Import Ascii.
Open Scope Z_scope.

(** ** Lists *)

Lemma Forall2_alter_both {X Y} (P : X → Y → Prop) f f' l l' i :
  Forall2 P l l' → (∀ x y, l !! i = Some x → l' !! i = Some y → P x y → P (f x) (f' y)) → Forall2 P (alter f i l) (alter f' i l').
Proof.
  intros HF. revert i. induction HF as [|x y l l' HP HF IH]; intros [|i] Hf; cbn; constructor; auto.
Qed.

Lemma alter_id {X} (l : list X) i : alter id i l = l.
Proof. revert i. induction l as [|x l IH]; intros [|i]; cbn; [done..|]. f_equal. apply IH. Qed.

Lemma Forall2_alter_right {X Y} (P : X → Y → Prop) f l l' i :
  Forall2 P l l' → (∀ x y, l !! i = Some x → l' !! i = Some y → P x y → P x (f y)) → Forall2 P l (alter f i l').
Proof. intros HF Hf. rewrite <-(alter_id l i). by apply Forall2_alter_both. Qed.

Lemma fmap_alter_same {X Y} (g : X → Y) f (l : list X) i : (∀ x, g (f x) = g x) → g <$> alter f i l = g <$> l.
Proof. intros Hg. revert i. induction l as [|x l IH]; intros [|i]; cbn; [done|done|by rewrite Hg|]. f_equal. apply IH. Qed.

(** ** Polls *)

Definition failing (s : option TransferStatusEnum) : Prop :=
  match s with Some TS.FAILED | Some TS.CANCELED | Some TS.INVALID | None => True | _ => False end.

Lemma check_tasks_spec ss a f e : Engine.check_tasks ss a f = Some e →
  e = EC.OK ∧ a = true ∧ f = false ∧ Forall (λ s, s = Some TS.COMPLETED) ss ∨
  e = EC.TRANSFER_FAIL ∧ (f = true ∨ Exists failing ss).
Proof.
  revert a f. induction ss as [|s ss IH]; intros a f H.
  { cbn in H. destruct f; [naive_solver|]. destruct a; naive_solver. }
  destruct s as [[]|]; cbn in H; [..|apply (inj Some) in H as <-; right; split; [done|right; by left]];
    apply IH in H as [(-> & H1 & H2 & H3)|(-> & [H|H])]; simplify_eq; (left; by auto) || (right; split; [done|]); auto; by right; (left || right).
Qed.

Lemma task_done_spec t : task_done t = true ↔ ∀ j, 0 <= j < rq_length (t_request t) → j ∈ t_copied t.
Proof.
  unfold task_done. rewrite forallb_forall. split.
  - intros H j Hj. specialize (H j). rewrite bool_decide_eq_true in H. apply H. rewrite <-list_elem_of_In, elem_of_seqZ. lia.
  - intros H j. rewrite <-list_elem_of_In, elem_of_seqZ. intros Hj. apply bool_decide_eq_true_2, H. lia.
Qed.

Lemma poll_settles now bt ss e :
  poll_fair tidy_engine bt ss = true → Engine.check_tasks ss true false = Some e →
  if decide (e = EC.OK) then Forall (λ t, task_done t = true) (bt_tasks bt) else running now bt = false.
Proof.
  unfold poll_fair. rewrite andb_true_iff, Nat.eqb_eq, forallb_forall. intros [Hl Hf] Hc.
  destruct (check_tasks_spec _ _ _ _ Hc) as [(-> & _ & _ & HF)|(-> & [?|(s & Hs & Hfail)%Exists_exists])]; cbn; [|done|].
  - apply Forall_lookup. intros x t Ht. assert (∃ s, ss !! x = Some s) as [s Hs] by (apply lookup_lt_is_Some; rewrite Hl; by eapply lookup_lt_Some).
    rewrite Forall_lookup in HF. pose proof (HF x s Hs) as ->.
    specialize (Hf (t, Some TS.COMPLETED)). rewrite <-list_elem_of_In in Hf. apply Hf, list_elem_of_lookup. exists x. by apply lookup_zip_Some.
  - apply list_elem_of_lookup in Hs as [x Hs]. assert (∃ t, bt_tasks bt !! x = Some t) as [t Ht]
      by (apply lookup_lt_is_Some; rewrite <-Hl; by eapply lookup_lt_Some).
    specialize (Hf (t, s)). rewrite <-list_elem_of_In in Hf.
    assert (status_fair tidy_engine bt t s = true) as H by (apply Hf, list_elem_of_lookup; exists x; by apply lookup_zip_Some).
    unfold running. destruct s as [[]|]; try done; cbn in H; rewrite orb_false_r in H; by rewrite H.
Qed.

Section know.
Context {A B : Type} {ops : BufferAllocator A B} {laws : BufferAllocatorLaws A B}.
Context (cfg : MasterServiceConfig) (hash : string → Z).
Implicit Types (m : Master A B) (g : System A B) (k : string) (d : Descriptor) (th : Thread) (π : Perm).

Abbreviation transfer_inv := (transfer_inv hash).
Abbreviation side_inv := (side_inv hash).
Abbreviation tinv := (tinv hash).
Abbreviation shared := (shared cfg hash).
Abbreviation rely := (rely hash).

(** What is said of a transfer depends on the operation, its memory and its permits. *)
Lemma transfer_same g th th' π π' bt tr :
  th_job th' = th_job th → th_memory th' = th_memory th → pm_permits π' = pm_permits π →
  transfer_inv g th π bt tr → transfer_inv g th' π' bt tr.
Proof.
  intros E1 E2 E3 [H1 H2 H3 H4]. split; [done..|]. unfold ClientInv.side_inv in *. by rewrite E1, E2, E3.
Qed.

(** A transfer that is over. *)
Lemma side_settled g th π bt tr l st :
  side_inv g th π bt tr → tr_status tr ≠ Verified → st ≠ Flying → st ≠ Verified → side_inv g th π bt (tr_with l st tr).
Proof.
  unfold ClientInv.side_inv. cbn. intros H Hs H1 H2. destruct (tr_side tr) as [k n|x k t].
  - destruct H as (? & ? & _ & ?). split_and!; [done|done|by intros|done].
  - destruct H as (? & ? & H). rewrite decide_False in H by done. rewrite decide_False by done. done.
Qed.

Lemma settle_inv g th π bt tr r :
  (∀ e, r = Some e → if decide (e = EC.OK) then Forall (λ t, task_done t = true) (bt_tasks bt) else running (s_clock g) bt = false) →
  transfer_inv g th π bt tr → transfer_inv g th π bt (settle r tr).
Proof.
  intros He HT. pose proof HT as [H1 H2 H3 H4]. unfold settle. destruct (tr_status tr) eqn:Es, r as [e|]; try done; specialize (He e eq_refl).
  - split; [done|done|cbn; by case_decide|]. apply side_settled; [done|by rewrite Es|by case_decide..].
  - case_decide; [|done]. split; [done..|]. apply side_settled; [done|by rewrite Es|done..].
Qed.

Lemma see_side t tr : tr_side (see t tr) = tr_side tr.
Proof. unfold see. destruct (tr_status tr), (tr_limit tr), (tr_side tr) eqn:E; repeat case_match; by rewrite <-?E. Qed.

Lemma settle_side r tr : tr_side (settle r tr) = tr_side tr.
Proof. unfold settle. destruct (tr_status tr), r; try done. by case_decide. Qed.

(** Bytes that came from a complete replica under its lease are those of one write. *)
Lemma landed_reads g th π bt tr x k t :
  shared g → transfer_inv g th π bt tr → tr_side tr = Reading x k t → tr_status tr = Landed → s_clock g < t →
  reads_as (th_memory th) (s_threads g) k (tr_slices tr).
Proof.
  intros HS HT Es El Ht. pose proof HT as [H1 H2 H3 H4]. unfold ClientInv.side_inv in H4. rewrite Es, El in *. cbn in H3, H4.
  destruct H4 as (Hg & Hsz & H4). destruct (H4 Ht) as [(o & r & Ho & Hr & Hc & _ & Ed) HM].
  destruct (sh_stored _ _ _ HS k o r Ho Hr Hc) as (mem & sl & Hp & Hsl & Hh). rewrite <-Ed in *. exists mem, sl. split; [done|].
  assert (length (handles_of (tr_replica tr)) = length sl) as Hlen by (unfold sized in Hsl; apply (f_equal length) in Hsl; by rewrite !length_fmap in Hsl).
  rewrite Hlen in Hsz. apply Forall2_same_length_lookup_2.
  { unfold sized in *. apply (f_equal length) in Hsz. rewrite !length_fmap in Hsz. lia. }
  intros y s s' Hs Hs'. assert (∃ h, handles_of (tr_replica tr) !! y = Some h) as [h Hy]
    by (apply lookup_lt_is_Some; rewrite Hlen; by eapply lookup_lt_Some).
  assert (d_size h = slice_size s ∧ d_size h = slice_size s') as [E1 E2].
  { unfold sized in *. apply (f_equal (lookup y)) in Hsz, Hsl. rewrite !list_lookup_fmap in *. rewrite Hy, ?Hs, ?Hs' in *. cbn in *. naive_solver. }
  split; [congruence|]. intros j Hj. rewrite <-E2 in Hj. rewrite <-(Hh y h s' Hy Hs' j Hj).
  assert (tr_slices tr !! y = Some s) as Hs0 by (by apply lookup_take_Some in Hs as [? _]).
  assert (∃ tk, bt_tasks bt !! y = Some tk ∧ t_request tk = request (op_of (tr_side tr)) h s) as (tk & Htk & Erq).
  { assert (requests_of tr !! y = Some (request (op_of (tr_side tr)) h s)) as E by (apply lookup_zip_with_Some; eauto 10).
    rewrite <-H1, list_lookup_fmap in E. apply fmap_Some in E as (tk & ? & ?). eauto. }
  rewrite Forall_lookup in H3. pose proof (proj1 (task_done_spec tk) (H3 y tk Htk) j) as Hcp. rewrite Erq in Hcp. cbn in Hcp.
  pose proof (HM y tk j Htk (Hcp Hj)) as E. rewrite Erq in E. cbn in E. symmetry. by apply E.
Qed.

Lemma see_inv g th π bt tr : shared g → transfer_inv g th π bt tr → transfer_inv g th π bt (see (s_clock g) tr).
Proof.
  intros HS HT. pose proof HT as [H1 H2 H3 H4]. unfold see. destruct (tr_status tr) eqn:Es; try done.
  - destruct (tr_limit tr) as [| |s] eqn:El; [done| |].
    + split; [done|by apply H2|done|]. unfold ClientInv.side_inv in *. cbn. rewrite Es in H4. exact H4.
    + destruct (Z.ltb_spec (s + minute) (s_clock g)); [|done]. split; [done|done| |apply side_settled; [done|by rewrite Es|done..]].
      destruct H2 as (l & Hl & Hle). cbn. unfold running. rewrite Hl, andb_false_iff, Z.leb_gt. right. lia.
  - destruct (tr_side tr) as [|x k t] eqn:Ed; [done|]. destruct (Z.ltb_spec (s_clock g) t) as [Ht|]; [|done].
    pose proof (landed_reads _ _ _ _ _ _ _ _ HS HT Ed Es Ht) as HR. split; [done|done|done|]. unfold ClientInv.side_inv in *. cbn. rewrite Ed in *.
    destruct H4 as (? & ? & _). by split_and!.
Qed.

Lemma observe_tinv g th π : shared g → tinv g th π → tinv g th (pm_observe (s_clock g) π).
Proof.
  intros HS [T1 T2 T3 T4 T5 T6 T7]. split; [done|cbn; lia|done|done| | |done]; cbn.
  - apply Forall2_fmap_r. eapply Forall2_impl; [exact T5|]. intros bt tr HT.
    by apply (transfer_same g th th π), see_inv.
  - rewrite <-list_fmap_compose. erewrite list_fmap_ext; [exact T6|]. intros x tr _. cbn. by rewrite see_side.
Qed.

(** Anything that changes batches and what is known of them alike. *)
Lemma alter_tinv g th π f f' b :
  tinv g th π → (∀ tr, tr_side (f' tr) = tr_side tr) →
  (∀ bt tr, th_batches th !! b = Some bt → transfer_inv g th π bt tr → transfer_inv g th π (f bt) (f' tr)) →
  tinv g (th_with_batches (alter f b) th) (pm_with_transfers (alter f' b) π).
Proof.
  intros [T1 T2 T3 T4 T5 T6 T7] Hs Hf. split; cbn; [done|done|done|done| | |done].
  - apply Forall2_alter_both; [by eapply Forall2_impl; [exact T5|]; intros bt tr; apply transfer_same|].
    intros bt tr Hbt _ HT. apply (transfer_same g th _ π); [done..|]. apply Hf; [done|]. by apply (transfer_same g (th_with_batches (alter f b) th) _ (pm_with_transfers (alter f' b) π)).
  - rewrite fmap_alter_same; [done|]. intros tr. cbn. by rewrite Hs.
Qed.
End know.

(** * One action of one operation

    An action its knowledge allows keeps the invariant, does not disturb other operations,
    and makes true what the operation knows afterwards. *)

Section acts.
Context {A B : Type} {ops : BufferAllocator A B} {laws : BufferAllocatorLaws A B}.
Context (cfg : MasterServiceConfig) (hash : string → Z).
Context (Hdisk : use_disk_replica cfg = false).
Implicit Types (m : Master A B) (g : System A B) (k : string) (d : Descriptor) (th : Thread) (π : Perm).

Abbreviation find := (find hash).
Abbreviation transfer_inv := (transfer_inv hash).
Abbreviation tinv := (tinv hash).
Abbreviation shared := (shared cfg hash).
Abbreviation rely := (rely hash).
Abbreviation granted := (granted hash).

Lemma s_with_master_id g : s_with_master (s_master g) g = g.
Proof. by destruct g. Qed.

Lemma tinv_thread g th th' π :
  th_job th' = th_job th → th_memory th' = th_memory th → th_start th' = th_start th → th_batches th' = th_batches th →
  tinv g th π → tinv g th' π.
Proof.
  intros E1 E2 E3 E4 [T1 T2 T3 T4 T5 T6 T7]. split; rewrite ?E1, ?E2, ?E3, ?E4; try done.
  eapply Forall2_impl; [exact T5|]. intros bt tr. by apply transfer_same.
Qed.

(** ** Knowledge about permits and leases *)

Lemma tinv_delete g th π k : grounded k (pm_transfers π) → tinv g th π → tinv g th (pm_with_permits (delete k) π).
Proof.
  intros Hg [T1 T2 T3 T4 T5 T6 T7]. split; cbn; [done|done| |done| |done|done].
  - intros k' ds [_ Hk]%lookup_delete_Some. by apply T3.
  - apply Forall2_same_length_lookup. rewrite Forall2_same_length_lookup in T5. destruct T5 as [Hl T5]. split; [done|].
    intros b bt tr Hb Ht. destruct (T5 b bt tr Hb Ht) as [H1 H2 H3 H4]. split; [done..|]. unfold side_inv in *.
    destruct (tr_side tr) as [k' n|] eqn:Es; [|done]. destruct H4 as (? & ? & Hf & Hm). cbn. split_and!; [done|done| |].
    + intros Hfl. destruct (decide (k' = k)) as [->|]; [by destruct (Hg b tr n)|]. rewrite lookup_delete_ne by done. by apply Hf.
    + intros ds [_ Hk]%lookup_delete_Some. by apply Hm.
Qed.

Lemma tinv_permit g th π k ds : pm_transfers π = [] → granted (s_master g) k ds → tinv g th π → tinv g th (pm_with_permits <[k := ds]> π).
Proof.
  intros Hn Hg [T1 T2 T3 T4 T5 T6 T7]. rewrite Hn in *. split; cbn; rewrite ?Hn; try done.
  - intros k' ds'. rewrite lookup_insert_Some. intros [[<- <-]|[_ Hk]]; [done|by apply T3].
  - by apply Forall2_nil_inv_r in T5 as ->.
Qed.

Lemma tinv_lease g th π k resp :
  Forall (λ d, leased hash (s_master g) k d (s_clock g + milliseconds (lease_ttl_ms resp))) (r_replicas resp) →
  tinv g th π → tinv g th (pm_lease k resp π).
Proof.
  intros HF [T1 T2 T3 T4 T5 T6 T7]. split; cbn; [done|done|done| | |done|done].
  - intros k' d t [Hin|(d' & E & Hd)%list_elem_of_fmap]%elem_of_app Ht; [by apply T4|]. simplify_eq.
    rewrite Forall_forall in HF. destruct (HF _ Hd) as (o & r & Ho & Hr & Hc & Hl & E). exists o, r. split_and!; try done. lia.
  - eapply Forall2_impl; [exact T5|]. intros bt tr. by apply transfer_same.
Qed.

(** A new batch. *)
Lemma push_tinv g th π tr l :
  transfer_allowed (th_job th) tr π → tr_status tr = Flying → limit_inv (s_clock g) l (tr_limit tr) → tinv g th π →
  tinv g (th_with_batches (λ bts, bts ++ [new_batch l (requests_of tr)]) th) (pm_with_transfers (λ trs, trs ++ [tr]) π).
Proof.
  intros [Hslot Ha] Hs Hl [T1 T2 T3 T4 T5 T6 T7]. split; cbn; [done|done|done|done| | |done].
  - apply Forall2_app; [eapply Forall2_impl; [exact T5|]; intros bt tr'; by apply transfer_same|].
    constructor; [|done]. split; cbn; [|done|by rewrite Hs|].
    + rewrite <-list_fmap_compose. by apply list_fmap_id.
    + assert (∀ rm, mirrored rm (th_memory th) (new_batch l (requests_of tr))) as Hmir.
      { intros rm x t j Ht Hj. cbn in Ht. rewrite list_lookup_fmap in Ht. apply fmap_Some in Ht as (r & _ & ->). set_solver. }
      unfold side_inv. destruct (tr_side tr) as [k n|x k t]; cbn.
      * destruct Ha as (ds & Hk & Hn & Hin & Hsz). rewrite Hk. split_and!; [done|done|by eauto|]. by intros ds' [= <-].
      * destruct Ha as (Hx & Hin & Hsz). rewrite decide_False by congruence. split_and!; [done|done|]. intros Ht. split; [by apply T4|done].
  - rewrite fmap_app. apply NoDup_app. split; [done|]. split; [|by apply NoDup_singleton].
    cbn. intros s Hin ->%list_elem_of_singleton. done.
Qed.

(** ** Calls of the master *)

(** A call that is served is a step of the server. *)
Definition call_of {X} (c : MasterCall X) (o : Oracle) : option (call B) :=
  match c with
  | MExistKey k => Some (CExistKey k)
  | MGetReplicaList k => Some (CGetReplicaList k)
  | MPutStart k lengths config => Some (CPutStart (or_shuffle o) k lengths config)
  | MPutEnd k rt => Some (CPutEnd k rt)
  | MPutRevoke k rt => Some (CPutRevoke k rt)
  | MRemove k => Some (CRemove k)
  | _ => None
  end.

Lemma serve_call {X} (c : MasterCall X) now o m x m' :
  serve cfg hash c now o m = Some (x, m') → ∃ c', call_of c o = Some c' ∧ run_call cfg hash now c' m = Some (tt, m').
Proof. destruct c; cbn; try done; intros E; eexists; (split; [done|]); by eapply discard_Some. Qed.

Lemma serve_reachable {X} (c : MasterCall X) o j π g x m' :
  (∀ s i l, or_shuffle o s i l ≡ₚ l) → call_allowed j c π → reachable cfg hash (sys_of g) →
  serve cfg hash c (s_clock g) o (s_master g) = Some (x, m') → reachable cfg hash (sys_of (s_with_master m' g)).
Proof.
  intros Ho Ha HR E. destruct (serve_call _ _ _ _ _ _ E) as (c' & Ec & Er). eapply reach_step; [exact HR|].
  change (sys_of (s_with_master m' g)) with (with_master m' (sys_of g)). apply (step_call cfg hash _ c'); [|done].
  destruct c; cbn in *; simplify_eq; try done. by destruct Ha.
Qed.

(** A call that changes no object in use. *)
Lemma serve_bystander {X} (c : MasterCall X) o g x m' c' :
  shared g → call_of c o = Some c' → bystander c' = true → call_ok cfg (s_clock g) c' →
  serve cfg hash c (s_clock g) o (s_master g) = Some (x, m') → moves hash None (s_clock g) (s_master g) m'.
Proof.
  intros HS Ec Hb Hok E. destruct (serve_call _ _ _ _ _ _ E) as (c1 & Ec' & Er). rewrite Ec in Ec'. simplify_eq.
  pose proof (shared_minv cfg hash g HS) as HI. pose proof (shared_fresh cfg hash g HS) as HF. apply quiet_moves.
  - apply (runs_det _ _ _ _ _ (bystander_quiet cfg hash _ _ _ HI HF Hok Hb) Er).
  - apply (runs_det _ _ _ _ _ (run_call_ok cfg hash _ _ _ (shared_kind cfg hash g HS) HI Hok) Er).
Qed.

(** A replica that is written holds the contents of its operation. *)
Lemma written_stored g th π k n d ds sl i :
  s_threads g !! i = Some th → tinv g th π → (k, sl) ∈ puts (th_job th) → pm_permits π !! k = Some ds →
  sized (handles_of d) sl → written_at k n d sl (pm_transfers π) → stored_as (s_remote g) (s_threads g) k d.
Proof.
  intros Hi HT Hin Hk Hsz (b & tr & Hb & Es & <- & <- & El). exists (th_start th), (tr_slices tr). split; [by exists i, th|]. split; [done|].
  pose proof (ti_transfers _ _ _ _ HT) as HF. rewrite Forall2_same_length_lookup in HF. destruct HF as [Hl HF].
  destruct (lookup_lt_is_Some_2 (th_batches th) b) as [bt Hbt]; [rewrite Hl; by eapply lookup_lt_Some|].
  destruct (HF b bt tr Hbt Hb) as [H1 _ H3 H4]. rewrite El in H3. unfold side_inv in H4. rewrite Es in H4.
  destruct H4 as (_ & _ & _ & H4). destruct (H4 ds Hk) as [_ HM]. intros x h s Hh Hs j Hj.
  assert (requests_of tr !! x = Some (request (op_of (tr_side tr)) h s)) as E by (apply lookup_zip_with_Some; eauto 10).
  rewrite <-H1, list_lookup_fmap in E. apply fmap_Some in E as (t & Ht & Er). cbn in H3. rewrite Forall_lookup in H3.
  pose proof (proj1 (task_done_spec t) (H3 x t Ht) j) as Hc. pose proof (HM x t j Ht) as E. rewrite <-Er in *. cbn in *.
  rewrite E by (done || by apply Hc). apply (ti_kept _ _ _ _ HT). intros En. rewrite En in Hin. by apply elem_of_nil in Hin.
Qed.

(** What an action of an operation with permits [π] does. *)
Record acted g m' th π π' : Prop := {
  ac_shared : shared (s_with_master m' g);
  ac_own : tinv (s_with_master m' g) th π';
  ac_others π0 : (∀ k, is_Some (pm_permits π !! k) → pm_permits π0 !! k = None) → rely π0 g (s_with_master m' g);
  ac_permits k : is_Some (pm_permits π' !! k) → is_Some (pm_permits π !! k) ∨ find (s_master g) k = None;
}.

Lemma moves_acted g m' th π :
  shared g → tinv g th π → moves hash None (s_clock g) (s_master g) m' → reachable cfg hash (sys_of (s_with_master m' g)) →
  segments_apart m' → acted g m' th π π.
Proof.
  intros HS HT HM HR HA. pose proof (shared_fresh cfg hash g HS) as HF. split.
  - by apply (shared_moves cfg hash None).
  - eapply tinv_rely; [exact HT|]. by apply (rely_moves hash None).
  - intros π0 _. by apply (rely_moves hash None).
  - by left.
Qed.

(** The owner of a permit gives it up. *)
Lemma release_acted g m' th π k :
  shared g → tinv g th π → grounded k (pm_transfers π) → is_Some (pm_permits π !! k) →
  moves hash (Some k) (s_clock g) (s_master g) m' → reachable cfg hash (sys_of (s_with_master m' g)) → segments_apart m' →
  (∀ o, find m' k = Some o → replicas o ≠ [] ∧ ∀ r, r ∈ replicas o → type r = MEMORY ∧
     stored_as (s_remote g) (s_threads g) k (get_descriptor (world_ m') r)) →
  acted g m' th π (pm_with_permits (delete k) π).
Proof.
  intros HS HT Hg Hk HM HR HA Ho. pose proof (shared_fresh cfg hash g HS) as HF. split.
  - apply (shared_moves cfg hash (Some k)); [done..|]. intros k' o [= <-] E. destruct (Ho o E) as [? Hr]. split; [done|].
    intros r Hin. destruct (Hr r Hin). done.
  - eapply tinv_rely; [by apply tinv_delete|]. apply (rely_moves hash (Some k)); [done..|]. intros k' [= <-]. by apply lookup_delete_eq.
  - intros π0 H0. apply (rely_moves hash (Some k)); [done..|]. intros k' [= <-]. by apply H0.
  - cbn. intros k' [ds [_ E]%lookup_delete_Some]. left. eauto.
Qed.

Lemma stored_same rm ths k d d' : handles_of d' = handles_of d → stored_as rm ths k d → stored_as rm ths k d'.
Proof. intros E (mem & sl & ? & ? & ?). exists mem, sl. by rewrite E. Qed.

Lemma serve_ok {X} (c : MasterCall X) o g th π x m' i :
  s_threads g !! i = Some th → shared g → tinv g th π → call_allowed (th_job th) c π → (∀ s i l, or_shuffle o s i l ≡ₚ l) →
  serve cfg hash c (s_clock g) o (s_master g) = Some (x, m') → segments_apart m' →
  call_may c π x ∧ acted g m' th π (call_after c π x).
Proof.
  intros Hi HS HT Ha Hsh E HA. pose proof (serve_reachable _ _ _ _ _ _ _ Hsh Ha (sh_reach _ _ _ HS) E) as HR.
  pose proof (shared_minv cfg hash g HS) as HI. pose proof (shared_fresh cfg hash g HS) as HF.
  assert (∀ c', call_of c o = Some c' → bystander c' = true → call_ok cfg (s_clock g) c' → acted g m' th π π) as Hby
    by (intros c' ???; apply moves_acted; [done..|by eapply serve_bystander|done|done]).
  destruct c as [k|k|k lengths config|k rt|k rt|k|re| |seg id|segs id|id id'|id|]; cbn in E, Ha |- *; try done; [split; [done|by eapply Hby]| | | | |split; [done|by eapply Hby]].
  - pose proof (runs_det _ _ _ _ _ (GetReplicaList_leased cfg hash (s_clock g) _ k HI HF (sh_memory _ _ _ HS k)) E) as HL.
    destruct (Hby _ eq_refl eq_refl I) as [A1 A2 A3 A4]. destruct x as [e|resp]; [done|]. specialize (HL resp eq_refl). apply Forall_and in HL as [HL1 HL2].
    split; [done|]. split; [done|by apply tinv_lease|done|done].
  - destruct Ha as [Hn Hrq]. pose proof (runs_det _ _ _ _ _
      (PutStart_moves cfg hash (s_clock g) _ _ k _ _ (shared_kind cfg hash g HS) Hdisk Hsh Hrq HI HF (sh_some _ _ _ HS k)) E) as [HM Hx].
    pose proof (moves_acted g m' th π HS HT HM HR HA) as HAc. destruct x as [e|ds]; [done|].
    destruct (Hx ds eq_refl) as (Hnone & Hg & Hne & Hds). destruct HAc as [A1 A2 A3 A4].
    split; [split; [|done]; destruct (pm_permits π !! k) as [ds'|] eqn:Ek; [|done];
      destruct (ti_permits _ _ _ _ HT k ds' Ek) as (o' & ? & _); congruence|].
    split; [done|by apply tinv_permit|done|]. cbn. intros k' [ds' [[<- _]|[_ E']]%lookup_insert_Some]; eauto.
  - destruct Ha as (-> & Hg & ds & sl & Hk & Hin & Hall). split; [done|].
    destruct (runs_det _ _ _ _ _ (PutEnd_moves cfg hash (s_clock g) _ k ds HI HF (ti_permits _ _ _ _ HT k ds Hk)) E) as (HM & o' & Ho' & Hne & Hr).
    apply release_acted; [done..|by eauto|done|done|done|]. rewrite Ho'. intros o0 [= <-]. split; [done|].
    intros r Hrin. destruct (Hr r Hrin) as (Ht & d & Hd & Ed). split; [done|]. apply (stored_same _ _ _ d); [done|].
    apply list_elem_of_lookup in Hd as [n Hn]. destruct (Hall n d Hn). by eapply written_stored.
  - destruct Ha as (-> & Hk & Hg). split; [done|]. pose proof Hk as [ds Hds].
    destruct (runs_det _ _ _ _ _ (PutRevoke_moves hash (s_clock g) _ k ds HI HF (ti_permits _ _ _ _ HT k ds Hds)) E) as (HM & Hn).
    apply release_acted; [done..|]. rewrite Hn. done.
Qed.

(** ** All actions *)

(** What a poll or a wait shows of one batch. *)
Lemma settle_tinv g th π b bt r :
  tinv g th π → th_batches th !! b = Some bt →
  (∀ e, r = Some e → if decide (e = EC.OK) then Forall (λ t, task_done t = true) (bt_tasks bt) else running (s_clock g) bt = false) →
  tinv g (th_with_batches (λ _, th_batches th) th) (pm_with_transfers (alter (settle r) b) π).
Proof.
  intros HT Hb Hr. apply (tinv_thread g (th_with_batches (alter id b) th)); [done..|cbn; by rewrite alter_id|].
  apply alter_tinv; [done|intros; apply settle_side|]. intros bt' tr Hb' HTr. rewrite Hb in Hb'. simplify_eq. by apply settle_inv.
Qed.

Lemma stop_inv g th π bt tr : transfer_inv g th π bt tr → transfer_inv g th π (stop_batch bt) tr.
Proof. intros [H1 H2 H3 H4]. split; [done..| |done]. by destruct (tr_status tr). Qed.

Lemma react_ok {X} (a : Action X) tr o g th π x m' bts i :
  s_threads g !! i = Some th → shared g → tinv g th π → allowed (th_job th) a tr π → (∀ s i l, or_shuffle o s i l ≡ₚ l) →
  react cfg hash tidy_engine a o (s_master g) (s_clock g) (th_batches th) = Some (x, m', bts) → segments_apart m' →
  may a π x ∧ acted g m' (th_with_batches (λ _, bts) th) π (after a tr π x).
Proof.
  intros Hi HS HT Ha Hsh E HA.
  assert (∀ th' π', s_master g = m' → tinv g th' π' → pm_permits π' = pm_permits π → acted g m' th' π π') as Hlocal.
  { intros th' π' <- HT' Ep. split; rewrite ?s_with_master_id; [done|done| |rewrite Ep; by left].
    intros π0 _. by split. }
  assert (tinv g (th_with_batches (λ _, th_batches th) th) π) as Hsame by (by apply (tinv_thread g th)).
  destruct a as [| |X c|e|rs|rs|b|b|b|path size sl|t|sl|key path v|base size|base| |path v| | | | | |addr|ms|];
    cbn in E, Ha |- *; try done; try (simplify_eq; (split; [done|]); by apply Hlocal).
  - simplify_eq. split; [by apply HT|]. apply Hlocal; [done| |done]. by apply (observe_tinv cfg hash).
  - apply bind_Some in E as ([x1 m1] & Es & E). simplify_eq. destruct (serve_ok c o g th π x m' i) as [Hm [A1 A2 A3 A4]]; try done.
    split; [done|]. split; [done|by apply (tinv_thread _ th)|done|done].
  - destruct Ha as (Ha & El & Es & ->). destruct (or_flag o); simplify_eq.
    + split; [intros b [= <-]; apply (Forall2_length _ _ _ (ti_transfers _ _ _ _ HT))|]. apply Hlocal; [done| |done].
      apply (tinv_thread g (th_with_batches (λ bts, bts ++ [new_batch (Some (s_clock g + minute)) (requests_of tr)]) th)); [done..|].
      apply push_tinv; [done..| |done]. rewrite El. by exists (s_clock g + minute).
    + split; [done|]. by apply Hlocal.
  - destruct Ha as (Ha & El & Es & ->). simplify_eq. split; [apply (Forall2_length _ _ _ (ti_transfers _ _ _ _ HT))|]. apply Hlocal; [done| |done].
    apply (tinv_thread g (th_with_batches (λ bts, bts ++ [new_batch None (requests_of tr)]) th)); [done..|].
    apply push_tinv; [done..| |done]. by rewrite El.
  - apply bind_Some in E as (bt & Hb & E). destruct (poll_fair _ _ _) eqn:Ef; [|done]. simplify_eq. split; [done|]. apply Hlocal; [done| |done].
    eapply settle_tinv; [done|exact Hb|]. intros e He. by eapply poll_settles.
  - apply bind_Some in E as (bt & Hb & E). destruct (forallb _ _) eqn:Ef; [|done]. simplify_eq. split; [done|]. apply Hlocal; [done| |done].
    eapply settle_tinv; [done|exact Hb|]. intros e [= <-]. rewrite decide_True by done. rewrite forallb_forall in Ef.
    apply Forall_forall. intros t Ht. by apply Ef, list_elem_of_In.
  - simplify_eq. split; [done|]. apply Hlocal; [done| |done].
    apply (tinv_thread g (th_with_batches (alter stop_batch b) th)); [done..|].
    apply alter_tinv; [done|intros; apply settle_side|]. intros bt tr' _ HTr. apply settle_inv; [|by apply stop_inv].
    intros e [= <-]. rewrite decide_False by done. done.
Qed.
End acts.

(** * One byte moved by the transfer engine

    A byte that is written belongs to a replica its operation has the permit for, so it is
    no byte anybody reads or writes; a byte that is read goes to memory of its own. *)

Lemma job_sides j : gets j ≠ [] → puts j = [].
Proof. by destruct j. Qed.

Lemma slice_other j x y x' y' k sl s k' sl' s' :
  job_ok j → gets j !! x = Some (k, sl) → sl !! y = Some s → gets j !! x' = Some (k', sl') → sl' !! y' = Some s' → (x, y) ≠ (x', y') →
  slices_apart s s'.
Proof.
  intros Hj Hx Hy Hx' Hy' Hne. eapply (jo_apart _ Hj (place snd (gets j) x y) (place snd (gets j) x' y'));
    [by eapply place_lookup..|]. intros E. by apply (place_inj _ _ _ _ _ _ (k, sl) (k', sl') s s') in E as [-> ->].
Qed.

Lemma reads_as_same mem mem' ths k sl :
  (∀ y s j, sl !! y = Some s → 0 <= j < slice_size s → mem' (ptr s + j) = mem (ptr s + j)) →
  reads_as mem ths k sl → reads_as mem' ths k sl.
Proof.
  intros Hs (mem0 & sl0 & Hp & HF). exists mem0, sl0. split; [done|]. rewrite Forall2_same_length_lookup in HF |- *.
  destruct HF as [Hl HF]. split; [done|]. intros y s s0 Hy Hy0. destruct (HF y s s0 Hy Hy0) as [E Hb]. split; [done|].
  intros j Hj. rewrite <-Hb by done. apply lookup_take_Some in Hy as [Hy _]. apply (Hs y s); [done|by rewrite E].
Qed.

Lemma mirrored_mem rm mem mem' bt :
  (∀ x t j, bt_tasks bt !! x = Some t → 0 <= j < rq_length (t_request t) → mem' (rq_source (t_request t) + j) = mem (rq_source (t_request t) + j)) →
  mirrored rm mem bt → mirrored rm mem' bt.
Proof. intros Hs HM x t j Ht Hj Hr. rewrite (Hs x t j) by done. by apply (HM x t j). Qed.

(** The moved byte is the only one that changes. *)
Lemma mirrored_moved rm mem bt n t j rm' mem' :
  bt_tasks bt !! n = Some t → rm' (rq_target (t_request t)) (rq_offset (t_request t) + j) = mem' (rq_source (t_request t) + j) →
  (∀ x t' j', bt_tasks bt !! x = Some t' → 0 <= j' < rq_length (t_request t') → (x, j') ≠ (n, j) →
     rm (rq_target (t_request t')) (rq_offset (t_request t') + j') = mem (rq_source (t_request t') + j') →
     rm' (rq_target (t_request t')) (rq_offset (t_request t') + j') = mem' (rq_source (t_request t') + j')) →
  mirrored rm mem bt → mirrored rm' mem' (batch_copied n j bt).
Proof.
  intros Ht Hnew Hold HM x t' j' Ht' Hj' Hr. cbn in Ht'. destruct (decide (x = n)) as [->|Hx].
  - rewrite list_lookup_alter_eq, Ht in Ht'. cbn in Ht'. simplify_eq. cbn in *. destruct (decide (j' = j)) as [->|]; [done|].
    apply (Hold n t j'); [done|done|congruence|]. apply (HM n t j'); [done|set_solver|done].
  - rewrite list_lookup_alter_ne in Ht' by done. apply (Hold x t' j'); [done|done|congruence|]. by apply (HM x t' j').
Qed.

Section moves.
Context {A B : Type} {ops : BufferAllocator A B} {laws : BufferAllocatorLaws A B}.
Context (cfg : MasterServiceConfig) (hash : string → Z).
Implicit Types (m : Master A B) (g : System A B) (k : string) (d : Descriptor) (th : Thread) (π : Perm).

Abbreviation find := (find hash).
Abbreviation transfer_inv := (transfer_inv hash).
Abbreviation side_inv := (side_inv hash).
Abbreviation tinv := (tinv hash).
Abbreviation shared := (shared cfg hash).
Abbreviation rely := (rely hash).
Abbreviation granted := (granted hash).
Abbreviation handle_at := (handle_at hash).

(** ** A batch that still moves something *)

Record moving g th π b n j bt t tr : Prop := {
  mo_batch : th_batches th !! b = Some bt;
  mo_task : bt_tasks bt !! n = Some t;
  mo_transfer : pm_transfers π !! b = Some tr;
  mo_inv : transfer_inv g th π bt tr;
  mo_range : 0 <= j < rq_length (t_request t);
  mo_flying : tr_status tr = Flying;
}.

Lemma move_flying g th π b n j bt t :
  tinv g th π → th_batches th !! b = Some bt → bt_tasks bt !! n = Some t → running (s_clock g) bt = true →
  0 <= j < rq_length (t_request t) → j ∉ t_copied t → ∃ tr, moving g th π b n j bt t tr.
Proof.
  intros HT Hb Ht Hr Hj Hc. pose proof (ti_transfers _ _ _ _ HT) as HF. rewrite Forall2_same_length_lookup in HF. destruct HF as [Hl HF].
  destruct (lookup_lt_is_Some_2 (pm_transfers π) b) as [tr Htr]; [rewrite <-Hl; by eapply lookup_lt_Some|].
  pose proof (HF b bt tr Hb Htr) as HI. exists tr. split; [done..|].
  pose proof (tf_status _ _ _ _ _ _ HI) as Hs. destruct (tr_status tr); cbn in Hs; [done| |congruence|];
    (rewrite Forall_lookup in Hs; pose proof (Hs n t Ht) as E; rewrite task_done_spec in E; by destruct Hc; apply E).
Qed.

(** The batches after the move, if the rest of what is known stays true. *)
Lemma moved_tinv g g' th π b n j bt t tr mem :
  moving g th π b n j bt t tr → tinv g th π →
  s_clock g' = s_clock g → s_master g' = s_master g → s_threads g' = s_threads g →
  (puts (th_job th) ≠ [] → ∀ z, mem z = th_memory th z) →
  (let th' := th_with_memory mem (th_with_batches (alter (batch_copied n j) b) th) in
   side_inv g' th' π (batch_copied n j bt) tr ∧
   ∀ b' bt' tr', b' ≠ b → th_batches th !! b' = Some bt' → pm_transfers π !! b' = Some tr' → transfer_inv g th π bt' tr' →
     side_inv g' th' π bt' tr') →
  tinv g' (th_with_memory mem (th_with_batches (alter (batch_copied n j) b) th)) π.
Proof.
  intros HM [T1 T2 T3 T4 T5 T6 T7] Ec Em Et Hk [Hown Hoth]. pose proof (mo_inv _ _ _ _ _ _ _ _ _ HM) as [I1 I2 I3 I4].
  split; cbn; rewrite ?Em, ?Ec; try done.
  - rewrite Forall2_same_length_lookup in T5 |- *. destruct T5 as [Hl T5]. split; [by rewrite length_alter|].
    intros b' bt' tr' Hb' Htr'. destruct (decide (b' = b)) as [->|Hb].
    + rewrite list_lookup_alter_eq, (mo_batch _ _ _ _ _ _ _ _ _ HM) in Hb'. cbn in Hb'. simplify_eq.
      rewrite (mo_transfer _ _ _ _ _ _ _ _ _ HM) in Htr'. simplify_eq. split; [|by rewrite Ec|by rewrite Ec, (mo_flying _ _ _ _ _ _ _ _ _ HM)|done].
      cbn. by rewrite fmap_alter_same.
    + rewrite list_lookup_alter_ne in Hb' by done. pose proof (T5 b' bt' tr' Hb' Htr') as HI. pose proof HI as [J1 J2 J3 J4].
      split; rewrite ?Ec; [done..|]. by apply (Hoth b').
  - intros Hp z. rewrite Hk by done. by apply T7.
Qed.

(** ** Reads *)

Lemma read_mem th x k sl y s j c k' sl' s' x' y' j' :
  job_ok (th_job th) → gets (th_job th) !! x = Some (k, sl) → sl !! y = Some s → 0 <= j < slice_size s →
  gets (th_job th) !! x' = Some (k', sl') → sl' !! y' = Some s' → 0 <= j' < slice_size s' → (x, y, j) ≠ (x', y', j') →
  poke (ptr s + j) c (th_memory th) (ptr s' + j') = th_memory th (ptr s' + j').
Proof.
  intros Hj Hx Hy Hr Hx' Hy' Hr' Hne. unfold poke. case_decide as E; [|done]. exfalso.
  destruct (decide ((x, y) = (x', y'))) as [[= <- <-]|Hxy]; [simplify_eq; apply Hne; repeat f_equal; lia|].
  destruct (slice_other _ _ _ _ _ _ _ _ _ _ _ Hj Hx Hy Hx' Hy' Hxy); lia.
Qed.

(** The slice behind a task that reads. *)
Lemma read_task g th π bt tr x k t y tk :
  transfer_inv g th π bt tr → tr_side tr = Reading x k t → bt_tasks bt !! y = Some tk →
  ∃ s, tr_slices tr !! y = Some s ∧ rq_source (t_request tk) = ptr s ∧ rq_length (t_request tk) = slice_size s ∧ rq_opcode (t_request tk) = READ.
Proof.
  intros HI Es Ht. destruct (task_handle _ _ _ _ _ _ _ _ HI Ht) as (h & s & Hh & Hs & Er). exists s. rewrite Er, Es. split_and!; [done..| |done]. cbn.
  pose proof (tf_side _ _ _ _ _ _ HI) as H4. unfold ClientInv.side_inv in H4. rewrite Es in H4. destruct H4 as (_ & Hsz & _).
  unfold sized in Hsz. apply (f_equal (lookup y)) in Hsz. rewrite !list_lookup_fmap, Hh in Hsz.
  rewrite lookup_take_lt in Hsz by (by eapply lookup_lt_Some). rewrite Hs in Hsz. cbn in Hsz. congruence.
Qed.

Lemma read_tinv g th π b n j bt t tr :
  moving g th π b n j bt t tr → tinv g th π → rq_opcode (t_request t) = READ →
  tinv g (th_with_memory (poke (rq_source (t_request t) + j) (s_remote g (rq_target (t_request t)) (rq_offset (t_request t) + j)) (th_memory th))
    (th_with_batches (alter (batch_copied n j) b) th)) π.
Proof.
  intros HM HT Hop. pose proof HM as [M1 M2 M3 M4 M5 M6]. pose proof (ti_job _ _ _ _ HT) as Hj.
  destruct (tr_side tr) as [k0 n0|x k dl] eqn:Es.
  { destruct (task_handle _ _ _ _ _ _ _ _ M4 M2) as (h & s & _ & _ & Er). rewrite Er, Es in Hop. done. }
  destruct (read_task _ _ _ _ _ _ _ _ _ _ M4 Es M2) as (s & Hs & Esrc & Elen & _). pose proof (tf_side _ _ _ _ _ _ M4) as H4.
  unfold ClientInv.side_inv in H4. rewrite Es in H4. destruct H4 as (Hx & Hsz & H4). rewrite M6 in H4. cbn in H4.
  assert (gets (th_job th) ≠ []) as Hg by (intros E; by rewrite E in Hx).
  set (mem := poke _ _ _). assert (∀ x' k' sl' y' s' j', gets (th_job th) !! x' = Some (k', sl') → sl' !! y' = Some s' → 0 <= j' < slice_size s' →
    (x, n, j) ≠ (x', y', j') → mem (ptr s' + j') = th_memory th (ptr s' + j')) as Hmem.
  { intros. unfold mem. rewrite Esrc. eapply (read_mem th x k (tr_slices tr) n); [done|done|done|lia|done..]. }
  eapply moved_tinv; [done..|by rewrite job_sides|]. cbv zeta. split.
  - unfold ClientInv.side_inv. rewrite Es, M6. cbn. split_and!; [done..|]. intros Ht. destruct (H4 Ht) as [HL Hmir]. split; [done|].
    eapply mirrored_moved; [exact M2| | |exact Hmir].
    + cbn. unfold mem, poke. by rewrite decide_True.
    + cbn. intros y t' j' Ht' Hj' Hne E. rewrite E. destruct (read_task _ _ _ _ _ _ _ _ _ _ M4 Es Ht') as (s' & Hs' & Esrc' & Elen' & _).
      rewrite Esrc'. symmetry. eapply Hmem; [done..|lia|congruence].
  - intros b' bt' tr' Hb Hbt' Htr' HI. pose proof (tf_side _ _ _ _ _ _ HI) as J4. unfold ClientInv.side_inv in *. cbn.
    destruct (tr_side tr') as [k1 n1|x1 k1 t1] eqn:Es'; [destruct J4 as (Hin & _); rewrite job_sides in Hin by done; by apply elem_of_nil in Hin|].
    assert (x ≠ x1) as Hxx.
    { intros ->. pose proof (ti_slots _ _ _ _ HT) as Hnd. eapply Hb, NoDup_lookup; [exact Hnd|rewrite list_lookup_fmap, Htr'; cbn; by rewrite Es'|
        rewrite list_lookup_fmap, M3; cbn; by rewrite Es]. }
    destruct J4 as (Hx1 & Hsz1 & J4). split_and!; [done..|]. case_decide.
    + eapply reads_as_same; [|done]. intros y s' j' Hs' Hj'. eapply Hmem; [done..|congruence].
    + intros Ht. destruct (J4 Ht) as [HL Hmir]. split; [done|]. eapply mirrored_mem; [|exact Hmir]. intros y t' j' Ht' Hj'.
      destruct (read_task _ _ _ _ _ _ _ _ _ _ HI Es' Ht') as (s' & Hs' & Esrc' & Elen' & _). rewrite Esrc'. eapply Hmem; [done..|lia|congruence].
Qed.

(** ** Writes *)

Lemma granted_handle m k ds n d x h : granted m k ds → ds !! n = Some d → handles_of d !! x = Some h → handle_at m k n x h.
Proof.
  intros (o & Ho & _ & _ & ->) Hn Hx. rewrite list_lookup_fmap in Hn. apply fmap_Some in Hn as (r & Hr & ->). by exists o, r.
Qed.

Lemma poke_other g k n x h k' n' x' h' j c z :
  shared g → handle_at (s_master g) k n x h → 0 <= j < d_size h → handle_at (s_master g) k' n' x' h' → (k, n, x) ≠ (k', n', x') →
  d_buffer_address h' <= z < d_buffer_address h' + d_size h' →
  poke_remote (d_transport_endpoint h) (d_buffer_address h + j) c (s_remote g) (d_transport_endpoint h') z = s_remote g (d_transport_endpoint h') z.
Proof.
  intros HS Hh Hj Hh' Hne Hz. unfold poke_remote. case_decide as E; [|done]. destruct E as [Ee ->]. exfalso.
  destruct (handles_apart hash _ _ _ _ _ _ _ _ _ (shared_minv cfg hash g HS) (shared_fresh cfg hash g HS) (sh_apart _ _ _ HS) Hh Hh' Hne (eq_sym Ee)); lia.
Qed.

Lemma stored_bytes rm rm' ths k d : same_bytes rm rm' d → stored_as rm ths k d → stored_as rm' ths k d.
Proof.
  intros HB (mem & sl & Hp & Hsz & Hh). exists mem, sl. split_and!; [done..|]. intros x h s Hx Hs j Hj. rewrite <-(Hh x h s Hx Hs j Hj).
  apply (HB x h); [done|lia].
Qed.

Section write.
Context g k (ds : list Descriptor) (n : nat) d (x : nat) (h : BufferDescriptor) (j : Z) (c : ascii).
Context (HS : shared g) (HG : granted (s_master g) k ds) (Hn : ds !! n = Some d) (Hx : handles_of d !! x = Some h) (Hj : 0 <= j < d_size h).

Abbreviation rm' := (poke_remote (d_transport_endpoint h) (d_buffer_address h + j) c (s_remote g)).

Lemma write_bytes k' n' d' :
  (∀ x' h', handles_of d' !! x' = Some h' → handle_at (s_master g) k' n' x' h') → (k', n') ≠ (k, n) → same_bytes (s_remote g) rm' d'.
Proof using HS HG Hn Hx Hj laws.
  intros Hh' Hne x' h' z Hx' Hz. eapply poke_other; [done|by eapply granted_handle|done|by apply Hh'|congruence|done].
Qed.

Lemma write_complete k' o r :
  find (s_master g) k' = Some o → r ∈ replicas o → status_ r = COMPLETE → same_bytes (s_remote g) rm' (get_descriptor (world_ (s_master g)) r).
Proof using HS HG Hn Hx Hj laws.
  intros Ho [n' Hr]%list_elem_of_lookup Hc. apply (write_bytes k' n'); [intros x' h' Hx'; by exists o, r|]. intros [= -> ->].
  destruct HG as (o' & Ho' & _ & Hw & Eds). rewrite Ho in Ho'. apply (inj Some) in Ho' as <-. rewrite Forall_lookup in Hw.
  destruct (Hw n r Hr) as [_ Hp]. congruence.
Qed.

Lemma write_shared : shared (s_with_remote rm' g).
Proof using HS HG Hn Hx Hj laws.
  destruct HS as [S1 S2 S3 S4 S5]. split; [done..|]. cbn. intros k' o r Ho Hr Hc. eapply stored_bytes; [by eapply write_complete|by eapply S5].
Qed.

Lemma write_rely π0 : pm_permits π0 !! k = None → rely π0 g (s_with_remote rm' g).
Proof using HS HG Hn Hx Hj laws.
  intros H0. split; cbn; [done|done| |].
  - intros k' ds' Hk' HG'. split; [done|]. intros d' [n' Hn']%list_elem_of_lookup. apply (write_bytes k' n'); [|congruence].
    intros x' h'. by apply (granted_handle _ _ ds').
  - intros k' d' t Ht HL. split; [done|]. destruct HL as (o & r & Ho & Hr & Hc & _ & ->). by eapply write_complete.
Qed.
End write.

Lemma write_tinv g th π b n j bt t tr :
  shared g → moving g th π b n j bt t tr → tinv g th π → rq_opcode (t_request t) = WRITE →
  let rm := poke_remote (rq_target (t_request t)) (rq_offset (t_request t) + j) (th_memory th (rq_source (t_request t) + j)) (s_remote g) in
  shared (s_with_remote rm g) ∧ tinv (s_with_remote rm g) (th_with_batches (alter (batch_copied n j) b) th) π ∧
  ∀ π0, (∀ k, is_Some (pm_permits π !! k) → pm_permits π0 !! k = None) → rely π0 g (s_with_remote rm g).
Proof.
  intros HS HM HT Hop rm. pose proof HM as [M1 M2 M3 M4 M5 M6].
  destruct (task_handle _ _ _ _ _ _ _ _ M4 M2) as (h & s & Hh & Hs & Er). unfold rm. clear rm. rewrite Er in Hop, M5 |- *. cbn in Hop, M5 |- *.
  destruct (tr_side tr) as [k n0|] eqn:Es; [|done]. pose proof (tf_side _ _ _ _ _ _ M4) as H4. unfold ClientInv.side_inv in H4. rewrite Es in H4.
  destruct H4 as (Hin & Hsz & Hf & H4). destruct (Hf M6) as [ds Hk]. destruct (H4 ds Hk) as [Hn Hmir]. pose proof (ti_permits _ _ _ _ HT k ds Hk) as HG.
  split; [by eapply write_shared|]. split; [|intros π0 H0; eapply write_rely; [done..|]; by apply H0].
  apply (tinv_thread hash _ (th_with_memory (th_memory th) (th_with_batches (alter (batch_copied n j) b) th))); [done..|].
  eapply moved_tinv; [done..|]. cbv zeta. split.
  - unfold ClientInv.side_inv. rewrite Es. cbn. split_and!; [done..|]. intros ds' Hk'. rewrite Hk in Hk'. simplify_eq. split; [done|].
    eapply mirrored_moved; [exact M2| | |exact Hmir]; [rewrite Er; cbn; unfold poke_remote; by rewrite decide_True|].
    intros x t' j' Ht' Hj' Hne <-. destruct (task_handle _ _ _ _ _ _ _ _ M4 Ht') as (h' & s' & Hh' & _ & Er'). rewrite Er' in *. cbn in *.
    destruct (decide (x = n)) as [->|Hx]; [|eapply (poke_other g k n0 n h k n0 x h'); [done|by eapply granted_handle|done|by eapply granted_handle|congruence|lia]].
    rewrite Hh in Hh'. simplify_eq. unfold poke_remote. rewrite decide_False; [done|]. intros [_ E]. apply Hne. f_equal. lia.
  - intros b' bt' tr' Hb Hbt' Htr' HI. pose proof HI as [J1 J2 J3 J4]. unfold ClientInv.side_inv in *. cbn.
    destruct (tr_side tr') as [k1 n1|x1 k1 t1] eqn:Es'.
    + destruct J4 as (? & ? & ? & J4). split_and!; [done..|]. intros ds1 Hk1. destruct (J4 ds1 Hk1) as [Hn1 Hmir1]. split; [done|].
      eapply mirrored_same; [exact HI| |exact Hmir1]. eapply (write_bytes g k ds n0 (tr_replica tr) n h j _ HS HG Hn Hh M5 k1 n1).
      * intros x' h'. apply (granted_handle _ _ ds1); [by apply (ti_permits _ _ _ _ HT)|done].
      * intros [= -> ->]. pose proof (ti_slots _ _ _ _ HT) as Hnd. eapply Hb, NoDup_lookup; [exact Hnd|rewrite list_lookup_fmap, Htr'; cbn; by rewrite Es'|
          rewrite list_lookup_fmap, M3; cbn; by rewrite Es].
    + destruct J4 as (? & ? & J4). split_and!; [done..|]. case_decide; [done|]. intros Ht. destruct (J4 Ht) as [HL Hmir1]. split; [done|].
      eapply mirrored_same; [exact HI| |exact Hmir1]. destruct HL as (o & r & Ho & Hr & Hc & _ & ->). by eapply write_complete.
Qed.
End moves.
