(* ===== verification/ClientSpecs.v ===== *)
(** * ClientSpecs: transfers of one replica

    Every way [TransferSubmitter] moves a replica, and every way [TransferFuture] waits, does
    only what the operation may do; a result of OK means that all bytes were moved, and any
    other result that none is moved any more. *)

From S2P Require Import Prelude Types BufferAllocator Replica MasterService MasterPut StorageBackend ClientProg TransferTask StoreClient ClientSystem ClientHeld ClientGhost.
Open Scope Z_scope.

(** ** What an operation learns *)

Definition good (tr : Transfer) : Prop := tr_status tr = Landed ∨ tr_status tr = Verified.

Record further (tr tr' : Transfer) : Prop := {
  fu_side : tr_side tr' = tr_side tr;
  fu_replica : tr_replica tr' = tr_replica tr;
  fu_slices : tr_slices tr' = tr_slices tr;
  fu_limit : tr_limit tr' = NoLimit ↔ tr_limit tr = NoLimit;
  fu_seen s : tr_limit tr = Seen s → tr_limit tr' = Seen s;
  fu_verified : tr_status tr = Verified → tr_status tr' = Verified;
  fu_landed : good tr → good tr';
  fu_writing k n : tr_side tr = Writing k n → tr_status tr ≠ Verified → tr_status tr' ≠ Verified;
  fu_grounded : tr_status tr ≠ Flying → tr_status tr' ≠ Flying;
}.

#[export] Instance further_preorder : PreOrder further.
Proof.
  split; [by intros tr; split|]. intros t1 t2 t3 [A1 A2 A3 A4 A4' A5 A6 A7 A8] [B1 B2 B3 B4 B4' B5 B6 B7 B8].
  split; [congruence..|by rewrite B4|auto|auto|auto| |auto]. intros k n E H. eapply B7; [by rewrite A1|by eapply A7].
Qed.

(** Times seen are in the past. *)
Definition timely π : Prop := ∀ b tr s, pm_transfers π !! b = Some tr → tr_limit tr = Seen s → s <= pm_now π.

Record evolved (π π' : Perm) : Prop := {
  ev_permits : pm_permits π' = pm_permits π;
  ev_leases : pm_leases π' = pm_leases π;
  ev_transfers : Forall2 further (pm_transfers π) (pm_transfers π');
  ev_timely : timely π → timely π';
}.

#[export] Instance evolved_preorder : PreOrder evolved.
Proof.
  split; [intros π; split; [done|done|reflexivity|done]|].
  intros π1 π2 π3 [A1 A2 A3 A4] [B1 B2 B3 B4]. split; [congruence..|by etrans|auto].
Qed.

Lemma evolved_lookup π π' b tr : evolved π π' → pm_transfers π !! b = Some tr → ∃ tr', pm_transfers π' !! b = Some tr' ∧ further tr tr'.
Proof. intros HE Hb. destruct (Forall2_lookup_l _ _ _ _ _ (ev_transfers _ _ HE) Hb) as (tr' & ? & ?). eauto. Qed.

Lemma evolved_lookup' π π' b tr' : evolved π π' → pm_transfers π' !! b = Some tr' → ∃ tr, pm_transfers π !! b = Some tr ∧ further tr tr'.
Proof. intros HE Hb. destruct (Forall2_lookup_r _ _ _ _ _ (ev_transfers _ _ HE) Hb) as (tr & ? & ?). eauto. Qed.

Lemma evolved_grounded π π' k : evolved π π' → grounded k (pm_transfers π) → grounded k (pm_transfers π').
Proof.
  intros HE Hg b tr' n Hb Es. destruct (evolved_lookup' _ _ _ _ HE Hb) as (tr & Htr & HF). apply (fu_grounded _ _ HF).
  apply (Hg b tr n); [done|]. by rewrite <-(fu_side _ _ HF).
Qed.

Lemma evolved_written π π' k n d sl : evolved π π' → written_at k n d sl (pm_transfers π) → written_at k n d sl (pm_transfers π').
Proof.
  intros HE (b & tr & Hb & Es & Ed & Esl & El). destruct (evolved_lookup _ _ _ _ HE Hb) as (tr' & Htr & [F1 F2 F3 _ _ _ F6 F7 _]).
  exists b, tr'. rewrite F1, F2, F3. split_and!; [done..|]. destruct F6 as [?|H]; [by left|done|]. destruct (F7 k n Es); [congruence|done].
Qed.

Lemma evolved_slots π π' : evolved π π' → slot ∘ tr_side <$> pm_transfers π' = slot ∘ tr_side <$> pm_transfers π.
Proof.
  intros HE. pose proof (ev_transfers _ _ HE) as HF. revert HF. generalize (pm_transfers π) (pm_transfers π'). intros l l' HF.
  induction HF as [|tr tr' l l' H HF IH]; [done|]. cbn. rewrite IH, (fu_side _ _ H). done.
Qed.

Lemma see_further t tr : further tr (see t tr).
Proof.
  unfold see. destruct tr as [sd d sl l st]. destruct st, l, sd; cbn; repeat case_match; split; cbn; unfold good; cbn; naive_solver.
Qed.

Lemma settle_further r tr : further tr (settle r tr).
Proof.
  unfold settle. destruct tr as [sd d sl l st]. destruct st, r; cbn; repeat case_decide; split; cbn; unfold good; cbn; naive_solver.
Qed.

Lemma Forall2_alter_refl {X} (R : X → X → Prop) `{!Reflexive R} f (l : list X) i : (∀ x, R x (f x)) → Forall2 R l (alter f i l).
Proof. intros Hf. revert i. induction l as [|x l IH]; intros [|i]; cbn; constructor; done || apply IH. Qed.

Lemma settle_limit r tr : tr_limit (settle r tr) = tr_limit tr.
Proof. unfold settle. destruct (tr_status tr), r; try done. by case_decide. Qed.

Lemma settle_evolved r b π : evolved π (pm_with_transfers (alter (settle r) b) π).
Proof.
  split; cbn; [done|done|apply Forall2_alter_refl; [apply _|apply settle_further]|].
  intros Ht b' tr s Hb Hl. cbn in Hb. destruct (decide (b' = b)) as [->|Hne].
  - rewrite list_lookup_alter_eq in Hb. apply fmap_Some in Hb as (tr0 & Hb & ->). rewrite settle_limit in Hl. by eapply Ht.
  - rewrite list_lookup_alter_ne in Hb by done. by eapply Ht.
Qed.

Lemma see_limit t tr s : tr_limit (see t tr) = Seen s → s = t ∨ tr_limit tr = Seen s.
Proof. unfold see. destruct tr as [sd d sl l st]. destruct st, l, sd; cbn; repeat case_match; naive_solver. Qed.

Lemma observe_evolved t π : pm_now π <= t → evolved π (pm_observe t π).
Proof.
  intros Ht. split; cbn; [done|done| |].
  - generalize (pm_transfers π). intros l. induction l as [|tr l IH]; cbn; constructor; [apply see_further|done].
  - intros Hp b tr s Hb Hl. cbn in *. rewrite list_lookup_fmap in Hb. apply fmap_Some in Hb as (tr0 & Hb & ->).
    destruct (see_limit _ _ _ Hl) as [->|E]; [done|]. pose proof (Hp _ _ _ Hb E). lia.
Qed.

(** ** Waiting *)

(** Batch [b] of [f], with its limit. *)
Definition tracks (f : TransferFuture) (b : nat) (l : Limit) : Prop :=
  f = EngineOperation b ∧ l ≠ NoLimit ∨ f = MemcpyOperation b ∧ l = NoLimit.

(** Batch [b] is over, with all bytes moved if [ok]. *)
Definition over (b : nat) (ok : Prop) π : Prop :=
  ∃ tr, pm_transfers π !! b = Some tr ∧ tr_status tr ≠ Flying ∧ (ok → good tr).

Lemma over_evolved b ok π π' : evolved π π' → over b ok π → over b ok π'.
Proof.
  intros HE (tr & Hb & Hf & Hg). destruct (evolved_lookup _ _ _ _ HE Hb) as (tr' & Htr & HF). exists tr'. split_and!; [done|by apply HF|].
  intros Hok. by apply HF, Hg.
Qed.

Section specs.
Context (j : Job).
Abbreviation wp := (wp j).
Implicit Types (π : Perm).

Lemma settle_over e tr : tr_status (settle (Some e) tr) ≠ Flying ∧ (e = EC.OK → good (settle (Some e) tr)).
Proof. unfold settle, good. destruct (tr_status tr) eqn:Es; cbn; rewrite ?Es; repeat case_decide; cbn; rewrite ?Es; naive_solver. Qed.

Lemma check_spec b π tr :
  pm_transfers π !! b = Some tr →
  wp (Engine.check_task_status b) π (λ r π', evolved π π' ∧ (∀ e, r = Some e → over b (e = EC.OK) π') ∧ pm_now π' = pm_now π ∧ (timely π → timely π')).
Proof.
  intros Hb. unfold Engine.check_task_status. apply wp_bind. apply (wp_perform _ _ tr); [done|]. intros ss _. apply wp_ret. cbn.
  pose proof (settle_evolved (Engine.check_tasks ss true false) b π) as HE. split_and!; [done| |done|apply HE].
  intros e Ee. exists (settle (Some e) tr). cbn. rewrite list_lookup_alter_eq, Hb, Ee. split; [done|]. apply settle_over.
Qed.

Lemma wait_loop_spec polls b start π tr :
  timely π → pm_transfers π !! b = Some tr → (tr_status tr = Flying → ∃ s, tr_limit tr = Seen s ∧ s <= start) →
  wp (Engine.wait_loop polls b start) π (λ e π', evolved π π' ∧ over b (e = EC.OK) π').
Proof.
  revert π tr. induction polls as [|polls IH]; intros π tr Ht Hb Hl; cbn [Engine.wait_loop].
  { exists tr. split; [|done]. done. }
  apply wp_bind. apply (wp_perform _ _ tr); [done|]. intros now Hnow. cbn [after may] in Hnow |- *.
  pose proof (observe_evolved now π Hnow) as HE. assert (pm_transfers (pm_observe now π) !! b = Some (see now tr)) as Hb1
    by (cbn; by rewrite list_lookup_fmap, Hb).
  destruct (Z.ltb_spec (Engine.timeout_seconds * Engine.kOneSecondInNano) (now - start)) as [Hto|_].
  - apply wp_ret. split; [done|]. exists (see now tr). split_and!; [done| |done]. unfold see.
    destruct (tr_status tr) eqn:Es; [|destruct (tr_side tr); try case_match; cbn; congruence|congruence..].
    destruct (Hl eq_refl) as (s & -> & Hle). assert (s + minute <? now = true) as -> by (apply Z.ltb_lt; unfold minute; lia). done.
  - apply wp_bind. eapply wp_mono; [|by eapply check_spec]. intros r π2 (HE2 & Hr & _ & _).
    destruct r as [e|]; [apply wp_ret; split; [by etrans|by apply Hr]|].
    destruct (evolved_lookup _ _ _ _ HE2 Hb1) as (tr2 & Hb2 & HF2).
    eapply wp_mono; [|apply (IH π2 tr2); [by apply HE2, HE|done|]]; [intros e π3 [HE3 Ho]; split; [etrans; [exact HE|]; by etrans|done]|].
    intros Hfl. assert (further tr tr2) as HF by (etrans; [apply see_further|done]).
    destruct (decide (tr_status tr = Flying)) as [Hf1|Hf1]; [|by destruct (fu_grounded _ _ HF Hf1)].
    destruct (Hl Hf1) as (s & Es & Hle). exists s. split; [by apply HF|done].
Qed.

Lemma wait_spec polls b π tr :
  timely π → pm_transfers π !! b = Some tr → tr_limit tr ≠ NoLimit →
  wp (Engine.wait polls b) π (λ e π', evolved π π' ∧ over b (e = EC.OK) π').
Proof.
  intros Ht Hb Hl. unfold Engine.wait. apply wp_bind. eapply wp_mono; [|by eapply check_spec]. intros r π1 (HE1 & Hr1 & _ & Ht1).
  destruct r as [e|]; [apply wp_ret; by auto|]. destruct (evolved_lookup _ _ _ _ HE1 Hb) as (tr1 & Hb1 & HF1).
  apply wp_bind. eapply wp_mono; [|by eapply check_spec]. intros r π2 (HE2 & Hr2 & _ & Ht2).
  destruct r as [e|]; [apply wp_ret; split; [by etrans|by auto]|]. destruct (evolved_lookup _ _ _ _ HE2 Hb1) as (tr2 & Hb2 & HF2).
  apply wp_bind. apply (wp_perform _ _ tr); [done|]. intros now Hnow. cbn [after may] in Hnow |- *.
  pose proof (observe_evolved now π2 Hnow) as HE3. eapply wp_mono; [|apply (wait_loop_spec _ _ _ _ (see now tr2))].
  - intros e π4 [HE4 Ho]. split; [|done]. etrans; [exact HE1|]. etrans; [exact HE2|]. by etrans.
  - by apply HE3, Ht2, Ht1.
  - cbn. by rewrite list_lookup_fmap, Hb2.
  - intros Hfl. unfold see in *. destruct (tr_status tr2) eqn:Es; [|by destruct (tr_side tr2); try case_match; cbn in *; congruence|by rewrite Es in Hfl..].
    destruct (tr_limit tr2) as [| |s] eqn:El; [|by exists now|].
    + destruct Hl. rewrite <-(fu_limit _ _ HF1), <-(fu_limit _ _ HF2). done.
    + pose proof (Ht2 (Ht1 Ht) _ _ _ Hb2 El). case_match; [done|]. exists s. split; [done|lia].
Qed.

Lemma future_get_spec polls f b l π tr :
  timely π → pm_transfers π !! b = Some tr → tracks f b l → (l = NoLimit ↔ tr_limit tr = NoLimit) →
  wp (future_get polls f) π (λ e π', evolved π π' ∧ over b (e = EC.OK) π').
Proof.
  intros Ht Hb [[-> Hl]|[-> ->]] El; cbn [future_get]; [eapply wait_spec; [done..|]; by rewrite <-El|].
  apply wp_bind. apply (wp_perform _ _ tr); [done|]. intros [] _. apply wp_ret. cbn. split; [apply settle_evolved|].
  exists (settle (Some EC.OK) tr). cbn. rewrite list_lookup_alter_eq, Hb. split; [done|]. destruct (settle_over EC.OK tr). auto.
Qed.

Lemma future_drop_spec f b l π :
  tracks f b l → wp (future_drop f) π (λ _ π', evolved π π' ∧ (l ≠ NoLimit → is_Some (pm_transfers π !! b) → over b False π')).
Proof.
  intros [[-> Hl]|[-> ->]]; cbn [future_drop].
  - apply (wp_perform _ _ (mkTransfer (Reading 0 EmptyString 0) (mkDescriptor (MemoryDescriptor []) COMPLETE) [] NoLimit Dead)); [done|].
    intros [] _. cbn. split; [apply settle_evolved|]. intros _ [tr Hb]. exists (settle (Some EC.TRANSFER_FAIL) tr). cbn.
    rewrite list_lookup_alter_eq, Hb. split; [done|]. split; [apply settle_over|done].
  - by apply wp_ret.
Qed.

(** ** Submitting *)

Definition pushed (tr : Transfer) π : Perm := pm_with_transfers (λ trs, trs ++ [tr]) π.

Lemma pushed_lookup tr π : pm_transfers (pushed tr π) !! length (pm_transfers π) = Some tr.
Proof. cbn. rewrite lookup_app_r by lia. by rewrite Nat.sub_diag. Qed.

Lemma pushed_timely tr π : (∀ s, tr_limit tr ≠ Seen s) → timely π → timely (pushed tr π).
Proof.
  intros Hl Ht b tr' s Hb Es. cbn in *. apply lookup_app_Some in Hb as [Hb|[_ Hb]]; [by eapply Ht|].
  apply list_lookup_singleton_Some in Hb as [_ <-]. by destruct (Hl s).
Qed.

Lemma validate_sized hs sl : validateTransferParams hs sl false = true → sized hs (take (length hs) sl).
Proof.
  unfold validateTransferParams. destruct hs as [|h hs']; [done|]. generalize (h :: hs'). clear h hs'. intros hs.
  destruct (Nat.ltb_spec (length sl) (length hs)) as [|Hl]; [done|]. revert sl Hl.
  induction hs as [|h hs IH]; intros [|s sl] Hl; cbn in *; try done; [lia|]. rewrite andb_true_iff, Z.eqb_eq. intros [E HF].
  unfold sized. cbn. rewrite E. f_equal. apply IH; [lia|done].
Qed.

Lemma with_memory_all hs sl : (∀ s, s ∈ sl → ptr s ≠ 0) → with_memory hs sl = zip hs sl.
Proof.
  intros Hp. apply filter_all. intros [h s] Hin. cbn. apply Hp. apply elem_of_zip_r in Hin. done.
Qed.

Lemma requests_zip op hs sl : (λ e : BufferDescriptor * Slice, request op e.1 e.2) <$> zip hs sl = zip_with (request op) hs sl.
Proof. revert sl. induction hs as [|h hs IH]; intros [|s sl]; cbn; [done..|]. f_equal. apply IH. Qed.

Lemma open_all_spec hss π (Q : bool → Perm → Prop) : Q true π → Q false π → wp (open_all hss) π Q.
Proof.
  intros Ht Hf. induction hss as [|[h s] hss IH]; cbn [open_all]; [by apply wp_ret|]. case_bool_decide; [by apply wp_ret|].
  apply wp_bind. apply (wp_perform _ _ (mkTransfer (Writing EmptyString 0) (mkDescriptor (MemoryDescriptor []) COMPLETE) [] NoLimit Dead)); [done|].
  intros [] _; [done|by apply wp_ret].
Qed.

Section submit.
Context (sub : Submitter) (d : Descriptor) (sl : list Slice) (sd : Side) (π : Perm).
Context (Hmem : is_memory_replica d = true) (Hptr : ∀ s, s ∈ sl → ptr s ≠ 0).
Context (Hall : ∀ l, sized (handles_of d) (take (length (handles_of d)) sl) → transfer_allowed j (mkTransfer sd d sl l Flying) π).

Lemma submit_spec :
  wp (submit sub d sl (op_of sd)) π (λ f π',
    match f with
    | None => π' = π
    | Some f => ∃ l, tracks f (length (pm_transfers π)) l ∧ (memcpy_enabled_ sub = false → l ≠ NoLimit) ∧ (∀ s, l ≠ Seen s) ∧
        π' = pushed (mkTransfer sd d sl l Flying) π
    end).
Proof using Hmem Hptr Hall.
  unfold submit. unfold is_memory_replica, handles_of in *. destruct (descriptor_variant d) as [hs|] eqn:Ed; [|done]. clear Hmem.
  destruct (validateTransferParams hs sl false) eqn:Ev; cbn [negb]; [|by apply wp_ret]. apply validate_sized in Ev.
  assert (∀ l, (λ e : BufferDescriptor * Slice, request (op_of sd) e.1 e.2) <$> with_memory hs sl = requests_of (mkTransfer sd d sl l Flying)) as Hrq.
  { intros l. rewrite with_memory_all by done. rewrite requests_zip. unfold requests_of, handles_of. cbn. by rewrite Ed. }
  destruct (selectStrategy sub hs) eqn:Est.
  - unfold submitMemcpyOperation. apply wp_bind. apply (wp_perform _ _ (mkTransfer sd d sl NoLimit Flying)).
    + cbn [allowed]. split_and!; [by apply Hall|done|done|apply Hrq].
    + intros b ->. apply wp_ret. exists NoLimit. split_and!; [by right| |done|done]. intros Hd. unfold selectStrategy in Est. by rewrite Hd in Est.
  - unfold submitTransferEngineOperation. apply wp_bind. apply open_all_spec; [|by apply wp_ret]. unfold submitTransfer.
    apply wp_bind. apply (wp_perform _ _ (mkTransfer sd d sl Unseen Flying)).
    + cbn [allowed]. split_and!; [by apply Hall|done|done|apply Hrq].
    + intros [b|] Hb; apply wp_ret; [|done]. rewrite (Hb b eq_refl). exists Unseen. split_and!; [by left|done|done|done].
  - by apply wp_ret.
  - by apply wp_ret.
Qed.
End submit.

Lemma TransferData_spec subm polls d sl sd π :
  is_memory_replica d = true → (∀ s, s ∈ sl → ptr s ≠ 0) →
  (∀ l, sized (handles_of d) (take (length (handles_of d)) sl) → transfer_allowed j (mkTransfer sd d sl l Flying) π) → timely π →
  wp (Client.TransferData subm polls d sl (op_of sd)) π (λ e π',
    π' = π ∧ e ≠ EC.OK ∨ ∃ l, evolved (pushed (mkTransfer sd d sl l Flying) π) π' ∧ over (length (pm_transfers π)) (e = EC.OK) π' ∧ timely π').
Proof.
  intros Hm Hp Ha Ht. unfold Client.TransferData. destruct subm as [sub|]; [|apply wp_ret; by left].
  apply wp_bind. eapply wp_mono; [|by apply submit_spec]. intros [f|] π1 H1; [|subst; apply wp_ret; by left].
  destruct H1 as (l & Htr & _ & Hl & ->). set (tr := mkTransfer sd d sl l Flying). assert (timely (pushed tr π)) as Ht1 by (by apply pushed_timely).
  apply wp_bind. eapply wp_mono; [|apply (future_get_spec polls f (length (pm_transfers π)) l _ tr); [done|apply pushed_lookup|done|done]].
  intros e π2 [HE2 Ho2]. apply wp_bind. eapply wp_mono; [|by eapply future_drop_spec]. intros _ π3 [HE3 _]. apply wp_ret. right. exists l.
  assert (evolved (pushed tr π) π3) as HE by (by etrans). split_and!; [done|by apply (over_evolved _ _ π2)|by apply HE].
Qed.
End specs.
