(* ===== verification/ClientOps.v ===== *)
(** * ClientOps: Get and Put of one object

    [Get] reports success only for bytes it knows were read under a valid lease, and [Put]
    completes an object only when every replica is written, and revokes it only when nothing
    of it is being written any more. *)

From S2P Require Import Prelude Types BufferAllocator Replica MasterService MasterPut StorageBackend ClientProg TransferTask StoreClient ClientSystem ClientHeld ClientGhost ClientSpecs.
Open Scope Z_scope.

(** Of use where an action needs no transfer. *)
Definition no_transfer : Transfer := mkTransfer (Reading 0 EmptyString 0) (mkDescriptor (MemoryDescriptor []) COMPLETE) [] NoLimit Dead.

(** What the answer to a query is worth. *)
Definition leases_of (k : string) (q : QueryResult) (π : Perm) : Prop :=
  ∀ d, d ∈ q_replicas q → is_memory_replica d = true ∧ (k, d, q_lease_timeout q) ∈ pm_leases π.

Lemma FindFirst_elem ds d : FindFirstCompleteReplica ds = Some d → d ∈ ds.
Proof. induction ds as [|d' ds IH]; cbn; [done|]. case_bool_decide; [intros [= ->]; left|right; by apply IH]. Qed.

Lemma see_verifies t tr x k deadline : good tr → tr_side tr = Reading x k deadline → t < deadline → tr_status (see t tr) = Verified.
Proof.
  intros [El|Ev] Es Ht; unfold see; [rewrite El, Es, (proj2 (Z.ltb_lt t deadline) Ht)|rewrite Ev]; done.
Qed.

Definition verified (x : nat) (k : string) (π : Perm) : Prop :=
  ∃ b tr deadline, pm_transfers π !! b = Some tr ∧ tr_side tr = Reading x k deadline ∧ tr_status tr = Verified.

Lemma observe_verifies t π b tr x k deadline :
  pm_transfers π !! b = Some tr → good tr → tr_side tr = Reading x k deadline → t < deadline → verified x k (pm_observe t π).
Proof.
  intros Hb Hg Es Ht. exists b, (see t tr), deadline. cbn. rewrite list_lookup_fmap, Hb. split; [done|].
  destruct (see_further t tr) as [-> _ _ _ _ _ _ _ _]. split; [done|]. by eapply see_verifies.
Qed.

Section ops.
Context (j : Job) (Hj : job_ok j).
Abbreviation wp := (wp j).
Implicit Types (π : Perm).

Lemma invoke_spec {X} (c : MasterCall (expected X)) π Q :
  call_allowed j c π → Q (inl EC.RPC_FAIL) π →
  (∀ x, call_may c π x → Q x (call_after c π x) ∧ Q (inl EC.RPC_FAIL) (call_after c π x)) → wp (invoke_rpc c) π Q.
Proof.
  intros Ha H0 Hx. unfold invoke_rpc. apply wp_bind. apply (wp_perform _ _ no_transfer); [done|]. intros [] _; [by apply wp_ret|].
  apply wp_bind. apply (wp_perform _ _ no_transfer); [done|]. intros x Hm. destruct (Hx x Hm).
  apply wp_bind. apply (wp_perform _ _ no_transfer); [done|]. by intros [] _; apply wp_ret.
Qed.

(** ** Get *)

Lemma Query_spec k π :
  pm_transfers π = [] →
  wp (Client.Query k) π (λ r π', pm_transfers π' = [] ∧ ∀ q, r = inr q → leases_of k q π').
Proof.
  intros Hn. unfold Client.Query. apply wp_bind. apply (wp_perform _ _ no_transfer); [done|]. intros t _. cbn [after].
  apply wp_bind. apply invoke_spec; [done|by apply wp_ret; cbn; rewrite Hn|]. intros [e|resp] Hm; (split; apply wp_ret; cbn; [|by rewrite Hn]).
  - by rewrite Hn.
  - rewrite Hn. split; [done|]. intros q [= <-] d Hd. cbn in *. rewrite Forall_forall in Hm. split; [by apply Hm|].
    apply elem_of_app. right. apply list_elem_of_fmap. by exists d.
Qed.

(** A lease and slices with memory allow a read. *)
Lemma reading_allowed x k sl q d l π :
  gets j !! x = Some (k, sl) → leases_of k q π → d ∈ q_replicas q → inr x ∉ slot ∘ tr_side <$> pm_transfers π →
  sized (handles_of d) (take (length (handles_of d)) sl) → transfer_allowed j (mkTransfer (Reading x k (q_lease_timeout q)) d sl l Flying) π.
Proof. intros Hx Hq Hd Hs Hsz. split; [done|]. cbn. split_and!; [done|by apply Hq|done]. Qed.

Lemma slices_memory k sl s : (k, sl) ∈ puts j ++ gets j → s ∈ sl → ptr s ≠ 0.
Proof. apply (jo_memory _ Hj). Qed.

Lemma gets_memory x k sl s : gets j !! x = Some (k, sl) → s ∈ sl → ptr s ≠ 0.
Proof. intros Hx. apply (slices_memory k). apply elem_of_app. right. by eapply list_elem_of_lookup_2. Qed.

Lemma Get_spec subm polls k sl π :
  gets j !! 0%nat = Some (k, sl) → pm_transfers π = [] → timely π →
  wp (Client.Get subm polls k sl) π (λ r π', r = inr tt → verified 0 k π').
Proof.
  intros Hx Hn Ht. unfold Client.Get. apply wp_bind. eapply wp_mono; [|by apply Query_spec]. intros [e|q] π1 [Hn1 Hq]; [by apply wp_ret|].
  specialize (Hq q eq_refl). unfold Client.get_query. destruct (FindFirstCompleteReplica _) as [d|] eqn:Ef; [|by apply wp_ret].
  apply FindFirst_elem in Ef. apply wp_bind. unfold Client.TransferRead. destruct (_ <? _); [by apply wp_ret|].
  eapply wp_mono; [|apply (TransferData_spec j subm polls d sl (Reading 0 k (q_lease_timeout q)) π1)].
  - intros e π2 HT. case_bool_decide as Ee; cbn [negb]; [subst e|by apply wp_ret].
    destruct HT as [[_ ?]|(l & HE & (tr & Hb & _ & Hg) & _)]; [done|]. apply wp_bind. apply (wp_perform _ _ no_transfer); [done|].
    intros t _. cbn [after]. unfold query_expired. destruct (Z.leb_spec (q_lease_timeout q) t) as [|Hlt]; [by apply wp_ret|]. apply wp_ret. intros _.
    eapply observe_verifies; [exact Hb|by apply Hg| |exact Hlt].
    destruct (evolved_lookup' _ _ _ _ HE Hb) as (tr0 & Hb0 & HF). rewrite pushed_lookup in Hb0. simplify_eq. by rewrite (fu_side _ _ HF).
  - by apply Hq.
  - intros s. by eapply gets_memory.
  - intros l. apply reading_allowed; [done..|]. rewrite Hn1. by apply not_elem_of_nil.
  - intros b tr s. by rewrite Hn1.
Qed.

(** ** Put *)

Lemma last_disk_None ds : Forall (λ d, is_memory_replica d = true) ds → Client.last_disk ds = None.
Proof.
  unfold Client.last_disk. intros HF. induction HF as [|d ds Hd HF IH]; cbn; [done|].
  unfold is_memory_replica in Hd. by destruct (descriptor_variant d).
Qed.

Lemma put_disk_skip storage k sl ds π (Q : unit → Perm → Prop) :
  Forall (λ d, is_memory_replica d = true) ds → Q tt π → wp (Client.put_disk storage k sl ds) π Q.
Proof. intros HF HQ. unfold Client.put_disk. rewrite last_disk_None by done. destruct storage; by apply wp_ret. Qed.

(** The first [n] replicas of [ds] are written. *)
Record putting (k : string) (sl : list Slice) (ds : list Descriptor) (n : nat) π : Prop := {
  pt_permit : pm_permits π !! k = Some ds;
  pt_timely : timely π;
  pt_grounded : grounded k (pm_transfers π);
  pt_slots s : s ∈ slot ∘ tr_side <$> pm_transfers π → ∃ n', s = inl (k, n') ∧ (n' < n)%nat;
  pt_written n' d : (n' < n)%nat → ds !! n' = Some d → written_at k n' d sl (pm_transfers π);
}.

Definition fits (sl : list Slice) (d : Descriptor) : Prop := is_memory_replica d = true ∧ sized (handles_of d) sl.

Lemma putting_next k sl ds n d l π π' :
  putting k sl ds n π → ds !! n = Some d →
  evolved (pushed (mkTransfer (Writing k n) d sl l Flying) π) π' → over (length (pm_transfers π)) True π' → timely π' → putting k sl ds (S n) π'.
Proof.
  intros [P1 P2 P3 P4 P5] Hd HE (tr & Hb & Hf & Hg) Ht. set (tr0 := mkTransfer (Writing k n) d sl l Flying) in *.
  destruct (evolved_lookup' _ _ _ _ HE Hb) as (tr1 & Hb1 & HF). rewrite pushed_lookup in Hb1. simplify_eq.
  assert (written_at k n d sl (pm_transfers π')) as Hw.
  { exists (length (pm_transfers π)), tr. destruct HF as [F1 F2 F3 _ _ _ _ F7 _]. split_and!; [done..|].
    destruct (Hg I) as [?|E]; [done|]. by destruct (F7 k n eq_refl). }
  split; [by rewrite (ev_permits _ _ HE)|done| | |].
  - intros b tr' n' Hb' Es'. destruct (evolved_lookup' _ _ _ _ HE Hb') as (tr1 & Hb1 & HF1). cbn in Hb1.
    apply lookup_app_Some in Hb1 as [Hb1|[Hlen Hb1]].
    + apply (fu_grounded _ _ HF1). apply (P3 b tr1 n'); [done|]. by rewrite <-(fu_side _ _ HF1).
    + apply list_lookup_singleton_Some in Hb1 as [Hlen' _]. assert (b = length (pm_transfers π)) as -> by lia. rewrite Hb in Hb'. by simplify_eq.
  - intros s. rewrite (evolved_slots _ _ HE). cbn. rewrite fmap_app, elem_of_app. intros [Hs|Hs].
    + destruct (P4 s Hs) as (n' & -> & Hlt). exists n'. split; [done|lia].
    + apply list_elem_of_singleton in Hs as ->. exists n. split; [done|lia].
  - intros n' d' Hn' Hd'. destruct (decide (n' = n)) as [->|Hne]; [by simplify_eq|]. eapply evolved_written; [exact HE|].
    destruct (P5 n' d' ltac:(lia) Hd') as (b & tr1 & Hb1 & H1). exists b, tr1. split; [|done]. cbn. by apply lookup_app_l_Some.
Qed.

Lemma putting_failed k sl ds n d l π π' ok :
  putting k sl ds n π → evolved (pushed (mkTransfer (Writing k n) d sl l Flying) π) π' → over (length (pm_transfers π)) ok π' →
  pm_permits π' !! k = Some ds ∧ grounded k (pm_transfers π').
Proof.
  intros [P1 P2 P3 P4 P5] HE (tr & Hb & Hf & _). split; [by rewrite (ev_permits _ _ HE)|].
  intros b tr' n' Hb' Es'. destruct (evolved_lookup' _ _ _ _ HE Hb') as (tr1 & Hb1 & HF1). cbn in Hb1.
  apply lookup_app_Some in Hb1 as [Hb1|[Hlen Hb1]].
  - apply (fu_grounded _ _ HF1). apply (P3 b tr1 n'); [done|]. by rewrite <-(fu_side _ _ HF1).
  - apply list_lookup_singleton_Some in Hb1 as [Hlen' _]. assert (b = length (pm_transfers π)) as -> by lia. rewrite Hb in Hb'. by simplify_eq.
Qed.

Lemma put_replicas_spec subm polls k sl ds post pre π :
  (k, sl) ∈ puts j → Forall (fits sl) ds → ds = pre ++ post → putting k sl ds (length pre) π →
  wp (Client.put_replicas subm polls k sl post) π (λ r π', r = None → putting k sl ds (length ds) π').
Proof.
  intros Hk HF. revert pre π. induction post as [|d post IH]; intros pre π E HP; cbn [Client.put_replicas].
  { apply wp_ret. intros _. rewrite app_nil_r in E. by subst pre. }
  assert (ds !! length pre = Some d) as Hd by (rewrite E, lookup_app_r by lia; by rewrite Nat.sub_diag).
  rewrite Forall_lookup in HF. destruct (HF _ _ Hd) as [Hm Hsz]. rewrite Hm. cbn [negb].
  apply wp_bind. unfold Client.TransferWrite. eapply wp_mono; [|apply (TransferData_spec j subm polls d sl (Writing k (length pre)) π)].
  - intros e π1 HT. case_bool_decide as Ee.
    + destruct HT as [[_ ?]|(l & HE & Ho & Ht)]; [done|]. apply (IH (pre ++ [d])); [by rewrite <-(assoc (++))|].
      rewrite length_app, Nat.add_1_r. eapply putting_next; [done..| |done]. destruct Ho as (tr & Hb & Hf & Hg). exists tr. auto.
    + apply wp_bind. assert (pm_permits π1 !! k = Some ds ∧ grounded k (pm_transfers π1)) as [Hk1 Hg1].
      { destruct HT as [[-> _]|(l & HE & Ho & _)]; [by destruct HP|by eapply putting_failed]. }
      apply invoke_spec; [cbn; split_and!; [done|by eauto|done]|by apply wp_ret|]. intros x _. split; by apply wp_ret.
  - done.
  - intros s. apply (slices_memory k). apply elem_of_app. by left.
  - intros l _. split.
    + cbn [tr_side slot]. intros (n' & [= <-] & Hlt)%(pt_slots _ _ _ _ _ HP). lia.
    + cbn. exists ds. split_and!; [apply HP|done..].
  - apply HP.
Qed.

Lemma Put_spec subm storage polls k sl config π Q :
  (k, sl) ∈ puts j → put_config j = Some config → pm_transfers π = [] → (∀ r π', Q r π') →
  wp (Client.Put subm storage polls k sl config) π Q.
Proof.
  intros Hk Hc Hn HQ. unfold Client.Put. apply wp_bind. apply invoke_spec.
  - cbn. split; [done|]. by eapply jo_request.
  - case_decide; by apply wp_ret.
  - intros [e|ds] Hm; cbn [call_after]; (split; [|by case_decide; apply wp_ret]); [case_decide; by apply wp_ret|].
    destruct Hm as (_ & _ & HF). assert (Forall (fits sl) ds) as Hfits by done.
    apply wp_bind. apply put_disk_skip; [eapply Forall_impl; [exact HF|]; by intros d []|]. apply wp_bind.
    eapply wp_mono; [|apply (put_replicas_spec subm polls k sl ds ds [])]; [|done|done|done|].
    + intros [r|] π1 H1; [by apply wp_ret|]. specialize (H1 eq_refl). apply invoke_spec; [|done|done]. cbn. split; [done|]. split; [apply H1|].
      exists ds, sl. split_and!; [apply H1|done|]. intros n d Hd. rewrite Forall_lookup in Hfits. split; [by eapply Hfits|].
      eapply (pt_written _ _ _ _ _ H1); [by eapply lookup_lt_Some|done].
    + split; cbn; rewrite ?Hn; [by rewrite lookup_insert_eq|by intros b tr s; cbn; rewrite Hn|by intros b tr n|by intros s ?%elem_of_nil|].
      cbn. lia.
Qed.
End ops.

(** * Reading many objects at once

    [BatchGet] reports success for an object only when its bytes were read under a valid
    lease; the leases are checked once, after all transfers. *)

(** ** The keys whose query succeeded *)

Definition valid_of (keys : list string) (qs : list (expected QueryResult)) : list (string * QueryResult) :=
  omap (λ kq, match kq.2 with inr q => Some (kq.1, q) | inl _ => None end) (zip keys qs).

(** With the place they have in the request, counted from [i]. *)
Fixpoint placed (i : nat) (keys : list string) (qs : list (expected QueryResult)) : list (nat * (string * QueryResult)) :=
  match keys, qs with
  | k :: keys, inr q :: qs => (i, (k, q)) :: placed (S i) keys qs
  | _ :: keys, inl _ :: qs => placed (S i) keys qs
  | _, _ => []
  end.

Lemma placed_valid i keys qs : (placed i keys qs).*2 = valid_of keys qs.
Proof. revert i qs. induction keys as [|k keys IH]; intros i [|[e|q] qs]; cbn; [done..|apply IH|]. f_equal. apply IH. Qed.

Lemma placed_elem i keys qs x k q :
  (x, (k, q)) ∈ placed i keys qs → (i <= x)%nat ∧ keys !! (x - i)%nat = Some k ∧ qs !! (x - i)%nat = Some (inr q).
Proof.
  revert i qs. induction keys as [|k0 keys IH]; intros i [|[e|q0] qs]; cbn; try by intros ?%elem_of_nil.
  - intros (? & ? & ?)%IH. replace (x - i)%nat with (S (x - S i)) by lia. split; [lia|done].
  - intros [E|(? & ? & ?)%IH]%elem_of_cons; [simplify_eq; by rewrite Nat.sub_diag|]. replace (x - i)%nat with (S (x - S i)) by lia. split; [lia|done].
Qed.

Lemma placed_NoDup i keys qs : NoDup (placed i keys qs).*1.
Proof.
  revert i qs. induction keys as [|k0 keys IH]; intros i [|[e|q0] qs]; cbn; try constructor; try apply IH.
  intros ([x [k q]] & E & Hin)%list_elem_of_fmap. cbn in E. subst x. apply placed_elem in Hin as [? _]. lia.
Qed.

Lemma merge_success i keys qs rs x :
  length keys = length qs → length rs = length (placed i keys qs) → Client.merge_results qs rs !! x = Some (inr tt) →
  ∃ v e, placed i keys qs !! v = Some e ∧ e.1 = (i + x)%nat ∧ rs !! v = Some (inr tt).
Proof.
  revert i qs rs x. induction keys as [|k keys IH]; intros i [|[e|q] qs] rs x Hl Hr; cbn in *; try done.
  - destruct x as [|x]; [done|]. intros H. destruct (IH (S i) qs rs x ltac:(lia) Hr H) as (v & e0 & ? & ? & ?). exists v, e0. split_and!; [done|lia|done].
  - destruct rs as [|r rs]; [done|]. destruct x as [|x]; cbn.
    + intros [= ->]. exists 0%nat, (i, (k, q)). split_and!; [done|cbn; lia|done].
    + intros H. cbn in Hr. destruct (IH (S i) qs rs x ltac:(lia) ltac:(lia) H) as (v & e0 & ? & ? & ?). exists (S v), e0. split_and!; [done|lia|done].
Qed.

Section batch.
Context (j : Job) (Hj : job_ok j).
Abbreviation wp := (wp j).
Implicit Types (π : Perm).

Lemma invoke_batch_spec {X} n (serve : Prog (list (expected X))) π Q :
  Q (replicate n (inl EC.RPC_FAIL)) π → wp serve π (λ rs π', Q rs π' ∧ Q (replicate n (inl EC.RPC_FAIL)) π') → wp (invoke_batch_rpc n serve) π Q.
Proof.
  intros H0 Hs. unfold invoke_batch_rpc. apply wp_bind. apply (wp_perform _ _ no_transfer); [done|]. intros [] _; [by apply wp_ret|].
  apply wp_bind. eapply wp_mono; [|exact Hs]. intros rs π' [H1 H2]. apply wp_bind. apply (wp_perform _ _ no_transfer); [done|].
  by intros [] _; apply wp_ret.
Qed.

(** What the answers of one call to the master are worth, asked for at [t]. *)
Definition answers_ok (t : Z) (ks : list string) (rs : list (expected GetReplicaListResponse)) π : Prop :=
  ∀ x k resp, ks !! x = Some k → rs !! x = Some (inr resp) →
    ∀ d, d ∈ r_replicas resp → is_memory_replica d = true ∧ (k, d, t + milliseconds (lease_ttl_ms resp)) ∈ pm_leases π.

Definition queries_ok (keys : list string) (qs : list (expected QueryResult)) π : Prop :=
  pm_transfers π = [] ∧ length qs = length keys ∧ ∀ x k q, keys !! x = Some k → qs !! x = Some (inr q) → leases_of k q π.

Lemma answers_snoc t ks k rs r π π' :
  length rs = length ks → answers_ok t ks rs π → pm_leases π ⊆ pm_leases π' → answers_ok t [k] [r] π' → answers_ok t (ks ++ [k]) (rs ++ [r]) π'.
Proof.
  intros Hlen HA Hsub Hnew x k' resp Hx Hr d Hd. destruct (decide (x < length ks)%nat) as [Hlt|Hge].
  - rewrite lookup_app_l in Hx by done. rewrite lookup_app_l in Hr by lia. destruct (HA x k' resp Hx Hr d Hd). split; [done|]. by apply Hsub.
  - rewrite lookup_app_r in Hx by lia. rewrite lookup_app_r in Hr by lia. rewrite Hlen in Hr. by eapply Hnew.
Qed.

Lemma answers_queries t keys rs π :
  pm_transfers π = [] → length rs = length keys → answers_ok t keys rs π → queries_ok keys (Client.query_result t <$> rs) π.
Proof.
  intros Hn Hl HA. split_and!; [done|by rewrite length_fmap|]. intros x k q Hx. rewrite list_lookup_fmap. intros (r & Hr & Eq)%fmap_Some.
  destruct r as [e|resp]; [done|]. injection Eq as ->. intros d Hd. by apply (HA x k resp).
Qed.

Lemma failed_queries (e : ErrorCode) keys n π : pm_transfers π = [] → n = length keys → queries_ok keys (replicate n (inl e)) π.
Proof. intros Hn ->. split_and!; [done|by rewrite length_replicate|]. by intros x k q _ [? _]%lookup_replicate. Qed.

Lemma BatchQuery_spec keys π : pm_transfers π = [] → wp (Client.BatchQuery keys) π (queries_ok keys).
Proof.
  intros Hn. unfold Client.BatchQuery. apply wp_bind. apply (wp_perform _ _ no_transfer); [done|]. intros t _. cbn [after].
  set (f := λ response : list (expected GetReplicaListResponse), _). assert (∀ rs π0, pm_transfers π0 = [] → answers_ok t keys rs π0 →
    wp (f rs) π0 (queries_ok keys)) as Hf.
  { intros rs π0 H0 HA. unfold f. destruct (Nat.eqb_spec (length rs) (length keys)); apply wp_ret; [by apply answers_queries|by apply failed_queries]. }
  assert (∀ n π0, answers_ok t keys (replicate n (inl EC.RPC_FAIL)) π0) as H0 by (intros n π0 x k resp _ [? _]%lookup_replicate; done).
  apply wp_bind. apply invoke_batch_spec; [apply Hf; [cbn; by rewrite Hn|done]|].
  apply (wp_each j _ (λ ks rs π', pm_transfers π' = [] ∧ pm_now π' = t ∧ answers_ok t ks rs π')).
  - intros pre k post rs π1 _ (H1 & H2 & H3) Hlen. apply (wp_perform _ _ no_transfer); [done|]. intros [e|resp] Hm; cbn [after call_after].
    + split_and!; [done|done|]. eapply answers_snoc; [done..|]. by intros [] ? ? _ [= <-].
    + split_and!; [done|done|]. eapply answers_snoc; [done..|cbn; by apply list_subseteq_app_l|]. intros [|] k' resp' [= <-] [= <-] d Hd.
      cbn in Hm |- *. rewrite Forall_forall in Hm. split; [by apply Hm|]. apply elem_of_app. right. apply list_elem_of_fmap. exists d. by rewrite H2.
  - intros rs π1 (H1 & _ & H3) Hlen. split; by apply Hf.
  - cbn. rewrite Hn. by split_and!.
Qed.

(** ** Submitting and waiting *)

(** Transfer [f] reads object [k] as number [x]. *)
Definition reads_for (f : TransferFuture) (x : nat) (k : string) (deadline : Z) π : Prop :=
  ∃ b l tr, tracks f b l ∧ pm_transfers π !! b = Some tr ∧ (l = NoLimit ↔ tr_limit tr = NoLimit) ∧ tr_side tr = Reading x k deadline.

Lemma reads_for_app f x k t π π' trs :
  pm_transfers π' = pm_transfers π ++ trs → reads_for f x k t π → reads_for f x k t π'.
Proof. intros E (b & l & tr & H1 & H2 & H3 & H4). exists b, l, tr. split_and!; [done| |done..]. rewrite E. by apply lookup_app_l_Some. Qed.

Lemma reads_for_evolved f x k t π π' : evolved π π' → reads_for f x k t π → reads_for f x k t π'.
Proof.
  intros HE (b & l & tr & H1 & H2 & H3 & H4). destruct (evolved_lookup _ _ _ _ HE H2) as (tr' & H2' & HF). exists b, l, tr'.
  split_and!; [done|done|by rewrite H3, (fu_limit _ _ HF)|by rewrite (fu_side _ _ HF)].
Qed.

(** The transfers under way, and what the results so far say. *)
Record submitted (i : nat) (ps : list (nat * (string * QueryResult))) (rs : list (expected unit)) (pending : list (nat * TransferFuture)) π : Prop := {
  sb_length : length rs = length ps;
  sb_success v : rs !! v = Some (inr tt) → (i + v)%nat ∈ pending.*1;
  sb_reads idx f : (idx, f) ∈ pending → ∃ v x k q, idx = (i + v)%nat ∧ ps !! v = Some (x, (k, q)) ∧ reads_for f x k (q_lease_timeout q) π;
}.

Lemma submitted_cons i p ps rs pending r (fo : option TransferFuture) π' :
  submitted (S i) ps rs pending π' → (r = inr tt → is_Some fo) →
  (∀ f, fo = Some f → reads_for f p.1 p.2.1 (q_lease_timeout p.2.2) π') →
  submitted i (p :: ps) (r :: rs) (match fo with Some f => (i, f) :: pending | None => pending end) π'.
Proof.
  intros [H1 H2 H3] Hr Hf. split; [cbn; by rewrite H1| |].
  - intros [|v] E; cbn in E.
    + destruct (Hr ltac:(congruence)) as [f ->]. rewrite Nat.add_0_r. left.
    + apply H2 in E. replace (i + S v)%nat with (S i + v)%nat by lia. destruct fo; [by right|done].
  - intros idx f Hin. assert ((idx = i ∧ fo = Some f) ∨ (idx, f) ∈ pending) as [[-> ->]|Hin'].
    { destruct fo as [f0|]; [|by right]. apply elem_of_cons in Hin as [[= -> ->]|?]; [by left|by right]. }
    + destruct p as [x [k q]]. exists 0%nat, x, k, q. split_and!; [lia|done|]. by apply (Hf f).
    + destruct (H3 idx f Hin') as (v & x & k & q & -> & Hv & Hrd). exists (S v), x, k, q. split_and!; [lia|done|done].
Qed.

Definition request_known (slices : gmap string (list Slice)) (p : nat * (string * QueryResult)) π : Prop :=
  leases_of p.2.1 p.2.2 π ∧ ∀ sl, slices !! p.2.1 = Some sl → gets j !! p.1 = Some (p.2.1, sl).

Lemma submit_gets_spec sub slices ps i π :
  timely π → NoDup ps.*1 → (∀ x, x ∈ ps.*1 → inr x ∉ slot ∘ tr_side <$> pm_transfers π) → Forall (λ p, request_known slices p π) ps →
  wp (Client.submit_gets sub i ps.*2 slices) π (λ r π', submitted i ps r.1 r.2 π' ∧ timely π' ∧ ∃ trs, pm_transfers π' = pm_transfers π ++ trs).
Proof.
  revert i π. induction ps as [|[x [k q]] ps IH]; intros i π Ht Hnd Hs HF.
  { cbn. split_and!; [|done|exists []; by rewrite app_nil_r]. split; [done|done|]. by intros idx f ?%elem_of_nil. }
  cbn [fmap list_fmap Client.submit_gets snd]. apply Forall_cons in HF as [[Hq Hg] HF]. cbn in Hq, Hg, Hnd. apply NoDup_cons in Hnd as [Hx Hnd].
  assert (∀ r fo π1, (r = inr tt → is_Some fo) → (∀ f, fo = Some f → reads_for f x k (q_lease_timeout q) π1) → timely π1 →
    pm_leases π1 = pm_leases π → (∃ trs, pm_transfers π1 = pm_transfers π ++ trs ∧ ∀ y, y ∈ ps.*1 → inr y ∉ slot ∘ tr_side <$> trs) →
    wp (Client.submit_gets sub (S i) ps.*2 slices) π1 (λ r' π', submitted i ((x, (k, q)) :: ps) (r :: r'.1)
      (match fo with Some f => (i, f) :: r'.2 | None => r'.2 end) π' ∧ timely π' ∧ ∃ trs, pm_transfers π' = pm_transfers π ++ trs)) as Hrest.
  { intros r fo π1 Hr Hf Ht1 Hl1 (trs & E & Hfr). eapply wp_mono; [|apply (IH (S i) π1); [done|done| |]].
    - intros r' π' (HS & Ht' & trs' & E'). split; [|split; [done|exists (trs ++ trs'); by rewrite (assoc (++)), <-E]].
      apply submitted_cons; [done|done|]. intros f Ef. eapply reads_for_app; [exact E'|]. by apply Hf.
    - intros y Hy. rewrite E, fmap_app, not_elem_of_app. split; [apply Hs; by right|by apply Hfr].
    - eapply Forall_impl; [exact HF|]. intros p [H1 H2]. split; [|done]. intros d Hd. rewrite Hl1. by apply H1. }
  assert (∀ e, wp (rest ← Client.submit_gets sub (S i) ps.*2 slices; mret (inl e :: rest.1, rest.2)) π (λ r π', submitted i ((x, (k, q)) :: ps) r.1 r.2 π' ∧
    timely π' ∧ ∃ trs, pm_transfers π' = pm_transfers π ++ trs)) as Hfail.
  { intros e. apply wp_bind. eapply wp_mono; [|apply (Hrest (inl e) None π); [done|done|done|done|]]; [intros r π' H; by apply wp_ret|].
    exists []. rewrite app_nil_r. split; [done|]. intros y _. apply not_elem_of_nil. }
  apply wp_bind. destruct (slices !! k) as [sl|] eqn:Esl; [|apply wp_ret, Hfail]. specialize (Hg sl eq_refl).
  destruct (FindFirstCompleteReplica _) as [d|] eqn:Ef; [|apply wp_ret, Hfail]. apply FindFirst_elem in Ef.
  apply wp_bind. eapply wp_mono; [|apply (submit_spec j sub d sl (Reading x k (q_lease_timeout q)) π)];
    [|by apply Hq|intros s; by apply (gets_memory j Hj x k)|intros l; apply reading_allowed; [done..|]; apply Hs; left].
  intros [f|] π1 H1; [|subst; apply wp_ret, Hfail]. destruct H1 as (l & Htr & _ & Hl & ->). apply wp_ret. apply wp_bind.
  eapply wp_mono; [|apply (Hrest (inr tt) (Some f))]; [intros r π' H; by apply wp_ret|by eauto| |by apply pushed_timely|done|].
  - intros f' [= <-]. eexists _, l, _. split; [exact Htr|]. split; [apply pushed_lookup|]. done.
  - eexists. split; [done|]. cbn. intros y Hy. rewrite list_elem_of_singleton. intros [= ->]. done.
Qed.

Definition landed_for (f : TransferFuture) π : Prop := ∃ b l, tracks f b l ∧ over b True π.

Lemma tracks_eq f b l b' l' : tracks f b l → tracks f b' l' → b = b'.
Proof. intros [[-> _]|[-> _]] [[[=] _]|[[=] _]]; done. Qed.

Lemma wait_gets_spec polls pending rs π :
  timely π → (∀ idx f, (idx, f) ∈ pending → ∃ x k t, reads_for f x k t π) →
  wp (Client.wait_gets polls pending rs) π (λ rs' π', evolved π π' ∧ length rs' = length rs ∧ ∀ v, rs' !! v = Some (inr tt) →
    (∃ f, (v, f) ∈ pending ∧ landed_for f π') ∨ rs !! v = Some (inr tt) ∧ v ∉ pending.*1).
Proof.
  revert rs π. induction pending as [|[idx f] pending IH]; intros rs π Ht Hp; cbn [Client.wait_gets].
  { apply wp_ret. split_and!; [done|done|]. intros v Hv. right. split; [done|]. apply not_elem_of_nil. }
  destruct (Hp idx f ltac:(left)) as (x & k & t & b & l & tr & Htr & Hb & Hl & Es). apply wp_bind.
  eapply wp_mono; [|by eapply future_get_spec]. intros e π1 [HE1 Ho]. eapply wp_mono; [|apply IH; [by apply HE1|]].
  - intros rs' π2 (HE2 & Hlen & Hv). split; [by etrans|]. split; [by rewrite Hlen, length_insert|]. intros v Hr.
    destruct (Hv v Hr) as [(f' & Hin & Hf)|[Hr' Hni]]; [left; exists f'; split; [by right|done]|].
    destruct (decide (v = idx)) as [->|Hne].
    + left. exists f. split; [left|]. exists b, l. split; [done|]. apply (over_evolved _ _ π1); [done|].
      destruct Ho as (tr' & Hb' & Hf' & Hg). exists tr'. split_and!; [done|done|]. intros _. apply Hg.
      destruct (decide (idx < length rs)%nat); [|by rewrite lookup_ge_None_2 in Hr' by (rewrite length_insert; lia)].
      rewrite list_lookup_insert_eq in Hr' by done. case_bool_decide; [done|congruence].
    + right. rewrite list_lookup_insert_ne in Hr' by done. split; [done|]. cbn. by rewrite not_elem_of_cons.
  - intros idx' f' Hin. destruct (Hp idx' f' ltac:(by right)) as (x' & k' & t' & Hrd). exists x', k', t'. by eapply reads_for_evolved.
Qed.

Lemma drop_all_spec fs π :
  (∀ f, f ∈ fs → ∃ b l, tracks f b l) → wp (Client.drop_all fs) π (λ _ π', evolved π π' ∧
    ∀ f b l, f ∈ fs → tracks f b l → l ≠ NoLimit → is_Some (pm_transfers π !! b) → over b False π').
Proof.
  intros Hf. unfold Client.drop_all. apply wp_bind. apply (wp_each j _ (λ pre _ π', evolved π π' ∧
    ∀ f b l, f ∈ pre → tracks f b l → l ≠ NoLimit → is_Some (pm_transfers π !! b) → over b False π')).
  - intros pre f post ys π1 E [HE1 H1] _. destruct (Hf f ltac:(rewrite E; set_solver)) as (b & l & Htr).
    eapply wp_mono; [|by eapply future_drop_spec]. intros _ π2 [HE2 H2]. split; [by etrans|].
    intros f' b' l' Hin Htr' Hl' [tr Hb']. apply elem_of_app in Hin as [Hin|Hin]; [eapply over_evolved; [exact HE2|by eapply H1]|].
    apply list_elem_of_singleton in Hin as ->. pose proof (tracks_eq _ _ _ _ _ Htr Htr') as ->. apply H2.
    + destruct Htr as [[_ ?]|[-> _]]; [done|]. by destruct Htr' as [[? _]|[_ ?]].
    + destruct (evolved_lookup _ _ _ _ HE1 Hb') as (? & ? & _). eauto.
  - intros ys π1 [HE1 H1] _. by apply wp_ret.
  - split; [done|]. intros f b l ?%elem_of_nil. done.
Qed.

Lemma verified_evolved x k π π' : evolved π π' → verified x k π → verified x k π'.
Proof.
  intros HE (b & tr & t & Hb & Es & Ev). destruct (evolved_lookup _ _ _ _ HE Hb) as (tr' & Hb' & HF). exists b, tr', t.
  split_and!; [done|by rewrite (fu_side _ _ HF)|by apply HF].
Qed.

Lemma landed_verifies f x k t π now :
  reads_for f x k t π → landed_for f π → now < t → verified x k (pm_observe now π).
Proof.
  intros (b & l & tr & Htr & Hb & _ & Es) (b' & l' & Htr' & tr' & Hb' & _ & Hg) Hlt. pose proof (tracks_eq _ _ _ _ _ Htr Htr') as <-.
  simplify_eq. by eapply observe_verifies; [|by apply Hg|..].
Qed.

Lemma check_leases_success now qs rs v :
  Client.check_leases now qs rs !! v = Some (inr tt) → rs !! v = Some (inr tt) ∧ ∃ q, qs !! v = Some q ∧ now < q_lease_timeout q.
Proof.
  intros (q & r & E & Hq & Hr)%lookup_zip_with_Some. destruct r as [e|[]]; [done|]. unfold query_expired in E.
  destruct (Z.leb_spec (q_lease_timeout q) now); [done|]. eauto.
Qed.

Lemma batch_get_spec subm polls ps slices π :
  pm_transfers π = [] → NoDup ps.*1 → Forall (λ p, request_known slices p π) ps →
  wp (Client.batch_get_query subm polls id ps.*2.*1 ps.*2.*2 slices false) π (λ rs π', length rs = length ps ∧
    ∀ v x k q, ps !! v = Some (x, (k, q)) → rs !! v = Some (inr tt) → verified x k π').
Proof.
  intros Hn Hnd HF. unfold Client.batch_get_query. destruct subm as [sub|]; cycle 1.
  { apply wp_ret. split; [by rewrite length_replicate, !length_fmap|]. by intros v x k q _ [? _]%lookup_replicate. }
  rewrite !length_fmap, Nat.eqb_refl. cbn [negb]. apply wp_bind. rewrite zip_fst_snd.
  eapply wp_mono; [|apply submit_gets_spec; [|done| |done]]; [|intros b tr s; by rewrite Hn|intros x _; rewrite Hn; apply not_elem_of_nil].
  intros [rs pending] π1 ([S1 S2 S3] & Ht1 & _). cbn [fst snd] in *. apply wp_bind.
  eapply wp_mono; [|apply wait_gets_spec; [done|intros idx f (v & x & k & q & _ & _ & ?)%S3; by eauto]].
  intros rs2 π2 (HE2 & Hl2 & Hv2). apply wp_bind. apply (wp_perform _ _ no_transfer); [done|]. intros now Hnow. cbn [after].
  apply wp_bind. eapply wp_mono; [|apply drop_all_spec].
  - intros _ π3 [HE3 _]. apply wp_ret. split; [unfold Client.check_leases; rewrite length_zip_with, !length_fmap; lia|].
    intros v x k q Hp Hr. apply check_leases_success in Hr as (Hr & q' & Hq' & Hlt). rewrite !list_lookup_fmap, Hp in Hq'. injection Hq' as <-.
    apply (verified_evolved _ _ _ _ HE3). destruct (Hv2 v Hr) as [(f & Hin & Hld)|[Hr0 Hni]]; [|by destruct Hni; apply (S2 v)].
    destruct (S3 v f Hin) as (v' & x' & k' & q' & -> & Hp' & Hrd). cbn in Hp. simplify_eq.
    eapply landed_verifies; [by eapply reads_for_evolved|done|done].
  - intros f ([idx f'] & -> & Hin)%list_elem_of_fmap. destruct (S3 idx f' Hin) as (_ & _ & _ & _ & _ & _ & b & l & _ & Htr & _). eauto.
Qed.

Lemma BatchGet_spec subm polls keys slices π :
  gets j = (λ k, (k, default [] (slices !! k))) <$> keys → pm_transfers π = [] →
  wp (Client.BatchGet subm polls keys slices) π (λ rs π', ∀ x k sl, gets j !! x = Some (k, sl) → rs !! x = Some (inr tt) → verified x k π').
Proof.
  intros Hg Hn. unfold Client.BatchGet. apply wp_bind. eapply wp_mono; [|by apply BatchQuery_spec]. intros qs π1 (Hn1 & Hlen & Hq).
  fold (valid_of keys qs). rewrite <-(placed_valid 0). set (ps := placed 0 keys qs).
  assert (∀ rs π', (length rs = length ps ∧ ∀ v x k q, ps !! v = Some (x, (k, q)) → rs !! v = Some (inr tt) → verified x k π') →
    ∀ x k sl, gets j !! x = Some (k, sl) → Client.merge_results qs rs !! x = Some (inr tt) → verified x k π') as Hmerge.
  { intros rs π' [Hl Hv] x k sl Hx Hm. destruct (merge_success 0 keys qs rs x ltac:(done) Hl Hm) as (v & [x' [k' q]] & Hp & E & Hr). cbn in E. subst x'.
    pose proof (list_elem_of_lookup_2 _ _ _ Hp) as (_ & Hk & _)%placed_elem. rewrite Nat.sub_0_r in Hk.
    rewrite Hg, list_lookup_fmap, Hk in Hx. injection Hx as <- _. by eapply Hv. }
  destruct ps.*2 as [|e es] eqn:Eps.
  { apply wp_ret. apply Hmerge. apply fmap_nil_inv in Eps. rewrite Eps. done. }
  rewrite <-Eps. apply wp_bind. eapply wp_mono; [|apply batch_get_spec; [done|apply placed_NoDup|]]; [intros rs π2 H2; apply wp_ret; by apply Hmerge|].
  apply Forall_forall. intros [x [k q]] (_ & Hk & Hqx)%placed_elem. rewrite Nat.sub_0_r in Hk, Hqx. split; cbn; [by eapply Hq|].
  intros sl [Hsl _]%map_lookup_filter_Some. rewrite Hg, list_lookup_fmap, Hk. cbn. by rewrite Hsl.
Qed.
End batch.
