(* ===== verification/ClientBatchPut.v ===== *)
(** * ClientBatchPut: writing many objects at once

    [BatchPut] starts all objects, submits and waits for all transfers, and only then ends or
    revokes each object: an object is ended when all its replicas are written, and in either
    case nothing of it is being written any more. *)

From S2P Require Import Prelude Types BufferAllocator Replica MasterService MasterPut StorageBackend ClientProg TransferTask StoreClient ClientSystem ClientHeld ClientGhost ClientSpecs ClientOps.
Open Scope Z_scope.

(** ** The objects an operation owns *)

Definition owners (ops : list PutOperation) : list string := op_key <$> filter (λ op, op_replicas op ≠ []) ops.

Lemma owners_elem op ops : op ∈ ops → op_replicas op ≠ [] → op_key op ∈ owners ops.
Proof. intros Hin Hr. apply list_elem_of_fmap. exists op. split; [done|]. by apply list_elem_of_filter. Qed.

Lemma owners_cons op ops : owners (op :: ops) = if decide (op_replicas op ≠ []) then op_key op :: owners ops else owners ops.
Proof. unfold owners. rewrite filter_cons. by case_decide. Qed.

Lemma owners_NoDup ops :
  (∀ i i' op op', ops !! i = Some op → ops !! i' = Some op' → op_replicas op ≠ [] → op_replicas op' ≠ [] → op_key op = op_key op' → i = i') →
  NoDup (owners ops).
Proof.
  induction ops as [|op ops IH]; intros H; [constructor|]. rewrite owners_cons. assert (NoDup (owners ops)) as Hnd.
  { apply IH. intros i i' op1 op2 H1 H2 ???. by apply Nat.succ_inj, (H (S i) (S i') op1 op2). }
  case_decide as Hr; [|done]. constructor; [|done]. intros (op' & Ek & [Hr' Hin]%list_elem_of_filter)%list_elem_of_fmap.
  apply list_elem_of_lookup in Hin as [i Hi]. by pose proof (H 0%nat (S i) op op' eq_refl Hi Hr Hr' Ek).
Qed.

Lemma owners_apart pre op post op' :
  NoDup (owners (pre ++ op :: post)) → op' ∈ pre → op_replicas op ≠ [] → op_replicas op' ≠ [] → op_key op' ≠ op_key op.
Proof.
  unfold owners. rewrite filter_app, fmap_app. intros (_ & H & _)%NoDup_app Hin Hr Hr' E. apply (H (op_key op')).
  - apply list_elem_of_fmap. exists op'. split; [done|]. by apply list_elem_of_filter.
  - rewrite E. apply list_elem_of_fmap. exists op. split; [done|]. apply list_elem_of_filter. split; [done|left].
Qed.

(** Keys selected among those that are owned. *)
Lemma keys_of_cons f op ops : Client.keys_of f (op :: ops) = if f op then op_key op :: Client.keys_of f ops else Client.keys_of f ops.
Proof. unfold Client.keys_of. rewrite filter_cons. by destruct (f op). Qed.

Lemma keys_of_elem f k ops : k ∈ Client.keys_of f ops ↔ ∃ op, op ∈ ops ∧ f op = true ∧ op_key op = k.
Proof. unfold Client.keys_of. rewrite list_elem_of_fmap. split; [intros (op & -> & [? ?]%list_elem_of_filter); eauto|].
  intros (op & ? & ? & <-). exists op. split; [done|]. by apply list_elem_of_filter. Qed.

Section select.
Context (f f' : PutOperation → bool).
Context (Hf : ∀ op, f op = true → op_replicas op ≠ []) (Hf' : ∀ op, f' op = true → op_replicas op ≠ []).

Lemma keys_of_owners ops : Client.keys_of f ops ⊆ owners ops.
Proof using Hf. intros k (op & Hin & Hop & <-)%keys_of_elem. by apply owners_elem, Hf. Qed.

Lemma keys_of_NoDup ops : NoDup (owners ops) → NoDup (Client.keys_of f ops).
Proof using Hf.
  induction ops as [|op ops IH]; intros Hnd; [constructor|]. rewrite keys_of_cons. rewrite owners_cons in Hnd. destruct (f op) eqn:E.
  - rewrite decide_True in Hnd by (by apply Hf). apply NoDup_cons in Hnd as [Hk Hnd]. constructor; [|by apply IH].
    intros Hin. by apply Hk, keys_of_owners.
  - apply IH. by case_decide; [apply NoDup_cons in Hnd as [_ ?]|].
Qed.

Lemma keys_of_disjoint k ops :
  (∀ op, f op = true → f' op = true → False) → NoDup (owners ops) → k ∈ Client.keys_of f ops → k ∈ Client.keys_of f' ops → False.
Proof using Hf Hf'.
  intros Hd. induction ops as [|op ops IH]; intros Hnd H1 H2; [by apply elem_of_nil in H1|]. rewrite owners_cons in Hnd.
  assert (∀ g, (∀ op, g op = true → op_replicas op ≠ []) → k ∈ Client.keys_of g ops → k ∈ owners ops) as Hsub.
  { intros g Hg (op' & Hin & Hop & <-)%keys_of_elem. by apply owners_elem, Hg. }
  rewrite keys_of_cons in H1, H2.
  destruct (f op) eqn:E1, (f' op) eqn:E2; [by apply (Hd op)| | |by apply IH; [case_decide; [apply NoDup_cons in Hnd as [_ ?]|]|..]].
  - rewrite decide_True in Hnd by (by apply Hf). apply NoDup_cons in Hnd as [Hk Hnd]. apply elem_of_cons in H1 as [->|H1]; [by apply Hk, (Hsub f')|by apply IH].
  - rewrite decide_True in Hnd by (by apply Hf'). apply NoDup_cons in Hnd as [Hk Hnd]. apply elem_of_cons in H2 as [->|H2]; [by apply Hk, (Hsub f)|by apply IH].
Qed.
End select.

(** What the phases keep of an operation. *)
Definition same_op (op op' : PutOperation) : Prop :=
  op_key op' = op_key op ∧ op_slices op' = op_slices op ∧ op_replicas op' = op_replicas op.

Lemma owners_same ops ops' : Forall2 same_op ops ops' → owners ops' = owners ops.
Proof.
  intros HF. induction HF as [|op op' ops ops' (E1 & _ & E3) HF IH]; [done|]. by rewrite !owners_cons, E3, E1, IH.
Qed.

Section put.
Context (j : Job) (Hj : job_ok j).
Abbreviation wp := (wp j).
Implicit Types (π : Perm).

(** ** Starting *)

Record known op π : Prop := {
  kn_put : (op_key op, op_slices op) ∈ puts j;
  kn_owned : op_replicas op ≠ [] → pm_permits π !! op_key op = Some (op_replicas op) ∧ Forall (fits (op_slices op)) (op_replicas op);
}.

(** The answers to the calls that start the objects. *)
Record starts (kls : list (string * list Z)) (rs : list (expected (list Descriptor))) π : Prop := {
  st_none : pm_transfers π = [];
  st_permit x k lens ds : kls !! x = Some (k, lens) → rs !! x = Some (inr ds) →
    pm_permits π !! k = Some ds ∧ Forall (λ d, is_memory_replica d = true ∧ d_size <$> handles_of d = lens) ds;
  st_apart x x' k lens lens' ds ds' : kls !! x = Some (k, lens) → kls !! x' = Some (k, lens') →
    rs !! x = Some (inr ds) → rs !! x' = Some (inr ds') → x = x';
}.

Lemma lookup_snoc_inv {X} (l : list X) y x z : (l ++ [y]) !! x = Some z → l !! x = Some z ∧ (x < length l)%nat ∨ x = length l ∧ z = y.
Proof.
  intros [H|[Hl H]]%lookup_app_Some; [left; split; [done|by eapply lookup_lt_Some]|right].
  apply list_lookup_singleton_Some in H as [E <-]. split; [lia|done].
Qed.

Lemma start_snoc kls k lens config rs r π :
  length rs = length kls → starts kls rs π → call_may (MPutStart k lens config) π r →
  starts (kls ++ [(k, lens)]) (rs ++ [r]) (call_after (MPutStart k lens config) π r).
Proof.
  intros Hl [S1 S2 S3] Hm. split.
  - by destruct r.
  - intros x k' lens' ds Hx Hr. apply lookup_snoc_inv in Hx as [[Hx Hlt]|[-> E]], Hr as [[Hr Hlt']|[E' Er]]; try lia.
    + destruct (S2 x k' lens' ds Hx Hr) as [Hp HF]. split; [|done]. destruct r as [e|ds']; [done|]. cbn in *.
      rewrite lookup_insert_ne; [done|]. intros ->. destruct Hm as [? _]. congruence.
    + simplify_eq. cbn in *. destruct Hm as (_ & _ & HF). split; [by rewrite lookup_insert_eq|done].
  - intros x x' k' l1 l2 d1 d2 Hx Hx' Hr Hr'.
    apply lookup_snoc_inv in Hx as [[Hx Hlt]|[-> E]], Hr as [[Hr Hlt']|[E' Er]]; try lia;
    apply lookup_snoc_inv in Hx' as [[Hx' ?]|[-> E1]], Hr' as [[Hr' ?]|[E2 Er']]; try lia; [by eapply S3| |]; simplify_eq; cbn in Hm; destruct Hm as [Hk _].
    + destruct (S2 _ _ _ _ Hx Hr). congruence.
    + destruct (S2 _ _ _ _ Hx' Hr'). congruence.
Qed.

Definition new_op op : Prop := (op_key op, op_slices op) ∈ puts j ∧ op_replicas op = [] ∧ op_pending op = [] ∧ op_state op = OP_PENDING.

Record started (ops : list PutOperation) π : Prop := {
  sd_none : pm_transfers π = [];
  sd_owners : NoDup (owners ops);
  sd_known : Forall (λ op, known op π ∧ op_pending op = [] ∧ (IsResolved op = true → op_replicas op = [])) ops;
}.

Definition kls_of (ops : list PutOperation) : list (string * list Z) := (λ op, (op_key op, slice_size <$> op_slices op)) <$> ops.

Lemma failed_started (f : PutOperation → PutOperation) ops π :
  (∀ op, same_op op (f op) ∧ op_pending (f op) = op_pending op) → pm_transfers π = [] → Forall new_op ops → started (f <$> ops) π.
Proof.
  intros Hf Hn HF. assert (∀ op, op ∈ f <$> ops → (op_key op, op_slices op) ∈ puts j ∧ op_replicas op = [] ∧ op_pending op = []) as Hall.
  { intros op (op0 & -> & Hin)%list_elem_of_fmap. rewrite Forall_forall in HF. destruct (HF op0 Hin) as (? & ? & ? & _).
    destruct (Hf op0) as [(-> & -> & ->) ->]. done. }
  split; [done| |].
  - apply owners_NoDup. intros i i' op op' Hi%list_elem_of_lookup_2 _ Hr. destruct (Hall op Hi) as (_ & ? & _). done.
  - apply Forall_forall. intros op Hin. destruct (Hall op Hin) as (? & E & ?). split; [|done]. split; [done|]. by rewrite E.
Qed.

Lemma starts_started ops rs π : length rs = length ops → Forall new_op ops → starts (kls_of ops) rs π → started (zip_with Client.start_response rs ops) π.
Proof.
  intros Hlen HF [S1 S2 S3]. rewrite Forall_forall in HF.
  assert (∀ x op, zip_with Client.start_response rs ops !! x = Some op → ∃ r op0, rs !! x = Some r ∧ ops !! x = Some op0 ∧ new_op op0 ∧
    op_key op = op_key op0 ∧ op_slices op = op_slices op0 ∧ op_pending op = [] ∧
    (op_replicas op ≠ [] → r = inr (op_replicas op)) ∧ (IsResolved op = true → op_replicas op = [])) as Hop.
  { intros x op (r & op0 & -> & Hr & Hx)%lookup_zip_with_Some. destruct (HF op0 ltac:(by eapply list_elem_of_lookup_2)) as (H1 & H2 & H3 & H4).
    exists r, op0. split; [done|]. split; [done|]. split; [by repeat split|].
    destruct r as [e|ds]; cbn; rewrite ?H2; (split; [done|]); (split; [done|]); (split; [done|]); (split; [congruence|]); [done|].
    unfold IsResolved. cbn. by rewrite H4. }
  assert (∀ x op0, ops !! x = Some op0 → kls_of ops !! x = Some (op_key op0, slice_size <$> op_slices op0)) as Hkl
    by (intros x op0 Hx; unfold kls_of; by rewrite list_lookup_fmap, Hx).
  split; [done| |].
  - apply owners_NoDup. intros x x' op op' Hx Hx' Hr Hr' Ek.
    destruct (Hop x op Hx) as (r & o1 & Hrs & Ho & _ & E1 & _ & _ & E2 & _). destruct (Hop x' op' Hx') as (r' & o1' & Hrs' & Ho' & _ & E1' & _ & _ & E2' & _).
    rewrite (E2 Hr) in Hrs. rewrite (E2' Hr') in Hrs'. apply Hkl in Ho, Ho'. rewrite <-E1 in Ho. rewrite <-E1', <-Ek in Ho'. by eapply S3.
  - apply Forall_lookup. intros x op Hx. destruct (Hop x op Hx) as (r & o1 & Hrs & Ho & Hnew & E1 & Es & Ep & E2 & E3). split; [|done].
    split; [rewrite E1, Es; apply Hnew|]. intros Hr. rewrite (E2 Hr) in Hrs. destruct (S2 _ _ _ _ (Hkl x o1 Ho) Hrs) as [Hp HF'].
    rewrite E1, Es. by split.
Qed.

Lemma Start_spec config ops π :
  put_config j = Some config → prefer_alloc_in_same_node config = false → pm_transfers π = [] → Forall new_op ops →
  wp (Client.StartBatchPut ops config) π started.
Proof.
  intros Hc Hp Hn HF. unfold Client.StartBatchPut. apply wp_bind.
  assert (∀ rs π0, pm_transfers π0 = [] → (length rs = length ops → started (zip_with Client.start_response rs ops) π0) →
    wp (if negb (length rs =? length ops)%nat then mret (SetError EC.RPC_FAIL <$> ops) else mret (zip_with Client.start_response rs ops)) π0 started) as Hend.
  { intros rs π0 H0 H1. destruct (Nat.eqb_spec (length rs) (length ops)); apply wp_ret; [by apply H1|]. apply failed_started; try done. }
  assert (∀ π0, pm_transfers π0 = [] → started (zip_with Client.start_response (replicate (length ops) (inl EC.RPC_FAIL)) ops) π0) as Hlost.
  { intros π0 H0. rewrite zip_with_replicate_l by done. apply failed_started; try done. }
  apply invoke_batch_spec; [apply Hend; [done|by intros _; apply Hlost]|]. unfold Wrapped.BatchPutStart. rewrite Hp.
  assert (zip (op_key <$> ops) ((λ op, slice_size <$> op_slices op) <$> ops) = kls_of ops) as ->.
  { unfold kls_of. clear. induction ops as [|op ops IH]; [done|]. cbn. f_equal. apply IH. }
  apply (wp_each j _ starts).
  - intros pre [k lens] post rs π1 E HS Hlen. apply (wp_perform _ _ no_transfer).
    + cbn. split; [apply HS|]. assert ((k, lens) ∈ kls_of ops) as Hin by (rewrite E; set_solver). unfold kls_of in Hin.
      apply list_elem_of_fmap in Hin as (op & [= -> ->] & Hin). rewrite Forall_forall in HF. destruct (HF op Hin) as [H1 _].
      by apply (jo_request _ Hj _ _ _ H1).
    + intros r Hm. by apply (start_snoc _ _ _ config).
  - intros rs π1 HS Hlen. unfold kls_of in Hlen. rewrite length_fmap in Hlen. split; (apply Hend; [apply HS|]); [intros _; by apply starts_started|].
    intros _. apply Hlost, HS.
  - by split.
Qed.

(** ** Submitting *)

(** Nothing but transfers of object [k] is added. *)
Record grown (k : string) π π' : Prop := {
  gw_permits : pm_permits π' = pm_permits π;
  gw_timely : timely π → timely π';
  gw_old b tr : pm_transfers π !! b = Some tr → ∃ tr', pm_transfers π' !! b = Some tr' ∧ further tr tr';
  gw_new b tr' : pm_transfers π' !! b = Some tr' → (∃ tr, pm_transfers π !! b = Some tr ∧ further tr tr') ∨ ∃ n, tr_side tr' = Writing k n;
}.

Lemma evolved_grown k π π' : evolved π π' → grown k π π'.
Proof.
  intros HE. split; [apply HE|apply HE|intros b tr; by apply evolved_lookup|]. intros b tr' Hb. left. by apply evolved_lookup' with π'.
Qed.

Lemma appended_grown k π π' trs :
  pm_permits π' = pm_permits π → (timely π → timely π') → pm_transfers π' = pm_transfers π ++ trs →
  (∀ n tr, trs !! n = Some tr → ∃ n', tr_side tr = Writing k n') → grown k π π'.
Proof.
  intros E1 Ht E2 Hs. split; [done|done| |].
  - intros b tr Hb. exists tr. split; [|done]. rewrite E2. by apply lookup_app_l_Some.
  - intros b tr. rewrite E2. intros [Hb|[_ Hb]]%lookup_app_Some; [left; by exists tr|right; by eapply Hs].
Qed.

Lemma grown_trans k π1 π2 π3 : grown k π1 π2 → grown k π2 π3 → grown k π1 π3.
Proof.
  intros [A1 A2 A3 A4] [B1 B2 B3 B4]. split; [congruence|auto| |].
  - intros b tr Hb. destruct (A3 b tr Hb) as (tr2 & Hb2 & H2). destruct (B3 b tr2 Hb2) as (tr3 & Hb3 & H3). exists tr3. split; [done|by etrans].
  - intros b tr3 Hb3. destruct (B4 b tr3 Hb3) as [(tr2 & Hb2 & H3)|?]; [|by right].
    destruct (A4 b tr2 Hb2) as [(tr1 & Hb1 & H2)|(n & Es)]; [left; exists tr1; split; [done|by etrans]|right; exists n; by rewrite (fu_side _ _ H3)].
Qed.

Lemma grown_grounded k k' π π' : grown k π π' → k' ≠ k → grounded k' (pm_transfers π) → grounded k' (pm_transfers π').
Proof.
  intros HG Hne Hg b tr' n Hb Es. destruct (gw_new _ _ _ HG b tr' Hb) as [(tr & Htr & HF)|(n' & E)]; [|congruence].
  apply (fu_grounded _ _ HF). apply (Hg b tr n); [done|]. by rewrite <-(fu_side _ _ HF).
Qed.

Definition real (f : TransferFuture) : Prop := ∃ b l, tracks f b l.

(** The transfers of an operation that waits for them. *)
Record writing op π : Prop := {
  wr_replicas : op_replicas op ≠ [];
  wr_length : length (op_pending op) = length (op_replicas op);
  wr_pending n f : op_pending op !! n = Some f → ∃ b l tr, tracks f b l ∧ pm_transfers π !! b = Some tr ∧ (l = NoLimit ↔ tr_limit tr = NoLimit) ∧
    tr_side tr = Writing (op_key op) n ∧ op_replicas op !! n = Some (tr_replica tr) ∧ tr_slices tr = op_slices op ∧ tr_status tr ≠ Verified;
  wr_all b tr n : pm_transfers π !! b = Some tr → tr_side tr = Writing (op_key op) n → ∃ f l, f ∈ op_pending op ∧ tracks f b l;
}.

Record submitted_op op π : Prop := {
  so_known : known op π;
  so_real : Forall real (op_pending op);
  so_resolved : IsResolved op = true → op_replicas op ≠ [] → grounded (op_key op) (pm_transfers π);
  so_writing : IsResolved op = false → writing op π;
}.

Lemma known_same op op' π π' : same_op op op' → pm_permits π' = pm_permits π → known op π → known op' π'.
Proof. intros (E1 & E2 & E3) Ep [K1 K2]. split; rewrite ?E1, ?E2, ?E3, ?Ep; done. Qed.

Lemma submitted_grown op k π π' : grown k π π' → (op_replicas op ≠ [] → op_key op ≠ k) → submitted_op op π → submitted_op op π'.
Proof.
  intros HG Hk [H1 H2 H3 H4]. split; [by eapply known_same; [|apply HG|]|done| |].
  - intros Hr Hn. eapply grown_grounded; [done|by apply Hk|by apply H3].
  - intros Hr. destruct (H4 Hr) as [W1 W2 W3 W4]. specialize (Hk W1). split; [done|done| |].
    + intros n f Hf. destruct (W3 n f Hf) as (b & l & tr & Ht & Hb & Hl & Es & Ed & Esl & Ev). destruct (gw_old _ _ _ HG b tr Hb) as (tr' & Hb' & [F1 F2 F3 F4 _ _ _ F7 _]).
      exists b, l, tr'. rewrite F1, F2, F3, F4. split_and!; [done..|by eapply F7].
    + intros b tr' n Hb Es. destruct (gw_new _ _ _ HG b tr' Hb) as [(tr & Htr & HF)|(n' & E)]; [|congruence].
      apply (W4 b tr n); [done|]. by rewrite <-(fu_side _ _ HF).
Qed.

(** The transfers of the replicas from number [n0] on. *)
Record writes_to (k : string) (sl : list Slice) (ds : list Descriptor) (n0 b0 : nat) (fs : list TransferFuture) (trs : list Transfer) : Prop := {
  wt_length : length fs = length trs;
  wt_each n f : fs !! n = Some f → ∃ d l, tracks f (b0 + n) l ∧ l ≠ NoLimit ∧ ds !! (n0 + n)%nat = Some d ∧
    trs !! n = Some (mkTransfer (Writing k (n0 + n)) d sl l Flying);
}.

Lemma writes_cons k sl ds n0 b0 f d l fs trs :
  tracks f b0 l → l ≠ NoLimit → ds !! n0 = Some d → writes_to k sl ds (S n0) (S b0) fs trs →
  writes_to k sl ds n0 b0 (f :: fs) (mkTransfer (Writing k n0) d sl l Flying :: trs).
Proof.
  intros Ht Hl Hd [W1 W2]. split; [cbn; by rewrite W1|]. intros [|n] f' Hf; cbn in Hf.
  - simplify_eq. rewrite !Nat.add_0_r. by exists d, l.
  - destruct (W2 n f' Hf) as (d' & l' & H1 & H2 & H3 & H4). exists d', l'. rewrite <-!Nat.add_succ_comm. done.
Qed.

Lemma writes_sides k sl ds n0 b0 fs trs n tr :
  writes_to k sl ds n0 b0 fs trs → trs !! n = Some tr → ∃ f l, fs !! n = Some f ∧ tracks f (b0 + n) l ∧ l ≠ NoLimit ∧ tr_side tr = Writing k (n0 + n).
Proof.
  intros [W1 W2] Ht. destruct (lookup_lt_is_Some_2 fs n) as [f Hf]; [rewrite W1; by eapply lookup_lt_Some|].
  destruct (W2 n f Hf) as (d & l & ? & ? & ? & E). exists f, l. rewrite E in Ht. by simplify_eq.
Qed.

Context (sub : Submitter) (Hsub : memcpy_enabled_ sub = false).

Lemma submit_writes_spec k sl ds post pre π :
  (k, sl) ∈ puts j → pm_permits π !! k = Some ds → Forall (fits sl) ds → ds = pre ++ post → timely π →
  (∀ n, (length pre <= n)%nat → inl (k, n) ∉ slot ∘ tr_side <$> pm_transfers π) →
  wp (Client.submit_writes sub sl post) π (λ r π', ∃ trs, pm_transfers π' = pm_transfers π ++ trs ∧ pm_permits π' = pm_permits π ∧ timely π' ∧
    writes_to k sl ds (length pre) (length (pm_transfers π)) r.1 trs ∧ (r.2 = true → length r.1 = length post)).
Proof using Hj Hsub.
  intros Hk. revert pre π. induction post as [|d post IH]; intros pre π Hp HF E Ht Hs; cbn [Client.submit_writes].
  { apply wp_ret. exists []. rewrite app_nil_r. split_and!; [done..|split; [done|]; by intros n f|done]. }
  assert (ds !! length pre = Some d) as Hd by (rewrite E, lookup_app_r by lia; by rewrite Nat.sub_diag).
  assert (fits sl d) as [Hm Hsz] by (rewrite Forall_lookup in HF; by eapply HF). rewrite Hm. cbn [negb].
  apply wp_bind. eapply wp_mono; [|apply (submit_spec j sub d sl (Writing k (length pre)) π); [done|intros s; apply (slices_memory j Hj k); apply elem_of_app; by left|]].
  - intros [f|] π1 H1; cycle 1.
    { subst. apply wp_ret. exists []. rewrite app_nil_r. split_and!; [done..|split; [done|]; by intros n f|done]. }
    destruct H1 as (l & Htr & Hl & Hl' & ->). apply wp_bind.
    eapply wp_mono; [|apply (IH (pre ++ [d])); [done|done|by rewrite <-(assoc (++))|by apply pushed_timely|]].
    + intros [fs ok] π2 (trs & E2 & Ep2 & Ht2 & Hw & Hlen). apply wp_ret. cbn [fst snd] in *. eexists. split; [rewrite E2; cbn; by rewrite <-(assoc (++))|].
      split_and!; [done..| |intros Hok; cbn; by rewrite Hlen]. cbn. apply writes_cons; [done|by apply Hl|done|].
      rewrite length_app in Hw. cbn in Hw. by rewrite length_app, !Nat.add_1_r in Hw.
    + intros n Hn. cbn. rewrite fmap_app, not_elem_of_app. rewrite length_app in Hn. cbn in Hn. split; [apply Hs; lia|].
      cbn. rewrite list_elem_of_singleton. intros [= ->]. lia.
  - intros l _. split; [by apply Hs|]. by exists ds.
Qed.
End put.

(** * The phases of a batched write after its start *)

Lemma IsResolved_SetError e op : IsResolved (SetError e op) = true.
Proof. unfold IsResolved, SetError. cbn. by destruct (op_replicas op), (op_pending op). Qed.

Lemma IsResolved_pending fs op : IsResolved (op_with_pending fs op) = IsResolved op.
Proof. done. Qed.

Section phases.
Context (j : Job) (Hj : job_ok j) (storage : bool) (polls : nat).
Context (sub : Submitter) (Hsub : memcpy_enabled_ sub = false).
Abbreviation wp := (wp j).
Abbreviation known := (known j).
Abbreviation submitted_op := (submitted_op j).
Implicit Types (π : Perm).

(** ** Submitting *)

Lemma written_grounded k sl ds fs trs π π' :
  pm_transfers π' = pm_transfers π ++ trs → writes_to k sl ds 0 (length (pm_transfers π)) fs trs →
  (∀ n, inl (k, n) ∉ slot ∘ tr_side <$> pm_transfers π) →
  ∀ b tr n, pm_transfers π' !! b = Some tr → tr_side tr = Writing k n → ∃ f l, f ∈ fs ∧ tracks f b l ∧ l ≠ NoLimit.
Proof.
  intros E Hw Hs b tr n. rewrite E. intros [Hb|[Hlen Hb]]%lookup_app_Some Es.
  - destruct (Hs n). apply list_elem_of_fmap. exists tr. cbn. rewrite Es. split; [done|by eapply list_elem_of_lookup_2].
  - destruct (writes_sides _ _ _ _ _ _ _ _ _ Hw Hb) as (f & l & Hf & Ht & Hl & _). exists f, l.
    replace (_ + _)%nat with b in Ht by lia. split_and!; [by eapply list_elem_of_lookup_2|done..].
Qed.

Lemma submit_operation_spec op π :
  known op π → (IsResolved op = true → op_replicas op = []) → op_pending op = [] → timely π →
  (op_replicas op ≠ [] → ∀ n, inl (op_key op, n) ∉ slot ∘ tr_side <$> pm_transfers π) →
  wp (Client.submit_operation storage sub op) π (λ op' π', same_op op op' ∧ submitted_op op' π' ∧ grown (op_key op) π π' ∧
    (op_replicas op = [] → π' = π)).
Proof.
  intros HK Hres Hpend Ht Hs. unfold Client.submit_operation. destruct (IsResolved op) eqn:Er.
  { apply wp_ret. split; [done|]. split; [|split; [by apply evolved_grown|done]]. split; [done|by rewrite Hpend|intros _ Hn; by destruct (Hn (Hres eq_refl))|congruence]. }
  destruct (op_replicas op) as [|d0 ds0] eqn:Eds.
  { apply wp_ret. split; [done|]. split; [|split; [by apply evolved_grown|done]]. split; [by apply (known_same j op _ π)|cbn; by rewrite Hpend|cbn; congruence|by rewrite IsResolved_SetError]. }
  rewrite <-Eds in *. assert (op_replicas op ≠ []) as Hne by (by rewrite Eds). clear Eds. destruct (kn_owned _ _ _ HK Hne) as [Hp HF]. specialize (Hs Hne).
  apply wp_bind. apply put_disk_skip; [eapply Forall_impl; [exact HF|]; by intros d []|]. apply wp_bind.
  eapply wp_mono; [|apply (submit_writes_spec j Hj sub Hsub (op_key op) (op_slices op) (op_replicas op) (op_replicas op) []); [apply HK|done..|by auto]].
  intros [fs ok] π1 (trs & E1 & Ep1 & Ht1 & Hw & Hlen). cbn [fst snd length] in *.
  assert (grown (op_key op) π π1) as HG.
  { eapply appended_grown; [done|done|exact E1|]. intros n tr Htr. destruct (writes_sides _ _ _ _ _ _ _ _ _ Hw Htr) as (? & ? & _ & _ & _ & ?). eauto. }
  pose proof (written_grounded _ _ _ _ _ _ _ E1 Hw Hs) as Hall.
  assert (∀ f, f ∈ fs → ∃ b l, tracks f b l ∧ l ≠ NoLimit ∧ is_Some (pm_transfers π1 !! b)) as Hreal.
  { intros f [n Hn]%list_elem_of_lookup. destruct (wt_each _ _ _ _ _ _ _ Hw n f Hn) as (d & l & ? & ? & _ & Htr). eexists _, l. split_and!; [done..|].
    rewrite E1, lookup_app_r by lia. replace (_ - _)%nat with n by lia. eauto. }
  destruct ok.
  - apply wp_ret. split; [done|]. split; [|done]. split; cbn; [by apply (known_same j op _ π)| | |].
    + apply Forall_forall. intros f Hf. destruct (Hreal f Hf) as (b & l & ? & _). by exists b, l.
    + unfold IsResolved in *. cbn. congruence.
    + intros _. split; cbn; [done|by apply Hlen| |].
      * intros n f Hf. destruct (wt_each _ _ _ _ _ _ _ Hw n f Hf) as (d & l & Htr & Hl & Hd & E). eexists _, l, _. split; [exact Htr|].
        split; [rewrite E1, lookup_app_r by lia; replace (_ - _)%nat with n by lia; exact E|]. done.
      * intros b tr n Hb Es. destruct (Hall b tr n Hb Es) as (f & l & ? & ? & _). eauto.
  - apply wp_bind. eapply wp_mono; [|apply (drop_all_spec j Hj); intros f Hf; destruct (Hreal f Hf) as (b & l & ? & _); by eauto].
    intros _ π2 [HE2 Hov]. apply wp_ret. split; [done|]. split; [|split; [eapply grown_trans; [done|by apply evolved_grown]|done]].
    split; [apply (known_same j op _ π); [done|by rewrite (ev_permits _ _ HE2)|done]|done| |by rewrite IsResolved_pending, IsResolved_SetError].
    intros _ _ b tr' n Hb Es. destruct (evolved_lookup' _ _ _ _ HE2 Hb) as (tr & Hb1 & HFu).
    destruct (Hall b tr n Hb1 ltac:(by rewrite <-(fu_side _ _ HFu))) as (f & l & Hf & Htr & Hl).
    destruct (Hov f b l Hf Htr Hl ltac:(eauto)) as (tr2 & Hb2 & Hfl & _). congruence.
Qed.

Record submitted_all (ops : list PutOperation) π : Prop := {
  sl_owners : NoDup (owners ops);
  sl_timely : timely π;
  sl_each : Forall (λ op, submitted_op op π) ops;
}.

Lemma SubmitTransfers_spec ops π :
  started j ops π → wp (each (Client.submit_operation storage sub) ops) π submitted_all.
Proof using Hj Hsub.
  intros [S1 S2 S3]. rewrite Forall_forall in S3. apply (wp_each j _ (λ pre ys π', Forall2 same_op pre ys ∧ Forall (λ op, submitted_op op π') ys ∧
    timely π' ∧ pm_permits π' = pm_permits π ∧ ∀ s, s ∈ slot ∘ tr_side <$> pm_transfers π' → ∃ op n, op ∈ pre ∧ op_replicas op ≠ [] ∧ s = inl (op_key op, n))).
  - intros pre op post ys π1 E (H1 & H2 & H3 & H4 & H5) _. destruct (S3 op ltac:(rewrite E; set_solver)) as (HK & Hpend & Hres). rewrite E in S2.
    eapply wp_mono; [|apply submit_operation_spec; [by apply (known_same j op _ π)|done|done|done|]].
    + intros op' π2 (Hs & Hsub' & HG & Hid). split_and!; [apply Forall2_app; [done|by constructor]| |by apply (gw_timely _ _ _ HG)|by rewrite (gw_permits _ _ _ HG)|].
      * apply Forall_app. split; [|by constructor]. rewrite Forall_lookup in H2 |- *. intros x op1 Hx. specialize (H2 x op1 Hx).
        destruct (Forall2_lookup_r _ _ _ _ _ H1 Hx) as (op0 & Hx0 & Ek & _ & Er). destruct (decide (op_replicas op = [])) as [En|En]; [by rewrite Hid|].
        eapply submitted_grown; [exact HG| |done]. rewrite Er, Ek. intros Hr. eapply owners_apart; [exact S2|by eapply list_elem_of_lookup_2|done|done].
      * intros s (tr & -> & [b Hb]%list_elem_of_lookup)%list_elem_of_fmap. destruct (decide (op_replicas op = [])) as [En|En].
        { rewrite Hid in Hb by done. destruct (H5 (slot (tr_side tr))) as (op0 & n & ? & ? & ?); [apply list_elem_of_fmap; exists tr; split; [done|by eapply list_elem_of_lookup_2]|].
          exists op0, n. split_and!; [set_solver|done|done]. }
        destruct (gw_new _ _ _ HG b tr Hb) as [(tr0 & Hb0 & HF)|(n & Es)].
        { destruct (H5 (slot (tr_side tr0))) as (op0 & n & ? & ? & Es0); [apply list_elem_of_fmap; exists tr0; split; [done|by eapply list_elem_of_lookup_2]|].
          exists op0, n. cbn. rewrite (fu_side _ _ HF). split_and!; [set_solver|done|done]. }
        exists op, n. cbn. rewrite Es. split_and!; [set_solver|done|done].
    + intros Hr n Hin. destruct (H5 _ Hin) as (op0 & n' & Hop0 & Hr0 & [= Ek _]). by apply (owners_apart pre op post op0 S2).
  - intros ys π1 (H1 & H2 & H3 & _) _. split; [by rewrite (owners_same _ _ H1)|done|done].
  - rewrite S1. split_and!; [done|done|by intros b tr s; rewrite S1|done|]. by intros s ?%elem_of_nil.
Qed.

End phases.

(** ** Waiting *)

Section ending.
Context (j : Job) (polls : nat).
Abbreviation wp := (wp j).
Abbreviation known := (known j).
Abbreviation submitted_op := (submitted_op j).
Abbreviation submitted_all := (submitted_all j).
Implicit Types (π : Perm).

Record waited_op op π : Prop := {
  wo_known : known op π;
  wo_real : Forall real (op_pending op);
  wo_grounded : op_replicas op ≠ [] → grounded (op_key op) (pm_transfers π);
  wo_written : IsResolved op = false → ∀ n d, op_replicas op !! n = Some d → written_at (op_key op) n d (op_slices op) (pm_transfers π);
}.

Lemma waited_evolved op π π' : evolved π π' → waited_op op π → waited_op op π'.
Proof.
  intros HE [W1 W2 W3 W4]. split; [by apply (known_same j op _ π); [|apply HE|]|done|intros Hr; by eapply evolved_grounded, W3|].
  intros Hr n d Hd. eapply evolved_written; [done|]. by apply W4.
Qed.

Lemma submitted_evolved op π π' : evolved π π' → submitted_op op π → submitted_op op π'.
Proof.
  intros HE. eapply (submitted_grown j op (String.String Ascii.zero (op_key op))); [by apply evolved_grown|].
  intros _ E. apply (f_equal String.length) in E. cbn in E. lia.
Qed.

Lemma wait_writes_spec fs e0 π :
  timely π → (∀ f, f ∈ fs → ∃ b l tr, tracks f b l ∧ pm_transfers π !! b = Some tr ∧ (l = NoLimit ↔ tr_limit tr = NoLimit)) →
  wp (Client.wait_writes polls fs e0) π (λ e π', evolved π π' ∧ (e = EC.OK → e0 = EC.OK) ∧ ∀ f b l, f ∈ fs → tracks f b l → over b (e = EC.OK) π').
Proof.
  revert e0 π. induction fs as [|f fs IH]; intros e0 π Ht Hf; cbn [Client.wait_writes].
  { apply wp_ret. split_and!; [done|done|]. by intros f b l ?%elem_of_nil. }
  destruct (Hf f ltac:(left)) as (b & l & tr & Htr & Hb & Hl). apply wp_bind. eapply wp_mono; [|by eapply future_get_spec]. intros e π1 [HE1 Ho].
  eapply wp_mono; [|apply IH; [by apply HE1|]].
  - intros e' π2 (HE2 & He & Hall). split_and!; [by etrans|intros E; specialize (He E); by case_bool_decide|].
    intros f' b' l' [->|Hin]%elem_of_cons Htr'; [|by eapply Hall]. pose proof (tracks_eq _ _ _ _ _ Htr Htr') as <-.
    apply (over_evolved _ _ π1); [done|]. destruct Ho as (tr1 & Hb1 & Hfl & Hg). exists tr1. split_and!; [done..|]. intros E. apply Hg.
    specialize (He E). by case_bool_decide.
  - intros f' Hin. destruct (Hf f' ltac:(by right)) as (b' & l' & tr' & ? & Hb' & ?). destruct (evolved_lookup _ _ _ _ HE1 Hb') as (tr2 & Hb2 & HF).
    exists b', l', tr2. split_and!; [done..|]. by rewrite (fu_limit _ _ HF).
Qed.

Lemma wait_operation_spec op π :
  submitted_op op π → timely π → wp (Client.wait_operation polls op) π (λ op' π', same_op op op' ∧ waited_op op' π' ∧ evolved π π').
Proof.
  intros [S1 S2 S3 S4] Ht. unfold Client.wait_operation. destruct (IsResolved op) eqn:Er.
  { apply wp_ret. split_and!; [done..| |done]. split; [done|done|by apply S3|congruence]. }
  destruct (S4 eq_refl) as [W1 W2 W3 W4]. destruct (op_pending op) as [|f0 fs0] eqn:Ep; [by destruct (op_replicas op)|]. rewrite <-Ep in *. clear Ep.
  apply wp_bind. eapply wp_mono; [|apply wait_writes_spec; [done|]].
  - intros e π1 (HE & _ & Hall).
    assert (grounded (op_key op) (pm_transfers π1)) as Hgr.
    { intros b tr' n Hb Es. destruct (evolved_lookup' _ _ _ _ HE Hb) as (tr & Hb0 & HF). destruct (W4 b tr n Hb0) as (f & l & Hf & Htr); [by rewrite <-(fu_side _ _ HF)|].
      destruct (Hall f b l Hf Htr) as (tr2 & Hb2 & Hfl & _). congruence. }
    assert (known op π1) as HK by (apply (known_same j op _ π); [done|apply HE|done]).
    case_bool_decide as Ee; apply wp_ret; (split; [done|]); (split; [|done]).
    + split; [done|done|done|]. intros _ n d Hd. destruct (lookup_lt_is_Some_2 (op_pending op) n) as [f Hf]; [rewrite W2; by eapply lookup_lt_Some|].
      destruct (W3 n f Hf) as (b & l & tr & Htr & Hb & _ & Es & Ed & Esl & Hnv). destruct (evolved_lookup _ _ _ _ HE Hb) as (tr1 & Hb1 & [F1 F2 F3 _ _ _ F6 F7 _]).
      destruct (Hall f b l ltac:(by eapply list_elem_of_lookup_2) Htr) as (tr2 & Hb2 & _ & Hg). rewrite Hb1 in Hb2. apply (inj Some) in Hb2 as <-. exists b, tr1. rewrite F1, F2, F3.
      split_and!; [done..|congruence|done|]. destruct (Hg Ee) as [?|Ev]; [done|]. by destruct (F7 _ _ Es Hnv).
    + split; [by apply (known_same j op _ π1)|done|done|by rewrite IsResolved_SetError].
  - intros f [n Hn]%list_elem_of_lookup. destruct (W3 n f Hn) as (b & l & tr & ? & ? & ? & _). eauto 10.
Qed.

Record waited_all (ops : list PutOperation) π : Prop := {
  wl_owners : NoDup (owners ops);
  wl_each : Forall (λ op, waited_op op π) ops;
}.

Lemma WaitForTransfers_spec ops π : submitted_all ops π → wp (Client.WaitForTransfers polls ops) π waited_all.
Proof.
  intros [S1 S2 S3]. rewrite Forall_forall in S3. apply (wp_each j _ (λ pre ys π', Forall2 same_op pre ys ∧ Forall (λ op, waited_op op π') ys ∧ evolved π π')).
  - intros pre op post ys π1 E (H1 & H2 & H3) _. assert (op ∈ ops) as Hin by (rewrite E; set_solver).
    eapply wp_mono; [|apply wait_operation_spec; [eapply submitted_evolved; [exact H3|by apply S3]|by apply H3]].
    intros op' π2 (Hs & Hw & HE). split_and!; [apply Forall2_app; [done|by constructor]| |by etrans].
    apply Forall_app. split; [|by constructor]. eapply Forall_impl; [exact H2|]. intros op1. by apply waited_evolved.
  - intros ys π1 (H1 & H2 & _) _. split; [by rewrite (owners_same _ _ H1)|done].
  - by split_and!.
Qed.

(** ** Ending and revoking *)

Definition endable (k : string) π : Prop := call_allowed j (MPutEnd k MEMORY) π.
Definition revocable (k : string) π : Prop := call_allowed j (MPutRevoke k MEMORY) π.

Lemma endable_delete k k' π : k ≠ k' → endable k π → endable k (pm_with_permits (delete k') π).
Proof. intros Hne (H1 & H2 & ds & sl & H3 & H4). split_and!; [done..|]. exists ds, sl. cbn. by rewrite lookup_delete_ne. Qed.

Lemma revocable_delete k k' π : k ≠ k' → revocable k π → revocable k (pm_with_permits (delete k') π).
Proof. intros Hne (H1 & H2 & H3). split_and!; [done| |done]. cbn. by rewrite lookup_delete_ne. Qed.

(** Calls that each give up one permit. *)
Lemma release_each (c : string → MasterCall (expected unit)) (P : string → Perm → Prop) ks π (Q : list (expected unit) → Perm → Prop) :
  (∀ k π, P k π → call_allowed j (c k) π) → (∀ k π x, call_after (c k) π x = pm_with_permits (delete k) π) →
  (∀ k k' π, k ≠ k' → P k π → P k (pm_with_permits (delete k') π)) →
  NoDup ks → (∀ k, k ∈ ks → P k π) → (∀ rs π', (∀ k, k ∉ ks → revocable k π → revocable k π') → Q rs π') →
  wp (each (λ k, perform (Exec (c k))) ks) π Q.
Proof.
  intros Hc Ha Hd Hnd HP HQ. apply (wp_each j _ (λ pre _ π', (∀ k, k ∈ ks → k ∉ pre → P k π') ∧ ∀ k, k ∉ pre → revocable k π → revocable k π')).
  - intros pre k post ys π1 E [H1 H2] _. rewrite E in Hnd. apply NoDup_app in Hnd as (_ & Hnd & _).
    assert (k ∉ pre) as Hk by (intros Hin; apply (Hnd k Hin); left).
    apply (wp_perform _ _ no_transfer); [apply Hc, H1; [rewrite E; set_solver|done]|]. intros x _. cbn [after]. rewrite Ha. split.
    + intros k' Hin Hni. rewrite not_elem_of_app, list_elem_of_singleton in Hni. destruct Hni. by apply Hd, H1.
    + intros k' Hni Hr. rewrite not_elem_of_app, list_elem_of_singleton in Hni. destruct Hni. by apply revocable_delete, H2.
  - intros ys π1 [_ H2] _. by apply HQ.
  - split; [by intros k Hin _; apply HP|done].
Qed.

Lemma to_end_spec op : Client.to_end op = true → IsResolved op = false ∧ op_replicas op ≠ [].
Proof.
  unfold Client.to_end. rewrite !andb_true_iff, negb_true_iff. intros [[H1 H2] _]. split; [done|]. by case_bool_decide.
Qed.

Lemma to_revoke_spec op : Client.to_revoke op = true → Client.to_end op = false ∧ op_replicas op ≠ [].
Proof.
  unfold Client.to_revoke. rewrite !andb_true_iff, !negb_true_iff. intros [[H1 H2] H3]. split; [done|]. by case_bool_decide.
Qed.

Lemma waited_endable op π : waited_op op π → Client.to_end op = true → endable (op_key op) π.
Proof.
  intros [W1 W2 W3 W4] [Hr Hn]%to_end_spec. destruct (kn_owned _ _ _ W1 Hn) as [Hp HF]. split_and!; [done|by apply W3|].
  exists (op_replicas op), (op_slices op). split_and!; [done|apply W1|]. intros n d Hd. rewrite Forall_lookup in HF. split; [by eapply HF|by apply W4].
Qed.

Lemma waited_revocable op π : waited_op op π → Client.to_revoke op = true → revocable (op_key op) π.
Proof.
  intros [W1 W2 W3 W4] [_ Hn]%to_revoke_spec. destruct (kn_owned _ _ _ W1 Hn) as [Hp HF]. split_and!; [done|by eauto|by apply W3].
Qed.

(** The transfers of the operations stay what they are. *)
Definition all_real (ops : list PutOperation) : Prop := Forall (λ op, Forall real (op_pending op)) ops.

Lemma at_each_real {X} (f : X → PutOperation → PutOperation) ix xs ops :
  (∀ x op, op_pending (f x op) = op_pending op) → all_real ops → all_real (at_each f ix xs ops).
Proof.
  intros Hf. revert xs ops. induction ix as [|i ix IH]; intros [|x xs] ops HF; cbn; [done..|]. apply IH.
  unfold all_real in *. rewrite Forall_lookup in HF |- *. intros i' op Hi. destruct (decide (i' = i)) as [->|Hne].
  - rewrite list_lookup_alter_eq in Hi. apply fmap_Some in Hi as (op0 & Hi & ->). rewrite Hf. by eapply HF.
  - rewrite list_lookup_alter_ne in Hi by done. by eapply HF.
Qed.

Lemma end_response_pending r op : op_pending (Client.end_response r op) = op_pending op.
Proof. by destruct r. Qed.

Lemma Finalize_spec ops π : waited_all ops π → wp (Client.FinalizeBatchPut ops) π (λ ops' _, all_real ops').
Proof.
  intros [W1 W2]. rewrite Forall_forall in W2. unfold Client.FinalizeBatchPut.
  assert (∀ op, Client.to_end op = true → op_replicas op ≠ []) as He by (intros op H; by apply to_end_spec).
  assert (∀ op, Client.to_revoke op = true → op_replicas op ≠ []) as Hr by (intros op H; by apply to_revoke_spec).
  assert (all_real ops) as HR by (apply Forall_forall; intros op Hin; by apply W2).
  apply wp_bind. eapply (wp_mono _ _ _ (λ ops' π', all_real ops' ∧ ∀ k, k ∈ Client.keys_of Client.to_revoke ops → revocable k π')).
  - intros ops1 π1 [HR1 Hrev]. apply wp_bind. eapply (wp_mono _ _ _ (λ ops' _, all_real ops')).
    + intros ops2 π2 HR2. apply wp_ret. apply Forall_fmap. eapply Forall_impl; [exact HR2|]. intros op Hop. cbn. by destruct (IsResolved op).
    + case_bool_decide; [by apply wp_ret|]. apply wp_bind.
      assert (∀ (rs : list (expected unit)) π', wp (if negb (length rs =? length (Client.keys_of Client.to_revoke ops))%nat then mret (at_each SetError (Client.places Client.to_revoke ops)
        (replicate (length (Client.places Client.to_revoke ops)) EC.RPC_FAIL) ops1) else mret ops1) π' (λ ops' _, all_real ops')) as Hend.
      { intros rs π'. destruct (negb _); apply wp_ret; [by apply at_each_real|done]. }
      apply invoke_batch_spec; [apply Hend|]. apply (release_each (λ k, MPutRevoke k MEMORY) revocable); [done|done|apply revocable_delete|by apply keys_of_NoDup|done|].
      intros rs π' _. split; apply Hend.
  - assert (∀ k, k ∈ Client.keys_of Client.to_revoke ops → revocable k π) as Hrev.
    { intros k (op & Hin & Hop & <-)%keys_of_elem. apply waited_revocable; [by apply W2|done]. }
    case_bool_decide; [by apply wp_ret|]. apply wp_bind.
    assert (∀ rs π', (∀ k, k ∈ Client.keys_of Client.to_revoke ops → revocable k π') →
      wp (if negb (length rs =? length (Client.keys_of Client.to_end ops))%nat then mret (at_each SetError (Client.places Client.to_end ops)
        (replicate (length (Client.places Client.to_end ops)) EC.RPC_FAIL) ops) else mret (at_each Client.end_response (Client.places Client.to_end ops) rs ops)) π'
      (λ ops' π', all_real ops' ∧ ∀ k, k ∈ Client.keys_of Client.to_revoke ops → revocable k π')) as Hend.
    { intros rs π' H'. destruct (negb _); apply wp_ret; (split; [|done]); apply at_each_real; try done. intros; apply end_response_pending. }
    apply invoke_batch_spec; [by apply Hend|]. apply (release_each (λ k, MPutEnd k MEMORY) endable); [done|done|apply endable_delete|by apply keys_of_NoDup| |].
    + intros k (op & Hin & Hop & <-)%keys_of_elem. apply waited_endable; [by apply W2|done].
    + intros rs π' Hkeep. assert (∀ k, k ∈ Client.keys_of Client.to_revoke ops → revocable k π') as H'; [|by split; apply Hend].
      intros k Hk. apply Hkeep; [|by apply Hrev]. intros Hk'. eapply (keys_of_disjoint _ _ He Hr k ops); [|done|done|done].
      intros op H1 H2. apply to_revoke_spec in H2 as [? _]. congruence.
Qed.
End ending.

(** ** The whole operation *)

Lemma BatchPut_spec j subm storage polls arrange keys slices config π Q :
  job_ok j → j = JBatchPut keys slices config → (∀ sub, subm = Some sub → memcpy_enabled_ sub = false) → pm_transfers π = [] → (∀ rs π', Q rs π') →
  wp j (Client.BatchPut subm storage polls arrange keys slices config) π Q.
Proof.
  intros Hj Ej Hsub Hn HQ. unfold Client.BatchPut. rewrite (jo_spread _ Hj _ _ _ Ej).
  assert (Forall (new_op j) (CreatePutOperations keys slices)) as Hnew.
  { apply Forall_forall. unfold CreatePutOperations. intros op (i & (k & sl & -> & Hk & Hs)%lookup_zip_with_Some)%list_elem_of_lookup.
    split; [|done]. rewrite Ej. cbn. apply list_elem_of_lookup. exists i. by apply lookup_zip_Some. }
  apply wp_bind. eapply wp_mono; [|apply Start_spec; [done|by rewrite Ej|by apply (jo_spread _ Hj _ _ _ Ej)|done|done]]. intros ops1 π1 HS1.
  apply wp_bind. eapply (wp_mono _ _ _ (submitted_all j)); cycle 1.
  { unfold Client.SubmitTransfers. destruct subm as [sub|]; [apply (SubmitTransfers_spec j Hj storage sub); [by apply Hsub|done]|]. apply wp_ret. destruct HS1 as [S1 S2 S3].
    split; [|by intros b tr s; rewrite S1|].
    - erewrite owners_same; [exact S2|]. apply Forall2_fmap_r, Forall_Forall2_diag, Forall_true. done.
    - apply Forall_fmap. eapply Forall_impl; [exact S3|]. intros op (HK & Hp & _). split; cbn; [by apply (known_same j op _ π1)|by rewrite Hp| |].
      + intros _ _ b tr n. by rewrite S1.
      + by rewrite IsResolved_SetError. }
  intros ops2 π2 HS2. apply wp_bind. eapply wp_mono; [|by apply WaitForTransfers_spec]. intros ops3 π3 HS3.
  apply wp_bind. eapply wp_mono; [|by apply Finalize_spec]. intros ops4 π4 HR. apply wp_bind. eapply wp_mono; [|apply drop_all_spec; [done|]].
  - intros _ π5 _. by apply wp_ret.
  - intros f (op & Hin & Hop)%list_elem_of_bind. unfold all_real in HR. rewrite Forall_forall in HR. pose proof (HR op Hop) as HF. rewrite Forall_forall in HF. by apply HF.
Qed.
