(* ===== verification/ClientCorrect.v ===== *)
(** * ClientCorrect: what readers get

    The invariant of ClientInv holds in every state of the system, whatever operations,
    transfers and calls were interleaved; so what a read reports as success is what one write
    of that key was given. *)

From S2P Require Import Prelude Types Float64 BufferAllocator Replica ReplicaHeap AllocationStrategy SegmentManager SegmentInv.
From S2P Require Import MasterService BatchEvict MasterInv MasterOps MasterPut MasterEvict MasterSegments MasterSteps MasterCorrect MasterQuiet.
From S2P Require Import StorageBackend ClientProg TransferTask StoreClient ClientSystem ClientHeld ClientGhost ClientInv ClientMaster ClientActs.
From S2P Require Import ClientSpecs ClientOps ClientBatchPut.
From Stdlib Require Import Ascii.
Open Scope Z_scope.

(** ** Every operation does what it may *)






Section correct.
Context {A B : Type} {ops : BufferAllocator A B} {laws : BufferAllocatorLaws A B}.
Context (cfg : MasterServiceConfig) (hash : string → Z).
Context (Hdisk : use_disk_replica cfg = false).
Implicit Types (m : Master A B) (g : System A B) (k : string) (d : Descriptor) (th : Thread) (π : Perm).

Abbreviation find := (find hash).
Abbreviation tinv := (tinv hash).
Abbreviation shared := (shared cfg hash).
Abbreviation rely := (rely hash).
Abbreviation inv := (inv cfg hash).

(** ** One operation moves on *)
















(** ** Guarantees *)



End correct.
