(* ===== verification/ClientExamples.v ===== *)
(** * ClientExamples: runs of the whole system

    A small server with one segment, a write and a read; and what the transfer engine of the
    repository, which stops nothing when a transfer fails or is given up, does to readers. *)

From S2P Require Import Prelude Types Float64 OffsetAllocator OffsetHandles BufferAllocator Replica ReplicaHeap AllocationStrategy SegmentManager SegmentInv.
From S2P Require Import MasterService BatchEvict MasterInv MasterOps MasterPut MasterEvict MasterSegments MasterSteps MasterCorrect MasterQuiet.
From S2P Require Import StorageBackend ClientProg TransferTask StoreClient ClientSystem ClientHeld ClientGhost ClientInv ClientCorrect.
From Stdlib Require Import Ascii.
Open Scope Z_scope.

(** ** Parts of evaluated states *)

Definition found {X} (o : option X) : bool := match o with Some _ => true | None => false end.



(** ** Evaluating runs *)

Section runs.
Context {A B : Type} {ops : BufferAllocator A B}.
Context (cfg : MasterServiceConfig) (hash : string → Z) (rules : EngineRules).
Implicit Types (g : System A B).

(** At most one segment is mounted. *)
Definition lone (m : Master A B) : bool := bool_decide (base.size (mounted m) <= 1)%nat.

Lemma lone_apart m : lone m = true → segments_apart m.
Proof.
  unfold lone. rewrite bool_decide_eq_true. intros Hs id id' ms ms' H1 H2 Hne. exfalso.
  assert (base.size (delete id (mounted m)) = 0)%nat as E by (rewrite map_size_delete, H1; lia).
  apply map_size_empty_iff in E. assert (delete id (mounted m) !! id' = Some ms') as H by (by rewrite lookup_delete_ne). by rewrite E in H.
Qed.

Fixpoint run (evs : list (Event B)) g : option (System A B) :=
  match evs with
  | [] => Some g
  | ev :: evs => g ← handle cfg hash rules ev g; if lone (s_master g) then run evs g else None
  end.

Lemma run_reachable evs g g' :
  sreachable cfg hash rules g → Forall (λ ev, ∀ now, event_ok cfg now ev) evs → run evs g = Some g' → sreachable cfg hash rules g'.
Proof.
  intros HR HF. revert g HR. induction HF as [|ev evs Hev HF IH]; intros g HR; cbn; [by intros [= <-]|].
  intros (g1 & E1 & E)%bind_Some. destruct (lone (s_master g1)) eqn:El; [|done]. apply (IH g1); [|done].
  eapply sreach_step; [exact HR|]. apply (sstep_event cfg hash rules _ ev); [done|done|by apply lone_apart].
Qed.
End runs.

Module ClientDemo.
Open Scope string_scope.
Import Demo.

Abbreviation Sys := (System Demo.A Demo.B).
Abbreviation Ev := (Event Demo.B).

Definition answer (flag : bool) (ss : list (option TransferStatusEnum)) : Oracle := mkOracle flag ss shuffle.
Definition no : Oracle := answer false [].
Definition yes : Oracle := answer true [].
Definition done_ (n : nat) : Oracle := answer true (replicate n (Some TS.COMPLETED)).

Definition peer : ClientConfig := mkClientConfig (Some (mkSubmitter false "host:2")) false 10.
Definition filled (c : ascii) : Memory := λ _, c.
Definition from : list Slice := [mkSlice 1000 2; mkSlice 2000 3].
Definition into : list Slice := [mkSlice 5000 2; mkSlice 6000 3].

Definition initial : Sys := mkSystem (sys_master Demo.start) 100 (λ _ _, "0"%char) [].

(** The bytes of batch 0 of operation [i], from request [n0] on. *)
Definition move_all (i n0 : nat) (sl : list Slice) : list Ev :=
  imap (λ n s, Move i 0 (n0 + n) <$> seqZ 0 (slice_size s)) sl ≫= id.

Definition mount : list Ev := [Call (CMountSegment true segment client)].
(** Up to the submission of the transfer. *)
Definition put_start (i : nat) : list Ev := [Step i no; Step i yes; Step i no; Step i yes; Step i yes; Step i yes].
Definition put_end (i : nat) : list Ev := [Step i (done_ 2); Step i yes; Step i no; Step i yes; Step i no].
Definition get (i : nat) : list Ev :=
  [Step i yes; Step i no; Step i yes; Step i no; Step i yes; Step i yes; Step i yes] ++ move_all i 0 into ++
  [Step i (done_ 2); Step i yes; Step i yes].


Definition thread (g : Sys) (i : nat) : Thread := default (mkThread (JRemove key) (filled "0") (Ret []) (filled "0") []) (s_threads g !! i).

(** ** A transfer that fails while the rest of its batch is under way

    Operation 0 writes an object; the engine reports one of its two requests as failed, so the
    object is revoked.  Operation 1 writes another object, to the same memory.  Then the engine
    moves the rest of the first batch.  Operation 2 reads the second object. *)

Definition loose_engine : EngineRules := mkRules false false false.

Definition other : string := "other".
Definition put_failed (i : nat) : list Ev :=
  [Step i (answer true [Some TS.FAILED; Some TS.PENDING]); Step i yes; Step i no; Step i yes; Step i no].

Definition late_write : list Ev :=
  mount ++ [Start peer (JPut key from config) (filled "a")] ++ put_start 0 ++ put_failed 0 ++
  [Start peer (JPut other from config) (filled "b")] ++ put_start 1 ++ move_all 1 0 from ++ put_end 1 ++
  [Move 0 0 1 0; Move 0 0 1 1] ++
  [Start peer (JGet other into) (filled "z")] ++ get 2.

Definition after_late_write : Sys := default initial (run cfg hash loose_engine late_write initial).

(** ** A write whose start is answered but not heard

    Operation 0 writes an object; the master starts it, but its answer is lost.  Operation 1
    writes the object again, operation 2 reads it. *)



(** ** The runs are runs of the system *)

Definition events_ok (evs : list Ev) : Prop := Forall (λ ev, ∀ now, event_ok cfg now ev) evs.

Lemma steps_ok (i : nat) os : Forall (λ o, or_shuffle o = shuffle) os → events_ok (Step i <$> os).
Proof. intros HF. apply Forall_fmap. eapply Forall_impl; [exact HF|]. intros o E now. cbn. by rewrite E. Qed.

Lemma moves_ok i n0 sl : events_ok (move_all i n0 sl).
Proof.
  apply Forall_forall. intros ev (evs & Hin & [n Hn]%list_elem_of_lookup)%list_elem_of_bind.
  rewrite list_lookup_imap in Hn. apply fmap_Some in Hn as (s & _ & ->). apply list_elem_of_fmap in Hin as (j & -> & _). done.
Qed.

Lemma mount_ok : events_ok mount.
Proof. constructor; [|constructor]. intros now. split; [done|]. apply segment_ok. Qed.

Lemma put_start_ok i : events_ok (put_start i).
Proof. apply (steps_ok i [no; yes; no; yes; yes; yes]). by repeat constructor. Qed.

Lemma put_end_ok i : events_ok (put_end i).
Proof. apply (steps_ok i [done_ 2; yes; no; yes; no]). by repeat constructor. Qed.

Lemma put_failed_ok i : events_ok (put_failed i).
Proof. apply (steps_ok i [answer true [Some TS.FAILED; Some TS.PENDING]; yes; no; yes; no]). by repeat constructor. Qed.

Lemma get_ok i : events_ok (get i).
Proof.
  apply Forall_app. split; [apply (steps_ok i [yes; no; yes; no; yes; yes; yes]); by repeat constructor|].
  apply Forall_app. split; [apply moves_ok|]. apply (steps_ok i [done_ 2; yes; yes]). by repeat constructor.
Qed.

Lemma put_job_ok k : job_ok (JPut k from config).
Proof.
  split; cbn; [| |by intros [] ? ? ? ?|done].
  - intros k' sl s [= -> ->]%list_elem_of_singleton. unfold from. rewrite !elem_of_cons. by intros [->|[->|?%elem_of_nil]].
  - intros k' sl c [= -> ->]%list_elem_of_singleton [= <-]. split; [by repeat constructor|vm_compute; congruence|done].
Qed.

Lemma get_job_ok k : job_ok (JGet k into).
Proof.
  split; cbn; [|by intros ? ? ? ?%elem_of_nil| |done].
  - intros k' sl s [= -> ->]%list_elem_of_singleton. unfold into. rewrite !elem_of_cons. by intros [->|[->|?%elem_of_nil]].
  - intros [|[|x]] [|[|y]] s s'; cbn; intros; simplify_eq; [left|right]; cbn; lia.
Qed.

Lemma start_ok j mem : job_ok j → put_config j = None ∨ (∃ k, j = JPut k from config) → events_ok [Start peer j mem].
Proof. intros Hj Hp. constructor; [|constructor]. intros now. split; [done|]. intros keys sls c sub ->. destruct Hp as [?|[? ?]]; done. Qed.


Lemma late_write_ok : events_ok late_write.
Proof.
  apply Forall_app. split; [apply mount_ok|]. apply Forall_app. split; [apply start_ok; [apply put_job_ok|right; by eexists]|].
  apply Forall_app. split; [apply put_start_ok|]. apply Forall_app. split; [apply put_failed_ok|].
  apply Forall_app. split; [apply start_ok; [apply put_job_ok|right; by eexists]|]. apply Forall_app. split; [apply put_start_ok|].
  apply Forall_app. split; [apply moves_ok|]. apply Forall_app. split; [apply put_end_ok|].
  apply Forall_app. split; [by repeat constructor|]. apply Forall_app. split; [apply start_ok; [apply get_job_ok|by left]|apply get_ok].
Qed.


Lemma reachable_initial rules : sreachable cfg hash rules initial.
Proof. apply sreach_init; [done|]. by vm_compute. Qed.

Lemma run_after rules evs :
  events_ok evs → found (run cfg hash rules evs initial) = true →
  sreachable cfg hash rules (default initial (run cfg hash rules evs initial)).
Proof.
  intros HF. destruct (run cfg hash rules evs initial) as [g|] eqn:E; [|done]. intros _.
  exact (run_reachable cfg hash rules evs initial g (reachable_initial rules) HF E).
Qed.


Lemma reachable_after_late_write : sreachable cfg hash loose_engine after_late_write.
Proof. apply run_after; [apply late_write_ok|]. by vm_compute. Qed.


Lemma thread_lookup g i : (i <? length (s_threads g))%nat = true → s_threads g !! i = Some (thread g i).
Proof. intros Hl%Nat.ltb_lt. unfold thread. by destruct (lookup_lt_is_Some_2 _ _ Hl) as [th ->]. Qed.

End ClientDemo.

Import ClientDemo.

(** ** The guarantees at work *)













(** ** Without the guarantees of the engine *)

(** Who wrote what, in a system with three operations. *)
Lemma put_of_three (g : System Demo.A Demo.B) k mem sl :
  length (s_threads g) = 3%nat → put_of (s_threads g) k mem sl → ∃ i, (i < 3)%nat ∧ (k, sl) ∈ puts (th_job (thread g i)) ∧ mem = th_start (thread g i).
Proof.
  intros Hl (i & th & Hi & Hin & <-). exists i. pose proof (lookup_lt_Some _ _ _ Hi) as Hlt. rewrite Hl in Hlt. split; [done|].
  assert (thread g i = th) as -> by (unfold thread; by rewrite Hi). done.
Qed.

Lemma late_count : length (s_threads after_late_write) = 3%nat.
Proof. by vm_compute. Qed.
Lemma late_puts_0 : puts (th_job (thread after_late_write 0)) = [(Demo.key, from)].
Proof. by vm_compute. Qed.
Lemma late_puts_1 : puts (th_job (thread after_late_write 1)) = [(other, from)].
Proof. by vm_compute. Qed.
Lemma late_puts_2 : puts (th_job (thread after_late_write 2)) = [].
Proof. by vm_compute. Qed.
Lemma late_start_1 : th_start (thread after_late_write 1) = filled "b"%char.
Proof. by vm_compute. Qed.

Lemma late_puts mem sl : put_of (s_threads after_late_write) other mem sl → mem = filled "b"%char ∧ sl = from.
Proof.
  intros (i & Hi & Hin & ->)%(put_of_three _ _ _ _ late_count). destruct i as [|[|[|i]]]; [| | |exfalso; clear Hin; lia].
  - rewrite late_puts_0 in Hin. apply list_elem_of_singleton in Hin. discriminate Hin.
  - rewrite late_puts_1 in Hin. apply list_elem_of_singleton in Hin. split; [exact late_start_1|]. congruence.
  - rewrite late_puts_2 in Hin. by apply elem_of_nil in Hin.
Qed.

(** C36: The engine of the repository does not stop a batch when it reports one of its requests as
    failed, nor when the batch is freed.  Then a write that failed and was revoked can still
    change memory that was handed out again: here a [Get] reports success and returns bytes that
    no write of its key was given. *)
Theorem late_write_corrupts_reader :
  ∃ (g : System Demo.A Demo.B) (i : nat) (th : Thread) (k : string) (sl : list Slice),
    sreachable Demo.cfg Demo.hash loose_engine g ∧ s_threads g !! i = Some th ∧ th_prog th = Ret [inr tt] ∧
    gets (th_job th) !! 0%nat = Some (k, sl) ∧ ¬ reads_as (th_memory th) (s_threads g) k sl.
Proof.
  exists after_late_write, 2%nat, (thread after_late_write 2), other, into. split; [exact reachable_after_late_write|].
  split; [apply thread_lookup; by vm_compute|]. split; [by vm_compute|]. split; [by vm_compute|].
  intros (mem & sl & [-> ->]%late_puts & HF). cbn in HF. apply Forall2_cons in HF as [_ HF]. apply Forall2_cons in HF as [[_ HF] _].
  specialize (HF 0 ltac:(cbn; lia)). vm_compute in HF. discriminate HF.
Qed.

(** ** Lost answers *)





