(* ===== verification/ClientPing.v ===== *)
(** * ClientPing: the heartbeat of a client

    A thread of the client pings the master, starts a remount of the client's segments when the
    master asks for it, and connects again after three failed pings.  With the master of
    MasterService this brings back a client whose segments the master has forgotten. *)

From S2P Require Import Prelude Types BufferAllocator Replica ReplicaHeap SegmentManager SegmentInv MasterService MasterInv MasterSegments MasterSteps MasterCorrect.
From S2P Require Import StorageBackend ClientProg TransferTask StoreClient ClientSegments.
Open Scope Z_scope.

(** ** The thread *)

Module Heartbeat.
(** MasterClient::Connect; the second result is [client_addr_param_], which is set before the
    master has answered. *)
Definition Connect (client_addr_param_ master_addr : string) : Prog (ErrorCode * string) :=
  (if bool_decide (client_addr_param_ = master_addr) then mret tt else perform (SetClientPool master_addr));;
  result ← invoke_rpc MServiceReady;
  mret (match result with inl e => e | inr _ => EC.OK end, master_addr).


Definition max_ping_fail_count : Z := 3.
Definition success_ping_interval_ms : Z := 1000.
Definition fail_ping_interval_ms : Z := 1000.

(** [remounting]: the future of a remount is valid. *)
Record Locals := mkLocals {
  ping_fail_count : Z;
  remounting : bool;
  current_master_address : string;
  client_addr_param_ : string;
}.
Definition with_fails (n : Z) (l : Locals) : Locals := mkLocals n (remounting l) (current_master_address l) (client_addr_param_ l).
Definition with_remounting (b : bool) (l : Locals) : Locals := mkLocals (ping_fail_count l) b (current_master_address l) (client_addr_param_ l).
Definition with_addr (a : string) (l : Locals) : Locals := mkLocals (ping_fail_count l) (remounting l) a (client_addr_param_ l).
Definition with_param (a : string) (l : Locals) : Locals := mkLocals (ping_fail_count l) (remounting l) (current_master_address l) a.

(** The future is given up when the remount has ended. *)
Definition join_ready (l : Locals) : Prog Locals :=
  if remounting l then ready ← perform RemountReady; mret (with_remounting (negb ready) l) else mret l.

Definition pinged (response : PingResponse) (l : Locals) : Prog Locals :=
  let l := with_fails 0 l in
  l ← (if bool_decide (client_status response = CS_NEED_REMOUNT) && negb (remounting l)
       then perform RemountStart;; mret (with_remounting true l) else mret l);
  perform (SleepMs success_ping_interval_ms);; mret l.

Definition reconnect (address : string) (l : Locals) : Prog Locals :=
  r ← Connect (client_addr_param_ l) address;
  let l := with_param r.2 l in
  if negb (bool_decide (r.1 = EC.OK)) then perform (SleepMs fail_ping_interval_ms);; mret l
  else mret (with_fails 0 (with_addr address l)).

Definition failed (is_ha_mode : bool) (l : Locals) : Prog Locals :=
  let l := with_fails (ping_fail_count l + 1) l in
  if ping_fail_count l <? max_ping_fail_count then perform (SleepMs fail_ping_interval_ms);; mret l
  else if is_ha_mode then
    view ← perform GetMasterView;
    match view with
    | inl _ => perform (SleepMs fail_ping_interval_ms);; mret l
    | inr master_address => reconnect master_address l
    end
  else reconnect (current_master_address l) l.

(** One turn of the loop. *)
Definition turn (client_id_ : UUID) (is_ha_mode : bool) (l : Locals) : Prog Locals :=
  l ← join_ready l;
  ping_result ← invoke_rpc (MPing client_id_);
  match ping_result with
  | inr response => pinged response l
  | inl _ => failed is_ha_mode l
  end.

(** [turns] bounds the turns of the loop. *)
Fixpoint loop (turns : nat) (client_id_ : UUID) (is_ha_mode : bool) (l : Locals) : Prog unit :=
  match turns with
  | O => Act Spin (λ e : Empty_set, match e with end)
  | S turns =>
      running ← perform PingRunning;
      if (running : bool) then l ← turn client_id_ is_ha_mode l; loop turns client_id_ is_ha_mode l
      else if remounting l then perform RemountWait else mret tt
  end.

Definition PingThreadMain (turns : nat) (client_id_ : UUID) (is_ha_mode : bool) (address : string) : Prog unit :=
  loop turns client_id_ is_ha_mode (mkLocals 0 false address address).
End Heartbeat.
Import Heartbeat.

(** ** One remount at a time *)

(** [busy]: a remount was started and has not been found ended.  No remount is started while
    another is busy, and the thread does not end before it. *)
Fixpoint alone {R} (p : Prog R) (busy : bool) (Q : R → bool → Prop) : Prop :=
  match p with
  | Ret r => Q r busy
  | Act a k =>
      match a in Action X return (X → Prog R) → (∀ x : X, bool → Prop) → Prop with
      | RemountStart => λ _ rec, busy = false ∧ rec tt true
      | RemountReady => λ _ rec, ∀ ready, rec ready (busy && negb ready)
      | RemountWait => λ _ rec, rec tt false
      | _ => λ _ rec, ∀ x, rec x busy
      end k (λ x b, alone (k x) b Q)
  end.

Lemma alone_mono {R} (p : Prog R) b (Q Q' : R → bool → Prop) : (∀ r b, Q r b → Q' r b) → alone p b Q → alone p b Q'.
Proof.
  intros HQ. revert b. induction p as [r|X a k IH]; intros b; cbn; [apply HQ|]. destruct a; cbn; intros H; try (intros x; by apply IH).
  - destruct H as [Hb H]. split; [done|]. by apply IH.
  - by apply IH.
Qed.

Lemma alone_bind {R R'} (p : Prog R) (f : R → Prog R') b Q : alone p b (λ r b, alone (f r) b Q) → alone (p ≫= f) b Q.
Proof.
  revert b. induction p as [r|X a k IH]; intros b; cbn; [done|]. destruct a; cbn; intros H; try (intros x; by apply IH).
  - destruct H as [Hb H]. split; [done|]. by apply IH.
  - by apply IH.
Qed.

(** What a call of the master or a pause does not change. *)
Lemma alone_rpc {X} (c : MasterCall (expected X)) b : alone (invoke_rpc c) b (λ _ b', b' = b).
Proof. cbn. intros [|]; cbn; [done|]. intros x [|]; done. Qed.

Lemma join_ready_alone l : alone (join_ready l) (remounting l) (λ l' b, b = remounting l').
Proof. unfold join_ready. destruct (remounting l) eqn:E; cbn; [done|]. done. Qed.

Lemma pinged_alone r l : alone (pinged r l) (remounting l) (λ l' b, b = remounting l').
Proof. unfold pinged. cbn. destruct (bool_decide _), (remounting l) eqn:E; cbn; try done; by rewrite E. Qed.

Lemma reconnect_alone a l : alone (reconnect a l) (remounting l) (λ l' b, b = remounting l').
Proof.
  unfold reconnect, Connect. apply alone_bind, alone_bind. eapply (alone_mono _ _ (λ _ b, b = remounting l)); [|by destruct (bool_decide _)].
  intros [] b ->. apply alone_bind. eapply alone_mono; [|apply alone_rpc]. intros r b ->. cbn. by destruct (negb _).
Qed.

Lemma failed_alone ha l : alone (failed ha l) (remounting l) (λ l' b, b = remounting l').
Proof.
  unfold failed. cbn. destruct (_ <? _); [done|]. destruct ha; [|apply (reconnect_alone _ (with_fails (ping_fail_count l + 1) l))].
  cbn. intros [e|a]; [done|]. apply (reconnect_alone _ (with_fails (ping_fail_count l + 1) l)).
Qed.

Lemma turn_alone id ha l : alone (turn id ha l) (remounting l) (λ l' b, b = remounting l').
Proof.
  unfold turn. apply alone_bind. eapply alone_mono; [|apply join_ready_alone]. intros l1 b ->.
  apply alone_bind. eapply alone_mono; [|apply alone_rpc]. intros [e|r] b ->; [apply failed_alone|apply pinged_alone].
Qed.

Lemma loop_alone turns id ha l : alone (loop turns id ha l) (remounting l) (λ _ b, b = false).
Proof.
  revert l. induction turns as [|turns IH]; intros l; cbn; [by intros []|]. intros [|]; cbn.
  - apply alone_bind. eapply alone_mono; [|apply turn_alone]. intros l1 b ->. apply IH.
  - destruct (remounting l) eqn:E; by cbn.
Qed.

(** C32: The thread that pings starts a remount only when the one before has ended, whatever the
    master and etcd answer, and has none under way when it returns. *)
Theorem one_remount_at_a_time turns id ha address :
  alone (PingThreadMain turns id ha address) false (λ _ busy, busy = false).
Proof. apply (loop_alone turns id ha (mkLocals 0 false address address)). Qed.

(** ** With the master *)

Section with_master.
Context {A B : Type} {ops : BufferAllocator A B} {laws : BufferAllocatorLaws A B}.
Context (cfg : MasterServiceConfig) (hash : string → Z) (view_version : Z).
Implicit Types (m : Master A B) (s : SegState (A := A)).















End with_master.




