(* ===== verification/HighAvailability.v ===== *)
(** * HighAvailability: the election of the master

    Masters elect a leader through a key in etcd that is tied to a lease.  etcd and its client
    library are parameters with their documented laws; the wrapper of mooncake-common/etcd,
    EtcdHelper, MasterViewHelper and MasterServiceSupervisor are translated.  A cluster is a
    number of supervisors, each with its main thread, its thread that keeps the lease and its
    RPC server, and the time. *)

From S2P Require Import Prelude Types.
Open Scope Z_scope.

(** ** etcd *)

Record KeyValue := mkKeyValue { kv_value : string; kv_lease : Z; kv_create_revision : Z }.

(** Answer of a transaction; an error is that of a lease that does not exist. *)
Inductive Txn := TxnError | TxnFailed | TxnSucceeded (revision : Z).

(** [et_view] is the master view key. *)
Class Etcd (E : Type) := {
  et_view : E → option KeyValue;
  et_granted : E → gset Z;
  et_revision : E → Z;
  et_grant : Z → Z → E → Z * E;
  et_create : Z → string → Z → E → Txn * E;
  et_renew : Z → Z → E → E;
  et_expire : Z → E → E;
}.

(** What the documentation of etcd promises: lease identifiers are not used twice, a
    transaction that requires CreateRevision 0 succeeds only when there is no key, every
    change of the store has a larger revision, and a key goes only with its lease. *)
Class EtcdLaws (E : Type) `{Etcd E} := {
  et_grant_ok now ttl e l e' : et_grant now ttl e = (l, e') →
    l ∉ et_granted e ∧ et_granted e' = {[l]} ∪ et_granted e ∧ et_view e' = et_view e ∧ et_revision e <= et_revision e';
  et_create_ok now v l e r e' : et_create now v l e = (r, e') → et_granted e' = et_granted e ∧
    match r with
    | TxnSucceeded revision => et_view e = None ∧ et_view e' = Some (mkKeyValue v l revision) ∧
        et_revision e < revision ∧ et_revision e' = revision
    | TxnFailed => is_Some (et_view e) ∧ e' = e
    | TxnError => e' = e
    end;
  et_renew_ok now l e : et_granted (et_renew now l e) = et_granted e ∧ et_view (et_renew now l e) = et_view e ∧
    et_revision e <= et_revision (et_renew now l e);
  et_expire_ok now e : et_granted (et_expire now e) = et_granted e ∧ et_revision e <= et_revision (et_expire now e) ∧
    (et_view (et_expire now e) = et_view e ∨ et_view (et_expire now e) = None);
}.

(** ** The wrapper and EtcdHelper

    [None] is a call that failed. *)

Definition EtcdStoreGetWrapper (resp : option (option KeyValue)) : Z * option (string * Z) :=
  match resp with
  | None => (-1, None)
  | Some None => (-2, None)
  | Some (Some kv) => (0, Some (kv_value kv, kv_create_revision kv))
  end.
Definition EtcdStoreGrantLeaseWrapper (resp : option Z) : Z * option Z :=
  match resp with None => (-1, None) | Some id => (0, Some id) end.
Definition EtcdStoreCreateWithLeaseWrapper (resp : option Txn) : Z * option Z :=
  match resp with
  | None | Some TxnError => (-1, None)
  | Some TxnFailed => (-2, None)
  | Some (TxnSucceeded revision) => (0, Some revision)
  end.

Module EtcdHelper.
Definition Get (resp : option (option KeyValue)) : ErrorCode * option (string * Z) :=
  let '(ret, out) := EtcdStoreGetWrapper resp in
  if ret =? -2 then (EC.ETCD_KEY_NOT_EXIST, None)
  else if negb (ret =? 0) then (EC.ETCD_OPERATION_ERROR, None)
  else (EC.OK, out).
Definition CreateWithLease (resp : option Txn) : ErrorCode * option Z :=
  let '(ret, out) := EtcdStoreCreateWithLeaseWrapper resp in
  if ret =? -2 then (EC.ETCD_TRANSACTION_FAIL, None)
  else if negb (ret =? 0) then (EC.ETCD_OPERATION_ERROR, None)
  else (EC.OK, out).
Definition GrantLease (resp : option Z) : ErrorCode * option Z :=
  let '(ret, out) := EtcdStoreGrantLeaseWrapper resp in
  if negb (ret =? 0) then (EC.ETCD_OPERATION_ERROR, None) else (EC.OK, out).
End EtcdHelper.

(** MasterViewHelper::GetMasterView *)
Definition GetMasterView (resp : option (option KeyValue)) : ErrorCode * option (string * Z) := EtcdHelper.Get resp.

(** ** A supervisor *)

Definition ETCD_MASTER_VIEW_LEASE_TTL : Z := 5.
Definition seconds_ms (s : Z) : Z := s * 1000.

(** Where the main thread is: in the loop of Start, or inside ElectLeader ([PGet] to
    [PCreate]).  [PWatching d]: the watch is set up; [d]: it has delivered a deletion. *)
Inductive Pc :=
| PInit
| PGet
| PPause (until : Z)
| PWatch
| PWatching (deleted : bool)
| PGrant
| PCreate (lease : Z)
| PSpawn (lease version : Z)
| PWait (lease version until : Z)
| PStart (lease version : Z)
| PServing (lease version : Z)
| PCancel (lease : Z) (leave : bool)
| PJoin (leave : bool)
| PExit.

(** The thread that keeps the lease: not started, before KeepAlive, in KeepAlive (its context
    cancelled or not), after KeepAlive, ended.  [since] is when it was started. *)
Inductive Keeper :=
| KNone
| KReady (lease since : Z)
| KAlive (lease since : Z) (cancelled : bool)
| KReturned (lease since : Z)
| KDone.

Inductive Server := SInit | SStarted | SStopped.

Record Supervisor := mkSupervisor {
  sv_host : string;
  sv_pc : Pc;
  sv_keeper : Keeper;
  sv_server : Server;
}.
Definition sv_at (pc : Pc) (s : Supervisor) : Supervisor := mkSupervisor (sv_host s) pc (sv_keeper s) (sv_server s).
Definition sv_keep (k : Keeper) (s : Supervisor) : Supervisor := mkSupervisor (sv_host s) (sv_pc s) k (sv_server s).
Definition sv_serve (v : Server) (s : Supervisor) : Supervisor := mkSupervisor (sv_host s) (sv_pc s) (sv_keeper s) v.

(** ** The cluster *)

(** An election that succeeded. *)
Record Election := mkElection { el_lease : Z; el_version : Z; el_time : Z }.

(** [cl_elections] (the latest first) and [cl_gone] (when the key of a lease was deleted) are
    the history. *)
Record Cluster (E : Type) := mkCluster {
  cl_now : Z;
  cl_etcd : E;
  cl_supervisors : list Supervisor;
  cl_elections : list Election;
  cl_gone : gmap Z Z;
}.
#[global] Arguments mkCluster {E}.
#[global] Arguments cl_now {E}.
#[global] Arguments cl_etcd {E}.
#[global] Arguments cl_supervisors {E}.
#[global] Arguments cl_elections {E}.
#[global] Arguments cl_gone {E}.

(** What is relied on besides etcd.  [notice] (milliseconds): so long after the deletion of the
    key at the latest, or after its own start if that is later, the thread that keeps the lease
    has seen KeepAlive return and has stopped the server.
    [restarts]: whether an RPC server that was stopped before it was started can be started. *)
Record HaRules := mkHaRules { notice : Z; restarts : bool }.

Inductive HaEvent :=
| HTick (t : Z)
| HExpire
| HRun (i : nat) (ok : bool)
| HLost (i : nat)
| HKeep (i : nat) (closed : bool)
| HServerFails (i : nat)
| HDie (i : nat)
| HBoot (i : nat).

Section cluster.
Context {E : Type} `{Etcd E} (rules : HaRules).
Implicit Types (c : Cluster E) (s : Supervisor).

Definition cl_put (i : nat) s c : Cluster E :=
  mkCluster (cl_now c) (cl_etcd c) (<[i := s]> (cl_supervisors c)) (cl_elections c) (cl_gone c).
Definition cl_store (e : E) c : Cluster E := mkCluster (cl_now c) e (cl_supervisors c) (cl_elections c) (cl_gone c).
Definition cl_elect (el : Election) c : Cluster E :=
  mkCluster (cl_now c) (cl_etcd c) (cl_supervisors c) (el :: cl_elections c) (cl_gone c).

Definition pause c : Pc := PPause (cl_now c + seconds_ms 1).

(** [ElectLeader], one call of etcd at a time; [ok] is false when the call fails. *)
Definition elect_get c (ok : bool) : Pc :=
  let '(ret, _) := EtcdHelper.Get (if ok then Some (et_view (cl_etcd c)) else None) in
  if negb (bool_decide (ret = EC.OK)) && negb (bool_decide (ret = EC.ETCD_KEY_NOT_EXIST)) then pause c
  else if negb (bool_decide (ret = EC.ETCD_KEY_NOT_EXIST)) then PWatch
  else PGrant.

Definition elect_grant c (ok : bool) : Pc * E :=
  let '(l, e) := et_grant (cl_now c) ETCD_MASTER_VIEW_LEASE_TTL (cl_etcd c) in
  match EtcdHelper.GrantLease (if ok then Some l else None) with
  | (EC.OK, Some l) => (PCreate l, e)
  | _ => (pause c, if ok then e else cl_etcd c)
  end.

(** [lost]: the transaction was done but its answer did not arrive. *)
Definition elect_create c (host : string) (lease : Z) (ok lost : bool) : Pc * Cluster E :=
  let '(txn, e) := if ok || lost then et_create (cl_now c) host lease (cl_etcd c) else (TxnError, cl_etcd c) in
  let c' := match txn with
            | TxnSucceeded revision => cl_elect (mkElection lease revision (cl_now c)) (cl_store e c)
            | _ => cl_store e c
            end in
  match EtcdHelper.CreateWithLease (if ok then Some txn else None) with
  | (EC.OK, Some version) => (PSpawn lease version, c')
  | _ => (pause c, c')
  end.

(** [EtcdHelper::CancelKeepAlive]: cancels the context when it is registered. *)
Definition CancelKeepAlive (lease : Z) (k : Keeper) : Keeper :=
  match k with KAlive l since _ => if l =? lease then KAlive l since true else k | _ => k end.

(** One step of the main thread: [MasterServiceSupervisor::Start]. *)
Definition run c (i : nat) s (ok : bool) : option (Cluster E) :=
  match sv_pc s with
  | PInit => Some (cl_put i (sv_at (if ok then PGet else PExit) s) c)
  | PGet => Some (cl_put i (sv_at (elect_get c ok) s) c)
  | PPause until => if until <=? cl_now c then Some (cl_put i (sv_at PGet s) c) else None
  | PWatch => Some (cl_put i (sv_at (if ok then PWatching false else pause c) s) c)
  | PWatching deleted =>
      if deleted then Some (cl_put i (sv_at PGrant s) c)
      else if ok then None else Some (cl_put i (sv_at (pause c) s) c)
  | PGrant => let '(pc, e) := elect_grant c ok in Some (cl_put i (sv_at pc s) (cl_store e c))
  | PCreate lease => let '(pc, c') := elect_create c (sv_host s) lease ok false in Some (cl_put i (sv_at pc s) c')
  | PSpawn lease version =>
      let until := cl_now c + seconds_ms ETCD_MASTER_VIEW_LEASE_TTL in
      Some (cl_put i (sv_keep (KReady lease (cl_now c)) (sv_at (PWait lease version until) s)) c)
  | PWait lease version until => if until <=? cl_now c then Some (cl_put i (sv_at (PStart lease version) s) c) else None
  | PStart lease version =>
      let startable := match sv_server s with SInit => true | SStarted => false | SStopped => restarts rules end in
      if ok && startable then Some (cl_put i (sv_serve SStarted (sv_at (PServing lease version) s)) c)
      else Some (cl_put i (sv_at (PCancel lease true) s) c)
  | PServing lease version =>
      match sv_server s with SStopped => Some (cl_put i (sv_at (PCancel lease false) s) c) | _ => None end
  | PCancel lease leave => Some (cl_put i (sv_keep (CancelKeepAlive lease (sv_keeper s)) (sv_at (PJoin leave) s)) c)
  | PJoin leave =>
      match sv_keeper s with
      | KDone => Some (cl_put i (mkSupervisor (sv_host s) (if leave then PExit else PInit) KNone SInit) c)
      | _ => None
      end
  | PExit => None
  end.

(** One step of the thread of [KeepLeader]; [closed]: the channel of the lease is closed. *)
Definition keep c (i : nat) s (closed : bool) : option (Cluster E) :=
  match sv_keeper s with
  | KReady l since => Some (cl_put i (sv_keep (if closed then KReturned l since else KAlive l since false) s) c)
  | KAlive l since cancelled =>
      if cancelled || closed then Some (cl_put i (sv_keep (KReturned l since) s) c)
      else Some (cl_store (et_renew (cl_now c) l (cl_etcd c)) c)
  | KReturned _ _ => Some (cl_put i (sv_keep KDone (sv_serve SStopped s)) c)
  | _ => None
  end.

(** The lease that is kept, and since when. *)
Definition keeps s : option (Z * Z) :=
  match sv_keeper s with KReady l t | KAlive l t _ | KReturned l t => Some (l, t) | _ => None end.

(** Time does not pass beyond the notice of a deletion. *)
Definition in_time c (t : Z) s : bool :=
  match keeps s with
  | Some (l, since) => match cl_gone c !! l with Some x => t <=? Z.max x since + notice rules | None => true end
  | None => true
  end.

(** A deletion is delivered to the watches that are set up. *)
Definition deliver s : Supervisor :=
  match sv_pc s with PWatching _ => sv_at (PWatching true) s | _ => s end.

Definition expire c : Cluster E :=
  let e := et_expire (cl_now c) (cl_etcd c) in
  match et_view (cl_etcd c), et_view e with
  | Some kv, None =>
      mkCluster (cl_now c) e (deliver <$> cl_supervisors c) (cl_elections c) (<[kv_lease kv := cl_now c]> (cl_gone c))
  | _, _ => cl_store e c
  end.

Definition ha_handle (ev : HaEvent) c : option (Cluster E) :=
  match ev with
  | HTick t =>
      if (cl_now c <=? t) && forallb (in_time c t) (cl_supervisors c)
      then Some (mkCluster t (cl_etcd c) (cl_supervisors c) (cl_elections c) (cl_gone c)) else None
  | HExpire => Some (expire c)
  | HRun i ok => s ← cl_supervisors c !! i; run c i s ok
  | HLost i =>
      s ← cl_supervisors c !! i;
      match sv_pc s with
      | PCreate lease => let '(pc, c') := elect_create c (sv_host s) lease false true in Some (cl_put i (sv_at pc s) c')
      | _ => None
      end
  | HKeep i closed => s ← cl_supervisors c !! i; keep c i s closed
  | HServerFails i =>
      s ← cl_supervisors c !! i;
      match sv_server s with SStarted => Some (cl_put i (sv_serve SStopped s) c) | _ => None end
  | HDie i => s ← cl_supervisors c !! i; Some (cl_put i (mkSupervisor (sv_host s) PExit KNone SInit) c)
  | HBoot i =>
      s ← cl_supervisors c !! i;
      match sv_pc s with PExit => Some (cl_put i (mkSupervisor (sv_host s) PInit KNone SInit) c) | _ => None end
  end.

Inductive ha_reachable : Cluster E → Prop :=
| ha_init t e hosts : et_view e = None → ha_reachable (mkCluster t e ((λ h, mkSupervisor h PInit KNone SInit) <$> hosts) [] ∅)
| ha_next c c' ev : ha_reachable c → ha_handle ev c = Some c' → ha_reachable c'.

(** The RPC server answers. *)
Definition serving s : bool := match sv_server s with SStarted => true | _ => false end.
End cluster.
