(* ===== verification/HaCorrect.v ===== *)
(** * HaCorrect: at most one master serves

    The invariant of the cluster, and what the election guarantees; and two ways in which it
    falls short: candidates that wait for a deletion they have missed, and a server that is
    started after its lease was lost. *)

From S2P Require Import Prelude Types HighAvailability.
Open Scope Z_scope.

Abbreviation ttl := (seconds_ms ETCD_MASTER_VIEW_LEASE_TTL).

Definition lease_of (s : Supervisor) : option Z :=
  match sv_pc s with
  | PCreate l | PSpawn l _ | PWait l _ _ | PStart l _ | PServing l _ | PCancel l _ => Some l
  | _ => None
  end.

Section correct.
Context {E : Type} {etcd : Etcd E} {laws : EtcdLaws E} (rules : HaRules).
Implicit Types (c : Cluster E) (s : Supervisor).

(** ** The invariant *)

(** The election of a supervisor, won [ttl] before [t], as its keeper was started. *)
Definition won c s (l v t : Z) : Prop :=
  (∃ el, el ∈ cl_elections c ∧ el_lease el = l ∧ el_version el = v ∧ el_time el + ttl <= t) ∧
  ∀ since, keeps s = Some (l, since) → since + ttl <= t.

Definition kept s (l : Z) : Prop := sv_keeper s = KDone ∨ ∃ since, keeps s = Some (l, since).

Record sup_ok c s : Prop := {
  so_granted l : lease_of s = Some l → l ∈ et_granted (cl_etcd c);
  so_fresh l : sv_pc s = PCreate l → l ∉ el_lease <$> cl_elections c;
  so_stage : match sv_pc s with
             | PSpawn l v => ∃ el, el ∈ cl_elections c ∧ el_lease el = l ∧ el_version el = v ∧ el_time el <= cl_now c
             | PWait l v until => won c s l v until
             | PStart l v | PServing l v => won c s l v (cl_now c)
             | _ => True
             end;
  so_keeper : match sv_pc s with
              | PWait l _ _ | PStart l _ | PServing l _ | PCancel l _ => kept s l
              | PJoin _ => True
              | _ => sv_keeper s = KNone ∧ sv_server s = SInit
              end;
  so_done : sv_keeper s = KDone → sv_server s = SStopped;
  so_started : sv_server s = SStarted → ∃ l v since, sv_pc s = PServing l v ∧ keeps s = Some (l, since);
  so_time l since x : keeps s = Some (l, since) → cl_gone c !! l = Some x → cl_now c <= Z.max x since + notice rules;
}.

Record cluster_inv c : Prop := {
  ci_sup i s : cl_supervisors c !! i = Some s → sup_ok c s;
  ci_unique i j s s' l : cl_supervisors c !! i = Some s → cl_supervisors c !! j = Some s' →
    lease_of s = Some l → lease_of s' = Some l → i = j;
  ci_known el : el ∈ cl_elections c →
    el_lease el ∈ et_granted (cl_etcd c) ∧ el_time el <= cl_now c ∧ el_version el <= et_revision (cl_etcd c);
  ci_nodup : NoDup (el_lease <$> cl_elections c);
  ci_over p el : cl_elections c !! p = Some el →
    (p = 0%nat ∧ ∃ kv, et_view (cl_etcd c) = Some kv ∧ kv_lease kv = el_lease el) ∨
    ∃ x, cl_gone c !! el_lease el = Some x ∧ x <= cl_now c;
  ci_view kv : et_view (cl_etcd c) = Some kv → ∃ el, cl_elections c !! 0%nat = Some el ∧ el_lease el = kv_lease kv;
  ci_order p q a b : cl_elections c !! p = Some a → cl_elections c !! q = Some b → (p < q)%nat →
    el_version b < el_version a ∧ ∃ x, cl_gone c !! el_lease b = Some x ∧ x <= el_time a;
}.

Lemma won_mono c c' s l v t t' :
  (∀ el, el ∈ cl_elections c → el ∈ cl_elections c') → t <= t' → won c s l v t → won c' s l v t'.
Proof.
  intros He Ht [(el & Hel & ? & ? & ?) Hs]. split; [exists el; split_and!; [by apply He|done|done|lia]|].
  intros since ?%Hs. lia.
Qed.

Lemma sup_ok_mono c c' s :
  cl_now c <= cl_now c' → et_granted (cl_etcd c) ⊆ et_granted (cl_etcd c') →
  (∀ el, el ∈ cl_elections c → el ∈ cl_elections c') →
  (∀ l, sv_pc s = PCreate l → l ∉ el_lease <$> cl_elections c → l ∉ el_lease <$> cl_elections c') →
  (∀ l since x, keeps s = Some (l, since) → cl_gone c' !! l = Some x → cl_now c' <= Z.max x since + notice rules) →
  sup_ok c s → sup_ok c' s.
Proof.
  intros Hnow Hg He Hf Ht [H1 H2 H3 H4 H5 H6 H7]. split; [set_solver|by eauto| |done..].
  destruct (sv_pc s); try done.
  - destruct H3 as (el & Hel & ? & ? & ?). exists el. split_and!; [by apply He|done|done|lia].
  - by eapply won_mono.
  - by eapply won_mono.
  - by eapply won_mono.
Qed.

(** ** One supervisor moves *)

Lemma put_inv c i s s' :
  cluster_inv c → cl_supervisors c !! i = Some s → sup_ok c s' → lease_of s' = lease_of s ∨ lease_of s' = None →
  cluster_inv (cl_put i s' c).
Proof.
  intros [I1 I2 I3 I4 I5 I6 I7] Hi Hs' Hl. split; cbn; [| |done..].
  - intros j s0 Hj. apply list_lookup_insert_Some in Hj as [(_ & <- & _)|[_ Hj]]; [by destruct Hs'|]. by destruct (I1 j s0 Hj).
  - intros j k s0 s1 l Hj Hk L0 L1. apply list_lookup_insert_Some in Hj as [(<- & <- & _)|[Hne Hj]];
      apply list_lookup_insert_Some in Hk as [(E1 & <- & _)|[Hne' Hk]]; try done.
    + destruct Hl as [Hl|Hl]; [|congruence]. apply (I2 i k s s1 l); congruence.
    + destruct Hl as [Hl|Hl]; [|congruence]. apply (I2 j k s0 s l); congruence.
    + by apply (I2 j k s0 s1 l).
Qed.

(** etcd moves, the key stays. *)
Lemma store_inv c e :
  cluster_inv c → et_view e = et_view (cl_etcd c) → et_granted (cl_etcd c) ⊆ et_granted e →
  et_revision (cl_etcd c) <= et_revision e → cluster_inv (cl_store e c).
Proof.
  intros [I1 I2 I3 I4 I5 I6 I7] Hv Hg Hr. split; cbn; rewrite ?Hv; [|done| |done..].
  - intros i s Hi. apply (sup_ok_mono c); [done|done|done|done| |by eapply I1]. apply (I1 i s Hi).
  - intros el (? & ? & ?)%I3. split_and!; [by apply Hg|done|lia].
Qed.

Lemma tick_inv c t :
  cluster_inv c → cl_now c <= t → forallb (in_time rules c t) (cl_supervisors c) = true →
  cluster_inv (mkCluster t (cl_etcd c) (cl_supervisors c) (cl_elections c) (cl_gone c)).
Proof.
  intros [I1 I2 I3 I4 I5 I6 I7] Ht Hf. split; cbn; [|done| |done| |done|done].
  - intros i s Hi. apply (sup_ok_mono c); [done..| |by eapply I1]. cbn. intros l since x Hk Hx.
    rewrite forallb_forall in Hf. specialize (Hf s). rewrite <-list_elem_of_In in Hf. specialize (Hf (list_elem_of_lookup_2 _ _ _ Hi)).
    unfold in_time in Hf. rewrite Hk, Hx in Hf. lia.
  - intros el (? & ? & ?)%I3. split_and!; [done|lia|done].
  - intros p el [?|(x & ? & ?)]%I5; [by left|right]. exists x. split; [done|lia].
Qed.

(** The key is deleted. *)
Lemma deliver_ok c s : sup_ok c s → sup_ok c (deliver s).
Proof.
  unfold deliver. destruct (sv_pc s) eqn:Ep; try done. intros [H1 H2 H3 H4 H5 H6 H7]. rewrite Ep in H4.
  split; cbn; try done. intros (l & v & t & ? & ?)%H6. congruence.
Qed.

Lemma deliver_lease s : lease_of (deliver s) = lease_of s.
Proof. unfold deliver, lease_of. by destruct (sv_pc s) eqn:Ep; rewrite ?Ep. Qed.

Lemma expire_inv c : 0 <= notice rules → cluster_inv c → cluster_inv (expire c).
Proof.
  intros Hn HI. unfold expire. destruct (et_expire_ok (cl_now c) (cl_etcd c)) as (Eg & Er & Ev).
  destruct (et_view (cl_etcd c)) as [kv|] eqn:E1, (et_view (et_expire _ _)) as [kv'|] eqn:E2;
    try (apply store_inv; [done|rewrite ?E1, ?E2; by destruct Ev|by rewrite Eg|done]).
  destruct HI as [I1 I2 I3 I4 I5 I6 I7]. destruct (I6 kv E1) as (el0 & H0 & El0).
  split; cbn; rewrite ?Eg; [| | |done| |by rewrite E2|].
  - intros i s Hi. rewrite list_lookup_fmap in Hi. apply fmap_Some in Hi as (s0 & Hi & ->). apply deliver_ok.
    apply (sup_ok_mono c); cbn; [done|by rewrite Eg|done|done| |by eapply I1].
    intros l since x Hk [[_ <-]|[_ Hx]]%lookup_insert_Some; [lia|]. by apply (so_time _ _ (I1 i s0 Hi) l).
  - intros i j s s' l Hi Hj. rewrite list_lookup_fmap in Hi, Hj. apply fmap_Some in Hi as (s0 & Hi & ->), Hj as (s1 & Hj & ->).
    rewrite !deliver_lease. by apply (I2 i j s0 s1).
  - intros el (? & ? & ?)%I3. split_and!; [done|done|lia].
  - intros p el Hp. right. destruct (decide (kv_lease kv = el_lease el)) as [->|Hne]; [exists (cl_now c); by rewrite lookup_insert_eq|].
    rewrite lookup_insert_ne by done. destruct (I5 p el Hp) as [(-> & kv' & ? & ?)|?]; [congruence|done].
  - intros p q a b Hp Hq Hlt. destruct (I7 p q a b Hp Hq Hlt) as (? & x & ? & ?). split; [done|]. exists x. split; [|done].
    rewrite lookup_insert_ne; [done|]. rewrite <-El0. intros Hl. destruct q as [|q]; [lia|]. rewrite H0 in *.
    assert (0%nat = S q); [|done]. eapply (NoDup_lookup _ _ _ (el_lease b) I4); rewrite list_lookup_fmap; [by rewrite H0, <-Hl|by rewrite Hq].
Qed.

(** A candidate wins. *)
Lemma elect_inv c i s l host revision e pc :
  cluster_inv c → cl_supervisors c !! i = Some s → sv_pc s = PCreate l →
  et_create (cl_now c) host l (cl_etcd c) = (TxnSucceeded revision, e) → pc = PSpawn l revision ∨ (∃ t, pc = PPause t) →
  cluster_inv (cl_put i (sv_at pc s) (cl_elect (mkElection l revision (cl_now c)) (cl_store e c))).
Proof.
  intros [I1 I2 I3 I4 I5 I6 I7] Hi Ep Ec Hpc. destruct (et_create_ok _ _ _ _ _ _ Ec) as (Eg & Ev & Ev' & Hr & Er).
  destruct (I1 i s Hi) as [S1 S2 _ S4 S5 S6 S7]. unfold lease_of in S1. rewrite Ep in S1, S2, S4. destruct S4 as [Sk Ss].
  assert (∀ p el, cl_elections c !! p = Some el → ∃ x, cl_gone c !! el_lease el = Some x ∧ x <= cl_now c) as Hall.
  { intros p el [(_ & kv & ? & _)|?]%I5; [congruence|done]. }
  set (c' := cl_elect _ _). assert (∀ s0, sup_ok c s0 → sv_pc s0 ≠ PCreate l → sup_ok (cl_put i (sv_at pc s) c') s0) as Hother.
  { intros s0 H0 Hp. apply (sup_ok_mono c); cbn; [done|by rewrite Eg|intros el ?; by right| | |done].
    - intros l' Hl' Hn. rewrite not_elem_of_cons. split; [by intros ->|done].
    - apply H0. }
  split; cbn; rewrite ?Eg, ?Er, ?Ev'.
  - intros j s0 Hj. apply list_lookup_insert_Some in Hj as [(_ & <- & _)|[Hne Hj]].
    + destruct Hpc as [->|[t ->]]; split; cbn; unfold keeps, lease_of; cbn; rewrite ?Sk, ?Ss, ?Eg; try done.
      exists (mkElection l revision (cl_now c)). split_and!; [by left|done|done|done].
    + apply Hother; [by eapply I1|]. intros Hp. apply Hne. apply (I2 i j s s0 l); unfold lease_of; by rewrite ?Ep, ?Hp.
  - intros j k s0 s1 l0 Hj Hk L0 L1. assert (lease_of (sv_at pc s) = Some l ∨ lease_of (sv_at pc s) = None) as Hl.
    { destruct Hpc as [->|[t ->]]; cbn; [by left|by right]. }
    assert (lease_of s = Some l) as Ls by (unfold lease_of; by rewrite Ep).
    apply list_lookup_insert_Some in Hj as [(<- & <- & _)|[Hne Hj]]; apply list_lookup_insert_Some in Hk as [(E1 & <- & _)|[Hne' Hk]]; try done.
    + destruct Hl; [|congruence]. apply (I2 i k s s1 l0); congruence.
    + destruct Hl; [|congruence]. apply (I2 j k s0 s l0); congruence.
    + by apply (I2 j k s0 s1 l0).
  - intros el [->|(? & ? & ?)%I3]%elem_of_cons; cbn; [split_and!; [by apply S1|done|done]|split_and!; [done|done|lia]].
  - constructor; [by apply S2|done].
  - intros [|p] el Hp; cbn in Hp; [simplify_eq|right; by eapply Hall]. left. split; [done|]. eexists. by split.
  - intros kv [= <-]. eexists. by split.
  - intros [|p] [|q] a b Hp Hq Hlt; cbn in Hp, Hq; try lia; simplify_eq; [|apply (I7 p q a b); [done|done|lia]]. cbn.
    destruct (I3 b) as (_ & _ & ?); [by eapply list_elem_of_lookup_2|]. split; [lia|]. by eapply Hall.
Qed.

(** ** The steps of a supervisor *)

(** Where no lease is held. *)
Definition early (pc : Pc) : bool :=
  match pc with PInit | PGet | PPause _ | PWatch | PWatching _ | PGrant | PExit => true | _ => false end.

Lemma early_ok c s pc : early pc = true → sv_keeper s = KNone → sv_server s = SInit → sup_ok c (sv_at pc s).
Proof.
  intros Hp Hk Hs. unfold early in Hp. split; unfold lease_of, keeps; cbn; rewrite ?Hk, ?Hs; try done; by destruct pc.
Qed.

Lemma early_inv c i s pc :
  cluster_inv c → cl_supervisors c !! i = Some s → sv_keeper s = KNone → sv_server s = SInit → early pc = true →
  cluster_inv (cl_put i (sv_at pc s) c).
Proof.
  intros HI Hi Hk Hs Hp. eapply put_inv; [done|done|by apply early_ok|]. right. unfold lease_of. by destruct pc.
Qed.

(** The last four steps of a term only change the supervisor. *)
Lemma term_inv c i s s' l :
  cluster_inv c → cl_supervisors c !! i = Some s → lease_of s = Some l → lease_of s' = Some l → sup_ok c s' →
  cluster_inv (cl_put i s' c).
Proof. intros HI Hi Hl Hl' Hs'. eapply put_inv; [done|done|done|]. left. congruence. Qed.

Lemma create_inv c i s l ok lost pc c' :
  cluster_inv c → cl_supervisors c !! i = Some s → sv_pc s = PCreate l → elect_create c (sv_host s) l ok lost = (pc, c') →
  cluster_inv (cl_put i (sv_at pc s) c').
Proof.
  intros HI Hi Ep. pose proof (so_keeper _ _ (ci_sup _ HI i s Hi)) as Hk. rewrite Ep in Hk. destruct Hk as [Hk Hs].
  unfold elect_create. assert (∀ e, e = cl_etcd c → cluster_inv (cl_put i (sv_at (pause c) s) (cl_store e c))) as Hsame.
  { intros e ->. eapply early_inv; [by apply store_inv|done..]. }
  destruct (ok || lost) eqn:Eo.
  - destruct (et_create _ _ _ _) as [txn e] eqn:Ec. pose proof (et_create_ok _ _ _ _ _ _ Ec) as [_ Ht].
    destruct txn as [| |revision]; destruct ok; cbn; intros [= <- <-]; try (by apply Hsame); try (apply Hsame; apply Ht).
    + eapply elect_inv; [done|done|done|exact Ec|by left].
    + eapply elect_inv; [done|done|done|exact Ec|right; by eexists].
  - destruct ok; [done|]. cbn. intros [= <- <-]. by apply Hsame.
Qed.

Lemma grant_inv c i s ok pc e :
  cluster_inv c → cl_supervisors c !! i = Some s → sv_pc s = PGrant → elect_grant c ok = (pc, e) →
  cluster_inv (cl_put i (sv_at pc s) (cl_store e c)).
Proof.
  intros HI Hi Ep. pose proof (so_keeper _ _ (ci_sup _ HI i s Hi)) as Hk. rewrite Ep in Hk. destruct Hk as [Hk Hs].
  unfold elect_grant. destruct (et_grant _ _ _) as [l e'] eqn:Eg. destruct (et_grant_ok _ _ _ _ _ Eg) as (Hl & Hg & Hv & Hr).
  destruct ok; cbn; intros [= <- <-]; [|eapply early_inv; [by apply store_inv|done..]].
  assert (cluster_inv (cl_store e' c)) as HI' by (apply store_inv; [done|done|rewrite Hg; set_solver|done]).
  pose proof (ci_known _ HI) as Hknown. destruct HI' as [I1 I2 I3 I4 I5 I6 I7]. split; cbn; [| |done..].
  - intros j s0 Hj. apply list_lookup_insert_Some in Hj as [(_ & <- & _)|[_ Hj]]; [|by destruct (I1 j s0 Hj)].
    split; unfold lease_of, keeps; cbn; rewrite ?Hk, ?Hs; try done; [intros ? [= <-]; rewrite Hg; set_solver|].
    intros ? [= <-] (el & -> & Hel)%list_elem_of_fmap. by destruct (Hknown el Hel).
  - assert (∀ j s0, cl_supervisors c !! j = Some s0 → lease_of s0 = Some l → False) as Hno
      by (intros j s0 Hj ?%(so_granted _ _ (ci_sup _ HI j s0 Hj)); done).
    intros j k s0 s1 l0 Hj Hk0 L0 L1. apply list_lookup_insert_Some in Hj as [(<- & <- & _)|[Hne Hj]];
      apply list_lookup_insert_Some in Hk0 as [(E1 & <- & _)|[Hne' Hk0]]; try done.
    + cbn in L0. simplify_eq. by destruct (Hno k s1).
    + cbn in L1. simplify_eq. by destruct (Hno j s0).
    + by apply (I2 j k s0 s1 l0).
Qed.

Lemma run_inv c c' i s ok :
  restarts rules = false → 0 <= notice rules → cluster_inv c → cl_supervisors c !! i = Some s → run rules c i s ok = Some c' → cluster_inv c'.
Proof.
  intros Hr Hn HI Hi. pose proof (ci_sup _ HI i s Hi) as HS. pose proof HS as [S1 S2 S3 S4 S5 S6 S7].
  unfold run. destruct (sv_pc s) as [| |u| |d| |l|l v|l v u|l v|l v|l leave|leave|] eqn:Ep;
    try (match type of S4 with _ ∧ _ => destruct S4 as [Sk Ss] end); cbn in S3.
  - intros [= <-]. apply early_inv; [done..|]. by destruct ok.
  - intros [= <-]. apply early_inv; [done..|]. unfold elect_get. destruct (EtcdHelper.Get _). repeat case_match; done.
  - destruct (_ <=? _); intros [= <-]. by apply early_inv.
  - intros [= <-]. apply early_inv; [done..|]. by destruct ok.
  - destruct d; [|destruct ok; [done|]]; intros [= <-]; by apply early_inv.
  - destruct (elect_grant c ok) as [pc e] eqn:Eg. intros [= <-]. by eapply grant_inv.
  - destruct (elect_create _ _ _ _ _) as [pc c1] eqn:Ec. intros [= <-]. by eapply create_inv.
  - intros [= <-]. destruct S3 as (el & Hel & <- & <- & Ht). eapply term_inv; [done|done|unfold lease_of; by rewrite Ep|done|].
    split; unfold lease_of, keeps; cbn; rewrite ?Ss; try done.
    + intros ? [= <-]. apply S1. unfold lease_of. by rewrite Ep.
    + split; [exists el; split_and!; [done|done|done|lia]|]. cbn. intros since [= <-]. lia.
    + right. eexists. done.
    + intros ? ? x [= <- <-] _. lia.
  - destruct (Z.leb_spec u (cl_now c)); intros [= <-]. eapply term_inv; [done|done|unfold lease_of; by rewrite Ep|done|].
    split; cbn; [unfold lease_of in S1; by rewrite Ep in S1|done| |done|done| |done].
    + by eapply won_mono.
    + intros (? & ? & ? & ? & _)%S6. congruence.
  - rewrite Hr. destruct (ok && _) eqn:Eo; intros [= <-]; (eapply term_inv; [done|done|unfold lease_of; by rewrite Ep|done|]).
    + assert (sv_server s = SInit) as Es by (destruct ok, (sv_server s); done). destruct S4 as [S4|[since S4]]; [by rewrite S5 in Es|].
      split; cbn; [unfold lease_of in S1; by rewrite Ep in S1|done|done|right; by exists since|..|done].
      * intros Hd. unfold keeps in S4. by rewrite Hd in S4.
      * intros _. by exists l, v, since.
    + split; cbn; [unfold lease_of in S1; by rewrite Ep in S1|done|done|done|done| |done].
      intros (? & ? & ? & ? & _)%S6. congruence.
  - destruct (sv_server s) eqn:Es; intros [= <-]. eapply term_inv; [done|done|unfold lease_of; by rewrite Ep|done|].
    split; cbn; rewrite ?Es; [unfold lease_of in S1; by rewrite Ep in S1|done..].
  - intros [= <-]. assert (keeps (mkSupervisor (sv_host s) (PJoin leave) (CancelKeepAlive l (sv_keeper s)) (sv_server s)) = keeps s) as Ek.
    { unfold keeps, CancelKeepAlive. cbn. destruct (sv_keeper s); try done. by destruct (_ =? _). }
    eapply put_inv; [done|done| |by right]. split; cbn; try done.
    + intros Hd. apply S5. unfold CancelKeepAlive in Hd. destruct (sv_keeper s); try done. by destruct (_ =? _).
    + intros (? & ? & ? & ? & _)%S6. congruence.
    + intros l0 since x Hk. apply S7. rewrite <-Ek. exact Hk.
  - destruct (sv_keeper s) eqn:Ek; intros [= <-]. eapply put_inv; [done|done|apply (early_ok c (mkSupervisor (sv_host s) PInit KNone SInit)); [by destruct leave|done..]|].
    right. by destruct leave.
  - done.
Qed.

Lemma keep_inv c c' i s closed :
  cluster_inv c → cl_supervisors c !! i = Some s → keep c i s closed = Some c' → cluster_inv c'.
Proof.
  intros HI Hi. pose proof (ci_sup _ HI i s Hi) as HS. unfold keep.
  assert (∀ k l since, keeps s = Some (l, since) → keeps (sv_keep k s) = Some (l, since) → cluster_inv (cl_put i (sv_keep k s) c)) as Hmove.
  { intros k l since Hk Hk'. eapply put_inv; [done|done| |by left]. destruct HS as [S1 S2 S3 S4 S5 S6 S7].
    split; cbn; [done|done| | | | |by rewrite Hk', <-Hk].
    - unfold won in *. by rewrite Hk', <-Hk.
    - unfold kept in *. rewrite Hk', <-Hk. assert (k ≠ KDone) by (intros ->; done). assert (sv_keeper s ≠ KNone ∧ sv_keeper s ≠ KDone) as [? ?].
      { unfold keeps in Hk. by destruct (sv_keeper s). }
      destruct (sv_pc s); try (by destruct S4); by destruct S4 as [?|?]; [|right].
    - intros ->. done.
    - rewrite Hk', <-Hk. done. }
  destruct (sv_keeper s) as [|l since|l since cancelled|l since|] eqn:Ek; try done.
  - intros [= <-]. apply (Hmove _ l since); unfold keeps; [by rewrite Ek|by destruct closed].
  - destruct (_ || _); intros [= <-]; [apply (Hmove _ l since); unfold keeps; by rewrite ?Ek|].
    destruct (et_renew_ok (cl_now c) l (cl_etcd c)) as (Eg & Ev & Er). apply store_inv; [done|done|by rewrite Eg|done].
  - intros [= <-]. eapply put_inv; [done|done| |by left]. destruct HS as [S1 S2 S3 S4 S5 S6 S7]. split; cbn; try done.
    + destruct (sv_pc s); try done; (split; [apply S3|done]).
    + destruct (sv_pc s); rewrite ?Ek in S4; try (by destruct S4); by left.
Qed.

Lemma handle_inv c c' ev :
  restarts rules = false → 0 <= notice rules → cluster_inv c → ha_handle rules ev c = Some c' → cluster_inv c'.
Proof.
  intros Hr Hn HI. destruct ev as [t| |i ok|i|i closed|i|i|i]; cbn [ha_handle].
  - destruct (_ && _) eqn:Eb; intros [= <-]. apply andb_true_iff in Eb as [Ht Hf]. apply tick_inv; [done|lia|done].
  - intros [= <-]. by apply expire_inv.
  - intros (s & Hi & E0)%bind_Some. by eapply run_inv.
  - intros (s & Hi & E0)%bind_Some. destruct (sv_pc s) eqn:Ep; try done. destruct (elect_create _ _ _ _ _) as [pc c1] eqn:Ec.
    apply (inj Some) in E0 as <-. by eapply create_inv.
  - intros (s & Hi & E0)%bind_Some. by eapply keep_inv.
  - intros (s & Hi & E0)%bind_Some. destruct (sv_server s) eqn:Es; try done. apply (inj Some) in E0 as <-.
    eapply put_inv; [done|done| |by left]. destruct (ci_sup _ HI i s Hi) as [S1 S2 S3 S4 S5 S6 S7]. split; cbn; try done.
    destruct (S6 Es) as (l & v & since & Ep & _). rewrite Ep in *. done.
  - intros (s & Hi & E0)%bind_Some. apply (inj Some) in E0 as <-.
    eapply put_inv; [done|done|by apply (early_ok c (mkSupervisor (sv_host s) PInit KNone SInit) PExit)|by right].
  - intros (s & Hi & E0)%bind_Some. destruct (sv_pc s); try done. apply (inj Some) in E0 as <-.
    eapply put_inv; [done|done|by apply (early_ok c (mkSupervisor (sv_host s) PInit KNone SInit) PInit)|by right].
Qed.

Lemma reachable_inv c : restarts rules = false → 0 <= notice rules → ha_reachable rules c → cluster_inv c.
Proof.
  intros Hr Hn. induction 1 as [t e hosts Hv|c c' ev _ IH Hh]; [|by eapply handle_inv].
  split; cbn; try done; [| |by intros el ?%elem_of_nil|constructor|intros kv; by rewrite Hv].
  - intros i s Hi. rewrite list_lookup_fmap in Hi. apply fmap_Some in Hi as (h & _ & ->). by split.
  - intros i j s s' l Hi. rewrite list_lookup_fmap in Hi. by apply fmap_Some in Hi as (h & _ & ->).
Qed.

(** ** Guarantees *)

(** C3: There is no split brain: at any time at most one RPC server of the cluster answers, with any
    number of supervisors that crash, restart, lose messages and leases, provided that a leader
    has stopped its server less than the time a lease lives after the deletion of its key, and that
    a server that was stopped cannot be started. *)
Theorem one_master_serves c i j s s' :
  restarts rules = false → 0 <= notice rules < seconds_ms ETCD_MASTER_VIEW_LEASE_TTL → ha_reachable rules c →
  cl_supervisors c !! i = Some s → cl_supervisors c !! j = Some s' → serving s = true → serving s' = true → i = j.
Proof.
  intros Hr [Hn Hlt] HR Hi Hj Hs Hs'. pose proof (reachable_inv c Hr Hn HR) as HI.
  assert (∀ k s, cl_supervisors c !! k = Some s → serving s = true → ∃ l v since p el, lease_of s = Some l ∧
    keeps s = Some (l, since) ∧ since + ttl <= cl_now c ∧ cl_elections c !! p = Some el ∧ el_lease el = l ∧ el_time el + ttl <= cl_now c ∧ el_version el = v) as Hserve.
  { intros k s0 Hk H0. destruct (ci_sup _ HI k s0 Hk) as [_ _ S3 _ _ S6 _]. unfold serving in H0. destruct (sv_server s0) eqn:Es; try done.
    destruct (S6 eq_refl) as (l & v & since & Ep & Ek). rewrite Ep in S3. destruct S3 as [(el & Hel & ? & ? & ?) Hsince].
    apply list_elem_of_lookup in Hel as [p Hp]. exists l, v, since, p, el. unfold lease_of. rewrite Ep. auto 10. }
  destruct (Hserve i s Hi Hs) as (l & v & since & p & a & L1 & K1 & T1 & P1 & A1 & E1 & _).
  destruct (Hserve j s' Hj Hs') as (l' & v' & since' & q & b & L2 & K2 & T2 & P2 & A2 & E2 & _).
  destruct (Nat.lt_total p q) as [Hpq|[->|Hpq]].
  - destruct (ci_order _ HI p q a b P1 P2 Hpq) as (_ & x & Hx & Hxa). rewrite A2 in Hx.
    pose proof (so_time _ _ (ci_sup _ HI j s' Hj) _ _ _ K2 Hx). lia.
  - rewrite P1 in P2. simplify_eq. by apply (ci_unique _ HI i j s s' (el_lease b)).
  - destruct (ci_order _ HI q p b a P2 P1 Hpq) as (_ & x & Hx & Hxb). rewrite A1 in Hx.
    pose proof (so_time _ _ (ci_sup _ HI i s Hi) _ _ _ K1 Hx). lia.
Qed.

(** The view version grows with every election. *)
Theorem view_versions_increase c p q a b :
  restarts rules = false → 0 <= notice rules → ha_reachable rules c →
  cl_elections c !! p = Some a → cl_elections c !! q = Some b → (p < q)%nat → el_version b < el_version a.
Proof. intros Hr Hn HR Hp Hq Hlt. by apply (ci_order _ (reachable_inv c Hr Hn HR) p q a b Hp Hq Hlt). Qed.

(** ** A missed deletion *)

(** Nobody holds the key, and everybody who is alive waits for it to be deleted. *)
Definition stalled c : Prop :=
  et_view (cl_etcd c) = None ∧ Forall (λ s, sv_keeper s = KNone ∧ (sv_pc s = PExit ∨ sv_pc s = PWatching false)) (cl_supervisors c).

(** No process is started and no call of etcd fails. *)
Definition calm (ev : HaEvent) : bool :=
  match ev with HRun _ ok => ok | HBoot _ | HLost _ => false | _ => true end.

Lemma stalled_put c i s : stalled c → sv_keeper s = KNone → sv_pc s = PExit ∨ sv_pc s = PWatching false → stalled (cl_put i s c).
Proof. intros [Hv HF] Hk Hp. split; [done|]. by apply Forall_insert. Qed.

Lemma stalled_forever c c' ev : stalled c → calm ev = true → ha_handle rules ev c = Some c' → stalled c'.
Proof.
  intros HS Hc. pose proof HS as [Hv HF]. rewrite Forall_lookup in HF.
  destruct ev as [t| |i ok|i|i closed|i|i|i]; cbn [ha_handle calm] in *; try done.
  - destruct (_ && _); intros [= <-]. done.
  - intros [= <-]. unfold expire. rewrite Hv. destruct (et_expire_ok (cl_now c) (cl_etcd c)) as (_ & _ & Ev).
    split; [cbn; destruct Ev; congruence|apply HS].
  - intros (s & Hi & Hr)%bind_Some. destruct (HF i s Hi) as [_ [Ep|Ep]]; unfold run in Hr; rewrite Ep in Hr; [done|]. by destruct ok.
  - intros (s & Hi & Hr)%bind_Some. destruct (HF i s Hi) as [Ek _]. unfold keep in Hr. by rewrite Ek in Hr.
  - intros (s & Hi & Hr)%bind_Some. destruct (sv_server s); try done. apply (inj Some) in Hr as <-. destruct (HF i s Hi). by apply stalled_put.
  - intros (s & Hi & Hr)%bind_Some. apply (inj Some) in Hr as <-. apply stalled_put; [done|done|by left].
Qed.
End correct.

(** ** An etcd in memory *)

Record MemoryEtcd := mkMemoryEtcd {
  me_view : option KeyValue;
  me_granted : gset Z;
  me_revision : Z;
  me_deadlines : gmap Z Z;
}.

#[export] Instance memory_etcd : Etcd MemoryEtcd := {
  et_view := me_view;
  et_granted := me_granted;
  et_revision := me_revision;
  et_grant now t e :=
    let l := fresh (me_granted e) in
    (l, mkMemoryEtcd (me_view e) ({[l]} ∪ me_granted e) (me_revision e) (<[l := now + seconds_ms t]> (me_deadlines e)));
  et_create now v l e :=
    match me_view e, me_deadlines e !! l with
    | Some _, _ => (TxnFailed, e)
    | None, None => (TxnError, e)
    | None, Some _ =>
        let r := me_revision e + 1 in
        (TxnSucceeded r, mkMemoryEtcd (Some (mkKeyValue v l r)) (me_granted e) r (me_deadlines e))
    end;
  et_renew now l e := mkMemoryEtcd (me_view e) (me_granted e) (me_revision e) (alter (λ _, now + ttl) l (me_deadlines e));
  et_expire now e :=
    match me_view e with
    | Some kv => if default now (me_deadlines e !! kv_lease kv) <=? now
                 then mkMemoryEtcd None (me_granted e) (me_revision e + 1) (delete (kv_lease kv) (me_deadlines e)) else e
    | None => e
    end;
}.

#[export] Instance memory_etcd_laws : EtcdLaws MemoryEtcd.
Proof.
  split; cbn.
  - intros now t e l e' [= <- <-]. split_and!; [apply is_fresh|done|done|done].
  - intros now v l e r e'. destruct (me_view e) eqn:Ev; [by intros [= <- <-]|].
    destruct (me_deadlines e !! l); intros [= <- <-]; cbn; [split_and!; [done|done|done|lia|done]|done].
  - done.
  - intros now e. destruct (me_view e) eqn:Ev; [|split_and!; [done|lia|by left]].
    destruct (_ <=? _); cbn; split_and!; try done; try lia; [by right|by left].
Qed.

Module HaDemo.
Definition empty : MemoryEtcd := mkMemoryEtcd None ∅ 0 ∅.
Definition two : Cluster MemoryEtcd := mkCluster 0 empty ((λ h, mkSupervisor h PInit KNone SInit) <$> ["a:1"; "b:1"]%string) [] ∅.

Definition play (rules : HaRules) (evs : list HaEvent) : option (Cluster MemoryEtcd) :=
  foldl (λ c ev, c ← c; ha_handle rules ev c) (Some two) evs.

Lemma play_from rules evs c0 c :
  ha_reachable rules c0 → foldl (λ c ev, c ← c; ha_handle rules ev c) (Some c0) evs = Some c → ha_reachable rules c.
Proof.
  revert c0. induction evs as [|ev evs IH]; intros c0 HR; cbn; [by intros [= <-]|].
  destruct (ha_handle rules ev c0) as [c1|] eqn:E1; [by apply IH, (ha_next _ c0 c1 ev)|].
  intros E2. exfalso. clear -E2. induction evs; [done|by apply IHevs].
Qed.

Lemma play_reachable rules evs c : play rules evs = Some c → ha_reachable rules c.
Proof. apply play_from. by apply (ha_init rules 0 empty ["a:1"; "b:1"]%string). Qed.

Definition outcome (rules : HaRules) (evs : list HaEvent) : Cluster MemoryEtcd := default two (play rules evs).

Lemma outcome_reachable rules evs : (if play rules evs is Some _ then true else false) = true → ha_reachable rules (outcome rules evs).
Proof. unfold outcome. destruct (play rules evs) eqn:Ep; [|done]. intros _. by eapply play_reachable. Qed.

Definition sup (c : Cluster MemoryEtcd) (i : nat) : Supervisor := default (mkSupervisor EmptyString PInit KNone SInit) (cl_supervisors c !! i).

Definition rules : HaRules := mkHaRules 4000 false.

(** From the start of a supervisor to the end of an election it wins. *)
Definition wins (i : nat) : list HaEvent := replicate 4 (HRun i true).
Definition serves : list HaEvent := wins 0 ++ [HRun 0 true; HKeep 0 false; HTick 5000; HRun 0 true; HRun 0 true].

(** Supervisor 1 sees the key of supervisor 0, which dies; the key is deleted before the watch
    is set up. *)
Definition misses : list HaEvent :=
  wins 0 ++ [HDie 0; HRun 1 true; HRun 1 true; HTick 6000; HExpire; HRun 1 true].

(** Supervisor 0 loses its lease before its server is started. *)
Definition splits : list HaEvent :=
  wins 0 ++ [HRun 0 true; HKeep 0 true; HKeep 0 true; HTick 5000; HExpire] ++
  wins 1 ++ [HRun 1 true; HKeep 1 false; HRun 0 true; HRun 0 true; HTick 10000; HRun 1 true; HRun 1 true].
End HaDemo.
Import HaDemo.

Lemma one_master_serves_witness :
  serving (sup (outcome rules serves) 0) = true ∧ 0%nat = 0%nat.
Proof.
  split; [by vm_compute|].
  apply (one_master_serves rules (outcome rules serves) 0 0 (sup (outcome rules serves) 0) (sup (outcome rules serves) 0)).
  - reflexivity.
  - vm_compute. split; congruence.
  - apply outcome_reachable. by vm_compute.
  - by vm_compute.
  - by vm_compute.
  - by vm_compute.
  - by vm_compute.
Defined.

(** C38: The election can come to a halt for ever.  The watch of a candidate reports only deletions
    after it was set up; when the leader's key is deleted between the look at the key and the
    watch, the candidate waits for the deletion of a key that is not there, and as long as nobody is
    started and no call fails there is no master. *)
Theorem election_can_stall :
  ∃ c : Cluster MemoryEtcd, ha_reachable rules c ∧ (∃ s, cl_supervisors c !! 1%nat = Some s ∧ sv_pc s = PWatching false) ∧
    ∀ c', rtc (λ c c', ∃ ev, calm ev = true ∧ ha_handle rules ev c = Some c') c c' → stalled c'.
Proof.
  exists (outcome rules misses). split; [apply outcome_reachable; by vm_compute|].
  split; [exists (sup (outcome rules misses) 1); split; by vm_compute|].
  intros c' Hr. assert (stalled (outcome rules misses)) as HS.
  { split; [by vm_compute|]. apply Forall_lookup. intros [|[|i]] s Hs; vm_compute in Hs; simplify_eq; cbn; auto. }
  induction Hr as [|c1 c2 c3 (ev & Hev & Hh) _ IH]; [done|]. apply IH. by eapply stalled_forever.
Qed.

(** That a stopped server cannot be started is needed: without it the server of a supervisor whose
    lease was lost while it waited is started and nobody stops it. *)
Theorem restarted_server_splits_brain :
  ∃ c : Cluster MemoryEtcd, ha_reachable (mkHaRules 4000 true) c ∧ Forall (λ s, serving s = true) (cl_supervisors c) ∧
    length (cl_supervisors c) = 2%nat.
Proof.
  exists (outcome (mkHaRules 4000 true) splits). split; [apply outcome_reachable; by vm_compute|]. split; [|by vm_compute].
  apply Forall_lookup. intros [|[|i]] s Hs; vm_compute in Hs; simplify_eq; done.
Qed.
