(* ===== verification/Topology.v ===== *)
(** * The device topology of a node

    [Topology] of mooncake-transfer-engine/src/topology.cpp: which network
    devices serve which memory location, their numbering ([resolve]), the
    choice of a device for a transfer and for its retries ([selectDevice]),
    and the removal of a device that cannot be opened ([disableDevice]), with
    the start-up loop of rdma_transport.cpp that pairs the device numbers with
    the contexts ([initializeRdmaResources]). *)

From S2P Require Import Prelude.

Definition kWildcardLocation : string := "*".
Definition ERR_DEVICE_NOT_FOUND : Z := -6.

Record TopologyEntry := mkTopologyEntry {
  preferred_hca : list string;
  avail_hca : list string;
}.

Record ResolvedTopologyEntry := mkResolved {
  r_preferred_hca : list Z;
  r_avail_hca : list Z;
  preferred_hca_name_to_index_map_ : gmap string Z;
  avail_hca_name_to_index_map_ : gmap string Z;
}.

(** What [operator[]] makes of an absent key. *)
Definition resolved_empty : ResolvedTopologyEntry := mkResolved [] [] ∅ ∅.

(** The hash map [matrix_] is the list of its entries in iteration order. *)
Definition TopologyMatrix : Type := list (string * TopologyEntry).

Record Topology := mkTopology {
  matrix_ : TopologyMatrix;
  hca_list_ : list string;
  resolved_matrix_ : gmap string ResolvedTopologyEntry;
}.

Definition push_preferred (hca : string) (i : Z) (r : ResolvedTopologyEntry) : ResolvedTopologyEntry :=
  mkResolved (r_preferred_hca r ++ [i]) (r_avail_hca r)
    (<[hca := i]> (preferred_hca_name_to_index_map_ r)) (avail_hca_name_to_index_map_ r).

Definition push_avail (hca : string) (i : Z) (r : ResolvedTopologyEntry) : ResolvedTopologyEntry :=
  mkResolved (r_preferred_hca r) (r_avail_hca r ++ [i])
    (preferred_hca_name_to_index_map_ r) (<[hca := i]> (avail_hca_name_to_index_map_ r)).

Definition at_location (loc : string) (f : ResolvedTopologyEntry → ResolvedTopologyEntry)
    (m : gmap string ResolvedTopologyEntry) : gmap string ResolvedTopologyEntry :=
  <[loc := f (default resolved_empty (m !! loc))]> m.

(** The locals of [resolve]; [next_hca_map_index] is the length of the list. *)
Record Resolving := mkResolving {
  rs_hcas : list string;
  rs_ids : gmap string Z;
  rs_matrix : gmap string ResolvedTopologyEntry;
}.

Definition number_hca (hca : string) (st : Resolving) : Resolving :=
  match rs_ids st !! hca with
  | Some _ => st
  | None =>
      let i := Z.of_nat (length (rs_hcas st)) in
      mkResolving (rs_hcas st ++ [hca]) (<[hca := i]> (rs_ids st))
        (at_location kWildcardLocation (push_preferred hca i) (rs_matrix st))
  end.

Definition resolve_hca (loc : string) (push : string → Z → ResolvedTopologyEntry → ResolvedTopologyEntry)
    (st : Resolving) (hca : string) : Resolving :=
  let st := number_hca hca st in
  mkResolving (rs_hcas st) (rs_ids st)
    (at_location loc (push hca (default 0 (rs_ids st !! hca))) (rs_matrix st)).

Definition resolve_entry (st : Resolving) (entry : string * TopologyEntry) : Resolving :=
  let st := foldl (resolve_hca entry.1 push_preferred) st (preferred_hca entry.2) in
  foldl (resolve_hca entry.1 push_avail) st (avail_hca entry.2).

Definition resolve (m : TopologyMatrix) : Topology :=
  let st := foldl resolve_entry (mkResolving [] ∅ ∅) m in
  mkTopology m (rs_hcas st) (rs_matrix st).

(** [std::find] followed by [erase]. *)
Fixpoint erase_first (x : string) (l : list string) : list string :=
  match l with
  | [] => []
  | y :: l => if bool_decide (y = x) then l else y :: erase_first x l
  end.

Definition disableDevice (t : Topology) (device_name : string) : Topology :=
  resolve ((λ '(loc, e), (loc, mkTopologyEntry (erase_first device_name (preferred_hca e))
    (erase_first device_name (avail_hca e)))) <$> matrix_ t).

Definition getHcaIndex (r : ResolvedTopologyEntry) (hca : string) : Z :=
  match preferred_hca_name_to_index_map_ r !! hca with
  | Some i => i
  | None => default (-1) (avail_hca_name_to_index_map_ r !! hca)
  end.

(** [selectDevice(storage_type, retry_count)]; [rand] is the value of the
    thread's random generator or round-robin counter, and [None] an index
    outside the chosen vector. *)
Definition select (t : Topology) (rand : Z) (storage_type : string) (retry_count : Z) : option Z :=
  match resolved_matrix_ t !! storage_type with
  | None => Some ERR_DEVICE_NOT_FOUND
  | Some entry =>
      let pref := r_preferred_hca entry in
      let avail := r_avail_hca entry in
      if retry_count =? 0 then
        if bool_decide (pref ≠ []) then pref !! Z.to_nat (u64 rand mod Z.of_nat (length pref))
        else avail !! Z.to_nat (u64 rand mod Z.of_nat (length avail))
      else
        let index := u64 (retry_count - 1) mod Z.of_nat (length pref + length avail) in
        if index <? Z.of_nat (length pref) then pref !! Z.to_nat index
        else avail !! Z.to_nat (index - Z.of_nat (length pref))
  end.

(** [selectDevice(storage_type, hint, retry_count)]; with an empty hint it is
    the overload above. *)
Definition selectDevice (t : Topology) (rand : Z) (storage_type hint : string) (retry_count : Z) : option Z :=
  match resolved_matrix_ t !! storage_type with
  | None => Some ERR_DEVICE_NOT_FOUND
  | Some entry =>
      let hca_idx := if bool_decide (hint = EmptyString) then -1 else getHcaIndex entry hint in
      if bool_decide (hca_idx ≠ -1) then Some hca_idx else select t rand storage_type retry_count
  end.

(** The start-up loop: [construct] says whether the device can be opened; the
    contexts are named by their devices. *)
Definition open_device (construct : string → bool) (st : Topology * list string) (device_name : string) :
    Topology * list string :=
  if construct device_name then (st.1, st.2 ++ [device_name]) else (disableDevice st.1 device_name, st.2).

Definition initializeRdmaResources (construct : string → bool) (t : Topology) : Topology * list string :=
  foldl (open_device construct) (t, []) (hca_list_ t).

(** ** Numbering *)

(** The devices of a matrix, in the order [resolve] meets them. *)
Definition devices_in (m : TopologyMatrix) : list string :=
  m ≫= λ e, preferred_hca e.2 ++ avail_hca e.2.

(** A list without its later repetitions, in order of first occurrence. *)
Definition first_seen (seen l : list string) : list string :=
  foldl (λ acc x, if bool_decide (x ∈ acc) then acc else acc ++ [x]) seen l.

Section numbering.

(** Device [i] of the list is called [h]. *)
Definition named (hcas : list string) (i : Z) (h : string) : Prop := 0 <= i ∧ hcas !! Z.to_nat i = Some h.

(** Matrix [m] lists device [h] at [loc]; the wildcard location has them all. *)
Definition serves (m : TopologyMatrix) (loc h : string) : Prop :=
  (∃ e, (loc, e) ∈ m ∧ h ∈ preferred_hca e ++ avail_hca e) ∨ (loc = kWildcardLocation ∧ h ∈ devices_in m).

Variable S : string → string → Prop.
Hypothesis S_wild : ∀ loc h, S loc h → S kWildcardLocation h.

Record entry_ok (hcas : list string) (loc : string) (r : ResolvedTopologyEntry) : Prop := {
  eo_some : r_preferred_hca r ++ r_avail_hca r ≠ [];
  eo_index i : i ∈ r_preferred_hca r ++ r_avail_hca r → ∃ h, named hcas i h ∧ S loc h;
  eo_pref h i : preferred_hca_name_to_index_map_ r !! h = Some i → named hcas i h ∧ S loc h;
  eo_avail h i : avail_hca_name_to_index_map_ r !! h = Some i → named hcas i h ∧ S loc h;
}.

Record resolving_ok (st : Resolving) : Prop := {
  ro_ids h i : rs_ids st !! h = Some i → named (rs_hcas st) i h;
  ro_known h : h ∈ rs_hcas st ↔ is_Some (rs_ids st !! h);
  ro_entries loc r : rs_matrix st !! loc = Some r → entry_ok (rs_hcas st) loc r;
}.

Lemma named_app hcas x i h : named hcas i h → named (hcas ++ x) i h.
Proof. intros [Hi Hl]. split; [done|]. by apply lookup_app_l_Some. Qed.

Lemma named_last hcas h : named (hcas ++ [h]) (Z.of_nat (length hcas)) h.
Proof. split; [lia|]. rewrite Nat2Z.id. by apply list_lookup_middle. Qed.

Lemma entry_ok_app hcas x loc r : entry_ok hcas loc r → entry_ok (hcas ++ x) loc r.
Proof.
  intros [H1 H2 H3 H4]. split; [done| | |].
  - intros i (h & Hn & Hs)%H2. exists h. split; [by apply named_app|done].
  - intros h i [Hn Hs]%H3. split; [by apply named_app|done].
  - intros h i [Hn Hs]%H4. split; [by apply named_app|done].
Qed.

(** Both ways of recording a device keep an entry in order. *)
Definition pushes (push : string → Z → ResolvedTopologyEntry → ResolvedTopologyEntry) : Prop :=
  ∀ hcas loc h i r, named hcas i h → S loc h → (r = resolved_empty ∨ entry_ok hcas loc r) →
    entry_ok hcas loc (push h i r).

Lemma pushes_preferred : pushes push_preferred.
Proof.
  clear S_wild. intros hcas loc h i r Hn Hs Hr. split; simpl.
  - by destruct (r_preferred_hca r).
  - intros j. rewrite !elem_of_app, list_elem_of_singleton.
    destruct Hr as [->|[_ H2 _ _]]; [set_solver|]. setoid_rewrite elem_of_app in H2. naive_solver.
  - intros h' j [[<- <-]|[_ E]]%lookup_insert_Some; [done|]. destruct Hr as [->|[_ _ H3 _]]; [done|by apply H3].
  - intros h' j E. destruct Hr as [->|[_ _ _ H4]]; [done|by apply H4].
Qed.

Lemma pushes_avail : pushes push_avail.
Proof.
  clear S_wild. intros hcas loc h i r Hn Hs Hr. split; simpl.
  - by destruct (r_preferred_hca r), (r_avail_hca r).
  - intros j. rewrite !elem_of_app, list_elem_of_singleton.
    destruct Hr as [->|[_ H2 _ _]]; [set_solver|]. setoid_rewrite elem_of_app in H2. naive_solver.
  - intros h' j E. destruct Hr as [->|[_ _ H3 _]]; [done|by apply H3].
  - intros h' j [[<- <-]|[_ E]]%lookup_insert_Some; [done|]. destruct Hr as [->|[_ _ _ H4]]; [done|by apply H4].
Qed.

Lemma at_location_ok hcas loc push h i m :
  pushes push → named hcas i h → S loc h →
  (∀ l r, m !! l = Some r → entry_ok hcas l r) →
  ∀ l r, at_location loc (push h i) m !! l = Some r → entry_ok hcas l r.
Proof.
  intros Hp Hn Hs Hm l r. unfold at_location. intros [[<- <-]|[_ E]]%lookup_insert_Some; [|by apply Hm].
  apply Hp; [done..|]. destruct (m !! loc) as [r|] eqn:E; [right; by apply Hm|by left].
Qed.

Lemma number_hca_ok h st : (∃ loc, S loc h) → resolving_ok st →
  resolving_ok (number_hca h st) ∧ is_Some (rs_ids (number_hca h st) !! h).
Proof.
  intros [loc Hs] [H1 H2 H3]. unfold number_hca. destruct (rs_ids st !! h) as [i|] eqn:E; [by eauto|]. split.
  2: { simpl. rewrite lookup_insert_eq. by eexists. }
  split; simpl.
  - intros h' i [[<- <-]|[_ E']]%lookup_insert_Some; [apply named_last|]. by apply named_app, H1.
  - intros h'. rewrite elem_of_app, list_elem_of_singleton, lookup_insert_is_Some, H2.
    destruct (decide (h = h')); naive_solver.
  - apply at_location_ok; [exact pushes_preferred|apply named_last|by eapply S_wild|].
    intros l r El. by apply entry_ok_app, H3.
Qed.

Lemma resolve_hca_ok loc push st h : pushes push → S loc h → resolving_ok st →
  resolving_ok (resolve_hca loc push st h).
Proof.
  intros Hp Hs Hst. destruct (number_hca_ok h st) as [[H1 H2 H3] [i Hi]]; [by eexists|done|].
  split; simpl; [done..|]. apply at_location_ok; [done| |done|done]. rewrite Hi. by apply H1.
Qed.

Lemma resolve_hcas_ok loc push l st : pushes push → (∀ h, h ∈ l → S loc h) → resolving_ok st →
  resolving_ok (foldl (resolve_hca loc push) st l).
Proof.
  intros Hp. revert st. induction l as [|h l IH]; intros st Hl Hst; [done|]. simpl. apply IH.
  - intros h' Hh'. apply Hl. by right.
  - apply resolve_hca_ok; [done|apply Hl; left|done].
Qed.

Lemma resolve_entries_ok m st : (∀ loc e h, (loc, e) ∈ m → h ∈ preferred_hca e ++ avail_hca e → S loc h) →
  resolving_ok st → resolving_ok (foldl resolve_entry st m).
Proof.
  revert st. induction m as [|[loc e] m IH]; intros st Hm Hst; [done|]. simpl. apply IH.
  - intros l e' h Hin. apply Hm. by right.
  - unfold resolve_entry. simpl.
    apply resolve_hcas_ok; [exact pushes_avail| |apply resolve_hcas_ok; [exact pushes_preferred| |done]];
      intros h Hh; apply (Hm loc e); [left|set_solver|left|set_solver].
Qed.
End numbering.

(** What [resolve] yields: every entry of the resolved matrix numbers devices
    of its location. *)
Lemma resolve_ok m : resolving_ok (serves m) (foldl resolve_entry (mkResolving [] ∅ ∅) m).
Proof.
  apply resolve_entries_ok.
  - intros loc h [(e & He & Hh)|[_ Hh]]; right; [|done]. split; [done|].
    apply list_elem_of_bind. by exists (loc, e).
  - intros loc e h He Hh. left. by exists e.
  - split; simpl; [done| |done]. intros h. rewrite lookup_empty, is_Some_alt. set_solver.
Qed.

Definition anywhere (loc h : string) : Prop := True.

Lemma number_hca_list h st : resolving_ok anywhere st →
  rs_hcas (number_hca h st) = first_seen (rs_hcas st) [h].
Proof.
  intros Hst. unfold number_hca. simpl. pose proof (ro_known _ _ Hst h) as Hk.
  destruct (rs_ids st !! h) eqn:E; simpl; case_bool_decide as Hd; try done.
  - exfalso. apply Hd, Hk. by eexists.
  - exfalso. apply Hk in Hd. by destruct Hd.
Qed.

Lemma resolve_hcas_list loc push l st : pushes anywhere push → resolving_ok anywhere st →
  rs_hcas (foldl (resolve_hca loc push) st l) = first_seen (rs_hcas st) l.
Proof.
  intros Hp. revert st. induction l as [|h l IH]; intros st Hst; [done|]. simpl.
  rewrite IH by by apply resolve_hca_ok. simpl. by rewrite number_hca_list.
Qed.

Lemma first_seen_app seen l1 l2 : first_seen seen (l1 ++ l2) = first_seen (first_seen seen l1) l2.
Proof. apply foldl_app. Qed.

Lemma resolve_entries_list m st : resolving_ok anywhere st →
  rs_hcas (foldl resolve_entry st m) = first_seen (rs_hcas st) (devices_in m).
Proof.
  revert st. induction m as [|[loc e] m IH]; intros st Hst; [done|]. cbn [foldl].
  rewrite IH by (by apply (resolve_entries_ok anywhere (λ _ _ _, I) [(loc, e)])).
  unfold resolve_entry, devices_in. cbv zeta. cbn [mbind list_bind fst snd]. rewrite !first_seen_app.
  rewrite resolve_hcas_list; [|exact (pushes_avail _)|apply resolve_hcas_ok; [exact (λ _ _ _, I)|exact (pushes_preferred _)|exact (λ _ _, I)|done]].
  rewrite resolve_hcas_list; [done|exact (pushes_preferred _)|done].
Qed.

Lemma hca_list_resolve m : hca_list_ (resolve m) = first_seen [] (devices_in m).
Proof.
  apply (resolve_entries_list m (mkResolving [] ∅ ∅)). split; simpl; [done| |done].
  intros h. rewrite lookup_empty, is_Some_alt. set_solver.
Qed.

(** *** Removing a device *)

Lemma elem_of_first_seen seen l x : x ∈ first_seen seen l ↔ x ∈ seen ∨ x ∈ l.
Proof.
  revert seen. induction l as [|y l IH]; intros seen; simpl; [set_solver|].
  unfold first_seen in IH. rewrite IH. case_bool_decide; set_solver.
Qed.

Lemma NoDup_first_seen seen l : NoDup seen → NoDup (first_seen seen l).
Proof.
  revert seen. induction l as [|y l IH]; intros seen Hn; simpl; [done|]. apply IH.
  case_bool_decide; [done|]. apply NoDup_app. split_and!; [done|set_solver|apply NoDup_singleton].
Qed.

Lemma first_seen_filter (P : string → Prop) `{∀ x, Decision (P x)} seen l :
  filter P (first_seen seen l) = first_seen (filter P seen) (filter P l).
Proof.
  revert seen. induction l as [|y l IH]; intros seen; [done|].
  change (first_seen seen (y :: l)) with (first_seen (if bool_decide (y ∈ seen) then seen else seen ++ [y]) l).
  rewrite IH. rewrite (filter_cons P y l). destruct (decide (P y)) as [Hy|Hy]; simpl.
  - rewrite (bool_decide_ext (y ∈ filter P seen) (y ∈ seen)) by (rewrite list_elem_of_filter; tauto).
    case_bool_decide; [done|]. rewrite filter_app, filter_cons, decide_True by done. done.
  - case_bool_decide; [done|]. rewrite filter_app, filter_cons, decide_False by done. by rewrite app_nil_r.
Qed.

Lemma erase_first_filter d l : NoDup l → erase_first d l = filter (λ h, h ≠ d) l.
Proof.
  induction 1 as [|x l Hx Hn IH]; [done|]. simpl. rewrite filter_cons. case_bool_decide as Hd.
  - subst. rewrite decide_False by tauto. symmetry. apply filter_all. intros y Hy ->. done.
  - by rewrite decide_True, IH.
Qed.

(** No list of the matrix names a device twice. *)
Definition listed_once (m : TopologyMatrix) : Prop :=
  Forall (λ e, NoDup (preferred_hca e.2) ∧ NoDup (avail_hca e.2)) m.

Lemma matrix_disable t d : listed_once (matrix_ t) →
  matrix_ (disableDevice t d) = (λ e, (e.1, mkTopologyEntry (filter (λ h, h ≠ d) (preferred_hca e.2))
    (filter (λ h, h ≠ d) (avail_hca e.2)))) <$> matrix_ t.
Proof.
  intros Hm. unfold disableDevice, resolve. simpl. apply list_fmap_ext. intros i [loc e] Hi. simpl.
  eapply Forall_lookup_1 in Hm as [H1 H2]; [|done]. by rewrite !erase_first_filter.
Qed.

Lemma listed_once_disable t d : listed_once (matrix_ t) → listed_once (matrix_ (disableDevice t d)).
Proof.
  intros Hm. rewrite matrix_disable by done. apply Forall_fmap. eapply Forall_impl; [exact Hm|].
  intros [loc e] [H1 H2]. split; simpl; by apply NoDup_filter.
Qed.

Lemma hca_list_disable t d : listed_once (matrix_ t) → hca_list_ t = first_seen [] (devices_in (matrix_ t)) →
  hca_list_ (disableDevice t d) = filter (λ h, h ≠ d) (hca_list_ t).
Proof.
  intros Hm Ht. rewrite Ht, first_seen_filter. unfold disableDevice at 1. rewrite hca_list_resolve.
  f_equal. change (devices_in (matrix_ (disableDevice t d)) = filter (λ h, h ≠ d) (devices_in (matrix_ t))).
  rewrite matrix_disable by done. unfold devices_in. clear. induction (matrix_ t) as [|e m IH]; [done|].
  cbn [fmap list_fmap mbind list_bind fst snd preferred_hca avail_hca]. by rewrite IH, !filter_app.
Qed.

(** A topology as [resolve] leaves it. *)
Definition topology_ok (t : Topology) : Prop := t = resolve (matrix_ t) ∧ listed_once (matrix_ t).

Lemma topology_ok_disable t d : topology_ok t → topology_ok (disableDevice t d).
Proof. intros [_ Hm]. split; [done|by apply listed_once_disable]. Qed.

Lemma topology_ok_hcas t : topology_ok t → hca_list_ t = first_seen [] (devices_in (matrix_ t)).
Proof. intros [-> _]. apply hca_list_resolve. Qed.

(** The start-up loop over the devices [todo]. *)
Lemma open_devices_ok construct t ctx todo : topology_ok t → NoDup (ctx ++ todo) → hca_list_ t = ctx ++ todo →
  let '(t', ctx') := foldl (open_device construct) (t, ctx) todo in
  topology_ok t' ∧ hca_list_ t' = ctx' ∧ ctx' = ctx ++ filter (λ h, construct h) todo.
Proof.
  revert t ctx. induction todo as [|d todo IH]; intros t ctx Ht Hn Hl; simpl.
  { rewrite app_nil_r in *. done. }
  unfold open_device at 2. cbn [fst snd]. rewrite filter_cons. destruct (construct d) eqn:E.
  - rewrite decide_True by done.

    specialize (IH t (ctx ++ [d])). rewrite <-!(assoc_L (++)) in IH. by apply IH.
  - rewrite decide_False by (intros []). apply IH; [by apply topology_ok_disable| |].
    + eapply sublist_NoDup; [exact Hn|]. apply sublist_app; [done|by constructor].
    + rewrite hca_list_disable, Hl, filter_app by (apply Ht || by apply topology_ok_hcas).
      apply NoDup_app in Hn as (_ & Hcd & [Hd _]%NoDup_cons). rewrite filter_cons, decide_False by tauto.
      f_equal; apply filter_all; intros h Hh ->; [apply (Hcd d Hh); left|done].
Qed.

(** *** Every listed device has a number at its location *)

Definition indices (r : ResolvedTopologyEntry) : list Z := r_preferred_hca r ++ r_avail_hca r.

Definition covers (st : Resolving) (loc h : string) : Prop :=
  ∃ r i, rs_matrix st !! loc = Some r ∧ i ∈ indices r ∧ named (rs_hcas st) i h.

Definition records (push : string → Z → ResolvedTopologyEntry → ResolvedTopologyEntry) : Prop :=
  ∀ h i r, i ∈ indices (push h i r) ∧ ∀ j, j ∈ indices r → j ∈ indices (push h i r).

Lemma records_preferred : records push_preferred.
Proof. intros h i r. unfold indices. simpl. set_solver. Qed.

Lemma records_avail : records push_avail.
Proof. intros h i r. unfold indices. simpl. set_solver. Qed.

Lemma covers_at st loc h l push h' i x : records push → covers st loc h →
  covers (mkResolving (rs_hcas st ++ x) (rs_ids st) (at_location l (push h' i) (rs_matrix st))) loc h.
Proof.
  intros Hp (r & j & Hr & Hj & Hn). unfold covers, at_location. simpl. destruct (decide (l = loc)) as [->|].
  - eexists _, j. rewrite lookup_insert_eq, Hr. split_and!; [done|by apply Hp|by apply named_app].
  - eexists r, j. rewrite lookup_insert_ne by done. split_and!; [done..|by apply named_app].
Qed.

Lemma covers_number st loc h h' : covers st loc h → covers (number_hca h' st) loc h.
Proof.
  intros Hc. unfold number_hca. destruct (rs_ids st !! h'); [done|].
  apply (covers_at _ _ _ kWildcardLocation _ h' (Z.of_nat (length (rs_hcas st))) [h'] records_preferred Hc).
Qed.

Lemma covers_resolve_hca st loc h l push h' : records push → covers st loc h →
  covers (resolve_hca l push st h') loc h.
Proof.
  intros Hp Hc%(covers_number _ _ _ h'). unfold resolve_hca.
  pose proof (covers_at _ _ _ l push h' (default 0 (rs_ids (number_hca h' st) !! h')) [] Hp Hc) as H.
  by rewrite app_nil_r in H.
Qed.

Lemma covers_new st loc push h : records push → resolving_ok anywhere st →
  covers (resolve_hca loc push st h) loc h.
Proof.
  intros Hp Hst. destruct (number_hca_ok anywhere (λ _ _ _, I) h st) as [[H1 _ _] [i Hi]]; [exists loc; exact I|done|].
  unfold covers, resolve_hca, at_location. simpl. rewrite lookup_insert_eq, Hi. eexists _, i.
  split_and!; [done|exact (proj1 (Hp _ _ _))|by apply H1].
Qed.

Lemma covers_hcas st loc push l : records push → pushes anywhere push → resolving_ok anywhere st →
  let st' := foldl (resolve_hca loc push) st l in
  (∀ l' h, covers st l' h → covers st' l' h) ∧ (∀ h, h ∈ l → covers st' loc h).
Proof.
  intros Hr Hp. revert st. induction l as [|x l IH]; intros st Hst; simpl; [split; [done|set_solver]|].
  destruct (IH (resolve_hca loc push st x)) as [H1 H2]; [by apply resolve_hca_ok|]. split.
  - intros l' h Hc. by apply H1, covers_resolve_hca.
  - intros h [->|Hh]%elem_of_cons; [|by apply H2]. by apply H1, covers_new.
Qed.

Lemma covers_entries st m : resolving_ok anywhere st →
  let st' := foldl resolve_entry st m in
  (∀ l h, covers st l h → covers st' l h) ∧
  (∀ l e h, (l, e) ∈ m → h ∈ preferred_hca e ++ avail_hca e → covers st' l h).
Proof.
  revert st. induction m as [|[loc e] m IH]; intros st Hst; simpl; [split; [done|set_solver]|].
  destruct (covers_hcas st loc _ (preferred_hca e) records_preferred (pushes_preferred _) Hst) as [H1 H2].
  assert (resolving_ok anywhere (foldl (resolve_hca loc push_preferred) st (preferred_hca e))) as Hst1.
  { apply resolve_hcas_ok; [exact (λ _ _ _, I)|exact (pushes_preferred _)|exact (λ _ _, I)|done]. }
  destruct (covers_hcas _ loc _ (avail_hca e) records_avail (pushes_avail _) Hst1) as [H3 H4].
  destruct (IH (resolve_entry st (loc, e))) as [H5 H6].
  { apply resolve_hcas_ok; [exact (λ _ _ _, I)|exact (pushes_avail _)|exact (λ _ _, I)|done]. }
  split; [by eauto|]. intros l e' h [E|Hin]%elem_of_cons; [|by apply H6]. injection E as -> ->.
  intros [Hh|Hh]%elem_of_app; apply H5; [by apply H3, H2|by apply H4].
Qed.

(** The wildcard location covers every device that has a number. *)
Definition wild (st : Resolving) : Prop := ∀ h, h ∈ rs_hcas st → covers st kWildcardLocation h.

Lemma wild_number h st : wild st → wild (number_hca h st).
Proof.
  intros Hw h' Hh'. destruct (decide (h' ∈ rs_hcas st)) as [Hin|Hin]; [by apply covers_number, Hw|].
  revert Hh'. unfold number_hca. destruct (rs_ids st !! h); [done|]. simpl.
  rewrite elem_of_app, list_elem_of_singleton. intros [Hx| ->]; [done|]. unfold covers, at_location. simpl.
  rewrite lookup_insert_eq. eexists _, _. split_and!; [done|exact (proj1 (records_preferred _ _ _))|apply named_last].
Qed.

Lemma wild_hcas loc push l st : records push → wild st → wild (foldl (resolve_hca loc push) st l).
Proof.
  intros Hp. revert st. induction l as [|h l IH]; intros st Hw; [done|]. apply IH. intros h' Hh'.
  pose proof (covers_at _ _ _ loc push h (default 0 (rs_ids (number_hca h st) !! h)) [] Hp (wild_number h st Hw h' Hh')) as H.
  by rewrite app_nil_r in H.
Qed.

Lemma wild_entries m st : wild st → wild (foldl resolve_entry st m).
Proof.
  revert st. induction m as [|e m IH]; intros st Hw; [done|]. apply IH.
  apply wild_hcas; [exact records_avail|]. by apply wild_hcas; [exact records_preferred|].
Qed.

Lemma resolve_covers m loc h : serves m loc h → covers (foldl resolve_entry (mkResolving [] ∅ ∅) m) loc h.
Proof.
  assert (resolving_ok anywhere (mkResolving [] ∅ ∅)) as H0.
  { split; simpl; [done| |done]. intros h'. rewrite lookup_empty, is_Some_alt. set_solver. }
  intros [(e & He & Hh)|[-> Hh]].
  - by eapply covers_entries.
  - apply wild_entries; [intros ? []%elem_of_nil|]. rewrite resolve_entries_list by done.
    apply elem_of_first_seen. by right.
Qed.

(** ** The device chosen *)

Lemma entry_of_topology t loc r : topology_ok t → resolved_matrix_ t !! loc = Some r →
  entry_ok (serves (matrix_ t)) (hca_list_ t) loc r.
Proof. intros [Ht _] Hr. rewrite Ht in Hr |- *. by apply (ro_entries _ _ (resolve_ok (matrix_ t))). Qed.

Lemma covered_of_topology t loc h : topology_ok t → serves (matrix_ t) loc h →
  ∃ r i, resolved_matrix_ t !! loc = Some r ∧ i ∈ indices r ∧ named (hca_list_ t) i h.
Proof. intros [Ht _] Hs%resolve_covers. by rewrite Ht. Qed.

Lemma lookup_mod {A} (l : list A) k : l ≠ [] → ∃ x, l !! Z.to_nat (k mod Z.of_nat (length l)) = Some x ∧ x ∈ l.
Proof.
  intros Hl. assert (0 < Z.of_nat (length l)) by (destruct l; simpl in *; [done|lia]).
  pose proof (Z.mod_pos_bound k (Z.of_nat (length l))).
  destruct (lookup_lt_is_Some_2 l (Z.to_nat (k mod Z.of_nat (length l)))) as [x Hx]; [lia|].
  exists x. split; [done|by eapply list_elem_of_lookup_2].
Qed.

(** A retry indexes the preferred and then the other devices. *)
Lemma select_retry t rand loc r retry : resolved_matrix_ t !! loc = Some r → retry ≠ 0 →
  select t rand loc retry = indices r !! Z.to_nat (u64 (retry - 1) mod Z.of_nat (length (indices r))).
Proof.
  intros Hr Hz. unfold select, indices. rewrite Hr. apply Z.eqb_neq in Hz as ->. rewrite length_app.
  pose proof (Z.mod_pos_bound (u64 (retry - 1)) (Z.of_nat (length (r_preferred_hca r) + length (r_avail_hca r)))) as Hb.
  set (k := _ mod _) in *. destruct (Z.ltb_spec k (Z.of_nat (length (r_preferred_hca r)))) as [Hk|Hk].
  - destruct (decide (0 <= k)); [by rewrite lookup_app_l by lia|].
    assert (k < 0 ∧ Z.to_nat k = 0%nat) as [Hneg ->] by lia.
    destruct (r_preferred_hca r); [simpl in *|done].
    destruct (r_avail_hca r); [done|]. simpl in *. lia.
  - rewrite lookup_app_r by lia. f_equal. lia.
Qed.

Lemma select_in t rand loc r retry : resolved_matrix_ t !! loc = Some r → indices r ≠ [] →
  ∃ i, select t rand loc retry = Some i ∧ i ∈ indices r.
Proof.
  intros Hr Hn. destruct (decide (retry = 0)) as [->|Hz].
  - unfold select. rewrite Hr. simpl. unfold indices in *. case_bool_decide as Hp.
    + destruct (lookup_mod (r_preferred_hca r) (u64 rand) Hp) as (i & Hi & Hin). exists i. set_solver.
    + destruct (lookup_mod (r_avail_hca r) (u64 rand)) as (i & Hi & Hin).
      { intros E. by rewrite Hp, E in Hn. }
      exists i. set_solver.
  - destruct (lookup_mod (indices r) (u64 (retry - 1)) Hn) as (i & Hi & Hin).
    exists i. by rewrite (select_retry _ _ _ _ _ Hr Hz).
Qed.

Lemma selectDevice_in t rand loc hint retry r : resolved_matrix_ t !! loc = Some r →
  entry_ok (serves (matrix_ t)) (hca_list_ t) loc r →
  ∃ i h, selectDevice t rand loc hint retry = Some i ∧ named (hca_list_ t) i h ∧ serves (matrix_ t) loc h.
Proof.
  intros Hr [H1 H2 H3 H4]. unfold selectDevice. rewrite Hr. case_bool_decide as Hi.
  - revert Hi. case_bool_decide; [done|]. unfold getHcaIndex.
    destruct (preferred_hca_name_to_index_map_ r !! hint) as [i|] eqn:E; [intros _; exists i, hint; by eauto|].
    destruct (avail_hca_name_to_index_map_ r !! hint) as [i|] eqn:E'; simpl; [intros _; exists i, hint; by eauto|done].
  - destruct (select_in t rand loc r retry Hr H1) as (i & Hi' & Hin). destruct (H2 i Hin) as (h & Hn & Hs). by exists i, h.
Qed.

Lemma serves_disable t d loc h : listed_once (matrix_ t) →
  serves (matrix_ (disableDevice t d)) loc h ↔ serves (matrix_ t) loc h ∧ h ≠ d.
Proof.
  intros Hm. rewrite matrix_disable by done. unfold serves, devices_in. setoid_rewrite list_elem_of_bind.
  setoid_rewrite list_elem_of_fmap. split.
  - intros [(e & ([l e'] & [= -> ->] & He) & Hh)|(-> & e & Hh & [l e'] & -> & He)]; simpl in Hh;
      rewrite <-filter_app, list_elem_of_filter in Hh; destruct Hh as [Hd Hh]; (split; [|done]).
    + left. by exists e'.
    + right. split; [done|]. by exists (l, e').
  - intros [[(e & He & Hh)|(-> & e & Hh & He)] Hd]; [left|right].
    + eexists. split; [by exists (loc, e)|]. simpl. by rewrite <-filter_app, list_elem_of_filter.
    + split; [done|]. eexists. split; [|by exists e]. simpl. by rewrite <-filter_app, list_elem_of_filter.
Qed.

Lemma open_devices_serve construct t ctx todo loc h : topology_ok t →
  serves (matrix_ (foldl (open_device construct) (t, ctx) todo).1) loc h ↔
    serves (matrix_ t) loc h ∧ (h ∈ todo → construct h).
Proof.
  revert t ctx. induction todo as [|d todo IH]; intros t ctx Ht; simpl; [set_solver|].
  unfold open_device at 2. cbn [fst snd]. destruct (construct d) eqn:E.
  - rewrite IH by done. rewrite elem_of_cons. split; [|naive_solver]. intros [Hs Hc]. split; [done|].
    intros [->|Hin]; [by rewrite E|by apply Hc].
  - rewrite IH by by apply topology_ok_disable. rewrite serves_disable, elem_of_cons by apply Ht. split.
    + intros [[Hs Hd] Hc]. split; [done|]. naive_solver.
    + intros [Hs Hc]. split_and!; [done| |naive_solver]. intros ->. specialize (Hc (or_introl eq_refl)). by rewrite E in Hc.
Qed.

Lemma serves_listed m loc h : serves m loc h → h ∈ hca_list_ (resolve m).
Proof.
  intros Hs. rewrite hca_list_resolve, elem_of_first_seen. right. destruct Hs as [(e & He & Hh)|[_ Hh]]; [|done].
  apply list_elem_of_bind. by exists (loc, e).
Qed.

Lemma initialize_ok construct m : listed_once m →
  let '(t, contexts) := initializeRdmaResources construct (resolve m) in
  topology_ok t ∧ hca_list_ t = contexts ∧ contexts = filter (λ h, construct h) (hca_list_ (resolve m)) ∧
  ∀ loc h, serves (matrix_ t) loc h ↔ serves m loc h ∧ construct h.
Proof.
  intros Hm. assert (topology_ok (resolve m)) as Ht by done.
  pose proof (open_devices_ok construct (resolve m) [] (hca_list_ (resolve m)) Ht) as H.
  pose proof (λ loc h, open_devices_serve construct (resolve m) [] (hca_list_ (resolve m)) loc h Ht) as Hs.
  unfold initializeRdmaResources. destruct (foldl _ _ _) as [t contexts]. destruct H as (H1 & H2 & H3); [|done|].
  { rewrite hca_list_resolve. apply NoDup_first_seen. constructor. }
  split_and!; [done..|]. intros loc h. rewrite (Hs loc h). simpl. split; [|naive_solver].
  intros [Hsv Hc]. split; [done|]. by eapply Hc, serves_listed.
Qed.

(** C?: device numbers and contexts agree after start-up.  However many
    devices fail to open, the contexts are those of the devices that opened,
    in the order of the first numbering; for every location, hint and retry
    count [selectDevice] answers without reading outside its vectors, either
    with the number of a context whose device serves the location, or with
    ERR_DEVICE_NOT_FOUND when no device of the location opened.  The matrix
    must not list a device twice in one list: [disableDevice] erases only the
    first occurrence. *)
Theorem device_numbers_match_contexts construct m rand loc hint retry : listed_once m →
  let '(t, contexts) := initializeRdmaResources construct (resolve m) in
  contexts = filter (λ h, construct h) (hca_list_ (resolve m)) ∧
  ((∃ i h, selectDevice t rand loc hint retry = Some i ∧ named contexts i h ∧ construct h ∧ serves m loc h) ∨
   (selectDevice t rand loc hint retry = Some ERR_DEVICE_NOT_FOUND ∧ ∀ h, serves m loc h → construct h = false)).
Proof.
  intros Hm. pose proof (initialize_ok construct m Hm) as H.
  destruct (initializeRdmaResources construct (resolve m)) as [t contexts].
  destruct H as (Ht & Hl & Hc & Hs). split; [done|]. rewrite <-Hl.
  destruct (resolved_matrix_ t !! loc) as [r|] eqn:Hr; [left|right].
  - destruct (selectDevice_in t rand loc hint retry r Hr) as (i & h & E & Hn & [Hv Ho]%Hs);
      [by apply entry_of_topology|by exists i, h].
  - split; [unfold selectDevice; by rewrite Hr|]. intros h Hv. destruct (construct h) eqn:Ho; [|done].
    destruct (covered_of_topology t loc h Ht) as (r & _ & E & _); [apply Hs; by rewrite Ho|congruence].
Qed.

(** Two sockets and a card that does not open. *)
Definition two_sockets : TopologyMatrix :=
  [("cpu:0", mkTopologyEntry ["mlx5_0"; "mlx5_1"] ["mlx5_2"]); ("cpu:1", mkTopologyEntry ["mlx5_2"] ["mlx5_0"; "mlx5_1"])]%string.

Definition opens (h : string) : bool := bool_decide (h ≠ "mlx5_0"%string).

Lemma device_numbers_match_contexts_witness :
  listed_once two_sockets ∧
  (initializeRdmaResources opens (resolve two_sockets)).2 = ["mlx5_1"; "mlx5_2"]%string ∧
  let '(t, contexts) := initializeRdmaResources opens (resolve two_sockets) in
  contexts = filter (λ h, opens h) (hca_list_ (resolve two_sockets)) ∧
  ((∃ i h, selectDevice t 0 "cpu:0" "" 2 = Some i ∧ named contexts i h ∧ opens h ∧ serves two_sockets "cpu:0" h) ∨
   (selectDevice t 0 "cpu:0" "" 2 = Some ERR_DEVICE_NOT_FOUND ∧ ∀ h, serves two_sockets "cpu:0" h → opens h = false)).
Proof.
  assert (listed_once two_sockets) as Hm by (apply (bool_decide_unpack _); vm_compute; exact I).
  split; [exact Hm|]. split; [vm_compute; reflexivity|].
  exact (device_numbers_match_contexts opens two_sockets 0 "cpu:0" "" 2 Hm).
Defined.

(** The retries of a transfer try every device: any run of consecutive retry
    counts as long as the location's device list contains, for every device
    that serves the location, a retry that selects it. *)
Theorem retries_reach_every_device t rand loc r h retry :
  topology_ok t → resolved_matrix_ t !! loc = Some r → serves (matrix_ t) loc h →
  1 <= retry → retry + Z.of_nat (length (indices r)) < 2 ^ 31 →
  ∃ i k, named (hca_list_ t) i h ∧ retry <= k < retry + Z.of_nat (length (indices r)) ∧
    select t rand loc k = Some i.
Proof.
  intros Ht Hr Hs Hp Hb. destruct (covered_of_topology t loc h Ht Hs) as (r' & i & Hr' & Hi & Hn). simplify_eq.
  apply list_elem_of_lookup in Hi as [j Hj]. pose proof (lookup_lt_Some _ _ _ Hj) as Hlt.
  set (n := Z.of_nat (length (indices r))) in *. set (d := (Z.of_nat j - (retry - 1)) mod n).
  assert (0 <= d < n) as Hd by (apply Z.mod_pos_bound; lia).
  exists i, (retry + d). split_and!; [done|lia|lia|]. rewrite (select_retry _ _ _ _ _ Hr) by lia.
  rewrite u64_small by (unfold is_u64; lia). fold n. replace (retry + d - 1) with (d + (retry - 1)) by lia.
  unfold d. rewrite Zplus_mod_idemp_l. replace (Z.of_nat j - (retry - 1) + (retry - 1)) with (Z.of_nat j) by lia.
  rewrite Z.mod_small by lia. by rewrite Nat2Z.id.
Qed.
