(* ===== verification/TransferEngine.v ===== *)
(** * The transfer engine: batches, slices and worker pools

    The RDMA path of mooncake-transfer-engine: batches and their status
    (multi_transport.cpp), the slicing of requests (rdma_transport.cpp), the
    queues and workers of a device (worker_pool.cpp) and the posting of work
    requests (rdma_endpoint.cpp).  Every dereference of a slice or of a task and
    every vector index is checked: [None] is an access to freed memory or
    outside a vector.  The metadata service, the endpoints' answers and the
    completions of the device are arguments ([Env]). *)

From S2P Require Import Prelude ClientProg Topology.

(** ** Data *)

Module SS.
Inductive t := PENDING | POSTED | SUCCESS | TIMEOUT | FAILED.
End SS.
Abbreviation SliceStatus := SS.t.

#[export] Instance SliceStatus_eq_dec : EqDecision SliceStatus.
Proof. solve_decision. Defined.

Record Request := mkRq {
  q_opcode : OpCode;
  q_source : Z;
  q_target_id : Z;
  q_target_offset : Z;
  q_length : Z;
  q_advise_retry_cnt : Z;
}.

(** A slice is named by a number; the task it points to by its batch and
    its index there. *)
Record WorkSlice := mkWorkSlice {
  w_source_addr : Z;
  w_length : Z;
  w_opcode : OpCode;
  w_target_id : Z;
  w_peer_nic_path : string;
  w_status : SliceStatus;
  w_task : nat * nat;
  w_dest_addr : Z;
  w_source_lkey : Z;
  w_dest_rkey : Z;
  w_retry_cnt : Z;
  w_max_retry_cnt : Z;
  w_ts : Z;
}.

Definition w_with_status (st : SliceStatus) (s : WorkSlice) : WorkSlice :=
  mkWorkSlice (w_source_addr s) (w_length s) (w_opcode s) (w_target_id s) (w_peer_nic_path s) st (w_task s)
    (w_dest_addr s) (w_source_lkey s) (w_dest_rkey s) (w_retry_cnt s) (w_max_retry_cnt s) (w_ts s).
Definition w_with_lkey (lkey : Z) (s : WorkSlice) : WorkSlice :=
  mkWorkSlice (w_source_addr s) (w_length s) (w_opcode s) (w_target_id s) (w_peer_nic_path s) (w_status s) (w_task s)
    (w_dest_addr s) lkey (w_dest_rkey s) (w_retry_cnt s) (w_max_retry_cnt s) (w_ts s).
Definition w_with_route (rkey : Z) (path : string) (s : WorkSlice) : WorkSlice :=
  mkWorkSlice (w_source_addr s) (w_length s) (w_opcode s) (w_target_id s) path (w_status s) (w_task s)
    (w_dest_addr s) (w_source_lkey s) rkey (w_retry_cnt s) (w_max_retry_cnt s) (w_ts s).
Definition w_retry (s : WorkSlice) : WorkSlice :=
  mkWorkSlice (w_source_addr s) (w_length s) (w_opcode s) (w_target_id s) (w_peer_nic_path s) (w_status s) (w_task s)
    (w_dest_addr s) (w_source_lkey s) (w_dest_rkey s) (u32 (w_retry_cnt s + 1)) (w_max_retry_cnt s) (w_ts s).
Definition w_post (now : Z) (s : WorkSlice) : WorkSlice :=
  mkWorkSlice (w_source_addr s) (w_length s) (w_opcode s) (w_target_id s) (w_peer_nic_path s) SS.POSTED (w_task s)
    (w_dest_addr s) (w_source_lkey s) (w_dest_rkey s) (w_retry_cnt s) (w_max_retry_cnt s) now.

Record WorkTask := mkWorkTask {
  slice_count : Z;
  success_slice_count : Z;
  failed_slice_count : Z;
  transferred_bytes : Z;
  is_finished : bool;
  total_bytes : Z;
  t_req : option Request;
  slice_list : list nat;
}.

Definition new_task : WorkTask := mkWorkTask 0 0 0 0 false 0 None [].

Record BatchDesc := mkBatchDesc { batch_size : Z; task_list : list WorkTask }.

(** Slices waiting for a peer, by the path of the peer's device. *)
Abbreviation SliceQueue := (gmap string (list nat)).
Record Shard := mkShard { sh_queue : SliceQueue; sh_count : Z }.

Record Pool := mkPool {
  slice_queue_ : list Shard;
  collective_slice_queue_ : list SliceQueue;
  posted_ : list nat;
  submitted_slice_count_ : Z;
  processed_slice_count_ : Z;
  redispatch_counter_ : Z;
  tl_redispatch_counter : list Z;
  success_nr_polls : Z;
  failed_nr_polls : Z;
}.

Record RdmaContext := mkContext { cx_device : string; cx_active : bool; cx_pool : Pool }.

Record Engine := mkEngine {
  e_slices : gmap nat WorkSlice;
  e_next_slice : nat;
  e_batches : gmap nat BatchDesc;
  e_next_batch : nat;
  e_contexts : list RdmaContext;
}.

(** ** The segment descriptors of the metadata service *)

Record SegBuffer := mkSegBuffer { sb_name : string; sb_addr : Z; sb_length : Z; sb_lkey : list Z; sb_rkey : list Z }.
Record SegDesc := mkSegDesc {
  sd_name : string;
  sd_protocol : string;
  sd_devices : list string;
  sd_topology : Topology;
  sd_buffers : list SegBuffer;
}.

Definition MakeNicPath (server_name nic_name : string) : string := server_name +:+ "@" +:+ nic_name.

Definition out_of_buffer (b : SegBuffer) (offset length : Z) : bool :=
  (offset <? sb_addr b) || (sb_length b <? length) || (sb_length b - length <? offset - sb_addr b).

(** [RdmaTransport::selectDevice] from buffer [id] on: the buffer and the
    device, or ERR_ADDRESS_NOT_REGISTERED; [rand] numbers the random draws. *)
Fixpoint select_buffer (t : Topology) (rand : nat → Z) (hint : string) (offset length retry_count : Z)
    (buffers : list SegBuffer) (id : nat) : option (option (nat * nat)) :=
  match buffers with
  | [] => Some None
  | b :: buffers =>
      if out_of_buffer b offset length then select_buffer t rand hint offset length retry_count buffers (S id)
      else
        d ← selectDevice t (rand (2 * id)%nat) (sb_name b) hint retry_count;
        if 0 <=? d then Some (Some (id, Z.to_nat d))
        else
          d ← selectDevice t (rand (2 * id + 1)%nat) kWildcardLocation hint retry_count;
          if 0 <=? d then Some (Some (id, Z.to_nat d))
          else select_buffer t rand hint offset length retry_count buffers (S id)
  end.

Definition select_device (desc : option SegDesc) (rand : nat → Z) (hint : string) (offset length retry_count : Z) :
    option (option (nat * nat)) :=
  match desc with
  | None => Some None
  | Some d => select_buffer (sd_topology d) rand hint offset length retry_count (sd_buffers d) 0
  end.

(** The remote key and the path of a device. *)
Definition route_of (d : SegDesc) (buffer_id device_id : nat) : option (Z * string) :=
  b ← sd_buffers d !! buffer_id;
  rkey ← sb_rkey b !! device_id;
  name ← sd_devices d !! device_id;
  Some (rkey, MakeNicPath (sd_name d) name).

(** ** Answers from outside *)

Record Config := mkConfig {
  kBlockSize : Z;
  kFragmentSize : Z;
  kMaxRetryCount : Z;
  kSubmitWatermark : Z;
  kTransferWorkerCount : nat;
  slice_timeout : Z;
}.
Definition kShardCount : nat := 8.

(** [Posts room bad]: the queue pair has room for [room] work requests, and
    [ibv_post_send] rejects those from index [bad] on. *)
Inductive EndPoint :=
| NoEndPoint
| InactiveEndPoint
| ConnectFails
| Posts (room : nat) (bad : option nat).

Record Completion := mkCompletion { wc_slice : nat; wc_success : bool }.

(** [completions posted] are the completions polled when the device holds
    [posted]; [recently_failed] is the calling thread's record of targets that
    could not be reached; [meta target force] is
    getSegmentDescByID; [recycled] tells which slices come from the thread's
    cache of slices. *)
Record Env := mkEnv {
  meta : Z → bool → option SegDesc;
  draw : nat → nat → Z;
  affinity : bool;
  now : Z;
  endpoint : string → EndPoint;
  completions : list nat → list Completion;
  recently_failed : gmap Z Z;
  recycled : nat → bool;
}.

(** ** Access to the shared state *)

Definition get_slice (id : nat) : ST Engine WorkSlice := λ e, (λ s, (s, e)) <$> e_slices e !! id.

Definition with_slices (f : gmap nat WorkSlice → gmap nat WorkSlice) (e : Engine) : Engine :=
  mkEngine (f (e_slices e)) (e_next_slice e) (e_batches e) (e_next_batch e) (e_contexts e).
Definition with_batches (f : gmap nat BatchDesc → gmap nat BatchDesc) (e : Engine) : Engine :=
  mkEngine (e_slices e) (e_next_slice e) (f (e_batches e)) (e_next_batch e) (e_contexts e).
Definition with_contexts (f : list RdmaContext → list RdmaContext) (e : Engine) : Engine :=
  mkEngine (e_slices e) (e_next_slice e) (e_batches e) (e_next_batch e) (f (e_contexts e)).

Definition set_slice (id : nat) (f : WorkSlice → WorkSlice) : ST Engine unit :=
  s ← get_slice id; modify (with_slices <[id := f s]>).

Definition find_task (r : nat * nat) (e : Engine) : option WorkTask :=
  b ← e_batches e !! r.1; task_list b !! r.2.

Definition set_task (r : nat * nat) (f : WorkTask → WorkTask) : ST Engine unit := λ e,
  b ← e_batches e !! r.1;
  t ← task_list b !! r.2;
  Some (tt, with_batches <[r.1 := mkBatchDesc (batch_size b) (<[r.2 := f t]> (task_list b))]> e).

Definition get_context (c : nat) : ST Engine RdmaContext := λ e, (λ x, (x, e)) <$> e_contexts e !! c.

Definition set_pool (c : nat) (f : Pool → Pool) : ST Engine unit :=
  x ← get_context c; modify (with_contexts <[c := mkContext (cx_device x) (cx_active x) (f (cx_pool x))]>).
Definition set_active (c : nat) (b : bool) : ST Engine unit :=
  x ← get_context c; modify (with_contexts <[c := mkContext (cx_device x) b (cx_pool x)]>).

Fixpoint each {S A} (f : A → ST S unit) (l : list A) : ST S unit :=
  match l with [] => mret tt | x :: l => f x;; each f l end.

(** ** Slices settle *)

Definition markSuccess (id : nat) : ST Engine unit :=
  s ← get_slice id;
  set_slice id (w_with_status SS.SUCCESS);;
  set_task (w_task s) (λ t, mkWorkTask (slice_count t) (u64 (success_slice_count t + 1)) (failed_slice_count t)
    (u64 (transferred_bytes t + w_length s)) (is_finished t) (total_bytes t) (t_req t) (slice_list t)).

Definition markFailed (id : nat) : ST Engine unit :=
  s ← get_slice id;
  set_slice id (w_with_status SS.FAILED);;
  set_task (w_task s) (λ t, mkWorkTask (slice_count t) (success_slice_count t) (u64 (failed_slice_count t + 1))
    (transferred_bytes t) (is_finished t) (total_bytes t) (t_req t) (slice_list t)).

(** ** Queues *)

Definition enqueue `{Countable K} (path : K) (id : nat) (q : gmap K (list nat)) : gmap K (list nat) :=
  <[path := default [] (q !! path) ++ [id]]> q.

Definition p_with_shards (f : list Shard → list Shard) (p : Pool) : Pool :=
  mkPool (f (slice_queue_ p)) (collective_slice_queue_ p) (posted_ p) (submitted_slice_count_ p)
    (processed_slice_count_ p) (redispatch_counter_ p) (tl_redispatch_counter p) (success_nr_polls p) (failed_nr_polls p).
Definition p_with_locals (f : list SliceQueue → list SliceQueue) (p : Pool) : Pool :=
  mkPool (slice_queue_ p) (f (collective_slice_queue_ p)) (posted_ p) (submitted_slice_count_ p)
    (processed_slice_count_ p) (redispatch_counter_ p) (tl_redispatch_counter p) (success_nr_polls p) (failed_nr_polls p).
Definition p_with_posted (f : list nat → list nat) (p : Pool) : Pool :=
  mkPool (slice_queue_ p) (collective_slice_queue_ p) (f (posted_ p)) (submitted_slice_count_ p)
    (processed_slice_count_ p) (redispatch_counter_ p) (tl_redispatch_counter p) (success_nr_polls p) (failed_nr_polls p).
Definition p_with_counts (ds dp : Z) (p : Pool) : Pool :=
  mkPool (slice_queue_ p) (collective_slice_queue_ p) (posted_ p) (u64 (submitted_slice_count_ p + ds))
    (u64 (processed_slice_count_ p + dp)) (redispatch_counter_ p) (tl_redispatch_counter p) (success_nr_polls p) (failed_nr_polls p).
Definition p_with_redispatch (n : Z) (tl : list Z) (p : Pool) : Pool :=
  mkPool (slice_queue_ p) (collective_slice_queue_ p) (posted_ p) (submitted_slice_count_ p)
    (processed_slice_count_ p) n tl (success_nr_polls p) (failed_nr_polls p).
Definition p_with_polls (ok bad : Z) (p : Pool) : Pool :=
  mkPool (slice_queue_ p) (collective_slice_queue_ p) (posted_ p) (submitted_slice_count_ p)
    (processed_slice_count_ p) (redispatch_counter_ p) (tl_redispatch_counter p) ok bad.

Definition processed (c : nat) : ST Engine unit := set_pool c (p_with_counts 0 1).
Definition push_local (c thread : nat) (path : string) (id : nat) : ST Engine unit :=
  set_pool c (p_with_locals (alter (enqueue path id) thread)).

Definition lift {S A} (o : option A) : ST S A := λ s, (λ x, (x, s)) <$> o.

(** ** Handing slices to a device: [WorkerPool::submitPostSend]

    [rt_descs] are the descriptors the call has reloaded, [rt_failed] the
    thread's record of targets that could not be reached, [rt_lists] the
    slices accepted for each shard. *)
Record Routing := mkRouting {
  rt_descs : gmap Z (option SegDesc);
  rt_failed : gmap Z Z;
  rt_lists : list (list nat);
}.

Definition shard_of (target_id : Z) (device_id : nat) : nat :=
  Z.to_nat (u64 (target_id * 10007 + Z.of_nat device_id) mod Z.of_nat kShardCount).

Definition accept_slice (rt : Routing) (desc : option SegDesc) (id buffer_id device_id : nat) : ST Engine Routing :=
  s ← get_slice id;
  match desc with
  | None => markFailed id;; mret rt
  | Some d =>
      r ← lift (route_of d buffer_id device_id);
      set_slice id (w_with_route r.1 r.2);;
      mret (mkRouting (rt_descs rt) (rt_failed rt)
        (alter (λ l, l ++ [id]) (shard_of (w_target_id s) device_id) (rt_lists rt)))
  end.

Definition route_slice (env : Env) (device : string) (rt : Routing) (id : nat) : ST Engine Routing :=
  s ← get_slice id;
  let target := w_target_id s in
  let hint := if affinity env then device else EmptyString in
  let blocked := match rt_failed rt !! u32 target with
                 | Some ts => u64 (now env - ts) <? 100000000
                 | None => false
                 end in
  if blocked then markFailed id;; mret rt
  else
    let rt := mkRouting (rt_descs rt) (delete (u32 target) (rt_failed rt)) (rt_lists rt) in
    let desc := default (meta env target false) (rt_descs rt !! target) in
    sel ← lift (select_device desc (draw env (2 * id)) hint (w_dest_addr s) (w_length s) 0);
    match sel with
    | Some bd => accept_slice rt desc id bd.1 bd.2
    | None =>
        let desc := meta env target true in
        let rt := mkRouting (<[target := desc]> (rt_descs rt)) (rt_failed rt) (rt_lists rt) in
        match desc with
        | None => markFailed id;; mret (mkRouting (rt_descs rt) (<[u32 target := now env]> (rt_failed rt)) (rt_lists rt))
        | Some _ =>
            sel ← lift (select_device desc (draw env (2 * id + 1)) hint (w_dest_addr s) (w_length s) 0);
            match sel with
            | Some bd => accept_slice rt desc id bd.1 bd.2
            | None => markFailed id;; mret rt
            end
        end
    end.

Fixpoint route_slices (env : Env) (device : string) (rt : Routing) (ids : list nat) : ST Engine Routing :=
  match ids with
  | [] => mret rt
  | id :: ids => rt ← route_slice env device rt id; route_slices env device rt ids
  end.

Definition sh_enqueue (path : string) (id : nat) (sh : Shard) : Shard := mkShard (enqueue path id (sh_queue sh)) (sh_count sh).
Definition sh_add (n : Z) (sh : Shard) : Shard := mkShard (sh_queue sh) (u64 (sh_count sh + n)).

Definition fill_shard (c : nat) (k : nat * list nat) : ST Engine unit :=
  if bool_decide (k.2 = []) then mret tt
  else
    each (λ id, s ← get_slice id; set_pool c (p_with_shards (alter (sh_enqueue (w_peer_nic_path s) id) k.1))) k.2;;
    set_pool c (p_with_shards (alter (sh_add (Z.of_nat (length k.2))) k.1)).

Definition submitPostSend (env : Env) (recently_failed : gmap Z Z) (c : nat) (ids : list nat) : ST Engine unit :=
  x ← get_context c;
  rt ← route_slices env (cx_device x) (mkRouting ∅ recently_failed (replicate kShardCount [])) ids;
  each (fill_shard c) (imap pair (rt_lists rt));;
  set_pool c (p_with_counts (Z.of_nat (length (mjoin (rt_lists rt)))) 0).

(** ** The workers of a device *)

Definition redispatch_slice (env : Env) (c thread id : nat) : ST Engine unit :=
  s ← get_slice id;
  if w_max_retry_cnt s <=? w_retry_cnt s then markFailed id;; processed c
  else
    match meta env (w_target_id s) true with
    | None => markFailed id;; processed c
    | Some d =>
        sel ← lift (select_device (Some d) (draw env (2 * id)) EmptyString (w_dest_addr s) (w_length s) (w_retry_cnt s));
        match sel with
        | None => markFailed id;; processed c
        | Some bd =>
            r ← lift (route_of d bd.1 bd.2);
            set_slice id (w_with_route r.1 r.2);;
            push_local c thread r.2 id
        end
    end.

Definition redispatch (env : Env) (c thread : nat) (ids : list nat) : ST Engine unit := each (redispatch_slice env c thread) ids.

(** The shards of a worker: its own number and every [workers]-th after it. *)
Definition worker_shards (workers thread : nat) : list nat :=
  filter (λ k, (thread <= k)%nat ∧ ((k - thread) mod workers)%nat = 0%nat) (seq 0 kShardCount).

Definition merge_queue (q local : SliceQueue) : SliceQueue :=
  foldl (λ l e, foldl (λ l id, enqueue e.1 id l) l e.2) local (map_to_list q).

Definition drain_shard (c thread k : nat) : ST Engine unit :=
  x ← get_context c;
  sh ← lift (slice_queue_ (cx_pool x) !! k);
  if sh_count sh =? 0 then mret tt
  else
    set_pool c (p_with_locals (alter (merge_queue (sh_queue sh)) thread) ∘
      p_with_shards <[k := mkShard ((λ _, []) <$> sh_queue sh) 0]>).

(** Too many failures without a success make the device inactive. *)
Definition note_failure (c : nat) : ST Engine unit :=
  x ← get_context c;
  let p := cx_pool x in
  let bad := u64 (failed_nr_polls p + 1) in
  set_pool c (p_with_polls (success_nr_polls p) bad);;
  when (cx_active x && (32 <? bad) && (success_nr_polls p =? 0)) (set_active c false).

Definition set_local (c thread : nat) (path : string) (ids : list nat) : ST Engine unit :=
  set_pool c (p_with_locals (alter <[path := ids]> thread)).

(** [RdmaEndPoint::submitPostSend]: the slices that were not posted. *)
Definition post_work (env : Env) (c thread : nat) (path : string) (ids : list nat) (room : nat) (bad : option nat) :
    ST Engine (list nat) :=
  let wr_count := (room `min` length ids)%nat in
  let good := (default wr_count bad `min` wr_count)%nat in
  let batch := take wr_count ids in
  each (λ id, set_slice id (w_post (now env))) batch;;
  set_local c thread path (drop wr_count ids);;
  set_pool c (λ p, p_with_posted (λ _, posted_ p ++ take good batch) p);;
  mret (drop good batch).

(** What becomes of the slices of one path; the result joins [failed_slice_list]. *)
Definition post_path (env : Env) (c thread : nat) (path : string) (ids : list nat) : ST Engine (list nat) :=
  if bool_decide (ids = []) then mret []
  else
    match endpoint env path with
    | NoEndPoint | InactiveEndPoint => set_local c thread path [];; mret ids
    | ConnectFails => note_failure c;; set_local c thread path [];; mret ids
    | Posts room bad => post_work env c thread path ids room bad
    end.

Fixpoint post_paths (env : Env) (c thread : nat) (entries : list (string * list nat)) (failed : list nat) :
    ST Engine (list nat) :=
  match entries with
  | [] => mret failed
  | (path, ids) :: entries =>
      l ← post_path env c thread path ids;
      post_paths env c thread entries (failed ++ l)
  end.

Definition performPostSend (cfg : Config) (env : Env) (c thread : nat) : ST Engine unit :=
  each (drain_shard c thread) (worker_shards (kTransferWorkerCount cfg) thread);;
  x ← get_context c;
  local ← lift (collective_slice_queue_ (cx_pool x) !! thread);
  seen ← lift (tl_redispatch_counter (cx_pool x) !! thread);
  let counter := redispatch_counter_ (cx_pool x) in
  if seen <? counter then
    set_pool c (λ p, p_with_redispatch counter (<[thread := counter]> (tl_redispatch_counter p)) p);;
    set_pool c (p_with_locals <[thread := ∅]>);;
    each (λ e, redispatch env c thread e.2) (map_to_list local)
  else
    failed ← post_paths env c thread (map_to_list local) [];
    each (λ id, set_slice id w_retry) failed;;
    redispatch env c thread failed.

(** A completion names a slice the device still holds. *)
Definition take_completion (c id : nat) : ST Engine unit :=
  x ← get_context c;
  if bool_decide (id ∈ posted_ (cx_pool x)) then set_pool c (λ p, p_with_posted (λ _, filter (λ j, j ≠ id) (posted_ p)) p)
  else fault.

Definition poll_one (c thread : nat) (wc : Completion) : ST Engine unit :=
  let id := wc_slice wc in
  take_completion c id;;
  if wc_success wc then
    markSuccess id;;
    set_pool c (λ p, p_with_polls (u64 (success_nr_polls p + 1)) (failed_nr_polls p) p)
  else
    note_failure c;;
    set_slice id w_retry;;
    s ← get_slice id;
    if w_max_retry_cnt s <=? w_retry_cnt s then markFailed id;; processed c
    else
      push_local c thread (w_peer_nic_path s) id;;
      set_pool c (λ p, p_with_redispatch (redispatch_counter_ p + 1) (tl_redispatch_counter p) p).

Definition performPollCq (env : Env) (c thread : nat) : ST Engine unit :=
  x ← get_context c;
  let wcs := completions env (posted_ (cx_pool x)) in
  each (poll_one c thread) wcs;;
  set_pool c (p_with_counts 0 (Z.of_nat (length (filter (λ wc, wc_success wc) wcs)))).

(** One turn of the loop of [transferWorker]. *)
Definition transferWorker (cfg : Config) (env : Env) (c thread : nat) : ST Engine unit :=
  x ← get_context c;
  if processed_slice_count_ (cx_pool x) =? submitted_slice_count_ (cx_pool x) then mret tt
  else performPostSend cfg env c thread;; performPollCq env c thread.

(** ** Slicing requests: [RdmaTransport::submitTransferTask] *)

Inductive Status := OK | AddressNotRegistered | InvalidArgument | TooManyRequests | BatchBusy | NotSupportedTransport.

(** The locals of the loop: [slices_to_post] by context, and [nr_slices]. *)
Record Posting := mkPosting { slices_to_post : gmap nat (list nat); nr_slices : Z }.

Definition flush (env : Env) (p : Posting) : ST Engine unit :=
  each (λ e, submitPostSend env (recently_failed env) e.1 e.2) (map_to_list (slices_to_post p)).

Definition allocate_slice (s : WorkSlice) : ST Engine nat := λ e,
  Some (e_next_slice e, mkEngine (<[e_next_slice e := s]> (e_slices e)) (S (e_next_slice e)) (e_batches e)
    (e_next_batch e) (e_contexts e)).

Definition t_push_slice (id : nat) (t : WorkTask) : WorkTask :=
  mkWorkTask (slice_count t) (success_slice_count t) (failed_slice_count t) (transferred_bytes t) (is_finished t)
    (total_bytes t) (t_req t) (slice_list t ++ [id]).
Definition t_count_slice (length : Z) (t : WorkTask) : WorkTask :=
  mkWorkTask (u64 (slice_count t + 1)) (success_slice_count t) (failed_slice_count t) (transferred_bytes t)
    (is_finished t) (u64 (total_bytes t + length)) (t_req t) (slice_list t).

(** The loop over [retry_cnt], from [retry] on. *)
Fixpoint find_device (env : Env) (d : SegDesc) (addr length : Z) (retry : Z) (fuel : nat) :
    ST Engine (option (nat * nat)) :=
  match fuel with
  | O => mret None
  | S fuel =>
      sel ← lift (select_device (Some d) (draw env (Z.to_nat retry)) EmptyString addr length retry);
      match sel with
      | None => find_device env d addr length (retry + 1) fuel
      | Some bd =>
          x ← get_context bd.2;
          if cx_active x then mret (Some bd) else find_device env d addr length (retry + 1) fuel
      end
  end.

Definition new_slice (cfg : Config) (r : nat * nat) (q : Request) (offset length : Z) : WorkSlice :=
  mkWorkSlice (q_source q + offset) length (q_opcode q) (q_target_id q) EmptyString SS.PENDING r
    (u64 (q_target_offset q + offset)) 0 0 (u32 (q_advise_retry_cnt q)) (u32 (kMaxRetryCount cfg)) 0.

Fixpoint slice_loop (cfg : Config) (env : Env) (d : SegDesc) (r : nat * nat) (q : Request)
    (request_device : option (nat * nat)) (offset : Z) (p : Posting) (fuel : nat) : ST Engine (Status * Posting) :=
  match fuel with
  | O => fault
  | S fuel =>
      if offset <? q_length q then
        let merge_final_slice := q_length q - offset <=? u64 (kBlockSize cfg + kFragmentSize cfg) in
        let length := if merge_final_slice then q_length q - offset else kBlockSize cfg in
        id ← allocate_slice (new_slice cfg r q offset length);
        let nr := if recycled env id then nr_slices p else u64 (nr_slices p + 1) in
        set_task r (t_push_slice id);;
        found ← match request_device with
                | Some bd => mret (Some bd)
                | None => find_device env d (q_source q + offset) length (q_advise_retry_cnt q)
                            (Z.to_nat (kMaxRetryCount cfg - q_advise_retry_cnt q))
                end;
        match found with
        | None => mret (AddressNotRegistered, p)
        | Some bd =>
            x ← get_context bd.2;
            if cx_active x then
              b ← lift (sd_buffers d !! bd.1);
              lkey ← lift (sb_lkey b !! bd.2);
              set_slice id (w_with_lkey lkey);;
              let post := enqueue bd.2 id (slices_to_post p) in
              set_task r (t_count_slice length);;
              p ← (if kSubmitWatermark cfg <=? nr then flush env (mkPosting post nr);; mret (mkPosting ∅ 0)
                   else mret (mkPosting post nr));
              if merge_final_slice then mret (OK, p)
              else slice_loop cfg env d r q request_device (u64 (offset + kBlockSize cfg)) p fuel
            else mret (InvalidArgument, p)
        end
      else mret (OK, p)
  end.

(** One turn for every started block, and one to leave the loop. *)
Definition slice_fuel (cfg : Config) (q : Request) : nat := S (S (Z.to_nat (q_length q / kBlockSize cfg))).

Fixpoint slice_tasks (cfg : Config) (env : Env) (d : SegDesc) (rs : list (nat * nat)) (p : Posting) :
    ST Engine (Status * Posting) :=
  match rs with
  | [] => mret (OK, p)
  | r :: rs =>
      t ← (λ e, (λ t, (t, e)) <$> find_task r e);
      q ← lift (t_req t);
      request_device ← lift (select_device (Some d) (draw env 0) EmptyString (q_source q) (q_length q) 0);
      sp ← slice_loop cfg env d r q request_device 0 (mkPosting (slices_to_post p) 0) (slice_fuel cfg q);
      match sp.1 with
      | OK => slice_tasks cfg env d rs sp.2
      | st => mret (st, sp.2)
      end
  end.

Definition LOCAL_SEGMENT_ID : Z := 0.

Definition submitTransferTask (cfg : Config) (env : Env) (rs : list (nat * nat)) : ST Engine Status :=
  d ← lift (meta env LOCAL_SEGMENT_ID false);
  sp ← slice_tasks cfg env d rs (mkPosting ∅ 0);
  match sp.1 with
  | OK => flush env sp.2;; mret OK
  | st => mret st
  end.

(** ** Batches: [MultiTransport] *)

Definition allocateBatchID (size : Z) : ST Engine nat := λ e,
  Some (e_next_batch e, mkEngine (e_slices e) (e_next_slice e) (<[e_next_batch e := mkBatchDesc size []]> (e_batches e))
    (S (e_next_batch e)) (e_contexts e)).

Definition get_batch (b : nat) : ST Engine BatchDesc := λ e, (λ x, (x, e)) <$> e_batches e !! b.

(** Only the RDMA transport is installed. *)
Definition selectTransport (env : Env) (q : Request) : Status :=
  match meta env (q_target_id q) false with
  | None => InvalidArgument
  | Some d => if bool_decide (sd_protocol d = "rdma"%string) then OK else NotSupportedTransport
  end.

Definition t_with_req (q : Request) (t : WorkTask) : WorkTask :=
  mkWorkTask (slice_count t) (success_slice_count t) (failed_slice_count t) (transferred_bytes t) (is_finished t)
    (total_bytes t) (Some q) (slice_list t).

Fixpoint assign_requests (env : Env) (b i : nat) (entries : list Request) : ST Engine Status :=
  match entries with
  | [] => mret OK
  | q :: entries =>
      match selectTransport env q with
      | OK => set_task (b, i) (t_with_req q);; assign_requests env b (S i) entries
      | st => mret st
      end
  end.

Definition submitTransfer (cfg : Config) (env : Env) (b : nat) (entries : list Request) : ST Engine Status :=
  d ← get_batch b;
  let n := length (task_list d) in
  if batch_size d <? Z.of_nat (n + length entries) then mret TooManyRequests
  else
    modify (with_batches <[b := mkBatchDesc (batch_size d) (task_list d ++ replicate (length entries) new_task)]>);;
    st ← assign_requests env b n entries;
    match st with
    | OK => if bool_decide (entries = []) then mret OK
            else submitTransferTask cfg env ((λ i, (b, i)) <$> seq n (length entries))
    | st => mret st
    end.

(** Whether a posted slice has been under way for too long. *)
Fixpoint timed_out (limit now : Z) (ids : list nat) : ST Engine bool :=
  match ids with
  | [] => mret false
  | id :: ids =>
      s ← get_slice id;
      if (0 <? w_ts s) && (w_ts s <? now) && (limit <? now - w_ts s) then mret true else timed_out limit now ids
  end.

Definition t_finish (t : WorkTask) : WorkTask :=
  mkWorkTask (slice_count t) (success_slice_count t) (failed_slice_count t) (transferred_bytes t) true
    (total_bytes t) (t_req t) (slice_list t).

Record TransferStatus := mkTransferStatus { ts_status : TransferStatusEnum; ts_bytes : Z }.

Definition getTransferStatus (cfg : Config) (now : Z) (b i : nat) : ST Engine (Status * TransferStatus) :=
  d ← get_batch b;
  match task_list d !! i with
  | None => mret (InvalidArgument, mkTransferStatus TS.WAITING 0)
  | Some t =>
      let status s := mkTransferStatus s (transferred_bytes t) in
      if u64 (success_slice_count t + failed_slice_count t) =? slice_count t then
        set_task (b, i) t_finish;;
        mret (OK, status (if failed_slice_count t =? 0 then TS.COMPLETED else TS.FAILED))
      else
        late ← (if 0 <? slice_timeout cfg then timed_out (slice_timeout cfg * 1000000000) now (slice_list t) else mret false);
        mret (OK, status (if late : bool then TS.TIMEOUT else TS.WAITING))
  end.

Fixpoint batch_status (cfg : Config) (now : Z) (b : nat) (tasks : list nat) (success_count bytes : Z) (total : Z) :
    ST Engine TransferStatus :=
  match tasks with
  | [] => mret (mkTransferStatus (if success_count =? total then TS.COMPLETED else TS.WAITING) bytes)
  | i :: tasks =>
      r ← getTransferStatus cfg now b i;
      match r.1, ts_status r.2 with
      | OK, TS.COMPLETED => batch_status cfg now b tasks (success_count + 1) (u64 (bytes + ts_bytes r.2)) total
      | OK, TS.FAILED => mret (mkTransferStatus TS.FAILED bytes)
      | OK, _ => batch_status cfg now b tasks success_count bytes total
      | _, _ => mret (mkTransferStatus TS.FAILED bytes)
      end
  end.

Definition getBatchTransferStatus (cfg : Config) (now : Z) (b : nat) : ST Engine TransferStatus :=
  d ← get_batch b;
  let n := length (task_list d) in
  if (n =? 0)%nat then mret (mkTransferStatus TS.COMPLETED 0)
  else batch_status cfg now b (seq 0 n) 0 0 (Z.of_nat n).

(** Deleting a batch destroys its tasks, and they their slices. *)
Definition freeBatchID (b : nat) : ST Engine Status :=
  d ← get_batch b;
  if forallb is_finished (task_list d) then
    modify (with_batches (delete b));;
    modify (with_slices (λ m, foldr delete m (task_list d ≫= slice_list)));;
    mret OK
  else mret BatchBusy.

(** ** Runs

    A caller uses its batch from one thread; calls of different threads, turns
    of the workers and events of the devices interleave. *)
Inductive EngineEvent :=
| AllocateBatch (size : Z)
| SubmitTransfer (env : Env) (b : nat) (entries : list Request)
| GetTransferStatus (now : Z) (b i : nat)
| GetBatchTransferStatus (now : Z) (b : nat)
| FreeBatch (b : nat)
| WorkerTurn (env : Env) (c thread : nat)
| DeviceEvent (c : nat) (active : bool).

(** The status is that of the call; the workers and devices have none. *)
Definition engine_step (cfg : Config) (ev : EngineEvent) : ST Engine Status :=
  match ev with
  | AllocateBatch size => allocateBatchID size;; mret OK
  | SubmitTransfer env b entries => submitTransfer cfg env b entries
  | GetTransferStatus now b i => r ← getTransferStatus cfg now b i; mret r.1
  | GetBatchTransferStatus now b => getBatchTransferStatus cfg now b;; mret OK
  | FreeBatch b => freeBatchID b
  | WorkerTurn env c thread => transferWorker cfg env c thread;; mret OK
  | DeviceEvent c active => set_active c active;; mret OK
  end.

Definition new_pool (cfg : Config) : Pool :=
  mkPool (replicate kShardCount (mkShard ∅ 0)) (replicate (kTransferWorkerCount cfg) ∅) [] 0 0 0
    (replicate (kTransferWorkerCount cfg) 0) 0 0.

Definition new_engine (cfg : Config) (devices : list string) : Engine :=
  mkEngine ∅ 0 ∅ 0 ((λ h, mkContext h true (new_pool cfg)) <$> devices).
