(* ===== verification/EngineInv.v ===== *)
(** * The invariant of the transfer engine

    Who holds a slice: a slice that has not settled is in exactly one place, a
    shard of a pool, the queue of a worker, the device, or the hands of the
    thread that is moving it.  The counters of a task count its settled slices,
    its slices are consecutive pieces of its request, and the counters of a
    pool differ by the slices it holds. *)

From S2P Require Import Prelude ClientProg Topology TransferEngine.

(** ** Where slices are *)

Definition queue_ids `{Countable K} (q : gmap K (list nat)) : list nat := mjoin ((map_to_list q).*2).
Definition pool_ids (p : Pool) : list nat :=
  mjoin ((λ sh, queue_ids (sh_queue sh)) <$> slice_queue_ p) ++ mjoin (queue_ids <$> collective_slice_queue_ p) ++ posted_ p.
Definition context_ids (x : RdmaContext) : list nat := pool_ids (cx_pool x).
Definition outstanding (e : Engine) : list nat := mjoin (context_ids <$> e_contexts e).

#[export] Instance mjoin_perm {A} : Proper ((≡ₚ) ==> (≡ₚ)) (mjoin (M := list) (A := A)).
Proof.
  intros l1 l2. induction 1 as [|x l1 l2 _ IH|x y l|l1 l2 l3 _ IH1 _ IH2]; simpl; [done| | |by rewrite IH1].
  - by rewrite IH.
  - by rewrite !(assoc_L (++)), (Permutation_app_comm x y).
Qed.

Lemma queue_ids_insert `{Countable K} (path : K) l q : queue_ids (<[path := l]> q) ≡ₚ l ++ queue_ids (delete path q).
Proof.
  unfold queue_ids. rewrite <-insert_delete_eq. by rewrite map_to_list_insert by apply lookup_delete_eq.
Qed.

Lemma queue_ids_lookup `{Countable K} (path : K) l q : q !! path = Some l → queue_ids q ≡ₚ l ++ queue_ids (delete path q).
Proof. intros Hl. by rewrite <-queue_ids_insert, insert_id. Qed.

Lemma queue_ids_enqueue `{Countable K} (path : K) id q : queue_ids (enqueue path id q) ≡ₚ id :: queue_ids q.
Proof.
  unfold enqueue. rewrite queue_ids_insert. destruct (q !! path) as [l|] eqn:E; simpl.
  - by rewrite (queue_ids_lookup path l q E), (Permutation_app_comm l [id]).
  - by rewrite delete_id.
Qed.

Lemma queue_ids_enqueues (path : string) l local :
  queue_ids (foldl (λ q id, enqueue path id q) local l) ≡ₚ l ++ queue_ids local.
Proof.
  revert local. induction l as [|id l IH]; intros local; [done|]. simpl. rewrite IH, queue_ids_enqueue.
  by rewrite <-Permutation_middle.
Qed.

Lemma queue_ids_merge (q local : SliceQueue) : queue_ids (merge_queue q local) ≡ₚ queue_ids q ++ queue_ids local.
Proof.
  unfold merge_queue. unfold queue_ids at 2. revert local.
  induction (map_to_list q) as [|[path l] es IH]; intros local; [done|].
  simpl. rewrite IH, queue_ids_enqueues. simpl. rewrite <-(assoc_L (++)). apply Permutation_app_swap_app.
Qed.

Lemma queue_ids_cleared (q : SliceQueue) : queue_ids ((λ _, []) <$> q) = [].
Proof.
  unfold queue_ids. rewrite map_to_list_fmap, <-list_fmap_compose. by induction (map_to_list q).
Qed.

Lemma queue_ids_empty `{Countable K} : queue_ids (∅ : gmap K (list nat)) = [].
Proof. unfold queue_ids. by rewrite map_to_list_empty. Qed.

(** Exchanging one element of a list of collections. *)
Lemma mjoin_exchange {A B} (f : A → list B) (l : list A) i x y (a b : list B) :
  l !! i = Some x → a ++ f y ≡ₚ b ++ f x →
  a ++ mjoin (f <$> <[i := y]> l) ≡ₚ b ++ mjoin (f <$> l).
Proof.
  intros Hi Hp. rewrite list_fmap_insert. apply list_elem_of_split_length in Hi as (l1 & l2 & -> & ->).
  rewrite !fmap_app, !fmap_cons. rewrite <-(length_fmap f l1), insert_app_r_alt, Nat.sub_diag by done. simpl.
  rewrite !join_app. cbn [mjoin list_join]. rewrite !(Permutation_app_swap_app _ (mjoin _)), !(assoc_L (++) _ (f _)). by rewrite Hp.
Qed.

Lemma outstanding_exchange e c x y a b :
  e_contexts e !! c = Some x → a ++ context_ids y ≡ₚ b ++ context_ids x →
  a ++ outstanding (with_contexts <[c := y]> e) ≡ₚ b ++ outstanding e.
Proof. apply mjoin_exchange. Qed.

(** ** What is known of a task *)

Definition unsettled (s : WorkSlice) : Prop := w_status s = SS.PENDING ∨ w_status s = SS.POSTED.

#[export] Instance unsettled_dec s : Decision (unsettled s).
Proof. unfold unsettled. apply _. Defined.

Definition counted (t : WorkTask) : list nat := take (Z.to_nat (slice_count t)) (slice_list t).

(** The slices among [ids] whose status is [st]. *)
Definition stats (m : gmap nat WorkSlice) (st : SliceStatus) (ids : list nat) : list WorkSlice :=
  filter (λ s, w_status s = st) (omap (λ id, m !! id) ids).

(** Slices [ids] are the consecutive pieces [from, to) of request [q]. *)
Fixpoint tiled (m : gmap nat WorkSlice) (q : Request) (from : Z) (ids : list nat) (to : Z) : Prop :=
  match ids with
  | [] => from = to
  | id :: ids => ∃ s, m !! id = Some s ∧ 0 < w_length s ∧
      w_source_addr s = q_source q + from ∧ w_dest_addr s = u64 (q_target_offset q + from) ∧
      w_opcode s = q_opcode q ∧ w_target_id s = q_target_id q ∧ tiled m q (from + w_length s) ids to
  end.

Record task_ok (m : gmap nat WorkSlice) (r : nat * nat) (t : WorkTask) : Prop := {
  tk_nodup : NoDup (slice_list t);
  tk_in id : id ∈ slice_list t → ∃ s, m !! id = Some s ∧ w_task s = r;
  tk_count : 0 <= slice_count t <= Z.of_nat (length (slice_list t));
  tk_success : success_slice_count t = Z.of_nat (length (stats m SS.SUCCESS (counted t)));
  tk_failed : failed_slice_count t = Z.of_nat (length (stats m SS.FAILED (counted t)));
  tk_bytes : transferred_bytes t = zsum (w_length <$> stats m SS.SUCCESS (counted t));
  tk_done : is_finished t = true → success_slice_count t + failed_slice_count t = slice_count t;
  tk_req : match t_req t with
           | Some q => is_u64 (q_length q) ∧ tiled m q 0 (counted t) (total_bytes t) ∧ 0 <= total_bytes t <= q_length q
           | None => slice_list t = [] ∧ total_bytes t = 0
           end;
}.

Definition pool_shape (cfg : Config) (p : Pool) : Prop :=
  length (slice_queue_ p) = kShardCount ∧ length (collective_slice_queue_ p) = kTransferWorkerCount cfg ∧
  length (tl_redispatch_counter p) = kTransferWorkerCount cfg.

(** [held] are the slices in the hands of the running thread, [z] how many of
    the slices of pool [c] are neither queued there nor counted as processed;
    [strict]: no submission has been given up. *)
Record einv (cfg : Config) (strict : bool) (held : list nat) (c : nat) (z : Z) (e : Engine) : Prop := {
  ei_nodup : NoDup (held ++ outstanding e);
  ei_live id : id ∈ held ++ outstanding e →
    ∃ s t, e_slices e !! id = Some s ∧ unsettled s ∧ find_task (w_task s) e = Some t ∧ id ∈ counted t;
  ei_all : strict = true → ∀ id s, e_slices e !! id = Some s → unsettled s → id ∈ held ++ outstanding e;
  ei_owned id s : e_slices e !! id = Some s → ∃ t, find_task (w_task s) e = Some t ∧ id ∈ slice_list t;
  ei_next id s : e_slices e !! id = Some s → (id < e_next_slice e)%nat;
  ei_task r t : find_task r e = Some t → task_ok (e_slices e) r t;
  ei_batch b : is_Some (e_batches e !! b) → (b < e_next_batch e)%nat;
  ei_pool c' x : e_contexts e !! c' = Some x →
    pool_shape cfg (cx_pool x) ∧
    submitted_slice_count_ (cx_pool x) =
      u64 (processed_slice_count_ (cx_pool x) + Z.of_nat (length (context_ids x)) + if decide (c' = c) then z else 0);
}.

(** ** Slices that change *)

(** What never changes of a slice. *)
Definition same_piece (s s' : WorkSlice) : Prop :=
  w_source_addr s' = w_source_addr s ∧ w_length s' = w_length s ∧ w_opcode s' = w_opcode s ∧
  w_target_id s' = w_target_id s ∧ w_task s' = w_task s ∧ w_dest_addr s' = w_dest_addr s.

Lemma tiled_update m q id s s' from ids to : m !! id = Some s → same_piece s s' →
  tiled m q from ids to → tiled (<[id := s']> m) q from ids to.
Proof.
  intros Hm (E1 & E2 & E3 & E4 & E5 & E6). revert from. induction ids as [|i ids IH]; intros from; [done|].
  intros (x & Hx & Hl & H1 & H2 & H3 & H4 & Ht). destruct (decide (id = i)) as [<-|Hne].
  - simplify_eq. exists s'. rewrite lookup_insert_eq, E1, E2, E3, E4, E6. eauto 10.
  - exists x. rewrite lookup_insert_ne by done. eauto 10.
Qed.

Lemma tiled_notin m q id s' from ids to : id ∉ ids → tiled m q from ids to → tiled (<[id := s']> m) q from ids to.
Proof.
  revert from. induction ids as [|i ids IH]; intros from Hi; [done|]. apply not_elem_of_cons in Hi as [Hne Hi].
  intros (x & Hx & Hl & H1 & H2 & H3 & H4 & Ht). exists x. rewrite lookup_insert_ne by done. eauto 10.
Qed.

Lemma tiled_snoc m q from ids mid id s : tiled m q from ids mid → m !! id = Some s → 0 < w_length s →
  w_source_addr s = q_source q + mid → w_dest_addr s = u64 (q_target_offset q + mid) →
  w_opcode s = q_opcode q → w_target_id s = q_target_id q →
  tiled m q from (ids ++ [id]) (mid + w_length s).
Proof.
  revert from. induction ids as [|i ids IH]; intros from; simpl.
  - intros -> ?????. exists s. done.
  - intros (x & Hx & Hl & H1 & H2 & H3 & H4 & Ht) ??????. exists x. split_and!; [done..|]. by apply IH.
Qed.

Lemma tiled_length m q from ids to : tiled m q from ids to → from + Z.of_nat (length ids) <= to.
Proof.
  revert from. induction ids as [|i ids IH]; intros from; simpl; [lia|].
  intros (x & _ & Hl & _ & _ & _ & _ & Ht). apply IH in Ht. lia.
Qed.

Lemma stats_Permutation m st ids ids' : ids ≡ₚ ids' → stats m st ids ≡ₚ stats m st ids'.
Proof. intros H. unfold stats. by rewrite H. Qed.

Lemma stats_step m st id ids : stats m st (id :: ids) =
  match m !! id with
  | Some s => if decide (w_status s = st) then s :: stats m st ids else stats m st ids
  | None => stats m st ids
  end.
Proof. unfold stats. simpl. destruct (m !! id); [|done]. by rewrite filter_cons. Qed.

Lemma stats_cons m st id ids s : m !! id = Some s →
  stats m st (id :: ids) = if decide (w_status s = st) then s :: stats m st ids else stats m st ids.
Proof. intros H. by rewrite stats_step, H. Qed.

Lemma stats_notin m st id s' ids : id ∉ ids → stats (<[id := s']> m) st ids = stats m st ids.
Proof.
  intros Hi. induction ids as [|i ids IH]; [done|]. apply not_elem_of_cons in Hi as [Hne Hi].
  rewrite !stats_step, lookup_insert_ne, IH by done. done.
Qed.

Lemma stats_same m st id s s' ids : m !! id = Some s → w_status s ≠ st → w_status s' ≠ st →
  stats (<[id := s']> m) st ids = stats m st ids.
Proof.
  intros Hm Hs Hs'. induction ids as [|i ids IH]; [done|]. rewrite !stats_step, IH.
  destruct (decide (id = i)) as [<-|Hne]; [|by rewrite lookup_insert_ne].
  rewrite lookup_insert_eq, Hm, !decide_False by done. done.
Qed.

Lemma stats_new m st id s s' ids : m !! id = Some s → w_status s ≠ st → w_status s' = st → NoDup ids → id ∈ ids →
  stats (<[id := s']> m) st ids ≡ₚ s' :: stats m st ids.
Proof.
  intros Hm Hs Hs' Hn Hi. apply elem_of_Permutation in Hi as [ids' Hp].
  rewrite (stats_Permutation _ _ _ _ Hp), (stats_Permutation m _ _ _ Hp). rewrite Hp in Hn. apply NoDup_cons in Hn as [Hi _].
  rewrite (stats_cons _ _ _ _ s') by apply lookup_insert_eq. rewrite (stats_cons _ _ _ _ s) by done.
  rewrite decide_True, decide_False, stats_notin by done. done.
Qed.

Lemma settled_le m ids :
  (length (stats m SS.SUCCESS ids) + length (stats m SS.FAILED ids) <= length ids)%nat.
Proof.
  induction ids as [|i ids IH]; [done|]. rewrite !stats_step. destruct (m !! i); [|simpl; lia].
  repeat case_decide; simpl; try congruence; lia.
Qed.

(** When the counters add up, every slice has settled. *)
Lemma settled_all m ids id s :
  (length ids <= length (stats m SS.SUCCESS ids) + length (stats m SS.FAILED ids))%nat →
  id ∈ ids → m !! id = Some s → w_status s = SS.SUCCESS ∨ w_status s = SS.FAILED.
Proof.
  intros Hl Hi Hm. apply elem_of_Permutation in Hi as [ids' Hp].
  rewrite !(stats_Permutation m _ _ _ Hp), Hp, !(stats_cons _ _ _ _ s) in Hl by done. simpl in Hl.
  pose proof (settled_le m ids'). repeat case_decide; try tauto. lia.
Qed.

Section task_ok.
Context (m : gmap nat WorkSlice) (id : nat) (s s' : WorkSlice).
Hypothesis Hid : m !! id = Some s.
Hypothesis Hp : same_piece s s'.

Lemma tk_in_update r t : task_ok m r t → ∀ i, i ∈ slice_list t → ∃ x, <[id := s']> m !! i = Some x ∧ w_task x = r.
Proof using Hid Hp.
  intros Ht i (x & Hx & Hr)%(tk_in _ _ _ Ht). destruct (decide (id = i)) as [<-|Hne].
  - simplify_eq. exists s'. rewrite lookup_insert_eq. split; [done|]. by destruct Hp as (_ & _ & _ & _ & -> & _).
  - exists x. by rewrite lookup_insert_ne.
Qed.

Lemma tk_req_update r t : task_ok m r t →
  match t_req t with
  | Some q => is_u64 (q_length q) ∧ tiled (<[id := s']> m) q 0 (counted t) (total_bytes t) ∧ 0 <= total_bytes t <= q_length q
  | None => slice_list t = [] ∧ total_bytes t = 0
  end.
Proof using Hid Hp.
  intros Ht. pose proof (tk_req _ _ _ Ht) as H. destruct (t_req t) as [q|]; [|done].
  destruct H as (H1 & H2 & H3). split_and!; try apply H1; try apply H3. by eapply tiled_update.
Qed.

Lemma task_ok_keep r t : unsettled s → unsettled s' → task_ok m r t → task_ok (<[id := s']> m) r t.
Proof using Hid Hp.
  intros Hs Hs' Ht.
  assert (∀ st, st = SS.SUCCESS ∨ st = SS.FAILED → stats (<[id := s']> m) st (counted t) = stats m st (counted t)) as Hst.
  { intros st Hst. eapply stats_same; [done| |]; unfold unsettled in *; destruct Hst as [-> | ->]; intros E; rewrite E in *; naive_solver. }
  pose proof Ht as [H1 H2 H3 H4 H5 H6 H7 H8]. split; try done.
  - by apply tk_in_update.
  - by rewrite Hst by auto.
  - by rewrite Hst by auto.
  - by rewrite Hst by auto.
  - by eapply tk_req_update.
Qed.

Lemma task_ok_other r t : w_task s ≠ r → task_ok m r t → task_ok (<[id := s']> m) r t.
Proof using Hid Hp.
  intros Hr Ht. assert (id ∉ slice_list t) as Hn.
  { intros (x & Hx & Hr')%(tk_in _ _ _ Ht). by simplify_eq. }
  assert (id ∉ counted t) as Hc by (unfold counted; rewrite elem_of_take; intros (i & Hi & _); by apply Hn, list_elem_of_lookup_2 with i).
  pose proof Ht as [H1 H2 H3 H4 H5 H6 H7 H8]. split; try done.
  - by apply tk_in_update.
  - by rewrite stats_notin.
  - by rewrite stats_notin.
  - by rewrite stats_notin.
  - by eapply tk_req_update.
Qed.
End task_ok.

(** ** Frames *)

(** What the moves of slices leave of a task. *)
Definition task_key (t : WorkTask) : Z * Z * bool * option Request * list nat :=
  (slice_count t, total_bytes t, is_finished t, t_req t, slice_list t).
Definition batch_key (b : BatchDesc) : Z * nat := (batch_size b, length (task_list b)).

Record frame (e e' : Engine) : Prop := {
  fr_task r : task_key <$> find_task r e' = task_key <$> find_task r e;
  fr_batch b : batch_key <$> e_batches e' !! b = batch_key <$> e_batches e !! b;
  fr_contexts : length (e_contexts e') = length (e_contexts e);
}.

#[export] Instance frame_preorder : PreOrder frame.
Proof.
  split; [by split|]. intros e1 e2 e3 [H1 H2 H3] [H1' H2' H3'].
  split; [intros r; by rewrite H1', H1|intros b; by rewrite H2', H2|congruence].
Qed.

Definition put_task (r : nat * nat) (t : WorkTask) (e : Engine) : Engine :=
  with_batches (alter (λ b, mkBatchDesc (batch_size b) (<[r.2 := t]> (task_list b))) r.1) e.

Lemma find_task_put r r' t t' e : find_task r e = Some t →
  find_task r' (put_task r t' e) = if decide (r' = r) then Some t' else find_task r' e.
Proof.
  destruct r as [b i], r' as [b' i']. unfold find_task, put_task. simpl. intros H.
  apply bind_Some in H as (d & Hd & Ht). destruct (decide (b' = b)) as [->|Hb].
  - rewrite lookup_alter_eq, Hd. simpl. destruct (decide (i' = i)) as [->|Hi].
    + rewrite decide_True by done. apply list_lookup_insert_eq. by eapply lookup_lt_Some.
    + rewrite decide_False by congruence. by rewrite list_lookup_insert_ne.
  - rewrite lookup_alter_ne, decide_False by congruence. done.
Qed.

Lemma put_task_batch r t e b : batch_key <$> e_batches (put_task r t e) !! b = batch_key <$> e_batches e !! b.
Proof.
  unfold put_task. simpl. destruct (decide (b = r.1)) as [->|Hb]; [|by rewrite lookup_alter_ne].
  rewrite lookup_alter_eq. destruct (e_batches e !! r.1) as [d|]; [|done]. simpl. unfold batch_key. simpl.
  by rewrite length_insert.
Qed.

Lemma set_task_put r f t e : find_task r e = Some t → set_task r f e = Some (tt, put_task r (f t) e).
Proof.
  unfold find_task, set_task, put_task. intros H. apply bind_Some in H as (d & Hd & Ht). rewrite Hd. simpl.
  rewrite Ht. simpl. unfold with_batches. do 3 f_equal. symmetry. apply map_eq. intros b.
  destruct (decide (b = r.1)) as [->|Hb].
  - by rewrite lookup_alter_eq, lookup_insert_eq, Hd.
  - by rewrite lookup_alter_ne, lookup_insert_ne.
Qed.

Lemma runs_set_task r f t e Q : find_task r e = Some t → Q tt (put_task r (f t) e) → runs (set_task r f) e Q.
Proof. intros Ht HQ. eexists _, _. split; [by apply set_task_put|done]. Qed.

Lemma runs_get_slice id s e (Q : WorkSlice → Engine → Prop) : e_slices e !! id = Some s → Q s e → runs (get_slice id) e Q.
Proof. intros Hs HQ. exists s, e. unfold get_slice. by rewrite Hs. Qed.

Lemma runs_set_slice id s f e Q : e_slices e !! id = Some s → Q tt (with_slices <[id := f s]> e) →
  runs (set_slice id f) e Q.
Proof. intros Hs HQ. unfold set_slice. runs_step. eapply runs_get_slice; [done|]. by runs_step. Qed.

Lemma runs_get_context c x e (Q : RdmaContext → Engine → Prop) : e_contexts e !! c = Some x → Q x e → runs (get_context c) e Q.
Proof. intros Hs HQ. exists x, e. unfold get_context. by rewrite Hs. Qed.

Lemma runs_lift {S A} (o : option A) x (s : S) Q : o = Some x → Q x s → runs (lift o) s Q.
Proof. intros -> HQ. by exists x, s. Qed.

Lemma runs_each {S A} (f : A → ST S unit) (I : list A → S → Prop) l s :
  (∀ x l s, I (x :: l) s → runs (f x) s (λ _ s', I l s')) → I l s → runs (each f l) s (λ _, I []).
Proof.
  intros Hf. revert s. induction l as [|x l IH]; intros s Hs; simpl; [by apply runs_ret|].
  apply runs_bind. eapply runs_mono; [by apply Hf|]. intros [] s' Hs'. by apply IH.
Qed.

(** ** Slices settle once *)

Lemma tiled_bytes m q from ids to st : tiled m q from ids to → 0 <= zsum (w_length <$> stats m st ids) <= to - from.
Proof.
  revert from. induction ids as [|i ids IH]; intros from; simpl.
  - intros ->. unfold stats, zsum. simpl. lia.
  - intros (x & Hx & Hl & _ & _ & _ & _ & Ht). apply IH in Ht. rewrite (stats_cons _ _ _ _ x) by done.
    case_decide; [rewrite fmap_cons, zsum_cons|]; lia.
Qed.

Lemma elem_of_counted id t : id ∈ counted t → id ∈ slice_list t.
Proof. unfold counted. rewrite elem_of_take. intros (i & Hi & _). by eapply list_elem_of_lookup_2. Qed.

Lemma NoDup_counted m r t : task_ok m r t → NoDup (counted t).
Proof. intros Ht. eapply sublist_NoDup; [apply (tk_nodup _ _ _ Ht)|]. apply sublist_take. Qed.

Lemma length_counted m r t : task_ok m r t → Z.of_nat (length (counted t)) = slice_count t.
Proof. intros Ht. pose proof (tk_count _ _ _ Ht). unfold counted. rewrite length_take. lia. Qed.

(** A task with a slice that has not settled is not finished, and has room in
    its counters. *)
Lemma task_open m r t id s : task_ok m r t → m !! id = Some s → unsettled s → id ∈ counted t →
  is_finished t = false ∧ success_slice_count t + failed_slice_count t < slice_count t < 2 ^ 64.
Proof.
  intros Ht Hm Hs Hc. pose proof (length_counted _ _ _ Ht) as Hl.
  assert (success_slice_count t + failed_slice_count t < slice_count t) as Hlt.
  { rewrite (tk_success _ _ _ Ht), (tk_failed _ _ _ Ht), <-Hl. apply Znot_ge_lt. intros Hge.
    destruct (settled_all m (counted t) id s) as [E|E]; [lia|done..| |]; unfold unsettled in Hs; rewrite E in Hs; naive_solver. }
  split_and!; [|done|].
  - destruct (is_finished t) eqn:E; [|done]. apply (tk_done _ _ _ Ht) in E. lia.
  - pose proof (tk_req _ _ _ Ht) as Hq. destruct (t_req t) as [q|].
    + destruct Hq as ([_ Hu] & Htl%tiled_length & Hb). lia.
    + destruct Hq as [E _]. unfold counted in Hc. rewrite E, take_nil in Hc. by apply elem_of_nil in Hc.
Qed.

Definition t_succeed (length : Z) (t : WorkTask) : WorkTask :=
  mkWorkTask (slice_count t) (u64 (success_slice_count t + 1)) (failed_slice_count t)
    (u64 (transferred_bytes t + length)) (is_finished t) (total_bytes t) (t_req t) (slice_list t).
Definition t_fail (t : WorkTask) : WorkTask :=
  mkWorkTask (slice_count t) (success_slice_count t) (u64 (failed_slice_count t + 1))
    (transferred_bytes t) (is_finished t) (total_bytes t) (t_req t) (slice_list t).

Lemma unsettled_not s st : unsettled s → st = SS.SUCCESS ∨ st = SS.FAILED → w_status s ≠ st.
Proof. unfold unsettled. intros [Hs|Hs] [-> | ->]; congruence. Qed.

Section settle.
Context (m : gmap nat WorkSlice) (r : nat * nat) (t : WorkTask) (id : nat) (s : WorkSlice).
Hypothesis Ht : task_ok m r t.
Hypothesis Hid : m !! id = Some s.
Hypothesis Hs : unsettled s.
Hypothesis Hc : id ∈ counted t.

Lemma same_piece_status st : same_piece s (w_with_status st s).
Proof using Type. done. Qed.

Lemma task_ok_success : task_ok (<[id := w_with_status SS.SUCCESS s]> m) r (t_succeed (w_length s) t).
Proof using Ht Hid Hs Hc.
  destruct (task_open m r t id s) as (Hf & Hlt & Hb); [done..|].
  pose proof (NoDup_counted _ _ _ Ht) as Hn. pose proof Ht as [H1 H2 H3 H4 H5 H6 H7 H8].
  assert (stats (<[id := w_with_status SS.SUCCESS s]> m) SS.SUCCESS (counted t) ≡ₚ
    w_with_status SS.SUCCESS s :: stats m SS.SUCCESS (counted t)) as Hst.
  { apply (stats_new m SS.SUCCESS id s); [done|apply unsettled_not; auto|done..]. }
  pose proof (tk_req_update m id s (w_with_status SS.SUCCESS s) Hid (same_piece_status _) r t Ht) as Hq.
  split; simpl; try done.
  - by eapply tk_in_update.
  - change (counted (t_succeed (w_length s) t)) with (counted t). rewrite Hst. simpl. rewrite u64_small; unfold is_u64; lia.
  - change (counted (t_succeed (w_length s) t)) with (counted t). rewrite stats_same with (s := s); [done|done|apply unsettled_not; auto|done].
  - change (counted (t_succeed (w_length s) t)) with (counted t).
    destruct (t_req t) as [q|].
    + destruct Hq as ([_ Hu] & Hq%(tiled_bytes _ _ _ _ _ SS.SUCCESS) & Htb). rewrite Hst, fmap_cons, zsum_cons in Hq |- *.
      change (w_length (w_with_status SS.SUCCESS s)) with (w_length s) in *. rewrite u64_small; unfold is_u64; lia.
    + destruct H8 as [E _]. unfold counted in Hc. rewrite E, take_nil in Hc. by apply elem_of_nil in Hc.
  - congruence.
Qed.

Lemma task_ok_failed : task_ok (<[id := w_with_status SS.FAILED s]> m) r (t_fail t).
Proof using Ht Hid Hs Hc.
  destruct (task_open m r t id s) as (Hf & Hlt & Hb); [done..|].
  pose proof (NoDup_counted _ _ _ Ht) as Hn. pose proof Ht as [H1 H2 H3 H4 H5 H6 H7 H8].
  assert (stats (<[id := w_with_status SS.FAILED s]> m) SS.FAILED (counted t) ≡ₚ
    w_with_status SS.FAILED s :: stats m SS.FAILED (counted t)) as Hst.
  { apply (stats_new m SS.FAILED id s); [done|apply unsettled_not; auto|done..]. }
  assert (stats (<[id := w_with_status SS.FAILED s]> m) SS.SUCCESS (counted t) = stats m SS.SUCCESS (counted t)) as Hsu.
  { apply stats_same with (s := s); [done|apply unsettled_not; auto|done]. }
  pose proof (tk_req_update m id s (w_with_status SS.FAILED s) Hid (same_piece_status _) r t Ht) as Hq.
  split; simpl; try done.
  - by eapply tk_in_update.
  - change (counted (t_fail t)) with (counted t). by rewrite Hsu.
  - change (counted (t_fail t)) with (counted t). rewrite Hst. simpl. rewrite u64_small; unfold is_u64; lia.
  - change (counted (t_fail t)) with (counted t). by rewrite Hsu.
  - congruence.
Qed.
End settle.

(** ** Preservation *)

Section einv.
Context (cfg : Config) (strict : bool).
Implicit Types (e : Engine) (held : list nat).
Abbreviation einv := (einv cfg strict).

Lemma einv_perm held held' c z e : held ≡ₚ held' → einv held c z e → einv held' c z e.
Proof.
  intros Hp [H1 H2 H3 H4 H5 H6 H7 H8]. split; try done.
  - by rewrite <-Hp.
  - intros id. rewrite <-Hp. apply H2.
  - intros Hs id s. rewrite <-Hp. by apply H3.
Qed.

(** A pool in balance is like any other. *)
Lemma einv_balanced held c c' e : einv held c 0 e → einv held c' 0 e.
Proof.
  intros [H1 H2 H3 H4 H5 H6 H7 H8]. split; try done. intros k x Hx. destruct (H8 k x Hx) as [Hs ->].
  split; [done|]. f_equal. repeat case_decide; lia.
Qed.

Lemma einv_set_slice held c z e id s s' : einv held c z e → e_slices e !! id = Some s →
  unsettled s → unsettled s' → same_piece s s' → einv held c z (with_slices <[id := s']> e).
Proof.
  intros [H1 H2 H3 H4 H5 H6 H7 H8] Hid Hs Hs' Hp. pose proof Hp as (_ & _ & _ & _ & Et & _). split; try done; simpl.
  - intros i (x & t & Hx & Hu & Ht & Hc)%H2. destruct (decide (id = i)) as [<-|Hne].
    + simplify_eq. exists s', t. rewrite lookup_insert_eq, Et. done.
    + exists x, t. by rewrite lookup_insert_ne.
  - intros Hst i x [[<- <-]|[Hne Hx]]%lookup_insert_Some Hu; [by eapply H3|by eapply H3].
  - intros i x [[<- <-]|[Hne Hx]]%lookup_insert_Some; [rewrite Et|]; by eapply H4.
  - intros i x [[<- <-]|[Hne Hx]]%lookup_insert_Some; by eapply H5.
  - intros r t Ht. eapply task_ok_keep; try done. by apply H6.
Qed.

Lemma einv_settle held c z e id s t s' t' :
  einv (id :: held) c z e → e_slices e !! id = Some s → find_task (w_task s) e = Some t →
  ¬ unsettled s' → same_piece s s' → task_key t' = task_key t → task_ok (<[id := s']> (e_slices e)) (w_task s) t' →
  einv held c z (put_task (w_task s) t' (with_slices <[id := s']> e)).
Proof.
  intros [H1 H2 H3 H4 H5 H6 H7 H8] Hid Ht Hs' Hp Hk Hok. pose proof Hp as (_ & _ & _ & _ & Et & _).
  injection Hk as Ec _ _ _ El. rewrite <-app_comm_cons in H1. apply NoDup_cons in H1 as [Hni H1].
  assert (∀ r, find_task r (put_task (w_task s) t' (with_slices <[id := s']> e)) =
    if decide (r = w_task s) then Some t' else find_task r e) as Hf.
  { intros r. exact (find_task_put (w_task s) r t t' (with_slices <[id := s']> e) Ht). }
  split; try done; simpl.
  - intros i Hi. destruct (H2 i) as (x & tx & Hx & Hu & Htx & Hcx); [by right|].
    exists x. rewrite Hf. destruct (decide (id = i)) as [<-|Hne]; [done|]. rewrite lookup_insert_ne by done.
    case_decide as E; [|by exists tx]. rewrite E in Htx. simplify_eq. exists t'. split_and!; [done..|].
    unfold counted in *. by rewrite Ec, El.
  - intros Hst i x [[<- <-]|[Hne Hx]]%lookup_insert_Some Hu; [done|].
    specialize (H3 Hst i x Hx Hu). simpl in H3. apply elem_of_cons in H3 as [->|H3]; done.
  - assert (∀ r i, (∃ tx, find_task r e = Some tx ∧ i ∈ slice_list tx) →
      ∃ tx, (if decide (r = w_task s) then Some t' else find_task r e) = Some tx ∧ i ∈ slice_list tx) as Hlift.
    { intros r i (tx & Htx & Hi). case_decide as E; [|by exists tx]. exists t'. rewrite El. naive_solver. }
    intros i x Hx. rewrite Hf. apply Hlift. apply lookup_insert_Some in Hx as [[<- <-]|[Hne Hx]]; [rewrite Et|]; by eapply H4.
  - intros i x [[<- <-]|[Hne Hx]]%lookup_insert_Some; by eapply H5.
  - intros r tx. rewrite Hf. case_decide as E.
    + intros [= <-]. by rewrite E.
    + intros Htx. eapply task_ok_other; [done|done|congruence|by apply H6].
  - intros b Hb. apply H7. apply lookup_alter_is_Some in Hb. done.
Qed.

Lemma frame_settle e id s s' t t' : find_task (w_task s) e = Some t → task_key t' = task_key t →
  frame e (put_task (w_task s) t' (with_slices <[id := s']> e)).
Proof.
  intros Ht Hk. split; [|intros b; exact (put_task_batch _ t' (with_slices <[id := s']> e) b)|done].
  intros r. rewrite (find_task_put (w_task s) r t t' (with_slices <[id := s']> e) Ht). case_decide as E; [|done].
  subst. rewrite Ht. simpl. by rewrite Hk.
Qed.

Definition marks (mark : nat → ST Engine unit) : Prop := ∀ held c z e id, einv (id :: held) c z e →
  runs (mark id) e (λ _ e', einv held c z e' ∧ frame e e' ∧ e_contexts e' = e_contexts e).

Lemma markSuccess_ok : marks markSuccess.
Proof.
  intros held c z e id He. destruct (ei_live _ _ _ _ _ _ He id) as (s & t & Hs & Hu & Ht & Hc); [by left|].
  unfold markSuccess. runs_step. eapply runs_get_slice; [done|]. runs_step. eapply runs_set_slice; [done|].
  eapply runs_set_task; [exact Ht|]. split_and!; [|by eapply frame_settle|done].
  eapply einv_settle; [done..| |done|done|]; [by intros [?|?]|].
  by apply task_ok_success; [apply (ei_task _ _ _ _ _ _ He)|..].
Qed.

Lemma markFailed_ok : marks markFailed.
Proof.
  intros held c z e id He. destruct (ei_live _ _ _ _ _ _ He id) as (s & t & Hs & Hu & Ht & Hc); [by left|].
  unfold markFailed. runs_step. eapply runs_get_slice; [done|]. runs_step. eapply runs_set_slice; [done|].
  eapply runs_set_task; [exact Ht|]. split_and!; [|by eapply frame_settle|done].
  eapply einv_settle; [done..| |done|done|]; [by intros [?|?]|].
  by apply task_ok_failed; [apply (ei_task _ _ _ _ _ _ He)|..].
Qed.

(** Slices change hands within a context. *)
Lemma einv_context held held' c z z' e x y : einv held c z e → e_contexts e !! c = Some x →
  held' ++ context_ids y ≡ₚ held ++ context_ids x → pool_shape cfg (cx_pool y) →
  submitted_slice_count_ (cx_pool y) =
    u64 (processed_slice_count_ (cx_pool y) + Z.of_nat (length (context_ids y)) + z') →
  einv held' c z' (with_contexts <[c := y]> e).
Proof.
  intros [H1 H2 H3 H4 H5 H6 H7 H8] Hx Hp Hsh Hb. pose proof (outstanding_exchange e c x y held' held Hx Hp) as Ho.
  split; try done.
  - by rewrite Ho.
  - intros id. rewrite Ho. apply H2.
  - intros Hst id s. rewrite Ho. by apply H3.
  - intros k w. simpl. intros Hw. destruct (decide (k = c)) as [->|Hk].
    + rewrite list_lookup_insert_eq in Hw by (by eapply lookup_lt_Some). by simplify_eq.
    + rewrite list_lookup_insert_ne in Hw by done. destruct (H8 k w Hw) as [Hs E]. by rewrite decide_False in E.
Qed.

Lemma frame_context c y e : frame e (with_contexts <[c := y]> e).
Proof. split; try done. simpl. by rewrite length_insert. Qed.
End einv.
