(* ===== verification/EngineWork.v ===== *)
(** * The operations of the transfer engine keep its invariant

    Each operation of a pool, of a worker and of a caller runs without touching
    freed memory and restores the invariant of EngineInv.v: the moves of slices
    between queues first, then the routing of slices to devices, the turns of
    the workers, the slicing of requests and the life of a batch. *)

From S2P Require Import Prelude ClientProg Topology TransferEngine EngineInv.

(** ** Descriptors *)

(** A descriptor as a node publishes it: its devices are numbered like the
    devices of its topology, and every buffer has a key for each of them. *)
Record desc_ok (d : SegDesc) : Prop := {
  do_topology : topology_ok (sd_topology d);
  do_devices : length (sd_devices d) = length (hca_list_ (sd_topology d));
  do_keys b : b ∈ sd_buffers d →
    length (sb_lkey b) = length (sd_devices d) ∧ length (sb_rkey b) = length (sd_devices d);
}.

Lemma topology_select t rand loc hint retry : topology_ok t →
  ∃ i, selectDevice t rand loc hint retry = Some i ∧ (0 <= i → (Z.to_nat i < length (hca_list_ t))%nat).
Proof.
  intros Ht. destruct (resolved_matrix_ t !! loc) as [r|] eqn:Hr.
  - destruct (selectDevice_in t rand loc hint retry r Hr) as (i & h & E & [Hi Hn] & _); [by apply entry_of_topology|].
    exists i. split; [done|]. intros _. by eapply lookup_lt_Some.
  - exists ERR_DEVICE_NOT_FOUND. unfold selectDevice. rewrite Hr. done.
Qed.

(** A device that is chosen exists, and so do its keys. *)
Definition usable (d : SegDesc) (bd : nat * nat) : Prop :=
  is_Some (route_of d bd.1 bd.2) ∧ (bd.2 < length (sd_devices d))%nat ∧
  ∃ b lkey, sd_buffers d !! bd.1 = Some b ∧ sb_lkey b !! bd.2 = Some lkey.

Lemma usable_device d bd b : desc_ok d → sd_buffers d !! bd.1 = Some b →
  (bd.2 < length (hca_list_ (sd_topology d)))%nat → usable d bd.
Proof.
  intros [Ht Hd Hk] Hb Hlt. rewrite <-Hd in Hlt. destruct (Hk b) as [H1 H2]; [by eapply list_elem_of_lookup_2|].
  destruct (lookup_lt_is_Some_2 (sb_lkey b) bd.2) as [lkey El]; [by rewrite H1|].
  destruct (lookup_lt_is_Some_2 (sb_rkey b) bd.2) as [rkey Er]; [by rewrite H2|].
  destruct (lookup_lt_is_Some_2 (sd_devices d) bd.2) as [name En]; [done|].
  split_and!; [|done|by eauto]. unfold route_of. rewrite Hb. simpl. rewrite Er. simpl. rewrite En. by eexists.
Qed.

Lemma select_buffer_ok d rand hint offset length retry bs id : desc_ok d → drop id (sd_buffers d) = bs →
  ∃ o, select_buffer (sd_topology d) rand hint offset length retry bs id = Some o ∧ ∀ bd, o = Some bd → usable d bd.
Proof.
  intros Hd. revert id. induction bs as [|b bs IH]; intros id Hbs; simpl; [by eexists|].
  assert (sd_buffers d !! id = Some b) as Hb.
  { rewrite <-(Nat.add_0_r id), <-lookup_drop, Hbs. done. }
  assert (drop (S id) (sd_buffers d) = bs) as Hbs'.
  { replace (S id) with (id + 1)%nat by lia. by rewrite <-drop_drop, Hbs. }
  destruct (IH (S id) Hbs') as (o & Ho & Hu). destruct (out_of_buffer b offset length); [by exists o|].
  destruct (topology_select (sd_topology d) (rand (id + (id + 0))%nat) (sb_name b) hint retry) as (i & -> & Hi); [apply Hd|]. simpl.
  destruct (Z.leb_spec 0 i).
  { eexists. split; [done|]. intros bd [= <-]. eapply usable_device; [done..|]. by apply Hi. }
  destruct (topology_select (sd_topology d) (rand (id + (id + 0) + 1)%nat) kWildcardLocation hint retry) as (j & -> & Hj); [apply Hd|]. simpl.
  destruct (Z.leb_spec 0 j); [|by exists o].
  eexists. split; [done|]. intros bd [= <-]. eapply usable_device; [done..|]. by apply Hj.
Qed.

Lemma select_device_ok desc rand hint offset length retry : (∀ d, desc = Some d → desc_ok d) →
  ∃ o, select_device desc rand hint offset length retry = Some o ∧
    ∀ bd, o = Some bd → ∃ d, desc = Some d ∧ usable d bd.
Proof.
  intros Hd. destruct desc as [d|]; simpl; [|by exists None].
  destruct (select_buffer_ok d rand hint offset length retry (sd_buffers d) 0) as (o & Ho & Hu); [by apply Hd|done|].
  exists o. split; [done|]. intros bd Hbd. exists d. auto.
Qed.

(** ** Moves within a pool *)

Lemma alter_as_insert {A} (f : A → A) (l : list A) i x : l !! i = Some x → alter f i l = <[i := f x]> l.
Proof.
  intros Hi. apply list_eq. intros j. destruct (decide (j = i)) as [->|Hj].
  - rewrite list_lookup_alter_eq, Hi, list_lookup_insert_eq; [done|by eapply lookup_lt_Some].
  - by rewrite list_lookup_alter_ne, list_lookup_insert_ne.
Qed.

Lemma pool_ids_local p thread q q' a b : collective_slice_queue_ p !! thread = Some q →
  a ++ queue_ids q' ≡ₚ b ++ queue_ids q →
  a ++ pool_ids (p_with_locals <[thread := q']> p) ≡ₚ b ++ pool_ids p.
Proof.
  intros Hq Hp. unfold pool_ids. simpl. rewrite !(Permutation_app_swap_app _ (mjoin ((λ sh, queue_ids (sh_queue sh)) <$> slice_queue_ p))).
  f_equiv. rewrite !(assoc_L (++)). f_equiv. by eapply mjoin_exchange.
Qed.

Lemma pool_ids_shard p k sh sh' a b : slice_queue_ p !! k = Some sh →
  a ++ queue_ids (sh_queue sh') ≡ₚ b ++ queue_ids (sh_queue sh) →
  a ++ pool_ids (p_with_shards <[k := sh']> p) ≡ₚ b ++ pool_ids p.
Proof.
  intros Hq Hp. unfold pool_ids. simpl. rewrite !(assoc_L (++)). f_equiv. f_equiv.
  by apply (mjoin_exchange (λ sh, queue_ids (sh_queue sh)) _ _ sh).
Qed.

Lemma pool_ids_posted p l a b : a ++ l ≡ₚ b ++ posted_ p →
  a ++ pool_ids (p_with_posted (λ _, l) p) ≡ₚ b ++ pool_ids p.
Proof.
  intros Hp. unfold pool_ids. simpl. rewrite !(Permutation_app_swap_app _ (mjoin ((λ sh, queue_ids (sh_queue sh)) <$> slice_queue_ p))).
  f_equiv. rewrite !(Permutation_app_swap_app _ (mjoin _)). by f_equiv.
Qed.

(** What the surroundings guarantee: descriptors are well formed, and a device
    completes what it holds, once. *)
Record env_ok (env : Env) : Prop := {
  ev_meta target force d : meta env target force = Some d → desc_ok d;
  ev_completions l : NoDup l → NoDup (wc_slice <$> completions env l) ∧ ∀ id, id ∈ wc_slice <$> completions env l → id ∈ l;
}.

Lemma unsettled_route s rkey path : unsettled s → unsettled (w_with_route rkey path s) ∧ same_piece s (w_with_route rkey path s).
Proof. done. Qed.
Lemma unsettled_lkey s lkey : unsettled s → unsettled (w_with_lkey lkey s) ∧ same_piece s (w_with_lkey lkey s).
Proof. done. Qed.
Lemma unsettled_retry s : unsettled s → unsettled (w_retry s) ∧ same_piece s (w_retry s).
Proof. done. Qed.
Lemma unsettled_post s now : unsettled s → unsettled (w_post now s) ∧ same_piece s (w_post now s).
Proof. intros _. split; [by right|done]. Qed.

(** ** What an operation leaves of a pool *)

Definition pool_at (c : nat) (e : Engine) : option Pool := cx_pool <$> e_contexts e !! c.

Definition keeps {X A} (c : nat) (g : option Pool → X) (m : ST Engine A) : Prop :=
  ∀ e x e', m e = Some (x, e') → g (pool_at c e') = g (pool_at c e).

Lemma keeps_bind {X A B} c (g : option Pool → X) (m : ST Engine A) (k : A → ST Engine B) :
  keeps c g m → (∀ x, keeps c g (k x)) → keeps c g (m ≫= k).
Proof.
  intros Hm Hk e y e'. unfold mbind, st_bind. destruct (m e) as [[x e1]|] eqn:E; [|done].
  intros E'. rewrite (Hk _ _ _ _ E'). by eapply Hm.
Qed.

Lemma keeps_read {X A} c (g : option Pool → X) (m : ST Engine A) :
  (∀ e x e', m e = Some (x, e') → e_contexts e' = e_contexts e) → keeps c g m.
Proof. intros Hm e x e' E. unfold pool_at. by rewrite (Hm _ _ _ E). Qed.

Lemma keeps_set_pool {X} c (g : option Pool → X) f :
  (∀ p, g (Some (f p)) = g (Some p)) → keeps c g (set_pool c f).
Proof.
  intros Hf e x e'. unfold set_pool, mbind, st_bind, get_context, modify, pool_at.
  destruct (e_contexts e !! c) as [w|] eqn:E; [|done]. simpl. intros [= _ <-]. simpl.
  rewrite list_lookup_insert_eq by (by eapply lookup_lt_Some). apply Hf.
Qed.

Lemma keeps_set_active {X} c (g : option Pool → X) b : keeps c g (set_active c b).
Proof.
  intros e x e'. unfold set_active, mbind, st_bind, get_context, modify, pool_at.
  destruct (e_contexts e !! c) as [w|] eqn:E; [|done]. simpl. intros [= _ <-]. simpl.
  by rewrite list_lookup_insert_eq by (by eapply lookup_lt_Some).
Qed.

Lemma keeps_each {X A} c (g : option Pool → X) (f : A → ST Engine unit) l :
  (∀ x, keeps c g (f x)) → keeps c g (each f l).
Proof.
  intros Hf. induction l as [|x l IH]; simpl; [by intros e ? e' [= _ <-]|]. by apply keeps_bind.
Qed.

Lemma keeps_slice {X} c (g : option Pool → X) id f : keeps c g (set_slice id f).
Proof.
  apply keeps_read. intros e x e'. unfold set_slice, mbind, st_bind, get_slice, modify.
  destruct (e_slices e !! id); [|done]. by intros [= _ <-].
Qed.

Lemma keeps_task {X} c (g : option Pool → X) r f : keeps c g (set_task r f).
Proof.
  apply keeps_read. intros e x e'. unfold set_task. destruct (e_batches e !! r.1) as [b|]; [|done]. simpl.
  destruct (task_list b !! r.2); [|done]. by intros [= _ <-].
Qed.

Lemma keeps_get_slice {X} c (g : option Pool → X) id : keeps c g (get_slice id).
Proof. apply keeps_read. intros e x e'. unfold get_slice. destruct (e_slices e !! id); [|done]. by intros [= _ <-]. Qed.

Lemma keeps_get_context {X} c (g : option Pool → X) c' : keeps c g (get_context c').
Proof. apply keeps_read. intros e x e'. unfold get_context. destruct (e_contexts e !! c'); [|done]. by intros [= _ <-]. Qed.

Lemma keeps_ret {X A} c (g : option Pool → X) (x : A) : keeps c g (mret x).
Proof. by intros e y e' [= _ <-]. Qed.

Ltac keeps_step := first
  [ apply keeps_get_slice | apply keeps_get_context | apply keeps_slice | apply keeps_task | apply keeps_ret
  | apply keeps_set_active | apply keeps_bind; [|intros ?] | apply keeps_each; intros ? ].

Lemma keeps_mark {X} c (g : option Pool → X) id : keeps c g (markSuccess id) ∧ keeps c g (markFailed id).
Proof. split; unfold markSuccess, markFailed; repeat keeps_step. Qed.

Lemma keeps_when {X} c (g : option Pool → X) b m : keeps c g m → keeps c g (when b m).
Proof. destruct b; [done|intros _; apply keeps_ret]. Qed.

Lemma keeps_note_failure {X} c (g : option Pool → X) : (∀ ok bad p, g (Some (p_with_polls ok bad p)) = g (Some p)) →
  keeps c g (note_failure c).
Proof.
  intros Hg. unfold note_failure. apply keeps_bind; [apply keeps_get_context|]. intros x. cbv zeta.
  apply keeps_bind; [by apply keeps_set_pool|]. intros _. apply keeps_when, keeps_set_active.
Qed.

(** An operation that keeps part of the pool keeps what is known of it. *)
Lemma runs_keeps {X A} c (g : option Pool → X) (m : ST Engine A) e Q :
  keeps c g m → runs m e Q → runs m e (λ x e', Q x e' ∧ g (pool_at c e') = g (pool_at c e)).
Proof. intros Hk (x & e' & E & HQ). exists x, e'. split; [done|]. split; [done|by eapply Hk]. Qed.

Lemma runs_and {S A} (m : ST S A) s (P Q : A → S → Prop) : runs m s P → runs m s Q → runs m s (λ x s', P x s' ∧ Q x s').
Proof. intros (x & s' & E & HP) (y & t & E' & HQ). simplify_eq. by exists x, s'. Qed.

Lemma set_pool_at c f e p : pool_at c e = Some p → runs (set_pool c f) e (λ _ e', pool_at c e' = Some (f p)).
Proof.
  unfold pool_at. intros (x & Hx & ->)%fmap_Some. unfold set_pool. runs_step. eapply runs_get_context; [done|]. runs_step.
  simpl. by rewrite list_lookup_insert_eq by (by eapply lookup_lt_Some).
Qed.

Section work.
Context (cfg : Config) (strict : bool) (e0 : Engine) (c : nat).
Hypothesis Hc : (c < length (e_contexts e0))%nat.
Implicit Types (e : Engine) (held : list nat).

Definition good (held : list nat) (z : Z) (e : Engine) : Prop := einv cfg strict held c z e ∧ frame e0 e.

Lemma good_perm held held' z e : held ≡ₚ held' → good held z e → good held' z e.
Proof using Type. intros Hp [He Hf]. split; [by eapply einv_perm|done]. Qed.

Lemma good_context held z e : good held z e → ∃ x, e_contexts e !! c = Some x ∧ pool_shape cfg (cx_pool x) ∧
  submitted_slice_count_ (cx_pool x) = u64 (processed_slice_count_ (cx_pool x) + Z.of_nat (length (context_ids x)) + z).
Proof.
  intros [He Hf]. destruct (lookup_lt_is_Some_2 (e_contexts e) c) as [x Hx]; [by rewrite (fr_contexts _ _ Hf)|].
  exists x. split; [done|]. destruct (ei_pool _ _ _ _ _ _ He c x Hx) as [Hs Hb]. by rewrite decide_True in Hb.
Qed.

Lemma runs_set_pool f e x (Q : unit → Engine → Prop) : e_contexts e !! c = Some x →
  Q tt (with_contexts <[c := mkContext (cx_device x) (cx_active x) (f (cx_pool x))]> e) → runs (set_pool c f) e Q.
Proof. intros Hx HQ. unfold set_pool. runs_step. eapply runs_get_context; [done|]. by runs_step. Qed.

(** A move of slices between the hands and the queues of the pool. *)
Lemma move_ok f held held' z e :
  good held z e →
  (∀ p, pool_shape cfg p → pool_shape cfg (f p) ∧ submitted_slice_count_ (f p) = submitted_slice_count_ p ∧
    processed_slice_count_ (f p) = processed_slice_count_ p) →
  (∀ x, e_contexts e !! c = Some x → pool_shape cfg (cx_pool x) →
    held' ++ pool_ids (f (cx_pool x)) ≡ₚ held ++ pool_ids (cx_pool x)) →
  runs (set_pool c f) e (λ _, good held' (z + Z.of_nat (length held') - Z.of_nat (length held))).
Proof.
  intros Hg Hf Hp. destruct (good_context _ _ _ Hg) as (x & Hx & Hs & Hb). destruct Hg as [He Hfr].
  destruct (Hf (cx_pool x) Hs) as (Hs' & Es & Ep). pose proof (Hp x Hx Hs) as Hperm.
  eapply runs_set_pool; [done|]. split; [|etrans; [done|apply frame_context]].
  eapply einv_context; [done..|]. cbn [cx_pool]. rewrite Es, Ep, Hb. f_equal. unfold context_ids. cbn [cx_pool].
  apply Permutation_length in Hperm. rewrite !length_app in Hperm. lia.
Qed.

(** Counting submitted and processed slices. *)
Lemma counts_ok ds dp held z e : good held z e →
  runs (set_pool c (p_with_counts ds dp)) e (λ _, good held (z + ds - dp)).
Proof.
  intros Hg. destruct (good_context _ _ _ Hg) as (x & Hx & Hs & Hb). destruct Hg as [He Hfr].
  eapply runs_set_pool; [done|]. split; [|etrans; [done|apply frame_context]].
  eapply einv_context; [done..|]. cbn [cx_pool p_with_counts submitted_slice_count_ processed_slice_count_].
  rewrite Hb, u64_add_l. unfold context_ids. cbn [cx_pool].
  change (pool_ids (p_with_counts ds dp (cx_pool x))) with (pool_ids (cx_pool x)).
  rewrite <-!Z.add_assoc, u64_add_l. f_equal. lia.
Qed.

Lemma processed_ok held z e : good held z e → runs (processed c) e (λ _, good held (z - 1)).
Proof.
  intros Hg. eapply runs_mono; [by apply counts_ok|]. simpl. intros _ e'. by replace (z + 0 - 1) with (z - 1) by lia.
Qed.

Lemma markFailed_good id held z e : good (id :: held) z e → runs (markFailed id) e (λ _, good held z).
Proof.
  intros [He Hf]. eapply runs_mono; [by apply markFailed_ok|]. intros _ e' (He' & Hf' & _). split; [done|by etrans].
Qed.

Lemma markSuccess_good id held z e : good (id :: held) z e → runs (markSuccess id) e (λ _, good held z).
Proof.
  intros [He Hf]. eapply runs_mono; [by apply markSuccess_ok|]. intros _ e' (He' & Hf' & _). split; [done|by etrans].
Qed.

Lemma good_slice id held z e : good held z e → id ∈ held → ∃ s, e_slices e !! id = Some s ∧ unsettled s.
Proof.
  intros [He _] Hi. destruct (ei_live _ _ _ _ _ _ He id) as (s & t & Hs & Hu & _); [set_solver|]. by exists s.
Qed.

Lemma set_slice_good id f held z e : good held z e → id ∈ held →
  (∀ s, unsettled s → unsettled (f s) ∧ same_piece s (f s)) → runs (set_slice id f) e (λ _, good held z).
Proof.
  intros Hg Hi Hf. destruct (good_slice _ _ _ _ Hg Hi) as (s & Hs & Hu). destruct Hg as [He Hfr]. destruct (Hf s Hu).
  eapply runs_set_slice; [done|]. split; [by eapply einv_set_slice|by destruct Hfr].
Qed.

Lemma push_local_ok thread path id held z e : (thread < kTransferWorkerCount cfg)%nat → good (id :: held) z e →
  runs (push_local c thread path id) e (λ _, good held (z - 1)).
Proof.
  intros Hthread Hg. unfold push_local. eapply runs_mono.
  - eapply (move_ok _ (id :: held) held); [done| |].
    + intros p (H1 & H2 & H3). split; [|done]. split_and!; [done| |done]. simpl. by rewrite length_alter.
    + intros x Hx (_ & H2 & _). destruct (lookup_lt_is_Some_2 (collective_slice_queue_ (cx_pool x)) thread) as [q Hq]; [lia|].
      unfold p_with_locals. rewrite (alter_as_insert _ _ _ q Hq). change (mkPool _ _ _ _ _ _ _ _ _) with
        (p_with_locals <[thread := enqueue path id q]> (cx_pool x)).
      eapply pool_ids_local; [done|]. rewrite queue_ids_enqueue. by rewrite <-Permutation_middle.
  - simpl. intros _ e'. by replace (z + _ - _) with (z - 1) by lia.
Qed.

(** *** Routing *)

Section env.
Context (env : Env).
Hypothesis Henv : env_ok env.

Definition routing_ok (rt : Routing) : Prop :=
  length (rt_lists rt) = kShardCount ∧ ∀ target d, rt_descs rt !! target = Some (Some d) → desc_ok d.

(** The slices still to route, those accepted, and the others in hand. *)
Definition routing (rest : list nat) (z : Z) (ids : list nat) (rt : Routing) (e : Engine) : Prop :=
  routing_ok rt ∧ good (ids ++ mjoin (rt_lists rt) ++ rest) z e.

Lemma shard_of_lt target device : (shard_of target device < kShardCount)%nat.
Proof. unfold shard_of, kShardCount. pose proof (Z.mod_pos_bound (u64 (target * 10007 + Z.of_nat device)) (Z.of_nat 8)). lia. Qed.

Lemma fail_slice_ok rest z id ids rt rt' e : routing_ok rt' → rt_lists rt' = rt_lists rt →
  routing rest z (id :: ids) rt e → runs (markFailed id;; mret rt') e (λ rt', routing rest z ids rt').
Proof.
  intros Hrt' El [Hrt Hg]. runs_step. eapply runs_mono; [by apply markFailed_good|]. intros [] e' Hg'. runs_step.
  split; [done|]. by rewrite El.
Qed.

Lemma accept_slice_ok rest z id ids rt d bd e : routing rest z (id :: ids) rt e → usable d bd →
  runs (accept_slice rt (Some d) id bd.1 bd.2) e (λ rt', routing rest z ids rt').
Proof.
  intros [[Hl Hd] Hg] [[r Hr] _]. destruct (good_slice id _ _ _ Hg) as (s & Hs & Hu); [by left|].
  unfold accept_slice. runs_step. eapply runs_get_slice; [done|]. runs_step. eapply runs_lift; [done|]. runs_step.
  eapply runs_mono; [eapply set_slice_good; [done|by left|intros; by apply unsettled_route]|]. intros [] e' Hg'. runs_step.
  destruct (lookup_lt_is_Some_2 (rt_lists rt) (shard_of (w_target_id s) bd.2)) as [l El]; [rewrite Hl; apply shard_of_lt|].
  rewrite (alter_as_insert _ _ _ l El). split.
  - split; simpl; [by rewrite length_insert|done].
  - eapply good_perm; [|exact Hg']. simpl.
    assert (mjoin (<[shard_of (w_target_id s) bd.2 := l ++ [id]]> (rt_lists rt)) ≡ₚ id :: mjoin (rt_lists rt)) as ->.
    { pose proof (mjoin_exchange (λ x, x) (rt_lists rt) _ l (l ++ [id]) [] [id] El) as Hx. rewrite !list_fmap_id in Hx. apply Hx.
      simpl. by rewrite (Permutation_app_comm l). }
    simpl. apply Permutation_middle.
Qed.

Lemma route_slice_ok device rest z id ids rt e : routing rest z (id :: ids) rt e →
  runs (route_slice env device rt id) e (λ rt', routing rest z ids rt').
Proof.
  intros Hr. pose proof Hr as [[Hl Hd] Hg]. destruct (good_slice id _ _ _ Hg) as (s & Hs & Hu); [by left|].
  unfold route_slice. runs_step. eapply runs_get_slice; [done|]. cbv zeta.
  set (hint := if affinity env then device else EmptyString).
  destruct (match rt_failed rt !! u32 (w_target_id s) with Some ts => _ | None => _ end); [by eapply fail_slice_ok|].
  cbn [rt_descs rt_lists rt_failed]. set (desc := default (meta env (w_target_id s) false) (rt_descs rt !! w_target_id s)).
  assert (∀ d, desc = Some d → desc_ok d) as Hdesc.
  { unfold desc. intros d. destruct (rt_descs rt !! w_target_id s) as [o|] eqn:E; simpl; [intros ->; by eapply Hd|by apply (ev_meta _ Henv)]. }
  destruct (select_device_ok desc (draw env (2 * id)) hint (w_dest_addr s) (w_length s) 0 Hdesc) as (o & -> & Ho).
  runs_step. eapply runs_lift; [done|]. destruct o as [bd|].
  { destruct (Ho bd eq_refl) as (d & -> & Hbd). by apply accept_slice_ok. }
  assert (routing_ok (mkRouting (<[w_target_id s := meta env (w_target_id s) true]> (rt_descs rt))
    (delete (u32 (w_target_id s)) (rt_failed rt)) (rt_lists rt))) as Hrt.
  { split; [done|]. intros target d. cbn [rt_descs]. intros [[_ E]|[_ E]]%lookup_insert_Some; [by eapply (ev_meta _ Henv)|by eapply Hd]. }
  destruct (meta env (w_target_id s) true) as [d|] eqn:Em; [|by eapply fail_slice_ok].
  destruct (select_device_ok (Some d) (draw env (2 * id + 1)) hint (w_dest_addr s) (w_length s) 0) as (o & -> & Ho').
  { intros d' [= <-]. by eapply (ev_meta _ Henv). }
  runs_step. eapply runs_lift; [done|]. destruct o as [bd|]; [|by eapply fail_slice_ok].
  destruct (Ho' bd eq_refl) as (d' & [= <-] & Hbd). apply accept_slice_ok; [|done]. by split.
Qed.

Lemma route_slices_ok device rest z ids rt e : routing rest z ids rt e →
  runs (route_slices env device rt ids) e (λ rt', routing rest z [] rt').
Proof.
  revert rt e. induction ids as [|id ids IH]; intros rt e Hr; simpl; runs_step; [done|].
  eapply runs_mono; [by apply route_slice_ok|]. intros rt' e'. apply IH.
Qed.

(** *** Queueing *)

Lemma shard_move_ok k sh' held held' z e : (k < kShardCount)%nat → good held z e →
  (∀ sh, held' ++ queue_ids (sh_queue (sh' sh)) ≡ₚ held ++ queue_ids (sh_queue sh)) →
  runs (set_pool c (p_with_shards (alter sh' k))) e (λ _, good held' (z + Z.of_nat (length held') - Z.of_nat (length held))).
Proof.
  intros Hk Hg Hp. apply move_ok; [done| |].
  - intros p (H1 & H2 & H3). split; [|done]. split_and!; [|done..]. simpl. by rewrite length_alter.
  - intros x Hx (H1 & _). destruct (lookup_lt_is_Some_2 (slice_queue_ (cx_pool x)) k) as [sh Hsh]; [lia|].
    unfold p_with_shards. rewrite (alter_as_insert _ _ _ sh Hsh). change (mkPool _ _ _ _ _ _ _ _ _) with
      (p_with_shards <[k := sh' sh]> (cx_pool x)). by eapply pool_ids_shard.
Qed.

Lemma fill_shard_ok k ids held z e : (k < kShardCount)%nat → good (ids ++ held) (z + Z.of_nat (length ids)) e →
  runs (fill_shard c (k, ids)) e (λ _, good held z).
Proof.
  intros Hk Hg. unfold fill_shard. cbn [fst snd]. case_bool_decide as Hn.
  { runs_step. subst. simpl in Hg. by rewrite Z.add_0_r in Hg. }
  runs_step. eapply runs_mono.
  - eapply (runs_each _ (λ l e, good (l ++ held) (z + Z.of_nat (length l)) e)); [|done].
    intros id l e' Hg'. destruct (good_slice id _ _ _ Hg') as (s & Hs & Hu); [by left|].
    runs_step. eapply runs_get_slice; [done|]. eapply runs_mono.
    + eapply (shard_move_ok _ _ _ (l ++ held)); [done..|]. intros sh. simpl. rewrite queue_ids_enqueue.
      by rewrite <-Permutation_middle.
    + simpl. intros _ e''. by replace (z + _ + _ - _) with (z + Z.of_nat (length l)) by (rewrite ?length_app; simpl; lia).
  - intros [] e'. simpl. rewrite Z.add_0_r. intros Hg'. eapply runs_mono; [by eapply (shard_move_ok _ _ _ held)|].
    simpl. intros _ e''. by replace (z + _ - _) with z by lia.
Qed.

Lemma submitPostSend_ok rf ids held e : good (ids ++ held) 0 e →
  runs (submitPostSend env rf c ids) e (λ _, good held 0).
Proof.
  intros Hg. destruct (good_context _ _ _ Hg) as (x & Hx & _). unfold submitPostSend. runs_step.
  eapply runs_get_context; [done|]. runs_step. eapply runs_mono.
  { eapply (route_slices_ok _ held 0). split; [split; [done|done]|]. done. }
  intros rt e' [[Hl _] Hg']. simpl in Hg'. runs_step. set (n := Z.of_nat (length (mjoin (rt_lists rt)))).
  eapply runs_mono.
  - eapply (runs_each _ (λ ks e, Forall (λ k, k.1 < kShardCount)%nat ks ∧
      good (mjoin ks.*2 ++ held) (- n + Z.of_nat (length (mjoin ks.*2))) e)).
    + intros [k l] ks e'' [Hks Hg'']. apply Forall_cons in Hks as [Hk Hks]. eapply runs_mono.
      * apply (fill_shard_ok k l (mjoin ks.*2 ++ held) (- n + Z.of_nat (length (mjoin ks.*2)))); [done|].
        simpl in Hg''. rewrite length_app in Hg''. rewrite (assoc_L (++)).
        by replace (- n + _ + _) with (- n + Z.of_nat (length l + length (mjoin ks.*2))) by lia.
      * done.
    + assert ((imap pair (rt_lists rt)).*2 = rt_lists rt) as El.
      { apply list_eq. intros i. rewrite list_lookup_fmap, list_lookup_imap. by destruct (rt_lists rt !! i). }
      split.
      * apply Forall_lookup_2. intros i [k l]. rewrite list_lookup_imap. intros (l' & El' & E)%fmap_Some. simplify_eq. simpl.
        rewrite <-Hl. by eapply lookup_lt_Some.
      * rewrite El. fold n. by rewrite Z.add_opp_diag_l.
  - intros [] e'' [_ Hg'']. simpl in Hg''. rewrite Z.add_0_r in Hg''. eapply runs_mono; [by apply counts_ok|].
    simpl. intros _ e3. by replace (- n + _ - 0) with 0 by lia.
Qed.

(** *** Redispatch *)

Section worker.
Context (thread : nat).
Hypothesis Hthread : (thread < kTransferWorkerCount cfg)%nat.

Lemma fail_processed_ok id held z e : good (id :: held) z e →
  runs (markFailed id;; processed c) e (λ _, good held (z - 1)).
Proof.
  intros Hg. runs_step. eapply runs_mono; [by apply markFailed_good|]. intros [] e' Hg'. by apply processed_ok.
Qed.

Lemma redispatch_slice_ok id held z e : good (id :: held) z e →
  runs (redispatch_slice env c thread id) e (λ _, good held (z - 1)).
Proof.
  intros Hg. destruct (good_slice id _ _ _ Hg) as (s & Hs & Hu); [by left|].
  unfold redispatch_slice. runs_step. eapply runs_get_slice; [done|].
  destruct (w_max_retry_cnt s <=? w_retry_cnt s); [by apply fail_processed_ok|].
  destruct (meta env (w_target_id s) true) as [d|] eqn:Em; [|by apply fail_processed_ok].
  destruct (select_device_ok (Some d) (draw env (2 * id)) EmptyString (w_dest_addr s) (w_length s) (w_retry_cnt s)) as (o & -> & Ho).
  { intros d' [= <-]. by eapply (ev_meta _ Henv). }
  runs_step. eapply runs_lift; [done|]. destruct o as [bd|]; [|by apply fail_processed_ok].
  destruct (Ho bd eq_refl) as (d' & [= <-] & [r Hr] & _). runs_step. eapply runs_lift; [done|]. runs_step.
  eapply runs_mono; [eapply set_slice_good; [done|by left|intros; by apply unsettled_route]|].
  intros [] e' Hg'. by apply push_local_ok.
Qed.

Lemma redispatch_ok ids held z e : good (ids ++ held) (z + Z.of_nat (length ids)) e →
  runs (redispatch env c thread ids) e (λ _, good held z).
Proof.
  intros Hg. eapply runs_mono.
  - eapply (runs_each _ (λ l e, good (l ++ held) (z + Z.of_nat (length l)) e)); [|done].
    intros id l e' Hg'. eapply runs_mono; [by apply redispatch_slice_ok|]. simpl. intros _ e''.
    by replace (z + _ - 1) with (z + Z.of_nat (length l)) by lia.
  - simpl. intros _ e'. by rewrite Z.add_0_r.
Qed.

(** *** Taking slices from the shards *)

Lemma worker_shards_lt k workers : k ∈ worker_shards workers thread → (k < kShardCount)%nat.
Proof. unfold worker_shards. intros [_ [_ Hk]%elem_of_seq]%list_elem_of_filter. lia. Qed.

Lemma drain_shard_ok k held z e : (k < kShardCount)%nat → good held z e →
  runs (drain_shard c thread k) e (λ _, good held z).
Proof.
  intros Hk Hg. destruct (good_context _ _ _ Hg) as (x & Hx & (H1 & H2 & _) & _).
  destruct (lookup_lt_is_Some_2 (slice_queue_ (cx_pool x)) k) as [sh Hsh]; [lia|].
  unfold drain_shard. runs_step. eapply runs_get_context; [done|]. runs_step. eapply runs_lift; [done|].
  destruct (sh_count sh =? 0); [by runs_step|]. eapply runs_mono.
  - eapply (move_ok _ held held); [done| |].
    + intros p (G1 & G2 & G3). split; [|done]. split_and!; simpl; [by rewrite length_insert|by rewrite length_alter|done].
    + intros x' Hx' _. simplify_eq. destruct (lookup_lt_is_Some_2 (collective_slice_queue_ (cx_pool x)) thread) as [q Hq]; [lia|].
      set (p1 := p_with_shards <[k := mkShard ((λ _, []) <$> sh_queue sh) 0]> (cx_pool x)).
      change (held ++ pool_ids (p_with_locals (alter (merge_queue (sh_queue sh)) thread) p1) ≡ₚ held ++ pool_ids (cx_pool x)).
      unfold p_with_locals. rewrite (alter_as_insert _ _ _ q Hq). change (mkPool _ _ _ _ _ _ _ _ _) with
        (p_with_locals <[thread := merge_queue (sh_queue sh) q]> p1). f_equiv.
      etrans; [apply (pool_ids_local p1 thread q _ [] (queue_ids (sh_queue sh)) Hq); by rewrite queue_ids_merge|].
      apply (pool_ids_shard (cx_pool x) k sh _ (queue_ids (sh_queue sh)) [] Hsh). simpl.
      by rewrite queue_ids_cleared, app_nil_r.
  - simpl. intros _ e'. by replace (z + _ - _) with z by lia.
Qed.

Lemma drain_shards_ok ks held z e : (∀ k, k ∈ ks → (k < kShardCount)%nat) → good held z e →
  runs (each (drain_shard c thread) ks) e (λ _, good held z).
Proof.
  intros Hks Hg. eapply runs_mono.
  - eapply (runs_each _ (λ l e, (∀ k, k ∈ l → (k < kShardCount)%nat) ∧ good held z e)); [|done].
    intros k l e' [Hl Hg']. eapply runs_mono; [apply drain_shard_ok; [apply Hl; by left|done]|].
    intros [] e'' Hg''. split; [|done]. intros k' Hk'. apply Hl. by right.
  - by intros [] e' [_ Hg'].
Qed.

(** *** Posting *)

Definition local_of (o : option Pool) : option SliceQueue := o ≫= λ p, collective_slice_queue_ p !! thread.

Lemma good_pool held z e : good held z e → ∃ p, pool_at c e = Some p ∧ pool_shape cfg p.
Proof. intros (x & Hx & Hs & _)%good_context. exists (cx_pool x). unfold pool_at. by rewrite Hx. Qed.

Lemma good_pool_at held z e p : good held z e → pool_at c e = Some p →
  ∃ x, e_contexts e !! c = Some x ∧ cx_pool x = p.
Proof. intros _ (x & Hx & ->)%fmap_Some. by exists x. Qed.

Lemma set_local_ok path q l gone ids held z e : good held z e → local_of (pool_at c e) = Some q → q !! path = Some l →
  l ≡ₚ gone ++ ids →
  runs (set_local c thread path ids) e (λ _ e', good (gone ++ held) (z + Z.of_nat (length gone)) e' ∧
    local_of (pool_at c e') = Some (<[path := ids]> q)).
Proof.
  intros Hg Hq Hl Hp. destruct (good_pool _ _ _ Hg) as (p & Hpool & Hsh). rewrite Hpool in Hq. simpl in Hq.
  unfold set_local. apply runs_and.
  - eapply runs_mono; [eapply (move_ok _ held (gone ++ held)); [done| |]|].
    + intros p' (H1 & H2 & H3). split; [|done]. split_and!; [done| |done]. simpl. by rewrite length_alter.
    + intros x Hx _. unfold pool_at in Hpool. rewrite Hx in Hpool. injection Hpool as ->.
      unfold p_with_locals. rewrite (alter_as_insert _ _ _ q Hq). change (mkPool _ _ _ _ _ _ _ _ _) with
        (p_with_locals <[thread := <[path := ids]> q]> p).
      eapply pool_ids_local; [done|]. rewrite queue_ids_insert, (queue_ids_lookup path l q Hl), Hp.
      rewrite (Permutation_app_comm gone held), <-!(assoc_L (++)). done.
    + simpl. intros _ e'. rewrite length_app. by replace (z + _ - _) with (z + Z.of_nat (length gone)) by lia.
  - eapply runs_mono; [by apply set_pool_at|]. intros [] e' ->. simpl. by rewrite list_lookup_alter_eq, Hq.
Qed.

(** Taking everything out of the queue of the worker. *)
Lemma clear_local_ok q held e : good held 0 e → local_of (pool_at c e) = Some q →
  runs (set_pool c (p_with_locals <[thread := ∅]>)) e
    (λ _, good (queue_ids q ++ held) (0 + Z.of_nat (length (queue_ids q)))).
Proof.
  intros Hg Hq. eapply runs_mono; [eapply (move_ok _ held (queue_ids q ++ held)); [done| |]|].
  - intros p (H1 & H2 & H3). split; [|done]. split_and!; [done| |done]. simpl. by rewrite length_insert.
  - intros x Hx _. unfold pool_at in Hq. rewrite Hx in Hq. simpl in Hq.
    eapply pool_ids_local; [done|]. rewrite queue_ids_empty, app_nil_r. apply Permutation_app_comm.
  - intros [] e'. by replace (0 + Z.of_nat (length (queue_ids q))) with (0 + Z.of_nat (length (queue_ids q ++ held)) - Z.of_nat (length held))
      by (rewrite length_app; lia).
Qed.

Lemma set_posted_ok held held' l z e : good held z e →
  (∀ p, pool_at c e = Some p → held' ++ l p ≡ₚ held ++ posted_ p) →
  runs (set_pool c (λ p, p_with_posted (λ _, l p) p)) e
    (λ _, good held' (z + Z.of_nat (length held') - Z.of_nat (length held))).
Proof.
  intros Hg Hp. eapply (move_ok _ held held'); [done| |].
  - intros p Hs. split; done.
  - intros x Hx _. apply pool_ids_posted, Hp. unfold pool_at. by rewrite Hx.
Qed.

(** A slice in a queue may be updated. *)
Lemma set_slice_queued id f held z e : good held z e → id ∈ outstanding e →
  (∀ s, unsettled s → unsettled (f s) ∧ same_piece s (f s)) →
  runs (set_slice id f) e (λ _ e', good held z e' ∧ e_contexts e' = e_contexts e).
Proof.
  intros [He Hfr] Hi Hf. destruct (ei_live _ _ _ _ _ _ He id) as (s & t & Hs & Hu & _); [set_solver|].
  destruct (Hf s Hu). eapply runs_set_slice; [done|]. split; [split|done]; [by eapply einv_set_slice|by destruct Hfr].
Qed.

Lemma local_outstanding e q path l id : local_of (pool_at c e) = Some q → q !! path = Some l → id ∈ l → id ∈ outstanding e.
Proof.
  intros Hq Hl Hi. unfold local_of, pool_at in Hq. destruct (e_contexts e !! c) as [x|] eqn:Hx; [|done]. simpl in Hq.
  apply list_elem_of_join. exists (context_ids x). split.
  - unfold context_ids, pool_ids. apply elem_of_app. right. apply elem_of_app. left. apply list_elem_of_join.
    exists (queue_ids q). split; [rewrite (queue_ids_lookup path l q Hl); set_solver|].
    apply list_elem_of_fmap. exists q. split; [done|by eapply list_elem_of_lookup_2].
  - apply list_elem_of_fmap. exists x. split; [done|by eapply list_elem_of_lookup_2].
Qed.

Lemma post_work_ok path q ids room bad held z e : good held z e → local_of (pool_at c e) = Some q → q !! path = Some ids →
  runs (post_work env c thread path ids room bad) e (λ l e', good (l ++ held) (z + Z.of_nat (length l)) e' ∧
    ∃ ids', local_of (pool_at c e') = Some (<[path := ids']> q)).
Proof.
  intros Hg Hq Hl. unfold post_work. cbv zeta. set (n := (room `min` length ids)%nat). set (m := (default n bad `min` n)%nat).
  runs_step. eapply runs_mono.
  { eapply (runs_each _ (λ l e, good held z e ∧ local_of (pool_at c e) = Some q ∧ ∀ id, id ∈ l → id ∈ ids)).
    - intros id l e' (Hg' & Hq' & Hin). eapply runs_mono; [apply set_slice_queued; [done| |intros; by apply unsettled_post]|].
      + eapply local_outstanding; [done..|]. apply Hin. by left.
      + intros [] e'' [Hg'' Ec]. split_and!; [done| |intros i Hi; apply Hin; by right]. unfold pool_at in *. by rewrite Ec.
    - split_and!; [done..|]. intros id. rewrite elem_of_take. intros (i & Hi & _). by eapply list_elem_of_lookup_2. }
  intros [] e1 (Hg1 & Hq1 & _). runs_step. eapply runs_mono.
  { eapply (set_local_ok path q ids (take n ids)); [done..|]. by rewrite take_drop. }
  intros [] e2 [Hg2 Hq2]. runs_step. eapply runs_mono.
  { eapply (runs_keeps c local_of); [by apply keeps_set_pool|].
    eapply (set_posted_ok _ (drop m (take n ids) ++ held)); [done|]. intros p _.
    rewrite (Permutation_app_comm (posted_ p)), (assoc_L (++)). f_equiv.
    rewrite <-(take_drop m (take n ids)) at 3. rewrite <-!(assoc_L (++)), (Permutation_app_comm (take _ _)), (assoc_L (++)). done. }
  intros [] e3 [Hg3 Hq3]. runs_step. split; [|exists (drop n ids); congruence].
  rewrite !length_app in Hg3. revert Hg3. set (k := z + _ + _ - _). replace k with (z + Z.of_nat (length (drop m (take n ids)))) by lia. done.
Qed.

(** Neither counters of polls nor the state of the device matter. *)
Lemma pool_note_ok f held z e : good held z e →
  (∀ p, pool_shape cfg p → pool_shape cfg (f p) ∧ submitted_slice_count_ (f p) = submitted_slice_count_ p ∧
    processed_slice_count_ (f p) = processed_slice_count_ p) →
  (∀ p, pool_ids (f p) = pool_ids p) → runs (set_pool c f) e (λ _, good held z).
Proof.
  intros Hg Hf Hi. eapply runs_mono; [eapply (move_ok _ held held); [done..|]|].
  - intros x _ _. by rewrite Hi.
  - simpl. intros _ e'. by replace (z + _ - _) with z by lia.
Qed.

Lemma set_active_ok b held z e : good held z e → runs (set_active c b) e (λ _, good held z).
Proof.
  intros Hg. destruct (good_context _ _ _ Hg) as (x & Hx & Hs & Hb). destruct Hg as [He Hfr].
  unfold set_active. runs_step. eapply runs_get_context; [done|]. runs_step.
  split; [|etrans; [done|apply frame_context]]. by eapply einv_context.
Qed.

Lemma note_failure_ok held z e : good held z e → runs (note_failure c) e (λ _, good held z).
Proof.
  intros Hg. destruct (good_context _ _ _ Hg) as (x & Hx & _). unfold note_failure. runs_step.
  eapply runs_get_context; [done|]. cbv zeta. runs_step. eapply runs_mono; [by apply pool_note_ok|].
  intros [] e' Hg'. runs_step; [by apply set_active_ok|done].
Qed.

Lemma post_path_ok path q ids held z e : good held z e → local_of (pool_at c e) = Some q → q !! path = Some ids →
  runs (post_path env c thread path ids) e (λ l e', good (l ++ held) (z + Z.of_nat (length l)) e' ∧
    ∃ ids', local_of (pool_at c e') = Some (<[path := ids']> q)).
Proof.
  intros Hg Hq Hl.
  assert (∀ e, good held z e → local_of (pool_at c e) = Some q →
    runs (set_local c thread path [];; mret ids) e (λ l e', good (l ++ held) (z + Z.of_nat (length l)) e' ∧
      ∃ ids', local_of (pool_at c e') = Some (<[path := ids']> q))) as Hfail.
  { intros e' Hg' Hq'. runs_step. eapply runs_mono; [eapply (set_local_ok path q ids ids); [done..|]; by rewrite app_nil_r|].
    intros [] e'' [Hg'' Hq'']. runs_step. eauto. }
  unfold post_path. case_bool_decide as Hn.
  { runs_step. split; [by rewrite Z.add_0_r|]. exists ids. by rewrite insert_id. }
  destruct (endpoint env path) as [| | |room bad]; [by apply Hfail..| |by apply post_work_ok].
  runs_step. eapply runs_mono; [eapply (runs_keeps c local_of); [by apply keeps_note_failure|by apply note_failure_ok]|].
  intros [] e' [Hg' Hq']. apply Hfail; congruence.
Qed.

Lemma post_paths_ok entries q failed held z e : good (failed ++ held) (z + Z.of_nat (length failed)) e →
  local_of (pool_at c e) = Some q → NoDup entries.*1 → (∀ path ids, (path, ids) ∈ entries → q !! path = Some ids) →
  runs (post_paths env c thread entries failed) e (λ l, good (l ++ held) (z + Z.of_nat (length l))).
Proof.
  revert failed q e. induction entries as [|[path ids] entries IH]; intros failed q e Hg Hq Hn Hin; simpl; [by runs_step|].
  apply NoDup_cons in Hn as [Hp Hn]. runs_step. eapply runs_mono; [eapply post_path_ok; [done..|apply Hin; by left]|].
  intros l e' [Hg' [ids' Hq']]. eapply (IH (failed ++ l)); [|done|done|].
  - eapply good_perm; [|revert Hg'; rewrite length_app; set (k := z + _ + _); replace k with (z + Z.of_nat (length failed + length l)) by lia; done].
    by rewrite (assoc_L (++)), (Permutation_app_comm l).
  - intros path' l' Hl'. rewrite lookup_insert_ne; [apply Hin; by right|]. intros ->. apply Hp.
    apply list_elem_of_fmap. by exists (path', l').
Qed.

Lemma retry_all_ok ids held z e : good (ids ++ held) z e →
  runs (each (λ id, set_slice id w_retry) ids) e (λ _, good (ids ++ held) z).
Proof.
  intros Hg. eapply runs_mono.
  - eapply (runs_each _ (λ l e, (∀ id, id ∈ l → id ∈ ids) ∧ good (ids ++ held) z e)); [|by split].
    intros id l e' [Hl Hg']. eapply runs_mono; [eapply set_slice_good; [done| |intros; by apply unsettled_retry]|].
    + apply elem_of_app. left. apply Hl. by left.
    + intros [] e'' Hg''. split; [|done]. intros i Hi. apply Hl. by right.
  - by intros [] e' [_ Hg'].
Qed.

Lemma performPostSend_ok held e : good held 0 e → runs (performPostSend cfg env c thread) e (λ _, good held 0).
Proof.
  intros Hg. unfold performPostSend. runs_step. eapply runs_mono.
  { apply drain_shards_ok; [|done]. intros k. apply worker_shards_lt. }
  intros [] e1 Hg1. destruct (good_context _ _ _ Hg1) as (x & Hx & (H1 & H2 & H3) & _). runs_step.
  eapply runs_get_context; [done|].
  destruct (lookup_lt_is_Some_2 (collective_slice_queue_ (cx_pool x)) thread) as [q Hq]; [lia|].
  destruct (lookup_lt_is_Some_2 (tl_redispatch_counter (cx_pool x)) thread) as [seen Hseen]; [lia|].
  runs_step. eapply runs_lift; [done|]. runs_step. eapply runs_lift; [done|]. cbv zeta.
  assert (local_of (pool_at c e1) = Some q) as Hq1 by (unfold pool_at; by rewrite Hx).
  destruct (seen <? redispatch_counter_ (cx_pool x)).
  - runs_step. eapply runs_mono.
    { eapply (runs_keeps c local_of); [by apply keeps_set_pool|]. apply pool_note_ok; [done| |done].
      intros p (G1 & G2 & G3). split; [|done]. split_and!; [done..|]. simpl. by rewrite length_insert. }
    intros [] e2 [Hg2 Hq2]. rewrite Hq1 in Hq2. runs_step. eapply runs_mono; [by apply (clear_local_ok q)|].
    intros [] e3 Hg3. eapply runs_mono.
    + eapply (runs_each _ (λ es e, good (mjoin es.*2 ++ held) (0 + Z.of_nat (length (mjoin es.*2))) e)); [|done].
      intros [path ids] es e' Hg'. change (mjoin ((path, ids) :: es).*2) with (ids ++ mjoin es.*2) in Hg'. cbn [snd].
      apply redispatch_ok. rewrite (assoc_L (++)).
      by replace (0 + _ + Z.of_nat (length ids)) with (0 + Z.of_nat (length (ids ++ mjoin es.*2))) by (rewrite length_app; lia).
    + by intros [] e'.
  - runs_step. eapply runs_mono.
    { eapply (post_paths_ok _ q [] held 0); [done|done|apply NoDup_fst_map_to_list|]. intros path ids. by apply elem_of_map_to_list. }
    intros failed e2 Hg2. runs_step. eapply runs_mono; [eapply retry_all_ok; exact Hg2|].
    intros [] e3 Hg3. by apply redispatch_ok.
Qed.

(** *** Completions *)

Definition posted_of (o : option Pool) : list nat := default [] (posted_ <$> o).

Lemma posted_nodup held z e : good held z e → NoDup (posted_of (pool_at c e)).
Proof.
  intros Hg. destruct (good_context _ _ _ Hg) as (x & Hx & _). destruct Hg as [He _].
  pose proof (ei_nodup _ _ _ _ _ _ He) as (_ & _ & Hn)%NoDup_app. unfold pool_at, posted_of. rewrite Hx. simpl.
  eapply sublist_NoDup; [exact Hn|]. unfold outstanding. apply list_elem_of_split_length in Hx as (l1 & l2 & -> & _).
  rewrite fmap_app, join_app, fmap_cons. cbn [mjoin list_join]. apply sublist_inserts_l, sublist_inserts_r.
  unfold context_ids, pool_ids. by apply sublist_inserts_l, sublist_inserts_l.
Qed.

Lemma filter_ne_perm (id : nat) l : NoDup l → id ∈ l → l ≡ₚ id :: filter (λ j, j ≠ id) l.
Proof.
  intros Hn Hi. apply NoDup_Permutation; [done| |].
  - apply NoDup_cons. split; [|by apply NoDup_filter]. rewrite list_elem_of_filter. tauto.
  - intros j. rewrite elem_of_cons, list_elem_of_filter. destruct (decide (j = id)); naive_solver.
Qed.

Lemma take_completion_ok id held z e : good held z e → id ∈ posted_of (pool_at c e) →
  runs (take_completion c id) e (λ _ e', good (id :: held) (z + 1) e' ∧
    posted_of (pool_at c e') = filter (λ j, j ≠ id) (posted_of (pool_at c e))).
Proof.
  intros Hg Hi. pose proof (posted_nodup _ _ _ Hg) as Hn. destruct (good_context _ _ _ Hg) as (x & Hx & _).
  assert (pool_at c e = Some (cx_pool x)) as Hp by (unfold pool_at; by rewrite Hx). rewrite Hp in Hi, Hn. simpl in Hi, Hn.
  unfold take_completion. runs_step. eapply runs_get_context; [done|]. rewrite bool_decide_true by done. apply runs_and.
  - eapply runs_mono; [eapply (set_posted_ok held (id :: held)); [done|]|].
    + intros p Hp'. rewrite Hp in Hp'. injection Hp' as <-. rewrite (filter_ne_perm id (posted_ (cx_pool x))) at 2 by done.
      by rewrite <-Permutation_middle.
    + intros [] e'. by replace (z + 1) with (z + Z.of_nat (length (id :: held)) - Z.of_nat (length held)) by (simpl; lia).
  - eapply runs_mono; [by eapply set_pool_at|]. intros [] e' ->. by rewrite Hp.
Qed.

Lemma poll_failed_ok id held z e : good (id :: held) (z + 1) e →
  runs (note_failure c;; set_slice id w_retry;; s ← get_slice id;
    if w_max_retry_cnt s <=? w_retry_cnt s then markFailed id;; processed c
    else
      push_local c thread (w_peer_nic_path s) id;;
      set_pool c (λ p, p_with_redispatch (redispatch_counter_ p + 1) (tl_redispatch_counter p) p)) e (λ _, good held z).
Proof.
  intros Hg. runs_step. eapply runs_mono; [by apply note_failure_ok|]. intros [] e1 Hg1.
  runs_step. eapply runs_mono; [eapply set_slice_good; [done|by left|intros; by apply unsettled_retry]|]. intros [] e2 Hg2.
  destruct (good_slice id _ _ _ Hg2) as (s & Hs & Hu); [by left|]. runs_step. eapply runs_get_slice; [done|].
  replace z with (z + 1 - 1) by lia. destruct (w_max_retry_cnt s <=? w_retry_cnt s); [by apply fail_processed_ok|].
  runs_step. eapply runs_mono; [by apply push_local_ok|]. intros [] e3 Hg3. by apply pool_note_ok.
Qed.

Lemma poll_one_ok wc held z e : good held z e → wc_slice wc ∈ posted_of (pool_at c e) →
  runs (poll_one c thread wc) e (λ _ e', good held (z + if wc_success wc then 1 else 0) e' ∧
    posted_of (pool_at c e') = filter (λ j, j ≠ wc_slice wc) (posted_of (pool_at c e))).
Proof.
  intros Hg Hi. unfold poll_one. cbv zeta. runs_step. eapply runs_mono; [by apply take_completion_ok|].
  intros [] e1 [Hg1 Hp1]. rewrite <-Hp1. apply runs_keeps.
  - destruct (wc_success wc).
    + apply keeps_bind; [apply keeps_mark|]. intros _. by apply keeps_set_pool.
    + apply keeps_bind; [by apply keeps_note_failure|]. intros _. do 2 (keeps_step; [keeps_step|]).
      destruct (_ <=? _); keeps_step; try apply keeps_mark; by apply keeps_set_pool.
  - destruct (wc_success wc); [|rewrite Z.add_0_r; by apply poll_failed_ok].
    runs_step. eapply runs_mono; [by apply markSuccess_good|]. intros [] e2 Hg2. by apply pool_note_ok.
Qed.

Lemma performPollCq_ok held e : good held 0 e → runs (performPollCq env c thread) e (λ _, good held 0).
Proof.
  intros Hg. destruct (good_context _ _ _ Hg) as (x & Hx & _). unfold performPollCq. runs_step.
  eapply runs_get_context; [done|]. cbv zeta. set (wcs := completions env (posted_ (cx_pool x))).
  assert (posted_of (pool_at c e) = posted_ (cx_pool x)) as Hp by (unfold pool_at; by rewrite Hx).
  pose proof (posted_nodup _ _ _ Hg) as Hn. rewrite Hp in Hn. destruct (ev_completions _ Henv _ Hn) as [Hwn Hwi].
  fold wcs in Hwn, Hwi. set (succ := λ l, Z.of_nat (length (filter (λ wc, wc_success wc) l))).
  runs_step. eapply runs_mono.
  - eapply (runs_each _ (λ l e, good held (succ wcs - succ l) e ∧ NoDup (wc_slice <$> l) ∧
      ∀ id, id ∈ wc_slice <$> l → id ∈ posted_of (pool_at c e))).
    + intros wc l e' (Hg' & Hn' & Hi'). rewrite fmap_cons in Hn'. apply NoDup_cons in Hn' as [Hni Hn'].
      eapply runs_mono; [apply poll_one_ok; [done|]; apply Hi'; rewrite fmap_cons; by left|].
      intros [] e'' [Hg'' Hp'']. split_and!; [|done|].
      * revert Hg''. replace (succ wcs - succ (wc :: l) + _) with (succ wcs - succ l); [done|]. unfold succ.
        rewrite filter_cons. destruct (wc_success wc); [rewrite decide_True by done|rewrite decide_False by (intros [])]; simpl; lia.
      * intros id Hid. rewrite Hp'', list_elem_of_filter. split; [by intros ->|]. apply Hi'. rewrite fmap_cons. by right.
    + split_and!; [by rewrite Z.sub_diag|done|]. intros id. rewrite Hp. apply Hwi.
  - intros [] e' (Hg' & _). eapply runs_mono; [by apply counts_ok|]. intros [] e''. fold (succ wcs).
    assert (succ wcs - succ [] + 0 - succ wcs = 0) as -> by (unfold succ; simpl; lia). done.
Qed.

Lemma transferWorker_ok held e : good held 0 e → runs (transferWorker cfg env c thread) e (λ _, good held 0).
Proof.
  intros Hg. destruct (good_context _ _ _ Hg) as (x & Hx & _). unfold transferWorker. runs_step.
  eapply runs_get_context; [done|]. destruct (_ =? _); [by runs_step|]. runs_step.
  eapply runs_mono; [by apply performPostSend_ok|]. intros [] e' Hg'. by apply performPollCq_ok.
Qed.
End worker.
End env.
End work.
